(* ===== verification/_CoqProject ===== *)
-Q . S2P
Prelude.v
Varint.v
Bits.v
Bitstream.v
Gorilla.v
SortedSet.v
EventTime.v
Float64.v
Cursor.v
VarLen.v
SchemaVarLen.v
TypedSamples.v
TypedCodecs.v
ExpHistogram.v
OtlpReset.v
Arena.v
BlockCodec.v
Block.v
Governor.v
Sort.v
Text.v
Display.v
Frame.v
Fields.v
SegmentId.v
Wal.v
Manifest.v
Files.v
ManifestCoordinator.v
WalDir.v
Series.v
EncodedSeries.v
HeadWindow.v
HeadBuffer.v
Otlp.v
OtlpLabels.v
Normalizer.v
Symbols.v
FlatStore.v
NaiveStore.v
BitPack.v
KeySetStore.v
SealedStore.v
WalReplay.v
Chunk.v
ChunkWriter.v
ChunkIndex.v
ChunkLocator.v
ChunkScalar.v
LiveCoverage.v
SeriesTable.v
