(* ===== verification/Prelude.v ===== *)
(** * Chronoxide: a verification library for the storage core

    Chronoxide is a time-series database for OpenTelemetry metrics.  An ingester
    receives OTLP batches, appends them to a write-ahead log, turns data points
    into samples of labelled series and keeps the latest windows in memory, in
    compressed blocks; completed windows become immutable segments, published by a
    manifest; queries read the head and the segments.  This library models the
    crate [chronoxide-core]: the path of a sample from a log record to the blocks of
    the head, and what the log, its checkpoints and the manifest keep on disk.

    ** How the parts interact

    [WalReplay] is the composition of almost everything: a log record ([Wal], over
    [Frame], [Fields] and [Files]) holds a batch of data points ([Otlp]); the
    ingest-time policy ([EventTime]) accepts each or not; its attributes become a
    canonical label set ([OtlpLabels], [Display]), which a label store interns as a
    series ([FlatStore], over [Symbols] and [Normalizer]); cumulative histograms are
    stamped with reset hints ([OtlpReset]); the head ([HeadBuffer]) puts the sample
    in one of two lanes of its time range ([HeadWindow]); there it is pushed to the
    series's encoding ([EncodedSeries], [Series]), a sequence of blocks ([Block]) of
    one codec ([BlockCodec] and the codecs below it) in the window's arena
    ([Arena]).  Sealed samples are written to chunk files ([ChunkWriter]), whose
    entries are kept per series ([ChunkLocator]) and written to an index
    ([ChunkIndex]); chunks are read back whole ([Chunk]) or as their counts and sums
    ([ChunkScalar]).
    [ManifestCoordinator] publishes sealed segments ([Manifest],
    [SegmentId]), and [WalDir] truncates the log that they make unnecessary.
    [Governor] accounts for the memory of segment metadata.

    ** Files, and the sources they model (under [src/chronoxide-core/src])

    Foundations, with no source of their own: [Prelude] (results, machine integers,
    byte lists, tactics), [Bits] (bit strings), [Float64] (doubles as bit patterns),
    [Sort] (stable sorting and deduplication), [Text] (UTF-8 and decimal text),
    [Display] (printing scalars), [Cursor] (the contract of a decoder), [Frame] and
    [Fields] (records and their fields), [Files] (a directory with faults and
    crashes).

    - Encodings, [storage/encoding]: [Varint] (zigzag.rs, varint.rs), [Bitstream]
      (bitstream.rs), [Gorilla] (gorilla.rs), [VarLen] (varlen.rs), [SchemaVarLen]
      (schema_varlen.rs).
    - Values: [TypedSamples] and [TypedCodecs] ([storage/head/types.rs] and the wire
      fields of [head/encoded.rs]), [ExpHistogram] ([head/projection.rs]),
      [OtlpReset] (otlp_reset.rs), [Otlp] (otlp.rs), [EventTime] (event_time.rs).
    - Blocks: [Arena] ([storage/arena.rs]), [BlockCodec] and [Block]
      ([storage/block.rs]).
    - Head, [storage/head]: [Series] and [EncodedSeries] (encoded.rs), [HeadWindow]
      (window.rs), [HeadBuffer] (buffer.rs), [SeriesTable] (series_table.rs,
      series_table/iter.rs).
    - Live coverage: [LiveCoverage] ([storage/live_coverage.rs]).
    - Labels: [OtlpLabels] (otlp_labelset.rs), [Normalizer] (labels/normalizer.rs),
      [Symbols] (labels/symbol_table.rs); in [labels/interners], [FlatStore] (flat.rs),
      [NaiveStore] (naive.rs), [KeySetStore] (keyset.rs), [BitPack] (packing.rs) and
      [SealedStore] (the seals of keyset.rs, fixed_width.rs, bit_packed.rs).
    - Log: [Wal] and [WalDir] ([storage/wal.rs]), [WalReplay]
      ([storage/wal_replay.rs]).
    - Chunks, [storage/chunk]: [Chunk] (types.rs, the record decoder of codec.rs),
      [ChunkScalar] (the projections of codec.rs), [ChunkWriter] (writer.rs),
      [ChunkIndex] (index.rs), [ChunkLocator] (entry_store.rs, indexed_locator.rs).
    - Segments: [SegmentId] ([storage/segment/id.rs]), [Manifest] and
      [ManifestCoordinator] ([storage/manifest.rs]), [SortedSet]
      ([storage/sorted_set.rs]), [Governor] ([storage/metadata_governor.rs]).

    ** How the code is represented

    A [w]-bit integer is a [Z], with its wrapping, saturating or checked arithmetic
    written out; an [f64] is the integer of its bits; a string is its UTF-8 bytes, a
    list of [Z].  A [Result] is [result E A], a panic is [None] (or the failure
    [Panic] of a [run]), and a method on [&mut self] is a function to the new state.
    A hash map whose order is never observed is a [gmap].  Reference counts, locks
    and reserved capacity are left out: an operation under a mutex is atomic, and
    what runs concurrently is a sequence of operations.

    Code outside the repository is a class with the laws the program relies on:
    CRC-32C ([Crc32c]), ULIDs ([SegmentId]), [prost]'s decoder ([OtlpProto]), the
    hashers ([SymbolHash], [LabelSetHashers]), the iteration order of hash tables
    ([TableOrder]), SHA-256 and the growth of small vectors ([Sha256],
    [SmallVecGrowth] in [LiveCoverage]); the allocator is a sequence of answers, and a directory is the
    machine of [Files].  Each class has a concrete instance in a witness.  The
    operations of the float codecs ALP, Chimp and Elf, which are not modelled, are
    parameters with no law ([OtherFloatCodecs]): of float samples, the theorems
    about the head speak only when its configuration names the raw encoding or
    Gorilla, the default ([exact_encoding]).

    Interfaces inside the program are classes too, and clients are proved against
    their laws: [BlockCodec]/[BlockCodecLaws] between the codecs and the blocks,
    [VarLenEncoding] and [SchemaVarLenEncoding] between typed values and their block
    codecs, [SymbolTable]/[SymbolTableLaws] between a symbol table and a label
    store, [LabelSetStore]/[LabelSetStoreLaws] between a label store and its users,
    [OtlpLabelSetInterner] between label building and interning,
    [SeriesChunkEntries]/[SeriesChunkEntriesLaws] between a row of chunk entries and
    the store.

    ** What is proved

    - Codecs: what is encoded is read back, and the decoder accepts nothing else
      (varints, bit stream, Gorilla, fields, typed values, blocks of varying
      length, log records, batch and checkpoint payloads).
    - Blocks and arena: buffers handed out never overlap and stay readable; a failed
      push leaves a block as it was; a sealed block decodes to its samples; a series
      in a window refines the list of what was pushed to it.
    - Head: a sample is rejected, dropped, refused or accepted exactly as lateness,
      kind and shape demand; every accepted sample is in exactly one window of its range and lane;
      merging the lanes keeps the last write of every timestamp; the paged table of
      series is the finite map that the windows use, with exact counters and
      iterators.
    - Labels: the label set of a data point has strictly increasing keys, each with
      the value that the code's rule gives it (its last scalar value, the data
      point's before the resource's; the storage specification has another rule for
      values that are not scalars), the same on both construction paths; a flat
      store, with any colliding hashes, interns canonical label sets as a list of
      distinct normal forms does and refuses none while it has room, and so do the
      naive and the dictionary-encoded store, which answer alike; a set that is not
      canonical panics, as the debug assertions of the flat, naive and dictionary
      stores say; both sealed layouts show what the store they come from
      does; the symbol cells of a prepared plan change no answer.
    - Reset hints: the two-phase update agrees with the one-phase one, and both with
      the history of the series.
    - Durability: a log or manifest torn anywhere reads as its whole records; an
      append that is tried again writes its record exactly once; a checkpoint is
      published after what it points into is durable; truncation removes no record
      that a checkpoint needs.
    - Replay: it ends on any bytes, a torn log replays as its whole records, and a
      successful replay is a run of valid samples of the head, so that the theorems
      of the head hold of what it rebuilt.
    - Chunks: the record decoder accepts exactly the images of well-formed chunks;
      what a run of appends wrote, with calls refused and writes that fail before
      they took a byte, reads back through the entries it returned, whatever is
      appended after it, and through the index of those entries, series by series;
      after a write that tore a frame the writer's offset is behind its file, and the
      next entry points at the wrong bytes (an example shows it); the readers of an index
      agree, and a batch of ranges reads what each range does; a projection shows the counts and sums of the chunk that the full decoder reads,
      from the payload and from the lane.
    - Live coverage: a set of ownership ranges holds exactly the sequence numbers
      given to it, in one canonical form, through appends, prepared commits and
      unions; the ledger of a series partitions what it was given by window.
    - Memory: the governor's totals are the sums of the live charges and never
      exceed its budgets.

    ** Fuel

    Loops that are not structural take fuel, with a theorem that the fuel given is
    enough: ten turns for a varint, eight for a refill or a flush of the bit
    stream, a turn for each bit of a packed code, a turn for each element of a merge
    ([SortedSet], [OtlpLabels]) or of an iterator ([SeriesTable]), a turn for each
    byte of a log ([replay_terminates]: a record has at least twenty).

    ** Not modelled

    The codecs ALP and Elf (they compute with floating-point arithmetic) and Chimp; the
    readers over the file manager and the second version of the chunk index, the
    series, symbol and postings files and the queries over them (they are large, and would come next, in that order); the live mode of
    the head ([LiveCoverage] stands on its own; the frozen views and the catalog
    that carry its sets are shared through reference counts and atomics); the
    versioned label store and the symbol tables over external string crates;
    estimates of memory for reports; the file manager, caches, ingester threads,
    HTTP API, PromQL and command-line tools, which are I/O, locks or glue around
    external frameworks. *)
From Stdlib Require Export ZArith Lia.
From stdpp Require Export base option numbers strings gmap list_numbers list.

#[global] Open Scope Z_scope.

(** ** Results and I/O errors

    [std::io::Error] is a kind and a message; [Result<T, E>] is [result E T].
    The [?] operator is [mbind], written [x ← m; k]. *)

Inductive ErrorKind :=
  | InvalidData
  | InvalidInput
  | UnexpectedEof
  | OutOfMemory
  | Unsupported
  | NotFound
  | WouldBlock
  | OtherError.

#[export] Instance ErrorKind_eq_dec : EqDecision ErrorKind.
Proof. solve_decision. Defined.

Record io_error := io_err { err_kind : ErrorKind; err_message : string }.

#[export] Instance io_error_eq_dec : EqDecision io_error.
Proof. solve_decision. Defined.

Inductive result (E A : Type) :=
  | Ok (a : A)
  | Err (e : E).
Arguments Ok {E A} a.
Arguments Err {E A} e.

Abbreviation io_result := (result io_error).

#[export] Instance result_ret {E} : MRet (result E) := λ A a, Ok a.
#[export] Instance result_bind {E} : MBind (result E) := λ A B f m,
  match m with Ok a => f a | Err e => Err e end.

Definition is_ok {E A} (r : result E A) : bool :=
  match r with Ok _ => true | Err _ => false end.

(** [Option::ok_or]. *)
Definition ok_or {E A} (e : E) (o : option A) : result E A :=
  match o with Some a => Ok a | None => Err e end.

(** [Error::new(kind, message)] as a failing result. *)
Definition fail {A} (k : ErrorKind) (m : string) : io_result A := Err (io_err k m).

Lemma bind_ok {E A B} (m : result E A) (f : A → result E B) b :
  m ≫= f = Ok b ↔ ∃ a, m = Ok a ∧ f a = Ok b.
Proof. destruct m; simpl; naive_solver. Qed.

(** Inverts a chain of binds known to end in [Ok]. *)
Ltac inv_ok :=
  repeat match goal with
  | H : Ok _ = Ok _ |- _ => injection H as H; subst
  | H : Err _ = Ok _ |- _ => discriminate H
  | H : Ok _ = Err _ |- _ => discriminate H
  | H : fail _ _ = Ok _ |- _ => discriminate H
  | H : mbind _ ?m = Ok _ |- _ =>
      let a := fresh "a" in let Ha := fresh "Ha" in
      apply bind_ok in H as (a & Ha & H)
  | H : (if ?b then _ else _) = Ok _ |- _ => let Hb := fresh "Hb" in destruct b eqn:Hb
  end.

(** ** Machine integers

    A [w]-bit unsigned integer is a [Z] in [0, 2^w); a signed one a [Z] in
    [-2^(w-1), 2^(w-1)).  [usize] is 64 bits wide. *)

Abbreviation u8_max := 255.
Abbreviation u16_max := 65535.
Abbreviation u32_max := 4294967295.
Abbreviation u64_max := 18446744073709551615.
Abbreviation usize_max := 18446744073709551615.
Abbreviation i64_max := 9223372036854775807.
Abbreviation i64_min := (-9223372036854775808).

Definition in_u8 (z : Z) : Prop := 0 ≤ z ≤ u8_max.
Definition in_u16 (z : Z) : Prop := 0 ≤ z ≤ u16_max.
Definition in_u32 (z : Z) : Prop := 0 ≤ z ≤ u32_max.
Definition in_u64 (z : Z) : Prop := 0 ≤ z ≤ u64_max.
Definition in_i32 (z : Z) : Prop := -2147483648 ≤ z ≤ 2147483647.
Definition in_i64 (z : Z) : Prop := i64_min ≤ z ≤ i64_max.

Definition wrap_u8 (z : Z) : Z := z `mod` 256.
Definition wrap_u64 (z : Z) : Z := z `mod` 18446744073709551616.
(** Two's-complement reinterpretation of the low 64 (32) bits as a signed integer. *)
Definition wrap_i64 (z : Z) : Z :=
  (z + 9223372036854775808) `mod` 18446744073709551616 - 9223372036854775808.
Definition wrap_i32 (z : Z) : Z :=
  (z + 2147483648) `mod` 4294967296 - 2147483648.

Definition checked_add_u64 (a b : Z) : option Z :=
  if a + b <=? u64_max then Some (a + b) else None.
Definition checked_sub_u64 (a b : Z) : option Z :=
  if b <=? a then Some (a - b) else None.
Definition checked_mul_u64 (a b : Z) : option Z :=
  if a * b <=? u64_max then Some (a * b) else None.
Definition saturating_add_u64 (a b : Z) : Z := Z.min (a + b) u64_max.
Definition saturating_mul_u64 (a b : Z) : Z := Z.min (a * b) u64_max.
Definition saturating_add_u32 (a b : Z) : Z := Z.min (a + b) u32_max.
Definition saturating_sub (a b : Z) : Z := Z.max 0 (a - b).
(** [uN::try_from]. *)
Definition try_u16 (z : Z) : option Z := if (0 <=? z) && (z <=? u16_max) then Some z else None.
Definition try_u32 (z : Z) : option Z := if (0 <=? z) && (z <=? u32_max) then Some z else None.
Definition try_u64 (z : Z) : option Z := if (0 <=? z) && (z <=? u64_max) then Some z else None.
Definition try_i32 (z : Z) : option Z :=
  if (-2147483648 <=? z) && (z <=? 2147483647) then Some z else None.

Lemma wrap_u64_small z : in_u64 z → wrap_u64 z = z.
Proof. intros []. apply Z.mod_small. lia. Qed.
Lemma wrap_u64_range z : in_u64 (wrap_u64 z).
Proof. unfold in_u64, wrap_u64. pose proof (Z.mod_pos_bound z 18446744073709551616). lia. Qed.
Lemma wrap_i64_small z : in_i64 z → wrap_i64 z = z.
Proof. intros []. unfold wrap_i64. rewrite Z.mod_small; lia. Qed.
Lemma wrap_i64_range z : in_i64 (wrap_i64 z).
Proof.
  unfold in_i64, wrap_i64.
  pose proof (Z.mod_pos_bound (z + 9223372036854775808) 18446744073709551616). lia.
Qed.
(** Reinterpreting as unsigned and back is the identity on [i64]. *)
Lemma wrap_i64_u64 z : wrap_i64 (wrap_u64 z) = wrap_i64 z.
Proof. unfold wrap_i64, wrap_u64. rewrite Zplus_mod_idemp_l. done. Qed.
Lemma wrap_u64_i64 z : wrap_u64 (wrap_i64 z) = wrap_u64 z.
Proof.
  unfold wrap_i64, wrap_u64. rewrite Zminus_mod_idemp_l. f_equal. lia.
Qed.

Lemma checked_add_u64_Some a b c :
  checked_add_u64 a b = Some c ↔ c = a + b ∧ a + b ≤ u64_max.
Proof. unfold checked_add_u64. destruct (Z.leb_spec (a + b) u64_max); naive_solver lia. Qed.
Lemma checked_add_u64_fits a b : a + b ≤ u64_max → checked_add_u64 a b = Some (a + b).
Proof. intros. by apply checked_add_u64_Some. Qed.
Lemma checked_sub_u64_Some a b c :
  checked_sub_u64 a b = Some c ↔ c = a - b ∧ b ≤ a.
Proof. unfold checked_sub_u64. destruct (Z.leb_spec b a); naive_solver lia. Qed.
Lemma checked_sub_u64_fits a b : b ≤ a → checked_sub_u64 a b = Some (a - b).
Proof. intros. by apply checked_sub_u64_Some. Qed.
Lemma try_u16_fits z : in_u16 z → try_u16 z = Some z.
Proof. intros []. unfold try_u16. rewrite !(proj2 (Z.leb_le _ _)) by lia. done. Qed.
Lemma try_u32_fits z : in_u32 z → try_u32 z = Some z.
Proof. intros []. unfold try_u32. rewrite !(proj2 (Z.leb_le _ _)) by lia. done. Qed.
Lemma try_u64_fits z : in_u64 z → try_u64 z = Some z.
Proof. intros []. unfold try_u64. rewrite !(proj2 (Z.leb_le _ _)) by lia. done. Qed.
Lemma try_u16_Some z n : try_u16 z = Some n ↔ n = z ∧ in_u16 z.
Proof.
  unfold try_u16, in_u16.
  destruct (Z.leb_spec 0 z), (Z.leb_spec z u16_max); simpl; naive_solver lia.
Qed.
Lemma try_u32_Some z n : try_u32 z = Some n ↔ n = z ∧ in_u32 z.
Proof.
  unfold try_u32, in_u32.
  destruct (Z.leb_spec 0 z), (Z.leb_spec z u32_max); simpl; naive_solver lia.
Qed.

(** ** Bytes and slices *)

Definition is_byte (b : Z) : Prop := 0 ≤ b < 256.
Abbreviation bytes := (Forall is_byte).

(** Decides [bytes] on concrete buffers. *)
Definition bytesb (l : list Z) : bool := forallb (λ b, (0 <=? b) && (b <? 256)) l.
Lemma bytesb_bytes l : bytesb l = true → bytes l.
Proof.
  induction l as [|b l IH]; simpl; [constructor|]. intros H.
  apply andb_true_iff in H as [Hb Hl]. constructor; [|auto]. unfold is_byte. lia.
Qed.

Definition zlen {A} (l : list A) : Z := Z.of_nat (length l).

(** No Rust vector or slice of bytes is longer than [isize::MAX]. *)
Abbreviation vec_ok l := (zlen l ≤ i64_max) (only parsing).

(** [buf[i]], [buf.get(..)] and [buf[a..b]] for [usize] indices. *)
Definition byte_at (buf : list Z) (i : Z) : option Z :=
  if i <? 0 then None else buf !! Z.to_nat i.
Definition slice {A} (buf : list A) (a b : Z) : list A :=
  take (Z.to_nat (b - a)) (drop (Z.to_nat a) buf).

Lemma zlen_nonneg {A} (l : list A) : 0 ≤ zlen l.
Proof. unfold zlen. lia. Qed.
Lemma zlen_nil {A} : zlen (@nil A) = 0.
Proof. done. Qed.
Lemma zlen_cons {A} (x : A) l : zlen (x :: l) = 1 + zlen l.
Proof. unfold zlen. simpl. lia. Qed.
Lemma zlen_app {A} (l k : list A) : zlen (l ++ k) = zlen l + zlen k.
Proof. unfold zlen. rewrite length_app. lia. Qed.
Lemma zlen_replicate {A} n (x : A) : zlen (replicate n x) = Z.of_nat n.
Proof. unfold zlen. by rewrite length_replicate. Qed.
Lemma zlen_0 {A} (l : list A) : zlen l = 0 → l = [].
Proof. destruct l; [done|]. rewrite zlen_cons. pose proof (zlen_nonneg l). lia. Qed.

Lemma slice_app {A} (pre x post : list A) a b :
  a = zlen pre → b = a + zlen x → slice (pre ++ x ++ post) a b = x.
Proof.
  intros -> ->. unfold slice, zlen.
  rewrite Nat2Z.id, drop_app_length.
  replace (Z.to_nat _) with (length x) by lia. apply take_app_length.
Qed.
Lemma byte_at_app (pre post : list Z) x i :
  i = zlen pre → byte_at (pre ++ x :: post) i = Some x.
Proof.
  intros ->. unfold byte_at, zlen. rewrite (proj2 (Z.ltb_ge _ _)) by lia.
  rewrite Nat2Z.id, lookup_app_r, Nat.sub_diag by lia. done.
Qed.

Lemma Forall_snoc {A} (P : A → Prop) l x : Forall P l → P x → Forall P (l ++ [x]).
Proof. intros Hl Hx. apply Forall_app. split; [done|]. by constructor. Qed.

Lemma Forall_snoc_inv {A} (P : A → Prop) l x : Forall P (l ++ [x]) → Forall P l ∧ P x.
Proof. intros [Hl Hx]%Forall_app. split; [done|]. by apply Forall_cons_1 in Hx as [Hx _]. Qed.

Lemma list_filter_none {A} (P : A → Prop) `{!∀ x, Decision (P x)} (l : list A) : (∀ x, ¬ P x) → filter P l = [].
Proof. intros Hno. induction l as [|a l IH]; [done|]. by rewrite filter_cons, decide_False by apply Hno. Qed.
Lemma nodup_bounded (l : list Z) n : NoDup l → Forall (λ x, 0 ≤ x < n) l → zlen l ≤ Z.max 0 n.
Proof.
  intros Hnd Hl. assert (l ⊆+ seqZ 0 n) as Hsub%submseteq_length.
  { apply NoDup_submseteq; [done|]. intros x Hx. apply elem_of_seqZ. apply (proj1 (Forall_forall _ _) Hl) in Hx. lia. }
  rewrite length_seqZ in Hsub. unfold zlen. lia.
Qed.
Lemma join_fmap_cons {A B} (f : A → list B) x l : mjoin (f <$> x :: l) = f x ++ mjoin (f <$> l).
Proof. done. Qed.

(** Sums over a list. *)
Definition zsum {A} (g : A → Z) (l : list A) : Z := foldr (λ x n, g x + n) 0 l.
Lemma zsum_app {A} (g : A → Z) a b : zsum g (a ++ b) = zsum g a + zsum g b.
Proof. unfold zsum. induction a as [|x a IH]; [done|]. cbn in *. lia. Qed.
Lemma zsum_insert {A} (g : A → Z) l i x y : l !! i = Some x → zsum g (<[i := y]> l) = zsum g l - g x + g y.
Proof.
  intros Hi. apply lookup_lt_Some in Hi as Hlt. rewrite <- (take_drop_middle l i x Hi) at 2. rewrite insert_take_drop by done.
  rewrite !zsum_app. cbn. lia.
Qed.
Lemma zsum_replicate {A} (g : A → Z) n x : g x = 0 → zsum g (replicate n x) = 0.
Proof. intros Hg. unfold zsum. induction n as [|n IH]; cbn in *; lia. Qed.
Lemma zsum_le {A} (g : A → Z) b l : (∀ x, x ∈ l → g x ≤ b) → zsum g l ≤ b * zlen l.
Proof.
  intros Hg. unfold zsum. induction l as [|x l IH]; [change (0 ≤ b * 0); lia|]. rewrite zlen_cons. cbn.
  pose proof (Hg x ltac:(by left)). specialize (IH ltac:(intros; apply Hg; by right)). lia.
Qed.

(** Little- and big-endian encodings of a [w]-byte integer. *)
Definition le_bytes (w : Z) (z : Z) : list Z := Z_to_little_endian w 8 z.
Definition of_le (bs : list Z) : Z := little_endian_to_Z 8 bs.
Definition be_bytes (w : Z) (z : Z) : list Z := reverse (le_bytes w z).
Definition of_be (bs : list Z) : Z := of_le (reverse bs).

Lemma zlen_le_bytes w z : 0 ≤ w → zlen (le_bytes w z) = w.
Proof. intros. unfold zlen, le_bytes. by apply length_Z_to_little_endian. Qed.
Lemma bytes_le_bytes w z : 0 ≤ w → bytes (le_bytes w z).
Proof. intros. apply (Z_to_little_endian_bound w 8 z); lia. Qed.
Lemma of_le_le_bytes w z : 0 ≤ w → of_le (le_bytes w z) = z `mod` 2 ^ (w * 8).
Proof. intros. apply little_endian_to_Z_to_little_endian; lia. Qed.
Lemma le_bytes_of_le w bs : zlen bs = w → bytes bs → le_bytes w (of_le bs) = bs.
Proof. intros. apply Z_to_little_endian_to_Z; [|lia|done]. unfold zlen in *; lia. Qed.
Lemma of_le_range bs : bytes bs → 0 ≤ of_le bs < 2 ^ (zlen bs * 8).
Proof. intros. by apply (little_endian_to_Z_bound 8 bs). Qed.

#[export] Hint Rewrite @zlen_app @zlen_cons @zlen_nil @zlen_replicate @zlen_le_bytes using lia : zlen.
#[export] Hint Resolve bytes_le_bytes : bytes.

(** The bytes of an ASCII literal such as [b"seg-"]. *)
Definition bytes_of_string (s : string) : list Z :=
  (λ a, Z.of_N (Ascii.N_of_ascii a)) <$> String.list_ascii_of_string s.

(** ** Allocation

    [Vec::try_reserve] and its relatives may fail.  Each operation that can
    observe this takes the allocator's answers as an argument: the error text
    for the request of [n] elements made at the named site, or [None]. *)
Definition allocator := string → Z → option string.
Definition alloc_ok : allocator := λ _ _, None.
Definition try_reserve (al : allocator) (site : string) (pre : string) (n : Z) : io_result unit :=
  match al site n with
  | None => Ok tt
  | Some text => fail OutOfMemory (pre +:+ text)
  end.
