(* ===== verification/Varint.v ===== *)
(** * Integer codecs: zigzag and unsigned LEB128

    [chronoxide-core/src/storage/encoding/zigzag.rs] and [varint.rs].  The
    [while] loops of the encoder and of [varint_len] run on a fuel of ten
    iterations, which suffices for every [u64] ([encode_varint_unfold],
    [varint_len_unfold]). *)
From S2P Require Import Prelude.

(** ** Zigzag *)

Definition encode_zigzag_i64 (value : Z) : Z :=
  wrap_u64 (Z.lxor (wrap_i64 (Z.shiftl value 1)) (Z.shiftr value 63)).

Definition decode_zigzag_i64 (value : Z) : Z :=
  Z.lxor (wrap_i64 (Z.shiftr value 1)) (- wrap_i64 (Z.land value 1)).

(** ** LEB128 *)

(** A [u64] has at most ten base-128 digits. *)
Definition varint_fuel : nat := 10.

Fixpoint encode_varint_loop (fuel : nat) (value : Z) (out : list Z) : list Z :=
  match fuel with
  | O => out
  | S fuel =>
      if 0x80 <=? value
      then encode_varint_loop fuel (Z.shiftr value 7) (out ++ [Z.lor (wrap_u8 value) 0x80])
      else out ++ [wrap_u8 value]
  end.

Definition encode_varint (value : Z) (out : list Z) : list Z :=
  encode_varint_loop varint_fuel value out.

Fixpoint varint_len_loop (fuel : nat) (value len : Z) : Z :=
  match fuel with
  | O => len
  | S fuel =>
      if 0x80 <=? value then varint_len_loop fuel (Z.shiftr value 7) (len + 1) else len
  end.

Definition varint_len (value : Z) : Z := varint_len_loop varint_fuel value 1.

(** One turn of the [for byte_index in 0..10] loop of [decode_varint]; [n] is
    the number of turns left.  The second component of the answer is the
    advanced cursor. *)
Fixpoint decode_varint_loop (n : nat) (byte_index start : Z) (buf : list Z) (cursor value : Z)
    : io_result (Z * Z) :=
  match n with
  | O => fail InvalidData "varint exceeds u64"
  | S n =>
      match byte_at buf cursor with
      | None => fail UnexpectedEof "varint is truncated"
      | Some byte =>
          let cursor := cursor + 1 in
          if (byte_index =? 9) && negb (Z.land byte 0xfe =? 0)
          then fail InvalidData "varint exceeds u64"
          else
            let value :=
              Z.lor value (wrap_u64 (Z.shiftl (Z.land byte 0x7f) (byte_index * 7))) in
            if Z.land byte 0x80 =? 0 then
              if negb (cursor - start =? varint_len value)
              then fail InvalidData "varint is not canonical"
              else Ok (value, cursor)
            else decode_varint_loop n (byte_index + 1) start buf cursor value
      end
  end.

Definition decode_varint (buf : list Z) (cursor : Z) : io_result (Z * Z) :=
  decode_varint_loop 10 0 cursor buf cursor 0.

(** ** Reference semantics: a byte string as a base-128 numeral *)

Fixpoint uleb_value (bs : list Z) : Z :=
  match bs with
  | [] => 0
  | b :: bs => b `mod` 128 + 128 * uleb_value bs
  end.

(** Continuation bit set on every byte but the last. *)
Fixpoint uleb_shape (bs : list Z) : Prop :=
  match bs with
  | [] => False
  | [b] => 0 ≤ b < 128
  | b :: bs => 128 ≤ b < 256 ∧ uleb_shape bs
  end.

(** ** Bit-level helpers *)

Lemma lor_add_disjoint a b k :
  0 ≤ k → 0 ≤ a < 2 ^ k → Z.lor a (b * 2 ^ k) = a + b * 2 ^ k.
Proof.
  intros Hk Ha. symmetry. apply Z.add_nocarry_lor, Z.bits_inj'. intros i Hi.
  rewrite Z.land_spec, Z.bits_0, <- (Z.mod_small a (2 ^ k)) by lia.
  destruct (decide (i < k)).
  - rewrite Z.mul_pow2_bits_low by lia. apply andb_false_r.
  - rewrite Z.mod_pow2_bits_high by lia. done.
Qed.

(** A boolean fact about bytes is checked on all 256 of them. *)
Lemma byte_ind (f : Z → bool) :
  forallb f (seqZ 0 256) = true → ∀ b, is_byte b → f b = true.
Proof.
  intros H b Hb. rewrite forallb_forall in H. apply H.
  rewrite <- list_elem_of_In, elem_of_seqZ. apply Hb.
Qed.

Lemma land_127 b : Z.land b 0x7f = b `mod` 128.
Proof. change 0x7f with (Z.ones 7). apply Z.land_ones. lia. Qed.

Lemma land_128 b : is_byte b → (Z.land b 0x80 =? 0) = (b <? 128).
Proof.
  intros Hb. apply Bool.eqb_prop.
  by apply (byte_ind (λ b, Bool.eqb (Z.land b 0x80 =? 0) (b <? 128))).
Qed.

Lemma land_fe b : is_byte b → (Z.land b 0xfe =? 0) = (b <? 2).
Proof.
  intros Hb. apply Bool.eqb_prop.
  by apply (byte_ind (λ b, Bool.eqb (Z.land b 0xfe =? 0) (b <? 2))).
Qed.

Lemma lor_128 v : Z.lor (wrap_u8 v) 0x80 = v `mod` 128 + 128.
Proof.
  assert (H : Z.lor (wrap_u8 v) 0x80 = wrap_u8 v `mod` 128 + 128).
  { apply Z.eqb_eq. apply (byte_ind (λ b, Z.lor b 0x80 =? b `mod` 128 + 128)); [done|].
    unfold is_byte, wrap_u8. apply Z.mod_pos_bound. lia. }
  rewrite H. unfold wrap_u8. f_equal. apply Z.mod_mod_divide. by exists 2.
Qed.

Lemma shiftr_7 v : Z.shiftr v 7 = v / 128.
Proof. by rewrite Z.shiftr_div_pow2. Qed.

(** ** Unfolding the loops *)

Lemma encode_varint_loop_out fuel v out :
  encode_varint_loop fuel v out = out ++ encode_varint_loop fuel v [].
Proof.
  revert v out. induction fuel as [|fuel IH]; intros v out; simpl.
  - by rewrite app_nil_r.
  - destruct (128 <=? v); [|done].
    rewrite IH. symmetry. rewrite IH. by rewrite app_assoc.
Qed.

Lemma varint_len_loop_acc fuel v len :
  varint_len_loop fuel v len = len - 1 + varint_len_loop fuel v 1.
Proof.
  revert v len. induction fuel as [|fuel IH]; intros v len; simpl; [lia|].
  destruct (128 <=? v); [|lia]. rewrite IH, (IH _ (1 + 1)). lia.
Qed.

Lemma pow128_S n : 128 ^ Z.of_nat (S n) = 128 * 128 ^ Z.of_nat n.
Proof. rewrite Nat2Z.inj_succ, Z.pow_succ_r; lia. Qed.

Lemma div_pow128 v n : 0 ≤ v < 128 ^ Z.of_nat (S n) → 0 ≤ v / 128 < 128 ^ Z.of_nat n.
Proof.
  intros [??]. rewrite pow128_S in *. split; [apply Z.div_pos; lia|].
  apply Z.div_lt_upper_bound; lia.
Qed.

(** Enough fuel is as good as any other enough fuel. *)
Lemma encode_varint_loop_fuel n m v out :
  0 ≤ v < 128 ^ Z.of_nat n → 0 ≤ v < 128 ^ Z.of_nat m → n ≠ 0%nat → m ≠ 0%nat →
  encode_varint_loop n v out = encode_varint_loop m v out.
Proof.
  revert m v out. induction n as [|n IH]; intros [|m] v out Hn Hm ??; try done. simpl.
  destruct (Z.leb_spec 128 v); [|done]. rewrite shiftr_7.
  apply div_pow128 in Hn, Hm.
  assert (1 ≤ v `div` 128) by (apply Z.div_le_lower_bound; lia).
  apply IH; try done; intros ->; simpl in *; lia.
Qed.

Lemma varint_len_loop_fuel n m v len :
  0 ≤ v < 128 ^ Z.of_nat n → 0 ≤ v < 128 ^ Z.of_nat m → n ≠ 0%nat → m ≠ 0%nat →
  varint_len_loop n v len = varint_len_loop m v len.
Proof.
  revert m v len. induction n as [|n IH]; intros [|m] v len Hn Hm ??; try done. simpl.
  destruct (Z.leb_spec 128 v); [|done]. rewrite shiftr_7.
  apply div_pow128 in Hn, Hm.
  assert (1 ≤ v `div` 128) by (apply Z.div_le_lower_bound; lia).
  apply IH; try done; intros ->; simpl in *; lia.
Qed.

Lemma u64_lt_pow128 v : in_u64 v → 0 ≤ v < 128 ^ Z.of_nat varint_fuel.
Proof. unfold in_u64. intros. change (128 ^ Z.of_nat varint_fuel) with 1180591620717411303424. lia. Qed.

Lemma in_u64_div128 v : in_u64 v → in_u64 (v / 128).
Proof.
  unfold in_u64. intros. split; [apply Z.div_pos; lia|].
  apply Z.div_le_upper_bound; lia.
Qed.

Lemma u64_div128 v : in_u64 v → 0 ≤ v / 128 < 128 ^ Z.of_nat 9.
Proof.
  unfold in_u64. intros. change (128 ^ Z.of_nat 9) with 9223372036854775808.
  split; [apply Z.div_pos; lia|]. apply Z.div_lt_upper_bound; lia.
Qed.

Lemma encode_varint_loop_S n v out :
  encode_varint_loop (S n) v out =
    if 0x80 <=? v
    then encode_varint_loop n (Z.shiftr v 7) (out ++ [Z.lor (wrap_u8 v) 0x80])
    else out ++ [wrap_u8 v].
Proof. done. Qed.

Lemma varint_len_loop_S n v len :
  varint_len_loop (S n) v len =
    if 0x80 <=? v then varint_len_loop n (Z.shiftr v 7) (len + 1) else len.
Proof. done. Qed.

Lemma encode_varint_unfold v :
  in_u64 v →
  encode_varint v [] = if v <? 128 then [v] else (v `mod` 128 + 128) :: encode_varint (v / 128) [].
Proof.
  intros Hv. unfold encode_varint at 1, varint_fuel at 1. rewrite encode_varint_loop_S.
  destruct (Z.leb_spec 128 v), (Z.ltb_spec v 128); try lia.
  - rewrite encode_varint_loop_out, lor_128, shiftr_7. cbn [app]. f_equal.
    apply encode_varint_loop_fuel; [by apply u64_div128| |discriminate|discriminate].
    by apply u64_lt_pow128, in_u64_div128.
  - cbn [app]. f_equal. unfold wrap_u8. apply Z.mod_small. unfold in_u64 in *; lia.
Qed.

Lemma varint_len_unfold v :
  in_u64 v → varint_len v = if v <? 128 then 1 else 1 + varint_len (v / 128).
Proof.
  intros Hv. unfold varint_len at 1, varint_fuel at 1. rewrite varint_len_loop_S.
  destruct (Z.leb_spec 128 v), (Z.ltb_spec v 128); try lia.
  rewrite varint_len_loop_acc, shiftr_7.
  replace (1 + 1 - 1) with 1 by lia. f_equal.
  apply varint_len_loop_fuel; [by apply u64_div128| |discriminate|discriminate].
  by apply u64_lt_pow128, in_u64_div128.
Qed.

Lemma encode_varint_out v out : encode_varint v out = out ++ encode_varint v [].
Proof. apply encode_varint_loop_out. Qed.

(** Induction on the base-128 digits of a [u64]. *)
Lemma u64_digit_ind (P : Z → Prop) :
  (∀ v, 0 ≤ v < 128 → P v) →
  (∀ v, 128 ≤ v ≤ u64_max → P (v / 128) → P v) →
  ∀ v, in_u64 v → P v.
Proof.
  intros Hb Hs v [Hv Hm]. revert Hm. pattern v. apply Zlt_0_ind; [|done].
  clear v Hv. intros v IH Hv Hm. destruct (decide (v < 128)); [by apply Hb|].
  apply Hs; [lia|]. apply IH.
  - split; [apply Z.div_pos; lia|apply Z.div_lt; lia].
  - transitivity v; [apply Z.div_le_upper_bound; lia|done].
Qed.


(** ** Properties *)

(** One accumulation step of the decoder, in arithmetic. *)
Lemma decode_accumulate acc d i :
  0 ≤ i → 0 ≤ acc < 2 ^ (7 * i) → 0 ≤ d → acc + d * 2 ^ (7 * i) ≤ u64_max →
  Z.lor acc (wrap_u64 (Z.shiftl d (i * 7))) = acc + d * 2 ^ (7 * i).
Proof.
  intros Hi Hacc Hd Hle. rewrite Z.shiftl_mul_pow2, (Z.mul_comm i) by lia.
  rewrite wrap_u64_small by (unfold in_u64; lia).
  apply lor_add_disjoint; lia.
Qed.

Lemma decode_varint_loop_encoded v :
  in_u64 v → ∀ n i start pre post acc,
  Z.of_nat n = 10 - i → 0 ≤ i ≤ 9 → 0 ≤ acc < 2 ^ (7 * i) →
  acc + v * 2 ^ (7 * i) ≤ u64_max → start + i = zlen pre →
  varint_len (acc + v * 2 ^ (7 * i)) = i + varint_len v →
  decode_varint_loop n i start (pre ++ encode_varint v [] ++ post) (zlen pre) acc
    = Ok (acc + v * 2 ^ (7 * i), zlen pre + varint_len v).
Proof.
  intros Hv. pattern v. apply u64_digit_ind; [..|done]; clear v Hv.
  - intros v Hv [|n] i start pre post acc Hn Hi Hacc Hmax Hst Hlen; [lia|].
    assert (Hu : in_u64 v) by (unfold in_u64; lia).
    rewrite (encode_varint_unfold v) by done. rewrite (varint_len_unfold v) in Hlen |- * by done.
    rewrite (proj2 (Z.ltb_lt v 128)) in * by lia. cbn [decode_varint_loop app].
    rewrite byte_at_app by done.
    rewrite land_fe, land_128, land_127 by (unfold is_byte; lia).
    rewrite (proj2 (Z.ltb_lt v 128)), Z.mod_small by lia.
    rewrite decode_accumulate by lia.
    replace ((i =? 9) && negb (v <? 2)) with false; cycle 1.
    { destruct (Z.eqb_spec i 9) as [->|]; [|done]. destruct (Z.ltb_spec v 2); [done|lia]. }
    rewrite Hlen. rewrite (proj2 (Z.eqb_eq (_ - _) _)) by lia. simpl. done.
  - intros v Hv IH [|n] i start pre post acc Hn Hi Hacc Hmax Hst Hlen; [lia|].
    assert (Hu : in_u64 v) by (unfold in_u64; lia).
    rewrite (encode_varint_unfold v) by done. rewrite (varint_len_unfold v) in Hlen |- * by done.
    rewrite (proj2 (Z.ltb_ge v 128)) in * by lia. cbn [decode_varint_loop app].
    pose proof (Z.mod_pos_bound v 128 ltac:(lia)).
    pose proof (Z.div_mod v 128 ltac:(lia)).
    rewrite byte_at_app by done.
    rewrite land_fe, land_128, land_127 by (unfold is_byte; lia).
    rewrite (proj2 (Z.ltb_ge (_ + 128) 128)) by lia.
    assert (i ≠ 9) as Hi9 by (intros ->; lia).
    rewrite (proj2 (Z.eqb_neq i 9)) by done.
    replace ((v `mod` 128 + 128) `mod` 128) with (v `mod` 128); cycle 1.
    { rewrite <- Zplus_mod_idemp_r, Z_mod_same_full, Z.add_0_r. by rewrite Z.mod_mod. }
    assert (Hp : 2 ^ (7 * (i + 1)) = 128 * 2 ^ (7 * i)).
    { rewrite Z.mul_add_distr_l, Z.pow_add_r by lia. change (2 ^ (7 * 1)) with 128. lia. }
    assert (0 < 2 ^ (7 * i)) by (apply Z.pow_pos_nonneg; lia).
    rewrite decode_accumulate by nia. cbn [andb].
    replace (acc + v * 2 ^ (7 * i))
      with ((acc + v `mod` 128 * 2 ^ (7 * i)) + v / 128 * 2 ^ (7 * (i + 1))) in *
      by (rewrite Hp; nia).
    replace (zlen pre + 1) with (zlen (pre ++ [v `mod` 128 + 128]))
      by (rewrite zlen_app; done).
    replace (pre ++ (v `mod` 128 + 128) :: encode_varint (v / 128) [] ++ post)
      with ((pre ++ [v `mod` 128 + 128]) ++ encode_varint (v / 128) [] ++ post)
      by (by rewrite <- app_assoc).
    rewrite IH; autorewrite with zlen; try lia; [|nia].
    f_equal. f_equal. lia.
Qed.

Lemma zlen_encode_varint v : in_u64 v → zlen (encode_varint v []) = varint_len v.
Proof.
  intros Hv. pattern v. apply u64_digit_ind; [..|done]; clear v Hv; intros v Hv.
  - rewrite encode_varint_unfold, varint_len_unfold by (unfold in_u64; lia).
    rewrite (proj2 (Z.ltb_lt v 128)) by lia. done.
  - intros IH. rewrite encode_varint_unfold, varint_len_unfold by (unfold in_u64; lia).
    rewrite (proj2 (Z.ltb_ge v 128)) by lia. rewrite zlen_cons. lia.
Qed.

Lemma bytes_encode_varint v : in_u64 v → bytes (encode_varint v []).
Proof.
  intros Hv. pattern v. apply u64_digit_ind; [..|done]; clear v Hv; intros v Hv.
  - rewrite encode_varint_unfold by (unfold in_u64; lia).
    rewrite (proj2 (Z.ltb_lt v 128)) by lia. constructor; [unfold is_byte; lia|done].
  - intros IH. rewrite encode_varint_unfold by (unfold in_u64; lia).
    rewrite (proj2 (Z.ltb_ge v 128)) by lia. constructor; [|done].
    pose proof (Z.mod_pos_bound v 128 ltac:(lia)). unfold is_byte; lia.
Qed.

Lemma varint_len_bound k v :
  in_u64 v → v < 128 ^ Z.of_nat (S k) → 1 ≤ varint_len v ≤ Z.of_nat (S k).
Proof.
  intros Hv. revert k. pattern v. apply u64_digit_ind; [..|done]; clear v Hv; intros v Hv.
  - intros k _. rewrite varint_len_unfold by (unfold in_u64; lia).
    rewrite (proj2 (Z.ltb_lt v 128)); lia.
  - intros IH k Hk. rewrite varint_len_unfold by (unfold in_u64; lia).
    rewrite (proj2 (Z.ltb_ge v 128)) by lia.
    destruct k as [|k]; [simpl in Hk; lia|].
    specialize (IH k). rewrite pow128_S in Hk.
    assert (v / 128 < 128 ^ Z.of_nat (S k)) by (apply Z.div_lt_upper_bound; lia). lia.
Qed.

Lemma varint_len_pos v : in_u64 v → 1 ≤ varint_len v ≤ 10.
Proof. intros Hv. apply (varint_len_bound 9); [done|]. by apply (u64_lt_pow128 v). Qed.

#[export] Hint Rewrite zlen_encode_varint using (unfold in_u64 in *; lia) : zlen.
#[export] Hint Resolve bytes_encode_varint : bytes.

(** Decoding what [encode_varint] appended, wherever it stands in the buffer. *)
Lemma decode_varint_encoded pre v post c :
  in_u64 v → c = zlen pre →
  decode_varint (pre ++ encode_varint v [] ++ post) c = Ok (v, c + varint_len v).
Proof.
  intros Hv ->. unfold decode_varint.
  rewrite decode_varint_loop_encoded; try done; unfold in_u64 in *; try lia; f_equal; try lia.
  - f_equal. lia.
  - rewrite Z.mul_0_r, Z.pow_0_r, Z.mul_1_r. done.
Qed.

Lemma decode_varint_loop_shape n : ∀ i start buf c acc v c',
  bytes buf → 0 ≤ c → 0 ≤ i → Z.of_nat n = 10 - i → 0 ≤ acc < 2 ^ (7 * i) →
  decode_varint_loop n i start buf c acc = Ok (v, c') →
  ∃ ds post, drop (Z.to_nat c) buf = ds ++ post ∧ uleb_shape ds ∧ c' = c + zlen ds ∧
    v = acc + uleb_value ds * 2 ^ (7 * i) ∧ in_u64 v ∧ c' - start = varint_len v.
Proof.
  induction n as [|n IH]; intros i start buf c acc v c' Hbuf Hc Hi Hn Hacc; [done|].
  cbn [decode_varint_loop]. destruct (byte_at buf c) as [b|] eqn:Hb; [|done].
  unfold byte_at in Hb. rewrite (proj2 (Z.ltb_ge c 0)) in Hb by lia.
  assert (Hbb : is_byte b) by (eapply Forall_lookup_1; eauto).
  apply drop_S in Hb.
  rewrite land_fe, land_128, land_127 by done.
  destruct ((i =? 9) && negb (b <? 2)) eqn:H9; [done|].
  assert (Hp : 2 ^ (7 * (i + 1)) = 128 * 2 ^ (7 * i)).
  { rewrite Z.mul_add_distr_l, Z.pow_add_r by lia. change (2 ^ (7 * 1)) with 128. lia. }
  pose proof (Z.mod_pos_bound b 128 ltac:(lia)) as Hm.
  assert (Hmax : acc + b `mod` 128 * 2 ^ (7 * i) ≤ u64_max).
  { destruct (Z.eqb_spec i 9) as [->|].
    - simpl in H9. destruct (Z.ltb_spec b 2); [|done].
      change (2 ^ (7 * 9)) with 9223372036854775808 in *.
      rewrite Z.mod_small by (unfold is_byte in *; lia). unfold is_byte in *; lia.
    - assert (2 ^ (7 * (i + 1)) ≤ 2 ^ 63) by (apply Z.pow_le_mono_r; lia).
      change (2 ^ 63) with 9223372036854775808 in *. nia. }
  rewrite decode_accumulate by lia.
  destruct (Z.ltb_spec b 128) as [Hlt|Hge].
  - destruct (c + 1 - start =? _) eqn:Hcan; [|done]. simpl. intros [= <- <-].
    exists [b], (drop (S (Z.to_nat c)) buf).
    rewrite Hb. cbn [uleb_value uleb_shape app].
    unfold is_byte, in_u64, zlen in *. simpl.
    assert (0 < 2 ^ (7 * i)) by (apply Z.pow_pos_nonneg; lia).
    split_and!; try done; nia.
  - intros Hr. apply IH in Hr as (ds & post & Hd & Hsh & -> & -> & Hu & Hl); try done; try nia.
    exists (b :: ds), post. replace (Z.to_nat (c + 1)) with (S (Z.to_nat c)) in Hd by lia.
    rewrite Hb, Hd, zlen_cons. cbn [uleb_value].
    split_and!; try done; try lia.
    destruct ds; [done|]. split; [unfold is_byte in *; lia|done].
Qed.

Lemma uleb_value_nonneg ds : 0 ≤ uleb_value ds.
Proof. induction ds as [|b ds IH]; simpl; [done|]. pose proof (Z.mod_pos_bound b 128 ltac:(lia)). lia. Qed.

(** A digit string of minimal length is the encoder's output. *)
Lemma uleb_canonical ds :
  uleb_shape ds → in_u64 (uleb_value ds) → zlen ds = varint_len (uleb_value ds) →
  ds = encode_varint (uleb_value ds) [].
Proof.
  induction ds as [|b ds IH]; [done|]. intros Hsh Hu Hlen.
  rewrite encode_varint_unfold by done. rewrite varint_len_unfold in Hlen by done.
  rewrite zlen_cons in Hlen.
  destruct ds as [|b' ds].
  - simpl in *. rewrite Z.add_0_r, Z.mod_small by lia.
    rewrite (proj2 (Z.ltb_lt b 128)) by lia. done.
  - destruct Hsh as [Hb Hsh]. set (v' := uleb_value (b' :: ds)) in *.
    change (uleb_value (b :: b' :: ds)) with (b `mod` 128 + 128 * v') in *.
    pose proof (Z.mod_pos_bound b 128 ltac:(lia)) as Hm.
    destruct (Z.ltb_spec (b `mod` 128 + 128 * v') 128) as [Hlt|Hge].
    { rewrite zlen_cons in Hlen. pose proof (zlen_nonneg ds). lia. }
    assert (Hdiv : (b `mod` 128 + 128 * v') / 128 = v').
    { rewrite Z.mul_comm, Z.div_add by lia. rewrite Z.div_small by lia. lia. }
    assert (Hmod : (b `mod` 128 + 128 * v') `mod` 128 = b `mod` 128).
    { rewrite Z.mul_comm, Z_mod_plus_full. by apply Z.mod_mod. }
    rewrite Hdiv in *. rewrite Hmod. f_equal.
    + replace b with (b - 128 + 1 * 128) at 2 by lia.
      rewrite Z_mod_plus_full, Z.mod_small; lia.
    + apply IH; [done| |lia].
      unfold in_u64 in *. subst v'. pose proof (uleb_value_nonneg (b' :: ds)). lia.
Qed.

(** The decoder accepts canonical encodings only: what it consumed is exactly
    what the encoder writes for the value it returns. *)
Lemma decode_varint_inv buf c v c' :
  bytes buf → 0 ≤ c → decode_varint buf c = Ok (v, c') →
  in_u64 v ∧ c' = c + varint_len v ∧
  ∃ post, drop (Z.to_nat c) buf = encode_varint v [] ++ post.
Proof.
  intros Hbuf Hc Hd.
  apply decode_varint_loop_shape in Hd as (ds & post & Hds & Hsh & -> & -> & Hu & Hl);
    [|done|done|lia|done|simpl; lia].
  rewrite Z.mul_0_r, Z.pow_0_r, Z.mul_1_r, Z.add_0_l in *.
  replace (c + zlen ds - c) with (zlen ds) in Hl by lia.
  split_and!; [done|lia|]. exists post. rewrite Hds. f_equal. by apply uleb_canonical.
Qed.

(** ** Zigzag in arithmetic *)

Lemma lxor_m1 a : Z.lxor a (-1) = - a - 1.
Proof. rewrite Z.lxor_m1_r. unfold Z.lnot. lia. Qed.

Lemma encode_zigzag_arith v :
  in_i64 v → encode_zigzag_i64 v = if v <? 0 then - 2 * v - 1 else 2 * v.
Proof.
  unfold in_i64, encode_zigzag_i64. intros Hv.
  rewrite Z.shiftl_mul_pow2, Z.shiftr_div_pow2 by lia. change (2 ^ 1) with 2.
  change (2 ^ 63) with 9223372036854775808.
  destruct (Z.ltb_spec v 0).
  - replace (v / 9223372036854775808) with (-1).
    2: { apply (Z.div_unique v _ (-1) (v + 9223372036854775808)); lia. }
    rewrite lxor_m1. unfold wrap_u64, wrap_i64.
    replace (- ((v * 2 + 9223372036854775808) `mod` 18446744073709551616 - 9223372036854775808) - 1)
      with (9223372036854775807 - (v * 2 + 9223372036854775808) `mod` 18446744073709551616) by lia.
    rewrite Zminus_mod_idemp_r.
    symmetry. apply (Z.mod_unique _ _ 0); lia.
  - replace (v / 9223372036854775808) with 0 by (symmetry; apply Z.div_small; lia).
    rewrite Z.lxor_0_r, wrap_u64_i64, wrap_u64_small; unfold in_u64; lia.
Qed.

Lemma decode_zigzag_arith u :
  in_u64 u →
  decode_zigzag_i64 u = if u `mod` 2 =? 0 then u / 2 else - (u / 2) - 1.
Proof.
  unfold in_u64, decode_zigzag_i64. intros Hu.
  change (Z.land u 1) with (Z.land u (Z.ones 1)).
  rewrite Z.land_ones, Z.shiftr_div_pow2 by lia. change (2 ^ 1) with 2.
  assert (0 ≤ u / 2) by (apply Z.div_pos; lia).
  assert (u / 2 < 9223372036854775808) by (apply Z.div_lt_upper_bound; lia).
  rewrite !wrap_i64_small; unfold in_i64; pose proof (Z.mod_pos_bound u 2 ltac:(lia)); try lia.
  destruct (Z.eqb_spec (u `mod` 2) 0) as [->|].
  - by rewrite Z.lxor_0_r.
  - replace (u `mod` 2) with 1 by lia. apply lxor_m1.
Qed.

Lemma encode_zigzag_in_u64 v : in_i64 v → in_u64 (encode_zigzag_i64 v).
Proof.
  intros Hv. rewrite encode_zigzag_arith by done. unfold in_i64, in_u64 in *.
  destruct (Z.ltb_spec v 0); lia.
Qed.

Lemma decode_zigzag_encode v : in_i64 v → decode_zigzag_i64 (encode_zigzag_i64 v) = v.
Proof.
  intros Hv. rewrite decode_zigzag_arith by by apply encode_zigzag_in_u64.
  rewrite encode_zigzag_arith by done. destruct (Z.ltb_spec v 0).
  - replace (-2 * v - 1) with (1 + (- v - 1) * 2) by lia.
    rewrite Z_mod_plus_full, Z.div_add by lia.
    change (1 `mod` 2 =? 0) with false. change (1 / 2) with 0. cbn iota. lia.
  - rewrite (Z.mul_comm 2), Z_mod_mult, Z.div_mul by lia. done.
Qed.

Lemma encode_zigzag_decode u : in_u64 u → encode_zigzag_i64 (decode_zigzag_i64 u) = u.
Proof.
  intros Hu. pose proof (Z.div_mod u 2 ltac:(lia)). pose proof (Z.mod_pos_bound u 2 ltac:(lia)).
  unfold in_u64 in Hu. rewrite decode_zigzag_arith by done.
  destruct (Z.eqb_spec (u `mod` 2) 0) as [E|]; rewrite encode_zigzag_arith by (unfold in_i64; lia).
  - rewrite (proj2 (Z.ltb_ge _ 0)); lia.
  - rewrite (proj2 (Z.ltb_lt _ 0)); lia.
Qed.

#[export] Hint Resolve encode_zigzag_in_u64 : bytes.

(** ** Theorems *)

(** Every [u64] survives the LEB128 codec, at any position of any buffer,
    and the decoder stops exactly behind the [varint_len v ≤ 10] bytes written. *)
Theorem varint_roundtrip pre v post :
  in_u64 v →
  decode_varint (encode_varint v pre ++ post) (zlen pre) = Ok (v, zlen pre + varint_len v)
  ∧ zlen (encode_varint v pre) = zlen pre + varint_len v
  ∧ 1 ≤ varint_len v ≤ 10.
Proof.
  intros Hv. rewrite encode_varint_out, <- app_assoc, decode_varint_encoded by done.
  autorewrite with zlen. split_and!; [done..|by apply varint_len_pos|by apply varint_len_pos].
Qed.

Lemma varint_roundtrip_witness :
  in_u64 300 ∧
  decode_varint (encode_varint 300 [7] ++ [9]) (zlen [7]) = Ok (300, zlen [7] + varint_len 300)
  ∧ zlen (encode_varint 300 [7]) = zlen [7] + varint_len 300 ∧ 1 ≤ varint_len 300 ≤ 10.
Proof. split; [unfold in_u64; lia|]. apply (varint_roundtrip [7] 300 [9]). unfold in_u64; lia. Defined.

(** The decoder accepts canonical encodings only.  Whatever bytes it is
    given, a successful decode consumed exactly the encoder's bytes for the
    value returned, so no two byte strings decode to the same value. *)
Theorem varint_canonical buf c v c' :
  bytes buf → 0 ≤ c → decode_varint buf c = Ok (v, c') →
  in_u64 v ∧ c' = c + varint_len v ∧ slice buf c c' = encode_varint v [].
Proof.
  intros Hb Hc Hd. apply decode_varint_inv in Hd as (Hu & -> & post & Hpost); [|done..].
  split_and!; [done..|]. unfold slice. rewrite Hpost.
  pose proof (zlen_encode_varint v Hu) as Hl. unfold zlen in Hl.
  replace (Z.to_nat _) with (length (encode_varint v [])) by lia. apply take_app_length.
Qed.

Lemma varint_canonical_witness :
  bytes [0xac; 0x02] ∧ in_u64 300 ∧ 2 = 0 + varint_len 300
  ∧ slice [0xac; 0x02] 0 2 = encode_varint 300 [].
Proof.
  assert (bytes [0xac; 0x02]) by by apply bytesb_bytes.
  split; [done|]. apply (varint_canonical [0xac; 0x02] 0 300 2); [done|lia|reflexivity].
Defined.

(** Zigzag is a bijection between [i64] and [u64]. *)
Theorem zigzag_bijection v u :
  in_i64 v → in_u64 u →
  in_u64 (encode_zigzag_i64 v) ∧ decode_zigzag_i64 (encode_zigzag_i64 v) = v
  ∧ encode_zigzag_i64 (decode_zigzag_i64 u) = u.
Proof.
  intros. split_and!;
    eauto using encode_zigzag_in_u64, decode_zigzag_encode, encode_zigzag_decode.
Qed.

Lemma zigzag_bijection_witness :
  in_u64 (encode_zigzag_i64 i64_min) ∧ decode_zigzag_i64 (encode_zigzag_i64 i64_min) = i64_min
  ∧ encode_zigzag_i64 (decode_zigzag_i64 u64_max) = u64_max.
Proof. apply zigzag_bijection; [unfold in_i64|unfold in_u64]; lia. Defined.
