(* ===== verification/Bits.v ===== *)
(** * Bit strings

    Most-significant-bit-first bit strings of integers and byte buffers: the
    specification language of the bit stream and of the codecs above it. *)
From S2P Require Import Prelude.

(** The low [n] bits of [v], most significant first. *)
Fixpoint bits_be (n : nat) (v : Z) : list bool :=
  match n with
  | O => []
  | S n => Z.testbit v (Z.of_nat n) :: bits_be n v
  end.

(** The number a bit string spells. *)
Fixpoint val_be (l : list bool) : Z :=
  match l with
  | [] => 0
  | b :: l => Z.b2z b * 2 ^ zlen l + val_be l
  end.

Definition bytes_bits (buf : list Z) : list bool := mjoin (bits_be 8 <$> buf).

(** The bits [l] left-aligned in a [w]-bit register. *)
Definition pack (w : Z) (l : list bool) : Z := val_be l * 2 ^ (w - zlen l).

Lemma length_bits_be n v : length (bits_be n v) = n.
Proof. induction n; simpl; congruence. Qed.
Lemma zlen_bits_be n v : zlen (bits_be n v) = Z.of_nat n.
Proof. unfold zlen. by rewrite length_bits_be. Qed.
#[export] Hint Rewrite zlen_bits_be : zlen.

Lemma pow2_pos n : 0 ≤ n → 0 < 2 ^ n.
Proof. intros. by apply Z.pow_pos_nonneg. Qed.

Lemma val_be_range l : 0 ≤ val_be l < 2 ^ zlen l.
Proof.
  induction l as [|b l IH]; simpl; [done|]. rewrite zlen_cons.
  pose proof (zlen_nonneg l). rewrite Z.pow_add_r by lia. change (2 ^ 1) with 2.
  destruct b; simpl; lia.
Qed.

Lemma val_be_app l k : val_be (l ++ k) = val_be l * 2 ^ zlen k + val_be k.
Proof.
  induction l as [|b l IH]; simpl; [done|]. rewrite IH, zlen_app.
  pose proof (zlen_nonneg l). pose proof (zlen_nonneg k).
  rewrite Z.pow_add_r by lia. lia.
Qed.

Lemma val_bits_be n v : val_be (bits_be n v) = v `mod` 2 ^ Z.of_nat n.
Proof.
  induction n as [|n IH]; simpl; [by rewrite Z.mod_1_r|].
  rewrite IH, zlen_bits_be.
  rewrite Z.testbit_spec', (Nat2Z.inj_succ n), Z.pow_succ_r by lia.
  pose proof (pow2_pos (Z.of_nat n) ltac:(lia)).
  rewrite (Z.mul_comm 2), Z.rem_mul_r by lia. lia.
Qed.

Lemma bits_be_ext n v w :
  (∀ i, 0 ≤ i < Z.of_nat n → Z.testbit v i = Z.testbit w i) → bits_be n v = bits_be n w.
Proof.
  induction n as [|n IH]; intros H; simpl; [done|]. f_equal; [apply H; lia|].
  apply IH. intros. apply H. lia.
Qed.

Lemma bits_be_mod n m v : Z.of_nat n ≤ m → bits_be n (v `mod` 2 ^ m) = bits_be n v.
Proof. intros. apply bits_be_ext. intros. apply Z.mod_pow2_bits_low. lia. Qed.

Lemma bits_be_app n m v : bits_be (n + m) v = bits_be n (v / 2 ^ Z.of_nat m) ++ bits_be m v.
Proof.
  induction n as [|n IH]; simpl; [done|]. rewrite IH. f_equal.
  rewrite Z.div_pow2_bits by lia. f_equal. lia.
Qed.

(** Shifting and adding a short number concatenates bit strings. *)
Lemma bits_be_concat n m a b :
  0 ≤ b < 2 ^ Z.of_nat m → bits_be (n + m) (a * 2 ^ Z.of_nat m + b) = bits_be n a ++ bits_be m b.
Proof.
  intros Hb. rewrite bits_be_app. f_equal.
  - f_equal. rewrite Z.div_add_l by lia. rewrite Z.div_small; lia.
  - rewrite <- (bits_be_mod m (Z.of_nat m)), Z.add_comm, Z_mod_plus_full by lia.
    apply bits_be_mod. lia.
Qed.

Lemma bits_be_val l : bits_be (length l) (val_be l) = l.
Proof.
  induction l as [|b l IH]; [done|]. cbn [length val_be].
  change (S (length l)) with (1 + length l)%nat.
  rewrite (bits_be_concat 1 (length l)) by apply val_be_range.
  rewrite IH. by destruct b.
Qed.

Lemma val_be_inj l k : length l = length k → val_be l = val_be k → l = k.
Proof. intros Hl Hv. by rewrite <- (bits_be_val l), <- (bits_be_val k), Hl, Hv. Qed.

Lemma val_bits_small n v : 0 ≤ v < 2 ^ Z.of_nat n → val_be (bits_be n v) = v.
Proof. intros. rewrite val_bits_be. by apply Z.mod_small. Qed.

Lemma val_be_replicate n : val_be (replicate n false) = 0.
Proof. induction n; simpl; lia. Qed.

Lemma val_be_0 l : val_be l = 0 → l = replicate (length l) false.
Proof.
  intros H. apply val_be_inj; [by rewrite length_replicate|]. by rewrite val_be_replicate.
Qed.

Lemma bits_be_0 n : bits_be n 0 = replicate n false.
Proof. induction n; simpl; [done|]. by rewrite Z.bits_0, IHn. Qed.

Lemma bytes_bits_app a b : bytes_bits (a ++ b) = bytes_bits a ++ bytes_bits b.
Proof. unfold bytes_bits. by rewrite fmap_app, join_app. Qed.
Lemma bytes_bits_cons b l : bytes_bits (b :: l) = bits_be 8 b ++ bytes_bits l.
Proof. done. Qed.
Lemma length_bytes_bits buf : length (bytes_bits buf) = (8 * length buf)%nat.
Proof.
  induction buf as [|b buf IH]; [done|].
  rewrite bytes_bits_cons, length_app, IH. simpl length. lia.
Qed.
Lemma zlen_bytes_bits buf : zlen (bytes_bits buf) = 8 * zlen buf.
Proof. unfold zlen. rewrite length_bytes_bits. lia. Qed.
#[export] Hint Rewrite zlen_bytes_bits : zlen.

Lemma bytes_bits_inj a b : bytes a → bytes b → bytes_bits a = bytes_bits b → a = b.
Proof.
  intros Ha. revert b. induction Ha as [|x a Hx Ha IH]; intros b Hb He.
  { apply (f_equal length) in He. rewrite !length_bytes_bits in He. by destruct b. }
  destruct Hb as [|y b Hy Hb].
  { apply (f_equal length) in He. by rewrite !length_bytes_bits in He. }
  rewrite !bytes_bits_cons in He. apply app_inj_1 in He as [He1 He2]; [|done].
  f_equal; [|by apply IH].
  rewrite <- (val_bits_small 8 x), <- (val_bits_small 8 y), He1 by done. done.
Qed.

(** Big-endian bytes spell the same bit string. *)
Lemma be_bytes_succ w z : 0 ≤ w → be_bytes (Z.succ w) z = be_bytes w (z / 256) ++ [z `mod` 256].
Proof.
  intros. unfold be_bytes, le_bytes. rewrite Z_to_little_endian_succ, reverse_cons by done.
  rewrite Z.shiftr_div_pow2, Z.land_ones by lia. done.
Qed.

Lemma bytes_bits_be_bytes (n : nat) z : bytes_bits (be_bytes (Z.of_nat n) z) = bits_be (8 * n) z.
Proof.
  revert z. induction n as [|n IH]; intros z; [done|].
  rewrite Nat2Z.inj_succ, be_bytes_succ, bytes_bits_app, IH by lia.
  replace (8 * S n)%nat with (8 * n + 8)%nat by lia.
  rewrite bits_be_app. f_equal. cbn [bytes_bits fmap list_fmap mjoin list_join].
  rewrite app_nil_r. apply (bits_be_mod 8 8 z). lia.
Qed.

Lemma bytes_be_bytes w z : 0 ≤ w → bytes (be_bytes w z).
Proof. intros. apply Forall_reverse. by apply bytes_le_bytes. Qed.
Lemma zlen_be_bytes w z : 0 ≤ w → zlen (be_bytes w z) = w.
Proof. intros. unfold zlen, be_bytes. rewrite length_reverse. by apply zlen_le_bytes. Qed.
#[export] Hint Resolve bytes_be_bytes : bytes.
#[export] Hint Rewrite zlen_be_bytes using lia : zlen.

Lemma be_bytes_app (j k : nat) v :
  be_bytes (Z.of_nat (j + k)) v =
    be_bytes (Z.of_nat j) (v / 2 ^ (8 * Z.of_nat k)) ++ be_bytes (Z.of_nat k) v.
Proof.
  apply bytes_bits_inj.
  - apply bytes_be_bytes. lia.
  - apply Forall_app. split; apply bytes_be_bytes; lia.
  - rewrite bytes_bits_app, !bytes_bits_be_bytes.
    replace (8 * (j + k))%nat with (8 * j + 8 * k)%nat by lia.
    rewrite bits_be_app. do 3 f_equal. lia.
Qed.

(** The trailing bytes of a big-endian word encode its low bits. *)
Lemma be_bytes_suffix (k : nat) v :
  (k ≤ 8)%nat → slice (be_bytes 8 v) (8 - Z.of_nat k) 8 = be_bytes (Z.of_nat k) v.
Proof.
  intros Hk. pose proof (be_bytes_app (8 - k) k v) as Hs.
  replace (8 - k + k)%nat with 8%nat in Hs by lia. change (Z.of_nat 8) with 8 in Hs.
  rewrite Hs. unfold slice.
  pose proof (zlen_be_bytes (Z.of_nat (8 - k)) (v / 2 ^ (8 * Z.of_nat k)) ltac:(lia)) as Hl1.
  pose proof (zlen_be_bytes (Z.of_nat k) v ltac:(lia)) as Hl2. unfold zlen in *.
  rewrite drop_app_length' by lia. apply take_ge. lia.
Qed.

(** [from_be_bytes] reads the number the bytes' bits spell. *)
Lemma of_be_val bs : bytes bs → of_be bs = val_be (bytes_bits bs).
Proof.
  induction bs as [|b bs IH] using rev_ind; intros Hb; [done|].
  apply Forall_app in Hb as [Hbs Hb]. apply Forall_cons_1 in Hb as [Hb _].
  unfold of_be in *. rewrite reverse_snoc, bytes_bits_app, val_be_app.
  unfold of_le in *. cbn [little_endian_to_Z]. rewrite IH by done.
  cbn [bytes_bits fmap list_fmap mjoin list_join]. rewrite app_nil_r, zlen_bits_be.
  rewrite val_bits_small by done.
  rewrite Z.shiftl_mul_pow2, Z.add_comm by lia. symmetry. apply Z.add_nocarry_lor.
  apply Z.bits_inj'. intros i Hi. rewrite Z.land_spec, Z.bits_0.
  rewrite <- (Z.mod_small b (2 ^ 8)) by done. destruct (decide (i < 8)).
  - rewrite Z.mul_pow2_bits_low by lia. apply andb_false_r.
  - rewrite Z.mod_pow2_bits_high by lia. done.
Qed.

(** ** Left-aligned registers *)

Lemma lor_pow2_add a b k : 0 ≤ k → 0 ≤ b < 2 ^ k → Z.lor (a * 2 ^ k) b = a * 2 ^ k + b.
Proof.
  intros Hk Hb. symmetry. apply Z.add_nocarry_lor, Z.bits_inj'. intros i Hi.
  rewrite Z.land_spec, Z.bits_0, <- (Z.mod_small b (2 ^ k)) by lia.
  destruct (decide (i < k)).
  - by rewrite Z.mul_pow2_bits_low by lia.
  - rewrite Z.mod_pow2_bits_high by lia. apply andb_false_r.
Qed.

(** ** Little-endian integers as sums *)

Lemma of_le_cons b l : 0 ≤ b < 256 → of_le (b :: l) = b + 256 * of_le l.
Proof.
  intros Hb. unfold of_le. cbn [little_endian_to_Z]. rewrite Z.shiftl_mul_pow2, Z.lor_comm, lor_pow2_add by lia. change (2 ^ 8) with 256. lia.
Qed.
Lemma of_le_app l k : bytes l → of_le (l ++ k) = of_le l + 2 ^ (8 * zlen l) * of_le k.
Proof.
  induction 1 as [|b l Hb Hl IH]; [by rewrite Z.mul_1_l|]. cbn [app]. rewrite !of_le_cons, IH by done.
  assert (2 ^ (8 * zlen (b :: l)) = 256 * 2 ^ (8 * zlen l)) as ->; [|ring].
  rewrite zlen_cons, Z.mul_add_distr_l, Z.pow_add_r by (pose proof (zlen_nonneg l); lia). done.
Qed.

Lemma pack_nil w : pack w [] = 0.
Proof. done. Qed.

Lemma pack_range w l : zlen l ≤ w → 0 ≤ pack w l < 2 ^ w.
Proof.
  intros. unfold pack. pose proof (val_be_range l). pose proof (zlen_nonneg l).
  pose proof (pow2_pos (w - zlen l) ltac:(lia)).
  replace (2 ^ w) with (2 ^ zlen l * 2 ^ (w - zlen l)) by (rewrite <- Z.pow_add_r by lia; f_equal; lia).
  nia.
Qed.

(** Or-ing a short value below the used bits appends its bits. *)
Lemma pack_lor w l n v :
  zlen l + Z.of_nat n ≤ w → 0 ≤ v < 2 ^ Z.of_nat n →
  Z.lor (pack w l) (v * 2 ^ (w - zlen l - Z.of_nat n)) = pack w (l ++ bits_be n v).
Proof.
  intros Hw Hv. unfold pack. autorewrite with zlen. pose proof (zlen_nonneg l).
  rewrite val_be_app, val_bits_small, zlen_bits_be by done.
  set (s := w - zlen l - Z.of_nat n).
  replace (w - zlen l) with (Z.of_nat n + s) by lia.
  replace (w - (zlen l + Z.of_nat n)) with s by lia.
  assert (0 ≤ s) by lia. pose proof (pow2_pos s ltac:(lia)).
  rewrite lor_pow2_add; [|lia|]; rewrite Z.pow_add_r by lia; [lia|nia].
Qed.

(** Shifting the register right by all but [n] bits reads the first [n]. *)
Lemma pack_shiftr w l k n :
  n = zlen l → n + zlen k ≤ w → Z.shiftr (pack w (l ++ k)) (w - n) = val_be l.
Proof.
  intros -> Hw. pose proof (zlen_nonneg l). pose proof (zlen_nonneg k).
  rewrite Z.shiftr_div_pow2 by lia. unfold pack. rewrite val_be_app, zlen_app.
  replace (w - zlen l) with (zlen k + (w - (zlen l + zlen k))) by lia.
  set (s := w - (zlen l + zlen k)). rewrite Z.pow_add_r by lia.
  rewrite Z.mul_add_distr_r, <- Z.mul_assoc.
  pose proof (val_be_range k). pose proof (pow2_pos s ltac:(lia)). pose proof (pow2_pos (zlen k) ltac:(lia)).
  rewrite Z.div_add_l by nia. rewrite Z.div_small by nia. lia.
Qed.

(** Shifting it left drops them. *)
Lemma pack_shiftl w l k n :
  n = zlen l → n + zlen k ≤ w → (Z.shiftl (pack w (l ++ k)) n) `mod` 2 ^ w = pack w k.
Proof.
  intros -> Hw. pose proof (zlen_nonneg l). pose proof (zlen_nonneg k).
  rewrite Z.shiftl_mul_pow2 by lia. unfold pack. rewrite val_be_app, zlen_app.
  set (s := w - (zlen l + zlen k)).
  replace (w - zlen k) with (zlen l + s) by lia. rewrite Z.pow_add_r by lia.
  replace ((val_be l * 2 ^ zlen k + val_be k) * 2 ^ s * 2 ^ zlen l)
    with (val_be k * (2 ^ zlen l * 2 ^ s) + val_be l * 2 ^ w).
  - rewrite Z_mod_plus_full. apply Z.mod_small.
    pose proof (pack_range w k ltac:(lia)) as Hp. unfold pack in Hp.
    replace (w - zlen k) with (zlen l + s) in Hp by lia. by rewrite Z.pow_add_r in Hp by lia.
  - replace w with (zlen l + zlen k + s) by lia. rewrite !Z.pow_add_r by lia. ring.
Qed.

Lemma pack_zeros w l n : zlen l + Z.of_nat n ≤ w → pack w (l ++ replicate n false) = pack w l.
Proof.
  intros. unfold pack. rewrite val_be_app, val_be_replicate, zlen_app, Z.add_0_r.
  unfold zlen in *. rewrite length_replicate.
  rewrite <- Z.mul_assoc, <- Z.pow_add_r by lia. do 2 f_equal. lia.
Qed.
