(* ===== verification/Bitstream.v ===== *)
(** * The bit stream

    [chronoxide-core/src/storage/encoding/bitstream.rs]: [BitWriter] packs
    most-significant-bit-first into a 64-bit register that is flushed byte by
    byte, [BitReader] unpacks through a 128-bit register.  Both are proved to
    implement a plain bit string: [writer_rep w l] ([reader_rep r l]) says that
    [w] has written (that [r] has yet to read) exactly the bits [l].

    The loops run on fuel: a flush moves at most 8 bytes out of the register,
    a write of [bits] makes at most [bits] turns, a refill at most 8. *)
From S2P Require Import Prelude Bits.

Record BitWriter := mk_writer { bw_buf : list Z; bw_bit_buf : Z; bw_bit_len : Z }.

Module Writer.

Definition new : BitWriter := mk_writer [] 0 0.

Fixpoint flush_loop (fuel : nat) (w : BitWriter) : BitWriter :=
  match fuel with
  | O => w
  | S fuel =>
      if 8 <=? bw_bit_len w then
        flush_loop fuel
          (mk_writer (bw_buf w ++ [wrap_u8 (Z.shiftr (bw_bit_buf w) 56)])
             (wrap_u64 (Z.shiftl (bw_bit_buf w) 8))
             (saturating_sub (bw_bit_len w) 8))
      else w
  end.

Definition flush_full_bytes (w : BitWriter) : BitWriter := flush_loop 8 w.

Fixpoint write_bits_loop (fuel : nat) (w : BitWriter) (value remaining : Z) : BitWriter :=
  match fuel with
  | O => w
  | S fuel =>
      if 0 <? remaining then
        let available := saturating_sub 64 (bw_bit_len w) in
        if remaining <=? available then
          let shift := available - remaining in
          let w := mk_writer (bw_buf w)
            (Z.lor (bw_bit_buf w) (wrap_u64 (Z.shiftl value shift)))
            (Z.min (bw_bit_len w + remaining) u8_max) in
          write_bits_loop fuel (flush_full_bytes w) value 0
        else
          let shift := remaining - available in
          let chunk := Z.shiftr value shift in
          let w := mk_writer (bw_buf w) (Z.lor (bw_bit_buf w) chunk) 64 in
          let value := if shift =? 0 then 0 else Z.land value (Z.shiftl 1 shift - 1) in
          write_bits_loop fuel (flush_full_bytes w) value shift
      else w
  end.

Definition write_bits (w : BitWriter) (value bits : Z) : BitWriter :=
  if bits =? 0 then w
  else if (bits =? 64) && (bw_bit_len w =? 0) then
    mk_writer (bw_buf w ++ be_bytes 8 value) (bw_bit_buf w) (bw_bit_len w)
  else
    let value := if bits =? 64 then value else Z.land value (Z.shiftl 1 bits - 1) in
    if (bw_bit_len w =? 0) && (bits `mod` 8 =? 0) then
      let byte_len := bits / 8 in
      mk_writer (bw_buf w ++ slice (be_bytes 8 value) (8 - byte_len) 8)
        (bw_bit_buf w) (bw_bit_len w)
    else write_bits_loop (Z.to_nat bits) w value bits.

Definition write_bit (w : BitWriter) (bit : bool) : BitWriter :=
  write_bits w (if bit then 1 else 0) 1.

Definition finish (w : BitWriter) : list Z :=
  if 0 <? bw_bit_len w then bw_buf w ++ [wrap_u8 (Z.shiftr (bw_bit_buf w) 56)] else bw_buf w.

Definition snapshot (w : BitWriter) : list Z :=
  if 0 <? bw_bit_len w then bw_buf w ++ [wrap_u8 (Z.shiftr (bw_bit_buf w) 56)] else bw_buf w.

Definition len_bytes (w : BitWriter) : Z :=
  zlen (bw_buf w) + (if 0 <? bw_bit_len w then 1 else 0).

End Writer.

Record BitReader := mk_reader { br_buf : list Z; br_index : Z; br_bit_buf : Z; br_bit_len : Z }.

Module Reader.

Definition new (buf : list Z) : BitReader := mk_reader buf 0 0 0.

(** [2^128], the modulus of the reader's register. *)
Definition wrap_u128 (z : Z) : Z := z `mod` 340282366920938463463374607431768211456.

Fixpoint fill_loop (fuel : nat) (r : BitReader) (bits : Z) : io_result BitReader :=
  match fuel with
  | O => Ok r
  | S fuel =>
      if br_bit_len r <? bits then
        match byte_at (br_buf r) (br_index r) with
        | None => fail UnexpectedEof "bitstream exhausted"
        | Some byte =>
            let shift := saturating_sub 120 (br_bit_len r) in
            fill_loop fuel
              (mk_reader (br_buf r) (saturating_add_u64 (br_index r) 1)
                 (Z.lor (br_bit_buf r) (wrap_u128 (Z.shiftl byte shift)))
                 (Z.min (br_bit_len r + 8) u8_max))
              bits
        end
      else Ok r
  end.

Definition read_bits (r : BitReader) (bits : Z) : io_result (Z * BitReader) :=
  if bits =? 0 then Ok (0, r)
  else if (bits =? 64) && (br_bit_len r =? 0) then
    if zlen (br_buf r) <? saturating_add_u64 (br_index r) 8 then
      fail UnexpectedEof "bitstream exhausted"
    else
      let bs := slice (br_buf r) (br_index r) (br_index r + 8) in
      Ok (of_be bs, mk_reader (br_buf r) (saturating_add_u64 (br_index r) 8)
                      (br_bit_buf r) (br_bit_len r))
  else
    r ← fill_loop 9 r bits;
    let shift := saturating_sub 128 bits in
    let value := wrap_u64 (Z.shiftr (br_bit_buf r) shift) in
    let value := if bits <? 64 then Z.land value (Z.shiftl 1 bits - 1) else value in
    Ok (value, mk_reader (br_buf r) (br_index r)
                 (wrap_u128 (Z.shiftl (br_bit_buf r) bits))
                 (saturating_sub (br_bit_len r) bits)).

Definition read_bit (r : BitReader) : io_result (Z * BitReader) :=
  '(v, r) ← read_bits r 1; Ok (wrap_u8 v, r).

Definition require_canonical_end (r : BitReader) : io_result unit :=
  if negb (br_index r =? zlen (br_buf r)) then
    fail InvalidData "bitstream has trailing bytes"
  else if (0 <? br_bit_len r)
          && negb (Z.shiftr (br_bit_buf r) (128 - br_bit_len r) =? 0) then
    fail InvalidData "bitstream has non-zero padding bits"
  else Ok tt.

End Reader.

(** ** The abstraction to bit strings *)

Definition writer_rep (w : BitWriter) (l : list bool) : Prop :=
  ∃ p, bytes (bw_buf w) ∧ bw_bit_buf w = pack 64 p ∧ bw_bit_len w = zlen p ∧ zlen p < 8 ∧
       l = bytes_bits (bw_buf w) ++ p.

Definition reader_rep (r : BitReader) (l : list bool) : Prop :=
  ∃ p, bytes (br_buf r) ∧ vec_ok (br_buf r) ∧ 0 ≤ br_index r ≤ zlen (br_buf r) ∧
       br_bit_buf r = pack 128 p ∧ br_bit_len r = zlen p ∧ zlen p < 8 ∧
       l = p ++ bytes_bits (drop (Z.to_nat (br_index r)) (br_buf r)).

(** The bytes a finished writer returns: the bits, zero-padded to a byte boundary. *)
Definition padding (l : list bool) : nat := Z.to_nat ((- zlen l) `mod` 8).

(** ** The writer implements appending *)

Section writer.
Import Writer.

Lemma writer_rep_new : writer_rep new [].
Proof. by exists []. Qed.

Lemma take_drop_zlen (l : list bool) n :
  0 ≤ n ≤ zlen l → ∃ a b, l = a ++ b ∧ zlen a = n ∧ zlen b = zlen l - n.
Proof.
  intros Hn. exists (take (Z.to_nat n) l), (drop (Z.to_nat n) l).
  rewrite take_drop. unfold zlen in *. rewrite length_take, length_drop. split_and!; [done|lia..].
Qed.

Lemma wrap_u8_val a : zlen a = 8 → wrap_u8 (val_be a) = val_be a.
Proof.
  intros Ha. apply Z.mod_small. pose proof (val_be_range a) as H. by rewrite Ha in H.
Qed.

Lemma is_byte_val a : zlen a = 8 → is_byte (val_be a).
Proof. intros Ha. pose proof (val_be_range a) as H. by rewrite Ha in H. Qed.

Lemma bits_be_val8 a : zlen a = 8 → bits_be 8 (val_be a) = a.
Proof.
  intros Ha. replace 8%nat with (length a) by (unfold zlen in Ha; lia). apply bits_be_val.
Qed.

Lemma flush_loop_rep fuel : ∀ buf p,
  bytes buf → zlen p ≤ 64 → zlen p < 8 * Z.of_nat fuel + 8 →
  writer_rep (flush_loop fuel (mk_writer buf (pack 64 p) (zlen p))) (bytes_bits buf ++ p).
Proof.
  induction fuel as [|fuel IH]; intros buf p Hbuf Hp Hf.
  { exists p. by split_and!. }
  cbn [flush_loop bw_bit_len bw_bit_buf bw_buf].
  destruct (Z.leb_spec 8 (zlen p)) as [H8|H8].
  - destruct (take_drop_zlen p 8) as (a & b & -> & Ha & Hb); [lia|].
    rewrite zlen_app in *.
    change 56 with (64 - 8). rewrite pack_shiftr by lia.
    unfold wrap_u64. change 18446744073709551616 with (2 ^ 64).
    rewrite pack_shiftl by lia. rewrite wrap_u8_val by done.
    replace (saturating_sub (zlen a + zlen b) 8) with (zlen b) by (unfold saturating_sub; lia).
    replace (bytes_bits buf ++ a ++ b) with (bytes_bits (buf ++ [val_be a]) ++ b).
    { apply IH; [|lia..]. apply Forall_app. split; [done|].
      constructor; [by apply is_byte_val|done]. }
    rewrite bytes_bits_app, bytes_bits_cons, bits_be_val8 by done.
    cbn. rewrite app_nil_r. by rewrite app_assoc.
  - exists p. by split_and!.
Qed.

Lemma flush_rep buf p :
  bytes buf → zlen p ≤ 64 →
  writer_rep (flush_full_bytes (mk_writer buf (pack 64 p) (zlen p))) (bytes_bits buf ++ p).
Proof. intros. apply flush_loop_rep; [done|lia|simpl; lia]. Qed.

Lemma land_mask v n : 0 ≤ n → Z.land v (Z.shiftl 1 n - 1) = v `mod` 2 ^ n.
Proof.
  intros. rewrite Z.shiftl_1_l. replace (2 ^ n - 1) with (Z.ones n); [by apply Z.land_ones|].
  rewrite Z.ones_equiv. lia.
Qed.

Lemma write_bits_loop_rep fuel : ∀ w l value n,
  writer_rep w l → Z.of_nat n ≤ 64 → 0 ≤ value < 2 ^ Z.of_nat n → (n ≤ fuel)%nat →
  writer_rep (write_bits_loop fuel w value (Z.of_nat n)) (l ++ bits_be n value).
Proof.
  induction fuel as [|fuel IH]; intros w l value n Hrep Hn Hv Hf.
  { replace n with 0%nat by lia. cbn. by rewrite app_nil_r. }
  cbn [write_bits_loop]. destruct (Z.ltb_spec 0 (Z.of_nat n)); cycle 1.
  { replace n with 0%nat by lia. cbn. by rewrite app_nil_r. }
  destruct Hrep as (p & Hb & Hbuf & Hlen & Hp & ->). destruct w as [buf bb bl].
  cbn [bw_buf bw_bit_buf bw_bit_len] in *. subst bb bl. pose proof (zlen_nonneg p).
  replace (saturating_sub 64 (zlen p)) with (64 - zlen p) by (unfold saturating_sub; lia).
  rewrite <- app_assoc.
  destruct (Z.leb_spec (Z.of_nat n) (64 - zlen p)) as [Hfit|Hover].
  - rewrite Z.shiftl_mul_pow2 by lia. rewrite wrap_u64_small.
    2: { unfold in_u64. pose proof (pow2_pos (64 - zlen p - Z.of_nat n) ltac:(lia)).
         split; [nia|]. enough (value * 2 ^ (64 - zlen p - Z.of_nat n) < 2 ^ 64)
           by (change (2 ^ 64) with 18446744073709551616 in *; lia).
         apply Z.lt_le_trans with (2 ^ Z.of_nat n * 2 ^ (64 - zlen p - Z.of_nat n)); [nia|].
         rewrite <- Z.pow_add_r by lia. apply Z.pow_le_mono_r; lia. }
    rewrite pack_lor by lia.
    replace (Z.min (zlen p + Z.of_nat n) u8_max) with (zlen (p ++ bits_be n value))
      by (autorewrite with zlen; lia).
    pose proof (flush_rep buf (p ++ bits_be n value) Hb
                  ltac:(autorewrite with zlen; lia)) as Hfl.
    specialize (IH _ _ value 0%nat Hfl ltac:(lia)).
    destruct fuel; [exact Hfl|]. exact Hfl.
  - set (shift := Z.of_nat n - (64 - zlen p)) in *.
    rewrite Z.shiftr_div_pow2 by lia.
    set (a := Z.to_nat (64 - zlen p)). set (m := Z.to_nat shift).
    assert (Hnm : n = (a + m)%nat) by lia.
    assert (Hm : Z.of_nat m = shift) by lia.
    assert (Hdiv : 0 ≤ value / 2 ^ shift < 2 ^ Z.of_nat a).
    { split; [apply Z.div_pos; [lia|apply pow2_pos; lia]|].
      apply Z.div_lt_upper_bound; [apply pow2_pos; lia|].
      rewrite <- Z.pow_add_r by lia. replace (shift + Z.of_nat a) with (Z.of_nat n) by lia. lia. }
    pose proof (pack_lor 64 p a (value / 2 ^ shift) ltac:(lia) Hdiv) as Hlor.
    replace (64 - zlen p - Z.of_nat a) with 0 in Hlor by lia.
    rewrite Z.pow_0_r, Z.mul_1_r in Hlor. rewrite Hlor.
    replace 64 with (zlen (p ++ bits_be a (value / 2 ^ shift))) at 2
      by (autorewrite with zlen; lia).
    rewrite (proj2 (Z.eqb_neq shift 0)) by lia. rewrite land_mask by lia.
    pose proof (flush_rep buf (p ++ bits_be a (value / 2 ^ shift)) Hb
                  ltac:(autorewrite with zlen; lia)) as Hfl.
    rewrite Hnm at 1. rewrite bits_be_app, Hm.
    replace (bytes_bits buf ++ p ++ bits_be a (value / 2 ^ shift) ++ bits_be m value)
      with ((bytes_bits buf ++ p ++ bits_be a (value / 2 ^ shift)) ++ bits_be m (value `mod` 2 ^ shift)).
    2: { rewrite bits_be_mod by lia. by rewrite <- !app_assoc. }
    specialize (IH _ _ (value `mod` 2 ^ shift) m Hfl ltac:(lia)). rewrite Hm in IH.
    apply IH; [|lia]. apply Z.mod_pos_bound, pow2_pos. lia.
Qed.

(** The byte-aligned fast paths append whole bytes to the buffer. *)
Lemma writer_rep_aligned w l bs :
  writer_rep w l → bw_bit_len w = 0 → bytes bs →
  writer_rep (mk_writer (bw_buf w ++ bs) (bw_bit_buf w) (bw_bit_len w)) (l ++ bytes_bits bs).
Proof.
  intros (p & Hb & Hbuf & Hlen & Hp & ->) H0 Hbs. rewrite H0 in Hlen.
  symmetry in Hlen. apply zlen_0 in Hlen. subst p. rewrite app_nil_r.
  exists []. cbn [bw_buf bw_bit_buf bw_bit_len]. rewrite app_nil_r, bytes_bits_app.
  split_and!; try done. by apply Forall_app.
Qed.

(** Appending [n] bits, on all three paths of [write_bits]. *)
Lemma write_bits_rep w l value n :
  writer_rep w l → (n ≤ 64)%nat → in_u64 value →
  writer_rep (write_bits w value (Z.of_nat n)) (l ++ bits_be n value).
Proof.
  intros Hrep Hn Hv. unfold write_bits.
  destruct (Z.eqb_spec (Z.of_nat n) 0).
  { replace n with 0%nat by lia. cbn. by rewrite app_nil_r. }
  destruct (Z.eqb_spec (Z.of_nat n) 64) as [H64|H64]; cbn [andb].
  - replace n with 64%nat by lia. clear n Hn n0 H64.
    destruct (Z.eqb_spec (bw_bit_len w) 0) as [H0|H0]; cbn [andb].
    + rewrite <- (bytes_bits_be_bytes 8). apply writer_rep_aligned; [done..|].
      apply bytes_be_bytes. lia.
    + apply (write_bits_loop_rep 64 w l value 64); [done|lia| |lia].
      unfold in_u64 in Hv. change (2 ^ Z.of_nat 64) with 18446744073709551616. lia.
  - rewrite land_mask by lia.
    assert (Hm : 0 ≤ value `mod` 2 ^ Z.of_nat n < 2 ^ Z.of_nat n).
    { apply Z.mod_pos_bound, pow2_pos. lia. }
    rewrite <- (bits_be_mod n (Z.of_nat n) value) by lia.
    destruct ((bw_bit_len w =? 0) && (Z.of_nat n `mod` 8 =? 0)) eqn:Hal.
    + apply andb_true_iff in Hal as [H0%Z.eqb_eq H8%Z.eqb_eq].
      pose proof (Z.div_mod (Z.of_nat n) 8 ltac:(lia)).
      set (k := Z.to_nat (Z.of_nat n / 8)).
      replace (Z.of_nat n / 8) with (Z.of_nat k) by lia.
      rewrite be_bytes_suffix by lia.
      assert (Hk : ∀ v, bits_be n v = bytes_bits (be_bytes (Z.of_nat k) v)).
      { intros v. rewrite bytes_bits_be_bytes. f_equal. lia. }
      rewrite Hk. apply writer_rep_aligned; [done..|].
      apply bytes_be_bytes. lia.
    + apply write_bits_loop_rep; [done|lia|done|lia].
Qed.

Lemma write_bit_rep w l b : writer_rep w l → writer_rep (write_bit w b) (l ++ [b]).
Proof.
  intros Hrep. unfold write_bit.
  pose proof (write_bits_rep w l (if b then 1 else 0) 1 Hrep ltac:(lia)) as H.
  destruct b; apply H; unfold in_u64; lia.
Qed.

Lemma finish_snapshot w : snapshot w = finish w.
Proof. done. Qed.

Lemma finish_rep w l :
  writer_rep w l → bytes (finish w) ∧ bytes_bits (finish w) = l ++ replicate (padding l) false.
Proof.
  intros (p & Hb & Hbuf & Hlen & Hp & ->). unfold finish, padding.
  rewrite Hbuf, Hlen, zlen_app, zlen_bytes_bits. pose proof (zlen_nonneg p).
  destruct (Z.ltb_spec 0 (zlen p)).
  - set (q := p ++ replicate (8 - length p) false).
    assert (Hq : zlen q = 8).
    { unfold q, zlen in *. rewrite length_app, length_replicate. lia. }
    assert (Hv : wrap_u8 (Z.shiftr (pack 64 p) 56) = val_be q).
    { rewrite <- (pack_zeros 64 p (8 - length p)) by (unfold zlen in *; lia).
      fold q. rewrite <- (app_nil_r q) at 1. change 56 with (64 - 8).
      rewrite pack_shiftr by (rewrite ?zlen_nil; lia). by apply wrap_u8_val. }
    rewrite Hv. split.
    + apply Forall_app. split; [done|]. constructor; [by apply is_byte_val|done].
    + rewrite bytes_bits_app, bytes_bits_cons, bits_be_val8 by done. cbn [bytes_bits].
      rewrite app_nil_r, <- app_assoc. do 2 f_equal. f_equal.
      replace (- (8 * zlen (bw_buf w) + zlen p)) with (8 - zlen p + (- zlen (bw_buf w) - 1) * 8) by lia.
      rewrite Z_mod_plus_full, Z.mod_small by lia. unfold zlen. lia.
  - assert (Hz : zlen p = 0) by lia. apply zlen_0 in Hz. subst p. split; [done|].
    rewrite app_nil_r, zlen_nil, Z.add_0_r.
    replace (- (8 * zlen (bw_buf w))) with (- zlen (bw_buf w) * 8) by lia.
    rewrite Z_mod_mult. by rewrite app_nil_r.
Qed.

Lemma len_bytes_rep w l : writer_rep w l → len_bytes w = (zlen l + 7) / 8 ∧ len_bytes w = zlen (finish w).
Proof.
  intros (p & Hb & Hbuf & Hlen & Hp & ->). unfold len_bytes, finish. rewrite Hlen.
  autorewrite with zlen. pose proof (zlen_nonneg p).
  destruct (Z.ltb_spec 0 (zlen p)); split.
  - rewrite <- Z.add_assoc, Z.mul_comm, Z.div_add_l by lia. f_equal.
    apply Z.div_unique with (zlen p - 1); lia.
  - by autorewrite with zlen.
  - rewrite <- Z.add_assoc, Z.mul_comm, Z.div_add_l by lia. f_equal.
    symmetry. apply Z.div_small. lia.
  - lia.
Qed.
End writer.

(** ** The reader implements consuming *)

Section reader.
Import Reader.

Lemma reader_rep_new buf :
  bytes buf → vec_ok buf → reader_rep (new buf) (bytes_bits buf).
Proof.
  intros. exists []. unfold new. cbn. split_and!; try done. apply zlen_nonneg.
Qed.

Lemma drop_index buf (i : Z) b :
  0 ≤ i → byte_at buf i = Some b →
  drop (Z.to_nat i) buf = b :: drop (Z.to_nat (i + 1)) buf ∧ i < zlen buf.
Proof.
  intros Hi. unfold byte_at. rewrite (proj2 (Z.ltb_ge i 0)) by lia. intros Hb. split.
  - rewrite (drop_S _ _ _ Hb). do 2 f_equal. lia.
  - apply lookup_lt_Some in Hb. unfold zlen. lia.
Qed.

Lemma byte_at_None buf i : 0 ≤ i → byte_at buf i = None → zlen buf ≤ i.
Proof.
  intros Hi. unfold byte_at. rewrite (proj2 (Z.ltb_ge i 0)) by lia.
  intros Hb%lookup_ge_None. unfold zlen. lia.
Qed.

(** What [fill_loop] establishes: at least [n] bits in the register. *)
Definition filled (buf : list Z) (r : BitReader) (l : list bool) (n : Z) : Prop :=
  ∃ p, br_buf r = buf ∧ 0 ≤ br_index r ≤ zlen buf ∧ br_bit_buf r = pack 128 p ∧
       br_bit_len r = zlen p ∧ n ≤ zlen p < n + 8 ∧
       l = p ++ bytes_bits (drop (Z.to_nat (br_index r)) buf).

Lemma fill_loop_rep fuel : ∀ buf index p n,
  bytes buf → vec_ok buf → 0 ≤ index ≤ zlen buf → 0 ≤ n ≤ 64 →
  zlen p < n + 8 → n ≤ zlen p + 8 * Z.of_nat fuel →
  let l := p ++ bytes_bits (drop (Z.to_nat index) buf) in
  match fill_loop fuel (mk_reader buf index (pack 128 p) (zlen p)) n with
  | Ok r => filled buf r l n
  | Err e => zlen l < n ∧ e = io_err UnexpectedEof "bitstream exhausted"
  end.
Proof.
  induction fuel as [|fuel IH]; intros buf index p n Hb Hsz Hi Hn Hp Hf l; subst l.
  { exists p. cbn. split_and!; try done; lia. }
  cbn [fill_loop br_bit_len br_buf br_index br_bit_buf]. pose proof (zlen_nonneg p).
  destruct (Z.ltb_spec (zlen p) n) as [Hlt|Hge]; cycle 1.
  { exists p. cbn. split_and!; try done; lia. }
  destruct (byte_at buf index) as [b|] eqn:Hbyte; cycle 1.
  { apply byte_at_None in Hbyte; [|lia]. split; [|done].
    rewrite drop_ge by (unfold zlen in *; lia). cbn. by rewrite app_nil_r. }
  assert (Hbb : is_byte b).
  { unfold byte_at in Hbyte. destruct (index <? 0); [done|]. by eapply Forall_lookup_1. }
  apply drop_index in Hbyte as [Hd Hlt']; [|lia]. rewrite Hd.
  replace (saturating_sub 120 (zlen p)) with (128 - zlen p - Z.of_nat 8)
    by (unfold saturating_sub; lia).
  replace (saturating_add_u64 index 1) with (index + 1) by (unfold saturating_add_u64; lia).
  rewrite Z.shiftl_mul_pow2 by lia. unfold wrap_u128. rewrite Z.mod_small.
  2: { unfold is_byte in Hbb. pose proof (pow2_pos (128 - zlen p - Z.of_nat 8) ltac:(lia)).
       split; [nia|]. change 340282366920938463463374607431768211456 with (2 ^ 128).
       apply Z.lt_le_trans with (2 ^ 8 * 2 ^ (128 - zlen p - Z.of_nat 8)); [nia|].
       rewrite <- Z.pow_add_r by lia. apply Z.pow_le_mono_r; lia. }
  rewrite pack_lor by (done || lia).
  replace (Z.min (zlen p + 8) u8_max) with (zlen (p ++ bits_be 8 b))
    by (autorewrite with zlen; lia).
  specialize (IH buf (index + 1) (p ++ bits_be 8 b) n Hb Hsz).
  rewrite bytes_bits_cons, app_assoc. apply IH; autorewrite with zlen; lia.
Qed.

(** A read that the remaining bits can serve. *)
Lemma read_bits_rep r l (n : nat) :
  reader_rep r l → (n ≤ 64)%nat → (n ≤ length l)%nat →
  ∃ r', read_bits r (Z.of_nat n) = Ok (val_be (take n l), r') ∧ reader_rep r' (drop n l).
Proof.
  intros (p & Hb & Hsz & Hi & Hbuf & Hlen & Hp & ->) Hn Hl. unfold read_bits.
  destruct (Z.eqb_spec (Z.of_nat n) 0) as [H0|H0].
  { replace n with 0%nat by lia. exists r. split; [done|]. by exists p. }
  destruct r as [buf index bb bl]. cbn [br_buf br_index br_bit_buf br_bit_len] in *. subst bb bl.
  destruct (decide (n = 64%nat ∧ zlen p = 0)) as [[-> Hz]|Hslow].
  - rewrite Hz. apply zlen_0 in Hz. subst p. cbn [app] in *. cbn [andb].
    rewrite length_bytes_bits, length_drop in Hl.
    replace (saturating_add_u64 index 8) with (index + 8) by (unfold saturating_add_u64; lia).
    rewrite (proj2 (Z.ltb_ge _ _)) by (unfold zlen in *; lia).
    unfold slice. replace (Z.to_nat (index + 8 - index)) with 8%nat by lia.
    set (d := drop (Z.to_nat index) buf) in *.
    assert (Hd : bytes d) by by apply Forall_drop.
    assert (Hd8 : length (take 8 d) = 8%nat) by (rewrite length_take; unfold d; rewrite length_drop; lia).
    assert (Hsplit : bytes_bits d = bytes_bits (take 8 d) ++ bytes_bits (drop 8 d)).
    { by rewrite <- bytes_bits_app, take_drop. }
    eexists. rewrite of_be_val by by apply Forall_take. split.
    + do 3 f_equal. rewrite Hsplit, take_app_length'; [done|].
      rewrite length_bytes_bits, Hd8. done.
    + exists []. cbn [br_buf br_index br_bit_buf br_bit_len]. rewrite app_nil_l.
      split_and!; try done; try (unfold zlen in *; lia).
      rewrite Hsplit, drop_app_length' by (rewrite length_bytes_bits, Hd8; done).
      unfold d. rewrite drop_drop. do 2 f_equal. lia.
  - replace ((Z.of_nat n =? 64) && (zlen p =? 0)) with false; cycle 1.
    { symmetry. apply andb_false_iff. rewrite !Z.eqb_neq. lia. }
    pose proof (fill_loop_rep 9 buf index p (Z.of_nat n) Hb Hsz Hi ltac:(lia) ltac:(lia)
      ltac:(pose proof (zlen_nonneg p); lia)) as Hfill.
    set (l := p ++ bytes_bits (drop (Z.to_nat index) buf)) in *. cbn beta zeta in Hfill.
    destruct (fill_loop 9 _ _) as [[buf' index' bb' bl']|e]; cycle 1.
    { unfold zlen in *. lia. }
    destruct Hfill as (q & Heq & Hi' & Hbb & Hbl & Hq & Hl'). cbn [br_buf br_index br_bit_buf br_bit_len] in *.
    subst buf' bb' bl'. cbn [mbind result_bind br_buf br_index br_bit_buf br_bit_len].
    destruct (take_drop_zlen q (Z.of_nat n)) as (a & b & -> & Ha & Hbk); [lia|].
    rewrite zlen_app in *. rewrite Hl' in *.
    replace (saturating_sub 128 (Z.of_nat n)) with (128 - Z.of_nat n) by (unfold saturating_sub; lia).
    rewrite pack_shiftr by lia. unfold wrap_u128.
    change 340282366920938463463374607431768211456 with (2 ^ 128). rewrite pack_shiftl by lia.
    pose proof (val_be_range a) as Hva. rewrite Ha in Hva.
    assert (2 ^ Z.of_nat n ≤ 2 ^ 64) by (apply Z.pow_le_mono_r; lia).
    change (2 ^ 64) with 18446744073709551616 in *.
    rewrite wrap_u64_small by (unfold in_u64; lia).
    rewrite land_mask by lia. rewrite Z.mod_small by lia.
    replace (if Z.of_nat n <? 64 then val_be a else val_be a) with (val_be a) by by destruct (_ <? _).
    assert (Hna : n = length a) by (unfold zlen in *; lia).
    eexists. rewrite <- app_assoc. rewrite take_app_length' by done. split; [done|].
    exists b. cbn [br_buf br_index br_bit_buf br_bit_len].
    rewrite drop_app_length' by done.
    split_and!; try done; unfold saturating_sub; lia.
Qed.

(** A read past the end fails, and with this error. *)
Lemma read_bits_exhausted r l (n : nat) :
  reader_rep r l → (n ≤ 64)%nat → (length l < n)%nat →
  read_bits r (Z.of_nat n) = Err (io_err UnexpectedEof "bitstream exhausted").
Proof.
  intros (p & Hb & Hsz & Hi & Hbuf & Hlen & Hp & ->) Hn Hl. unfold read_bits.
  rewrite (proj2 (Z.eqb_neq _ _)) by lia.
  destruct r as [buf index bb bl]. cbn [br_buf br_index br_bit_buf br_bit_len] in *. subst bb bl.
  rewrite length_app, length_bytes_bits, length_drop in Hl.
  destruct ((Z.of_nat n =? 64) && (zlen p =? 0)) eqn:Hfast.
  - replace (saturating_add_u64 index 8) with (index + 8) by (unfold saturating_add_u64; lia).
    rewrite (proj2 (Z.ltb_lt _ _)); [done|]. unfold zlen in *. lia.
  - pose proof (fill_loop_rep 9 buf index p (Z.of_nat n) Hb Hsz Hi ltac:(lia) ltac:(lia)
      ltac:(pose proof (zlen_nonneg p); lia)) as Hfill. cbn beta zeta in Hfill.
    destruct (fill_loop 9 _ _) as [r|e]; cbn [mbind result_bind].
    + destruct Hfill as (q & _ & _ & _ & _ & Hq & Hl').
      apply (f_equal length) in Hl'. rewrite !length_app, !length_bytes_bits, length_drop in Hl'.
      unfold zlen in *. lia.
    + by destruct Hfill as [_ ->].
Qed.

(** The end check accepts exactly the streams with fewer than eight
    remaining bits, all of them zero. *)
Lemma require_canonical_end_rep r l :
  reader_rep r l →
  require_canonical_end r = Ok tt ↔ (length l < 8)%nat ∧ l = replicate (length l) false.
Proof.
  intros (p & Hb & Hsz & Hi & Hbuf & Hlen & Hp & ->). unfold require_canonical_end.
  destruct r as [buf index bb bl]. cbn [br_buf br_index br_bit_buf br_bit_len] in *. subst bb bl.
  rewrite length_app, length_bytes_bits, length_drop.
  destruct (Z.eqb_spec index (zlen buf)) as [->|Hne]; cbn [negb]; cycle 1.
  { split; [done|]. intros [H _]. unfold zlen in *. lia. }
  rewrite drop_ge by (unfold zlen; lia). cbn [bytes_bits]. rewrite app_nil_r.
  replace (8 * (length buf - Z.to_nat (zlen buf)))%nat with 0%nat by (unfold zlen; lia).
  rewrite Nat.add_0_r. rewrite <- (app_nil_r p) at 2.
  rewrite pack_shiftr by (rewrite ?zlen_nil; lia). split.
  - destruct (Z.ltb_spec 0 (zlen p)); cbn [andb].
    + destruct (Z.eqb_spec (val_be p) 0); [|done]. intros _.
      split; [unfold zlen in *; lia|by apply val_be_0].
    + intros _. assert (zlen p = 0) as Hz by (pose proof (zlen_nonneg p); lia).
      apply zlen_0 in Hz. subst p. split; [simpl; lia|done].
  - intros [_ ->]. rewrite val_be_replicate. by rewrite andb_false_r.
Qed.

Lemma read_bit_rep r b l :
  reader_rep r (b :: l) → ∃ r', read_bit r = Ok (Z.b2z b, r') ∧ reader_rep r' l.
Proof.
  intros Hr. destruct (read_bits_rep r (b :: l) 1 Hr ltac:(lia) ltac:(simpl; lia)) as (r' & Hrd & Hr').
  exists r'. split; [|done]. unfold read_bit. change 1 with (Z.of_nat 1). rewrite Hrd.
  by destruct b.
Qed.

Lemma read_bit_exhausted r :
  reader_rep r [] → read_bit r = Err (io_err UnexpectedEof "bitstream exhausted").
Proof.
  intros Hr. unfold read_bit. change 1 with (Z.of_nat 1).
  rewrite (read_bits_exhausted r []); [done|done|lia|simpl; lia].
Qed.

(** The same facts in the shapes decoders use. *)
Lemma read_field r l v (n : nat) k :
  reader_rep r (bits_be n v ++ l) → k = Z.of_nat n → (n ≤ 64)%nat → 0 ≤ v < 2 ^ k →
  ∃ r', read_bits r k = Ok (v, r') ∧ reader_rep r' l.
Proof.
  intros Hr -> Hn Hv.
  destruct (read_bits_rep r _ n Hr Hn ltac:(rewrite length_app, length_bits_be; lia)) as (r' & Hrd & Hr').
  rewrite take_app_length' in Hrd by (by rewrite length_bits_be).
  rewrite drop_app_length' in Hr' by (by rewrite length_bits_be).
  rewrite val_bits_small in Hrd by done. eauto.
Qed.

Lemma read_field_inv r l v r' (n : nat) k :
  reader_rep r l → k = Z.of_nat n → (n ≤ 64)%nat → read_bits r k = Ok (v, r') →
  ∃ l', l = bits_be n v ++ l' ∧ 0 ≤ v < 2 ^ k ∧ reader_rep r' l'.
Proof.
  intros Hr -> Hn Hrd. destruct (decide (n ≤ length l)%nat) as [Hl|Hl].
  - destruct (read_bits_rep r l n Hr Hn Hl) as (r1 & Hrd1 & Hr1).
    rewrite Hrd in Hrd1. injection Hrd1 as -> ->. exists (drop n l).
    assert (Ht : length (take n l) = n) by (rewrite length_take; lia).
    pose proof (val_be_range (take n l)) as Hv. unfold zlen in Hv. rewrite Ht in Hv.
    split_and!; [|lia..|done]. rewrite <- Ht at 1. by rewrite bits_be_val, take_drop.
  - rewrite (read_bits_exhausted r l n) in Hrd; [done..|lia].
Qed.

Lemma read_bit_inv r l c r' :
  reader_rep r l → read_bit r = Ok (c, r') → ∃ b l', c = Z.b2z b ∧ l = b :: l' ∧ reader_rep r' l'.
Proof.
  intros Hr Hrd. destruct l as [|b l].
  - by rewrite read_bit_exhausted in Hrd.
  - destruct (read_bit_rep r b l Hr) as (r1 & Hrd1 & Hr1). rewrite Hrd in Hrd1.
    injection Hrd1 as -> ->. by exists b, l.
Qed.
End reader.

(** ** Theorems *)

Definition write_all (ops : list (Z * nat)) (w : BitWriter) : BitWriter :=
  foldl (λ w op, Writer.write_bits w op.1 (Z.of_nat op.2)) w ops.

Fixpoint read_all (widths : list nat) (r : BitReader) : io_result (list Z * BitReader) :=
  match widths with
  | [] => Ok ([], r)
  | n :: widths =>
      '(v, r) ← Reader.read_bits r (Z.of_nat n);
      '(vs, r) ← read_all widths r;
      Ok (v :: vs, r)
  end.

Definition ops_ok : list (Z * nat) → Prop := Forall (λ op, in_u64 op.1 ∧ (op.2 ≤ 64)%nat).
Definition ops_bits (ops : list (Z * nat)) : list bool := mjoin ((λ op, bits_be op.2 op.1) <$> ops).

Lemma write_all_rep ops : ∀ w l,
  ops_ok ops → writer_rep w l → writer_rep (write_all ops w) (l ++ ops_bits ops).
Proof.
  induction ops as [|[v n] ops IH]; intros w l Hops Hw; [by rewrite app_nil_r|].
  apply Forall_cons_1 in Hops as [[Hv Hn] Hops]. cbn in Hv, Hn.
  change (ops_bits ((v, n) :: ops)) with (bits_be n v ++ ops_bits ops).
  rewrite app_assoc. apply IH; [done|]. by apply write_bits_rep.
Qed.

Lemma read_all_rep ops : ∀ r rest,
  ops_ok ops → reader_rep r (ops_bits ops ++ rest) →
  ∃ r', read_all (snd <$> ops) r = Ok ((λ op, op.1 `mod` 2 ^ Z.of_nat op.2) <$> ops, r')
        ∧ reader_rep r' rest.
Proof.
  induction ops as [|[v n] ops IH]; intros r rest Hops Hr; [by exists r|].
  apply Forall_cons_1 in Hops as [[Hv Hn] Hops]. cbn in Hv, Hn.
  change (ops_bits ((v, n) :: ops)) with (bits_be n v ++ ops_bits ops) in Hr.
  rewrite <- app_assoc in Hr.
  destruct (read_bits_rep r _ n Hr) as (r1 & Hrd & Hr1); [done|rewrite length_app, length_bits_be; lia|].
  rewrite take_app_length' in Hrd by (by rewrite length_bits_be).
  rewrite drop_app_length' in Hr1 by (by rewrite length_bits_be). rewrite val_bits_be in Hrd.
  destruct (IH r1 rest Hops Hr1) as (r' & Hall & Hr').
  exists r'. split; [|done]. cbn [fmap list_fmap read_all snd fst]. rewrite Hrd. cbn.
  rewrite Hall. done.
Qed.

Lemma padding_lt l : (padding l < 8)%nat.
Proof. unfold padding. pose proof (Z.mod_pos_bound (- zlen l) 8 ltac:(lia)). lia. Qed.

(** Mixed-width writes read back, whatever alignment each of them lands on:
    every field returns its low bits, and the finished stream passes the
    canonical-end check. *)
Theorem bitstream_roundtrip ops :
  ops_ok ops → vec_ok (Writer.finish (write_all ops Writer.new)) →
  ∃ r, read_all (snd <$> ops) (Reader.new (Writer.finish (write_all ops Writer.new)))
         = Ok ((λ op, op.1 `mod` 2 ^ Z.of_nat op.2) <$> ops, r)
       ∧ Reader.require_canonical_end r = Ok tt.
Proof.
  intros Hops Hsz.
  pose proof (write_all_rep ops _ _ Hops writer_rep_new) as Hw. cbn [app] in Hw.
  destruct (finish_rep _ _ Hw) as [Hb Hbits].
  pose proof (reader_rep_new _ Hb Hsz) as Hr. rewrite Hbits in Hr.
  destruct (read_all_rep _ _ _ Hops Hr) as (r & Hall & Hend). exists r. split; [done|].
  apply (require_canonical_end_rep r _ Hend). rewrite length_replicate.
  split; [apply padding_lt|done].
Qed.

Lemma bitstream_roundtrip_witness :
  ops_ok [(5, 3%nat); (u64_max, 64%nat); (1, 1%nat)] ∧
  ∃ r, read_all [3%nat; 64%nat; 1%nat]
         (Reader.new (Writer.finish (write_all [(5, 3%nat); (u64_max, 64%nat); (1, 1%nat)] Writer.new)))
         = Ok ([5; u64_max; 1], r)
       ∧ Reader.require_canonical_end r = Ok tt.
Proof.
  assert (H : ops_ok [(5, 3%nat); (u64_max, 64%nat); (1, 1%nat)]).
  { repeat constructor; cbn; unfold in_u64; lia. }
  split; [exact H|].
  apply (bitstream_roundtrip [(5, 3%nat); (u64_max, 64%nat); (1, 1%nat)] H). vm_compute. discriminate.
Defined.

(** The writer refines bit-string append: after any writes the finished
    bytes spell the written bits followed by fewer than eight zero bits, and
    [len_bytes] is the length [finish] will have. *)
Theorem bit_writer_refines_append ops :
  ops_ok ops →
  let w := write_all ops Writer.new in
  bytes_bits (Writer.finish w) = ops_bits ops ++ replicate (padding (ops_bits ops)) false
  ∧ (padding (ops_bits ops) < 8)%nat
  ∧ Writer.len_bytes w = zlen (Writer.finish w)
  ∧ Writer.snapshot w = Writer.finish w.
Proof.
  intros Hops w. pose proof (write_all_rep ops _ _ Hops writer_rep_new) as Hw. cbn [app] in Hw.
  destruct (finish_rep _ _ Hw) as [Hb Hbits]. destruct (len_bytes_rep _ _ Hw) as [_ Hl].
  split_and!; [done|apply padding_lt|done|done].
Qed.

Lemma bit_writer_refines_append_witness :
  ops_ok [(5, 3%nat)] ∧ Writer.finish (write_all [(5, 3%nat)] Writer.new) = [160]
  ∧ bytes_bits [160] = [true; false; true] ++ replicate 5 false.
Proof.
  assert (H : ops_ok [(5, 3%nat)]) by (repeat constructor; cbn; unfold in_u64; lia).
  split; [exact H|]. split; [reflexivity|].
  exact (proj1 (bit_writer_refines_append [(5, 3%nat)] H)).
Defined.
