(* ===== verification/Gorilla.v ===== *)
(** * The Gorilla XOR codec for floating-point values

    [chronoxide-core/src/storage/encoding/gorilla.rs].  An [f64] is the [u64]
    of its bit pattern ([to_bits]/[from_bits] are the identity of the model).
    The encoder is proved to append, value by value, the code words of
    [gorilla_code]; the decoder to accept exactly those. *)
From S2P Require Import Prelude Bits Bitstream.

(** [u64::leading_zeros] and [u64::trailing_zeros]. *)
Definition leading_zeros (x : Z) : Z := if x =? 0 then 64 else 63 - Z.log2 x.

Fixpoint trailing_zeros_pos (p : positive) : Z :=
  match p with
  | xO p => 1 + trailing_zeros_pos p
  | _ => 0
  end.
Definition trailing_zeros (x : Z) : Z :=
  match x with
  | Zpos p => trailing_zeros_pos p
  | _ => 64
  end.

Definition GORILLA_LEADING_BITS : Z := 5.
Definition GORILLA_LEADING_MAX : Z := Z.shiftl 1 GORILLA_LEADING_BITS - 1.
Definition GORILLA_SIG_BITS : Z := 6.

Definition extract_sig_bits (xor trailing sig_bits : Z) : io_result Z :=
  if (sig_bits =? 0) || (64 <? sig_bits) then
    fail InvalidData "invalid significant bit count"
  else if sig_bits =? 64 then
    if negb (trailing =? 0) then
      fail InvalidData "invalid trailing zeros for full-width xor"
    else Ok xor
  else
    let mask := Z.shiftl 1 sig_bits - 1 in
    Ok (Z.land (Z.shiftr xor trailing) mask).

(** ** Encoder *)

Record GorillaEncoder := mk_gorilla {
  ge_writer : BitWriter;
  ge_prev : option Z;
  ge_prev_leading : Z;
  ge_prev_trailing : Z;
  ge_has_window : bool;
}.

Module Encoder.

Definition new : GorillaEncoder := mk_gorilla Writer.new None 0 0 false.

Definition push (e : GorillaEncoder) (bits : Z) : io_result GorillaEncoder :=
  let w := ge_writer e in
  match ge_prev e with
  | None =>
      Ok (mk_gorilla (Writer.write_bits w bits 64) (Some bits)
            (ge_prev_leading e) (ge_prev_trailing e) (ge_has_window e))
  | Some prev =>
      let xor := Z.lxor prev bits in
      if xor =? 0 then
        Ok (mk_gorilla (Writer.write_bit w false) (Some bits)
              (ge_prev_leading e) (ge_prev_trailing e) (ge_has_window e))
      else
        let w := Writer.write_bit w true in
        let leading := leading_zeros xor in
        let trailing := trailing_zeros xor in
        if ge_has_window e && (ge_prev_leading e <=? leading) && (ge_prev_trailing e <=? trailing)
        then
          let w := Writer.write_bit w false in
          let sig_bits := 64 - ge_prev_leading e - ge_prev_trailing e in
          payload ← extract_sig_bits xor (ge_prev_trailing e) sig_bits;
          Ok (mk_gorilla (Writer.write_bits w payload sig_bits) (Some bits)
                (ge_prev_leading e) (ge_prev_trailing e) (ge_has_window e))
        else
          let w := Writer.write_bit w true in
          let store_leading := Z.min leading GORILLA_LEADING_MAX in
          let sig_bits := 64 - store_leading - trailing in
          let len_code := if sig_bits =? 64 then 0 else sig_bits in
          let w := Writer.write_bits w store_leading GORILLA_LEADING_BITS in
          let w := Writer.write_bits w len_code GORILLA_SIG_BITS in
          payload ← extract_sig_bits xor trailing sig_bits;
          Ok (mk_gorilla (Writer.write_bits w payload sig_bits) (Some bits)
                store_leading trailing true)
  end.

Definition finish (e : GorillaEncoder) : list Z := Writer.finish (ge_writer e).
Definition snapshot (e : GorillaEncoder) : list Z := Writer.snapshot (ge_writer e).
Definition len_bytes (e : GorillaEncoder) : Z := Writer.len_bytes (ge_writer e).

End Encoder.

(** [encode_float_values_with] of [encoding/mod.rs], over any encoder. *)
Section encode_float_values.
Context {E : Type} (new_encoder : E) (push : E → Z → io_result E) (finish : E → list Z).

Fixpoint push_all (e : E) (values : list Z) : io_result E :=
  match values with
  | [] => Ok e
  | v :: values => e ← push e v; push_all e values
  end.

Definition encode_float_values_with (values : list Z) : io_result (list Z) :=
  match values with
  | [] => fail InvalidInput "values must be non-empty"
  | _ => e ← push_all new_encoder values; Ok (finish e)
  end.
End encode_float_values.

Definition encode_gorilla_values : list Z → io_result (list Z) :=
  encode_float_values_with Encoder.new Encoder.push Encoder.finish.

(** ** Decoder *)

Definition minimum_gorilla_encoded_len_bytes (count : Z) : io_result Z :=
  if count =? 0 then Ok 0
  else
    let overflow := io_err InvalidData "gorilla minimum encoded size overflows" in
    encoded_bits ← ok_or overflow
      (checked_sub_u64 count 1 ≫= λ remaining, checked_add_u64 remaining 64);
    bits ← ok_or overflow (checked_add_u64 encoded_bits 7);
    Ok (bits / 8).

(** The loop variables of [decode_gorilla_values]. *)
Record GorillaDecoder := mk_decoder {
  gd_reader : BitReader;
  gd_prev : Z;
  gd_prev_leading : Z;
  gd_prev_trailing : Z;
  gd_has_window : bool;
}.

(** The window a code word announces: reused, or read from its header. *)
Definition decode_window (d : GorillaDecoder) (r : BitReader) (control2 : Z)
    : io_result (Z * Z * Z * BitReader) :=
  if control2 =? 0 then
    if negb (gd_has_window d) then fail InvalidData "gorilla window missing"
    else Ok (gd_prev_leading d, gd_prev_trailing d,
             64 - gd_prev_leading d - gd_prev_trailing d, r)
  else
    '(leading, r) ← Reader.read_bits r GORILLA_LEADING_BITS;
    '(len_code, r) ← Reader.read_bits r GORILLA_SIG_BITS;
    let sig_bits := if len_code =? 0 then 64 else len_code in
    if 64 <? leading + sig_bits then fail InvalidData "gorilla window invalid"
    else Ok (leading, 64 - leading - sig_bits, sig_bits, r).

Definition decode_step (d : GorillaDecoder) : io_result GorillaDecoder :=
  '(control, r) ← Reader.read_bit (gd_reader d);
  if control =? 0 then
    Ok (mk_decoder r (gd_prev d) (gd_prev_leading d) (gd_prev_trailing d) (gd_has_window d))
  else
    '(control2, r) ← Reader.read_bit r;
    '(leading, trailing, sig_bits, r) ← decode_window d r control2;
    if (sig_bits =? 64) && (negb (leading =? 0) || negb (trailing =? 0)) then
      fail InvalidData "gorilla window length mismatch"
    else
      '(xor_bits, r) ← Reader.read_bits r sig_bits;
      let xor := wrap_u64 (Z.shiftl xor_bits trailing) in
      if xor =? 0 then
        fail InvalidData "gorilla zero xor must use the repeated-value control"
      else if negb (control2 =? 0) then
        let canonical_leading := Z.min (leading_zeros xor) GORILLA_LEADING_MAX in
        let canonical_trailing := trailing_zeros xor in
        if negb (leading =? canonical_leading) || negb (trailing =? canonical_trailing) then
          fail InvalidData "gorilla new window is noncanonical for its xor"
        else if gd_has_window d && (gd_prev_leading d <=? canonical_leading)
                && (gd_prev_trailing d <=? canonical_trailing) then
          fail InvalidData "gorilla new window must reuse the prior window"
        else Ok (mk_decoder r (Z.lxor (gd_prev d) xor) leading trailing true)
      else
        Ok (mk_decoder r (Z.lxor (gd_prev d) xor)
              (gd_prev_leading d) (gd_prev_trailing d) (gd_has_window d)).

(** [n] turns of the value loop; answers the values in order. *)
Fixpoint decode_loop (n : nat) (d : GorillaDecoder) : io_result (list Z * GorillaDecoder) :=
  match n with
  | O => Ok ([], d)
  | S n =>
      d ← decode_step d;
      '(values, d') ← decode_loop n d;
      Ok (gd_prev d :: values, d')
  end.

Definition decode_gorilla_values (al : allocator) (buf : list Z) (count : Z) : io_result (list Z) :=
  if count =? 0 then
    if negb (zlen buf =? 0) then fail InvalidData "gorilla stream has trailing bytes"
    else Ok []
  else
    minimum_len ← minimum_gorilla_encoded_len_bytes count;
    if zlen buf <? minimum_len then
      fail InvalidData "gorilla point count is infeasible for the encoded value bytes"
    else
      '(first, r) ← Reader.read_bits (Reader.new buf) 64;
      _ ← try_reserve al "gorilla values" "" count;
      '(values, d) ← decode_loop (Z.to_nat (count - 1)) (mk_decoder r first 0 0 false);
      _ ← Reader.require_canonical_end (gd_reader d);
      Ok (first :: values).

(** ** Size estimator *)

(** One turn of the loop of [gorilla_encoded_len_bytes]: the code length of
    [next] after [prev] and the new window. *)
Definition encoded_bits_step (prev_leading prev_trailing : Z) (has_window : bool) (prev next : Z)
    : Z * (Z * Z * bool) :=
  let xor := Z.lxor prev next in
  if xor =? 0 then (1, (prev_leading, prev_trailing, has_window))
  else
    let leading := leading_zeros xor in
    let trailing := trailing_zeros xor in
    if has_window && (prev_leading <=? leading) && (prev_trailing <=? trailing) then
      (2 + (64 - prev_leading - prev_trailing), (prev_leading, prev_trailing, has_window))
    else
      let store_leading := Z.min leading GORILLA_LEADING_MAX in
      let significant := 64 - store_leading - trailing in
      (2 + GORILLA_LEADING_BITS + GORILLA_SIG_BITS + significant, (store_leading, trailing, true)).

Fixpoint encoded_bits_loop (values : list Z) (bits prev prev_leading prev_trailing : Z)
    (has_window : bool) : io_result Z :=
  match values with
  | [] => Ok bits
  | next :: values =>
      let '(encoded_bits, (prev_leading, prev_trailing, has_window)) :=
        encoded_bits_step prev_leading prev_trailing has_window prev next in
      bits ← ok_or (io_err InvalidData "gorilla encoded size overflows")
               (checked_add_u64 bits encoded_bits);
      encoded_bits_loop values bits next prev_leading prev_trailing has_window
  end.

Definition gorilla_encoded_len_bytes (values : list Z) : io_result Z :=
  match values with
  | [] => fail InvalidInput "values must be non-empty"
  | first :: values =>
      bits ← encoded_bits_loop values 64 first 0 0 false;
      bits ← ok_or (io_err InvalidData "gorilla size overflows") (checked_add_u64 bits 7);
      Ok (bits / 8)
  end.

Example gorilla_repeated : encode_gorilla_values [4607182418800017408; 4607182418800017408]
  = Ok [0x3f; 0xf0; 0; 0; 0; 0; 0; 0; 0].
Proof. reflexivity. Qed.

(** ** Specification: the code words *)

(** A window [(leading, trailing)] once one has been announced. *)
Abbreviation window := (option (Z * Z)).

Definition window_ok (w : window) : Prop :=
  match w with None => True | Some (l, t) => 0 ≤ l ≤ 31 ∧ 0 ≤ t ∧ l + t < 64 end.

(** Whether the xor fits the current window. *)
Definition reusable (w : window) (xor : Z) : bool :=
  match w with
  | None => false
  | Some (l, t) => (l <=? leading_zeros xor) && (t <=? trailing_zeros xor)
  end.

Definition new_window (xor : Z) : Z * Z :=
  (Z.min (leading_zeros xor) GORILLA_LEADING_MAX, trailing_zeros xor).

(** The significant bits of [xor] in the window [(l, t)]. *)
Definition window_bits (xor : Z) (lt : Z * Z) : list bool :=
  bits_be (Z.to_nat (64 - lt.1 - lt.2)) (xor / 2 ^ lt.2).

Definition gorilla_code (w : window) (xor : Z) : list bool :=
  if xor =? 0 then [false]
  else match w with
       | Some lt =>
           if reusable w xor then [true; false] ++ window_bits xor lt
           else [true; true] ++ bits_be 5 (new_window xor).1
                  ++ bits_be 6 (64 - (new_window xor).1 - (new_window xor).2)
                  ++ window_bits xor (new_window xor)
       | None => [true; true] ++ bits_be 5 (new_window xor).1
                   ++ bits_be 6 (64 - (new_window xor).1 - (new_window xor).2)
                   ++ window_bits xor (new_window xor)
       end.

Definition next_window (w : window) (xor : Z) : window :=
  if (xor =? 0) || reusable w xor then w else Some (new_window xor).

(** The whole stream after the first value. *)
Fixpoint gorilla_stream (w : window) (prev : Z) (values : list Z) : list bool :=
  match values with
  | [] => []
  | v :: values =>
      let xor := Z.lxor prev v in
      gorilla_code w xor ++ gorilla_stream (next_window w xor) v values
  end.

(** The encoder's and decoder's window variables represent [w]. *)
Definition window_rep (w : window) (leading trailing : Z) (has : bool) : Prop :=
  window_ok w ∧
  match w with
  | None => has = false ∧ leading = 0 ∧ trailing = 0
  | Some (l, t) => has = true ∧ leading = l ∧ trailing = t
  end.

(** ** Leading and trailing zeros *)

Lemma trailing_zeros_pos_nonneg p : 0 ≤ trailing_zeros_pos p.
Proof. induction p; simpl; lia. Qed.

Lemma trailing_zeros_pos_spec p :
  ∃ k, 0 ≤ k ∧ Z.pos p = (2 * k + 1) * 2 ^ trailing_zeros_pos p.
Proof.
  induction p as [p IH|p IH|]; simpl.
  - exists (Z.pos p). lia.
  - destruct IH as (k & Hk & Hp). exists k. split; [done|].
    rewrite Pos2Z.inj_xO, Hp. pose proof (trailing_zeros_pos_nonneg p).
    rewrite Z.pow_add_r by lia. change (2 ^ 1) with 2. ring.
  - exists 0. done.
Qed.

Lemma trailing_zeros_spec x :
  0 < x → ∃ k, 0 ≤ k ∧ 0 ≤ trailing_zeros x ∧ x = (2 * k + 1) * 2 ^ trailing_zeros x.
Proof.
  intros. destruct x as [|p|p]; try lia. destruct (trailing_zeros_pos_spec p) as (k & ? & ?).
  exists k. split_and!; [done| |done]. apply trailing_zeros_pos_nonneg.
Qed.

(** The trailing-zero count is the largest power of two dividing [x]. *)
Lemma trailing_zeros_divide x t :
  0 < x → 0 ≤ t → t ≤ trailing_zeros x ↔ x `mod` 2 ^ t = 0.
Proof.
  intros Hx Ht. destruct (trailing_zeros_spec x Hx) as (k & Hk & H0 & Hxk).
  set (n := trailing_zeros x) in *. split.
  - intros Hle. rewrite Hxk. replace n with ((n - t) + t) by lia.
    rewrite Z.pow_add_r, Z.mul_assoc by lia. apply Z_mod_mult.
  - intros Hmod. apply Z.le_ngt. intros Hlt.
    apply Z.mod_divide in Hmod as [c Hc]; [|pose proof (pow2_pos t Ht); lia].
    assert (Hodd : (2 * k + 1) = c * 2 * 2 ^ (t - n - 1)).
    { apply (Z.mul_cancel_r _ _ (2 ^ n)); [pose proof (pow2_pos n H0); lia|].
      rewrite <- Hxk, Hc, <- !Z.mul_assoc. f_equal.
      rewrite <- Z.pow_add_r by lia. rewrite <- Z.pow_succ_r by lia. f_equal. lia. }
    lia.
Qed.

Lemma leading_zeros_spec x l :
  0 < x < 2 ^ 64 → 0 ≤ l ≤ 64 → l ≤ leading_zeros x ↔ x < 2 ^ (64 - l).
Proof.
  intros Hx Hl. unfold leading_zeros. rewrite (proj2 (Z.eqb_neq x 0)) by lia.
  rewrite (Z.log2_lt_pow2 x) by lia. lia.
Qed.

Lemma leading_zeros_range x : 0 < x < 2 ^ 64 → 0 ≤ leading_zeros x ≤ 63.
Proof.
  intros Hx. unfold leading_zeros. rewrite (proj2 (Z.eqb_neq x 0)) by lia.
  pose proof (Z.log2_nonneg x). pose proof (proj1 (Z.log2_lt_pow2 x 64 ltac:(lia)) ltac:(lia)). lia.
Qed.

(** A nonzero word has room for its window. *)
Lemma zeros_sum x : 0 < x < 2 ^ 64 → leading_zeros x + trailing_zeros x ≤ 63.
Proof.
  intros Hx. destruct (trailing_zeros_spec x ltac:(lia)) as (k & Hk & H0 & Hxk).
  pose proof (leading_zeros_range x Hx).
  destruct (decide (leading_zeros x + trailing_zeros x ≤ 63)) as [|Hgt]; [done|].
  pose proof (proj1 (leading_zeros_spec x (leading_zeros x) Hx ltac:(lia)) ltac:(lia)) as Hlt.
  assert (2 ^ (64 - leading_zeros x) ≤ 2 ^ trailing_zeros x) by (apply Z.pow_le_mono_r; lia).
  pose proof (pow2_pos (trailing_zeros x) H0). nia.
Qed.

(** A window the word fits determines it by its significant bits. *)
Lemma window_payload x l t :
  0 < x < 2 ^ 64 → 0 ≤ l → 0 ≤ t → l ≤ leading_zeros x → t ≤ trailing_zeros x →
  x = x / 2 ^ t * 2 ^ t ∧ 0 < x / 2 ^ t < 2 ^ (64 - l - t) ∧ l + t ≤ 63.
Proof.
  intros Hx Hl Ht Hlx Htx. pose proof (zeros_sum x Hx). pose proof (leading_zeros_range x Hx).
  pose proof (proj1 (trailing_zeros_divide x t ltac:(lia) Ht) Htx) as Hmod.
  pose proof (proj1 (leading_zeros_spec x l Hx ltac:(lia)) Hlx) as Hlt.
  pose proof (pow2_pos t Ht). pose proof (Z.div_mod x (2 ^ t) ltac:(lia)) as Hdm.
  split_and!; [lia| |  |lia].
  - assert (0 ≤ x / 2 ^ t) by (apply Z.div_pos; lia). nia.
  - apply Z.div_lt_upper_bound; [lia|]. rewrite <- Z.pow_add_r by lia.
    by replace (t + (64 - l - t)) with (64 - l) by lia.
Qed.

(** Conversely a payload shifted into a window fits it. *)
Lemma payload_window p l t :
  0 < p < 2 ^ (64 - l - t) → 0 ≤ l → 0 ≤ t → l + t ≤ 63 →
  let x := p * 2 ^ t in
  0 < x < 2 ^ 64 ∧ l ≤ leading_zeros x ∧ t ≤ trailing_zeros x ∧ x / 2 ^ t = p.
Proof.
  intros Hp Hl Ht Hlt x. pose proof (pow2_pos t Ht).
  assert (Hx : 0 < x < 2 ^ (64 - l)).
  { unfold x. split; [lia|]. replace (64 - l) with ((64 - l - t) + t) by lia.
    rewrite Z.pow_add_r by lia. nia. }
  assert (2 ^ (64 - l) ≤ 2 ^ 64) by (apply Z.pow_le_mono_r; lia).
  split_and!; [lia|lia| | |].
  - apply leading_zeros_spec; lia.
  - apply trailing_zeros_divide; [lia..|]. unfold x. apply Z_mod_mult.
  - unfold x. apply Z.div_mul. lia.
Qed.

Lemma extract_sig_bits_ok x l t :
  0 < x < 2 ^ 64 → 0 ≤ l → 0 ≤ t → l ≤ leading_zeros x → t ≤ trailing_zeros x →
  extract_sig_bits x t (64 - l - t) = Ok (x / 2 ^ t).
Proof.
  intros Hx Hl Ht Hlx Htx. destruct (window_payload x l t) as (_ & Hp & Hlt); try done.
  unfold extract_sig_bits.
  rewrite (proj2 (Z.eqb_neq (64 - l - t) 0)), (proj2 (Z.ltb_ge 64 _)) by lia. cbn [orb].
  destruct (Z.eqb_spec (64 - l - t) 64).
  - replace t with 0 by lia. cbn. by rewrite Z.div_1_r.
  - rewrite land_mask by lia. rewrite Z.shiftr_div_pow2 by lia.
    by rewrite Z.mod_small by lia.
Qed.

Lemma new_window_ok x : 0 < x < 2 ^ 64 → window_ok (Some (new_window x)).
Proof.
  intros Hx. pose proof (zeros_sum x Hx). pose proof (leading_zeros_range x Hx).
  destruct (trailing_zeros_spec x ltac:(lia)) as (k & _ & ? & _).
  cbn. unfold GORILLA_LEADING_MAX, GORILLA_LEADING_BITS. change (Z.shiftl 1 5 - 1) with 31. lia.
Qed.

Lemma next_window_ok w x : 0 ≤ x < 2 ^ 64 → window_ok w → window_ok (next_window w x).
Proof.
  intros Hx Hw. unfold next_window. destruct (Z.eqb_spec x 0); [done|].
  destruct (reusable w x); [done|]. apply new_window_ok. lia.
Qed.

Lemma lxor_range a b : in_u64 a → in_u64 b → 0 ≤ Z.lxor a b < 2 ^ 64.
Proof.
  unfold in_u64. intros Ha Hb. split; [apply Z.lxor_nonneg; lia|].
  destruct (decide (Z.lxor a b = 0)) as [->|Hn]; [done|].
  apply Z.log2_lt_pow2.
  - assert (0 ≤ Z.lxor a b) by (apply Z.lxor_nonneg; lia). lia.
  - pose proof (Z.log2_lxor a b ltac:(lia) ltac:(lia)).
    assert (Hlog : ∀ z, 0 ≤ z ≤ u64_max → Z.log2 z < 64).
    { intros z Hz. destruct (decide (z = 0)) as [->|]; [done|]. apply Z.log2_lt_pow2; [lia|].
      change (2 ^ 64) with 18446744073709551616. lia. }
    pose proof (Hlog a Ha). pose proof (Hlog b Hb). lia.
Qed.

Lemma lxor_lxor a b : Z.lxor a (Z.lxor a b) = b.
Proof. by rewrite <- Z.lxor_assoc, Z.lxor_nilpotent, Z.lxor_0_l. Qed.

(** ** The encoder appends code words *)

Definition encoder_rep (e : GorillaEncoder) (prev : Z) (w : window) (l : list bool) : Prop :=
  ge_prev e = Some prev ∧ in_u64 prev ∧ writer_rep (ge_writer e) l ∧
  window_rep w (ge_prev_leading e) (ge_prev_trailing e) (ge_has_window e).

Lemma u64_pow x : 0 ≤ x < 2 ^ 64 → in_u64 x.
Proof. unfold in_u64. change (2 ^ 64) with 18446744073709551616. lia. Qed.

(** Appending the significant bits of a window the word fits. *)
Lemma push_payload w l x lw t :
  writer_rep w l → 0 < x < 2 ^ 64 → 0 ≤ lw → 0 ≤ t →
  lw ≤ leading_zeros x → t ≤ trailing_zeros x →
  writer_rep (Writer.write_bits w (x / 2 ^ t) (64 - lw - t)) (l ++ window_bits x (lw, t)).
Proof.
  intros Hw Hx Hl Ht Hlx Htx. destruct (window_payload x lw t) as (_ & Hp & Hlt); try done.
  assert (2 ^ (64 - lw - t) ≤ 2 ^ 64) by (apply Z.pow_le_mono_r; lia).
  unfold window_bits. cbn [fst snd].
  replace (64 - lw - t) with (Z.of_nat (Z.to_nat (64 - lw - t))) at 1 by lia.
  apply write_bits_rep; [done|lia|]. apply u64_pow. lia.
Qed.

Lemma push_first bits :
  in_u64 bits →
  ∃ e, Encoder.push Encoder.new bits = Ok e ∧ encoder_rep e bits None (bits_be 64 bits).
Proof.
  intros Hb. eexists. split; [done|]. split_and!; try done.
  apply (write_bits_rep Writer.new [] bits 64); [apply writer_rep_new|lia|done].
Qed.

Lemma write_small w l v (n : nat) k :
  writer_rep w l → k = Z.of_nat n → (n ≤ 64)%nat → in_u64 v →
  writer_rep (Writer.write_bits w v k) (l ++ bits_be n v).
Proof. intros ? ->. by apply write_bits_rep. Qed.

Lemma push_new_window w l x :
  writer_rep w l → 0 < x < 2 ^ 64 →
  let nw := new_window x in
  let sig := 64 - nw.1 - nw.2 in
  writer_rep
    (Writer.write_bits
       (Writer.write_bits (Writer.write_bits w nw.1 GORILLA_LEADING_BITS)
          (if sig =? 64 then 0 else sig) GORILLA_SIG_BITS)
       (x / 2 ^ nw.2) sig)
    (l ++ bits_be 5 nw.1 ++ bits_be 6 sig ++ window_bits x nw).
Proof.
  intros Hw Hx nw sig. destruct (new_window_ok x Hx) as (Hl & Ht & Hlt).
  fold nw in Hl, Ht, Hlt. rewrite !app_assoc. destruct nw as [nl nt] eqn:Hnw. cbn [fst snd] in *.
  injection Hnw as Hnl Hnt.
  pose proof (leading_zeros_range x Hx).
  apply push_payload; try done; [|lia..].
  replace (bits_be 6 sig) with (bits_be 6 (if sig =? 64 then 0 else sig)).
  2: { destruct (Z.eqb_spec sig 64) as [->|]; done. }
  apply write_small; [|done|lia|unfold in_u64; destruct (Z.eqb_spec sig 64); lia].
  apply write_small; [done|done|lia|unfold in_u64; lia].
Qed.

Lemma push_rep e prev w l v :
  encoder_rep e prev w l → in_u64 v →
  ∃ e', Encoder.push e v = Ok e' ∧
    encoder_rep e' v (next_window w (Z.lxor prev v)) (l ++ gorilla_code w (Z.lxor prev v)).
Proof.
  intros (Hprev & Hpu & Hw & Hwok & Hwin) Hv. pose proof (lxor_range prev v Hpu Hv) as Hx.
  unfold Encoder.push. rewrite Hprev. unfold gorilla_code, next_window.
  destruct (Z.eqb_spec (Z.lxor prev v) 0) as [H0|H0]; cbn [orb].
  { eexists. split; [done|]. split_and!; try done. by apply write_bit_rep. }
  set (x := Z.lxor prev v) in *. assert (Hx' : 0 < x < 2 ^ 64) by lia. clear Hx.
  pose proof (leading_zeros_range x Hx').
  assert (Hreuse : ge_has_window e && (ge_prev_leading e <=? leading_zeros x)
                     && (ge_prev_trailing e <=? trailing_zeros x) = reusable w x).
  { destruct w as [[lw tw]|]; destruct Hwin as (-> & -> & ->); done. }
  rewrite Hreuse. destruct (reusable w x) eqn:Hr.
  - destruct w as [[lw tw]|]; [|done]. destruct Hwin as (Hh & Hl & Ht). rewrite Hh, Hl, Ht.
    cbn in Hr. apply andb_true_iff in Hr as [Hr1%Z.leb_le Hr2%Z.leb_le].
    destruct Hwok as (? & ? & ?).
    rewrite extract_sig_bits_ok by lia. eexists. split; [done|].
    split_and!; try done. cbn [ge_writer]. rewrite !app_assoc. apply push_payload; try lia.
    change (l ++ [true; false]) with (l ++ [true] ++ [false]).
    rewrite app_assoc. by do 2 apply write_bit_rep.
  - set (nw := new_window x). change (Z.min (leading_zeros x) GORILLA_LEADING_MAX) with nw.1.
    change (trailing_zeros x) with nw.2. destruct (new_window_ok x Hx') as (Hl & Ht & Hlt).
    fold nw in Hl, Ht, Hlt.
    rewrite extract_sig_bits_ok; try done; [|unfold nw, new_window; cbn; lia..].
    eexists. split; [done|]. split_and!; try done; cbn [ge_writer].
    replace (match w with Some _ => _ | None => _ end)
        with ([true; true] ++ bits_be 5 nw.1 ++ bits_be 6 (64 - nw.1 - nw.2) ++ window_bits x nw)
        by by destruct w as [[??]|].
      rewrite app_assoc. apply push_new_window; [|done].
      change [true; true] with ([true] ++ [true]). rewrite app_assoc.
      by do 2 apply write_bit_rep.
Qed.

Lemma push_all_rep values : ∀ e prev w l,
  encoder_rep e prev w l → Forall in_u64 values →
  ∃ e' prev' w', push_all Encoder.push e values = Ok e' ∧
    encoder_rep e' prev' w' (l ++ gorilla_stream w prev values).
Proof.
  induction values as [|v values IH]; intros e prev w l He Hvs.
  { exists e, prev, w. by rewrite app_nil_r. }
  apply Forall_cons_1 in Hvs as [Hv Hvs].
  destruct (push_rep _ _ _ _ _ He Hv) as (e1 & Hpush & He1).
  destruct (IH _ _ _ _ He1 Hvs) as (e2 & prev2 & w2 & Hall & He2).
  exists e2, prev2, w2. cbn [push_all gorilla_stream]. rewrite Hpush. cbn.
  split; [done|]. by rewrite <- app_assoc in He2.
Qed.

(** The bits of a whole encoded vector. *)
Definition gorilla_bits (first : Z) (values : list Z) : list bool :=
  bits_be 64 first ++ gorilla_stream None first values.

Lemma encode_gorilla_rep first values :
  in_u64 first → Forall in_u64 values →
  ∃ out, encode_gorilla_values (first :: values) = Ok out ∧ bytes out ∧
    bytes_bits out = gorilla_bits first values ++ replicate (padding (gorilla_bits first values)) false.
Proof.
  intros Hf Hvs. destruct (push_first first Hf) as (e & Hpush & He).
  destruct (push_all_rep values _ _ _ _ He Hvs) as (e' & prev' & w' & Hall & He').
  unfold encode_gorilla_values, encode_float_values_with. cbn [push_all]. rewrite Hpush. cbn [mbind result_bind].
  rewrite Hall. cbn [mbind result_bind]. eexists. split; [done|].
  apply finish_rep. apply He'.
Qed.

(** ** The decoder accepts exactly the code words *)

Definition decoder_rep (d : GorillaDecoder) (prev : Z) (w : window) (l : list bool) : Prop :=
  gd_prev d = prev ∧ in_u64 prev ∧ reader_rep (gd_reader d) l ∧
  window_rep w (gd_prev_leading d) (gd_prev_trailing d) (gd_has_window d).

Lemma shift_payload x t :
  0 < x < 2 ^ 64 → 0 ≤ t → t ≤ trailing_zeros x → wrap_u64 (Z.shiftl (x / 2 ^ t) t) = x.
Proof.
  intros Hx Ht Htx. destruct (window_payload x 0 t) as (Hp & _); try done.
  { apply leading_zeros_range. done. }
  rewrite Z.shiftl_mul_pow2, <- Hp by done. apply wrap_u64_small. apply u64_pow. lia.
Qed.

(** Reading the significant bits of a window back. *)
Lemma read_payload r x lw t rest :
  reader_rep r (window_bits x (lw, t) ++ rest) → 0 < x < 2 ^ 64 → 0 ≤ lw → 0 ≤ t →
  lw ≤ leading_zeros x → t ≤ trailing_zeros x →
  ∃ r', Reader.read_bits r (64 - lw - t) = Ok (x / 2 ^ t, r') ∧ reader_rep r' rest.
Proof.
  intros Hr Hx Hl Ht Hlx Htx. destruct (window_payload x lw t) as (_ & Hp & Hlt); try done.
  apply (read_field r rest (x / 2 ^ t) (Z.to_nat (64 - lw - t))); [exact Hr|lia|lia|lia].
Qed.

(** The decoder's missed-reuse test decides reuse. *)
Lemma fresh_window w x pl pt has :
  window_rep w pl pt has →
  has && (pl <=? Z.min (leading_zeros x) GORILLA_LEADING_MAX) && (pt <=? trailing_zeros x) = reusable w x.
Proof.
  intros [Hok Hw]. change GORILLA_LEADING_MAX with 31.
  destruct w as [[lw tw]|]; destruct Hw as (-> & -> & ->); [|done].
  cbn in Hok |- *. f_equal.
  destruct (Z.leb_spec lw (Z.min (leading_zeros x) 31)), (Z.leb_spec lw (leading_zeros x)); lia.
Qed.

Lemma gorilla_code_new w x :
  x ≠ 0 → reusable w x = false →
  gorilla_code w x = [true; true] ++ bits_be 5 (new_window x).1
    ++ bits_be 6 (64 - (new_window x).1 - (new_window x).2) ++ window_bits x (new_window x).
Proof.
  intros Hx Hr. unfold gorilla_code. rewrite (proj2 (Z.eqb_neq x 0)) by done.
  by destruct w as [[??]|]; rewrite ?Hr.
Qed.

Lemma next_window_new w x : x ≠ 0 → reusable w x = false → next_window w x = Some (new_window x).
Proof. intros Hx Hr. unfold next_window. by rewrite (proj2 (Z.eqb_neq x 0)), Hr by done. Qed.

Lemma gorilla_code_reuse lt x :
  x ≠ 0 → reusable (Some lt) x = true →
  gorilla_code (Some lt) x = [true; false] ++ window_bits x lt ∧ next_window (Some lt) x = Some lt.
Proof.
  intros Hx Hr. unfold gorilla_code, next_window.
  by rewrite (proj2 (Z.eqb_neq x 0)), Hr by done.
Qed.

#[local] Arguments Reader.read_bit : simpl never.
#[local] Arguments Reader.read_bits : simpl never.
#[local] Opaque Reader.read_bits Reader.read_bit.

Lemma decode_step_rep d prev w x rest :
  decoder_rep d prev w (gorilla_code w x ++ rest) → 0 ≤ x < 2 ^ 64 →
  ∃ d', decode_step d = Ok d' ∧ decoder_rep d' (Z.lxor prev x) (next_window w x) rest.
Proof.
  intros (Hprev & Hpu & Hr & Hwok & Hwin) Hx.
  assert (Hxu : in_u64 (Z.lxor prev x)) by (apply u64_pow, lxor_range; [done|by apply u64_pow]).
  unfold decode_step. unfold gorilla_code in Hr. unfold next_window.
  destruct (Z.eqb_spec x 0) as [->|H0].
  { destruct (read_bit_rep _ _ _ Hr) as (r1 & -> & Hr1). cbn.
    eexists. split; [done|]. rewrite Z.lxor_0_r in *. by split_and!. }
  assert (Hx' : 0 < x < 2 ^ 64) by lia. clear Hx. pose proof (leading_zeros_range x Hx').
  cbn [orb]. destruct (reusable w x) eqn:Hre.
  - destruct w as [[lw tw]|]; [|done]. destruct Hwin as (Hh & Hl & Ht). rewrite Hh, Hl, Ht.
    cbn in Hre. apply andb_true_iff in Hre as [Hr1%Z.leb_le Hr2%Z.leb_le].
    destruct Hwok as (? & ? & ?). cbn [app] in Hr.
    destruct (read_bit_rep _ _ _ Hr) as (r1 & -> & Hrr1). cbn.
    destruct (read_bit_rep _ _ _ Hrr1) as (r2 & -> & Hrr2). cbn.
    destruct (read_payload _ _ _ _ _ Hrr2 Hx') as (r3 & Hrd & Hrr3); [lia..|].
    unfold decode_window. rewrite Hh, Hl, Ht. cbn.
    destruct ((64 - lw - tw =? 64) && _) eqn:Hmm.
    { apply andb_true_iff in Hmm as [?%Z.eqb_eq Hor].
      rewrite orb_true_iff, !negb_true_iff, !Z.eqb_neq in Hor. lia. }
    rewrite Hrd. cbn. rewrite shift_payload by lia. rewrite (proj2 (Z.eqb_neq x 0)) by lia.
    eexists. split; [done|]. rewrite Hprev. by split_and!.
  - assert (Hcode : reader_rep (gd_reader d) (true :: true :: bits_be 5 (new_window x).1 ++
        bits_be 6 (64 - (new_window x).1 - (new_window x).2) ++ window_bits x (new_window x) ++ rest)).
    { destruct w as [[??]|]; cbn [app] in Hr; by rewrite <- !app_assoc in Hr. }
    clear Hr. destruct (new_window_ok x Hx') as (Hl & Ht & Hlt).
    destruct (new_window x) as [nl nt] eqn:Hnw. cbn [fst snd] in *.
    injection Hnw as Hnl Hnt. 
    destruct (read_bit_rep _ _ _ Hcode) as (r1 & -> & Hrr1). cbn.
    destruct (read_bit_rep _ _ _ Hrr1) as (r2 & -> & Hrr2). cbn.
    unfold decode_window. cbn.
    destruct (read_field _ _ _ 5 GORILLA_LEADING_BITS Hrr2 eq_refl) as (r3 & -> & Hrr3); [lia|change (2 ^ GORILLA_LEADING_BITS) with 32; lia|].
    cbn. set (sig := 64 - nl - nt) in *.
    replace (bits_be 6 sig) with (bits_be 6 (if sig =? 64 then 0 else sig)) in Hrr3
      by (destruct (Z.eqb_spec sig 64) as [->|]; done).
    destruct (read_field _ _ _ 6 GORILLA_SIG_BITS Hrr3 eq_refl) as (r4 & -> & Hrr4);
      [lia|change (2 ^ GORILLA_SIG_BITS) with 64; destruct (Z.eqb_spec sig 64); lia|].
    cbn. replace (if (if sig =? 64 then 0 else sig) =? 0 then 64 else (if sig =? 64 then 0 else sig))
      with sig by (destruct (Z.eqb_spec sig 64); [done|]; destruct (Z.eqb_spec sig 0); lia).
    rewrite (proj2 (Z.ltb_ge 64 _)) by lia. cbn.
    replace (64 - nl - sig) with nt by lia.
    destruct ((sig =? 64) && _) eqn:Hmm.
    { apply andb_true_iff in Hmm as [?%Z.eqb_eq Hor].
      rewrite orb_true_iff, !negb_true_iff, !Z.eqb_neq in Hor. lia. }
    destruct (read_payload _ _ _ _ _ Hrr4 Hx') as (r5 & Hrd & Hrr5);
      [lia|lia|rewrite <- Hnl; lia|lia|].
    fold sig in Hrd. rewrite Hrd. cbn. rewrite shift_payload by lia.
    rewrite (proj2 (Z.eqb_neq x 0)) by lia.
    pose proof (fresh_window _ x _ _ _ (conj Hwok Hwin)) as Hfw.
    rewrite Hre, Hnl, Hnt in Hfw. rewrite Hnl, Hnt, !Z.eqb_refl, Hfw. cbn [orb negb].
    eexists. split; [done|]. rewrite Hprev. split_and!; try done. subst nl nt. by split_and!.
Qed.

(** A payload read back in a window: the xor word it stands for. *)
Lemma read_payload_inv r l lw t p r' :
  reader_rep r l → 0 ≤ lw → 0 ≤ t → lw + t ≤ 63 →
  Reader.read_bits r (64 - lw - t) = Ok (p, r') → (wrap_u64 (Z.shiftl p t) =? 0) = false →
  ∃ x rest, wrap_u64 (Z.shiftl p t) = x ∧ l = window_bits x (lw, t) ++ rest ∧ reader_rep r' rest ∧
    0 < x < 2 ^ 64 ∧ lw ≤ leading_zeros x ∧ t ≤ trailing_zeros x.
Proof.
  intros Hr Hl Ht Hlt Hrd Hnz.
  destruct (read_field_inv _ _ _ _ (Z.to_nat (64 - lw - t)) (64 - lw - t) Hr ltac:(lia) ltac:(lia) Hrd)
    as (rest & -> & Hp & Hr').
  assert (Hp0 : p ≠ 0). { intros ->. by rewrite Z.shiftl_0_l in Hnz. }
  destruct (payload_window p lw t ltac:(lia) Hl Ht Hlt) as (Hx & Hlz & Htz & Hdiv).
  exists (p * 2 ^ t), rest. rewrite Z.shiftl_mul_pow2 by done.
  split; [apply wrap_u64_small, u64_pow; lia|]. unfold window_bits. cbn [fst snd].
  rewrite Hdiv. split_and!; done || lia.
Qed.

(** Conversely, a step that succeeds has read one code word. *)
Lemma decode_step_inv d prev w l d' :
  decoder_rep d prev w l → decode_step d = Ok d' →
  ∃ x rest, 0 ≤ x < 2 ^ 64 ∧ l = gorilla_code w x ++ rest ∧
    decoder_rep d' (Z.lxor prev x) (next_window w x) rest.
Proof.
  intros (Hprev & Hpu & Hr & Hwok & Hwin) Hd. unfold decode_step in Hd.
  apply bind_ok in Hd as ([c r1] & Hc & Hd).
  destruct (read_bit_inv _ _ _ _ Hr Hc) as (b & l1 & -> & -> & Hr1).
  destruct b; cbn in Hd; cycle 1.
  { inv_ok. exists 0, l1. rewrite Z.lxor_0_r. by split_and!. }
  apply bind_ok in Hd as ([c2 r2] & Hc2 & Hd).
  destruct (read_bit_inv _ _ _ _ Hr1 Hc2) as (b2 & l2 & -> & -> & Hr2). clear Hr Hr1 Hc Hc2.
  apply bind_ok in Hd as ([[[lead trail] sig] r3] & Hw & Hd).
  destruct (_ && _) eqn:Hmm in Hd; [done|]. apply bind_ok in Hd as ([p r4] & Hp & Hd).
  destruct (_ =? 0) eqn:Hnz in Hd; [done|].
  assert (Hxu : ∀ x, 0 < x < 2 ^ 64 → in_u64 (Z.lxor prev x)).
  { intros x Hx. apply u64_pow, lxor_range; [done|]. apply u64_pow. lia. }
  unfold decode_window in Hw. destruct b2; cbn in Hw, Hd.
  - apply bind_ok in Hw as ([nl r5] & Hl & Hw).
    destruct (read_field_inv _ _ _ _ 5 _ Hr2 eq_refl ltac:(lia) Hl) as (l3 & -> & Hnl & Hr5).
    apply bind_ok in Hw as ([code r6] & Hcode & Hw).
    destruct (read_field_inv _ _ _ _ 6 _ Hr5 eq_refl ltac:(lia) Hcode) as (l4 & -> & Hcd & Hr6).
    change (2 ^ Z.of_nat 5) with 32 in Hnl. change (2 ^ Z.of_nat 6) with 64 in Hcd.
    destruct (Z.ltb_spec 64 (nl + (if code =? 0 then 64 else code))) as [|Hfit]; [done|].
    injection Hw as -> Htr Hsig <-. set (s := if code =? 0 then 64 else code) in *.
    assert (Hs : s = 64 - lead - trail ∧ 0 < s) by (unfold s; destruct (Z.eqb_spec code 0); lia).
    destruct (read_payload_inv r6 l4 lead trail p r4) as (x & rest & Hx & -> & Hr4 & Hxr & Hlz & Htz);
      [done|lia|lia|lia|by rewrite <- (proj1 Hs), Hsig|done|].
    rewrite Hx in Hd. destruct (_ || _) eqn:Hcan in Hd; [done|].
    apply orb_false_iff in Hcan as [Hcl%negb_false_iff%Z.eqb_eq Hct%negb_false_iff%Z.eqb_eq].
    destruct (_ && _ && _) eqn:Hre in Hd; [done|]. injection Hd as <-.
    rewrite (fresh_window w x) in Hre by done.
    exists x, rest. split; [lia|]. rewrite gorilla_code_new, next_window_new by (done || lia).
    replace (new_window x) with (lead, trail) by (unfold new_window; congruence). cbn [fst snd].
    replace (64 - lead - trail) with s by lia. split.
    + cbn [app]. rewrite <- !app_assoc. do 3 f_equal.
      unfold s. by destruct (Z.eqb_spec code 0) as [->|].
    + rewrite Hprev. split_and!; try done; [by apply Hxu|split; [cbn; lia|done]].
  - destruct (gd_has_window d) eqn:Hhas; [|done]. injection Hw as <- <- <- <-.
    destruct w as [[lw tw]|]; destruct Hwin as (Hh & Hl & Ht); [|congruence]. rewrite Hl, Ht in *.
    destruct Hwok as (? & ? & ?).
    destruct (read_payload_inv r2 l2 lw tw p r4) as (x & rest & Hx & -> & Hr4 & Hxr & Hlz & Htz);
      [done|lia|lia|lia|done|done|].
    rewrite Hx in Hd. injection Hd as <-. exists x, rest. split; [lia|].
    destruct (gorilla_code_reuse (lw, tw) x) as [-> ->]; [lia|cbn; by rewrite !(proj2 (Z.leb_le _ _)) by lia|].
    split; [done|]. rewrite Hprev. split_and!; try done; first [by apply Hxu|by split].
Qed.

#[local] Opaque decode_step.

Lemma decode_loop_rep vs : ∀ d prev w rest,
  decoder_rep d prev w (gorilla_stream w prev vs ++ rest) → Forall in_u64 vs →
  ∃ d' prev' w', decode_loop (length vs) d = Ok (vs, d') ∧ decoder_rep d' prev' w' rest.
Proof.
  induction vs as [|v vs IH]; intros d prev w rest Hd Hvs; [by exists d, prev, w|].
  apply Forall_cons_1 in Hvs as [Hv Hvs]. cbn [gorilla_stream] in Hd. rewrite <- app_assoc in Hd.
  assert (Hp : in_u64 prev) by apply Hd.
  destruct (decode_step_rep _ _ _ _ _ Hd (lxor_range _ _ Hp Hv)) as (d1 & Hstep & Hd1).
  rewrite lxor_lxor in Hd1. destruct (IH _ _ _ _ Hd1 Hvs) as (d2 & p2 & w2 & Hloop & Hd2).
  exists d2, p2, w2. split; [|done]. cbn [length decode_loop]. rewrite Hstep. cbn [mbind result_bind].
  rewrite Hloop. cbn [mbind result_bind]. by rewrite (proj1 Hd1).
Qed.

Lemma decode_loop_inv n : ∀ d prev w l vs d',
  decoder_rep d prev w l → decode_loop n d = Ok (vs, d') →
  length vs = n ∧ Forall in_u64 vs ∧
  ∃ rest prev' w', l = gorilla_stream w prev vs ++ rest ∧ decoder_rep d' prev' w' rest.
Proof.
  induction n as [|n IH]; intros d prev w l vs d' Hd Hl; cbn [decode_loop] in Hl.
  { injection Hl as <- <-. split_and!; [done|done|]. by exists l, prev, w. }
  apply bind_ok in Hl as (d1 & Hstep & Hl). apply bind_ok in Hl as ([vs' d2] & Hl & Heq).
  injection Heq as <- <-. destruct (decode_step_inv _ _ _ _ _ Hd Hstep) as (x & r1 & Hx & -> & Hd1).
  destruct (IH _ _ _ _ _ _ Hd1 Hl) as (Hlen & Hvs & rest & p' & w' & -> & Hd2).
  rewrite (proj1 Hd1). split_and!; [by simpl; rewrite Hlen| |].
  { constructor; [apply Hd1|done]. }
  exists rest, p', w'. split; [|done]. cbn [gorilla_stream]. by rewrite lxor_lxor, <- app_assoc.
Qed.

(** Every code word has at least one bit. *)
Lemma gorilla_stream_length vs : ∀ w prev, (length vs ≤ length (gorilla_stream w prev vs))%nat.
Proof.
  induction vs as [|v vs IH]; intros w prev; [done|]. cbn [gorilla_stream length]. rewrite length_app.
  specialize (IH (next_window w (Z.lxor prev v)) v).
  assert (1 ≤ length (gorilla_code w (Z.lxor prev v)))%nat; [|lia].
  unfold gorilla_code. destruct (_ =? 0); [done|]. destruct w as [[??]|]; [destruct (reusable _ _)|];
    cbn [app length]; lia.
Qed.

Lemma minimum_len_ok count :
  0 < count → count ≤ 2 ^ 63 →
  minimum_gorilla_encoded_len_bytes count = Ok ((count + 70) / 8).
Proof.
  intros Hc Hmax. change (2 ^ 63) with 9223372036854775808 in Hmax.
  unfold minimum_gorilla_encoded_len_bytes. rewrite (proj2 (Z.eqb_neq count 0)) by lia.
  rewrite checked_sub_u64_fits by lia. cbn [mbind option_bind].
  rewrite checked_add_u64_fits by lia. cbn [ok_or mbind result_bind].
  rewrite checked_add_u64_fits by lia. cbn. do 2 f_equal. lia.
Qed.

(** Zero padding to a byte boundary is determined by the length of what it pads. *)
Lemma padding_unique l m k :
  (m < 8)%nat → zlen l + Z.of_nat m = 8 * k → m = padding l.
Proof.
  intros Hm Hk. unfold padding. replace (- zlen l) with (Z.of_nat m + (- k) * 8) by lia.
  rewrite Z_mod_plus_full, Z.mod_small by lia. lia.
Qed.

Lemma zlen_encoded first values out :
  bytes_bits out = gorilla_bits first values ++ replicate (padding (gorilla_bits first values)) false →
  zlen out = (64 + zlen (gorilla_stream None first values) + 7) / 8.
Proof.
  intros H. apply (f_equal zlen) in H. rewrite zlen_bytes_bits, zlen_app in H.
  pose proof (padding_lt (gorilla_bits first values)) as Hp.
  unfold gorilla_bits at 1 in H. autorewrite with zlen in H.
  Z.to_euclidean_division_equations. lia.
Qed.

(** What a successful decode has read. *)
Lemma decode_gorilla_inv al buf count values :
  bytes buf → vec_ok buf → 0 < count → decode_gorilla_values al buf count = Ok values →
  ∃ first vs rest, values = first :: vs ∧ Forall in_u64 values ∧ zlen values = count ∧
    bytes_bits buf = gorilla_bits first vs ++ rest ∧ (length rest < 8)%nat ∧
    rest = replicate (length rest) false.
Proof.
  intros Hb Hsz Hc Hd. unfold decode_gorilla_values in Hd.
  rewrite (proj2 (Z.eqb_neq count 0)) in Hd by lia.
  apply bind_ok in Hd as (min & _ & Hd). destruct (_ <? _); [done|].
  apply bind_ok in Hd as ([first r] & Hf & Hd). apply bind_ok in Hd as (u & _ & Hd).
  apply bind_ok in Hd as ([vs d] & Hl & Hd). apply bind_ok in Hd as ([] & He & Hd). inv_ok.
  destruct (read_field_inv _ _ _ _ 64 64 (reader_rep_new buf Hb Hsz) eq_refl ltac:(lia) Hf)
    as (l & Hbits & Hfirst & Hr).
  assert (Hd : decoder_rep (mk_decoder r first 0 0 false) first None l).
  { split_and!; try done. by apply u64_pow. }
  destruct (decode_loop_inv _ _ _ _ _ _ _ Hd Hl) as (Hlen & Hvs & rest & p & w & -> & Hd').
  pose proof (proj1 (require_canonical_end_rep _ _ (proj1 (proj2 (proj2 Hd')))) He) as [He1 He2].
  exists first, vs, rest. split_and!; try done.
  - constructor; [by apply u64_pow|done].
  - rewrite zlen_cons. unfold zlen. lia.
Qed.

Lemma decode_encoded al values :
  values ≠ [] → Forall in_u64 values → zlen values ≤ i64_max →
  al "gorilla values"%string (zlen values) = None →
  ∃ out, encode_gorilla_values values = Ok out ∧
    (vec_ok out → decode_gorilla_values al out (zlen values) = Ok values).
Proof.
  intros Hne Hvs Hmax Hal. destruct values as [|first values]; [done|].
  apply Forall_cons_1 in Hvs as [Hf Hvs].
  destruct (encode_gorilla_rep first values Hf Hvs) as (out & Hout & Hb & Hbits).
  exists out. split; [done|]. intros Hsz. pose proof (zlen_encoded _ _ _ Hbits) as Hlen.
  pose proof (gorilla_stream_length values None first) as Hstream.
  set (count := zlen (first :: values)) in *.
  assert (Hcount : count = 1 + zlen values) by apply zlen_cons. unfold zlen in Hcount, Hlen, Hmax.
  unfold decode_gorilla_values. rewrite (proj2 (Z.eqb_neq count 0)) by lia.
  rewrite minimum_len_ok by lia. cbn [mbind result_bind].
  rewrite (proj2 (Z.ltb_ge _ _)) by (unfold zlen; rewrite Hlen; apply Z.div_le_mono; lia).
  pose proof (reader_rep_new out Hb Hsz) as Hr. rewrite Hbits in Hr. unfold gorilla_bits at 1 in Hr.
  rewrite <- app_assoc in Hr.
  destruct (read_field _ _ _ 64 64 Hr eq_refl) as (r1 & Hrd & Hr1);
    [lia|unfold in_u64 in Hf; change (2 ^ 64) with (u64_max + 1); lia|].
  rewrite Hrd. cbn [mbind result_bind]. unfold try_reserve. rewrite Hal. cbn [mbind result_bind].
  replace (Z.to_nat (count - 1)) with (length values) by lia.
  destruct (decode_loop_rep values (mk_decoder r1 first 0 0 false) first None _
    ltac:(split_and!; [done|done|exact Hr1|done..]) Hvs) as (d & p & w & Hl & Hd).
  rewrite Hl. cbn [mbind result_bind].
  rewrite (proj2 (require_canonical_end_rep _ _ (proj1 (proj2 (proj2 Hd))))); [done|].
  rewrite length_replicate. split; [apply padding_lt|done].
Qed.

#[local] Transparent decode_step Reader.read_bits Reader.read_bit.

(** C31: decoding an encoded vector gives the vector back, bit pattern for bit
    pattern (NaN payloads and signed zeros included), whenever the allocator
    grants the result vector. *)
Theorem gorilla_roundtrip al values :
  values ≠ [] → Forall in_u64 values → zlen values ≤ i64_max →
  al "gorilla values"%string (zlen values) = None →
  ∃ out, encode_gorilla_values values = Ok out ∧
    (vec_ok out → decode_gorilla_values al out (zlen values) = Ok values).
Proof. apply decode_encoded. Qed.

Lemma gorilla_roundtrip_witness :
  ∃ out, encode_gorilla_values [0; 4607182418800017408; u64_max] = Ok out ∧
    (vec_ok out → decode_gorilla_values alloc_ok out 3 = Ok [0; 4607182418800017408; u64_max]).
Proof.
  apply (gorilla_roundtrip alloc_ok [0; 4607182418800017408; u64_max]); [done| |done|done].
  repeat constructor; unfold in_u64; lia.
Defined.

(** The smallest size the decoder accepts for a count is what the encoder needs. *)
Lemma encoded_min_len values out : values ≠ [] → Forall in_u64 values → encode_gorilla_values values = Ok out →
  bytes out ∧ (zlen values + 70) / 8 ≤ zlen out.
Proof.
  intros Hne Hvs Hout. destruct values as [|first values]; [done|]. apply Forall_cons_1 in Hvs as [Hf Hvs].
  destruct (encode_gorilla_rep first values Hf Hvs) as (out' & Hout' & Hb & Hbits). rewrite Hout' in Hout. injection Hout as ->.
  split; [done|]. rewrite (zlen_encoded _ _ _ Hbits), zlen_cons. pose proof (gorilla_stream_length values None first).
  apply Z.div_le_mono; unfold zlen; lia.
Qed.

Lemma decode_exact al buf count values :
  bytes buf → vec_ok buf → 0 < count → decode_gorilla_values al buf count = Ok values →
  encode_gorilla_values values = Ok buf ∧ zlen values = count ∧ Forall in_u64 values.
Proof.
  intros Hb Hsz Hc Hd.
  destruct (decode_gorilla_inv _ _ _ _ Hb Hsz Hc Hd)
    as (first & vs & rest & -> & Hall & Hlen & Hbits & Hlt & Hrest).
  split_and!; [|done|done]. apply Forall_cons_1 in Hall as [Hf Hvs].
  destruct (encode_gorilla_rep first vs Hf Hvs) as (out & Hout & Hob & Hobits).
  rewrite Hout. f_equal. apply bytes_bits_inj; [done..|]. rewrite Hobits, Hbits. f_equal.
  rewrite Hrest. f_equal. symmetry. apply (padding_unique _ _ (zlen buf)); [done|].
  rewrite <- zlen_bytes_bits, Hbits, zlen_app. done.
Qed.

(** The decoder accepts only the encoder's output: bytes that decode to
    [count > 0] values are the encoding of those values, so padding, missed
    window reuse, over-wide windows and zero xors written long are all refused. *)
Theorem gorilla_canonical al buf count values :
  bytes buf → vec_ok buf → 0 < count → decode_gorilla_values al buf count = Ok values →
  encode_gorilla_values values = Ok buf ∧ zlen values = count ∧ Forall in_u64 values.
Proof. apply decode_exact. Qed.

Lemma gorilla_canonical_witness :
  decode_gorilla_values alloc_ok [0x3f; 0xf0; 0; 0; 0; 0; 0; 0; 0] 2
    = Ok [4607182418800017408; 4607182418800017408] ∧
  encode_gorilla_values [4607182418800017408; 4607182418800017408]
    = Ok [0x3f; 0xf0; 0; 0; 0; 0; 0; 0; 0].
Proof.
  split; [vm_compute; reflexivity|].
  refine (proj1 (gorilla_canonical alloc_ok [0x3f; 0xf0; 0; 0; 0; 0; 0; 0; 0] 2 _ _ _ _ _));
    [by apply bytesb_bytes|vm_compute; discriminate|lia|vm_compute; reflexivity].
Defined.

Lemma encoded_bits_step_spec w pl pt has prev v :
  window_rep w pl pt has → in_u64 prev → in_u64 v →
  let '(bits, (pl', pt', has')) := encoded_bits_step pl pt has prev v in
  bits = zlen (gorilla_code w (Z.lxor prev v)) ∧ window_rep (next_window w (Z.lxor prev v)) pl' pt' has'.
Proof.
  intros Hw Hp Hv. pose proof (lxor_range prev v Hp Hv) as Hx.
  unfold encoded_bits_step. set (x := Z.lxor prev v) in *.
  destruct (Z.eqb_spec x 0) as [->|H0]; [by split|].
  destruct Hw as [Hok Hwin].
  assert (Hre : has && (pl <=? leading_zeros x) && (pt <=? trailing_zeros x) = reusable w x).
  { destruct w as [[??]|]; by destruct Hwin as (-> & -> & ->). }
  rewrite Hre. destruct (reusable w x) eqn:Hr.
  - destruct w as [[lw tw]|]; [|done]. destruct Hwin as (-> & -> & ->). destruct Hok as (? & ? & ?).
    destruct (gorilla_code_reuse (lw, tw) x H0 Hr) as [-> ->]. split; [|done].
    unfold window_bits. autorewrite with zlen. cbn [fst snd]. lia.
  - pose proof (new_window_ok x ltac:(lia)) as Hn. rewrite gorilla_code_new, next_window_new by done.
    unfold new_window in *. cbn [fst snd] in *. destruct Hn as (? & ? & ?).
    unfold window_bits. autorewrite with zlen. cbn [fst snd].
    split; [unfold GORILLA_LEADING_BITS, GORILLA_SIG_BITS; lia|]. by split_and!.
Qed.

Lemma encoded_bits_loop_spec vs : ∀ bits prev w pl pt has,
  window_rep w pl pt has → in_u64 prev → Forall in_u64 vs →
  bits + zlen (gorilla_stream w prev vs) ≤ u64_max →
  encoded_bits_loop vs bits prev pl pt has = Ok (bits + zlen (gorilla_stream w prev vs)).
Proof.
  induction vs as [|v vs IH]; intros bits prev w pl pt has Hw Hp Hvs Hmax; cbn [encoded_bits_loop].
  { cbn [gorilla_stream]. by rewrite zlen_nil, Z.add_0_r. }
  apply Forall_cons_1 in Hvs as [Hv Hvs]. cbn [gorilla_stream] in Hmax |- *. rewrite zlen_app in Hmax |- *.
  pose proof (encoded_bits_step_spec w pl pt has prev v Hw Hp Hv) as Hs.
  destruct (encoded_bits_step pl pt has prev v) as [n [[pl' pt'] has']]. destruct Hs as [-> Hw'].
  pose proof (zlen_nonneg (gorilla_stream (next_window w (Z.lxor prev v)) v vs)).
  rewrite checked_add_u64_fits by lia. cbn [ok_or mbind result_bind].
  rewrite (IH _ _ _ _ _ _ Hw' Hv Hvs) by lia. f_equal. lia.
Qed.

(** The size estimator used to choose an encoding is exact: it answers the
    length of the bytes the encoder produces. *)
Theorem gorilla_size_exact values out :
  Forall in_u64 values → encode_gorilla_values values = Ok out → zlen out < 2 ^ 60 →
  gorilla_encoded_len_bytes values = Ok (zlen out).
Proof.
  intros Hvs Hout Hmax. destruct values as [|first values]; [done|].
  apply Forall_cons_1 in Hvs as [Hf Hvs].
  destruct (encode_gorilla_rep first values Hf Hvs) as (out' & Hout' & _ & Hbits).
  rewrite Hout in Hout'. injection Hout' as <-. pose proof (zlen_encoded _ _ _ Hbits) as Hlen.
  change (2 ^ 60) with 1152921504606846976 in Hmax.
  assert (Hfit : 64 + zlen (gorilla_stream None first values) < 2 ^ 64 - 8).
  { Z.to_euclidean_division_equations. lia. }
  unfold gorilla_encoded_len_bytes.
  rewrite (encoded_bits_loop_spec values 64 first None 0 0 false) by (done || lia).
  cbn [mbind result_bind]. rewrite checked_add_u64_fits by lia. cbn [ok_or mbind result_bind].
  by rewrite Hlen.
Qed.

Lemma gorilla_size_exact_witness :
  encode_gorilla_values [4607182418800017408; 4607182418800017408]
    = Ok [0x3f; 0xf0; 0; 0; 0; 0; 0; 0; 0] ∧
  gorilla_encoded_len_bytes [4607182418800017408; 4607182418800017408] = Ok 9.
Proof.
  split; [reflexivity|].
  refine (gorilla_size_exact _ [0x3f; 0xf0; 0; 0; 0; 0; 0; 0; 0] _ _ _); [|vm_compute; reflexivity|done].
  repeat constructor; unfold in_u64; lia.
Defined.
