(* ===== verification/SortedSet.v ===== *)
(** * Set algebra on sorted slices

    [chronoxide-core/src/storage/sorted_set.rs]: the merge loops the label
    matcher uses on series ids.  The element type is any [T : Copy + Ord]; the
    loops keep their two indices and are run with one unit of fuel per element
    (an iteration advances at least one index). *)
From stdpp Require Import sorting.
From S2P Require Import Prelude.

(** The [Ord] trait: a comparison that decides a strict total order. *)
Class TotalOrd (T : Type) := {
  cmp : T → T → comparison;
  ord_lt : T → T → Prop;
  cmp_Eq : ∀ x y, cmp x y = Eq ↔ x = y;
  cmp_Lt : ∀ x y, cmp x y = Lt ↔ ord_lt x y;
  cmp_Gt : ∀ x y, cmp x y = Gt ↔ ord_lt y x;
  ord_lt_irrefl : ∀ x, ¬ ord_lt x x;
  ord_lt_trans : ∀ x y z, ord_lt x y → ord_lt y z → ord_lt x z;
}.

(** Series references and the other integer ids. *)
#[export] Program Instance Z_TotalOrd : TotalOrd Z := {
  cmp := Z.compare;
  ord_lt := Z.lt;
}.
Next Obligation. intros. apply Z.compare_eq_iff. Qed.
Next Obligation. intros. apply Z.compare_lt_iff. Qed.
Next Obligation. intros. apply Z.compare_gt_iff. Qed.
Next Obligation. intros. lia. Qed.
Next Obligation. intros. lia. Qed.

Section sorted_set.
Context {T : Type} `{!TotalOrd T}.
Implicit Types left right out : list T.

(** One loop per operation; [None] is running out of fuel. *)
Fixpoint intersect_loop (fuel : nat) left right out (left_index right_index : nat) : option (list T) :=
  match fuel with
  | O => None
  | S fuel =>
      match left !! left_index, right !! right_index with
      | Some l, Some r =>
          match cmp l r with
          | Lt => intersect_loop fuel left right out (left_index + 1) right_index
          | Gt => intersect_loop fuel left right out left_index (right_index + 1)
          | Eq => intersect_loop fuel left right (out ++ [l]) (left_index + 1) (right_index + 1)
          end
      | _, _ => Some out
      end
  end.
Definition intersect_sorted left right : option (list T) :=
  intersect_loop (length left + length right + 1) left right [] 0 0.

Fixpoint union_loop (fuel : nat) left right out (left_index right_index : nat) : option (list T) :=
  match fuel with
  | O => None
  | S fuel =>
      match left !! left_index, right !! right_index with
      | None, None => Some out
      | None, Some _ => Some (out ++ drop right_index right)
      | Some _, None => Some (out ++ drop left_index left)
      | Some l, Some r =>
          match cmp l r with
          | Lt => union_loop fuel left right (out ++ [l]) (left_index + 1) right_index
          | Gt => union_loop fuel left right (out ++ [r]) left_index (right_index + 1)
          | Eq => union_loop fuel left right (out ++ [l]) (left_index + 1) (right_index + 1)
          end
      end
  end.
Definition union_sorted left right : option (list T) :=
  union_loop (length left + length right + 1) left right [] 0 0.

Fixpoint subtract_loop (fuel : nat) left right out (left_index right_index : nat) : option (list T) :=
  match fuel with
  | O => None
  | S fuel =>
      match left !! left_index, right !! right_index with
      | None, _ => Some out
      | Some _, None => Some (out ++ drop left_index left)
      | Some l, Some r =>
          match cmp l r with
          | Lt => subtract_loop fuel left right (out ++ [l]) (left_index + 1) right_index
          | Gt => subtract_loop fuel left right out left_index (right_index + 1)
          | Eq => subtract_loop fuel left right out (left_index + 1) (right_index + 1)
          end
      end
  end.
Definition subtract_sorted left right : option (list T) :=
  subtract_loop (length left + length right + 1) left right [] 0 0.

(** ** Reference: structural merges *)

(** Sorted and duplicate-free. *)
Abbreviation ascending := (StronglySorted ord_lt).

Fixpoint merge (keep_left keep_right keep_both : bool) left : list T → list T :=
  fix go right :=
    match left, right with
    | [], _ => if keep_right then right else []
    | _, [] => if keep_left then left else []
    | l :: left', r :: right' =>
        match cmp l r with
        | Lt => (if keep_left then [l] else []) ++ merge keep_left keep_right keep_both left' right
        | Gt => (if keep_right then [r] else []) ++ go right'
        | Eq => (if keep_both then [l] else []) ++ merge keep_left keep_right keep_both left' right'
        end
    end.

Lemma merge_cons kl kr kb l left r right :
  merge kl kr kb (l :: left) (r :: right) =
    match cmp l r with
    | Lt => (if kl then [l] else []) ++ merge kl kr kb left (r :: right)
    | Gt => (if kr then [r] else []) ++ merge kl kr kb (l :: left) right
    | Eq => (if kb then [l] else []) ++ merge kl kr kb left right
    end.
Proof. done. Qed.

Lemma merge_nil_r kl kr kb left : merge kl kr kb left [] = if kl then left else [].
Proof. destruct left; [by destruct kl, kr|done]. Qed.
Lemma merge_nil_l kl kr kb right : merge kl kr kb [] right = if kr then right else [].
Proof. by destruct right. Qed.

Lemma ord_lt_gt x y : ord_lt x y → ¬ ord_lt y x.
Proof. intros Hxy Hyx. exact (ord_lt_irrefl x (ord_lt_trans x y x Hxy Hyx)). Qed.

Lemma ascending_cons_inv x l : ascending (x :: l) → ascending l ∧ ∀ y, y ∈ l → ord_lt x y.
Proof. intros H. inversion H as [|?? Hl Hf]; subst. split; [done|]. intros y Hy. by eapply (list.Forall_forall (ord_lt x) l). Qed.

Lemma merge_in kl kr kb left right x :
  x ∈ merge kl kr kb left right → x ∈ left ∨ x ∈ right.
Proof.
  revert right. induction left as [|l left IHl]; intros right.
  { rewrite merge_nil_l. destruct kr; [by right|by intros []%elem_of_nil]. }
  induction right as [|r right IHr].
  { rewrite merge_nil_r. destruct kl; [by left|by intros []%elem_of_nil]. }
  rewrite merge_cons. specialize (IHl (r :: right)) as IHl1. specialize (IHl right) as IHl2.
  destruct (cmp l r), kl, kr, kb; rewrite ?elem_of_app, ?elem_of_cons, ?elem_of_nil in *; naive_solver.
Qed.

Lemma ascending_merge kl kr kb left right :
  ascending left → ascending right → ascending (merge kl kr kb left right).
Proof.
  revert right. induction left as [|l left IHl]; intros right Hl Hr.
  { rewrite merge_nil_l. destruct kr; [done|constructor]. }
  induction right as [|r right IHr].
  { rewrite merge_nil_r. destruct kl; [done|constructor]. }
  rewrite merge_cons. pose proof (ascending_cons_inv _ _ Hl) as [Hl' Hll].
  pose proof (ascending_cons_inv _ _ Hr) as [Hr' Hrr].
  assert (Hcons : ∀ (b : bool) x m, ascending m → (∀ y, y ∈ m → ord_lt x y) →
            ascending ((if b then [x] else []) ++ m)).
  { intros [] x m Hm Hx; [|done]. constructor; [done|]. by apply list.Forall_forall. }
  destruct (cmp l r) eqn:Hc; apply Hcons; auto; intros y [Hy|Hy]%merge_in.
  - auto.
  - apply cmp_Eq in Hc as ->. auto.
  - auto.
  - apply cmp_Lt in Hc. apply elem_of_cons in Hy as [->|Hy]; [done|].
    eapply ord_lt_trans; [done|auto].
  - apply cmp_Gt in Hc. apply elem_of_cons in Hy as [->|Hy]; [done|].
    eapply ord_lt_trans; [done|auto].
  - auto.
Qed.

(** Which elements a merge of two ascending lists keeps. *)
Lemma elem_of_merge kl kr kb left right x :
  ascending left → ascending right →
  x ∈ merge kl kr kb left right ↔
    (kl = true ∧ x ∈ left ∧ x ∉ right) ∨ (kr = true ∧ x ∉ left ∧ x ∈ right)
    ∨ (kb = true ∧ x ∈ left ∧ x ∈ right).
Proof.
  revert right. induction left as [|l left IHl]; intros right Hl Hr.
  { rewrite merge_nil_l. destruct kr; set_solver. }
  induction right as [|r right IHr].
  { rewrite merge_nil_r. destruct kl; set_solver. }
  rewrite merge_cons. pose proof (ascending_cons_inv _ _ Hl) as [Hl' Hll].
  pose proof (ascending_cons_inv _ _ Hr) as [Hr' Hrr].
  assert (Hif : ∀ (b : bool) y m, x ∈ (if b then [y] else []) ++ m ↔ (b = true ∧ x = y) ∨ x ∈ m).
  { intros [] y m; rewrite ?elem_of_app, ?elem_of_cons, ?elem_of_nil; naive_solver. }
  assert (Hin : ∀ (y : T) (m : list T), (∀ z, z ∈ m → ord_lt y z) → y ∉ m).
  { intros y m Hm Hy. exact (ord_lt_irrefl y (Hm y Hy)). }
  assert (Heq : ∀ y : T, x = y ∨ x ≠ y).
  { intros y. destruct (cmp x y) eqn:Hxy; [left; by apply cmp_Eq|right..];
      intros ->; rewrite (proj2 (cmp_Eq y y) eq_refl) in Hxy; done. }
  destruct (cmp l r) eqn:Hc; rewrite Hif.
  - apply cmp_Eq in Hc as <-. rewrite IHl, !elem_of_cons by done.
    pose proof (Hin l left Hll). pose proof (Hin l right Hrr).
    assert (l = l) by done. destruct (Heq l) as [->|]; tauto.
  - apply cmp_Lt in Hc. rewrite IHl, !elem_of_cons by done.
    pose proof (Hin l left Hll). pose proof (Hin l right ltac:(eauto using ord_lt_trans)).
    assert (l ≠ r) by (intros ->; by eapply ord_lt_irrefl).
    assert (l = l) by done. destruct (Heq l) as [->|]; tauto.
  - apply cmp_Gt in Hc. rewrite IHr, !elem_of_cons by done.
    pose proof (Hin r right Hrr). pose proof (Hin r left ltac:(eauto using ord_lt_trans)).
    assert (r ≠ l) by (intros ->; by eapply ord_lt_irrefl).
    assert (r = r) by done. destruct (Heq r) as [->|]; tauto.
Qed.

(** ** The loops compute the merges *)

Lemma drop_lookup {A} (l : list A) i :
  match l !! i with
  | Some x => drop i l = x :: drop (i + 1) l ∧ (i < length l)%nat
  | None => drop i l = [] ∧ (length l ≤ i)%nat
  end.
Proof.
  destruct (l !! i) eqn:Hi.
  - split; [|by eapply lookup_lt_Some]. rewrite Nat.add_1_r. by apply drop_S.
  - apply lookup_ge_None in Hi. split; [by apply drop_ge|done].
Qed.

(** What is common to the three inductions: look both indices up. *)
Ltac merge_step left right li ri IH :=
  pose proof (drop_lookup left li); pose proof (drop_lookup right ri);
  destruct (left !! li) as [l|]; destruct (right !! ri) as [r|];
  repeat match goal with H : _ ∧ _ |- _ => destruct H end;
  repeat match goal with H : drop _ _ = _ |- _ => rewrite H end;
  rewrite ?merge_nil_l, ?merge_nil_r, ?merge_cons, ?app_nil_r; try done;
  destruct (cmp l r); rewrite IH by lia;
  repeat match goal with H : drop _ _ = _ |- _ => rewrite H end;
  cbn [app]; by rewrite <- ?app_assoc.

Lemma intersect_loop_merge left right fuel : ∀ out li ri,
  ((length left - li) + (length right - ri) < fuel)%nat →
  intersect_loop fuel left right out li ri
    = Some (out ++ merge false false true (drop li left) (drop ri right)).
Proof.
  induction fuel as [|fuel IH]; intros out li ri Hf; [lia|]. cbn [intersect_loop].
  merge_step left right li ri IH.
Qed.

Lemma union_loop_merge left right fuel : ∀ out li ri,
  ((length left - li) + (length right - ri) < fuel)%nat →
  union_loop fuel left right out li ri
    = Some (out ++ merge true true true (drop li left) (drop ri right)).
Proof.
  induction fuel as [|fuel IH]; intros out li ri Hf; [lia|]. cbn [union_loop].
  merge_step left right li ri IH.
Qed.

Lemma subtract_loop_merge left right fuel : ∀ out li ri,
  ((length left - li) + (length right - ri) < fuel)%nat →
  subtract_loop fuel left right out li ri
    = Some (out ++ merge true false false (drop li left) (drop ri right)).
Proof.
  induction fuel as [|fuel IH]; intros out li ri Hf; [lia|]. cbn [subtract_loop].
  merge_step left right li ri IH.
Qed.

(** C32: on sorted duplicate-free slices the three merges terminate and return
    the sorted duplicate-free slice of the set intersection, union and
    difference. *)
Theorem sorted_set_algebra left right :
  ascending left → ascending right →
  (∃ out, intersect_sorted left right = Some out ∧ ascending out ∧
     ∀ x, x ∈ out ↔ x ∈ left ∧ x ∈ right) ∧
  (∃ out, union_sorted left right = Some out ∧ ascending out ∧
     ∀ x, x ∈ out ↔ x ∈ left ∨ x ∈ right) ∧
  (∃ out, subtract_sorted left right = Some out ∧ ascending out ∧
     ∀ x, x ∈ out ↔ x ∈ left ∧ x ∉ right).
Proof.
  intros Hl Hr. unfold intersect_sorted, union_sorted, subtract_sorted.
  rewrite intersect_loop_merge, union_loop_merge, subtract_loop_merge by lia.
  rewrite !drop_0. cbn [app].
  assert (Hdec : ∀ (x : T) (m : list T), x ∈ m ∨ x ∉ m).
  { intros x m. induction m as [|y m IH]; [right; by apply not_elem_of_nil|].
    destruct (cmp x y) eqn:Hc; [apply cmp_Eq in Hc as ->; left; by left| |];
      (destruct IH as [|IH]; [left; by right|right; intros [->|?]%elem_of_cons; [|done]]);
      by rewrite (proj2 (cmp_Eq y y) eq_refl) in Hc. }
  split_and!; eexists; (split_and!; [done|by apply ascending_merge|]); intros x;
    rewrite elem_of_merge by done; pose proof (Hdec x left); pose proof (Hdec x right); intuition congruence.
Qed.
End sorted_set.

Lemma sorted_set_algebra_witness :
  union_sorted [1; 3; 5] [0; 3] = Some [0; 1; 3; 5] ∧
  ∃ out, intersect_sorted [1; 3; 5] [0; 3] = Some out ∧ StronglySorted Z.lt out ∧
    ∀ x, x ∈ out ↔ x ∈ [1; 3; 5] ∧ x ∈ [0; 3].
Proof.
  split; [reflexivity|]. refine (proj1 (sorted_set_algebra [1; 3; 5] [0; 3] _ _)).
  all: repeat (constructor; [|repeat constructor; cbn; lia]); constructor.
Defined.
