(* ===== verification/EventTime.v ===== *)
(** * The ingest-time acceptance window

    [chronoxide-core/src/event_time.rs].  [chrono::TimeDelta] is an external
    type: the policy is built from any type with its comparison to zero and its
    millisecond count. *)
From S2P Require Import Prelude.

(** What the policy uses of [chrono::TimeDelta]. *)
Class TimeDeltaOps (D : Type) := {
  td_non_negative : D → bool;   (* self >= TimeDelta::zero() *)
  td_num_milliseconds : D → Z;  (* num_milliseconds *)
}.

(** Whole milliseconds of a non-negative duration, as an [i64]. *)
Class TimeDeltaLaws (D : Type) `{TimeDeltaOps D} := {
  td_millis_range d : td_non_negative d = true → 0 ≤ td_num_milliseconds d ≤ i64_max;
}.

Record EventTimePolicy := mk_policy {
  max_event_age_ms : Z;
  max_event_lead_ms : Z;
  drop_outdated : bool;
}.

Inductive DatapointTimeDecision :=
  | Accepted (event_ms : Z)
  | DroppedTooOld
  | DroppedTooFuture
  | MissingTimestamp.

Record DatapointTimeEvaluation := mk_evaluation {
  decision : DatapointTimeDecision;
  skew_ms : option Z;
}.

Definition saturating_i128_to_i64 (value : Z) : Z :=
  if i64_max <? value then i64_max else if value <? i64_min then i64_min else value.

(** [None] is the panic of the two assertions. *)
Definition policy_new {D} `{TimeDeltaOps D} (max_event_age max_event_lead : D) (drop : bool)
    : option EventTimePolicy :=
  if negb (td_non_negative max_event_age) then None
  else if negb (td_non_negative max_event_lead) then None
  else Some (mk_policy (td_num_milliseconds max_event_age) (td_num_milliseconds max_event_lead) drop).

Definition evaluate (p : EventTimePolicy) (time_unix_nano captured_at_ms : Z) : DatapointTimeEvaluation :=
  if time_unix_nano =? 0 then mk_evaluation MissingTimestamp None
  else
    let event_ms := time_unix_nano / 1000000 in
    let skew := Some (saturating_i128_to_i64 (event_ms - captured_at_ms)) in
    if negb (drop_outdated p) then mk_evaluation (Accepted event_ms) skew
    else
      let min_event_ms := captured_at_ms - max_event_age_ms p in
      if event_ms <? min_event_ms then mk_evaluation DroppedTooOld skew
      else
        let max_event_ms := captured_at_ms + max_event_lead_ms p in
        if max_event_ms <? event_ms then mk_evaluation DroppedTooFuture skew
        else mk_evaluation (Accepted event_ms) skew.

Definition policy_wf (p : EventTimePolicy) : Prop :=
  0 ≤ max_event_age_ms p ≤ i64_max ∧ 0 ≤ max_event_lead_ms p ≤ i64_max.

Lemma policy_new_wf {D} `{TimeDeltaLaws D} (age lead : D) drop p :
  policy_new age lead drop = Some p → policy_wf p.
Proof.
  unfold policy_new. destruct (td_non_negative age) eqn:Ha, (td_non_negative lead) eqn:Hl; try done.
  cbn. intros [= <-]. by split; apply td_millis_range.
Qed.

Lemma saturating_range v : in_i64 (saturating_i128_to_i64 v).
Proof.
  unfold saturating_i128_to_i64, in_i64. destruct (Z.ltb_spec i64_max v); [lia|].
  destruct (Z.ltb_spec v i64_min); lia.
Qed.

(** The decision is the window test.  A non-zero timestamp truncates to its
    millisecond; without dropping it is accepted; with dropping it is accepted
    exactly within [clock - age, clock + lead], and is otherwise too old or too
    new, never both.  The reported skew is the exact difference clamped to an
    [i64], and no intermediate value overflows [i128]. *)
Theorem evaluate_window {D} `{TimeDeltaLaws D} (age lead : D) drop p nano clock :
  policy_new age lead drop = Some p → in_u64 nano → in_i64 clock → nano ≠ 0 →
  let ms := nano / 1000000 in
  let lo := clock - td_num_milliseconds age in
  let hi := clock + td_num_milliseconds lead in
  decision (evaluate p nano clock)
    = (if negb drop || ((lo <=? ms) && (ms <=? hi)) then Accepted ms
       else if ms <? lo then DroppedTooOld else DroppedTooFuture) ∧
  (lo ≤ clock ≤ hi ∧ - 2 ^ 127 ≤ lo ∧ hi < 2 ^ 127) ∧
  ∃ skew, skew_ms (evaluate p nano clock) = Some skew ∧ in_i64 skew ∧
    (in_i64 (ms - clock) → skew = ms - clock).
Proof.
  intros Hp Hn Hc Hnz ms lo hi. pose proof (policy_new_wf _ _ _ _ Hp) as [Ha Hl].
  unfold policy_new in Hp. destruct (td_non_negative age), (td_non_negative lead); try done.
  injection Hp as <-. cbn [max_event_age_ms max_event_lead_ms] in Ha, Hl. unfold in_i64 in Hc.
  unfold evaluate. rewrite (proj2 (Z.eqb_neq nano 0) Hnz).
  cbn [drop_outdated max_event_age_ms max_event_lead_ms]. fold ms lo hi.
  change (2 ^ 127) with 170141183460469231731687303715884105728. split_and!; [|lia..|].
  - destruct drop; [|done]. cbn [negb orb].
    destruct (Z.ltb_spec ms lo), (Z.ltb_spec hi ms), (Z.leb_spec lo ms), (Z.leb_spec ms hi); done || lia.
  - exists (saturating_i128_to_i64 (ms - clock)). split_and!; [|apply saturating_range..|].
    + by destruct (negb drop), (ms <? lo), (hi <? ms).
    + unfold saturating_i128_to_i64, in_i64. intros Hr. rewrite !(proj2 (Z.ltb_ge _ _)) by lia. done.
Qed.

(** Whole milliseconds as an instance. *)
#[local] Instance millis_ops : TimeDeltaOps Z := {
  td_non_negative d := (0 <=? d) && (d <=? i64_max);
  td_num_milliseconds d := d;
}.
#[local] Instance millis_laws : TimeDeltaLaws Z.
Proof. split. intros d [H1%Z.leb_le H2%Z.leb_le]%andb_true_iff. done. Qed.

Lemma evaluate_window_witness :
  ∃ p, policy_new (D := Z) 5000 1000 true = Some p ∧
    decision (evaluate p 1000000 7000) = DroppedTooOld ∧ decision (evaluate p 3000000000 7000) = Accepted 3000.
Proof.
  exists (mk_policy 5000 1000 true). split; [reflexivity|]. split.
  - exact (proj1 (evaluate_window (D := Z) 5000 1000 true (mk_policy 5000 1000 true) 1000000 7000 eq_refl
      ltac:(unfold in_u64; lia) ltac:(unfold in_i64; lia) ltac:(lia))).
  - exact (proj1 (evaluate_window (D := Z) 5000 1000 true (mk_policy 5000 1000 true) 3000000000 7000 eq_refl
      ltac:(unfold in_u64; lia) ltac:(unfold in_i64; lia) ltac:(lia))).
Defined.
