(* ===== verification/Float64.v ===== *)
(** * Doubles as bit patterns

    An [f64] is the [u64] of its bits; comparisons decode the pattern to the
    Standard Library's specification floats ([SpecFloat]), so [NaN] is
    unordered and the two zeros are equal, as in Rust's [PartialOrd]. *)
From Stdlib Require Import SpecFloat.
From S2P Require Import Prelude.

Definition f64_sign (bits : Z) : bool := Z.testbit bits 63.
Definition f64_exponent (bits : Z) : Z := Z.land (Z.shiftr bits 52) 0x7ff.
Definition f64_fraction (bits : Z) : Z := Z.land bits 0xfffffffffffff.

Definition f64_of_bits (bits : Z) : spec_float :=
  let s := f64_sign bits in
  let e := f64_exponent bits in
  let m := f64_fraction bits in
  if e =? 0x7ff then (if m =? 0 then S754_infinity s else S754_nan)
  else if e =? 0 then
    match m with Zpos p => S754_finite s p (-1074) | _ => S754_zero s end
  else match m + 0x10000000000000 with
       | Zpos p => S754_finite s p (e - 1075)
       | _ => S754_nan
       end.

(** [PartialOrd]/[PartialEq] of [f64]. *)
Definition f64_cmp (a b : Z) : option comparison := SFcompare (f64_of_bits a) (f64_of_bits b).
Definition f64_lt (a b : Z) : bool := match f64_cmp a b with Some Lt => true | _ => false end.
Definition f64_le (a b : Z) : bool :=
  match f64_cmp a b with Some Lt | Some Eq => true | _ => false end.
Definition f64_ge (a b : Z) : bool := f64_le b a.
Definition f64_eq (a b : Z) : bool := match f64_cmp a b with Some Eq => true | _ => false end.
Definition f64_is_finite (bits : Z) : bool := negb (f64_exponent bits =? 0x7ff).
Definition f64_is_nan (bits : Z) : bool :=
  (f64_exponent bits =? 0x7ff) && negb (f64_fraction bits =? 0).

(** The pattern of a specification float in canonical form, and [value as f64]. *)
Definition f64_to_bits (x : spec_float) : Z :=
  let sign (s : bool) := if s then 0x8000000000000000 else 0 in
  match x with
  | S754_zero s => sign s
  | S754_infinity s => sign s + 0x7ff0000000000000
  | S754_nan => 0x7ff8000000000000
  | S754_finite s m e =>
      sign s + (if Z.pos m <? 0x10000000000000 then Z.pos m
                else Z.shiftl (e + 1075) 52 + (Z.pos m - 0x10000000000000))
  end.
Definition f64_of_i64 (value : Z) : Z := f64_to_bits (binary_normalize 53 1024 value 0 false).

(** The literals [0.0] and [1.0]. *)
Definition f64_zero : Z := 0.
Definition f64_one : Z := 0x3ff0000000000000.

(** [<[f64] as PartialEq>::eq]. *)
Fixpoint f64s_eq (a b : list Z) : bool :=
  match a, b with
  | [], [] => true
  | x :: a, y :: b => f64_eq x y && f64s_eq a b
  | _, _ => false
  end.

Example f64_of_i64_values :
  f64_of_i64 <$> [0; 1; -2; 9007199254740993; 9223372036854775807; -9223372036854775808] =
  [0; 0x3ff0000000000000; 0xc000000000000000; 0x4340000000000000; 0x43e0000000000000; 0xc3e0000000000000].
Proof. reflexivity. Qed.

Example f64_order :
  f64_lt 0xbff0000000000000 0 = true ∧ f64_eq 0x8000000000000000 0 = true ∧
  f64_le f64_zero 0x7ff8000000000000 = false ∧ f64_lt 1 0x0010000000000000 = true ∧
  f64_le f64_one f64_one = true ∧ f64_is_finite 0x7ff0000000000000 = false.
Proof. done. Qed.

(** On numbers the order is total: [a >= b] is the negation of [a < b]. *)
Lemma SFcompare_swap x y :
  x ≠ S754_nan → y ≠ S754_nan →
  ∃ c, SFcompare x y = Some c ∧ SFcompare y x = Some (CompOpp c).
Proof.
  intros Hx Hy. destruct x as [?|?| |[] mx ex], y as [?|?| |[] my ey]; try done; cbn;
    repeat match goal with b : bool |- _ => destruct b end; eauto.
  all: rewrite (Z.compare_antisym ex ey); destruct (Z.compare ex ey); cbn; eauto;
    eexists; (split; [reflexivity|]); do 2 f_equal; symmetry; apply (Pos.compare_cont_antisym _ _ Eq).
Qed.

Lemma f64_finite_not_nan a : f64_is_finite a = true → f64_of_bits a ≠ S754_nan.
Proof.
  unfold f64_is_finite, f64_of_bits. intros ->%negb_true_iff.
  destruct (_ =? 0); [by destruct (f64_fraction a)|].
  assert (0 ≤ f64_fraction a) by (apply Z.land_nonneg; right; done).
  by destruct (f64_fraction a + _) eqn:Hm; [lia| |lia].
Qed.

Lemma f64_ge_not_lt a b :
  f64_is_finite a = true → f64_is_finite b = true → f64_ge a b = negb (f64_lt a b).
Proof.
  intros Ha%f64_finite_not_nan Hb%f64_finite_not_nan.
  destruct (SFcompare_swap _ _ Ha Hb) as (c & H1 & H2).
  unfold f64_ge, f64_le, f64_lt, f64_cmp. rewrite H1, H2. by destruct c.
Qed.
