(* ===== verification/Cursor.v ===== *)
(** * Cursor-based byte decoders

    The decoders of the storage layer take the whole buffer and a cursor.
    [cursor_rep buf c l] says that [l] is what is left of [buf] at cursor [c];
    [Codec] is the contract such a decoder meets: it reads back what its
    encoder appended and accepts nothing else.

    The fields are those of [chronoxide-core/src/storage/head/encoded.rs]. *)
From S2P Require Import Prelude Varint.

Definition cursor_rep (buf : list Z) (c : Z) (l : list Z) : Prop :=
  bytes buf ∧ vec_ok buf ∧ 0 ≤ c ≤ zlen buf ∧ drop (Z.to_nat c) buf = l.

Lemma cursor_start buf : bytes buf → vec_ok buf → cursor_rep buf 0 buf.
Proof. intros. split_and!; [done|done|lia|apply zlen_nonneg|done]. Qed.

Lemma cursor_zlen buf c l : cursor_rep buf c l → zlen l = zlen buf - c.
Proof. intros (_ & _ & Hc & <-). unfold zlen in *. rewrite length_drop. lia. Qed.

Lemma cursor_bytes buf c l : cursor_rep buf c l → bytes l.
Proof. intros (Hb & _ & _ & <-). by apply Forall_drop. Qed.

Lemma cursor_step buf c x l :
  cursor_rep buf c (x ++ l) → cursor_rep buf (c + zlen x) l.
Proof.
  intros Hr. pose proof (cursor_zlen _ _ _ Hr) as Hz. rewrite zlen_app in Hz.
  destruct Hr as (Hb & Hv & Hc & Hd). pose proof (zlen_nonneg x). pose proof (zlen_nonneg l).
  split_and!; [done|done|lia|lia|]. replace (Z.to_nat (c + zlen x)) with (Z.to_nat c + length x)%nat
    by (unfold zlen; lia).
  rewrite <- drop_drop, Hd. apply drop_app_length.
Qed.

Lemma cursor_byte buf c b l : cursor_rep buf c (b :: l) → byte_at buf c = Some b.
Proof.
  intros (_ & _ & Hc & Hd). unfold byte_at. rewrite (proj2 (Z.ltb_ge _ _)) by lia.
  rewrite <- (Nat.add_0_r (Z.to_nat c)), <- lookup_drop, Hd. done.
Qed.

Lemma cursor_slice buf c x l n :
  cursor_rep buf c (x ++ l) → n = c + zlen x → slice buf c n = x.
Proof.
  intros (_ & _ & _ & Hd) ->. unfold slice. rewrite Hd.
  replace (Z.to_nat (c + zlen x - c)) with (length x) by (unfold zlen; lia).
  apply take_app_length.
Qed.

Lemma cursor_split buf c l n :
  cursor_rep buf c l → c ≤ n ≤ zlen buf →
  l = slice buf c n ++ drop (Z.to_nat (n - c)) l ∧ zlen (slice buf c n) = n - c.
Proof.
  intros Hr Hn. pose proof (cursor_zlen _ _ _ Hr). destruct Hr as (_ & _ & Hc & Hd).
  unfold slice. rewrite Hd, take_drop. split; [done|].
  unfold zlen in *. rewrite length_take. lia.
Qed.

(** Taking the bytes up to [n]. *)
Lemma cursor_take buf c l n :
  cursor_rep buf c l → c ≤ n ≤ zlen buf →
  ∃ rest, l = slice buf c n ++ rest ∧ zlen (slice buf c n) = n - c ∧
    bytes (slice buf c n) ∧ cursor_rep buf n rest.
Proof.
  intros Hr Hn. destruct (cursor_split _ _ _ _ Hr Hn) as [Hl Hz].
  exists (drop (Z.to_nat (n - c)) l). split_and!; [done|done| |].
  - destruct Hr as (Hb & _). by apply Forall_take, Forall_drop.
  - rewrite Hl in Hr. apply cursor_step in Hr. by replace (c + zlen (slice buf c n)) with n in Hr by lia.
Qed.

(** The contract. [grants al] is an allocator that serves every request. *)
Definition grants (al : allocator) : Prop := ∀ site n, al site n = None.

Abbreviation decoder A := (allocator → list Z → Z → io_result (A * Z)).

Class Codec {A} (dec : decoder A) (enc : A → list Z) (ok : A → Prop) : Prop := {
  codec_fwd al buf c a rest :
    grants al → cursor_rep buf c (enc a ++ rest) → ok a →
    ∃ c', dec al buf c = Ok (a, c') ∧ cursor_rep buf c' rest;
  codec_inv al buf c l a c' :
    cursor_rep buf c l → dec al buf c = Ok (a, c') →
    ∃ rest, l = enc a ++ rest ∧ ok a ∧ cursor_rep buf c' rest;
}.

(** Reads the next field with codec [C], forwards (leaving the field's range
    as the first goal) and backwards. *)
Ltac read_fwd C H :=
  let c := fresh "c" in let Hd := fresh "Hd" in let Hr := fresh "Hr" in
  match goal with Hal : grants ?al |- _ =>
    edestruct (codec_fwd (Codec := C) al _ _ _ _ Hal H) as (c & Hd & Hr);
    [try solve [done|eauto]|rewrite Hd; cbn [mbind result_bind]; clear Hd H; rename Hr into H]
  end.
Ltac read_inv C al H Hd a Hok :=
  let c := fresh "c" in let Ha := fresh "Ha" in
  let Hr := fresh "Hr" in let rest := fresh "rest" in
  apply bind_ok in Hd as ([a c] & Ha & Hd);
  destruct (codec_inv (Codec := C) al _ _ _ _ _ H Ha) as (rest & -> & Hok & Hr);
  clear H Ha; rename Hr into H.

(** ** Fields *)

Definition encode_f64 (value : Z) (out : list Z) : list Z := out ++ le_bytes 8 value.

Definition decode_f64 (buf : list Z) (cursor : Z) : io_result (Z * Z) :=
  if zlen buf <? saturating_add_u64 cursor 8 then fail UnexpectedEof "short f64"
  else Ok (of_le (slice buf cursor (cursor + 8)), cursor + 8).

Definition encode_opt_f64 (value : option Z) (out : list Z) : list Z :=
  match value with
  | Some value => encode_f64 value (out ++ [1])
  | None => out ++ [0]
  end.

Definition decode_opt_f64 (buf : list Z) (cursor : Z) : io_result (option Z * Z) :=
  match byte_at buf cursor with
  | None => fail UnexpectedEof "short option"
  | Some flag =>
      let cursor := cursor + 1 in
      if flag =? 0 then Ok (None, cursor)
      else if flag =? 1 then '(value, cursor) ← decode_f64 buf cursor; Ok (Some value, cursor)
      else fail InvalidData "invalid option flag"
  end.

Definition decode_len (buf : list Z) (cursor : Z) : io_result (Z * Z) :=
  '(len, cursor) ← decode_varint buf cursor;
  len ← ok_or (io_err InvalidData "length overflow") (try_u64 len);
  Ok (len, cursor).

Definition ensure_decoded_items_fit (buf : list Z) (cursor item_count minimum_bytes_per_item : Z)
    (field : string) : io_result unit :=
  available_bytes ← ok_or (io_err InvalidData (field +:+ " cursor is invalid"))
    (checked_sub_u64 (zlen buf) cursor);
  minimum_bytes ← ok_or (io_err InvalidData (field +:+ " minimum encoded size overflows"))
    (checked_mul_u64 item_count minimum_bytes_per_item);
  if available_bytes <? minimum_bytes then
    fail InvalidData (field +:+ " count is infeasible for the remaining encoded bytes")
  else Ok tt.

(** The vector itself is built by the caller's pushes. *)
Definition try_decoded_vec (al : allocator) (count : Z) (field : string) : io_result unit :=
  try_reserve al field (field +:+ " allocation failed: ") count.

Definition try_clone_decoded_slice {A} (al : allocator) (values : list A) (field : string)
    : io_result (list A) :=
  _ ← try_decoded_vec al (zlen values) field;
  Ok values.

Definition decode_i32 (buf : list Z) (cursor : Z) : io_result (Z * Z) :=
  '(encoded, cursor) ← decode_varint buf cursor;
  let decoded := decode_zigzag_i64 encoded in
  value ← ok_or (io_err InvalidData "i32 overflow") (try_i32 decoded);
  Ok (value, cursor).

Definition ensure_consumed (buf : list Z) (cursor : Z) : io_result unit :=
  if negb (cursor =? zlen buf) then fail InvalidData "value buffer has trailing bytes" else Ok tt.

(** The body [for _ in 0..n { out.push(item(buf, cursor)?) }]. *)
Fixpoint decode_items {A} (item : list Z → Z → io_result (A * Z)) (n : nat) (buf : list Z) (cursor : Z)
    : io_result (list A * Z) :=
  match n with
  | O => Ok ([], cursor)
  | S n =>
      '(a, cursor) ← item buf cursor;
      '(rest, cursor) ← decode_items item n buf cursor;
      Ok (a :: rest, cursor)
  end.

(** [for item in items { encode(item, out) }]. *)
Definition encode_items {A} (item : A → list Z → list Z) (items : list A) (out : list Z) : list Z :=
  foldl (λ out a, item a out) out items.

#[global] Arguments encode_varint : simpl never.
#[global] Arguments decode_varint : simpl never.
#[global] Arguments varint_len : simpl never.
#[global] Arguments decode_f64 : simpl never.
#[global] Arguments decode_opt_f64 : simpl never.
#[global] Arguments decode_len : simpl never.
#[global] Arguments decode_i32 : simpl never.
#[global] Arguments le_bytes : simpl never.

(** *** Their contracts *)

#[export] Instance varint_codec :
  Codec (λ _, decode_varint) (λ v, encode_varint v []) in_u64.
Proof.
  split.
  - intros _ buf c v rest _ Hr Hv. exists (c + varint_len v). split.
    + pose proof Hr as (Hb & Hsz & Hc & Hd). rewrite <- (take_drop (Z.to_nat c) buf), Hd.
      apply decode_varint_encoded; [done|]. unfold zlen in *. rewrite length_take. lia.
    + rewrite <- zlen_encode_varint by done. by apply cursor_step.
  - intros _ buf c l v c' Hr Hdec. pose proof Hr as (Hb & Hsz & Hc & Hd).
    apply decode_varint_inv in Hdec as (Hv & -> & post & Hpost); [|done|lia].
    exists post. rewrite Hd in Hpost. split_and!; [done|done|].
    rewrite <- zlen_encode_varint by done. apply cursor_step. by rewrite <- Hpost.
Qed.

Lemma u64_bytes v : in_u64 v → of_le (le_bytes 8 v) = v.
Proof.
  intros Hv. rewrite of_le_le_bytes by lia. apply Z.mod_small. unfold in_u64 in Hv.
  change (2 ^ (8 * 8)) with (u64_max + 1). lia.
Qed.

#[export] Instance f64_codec : Codec (λ _, decode_f64) (le_bytes 8) in_u64.
Proof.
  split.
  - intros _ buf c v rest _ Hr Hv. exists (c + 8). pose proof (cursor_zlen _ _ _ Hr) as Hz.
    pose proof Hr as (_ & _ & Hc & _).
    rewrite zlen_app, zlen_le_bytes in Hz by lia. pose proof (zlen_nonneg rest).
    unfold decode_f64, saturating_add_u64. rewrite (proj2 (Z.ltb_ge _ _)) by lia.
    rewrite (cursor_slice buf c (le_bytes 8 v) rest) by (done || by rewrite zlen_le_bytes).
    rewrite u64_bytes by done. split; [done|].
    rewrite <- (zlen_le_bytes 8 v) at 1 by lia. by apply cursor_step.
  - intros _ buf c l v c' Hr Hdec. unfold decode_f64 in Hdec.
    pose proof Hr as (Hb & Hsz & Hc & Hd).
    destruct (Z.ltb_spec (zlen buf) (saturating_add_u64 c 8)) as [|Hle]; [done|]. injection Hdec as <- <-.
    unfold saturating_add_u64 in Hle.
    destruct (cursor_split buf c l (c + 8) Hr ltac:(lia)) as [Hl Hz].
    assert (Hbs : bytes (slice buf c (c + 8))).
    { unfold slice. by apply Forall_take, Forall_drop. }
    exists (drop (Z.to_nat (c + 8 - c)) l).
    assert (Heq : l = le_bytes 8 (of_le (slice buf c (c + 8))) ++ drop (Z.to_nat (c + 8 - c)) l).
    { rewrite le_bytes_of_le; [done|lia|done]. }
    split_and!; [done| |].
    + pose proof (of_le_range _ Hbs) as Hrg. rewrite Hz in Hrg. unfold in_u64.
      change (2 ^ ((c + 8 - c) * 8)) with (2 ^ ((c + 8 - c) * 8)) in Hrg.
      replace ((c + 8 - c) * 8) with 64 in Hrg by lia. change (2 ^ 64) with (u64_max + 1) in Hrg. lia.
    + rewrite <- (zlen_le_bytes 8 (of_le (slice buf c (c + 8)))) at 1 by lia. apply cursor_step.
      by rewrite <- Heq.
Qed.

Definition opt_f64_bytes (v : option Z) : list Z :=
  match v with Some v => 1 :: le_bytes 8 v | None => [0] end.
Definition opt_in_u64 (v : option Z) : Prop := match v with Some v => in_u64 v | None => True end.

Lemma encode_opt_f64_out v out : encode_opt_f64 v out = out ++ opt_f64_bytes v.
Proof. destruct v; [|done]. unfold encode_opt_f64, encode_f64. by rewrite <- app_assoc. Qed.

Lemma cursor_cons buf c b l : cursor_rep buf c (b :: l) → cursor_rep buf (c + 1) l.
Proof. apply (cursor_step buf c [b] l). Qed.

Lemma cursor_byte_inv buf c l b :
  cursor_rep buf c l → byte_at buf c = Some b → ∃ rest, l = b :: rest ∧ cursor_rep buf (c + 1) rest.
Proof.
  intros Hr Hb. destruct l as [|b' l].
  - destruct Hr as (_ & _ & Hc & Hd). unfold byte_at in Hb. rewrite (proj2 (Z.ltb_ge _ _)) in Hb by lia.
    rewrite <- (Nat.add_0_r (Z.to_nat c)), <- lookup_drop, Hd in Hb. done.
  - rewrite (cursor_byte _ _ _ _ Hr) in Hb. injection Hb as ->. exists l. split; [done|].
    by apply cursor_cons in Hr.
Qed.

#[export] Instance opt_f64_codec : Codec (λ _, decode_opt_f64) opt_f64_bytes opt_in_u64.
Proof.
  split.
  - intros al buf c [v|] rest Hal Hr Hv; unfold decode_opt_f64; cbn [opt_f64_bytes app] in Hr;
      rewrite (cursor_byte _ _ _ _ Hr); apply cursor_cons in Hr; cbn.
    + destruct (codec_fwd (Codec := f64_codec) al _ _ _ _ Hal Hr Hv) as (c' & -> & Hr'). by exists c'.
    + by exists (c + 1).
  - intros al buf c l v c' Hr Hd. unfold decode_opt_f64 in Hd.
    destruct (byte_at buf c) as [b|] eqn:Hb; [|done].
    destruct (cursor_byte_inv _ _ _ _ Hr Hb) as (l' & -> & Hr').
    destruct (Z.eqb_spec b 0) as [->|]; [injection Hd as <- <-; by exists l'|].
    destruct (Z.eqb_spec b 1) as [->|]; [|done].
    apply bind_ok in Hd as ([x c1] & Hx & Hd). injection Hd as <- <-.
    destruct (codec_inv (Codec := f64_codec) al _ _ _ _ _ Hr' Hx) as (rest & -> & Hok & Hr2).
    by exists rest.
Qed.

#[export] Instance len_codec : Codec (λ _, decode_len) (λ v, encode_varint v []) in_u64.
Proof.
  split.
  - intros al buf c v rest Hal Hr Hv. unfold decode_len.
    destruct (codec_fwd (Codec := varint_codec) al _ _ _ _ Hal Hr Hv) as (c' & -> & Hr'). exists c'.
    cbn [mbind result_bind]. by rewrite try_u64_fits.
  - intros al buf c l v c' Hr Hd. unfold decode_len in Hd. apply bind_ok in Hd as ([x c1] & Hx & Hd).
    destruct (codec_inv (Codec := varint_codec) al _ _ _ _ _ Hr Hx) as (rest & -> & Hok & Hr2).
    rewrite try_u64_fits in Hd by done. cbn in Hd. injection Hd as <- <-. by exists rest.
Qed.

Lemma try_i32_Some z n : try_i32 z = Some n ↔ n = z ∧ in_i32 z.
Proof.
  unfold try_i32, in_i32.
  destruct (Z.leb_spec (-2147483648) z), (Z.leb_spec z 2147483647); simpl; naive_solver lia.
Qed.

#[export] Instance i32_codec :
  Codec (λ _, decode_i32) (λ v, encode_varint (encode_zigzag_i64 v) []) in_i32.
Proof.
  assert (H64 : ∀ v, in_i32 v → in_i64 v) by (unfold in_i32, in_i64; lia).
  split.
  - intros al buf c v rest Hal Hr Hv. unfold decode_i32.
    destruct (codec_fwd (Codec := varint_codec) al _ _ _ _ Hal Hr) as (c' & -> & Hr').
    { by apply encode_zigzag_in_u64, H64. }
    exists c'. cbn [mbind result_bind]. rewrite decode_zigzag_encode by auto.
    by rewrite (proj2 (try_i32_Some v v)).
  - intros al buf c l v c' Hr Hd. unfold decode_i32 in Hd. apply bind_ok in Hd as ([x c1] & Hx & Hd).
    destruct (codec_inv (Codec := varint_codec) al _ _ _ _ _ Hr Hx) as (rest & -> & Hok & Hr2).
    destruct (try_i32 (decode_zigzag_i64 x)) as [n|] eqn:Hn; [|done]. cbn in Hd. injection Hd as <- <-.
    apply try_i32_Some in Hn as [-> Hi]. exists rest.
    rewrite encode_zigzag_decode by done. done.
Qed.

#[export] Instance items_codec {A} (dec : decoder A) enc ok (n : nat) :
  Codec dec enc ok →
  Codec (λ al, decode_items (dec al) n) (λ l, mjoin (enc <$> l)) (λ l, length l = n ∧ Forall ok l).
Proof.
  intros Hc. split.
  - intros al buf c l rest Hal. revert n c. induction l as [|a l IH]; intros n c Hr [<- Hok].
    { by exists c. }
    apply Forall_cons_1 in Hok as [Ha Hok]. cbn [fmap list_fmap mjoin list_join] in Hr.
    rewrite <- app_assoc in Hr.
    destruct (codec_fwd _ _ _ _ _ Hal Hr Ha) as (c1 & Hd & Hr1).
    destruct (IH (length l) c1 Hr1 (conj eq_refl Hok)) as (c2 & Hds & Hr2).
    exists c2. cbn [length decode_items]. rewrite Hd. cbn [mbind result_bind]. by rewrite Hds.
  - intros al buf c l0 l c'. revert c l0 l. induction n as [|n IH]; intros c l0 l Hr Hd; cbn [decode_items] in Hd.
    { injection Hd as <- <-. by exists l0. }
    apply bind_ok in Hd as ([a c1] & Ha & Hd). apply bind_ok in Hd as ([l1 c2] & Hl & Hd). injection Hd as <- <-.
    destruct (codec_inv _ _ _ _ _ _ Hr Ha) as (r1 & -> & Hok & Hr1).
    destruct (IH _ _ _ Hr1 Hl) as (r2 & -> & [Hlen Hoks] & Hr2).
    exists r2. split_and!; [|by simpl; rewrite Hlen|by constructor|done].
    by cbn [fmap list_fmap mjoin list_join]; rewrite <- app_assoc.
Qed.

Lemma encode_items_out {A} (item : A → list Z → list Z) enc l : ∀ out,
  (∀ a out, item a out = out ++ enc a) → encode_items item l out = out ++ mjoin (enc <$> l).
Proof.
  induction l as [|a l IH]; intros out H; [by rewrite app_nil_r|].
  change (encode_items item (a :: l) out) with (encode_items item l (item a out)).
  rewrite IH, H by done. by rewrite <- app_assoc.
Qed.
