(* ===== verification/VarLen.v ===== *)
(** * Length-prefixed values

    [chronoxide-core/src/storage/encoding/varlen.rs]: the [VarLenEncoding]
    trait, what its implementations promise ([VarLenLaws]), and the block codec
    built on the promise. *)
From S2P Require Import Prelude Varint Cursor.

(** An encoder appends to the vector it is given; on failure what it appended
    so far stays there. *)
Class VarLenEncoding (T : Type) := {
  encode_into : T → list Z → io_result unit * list Z;
  decode_from : allocator → list Z → io_result T;
}.

(** [vl_repr]: the fields are machine integers; [vl_valid]: the value is one
    the encoder takes; [vl_bytes]: its encoding. *)
Class VarLenLaws (T : Type) `{VarLenEncoding T} := {
  vl_repr : T → Prop;
  vl_valid : T → Prop;
  vl_bytes : T → list Z;
  vl_encode v out : vl_valid v → encode_into v out = (Ok tt, out ++ vl_bytes v);
  vl_encode_inv v out out' :
    vl_repr v → encode_into v out = (Ok tt, out') → vl_valid v ∧ out' = out ++ vl_bytes v;
  vl_bytes_ok v : vl_valid v → bytes (vl_bytes v);
  vl_decode al v :
    grants al → vl_valid v → vec_ok (vl_bytes v) → decode_from al (vl_bytes v) = Ok v;
  vl_decode_inv al buf v :
    bytes buf → vec_ok buf → decode_from al buf = Ok v → vl_valid v ∧ buf = vl_bytes v;
}.

Record VarLenCodec := mk_varlen {
  vc_values : list Z;
  vc_scratch : list Z;
}.

Module VarLen.
Section varlen.
Context {T : Type} `{VarLenEncoding T}.

Definition encode_value (c : VarLenCodec) (value : T) : io_result unit * VarLenCodec :=
  match encode_into value [] with
  | (Err e, scratch) => (Err e, mk_varlen (vc_values c) scratch)
  | (Ok _, scratch) =>
      let values := encode_varint (zlen scratch) (vc_values c) in
      (Ok tt, mk_varlen (values ++ scratch) scratch)
  end.

Definition new (first : T) : io_result VarLenCodec :=
  match encode_value (mk_varlen [] []) first with
  | (Err e, _) => Err e
  | (Ok _, codec) => Ok codec
  end.

Definition push : VarLenCodec → T → io_result unit * VarLenCodec := encode_value.
Definition encoded_len_bytes (c : VarLenCodec) : Z := zlen (vc_values c).
Definition snapshot_bytes (c : VarLenCodec) : list Z := vc_values c.
Definition into_bytes (c : VarLenCodec) : list Z := vc_values c.

(** One turn of the loop of [decode_values]. *)
Definition decode_value (al : allocator) (buf : list Z) (cursor : Z) : io_result (T * Z) :=
  '(len, cursor) ← decode_varint buf cursor;
  len_usize ← ok_or (io_err InvalidData "value length overflow") (try_u64 len);
  if zlen buf <? saturating_add_u64 cursor len_usize then
    fail UnexpectedEof "value buffer truncated"
  else
    let value_buf := slice buf cursor (cursor + len_usize) in
    let cursor := saturating_add_u64 cursor len_usize in
    value ← decode_from al value_buf;
    Ok (value, cursor).

Definition decode_values (al : allocator) (buf : list Z) (count : Z) : io_result (list T) :=
  '(values, cursor) ← decode_items (decode_value al) (Z.to_nat count) buf 0;
  if negb (cursor =? zlen buf) then fail InvalidData "value buffer has trailing bytes"
  else Ok values.
End varlen.
End VarLen.

(** ** Specification *)

Section laws.
Context {T : Type} `{VarLenLaws T}.
Implicit Types (v : T) (vs : list T).

Definition frame v : list Z := encode_varint (zlen (vl_bytes v)) [] ++ vl_bytes v.
Definition frames vs : list Z := mjoin (frame <$> vs).

(** Values whose encoding fits a vector. *)
Definition vl_ok v : Prop := vl_valid v ∧ vec_ok (vl_bytes v).

Lemma frame_len v : vl_ok v → in_u64 (zlen (vl_bytes v)).
Proof. intros [_ Hv]. pose proof (zlen_nonneg (vl_bytes v)). unfold in_u64. lia. Qed.

#[local] Instance frame_codec : Codec VarLen.decode_value frame vl_ok.
Proof.
  split.
  - intros al buf c v rest Hal Hr Hv. unfold frame in Hr. rewrite <- app_assoc in Hr.
    unfold VarLen.decode_value.
    destruct (codec_fwd (Codec := varint_codec) al _ _ _ _ Hal Hr (frame_len v Hv)) as (c1 & -> & Hr1).
    cbn [mbind result_bind]. rewrite try_u64_fits by by apply frame_len. cbn [ok_or mbind result_bind].
    pose proof (cursor_zlen _ _ _ Hr1) as Hz. rewrite zlen_app in Hz. pose proof (zlen_nonneg rest).
    pose proof Hr1 as (_ & Hvec & Hc1 & _). pose proof (zlen_nonneg (vl_bytes v)).
    unfold saturating_add_u64. rewrite (proj2 (Z.ltb_ge _ _)) by lia.
    rewrite (cursor_slice _ _ _ _ _ Hr1 eq_refl).
    rewrite vl_decode by (done || apply Hv). exists (c1 + zlen (vl_bytes v)).
    rewrite Z.min_l by lia. split; [done|]. by apply cursor_step.
  - intros al buf c l v c' Hr Hd. unfold VarLen.decode_value in Hd.
    apply bind_ok in Hd as ([len c1] & Hlen & Hd).
    destruct (codec_inv (Codec := varint_codec) al _ _ _ _ _ Hr Hlen) as (r1 & -> & Hu & Hr1).
    rewrite try_u64_fits in Hd by done. cbn [ok_or mbind result_bind] in Hd.
    destruct (Z.ltb_spec (zlen buf) (saturating_add_u64 c1 len)) as [|Hle]; [done|].
    pose proof Hr1 as (Hb & Hvec & Hc1 & _).
    unfold saturating_add_u64 in *. unfold in_u64 in Hu.
    destruct (cursor_take _ _ _ (c1 + len) Hr1 ltac:(lia)) as (rest & -> & Hz & Hbs & Hr2).
    destruct (decode_from al (slice buf c1 (c1 + len))) as [v'|] eqn:Hv; [|done]. cbn in Hd.
    injection Hd as -> <-. apply vl_decode_inv in Hv as [Hok Heq]; [|done|lia].
    rewrite Heq in Hz |- *. exists rest. split_and!; [|split; [done|lia]|by rewrite Z.min_l by lia].
    unfold frame. rewrite <- app_assoc. by replace len with (zlen (vl_bytes v)) by lia.
Qed.

Lemma bytes_frame v : vl_ok v → bytes (frame v).
Proof.
  intros Hv. apply Forall_app. split; [apply bytes_encode_varint; by apply frame_len|].
  apply vl_bytes_ok, Hv.
Qed.

Lemma bytes_frames vs : Forall vl_ok vs → bytes (frames vs).
Proof.
  induction 1 as [|v vs Hv Hvs IH]; [constructor|]. apply Forall_app. split; [by apply bytes_frame|done].
Qed.

(** A push either appends a frame or leaves the encoded values alone. *)
Lemma varlen_push_spec c v :
  vl_repr v →
  match VarLen.push c v with
  | (Ok _, c') => vl_valid v ∧ vc_values c' = vc_values c ++ frame v
  | (Err _, c') => vc_values c' = vc_values c ∧ ¬ vl_valid v
  end.
Proof.
  intros Hv. unfold VarLen.push, VarLen.encode_value.
  destruct (encode_into v []) as [[[]|e] scratch] eqn:He.
  - destruct (vl_encode_inv _ _ _ Hv He) as [Hok Heq]. cbn [app] in Heq. subst scratch. split; [done|]. cbn [vc_values].
    unfold frame. by rewrite encode_varint_out, <- app_assoc.
  - split; [done|]. intros Hok. by rewrite vl_encode in He.
Qed.

(** Any sequence of pushes, failures included: the values accepted. *)
Fixpoint pushes (c : VarLenCodec) vs : list T * VarLenCodec :=
  match vs with
  | [] => ([], c)
  | v :: vs =>
      match VarLen.push c v with
      | (Ok _, c) => let '(accepted, c) := pushes c vs in (v :: accepted, c)
      | (Err _, c) => pushes c vs
      end
  end.

Lemma pushes_spec vs : ∀ c accepted c',
  Forall vl_repr vs → pushes c vs = (accepted, c') →
  Forall vl_valid accepted ∧ vc_values c' = vc_values c ++ frames accepted.
Proof.
  induction vs as [|v vs IH]; intros c accepted c' Hvs Hp; cbn [pushes] in Hp.
  { injection Hp as <- <-. cbn. by rewrite app_nil_r. }
  apply Forall_cons_1 in Hvs as [Hv Hvs]. pose proof (varlen_push_spec c v Hv) as Hs.
  destruct (VarLen.push c v) as [[[]|e] c1].
  - destruct (pushes c1 vs) as [acc c2] eqn:Hp'. injection Hp as <- <-.
    destruct (IH _ _ _ Hvs Hp') as [Hacc ->]. destruct Hs as [Hval ->]. split; [by constructor|].
    by rewrite <- app_assoc.
  - destruct (IH _ _ _ Hvs Hp) as [Hacc ->]. by destruct Hs as [-> _].
Qed.

Lemma pushes_valid vs : ∀ c,
  Forall vl_valid vs → ∃ c', pushes c vs = (vs, c') ∧ vc_values c' = vc_values c ++ frames vs.
Proof.
  induction vs as [|v vs IH]; intros c Hvs; [exists c; by rewrite app_nil_r|].
  apply Forall_cons_1 in Hvs as [Hv Hvs]. cbn [pushes]. unfold VarLen.push, VarLen.encode_value.
  rewrite vl_encode by done. destruct (IH (mk_varlen (encode_varint (zlen ([] ++ vl_bytes v)) (vc_values c)
    ++ [] ++ vl_bytes v) ([] ++ vl_bytes v)) Hvs) as (c' & -> & Hc').
  exists c'. split; [done|]. rewrite Hc'. cbn [vc_values app]. rewrite encode_varint_out.
  unfold frames. rewrite join_fmap_cons. unfold frame at 2. by rewrite <- !app_assoc.
Qed.

(** The decoder reads frames back, and only frames. *)
Lemma decode_values_frames al vs :
  grants al → Forall vl_ok vs → vec_ok (frames vs) →
  VarLen.decode_values al (frames vs) (zlen vs) = Ok vs.
Proof.
  intros Hal Hvs Hsz. unfold VarLen.decode_values.
  replace (Z.to_nat (zlen vs)) with (length vs) by (unfold zlen; lia).
  pose proof (cursor_start _ (bytes_frames _ Hvs) Hsz) as Hr. rewrite <- (app_nil_r (frames vs)) in Hr at 2.
  destruct (codec_fwd (Codec := items_codec _ _ _ (length vs) frame_codec) al _ _ _ _ Hal Hr
    (conj eq_refl Hvs)) as (c & -> & Hend).
  cbn [mbind result_bind]. pose proof (cursor_zlen _ _ _ Hend) as Hz. rewrite zlen_nil in Hz.
  by rewrite (proj2 (Z.eqb_eq _ _)) by lia.
Qed.

Lemma decode_values_inv al buf count vs :
  bytes buf → vec_ok buf → 0 ≤ count → VarLen.decode_values al buf count = Ok vs →
  buf = frames vs ∧ zlen vs = count ∧ Forall vl_ok vs.
Proof.
  intros Hb Hsz Hc Hd. unfold VarLen.decode_values in Hd.
  apply bind_ok in Hd as ([vs' c] & Hi & Hd). destruct (Z.eqb_spec c (zlen buf)) as [->|]; [|done].
  cbn in Hd. injection Hd as ->.
  destruct (codec_inv (Codec := items_codec _ _ _ (Z.to_nat count) frame_codec) al _ _ _ _ _
    (cursor_start _ Hb Hsz) Hi) as (rest & -> & [Hlen Hok] & Hend).
  apply cursor_zlen in Hend. rewrite Z.sub_diag in Hend. apply zlen_0 in Hend as ->.
  rewrite app_nil_r. split_and!; [done|unfold zlen; lia|done].
Qed.

(** Frames that fit a vector hold values that do. *)
Lemma frames_fit vs : Forall vl_valid vs → vec_ok (frames vs) → Forall vl_ok vs.
Proof.
  induction 1 as [|v vs Hv Hvs IH]; intros Hsz; [constructor|].
  unfold frames in Hsz. rewrite join_fmap_cons, zlen_app in Hsz. unfold frame in Hsz at 1.
  rewrite zlen_app in Hsz. pose proof (zlen_nonneg (encode_varint (zlen (vl_bytes v)) [])).
  pose proof (zlen_nonneg (mjoin (frame <$> vs))). pose proof (zlen_nonneg (vl_bytes v)).
  constructor; [split; [done|lia]|]. apply IH. unfold frames. lia.
Qed.

Definition empty_varlen : VarLenCodec := mk_varlen [] [].

(** The length-prefixed block refines a list of values: after any pushes,
    failed ones included, the snapshot decodes to the accepted values, and they
    are the valid ones. *)
Theorem varlen_block_refines_list vs accepted c al :
  Forall vl_repr vs → pushes empty_varlen vs = (accepted, c) →
  grants al → vec_ok (VarLen.snapshot_bytes c) →
  VarLen.decode_values al (VarLen.snapshot_bytes c) (zlen accepted) = Ok accepted ∧ Forall vl_valid accepted.
Proof.
  intros Hvs Hp Hal Hsz. destruct (pushes_spec _ _ _ _ Hvs Hp) as [Hacc Hc]. cbn in Hc.
  unfold VarLen.snapshot_bytes in *. rewrite Hc in *. split; [|done].
  apply decode_values_frames; [done| |done]. by apply frames_fit.
Qed.

(** A length-prefixed block decodes only if it is the encoding of the
    values it decodes to. *)
Theorem varlen_block_canonical al buf count vs :
  bytes buf → vec_ok buf → 0 ≤ count → VarLen.decode_values al buf count = Ok vs →
  zlen vs = count ∧ ∃ c, pushes empty_varlen vs = (vs, c) ∧ VarLen.snapshot_bytes c = buf.
Proof.
  intros Hb Hsz Hc Hd. destruct (decode_values_inv _ _ _ _ Hb Hsz Hc Hd) as (-> & Hn & Hok).
  split; [done|]. destruct (pushes_valid vs empty_varlen) as (c & Hp & Hv).
  - eapply Forall_impl; [exact Hok|]. by intros v [].
  - by exists c.
Qed.
End laws.
