(* ===== verification/SchemaVarLen.v ===== *)
(** * Schema-tagged values

    [chronoxide-core/src/storage/encoding/schema_varlen.rs]: values that share
    a shape (bucket bounds, scale, quantiles) are stored with the index of the
    shape in a table written once at the front of the block.  The trait is a
    class, what its implementations promise is [SchemaVarLenLaws]. *)
From S2P Require Import Prelude Varint Cursor.

Class SchemaVarLenEncoding (T : Type) := {
  Schema : Type;
  encode_schema_from_value : T → list Z → io_result unit * list Z;
  decode_schema : decoder Schema;
  encode_value_with_schema : T → Schema → list Z → io_result unit * list Z;
  decode_value_with_schema : Schema → decoder T;
}.

(** [sv_repr]: machine integers; [sv_ok]: a value the encoder takes;
    [sv_schema]: its shape.  Schemas and values have exact codecs. *)
Class SchemaVarLenLaws (T : Type) `{SchemaVarLenEncoding T} := {
  sv_repr : T → Prop;
  sv_ok : T → Prop;
  sv_schema : T → Schema;
  schema_ok : Schema → Prop;
  schema_enc : Schema → list Z;
  value_enc : T → list Z;
  schema_codec :: Codec decode_schema schema_enc schema_ok;
  value_codec s :: schema_ok s →
    Codec (decode_value_with_schema s) value_enc (λ v, sv_ok v ∧ sv_schema v = s);
  schema_enc_bytes s : schema_ok s → bytes (schema_enc s);
  sv_ok_repr v : sv_ok v → sv_repr v;
  value_enc_bytes v : sv_ok v → bytes (value_enc v);
  sv_schema_ok v : sv_ok v → schema_ok (sv_schema v);
  encode_schema_ok v out :
    sv_ok v → encode_schema_from_value v out = (Ok tt, out ++ schema_enc (sv_schema v));
  encode_value_ok v out :
    sv_ok v → encode_value_with_schema v (sv_schema v) out = (Ok tt, out ++ value_enc v);
  encode_schema_inv v out out' :
    sv_repr v → encode_schema_from_value v out = (Ok tt, out') →
    schema_ok (sv_schema v) ∧ out' = out ++ schema_enc (sv_schema v);
  encode_value_inv v out out' :
    sv_repr v → schema_ok (sv_schema v) →
    encode_value_with_schema v (sv_schema v) out = (Ok tt, out') →
    sv_ok v ∧ out' = out ++ value_enc v;
}.

Record SchemaVarLenCodec (S : Type) := mk_schema_codec {
  sc_schema_bytes : list (list Z);
  sc_schemas : list S;
  sc_schema_index : gmap (list Z) Z;
  sc_schema_scratch : list Z;
  sc_value_scratch : list Z;
  sc_last_schema_id : option Z;
  sc_values : list Z;
}.
Arguments mk_schema_codec {S}.
Arguments sc_schema_bytes {S}.
Arguments sc_schemas {S}.
Arguments sc_schema_index {S}.
Arguments sc_schema_scratch {S}.
Arguments sc_value_scratch {S}.
Arguments sc_last_schema_id {S}.
Arguments sc_values {S}.

Definition try_clone_bytes (al : allocator) (b : list Z) (field : string) : io_result (list Z) :=
  _ ← try_reserve al field (field +:+ " allocation failed: ") (zlen b);
  Ok b.

Definition ensure_minimum_encoded_items (available_bytes item_count minimum_bytes_per_item : Z)
    (field : string) : io_result unit :=
  minimum_bytes ← ok_or (io_err InvalidData (field +:+ " minimum encoded size overflows"))
    (checked_mul_u64 item_count minimum_bytes_per_item);
  if available_bytes <? minimum_bytes then
    fail InvalidData (field +:+ " count is infeasible for the remaining encoded bytes")
  else Ok tt.

Definition try_vec_with_capacity (al : allocator) (count : Z) (field : string) : io_result unit :=
  try_reserve al field (field +:+ " allocation failed: ") count.

Module SchemaVarLen.
Section schema_varlen.
Context {T : Type} `{SchemaVarLenEncoding T}.
Abbreviation codec := (SchemaVarLenCodec Schema).

(** The id of a schema already in the table: the last one used, or the index. *)
Definition existing_schema_id (c : codec) (schema_scratch : list Z) : option Z :=
  match sc_last_schema_id c with
  | Some last_id =>
      match sc_schema_bytes c !! Z.to_nat last_id with
      | Some b => if decide (b = schema_scratch) then Some last_id
                  else sc_schema_index c !! schema_scratch
      | None => sc_schema_index c !! schema_scratch
      end
  | None => sc_schema_index c !! schema_scratch
  end.

(** The schema id to write and, for a shape seen for the first time, the schema
    to add to the table. *)
Definition choose_schema (al : allocator) (c : codec) (schema_scratch : list Z)
    : io_result (Z * option Schema) :=
  match existing_schema_id c schema_scratch with
  | Some schema_id => Ok (schema_id, None)
  | None =>
      schema_id ← ok_or (io_err InvalidInput "schema id overflow") (try_u32 (zlen (sc_schemas c)));
      '(schema, cursor) ← decode_schema al schema_scratch 0;
      if negb (cursor =? zlen schema_scratch) then
        fail InvalidData "schema buffer has trailing bytes"
      else Ok (schema_id, Some schema)
  end.

(** The reservations that precede the commit of an encoded value. *)
Definition reserve_value (al : allocator) (schema_id : Z) (schema_scratch value_scratch : list Z)
    (pending_schema : option Schema) : io_result unit :=
  value_append_len ← ok_or (io_err InvalidInput "encoded value length overflows")
    (checked_add_u64 (varint_len schema_id) (zlen value_scratch));
  _ ← try_reserve al "encoded value" "encoded value allocation failed: " value_append_len;
  match pending_schema with
  | None => Ok tt
  | Some _ =>
      _ ← try_reserve al "schema value" "schema value allocation failed: " 1;
      _ ← try_reserve al "schema byte table vec" "schema byte table allocation failed: " 1;
      _ ← try_reserve al "schema index map" "schema index allocation failed: " 1;
      _ ← try_clone_bytes al schema_scratch "schema byte table";
      _ ← try_clone_bytes al schema_scratch "schema index key";
      Ok tt
  end.

Definition encode_value (al : allocator) (c : codec) (value : T) : io_result unit * codec :=
  let with_scratch schema_scratch value_scratch :=
    mk_schema_codec (sc_schema_bytes c) (sc_schemas c) (sc_schema_index c)
      schema_scratch value_scratch (sc_last_schema_id c) (sc_values c) in
  match encode_schema_from_value value [] with
  | (Err e, schema_scratch) => (Err e, with_scratch schema_scratch (sc_value_scratch c))
  | (Ok _, schema_scratch) =>
      match choose_schema al c schema_scratch with
      | Err e => (Err e, with_scratch schema_scratch (sc_value_scratch c))
      | Ok (schema_id, pending_schema) =>
          match (match pending_schema with
                 | Some schema => Some schema
                 | None => sc_schemas c !! Z.to_nat schema_id
                 end) with
          | None => (fail InvalidData "schema id out of range", with_scratch schema_scratch [])
          | Some schema =>
              match encode_value_with_schema value schema [] with
              | (Err e, value_scratch) => (Err e, with_scratch schema_scratch value_scratch)
              | (Ok _, value_scratch) =>
                  match reserve_value al schema_id schema_scratch value_scratch pending_schema with
                  | Err e => (Err e, with_scratch schema_scratch value_scratch)
                  | Ok _ =>
                      let values := encode_varint schema_id (sc_values c) ++ value_scratch in
                      (Ok tt,
                       match pending_schema with
                       | Some schema =>
                           mk_schema_codec (sc_schema_bytes c ++ [schema_scratch])
                             (sc_schemas c ++ [schema])
                             (<[schema_scratch := schema_id]> (sc_schema_index c))
                             schema_scratch value_scratch (Some schema_id) values
                       | None =>
                           mk_schema_codec (sc_schema_bytes c) (sc_schemas c) (sc_schema_index c)
                             schema_scratch value_scratch (Some schema_id) values
                       end)
                  end
              end
          end
      end
  end.

Definition write_schema_header (schema_bytes : list (list Z)) (out : list Z) : list Z :=
  let out := encode_varint (zlen schema_bytes) out in
  foldl (λ out schema, encode_varint (zlen schema) out ++ schema) out schema_bytes.

Definition schema_header_len (schema_bytes : list (list Z)) : Z :=
  foldl (λ len schema,
           saturating_add_u64 (saturating_add_u64 len (varint_len (zlen schema))) (zlen schema))
    (varint_len (zlen schema_bytes)) schema_bytes.

Definition new (al : allocator) (first : T) : io_result codec :=
  match encode_value al (mk_schema_codec [] [] ∅ [] [] None []) first with
  | (Err e, _) => Err e
  | (Ok _, codec) => Ok codec
  end.

Definition push : allocator → codec → T → io_result unit * codec := encode_value.

Definition encoded_len_bytes (c : codec) : Z :=
  saturating_add_u64 (schema_header_len (sc_schema_bytes c)) (zlen (sc_values c)).
Definition snapshot_bytes (c : codec) : list Z :=
  write_schema_header (sc_schema_bytes c) [] ++ sc_values c.
Definition into_bytes (c : codec) : list Z :=
  write_schema_header (sc_schema_bytes c) [] ++ sc_values c.

(** *** Decoder *)

Fixpoint decode_schemas (al : allocator) (n : nat) (encoded_schemas : gset (list Z)) (buf : list Z)
    (cursor : Z) : io_result (list Schema * Z) :=
  match n with
  | O => Ok ([], cursor)
  | S n =>
      '(len, cursor) ← decode_varint buf cursor;
      len_usize ← ok_or (io_err InvalidData "schema length overflow") (try_u64 len);
      schema_end ← ok_or (io_err InvalidData "schema range overflows")
        (checked_add_u64 cursor len_usize);
      if zlen buf <? schema_end then fail UnexpectedEof "schema buffer truncated"
      else
        let schema_buf := slice buf cursor schema_end in
        if decide (schema_buf ∈ encoded_schemas) then
          fail InvalidData "duplicate schema definition is noncanonical"
        else
          '(schema, schema_cursor) ← decode_schema al schema_buf 0;
          if negb (schema_cursor =? zlen schema_buf) then
            fail InvalidData "schema buffer has trailing bytes"
          else
            '(schemas, cursor) ←
              decode_schemas al n ({[schema_buf]} ∪ encoded_schemas) buf schema_end;
            Ok (schema :: schemas, cursor)
  end.

Fixpoint decode_tagged (al : allocator) (n : nat) (schemas : list Schema) (next_first_seen_schema : Z)
    (buf : list Z) (cursor : Z) : io_result (list T * Z * Z) :=
  match n with
  | O => Ok ([], next_first_seen_schema, cursor)
  | S n =>
      '(schema_id, cursor) ← decode_varint buf cursor;
      schema_idx ← ok_or (io_err InvalidData "schema id overflow") (try_u64 schema_id);
      schema ← ok_or (io_err InvalidData "schema id out of range") (schemas !! Z.to_nat schema_idx);
      if next_first_seen_schema <? schema_idx then
        fail InvalidData "schema IDs are not in deterministic first-seen order"
      else
        next_first_seen_schema ←
          (if schema_idx =? next_first_seen_schema then
             ok_or (io_err InvalidData "schema first-use count overflows")
               (checked_add_u64 next_first_seen_schema 1)
           else Ok next_first_seen_schema);
        '(value, cursor) ← decode_value_with_schema schema al buf cursor;
        '(values, next_first_seen_schema, cursor) ←
          decode_tagged al n schemas next_first_seen_schema buf cursor;
        Ok (value :: values, next_first_seen_schema, cursor)
  end.

Definition decode_values (al : allocator) (buf : list Z) (count : Z) : io_result (list T) :=
  '(schema_count, cursor) ← decode_varint buf 0;
  schema_count ← ok_or (io_err InvalidData "schema count overflow") (try_u64 schema_count);
  if ((count =? 0) && negb (schema_count =? 0))
     || (negb (count =? 0) && negb ((1 <=? schema_count) && (schema_count <=? count)))
  then fail InvalidData "schema count is inconsistent with the value count"
  else
    _ ← ensure_minimum_encoded_items (saturating_sub (zlen buf) cursor) schema_count 1 "schema headers";
    _ ← try_vec_with_capacity al schema_count "decoded schemas";
    _ ← try_reserve al "encoded schema set" "encoded schema set allocation failed: " schema_count;
    '(schemas, cursor) ← decode_schemas al (Z.to_nat schema_count) ∅ buf cursor;
    _ ← ensure_minimum_encoded_items (saturating_sub (zlen buf) cursor) count 1 "schema-tagged values";
    _ ← try_vec_with_capacity al count "decoded schema-tagged values";
    '(values, next_first_seen_schema, cursor) ←
      decode_tagged al (Z.to_nat count) schemas 0 buf cursor;
    if negb (next_first_seen_schema =? schema_count) then
      fail InvalidData "schema table contains an unused schema"
    else if negb (cursor =? zlen buf) then
      fail InvalidData "value buffer has trailing bytes"
    else Ok values.
End schema_varlen.
End SchemaVarLen.

(** ** Specification: tag each value with the index of its shape *)

(** The position of a schema in the table. *)
Definition index_of (b : list Z) (table : list (list Z)) : option nat :=
  fst <$> list_find (b =.) table.

Lemma index_of_Some b table i :
  NoDup table → index_of b table = Some i ↔ table !! i = Some b.
Proof.
  intros Hnd. unfold index_of. split.
  - intros ([j x] & Hf & Hj)%fmap_Some. cbn in Hj. subst j.
    apply list_find_Some in Hf as (? & -> & _). done.
  - intros Hi. destruct (list_find (b =.) table) as [[j x]|] eqn:Hf.
    + apply list_find_Some in Hf as (Hj & -> & _). cbn. f_equal. by eapply NoDup_lookup.
    + apply list_find_None in Hf. rewrite list.Forall_forall in Hf. exfalso.
      apply (Hf b); [by eapply list_elem_of_lookup_2|done].
Qed.

Lemma index_of_None b table : index_of b table = None ↔ b ∉ table.
Proof.
  unfold index_of. rewrite fmap_None, list_find_None, list.Forall_forall. split.
  - intros H Hin. by apply (H b).
  - intros H x Hx ->. done.
Qed.

Lemma NoDup_take {A} n (l : list A) : NoDup l → NoDup (take n l).
Proof. intros Hl. rewrite <- (take_drop n l) in Hl. by apply list.NoDup_app in Hl as [? _]. Qed.

Section laws.
Context {T : Type} `{SchemaVarLenLaws T}.
Implicit Types (v : T) (vs : list T) (table : list (list Z)).

Definition shape v : list Z := schema_enc (sv_schema v).

Definition tag v table : nat * list (list Z) :=
  match index_of (shape v) table with
  | Some i => (i, table)
  | None => (length table, table ++ [shape v])
  end.

Fixpoint tagged table vs : list (list Z) * list Z :=
  match vs with
  | [] => (table, [])
  | v :: vs =>
      let '(id, table) := tag v table in
      let '(table, out) := tagged table vs in
      (table, encode_varint (Z.of_nat id) [] ++ value_enc v ++ out)
  end.

Definition schema_frame (b : list Z) : list Z := encode_varint (zlen b) [] ++ b.
Definition header table : list Z := encode_varint (zlen table) [] ++ mjoin (schema_frame <$> table).

(** The encoding of a block. *)
Definition block_bytes vs : list Z := header (tagged [] vs).1 ++ (tagged [] vs).2.

Lemma tagged_app vs ws table :
  tagged table (vs ++ ws) =
    ((tagged (tagged table vs).1 ws).1, (tagged table vs).2 ++ (tagged (tagged table vs).1 ws).2).
Proof.
  revert table. induction vs as [|v vs IH]; intros table.
  { cbn. by destruct (tagged table ws). }
  cbn [app tagged]. destruct (tag v table) as [id t]. rewrite IH. destruct (tagged t vs) as [t' o].
  cbn [fst snd]. by rewrite <- !app_assoc.
Qed.

Lemma tag_prefix v table : table `prefix_of` (tag v table).2.
Proof. unfold tag. destruct (index_of _ _); cbn; [done|by apply prefix_app_r]. Qed.

Lemma tagged_prefix vs table : table `prefix_of` (tagged table vs).1.
Proof.
  revert table. induction vs as [|v vs IH]; intros table; [done|]. cbn [tagged].
  pose proof (tag_prefix v table) as Hp. destruct (tag v table) as [id t]. specialize (IH t).
  destruct (tagged t vs) as [t' o]. cbn in *. by etrans.
Qed.

Lemma tag_nodup v table : NoDup table → NoDup (tag v table).2.
Proof.
  intros Hn. unfold tag. destruct (index_of _ _) eqn:Hi; cbn; [done|].
  apply index_of_None in Hi. apply list.NoDup_app. split_and!; [done| |apply NoDup_singleton].
  intros x Hx ->%list_elem_of_singleton. done.
Qed.

Lemma tagged_nodup vs table : NoDup table → NoDup (tagged table vs).1.
Proof.
  revert table. induction vs as [|v vs IH]; intros table Hn; [done|]. cbn [tagged].
  pose proof (tag_nodup v table Hn). destruct (tag v table) as [id t]. specialize (IH t).
  destruct (tagged t vs). cbn in *. auto.
Qed.

Lemma schema_enc_inj s1 s2 :
  schema_ok s1 → schema_ok s2 → vec_ok (schema_enc s1) → schema_enc s1 = schema_enc s2 → s1 = s2.
Proof.
  intros H1 H2 Hv Heq. pose proof (cursor_start _ (schema_enc_bytes s1 H1) Hv) as Hr.
  assert (Hr1 : cursor_rep (schema_enc s1) 0 (schema_enc s1 ++ [])) by by rewrite app_nil_r.
  assert (Hr2 : cursor_rep (schema_enc s1) 0 (schema_enc s2 ++ [])) by by rewrite app_nil_r, <- Heq.
  destruct (codec_fwd alloc_ok _ _ _ _ (λ _ _, eq_refl) Hr1 H1) as (c1 & Hd1 & _).
  destruct (codec_fwd alloc_ok _ _ _ _ (λ _ _, eq_refl) Hr2 H2) as (c2 & Hd2 & _).
  rewrite Hd1 in Hd2. by injection Hd2.
Qed.

(** Reading a schema out of a buffer that holds just it. *)
Lemma decode_schema_whole al s :
  grants al → schema_ok s → vec_ok (schema_enc s) →
  decode_schema al (schema_enc s) 0 = Ok (s, zlen (schema_enc s)).
Proof.
  intros Hal Hs Hv. pose proof (cursor_start _ (schema_enc_bytes s Hs) Hv) as Hr.
  rewrite <- (app_nil_r (schema_enc s)) in Hr at 2.
  destruct (codec_fwd al _ _ _ _ Hal Hr Hs) as (c & -> & Hr').
  apply cursor_zlen in Hr'. rewrite zlen_nil in Hr'. do 2 f_equal. lia.
Qed.

Lemma decode_schema_whole_inv al b s :
  bytes b → vec_ok b → decode_schema al b 0 = Ok (s, zlen b) → b = schema_enc s ∧ schema_ok s.
Proof.
  intros Hb Hv Hd. destruct (codec_inv al _ _ _ _ _ (cursor_start _ Hb Hv) Hd) as (r & -> & Hs & Hr).
  apply cursor_zlen in Hr. rewrite Z.sub_diag in Hr. apply zlen_0 in Hr as ->. by rewrite app_nil_r.
Qed.

(** ** The encoder tags values *)

(** A value whose fields are machine integers and whose schema fits a vector. *)
Definition pushable v : Prop := sv_repr v ∧ vec_ok (shape v).

(** The codec holds exactly the values [vs]. *)
Definition codec_rep (c : SchemaVarLenCodec Schema) vs : Prop :=
  Forall (λ v, sv_ok v ∧ pushable v) vs ∧
  Forall schema_ok (sc_schemas c) ∧
  sc_schema_bytes c = schema_enc <$> sc_schemas c ∧
  Forall (λ b, vec_ok b) (sc_schema_bytes c) ∧
  tagged [] vs = (sc_schema_bytes c, sc_values c) ∧
  (∀ b, sc_schema_index c !! b = Z.of_nat <$> index_of b (sc_schema_bytes c)) ∧
  (∀ i, sc_last_schema_id c = Some i → 0 ≤ i).

Lemma codec_rep_nodup c vs : codec_rep c vs → NoDup (sc_schema_bytes c).
Proof.
  intros (_ & _ & _ & _ & Ht & _). change (sc_schema_bytes c) with (sc_schema_bytes c, sc_values c).1.
  rewrite <- Ht. apply tagged_nodup. constructor.
Qed.

Lemma existing_schema_id_rep c vs b :
  codec_rep c vs → SchemaVarLen.existing_schema_id c b = Z.of_nat <$> index_of b (sc_schema_bytes c).
Proof.
  intros Hc. pose proof (codec_rep_nodup _ _ Hc) as Hnd.
  destruct Hc as (_ & _ & _ & _ & _ & Hidx & Hlast). unfold SchemaVarLen.existing_schema_id.
  destruct (sc_last_schema_id c) as [i|] eqn:Hl; [|done]. specialize (Hlast i eq_refl).
  destruct (sc_schema_bytes c !! Z.to_nat i) as [b'|] eqn:Hb; [|done].
  destruct (decide (b' = b)) as [->|]; [|done].
  rewrite (proj2 (index_of_Some _ _ _ Hnd) Hb). cbn. f_equal. lia.
Qed.

Lemma schemas_lookup c vs v i :
  codec_rep c vs → schema_ok (sv_schema v) →
  index_of (shape v) (sc_schema_bytes c) = Some i → sc_schemas c !! i = Some (sv_schema v).
Proof.
  intros Hc Hs Hi. pose proof (codec_rep_nodup _ _ Hc) as Hnd.
  apply (index_of_Some _ _ _ Hnd) in Hi. destruct Hc as (_ & Hok & Hb & Hvec & _).
  pose proof (Forall_lookup_1 _ _ _ _ Hvec Hi) as Hv.
  rewrite Hb, list_lookup_fmap in Hi. destruct (sc_schemas c !! i) as [s|] eqn:Hsi; [|done].
  injection Hi as Heq. f_equal. apply schema_enc_inj; [|done|by rewrite Heq|done].
  by eapply Forall_lookup_1.
Qed.

(** The schema an encoder goes on with is the value's. *)
Lemma choose_schema_rep al c vs v id pending :
  codec_rep c vs → pushable v → schema_ok (sv_schema v) →
  SchemaVarLen.choose_schema al c (shape v) = Ok (id, pending) →
  id = Z.of_nat (tag v (sc_schema_bytes c)).1 ∧
  match pending with
  | Some s => s = sv_schema v ∧ index_of (shape v) (sc_schema_bytes c) = None
  | None => sc_schemas c !! Z.to_nat id = Some (sv_schema v) ∧
            index_of (shape v) (sc_schema_bytes c) = Some (Z.to_nat id)
  end.
Proof.
  intros Hc [_ Hv] Hs Hch. unfold SchemaVarLen.choose_schema in Hch. unfold tag.
  rewrite (existing_schema_id_rep _ _ _ Hc) in Hch.
  destruct (index_of (shape v) (sc_schema_bytes c)) as [i|] eqn:Hi; cbn [fmap option_fmap option_map] in Hch.
  - injection Hch as <- <-. rewrite Nat2Z.id. split_and!; [done| |done].
    by eapply schemas_lookup.
  - destruct (try_u32 _) as [n|] eqn:Hn; [|done]. cbn [ok_or mbind result_bind] in Hch.
    apply try_u32_Some in Hn as [-> _]. apply bind_ok in Hch as ([s cur] & Hd & Hch).
    destruct (Z.eqb_spec cur (zlen (shape v))) as [->|]; [|done]. cbn in Hch. injection Hch as <- <-.
    apply decode_schema_whole_inv in Hd as [Heq Hok]; [|by apply schema_enc_bytes|done].
    split_and!; [|by apply schema_enc_inj; rewrite <- ?Heq|done]. cbn [fst].
    destruct Hc as (_ & _ & -> & _). unfold zlen. by rewrite length_fmap.
Qed.

(** Choosing fails only for want of memory or of schema ids. *)
Lemma choose_schema_total al c vs v :
  codec_rep c vs → pushable v → schema_ok (sv_schema v) → grants al → zlen (sc_schemas c) ≤ u32_max →
  ∃ r, SchemaVarLen.choose_schema al c (shape v) = Ok r.
Proof.
  intros Hc [_ Hv] Hs Hal Hn. unfold SchemaVarLen.choose_schema.
  destruct (SchemaVarLen.existing_schema_id c (shape v)); [eauto|].
  pose proof (zlen_nonneg (sc_schemas c)).
  rewrite try_u32_fits by (unfold in_u32; lia). cbn [ok_or mbind result_bind].
  pose proof (decode_schema_whole al (sv_schema v) Hal Hs Hv) as Hd. fold (shape v) in Hd.
  rewrite Hd. cbn [mbind result_bind]. rewrite Z.eqb_refl. cbn. eauto.
Qed.

Lemma reserve_value_total al id b scratch p :
  in_u64 id → vec_ok scratch → grants al → SchemaVarLen.reserve_value al id b scratch p = Ok tt.
Proof.
  intros Hid Hv Hal. unfold SchemaVarLen.reserve_value. pose proof (varint_len_pos id Hid).
  rewrite checked_add_u64_fits by lia. cbn [ok_or mbind result_bind].
  unfold try_clone_bytes, try_reserve. rewrite !Hal. cbn. by destruct p.
Qed.

(** The state a successful push leaves represents one more value. *)
Lemma codec_rep_push c vs v scratch1 scratch2 :
  codec_rep c vs → pushable v → sv_ok v →
  let '(id, table) := tag v (sc_schema_bytes c) in
  codec_rep
    (mk_schema_codec table
       (sc_schemas c ++ match index_of (shape v) (sc_schema_bytes c) with
                        | None => [sv_schema v] | Some _ => [] end)
       (match index_of (shape v) (sc_schema_bytes c) with
        | None => <[shape v := Z.of_nat id]> (sc_schema_index c)
        | Some _ => sc_schema_index c end)
       scratch1 scratch2 (Some (Z.of_nat id))
       (encode_varint (Z.of_nat id) (sc_values c) ++ value_enc v)) (vs ++ [v]).
Proof.
  intros Hc Hp Hok. pose proof (codec_rep_nodup _ _ Hc) as Hnd.
  destruct Hc as (Hvs & Hss & Hb & Hvec & Ht & Hidx & Hlast).
  destruct (tag v (sc_schema_bytes c)) as [id table] eqn:Htag.
  assert (Htagged : tagged [] (vs ++ [v]) = (table, encode_varint (Z.of_nat id) (sc_values c) ++ value_enc v)).
  { rewrite tagged_app, Ht. cbn [fst snd tagged]. rewrite Htag. cbn [fst snd].
    by rewrite app_nil_r, (encode_varint_out _ (sc_values c)), <- app_assoc. }
  unfold tag in Htag. destruct (index_of (shape v) (sc_schema_bytes c)) as [i|] eqn:Hi;
    injection Htag as <- <-; rewrite ?app_nil_r; split_and!; cbn; try done.
  - by apply Forall_snoc.
  - intros j [= <-]. lia.
  - by apply Forall_snoc.
  - apply Forall_snoc; [done|]. by apply sv_schema_ok.
  - by rewrite Hb, fmap_app.
  - apply Forall_snoc; [done|]. apply Hp.
  - intros b. apply index_of_None in Hi.
    assert (Hnd' : NoDup (sc_schema_bytes c ++ [shape v])).
    { apply list.NoDup_app. split_and!; [done| |apply NoDup_singleton].
      intros x Hx ->%list_elem_of_singleton. done. }
    destruct (decide (b = shape v)) as [->|Hne].
    + rewrite lookup_insert_eq. symmetry. apply fmap_Some. eexists. split; [|done].
      apply index_of_Some; [done|]. by rewrite lookup_app_r, Nat.sub_diag.
    + rewrite lookup_insert_ne, Hidx by done. f_equal.
      destruct (index_of b (sc_schema_bytes c)) as [j|] eqn:Hj.
      * symmetry. apply index_of_Some; [done|]. apply lookup_app_l_Some. by apply index_of_Some in Hj.
      * symmetry. apply index_of_None. apply index_of_None in Hj.
        intros [?|?%list_elem_of_singleton]%elem_of_app; done.
  - intros j [= <-]. lia.
Qed.

(** Everything but the scratch buffers. *)
Definition contents (c : SchemaVarLenCodec Schema) :=
  (sc_schema_bytes c, sc_schemas c, sc_schema_index c, sc_last_schema_id c, sc_values c).

Lemma codec_rep_contents c c' vs : contents c' = contents c → codec_rep c vs → codec_rep c' vs.
Proof. intros [= H1 H2 H3 H4 H5] Hc. unfold codec_rep. by rewrite H1, H2, H3, H4, H5. Qed.

(** What the limits of the format and of memory ask of a push. *)
Definition push_fits (al : allocator) (c : SchemaVarLenCodec Schema) v : Prop :=
  grants al ∧ zlen (sc_schemas c) ≤ u32_max ∧ vec_ok (value_enc v).

Lemma codec_rep_id c vs v :
  codec_rep c vs → zlen (sc_schemas c) ≤ u32_max → in_u64 (Z.of_nat (tag v (sc_schema_bytes c)).1).
Proof.
  intros Hc Hn. unfold tag, in_u64.
  assert (Hl : zlen (sc_schema_bytes c) = zlen (sc_schemas c)).
  { destruct Hc as (_ & _ & -> & _). unfold zlen. by rewrite length_fmap. }
  destruct (index_of (shape v) (sc_schema_bytes c)) as [i|] eqn:Hi; cbn; unfold zlen in *; [|lia].
  apply (index_of_Some _ _ _ (codec_rep_nodup _ _ Hc)), lookup_lt_Some in Hi. lia.
Qed.

Lemma push_spec al c vs v :
  codec_rep c vs → pushable v →
  match SchemaVarLen.push al c v with
  | (Ok _, c') => sv_ok v ∧ codec_rep c' (vs ++ [v])
  | (Err _, c') => contents c' = contents c ∧ ¬ (sv_ok v ∧ push_fits al c v)
  end.
Proof.
  intros Hc Hp. unfold SchemaVarLen.push, SchemaVarLen.encode_value.
  destruct (encode_schema_from_value v []) as [[[]|e] sb] eqn:Hes; cycle 1.
  { split; [done|]. intros [Hok _]. by rewrite encode_schema_ok in Hes. }
  apply encode_schema_inv in Hes as [Hs ->]; [|apply Hp]. cbn [app]. fold (shape v).
  destruct (SchemaVarLen.choose_schema al c (shape v)) as [[id pending]|e] eqn:Hch; cycle 1.
  { split; [done|]. intros (Hok & Hal & Hn & _).
    destruct (choose_schema_total _ _ _ _ Hc Hp Hs Hal Hn) as [r Hr]. by rewrite Hr in Hch. }
  destruct (choose_schema_rep _ _ _ _ _ _ Hc Hp Hs Hch) as [-> Hpend]. clear Hch.
  set (found := match pending with Some schema => Some schema | None => _ end).
  assert (found = Some (sv_schema v)) as ->.
  { unfold found. destruct pending; [by destruct Hpend as [-> _]|by destruct Hpend]. }
  destruct (encode_value_with_schema v (sv_schema v) []) as [[[]|e] vb] eqn:Hev; cycle 1.
  { split; [done|]. intros [Hok _]. by rewrite encode_value_ok in Hev. }
  apply encode_value_inv in Hev as [Hok ->]; [|apply Hp|done]. cbn [app].
  destruct (SchemaVarLen.reserve_value _ _ _ _ _) as [[]|e] eqn:Hres; cycle 1.
  { split; [done|]. intros (_ & Hal & Hn & Hv).
    by rewrite reserve_value_total in Hres by (done || by eapply codec_rep_id). }
  split; [done|]. pose proof (codec_rep_push c vs v (shape v) (value_enc v) Hc Hp Hok) as Hrep.
  unfold tag in *.
  destruct pending as [s|]; destruct Hpend as [Hs1 Hs2]; rewrite Hs2 in Hrep |- *; cbn [fst] in *.
  - subst s. exact Hrep.
  - by rewrite app_nil_r in Hrep.
Qed.

Definition empty_codec : SchemaVarLenCodec Schema := mk_schema_codec [] [] ∅ [] [] None [].

Lemma codec_rep_empty : codec_rep empty_codec [].
Proof. split_and!; try done; try constructor. Qed.

(** Any sequence of pushes, each with its own allocator answers, failures
    included: the values accepted. *)
Fixpoint pushes (c : SchemaVarLenCodec Schema) (ops : list (allocator * T))
    : list T * SchemaVarLenCodec Schema :=
  match ops with
  | [] => ([], c)
  | (al, v) :: ops =>
      match SchemaVarLen.push al c v with
      | (Ok _, c) => let '(accepted, c) := pushes c ops in (v :: accepted, c)
      | (Err _, c) => pushes c ops
      end
  end.

Lemma pushes_rep ops : ∀ c vs accepted c',
  Forall (λ op, pushable op.2) ops → codec_rep c vs → pushes c ops = (accepted, c') →
  codec_rep c' (vs ++ accepted).
Proof.
  induction ops as [|[al v] ops IH]; intros c vs accepted c' Hops Hc Hp; cbn [pushes] in Hp.
  { injection Hp as <- <-. by rewrite app_nil_r. }
  apply Forall_cons_1 in Hops as [Hv Hops]. pose proof (push_spec al c vs v Hc Hv) as Hs.
  destruct (SchemaVarLen.push al c v) as [[[]|e] c1].
  - destruct (pushes c1 ops) as [acc c2] eqn:Hp'. injection Hp as <- <-.
    change (v :: acc) with ([v] ++ acc). rewrite (app_assoc vs [v] acc). by eapply IH; [done|apply Hs|].
  - eapply IH; [done| |done]. by eapply codec_rep_contents; [apply Hs|].
Qed.

(** The header and the snapshot. *)
Lemma write_schema_header_spec table : SchemaVarLen.write_schema_header table [] = header table.
Proof.
  unfold SchemaVarLen.write_schema_header, header. generalize (encode_varint (zlen table) []) as out.
  induction table as [|b table IH]; intros out; [by rewrite app_nil_r|]. cbn [foldl].
  rewrite IH, encode_varint_out. cbn [fmap list_fmap mjoin list_join]. unfold schema_frame.
  by rewrite <- !app_assoc.
Qed.

Lemma snapshot_spec c vs : codec_rep c vs → SchemaVarLen.snapshot_bytes c = block_bytes vs.
Proof.
  intros (_ & _ & _ & _ & Ht & _). unfold SchemaVarLen.snapshot_bytes, block_bytes.
  by rewrite write_schema_header_spec, Ht.
Qed.

(** ** The decoder accepts exactly the tagged blocks *)

Abbreviation schemas_ok ss := (Forall (λ s, schema_ok s ∧ vec_ok (schema_enc s)) ss).

Lemma bytes_schema_frames ss : schemas_ok ss → bytes (mjoin (schema_frame <$> (schema_enc <$> ss))).
Proof.
  induction 1 as [|s ss [Hs Hv] Hss IH]; [constructor|]. cbn [fmap list_fmap mjoin list_join].
  pose proof (zlen_nonneg (schema_enc s)).
  repeat apply Forall_app_2; [apply bytes_encode_varint; unfold in_u64; lia|by apply schema_enc_bytes|done].
Qed.

(** One schema definition. *)
Lemma decode_schemas_fwd al ss : ∀ buf seen c rest,
  grants al → schemas_ok ss → NoDup (schema_enc <$> ss) →
  (∀ s, s ∈ ss → schema_enc s ∉ seen) →
  cursor_rep buf c (mjoin (schema_frame <$> (schema_enc <$> ss)) ++ rest) →
  ∃ c', SchemaVarLen.decode_schemas al (length ss) seen buf c = Ok (ss, c') ∧ cursor_rep buf c' rest.
Proof.
  induction ss as [|s ss IH]; intros buf seen c rest Hal Hss Hnd Hseen Hr; [by exists c|].
  apply Forall_cons_1 in Hss as [[Hs Hv] Hss]. cbn [fmap list_fmap mjoin list_join] in Hr, Hnd.
  apply list.NoDup_cons in Hnd as [Hni Hnd]. unfold schema_frame at 1 in Hr. rewrite <- !app_assoc in Hr.
  pose proof (zlen_nonneg (schema_enc s)) as Hz.
  assert (Hu : in_u64 (zlen (schema_enc s))) by (unfold in_u64; lia).
  destruct (codec_fwd (Codec := varint_codec) al _ _ _ _ Hal Hr Hu) as (c1 & Hd & Hr1).
  cbn [length SchemaVarLen.decode_schemas]. rewrite Hd. cbn [mbind result_bind].
  rewrite try_u64_fits by done. cbn [ok_or mbind result_bind].
  pose proof (cursor_zlen _ _ _ Hr1) as Hlen. rewrite zlen_app in Hlen.
  pose proof Hr1 as (_ & Hvec & Hc1 & _).
  match type of Hlen with _ + zlen ?r = _ => pose proof (zlen_nonneg r) end.
  rewrite checked_add_u64_fits by lia. cbn [ok_or mbind result_bind].
  rewrite (proj2 (Z.ltb_ge _ _)) by lia. rewrite (cursor_slice _ _ _ _ _ Hr1 eq_refl).
  rewrite decide_False by (apply Hseen; by left).
  rewrite decode_schema_whole by done. cbn [mbind result_bind]. rewrite Z.eqb_refl. cbn [negb].
  apply cursor_step in Hr1.
  destruct (IH buf ({[schema_enc s]} ∪ seen) (c1 + zlen (schema_enc s)) rest Hal Hss Hnd) as (c2 & Hds & Hr2); [|exact Hr1|].
  { intros s' Hin. apply not_elem_of_union. split; [|apply Hseen; by right].
    intros Heq%elem_of_singleton. apply Hni. rewrite <- Heq. by apply list_elem_of_fmap_2. }
  rewrite Hds. cbn [mbind result_bind]. by exists c2.
Qed.

Lemma decode_schemas_inv al n : ∀ buf seen c l ss c',
  cursor_rep buf c l → SchemaVarLen.decode_schemas al n seen buf c = Ok (ss, c') →
  ∃ rest, l = mjoin (schema_frame <$> (schema_enc <$> ss)) ++ rest ∧ cursor_rep buf c' rest ∧
    length ss = n ∧ schemas_ok ss ∧ NoDup (schema_enc <$> ss) ∧ (∀ s, s ∈ ss → schema_enc s ∉ seen).
Proof.
  induction n as [|n IH]; intros buf seen c l ss c' Hr Hd; cbn [SchemaVarLen.decode_schemas] in Hd.
  { injection Hd as <- <-. exists l. split_and!; try done; try constructor. by intros s []%not_elem_of_nil. }
  apply bind_ok in Hd as ([len c1] & Hlen & Hd).
  destruct (codec_inv (Codec := varint_codec) al _ _ _ _ _ Hr Hlen) as (r1 & -> & Hu & Hr1).
  rewrite try_u64_fits in Hd by done. cbn [ok_or mbind result_bind] in Hd.
  destruct (checked_add_u64 c1 len) as [e|] eqn:He; [|done]. cbn [ok_or mbind result_bind] in Hd.
  apply checked_add_u64_Some in He as [-> _].
  destruct (Z.ltb_spec (zlen buf) (c1 + len)) as [|Hle]; [done|].
  pose proof Hr1 as (_ & Hvec & Hc1 & _). unfold in_u64 in Hu.
  destruct (cursor_take _ _ _ (c1 + len) Hr1 ltac:(lia)) as (r2 & -> & Hz & Hbs & Hr2).
  destruct (decide _) as [|Hnin] in Hd; [done|].
  apply bind_ok in Hd as ([s sc] & Hs & Hd).
  destruct (Z.eqb_spec sc (zlen (slice buf c1 (c1 + len)))) as [->|]; [|done]. cbn [negb] in Hd.
  apply decode_schema_whole_inv in Hs as [Heq Hok]; [|done|lia]. rewrite Heq in Hz, Hnin, Hd |- *.
  apply bind_ok in Hd as ([ss' c2] & Hds & Hd). injection Hd as <- <-.
  destruct (IH _ _ _ _ _ _ Hr2 Hds) as (rest & -> & Hr3 & Hlen' & Hss & Hnd & Hseen).
  exists rest. cbn [fmap list_fmap mjoin list_join length].
  split_and!; [|done|by rewrite Hlen'| | |].
  - unfold schema_frame at 2. rewrite <- !app_assoc. by replace len with (zlen (schema_enc s)) by lia.
  - constructor; [split; [done|lia]|done].
  - apply list.NoDup_cons. split; [|done]. intros (s' & Hs' & Hin)%list_elem_of_fmap.
    apply (Hseen s' Hin). rewrite <- Hs'. by apply elem_of_union_l, elem_of_singleton.
  - intros s' [->|Hin]%elem_of_cons; [done|]. intros Hs'. apply (Hseen s' Hin). by apply elem_of_union_r.
Qed.

(** First-seen order: the shapes met so far are a prefix of the table. *)
Definition seen_after (n i : nat) : nat := if decide (i = n) then S n else n.

Lemma tag_take_inv v table n i :
  NoDup table → table !! i = Some (shape v) → (i ≤ n)%nat →
  tag v (take n table) = (i, take (seen_after n i) table).
Proof.
  intros Hnd Hi Hle. pose proof (lookup_lt_Some _ _ _ Hi) as Hlt. unfold tag, seen_after.
  destruct (decide (i = n)) as [->|Hne].
  - assert (index_of (shape v) (take n table) = None) as ->.
    { apply index_of_None. intros (j & Hj)%list_elem_of_lookup_1.
      pose proof (lookup_lt_Some _ _ _ Hj) as Hjn. rewrite length_take in Hjn.
      rewrite lookup_take_lt in Hj by lia.
      pose proof (NoDup_lookup _ _ _ _ Hnd Hi Hj). lia. }
    f_equal; [rewrite length_take; lia|]. by rewrite (take_S_r _ _ _ Hi).
  - assert (index_of (shape v) (take n table) = Some i) as ->; [|done].
    apply index_of_Some; [by apply NoDup_take|]. by rewrite lookup_take_lt by lia.
Qed.

Lemma tag_take_fwd v table n i t :
  NoDup table → (n ≤ length table)%nat → tag v (take n table) = (i, t) → t `prefix_of` table →
  table !! i = Some (shape v) ∧ (i ≤ n)%nat.
Proof.
  intros Hnd Hn Ht Hp. unfold tag in Ht.
  destruct (index_of (shape v) (take n table)) as [j|] eqn:Hj; injection Ht as <- <-.
  - apply index_of_Some in Hj; [|by apply NoDup_take].
    pose proof (lookup_lt_Some _ _ _ Hj) as Hjn. rewrite length_take in Hjn.
    rewrite lookup_take_lt in Hj by lia. split; [done|lia].
  - rewrite length_take_le by done. split; [|done].
    eapply prefix_lookup_Some; [|done]. rewrite lookup_app_r; rewrite length_take_le by done; [|done].
    by rewrite Nat.sub_diag.
Qed.

Lemma seen_after_le n i m : (i < m)%nat → (i ≤ n)%nat → (n ≤ m)%nat → (seen_after n i ≤ m)%nat.
Proof. unfold seen_after. destruct (decide _); lia. Qed.

(** The decoder's update of its first-seen counter. *)
Lemma seen_after_Z n i A (k : Z → io_result A) :
  (i ≤ n)%nat → Z.of_nat n < u64_max →
  (next ← (if Z.of_nat i =? Z.of_nat n then
             ok_or (io_err InvalidData "schema first-use count overflows") (checked_add_u64 (Z.of_nat n) 1)
           else Ok (Z.of_nat n)); k next) = k (Z.of_nat (seen_after n i)).
Proof.
  intros Hi Hn. unfold seen_after. destruct (decide (i = n)) as [->|Hne].
  - rewrite Z.eqb_refl, checked_add_u64_fits by lia. cbn. f_equal. lia.
  - by rewrite (proj2 (Z.eqb_neq _ _)) by lia.
Qed.

Lemma decode_tagged_fwd al ss vs : ∀ n buf c rest,
  grants al → schemas_ok ss → NoDup (schema_enc <$> ss) → zlen ss < u64_max → (n ≤ length ss)%nat →
  Forall (λ v, sv_ok v) vs → (tagged (take n (schema_enc <$> ss)) vs).1 = schema_enc <$> ss →
  cursor_rep buf c ((tagged (take n (schema_enc <$> ss)) vs).2 ++ rest) →
  ∃ c', SchemaVarLen.decode_tagged al (length vs) ss (Z.of_nat n) buf c = Ok (vs, zlen ss, c') ∧
    cursor_rep buf c' rest.
Proof.
  induction vs as [|v vs IH]; intros n buf c rest Hal Hss Hnd Hsz Hn Hvs Htab Hr.
  { exists c. split; [|done]. cbn in Htab |- *. apply (f_equal length) in Htab.
    rewrite length_take, !length_fmap in Htab. unfold zlen. do 3 f_equal. lia. }
  apply Forall_cons_1 in Hvs as [Hv Hvs]. cbn [tagged] in Htab, Hr.
  destruct (tag v (take n (schema_enc <$> ss))) as [i t] eqn:Htag.
  pose proof (tagged_prefix vs t) as Hpre. destruct (tagged t vs) as [t' out] eqn:Htv. cbn [fst snd] in *. subst t'.
  destruct (tag_take_fwd _ _ _ _ _ Hnd ltac:(by rewrite length_fmap) Htag Hpre) as [Hi Hin].
  pose proof (tag_take_inv _ _ _ _ Hnd Hi Hin) as Htag'. rewrite Htag in Htag'. injection Htag' as ->.
  pose proof (lookup_lt_Some _ _ _ Hi) as Hlt. rewrite length_fmap in Hlt.
  rewrite list_lookup_fmap in Hi. destruct (ss !! i) as [s|] eqn:Hsi; [|done]. injection Hi as Heq.
  destruct (Forall_lookup_1 _ _ _ _ Hss Hsi) as [Hs Hsv].
  assert (Hsame : sv_schema v = s).
  { symmetry. apply schema_enc_inj; [done|by apply sv_schema_ok|done|done]. }
  unfold zlen in Hsz. rewrite <- !app_assoc in Hr.
  destruct (codec_fwd (Codec := varint_codec) al _ _ _ _ Hal Hr) as (c1 & Hd & Hr1); [unfold in_u64; lia|].
  cbn [length SchemaVarLen.decode_tagged]. rewrite Hd. cbn [mbind result_bind].
  rewrite try_u64_fits by (unfold in_u64; lia). cbn [ok_or mbind result_bind].
  rewrite Nat2Z.id, Hsi. cbn [ok_or mbind result_bind]. rewrite (proj2 (Z.ltb_ge _ _)) by lia.
  rewrite seen_after_Z by lia.
  destruct (codec_fwd (Codec := value_codec s Hs) al _ _ _ _ Hal Hr1 (conj Hv Hsame)) as (c2 & -> & Hr2).
  cbn [mbind result_bind].
  destruct (IH (seen_after n i) buf c2 rest Hal Hss Hnd Hsz) as (c3 & Hds & Hr3); rewrite ?Htv; try done.
  { by apply seen_after_le. }
  rewrite Hds. cbn [mbind result_bind]. by exists c3.
Qed.

Lemma decode_tagged_inv al ss k : ∀ n buf c l vs next c',
  schemas_ok ss → NoDup (schema_enc <$> ss) → (n ≤ length ss)%nat → zlen ss < u64_max →
  cursor_rep buf c l → SchemaVarLen.decode_tagged al k ss (Z.of_nat n) buf c = Ok (vs, next, c') →
  ∃ rest n', next = Z.of_nat n' ∧ (n' ≤ length ss)%nat ∧ length vs = k ∧ Forall (λ v, sv_ok v) vs ∧
    (tagged (take n (schema_enc <$> ss)) vs).1 = take n' (schema_enc <$> ss) ∧
    l = (tagged (take n (schema_enc <$> ss)) vs).2 ++ rest ∧ cursor_rep buf c' rest.
Proof.
  induction k as [|k IH]; intros n buf c l vs next c' Hss Hnd Hn Hsz Hr Hd;
    cbn [SchemaVarLen.decode_tagged] in Hd.
  { injection Hd as <- <- <-. by exists l, n. }
  apply bind_ok in Hd as ([id c1] & Hid & Hd).
  destruct (codec_inv (Codec := varint_codec) al _ _ _ _ _ Hr Hid) as (r1 & -> & Hu & Hr1).
  rewrite try_u64_fits in Hd by done. cbn [ok_or mbind result_bind] in Hd. unfold in_u64 in Hu.
  destruct (Z_of_nat_complete id ltac:(lia)) as [i ->]. rewrite Nat2Z.id in Hd.
  destruct (ss !! i) as [s|] eqn:Hsi; [|done]. cbn [ok_or mbind result_bind] in Hd.
  destruct (Z.ltb_spec (Z.of_nat n) (Z.of_nat i)) as [|Hle]; [done|].
  pose proof (lookup_lt_Some _ _ _ Hsi) as Hlt. unfold zlen in Hsz.
  rewrite seen_after_Z in Hd by lia.
  apply bind_ok in Hd as ([v c2] & Hv & Hd). apply bind_ok in Hd as ([[vs' next'] c3] & Hvs & Hd).
  injection Hd as <- <- <-. destruct (Forall_lookup_1 _ _ _ _ Hss Hsi) as [Hs Hsv].
  destruct (codec_inv (Codec := value_codec s Hs) al _ _ _ _ _ Hr1 Hv) as (r2 & -> & [Hok Hsame] & Hr2).
  assert (Hi : (schema_enc <$> ss) !! i = Some (shape v)).
  { rewrite list_lookup_fmap, Hsi. cbn. unfold shape. by rewrite Hsame. }
  pose proof (tag_take_inv v _ n i Hnd Hi ltac:(lia)) as Htag.
  destruct (IH (seen_after n i) _ _ _ _ _ _ Hss Hnd ltac:(apply seen_after_le; lia) Hsz Hr2 Hvs)
    as (rest & n' & -> & Hn' & Hlen & Hall & Ht1 & -> & Hr3).
  exists rest, n'. cbn [tagged length]. rewrite Htag.
  destruct (tagged (take (seen_after n i) (schema_enc <$> ss)) vs') as [t out]. cbn [fst snd] in *.
  split_and!; try done; [by rewrite Hlen|by constructor|by rewrite <- !app_assoc].
Qed.

(** Every shape is in the table. *)
Lemma tagged_shapes vs : ∀ table table' out v,
  tagged table vs = (table', out) → v ∈ vs → shape v ∈ table'.
Proof.
  induction vs as [|w vs IH]; intros table table' out v Ht Hv; [by apply elem_of_nil in Hv|].
  cbn [tagged] in Ht. destruct (tag w table) as [id t] eqn:Htag.
  pose proof (tagged_prefix vs t) as Hp. destruct (tagged t vs) as [t' o] eqn:Htv. injection Ht as -> <-.
  apply elem_of_cons in Hv as [->|Hv]; [|by eapply IH].
  cbn in Hp. destruct Hp as [k ->]. apply elem_of_app. left. unfold tag in Htag.
  destruct (index_of (shape w) table) as [i|] eqn:Hi; injection Htag as <- <-.
  - unfold index_of in Hi. apply fmap_Some in Hi as ([j x] & Hf & ->).
    apply list_find_Some in Hf as (Hj & -> & _). by eapply list_elem_of_lookup_2.
  - apply elem_of_app. right. by apply list_elem_of_singleton.
Qed.

(** *** Sizes *)

Lemma tagged_length vs table :
  (length (tagged table vs).1 ≤ length table + length vs)%nat ∧
  (vs ≠ [] → 1 ≤ length (tagged table vs).1)%nat.
Proof.
  revert table. induction vs as [|v vs IH]; intros table; cbn [tagged length]; [split; [simpl; lia|done]|].
  assert (Ht : (1 ≤ length (tag v table).2 ≤ S (length table))%nat).
  { unfold tag. destruct (index_of (shape v) table) as [i|] eqn:Hi; cbn.
    - destruct table; [done|]. simpl. lia.
    - rewrite length_app. simpl. lia. }
  destruct (tag v table) as [id t]. pose proof (prefix_length _ _ (tagged_prefix vs t)) as Hp.
  specialize (IH t). destruct (tagged t vs) as [t' out]. cbn in *. lia.
Qed.

(** Tags written by an encoder are words. *)
Lemma tagged_out vs : ∀ table,
  Forall (λ v, sv_ok v) vs → zlen table + zlen vs ≤ u64_max →
  bytes (tagged table vs).2 ∧ zlen vs ≤ zlen (tagged table vs).2 ∧
  Forall (λ v, zlen (value_enc v) ≤ zlen (tagged table vs).2) vs.
Proof.
  induction vs as [|v vs IH]; intros table Hvs Hsz; [split_and!; by try constructor|].
  apply Forall_cons_1 in Hvs as [Hv Hvs]. cbn [tagged]. rewrite zlen_cons in Hsz |- *.
  assert (Ht : (length (tag v table).2 ≤ S (length table))%nat ∧ ((tag v table).1 ≤ length table)%nat).
  { unfold tag. destruct (index_of (shape v) table) as [i|] eqn:Hi; cbn.
    - unfold index_of in Hi. apply fmap_Some in Hi as ([j x] & Hf & ->).
      apply list_find_Some in Hf as (Hj & _). apply lookup_lt_Some in Hj. cbn. lia.
    - rewrite length_app. simpl. lia. }
  destruct (tag v table) as [id t]. cbn in Ht.
  destruct (IH t Hvs) as (Hb & Hl & Hf); [unfold zlen in *; lia|].
  destruct (tagged t vs) as [t' out]. cbn [fst snd] in *. pose proof (zlen_nonneg vs).
  assert (Hid : in_u64 (Z.of_nat id)) by (unfold in_u64, zlen in *; lia).
  rewrite !zlen_app. pose proof (varint_len_pos _ Hid). rewrite zlen_encode_varint by done.
  pose proof (zlen_nonneg (value_enc v)). split_and!; [|lia|].
  - repeat apply Forall_app_2; [by apply bytes_encode_varint|by apply value_enc_bytes|done].
  - constructor; [lia|]. eapply Forall_impl; [exact Hf|]. cbv beta. lia.
Qed.

Lemma zlen_schema_frames table :
  Forall (λ b, vec_ok b) table → zlen table ≤ zlen (mjoin (schema_frame <$> table)).
Proof.
  induction 1 as [|b table Hb Htab IH]; [done|]. rewrite join_fmap_cons.
  cbv beta in Hb. unfold schema_frame at 1. pose proof (zlen_nonneg b).
  assert (Hu : in_u64 (zlen b)) by (unfold in_u64; lia). pose proof (varint_len_pos _ Hu).
  rewrite zlen_cons, !zlen_app, zlen_encode_varint by done. lia.
Qed.

Lemma ensure_minimum_fits avail n field :
  0 ≤ n → n ≤ avail → n ≤ u64_max → ensure_minimum_encoded_items avail n 1 field = Ok tt.
Proof.
  intros. unfold ensure_minimum_encoded_items, checked_mul_u64.
  rewrite (proj2 (Z.leb_le _ _)) by lia. cbn. by rewrite (proj2 (Z.ltb_ge _ _)) by lia.
Qed.

(** *** Decoding a block *)

Lemma decode_block_fwd al ss vs out :
  grants al → schemas_ok ss → Forall (λ v, sv_ok v) vs → tagged [] vs = (schema_enc <$> ss, out) →
  vec_ok (block_bytes vs) → zlen vs ≤ u32_max →
  SchemaVarLen.decode_values al (block_bytes vs) (zlen vs) = Ok vs.
Proof.
  intros Hal Hss Hok Ht Hsz Hn.
  assert (Hnd : NoDup (schema_enc <$> ss)).
  { change (schema_enc <$> ss) with (schema_enc <$> ss, out).1. rewrite <- Ht.
    apply tagged_nodup. constructor. }
  destruct (tagged_length vs []) as [Hlen1 Hlen2].
  destruct (tagged_out vs [] Hok) as (Hout & Hlout & _); [rewrite zlen_nil; lia|].
  unfold block_bytes, header in Hsz |- *. rewrite Ht in *. cbn [fst snd] in *.
  rewrite length_fmap in Hlen1, Hlen2. cbn [length] in Hlen1.
  assert (Hframes : zlen ss ≤ zlen (mjoin (schema_frame <$> (schema_enc <$> ss)))).
  { etrans; [|apply zlen_schema_frames]; [unfold zlen; by rewrite length_fmap|].
    rewrite Forall_fmap. eapply Forall_impl; [exact Hss|]. by intros s []. }
  assert (Hcount : zlen (schema_enc <$> ss) = zlen ss) by (unfold zlen; by rewrite length_fmap).
  rewrite Hcount in *. pose proof (zlen_nonneg ss). pose proof (zlen_nonneg vs).
  assert (Hssn : zlen ss ≤ zlen vs) by (unfold zlen; lia).
  assert (Hu : in_u64 (zlen ss)) by (unfold in_u64; lia).
  assert (Hbytes : bytes ((encode_varint (zlen ss) [] ++ mjoin (schema_frame <$> (schema_enc <$> ss))) ++ out)).
  { repeat apply Forall_app_2; [by apply bytes_encode_varint|by apply bytes_schema_frames|done]. }
  pose proof (cursor_start _ Hbytes Hsz) as Hr. set (buf := (_ ++ _) ++ _) in *.
  unfold buf in Hr at 2. rewrite <- app_assoc in Hr. unfold SchemaVarLen.decode_values.
  destruct (codec_fwd (Codec := varint_codec) al _ _ _ _ Hal Hr Hu) as (c1 & -> & Hr1).
  cbn [mbind result_bind]. rewrite try_u64_fits by done. cbn [ok_or mbind result_bind].
  assert (Hrange : ((zlen vs =? 0) && negb (zlen ss =? 0))
     || (negb (zlen vs =? 0) && negb ((1 <=? zlen ss) && (zlen ss <=? zlen vs))) = false).
  { destruct (Z.eqb_spec (zlen vs) 0) as [Hz|Hz]; cbn.
    - by rewrite orb_false_r, (proj2 (Z.eqb_eq _ _)) by lia.
    - assert (vs ≠ []) as Hne by (by intros ->). specialize (Hlen2 Hne). unfold zlen in *.
      by rewrite !(proj2 (Z.leb_le _ _)) by lia. }
  rewrite Hrange. pose proof (cursor_zlen _ _ _ Hr1) as Hz1. rewrite zlen_app in Hz1.
  pose proof (zlen_nonneg out). unfold saturating_sub.
  rewrite ensure_minimum_fits by lia. cbn [mbind result_bind].
  unfold try_vec_with_capacity, try_reserve. rewrite !Hal. cbn [mbind result_bind].
  replace (Z.to_nat (zlen ss)) with (length ss) by (unfold zlen; lia).
  destruct (decode_schemas_fwd al ss buf ∅ c1 out Hal Hss Hnd) as (c2 & -> & Hr2); [set_solver|done|].
  cbn [mbind result_bind]. pose proof (cursor_zlen _ _ _ Hr2) as Hz2.
  rewrite ensure_minimum_fits by lia. cbn [mbind result_bind].
  replace (Z.to_nat (zlen vs)) with (length vs) by (unfold zlen; lia).
  rewrite <- (app_nil_r out) in Hr2.
  destruct (decode_tagged_fwd al ss vs 0 buf c2 [] Hal Hss Hnd) as (c3 & Hdt & Hr3);
    rewrite ?take_0, ?Ht; try done; [lia|lia|].
  change (Z.of_nat 0) with 0 in Hdt. rewrite Hdt. cbn [mbind result_bind]. rewrite Z.eqb_refl. cbn [negb].
  apply cursor_zlen in Hr3. rewrite zlen_nil in Hr3. by rewrite (proj2 (Z.eqb_eq _ _)) by lia.
Qed.

Lemma decode_block_rep al c vs :
  grants al → codec_rep c vs → vec_ok (block_bytes vs) → zlen vs ≤ u32_max →
  SchemaVarLen.decode_values al (block_bytes vs) (zlen vs) = Ok vs.
Proof.
  intros Hal (Hvs & Hss & Hb & Hvec & Ht & _) Hsz Hn. rewrite Hb in Hvec, Ht.
  eapply (decode_block_fwd al (sc_schemas c)); [done| | |exact Ht|done|done].
  - rewrite Forall_fmap in Hvec. apply Forall_and. by split.
  - eapply Forall_impl; [exact Hvs|]. by intros ? [].
Qed.

Lemma decode_block_inv al buf count vs :
  bytes buf → vec_ok buf → 0 ≤ count → SchemaVarLen.decode_values al buf count = Ok vs →
  ∃ ss out, schemas_ok ss ∧ Forall (λ v, sv_ok v) vs ∧ tagged [] vs = (schema_enc <$> ss, out) ∧
    buf = block_bytes vs ∧ zlen vs = count ∧ zlen ss ≤ count.
Proof.
  intros Hb Hsz Hc Hd. unfold SchemaVarLen.decode_values in Hd.
  apply bind_ok in Hd as ([n c1] & Hn & Hd).
  destruct (codec_inv (Codec := varint_codec) al _ _ _ _ _ (cursor_start _ Hb Hsz) Hn) as (r1 & Hbuf & Hu & Hr1).
  rewrite try_u64_fits in Hd by done. cbn [ok_or mbind result_bind] in Hd.
  destruct (_ || _) eqn:Hrange in Hd; [done|].
  apply bind_ok in Hd as (? & _ & Hd). apply bind_ok in Hd as (? & _ & Hd).
  apply bind_ok in Hd as (? & _ & Hd). apply bind_ok in Hd as ([ss c2] & Hss & Hd).
  destruct (decode_schemas_inv _ _ _ _ _ _ _ _ Hr1 Hss) as (r2 & -> & Hr2 & Hlen & Hok & Hnd & _).
  apply bind_ok in Hd as (? & Hmin & Hd). apply bind_ok in Hd as (? & _ & Hd).
  apply bind_ok in Hd as ([[vs' next] c3] & Hdt & Hd).
  pose proof (cursor_zlen _ _ _ Hr1) as Hz. rewrite zlen_app in Hz.
  assert (Hframes : zlen ss ≤ zlen (mjoin (schema_frame <$> (schema_enc <$> ss)))).
  { etrans; [|apply zlen_schema_frames]; [unfold zlen; by rewrite length_fmap|].
    rewrite Forall_fmap. eapply Forall_impl; [exact Hok|]. by intros s []. }
  pose proof (zlen_nonneg r2). pose proof Hr1 as (_ & _ & Hc1 & _).
  change 0 with (Z.of_nat 0) in Hdt.
  destruct (decode_tagged_inv al ss _ 0 _ _ _ _ _ _ Hok Hnd ltac:(lia) ltac:(lia) Hr2 Hdt)
    as (rest & n' & -> & Hn' & Hlen' & Hall & Ht1 & Hr2eq & Hr3).
  rewrite take_0 in Ht1, Hr2eq.
  destruct (Z.eqb_spec (Z.of_nat n') n) as [<-|]; [|done]. cbn [negb] in Hd.
  destruct (Z.eqb_spec c3 (zlen buf)) as [Hend|]; [|done]. cbn in Hd. injection Hd as <-.
  apply cursor_zlen in Hr3. rewrite Hend, Z.sub_diag in Hr3. apply zlen_0 in Hr3 as ->.
  rewrite Nat2Z.id in Hlen. subst n'. rewrite take_ge in Ht1 by (by rewrite length_fmap).
  rewrite app_nil_r in Hr2eq. subst r2. exists ss, (tagged [] vs').2.
  split_and!; [done|done|by rewrite <- Ht1; destruct (tagged [] vs')| | |].
  - rewrite Hbuf at 1. unfold block_bytes, header. rewrite Ht1. unfold zlen. rewrite length_fmap.
    by rewrite <- app_assoc.
  - unfold zlen. lia.
  - unfold zlen in *. destruct (Z.eqb_spec count 0); cbn in Hrange.
    + rewrite orb_false_r in Hrange. apply negb_false_iff, Z.eqb_eq in Hrange. lia.
    + apply negb_false_iff, andb_true_iff in Hrange as [_ Hle%Z.leb_le]. done.
Qed.

(** *** The size estimate *)

Lemma schema_header_len_spec table :
  Forall (λ b, vec_ok b) table → in_u64 (zlen (header table)) →
  SchemaVarLen.schema_header_len table = zlen (header table).
Proof.
  intros Hvec [_ Hmax]. unfold SchemaVarLen.schema_header_len.
  assert (Hgen : ∀ len, 0 ≤ len → len + zlen (mjoin (schema_frame <$> table)) ≤ u64_max →
    foldl (λ len schema, saturating_add_u64
             (saturating_add_u64 len (varint_len (zlen schema))) (zlen schema)) len table
    = len + zlen (mjoin (schema_frame <$> table))).
  { clear Hmax. induction Hvec as [|b table Hb Htab IH]; intros len H1 H2; [symmetry; apply Z.add_0_r|].
    cbv beta in Hb. rewrite join_fmap_cons, zlen_app in H2 |- *. unfold schema_frame in H2 at 1.
    unfold schema_frame at 1. pose proof (zlen_nonneg b).
    pose proof (zlen_nonneg (mjoin (schema_frame <$> table))).
    assert (Hu : in_u64 (zlen b)) by (unfold in_u64; lia). pose proof (varint_len_pos _ Hu).
    rewrite zlen_app, zlen_encode_varint in H2 |- * by done.
    cbn [foldl].
    replace (saturating_add_u64 (saturating_add_u64 len (varint_len (zlen b))) (zlen b))
      with (len + (varint_len (zlen b) + zlen b)) by (unfold saturating_add_u64; lia).
    rewrite IH; lia. }
  unfold header in Hmax |- *. rewrite zlen_app in Hmax |- *.
  pose proof (zlen_nonneg (mjoin (schema_frame <$> table))).
  pose proof (zlen_schema_frames _ Hvec). pose proof (zlen_nonneg (encode_varint (zlen table) [])).
  assert (Hu : in_u64 (zlen table)) by (pose proof (zlen_nonneg table); unfold in_u64; lia).
  pose proof (varint_len_pos _ Hu). rewrite zlen_encode_varint in Hmax |- * by done.
  rewrite Hgen; lia.
Qed.

Lemma encoded_len_rep c vs :
  codec_rep c vs → vec_ok (SchemaVarLen.snapshot_bytes c) →
  SchemaVarLen.encoded_len_bytes c = zlen (SchemaVarLen.snapshot_bytes c).
Proof.
  intros Hc Hv. unfold SchemaVarLen.snapshot_bytes in *. rewrite write_schema_header_spec in *.
  rewrite zlen_app in *. pose proof (zlen_nonneg (header (sc_schema_bytes c))).
  pose proof (zlen_nonneg (sc_values c)). unfold SchemaVarLen.encoded_len_bytes.
  rewrite schema_header_len_spec; [|apply Hc|unfold in_u64; lia].
  unfold saturating_add_u64. lia.
Qed.

Lemma codec_rep_schemas c vs : codec_rep c vs → zlen vs ≤ u32_max → zlen (sc_schemas c) ≤ u32_max.
Proof.
  intros (_ & _ & Hb & _ & Ht & _) Hlen. destruct (tagged_length vs []) as [Hl _].
  rewrite Ht, Hb in Hl. cbn in Hl. rewrite length_fmap in Hl. unfold zlen in *. lia.
Qed.

Lemma pushes_all al vs : ∀ c ws,
  grants al → codec_rep c ws → zlen ws + zlen vs ≤ u32_max →
  Forall (λ v, sv_ok v ∧ vec_ok (shape v) ∧ vec_ok (value_enc v)) vs →
  ∃ c', pushes c ((λ v, (al, v)) <$> vs) = (vs, c') ∧ codec_rep c' (ws ++ vs).
Proof.
  induction vs as [|v vs IH]; intros c ws Hal Hc Hn Hvs; [exists c; by rewrite app_nil_r|].
  apply Forall_cons_1 in Hvs as [(Hok & Hs & Hv) Hvs]. rewrite zlen_cons in Hn.
  pose proof (zlen_nonneg vs). cbn [fmap list_fmap pushes].
  assert (Hp : pushable v) by (split; [by apply sv_ok_repr|done]).
  pose proof (push_spec al c ws v Hc Hp) as Hpush.
  assert (Hfits : push_fits al c v).
  { split_and!; [done| |done]. apply (codec_rep_schemas c ws Hc). lia. }
  destruct (SchemaVarLen.push al c v) as [[[]|e] c1]; [|by destruct Hpush as [_ []]].
  destruct (IH c1 (ws ++ [v]) Hal) as (c2 & Hps & Hc2); [apply Hpush|rewrite zlen_app, zlen_cons, zlen_nil; lia|done|].
  exists c2. rewrite Hps. split; [done|]. by rewrite <- app_assoc in Hc2.
Qed.

(** *** Any values that fit make a block *)

Lemma block_fits vs : Forall (λ v, sv_ok v) vs → zlen vs ≤ u32_max → vec_ok (block_bytes vs) →
  Forall (λ v, sv_ok v ∧ vec_ok (shape v) ∧ vec_ok (value_enc v)) vs.
Proof.
  intros Hok Hn Hsz. destruct (tagged_out vs [] Hok) as (_ & _ & Hval); [rewrite zlen_nil; lia|].
  unfold block_bytes, header in Hsz. rewrite !zlen_app in Hsz. pose proof (zlen_nonneg (encode_varint (zlen (tagged [] vs).1) [])).
  pose proof (zlen_nonneg (tagged [] vs).2). pose proof (zlen_nonneg (mjoin (schema_frame <$> (tagged [] vs).1))).
  apply Forall_forall. intros v Hv. pose proof (proj1 (Forall_forall _ _) Hval v Hv). cbv beta in *.
  split_and!; [by apply (proj1 (Forall_forall _ _) Hok)| |lia].
  assert (∀ b table, b ∈ table → zlen b ≤ zlen (mjoin (schema_frame <$> table))) as Hin.
  { clear. intros b table. induction table as [|x table IH]; [by intros ?%not_elem_of_nil|]. rewrite join_fmap_cons, zlen_app.
    pose proof (zlen_nonneg (mjoin (schema_frame <$> table))). unfold schema_frame at 1. rewrite zlen_app.
    pose proof (zlen_nonneg (encode_varint (zlen x) [])). pose proof (zlen_nonneg x).
    intros [->|Hb]%elem_of_cons; [lia|]. specialize (IH Hb). lia. }
  assert (shape v ∈ (tagged [] vs).1) as Hsh.
  { destruct (tagged [] vs) as [t out] eqn:Ht. by eapply tagged_shapes. }
  specialize (Hin _ _ Hsh). lia.
Qed.

Lemma decode_block_ok al vs : grants al → Forall (λ v, sv_ok v) vs → vec_ok (block_bytes vs) → zlen vs ≤ u32_max →
  SchemaVarLen.decode_values al (block_bytes vs) (zlen vs) = Ok vs.
Proof.
  intros Hal Hok Hsz Hn. destruct (pushes_all alloc_ok vs empty_codec []) as (c & _ & Hc).
  - done.
  - apply codec_rep_empty.
  - by rewrite zlen_nil.
  - by apply block_fits.
  - by apply (decode_block_rep al c).
Qed.

Lemma bytes_block vs : Forall (λ v, sv_ok v) vs → vec_ok (block_bytes vs) → zlen vs ≤ u32_max → bytes (block_bytes vs).
Proof.
  intros Hok Hsz Hn. destruct (pushes_all alloc_ok vs empty_codec []) as (c & _ & Hc).
  - done.
  - apply codec_rep_empty.
  - by rewrite zlen_nil.
  - by apply block_fits.
  - cbn [app] in Hc. destruct Hc as (_ & Hss & Hb & Hvec & Ht & _). unfold block_bytes, header. rewrite Ht. cbn [fst snd].
    destruct (tagged_out vs [] Hok) as (Hout & _); [rewrite zlen_nil; lia|]. rewrite Ht in Hout. rewrite Hb in *.
    rewrite !Forall_app. split_and!; [| |done].
    + apply bytes_encode_varint. destruct (tagged_length vs []) as [Hl _]. rewrite Ht in Hl. cbn in Hl. rewrite length_fmap in Hl.
      unfold in_u64, zlen in *. rewrite length_fmap. lia.
    + apply bytes_schema_frames, Forall_and. split; [done|]. by rewrite Forall_fmap in Hvec.
Qed.

(** C28: the schema block refines a list of values.  Whatever was pushed, with
    whatever allocator answers and with pushes that fail in between, the
    snapshot decodes to exactly the accepted values in order, and the reported
    length is the snapshot's. *)
Theorem schema_block_refines_list ops accepted c al :
  Forall (λ op, pushable op.2) ops → pushes empty_codec ops = (accepted, c) →
  grants al → vec_ok (SchemaVarLen.snapshot_bytes c) → zlen accepted ≤ u32_max →
  SchemaVarLen.decode_values al (SchemaVarLen.snapshot_bytes c) (zlen accepted) = Ok accepted ∧
  SchemaVarLen.encoded_len_bytes c = zlen (SchemaVarLen.snapshot_bytes c).
Proof.
  intros Hops Hp Hal Hsz Hn. pose proof (pushes_rep ops _ _ _ _ Hops codec_rep_empty Hp) as Hc.
  split; [|by eapply encoded_len_rep]. rewrite (snapshot_spec _ _ Hc) in *.
  by eapply decode_block_rep.
Qed.

(** A push is atomic: if it fails, for a bad shape or any refused
    reservation, everything a reader or a later push can see is as before; and
    it fails only when the value is not storable or memory or ids run out. *)
Theorem schema_push_atomic ops accepted c al v :
  Forall (λ op, pushable op.2) ops → pushes empty_codec ops = (accepted, c) → pushable v →
  match SchemaVarLen.push al c v with
  | (Ok _, _) => sv_ok v
  | (Err _, c') => contents c' = contents c ∧ ¬ (sv_ok v ∧ push_fits al c v)
  end.
Proof.
  intros Hops Hp Hv. pose proof (pushes_rep ops _ _ _ _ Hops codec_rep_empty Hp) as Hc.
  pose proof (push_spec al c _ v Hc Hv) as Hs. by destruct (SchemaVarLen.push al c v) as [[]]; naive_solver.
Qed.

(** The decoder accepts only the encoder's output: duplicate, unused or
    out-of-order schemas and trailing bytes are refused, so bytes that decode
    are what pushing the decoded values produces. *)
Theorem schema_block_canonical al buf count vs :
  bytes buf → vec_ok buf → 0 ≤ count ≤ u32_max →
  SchemaVarLen.decode_values al buf count = Ok vs →
  zlen vs = count ∧
  ∃ c, pushes empty_codec ((λ v, (alloc_ok, v)) <$> vs) = (vs, c) ∧ SchemaVarLen.snapshot_bytes c = buf.
Proof.
  intros Hb Hsz [Hc0 Hc] Hd.
  destruct (decode_block_inv _ _ _ _ Hb Hsz Hc0 Hd) as (ss & out & Hss & Hok & Ht & -> & Hn & Hm).
  split; [done|].
  destruct (tagged_out vs [] Hok) as (_ & _ & Hval); [rewrite zlen_nil; lia|].
  assert (Hfit : zlen (tagged [] vs).2 ≤ i64_max).
  { unfold block_bytes in Hsz. rewrite zlen_app in Hsz.
    pose proof (zlen_nonneg (header (tagged [] vs).1)). lia. }
  destruct (pushes_all alloc_ok vs empty_codec []) as (c & Hp & Hrep);
    [done|apply codec_rep_empty|rewrite zlen_nil; lia| |].
  { apply Forall_forall. intros v Hv. rewrite Forall_forall in Hok, Hval. specialize (Hval v Hv).
    split_and!; [by apply Hok| |lia].
    assert (Hin : shape v ∈ schema_enc <$> ss) by by eapply tagged_shapes.
    apply list_elem_of_fmap in Hin as (s & -> & Hs). rewrite Forall_forall in Hss. by apply Hss. }
  exists c. split; [done|]. by apply snapshot_spec.
Qed.
End laws.
