(* ===== verification/TypedSamples.v ===== *)
(** * Typed samples: histograms, exponential histograms and summaries

    The value types of [chronoxide-core/src/storage/head/types.rs], the shape
    checks that guard storage, and the two wire codecs of each: self-contained
    ([VarLenEncoding]) and relative to a schema ([SchemaVarLenEncoding]).
    The metadata and bucket fields are those of [head/encoded.rs]. *)
From S2P Require Import Prelude Varint Float64 Cursor VarLen SchemaVarLen.

Inductive OtlpAggregationTemporality :=
  | TemporalityUnspecified
  | TemporalityDelta
  | TemporalityCumulative.

Inductive CounterResetHint :=
  | ResetUnknown
  | CounterReset
  | NotCounterReset
  | GaugeType.

#[export] Instance temporality_eq_dec : EqDecision OtlpAggregationTemporality.
Proof. solve_decision. Defined.
#[export] Instance reset_hint_eq_dec : EqDecision CounterResetHint.
Proof. solve_decision. Defined.

Record TypedSampleMetadata := mk_metadata {
  md_start_time_ms : option Z;
  md_flags : Z;
  md_temporality : OtlpAggregationTemporality;
  md_reset_hint : CounterResetHint;
}.

Definition OTLP_FLAG_NO_RECORDED_VALUE : Z := 1.

Definition is_stale (m : TypedSampleMetadata) : bool :=
  negb (Z.land (md_flags m) OTLP_FLAG_NO_RECORDED_VALUE =? 0).

Record HistogramValue := mk_histogram {
  h_count : Z;
  h_sum : option Z;
  h_min : option Z;
  h_max : option Z;
  h_metadata : TypedSampleMetadata;
  h_explicit_bounds : list Z;
  h_bucket_counts : list Z;
}.

Record ExponentialHistogramBuckets := mk_buckets {
  eb_offset : Z;
  eb_counts : list Z;
}.

Record ExponentialHistogramValue := mk_exponential {
  e_count : Z;
  e_sum : option Z;
  e_min : option Z;
  e_max : option Z;
  e_scale : Z;
  e_zero_threshold : Z;
  e_zero_count : Z;
  e_metadata : TypedSampleMetadata;
  e_positive : ExponentialHistogramBuckets;
  e_negative : ExponentialHistogramBuckets;
}.

Record SummaryQuantileValue := mk_quantile { q_quantile : Z; q_value : Z }.

Record SummaryValue := mk_summary {
  s_count : Z;
  s_sum : Z;
  s_metadata : TypedSampleMetadata;
  s_quantiles : list SummaryQuantileValue;
}.

(** ** Shape checks *)

(** [windows(2).any(|pair| pair[0] >= pair[1])]. *)
Fixpoint not_ascending (l : list Z) : bool :=
  match l with
  | a :: (b :: _) as l' => f64_ge a b || not_ascending l'
  | _ => false
  end.

Definition bounds_invalid (explicit_bounds : list Z) : bool :=
  existsb (λ bound, negb (f64_is_finite bound)) explicit_bounds || not_ascending explicit_bounds.

Definition validate_histogram_schema_shape (explicit_bounds : list Z) (bucket_count : Z)
    (error_kind : ErrorKind) : io_result unit :=
  if bounds_invalid explicit_bounds then
    fail error_kind "histogram explicit bounds must be finite and strictly ascending"
  else
    expected_buckets ← ok_or (io_err error_kind "histogram bucket length overflows")
      (checked_add_u64 (zlen explicit_bounds) 1);
    if negb (bucket_count =? expected_buckets) then
      fail error_kind "histogram bucket length must equal explicit bounds plus one"
    else Ok tt.

(** [counts.try_fold(0, checked_add)]. *)
Fixpoint checked_count_fold (total : Z) (counts : list Z) (error_kind : ErrorKind) (field : string)
    : io_result Z :=
  match counts with
  | [] => Ok total
  | value :: counts =>
      total ← ok_or (io_err error_kind (field +:+ " bucket total overflows u64"))
        (checked_add_u64 total value);
      checked_count_fold total counts error_kind field
  end.
Definition checked_count_total (counts : list Z) (error_kind : ErrorKind) (field : string)
    : io_result Z :=
  checked_count_fold 0 counts error_kind field.

Definition validate_histogram_bucket_total (bucket_counts : list Z) (count : Z)
    (error_kind : ErrorKind) : io_result unit :=
  total ← checked_count_total bucket_counts error_kind "histogram";
  if negb (total =? count) then fail error_kind "histogram bucket total must equal count" else Ok tt.

Definition validate_histogram_shape (explicit_bounds bucket_counts : list Z) (count : Z)
    (error_kind : ErrorKind) : io_result unit :=
  _ ← validate_histogram_schema_shape explicit_bounds (zlen bucket_counts) error_kind;
  validate_histogram_bucket_total bucket_counts count error_kind.

Definition validate_exponential_histogram_shape (zero_count : Z) (positive_counts negative_counts : list Z)
    (count : Z) (error_kind : ErrorKind) : io_result unit :=
  total ← checked_count_total (zero_count :: positive_counts ++ negative_counts) error_kind
            "exponential histogram";
  if negb (total =? count) then
    fail error_kind "exponential histogram bucket total must equal count"
  else Ok tt.

Fixpoint validate_quantiles (previous : option Z) (quantiles : list Z) (error_kind : ErrorKind)
    : io_result unit :=
  match quantiles with
  | [] => Ok tt
  | quantile :: quantiles =>
      if negb (f64_is_finite quantile)
         || negb (f64_le f64_zero quantile && f64_le quantile f64_one)
         || match previous with Some previous => f64_ge previous quantile | None => false end
      then fail error_kind
        "summary quantile positions must be finite, within [0, 1], and strictly ascending"
      else validate_quantiles (Some quantile) quantiles error_kind
  end.
Definition validate_summary_quantile_positions (quantiles : list Z) (error_kind : ErrorKind)
    : io_result unit :=
  validate_quantiles None quantiles error_kind.

Inductive SampleValue :=
  | SampleFloat (bits : Z)
  | SampleInt64 (value : Z)
  | SampleHistogram (value : HistogramValue)
  | SampleExponentialHistogram (value : ExponentialHistogramValue)
  | SampleSummary (value : SummaryValue).

Definition validate_for_storage (v : SampleValue) : io_result unit :=
  match v with
  | SampleFloat _ | SampleInt64 _ => Ok tt
  | SampleHistogram v =>
      validate_histogram_shape (h_explicit_bounds v) (h_bucket_counts v) (h_count v) InvalidInput
  | SampleExponentialHistogram v =>
      validate_exponential_histogram_shape (e_zero_count v) (eb_counts (e_positive v))
        (eb_counts (e_negative v)) (e_count v) InvalidInput
  | SampleSummary v =>
      validate_summary_quantile_positions (q_quantile <$> s_quantiles v) InvalidInput
  end.

(** ** Metadata and buckets *)

Definition temporality_code (t : OtlpAggregationTemporality) : Z :=
  match t with TemporalityUnspecified => 0 | TemporalityDelta => 1 | TemporalityCumulative => 2 end.
Definition decode_temporality (value : Z) : io_result OtlpAggregationTemporality :=
  if value =? 0 then Ok TemporalityUnspecified
  else if value =? 1 then Ok TemporalityDelta
  else if value =? 2 then Ok TemporalityCumulative
  else fail InvalidData "invalid aggregation temporality".

Definition reset_hint_code (h : CounterResetHint) : Z :=
  match h with ResetUnknown => 0 | CounterReset => 1 | NotCounterReset => 2 | GaugeType => 3 end.
Definition decode_counter_reset_hint (value : Z) : io_result CounterResetHint :=
  if value =? 0 then Ok ResetUnknown
  else if value =? 1 then Ok CounterReset
  else if value =? 2 then Ok NotCounterReset
  else if value =? 3 then Ok GaugeType
  else fail InvalidData "invalid counter reset hint".

Definition encode_typed_metadata (m : TypedSampleMetadata) (out : list Z) : list Z :=
  let out := encode_varint (md_flags m) out in
  let out := encode_varint (temporality_code (md_temporality m)) out in
  let out := encode_varint (reset_hint_code (md_reset_hint m)) out in
  match md_start_time_ms m with
  | Some start_time_ms => encode_varint start_time_ms (out ++ [1])
  | None => out ++ [0]
  end.

Definition decode_typed_metadata (buf : list Z) (cursor : Z) : io_result (TypedSampleMetadata * Z) :=
  '(flags, cursor) ← decode_varint buf cursor;
  '(temporality, cursor) ← decode_varint buf cursor;
  temporality ← decode_temporality temporality;
  '(reset_hint, cursor) ← decode_varint buf cursor;
  reset_hint ← decode_counter_reset_hint reset_hint;
  flag ← ok_or (io_err UnexpectedEof "short start time option") (byte_at buf cursor);
  '(start_time_ms, cursor) ←
    (if flag =? 0 then Ok (None, cursor + 1)
     else if flag =? 1 then
       '(start_time_ms, cursor) ← decode_varint buf (cursor + 1); Ok (Some start_time_ms, cursor)
     else fail InvalidData "invalid start time option flag");
  flags ← ok_or (io_err InvalidData "flags overflow") (try_u32 flags);
  Ok (mk_metadata start_time_ms flags temporality reset_hint, cursor).

Definition encode_buckets (b : ExponentialHistogramBuckets) (out : list Z) : list Z :=
  let out := encode_varint (encode_zigzag_i64 (eb_offset b)) out in
  let out := encode_varint (zlen (eb_counts b)) out in
  encode_items encode_varint (eb_counts b) out.

(** A length-prefixed vector: [decode_len], feasibility check, reservation and
    pushes, as every decoder below does it. *)
Definition decode_counted {A} (item : list Z → Z → io_result (A * Z)) (minimum : Z) (fits vec : string)
    (al : allocator) (buf : list Z) (cursor : Z) : io_result (list A * Z) :=
  '(len, cursor) ← decode_len buf cursor;
  _ ← ensure_decoded_items_fit buf cursor len minimum fits;
  _ ← try_decoded_vec al len vec;
  decode_items item (Z.to_nat len) buf cursor.

Definition decode_buckets (al : allocator) (buf : list Z) (cursor : Z)
    : io_result (ExponentialHistogramBuckets * Z) :=
  '(offset, cursor) ← decode_i32 buf cursor;
  '(counts, cursor) ← decode_counted decode_varint 1 "exponential histogram bucket counts"
      "decoded exponential histogram bucket counts" al buf cursor;
  Ok (mk_buckets offset counts, cursor).

(** ** Histogram codecs *)

Record HistogramSchema := mk_histogram_schema {
  hs_explicit_bounds : list Z;
  hs_bucket_len : Z;
}.
Record ExponentialHistogramSchema := mk_exponential_schema {
  es_scale : Z;
  es_zero_threshold : Z;
}.
Record SummarySchema := mk_summary_schema { ss_quantiles : list Z }.

(** [validate(..)?; body; Ok(())] on an output vector. *)
Definition guarded (check : io_result unit) (out body : list Z) : io_result unit * list Z :=
  match check with
  | Err e => (Err e, out)
  | Ok _ => (Ok tt, body)
  end.

Module Histogram.

(** Metadata, count, sum, min and max. *)
Definition encode_head (v : HistogramValue) (out : list Z) : list Z :=
  let out := encode_typed_metadata (h_metadata v) out in
  let out := encode_varint (h_count v) out in
  let out := encode_opt_f64 (h_sum v) out in
  let out := encode_opt_f64 (h_min v) out in
  encode_opt_f64 (h_max v) out.

Definition encode_into (v : HistogramValue) (out : list Z) : io_result unit * list Z :=
  guarded (validate_histogram_shape (h_explicit_bounds v) (h_bucket_counts v) (h_count v) InvalidInput) out
    (let out := encode_head v out in
     let out := encode_varint (zlen (h_explicit_bounds v)) out in
     let out := encode_items encode_f64 (h_explicit_bounds v) out in
     let out := encode_varint (zlen (h_bucket_counts v)) out in
     encode_items encode_varint (h_bucket_counts v) out).

Definition decode_from (al : allocator) (buf : list Z) : io_result HistogramValue :=
  '(metadata, cursor) ← decode_typed_metadata buf 0;
  '(count, cursor) ← decode_varint buf cursor;
  '(sum, cursor) ← decode_opt_f64 buf cursor;
  '(min, cursor) ← decode_opt_f64 buf cursor;
  '(max, cursor) ← decode_opt_f64 buf cursor;
  '(explicit_bounds, cursor) ← decode_counted decode_f64 8 "histogram explicit bounds"
      "decoded histogram bounds" al buf cursor;
  '(bucket_counts, cursor) ← decode_counted decode_varint 1 "histogram bucket counts"
      "decoded histogram bucket counts" al buf cursor;
  _ ← validate_histogram_shape explicit_bounds bucket_counts count InvalidData;
  _ ← ensure_consumed buf cursor;
  Ok (mk_histogram count sum min max metadata explicit_bounds bucket_counts).

Definition encode_schema_from_value (v : HistogramValue) (out : list Z) : io_result unit * list Z :=
  guarded (validate_histogram_schema_shape (h_explicit_bounds v) (zlen (h_bucket_counts v)) InvalidInput) out
    (let out := encode_varint (zlen (h_explicit_bounds v)) out in
     let out := encode_items encode_f64 (h_explicit_bounds v) out in
     encode_varint (zlen (h_bucket_counts v)) out).

Definition decode_schema (al : allocator) (buf : list Z) (cursor : Z) : io_result (HistogramSchema * Z) :=
  '(explicit_bounds, cursor) ← decode_counted decode_f64 8 "histogram schema bounds"
      "decoded histogram schema bounds" al buf cursor;
  '(bucket_len, cursor) ← decode_len buf cursor;
  expected_bucket_len ← ok_or (io_err InvalidData "histogram bucket length overflows")
    (checked_add_u64 (zlen explicit_bounds) 1);
  if negb (bucket_len =? expected_bucket_len) then
    fail InvalidData "histogram bucket length must equal explicit bounds plus one"
  else if bounds_invalid explicit_bounds then
    fail InvalidData "histogram explicit bounds must be finite and strictly ascending"
  else Ok (mk_histogram_schema explicit_bounds bucket_len, cursor).

Definition encode_value_with_schema (v : HistogramValue) (schema : HistogramSchema) (out : list Z)
    : io_result unit * list Z :=
  if negb (zlen (h_bucket_counts v) =? hs_bucket_len schema) then
    (fail InvalidInput "histogram bucket length mismatch", out)
  else
    guarded (validate_histogram_bucket_total (h_bucket_counts v) (h_count v) InvalidInput) out
      (encode_items encode_varint (h_bucket_counts v) (encode_head v out)).

Definition decode_value_with_schema (schema : HistogramSchema) (al : allocator) (buf : list Z) (cursor : Z)
    : io_result (HistogramValue * Z) :=
  '(metadata, cursor) ← decode_typed_metadata buf cursor;
  '(count, cursor) ← decode_varint buf cursor;
  '(sum, cursor) ← decode_opt_f64 buf cursor;
  '(min, cursor) ← decode_opt_f64 buf cursor;
  '(max, cursor) ← decode_opt_f64 buf cursor;
  _ ← ensure_decoded_items_fit buf cursor (hs_bucket_len schema) 1 "histogram schema bucket counts";
  _ ← try_decoded_vec al (hs_bucket_len schema) "decoded histogram schema bucket counts";
  '(bucket_counts, cursor) ← decode_items decode_varint (Z.to_nat (hs_bucket_len schema)) buf cursor;
  bucket_total ← checked_count_total bucket_counts InvalidData "histogram";
  if negb (bucket_total =? count) then
    fail InvalidData "histogram bucket total must equal count"
  else
    explicit_bounds ← try_clone_decoded_slice al (hs_explicit_bounds schema)
      "decoded histogram sample bounds";
    Ok (mk_histogram count sum min max metadata explicit_bounds bucket_counts, cursor).

End Histogram.

Module Exponential.

Definition encode_head (v : ExponentialHistogramValue) (out : list Z) : list Z :=
  let out := encode_typed_metadata (e_metadata v) out in
  let out := encode_varint (e_count v) out in
  let out := encode_opt_f64 (e_sum v) out in
  let out := encode_opt_f64 (e_min v) out in
  encode_opt_f64 (e_max v) out.

Definition shape_check (v : ExponentialHistogramValue) : io_result unit :=
  validate_exponential_histogram_shape (e_zero_count v) (eb_counts (e_positive v))
    (eb_counts (e_negative v)) (e_count v) InvalidInput.

Definition encode_into (v : ExponentialHistogramValue) (out : list Z) : io_result unit * list Z :=
  guarded (shape_check v) out
    (let out := encode_head v out in
     let out := encode_varint (encode_zigzag_i64 (e_scale v)) out in
     let out := encode_f64 (e_zero_threshold v) out in
     let out := encode_varint (e_zero_count v) out in
     let out := encode_buckets (e_positive v) out in
     encode_buckets (e_negative v) out).

Definition decode_from (al : allocator) (buf : list Z) : io_result ExponentialHistogramValue :=
  '(metadata, cursor) ← decode_typed_metadata buf 0;
  '(count, cursor) ← decode_varint buf cursor;
  '(sum, cursor) ← decode_opt_f64 buf cursor;
  '(min, cursor) ← decode_opt_f64 buf cursor;
  '(max, cursor) ← decode_opt_f64 buf cursor;
  '(scale, cursor) ← decode_i32 buf cursor;
  '(zero_threshold, cursor) ← decode_f64 buf cursor;
  '(zero_count, cursor) ← decode_varint buf cursor;
  '(positive, cursor) ← decode_buckets al buf cursor;
  '(negative, cursor) ← decode_buckets al buf cursor;
  _ ← validate_exponential_histogram_shape zero_count (eb_counts positive) (eb_counts negative)
        count InvalidData;
  _ ← ensure_consumed buf cursor;
  Ok (mk_exponential count sum min max scale zero_threshold zero_count metadata positive negative).

Definition encode_schema_from_value (v : ExponentialHistogramValue) (out : list Z)
    : io_result unit * list Z :=
  (Ok tt, encode_f64 (e_zero_threshold v) (encode_varint (encode_zigzag_i64 (e_scale v)) out)).

Definition decode_schema (al : allocator) (buf : list Z) (cursor : Z)
    : io_result (ExponentialHistogramSchema * Z) :=
  '(scale, cursor) ← decode_i32 buf cursor;
  '(zero_threshold, cursor) ← decode_f64 buf cursor;
  Ok (mk_exponential_schema scale zero_threshold, cursor).

Definition encode_value_with_schema (v : ExponentialHistogramValue) (schema : ExponentialHistogramSchema)
    (out : list Z) : io_result unit * list Z :=
  if negb (e_scale v =? es_scale schema) || negb (e_zero_threshold v =? es_zero_threshold schema) then
    (fail InvalidInput "exponential histogram schema mismatch", out)
  else
    guarded (shape_check v) out
      (let out := encode_head v out in
       let out := encode_varint (e_zero_count v) out in
       let out := encode_buckets (e_positive v) out in
       encode_buckets (e_negative v) out).

Definition decode_value_with_schema (schema : ExponentialHistogramSchema) (al : allocator)
    (buf : list Z) (cursor : Z) : io_result (ExponentialHistogramValue * Z) :=
  '(metadata, cursor) ← decode_typed_metadata buf cursor;
  '(count, cursor) ← decode_varint buf cursor;
  '(sum, cursor) ← decode_opt_f64 buf cursor;
  '(min, cursor) ← decode_opt_f64 buf cursor;
  '(max, cursor) ← decode_opt_f64 buf cursor;
  '(zero_count, cursor) ← decode_varint buf cursor;
  '(positive_offset, cursor) ← decode_i32 buf cursor;
  '(positive_counts, cursor) ← decode_counted decode_varint 1
      "positive exponential histogram bucket counts"
      "decoded positive exponential histogram bucket counts" al buf cursor;
  '(negative_offset, cursor) ← decode_i32 buf cursor;
  '(negative_counts, cursor) ← decode_counted decode_varint 1
      "negative exponential histogram bucket counts"
      "decoded negative exponential histogram bucket counts" al buf cursor;
  _ ← validate_exponential_histogram_shape zero_count positive_counts negative_counts count InvalidData;
  Ok (mk_exponential count sum min max (es_scale schema) (es_zero_threshold schema) zero_count metadata
        (mk_buckets positive_offset positive_counts) (mk_buckets negative_offset negative_counts), cursor).

End Exponential.

Module Summary.

Definition positions (v : SummaryValue) : list Z := q_quantile <$> s_quantiles v.

Definition encode_quantile (q : SummaryQuantileValue) (out : list Z) : list Z :=
  encode_f64 (q_value q) (encode_f64 (q_quantile q) out).

Definition decode_quantile (buf : list Z) (cursor : Z) : io_result (SummaryQuantileValue * Z) :=
  '(quantile, cursor) ← decode_f64 buf cursor;
  '(value, cursor) ← decode_f64 buf cursor;
  Ok (mk_quantile quantile value, cursor).

Definition encode_head (v : SummaryValue) (out : list Z) : list Z :=
  let out := encode_typed_metadata (s_metadata v) out in
  let out := encode_varint (s_count v) out in
  encode_f64 (s_sum v) out.

Definition encode_into (v : SummaryValue) (out : list Z) : io_result unit * list Z :=
  guarded (validate_summary_quantile_positions (positions v) InvalidInput) out
    (let out := encode_head v out in
     let out := encode_varint (zlen (s_quantiles v)) out in
     encode_items encode_quantile (s_quantiles v) out).

Definition decode_from (al : allocator) (buf : list Z) : io_result SummaryValue :=
  '(metadata, cursor) ← decode_typed_metadata buf 0;
  '(count, cursor) ← decode_varint buf cursor;
  '(sum, cursor) ← decode_f64 buf cursor;
  '(quantiles, cursor) ← decode_counted decode_quantile 16 "summary quantile pairs"
      "decoded summary quantile pairs" al buf cursor;
  _ ← validate_summary_quantile_positions (q_quantile <$> quantiles) InvalidData;
  _ ← ensure_consumed buf cursor;
  Ok (mk_summary count sum metadata quantiles).

Definition encode_schema_from_value (v : SummaryValue) (out : list Z) : io_result unit * list Z :=
  guarded (validate_summary_quantile_positions (positions v) InvalidInput) out
    (encode_items (λ q, encode_f64 (q_quantile q)) (s_quantiles v)
       (encode_varint (zlen (s_quantiles v)) out)).

Definition decode_schema (al : allocator) (buf : list Z) (cursor : Z) : io_result (SummarySchema * Z) :=
  '(quantiles, cursor) ← decode_counted decode_f64 8 "summary schema quantiles"
      "decoded summary schema quantiles" al buf cursor;
  _ ← validate_summary_quantile_positions quantiles InvalidData;
  Ok (mk_summary_schema quantiles, cursor).

(** The per-position comparison of [encode_value_with_schema]. *)
Fixpoint positions_match (quantiles : list SummaryQuantileValue) (schema : list Z) : bool :=
  match quantiles, schema with
  | q :: quantiles, p :: schema => (q_quantile q =? p) && positions_match quantiles schema
  | _, _ => true
  end.

Definition encode_value_with_schema (v : SummaryValue) (schema : SummarySchema) (out : list Z)
    : io_result unit * list Z :=
  if negb (zlen (s_quantiles v) =? zlen (ss_quantiles schema)) then
    (fail InvalidInput "summary quantile length mismatch", out)
  else if negb (positions_match (s_quantiles v) (ss_quantiles schema)) then
    (fail InvalidInput "summary quantile schema mismatch", out)
  else (Ok tt, encode_items (λ q, encode_f64 (q_value q)) (s_quantiles v) (encode_head v out)).

Definition decode_value_with_schema (schema : SummarySchema) (al : allocator) (buf : list Z) (cursor : Z)
    : io_result (SummaryValue * Z) :=
  '(metadata, cursor) ← decode_typed_metadata buf cursor;
  '(count, cursor) ← decode_varint buf cursor;
  '(sum, cursor) ← decode_f64 buf cursor;
  _ ← ensure_decoded_items_fit buf cursor (zlen (ss_quantiles schema)) 8 "summary values";
  _ ← try_decoded_vec al (zlen (ss_quantiles schema)) "decoded summary values";
  '(values, cursor) ← decode_items decode_f64 (length (ss_quantiles schema)) buf cursor;
  Ok (mk_summary count sum metadata (zip_with mk_quantile (ss_quantiles schema) values), cursor).

End Summary.

(** ** Field contracts *)

Definition metadata_ok (m : TypedSampleMetadata) : Prop :=
  in_u32 (md_flags m) ∧ opt_in_u64 (md_start_time_ms m).
Definition opt_u64_bytes (v : option Z) : list Z :=
  match v with Some v => 1 :: encode_varint v [] | None => [0] end.
Definition metadata_bytes (m : TypedSampleMetadata) : list Z :=
  encode_varint (md_flags m) [] ++ encode_varint (temporality_code (md_temporality m)) []
  ++ encode_varint (reset_hint_code (md_reset_hint m)) [] ++ opt_u64_bytes (md_start_time_ms m).

Lemma encode_typed_metadata_out m out : encode_typed_metadata m out = out ++ metadata_bytes m.
Proof.
  unfold encode_typed_metadata, metadata_bytes.
  rewrite (encode_varint_out _ out), (encode_varint_out _ (out ++ _)), (encode_varint_out _ ((out ++ _) ++ _)).
  destruct (md_start_time_ms m); cbn [opt_u64_bytes]; rewrite ?(encode_varint_out _ (_ ++ [1]));
    by rewrite <- !app_assoc.
Qed.

Lemma temporality_code_u64 t : in_u64 (temporality_code t).
Proof. unfold in_u64. destruct t; cbn; lia. Qed.
Lemma reset_hint_code_u64 h : in_u64 (reset_hint_code h).
Proof. unfold in_u64. destruct h; cbn; lia. Qed.
Lemma decode_temporality_code t : decode_temporality (temporality_code t) = Ok t.
Proof. by destruct t. Qed.
Lemma decode_reset_hint_code h : decode_counter_reset_hint (reset_hint_code h) = Ok h.
Proof. by destruct h. Qed.
Lemma decode_temporality_inv v t : decode_temporality v = Ok t → v = temporality_code t.
Proof.
  unfold decode_temporality. destruct (Z.eqb_spec v 0), (Z.eqb_spec v 1), (Z.eqb_spec v 2); naive_solver.
Qed.
Lemma decode_reset_hint_inv v h : decode_counter_reset_hint v = Ok h → v = reset_hint_code h.
Proof.
  unfold decode_counter_reset_hint.
  destruct (Z.eqb_spec v 0), (Z.eqb_spec v 1), (Z.eqb_spec v 2), (Z.eqb_spec v 3); naive_solver.
Qed.

Lemma in_u32_u64 z : in_u32 z → in_u64 z.
Proof. unfold in_u32, in_u64. lia. Qed.
#[local] Hint Resolve in_u32_u64 temporality_code_u64 reset_hint_code_u64 : core.

#[export] Instance metadata_codec : Codec (λ _, decode_typed_metadata) metadata_bytes metadata_ok.
Proof.
  split.
  - intros al buf c m rest Hal Hr [Hf Hs]. unfold metadata_bytes in Hr. rewrite <- !app_assoc in Hr.
    unfold decode_typed_metadata.
    read_fwd varint_codec Hr. read_fwd varint_codec Hr.
    rewrite decode_temporality_code. cbn [mbind result_bind].
    read_fwd varint_codec Hr. rewrite decode_reset_hint_code. cbn [mbind result_bind].
    destruct m as [[s|] flags t h]; cbn [md_start_time_ms opt_u64_bytes app md_flags md_temporality md_reset_hint] in *.
    + rewrite (cursor_byte _ _ _ _ Hr). apply cursor_cons in Hr. cbn.
      read_fwd varint_codec Hr. rewrite try_u32_fits by done. cbn. eauto.
    + rewrite (cursor_byte _ _ _ _ Hr). apply cursor_cons in Hr. cbn.
      rewrite try_u32_fits by done. cbn. eauto.
  - intros al buf c l m c' Hr Hd. unfold decode_typed_metadata in Hd.
    read_inv varint_codec al Hr Hd flags Hf. read_inv varint_codec al Hr Hd t Ht.
    apply bind_ok in Hd as (t' & ->%decode_temporality_inv & Hd).
    read_inv varint_codec al Hr Hd h Hh. apply bind_ok in Hd as (h' & ->%decode_reset_hint_inv & Hd).
    apply bind_ok in Hd as (flag & Hflag & Hd). apply bind_ok in Hd as ([start c4] & Hstart & Hd).
    apply bind_ok in Hd as (f & Hf32 & Hd). injection Hd as <- <-.
    destruct (try_u32 flags) as [f'|] eqn:Hu; [|done]. injection Hf32 as ->.
    apply try_u32_Some in Hu as [-> Hu].
    destruct (byte_at buf _) as [b|] eqn:Hb in Hflag; [|done]. injection Hflag as ->.
    destruct (cursor_byte_inv _ _ _ _ Hr Hb) as (r3 & -> & Hr3).
    unfold metadata_bytes. cbn [md_start_time_ms md_flags md_temporality md_reset_hint].
    destruct (Z.eqb_spec flag 0) as [->|]; [|destruct (Z.eqb_spec flag 1) as [->|]; [|done]].
    + injection Hstart as <- <-. exists r3. split_and!; [by rewrite <- !app_assoc|by split|done].
    + apply bind_ok in Hstart as ([s c5] & Hs & Hd). injection Hd as <- <-.
      destruct (codec_inv (Codec := varint_codec) al _ _ _ _ _ Hr3 Hs) as (r4 & -> & Hsu & Hr4).
      exists r4. split_and!; [cbn [opt_u64_bytes]; by rewrite <- !app_assoc|by split|done].
Qed.

Definition counted_bytes {A} (enc : A → list Z) (l : list A) : list Z :=
  encode_varint (zlen l) [] ++ mjoin (enc <$> l).

Lemma zlen_join_min {A} (enc : A → list Z) (ok : A → Prop) minimum l :
  (∀ a, ok a → minimum ≤ zlen (enc a)) → Forall ok l → zlen l * minimum ≤ zlen (mjoin (enc <$> l)).
Proof.
  intros Hmin. induction 1 as [|a l Ha Hl IH]; [reflexivity|].
  rewrite join_fmap_cons, zlen_cons, zlen_app. specialize (Hmin a Ha). lia.
Qed.

Lemma ensure_fits buf c l n minimum field :
  cursor_rep buf c l → 0 ≤ n → 0 ≤ minimum → n * minimum ≤ zlen l →
  ensure_decoded_items_fit buf c n minimum field = Ok tt.
Proof.
  intros Hr Hn Hm Hl. pose proof (cursor_zlen _ _ _ Hr). destruct Hr as (_ & Hv & Hc & _).
  unfold ensure_decoded_items_fit, checked_mul_u64. rewrite checked_sub_u64_fits by lia.
  cbn [ok_or mbind result_bind]. rewrite (proj2 (Z.leb_le _ _)) by lia. cbn [ok_or mbind result_bind].
  by rewrite (proj2 (Z.ltb_ge _ _)) by lia.
Qed.

Lemma counted_codec {A} (item : list Z → Z → io_result (A * Z)) enc ok minimum fits vec :
  Codec (λ _, item) enc ok → 1 ≤ minimum → (∀ a, ok a → minimum ≤ zlen (enc a)) →
  Codec (decode_counted item minimum fits vec) (counted_bytes enc) (Forall ok).
Proof.
  intros Hc Hmin Hlen. split.
  - intros al buf c l rest Hal Hr Hl. unfold counted_bytes in Hr. rewrite <- app_assoc in Hr.
    pose proof (zlen_join_min enc ok minimum l Hlen Hl) as Hjoin. pose proof (zlen_nonneg l).
    pose proof (cursor_zlen _ _ _ Hr) as Hz. rewrite !zlen_app in Hz. pose proof (zlen_nonneg rest).
    pose proof Hr as (_ & Hv & Hc0 & _). pose proof (zlen_nonneg (encode_varint (zlen l) [])).
    unfold decode_counted. read_fwd len_codec Hr; [unfold in_u64; nia|].
    rewrite (ensure_fits _ _ _ _ _ _ Hr) by (rewrite ?zlen_app; lia). cbn [mbind result_bind].
    unfold try_decoded_vec, try_reserve. rewrite Hal. cbn [mbind result_bind].
    replace (Z.to_nat (zlen l)) with (length l) by (unfold zlen; lia).
    by apply (codec_fwd (Codec := items_codec _ _ _ (length l) Hc) al _ _ _ _ Hal Hr (conj eq_refl Hl)).
  - intros al buf c l0 l c' Hr Hd. unfold decode_counted in Hd.
    read_inv len_codec al Hr Hd len Hok. apply bind_ok in Hd as (? & _ & Hd).
    apply bind_ok in Hd as (? & _ & Hd).
    destruct (codec_inv (Codec := items_codec _ _ _ (Z.to_nat len) Hc) al _ _ _ _ _ Hr Hd)
      as (r & -> & [Hl Hall] & Hr2).
    exists r. unfold counted_bytes. unfold in_u64 in Hok. rewrite <- app_assoc.
    replace (zlen l) with len by (unfold zlen; lia). by split_and!.
Qed.

Lemma f64_min (v : Z) : in_u64 v → 8 ≤ zlen (le_bytes 8 v).
Proof. intros _. by rewrite zlen_le_bytes. Qed.
Lemma varint_min v : in_u64 v → 1 ≤ zlen (encode_varint v []).
Proof. intros Hv. pose proof (varint_len_pos v Hv). by rewrite zlen_encode_varint; [lia|]. Qed.

Definition f64s_codec fits vec := counted_codec decode_f64 _ _ 8 fits vec f64_codec ltac:(lia) f64_min.
Definition varints_codec fits vec :=
  counted_codec decode_varint _ _ 1 fits vec varint_codec ltac:(lia) varint_min.

Definition buckets_ok (b : ExponentialHistogramBuckets) : Prop :=
  in_i32 (eb_offset b) ∧ Forall in_u64 (eb_counts b).
Definition buckets_bytes (b : ExponentialHistogramBuckets) : list Z :=
  encode_varint (encode_zigzag_i64 (eb_offset b)) [] ++ counted_bytes (λ v, encode_varint v []) (eb_counts b).

Lemma encode_varints_out l out :
  encode_items encode_varint l out = out ++ mjoin ((λ v, encode_varint v []) <$> l).
Proof. apply encode_items_out. intros. apply encode_varint_out. Qed.
Lemma encode_f64s_out l out : encode_items encode_f64 l out = out ++ mjoin (le_bytes 8 <$> l).
Proof. by apply encode_items_out. Qed.

Lemma encode_buckets_out b out : encode_buckets b out = out ++ buckets_bytes b.
Proof.
  unfold encode_buckets, buckets_bytes, counted_bytes.
  rewrite encode_varints_out, (encode_varint_out _ out), (encode_varint_out _ (out ++ _)).
  by rewrite <- !app_assoc.
Qed.

#[export] Instance buckets_codec : Codec decode_buckets buckets_bytes buckets_ok.
Proof.
  split.
  - intros al buf c [off counts] rest Hal Hr [Ho Hcs]. unfold buckets_bytes in Hr. cbn [eb_offset eb_counts] in *.
    rewrite <- app_assoc in Hr. unfold decode_buckets. read_fwd i32_codec Hr.
    read_fwd (varints_codec "exponential histogram bucket counts"
      "decoded exponential histogram bucket counts") Hr. eauto.
  - intros al buf c l b c' Hr Hd. unfold decode_buckets in Hd. read_inv i32_codec al Hr Hd off Ho.
    read_inv (varints_codec "exponential histogram bucket counts"
      "decoded exponential histogram bucket counts") al Hr Hd counts Hcs.
    injection Hd as <- <-. eexists. split_and!; [|by split|done].
    unfold buckets_bytes. cbn [eb_offset eb_counts]. by rewrite <- app_assoc.
Qed.
