(* ===== verification/TypedCodecs.v ===== *)
(** * The typed-sample codecs meet their contracts

    Instances of [VarLenLaws] and [SchemaVarLenLaws] for the three value types
    of [TypedSamples], and what the shape checks decide. *)
From S2P Require Import Prelude Varint Float64 Cursor VarLen SchemaVarLen TypedSamples.

(** ** What the shape checks decide *)

Definition total (counts : list Z) : Z := foldr Z.add 0 counts.

(** Strictly ascending, in the order of doubles. *)
Fixpoint f64_ascending (l : list Z) : Prop :=
  match l with
  | a :: (b :: _) as l' => f64_lt a b = true ∧ f64_ascending l'
  | _ => True
  end.

Definition histogram_shape (bounds counts : list Z) (count : Z) : Prop :=
  (Forall (λ b, f64_is_finite b = true) bounds ∧ f64_ascending bounds) ∧
  zlen counts = zlen bounds + 1 ∧ total counts = count.
Definition quantile_shape (quantiles : list Z) : Prop :=
  Forall (λ q, f64_is_finite q = true ∧ f64_le f64_zero q = true ∧ f64_le q f64_one = true) quantiles
  ∧ f64_ascending quantiles.

Lemma total_app a b : total (a ++ b) = total a + total b.
Proof. induction a as [|x a IH]; [done|]. cbn [total foldr app] in *. fold (total (a ++ b)). unfold total in *. lia. Qed.

Lemma total_nonneg counts : Forall in_u64 counts → 0 ≤ total counts.
Proof. induction 1 as [|c counts [Hc _] Hcs IH]; [done|]. unfold total in *. cbn. lia. Qed.

Lemma checked_count_fold_spec counts kind field : ∀ acc r,
  0 ≤ acc ≤ u64_max → Forall in_u64 counts →
  checked_count_fold acc counts kind field = Ok r ↔ r = acc + total counts ∧ acc + total counts ≤ u64_max.
Proof.
  induction counts as [|c counts IH]; intros acc r Hacc Hcs.
  { cbn. rewrite Z.add_0_r. split; [intros [= ->]; lia|intros [-> _]; done]. }
  apply Forall_cons_1 in Hcs as [[Hc0 Hc] Hcs]. pose proof (total_nonneg _ Hcs).
  cbn [checked_count_fold]. change (total (c :: counts)) with (c + total counts).
  destruct (checked_add_u64 acc c) as [t|] eqn:Ht; cbn [ok_or mbind result_bind].
  - apply checked_add_u64_Some in Ht as [-> Hle]. rewrite IH by (done || lia). rewrite Z.add_assoc. done.
  - split; [done|]. intros [_ Hle]. rewrite checked_add_u64_fits in Ht by lia. done.
Qed.

Lemma checked_count_total_spec counts kind field r :
  Forall in_u64 counts →
  checked_count_total counts kind field = Ok r ↔ r = total counts ∧ total counts ≤ u64_max.
Proof. intros. by apply checked_count_fold_spec. Qed.

Lemma not_ascending_spec l :
  Forall (λ b, f64_is_finite b = true) l → not_ascending l = false ↔ f64_ascending l.
Proof.
  induction l as [|a [|b l] IH]; intros Hf; [done..|].
  apply Forall_cons_1 in Hf as [Ha Hf]. pose proof Hf as [Hb _]%Forall_cons_1.
  cbn [not_ascending f64_ascending] in *. rewrite f64_ge_not_lt, orb_false_iff, negb_false_iff by done.
  by rewrite IH.
Qed.

Lemma bounds_invalid_spec bounds :
  bounds_invalid bounds = false ↔ Forall (λ b, f64_is_finite b = true) bounds ∧ f64_ascending bounds.
Proof.
  unfold bounds_invalid. rewrite orb_false_iff.
  assert (Hf : existsb (λ bound, negb (f64_is_finite bound)) bounds = false
               ↔ Forall (λ b, f64_is_finite b = true) bounds).
  { induction bounds as [|b bounds IH]; [done|]. cbn. rewrite Forall_cons, <- IH, orb_false_iff, negb_false_iff.
    done. }
  rewrite Hf. split; intros [H1 H2]; (split; [done|]); by apply not_ascending_spec.
Qed.

Lemma schema_shape_spec bounds n kind :
  zlen bounds ≤ i64_max →
  validate_histogram_schema_shape bounds n kind = Ok tt ↔
  (Forall (λ b, f64_is_finite b = true) bounds ∧ f64_ascending bounds) ∧ n = zlen bounds + 1.
Proof.
  intros Hl. unfold validate_histogram_schema_shape. pose proof (zlen_nonneg bounds).
  destruct (bounds_invalid bounds) eqn:Hb.
  - split; [done|]. intros [Hbad%bounds_invalid_spec _]. congruence.
  - rewrite checked_add_u64_fits by lia. cbn [ok_or mbind result_bind].
    apply bounds_invalid_spec in Hb. destruct (Z.eqb_spec n (zlen bounds + 1)); cbn; naive_solver.
Qed.

Lemma bucket_total_spec counts count kind :
  Forall in_u64 counts → in_u64 count →
  validate_histogram_bucket_total counts count kind = Ok tt ↔ total counts = count.
Proof.
  intros Hcs [_ Hc]. unfold validate_histogram_bucket_total.
  destruct (checked_count_total counts kind "histogram") as [t|] eqn:Ht; cbn [mbind result_bind].
  - apply checked_count_total_spec in Ht as [-> _]; [|done].
    destruct (Z.eqb_spec (total counts) count); cbn; naive_solver.
  - split; [done|]. intros <-.
    rewrite (proj2 (checked_count_total_spec counts kind "histogram" (total counts) Hcs)) in Ht; done.
Qed.

Lemma histogram_shape_spec bounds counts count kind :
  zlen bounds ≤ i64_max → Forall in_u64 counts → in_u64 count →
  validate_histogram_shape bounds counts count kind = Ok tt ↔ histogram_shape bounds counts count.
Proof.
  intros Hl Hcs Hc. unfold validate_histogram_shape, histogram_shape.
  destruct (validate_histogram_schema_shape bounds (zlen counts) kind) as [[]|] eqn:Hs; cbn [mbind result_bind].
  - apply schema_shape_spec in Hs as [H1 H2]; [|done]. rewrite bucket_total_spec by done. tauto.
  - split; [done|]. intros (H1 & H2 & _).
    by rewrite (proj2 (schema_shape_spec bounds (zlen counts) kind Hl)) in Hs.
Qed.

Lemma exponential_shape_spec zero pos neg count kind :
  in_u64 zero → Forall in_u64 pos → Forall in_u64 neg → in_u64 count →
  validate_exponential_histogram_shape zero pos neg count kind = Ok tt ↔
  zero + total pos + total neg = count.
Proof.
  intros Hz Hp Hn [_ Hc]. unfold validate_exponential_histogram_shape.
  assert (Hall : Forall in_u64 (zero :: pos ++ neg)) by (constructor; [done|by apply Forall_app]).
  assert (Htot : total (zero :: pos ++ neg) = zero + total pos + total neg).
  { change (total (zero :: pos ++ neg)) with (zero + total (pos ++ neg)). rewrite total_app. lia. }
  destruct (checked_count_total _ _ _) as [t|] eqn:Ht; cbn [mbind result_bind].
  - apply checked_count_total_spec in Ht as [-> _]; [|done]. rewrite Htot.
    destruct (Z.eqb_spec (zero + total pos + total neg) count); cbn; naive_solver.
  - split; [done|]. intros <-.
    rewrite (proj2 (checked_count_total_spec _ kind "exponential histogram" (total (zero :: pos ++ neg)) Hall)) in Ht;
      [done|]. by rewrite Htot.
Qed.

Lemma validate_quantiles_spec l kind : ∀ previous,
  match previous with Some p => f64_is_finite p = true | None => True end →
  validate_quantiles previous l kind = Ok tt ↔
  Forall (λ q, f64_is_finite q = true ∧ f64_le f64_zero q = true ∧ f64_le q f64_one = true) l ∧
  f64_ascending (match previous with Some p => p :: l | None => l end).
Proof.
  induction l as [|q l IH]; intros previous Hprev; cbn [validate_quantiles].
  { destruct previous; cbn; split; try done; by split. }
  rewrite Forall_cons. destruct (f64_is_finite q) eqn:Hq; cbn [negb orb]; [|naive_solver].
  destruct (f64_le f64_zero q); cbn [andb negb orb]; [|naive_solver].
  destruct (f64_le q f64_one); cbn [andb negb orb]; [|naive_solver].
  specialize (IH (Some q) Hq). destruct previous as [p|]; cbn [f64_ascending].
  - rewrite f64_ge_not_lt by done. destruct (f64_lt p q); cbn [negb]; [|naive_solver].
    rewrite IH. tauto.
  - rewrite IH. tauto.
Qed.

Lemma quantile_shape_spec l kind :
  validate_summary_quantile_positions l kind = Ok tt ↔ quantile_shape l.
Proof. apply (validate_quantiles_spec l kind None). done. Qed.

(** ** Histograms *)

#[local] Arguments metadata_bytes : simpl never.
#[local] Arguments opt_f64_bytes : simpl never.
#[local] Arguments counted_bytes : simpl never.

Lemma counted_len {A} (enc : A → list Z) ok minimum l :
  (∀ a, ok a → minimum ≤ zlen (enc a)) → Forall ok l → zlen l * minimum ≤ zlen (counted_bytes enc l).
Proof.
  intros Hm Hl. unfold counted_bytes. rewrite zlen_app.
  pose proof (zlen_join_min enc ok minimum l Hm Hl). pose proof (zlen_nonneg (encode_varint (zlen l) [])). lia.
Qed.

Lemma bytes_opt_f64 v : bytes (opt_f64_bytes v).
Proof. destruct v; [|by repeat constructor]. constructor; [done|]. by apply bytes_le_bytes. Qed.

Lemma bytes_metadata m : metadata_ok m → bytes (metadata_bytes m).
Proof.
  intros [Hf Hs]. unfold metadata_bytes. rewrite !Forall_app. split_and!.
  - by apply bytes_encode_varint, in_u32_u64.
  - apply bytes_encode_varint, temporality_code_u64.
  - apply bytes_encode_varint, reset_hint_code_u64.
  - destruct (md_start_time_ms m); [|by repeat constructor]. constructor; [done|].
    by apply bytes_encode_varint.
Qed.

Lemma bytes_join {A} (enc : A → list Z) (ok : A → Prop) l :
  (∀ a, ok a → bytes (enc a)) → Forall ok l → bytes (mjoin (enc <$> l)).
Proof.
  intros He. induction 1 as [|a l Ha Hl IH]; [constructor|]. rewrite join_fmap_cons.
  apply Forall_app_2; [by apply He|done].
Qed.

Lemma bytes_counted {A} (enc : A → list Z) (ok : A → Prop) l :
  (∀ a, ok a → bytes (enc a)) → Forall ok l → zlen l ≤ u64_max → bytes (counted_bytes enc l).
Proof.
  intros He Hl Hn. apply Forall_app_2; [|by eapply bytes_join].
  apply bytes_encode_varint. pose proof (zlen_nonneg l). unfold in_u64. lia.
Qed.

Lemma bytes_f64 (v : Z) : in_u64 v → bytes (le_bytes 8 v).
Proof. intros _. by apply bytes_le_bytes. Qed.

Definition histogram_repr (v : HistogramValue) : Prop :=
  metadata_ok (h_metadata v) ∧ in_u64 (h_count v) ∧
  opt_in_u64 (h_sum v) ∧ opt_in_u64 (h_min v) ∧ opt_in_u64 (h_max v) ∧
  Forall in_u64 (h_explicit_bounds v) ∧ Forall in_u64 (h_bucket_counts v) ∧
  zlen (h_explicit_bounds v) < i64_max.

(** A storable histogram: machine integers and a valid shape. *)
Definition histogram_ok (v : HistogramValue) : Prop :=
  histogram_repr v ∧ histogram_shape (h_explicit_bounds v) (h_bucket_counts v) (h_count v).

Definition histogram_head_bytes (v : HistogramValue) : list Z :=
  metadata_bytes (h_metadata v) ++ encode_varint (h_count v) [] ++ opt_f64_bytes (h_sum v)
  ++ opt_f64_bytes (h_min v) ++ opt_f64_bytes (h_max v).
Definition histogram_bytes (v : HistogramValue) : list Z :=
  histogram_head_bytes v ++ counted_bytes (le_bytes 8) (h_explicit_bounds v)
  ++ counted_bytes (λ c, encode_varint c []) (h_bucket_counts v).

Lemma histogram_head_out v out : Histogram.encode_head v out = out ++ histogram_head_bytes v.
Proof.
  unfold Histogram.encode_head, histogram_head_bytes.
  rewrite !encode_opt_f64_out, encode_varint_out, encode_typed_metadata_out. by rewrite <- !app_assoc.
Qed.

Lemma counted_f64s_out l out :
  encode_items encode_f64 l (encode_varint (zlen l) out) = out ++ counted_bytes (le_bytes 8) l.
Proof. rewrite encode_f64s_out, encode_varint_out. by rewrite <- app_assoc. Qed.
Lemma counted_varints_out l out :
  encode_items encode_varint l (encode_varint (zlen l) out) = out ++ counted_bytes (λ c, encode_varint c []) l.
Proof. rewrite encode_varints_out, (encode_varint_out _ out). by rewrite <- app_assoc. Qed.

Lemma histogram_bytes_out v out :
  encode_items encode_varint (h_bucket_counts v)
    (encode_varint (zlen (h_bucket_counts v))
       (encode_items encode_f64 (h_explicit_bounds v)
          (encode_varint (zlen (h_explicit_bounds v)) (Histogram.encode_head v out))))
  = out ++ histogram_bytes v.
Proof.
  rewrite counted_varints_out, counted_f64s_out, histogram_head_out. unfold histogram_bytes.
  by rewrite <- !app_assoc.
Qed.

Lemma bytes_histogram_head v : histogram_repr v → bytes (histogram_head_bytes v).
Proof.
  intros (Hm & Hc & _). unfold histogram_head_bytes.
  rewrite !Forall_app. split_and!; [by apply bytes_metadata|by apply bytes_encode_varint|apply bytes_opt_f64..].
Qed.

(** The accepted shape, in the form the encoder and decoder test it. *)
Lemma histogram_ok_check v kind :
  histogram_repr v →
  validate_histogram_shape (h_explicit_bounds v) (h_bucket_counts v) (h_count v) kind = Ok tt
  ↔ histogram_ok v.
Proof.
  intros Hv. pose proof Hv as (_ & Hc & _ & _ & _ & _ & Hcs & Hn).
  rewrite histogram_shape_spec by (done || lia). unfold histogram_ok. tauto.
Qed.

Lemma bytes_histogram v : histogram_ok v → bytes (histogram_bytes v).
Proof.
  intros [Hv (_ & Hlen & _)]. pose proof Hv as (_ & _ & _ & _ & _ & Hbs & Hcs & Hn).
  pose proof (zlen_nonneg (h_explicit_bounds v)). unfold histogram_bytes. rewrite !Forall_app.
  split_and!; [by apply bytes_histogram_head|apply (bytes_counted _ in_u64)..];
    try done; try lia; [apply bytes_f64|apply bytes_encode_varint].
Qed.

Lemma histogram_decode al v :
  grants al → histogram_ok v → vec_ok (histogram_bytes v) →
  Histogram.decode_from al (histogram_bytes v) = Ok v.
Proof.
  intros Hal Hok Hsz. pose proof Hok as [Hv Hs]. pose proof Hv as (Hm & Hc & Hsum & Hmin & Hmax & Hbs & Hcs & Hn).
  pose proof (cursor_start _ (bytes_histogram v Hok) Hsz) as Hr.
  pose proof (cursor_zlen _ _ _ Hr) as Hz. set (buf := histogram_bytes v) in *.
  unfold buf in Hr at 2. unfold histogram_bytes, histogram_head_bytes in Hr.
  rewrite <- (app_nil_r (counted_bytes _ (h_bucket_counts v))) in Hr. rewrite <- !app_assoc in Hr.
  unfold Histogram.decode_from.
  read_fwd metadata_codec Hr. read_fwd varint_codec Hr. do 3 read_fwd opt_f64_codec Hr.
  read_fwd (f64s_codec "histogram explicit bounds" "decoded histogram bounds") Hr.
  read_fwd (varints_codec "histogram bucket counts" "decoded histogram bucket counts") Hr.
  rewrite (proj2 (histogram_ok_check v InvalidData Hv) Hok). cbn [mbind result_bind].
  unfold ensure_consumed. apply cursor_zlen in Hr. rewrite zlen_nil in Hr.
  rewrite (proj2 (Z.eqb_eq _ _)) by lia. cbn. by destruct v.
Qed.

Lemma histogram_bytes_len v :
  Forall in_u64 (h_explicit_bounds v) → vec_ok (histogram_bytes v) → zlen (h_explicit_bounds v) < i64_max.
Proof.
  intros Hbs Hsz. unfold histogram_bytes in Hsz. rewrite !zlen_app in Hsz.
  pose proof (counted_len (le_bytes 8) in_u64 8 _ f64_min Hbs).
  pose proof (zlen_nonneg (histogram_head_bytes v)). pose proof (zlen_nonneg (h_explicit_bounds v)).
  pose proof (zlen_nonneg (counted_bytes (λ c, encode_varint c []) (h_bucket_counts v))). lia.
Qed.

Lemma histogram_decode_inv al buf v :
  bytes buf → vec_ok buf → Histogram.decode_from al buf = Ok v → histogram_ok v ∧ buf = histogram_bytes v.
Proof.
  intros Hb Hsz Hd. pose proof (cursor_start _ Hb Hsz) as Hr. unfold Histogram.decode_from in Hd.
  set (l := buf) in Hr at 2. assert (Hl : buf = l) by done. clearbody l.
  read_inv metadata_codec al Hr Hd m Hm. read_inv varint_codec al Hr Hd n Hn.
  read_inv opt_f64_codec al Hr Hd s Hs. read_inv opt_f64_codec al Hr Hd mn Hmn.
  read_inv opt_f64_codec al Hr Hd mx Hmx.
  read_inv (f64s_codec "histogram explicit bounds" "decoded histogram bounds") al Hr Hd bs Hbs.
  read_inv (varints_codec "histogram bucket counts" "decoded histogram bucket counts") al Hr Hd cs Hcs.
  apply bind_ok in Hd as ([] & Hshape & Hd). apply bind_ok in Hd as (? & Hend & Hd). injection Hd as <-.
  unfold ensure_consumed in Hend. destruct (Z.eqb_spec c5 (zlen buf)) as [->|]; [|done].
  apply cursor_zlen in Hr. rewrite Z.sub_diag in Hr. apply zlen_0 in Hr as ->.
  rewrite app_nil_r in Hl. set (v := mk_histogram n s mn mx m bs cs).
  assert (Heq : buf = histogram_bytes v).
  { rewrite Hl. unfold histogram_bytes, histogram_head_bytes. by rewrite <- !app_assoc. }
  split; [|done]. apply (histogram_ok_check v InvalidData); [|done]. split_and!; try done.
  apply histogram_bytes_len; [done|]. by rewrite <- Heq.
Qed.

#[export] Instance histogram_varlen : VarLenEncoding HistogramValue := {
  encode_into := Histogram.encode_into;
  decode_from := Histogram.decode_from;
}.

#[export] Program Instance histogram_varlen_laws : VarLenLaws HistogramValue := {
  vl_repr := histogram_repr;
  vl_valid := histogram_ok;
  vl_bytes := histogram_bytes;
}.
Next Obligation.
  intros v out Hok. cbn. unfold Histogram.encode_into.
  rewrite (proj2 (histogram_ok_check v InvalidInput (proj1 Hok)) Hok). cbn [guarded].
  by rewrite histogram_bytes_out.
Qed.
Next Obligation.
  intros v out out' Hv. cbn. unfold Histogram.encode_into.
  destruct (validate_histogram_shape _ _ _ _) as [[]|] eqn:Hs; cbn [guarded]; [|done].
  intros [= <-]. rewrite histogram_bytes_out. by apply histogram_ok_check in Hs.
Qed.
Next Obligation. apply bytes_histogram. Qed.
Next Obligation. apply histogram_decode. Qed.
Next Obligation. apply histogram_decode_inv. Qed.

#[export] Instance histogram_schema : SchemaVarLenEncoding HistogramValue := {
  Schema := HistogramSchema;
  encode_schema_from_value := Histogram.encode_schema_from_value;
  decode_schema := Histogram.decode_schema;
  encode_value_with_schema := Histogram.encode_value_with_schema;
  decode_value_with_schema := Histogram.decode_value_with_schema;
}.

Definition histogram_schema_ok (s : HistogramSchema) : Prop :=
  (Forall (λ b, f64_is_finite b = true) (hs_explicit_bounds s) ∧ f64_ascending (hs_explicit_bounds s)) ∧
  Forall in_u64 (hs_explicit_bounds s) ∧ zlen (hs_explicit_bounds s) < i64_max ∧
  hs_bucket_len s = zlen (hs_explicit_bounds s) + 1.
Definition histogram_schema_of (v : HistogramValue) : HistogramSchema :=
  mk_histogram_schema (h_explicit_bounds v) (zlen (h_bucket_counts v)).
Definition histogram_schema_bytes (s : HistogramSchema) : list Z :=
  counted_bytes (le_bytes 8) (hs_explicit_bounds s) ++ encode_varint (hs_bucket_len s) [].
Definition histogram_value_bytes (v : HistogramValue) : list Z :=
  histogram_head_bytes v ++ mjoin ((λ c, encode_varint c []) <$> h_bucket_counts v).

Lemma histogram_bucket_len_u64 s : histogram_schema_ok s → in_u64 (hs_bucket_len s).
Proof. intros (_ & _ & Hn & ->). pose proof (zlen_nonneg (hs_explicit_bounds s)). unfold in_u64. lia. Qed.

Lemma histogram_schema_codec : Codec Histogram.decode_schema histogram_schema_bytes histogram_schema_ok.
Proof.
  split.
  - intros al buf c s rest Hal Hr Hs. pose proof (histogram_bucket_len_u64 s Hs) as Hu.
    destruct s as [bs n]. destruct Hs as (Hval & Hbs & Hlt & Hn). unfold histogram_schema_bytes in Hr.
    cbn [hs_explicit_bounds hs_bucket_len] in *. rewrite <- app_assoc in Hr. unfold Histogram.decode_schema.
    read_fwd (f64s_codec "histogram schema bounds" "decoded histogram schema bounds") Hr.
    read_fwd len_codec Hr. pose proof (zlen_nonneg bs). rewrite checked_add_u64_fits by lia.
    cbn [ok_or mbind result_bind]. rewrite (proj2 (Z.eqb_eq _ _) Hn), (proj2 (bounds_invalid_spec bs) Hval).
    cbn. eauto.
  - intros al buf c l s c' Hr Hd. unfold Histogram.decode_schema in Hd.
    pose proof Hr as (_ & Hsz & _).
    pose proof (cursor_zlen _ _ _ Hr) as Hz. pose proof Hr as (_ & _ & Hc & _).
    read_inv (f64s_codec "histogram schema bounds" "decoded histogram schema bounds") al Hr Hd bs Hbs.
    pose proof (counted_len (le_bytes 8) in_u64 8 bs f64_min Hbs) as Hlen. rewrite zlen_app in Hz.
    pose proof (zlen_nonneg rest). pose proof (zlen_nonneg bs).
    read_inv len_codec al Hr Hd n Hn. rewrite checked_add_u64_fits in Hd by lia.
    cbn [ok_or mbind result_bind] in Hd. destruct (Z.eqb_spec n (zlen bs + 1)) as [->|]; [|done].
    cbn [negb] in Hd. destruct (bounds_invalid bs) eqn:Hval; [done|]. injection Hd as <- <-.
    exists rest0. split_and!; [unfold histogram_schema_bytes; by rewrite <- app_assoc| |done].
    split_and!; cbn; try done; [by apply bounds_invalid_spec..|lia].
Qed.

Lemma items_min {A} (enc : A → list Z) ok l :
  (∀ a, ok a → 1 ≤ zlen (enc a)) → Forall ok l → zlen l ≤ zlen (mjoin (enc <$> l)).
Proof. intros Hm Hl. pose proof (zlen_join_min enc ok 1 l Hm Hl). lia. Qed.

Lemma histogram_value_codec s :
  histogram_schema_ok s →
  Codec (Histogram.decode_value_with_schema s) histogram_value_bytes
    (λ v, histogram_ok v ∧ histogram_schema_of v = s).
Proof.
  intros Hs. pose proof Hs as (Hval & Hbs & Hlt & Hn). pose proof (zlen_nonneg (hs_explicit_bounds s)).
  split.
  - intros al buf c v rest Hal Hr [[Hv Hshape] Hsame].
    pose proof Hv as (Hm & Hc & Hsum & Hmin & Hmax & _ & Hcs & _). destruct Hshape as (_ & Hlen & Htot).
    unfold histogram_value_bytes, histogram_head_bytes in Hr. rewrite <- !app_assoc in Hr.
    unfold Histogram.decode_value_with_schema.
    read_fwd metadata_codec Hr. read_fwd varint_codec Hr. do 3 read_fwd opt_f64_codec Hr.
    subst s. cbn [hs_bucket_len hs_explicit_bounds] in *.
    pose proof (items_min _ _ _ varint_min Hcs) as Hmin1. pose proof (zlen_nonneg rest).
    pose proof (zlen_nonneg (h_bucket_counts v)). unfold histogram_schema_of. cbn [hs_bucket_len hs_explicit_bounds].
    rewrite (ensure_fits _ _ _ _ _ _ Hr) by (rewrite ?zlen_app; lia). cbn [mbind result_bind].
    unfold try_decoded_vec, try_reserve at 1. rewrite Hal. cbn [mbind result_bind].
    replace (Z.to_nat (zlen (h_bucket_counts v))) with (length (h_bucket_counts v)) by (unfold zlen; lia).
    read_fwd (items_codec _ _ _ (length (h_bucket_counts v)) varint_codec) Hr.
    rewrite (proj2 (checked_count_total_spec _ _ _ (h_count v) Hcs)) by (unfold in_u64 in Hc; lia).
    cbn [mbind result_bind]. rewrite Z.eqb_refl. cbn [negb].
    unfold try_clone_decoded_slice, try_decoded_vec, try_reserve. rewrite Hal. cbn [mbind result_bind].
    eexists. split; [|done]. by destruct v.
  - intros al buf c l v c' Hr Hd. unfold Histogram.decode_value_with_schema in Hd.
    read_inv metadata_codec al Hr Hd m Hm. read_inv varint_codec al Hr Hd n Hcn.
    read_inv opt_f64_codec al Hr Hd sm Hsm. read_inv opt_f64_codec al Hr Hd mn Hmn.
    read_inv opt_f64_codec al Hr Hd mx Hmx.
    apply bind_ok in Hd as (? & _ & Hd). apply bind_ok in Hd as (? & _ & Hd).
    read_inv (items_codec _ _ _ (Z.to_nat (hs_bucket_len s)) varint_codec) al Hr Hd cs Hcs.
    destruct Hcs as [Hlen Hcs]. apply bind_ok in Hd as (t & Ht & Hd).
    apply checked_count_total_spec in Ht as [-> Ht]; [|done].
    destruct (Z.eqb_spec (total cs) n) as [<-|]; [|done]. cbn [negb] in Hd.
    apply bind_ok in Hd as (bs & Hclone & Hd). injection Hd as <- <-.
    apply bind_ok in Hclone as (? & _ & Hbs'). injection Hbs' as <-.
    eexists. split_and!; [| | |exact Hr].
    + unfold histogram_value_bytes, histogram_head_bytes. by rewrite <- !app_assoc.
    + split; [by split_and!|]. split_and!; cbn; [apply Hval|apply Hval| |done]. unfold zlen in *. lia.
    + unfold histogram_schema_of. cbn. destruct s as [bs bl]. f_equal. cbn in *. unfold zlen in *. lia.
Qed.

#[export] Program Instance histogram_schema_laws : SchemaVarLenLaws HistogramValue := {
  sv_repr := histogram_repr;
  sv_ok := histogram_ok;
  sv_schema := histogram_schema_of;
  schema_ok := histogram_schema_ok;
  schema_enc := histogram_schema_bytes;
  value_enc := histogram_value_bytes;
}.
Next Obligation. apply histogram_schema_codec. Qed.
Next Obligation. apply histogram_value_codec. Qed.
Next Obligation.
  intros s Hs. pose proof (histogram_bucket_len_u64 s Hs). destruct Hs as (_ & Hbs & Hlt & _).
  apply Forall_app_2; [|by apply bytes_encode_varint].
  apply (bytes_counted _ in_u64); [apply bytes_f64|done|lia].
Qed.
Next Obligation. by intros v []. Qed.
Next Obligation.
  intros v [Hv _]. pose proof Hv as (_ & _ & _ & _ & _ & _ & Hcs & _).
  apply Forall_app_2; [by apply bytes_histogram_head|].
  by apply (bytes_join _ in_u64); [apply bytes_encode_varint|].
Qed.
Next Obligation.
  intros v [(_ & _ & _ & _ & _ & Hbs & _ & Hn) ([Hf Ha] & Hlen & _)]. by split_and!.
Qed.
Next Obligation.
  intros v out [(_ & _ & _ & _ & _ & _ & _ & Hn) (Hval & Hlen & _)]. cbn.
  unfold Histogram.encode_schema_from_value.
  rewrite (proj2 (schema_shape_spec (h_explicit_bounds v) (zlen (h_bucket_counts v)) InvalidInput ltac:(lia)) (conj Hval Hlen)). cbn [guarded].
  rewrite encode_varint_out, counted_f64s_out. unfold histogram_schema_bytes. by rewrite <- app_assoc.
Qed.
Next Obligation.
  intros v out [(_ & Hc & _ & _ & _ & _ & Hcs & Hn) (Hval & Hlen & Htot)]. cbn.
  unfold Histogram.encode_value_with_schema. cbn [hs_bucket_len histogram_schema_of].
  rewrite Z.eqb_refl. cbn [negb].
  rewrite (proj2 (bucket_total_spec _ _ InvalidInput Hcs Hc) Htot). cbn [guarded].
  rewrite encode_varints_out, histogram_head_out. unfold histogram_value_bytes. by rewrite <- app_assoc.
Qed.
Next Obligation.
  intros v out out' (_ & _ & _ & _ & _ & Hbs & _ & Hn). cbn. unfold Histogram.encode_schema_from_value.
  destruct (validate_histogram_schema_shape _ _ _) as [[]|] eqn:Hs; cbn [guarded]; [|done]. intros [= <-].
  apply schema_shape_spec in Hs as [[Hf Ha] Hlen]; [|lia]. split; [by split_and!|].
  rewrite encode_varint_out, counted_f64s_out. unfold histogram_schema_bytes. by rewrite <- app_assoc.
Qed.
Next Obligation.
  intros v out out' Hv (Hval & _ & _ & Hlen). cbn. unfold Histogram.encode_value_with_schema.
  cbn [hs_bucket_len histogram_schema_of]. rewrite Z.eqb_refl. cbn [negb].
  pose proof Hv as (_ & Hc & _ & _ & _ & _ & Hcs & _).
  destruct (validate_histogram_bucket_total _ _ _) as [[]|] eqn:Hs; cbn [guarded]; [|done]. intros [= <-].
  apply bucket_total_spec in Hs; [|done..]. split; [by split|].
  rewrite encode_varints_out, histogram_head_out. unfold histogram_value_bytes. by rewrite <- app_assoc.
Qed.

(** ** Exponential histograms *)

Definition exponential_repr (v : ExponentialHistogramValue) : Prop :=
  metadata_ok (e_metadata v) ∧ in_u64 (e_count v) ∧
  opt_in_u64 (e_sum v) ∧ opt_in_u64 (e_min v) ∧ opt_in_u64 (e_max v) ∧
  in_i32 (e_scale v) ∧ in_u64 (e_zero_threshold v) ∧ in_u64 (e_zero_count v) ∧
  buckets_ok (e_positive v) ∧ buckets_ok (e_negative v) ∧
  zlen (eb_counts (e_positive v)) ≤ i64_max ∧ zlen (eb_counts (e_negative v)) ≤ i64_max.
Definition exponential_ok (v : ExponentialHistogramValue) : Prop :=
  exponential_repr v ∧
  e_zero_count v + total (eb_counts (e_positive v)) + total (eb_counts (e_negative v)) = e_count v.

Definition exponential_head_bytes (v : ExponentialHistogramValue) : list Z :=
  metadata_bytes (e_metadata v) ++ encode_varint (e_count v) [] ++ opt_f64_bytes (e_sum v)
  ++ opt_f64_bytes (e_min v) ++ opt_f64_bytes (e_max v).
Definition exponential_schema_bytes (s : ExponentialHistogramSchema) : list Z :=
  encode_varint (encode_zigzag_i64 (es_scale s)) [] ++ le_bytes 8 (es_zero_threshold s).
Definition exponential_schema_of (v : ExponentialHistogramValue) : ExponentialHistogramSchema :=
  mk_exponential_schema (e_scale v) (e_zero_threshold v).
Definition exponential_tail_bytes (v : ExponentialHistogramValue) : list Z :=
  encode_varint (e_zero_count v) [] ++ buckets_bytes (e_positive v) ++ buckets_bytes (e_negative v).
Definition exponential_bytes (v : ExponentialHistogramValue) : list Z :=
  exponential_head_bytes v ++ exponential_schema_bytes (exponential_schema_of v) ++ exponential_tail_bytes v.
Definition exponential_value_bytes (v : ExponentialHistogramValue) : list Z :=
  exponential_head_bytes v ++ exponential_tail_bytes v.

Lemma exponential_head_out v out : Exponential.encode_head v out = out ++ exponential_head_bytes v.
Proof.
  unfold Exponential.encode_head, exponential_head_bytes.
  rewrite !encode_opt_f64_out, encode_varint_out, encode_typed_metadata_out. by rewrite <- !app_assoc.
Qed.

Lemma bytes_buckets b : buckets_ok b → zlen (eb_counts b) ≤ u64_max → bytes (buckets_bytes b).
Proof.
  intros [Ho Hcs] Hn. apply Forall_app_2.
  - apply bytes_encode_varint, encode_zigzag_in_u64. unfold in_i32, in_i64 in *. lia.
  - by apply (bytes_counted _ in_u64); [apply bytes_encode_varint| |].
Qed.

Lemma bytes_exponential_head v : exponential_repr v → bytes (exponential_head_bytes v).
Proof.
  intros (Hm & Hc & _). unfold exponential_head_bytes. rewrite !Forall_app.
  split_and!; [by apply bytes_metadata|by apply bytes_encode_varint|apply bytes_opt_f64..].
Qed.

Lemma bytes_exponential_schema s :
  in_i32 (es_scale s) ∧ in_u64 (es_zero_threshold s) → bytes (exponential_schema_bytes s).
Proof.
  intros [Hs _]. apply Forall_app_2; [|by apply bytes_le_bytes].
  apply bytes_encode_varint, encode_zigzag_in_u64. unfold in_i32, in_i64 in *. lia.
Qed.

Lemma bytes_exponential_tail v : exponential_repr v → bytes (exponential_tail_bytes v).
Proof.
  intros (_ & _ & _ & _ & _ & _ & _ & Hz & Hp & Hn & Hpl & Hnl). unfold exponential_tail_bytes.
  rewrite !Forall_app. split_and!; [by apply bytes_encode_varint|apply bytes_buckets; [done|lia]..].
Qed.

Lemma exponential_check v kind :
  exponential_repr v →
  validate_exponential_histogram_shape (e_zero_count v) (eb_counts (e_positive v))
    (eb_counts (e_negative v)) (e_count v) kind = Ok tt ↔ exponential_ok v.
Proof.
  intros Hv. pose proof Hv as (_ & Hc & _ & _ & _ & _ & _ & Hz & [_ Hp] & [_ Hn] & _).
  rewrite exponential_shape_spec by done. unfold exponential_ok. tauto.
Qed.

Lemma buckets_len b : buckets_ok b → zlen (eb_counts b) ≤ zlen (buckets_bytes b).
Proof.
  intros [_ Hcs]. unfold buckets_bytes. rewrite zlen_app.
  pose proof (counted_len _ in_u64 1 _ varint_min Hcs).
  pose proof (zlen_nonneg (encode_varint (encode_zigzag_i64 (eb_offset b)) [])). lia.
Qed.

(** A buffer holds the bucket vectors it spells. *)
Lemma exponential_lens v a b :
  buckets_ok (e_positive v) → buckets_ok (e_negative v) → vec_ok (a ++ exponential_tail_bytes v ++ b) →
  zlen (eb_counts (e_positive v)) ≤ i64_max ∧ zlen (eb_counts (e_negative v)) ≤ i64_max.
Proof.
  intros Hp%buckets_len Hn%buckets_len. unfold exponential_tail_bytes. rewrite !zlen_app.
  pose proof (zlen_nonneg a). pose proof (zlen_nonneg b). pose proof (zlen_nonneg (encode_varint (e_zero_count v) [])).
  pose proof (zlen_nonneg (eb_counts (e_positive v))). pose proof (zlen_nonneg (eb_counts (e_negative v))). lia.
Qed.

Lemma exponential_decode al v :
  grants al → exponential_ok v → vec_ok (exponential_bytes v) →
  Exponential.decode_from al (exponential_bytes v) = Ok v.
Proof.
  intros Hal Hok Hsz. pose proof Hok as [Hv Hs].
  pose proof Hv as (Hm & Hc & Hsum & Hmin & Hmax & Hsc & Hzt & Hzc & Hp & Hn & _).
  assert (Hb : bytes (exponential_bytes v)).
  { unfold exponential_bytes. rewrite !Forall_app. split_and!;
      [by apply bytes_exponential_head|by apply bytes_exponential_schema|by apply bytes_exponential_tail]. }
  pose proof (cursor_start _ Hb Hsz) as Hr. set (buf := exponential_bytes v) in *.
  unfold buf in Hr at 2. unfold exponential_bytes, exponential_head_bytes, exponential_schema_bytes,
    exponential_tail_bytes, exponential_schema_of in Hr. cbn [es_scale es_zero_threshold] in Hr.
  rewrite <- (app_nil_r (buckets_bytes (e_negative v))) in Hr. rewrite <- !app_assoc in Hr.
  unfold Exponential.decode_from.
  read_fwd metadata_codec Hr. read_fwd varint_codec Hr. do 3 read_fwd opt_f64_codec Hr.
  read_fwd i32_codec Hr. read_fwd f64_codec Hr. read_fwd varint_codec Hr. do 2 read_fwd buckets_codec Hr.
  rewrite (proj2 (exponential_check v InvalidData Hv) Hok). cbn [mbind result_bind].
  unfold ensure_consumed. apply cursor_zlen in Hr. rewrite zlen_nil in Hr.
  rewrite (proj2 (Z.eqb_eq _ _)) by lia. cbn. by destruct v.
Qed.

Lemma exponential_decode_inv al buf v :
  bytes buf → vec_ok buf → Exponential.decode_from al buf = Ok v →
  exponential_ok v ∧ buf = exponential_bytes v.
Proof.
  intros Hb Hsz Hd. pose proof (cursor_start _ Hb Hsz) as Hr. unfold Exponential.decode_from in Hd.
  set (l := buf) in Hr at 2. assert (Hl : buf = l) by done. clearbody l.
  read_inv metadata_codec al Hr Hd m Hm. read_inv varint_codec al Hr Hd n Hn.
  read_inv opt_f64_codec al Hr Hd s Hs. read_inv opt_f64_codec al Hr Hd mn Hmn.
  read_inv opt_f64_codec al Hr Hd mx Hmx. read_inv i32_codec al Hr Hd scale Hsc.
  read_inv f64_codec al Hr Hd zt Hzt. read_inv varint_codec al Hr Hd zc Hzc.
  read_inv buckets_codec al Hr Hd p Hp. read_inv buckets_codec al Hr Hd q Hq.
  apply bind_ok in Hd as ([] & Hshape & Hd). apply bind_ok in Hd as (? & Hend & Hd). injection Hd as <-.
  unfold ensure_consumed in Hend. destruct (Z.eqb_spec c8 (zlen buf)) as [->|]; [|done].
  apply cursor_zlen in Hr. rewrite Z.sub_diag in Hr. apply zlen_0 in Hr as ->.
  rewrite app_nil_r in Hl. set (v := mk_exponential n s mn mx scale zt zc m p q).
  assert (Heq : buf = exponential_bytes v).
  { rewrite Hl. unfold exponential_bytes, exponential_head_bytes, exponential_schema_bytes,
      exponential_tail_bytes. by rewrite <- !app_assoc. }
  split; [|done]. rewrite Heq in Hsz. unfold exponential_bytes in Hsz. rewrite app_assoc in Hsz.
  rewrite <- (app_nil_r (exponential_tail_bytes v)) in Hsz.
  destruct (exponential_lens v _ _ Hp Hq Hsz) as [Hpl Hql].
  apply (exponential_check v InvalidData); [by split_and!|done].
Qed.

#[export] Instance exponential_varlen : VarLenEncoding ExponentialHistogramValue := {
  encode_into := Exponential.encode_into;
  decode_from := Exponential.decode_from;
}.

Lemma exponential_bytes_out v out :
  encode_buckets (e_negative v) (encode_buckets (e_positive v) (encode_varint (e_zero_count v)
    (encode_f64 (e_zero_threshold v)
       (encode_varint (encode_zigzag_i64 (e_scale v)) (Exponential.encode_head v out)))))
  = out ++ exponential_bytes v.
Proof.
  rewrite !encode_buckets_out, exponential_head_out. unfold encode_f64.
  rewrite (encode_varint_out (e_zero_count v)), (encode_varint_out (encode_zigzag_i64 _)).
  unfold exponential_bytes, exponential_schema_bytes, exponential_tail_bytes. by rewrite <- !app_assoc.
Qed.

#[export] Program Instance exponential_varlen_laws : VarLenLaws ExponentialHistogramValue := {
  vl_repr := exponential_repr;
  vl_valid := exponential_ok;
  vl_bytes := exponential_bytes;
}.
Next Obligation.
  intros v out Hok. cbn. unfold Exponential.encode_into, Exponential.shape_check.
  rewrite (proj2 (exponential_check v InvalidInput (proj1 Hok)) Hok). cbn [guarded].
  by rewrite exponential_bytes_out.
Qed.
Next Obligation.
  intros v out out' Hv. cbn. unfold Exponential.encode_into, Exponential.shape_check.
  destruct (validate_exponential_histogram_shape _ _ _ _ _) as [[]|] eqn:Hs; cbn [guarded]; [|done].
  intros [= <-]. rewrite exponential_bytes_out. by apply exponential_check in Hs.
Qed.
Next Obligation.
  intros v [Hv _]. unfold exponential_bytes. rewrite !Forall_app. split_and!;
    [by apply bytes_exponential_head| |by apply bytes_exponential_tail].
  apply bytes_exponential_schema. destruct Hv as (_ & _ & _ & _ & _ & Hsc & Hzt & _). by split.
Qed.
Next Obligation. apply exponential_decode. Qed.
Next Obligation. apply exponential_decode_inv. Qed.

#[export] Instance exponential_schema : SchemaVarLenEncoding ExponentialHistogramValue := {
  Schema := ExponentialHistogramSchema;
  encode_schema_from_value := Exponential.encode_schema_from_value;
  decode_schema := Exponential.decode_schema;
  encode_value_with_schema := Exponential.encode_value_with_schema;
  decode_value_with_schema := Exponential.decode_value_with_schema;
}.

Definition exponential_schema_ok (s : ExponentialHistogramSchema) : Prop :=
  in_i32 (es_scale s) ∧ in_u64 (es_zero_threshold s).

Lemma exponential_schema_codec :
  Codec Exponential.decode_schema exponential_schema_bytes exponential_schema_ok.
Proof.
  split.
  - intros al buf c [sc zt] rest Hal Hr [Hsc Hzt]. unfold exponential_schema_bytes in Hr.
    cbn [es_scale es_zero_threshold] in *. rewrite <- app_assoc in Hr. unfold Exponential.decode_schema.
    read_fwd i32_codec Hr. read_fwd f64_codec Hr. eauto.
  - intros al buf c l s c' Hr Hd. unfold Exponential.decode_schema in Hd.
    read_inv i32_codec al Hr Hd scale Hsc. read_inv f64_codec al Hr Hd zt Hzt. injection Hd as <- <-.
    eexists. split_and!; [unfold exponential_schema_bytes; by rewrite <- app_assoc|by split|done].
Qed.

Lemma exponential_value_codec s :
  exponential_schema_ok s →
  Codec (Exponential.decode_value_with_schema s) exponential_value_bytes
    (λ v, exponential_ok v ∧ exponential_schema_of v = s).
Proof.
  intros [Hsc Hzt]. split.
  - intros al buf c v rest Hal Hr [Hok Hsame]. pose proof Hok as [Hv Hs].
    pose proof Hv as (Hm & Hc & Hsum & Hmin & Hmax & _ & _ & Hzc & [Hpo Hp] & [Hno Hn] & _).
    unfold exponential_value_bytes, exponential_head_bytes, exponential_tail_bytes, buckets_bytes in Hr.
    rewrite <- !app_assoc in Hr. unfold Exponential.decode_value_with_schema.
    read_fwd metadata_codec Hr. read_fwd varint_codec Hr. do 3 read_fwd opt_f64_codec Hr.
    read_fwd varint_codec Hr. read_fwd i32_codec Hr.
    read_fwd (varints_codec "positive exponential histogram bucket counts"
      "decoded positive exponential histogram bucket counts") Hr.
    read_fwd i32_codec Hr.
    read_fwd (varints_codec "negative exponential histogram bucket counts"
      "decoded negative exponential histogram bucket counts") Hr.
    rewrite (proj2 (exponential_check v InvalidData Hv) Hok). cbn [mbind result_bind].
    eexists. split; [|done]. subst s. by destruct v as [???????? [] []].
  - intros al buf c l v c' Hr Hd. pose proof (cursor_zlen _ _ _ Hr) as Hz. pose proof Hr as (_ & Hsz & Hcc & _).
    unfold Exponential.decode_value_with_schema in Hd.
    set (l0 := l) in Hz. assert (Hl : l0 = l) by done. clearbody l0.
    read_inv metadata_codec al Hr Hd m Hm. read_inv varint_codec al Hr Hd n Hcn.
    read_inv opt_f64_codec al Hr Hd sm Hsm. read_inv opt_f64_codec al Hr Hd mn Hmn.
    read_inv opt_f64_codec al Hr Hd mx Hmx. read_inv varint_codec al Hr Hd zc Hzc.
    read_inv i32_codec al Hr Hd po Hpo.
    read_inv (varints_codec "positive exponential histogram bucket counts"
      "decoded positive exponential histogram bucket counts") al Hr Hd ps Hps.
    read_inv i32_codec al Hr Hd no Hno.
    read_inv (varints_codec "negative exponential histogram bucket counts"
      "decoded negative exponential histogram bucket counts") al Hr Hd ns Hns.
    apply bind_ok in Hd as ([] & Hshape & Hd). injection Hd as <- <-.
    set (v := mk_exponential _ _ _ _ _ _ _ _ _ _) in *.
    match goal with Hr : cursor_rep _ _ ?r |- _ => exists r; assert (Heq : l0 = exponential_value_bytes v ++ r) end.
    { rewrite Hl. unfold exponential_value_bytes, exponential_head_bytes, exponential_tail_bytes, buckets_bytes.
      by rewrite <- !app_assoc. }
    rewrite <- Hl. split_and!; [done| |by destruct s|done].
    assert (Hvec : vec_ok l0) by lia. rewrite Heq in Hvec. unfold exponential_value_bytes in Hvec.
    rewrite <- app_assoc in Hvec. destruct (exponential_lens v _ _ (conj Hpo Hps) (conj Hno Hns) Hvec) as [Hpl Hnl].
    apply (exponential_check v InvalidData); [by split_and!|done].
Qed.

#[export] Program Instance exponential_schema_laws : SchemaVarLenLaws ExponentialHistogramValue := {
  sv_repr := exponential_repr;
  sv_ok := exponential_ok;
  sv_schema := exponential_schema_of;
  schema_ok := exponential_schema_ok;
  schema_enc := exponential_schema_bytes;
  value_enc := exponential_value_bytes;
}.
Next Obligation. apply exponential_schema_codec. Qed.
Next Obligation. apply exponential_value_codec. Qed.
Next Obligation. apply bytes_exponential_schema. Qed.
Next Obligation. by intros v []. Qed.
Next Obligation.
  intros v [Hv _]. apply Forall_app_2; [by apply bytes_exponential_head|by apply bytes_exponential_tail].
Qed.
Next Obligation. intros v [(_ & _ & _ & _ & _ & Hsc & Hzt & _) _]. by split. Qed.
Next Obligation.
  intros v out _. cbn. unfold Exponential.encode_schema_from_value, encode_f64.
  rewrite encode_varint_out. unfold exponential_schema_bytes. by rewrite <- app_assoc.
Qed.
Next Obligation.
  intros v out Hok. cbn. unfold Exponential.encode_value_with_schema, Exponential.shape_check.
  cbn [es_scale es_zero_threshold exponential_schema_of]. rewrite !Z.eqb_refl. cbn [negb orb].
  rewrite (proj2 (exponential_check v InvalidInput (proj1 Hok)) Hok). cbn [guarded].
  rewrite !encode_buckets_out, encode_varint_out, exponential_head_out.
  unfold exponential_value_bytes, exponential_tail_bytes. by rewrite <- !app_assoc.
Qed.
Next Obligation.
  intros v out out' (_ & _ & _ & _ & _ & Hsc & Hzt & _). cbn. unfold Exponential.encode_schema_from_value, encode_f64.
  intros [= <-]. split; [by split|]. rewrite encode_varint_out. unfold exponential_schema_bytes.
  by rewrite <- app_assoc.
Qed.
Next Obligation.
  intros v out out' Hv _. cbn. unfold Exponential.encode_value_with_schema, Exponential.shape_check.
  cbn [es_scale es_zero_threshold exponential_schema_of]. rewrite !Z.eqb_refl. cbn [negb orb].
  destruct (validate_exponential_histogram_shape _ _ _ _ _) as [[]|] eqn:Hs; cbn [guarded]; [|done].
  intros [= <-]. apply exponential_check in Hs; [|done]. split; [done|].
  rewrite !encode_buckets_out, encode_varint_out, exponential_head_out.
  unfold exponential_value_bytes, exponential_tail_bytes. by rewrite <- !app_assoc.
Qed.

(** ** Summaries *)

Definition quantile_ok (q : SummaryQuantileValue) : Prop := in_u64 (q_quantile q) ∧ in_u64 (q_value q).
Definition quantile_bytes (q : SummaryQuantileValue) : list Z :=
  le_bytes 8 (q_quantile q) ++ le_bytes 8 (q_value q).

Definition summary_repr (v : SummaryValue) : Prop :=
  metadata_ok (s_metadata v) ∧ in_u64 (s_count v) ∧ in_u64 (s_sum v) ∧
  Forall quantile_ok (s_quantiles v) ∧ zlen (s_quantiles v) ≤ i64_max.
Definition summary_ok (v : SummaryValue) : Prop := summary_repr v ∧ quantile_shape (Summary.positions v).

Definition summary_head_bytes (v : SummaryValue) : list Z :=
  metadata_bytes (s_metadata v) ++ encode_varint (s_count v) [] ++ le_bytes 8 (s_sum v).
Definition summary_bytes (v : SummaryValue) : list Z :=
  summary_head_bytes v ++ counted_bytes quantile_bytes (s_quantiles v).
Definition summary_schema_of (v : SummaryValue) : SummarySchema := mk_summary_schema (Summary.positions v).
Definition summary_schema_bytes (s : SummarySchema) : list Z := counted_bytes (le_bytes 8) (ss_quantiles s).
Definition summary_value_bytes (v : SummaryValue) : list Z :=
  summary_head_bytes v ++ mjoin (le_bytes 8 <$> (q_value <$> s_quantiles v)).
Definition summary_schema_ok (s : SummarySchema) : Prop :=
  Forall in_u64 (ss_quantiles s) ∧ zlen (ss_quantiles s) ≤ i64_max ∧ quantile_shape (ss_quantiles s).

Lemma summary_head_out v out : Summary.encode_head v out = out ++ summary_head_bytes v.
Proof.
  unfold Summary.encode_head, summary_head_bytes, encode_f64.
  rewrite encode_varint_out, encode_typed_metadata_out. by rewrite <- !app_assoc.
Qed.

Lemma bytes_summary_head v : summary_repr v → bytes (summary_head_bytes v).
Proof.
  intros (Hm & Hc & _). unfold summary_head_bytes. rewrite !Forall_app.
  split_and!; [by apply bytes_metadata|by apply bytes_encode_varint|by apply bytes_le_bytes].
Qed.

#[export] Instance quantile_codec : Codec (λ _, Summary.decode_quantile) quantile_bytes quantile_ok.
Proof.
  split.
  - intros al buf c [q v] rest Hal Hr [Hq Hv]. unfold quantile_bytes in Hr. cbn [q_quantile q_value] in *.
    rewrite <- app_assoc in Hr. unfold Summary.decode_quantile. do 2 read_fwd f64_codec Hr. eauto.
  - intros al buf c l q c' Hr Hd. unfold Summary.decode_quantile in Hd.
    read_inv f64_codec al Hr Hd x Hx. read_inv f64_codec al Hr Hd y Hy. injection Hd as <- <-.
    eexists. split_and!; [unfold quantile_bytes; by rewrite <- app_assoc|by split|done].
Qed.

Lemma quantile_min q : quantile_ok q → 16 ≤ zlen (quantile_bytes q).
Proof. intros _. unfold quantile_bytes. by rewrite zlen_app, !zlen_le_bytes. Qed.

Lemma bytes_quantile q : quantile_ok q → bytes (quantile_bytes q).
Proof. intros _. by apply Forall_app_2; apply bytes_le_bytes. Qed.

Definition quantiles_codec :=
  counted_codec Summary.decode_quantile _ _ 16 "summary quantile pairs"
    "decoded summary quantile pairs" quantile_codec ltac:(lia) quantile_min.

Lemma encode_quantiles_out l out :
  encode_items Summary.encode_quantile l (encode_varint (zlen l) out) = out ++ counted_bytes quantile_bytes l.
Proof.
  rewrite (encode_items_out _ quantile_bytes).
  - rewrite encode_varint_out. by rewrite <- app_assoc.
  - intros q o. unfold Summary.encode_quantile, encode_f64, quantile_bytes. by rewrite <- app_assoc.
Qed.

Lemma bytes_summary v : summary_ok v → bytes (summary_bytes v).
Proof.
  intros [Hv _]. apply Forall_app_2; [by apply bytes_summary_head|].
  destruct Hv as (_ & _ & _ & Hq & Hn). by apply (bytes_counted _ quantile_ok); [apply bytes_quantile| |lia].
Qed.

Lemma summary_decode al v :
  grants al → summary_ok v → vec_ok (summary_bytes v) → Summary.decode_from al (summary_bytes v) = Ok v.
Proof.
  intros Hal Hok Hsz. pose proof Hok as [(Hm & Hc & Hs & Hq & Hn) Hpos].
  pose proof (cursor_start _ (bytes_summary v Hok) Hsz) as Hr. set (buf := summary_bytes v) in *.
  unfold buf in Hr at 2. unfold summary_bytes, summary_head_bytes in Hr.
  rewrite <- (app_nil_r (counted_bytes _ _)) in Hr. rewrite <- !app_assoc in Hr.
  unfold Summary.decode_from.
  read_fwd metadata_codec Hr. read_fwd varint_codec Hr. read_fwd f64_codec Hr. read_fwd quantiles_codec Hr.
  fold (Summary.positions v).
  rewrite (proj2 (quantile_shape_spec (Summary.positions v) InvalidData) Hpos). cbn [mbind result_bind].
  unfold ensure_consumed. apply cursor_zlen in Hr. rewrite zlen_nil in Hr.
  rewrite (proj2 (Z.eqb_eq _ _)) by lia. cbn. by destruct v.
Qed.

Lemma summary_decode_inv al buf v :
  bytes buf → vec_ok buf → Summary.decode_from al buf = Ok v → summary_ok v ∧ buf = summary_bytes v.
Proof.
  intros Hb Hsz Hd. pose proof (cursor_start _ Hb Hsz) as Hr. unfold Summary.decode_from in Hd.
  set (l := buf) in Hr at 2. assert (Hl : buf = l) by done. clearbody l.
  read_inv metadata_codec al Hr Hd m Hm. read_inv varint_codec al Hr Hd n Hn.
  read_inv f64_codec al Hr Hd s Hs. read_inv quantiles_codec al Hr Hd qs Hqs.
  apply bind_ok in Hd as ([] & Hshape & Hd). apply bind_ok in Hd as (? & Hend & Hd). injection Hd as <-.
  unfold ensure_consumed in Hend. destruct (Z.eqb_spec c2 (zlen buf)) as [->|]; [|done].
  apply cursor_zlen in Hr. rewrite Z.sub_diag in Hr. apply zlen_0 in Hr as ->.
  rewrite app_nil_r in Hl. set (v := mk_summary n s m qs).
  assert (Heq : buf = summary_bytes v).
  { rewrite Hl. unfold summary_bytes, summary_head_bytes. by rewrite <- !app_assoc. }
  split; [|done]. split; [|by apply (quantile_shape_spec _ InvalidData)]. split_and!; try done.
  rewrite Hl, !zlen_app in Hsz. pose proof (counted_len _ quantile_ok 16 qs quantile_min Hqs).
  pose proof (zlen_nonneg (metadata_bytes m)). pose proof (zlen_nonneg (encode_varint n [])).
  pose proof (zlen_nonneg (le_bytes 8 s)). pose proof (zlen_nonneg qs). cbn [s_quantiles v]. lia.
Qed.

#[export] Instance summary_varlen : VarLenEncoding SummaryValue := {
  encode_into := Summary.encode_into;
  decode_from := Summary.decode_from;
}.

#[export] Program Instance summary_varlen_laws : VarLenLaws SummaryValue := {
  vl_repr := summary_repr;
  vl_valid := summary_ok;
  vl_bytes := summary_bytes;
}.
Next Obligation.
  intros v out Hok. cbn. unfold Summary.encode_into.
  rewrite (proj2 (quantile_shape_spec (Summary.positions v) InvalidInput) (proj2 Hok)). cbn [guarded].
  rewrite encode_quantiles_out, summary_head_out. unfold summary_bytes. by rewrite <- app_assoc.
Qed.
Next Obligation.
  intros v out out' Hv. cbn. unfold Summary.encode_into.
  destruct (validate_summary_quantile_positions _ _) as [[]|] eqn:Hs; cbn [guarded]; [|done].
  intros [= <-]. apply quantile_shape_spec in Hs. split; [by split|].
  rewrite encode_quantiles_out, summary_head_out. unfold summary_bytes. by rewrite <- app_assoc.
Qed.
Next Obligation. apply bytes_summary. Qed.
Next Obligation. apply summary_decode. Qed.
Next Obligation. apply summary_decode_inv. Qed.

#[export] Instance summary_schema : SchemaVarLenEncoding SummaryValue := {
  Schema := SummarySchema;
  encode_schema_from_value := Summary.encode_schema_from_value;
  decode_schema := Summary.decode_schema;
  encode_value_with_schema := Summary.encode_value_with_schema;
  decode_value_with_schema := Summary.decode_value_with_schema;
}.

Lemma summary_schema_codec : Codec Summary.decode_schema summary_schema_bytes summary_schema_ok.
Proof.
  split.
  - intros al buf c [qs] rest Hal Hr (Hq & Hn & Hs). unfold summary_schema_bytes in Hr.
    cbn [ss_quantiles] in *. unfold Summary.decode_schema.
    read_fwd (f64s_codec "summary schema quantiles" "decoded summary schema quantiles") Hr.
    rewrite (proj2 (quantile_shape_spec _ InvalidData) Hs). cbn. eauto.
  - intros al buf c l s c' Hr Hd. pose proof (cursor_zlen _ _ _ Hr) as Hz. pose proof Hr as (_ & Hsz & Hc & _).
    unfold Summary.decode_schema in Hd.
    read_inv (f64s_codec "summary schema quantiles" "decoded summary schema quantiles") al Hr Hd qs Hqs.
    apply bind_ok in Hd as ([] & Hs & Hd). injection Hd as <- <-. rewrite zlen_app in Hz.
    pose proof (counted_len _ in_u64 8 qs f64_min Hqs). pose proof (zlen_nonneg qs). pose proof (zlen_nonneg rest).
    apply quantile_shape_spec in Hs as [Hs1 Hs2].
    eexists. split_and!; [done| |done]. split_and!; cbn [ss_quantiles]; try done. lia.
Qed.

Lemma zip_quantiles (l : list SummaryQuantileValue) :
  zip_with mk_quantile (q_quantile <$> l) (q_value <$> l) = l.
Proof. induction l as [|[q v] l IH]; [done|]. cbn. by rewrite IH. Qed.

Lemma zip_with_quantile (ps vs : list Z) :
  length vs = length ps →
  q_quantile <$> zip_with mk_quantile ps vs = ps ∧ q_value <$> zip_with mk_quantile ps vs = vs.
Proof.
  revert vs. induction ps as [|p ps IH]; intros [|v vs] Hl; try done. cbn.
  destruct (IH vs) as [H1 H2]; [by injection Hl|]. by rewrite H1, H2.
Qed.

Lemma quantile_values l : Forall quantile_ok l ↔ Forall in_u64 (q_quantile <$> l) ∧ Forall in_u64 (q_value <$> l).
Proof. rewrite !Forall_fmap, <- Forall_and. done. Qed.

Lemma summary_value_codec s :
  summary_schema_ok s →
  Codec (Summary.decode_value_with_schema s) summary_value_bytes (λ v, summary_ok v ∧ summary_schema_of v = s).
Proof.
  intros (Hqu & Hqn & Hqs). split.
  - intros al buf c v rest Hal Hr [[(Hm & Hc & Hs & Hq & Hn) Hpos] Hsame].
    apply quantile_values in Hq as [_ Hvals].
    unfold summary_value_bytes, summary_head_bytes in Hr. rewrite <- !app_assoc in Hr.
    unfold Summary.decode_value_with_schema.
    read_fwd metadata_codec Hr. read_fwd varint_codec Hr. read_fwd f64_codec Hr.
    assert (Hss : ss_quantiles s = q_quantile <$> s_quantiles v) by by subst s.
    assert (Hlen : length (ss_quantiles s) = length (q_value <$> s_quantiles v)).
    { by rewrite Hss, !length_fmap. }
    pose proof (zlen_join_min _ in_u64 8 _ f64_min Hvals) as Hmin. pose proof (zlen_nonneg rest).
    pose proof (zlen_nonneg (q_value <$> s_quantiles v)).
    assert (Hz : zlen (ss_quantiles s) = zlen (q_value <$> s_quantiles v)) by (unfold zlen; by rewrite Hlen).
    rewrite (ensure_fits _ _ _ _ _ _ Hr) by (rewrite ?zlen_app; lia). cbn [mbind result_bind].
    unfold try_decoded_vec, try_reserve. rewrite Hal. cbn [mbind result_bind]. rewrite Hlen.
    read_fwd (items_codec _ _ _ (length (q_value <$> s_quantiles v)) f64_codec) Hr.
    rewrite Hss, zip_quantiles. eexists. split; [|done]. by destruct v.
  - intros al buf c l v c' Hr Hd. unfold Summary.decode_value_with_schema in Hd.
    read_inv metadata_codec al Hr Hd m Hm. read_inv varint_codec al Hr Hd n Hn.
    read_inv f64_codec al Hr Hd sm Hsm. apply bind_ok in Hd as (? & _ & Hd). apply bind_ok in Hd as (? & _ & Hd).
    read_inv (items_codec _ _ _ (length (ss_quantiles s)) f64_codec) al Hr Hd vs Hvs.
    injection Hd as <- <-. destruct Hvs as [Hlen Hvs]. destruct (zip_with_quantile _ _ Hlen) as [Hz1 Hz2].
    eexists. split_and!; [| | |exact Hr].
    + unfold summary_value_bytes, summary_head_bytes. cbn [s_quantiles s_metadata s_count s_sum].
      rewrite Hz2. by rewrite <- !app_assoc.
    + split; [|by unfold Summary.positions; cbn; rewrite Hz1]. split_and!; try done; cbn [s_quantiles].
      * apply quantile_values. by rewrite Hz1, Hz2.
      * unfold zlen in *. rewrite length_zip_with. lia.
    + unfold summary_schema_of, Summary.positions. cbn [s_quantiles]. rewrite Hz1. by destruct s.
Qed.

Lemma positions_match_refl l : Summary.positions_match l (q_quantile <$> l) = true.
Proof. induction l as [|q l IH]; [done|]. cbn. by rewrite Z.eqb_refl, IH. Qed.

Lemma summary_values_out v out :
  encode_items (λ q, encode_f64 (q_value q)) (s_quantiles v) (Summary.encode_head v out)
  = out ++ summary_value_bytes v.
Proof.
  rewrite (encode_items_out _ (λ q, le_bytes 8 (q_value q))) by done.
  rewrite summary_head_out. unfold summary_value_bytes. rewrite <- app_assoc. by rewrite <- list_fmap_compose.
Qed.

Lemma summary_schema_out v out :
  encode_items (λ q, encode_f64 (q_quantile q)) (s_quantiles v) (encode_varint (zlen (s_quantiles v)) out)
  = out ++ summary_schema_bytes (summary_schema_of v).
Proof.
  rewrite (encode_items_out _ (λ q, le_bytes 8 (q_quantile q))) by done.
  rewrite encode_varint_out. unfold summary_schema_bytes, counted_bytes, summary_schema_of, Summary.positions.
  cbn [ss_quantiles]. rewrite <- app_assoc, <- list_fmap_compose. unfold zlen. by rewrite length_fmap.
Qed.

Lemma summary_schema_of_ok v : summary_ok v → summary_schema_ok (summary_schema_of v).
Proof.
  intros [(_ & _ & _ & Hq & Hn) Hpos]. apply quantile_values in Hq as [Hqu _]. split_and!; try done.
  - cbn. unfold zlen, Summary.positions in *. by rewrite length_fmap.
Qed.

#[export] Program Instance summary_schema_laws : SchemaVarLenLaws SummaryValue := {
  sv_repr := summary_repr;
  sv_ok := summary_ok;
  sv_schema := summary_schema_of;
  schema_ok := summary_schema_ok;
  schema_enc := summary_schema_bytes;
  value_enc := summary_value_bytes;
}.
Next Obligation. apply summary_schema_codec. Qed.
Next Obligation. apply summary_value_codec. Qed.
Next Obligation.
  intros s (Hq & Hn & _). apply (bytes_counted _ in_u64); [apply bytes_f64|done|lia].
Qed.
Next Obligation. by intros v []. Qed.
Next Obligation.
  intros v [Hv _]. apply Forall_app_2; [by apply bytes_summary_head|].
  destruct Hv as (_ & _ & _ & Hq & _). apply quantile_values in Hq as [_ Hvals].
  by apply (bytes_join _ in_u64); [apply bytes_f64|].
Qed.
Next Obligation. apply summary_schema_of_ok. Qed.
Next Obligation.
  intros v out Hok. cbn. unfold Summary.encode_schema_from_value.
  rewrite (proj2 (quantile_shape_spec (Summary.positions v) InvalidInput) (proj2 Hok)). cbn [guarded].
  by rewrite summary_schema_out.
Qed.
Next Obligation.
  intros v out Hok. cbn. unfold Summary.encode_value_with_schema, Summary.positions. cbn [ss_quantiles summary_schema_of].
  unfold zlen, Summary.positions. rewrite length_fmap, Z.eqb_refl, positions_match_refl. cbn [negb].
  by rewrite summary_values_out.
Qed.
Next Obligation.
  intros v out out' Hv. cbn. unfold Summary.encode_schema_from_value.
  destruct (validate_summary_quantile_positions _ _) as [[]|] eqn:Hs; cbn [guarded]; [|done]. intros [= <-].
  apply quantile_shape_spec in Hs. split; [by apply summary_schema_of_ok|]. by rewrite summary_schema_out.
Qed.
Next Obligation.
  intros v out out' Hv (_ & _ & Hpos). cbn. unfold Summary.encode_value_with_schema.
  cbn [ss_quantiles summary_schema_of]. unfold zlen, Summary.positions.
  rewrite length_fmap, Z.eqb_refl, positions_match_refl. cbn [negb]. intros [= <-]. split; [by split|].
  by rewrite summary_values_out.
Qed.

(** ** Theorems *)

(** The fields of a sample are machine integers. *)
Definition sample_repr (v : SampleValue) : Prop :=
  match v with
  | SampleFloat b => in_u64 b
  | SampleInt64 z => in_i64 z
  | SampleHistogram v => histogram_repr v
  | SampleExponentialHistogram v => exponential_repr v
  | SampleSummary v => summary_repr v
  end.

(** What storage requires of a sample's shape. *)
Definition sample_shape (v : SampleValue) : Prop :=
  match v with
  | SampleFloat _ | SampleInt64 _ => True
  | SampleHistogram v => histogram_shape (h_explicit_bounds v) (h_bucket_counts v) (h_count v)
  | SampleExponentialHistogram v =>
      e_zero_count v + total (eb_counts (e_positive v)) + total (eb_counts (e_negative v)) = e_count v
  | SampleSummary v => quantile_shape (q_quantile <$> s_quantiles v)
  end.

(** [validate_for_storage] accepts exactly the samples whose bounds are
    finite and strictly ascending with one bucket more than bounds, whose
    bucket counts sum to the count without overflow, and whose quantiles are
    strictly ascending in the unit interval. *)
Theorem validate_for_storage_decides v :
  sample_repr v → validate_for_storage v = Ok tt ↔ sample_shape v.
Proof.
  destruct v as [b|z|v|v|v]; intros Hv; [done|done|..]; cbn [validate_for_storage sample_shape sample_repr] in *.
  - rewrite histogram_ok_check by done. unfold histogram_ok. tauto.
  - rewrite exponential_check by done. unfold exponential_ok. tauto.
  - apply quantile_shape_spec.
Qed.

Definition sample_histogram : HistogramValue :=
  mk_histogram 3 (Some 0x3ff0000000000000) None None
    (mk_metadata (Some 5) 0 TemporalityCumulative ResetUnknown) [0; 0x3ff0000000000000] [1; 2; 0].

Lemma sample_histogram_ok : histogram_ok sample_histogram.
Proof.
  split; [|vm_compute; intuition; repeat constructor].
  repeat split; repeat constructor; vm_compute; try discriminate; intuition discriminate.
Qed.

Lemma validate_for_storage_decides_witness :
  sample_repr (SampleHistogram sample_histogram) ∧ sample_shape (SampleHistogram sample_histogram).
Proof.
  split; [exact (proj1 sample_histogram_ok)|].
  apply (proj1 (validate_for_storage_decides (SampleHistogram sample_histogram) (proj1 sample_histogram_ok))).
  vm_compute. reflexivity.
Defined.

(** The decoder is the inverse of the encoder on storable values. *)
Definition exact_codec (T : Type) `{VarLenLaws T} : Prop := ∀ al (v : T) buf,
  grants al → bytes buf → vec_ok buf → vl_repr v →
  decode_from al buf = Ok v ↔ encode_into v [] = (Ok tt, buf).

Lemma laws_exact (T : Type) `{VarLenLaws T} : exact_codec T.
Proof.
  intros al v buf Hal Hb Hsz Hv. split.
  - intros [Hok ->]%vl_decode_inv; [|done..]. by rewrite vl_encode.
  - intros [Hok ->]%vl_encode_inv; [|done]. by apply vl_decode.
Qed.

(** C33: for histograms, exponential histograms and summaries, a buffer decodes
    to a value exactly when encoding the value produces the buffer. *)
Theorem typed_values_exact :
  exact_codec HistogramValue ∧ exact_codec ExponentialHistogramValue ∧ exact_codec SummaryValue.
Proof. split_and!; apply laws_exact. Qed.

(** The witnesses of the block theorems, on histogram blocks. *)
Lemma sample_pushable : pushable sample_histogram.
Proof. split; [exact (proj1 sample_histogram_ok)|vm_compute; discriminate]. Qed.

Definition sample_ops : list (allocator * HistogramValue) :=
  [(alloc_ok, sample_histogram); (λ _ _, Some "out of memory"%string, sample_histogram);
   (alloc_ok, sample_histogram)].

Lemma sample_ops_pushable : Forall (λ op : allocator * HistogramValue, pushable op.2) sample_ops.
Proof. repeat constructor; apply sample_pushable. Qed.

Lemma schema_block_refines_list_witness :
  (pushes empty_codec sample_ops).1 = [sample_histogram; sample_histogram] ∧
  SchemaVarLen.decode_values alloc_ok (SchemaVarLen.snapshot_bytes (pushes empty_codec sample_ops).2) 2
    = Ok [sample_histogram; sample_histogram].
Proof.
  split; [vm_compute; reflexivity|].
  refine (proj1 (schema_block_refines_list sample_ops [sample_histogram; sample_histogram]
    (pushes empty_codec sample_ops).2 alloc_ok sample_ops_pushable _ _ _ _));
    [vm_compute; reflexivity|done|vm_compute; discriminate|vm_compute; discriminate].
Defined.

Definition no_memory : allocator := λ _ _, Some "out of memory"%string.

Lemma schema_push_atomic_witness :
  is_ok (SchemaVarLen.push no_memory (pushes empty_codec sample_ops).2 sample_histogram).1 = false ∧
  match SchemaVarLen.push no_memory (pushes empty_codec sample_ops).2 sample_histogram with
  | (Ok _, _) => sv_ok sample_histogram
  | (Err _, c') => contents c' = contents (pushes empty_codec sample_ops).2
                   ∧ ¬ (sv_ok sample_histogram ∧ push_fits no_memory (pushes empty_codec sample_ops).2 sample_histogram)
  end.
Proof.
  split; [vm_compute; reflexivity|].
  refine (schema_push_atomic sample_ops [sample_histogram; sample_histogram]
    (pushes empty_codec sample_ops).2 no_memory sample_histogram sample_ops_pushable _ sample_pushable).
  vm_compute. reflexivity.
Defined.

Lemma schema_block_canonical_witness :
  zlen [sample_histogram; sample_histogram] = 2 ∧
  ∃ c, pushes empty_codec ((λ v, (alloc_ok, v)) <$> [sample_histogram; sample_histogram])
         = ([sample_histogram; sample_histogram], c) ∧
       SchemaVarLen.snapshot_bytes c = SchemaVarLen.snapshot_bytes (pushes empty_codec sample_ops).2.
Proof.
  refine (schema_block_canonical alloc_ok (SchemaVarLen.snapshot_bytes (pushes empty_codec sample_ops).2) 2
    [sample_histogram; sample_histogram] _ _ _ _);
    [apply bytesb_bytes; vm_compute; reflexivity|vm_compute; discriminate|lia|vm_compute; reflexivity].
Defined.

Lemma varlen_block_refines_list_witness :
  VarLen.decode_values alloc_ok (VarLen.snapshot_bytes (VarLen.pushes empty_varlen [sample_histogram]).2) 1
    = Ok [sample_histogram].
Proof.
  refine (proj1 (varlen_block_refines_list [sample_histogram] [sample_histogram]
    (VarLen.pushes empty_varlen [sample_histogram]).2 alloc_ok _ _ _ _));
    [constructor; [exact (proj1 sample_histogram_ok)|constructor]|vm_compute; reflexivity|done|vm_compute; discriminate].
Defined.

Lemma varlen_block_canonical_witness :
  zlen [sample_histogram] = 1 ∧
  ∃ c, VarLen.pushes empty_varlen [sample_histogram] = ([sample_histogram], c) ∧
    VarLen.snapshot_bytes c = frames [sample_histogram].
Proof.
  refine (varlen_block_canonical alloc_ok (frames [sample_histogram]) 1 [sample_histogram] _ _ _ _);
    [apply bytesb_bytes; vm_compute; reflexivity|vm_compute; discriminate|lia|vm_compute; reflexivity].
Defined.
