(* ===== verification/ExpHistogram.v ===== *)
(** * Rescaling exponential-histogram buckets

    [floor_div_i64] of [chronoxide-core/src/storage/mod.rs] and the downscaling
    of [storage/head/projection.rs].  A [BTreeMap<i32, u64>] is a [gmap]; its
    first and last keys are the least and greatest of its domain. *)
From S2P Require Import Prelude TypedSamples TypedCodecs.

Inductive ExponentialHistogramMergeError :=
  | TargetScaleHigherThanSource (source_scale target_scale : Z)
  | ScaleDeltaTooLarge
  | BucketIndexOverflow
  | BucketCountOverflow
  | BucketSpanTooWide
  | ZeroThresholdMismatch.

Abbreviation merge_result := (result ExponentialHistogramMergeError).

(** Rust's [/] and [%] truncate. *)
Definition floor_div_i64 (value divisor : Z) : Z :=
  let quotient := Z.quot value divisor in
  let remainder := Z.rem value divisor in
  if negb (remainder =? 0) && (value <? 0) then quotient - 1 else quotient.

Definition checked_sub_i32 (a b : Z) : option Z := try_i32 (a - b).
Definition checked_add_i64 (a b : Z) : option Z :=
  if (i64_min <=? a + b) && (a + b <=? i64_max) then Some (a + b) else None.
Definition checked_sub_i64 (a b : Z) : option Z := checked_add_i64 a (- b).
Definition try_i64 (z : Z) : option Z := if (i64_min <=? z) && (z <=? i64_max) then Some z else None.
(** [1i64.checked_shl(n)]: the shift itself wraps. *)
Definition checked_shl_i64 (value n : Z) : option Z :=
  if n <? 64 then Some (wrap_i64 (Z.shiftl value n)) else None.

Definition scale_divisor (source_scale target_scale : Z) : merge_result Z :=
  shift ← ok_or ScaleDeltaTooLarge (checked_sub_i32 source_scale target_scale);
  shift ← ok_or ScaleDeltaTooLarge (try_u32 shift);
  ok_or ScaleDeltaTooLarge (checked_shl_i64 1 shift).

(** The loop over [counts.iter().copied().enumerate()]. *)
Fixpoint downscale_loop (offset divisor idx : Z) (counts : list Z) (map : gmap Z Z)
    : merge_result (gmap Z Z) :=
  match counts with
  | [] => Ok map
  | count :: counts =>
      idx64 ← ok_or BucketIndexOverflow (try_i64 idx);
      source_index ← ok_or BucketIndexOverflow (checked_add_i64 offset idx64);
      let target_index := floor_div_i64 source_index divisor in
      target_index ← ok_or BucketIndexOverflow (try_i32 target_index);
      let entry := default 0 (map !! target_index) in
      entry ← ok_or BucketCountOverflow (checked_add_u64 entry count);
      downscale_loop offset divisor (idx + 1) counts (<[target_index := entry]> map)
  end.

Definition downscale_exponential_histogram_buckets_to_map (buckets : ExponentialHistogramBuckets)
    (source_scale target_scale : Z) : merge_result (gmap Z Z) :=
  if source_scale <? target_scale then Err (TargetScaleHigherThanSource source_scale target_scale)
  else
    divisor ← scale_divisor source_scale target_scale;
    downscale_loop (eb_offset buckets) divisor 0 (eb_counts buckets) ∅.

Definition map_keys (m : gmap Z Z) : list Z := (map_to_list m).*1.
(** [first_key_value] and [last_key_value]. *)
Definition first_key (m : gmap Z Z) : option Z :=
  match map_keys m with [] => None | k :: ks => Some (foldr Z.min k ks) end.
Definition last_key (m : gmap Z Z) : option Z :=
  match map_keys m with [] => None | k :: ks => Some (foldr Z.max k ks) end.

Definition exponential_histogram_bucket_map_to_buckets (m : gmap Z Z)
    : merge_result ExponentialHistogramBuckets :=
  match first_key m, last_key m with
  | Some offset, Some last =>
      span ← ok_or BucketSpanTooWide (checked_sub_i64 last offset);
      span ← ok_or BucketSpanTooWide (checked_add_i64 span 1);
      span ← ok_or BucketSpanTooWide (try_u64 span);
      let counts := replicate (Z.to_nat span) 0 in
      Ok (mk_buckets offset
            (map_fold (λ index count counts, <[Z.to_nat (index - offset) := count]> counts) counts m))
  | _, _ => Ok (mk_buckets 0 [])
  end.

Definition downscale_exponential_histogram (value : ExponentialHistogramValue) (target_scale : Z)
    : merge_result ExponentialHistogramValue :=
  if e_scale value <? target_scale then Err (TargetScaleHigherThanSource (e_scale value) target_scale)
  else
    positive ← downscale_exponential_histogram_buckets_to_map (e_positive value) (e_scale value) target_scale;
    positive ← exponential_histogram_bucket_map_to_buckets positive;
    negative ← downscale_exponential_histogram_buckets_to_map (e_negative value) (e_scale value) target_scale;
    negative ← exponential_histogram_bucket_map_to_buckets negative;
    Ok (mk_exponential (e_count value) (e_sum value) (e_min value) (e_max value) target_scale
          (e_zero_threshold value) (e_zero_count value) (e_metadata value) positive negative).

(** ** Specification: bucket [j] of the target collects the buckets [i] with
    [floor (i / 2^delta) = j] *)

(** The count in bucket [i]. *)
Definition bucket_at (b : ExponentialHistogramBuckets) (i : Z) : Z :=
  if i <? eb_offset b then 0 else default 0 (eb_counts b !! Z.to_nat (i - eb_offset b)).

Fixpoint regroup (index divisor : Z) (counts : list Z) (j : Z) : Z :=
  match counts with
  | [] => 0
  | c :: counts => (if index / divisor =? j then c else 0) + regroup (index + 1) divisor counts j
  end.

(** Truncating division corrected this way is floor division, also by the
    [i64::MIN] that [1 << 63] is. *)
Lemma floor_div_i64_spec value divisor :
  0 < divisor → floor_div_i64 value divisor = value / divisor.
Proof.
  intros Hd. unfold floor_div_i64. pose proof (Z.quot_rem' value divisor) as Hqr.
  destruct (Z.ltb_spec value 0).
  - pose proof (Z.rem_bound_pos_neg value divisor ltac:(lia) ltac:(lia)).
    destruct (Z.eqb_spec (Z.rem value divisor) 0) as [Hz|Hz]; cbn [negb andb].
    + apply Z.div_unique_pos with 0; lia.
    + apply Z.div_unique_pos with (divisor + Z.rem value divisor); lia.
  - pose proof (Z.rem_bound_pos value divisor ltac:(lia) ltac:(lia)). rewrite andb_false_r.
    apply Z.div_unique_pos with (Z.rem value divisor); lia.
Qed.

Lemma floor_div_i64_min value :
  - 2 ^ 63 < value < 2 ^ 63 → floor_div_i64 value i64_min = value / 2 ^ 63.
Proof.
  change (2 ^ 63) with 9223372036854775808. intros Hv. unfold floor_div_i64.
  assert (Hq : Z.quot value i64_min = 0) by (apply Z.quot_small_iff; lia).
  assert (Hr : Z.rem value i64_min = value) by (apply Z.rem_small_iff; lia).
  rewrite Hq, Hr. destruct (Z.ltb_spec value 0); rewrite ?andb_false_r.
  - rewrite (proj2 (Z.eqb_neq value 0)) by lia. cbn. apply Z.div_unique_pos with (value + 9223372036854775808); lia.
  - symmetry. apply Z.div_small. lia.
Qed.

Lemma checked_add_i64_Some a b c : checked_add_i64 a b = Some c ↔ c = a + b ∧ in_i64 (a + b).
Proof.
  unfold checked_add_i64, in_i64.
  destruct (Z.leb_spec i64_min (a + b)), (Z.leb_spec (a + b) i64_max); cbn; naive_solver lia.
Qed.
Lemma try_i64_Some z n : try_i64 z = Some n ↔ n = z ∧ in_i64 z.
Proof.
  unfold try_i64, in_i64. destruct (Z.leb_spec i64_min z), (Z.leb_spec z i64_max); cbn; naive_solver lia.
Qed.

(** The divisor the code computes divides like [2^delta]. *)
Lemma scale_divisor_spec source target d :
  in_i32 source → in_i32 target → target ≤ source →
  scale_divisor source target = Ok d ↔ source - target ≤ 63 ∧ d = wrap_i64 (2 ^ (source - target)).
Proof.
  unfold in_i32. intros Hs Ht Hle. unfold scale_divisor, checked_sub_i32, checked_shl_i64.
  destruct (try_i32 (source - target)) as [n|] eqn:Hn; cbn [ok_or mbind result_bind].
  - apply Cursor.try_i32_Some in Hn as [-> Hn]. rewrite try_u32_fits by (unfold in_u32, in_i32 in *; lia).
    cbn [ok_or mbind result_bind]. destruct (Z.ltb_spec (source - target) 64); cbn [ok_or]; [|naive_solver lia].
    rewrite Z.shiftl_1_l. naive_solver lia.
  - split; [done|]. intros [Hd _]. exfalso.
    assert (Hr : try_i32 (source - target) = Some (source - target)).
    { apply Cursor.try_i32_Some. split; [done|unfold in_i32; lia]. }
    congruence.
Qed.

Lemma divides_like delta value :
  0 ≤ delta ≤ 63 → i64_min < value ≤ i64_max →
  floor_div_i64 value (wrap_i64 (2 ^ delta)) = value / 2 ^ delta.
Proof.
  intros Hd Hv. destruct (decide (delta = 63)) as [->|Hne].
  - change (wrap_i64 (2 ^ 63)) with i64_min. apply floor_div_i64_min.
    change (2 ^ 63) with 9223372036854775808. lia.
  - assert (0 < 2 ^ delta) by (by apply Z.pow_pos_nonneg; lia).
    assert (2 ^ delta ≤ 2 ^ 62) by (apply Z.pow_le_mono_r; lia).
    change (2 ^ 62) with 4611686018427387904 in *.
    rewrite wrap_i64_small by (unfold in_i64; lia). by apply floor_div_i64_spec.
Qed.

Lemma regroup_nonneg counts : ∀ i d j, Forall in_u64 counts → 0 ≤ regroup i d counts j.
Proof.
  induction counts as [|c counts IH]; intros i d j Hc; [done|].
  apply Forall_cons_1 in Hc as [[Hc _] Hcs]. cbn [regroup]. specialize (IH (i + 1) d j Hcs).
  destruct (_ =? _); lia.
Qed.

Lemma regroup_total counts : ∀ i d j, Forall in_u64 counts → regroup i d counts j ≤ total counts.
Proof.
  induction counts as [|c counts IH]; intros i d j Hc; [done|].
  apply Forall_cons_1 in Hc as [[Hc _] Hcs]. cbn [regroup]. specialize (IH (i + 1) d j Hcs).
  change (total (c :: counts)) with (c + total counts). destruct (_ =? _); lia.
Qed.

Definition at_key (m : gmap Z Z) (j : Z) : Z := default 0 (m !! j).

Lemma downscale_loop_spec counts delta offset : ∀ idx map m,
  0 ≤ delta ≤ 63 → in_i32 offset → 0 ≤ idx → idx + zlen counts ≤ 2 ^ 62 →
  downscale_loop offset (wrap_i64 (2 ^ delta)) idx counts map = Ok m →
  ∀ j, at_key m j = at_key map j + regroup (offset + idx) (2 ^ delta) counts j.
Proof.
  induction counts as [|c counts IH]; intros idx map m Hd Ho Hi Hl Hm j; cbn [downscale_loop] in Hm.
  { injection Hm as <-. cbn. lia. }
  rewrite zlen_cons in Hl. pose proof (zlen_nonneg counts). change (2 ^ 62) with 4611686018427387904 in *.
  unfold in_i32 in Ho.
  apply bind_ok in Hm as (i & Hi' & Hm). destruct (try_i64 idx) as [i'|] eqn:Hidx; [|done].
  injection Hi' as <-. apply try_i64_Some in Hidx as [-> _].
  apply bind_ok in Hm as (s & Hs & Hm). destruct (checked_add_i64 offset idx) as [s'|] eqn:Hsum; [|done].
  injection Hs as <-. apply checked_add_i64_Some in Hsum as [-> _].
  rewrite divides_like in Hm by lia.
  apply bind_ok in Hm as (t & Ht & Hm). destruct (try_i32 _) as [t'|] eqn:Htar; [|done].
  injection Ht as <-. apply Cursor.try_i32_Some in Htar as [-> _].
  apply bind_ok in Hm as (e & He & Hm). destruct (checked_add_u64 _ _) as [e'|] eqn:Hadd; [|done].
  injection He as <-. apply checked_add_u64_Some in Hadd as [-> _].
  rewrite (IH (idx + 1) _ _ Hd Ho ltac:(lia) ltac:(lia) Hm). cbn [regroup]. rewrite Z.add_assoc. unfold at_key.
  destruct (Z.eqb_spec ((offset + idx) / 2 ^ delta) j) as [->|Hne].
  - rewrite lookup_insert_eq. cbn. lia.
  - rewrite lookup_insert_ne by done. lia.
Qed.

(** It fails only if a target index leaves [i32] or a total leaves [u64]. *)
Lemma downscale_loop_total counts delta offset : ∀ idx map,
  0 ≤ delta ≤ 63 → -2147483648 ≤ offset → 0 ≤ idx → offset + idx + zlen counts ≤ 2147483648 →
  Forall in_u64 counts → (∀ j, 0 ≤ at_key map j ∧ at_key map j + total counts ≤ u64_max) →
  ∃ m, downscale_loop offset (wrap_i64 (2 ^ delta)) idx counts map = Ok m.
Proof.
  induction counts as [|c counts IH]; intros idx map Hd Ho Hi Hl Hcs Hmap; [by eexists|].
  rewrite zlen_cons in Hl. pose proof (zlen_nonneg counts).
  apply Forall_cons_1 in Hcs as [[Hc0 _] Hcs]. cbn [downscale_loop].
  rewrite (proj2 (try_i64_Some idx idx)) by (unfold in_i64; lia). cbn [ok_or mbind result_bind].
  rewrite (proj2 (checked_add_i64_Some offset idx _)) by (split; [done|unfold in_i64; lia]).
  cbn [ok_or mbind result_bind]. rewrite divides_like by lia.
  assert (Hp : 0 < 2 ^ delta) by (apply Z.pow_pos_nonneg; lia).
  set (t := (offset + idx) / 2 ^ delta).
  assert (Ht : in_i32 t).
  { unfold in_i32, t. split.
    - apply Z.div_le_lower_bound; nia.
    - apply Z.lt_succ_r, Z.div_lt_upper_bound; nia. }
  rewrite (proj2 (Cursor.try_i32_Some t t)) by done. cbn [ok_or mbind result_bind].
  change (total (c :: counts)) with (c + total counts) in Hmap. pose proof (total_nonneg _ Hcs).
  fold (at_key map t). pose proof (Hmap t). rewrite checked_add_u64_fits by lia. cbn [ok_or mbind result_bind].
  apply IH; [done|lia|lia|lia|done|]. intros j. pose proof (Hmap j). unfold at_key in *.
  destruct (decide (t = j)) as [->|Hne]; [rewrite lookup_insert_eq|rewrite lookup_insert_ne by done]; cbn; lia.
Qed.

(** ** From maps back to dense buckets *)

Lemma foldr_min_le k ks x : x ∈ k :: ks → foldr Z.min k ks ≤ x.
Proof.
  revert x. induction ks as [|y ks IH]; intros x Hx; cbn.
  - apply list_elem_of_singleton in Hx as ->. lia.
  - apply elem_of_cons in Hx as [->|Hx].
    + specialize (IH k ltac:(by left)). lia.
    + apply elem_of_cons in Hx as [->|Hx]; [lia|]. specialize (IH x ltac:(by right)). lia.
Qed.
Lemma foldr_max_ge k ks x : x ∈ k :: ks → x ≤ foldr Z.max k ks.
Proof.
  revert x. induction ks as [|y ks IH]; intros x Hx; cbn.
  - apply list_elem_of_singleton in Hx as ->. lia.
  - apply elem_of_cons in Hx as [->|Hx].
    + specialize (IH k ltac:(by left)). lia.
    + apply elem_of_cons in Hx as [->|Hx]; [lia|]. specialize (IH x ltac:(by right)). lia.
Qed.

Lemma map_keys_spec (m : gmap Z Z) j : j ∈ map_keys m ↔ ∃ c, m !! j = Some c.
Proof.
  unfold map_keys. rewrite list_elem_of_fmap. split.
  - intros ([k c] & -> & Hin). apply elem_of_map_to_list in Hin. eauto.
  - intros (c & Hc). exists (j, c). split; [done|]. by apply elem_of_map_to_list.
Qed.

Lemma keys_bounds (m : gmap Z Z) off last j c :
  first_key m = Some off → last_key m = Some last → m !! j = Some c → off ≤ j ≤ last.
Proof.
  intros Hf Hl Hj. assert (Hin : j ∈ map_keys m) by (apply map_keys_spec; eauto).
  unfold first_key, last_key in *. destruct (map_keys m) as [|k ks]; [done|].
  injection Hf as <-. injection Hl as <-. split; [by apply foldr_min_le|by apply foldr_max_ge].
Qed.

Lemma fill_counts (m : gmap Z Z) off n :
  (∀ j c, m !! j = Some c → 0 ≤ j - off < Z.of_nat n) →
  let counts := map_fold (λ index count counts, <[Z.to_nat (index - off) := count]> counts)
                  (replicate n 0) m in
  length counts = n ∧ ∀ j, 0 ≤ j - off < Z.of_nat n → counts !! Z.to_nat (j - off) = Some (at_key m j).
Proof.
  cbv zeta. revert m. refine (map_fold_weak_ind (λ counts (m : gmap Z Z),
    (∀ j c, m !! j = Some c → 0 ≤ j - off < Z.of_nat n) →
    length counts = n ∧ ∀ j, 0 ≤ j - off < Z.of_nat n → counts !! Z.to_nat (j - off) = Some (at_key m j)) _ _ _ _).
  - intros _. split; [apply length_replicate|]. intros j Hj. apply lookup_replicate. split; [done|lia].
  - intros i x m counts Hi IH Hm. destruct IH as [Hlen Hat].
    { intros j c Hj. apply (Hm j c). rewrite lookup_insert_ne; [done|]. intros ->. congruence. }
    split; [by rewrite length_insert|]. intros j Hj. unfold at_key.
    destruct (decide (i = j)) as [->|Hne].
    + rewrite lookup_insert_eq. apply list_lookup_insert_eq. lia.
    + rewrite lookup_insert_ne by done. rewrite list_lookup_insert_ne; [by apply Hat|].
      pose proof (Hm i x ltac:(apply lookup_insert_eq)). lia.
Qed.

Definition keys_in_i32 (m : gmap Z Z) : Prop := ∀ j c, m !! j = Some c → in_i32 j.

Lemma first_key_in m off : first_key m = Some off → ∃ c, m !! off = Some c.
Proof.
  intros Hf. unfold first_key in Hf. destruct (map_keys m) as [|k ks] eqn:Hk; [done|].
  injection Hf as <-. apply map_keys_spec. rewrite Hk. clear Hk.
  induction ks as [|x ks IH]; cbn; [by left|].
  destruct (Z.min_spec x (foldr Z.min k ks)) as [[_ ->]|[_ ->]]; [right; by left|].
  apply elem_of_cons in IH as [->|IH]; [by left|]. right. by right.
Qed.
Lemma last_key_in m l : last_key m = Some l → ∃ c, m !! l = Some c.
Proof.
  intros Hf. unfold last_key in Hf. destruct (map_keys m) as [|k ks] eqn:Hk; [done|].
  injection Hf as <-. apply map_keys_spec. rewrite Hk. clear Hk.
  induction ks as [|x ks IH]; cbn; [by left|].
  destruct (Z.max_spec x (foldr Z.max k ks)) as [[_ ->]|[_ ->]]; [|right; by left].
  apply elem_of_cons in IH as [->|IH]; [by left|]. right. by right.
Qed.

Lemma map_to_buckets_spec m :
  keys_in_i32 m →
  ∃ b, exponential_histogram_bucket_map_to_buckets m = Ok b ∧ in_i32 (eb_offset b) ∧
    zlen (eb_counts b) ≤ 2 ^ 32 ∧ ∀ j, bucket_at b j = at_key m j.
Proof.
  intros Hm. unfold exponential_histogram_bucket_map_to_buckets.
  destruct (first_key m) as [off|] eqn:Hf; cycle 1.
  { exists (mk_buckets 0 []). split_and!; try done. intros j. unfold bucket_at, at_key. cbn.
    unfold first_key in Hf. destruct (map_keys m) as [|k ks] eqn:Hk; [|done].
    destruct (m !! j) eqn:Hj; [|by destruct (j <? 0)].
    assert (Hin : j ∈ map_keys m) by (apply map_keys_spec; eauto). rewrite Hk in Hin. by apply elem_of_nil in Hin. }
  destruct (last_key m) as [last|] eqn:Hl; cycle 1.
  { exfalso. unfold first_key, last_key in *. by destruct (map_keys m). }
  destruct (first_key_in m off Hf) as (c1 & Hc1). destruct (last_key_in m last Hl) as (c2 & Hc2).
  pose proof (Hm _ _ Hc1) as Ho. pose proof (Hm _ _ Hc2) as Hlast. unfold in_i32 in Ho, Hlast.
  pose proof (keys_bounds m off last off c1 Hf Hl Hc1) as Hol.
  unfold checked_sub_i64. rewrite (proj2 (checked_add_i64_Some last (- off) _)) by (split; [done|unfold in_i64; lia]).
  cbn [ok_or mbind result_bind].
  rewrite (proj2 (checked_add_i64_Some _ 1 _)) by (split; [done|unfold in_i64; lia]). cbn [ok_or mbind result_bind].
  rewrite try_u64_fits by (unfold in_u64; lia). cbn [ok_or mbind result_bind].
  set (n := Z.to_nat (last + - off + 1)).
  assert (Hin : ∀ j c, m !! j = Some c → 0 ≤ j - off < Z.of_nat n).
  { intros j c Hj. pose proof (keys_bounds m off last j c Hf Hl Hj). lia. }
  destruct (fill_counts m off n Hin) as [Hlen Hat].
  eexists. split; [reflexivity|]. cbn [eb_offset eb_counts]. split_and!; [exact Ho| |].
  - unfold zlen. rewrite Hlen. change (2 ^ 32) with 4294967296. lia.
  - intros j. unfold bucket_at. cbn [eb_offset eb_counts]. unfold at_key.
    destruct (Z.ltb_spec j off) as [Hlt|Hge].
    + destruct (m !! j) as [c|] eqn:Hj; [|done]. specialize (Hin j c Hj). lia.
    + destruct (decide (j - off < Z.of_nat n)) as [Hlt|Hge'].
      * rewrite Hat by lia. done.
      * rewrite lookup_ge_None_2 by (rewrite Hlen; lia).
        destruct (m !! j) as [c|] eqn:Hj; [|done]. specialize (Hin j c Hj). lia.
Qed.

(** ** Regrouping composes *)

(** Summing a function over a window of buckets. *)
Fixpoint window_sum (f : Z → Z) (i : Z) (n : nat) : Z :=
  match n with O => 0 | S n => f i + window_sum f (i + 1) n end.

Lemma regroup_window counts : ∀ i d j f,
  (∀ k, (k < length counts)%nat → counts !! k = Some (f (i + Z.of_nat k))) →
  regroup i d counts j = window_sum (λ x, if x / d =? j then f x else 0) i (length counts).
Proof.
  induction counts as [|c counts IH]; intros i d j f Hf; [done|]. cbn [regroup window_sum length].
  pose proof (Hf 0%nat ltac:(simpl; lia)) as H0. rewrite Z.add_0_r in H0. injection H0 as H0.
  rewrite <- H0. f_equal.
  apply IH. intros k Hk. specialize (Hf (S k) ltac:(simpl; lia)).
  change ((c :: counts) !! S k) with (counts !! k) in Hf. rewrite Hf. do 2 f_equal. lia.
Qed.

Lemma window_sum_ext f g n : ∀ i,
  (∀ x, i ≤ x < i + Z.of_nat n → f x = g x) → window_sum f i n = window_sum g i n.
Proof.
  induction n as [|n IH]; intros i H; [done|]. cbn. f_equal; [apply H; lia|]. apply IH. intros. apply H. lia.
Qed.

Lemma window_sum_add f g n : ∀ i,
  window_sum (λ x, f x + g x) i n = window_sum f i n + window_sum g i n.
Proof. induction n as [|n IH]; intros i; cbn; [done|]. rewrite IH. lia. Qed.

Lemma window_sum_0 n : ∀ i, window_sum (λ _, 0) i n = 0.
Proof. induction n as [|n IH]; intros i; cbn; [done|]. by rewrite IH. Qed.

(** A point mass is found once. *)
Lemma window_sum_point p c n : ∀ i,
  window_sum (λ x, if p =? x then c else 0) i n = if (i <=? p) && (p <? i + Z.of_nat n) then c else 0.
Proof.
  induction n as [|n IH]; intros i.
  { cbn [window_sum]. destruct (Z.leb_spec i p), (Z.ltb_spec p (i + Z.of_nat 0)); cbn [andb]; lia. }
  cbn [window_sum]. rewrite IH. destruct (Z.eqb_spec p i) as [->|Hne].
  - destruct (Z.leb_spec (i + 1) i); [lia|]. cbn [andb].
    destruct (Z.leb_spec i i), (Z.ltb_spec i (i + Z.of_nat (S n))); cbn [andb]; lia.
  - destruct (Z.leb_spec (i + 1) p), (Z.leb_spec i p), (Z.ltb_spec p (i + 1 + Z.of_nat n)),
      (Z.ltb_spec p (i + Z.of_nat (S n))); cbn [andb]; lia.
Qed.

(** Grouping the groups by [d2] is grouping by [d1 * d2]. *)
Lemma window_regroup counts d1 d2 lo n j : ∀ i,
  0 < d1 → 0 < d2 →
  (∀ k, (k < length counts)%nat → lo ≤ (i + Z.of_nat k) / d1 < lo + Z.of_nat n ∨ counts !! k = Some 0) →
  window_sum (λ x, if x / d2 =? j then regroup i d1 counts x else 0) lo n = regroup i (d1 * d2) counts j.
Proof.
  induction counts as [|c counts IH]; intros i H1 H2 Hin.
  { transitivity (window_sum (λ _, 0) lo n); [|apply window_sum_0]. apply window_sum_ext.
    intros x _. by destruct (_ =? _). }
  cbn [regroup]. rewrite <- IH; [|done|done|]; cycle 1.
  { intros k Hk. specialize (Hin (S k) ltac:(simpl; lia)).
    change ((c :: counts) !! S k) with (counts !! k) in Hin.
    by replace (i + 1 + Z.of_nat k) with (i + Z.of_nat (S k)) by lia. }
  rewrite <- Z.div_div by lia.
  rewrite (window_sum_ext _ (λ x, (if i / d1 =? x then (if i / d1 / d2 =? j then c else 0) else 0)
      + (if x / d2 =? j then regroup (i + 1) d1 counts x else 0))); cycle 1.
  { intros x _. destruct (Z.eqb_spec (i / d1) x) as [->|]; destruct (x / d2 =? j); lia. }
  rewrite window_sum_add, window_sum_point. f_equal.
  specialize (Hin 0%nat ltac:(simpl; lia)). rewrite Z.add_0_r in Hin. destruct Hin as [Hin|[= ->]].
  - rewrite (proj2 (Z.leb_le _ _)), (proj2 (Z.ltb_lt _ _)) by lia. done.
  - by destruct (_ && _), (_ =? _).
Qed.

(** ** Theorems *)

Lemma downscale_loop_keys counts divisor offset : ∀ idx map m,
  keys_in_i32 map → downscale_loop offset divisor idx counts map = Ok m → keys_in_i32 m.
Proof.
  induction counts as [|c counts IH]; intros idx map m Hk Hm; cbn [downscale_loop] in Hm.
  { by injection Hm as <-. }
  apply bind_ok in Hm as (i & _ & Hm). apply bind_ok in Hm as (s & _ & Hm).
  apply bind_ok in Hm as (t & Ht & Hm). destruct (try_i32 _) as [t'|] eqn:Htar; [|done].
  injection Ht as <-. apply Cursor.try_i32_Some in Htar as [-> Hi].
  apply bind_ok in Hm as (e & _ & Hm). apply IH in Hm; [done|]. intros j x.
  destruct (decide (floor_div_i64 s divisor = j)) as [<-|Hne]; [done|].
  rewrite lookup_insert_ne by done. apply Hk.
Qed.

(** Bucket vectors of values in memory. *)
Definition buckets_wf (b : ExponentialHistogramBuckets) : Prop :=
  buckets_ok b ∧ zlen (eb_counts b) ≤ 2 ^ 60.

Lemma downscale_map_spec b source target m :
  buckets_wf b → in_i32 source → in_i32 target →
  downscale_exponential_histogram_buckets_to_map b source target = Ok m →
  target ≤ source ∧ source - target ≤ 63 ∧ keys_in_i32 m ∧
  ∀ j, at_key m j = regroup (eb_offset b) (2 ^ (source - target)) (eb_counts b) j.
Proof.
  intros [[Ho Hcs] Hlen] Hs Ht Hm. unfold downscale_exponential_histogram_buckets_to_map in Hm.
  destruct (Z.ltb_spec source target) as [|Hle]; [done|]. apply bind_ok in Hm as (d & Hd & Hm).
  apply scale_divisor_spec in Hd as [Hdelta ->]; [|done..].
  split_and!; [done|done|eapply downscale_loop_keys; [|exact Hm]; by intros j c|]. intros j.
  assert (Hfit : 0 + zlen (eb_counts b) ≤ 2 ^ 62).
  { change (2 ^ 60) with 1152921504606846976 in Hlen. change (2 ^ 62) with 4611686018427387904. lia. }
  pose proof (downscale_loop_spec (eb_counts b) (source - target) (eb_offset b) 0 ∅ m ltac:(lia) Ho
    ltac:(lia) Hfit Hm j) as H. by rewrite Z.add_0_r in H.
Qed.

(** Downscaling by a scale difference groups the buckets by [2^delta],
    rounding indices towards minus infinity (negative offsets included, and
    also at the largest shift, where the computed divisor is [i64::MIN]); it
    succeeds whenever the difference is at most 63, the indices fit and the
    counts sum to a [u64]. *)
Theorem downscale_regroups b source target :
  buckets_wf b → in_i32 source → in_i32 target → target ≤ source →
  (∀ m, downscale_exponential_histogram_buckets_to_map b source target = Ok m →
     ∀ j, at_key m j = regroup (eb_offset b) (2 ^ (source - target)) (eb_counts b) j) ∧
  (source - target ≤ 63 → eb_offset b + zlen (eb_counts b) ≤ 2 ^ 31 → total (eb_counts b) ≤ u64_max →
     is_ok (downscale_exponential_histogram_buckets_to_map b source target) = true).
Proof.
  intros Hb Hs Ht Hle. split.
  - intros m Hm. by apply (downscale_map_spec b source target m).
  - intros Hd Hidx Htot. unfold downscale_exponential_histogram_buckets_to_map.
    rewrite (proj2 (Z.ltb_ge source target)) by lia.
    rewrite (proj2 (scale_divisor_spec source target _ Hs Ht Hle)) by done. cbn [mbind result_bind].
    change (2 ^ 31) with 2147483648 in Hidx. destruct Hb as [[Ho Hcs] _]. unfold in_i32 in Ho.
    destruct (downscale_loop_total (eb_counts b) (source - target) (eb_offset b) 0 ∅) as [m ->];
      [lia|lia|lia|lia|done| |done]. intros j. unfold at_key. rewrite lookup_empty. simpl. lia.
Qed.

Lemma downscale_regroups_witness :
  is_ok (downscale_exponential_histogram_buckets_to_map (mk_buckets (-3) [1; 2; 4; 8]) 2 1) = true ∧
  at_key (match downscale_exponential_histogram_buckets_to_map (mk_buckets (-3) [1; 2; 4; 8]) 2 1 with
          | Ok m => m | Err _ => ∅ end) (-1) = 6.
Proof.
  assert (Hwf : buckets_wf (mk_buckets (-3) [1; 2; 4; 8])).
  { split; [split|]; [unfold in_i32; cbn; lia|repeat constructor; unfold in_u64; lia|vm_compute; discriminate]. }
  destruct (downscale_regroups (mk_buckets (-3) [1; 2; 4; 8]) 2 1 Hwf) as [H1 H2];
    [unfold in_i32; lia|unfold in_i32; lia|lia|]. split.
  - apply H2; [lia|vm_compute; discriminate|vm_compute; discriminate].
  - rewrite (H1 _ eq_refl). vm_compute. reflexivity.
Defined.

Lemma regroup_ge counts : ∀ i d k c,
  Forall in_u64 counts → counts !! k = Some c → c ≤ regroup i d counts ((i + Z.of_nat k) / d).
Proof.
  induction counts as [|c0 counts IH]; intros i d k c Hcs Hk; [done|].
  apply Forall_cons_1 in Hcs as [[Hc0 _] Hcs]. cbn [regroup]. destruct k as [|k].
  - injection Hk as ->. rewrite Z.add_0_r, Z.eqb_refl. pose proof (regroup_nonneg counts (i + 1) d (i / d) Hcs). lia.
  - change ((c0 :: counts) !! S k) with (counts !! k) in Hk. specialize (IH (i + 1) d k c Hcs Hk).
    replace (i + 1 + Z.of_nat k) with (i + Z.of_nat (S k)) in IH by lia. destruct (_ =? _); lia.
Qed.

Lemma bucket_at_lookup b k :
  (k < length (eb_counts b))%nat → eb_counts b !! k = Some (bucket_at b (eb_offset b + Z.of_nat k)).
Proof.
  intros Hk. unfold bucket_at. rewrite (proj2 (Z.ltb_ge _ _)) by lia.
  replace (Z.to_nat _) with k by lia. by destruct (lookup_lt_is_Some_2 _ _ Hk) as [c ->].
Qed.

Lemma bucket_at_range b j : bucket_at b j ≠ 0 → eb_offset b ≤ j < eb_offset b + zlen (eb_counts b).
Proof.
  unfold bucket_at. destruct (Z.ltb_spec j (eb_offset b)); [done|].
  destruct (eb_counts b !! _) eqn:Hj; [|done]. apply lookup_lt_Some in Hj. unfold zlen. lia.
Qed.

(** Regrouping twice is regrouping once. *)
Lemma regroup_regroup b b1 d1 d2 j :
  Forall in_u64 (eb_counts b) → 0 < d1 → 0 < d2 →
  (∀ x, bucket_at b1 x = regroup (eb_offset b) d1 (eb_counts b) x) →
  regroup (eb_offset b1) d2 (eb_counts b1) j = regroup (eb_offset b) (d1 * d2) (eb_counts b) j.
Proof.
  intros Hcs H1 H2 Hb1. rewrite (regroup_window _ _ _ _ (bucket_at b1)) by apply bucket_at_lookup.
  rewrite (window_sum_ext _ (λ x, if x / d2 =? j then regroup (eb_offset b) d1 (eb_counts b) x else 0))
    by (intros x _; by rewrite Hb1).
  apply window_regroup; [done|done|]. intros k Hk.
  destruct (lookup_lt_is_Some_2 _ _ Hk) as [c Hc].
  pose proof (regroup_ge _ (eb_offset b) d1 k c Hcs Hc) as Hge. rewrite <- Hb1 in Hge.
  destruct (decide (c = 0)) as [->|Hne]; [by right|left].
  pose proof (Forall_lookup_1 _ _ _ _ Hcs Hc) as [Hc0 _].
  pose proof (bucket_at_range b1 ((eb_offset b + Z.of_nat k) / d1) ltac:(lia)). unfold zlen in *. lia.
Qed.

(** One sign's buckets, downscaled and made dense. *)
Lemma downscale_dense b source target m b' :
  buckets_wf b → in_i32 source → in_i32 target →
  downscale_exponential_histogram_buckets_to_map b source target = Ok m →
  exponential_histogram_bucket_map_to_buckets m = Ok b' →
  (target ≤ source ∧ source - target ≤ 63) ∧
  ∀ j, bucket_at b' j = regroup (eb_offset b) (2 ^ (source - target)) (eb_counts b) j.
Proof.
  intros Hb Hs Ht Hm Hb'. destruct (downscale_map_spec _ _ _ _ Hb Hs Ht Hm) as (H1 & H2 & Hk & Hat).
  destruct (map_to_buckets_spec m Hk) as (b2 & Hb2 & _ & _ & Hbat). rewrite Hb' in Hb2. injection Hb2 as <-.
  split; [done|]. intros j. by rewrite Hbat.
Qed.

Lemma downscale_histogram_inv v t w :
  buckets_wf (e_positive v) → buckets_wf (e_negative v) → in_i32 (e_scale v) → in_i32 t →
  downscale_exponential_histogram v t = Ok w →
  (t ≤ e_scale v ∧ e_scale v - t ≤ 63) ∧ e_scale w = t ∧
  (∀ j, bucket_at (e_positive w) j = regroup (eb_offset (e_positive v)) (2 ^ (e_scale v - t)) (eb_counts (e_positive v)) j) ∧
  (∀ j, bucket_at (e_negative w) j = regroup (eb_offset (e_negative v)) (2 ^ (e_scale v - t)) (eb_counts (e_negative v)) j).
Proof.
  intros Hp Hn Hs Ht Hw. unfold downscale_exponential_histogram in Hw. destruct (_ <? _); [done|].
  apply bind_ok in Hw as (mp & Hmp & Hw). apply bind_ok in Hw as (bp & Hbp & Hw).
  apply bind_ok in Hw as (mn & Hmn & Hw). apply bind_ok in Hw as (bn & Hbn & Hw). injection Hw as <-.
  destruct (downscale_dense _ _ _ _ _ Hp Hs Ht Hmp Hbp) as [Hd1 Hp1].
  destruct (downscale_dense _ _ _ _ _ Hn Hs Ht Hmn Hbn) as [_ Hn1]. destruct Hd1. by split_and!.
Qed.

(** Downscaling in two steps and in one give the same histogram: every
    bucket of either sign has the same count. *)
Theorem downscale_histogram_composes v t u v1 v2 w :
  buckets_wf (e_positive v) → buckets_wf (e_negative v) →
  buckets_wf (e_positive v1) → buckets_wf (e_negative v1) →
  in_i32 (e_scale v) → in_i32 t → in_i32 u →
  downscale_exponential_histogram v t = Ok v1 →
  downscale_exponential_histogram v1 u = Ok v2 →
  downscale_exponential_histogram v u = Ok w →
  e_scale v2 = e_scale w ∧
  ∀ j, bucket_at (e_positive v2) j = bucket_at (e_positive w) j ∧
       bucket_at (e_negative v2) j = bucket_at (e_negative w) j.
Proof.
  intros Hp Hn Hp1 Hn1 Hs Ht Hu H1 H2 Hw.
  destruct (downscale_histogram_inv _ _ _ Hp Hn Hs Ht H1) as ([Ha _] & Hs1 & Hpos1 & Hneg1).
  rewrite <- Hs1 in Ht.
  destruct (downscale_histogram_inv _ _ _ Hp1 Hn1 Ht Hu H2) as ([Hb _] & Hs2 & Hpos2 & Hneg2).
  destruct (downscale_histogram_inv _ _ _ Hp Hn Hs Hu Hw) as (_ & Hsw & Hposw & Hnegw).
  split; [by rewrite Hs2, Hsw|]. intros j. rewrite Hpos2, Hneg2, Hposw, Hnegw, Hs1.
  replace (e_scale v - u) with ((e_scale v - t) + (t - u)) by lia. rewrite Z.pow_add_r by lia.
  rewrite Hs1 in Hb. assert (0 < 2 ^ (e_scale v - t)) by (apply Z.pow_pos_nonneg; lia).
  assert (0 < 2 ^ (t - u)) by (apply Z.pow_pos_nonneg; lia).
  split; apply regroup_regroup; done || apply Hp || apply Hn.
Qed.

Definition sample_exponential (scale offset : Z) (counts : list Z) : ExponentialHistogramValue :=
  mk_exponential 15 None None None scale 0 0 (mk_metadata None 0 TemporalityDelta ResetUnknown)
    (mk_buckets offset counts) (mk_buckets 0 []).

Lemma downscale_histogram_composes_witness :
  let v := sample_exponential 3 (-3) [1; 2; 4; 8] in
  let v1 := sample_exponential 2 (-2) [1; 6; 8] in
  let v2 := sample_exponential 1 (-1) [7; 8] in
  downscale_exponential_histogram v 2 = Ok v1 ∧
  downscale_exponential_histogram v1 1 = Ok v2 ∧
  e_scale v2 = e_scale v2 ∧
  ∀ j, bucket_at (e_positive v2) j = bucket_at (e_positive v2) j ∧
       bucket_at (e_negative v2) j = bucket_at (e_negative v2) j.
Proof.
  intros v v1 v2.
  assert (H1 : downscale_exponential_histogram v 2 = Ok v1) by (vm_compute; reflexivity).
  assert (H2 : downscale_exponential_histogram v1 1 = Ok v2) by (vm_compute; reflexivity).
  assert (H3 : downscale_exponential_histogram v 1 = Ok v2) by (vm_compute; reflexivity).
  split; [exact H1|]. split; [exact H2|].
  refine (downscale_histogram_composes v 2 1 v1 v2 v2 _ _ _ _ _ _ _ H1 H2 H3);
    first [unfold in_i32; cbn; lia
          |split; [split|]; [unfold in_i32; cbn; lia|repeat constructor; unfold in_u64; lia|vm_compute; discriminate]].
Defined.
