(* ===== verification/OtlpReset.v ===== *)
(** * Counter-reset detection for cumulative histograms

    [chronoxide-core/src/otlp_reset.rs].  The two [HashMap]s are [gmap]s keyed by
    [SeriesRef].  The histogram and exponential-histogram halves of the tracker
    are the same program over two value types: [ResetDetector] is what that
    program uses of a value, and the tracker's methods are its two instances.
    [stamp] is the one-phase update of WAL replay; [prepare] and [commit] the
    two-phase update of live ingestion. *)
From S2P Require Import Prelude Float64 Cursor TypedSamples TypedCodecs ExpHistogram.

(** ** Reset states *)

Record HistogramResetState := mk_hstate {
  hs_start_time_ms : option Z;
  hs_count : Z;
  hs_sum : option Z;
  hs_explicit_bounds : list Z;
  hs_bucket_counts : list Z;
}.

Record ExponentialHistogramResetState := mk_estate {
  es_start_time_ms : option Z;
  es_count : Z;
  es_sum : option Z;
  es_scale : Z;
  es_zero_threshold_bits : Z;
  es_zero_count : Z;
  es_positive : ExponentialHistogramBuckets;
  es_negative : ExponentialHistogramBuckets;
}.

Definition try_clone_slice {A} (al : allocator) (source : list A) (description : string) : io_result (list A) :=
  _ ← try_reserve al description ("failed to reserve " +:+ description +:+ ": ") (zlen source);
  Ok source.

Definition try_reserve_tracker_entry (al : allocator) (kind : string) : io_result unit :=
  try_reserve al kind ("failed to reserve " +:+ kind +:+ " reset-tracker state: ") 1.

Definition histogram_from_value (value : HistogramValue) : HistogramResetState :=
  mk_hstate (md_start_time_ms (h_metadata value)) (h_count value) (h_sum value)
    (h_explicit_bounds value) (h_bucket_counts value).

Definition histogram_try_from_value (al : allocator) (value : HistogramValue)
    : io_result HistogramResetState :=
  explicit_bounds ← try_clone_slice al (h_explicit_bounds value) "histogram reset explicit bounds";
  bucket_counts ← try_clone_slice al (h_bucket_counts value) "histogram reset bucket counts";
  Ok (mk_hstate (md_start_time_ms (h_metadata value)) (h_count value) (h_sum value)
        explicit_bounds bucket_counts).

Definition exponential_from_value (value : ExponentialHistogramValue) : ExponentialHistogramResetState :=
  mk_estate (md_start_time_ms (e_metadata value)) (e_count value) (e_sum value) (e_scale value)
    (e_zero_threshold value) (e_zero_count value) (e_positive value) (e_negative value).

Definition exponential_try_from_value (al : allocator) (value : ExponentialHistogramValue)
    : io_result ExponentialHistogramResetState :=
  positive ← try_clone_slice al (eb_counts (e_positive value)) "positive exponential histogram reset buckets";
  negative ← try_clone_slice al (eb_counts (e_negative value)) "negative exponential histogram reset buckets";
  Ok (mk_estate (md_start_time_ms (e_metadata value)) (e_count value) (e_sum value) (e_scale value)
        (e_zero_threshold value) (e_zero_count value)
        (mk_buckets (eb_offset (e_positive value)) positive)
        (mk_buckets (eb_offset (e_negative value)) negative)).

(** ** Hints *)

Definition start_time_advanced (previous current : option Z) : bool :=
  match previous, current with Some previous, Some current => previous <? current | _, _ => false end.

Definition optional_f64_decreased (previous current : option Z) : bool :=
  match previous, current with Some previous, Some current => f64_lt current previous | _, _ => false end.

(** [previous.iter().zip(current).any(|(p, c)| c < p)]. *)
Fixpoint counts_decreased (previous current : list Z) : bool :=
  match previous, current with
  | p :: previous, c :: current => (c <? p) || counts_decreased previous current
  | _, _ => false
  end.

Definition bucket_map_decreased (previous current : gmap Z Z) : bool :=
  existsb (λ '(index, previous_count), default 0 (current !! index) <? previous_count) (map_to_list previous).

Definition histogram_reset_hint (previous current : HistogramResetState) : CounterResetHint :=
  if start_time_advanced (hs_start_time_ms previous) (hs_start_time_ms current) then CounterReset
  else if negb (f64s_eq (hs_explicit_bounds previous) (hs_explicit_bounds current)) then ResetUnknown
  else if (hs_count current <? hs_count previous) || optional_f64_decreased (hs_sum previous) (hs_sum current)
  then CounterReset
  else if negb (zlen (hs_bucket_counts previous) =? zlen (hs_bucket_counts current)) then ResetUnknown
  else if counts_decreased (hs_bucket_counts previous) (hs_bucket_counts current) then CounterReset
  else NotCounterReset.

Definition exponential_histogram_reset_hint (previous current : ExponentialHistogramResetState)
    : CounterResetHint :=
  if start_time_advanced (es_start_time_ms previous) (es_start_time_ms current) then CounterReset
  else if negb (es_zero_threshold_bits previous =? es_zero_threshold_bits current) then ResetUnknown
  else if (es_count current <? es_count previous) || (es_zero_count current <? es_zero_count previous)
          || optional_f64_decreased (es_sum previous) (es_sum current)
  then CounterReset
  else
    let target_scale := Z.min (es_scale previous) (es_scale current) in
    let to_map := λ buckets scale, downscale_exponential_histogram_buckets_to_map buckets scale target_scale in
    match to_map (es_positive previous) (es_scale previous) with
    | Err _ => ResetUnknown
    | Ok previous_positive =>
    match to_map (es_positive current) (es_scale current) with
    | Err _ => ResetUnknown
    | Ok current_positive =>
    match to_map (es_negative previous) (es_scale previous) with
    | Err _ => ResetUnknown
    | Ok previous_negative =>
    match to_map (es_negative current) (es_scale current) with
    | Err _ => ResetUnknown
    | Ok current_negative =>
        if bucket_map_decreased previous_positive current_positive
           || bucket_map_decreased previous_negative current_negative
        then CounterReset else NotCounterReset
    end end end end.

(** ** The detector *)

Class ResetDetector (V S : Type) := {
  rd_metadata : V → TypedSampleMetadata;
  rd_set_metadata : TypedSampleMetadata → V → V;
  rd_from_value : V → S;
  rd_try_from_value : allocator → V → io_result S;
  rd_hint : S → S → CounterResetHint;
  rd_kind : string;
}.

Definition md_set_hint (hint : CounterResetHint) (m : TypedSampleMetadata) : TypedSampleMetadata :=
  mk_metadata (md_start_time_ms m) (md_flags m) (md_temporality m) hint.

Section detector.
Context {V S : Type} `{ResetDetector V S}.

Definition set_hint (hint : CounterResetHint) (value : V) : V :=
  rd_set_metadata (md_set_hint hint (rd_metadata value)) value.

(** [self.histogram.get(&series).map(..).unwrap_or(Unknown)]. *)
Definition hint_after (states : gmap Z S) (series : Z) (current : S) : CounterResetHint :=
  match states !! series with Some previous => rd_hint previous current | None => ResetUnknown end.

Definition stamp (states : gmap Z S) (series : Z) (value : V) : gmap Z S * V :=
  let '(states, hint) :=
    match md_temporality (rd_metadata value) with
    | TemporalityCumulative =>
        if is_stale (rd_metadata value) then (states, ResetUnknown)
        else
          let current := rd_from_value value in
          let hint := hint_after states series current in
          (<[series := current]> states, hint)
    | TemporalityDelta => (states, NotCounterReset)
    | TemporalityUnspecified => (states, ResetUnknown)
    end in
  (states, set_hint hint value).

Record PreparedReset := mk_prepared { pr_series : Z; pr_next : option S }.

(** The states are only reserved for, so an error leaves them and the value as
    they were; success returns the token and the stamped value. *)
Definition prepare (al : allocator) (states : gmap Z S) (series : Z) (value : V)
    : io_result (PreparedReset * V) :=
  '(hint, next) ←
    match md_temporality (rd_metadata value) with
    | TemporalityCumulative =>
        if negb (is_stale (rd_metadata value)) then
          current ← rd_try_from_value al value;
          let hint := hint_after states series current in
          _ ← (match states !! series with
               | None => try_reserve_tracker_entry al rd_kind
               | Some _ => Ok tt
               end);
          Ok (hint, Some current)
        else Ok (ResetUnknown, None)
    | TemporalityDelta => Ok (NotCounterReset, None)
    | TemporalityUnspecified => Ok (ResetUnknown, None)
    end;
  Ok (mk_prepared series next, set_hint hint value).

Definition commit (states : gmap Z S) (prepared : PreparedReset) : gmap Z S :=
  match pr_next prepared with
  | Some next => <[pr_series prepared := next]> states
  | None => states
  end.

End detector.
Arguments PreparedReset : clear implicits.

#[export] Instance histogram_detector : ResetDetector HistogramValue HistogramResetState := {
  rd_metadata := h_metadata;
  rd_set_metadata m v := mk_histogram (h_count v) (h_sum v) (h_min v) (h_max v) m
                           (h_explicit_bounds v) (h_bucket_counts v);
  rd_from_value := histogram_from_value;
  rd_try_from_value := histogram_try_from_value;
  rd_hint := histogram_reset_hint;
  rd_kind := "histogram";
}.

#[export] Instance exponential_detector
    : ResetDetector ExponentialHistogramValue ExponentialHistogramResetState := {
  rd_metadata := e_metadata;
  rd_set_metadata m v := mk_exponential (e_count v) (e_sum v) (e_min v) (e_max v) (e_scale v)
                           (e_zero_threshold v) (e_zero_count v) m (e_positive v) (e_negative v);
  rd_from_value := exponential_from_value;
  rd_try_from_value := exponential_try_from_value;
  rd_hint := exponential_histogram_reset_hint;
  rd_kind := "exponential histogram";
}.

(** ** The tracker *)

Record OtlpResetTracker := mk_tracker {
  tr_histogram : gmap Z HistogramResetState;
  tr_exponential_histogram : gmap Z ExponentialHistogramResetState;
}.

Definition tracker_default : OtlpResetTracker := mk_tracker ∅ ∅.

Definition stamp_histogram (t : OtlpResetTracker) (series : Z) (value : HistogramValue)
    : OtlpResetTracker * HistogramValue :=
  let '(states, value) := stamp (tr_histogram t) series value in
  (mk_tracker states (tr_exponential_histogram t), value).

Definition stamp_exponential_histogram (t : OtlpResetTracker) (series : Z) (value : ExponentialHistogramValue)
    : OtlpResetTracker * ExponentialHistogramValue :=
  let '(states, value) := stamp (tr_exponential_histogram t) series value in
  (mk_tracker (tr_histogram t) states, value).

Definition prepare_histogram (al : allocator) (t : OtlpResetTracker) (series : Z) (value : HistogramValue)
    : io_result (PreparedReset HistogramResetState * HistogramValue) :=
  prepare al (tr_histogram t) series value.

Definition commit_histogram (t : OtlpResetTracker) (prepared : PreparedReset HistogramResetState)
    : OtlpResetTracker :=
  mk_tracker (commit (tr_histogram t) prepared) (tr_exponential_histogram t).

Definition prepare_exponential_histogram (al : allocator) (t : OtlpResetTracker) (series : Z)
    (value : ExponentialHistogramValue)
    : io_result (PreparedReset ExponentialHistogramResetState * ExponentialHistogramValue) :=
  prepare al (tr_exponential_histogram t) series value.

Definition commit_exponential_histogram (t : OtlpResetTracker)
    (prepared : PreparedReset ExponentialHistogramResetState) : OtlpResetTracker :=
  mk_tracker (tr_histogram t) (commit (tr_exponential_histogram t) prepared).

(** ** The drivers: what live ingestion ([record_head_sample] of
    [chronoxide-ingester/src/processor/otlp/pipeline.rs]) and WAL replay do with
    one sample.  [stored] is the answer of the head buffer. *)

Inductive PreparedResetUpdate :=
  | PreparedHistogram (p : PreparedReset HistogramResetState)
  | PreparedExponential (p : PreparedReset ExponentialHistogramResetState).

Definition prepare_sample (al : allocator) (t : OtlpResetTracker) (series : Z) (value : SampleValue)
    : io_result (option PreparedResetUpdate * SampleValue) :=
  match value with
  | SampleHistogram v =>
      '(p, v) ← prepare_histogram al t series v; Ok (Some (PreparedHistogram p), SampleHistogram v)
  | SampleExponentialHistogram v =>
      '(p, v) ← prepare_exponential_histogram al t series v;
      Ok (Some (PreparedExponential p), SampleExponentialHistogram v)
  | _ => Ok (None, value)
  end.

Definition commit_sample (t : OtlpResetTracker) (p : option PreparedResetUpdate) : OtlpResetTracker :=
  match p with
  | Some (PreparedHistogram p) => commit_histogram t p
  | Some (PreparedExponential p) => commit_exponential_histogram t p
  | None => t
  end.

Definition stamp_sample (t : OtlpResetTracker) (series : Z) (value : SampleValue)
    : OtlpResetTracker * SampleValue :=
  match value with
  | SampleHistogram v => let '(t, v) := stamp_histogram t series v in (t, SampleHistogram v)
  | SampleExponentialHistogram v =>
      let '(t, v) := stamp_exponential_histogram t series v in (t, SampleExponentialHistogram v)
  | _ => (t, value)
  end.

(** The head buffer's answer to the stamped sample. *)
Definition ingest_sample (al : allocator) (stored : SampleValue → bool) (t : OtlpResetTracker) (series : Z)
    (value : SampleValue) : io_result (OtlpResetTracker * option SampleValue) :=
  '(p, value) ← prepare_sample al t series value;
  if stored value then Ok (commit_sample t p, Some value) else Ok (t, None).

(** A live session: each event brings the allocator's answers, the head's answer,
    the series and the value; a failed sample is dropped.  The log lists the
    stored samples, as received and as stamped. *)
Record live_event := mk_event {
  ev_alloc : allocator;
  ev_stored : SampleValue → bool;
  ev_series : Z;
  ev_value : SampleValue;
}.

Fixpoint live_run (t : OtlpResetTracker) (evs : list live_event)
    : OtlpResetTracker * list (Z * SampleValue * SampleValue) :=
  match evs with
  | [] => (t, [])
  | ev :: evs =>
      match ingest_sample (ev_alloc ev) (ev_stored ev) t (ev_series ev) (ev_value ev) with
      | Ok (t, Some stamped) =>
          let '(t, log) := live_run t evs in (t, (ev_series ev, ev_value ev, stamped) :: log)
      | Ok (t, None) => live_run t evs
      | Err _ => live_run t evs
      end
  end.

Fixpoint replay_run (t : OtlpResetTracker) (samples : list (Z * SampleValue))
    : OtlpResetTracker * list SampleValue :=
  match samples with
  | [] => (t, [])
  | (series, value) :: samples =>
      let '(t, stamped) := stamp_sample t series value in
      let '(t, log) := replay_run t samples in (t, stamped :: log)
  end.

(** ** Specification: the state of a series is its last cumulative sample that is
    not stale *)

Definition counted (m : TypedSampleMetadata) : bool :=
  bool_decide (md_temporality m = TemporalityCumulative) && negb (is_stale m).

Definition as_histogram (v : SampleValue) : option HistogramValue :=
  match v with SampleHistogram v => Some v | _ => None end.
Definition as_exponential (v : SampleValue) : option ExponentialHistogramValue :=
  match v with SampleExponentialHistogram v => Some v | _ => None end.

Fixpoint last_counted {V S} `{ResetDetector V S} (select : SampleValue → option V) (series : Z)
    (last : option V) (history : list (Z * SampleValue)) : option V :=
  match history with
  | [] => last
  | (s, v) :: history =>
      last_counted select series
        (match select v with
         | Some v => if (s =? series) && counted (rd_metadata v) then Some v else last
         | None => last
         end) history
  end.

Definition expected_hint {V S} `{ResetDetector V S} (last : option V) (value : V) : CounterResetHint :=
  match md_temporality (rd_metadata value) with
  | TemporalityDelta => NotCounterReset
  | TemporalityUnspecified => ResetUnknown
  | TemporalityCumulative =>
      if is_stale (rd_metadata value) then ResetUnknown
      else match last with
           | Some previous => rd_hint (rd_from_value previous) (rd_from_value value)
           | None => ResetUnknown
           end
  end.

(** ** Laws of a detector *)

Class ResetLaws (V S : Type) `{ResetDetector V S} := {
  rd_try_cases al v :
    rd_try_from_value al v = Ok (rd_from_value v) ∨
    ∃ e, rd_try_from_value al v = Err e ∧ err_kind e = OutOfMemory ∧ ¬ grants al;
}.

Lemma try_reserve_cases al site pre n :
  try_reserve al site pre n = Ok tt ∨
  ∃ e, try_reserve al site pre n = Err e ∧ err_kind e = OutOfMemory ∧ ¬ grants al.
Proof.
  unfold try_reserve. destruct (al site n) eqn:Hal; [right|by left].
  eexists. split_and!; [done|done|]. intros Hg. by rewrite Hg in Hal.
Qed.

Lemma try_clone_cases {A} al (l : list A) d :
  try_clone_slice al l d = Ok l ∨
  ∃ e, try_clone_slice al l d = Err e ∧ err_kind e = OutOfMemory ∧ ¬ grants al.
Proof.
  unfold try_clone_slice. destruct (try_reserve_cases al d ("failed to reserve " +:+ d +:+ ": ") (zlen l))
    as [->|(e & -> & He)]; [by left|right]. by exists e.
Qed.

#[export] Instance histogram_laws : ResetLaws HistogramValue HistogramResetState.
Proof.
  split. intros al v. cbn. unfold histogram_try_from_value.
  destruct (try_clone_cases al (h_explicit_bounds v) "histogram reset explicit bounds") as [->|(e & -> & He)];
    [|right; by exists e].
  cbn [mbind result_bind].
  destruct (try_clone_cases al (h_bucket_counts v) "histogram reset bucket counts") as [->|(e & -> & He)];
    [by left|right; by exists e].
Qed.

#[export] Instance exponential_laws : ResetLaws ExponentialHistogramValue ExponentialHistogramResetState.
Proof.
  split. intros al [? ? ? ? ? ? ? ? [po pc] [no nc]]. cbn. unfold exponential_try_from_value. cbn.
  destruct (try_clone_cases al pc "positive exponential histogram reset buckets") as [->|(e & -> & He)];
    [|right; by exists e].
  cbn [mbind result_bind].
  destruct (try_clone_cases al nc "negative exponential histogram reset buckets") as [->|(e & -> & He)];
    [by left|right; by exists e].
Qed.

Section detector_laws.
Context {V S : Type} `{HL : ResetLaws V S}.

(** Two phases are one, and only the allocator can fail the first. *)
Lemma prepare_stamp al (states : gmap Z S) series (v : V) :
  (∃ p v', prepare al states series v = Ok (p, v') ∧ stamp states series v = (commit states p, v')) ∨
  ∃ e, prepare al states series v = Err e ∧ err_kind e = OutOfMemory ∧ ¬ grants al.
Proof.
  unfold prepare, stamp. destruct (md_temporality _); [left; by do 2 eexists..|].
  destruct (is_stale _); cbn [negb]; [left; by do 2 eexists|].
  destruct (rd_try_cases al v) as [->|(e & -> & He)]; [cbn|right; by exists e].
  destruct (states !! series); cbn; [left; by do 2 eexists|]. unfold try_reserve_tracker_entry.
  destruct (try_reserve_cases al rd_kind ("failed to reserve " +:+ rd_kind +:+ " reset-tracker state: ") 1)
    as [->|(e & -> & He)]; [left; by do 2 eexists|right; by exists e].
Qed.

Lemma stamp_lookup (states : gmap Z S) series s (v : V) :
  (stamp states series v).1 !! s =
  if (series =? s) && counted (rd_metadata v) then Some (rd_from_value v) else states !! s.
Proof.
  unfold stamp, counted. destruct (md_temporality _); cbn; rewrite ?andb_false_r; [done..|].
  destruct (is_stale _); cbn; [by rewrite andb_false_r|].
  destruct (Z.eqb_spec series s) as [->|Hne]; cbn; [by rewrite lookup_insert_eq|by rewrite lookup_insert_ne].
Qed.

Lemma stamp_hint (states : gmap Z S) series (v : V) (last : option V) :
  states !! series = rd_from_value <$> last →
  (stamp states series v).2 = set_hint (expected_hint last v) v.
Proof.
  intros Hs. unfold stamp, expected_hint, hint_after. destruct (md_temporality _); [done..|].
  destruct (is_stale _); [done|]. cbn. rewrite Hs. by destruct last.
Qed.
End detector_laws.

(** ** Soundness of the hints *)

Lemma counts_decreased_Forall2 p c :
  length p = length c → (counts_decreased p c = false ↔ Forall2 Z.le p c).
Proof.
  revert c. induction p as [|x p IH]; intros [|y c]; try done; cbn [counts_decreased length].
  intros [= Hlen]. rewrite orb_false_iff, Z.ltb_ge, (IH c Hlen).
  split; [intros []; by constructor|]. intros Hf. apply Forall2_cons_1 in Hf. tauto.
Qed.

(** The buckets of [b], of scale [scale], seen at [target_scale]. *)
Definition at_scale (b : ExponentialHistogramBuckets) (scale target_scale j : Z) : Z :=
  regroup (eb_offset b) (2 ^ (scale - target_scale)) (eb_counts b) j.

Lemma bucket_map_decreased_spec (p c : gmap Z Z) :
  (∀ j, 0 ≤ at_key c j) →
  if bucket_map_decreased p c then ∃ j, at_key c j < at_key p j else ∀ j, at_key p j ≤ at_key c j.
Proof.
  intros Hc. destruct (bucket_map_decreased p c) eqn:Hd; unfold bucket_map_decreased in Hd.
  - apply existsb_exists in Hd as ((j & x) & Hin%list_elem_of_In%elem_of_map_to_list & Hlt%Z.ltb_lt).
    exists j. unfold at_key at 2. by rewrite Hin.
  - intros j. unfold at_key at 1. destruct (p !! j) as [x|] eqn:Hx; [|apply Hc]. cbn.
    apply Z.nlt_ge. intros Hlt. rewrite <- not_true_iff_false, existsb_exists in Hd. apply Hd.
    exists (j, x). split; [|by apply Z.ltb_lt]. by apply list_elem_of_In, elem_of_map_to_list.
Qed.

Lemma decreased_at_scale p sp c sc target mp mc :
  buckets_wf p → buckets_wf c → in_i32 sp → in_i32 sc → in_i32 target →
  downscale_exponential_histogram_buckets_to_map p sp target = Ok mp →
  downscale_exponential_histogram_buckets_to_map c sc target = Ok mc →
  if bucket_map_decreased mp mc then ∃ j, at_scale c sc target j < at_scale p sp target j
  else ∀ j, at_scale p sp target j ≤ at_scale c sc target j.
Proof.
  intros Hp Hc Hsp Hsc Ht Hmp Hmc.
  destruct (downscale_map_spec _ _ _ _ Hp Hsp Ht Hmp) as (_ & _ & _ & Hatp).
  destruct (downscale_map_spec _ _ _ _ Hc Hsc Ht Hmc) as (_ & _ & _ & Hatc).
  pose proof (bucket_map_decreased_spec mp mc) as Hspec.
  destruct (bucket_map_decreased mp mc); [destruct Hspec as [j Hj]; [|exists j]|intros j];
    unfold at_scale; rewrite <- ?Hatp, <- ?Hatc; try done.
  - intros i. rewrite Hatc. apply regroup_nonneg, Hc.
  - apply Hspec. intros i. rewrite Hatc. apply regroup_nonneg, Hc.
Qed.

Definition estate_wf (s : ExponentialHistogramResetState) : Prop :=
  in_i32 (es_scale s) ∧ buckets_wf (es_positive s) ∧ buckets_wf (es_negative s).

(** The scalar fields went down, or the series restarted. *)
Definition histogram_restarted (p c : HistogramResetState) : Prop :=
  start_time_advanced (hs_start_time_ms p) (hs_start_time_ms c) = true ∨
  hs_count c < hs_count p ∨ optional_f64_decreased (hs_sum p) (hs_sum c) = true.

Definition exponential_restarted (p c : ExponentialHistogramResetState) : Prop :=
  start_time_advanced (es_start_time_ms p) (es_start_time_ms c) = true ∨
  es_count c < es_count p ∨ es_zero_count c < es_zero_count p ∨
  optional_f64_decreased (es_sum p) (es_sum c) = true.

(** ** Theorems *)

(** Preparing a sample and committing the token is stamping it: same
    tracker, same stamped value, for every kind of sample.  Preparing fails only
    with [OutOfMemory], and not when the allocator grants every request; the
    tracker changes at the commit only. *)
Theorem prepare_commit_is_stamp al t series value :
  match prepare_sample al t series value with
  | Ok (p, value') => stamp_sample t series value = (commit_sample t p, value')
  | Err e => err_kind e = OutOfMemory ∧ ¬ grants al
  end.
Proof.
  destruct t as [hs es], value as [| |v|v|]; try done; cbn [prepare_sample stamp_sample].
  - unfold prepare_histogram, stamp_histogram. cbn [tr_histogram].
    by destruct (prepare_stamp al hs series v) as [(p & v' & -> & ->)|(e & -> & He)].
  - unfold prepare_exponential_histogram, stamp_exponential_histogram. cbn [tr_exponential_histogram].
    by destruct (prepare_stamp al es series v) as [(p & v' & -> & ->)|(e & -> & He)].
Qed.

Lemma ingest_stamp al stored t series value :
  match ingest_sample al stored t series value with
  | Ok (t', Some v') => stamp_sample t series value = (t', v') ∧ stored v' = true
  | Ok (t', None) => t' = t ∧ stored (stamp_sample t series value).2 = false
  | Err e => err_kind e = OutOfMemory ∧ ¬ grants al
  end.
Proof.
  destruct t as [hs es]. unfold ingest_sample.
  destruct value as [b|n|v|v|v]; cbn [prepare_sample stamp_sample mbind result_bind commit_sample];
    try (destruct (stored _) eqn:Hst; done).
  - unfold prepare_histogram, stamp_histogram. cbn [tr_histogram].
    destruct (prepare_stamp al hs series v) as [(p & v' & -> & ->)|(e & -> & He)]; cbn; [|done].
    by destruct (stored _) eqn:Hst.
  - unfold prepare_exponential_histogram, stamp_exponential_histogram. cbn [tr_exponential_histogram].
    destruct (prepare_stamp al es series v) as [(p & v' & -> & ->)|(e & -> & He)]; cbn; [|done].
    by destruct (stored _) eqn:Hst.
Qed.

(** C18: live ingestion and WAL replay agree.  However allocation and the head
    buffer treat the samples of a live session, replaying those that were
    stored gives the same stamped samples and leaves the same tracker. *)
Theorem live_refines_replay evs : ∀ t t' log,
  live_run t evs = (t', log) → replay_run t log.*1 = (t', log.*2).
Proof.
  induction evs as [|ev evs IH]; intros t t' log; cbn [live_run].
  { by intros [= <- <-]. }
  pose proof (ingest_stamp (ev_alloc ev) (ev_stored ev) t (ev_series ev) (ev_value ev)) as Hev.
  destruct (ingest_sample _ _ _ _ _) as [[t1 [v1|]]|e].
  - destruct (live_run t1 evs) as [t2 log2] eqn:Hrun. intros [= <- <-]. destruct Hev as [Hst _].
    rewrite !fmap_cons. cbn [fst snd replay_run]. rewrite Hst. by rewrite (IH _ _ _ Hrun).
  - destruct Hev as [-> _]. apply IH.
  - apply IH.
Qed.

Lemma last_counted_snoc {V S} `{ResetDetector V S} select series last history s v :
  last_counted select series last (history ++ [(s, v)])
  = match select v with
    | Some v => if (s =? series) && counted (rd_metadata v) then Some v
                else last_counted select series last history
    | None => last_counted select series last history
    end.
Proof. revert last. induction history as [|[s' v'] h IH]; intros last; cbn [app last_counted]; [done|apply IH]. Qed.

Lemma replay_lookup samples : ∀ t t' log s hl el,
  tr_histogram t !! s = rd_from_value <$> hl →
  tr_exponential_histogram t !! s = rd_from_value <$> el →
  replay_run t samples = (t', log) →
  tr_histogram t' !! s = rd_from_value <$> last_counted as_histogram s hl samples ∧
  tr_exponential_histogram t' !! s = rd_from_value <$> last_counted as_exponential s el samples.
Proof.
  induction samples as [|[series v] samples IH]; intros t t' log s hl el Hh He; cbn [replay_run].
  { by intros [= <- <-]. }
  destruct (stamp_sample t series v) as [t1 v1] eqn:Hst. destruct (replay_run t1 samples) as [t2 log2] eqn:Hrun.
  intros [= <- <-]. cbn [last_counted]. refine (IH _ _ _ _ _ _ _ _ Hrun);
    destruct v as [b|n|v|v|v]; cbn [stamp_sample as_histogram as_exponential] in *;
    try (injection Hst as <- <-; done);
    unfold stamp_histogram, stamp_exponential_histogram in Hst.
  all: pose proof (stamp_lookup (tr_histogram t) series s) as H1;
    pose proof (stamp_lookup (tr_exponential_histogram t) series s) as H2;
    specialize (H1 v) || specialize (H2 v);
    destruct (stamp _ _ _) as [m w]; injection Hst as <- <-; cbn in *; try done.
  - rewrite H1. by destruct (_ && _).
  - rewrite H2. by destruct (_ && _).
Qed.

(** The tracker is the history.  After any run from the empty tracker the
    state of a series is that of its last cumulative sample that is not stale,
    per kind, and the next sample's hint compares it with exactly that one. *)
Theorem tracker_refines_history samples t log s :
  replay_run tracker_default samples = (t, log) →
  let lh := last_counted as_histogram s None samples in
  let le := last_counted as_exponential s None samples in
  (tr_histogram t !! s = histogram_from_value <$> lh ∧
   tr_exponential_histogram t !! s = exponential_from_value <$> le) ∧
  (∀ v, (stamp_sample t s (SampleHistogram v)).2 = SampleHistogram (set_hint (expected_hint lh v) v)) ∧
  (∀ v, (stamp_sample t s (SampleExponentialHistogram v)).2
        = SampleExponentialHistogram (set_hint (expected_hint le v) v)).
Proof.
  intros Hrun lh le.
  destruct (replay_lookup samples tracker_default t log s None None eq_refl eq_refl Hrun) as [Hh He].
  split; [by split|]. split; intros v; cbn [stamp_sample].
  - unfold stamp_histogram. pose proof (stamp_hint (tr_histogram t) s v lh Hh) as Hv.
    destruct (stamp _ _ _). by rewrite <- Hv.
  - unfold stamp_exponential_histogram. pose proof (stamp_hint (tr_exponential_histogram t) s v le He) as Hv.
    destruct (stamp _ _ _). by rewrite <- Hv.
Qed.

(** A histogram hint is [NotCounterReset] exactly when the sample continues
    the previous one: no restart, equal bounds, and every bucket at least as
    full; [CounterReset] comes only from a restart or from a bucket that went
    down under equal bounds. *)
Theorem histogram_hint_exact p c :
  (histogram_reset_hint p c = NotCounterReset ↔
   ¬ histogram_restarted p c ∧ f64s_eq (hs_explicit_bounds p) (hs_explicit_bounds c) = true ∧
   Forall2 Z.le (hs_bucket_counts p) (hs_bucket_counts c)) ∧
  (histogram_reset_hint p c = CounterReset →
   histogram_restarted p c ∨
   f64s_eq (hs_explicit_bounds p) (hs_explicit_bounds c) = true ∧
   length (hs_bucket_counts p) = length (hs_bucket_counts c) ∧
   ¬ Forall2 Z.le (hs_bucket_counts p) (hs_bucket_counts c)).
Proof.
  unfold histogram_reset_hint, histogram_restarted.
  destruct (start_time_advanced _ _); [split; [naive_solver|by left; left]|].
  destruct (f64s_eq _ _); cbn [negb]; [|split; naive_solver].
  destruct (Z.ltb_spec (hs_count c) (hs_count p)); cbn [orb]; [split; naive_solver|].
  destruct (optional_f64_decreased _ _); [split; naive_solver|].
  destruct (Z.eqb_spec (zlen (hs_bucket_counts p)) (zlen (hs_bucket_counts c))) as [Hl|Hl]; cbn [negb].
  - unfold zlen in Hl. apply Nat2Z.inj in Hl. pose proof (counts_decreased_Forall2 _ _ Hl) as Hd.
    destruct (counts_decreased _ _).
    + assert (Hn : ¬ Forall2 Z.le (hs_bucket_counts p) (hs_bucket_counts c)) by (intros Hf; by apply Hd in Hf).
      split; [by split; [|intros (_ & _ & Hf)]|by right].
    + split; [|done]. split; [intros _|done]. split_and!; [|done|by apply Hd].
      intros [?|[?|?]]; [done|lia|done].
  - split; [|done]. split; [done|]. intros (_ & _ & Hf). apply Forall2_length in Hf. unfold zlen in Hl. lia.
Qed.

(** An exponential histogram's hint compares the two samples at the smaller
    of their scales: [NotCounterReset] means no restart, the same zero threshold
    and no bucket of either sign below the previous count; [CounterReset]
    always has a witness, a restart or a bucket of the common scale that went
    down. *)
Theorem exponential_hint_sound p c :
  estate_wf p → estate_wf c →
  let scale := Z.min (es_scale p) (es_scale c) in
  (exponential_histogram_reset_hint p c = NotCounterReset →
   ¬ exponential_restarted p c ∧ es_zero_threshold_bits p = es_zero_threshold_bits c ∧
   ∀ j, at_scale (es_positive p) (es_scale p) scale j ≤ at_scale (es_positive c) (es_scale c) scale j ∧
        at_scale (es_negative p) (es_scale p) scale j ≤ at_scale (es_negative c) (es_scale c) scale j) ∧
  (exponential_histogram_reset_hint p c = CounterReset →
   exponential_restarted p c ∨
   ∃ j, at_scale (es_positive c) (es_scale c) scale j < at_scale (es_positive p) (es_scale p) scale j ∨
        at_scale (es_negative c) (es_scale c) scale j < at_scale (es_negative p) (es_scale p) scale j).
Proof.
  intros (Hsp & Hpp & Hpn) (Hsc & Hcp & Hcn) scale. unfold exponential_histogram_reset_hint, exponential_restarted.
  assert (Ht : in_i32 scale) by (unfold in_i32, scale in *; lia).
  destruct (start_time_advanced _ _); [split; [done|naive_solver]|].
  destruct (Z.eqb_spec (es_zero_threshold_bits p) (es_zero_threshold_bits c)); cbn [negb]; [|done].
  destruct (Z.ltb_spec (es_count c) (es_count p)); cbn [orb]; [split; [done|naive_solver]|].
  destruct (Z.ltb_spec (es_zero_count c) (es_zero_count p)); cbn [orb]; [split; [done|naive_solver]|].
  destruct (optional_f64_decreased _ _); [split; [done|naive_solver]|]. cbn zeta. fold scale.
  destruct (downscale_exponential_histogram_buckets_to_map (es_positive p) _ _) as [mpp|] eqn:Epp; [|done].
  destruct (downscale_exponential_histogram_buckets_to_map (es_positive c) _ _) as [mcp|] eqn:Ecp; [|done].
  destruct (downscale_exponential_histogram_buckets_to_map (es_negative p) _ _) as [mpn|] eqn:Epn; [|done].
  destruct (downscale_exponential_histogram_buckets_to_map (es_negative c) _ _) as [mcn|] eqn:Ecn; [|done].
  pose proof (decreased_at_scale _ _ _ _ _ _ _ Hpp Hcp Hsp Hsc Ht Epp Ecp) as Hpos.
  pose proof (decreased_at_scale _ _ _ _ _ _ _ Hpn Hcn Hsp Hsc Ht Epn Ecn) as Hneg.
  destruct (bucket_map_decreased mpp mcp); cbn [orb]; [split; [done|naive_solver]|].
  destruct (bucket_map_decreased mpn mcn); cbn [orb]; [split; [done|naive_solver]|].
  split; [|done]. intros _. split; [naive_solver lia|]. done.
Qed.

(** *** At concrete samples *)

Definition cumulative_histogram (count flags : Z) : SampleValue :=
  SampleHistogram (mk_histogram count None None None (mk_metadata (Some 1) flags TemporalityCumulative ResetUnknown)
                     [0x3ff0000000000000] [count; 0]).
Definition hint_of (v : SampleValue) : option CounterResetHint :=
  match v with
  | SampleHistogram v => Some (md_reset_hint (h_metadata v))
  | SampleExponentialHistogram v => Some (md_reset_hint (e_metadata v))
  | _ => None
  end.

(** 5, then 9 with no memory, then 3 refused by the head, then 7 stale, then 6,
    then 2. *)
Definition sample_session : list live_event :=
  [ mk_event alloc_ok (λ _, true) 1 (cumulative_histogram 5 0);
    mk_event (λ _ _, Some "no memory"%string) (λ _, true) 1 (cumulative_histogram 9 0);
    mk_event alloc_ok (λ _, false) 1 (cumulative_histogram 3 0);
    mk_event alloc_ok (λ _, true) 1 (cumulative_histogram 7 1);
    mk_event alloc_ok (λ _, true) 1 (cumulative_histogram 6 0);
    mk_event alloc_ok (λ _, true) 1 (cumulative_histogram 2 0) ].

Lemma live_refines_replay_witness :
  hint_of <$> (live_run tracker_default sample_session).2.*2
    = [Some ResetUnknown; Some ResetUnknown; Some NotCounterReset; Some CounterReset] ∧
  replay_run tracker_default (live_run tracker_default sample_session).2.*1
    = ((live_run tracker_default sample_session).1, (live_run tracker_default sample_session).2.*2).
Proof.
  split; [vm_compute; reflexivity|].
  exact (live_refines_replay sample_session tracker_default _ _ (surjective_pairing _)).
Defined.

Definition sample_history : list (Z * SampleValue) :=
  [(1, cumulative_histogram 5 0); (2, cumulative_histogram 8 0); (1, cumulative_histogram 7 1)].

Lemma tracker_refines_history_witness :
  last_counted as_histogram 1 None sample_history = as_histogram (cumulative_histogram 5 0) ∧
  tr_histogram (replay_run tracker_default sample_history).1 !! 1
    = histogram_from_value <$> last_counted as_histogram 1 None sample_history.
Proof.
  split; [vm_compute; reflexivity|].
  exact (proj1 (proj1 (tracker_refines_history sample_history _ _ 1 (surjective_pairing _)))).
Defined.

Definition sample_estate (scale : Z) (counts : list Z) : ExponentialHistogramResetState :=
  mk_estate (Some 1) 20 None scale 0 0 (mk_buckets 0 counts) (mk_buckets 0 []).

(** Buckets 4, 3 of scale 1 against 5, 0, 0, 3 of scale 2, then 5, 0, 0, 2. *)
Lemma exponential_hint_sound_witness :
  let p := sample_estate 1 [4; 3] in
  let c := sample_estate 2 [5; 0; 0; 3] in
  exponential_histogram_reset_hint p c = NotCounterReset ∧
  (∀ j, at_scale (es_positive p) 1 1 j ≤ at_scale (es_positive c) 2 1 j) ∧
  exponential_histogram_reset_hint p (sample_estate 2 [5; 0; 0; 2]) = CounterReset.
Proof.
  intros p c. split; [vm_compute; reflexivity|]. split; [|vm_compute; reflexivity].
  assert (Hwf : ∀ s counts, in_i32 s → Forall in_u64 counts → (length counts < 10)%nat →
    estate_wf (sample_estate s counts)).
  { intros s counts Hs Hc Hl. unfold estate_wf, buckets_wf, buckets_ok, sample_estate. cbn.
    unfold in_i32 in *. change (2 ^ 60) with 1152921504606846976. unfold zlen. cbn. repeat split; try lia; [done|constructor]. }
  refine (λ j, proj1 (proj2 (proj2 (proj1 (exponential_hint_sound p c _ _) eq_refl)) j));
    apply Hwf; [unfold in_i32; lia|repeat constructor; unfold in_u64; lia|cbn; lia
               |unfold in_i32; lia|repeat constructor; unfold in_u64; lia|cbn; lia].
Defined.
