(* ===== verification/Arena.v ===== *)
(** * The block arena

    [chronoxide-core/src/storage/arena.rs]: pages of zero-filled bytes with a used
    prefix, into which sealed blocks are written, and the frozen arena of
    published fragments.  [None] is a panic (an index or length mismatch in
    [slice_mut] and [copy_from_slice]).  The test-only failure injection is the
    allocator argument. *)
From S2P Require Import Prelude Cursor.

Record BufferRef := mk_ref { br_page : Z; br_offset : Z; br_len : Z }.

#[export] Instance BufferRef_eq_dec : EqDecision BufferRef.
Proof. solve_decision. Defined.

Record ArenaPage := mk_page { pg_buf : list Z; pg_used : Z }.

Definition page_try_new (al : allocator) (size : Z) : io_result ArenaPage :=
  _ ← try_reserve al "head block arena page" "failed to reserve head block arena page: " size;
  Ok (mk_page (replicate (Z.to_nat size) 0) 0).

Definition page_remaining (p : ArenaPage) : Z := saturating_sub (zlen (pg_buf p)) (pg_used p).

Record BlockArena := mk_arena {
  ar_pages : list ArenaPage;
  ar_page_size : Z;
  ar_max_page_size : Z;
  ar_adaptive : bool;
}.

Definition arena_new (page_size : Z) : BlockArena :=
  let page_size := Z.max page_size 1 in
  mk_arena [] page_size page_size false.

Definition arena_new_geometric (initial_page_size max_page_size : Z) : BlockArena :=
  let max_page_size := Z.max max_page_size 1 in
  mk_arena [] (Z.min (Z.max initial_page_size 1) max_page_size) max_page_size true.

Definition checked_buffer_ref (page offset len : Z) : io_result BufferRef :=
  page ← ok_or (io_err InvalidInput "head block arena page index exceeds BufferRef") (try_u32 page);
  offset ← ok_or (io_err InvalidInput "head block arena offset exceeds BufferRef") (try_u32 offset);
  len ← ok_or (io_err InvalidInput "head block arena length exceeds BufferRef") (try_u32 len);
  Ok (mk_ref page offset len).

Definition checked_slice (buf : list Z) (used : Z) (r : BufferRef) : io_result (list Z) :=
  end_ ← ok_or (io_err InvalidData "head block buffer range overflows")
           (checked_add_u64 (br_offset r) (br_len r));
  if (zlen buf <? used) || (used <? end_) then
    fail InvalidData "head block buffer range exceeds used arena bytes"
  else Ok (slice buf (br_offset r) end_).

(** [pages.last()] with its index. *)
Definition set_used (used : Z) (p : ArenaPage) : ArenaPage := mk_page (pg_buf p) used.
Definition set_last_used (used : Z) (pages : list ArenaPage) : list ArenaPage :=
  alter (set_used used) (pred (length pages)) pages.

(** Whether the write opens a page. *)
Definition needs_page (a : BlockArena) (len : Z) : io_result bool :=
  match last (ar_pages a) with
  | Some page =>
      if zlen (pg_buf page) <? pg_used page then
        fail InvalidData "head block arena page used length exceeds its buffer"
      else Ok (page_remaining page <? len)
  | None => Ok true
  end.

Definition next_page_size (a : BlockArena) : Z :=
  if ar_adaptive a then
    Z.min (default (ar_max_page_size a) (checked_mul_u64 (ar_page_size a) 2)) (ar_max_page_size a)
  else ar_page_size a.

Definition alloc_page (al : allocator) (a : BlockArena) (len : Z) : io_result (BlockArena * BufferRef) :=
  let page_index := zlen (ar_pages a) in
  _ ← ok_or (io_err InvalidInput "head block arena page index exceeds BufferRef") (try_u32 page_index);
  let size := Z.max (ar_page_size a) len in
  buf_ref ← checked_buffer_ref page_index 0 len;
  page ← page_try_new al size;
  _ ← try_reserve al "head block arena page directory"
        "failed to reserve head block arena page directory: " 1;
  Ok (mk_arena (ar_pages a ++ [set_used len page]) (next_page_size a) (ar_max_page_size a) (ar_adaptive a),
      buf_ref).

Definition alloc_in_page (a : BlockArena) (len : Z) : io_result (BlockArena * BufferRef) :=
  match last (ar_pages a) with
  | None => fail OtherError "unreachable"
  | Some page =>
      let offset := pg_used page in
      buf_ref ← checked_buffer_ref (zlen (ar_pages a) - 1) offset len;
      end_ ← ok_or (io_err InvalidInput "head block allocation overflows") (checked_add_u64 offset len);
      Ok (mk_arena (set_last_used end_ (ar_pages a)) (ar_page_size a) (ar_max_page_size a) (ar_adaptive a),
          buf_ref)
  end.

(** An error is returned before any field changes, so it carries no arena. *)
Definition try_alloc (al : allocator) (a : BlockArena) (len : Z) : io_result (BlockArena * BufferRef) :=
  let len := Z.max len 1 in
  _ ← ok_or (io_err InvalidInput "head block allocation length exceeds BufferRef") (try_u32 len);
  needs ← needs_page a len;
  if (needs : bool) then alloc_page al a len else alloc_in_page a len.

(** [self.slice_mut(buf_ref).copy_from_slice(data)]. *)
Definition copy_into (a : BlockArena) (r : BufferRef) (data : list Z) : option BlockArena :=
  page ← ar_pages a !! Z.to_nat (br_page r);
  if (br_offset r + br_len r <=? zlen (pg_buf page)) && (zlen data =? br_len r) then
    let buf := take (Z.to_nat (br_offset r)) (pg_buf page) ++ data
                 ++ drop (Z.to_nat (br_offset r + br_len r)) (pg_buf page) in
    Some (mk_arena (<[Z.to_nat (br_page r) := mk_page buf (pg_used page)]> (ar_pages a))
            (ar_page_size a) (ar_max_page_size a) (ar_adaptive a))
  else None.

Definition try_write (al : allocator) (a : BlockArena) (data : list Z)
    : option (io_result (BlockArena * BufferRef)) :=
  if bool_decide (data = []) then Some (try_alloc al a 0)
  else
    match try_alloc al a (zlen data) with
    | Err e => Some (Err e)
    | Ok (a, r) => a ← copy_into a r data; Some (Ok (a, r))
    end.

(** [write] panics on the errors of [try_write]. *)
Definition write (al : allocator) (a : BlockArena) (data : list Z) : option (BlockArena * BufferRef) :=
  r ← try_write al a data;
  match r with Ok p => Some p | Err _ => None end.

Definition rollback_pair_write (a : BlockArena) (page_count last_used next_page_size : Z) : BlockArena :=
  mk_arena (set_last_used last_used (take (Z.to_nat page_count) (ar_pages a))) next_page_size
    (ar_max_page_size a) (ar_adaptive a).

(** The two writes see the allocator at different moments; both answers are
    arguments.  The arena is returned on either path. *)
Definition try_write_pair (al1 al2 : allocator) (a : BlockArena) (first second : list Z)
    : option (BlockArena * io_result (BufferRef * BufferRef)) :=
  let page_count := zlen (ar_pages a) in
  let last_used := from_option pg_used 0 (last (ar_pages a)) in
  let next := ar_page_size a in
  r1 ← try_write al1 a first;
  match r1 with
  | Err e => Some (rollback_pair_write a page_count last_used next, Err e)
  | Ok (a, first_ref) =>
      r2 ← try_write al2 a second;
      match r2 with
      | Err e => Some (rollback_pair_write a page_count last_used next, Err e)
      | Ok (a, second_ref) => Some (a, Ok (first_ref, second_ref))
      end
  end.

Definition sum_saturating (l : list Z) : Z := foldl saturating_add_u64 0 l.
Definition total_capacity_bytes (a : BlockArena) : Z := sum_saturating ((λ p, zlen (pg_buf p)) <$> ar_pages a).
Definition total_used_bytes (a : BlockArena) : Z := sum_saturating (pg_used <$> ar_pages a).
Definition slack_bytes (a : BlockArena) : Z :=
  saturating_sub (total_capacity_bytes a) (total_used_bytes a).
Definition page_count (a : BlockArena) : Z := zlen (ar_pages a).

Record FrozenBlockArena := mk_frozen { fz_pages : list (list Z); fz_used_bytes : Z }.

(** [ArenaRead]. *)
Class ArenaRead (A : Type) := { arena_slice : A → BufferRef → io_result (list Z) }.

#[export] Instance block_arena_read : ArenaRead BlockArena := {
  arena_slice a r :=
    page ← ok_or (io_err InvalidData "head block buffer references a missing arena page")
             (ar_pages a !! Z.to_nat (br_page r));
    checked_slice (pg_buf page) (pg_used page) r
}.

#[export] Instance frozen_arena_read : ArenaRead FrozenBlockArena := {
  arena_slice a r :=
    page ← ok_or (io_err InvalidData "head block buffer references a missing frozen arena page")
             (fz_pages a !! Z.to_nat (br_page r));
    checked_slice page (zlen page) r
}.

(** The validating pass over [self.pages.iter().enumerate()]. *)
Fixpoint freeze_check (page_index used_bytes : Z) (pages : list ArenaPage) : io_result Z :=
  match pages with
  | [] => Ok used_bytes
  | page :: pages =>
      _ ← ok_or (io_err InvalidData "head block arena page index exceeds BufferRef") (try_u32 page_index);
      if zlen (pg_buf page) <? pg_used page then
        fail InvalidData "head block arena page used length exceeds its buffer"
      else
        used_bytes ← ok_or (io_err InvalidData "head block arena used-byte accounting overflows")
                       (checked_add_u64 used_bytes (pg_used page));
        freeze_check (page_index + 1) used_bytes pages
  end.

Fixpoint freeze_pages (al : allocator) (pages : list ArenaPage) : io_result (list (list Z)) :=
  match pages with
  | [] => Ok []
  | page :: pages =>
      _ ← try_reserve al "frozen arena page" "failed to reserve exact frozen arena page: " (pg_used page);
      rest ← freeze_pages al pages;
      Ok (slice (pg_buf page) 0 (pg_used page) :: rest)
  end.

(** [FreezeArenaError] carries the arena, which [self] is: unchanged. *)
Definition try_freeze (al : allocator) (a : BlockArena) : result (io_error * BlockArena) FrozenBlockArena :=
  match
    (used_bytes ← freeze_check 0 0 (ar_pages a);
     _ ← try_reserve al "frozen arena page directory" "failed to reserve frozen arena page directory: "
           (zlen (ar_pages a));
     pages ← freeze_pages al (ar_pages a);
     Ok (mk_frozen pages used_bytes))
  with
  | Ok f => Ok f
  | Err e => Err (e, a)
  end.

(** ** Pages and their order *)

(** A page's visible bytes. *)
Definition page_data (p : ArenaPage) : list Z := take (Z.to_nat (pg_used p)) (pg_buf p).

Definition page_wf (p : ArenaPage) : Prop := 0 ≤ pg_used p ≤ zlen (pg_buf p).

(** [q] is [p] after more of it was used. *)
Definition page_le (p q : ArenaPage) : Prop :=
  pg_used p ≤ pg_used q ∧ zlen (pg_buf p) = zlen (pg_buf q) ∧
  take (Z.to_nat (pg_used p)) (pg_buf p) = take (Z.to_nat (pg_used p)) (pg_buf q).

#[export] Instance page_le_preorder : PreOrder page_le.
Proof.
  split; [done|]. intros p q r (H1 & H2 & H3) (H4 & H5 & H6). split_and!; [lia|lia|].
  rewrite H3. transitivity (take (Z.to_nat (pg_used p)) (take (Z.to_nat (pg_used q)) (pg_buf q))).
  - rewrite take_take. f_equal. lia.
  - rewrite H6, take_take. f_equal. lia.
Qed.

(** The page list after writes: only the last page changed, pages were added. *)
Inductive pages_ext : list ArenaPage → list ArenaPage → Prop :=
  | ext_empty l : pages_ext [] l
  | ext_last init p p' l : page_le p p' → pages_ext (init ++ [p]) (init ++ p' :: l).

#[export] Instance pages_ext_preorder : PreOrder pages_ext.
Proof.
  split.
  - intros l. destruct l as [|p l] using rev_ind; [constructor|]. by constructor.
  - intros x y z [l|init p p' l Hp] Hyz; [constructor|].
    destruct l as [|q l] using rev_ind; [|clear IHl].
    + remember (init ++ [p']) as w eqn:Hy. destruct Hyz as [|init2 q q' l Hq]; [by destruct init|].
      apply app_inj_tail in Hy as [-> ->]. constructor. by transitivity p'.
    + remember (init ++ p' :: l ++ [q]) as w eqn:Hy.
      destruct Hyz as [|init2 q2 q2' l2 Hq]; [by destruct init|].
      rewrite app_comm_cons, app_assoc in Hy. apply app_inj_tail in Hy as [-> ->].
      rewrite <- app_assoc. cbn. by constructor.
Qed.

Lemma pages_ext_lookup ps qs i p :
  pages_ext ps qs → ps !! i = Some p → ∃ q, qs !! i = Some q ∧ page_le p q.
Proof.
  intros [l|init p0 p' l Hp] Hi; [done|]. destruct (decide (i < length init)%nat) as [Hlt|Hge].
  - rewrite lookup_app_l in Hi by done. exists p. by rewrite lookup_app_l.
  - rewrite lookup_app_r in Hi by lia. destruct (i - length init)%nat eqn:Hk; [|done]. injection Hi as <-.
    exists p'. rewrite lookup_app_r, Hk by lia. done.
Qed.

Definition arena_wf (a : BlockArena) : Prop :=
  Forall page_wf (ar_pages a) ∧ 1 ≤ ar_page_size a ≤ ar_max_page_size a.

Definition arena_le (a b : BlockArena) : Prop :=
  pages_ext (ar_pages a) (ar_pages b) ∧
  ar_max_page_size a = ar_max_page_size b ∧ ar_adaptive a = ar_adaptive b.

#[export] Instance arena_le_preorder : PreOrder arena_le.
Proof.
  split; [by intros a|]. intros a b c (H1 & H2 & H3) (H4 & H5 & H6). split_and!; try congruence.
  by transitivity (ar_pages b).
Qed.

Definition ref_wf (r : BufferRef) : Prop :=
  in_u32 (br_page r) ∧ in_u32 (br_offset r) ∧ in_u32 (br_len r).

Lemma checked_buffer_ref_Ok p o l r :
  checked_buffer_ref p o l = Ok r ↔ r = mk_ref p o l ∧ in_u32 p ∧ in_u32 o ∧ in_u32 l.
Proof.
  unfold checked_buffer_ref. split.
  - intros H. apply bind_ok in H as (x & Hx & H). apply bind_ok in H as (y & Hy & H).
    apply bind_ok in H as (z & Hz & H). injection H as <-.
    destruct (try_u32 p) eqn:Ep, (try_u32 o) eqn:Eo, (try_u32 l) eqn:El; try done.
    injection Hx as ->. injection Hy as ->. injection Hz as ->.
    apply try_u32_Some in Ep as [-> ?], Eo as [-> ?], El as [-> ?]. done.
  - intros (-> & Hp & Ho & Hl). by rewrite !try_u32_fits.
Qed.

(** ** Reading *)

Lemma slice_take {A} (l : list A) a b :
  0 ≤ a → slice l a b = drop (Z.to_nat a) (take (Z.to_nat b) l).
Proof.
  intros Ha. unfold slice. rewrite take_drop_commute.
  destruct (decide (a ≤ b)) as [Hab|Hab]; [do 2 f_equal; lia|].
  replace (Z.to_nat a + Z.to_nat (b - a))%nat with (Z.to_nat a) by lia.
  rewrite <- (Nat.add_0_r (Z.to_nat a)) at 2. rewrite <- take_drop_commute. rewrite take_0.
  symmetry. apply drop_ge. rewrite length_take. lia.
Qed.

Lemma checked_slice_Ok buf used r d :
  ref_wf r → checked_slice buf used r = Ok d ↔
  used ≤ zlen buf ∧ br_offset r + br_len r ≤ used ∧ d = slice buf (br_offset r) (br_offset r + br_len r).
Proof.
  intros (_ & Ho & Hl). unfold in_u32 in *. unfold checked_slice. rewrite checked_add_u64_fits by lia. cbn.
  destruct (Z.ltb_spec (zlen buf) used), (Z.ltb_spec used (br_offset r + br_len r)); cbn;
    split; try done; try lia; naive_solver.
Qed.

Lemma arena_slice_Ok a r d :
  ref_wf r → arena_slice a r = Ok d ↔
  ∃ p, ar_pages a !! Z.to_nat (br_page r) = Some p ∧ pg_used p ≤ zlen (pg_buf p) ∧
    br_offset r + br_len r ≤ pg_used p ∧ d = slice (pg_buf p) (br_offset r) (br_offset r + br_len r).
Proof.
  intros Hr. cbn. destruct (ar_pages a !! _) as [p|]; cbn; [|naive_solver].
  rewrite checked_slice_Ok by done. naive_solver.
Qed.

(** What was written stays readable. *)
Lemma arena_le_slice a b r d :
  arena_le a b → arena_wf b → ref_wf r → arena_slice a r = Ok d → arena_slice b r = Ok d.
Proof.
  intros (Hext & _) [Hwf _] Hr. rewrite !arena_slice_Ok by done. intros (p & Hp & Hu & He & ->).
  destruct (pages_ext_lookup _ _ _ _ Hext Hp) as (q & Hq & Hle & Hlen & Htake).
  pose proof (Forall_lookup_1 _ _ _ _ Hwf Hq) as [_ Hq']. exists q. split_and!; [done|done|lia|].
  destruct Hr as (_ & [Ho _] & [Hl _]). rewrite !slice_take by lia. f_equal.
  rewrite <- (Nat.min_l (Z.to_nat (br_offset r + br_len r)) (Z.to_nat (pg_used p))) by lia.
  by rewrite <- !take_take, Htake.
Qed.

(** ** Writing *)

Lemma set_last_used_snoc u init p : set_last_used u (init ++ [p]) = init ++ [set_used u p].
Proof.
  unfold set_last_used. rewrite length_app. cbn. replace (pred _) with (length init + 0)%nat by lia.
  by rewrite alter_app_r.
Qed.

(** The buffer that an allocation reserves: the end of the last page, past
    everything that was in use. *)
Record fresh_ref (a b : BlockArena) (r : BufferRef) (n : Z) : Prop := {
  fr_wf : ref_wf r;
  fr_len : br_len r = n;
  fr_last : ∃ init p, ar_pages b = init ++ [p] ∧ br_page r = zlen init ∧ pg_used p = br_offset r + n;
  fr_past : ∀ p, ar_pages a !! Z.to_nat (br_page r) = Some p → pg_used p ≤ br_offset r;
}.

Lemma next_page_size_wf a : 1 ≤ ar_page_size a ≤ ar_max_page_size a → 1 ≤ next_page_size a ≤ ar_max_page_size a.
Proof.
  intros H. unfold next_page_size. destruct (ar_adaptive a); [|done].
  destruct (checked_mul_u64 _ _) as [x|] eqn:Hx; cbn; [|lia]. unfold checked_mul_u64 in Hx.
  destruct (_ <=? _); [|done]. injection Hx as <-. lia.
Qed.

Lemma try_alloc_spec al a len b r :
  arena_wf a → try_alloc al a len = Ok (b, r) →
  arena_wf b ∧ arena_le a b ∧ fresh_ref a b r (Z.max len 1).
Proof.
  intros [Hwf Hps]. unfold try_alloc. set (n := Z.max len 1). intros H.
  apply bind_ok in H as (n' & Hn & H). apply bind_ok in H as (needs & Hneeds & H). destruct needs.
  - unfold alloc_page in H. apply bind_ok in H as (i & _ & H). apply bind_ok in H as (r' & Hr & H).
    apply checked_buffer_ref_Ok in Hr as (-> & Hr1 & Hr2 & Hr3).
    unfold page_try_new in H. apply bind_ok in H as (page & Hpage & H). apply bind_ok in Hpage as ([] & _ & Hpage).
    injection Hpage as <-. apply bind_ok in H as ([] & _ & H). injection H as <- <-.
    split_and!; split; cbn; try done.
    + apply Forall_snoc; [done|]. unfold page_wf. cbn. rewrite zlen_replicate. lia.
    + by apply next_page_size_wf.
    + destruct (ar_pages a) as [|p l] using rev_ind; [constructor|]. rewrite <- app_assoc. by constructor.
    + by do 2 eexists.
    + intros p Hp. apply lookup_lt_Some in Hp. unfold zlen in Hp. lia.
  - unfold needs_page in Hneeds. unfold alloc_in_page in H.
    destruct a as [pages ps mps ad]. cbn [ar_pages ar_page_size ar_max_page_size ar_adaptive] in *.
    destruct pages as [|p l _] using rev_ind; [done|]. rewrite last_snoc in *.
    apply bind_ok in H as (r' & Hr & H). apply checked_buffer_ref_Ok in Hr as (-> & Hr1 & Hr2 & Hr3).
    apply bind_ok in H as (e & He & H). injection H as <- <-.
    destruct (checked_add_u64 _ _) as [e'|] eqn:Hadd; [|done]. injection He as ->.
    apply checked_add_u64_Some in Hadd as [-> _].
    apply Forall_snoc_inv in Hwf as [Hl [Hp0 Hp1]].
    destruct (Z.ltb_spec (zlen (pg_buf p)) (pg_used p)); [done|]. injection Hneeds as Hrem.
    apply Z.ltb_ge in Hrem. unfold page_remaining, saturating_sub in Hrem.
    rewrite zlen_app, zlen_cons, zlen_nil in *. replace (zlen l + (1 + 0) - 1) with (zlen l) in * by lia.
    split_and!; split; cbn; try done; rewrite ?set_last_used_snoc.
    + apply Forall_snoc; [done|]. unfold page_wf. cbn. lia.
    + constructor. unfold page_le. cbn. split_and!; [lia|done|done].
    + exists l, (set_used (pg_used p + n) p). by split_and!.
    + intros q Hq. unfold zlen in Hq. rewrite Nat2Z.id, lookup_app_r, Nat.sub_diag in Hq by lia.
      injection Hq as <-. lia.
Qed.

Lemma copy_into_spec a b r n data :
  arena_wf b → arena_le a b → fresh_ref a b r n → zlen data = n →
  ∃ c, copy_into b r data = Some c ∧ arena_wf c ∧ arena_le a c ∧ fresh_ref a c r n ∧
    ar_page_size c = ar_page_size b ∧ arena_slice c r = Ok data.
Proof.
  intros [Hwf Hps] (Hext & Hmax & Had) [Hr Hlen (init & p & Hb & Hpage & Hused) Hpast] Hdata.
  pose proof Hr as (_ & [Ho _] & [Hl _]). rewrite Hlen in Hl. unfold copy_into.
  assert (Hp : page_wf p). { rewrite Hb in Hwf. by apply Forall_snoc_inv in Hwf as [_ ?]. }
  destruct Hp as [Hp0 Hp1].
  assert (Hlk : ar_pages b !! Z.to_nat (br_page r) = Some p).
  { rewrite Hb, Hpage. unfold zlen. by rewrite Nat2Z.id, lookup_app_r, Nat.sub_diag by lia. }
  rewrite Hlk. cbn [mbind option_bind]. rewrite Hlen, Hdata, Z.eqb_refl.
  rewrite (proj2 (Z.leb_le _ _)) by lia. cbn [andb].
  set (buf := take _ _ ++ data ++ _). assert (Hins : <[Z.to_nat (br_page r) := mk_page buf (pg_used p)]> (ar_pages b)
    = init ++ [mk_page buf (pg_used p)]).
  { rewrite Hb, Hpage. unfold zlen. rewrite Nat2Z.id. rewrite insert_app_r_alt by lia. by rewrite Nat.sub_diag. }
  assert (Hbl : zlen buf = zlen (pg_buf p)).
  { unfold buf. rewrite !zlen_app, Hdata. unfold zlen in *. rewrite length_take, length_drop. lia. }
  eexists. split; [done|]. rewrite Hins. split_and!; cbn; try done.
  - split; cbn; [|done]. rewrite Hb in Hwf. apply Forall_snoc_inv in Hwf as [? _]. apply Forall_snoc; [done|].
    unfold page_wf. cbn. lia.
  - split_and!; cbn; try done. clear Hmax Had. rewrite Hb in Hext.
    destruct (ar_pages a) as [|q l _] using rev_ind; [constructor|].
    remember (l ++ [q]) as x eqn:Hx. remember (init ++ [p]) as y eqn:Hy.
    destruct Hext as [|i2 q2 q2' l2 Hq]; [by destruct l|]. apply app_inj_tail in Hx as [-> ->].
    destruct l2 as [|z l2 _] using rev_ind.
    + apply app_inj_tail in Hy as [-> ->]. constructor. specialize (Hpast q).
      rewrite Hpage in Hpast. unfold zlen in Hpast. rewrite Nat2Z.id, lookup_app_r, Nat.sub_diag in Hpast by lia.
      specialize (Hpast eq_refl). destruct Hq as (Hq1 & Hq2 & Hq3). unfold page_le. cbn.
      split_and!; [lia|lia|]. rewrite Hq3. unfold buf. rewrite take_app_le by (rewrite length_take; unfold zlen in *; lia).
      rewrite take_take. f_equal. lia.
    + rewrite app_comm_cons, app_assoc in Hy. apply app_inj_tail in Hy as [<- <-].
      rewrite <- app_assoc. cbn. by constructor.
  - split; cbn; [done|done| |done]. by exists init, (mk_page buf (pg_used p)).
  - rewrite Hpage. unfold zlen at 1. rewrite Nat2Z.id, lookup_app_r, Nat.sub_diag by lia. cbn.
    apply checked_slice_Ok; [done|]. split_and!; [lia|lia|]. unfold buf.
    rewrite slice_app with (x := data); [done| |lia].
    unfold zlen in *. rewrite length_take. lia.
Qed.

(** What reading the buffer of a write of [data] gives: an empty write still
    occupies one byte. *)
Definition stored (data d : list Z) : Prop :=
  if bool_decide (data = []) then zlen d = 1 else d = data.

Lemma try_write_spec al a data :
  arena_wf a →
  ∃ res, try_write al a data = Some res ∧
    match res with
    | Ok (b, r) => arena_wf b ∧ arena_le a b ∧ fresh_ref a b r (Z.max (zlen data) 1) ∧
        ∃ d, arena_slice b r = Ok d ∧ stored data d
    | Err e => ∃ n, n ≤ zlen data ∧ try_alloc al a n = Err e
    end.
Proof.
  intros Hwf. unfold try_write, stored. case_bool_decide as Hd.
  - eexists. split; [done|]. destruct (try_alloc al a 0) as [[b r]|e] eqn:Ha; [|exists 0; split; [apply zlen_nonneg|done]].
    destruct (try_alloc_spec _ _ _ _ _ Hwf Ha) as (Hb & Hle & Hr). subst data. change (zlen []) with 0.
    split_and!; [done|done|done|]. destruct Hr as [Hr Hlen (init & p & Hp & Hpage & Hu) _].
    destruct Hb as [Hb _]. rewrite Hp in Hb. apply Forall_snoc_inv in Hb as [_ [Hp0 Hp1]].
    pose proof Hr as (_ & [Ho _] & _). eexists. split.
    + apply arena_slice_Ok; [done|]. exists p. rewrite Hp, Hpage. unfold zlen at 1.
      rewrite Nat2Z.id, lookup_app_r, Nat.sub_diag by lia. split_and!; [done|lia|lia|done].
    + unfold slice, zlen in *. rewrite length_take, length_drop. lia.
  - assert (Hn : Z.max (zlen data) 1 = zlen data).
    { destruct data; [done|]. rewrite zlen_cons. pose proof (zlen_nonneg data). lia. }
    destruct (try_alloc al a (zlen data)) as [[b r]|e] eqn:Ha; [|eexists; split; [done|by exists (zlen data)]].
    destruct (try_alloc_spec _ _ _ _ _ Hwf Ha) as (Hb & Hle & Hr). rewrite Hn in *.
    destruct (copy_into_spec a b r _ data Hb Hle Hr eq_refl) as (c & -> & Hc & Hac & Hrc & _ & Hs).
    eexists. split; [done|]. split_and!; [done|done|done|by eexists].
Qed.

(** ** Rollback *)

(** Equal to every reader and to every later write: bytes past the used prefix
    are not compared. *)
Definition page_same (p q : ArenaPage) : Prop :=
  pg_used p = pg_used q ∧ zlen (pg_buf p) = zlen (pg_buf q) ∧ page_data p = page_data q.

Definition arena_same (a b : BlockArena) : Prop :=
  Forall2 page_same (ar_pages a) (ar_pages b) ∧ ar_page_size a = ar_page_size b ∧
  ar_max_page_size a = ar_max_page_size b ∧ ar_adaptive a = ar_adaptive b.

#[export] Instance page_same_equiv : Equivalence page_same.
Proof.
  split; [done|intros p q (?&?&?); done|]. intros p q r (?&?&?) (?&?&?). split_and!; congruence.
Qed.
#[export] Instance arena_same_equiv : Equivalence arena_same.
Proof.
  split.
  - intros a. by split_and!.
  - intros a b (Hp & ? & ? & ?). by split_and!.
  - intros a b c (Hp & ? & ? & ?) (Hq & ? & ? & ?). split_and!; try congruence.
    by transitivity (ar_pages b).
Qed.

#[export] Instance total_used_proper : Proper (arena_same ==> eq) total_used_bytes.
Proof.
  intros a b (Hp & _). unfold total_used_bytes. f_equal. induction Hp as [|p q ps qs Hpq _ IH]; [done|].
  rewrite !fmap_cons, IH. by destruct Hpq as [-> _].
Qed.
#[export] Instance total_capacity_proper : Proper (arena_same ==> eq) total_capacity_bytes.
Proof.
  intros a b (Hp & _). unfold total_capacity_bytes. f_equal. induction Hp as [|p q ps qs Hpq _ IH]; [done|].
  rewrite !fmap_cons, IH. by destruct Hpq as (_ & -> & _).
Qed.
#[export] Instance page_count_proper : Proper (arena_same ==> eq) page_count.
Proof. intros a b (Hp & _). unfold page_count, zlen. by rewrite (Forall2_length _ _ _ Hp). Qed.

Lemma arena_same_slice a b r :
  arena_same a b → ref_wf r → arena_slice a r = arena_slice b r.
Proof.
  intros (Hp & _) Hr. cbn. destruct (ar_pages a !! _) as [p|] eqn:Ha.
  - destruct (Forall2_lookup_l _ _ _ _ _ Hp Ha) as (q & -> & Hu & Hl & Hd). cbn.
    destruct Hr as (_ & [Ho _] & [Hn _]). unfold checked_slice, page_data in *. rewrite <- Hu, <- Hl in *.
    destruct (checked_add_u64 _ _) as [e|] eqn:He; [cbn|done]. apply checked_add_u64_Some in He as [-> _].
    destruct (Z.ltb_spec (zlen (pg_buf p)) (pg_used p)); [done|].
    destruct (Z.ltb_spec (pg_used p) (br_offset r + br_len r)); [done|]. cbn. f_equal. rewrite !slice_take by done.
    f_equal. rewrite <- (Nat.min_l (Z.to_nat (br_offset r + br_len r)) (Z.to_nat (pg_used p))) by lia.
    by rewrite <- !take_take, Hd.
  - apply lookup_ge_None in Ha. rewrite (Forall2_length _ _ _ Hp) in Ha.
    by rewrite (proj2 (lookup_ge_None _ _)) by done.
Qed.

(** Undoing the pages of a write gives the arena before it. *)
Lemma rollback_same a b :
  arena_wf a → arena_le a b →
  arena_same a (rollback_pair_write b (zlen (ar_pages a)) (from_option pg_used 0 (last (ar_pages a))) (ar_page_size a)).
Proof.
  intros _ (Hext & Hmax & Had). unfold rollback_pair_write, zlen. rewrite Nat2Z.id.
  split_and!; try done. cbn. destruct Hext as [l|init p p' l (Hu & Hl & Ht)].
  - rewrite take_0. by destruct l.
  - rewrite last_snoc. cbn [from_option]. rewrite (cons_middle p' init l), app_assoc.
    rewrite take_app_length' by (rewrite !length_app; done). rewrite set_last_used_snoc. apply Forall2_app.
    + clear. by induction init; constructor.
    + constructor; [|constructor]. unfold page_same, page_data. cbn. by split_and!.
Qed.

Lemma arena_same_wf a b : arena_same a b → arena_wf a → arena_wf b.
Proof.
  intros (Hp & Hs & Hm & _) [Hwf Hsz]. split; [|lia]. clear Hs Hm Hsz.
  induction Hp as [|p q ps qs (Hu & Hl & _) _ IH]; [constructor|]. apply Forall_cons_1 in Hwf as [[? ?] Hwf].
  constructor; [|auto]. unfold page_wf. lia.
Qed.

Lemma fresh_ref_slice a b r n d s :
  fresh_ref a b r n → ref_wf s → arena_slice a s = Ok d →
  br_page s ≠ br_page r ∨ br_offset s + br_len s ≤ br_offset r.
Proof.
  intros [_ _ _ Hpast] Hs (p & Hp & Hu & He & _)%arena_slice_Ok; [|done].
  destruct (decide (br_page s = br_page r)) as [Heq|Hne]; [right|by left].
  rewrite Heq in Hp. specialize (Hpast p Hp). lia.
Qed.

(** The two buffers overlap nowhere. *)
Definition disjoint_refs (r s : BufferRef) : Prop :=
  br_page r ≠ br_page s ∨ br_offset r + br_len r ≤ br_offset s ∨ br_offset s + br_len s ≤ br_offset r.

(** ** Sessions: any writes, any allocator *)

Inductive arena_op :=
  | OpWrite (al : allocator) (data : list Z)
  | OpPair (al1 al2 : allocator) (first second : list Z).

(** The arena after one operation and the buffers it handed out. *)
Definition arena_step (a : BlockArena) (op : arena_op) : option (BlockArena * list (BufferRef * list Z)) :=
  match op with
  | OpWrite al data =>
      r ← try_write al a data;
      Some (match r with Ok (b, r) => (b, [(r, data)]) | Err _ => (a, []) end)
  | OpPair al1 al2 first second =>
      '(b, r) ← try_write_pair al1 al2 a first second;
      Some (match r with Ok (r1, r2) => (b, [(r1, first); (r2, second)]) | Err _ => (b, []) end)
  end.

Fixpoint arena_run (a : BlockArena) (ops : list arena_op) : option (BlockArena * list (BufferRef * list Z)) :=
  match ops with
  | [] => Some (a, [])
  | op :: ops =>
      '(a, log) ← arena_step a op;
      '(a, rest) ← arena_run a ops;
      Some (a, log ++ rest)
  end.

(** Every buffer of the log reads back, and no two overlap. *)
Definition log_ok (a : BlockArena) (log : list (BufferRef * list Z)) : Prop :=
  Forall (λ '(r, data), ref_wf r ∧ ∃ d, arena_slice a r = Ok d ∧ stored data d) log ∧
  ForallOrdPairs (λ x y, disjoint_refs x.1 y.1) log.

Lemma log_ok_le a b log : log_ok a log → arena_le a b → arena_wf b → log_ok b log.
Proof.
  intros [Hl Hd] Hle Hwf. split; [|done]. eapply Forall_impl; [exact Hl|].
  intros [r data] (Hr & d & Hs & Hst). split; [done|]. exists d. split; [|done]. by eapply arena_le_slice.
Qed.

Lemma log_ok_same a b log : log_ok a log → arena_same a b → log_ok b log.
Proof.
  intros [Hl Hd] Hs. split; [|done]. eapply Forall_impl; [exact Hl|].
  intros [r data] (Hr & d & Hsl & Hst). split; [done|]. exists d. split; [|done]. by rewrite <- (arena_same_slice a b).
Qed.

Lemma ForallOrdPairs_snoc {A} (R : A → A → Prop) l x :
  ForallOrdPairs R l → Forall (λ y, R y x) l → ForallOrdPairs R (l ++ [x]).
Proof.
  induction 1 as [|y l Hy Hl IH]; intros Hx; cbn; [by repeat constructor|].
  apply Forall_cons_1 in Hx as [? ?]. constructor; [|auto]. by apply Forall_snoc.
Qed.

Lemma log_ok_write al a data b r log :
  arena_wf a → try_write al a data = Some (Ok (b, r)) → log_ok a log →
  arena_wf b ∧ arena_le a b ∧ log_ok b (log ++ [(r, data)]).
Proof.
  intros Hwf Hw Hlog. destruct (try_write_spec al a data Hwf) as (res & Hres & H).
  rewrite Hw in Hres. injection Hres as <-. destruct H as (Hb & Hle & Hr & Hd).
  split_and!; [done|done|]. pose proof (log_ok_le _ _ _ Hlog Hle Hb) as [H1 H2]. split.
  - apply Forall_snoc; [done|]. by split; [apply Hr|].
  - apply ForallOrdPairs_snoc; [done|]. destruct Hlog as [Hl _]. eapply Forall_impl; [exact Hl|].
    intros [s data'] (Hs & d & Hsl & _). destruct (fresh_ref_slice _ _ _ _ _ _ Hr Hs Hsl); [by left|by right; left].
Qed.

(** A pair of writes: both buffers, or the arena as before. *)
Lemma try_write_pair_spec al1 al2 a first second log :
  arena_wf a → log_ok a log →
  ∃ b res, try_write_pair al1 al2 a first second = Some (b, res) ∧ arena_wf b ∧
    match res with
    | Ok (r1, r2) => arena_le a b ∧ log_ok b (log ++ [(r1, first); (r2, second)])
    | Err _ => arena_same a b
    end.
Proof.
  intros Hwf Hlog. unfold try_write_pair.
  destruct (try_write_spec al1 a first Hwf) as ([[a1 r1]|e] & Hw1 & _); rewrite Hw1; cbn [mbind option_bind].
  - destruct (log_ok_write _ _ _ _ _ _ Hwf Hw1 Hlog) as (Hwf1 & Hle1 & Hlog1).
    destruct (try_write_spec al2 a1 second Hwf1) as ([[a2 r2]|e] & Hw2 & _); rewrite Hw2; cbn [mbind option_bind].
    + destruct (log_ok_write _ _ _ _ _ _ Hwf1 Hw2 Hlog1) as (Hwf2 & Hle2 & Hlog2).
      rewrite <- app_assoc in Hlog2. do 2 eexists. split; [done|]. split_and!; [done|by transitivity a1|done].
    + pose proof (rollback_same a a1 Hwf Hle1) as Hsame. do 2 eexists. split; [done|]. split; [|done].
      exact (arena_same_wf _ _ Hsame Hwf).
  - pose proof (rollback_same a a Hwf ltac:(done)) as Hsame. do 2 eexists. split; [done|]. split; [|done].
    exact (arena_same_wf _ _ Hsame Hwf).
Qed.

Lemma arena_run_spec ops : ∀ a log,
  arena_wf a → log_ok a log →
  ∃ b new, arena_run a ops = Some (b, new) ∧ arena_wf b ∧ log_ok b (log ++ new).
Proof.
  induction ops as [|op ops IH]; intros a log Hwf Hlog; cbn [arena_run].
  { exists a, []. by rewrite app_nil_r. }
  assert (Hstep : ∃ b new, arena_step a op = Some (b, new) ∧ arena_wf b ∧ log_ok b (log ++ new)).
  { destruct op as [al data|al1 al2 first second]; cbn [arena_step].
    - destruct (try_write_spec al a data Hwf) as ([[b r]|e] & Hw & _); rewrite Hw; cbn.
      + destruct (log_ok_write _ _ _ _ _ _ Hwf Hw Hlog) as (? & _ & ?). by exists b, [(r, data)].
      + exists a, []. by rewrite app_nil_r.
    - destruct (try_write_pair_spec al1 al2 a first second log Hwf Hlog) as (b & res & -> & Hb & H). cbn.
      destruct res as [[r1 r2]|e].
      + destruct H as [_ H]. by exists b, [(r1, first); (r2, second)].
      + exists b, []. rewrite app_nil_r. split_and!; [done|done|]. exact (log_ok_same _ _ _ Hlog H). }
  destruct Hstep as (b & new & -> & Hb & Hnew). cbn [mbind option_bind].
  destruct (IH b (log ++ new) Hb Hnew) as (c & rest & -> & Hc & Hrest). cbn.
  exists c, (new ++ rest). by rewrite app_assoc.
Qed.

Lemma arena_new_wf ps : arena_wf (arena_new ps).
Proof. split; cbn; [constructor|lia]. Qed.
Lemma arena_new_geometric_wf i m : arena_wf (arena_new_geometric i m).
Proof. split; cbn; [constructor|lia]. Qed.
Lemma log_ok_nil a : log_ok a [].
Proof. split; constructor. Qed.

(** ** Freezing *)

Definition sum_used (pages : list ArenaPage) : Z := foldr Z.add 0 (pg_used <$> pages).

Lemma freeze_check_Ok pages : ∀ i n m,
  Forall page_wf pages → freeze_check i n pages = Ok m → m = n + sum_used pages.
Proof.
  induction pages as [|p pages IH]; intros i n m Hwf H; cbn [freeze_check] in H; unfold sum_used in *; cbn.
  { injection H as <-. lia. }
  apply Forall_cons_1 in Hwf as [_ Hwf]. apply bind_ok in H as (? & _ & H). destruct (_ <? _); [done|].
  apply bind_ok in H as (u & Hu & H). destruct (checked_add_u64 _ _) as [u'|] eqn:Hadd; [|done].
  injection Hu as <-. apply checked_add_u64_Some in Hadd as [-> _]. rewrite (IH _ _ _ Hwf H). lia.
Qed.

Lemma freeze_pages_Ok al pages : ∀ fs, Forall page_wf pages → freeze_pages al pages = Ok fs → fs = page_data <$> pages.
Proof.
  induction pages as [|p pages IH]; intros fs Hwf H; cbn [freeze_pages] in H.
  { by injection H as <-. }
  apply Forall_cons_1 in Hwf as [[Hp _] Hwf]. apply bind_ok in H as (? & _ & H).
  apply bind_ok in H as (rest & Hrest & H). injection H as <-. rewrite (IH _ Hwf Hrest), fmap_cons. f_equal.
  unfold page_data. rewrite slice_take by lia. by rewrite drop_0.
Qed.

(** Reading through the frozen arena is reading through the mutable one. *)
Lemma freeze_slice al a f r d :
  arena_wf a → try_freeze al a = Ok f → ref_wf r → arena_slice a r = Ok d ↔ arena_slice f r = Ok d.
Proof.
  intros [Hwf _] Hf Hr. rewrite arena_slice_Ok by done. unfold try_freeze in Hf.
  destruct (mbind _ _) as [f'|e] eqn:Hm; [|done]. injection Hf as ->.
  apply bind_ok in Hm as (u & Hu & Hm). apply bind_ok in Hm as ([] & _ & Hm).
  apply bind_ok in Hm as (fs & Hfs & Hm). injection Hm as <-. cbn.
  rewrite (freeze_pages_Ok _ _ _ Hwf Hfs), list_lookup_fmap.
  destruct (ar_pages a !! _) as [p|] eqn:Hp; cbn; [|naive_solver].
  pose proof (Forall_lookup_1 _ _ _ _ Hwf Hp) as [Hp0 Hp1]. rewrite checked_slice_Ok by done.
  assert (Hz : zlen (page_data p) = pg_used p). { unfold page_data, zlen in *. rewrite length_take. lia. }
  rewrite Hz. destruct Hr as (_ & [Ho _] & [Hn _]).
  assert (Hs : br_offset r + br_len r ≤ pg_used p →
    slice (page_data p) (br_offset r) (br_offset r + br_len r) = slice (pg_buf p) (br_offset r) (br_offset r + br_len r)).
  { intros He. rewrite !slice_take by done. unfold page_data. rewrite take_take. do 2 f_equal. lia. }
  split; [intros (q & [= <-] & _ & He & ->)|intros (_ & He & ->)].
  - split_and!; [lia|done|by rewrite Hs].
  - exists p. split_and!; [done|lia|done|by rewrite Hs].
Qed.

(** ** When writes and freezing succeed *)

(** Every offset of the arena fits a [BufferRef]. *)
Definition arena_small (a : BlockArena) : Prop :=
  Forall (λ p, zlen (pg_buf p) ≤ u32_max) (ar_pages a) ∧ zlen (ar_pages a) ≤ u32_max.

Lemma needs_page_total a n : arena_wf a → is_ok (needs_page a n) = true.
Proof.
  intros [Hwf _]. unfold needs_page. destruct (last (ar_pages a)) as [p|] eqn:Hl; [|done].
  apply last_Some in Hl as [l Hl]. rewrite Hl in Hwf. apply Forall_snoc_inv in Hwf as [_ [_ Hp]].
  by rewrite (proj2 (Z.ltb_ge _ _)).
Qed.

Lemma try_alloc_total al a len :
  arena_wf a → arena_small a → grants al → len ≤ u32_max → is_ok (try_alloc al a len) = true.
Proof.
  intros Hwf [Hsmall Hcount] Hal Hlen. unfold try_alloc. rewrite try_u32_fits by (unfold in_u32; lia). cbn.
  pose proof (needs_page_total a (Z.max len 1) Hwf) as Hn. pose proof (zlen_nonneg (ar_pages a)).
  destruct (needs_page _ _) as [[|]|] eqn:Hneeds; try done; cbn.
  - unfold alloc_page, page_try_new, try_reserve. rewrite !Hal, try_u32_fits by (unfold in_u32; lia). cbn.
    by rewrite (proj2 (checked_buffer_ref_Ok _ _ _ _)) by (unfold in_u32; split_and!; (reflexivity || lia)).
  - unfold alloc_in_page. unfold needs_page in Hneeds. destruct (last (ar_pages a)) as [p|] eqn:Hl; [|done].
    apply last_Some in Hl as [l Hl]. destruct Hwf as [Hwf _]. rewrite Hl in *.
    apply Forall_snoc_inv in Hwf as [_ [Hp0 Hp1]], Hsmall as [_ Hs]. cbn in Hs. rewrite zlen_app, zlen_cons, zlen_nil in *.
    pose proof (zlen_nonneg l).
    rewrite (proj2 (checked_buffer_ref_Ok _ _ _ _)) by (unfold in_u32; split_and!; (reflexivity || lia)).
    cbn. by rewrite checked_add_u64_fits by lia.
Qed.

Lemma foldl_saturating l : ∀ n, 0 ≤ n ≤ u64_max → Forall (Z.le 0) l →
  foldl saturating_add_u64 n l = Z.min (n + foldr Z.add 0 l) u64_max.
Proof.
  induction l as [|x l IH]; intros n Hn Hl; cbn; [lia|]. apply Forall_cons_1 in Hl as [Hx Hl].
  assert (0 ≤ foldr Z.add 0 l). { clear -Hl. induction Hl; cbn; lia. }
  unfold saturating_add_u64 at 2. rewrite IH by (done || lia). lia.
Qed.

Lemma total_used_sum a : arena_wf a → sum_used (ar_pages a) ≤ u64_max → total_used_bytes a = sum_used (ar_pages a).
Proof.
  intros [Hwf _] Hs. unfold total_used_bytes, sum_saturating, sum_used in *. rewrite foldl_saturating; [lia|done|].
  clear Hs. induction Hwf as [|p l [? ?] _ IH]; cbn; by constructor.
Qed.

Lemma freeze_check_total pages : ∀ i n,
  Forall page_wf pages → 0 ≤ i → 0 ≤ n → i + zlen pages ≤ u32_max → n + sum_used pages ≤ u64_max →
  is_ok (freeze_check i n pages) = true.
Proof.
  induction pages as [|p pages IH]; intros i n Hwf Hi Hn Hc Hs; [done|]. unfold sum_used in *.
  rewrite fmap_cons in Hs. cbn [foldr] in Hs. cbn [freeze_check].
  rewrite zlen_cons in Hc. pose proof (zlen_nonneg pages). apply Forall_cons_1 in Hwf as [[Hp0 Hp1] Hwf].
  rewrite try_u32_fits by (unfold in_u32; lia). cbn. rewrite (proj2 (Z.ltb_ge _ _)) by done.
  assert (0 ≤ foldr Z.add 0 (pg_used <$> pages)). { clear -Hwf. induction Hwf as [|q l [? ?]]; cbn; lia. }
  rewrite checked_add_u64_fits by lia. cbn. apply IH; [done|lia..].
Qed.

Lemma freeze_pages_total al pages : grants al → is_ok (freeze_pages al pages) = true.
Proof.
  intros Hal. induction pages as [|p pages IH]; [done|]. cbn [freeze_pages]. unfold try_reserve. rewrite Hal. cbn.
  by destruct (freeze_pages al pages).
Qed.

Lemma page_same_last a b :
  Forall2 page_same a b → option_relation page_same (λ _, False) (λ _, False) (last a) (last b).
Proof.
  intros H. induction H as [|p q a b Hpq H IH]; [done|]. destruct H; [by cbn|]. done.
Qed.

(** Equal arenas allocate alike. *)
Lemma try_alloc_same al a b n :
  arena_same a b →
  match try_alloc al a n, try_alloc al b n with
  | Ok (_, r), Ok (_, s) => r = s | Err e, Err e' => e = e' | _, _ => False
  end.
Proof.
  intros (Hp & Hps & Hmp & Had). pose proof (page_same_last _ _ Hp) as Hlast.
  assert (Hz : zlen (ar_pages a) = zlen (ar_pages b)) by (unfold zlen; by rewrite (Forall2_length _ _ _ Hp)).
  unfold try_alloc. destruct (ok_or _ _) as [n'|]; cbn; [|done].
  unfold needs_page, alloc_page, alloc_in_page, page_remaining. rewrite <- Hps, <- Hz.
  destruct (last (ar_pages a)) as [p|], (last (ar_pages b)) as [q|]; try done; cbn in Hlast |- *.
  - destruct Hlast as (<- & <- & _). destruct (_ <? _); cbn; [done|]. destruct (_ <? _).
    + destruct (ok_or _ _); cbn; [|done]. destruct (checked_buffer_ref _ _ _); cbn; [|done].
      destruct (page_try_new _ _); cbn; [|done]. by destruct (try_reserve _ _ _ _).
    + destruct (checked_buffer_ref _ _ _); cbn; [|done]. by destruct (ok_or _ _).
  - destruct (ok_or _ _); cbn; [|done]. destruct (checked_buffer_ref _ _ _); cbn; [|done].
    destruct (page_try_new _ _); cbn; [|done]. by destruct (try_reserve _ _ _ _).
Qed.

(** ** Theorems *)

Definition initial_arena (geometric : bool) (page_size max_page_size : Z) : BlockArena :=
  if geometric then arena_new_geometric page_size max_page_size else arena_new page_size.

(** C27: whatever is written, in whatever order and however often the allocator
    refuses, single writes and transactional pairs never panic; every buffer
    handed out keeps reading back the bytes written to it (one byte for an empty
    write), no two buffers overlap, and freezing the arena changes no read. *)
Theorem arena_keeps_buffers geometric page_size max_page_size ops :
  ∃ a log, arena_run (initial_arena geometric page_size max_page_size) ops = Some (a, log) ∧
    log_ok a log ∧
    ∀ al f, try_freeze al a = Ok f →
      fz_used_bytes f = sum_used (ar_pages a) ∧
      Forall (λ '(r, data), ∃ d, arena_slice f r = Ok d ∧ stored data d) log.
Proof.
  assert (Hwf : arena_wf (initial_arena geometric page_size max_page_size)).
  { destruct geometric; [apply arena_new_geometric_wf|apply arena_new_wf]. }
  destruct (arena_run_spec ops _ [] Hwf (log_ok_nil _)) as (a & log & Hrun & Ha & Hlog).
  exists a, log. split_and!; [done|done|]. intros al f Hf. split.
  - unfold try_freeze in Hf. destruct (mbind _ _) as [f'|e] eqn:Hm; [|done]. injection Hf as ->.
    apply bind_ok in Hm as (u & Hu & Hm). apply bind_ok in Hm as ([] & _ & Hm).
    apply bind_ok in Hm as (fs & _ & Hm). injection Hm as <-. cbn. by apply freeze_check_Ok in Hu; [|apply Ha].
  - destruct Hlog as [Hl _]. eapply Forall_impl; [exact Hl|]. intros [r data] (Hr & d & Hd & Hst).
    exists d. split; [|done]. by apply (freeze_slice al a f r d Ha Hf Hr).
Qed.

(** A failed pair leaves the arena as it was: equal for every reader, with
    the same accounting, and every later allocation gets the buffer or the error
    it would have got. *)
Theorem failed_pair_unchanged al1 al2 a first second b e :
  arena_wf a → try_write_pair al1 al2 a first second = Some (b, Err e) →
  arena_same a b ∧
  (∀ r, ref_wf r → arena_slice b r = arena_slice a r) ∧
  (total_used_bytes b = total_used_bytes a ∧ total_capacity_bytes b = total_capacity_bytes a ∧
   page_count b = page_count a) ∧
  ∀ al n, match try_alloc al a n, try_alloc al b n with
          | Ok (_, r), Ok (_, s) => r = s | Err x, Err y => x = y | _, _ => False
          end.
Proof.
  intros Hwf Hw. destruct (try_write_pair_spec al1 al2 a first second [] Hwf (log_ok_nil a))
    as (b' & res & Hw' & _ & Hsame). rewrite Hw in Hw'. injection Hw' as <- <-.
  split_and!; [done|..|by rewrite Hsame|by rewrite Hsame|by rewrite Hsame|].
  - intros r Hr. symmetry. by apply arena_same_slice.
  - intros al n. by apply try_alloc_same.
Qed.

(** C34: with memory to serve them and offsets that fit a [BufferRef], writing
    and freezing succeed, and the frozen arena accounts for exactly the used
    bytes. *)
Theorem arena_succeeds al a data :
  arena_wf a → arena_small a → grants al → zlen data ≤ u32_max →
  (∃ b r, write al a data = Some (b, r) ∧ arena_wf b) ∧
  (sum_used (ar_pages a) ≤ u64_max →
   ∃ f, try_freeze al a = Ok f ∧ fz_used_bytes f = total_used_bytes a).
Proof.
  intros Hwf Hsmall Hal Hlen. split.
  - unfold write. destruct (try_write_spec al a data Hwf) as (res & -> & H). cbn.
    destruct res as [[b r]|e]; [by exists b, r; split; [|apply H]|]. exfalso. destruct H as (n & Hn & H).
    pose proof (try_alloc_total al a n Hwf Hsmall Hal ltac:(lia)) as Ht. by rewrite H in Ht.
  - intros Hs. unfold try_freeze.
    pose proof (freeze_check_total (ar_pages a) 0 0 (proj1 Hwf) ltac:(lia) ltac:(lia) (proj2 Hsmall) Hs) as Hc.
    destruct (freeze_check 0 0 (ar_pages a)) as [u|] eqn:Hu; [cbn|done].
    unfold try_reserve. rewrite Hal. cbn.
    pose proof (freeze_pages_total al (ar_pages a) Hal). destruct (freeze_pages _ _); [cbn|done].
    eexists. split; [done|]. cbn. rewrite total_used_sum by done. by apply freeze_check_Ok in Hu; [|apply Hwf].
Qed.

(** *** At concrete arenas *)

Definition sample_arena : BlockArena :=
  match write alloc_ok (arena_new_geometric 8 64) [1; 2; 3] with Some (a, _) => a | None => arena_new 1 end.

Lemma sample_arena_wf : arena_wf sample_arena.
Proof.
  destruct (try_write_spec alloc_ok (arena_new_geometric 8 64) [1; 2; 3] (arena_new_geometric_wf 8 64))
    as (res & Hres & H). unfold sample_arena, write. rewrite Hres. cbn. destruct res as [[b r]|e]; [apply H|].
  apply arena_new_wf.
Qed.

(** The first buffer opens a page of 16 bytes; there is no memory for the
    second. *)
Definition refuse : allocator := λ _ _, Some "no memory"%string.
Definition rolled_back : BlockArena :=
  match try_write_pair alloc_ok refuse sample_arena [4; 5; 6; 7; 8; 9] (replicate 20 1) with
  | Some (b, _) => b
  | None => sample_arena
  end.
Definition refused : io_error := io_err OutOfMemory "failed to reserve head block arena page: no memory".

Lemma failed_pair_unchanged_witness :
  try_write_pair alloc_ok refuse sample_arena [4; 5; 6; 7; 8; 9] (replicate 20 1) = Some (rolled_back, Err refused) ∧
  arena_same sample_arena rolled_back.
Proof.
  assert (Hw : try_write_pair alloc_ok refuse sample_arena [4; 5; 6; 7; 8; 9] (replicate 20 1)
    = Some (rolled_back, Err refused)) by (vm_compute; reflexivity).
  split; [exact Hw|].
  exact (proj1 (failed_pair_unchanged alloc_ok refuse sample_arena [4; 5; 6; 7; 8; 9] (replicate 20 1)
    rolled_back refused sample_arena_wf Hw)).
Defined.

Lemma arena_succeeds_witness :
  arena_small sample_arena ∧ ∃ b r, write alloc_ok sample_arena [7; 8] = Some (b, r) ∧ arena_wf b.
Proof.
  assert (Hs : arena_small sample_arena).
  { split; [|vm_compute; discriminate]. constructor; [vm_compute; discriminate|constructor]. }
  split; [exact Hs|].
  refine (proj1 (arena_succeeds alloc_ok sample_arena [7; 8] sample_arena_wf Hs (λ _ _, eq_refl) _)).
  vm_compute. discriminate.
Defined.
