(* ===== verification/BlockCodec.v ===== *)
(** * Block codecs

    The [BlockCodec] trait of [chronoxide-core/src/storage/block.rs], what its
    implementations promise to the block builder ([BlockCodecLaws]), and the
    implementations whose encodings are modelled: length-prefixed and
    schema-tagged typed values, Gorilla floats, raw 8-byte values and
    delta-encoded integers. *)
From S2P Require Import Prelude Varint Cursor Bits Bitstream Gorilla VarLen SchemaVarLen.

(** [reserve] only asks for capacity and is left out.  A failed [push] returns
    the codec it leaves behind. *)
Class BlockCodec (V C : Type) := {
  bc_new : allocator → V → io_result C;
  bc_push : allocator → C → V → io_result unit * C;
  bc_encoded_len_bytes : C → Z;
  bc_snapshot_bytes : C → list Z;
  bc_into_bytes : C → list Z;
  bc_decode_values : allocator → list Z → Z → io_result (list V);
}.

(** [bc_rep c vs]: the codec holds the values [vs].  "A failed append must leave
    decoder-visible codec state unchanged." *)
Class BlockCodecLaws (V C : Type) `{BlockCodec V C} := {
  bc_value : V → Prop;
  bc_rep : C → list V → Prop;
  bc_new_rep al v c : bc_value v → bc_new al v = Ok c → bc_rep c [v];
  bc_push_rep al c vs v :
    bc_rep c vs → bc_value v →
    match bc_push al c v with
    | (Ok _, c') => bc_rep c' (vs ++ [v])
    | (Err _, c') => bc_rep c' vs
    end;
  bc_snapshot_nonempty c vs : bc_rep c vs → vs ≠ [] → bc_snapshot_bytes c ≠ [];
  bc_snapshot_into c vs : bc_rep c vs → bc_snapshot_bytes c = bc_into_bytes c;
  bc_len_rep c vs :
    bc_rep c vs → vec_ok (bc_snapshot_bytes c) → bc_encoded_len_bytes c = zlen (bc_snapshot_bytes c);
  bc_decode_rep al c vs :
    bc_rep c vs → vs ≠ [] → zlen vs ≤ u32_max → vec_ok (bc_snapshot_bytes c) → grants al →
    bc_decode_values al (bc_snapshot_bytes c) (zlen vs) = Ok vs;
}.

Lemma encode_varint_loop_length fuel : ∀ v out, (length out ≤ length (encode_varint_loop fuel v out))%nat.
Proof.
  induction fuel as [|fuel IH]; intros v out; cbn [encode_varint_loop]; [done|].
  destruct (_ <=? _); [|rewrite length_app; lia]. etransitivity; [|apply IH]. rewrite length_app. lia.
Qed.

Lemma encode_varint_nonempty v out : encode_varint v out ≠ [].
Proof.
  unfold encode_varint, varint_fuel. cbn [encode_varint_loop].
  destruct (_ <=? _); [|by destruct out]. intros Hn.
  pose proof (encode_varint_loop_length 9 (Z.shiftr v 7) (out ++ [Z.lor (wrap_u8 v) 128])) as Hl.
  cbn [encode_varint_loop] in Hl. rewrite Hn, length_app in Hl. cbn in Hl. lia.
Qed.

Lemma app_nonempty_l {A} (l k : list A) : l ≠ [] → l ++ k ≠ [].
Proof. by destruct l. Qed.

(** ** Length-prefixed values *)

#[export] Instance varlen_block_codec {T} `{VarLenEncoding T} : BlockCodec T VarLenCodec := {
  bc_new _ v := VarLen.new v;
  bc_push _ c v := VarLen.push c v;
  bc_encoded_len_bytes := VarLen.encoded_len_bytes;
  bc_snapshot_bytes := VarLen.snapshot_bytes;
  bc_into_bytes := VarLen.into_bytes;
  bc_decode_values := VarLen.decode_values;
}.

Section varlen_laws.
Context {T : Type} `{VarLenLaws T}.

Definition varlen_rep (c : VarLenCodec) (vs : list T) : Prop :=
  Forall vl_valid vs ∧ vc_values c = frames vs.

Lemma frames_snoc (vs : list T) v : frames (vs ++ [v]) = frames vs ++ frame v.
Proof. unfold frames. by rewrite fmap_app, join_app, join_fmap_cons, app_nil_r. Qed.

#[export] Program Instance varlen_block_laws : BlockCodecLaws T VarLenCodec := {
  bc_value := vl_repr;
  bc_rep := varlen_rep;
}.
Next Obligation.
  intros al v c Hv. cbn. unfold VarLen.new. intros Hn.
  pose proof (varlen_push_spec empty_varlen v Hv) as Hs. unfold VarLen.push, empty_varlen in Hs.
  destruct (VarLen.encode_value _ v) as [[[]|e] c']; [|done]. injection Hn as ->. destruct Hs as [Hval Hc].
  split; [by constructor|]. rewrite Hc. symmetry. apply (frames_snoc []).
Qed.
Next Obligation.
  intros al c vs v [Hvs Hc] Hv. cbn. pose proof (varlen_push_spec c v Hv) as Hs.
  destruct (VarLen.push c v) as [[[]|e] c']; destruct Hs as [H1 H2]; [|by rewrite <- H1 in Hc].
  split; [by apply Forall_snoc|]. by rewrite H2, Hc, frames_snoc.
Qed.
Next Obligation.
  intros c [|v vs] [_ Hc] Hne; [done|]. cbn. unfold VarLen.snapshot_bytes. rewrite Hc. unfold frames.
  rewrite join_fmap_cons. unfold frame. do 2 apply app_nonempty_l. apply encode_varint_nonempty.
Qed.
Next Obligation. done. Qed.
Next Obligation. done. Qed.
Next Obligation.
  intros al c vs [Hvs Hc] _ _ Hsz Hal. cbn in *. unfold VarLen.snapshot_bytes in *. rewrite Hc in *.
  apply decode_values_frames; [done| |done]. by apply frames_fit.
Qed.
End varlen_laws.

(** ** Schema-tagged values *)

#[export] Instance schema_block_codec {T} `{SchemaVarLenEncoding T}
    : BlockCodec T (SchemaVarLenCodec Schema) := {
  bc_new := SchemaVarLen.new;
  bc_push := SchemaVarLen.push;
  bc_encoded_len_bytes := SchemaVarLen.encoded_len_bytes;
  bc_snapshot_bytes := SchemaVarLen.snapshot_bytes;
  bc_into_bytes := SchemaVarLen.into_bytes;
  bc_decode_values := SchemaVarLen.decode_values;
}.

Section schema_laws.
Context {T : Type} `{SchemaVarLenLaws T}.

#[export] Program Instance schema_block_laws : BlockCodecLaws T (SchemaVarLenCodec Schema) := {
  bc_value := pushable;
  bc_rep := codec_rep;
}.
Next Obligation.
  intros al v c Hv. cbn. unfold SchemaVarLen.new. intros Hn.
  pose proof (push_spec al empty_codec [] v codec_rep_empty Hv) as Hs. unfold SchemaVarLen.push, empty_codec in Hs.
  destruct (SchemaVarLen.encode_value al _ v) as [[[]|e] c']; [|done]. injection Hn as ->. apply Hs.
Qed.
Next Obligation.
  intros al c vs v Hc Hv. cbn. pose proof (push_spec al c vs v Hc Hv) as Hs.
  destruct (SchemaVarLen.push al c v) as [[[]|e] c']; destruct Hs as [H1 H2]; [done|].
  by eapply codec_rep_contents.
Qed.
Next Obligation.
  intros c vs Hc Hne. cbn. rewrite (snapshot_spec _ _ Hc). unfold block_bytes, header.
  do 2 apply app_nonempty_l. apply encode_varint_nonempty.
Qed.
Next Obligation. done. Qed.
Next Obligation. intros c vs. apply encoded_len_rep. Qed.
Next Obligation.
  intros al c vs Hc _ Hn Hsz Hal. cbn in *. rewrite (snapshot_spec _ _ Hc) in *. by eapply decode_block_rep.
Qed.
End schema_laws.

(** ** Gorilla floats *)

(** The error path is left by no [u64] value ([push_rep]). *)
Definition gorilla_push (e : GorillaEncoder) (bits : Z) : io_result unit * GorillaEncoder :=
  match Encoder.push e bits with Ok e => (Ok tt, e) | Err err => (Err err, e) end.

#[export] Instance gorilla_block_codec : BlockCodec Z GorillaEncoder := {
  bc_new _ first := Encoder.push Encoder.new first;
  bc_push _ := gorilla_push;
  bc_encoded_len_bytes := Encoder.len_bytes;
  bc_snapshot_bytes := Encoder.snapshot;
  bc_into_bytes := Encoder.finish;
  bc_decode_values := decode_gorilla_values;
}.

Definition gorilla_rep (e : GorillaEncoder) (vs : list Z) : Prop :=
  Forall in_u64 vs ∧ push_all Encoder.push Encoder.new vs = Ok e.

Lemma push_all_snoc e vs v :
  push_all Encoder.push e (vs ++ [v]) = (e ← push_all Encoder.push e vs; Encoder.push e v).
Proof.
  revert e. induction vs as [|w vs IH]; intros e; cbn [app push_all].
  - cbn [mbind result_bind]. by destruct (Encoder.push e v).
  - destruct (Encoder.push e w); cbn [mbind result_bind]; [apply IH|done].
Qed.

Lemma gorilla_rep_cons e first vs :
  gorilla_rep e (first :: vs) → ∃ prev w l, encoder_rep e prev w l.
Proof.
  intros [Hvs He]. apply Forall_cons_1 in Hvs as [Hf Hvs]. destruct (push_first first Hf) as (e1 & Hp & He1).
  destruct (push_all_rep vs _ _ _ _ He1 Hvs) as (e2 & prev & w & Hall & He2).
  cbn [push_all] in He. rewrite Hp in He. cbn in He. rewrite Hall in He. injection He as <-. by do 3 eexists.
Qed.

#[export] Program Instance gorilla_block_laws : BlockCodecLaws Z GorillaEncoder := {
  bc_value := in_u64;
  bc_rep e vs := vs ≠ [] ∧ gorilla_rep e vs;
}.
Next Obligation.
  intros al v c Hv. cbn [bc_new gorilla_block_codec]. intros Hn. split; [done|]. split; [by constructor|].
  cbn [push_all]. by rewrite Hn.
Qed.
Next Obligation.
  intros al c vs v [Hne [Hvs Hc]] Hv. cbn [bc_push gorilla_block_codec]. unfold gorilla_push.
  destruct (Encoder.push c v) as [c'|e] eqn:Hp; [|by split].
  split; [by destruct vs|]. split; [by apply Forall_snoc|]. rewrite push_all_snoc, Hc. cbn. by rewrite Hp.
Qed.
Next Obligation.
  intros c vs [Hne Hc] _ Hs. destruct vs as [|first vs]; [done|]. destruct Hc as [Hvs Hc].
  apply Forall_cons_1 in Hvs as [Hf Hvs]. destruct (encode_gorilla_rep first vs Hf Hvs) as (out & Hout & _ & Hbits).
  unfold encode_gorilla_values, encode_float_values_with in Hout. rewrite Hc in Hout. cbn in Hout. injection Hout as <-.
  cbn in Hs. unfold Encoder.snapshot in Hs. rewrite finish_snapshot in Hs. unfold Encoder.finish in Hbits.
  rewrite Hs in Hbits. apply (f_equal length) in Hbits. unfold gorilla_bits at 1 in Hbits.
  rewrite !length_app, length_bits_be in Hbits. change (length (bytes_bits [])) with 0%nat in Hbits. lia.
Qed.
Next Obligation. intros c vs _. apply finish_snapshot. Qed.
Next Obligation.
  intros c vs [Hne Hc] _. destruct vs as [|first vs]; [done|]. destruct (gorilla_rep_cons _ _ _ Hc) as (prev & w & l & He).
  cbn [bc_encoded_len_bytes bc_snapshot_bytes gorilla_block_codec]. unfold Encoder.len_bytes, Encoder.snapshot.
  rewrite finish_snapshot. by apply (len_bytes_rep (ge_writer c) l), He.
Qed.
Next Obligation.
  intros al c vs [Hne [Hvs Hc]] _ Hn Hsz Hal. cbn [bc_decode_values bc_snapshot_bytes gorilla_block_codec] in *.
  destruct (decode_encoded al vs Hne Hvs ltac:(lia) (Hal _ _)) as (out & Hout & Hd).
  unfold encode_gorilla_values, encode_float_values_with in Hout. destruct vs as [|first vs]; [done|].
  rewrite Hc in Hout. cbn in Hout. injection Hout as <-. unfold Encoder.snapshot in *.
  rewrite finish_snapshot in *. by apply Hd.
Qed.

(** ** Raw 8-byte values *)

(** The [RawBlockValue] trait: an 8-byte value with its error text. *)
Record RawBlockValue := mk_raw_value {
  COUNT_MISMATCH_ERROR : string;
  raw_to_le_bytes : Z → list Z;
  raw_from_le_bytes : list Z → Z;
  raw_range : Z → Prop;
  raw_to_len v : zlen (raw_to_le_bytes v) = 8;
  raw_from_to v : raw_range v → raw_from_le_bytes (raw_to_le_bytes v) = v;
}.

Program Definition raw_f64 : RawBlockValue := {|
  COUNT_MISMATCH_ERROR := "raw float value count mismatch";
  raw_to_le_bytes := le_bytes 8;
  raw_from_le_bytes := of_le;
  raw_range := in_u64;
|}.
Next Obligation. intros v. by apply zlen_le_bytes. Qed.
Next Obligation. apply u64_bytes. Qed.

Program Definition raw_i64 : RawBlockValue := {|
  COUNT_MISMATCH_ERROR := "raw int value count mismatch";
  raw_to_le_bytes v := le_bytes 8 (wrap_u64 v);
  raw_from_le_bytes bs := wrap_i64 (of_le bs);
  raw_range := in_i64;
|}.
Next Obligation. intros v. by apply zlen_le_bytes. Qed.
Next Obligation.
  intros v Hv. cbn. rewrite u64_bytes by apply wrap_u64_range. rewrite wrap_i64_u64. by apply wrap_i64_small.
Qed.

Definition RAW_BLOCK_VALUE_BYTES : Z := 8.

Record RawCodec (t : RawBlockValue) := mk_raw { rw_values : list Z }.
Arguments mk_raw {t}.
Arguments rw_values {t}.

(** [slice::chunks_exact]. *)
Fixpoint chunks_exact_loop (fuel size : nat) (buf : list Z) : list (list Z) :=
  match fuel with
  | O => []
  | S fuel =>
      if (length buf <? size)%nat then []
      else take size buf :: chunks_exact_loop fuel size (drop size buf)
  end.
Definition chunks_exact (size : Z) (buf : list Z) : list (list Z) :=
  chunks_exact_loop (length buf) (Z.to_nat size) buf.

Definition raw_decode_values (t : RawBlockValue) (buf : list Z) (count : Z) : io_result (list Z) :=
  let expected_len := saturating_mul_u64 count RAW_BLOCK_VALUE_BYTES in
  if negb (zlen buf =? expected_len) then fail InvalidData (COUNT_MISMATCH_ERROR t)
  else Ok (raw_from_le_bytes t <$> chunks_exact RAW_BLOCK_VALUE_BYTES buf).

Definition raw_snapshot_bytes {t} (c : RawCodec t) : list Z :=
  foldl (λ out value, out ++ raw_to_le_bytes t value) [] (rw_values c).

#[export] Instance raw_block_codec t : BlockCodec Z (RawCodec t) := {
  bc_new _ first := Ok (mk_raw [first]);
  bc_push _ c value := (Ok tt, mk_raw (rw_values c ++ [value]));
  bc_encoded_len_bytes c := saturating_mul_u64 (zlen (rw_values c)) RAW_BLOCK_VALUE_BYTES;
  bc_snapshot_bytes := raw_snapshot_bytes;
  bc_into_bytes := raw_snapshot_bytes;
  bc_decode_values _ := raw_decode_values t;
}.

Lemma raw_snapshot_join t (c : RawCodec t) :
  raw_snapshot_bytes c = mjoin (raw_to_le_bytes t <$> rw_values c).
Proof. exact (encode_items_out (λ a out, out ++ raw_to_le_bytes t a) _ _ [] (λ _ _, eq_refl)). Qed.

Lemma zlen_raw t vs : zlen (mjoin (raw_to_le_bytes t <$> vs)) = 8 * zlen vs.
Proof. induction vs as [|v vs IH]; [done|]. rewrite join_fmap_cons, zlen_app, zlen_cons, IH, raw_to_len. lia. Qed.

Lemma chunks_raw t vs : ∀ fuel,
  (8 * length vs ≤ fuel)%nat → Forall (raw_range t) vs →
  raw_from_le_bytes t <$> chunks_exact_loop fuel 8 (mjoin (raw_to_le_bytes t <$> vs)) = vs.
Proof.
  induction vs as [|v vs IH]; intros fuel Hf Hvs.
  { by destruct fuel. }
  apply Forall_cons_1 in Hvs as [Hv Hvs]. cbn [length] in Hf. destruct fuel as [|fuel]; [lia|].
  cbn [chunks_exact_loop]. rewrite join_fmap_cons. pose proof (raw_to_len t v) as Hl. unfold zlen in Hl.
  rewrite length_app, (proj2 (Nat.ltb_ge _ _)) by lia.
  rewrite take_app_length', drop_app_length' by lia. rewrite fmap_cons, raw_from_to by done.
  f_equal. apply IH; [lia|done].
Qed.

#[export] Program Instance raw_block_laws t : BlockCodecLaws Z (RawCodec t) := {
  bc_value := raw_range t;
  bc_rep c vs := rw_values c = vs ∧ Forall (raw_range t) vs;
}.
Next Obligation. intros t al v c Hv [= <-]. split; [done|by constructor]. Qed.
Next Obligation. intros t al c vs v [<- Hvs] Hv. split; [done|by apply Forall_snoc]. Qed.
Next Obligation.
  intros t c vs [<- _] Hne Hs. cbn in Hs. rewrite raw_snapshot_join in Hs. apply (f_equal zlen) in Hs.
  rewrite zlen_raw, zlen_nil in Hs. apply Hne, zlen_0. lia.
Qed.
Next Obligation. done. Qed.
Next Obligation.
  intros t c vs [<- _]. cbn. rewrite raw_snapshot_join, zlen_raw. intros Hsz.
  unfold saturating_mul_u64, RAW_BLOCK_VALUE_BYTES. lia.
Qed.
Next Obligation.
  intros t al c vs [<- Hvs] _ _ Hsz _. cbn in *. rewrite raw_snapshot_join in *. unfold raw_decode_values.
  rewrite zlen_raw in Hsz. rewrite zlen_raw. unfold saturating_mul_u64, RAW_BLOCK_VALUE_BYTES.
  rewrite (proj2 (Z.eqb_eq _ _)) by lia. cbn [negb]. unfold chunks_exact. f_equal.
  apply chunks_raw; [|done]. pose proof (zlen_raw t (rw_values c)) as Hl. unfold zlen in Hl. lia.
Qed.

(** ** Delta-encoded integers *)

Record IntDeltaCodec := mk_int_delta { id_values : list Z; id_last_value : Z }.

Definition int_delta_new (first : Z) : IntDeltaCodec :=
  mk_int_delta (encode_varint (encode_zigzag_i64 first) []) first.

Definition int_delta_push (c : IntDeltaCodec) (value : Z) : IntDeltaCodec :=
  let delta := wrap_i64 (value - id_last_value c) in
  mk_int_delta (encode_varint (encode_zigzag_i64 delta) (id_values c)) value.

Fixpoint decode_int_loop (n : nat) (buf : list Z) (cursor prev : Z) : io_result (list Z * Z) :=
  match n with
  | O => Ok ([], cursor)
  | S n =>
      '(encoded, cursor) ← decode_varint buf cursor;
      let delta := decode_zigzag_i64 encoded in
      let value := wrap_i64 (prev + delta) in
      '(values, cursor) ← decode_int_loop n buf cursor value;
      Ok (value :: values, cursor)
  end.

Definition decode_int_values (buf : list Z) (count : Z) : io_result (list Z) :=
  '(values, cursor) ← decode_int_loop (Z.to_nat count) buf 0 0;
  if negb (cursor =? zlen buf) then fail InvalidData "value buffer has trailing bytes" else Ok values.

#[export] Instance int_delta_block_codec : BlockCodec Z IntDeltaCodec := {
  bc_new _ first := Ok (int_delta_new first);
  bc_push _ c value := (Ok tt, int_delta_push c value);
  bc_encoded_len_bytes c := zlen (id_values c);
  bc_snapshot_bytes := id_values;
  bc_into_bytes := id_values;
  bc_decode_values _ := decode_int_values;
}.

(** The encoding of [vs] after [prev]. *)
Definition delta_bytes (prev v : Z) : list Z := encode_varint (encode_zigzag_i64 (wrap_i64 (v - prev))) [].
Fixpoint deltas (prev : Z) (vs : list Z) : list Z :=
  match vs with [] => [] | v :: vs => delta_bytes prev v ++ deltas v vs end.

Lemma deltas_snoc vs v : ∀ prev, deltas prev (vs ++ [v]) = deltas prev vs ++ delta_bytes (default prev (last vs)) v.
Proof.
  induction vs as [|w vs IH]; intros prev; cbn [app deltas]; [by rewrite app_nil_r|].
  rewrite IH, <- app_assoc. do 3 f_equal. rewrite last_cons. by destruct (last vs).
Qed.

Lemma decode_zigzag_range u : in_u64 u → in_i64 (decode_zigzag_i64 u).
Proof.
  intros Hu. rewrite decode_zigzag_arith by done. unfold in_u64, in_i64 in *.
  assert (0 ≤ u / 2 ≤ i64_max) by (Z.to_euclidean_division_equations; lia). destruct (_ =? _); lia.
Qed.

(** Adding a delta and subtracting the base again. *)
Lemma wrap_add_sub a d : in_i64 d → wrap_i64 (wrap_i64 (a + d) - a) = d.
Proof.
  intros Hd. rewrite <- (wrap_i64_small d Hd) at 2. unfold wrap_i64. f_equal.
  replace (((a + d + 9223372036854775808) `mod` 18446744073709551616 - 9223372036854775808 - a + 9223372036854775808))
    with ((a + d + 9223372036854775808) `mod` 18446744073709551616 - a) by lia.
  rewrite Zminus_mod_idemp_l. f_equal. lia.
Qed.

Lemma wrap_sub_add a v : in_i64 v → wrap_i64 (a + wrap_i64 (v - a)) = v.
Proof.
  intros Hv. rewrite <- (wrap_i64_small v Hv) at 2. unfold wrap_i64. f_equal.
  replace (a + ((v - a + 9223372036854775808) `mod` 18446744073709551616 - 9223372036854775808) + 9223372036854775808)
    with ((v - a + 9223372036854775808) `mod` 18446744073709551616 + a) by lia.
  rewrite Zplus_mod_idemp_l. f_equal. lia.
Qed.

Lemma bytes_deltas vs : ∀ prev, bytes (deltas prev vs).
Proof.
  induction vs as [|v vs IH]; intros prev; cbn [deltas]; [constructor|]. apply Forall_app. split; [|apply IH].
  apply bytes_encode_varint, encode_zigzag_in_u64, wrap_i64_range.
Qed.

Lemma decode_int_loop_fwd al vs : ∀ buf c prev rest,
  grants al → Forall in_i64 vs → cursor_rep buf c (deltas prev vs ++ rest) →
  ∃ c', decode_int_loop (length vs) buf c prev = Ok (vs, c') ∧ cursor_rep buf c' rest.
Proof.
  induction vs as [|v vs IH]; intros buf c prev rest Hal Hvs Hr; cbn [decode_int_loop deltas length] in *.
  { by exists c. }
  apply Forall_cons_1 in Hvs as [Hv Hvs]. rewrite <- app_assoc in Hr. unfold delta_bytes in Hr.
  read_fwd varint_codec Hr; [apply encode_zigzag_in_u64, wrap_i64_range|].
  rewrite decode_zigzag_encode by apply wrap_i64_range. rewrite wrap_sub_add by done.
  destruct (IH _ _ _ _ Hal Hvs Hr) as (c' & -> & Hr'). by exists c'.
Qed.

Lemma decode_int_loop_inv n : ∀ buf c prev l vs c',
  cursor_rep buf c l → decode_int_loop n buf c prev = Ok (vs, c') →
  ∃ rest, l = deltas prev vs ++ rest ∧ length vs = n ∧ Forall in_i64 vs ∧ cursor_rep buf c' rest.
Proof.
  induction n as [|n IH]; intros buf c prev l vs c' Hr Hd; cbn [decode_int_loop] in Hd.
  { injection Hd as <- <-. by exists l. }
  read_inv varint_codec alloc_ok Hr Hd u Hu. apply bind_ok in Hd as ([ws c2] & Hd2 & Hd).
  injection Hd as <- <-. destruct (IH _ _ _ _ _ _ Hr Hd2) as (rest' & -> & <- & Hws & Hr').
  exists rest'. split_and!; [|done|constructor; [apply wrap_i64_range|done]|done]. cbn [deltas].
  unfold delta_bytes. rewrite wrap_add_sub by by apply decode_zigzag_range.
  by rewrite encode_zigzag_decode, <- app_assoc.
Qed.

#[export] Program Instance int_delta_block_laws : BlockCodecLaws Z IntDeltaCodec := {
  bc_value := in_i64;
  bc_rep c vs := Forall in_i64 vs ∧ id_values c = deltas 0 vs ∧ last vs = Some (id_last_value c);
}.
Next Obligation.
  intros al v c Hv [= <-]. cbn. split_and!; [by constructor| |done].
  unfold delta_bytes. by rewrite Z.sub_0_r, wrap_i64_small, app_nil_r.
Qed.
Next Obligation.
  intros al c vs v (Hvs & Hc & Hl) Hv. cbn. split_and!; [by apply Forall_snoc| |by rewrite last_snoc].
  by rewrite deltas_snoc, Hl, encode_varint_out, Hc.
Qed.
Next Obligation.
  intros c [|v vs] (_ & Hc & _) Hne; [done|]. cbn. rewrite Hc. cbn [deltas]. apply app_nonempty_l, encode_varint_nonempty.
Qed.
Next Obligation. done. Qed.
Next Obligation. done. Qed.
Next Obligation.
  intros al c vs (Hvs & Hc & _) _ _ Hsz Hal. cbn in *. rewrite Hc in *. unfold decode_int_values.
  replace (Z.to_nat (zlen vs)) with (length vs) by (unfold zlen; lia).
  pose proof (cursor_start _ (bytes_deltas vs 0) Hsz) as Hr. rewrite <- (app_nil_r (deltas 0 vs)) in Hr at 2.
  destruct (decode_int_loop_fwd al vs _ _ _ _ Hal Hvs Hr) as (c' & -> & Hr'). cbn.
  apply cursor_zlen in Hr'. rewrite zlen_nil in Hr'. by rewrite (proj2 (Z.eqb_eq _ _)) by lia.
Qed.

(** The integer decoder accepts only the delta encoding of the values it
    returns: a buffer that decodes is what pushing the decoded values gives,
    wrapping differences included. *)
Theorem int_delta_canonical buf count vs :
  bytes buf → vec_ok buf → 0 < count → decode_int_values buf count = Ok vs →
  zlen vs = count ∧
  ∃ first rest, vs = first :: rest ∧ id_values (foldl int_delta_push (int_delta_new first) rest) = buf.
Proof.
  intros Hb Hsz Hcount Hd. unfold decode_int_values in Hd. apply bind_ok in Hd as ([ws c] & Hl & Hd).
  destruct (Z.eqb_spec c (zlen buf)) as [->|]; [|done]. injection Hd as ->.
  destruct (decode_int_loop_inv _ _ _ _ _ _ _ (cursor_start _ Hb Hsz) Hl) as (rest & Heq & Hn & Hvs & Hend).
  apply cursor_zlen in Hend. rewrite Z.sub_diag in Hend. apply zlen_0 in Hend as ->. rewrite app_nil_r in Heq.
  destruct vs as [|first vs]; [cbn in Hn; lia|]. split; [unfold zlen; lia|]. exists first, vs. split; [done|].
  rewrite Heq. apply Forall_cons_1 in Hvs as [Hf Hvs]. cbn [deltas].
  assert (Hpush : ∀ c, id_values (foldl int_delta_push c vs) = id_values c ++ deltas (id_last_value c) vs).
  { clear. induction vs as [|v vs IH]; intros c; cbn [foldl deltas]; [by rewrite app_nil_r|].
    rewrite IH. cbn. by rewrite encode_varint_out, <- app_assoc. }
  rewrite Hpush. cbn. unfold delta_bytes. by rewrite Z.sub_0_r, wrap_i64_small.
Qed.

(** [i64::MAX], then a wrapping step to [i64::MIN]. *)
Lemma int_delta_canonical_witness :
  let buf := encode_varint 2 (encode_varint (2 * i64_max) []) in
  decode_int_values buf 2 = Ok [i64_max; i64_min] ∧ zlen [i64_max; i64_min] = 2.
Proof.
  intros buf. assert (Hd : decode_int_values buf 2 = Ok [i64_max; i64_min]) by (vm_compute; reflexivity).
  split; [exact Hd|]. refine (proj1 (int_delta_canonical buf 2 _ _ _ _ Hd)).
  - apply bytesb_bytes. vm_compute. reflexivity.
  - vm_compute. discriminate.
  - lia.
Defined.
