(* ===== verification/Block.v ===== *)
(** * Sample blocks

    [BlockBuilder] and [Block] of [chronoxide-core/src/storage/block.rs]: a
    stream of timestamp offsets beside a value codec, sealed into two arena
    buffers and decoded from the mutable or the frozen arena.  Both are generic
    in the codec, through [BlockCodecLaws].  Timestamps are [u64] milliseconds;
    [Vec::reserve] and [with_capacity] only ask for capacity and are left out. *)
From S2P Require Import Prelude Varint Cursor Arena BlockCodec Bitstream Gorilla TypedSamples TypedCodecs SchemaVarLen.

Record BlockBuilder (C : Type) := mk_builder {
  bb_base_ms : Z;
  bb_min_ts : Z;
  bb_max_ts : Z;
  bb_timestamps : list Z;
  bb_values : C;
  bb_samples : Z;
  bb_reserve_full_done : bool;
}.
Arguments mk_builder {C}.
Arguments bb_base_ms {C}.
Arguments bb_min_ts {C}.
Arguments bb_max_ts {C}.
Arguments bb_timestamps {C}.
Arguments bb_values {C}.
Arguments bb_samples {C}.
Arguments bb_reserve_full_done {C}.

Record Block (C : Type) := mk_block {
  bk_base_ms : Z;
  bk_min_ts : Z;
  bk_max_ts : Z;
  bk_timestamps : BufferRef;
  bk_values : BufferRef;
  bk_samples : Z;
}.
Arguments mk_block {C}.
Arguments bk_base_ms {C}.
Arguments bk_min_ts {C}.
Arguments bk_max_ts {C}.
Arguments bk_timestamps {C}.
Arguments bk_values {C}.
Arguments bk_samples {C}.

Definition INITIAL_RESERVE_SAMPLES : Z := 8.
Definition FULL_RESERVE_THRESHOLD : Z := 64.

(** The timestamp loop of both [decode_samples]; [saturating_add] restores the
    base. *)
Definition decode_timestamps (base_ms : Z) (buf : list Z) (count : Z) : io_result (list Z) :=
  '(dts, cursor) ← decode_items decode_varint (Z.to_nat count) buf 0;
  if negb (cursor =? zlen buf) then fail InvalidData "timestamp buffer has trailing bytes"
  else Ok (saturating_add_u64 base_ms <$> (dts : list Z)).

Module Builder.
Section builder.
Context {V C : Type} `{BlockCodec V C}.

Definition new (al : allocator) (base_ms timestamp_ms : Z) (value : V) (block_size : Z)
    : io_result (BlockBuilder C) :=
  if timestamp_ms <? base_ms then fail InvalidInput "timestamp precedes window start"
  else
    let timestamps := encode_varint (timestamp_ms - base_ms) [] in
    values ← bc_new al value;
    Ok (mk_builder base_ms timestamp_ms timestamp_ms timestamps values 1
          (block_size <=? INITIAL_RESERVE_SAMPLES)).

(** What [maybe_reserve_more] leaves in [reserve_full_done]. *)
Definition maybe_reserve_more (b : BlockBuilder C) (block_size : Z) : bool :=
  if bb_reserve_full_done b then true
  else if (bb_samples b <? FULL_RESERVE_THRESHOLD) || (block_size <=? bb_samples b) then false
  else true.

Definition push_sample (al : allocator) (b : BlockBuilder C) (timestamp_ms : Z) (value : V) (block_size : Z)
    : io_result unit * BlockBuilder C :=
  if timestamp_ms <? bb_base_ms b then (fail InvalidInput "timestamp precedes window start", b)
  else
    let reserved := maybe_reserve_more b block_size in
    match bc_push al (bb_values b) value with
    | (Err e, values) =>
        (Err e, mk_builder (bb_base_ms b) (bb_min_ts b) (bb_max_ts b) (bb_timestamps b) values
                  (bb_samples b) reserved)
    | (Ok _, values) =>
        (Ok tt,
         mk_builder (bb_base_ms b)
           (if timestamp_ms <? bb_min_ts b then timestamp_ms else bb_min_ts b)
           (if bb_max_ts b <? timestamp_ms then timestamp_ms else bb_max_ts b)
           (encode_varint (timestamp_ms - bb_base_ms b) (bb_timestamps b)) values
           (saturating_add_u32 (bb_samples b) 1) reserved)
    end.

Definition is_full (b : BlockBuilder C) (block_size : Z) : bool := block_size <=? bb_samples b.
Definition payload_bytes (b : BlockBuilder C) : Z :=
  saturating_add_u64 (zlen (bb_timestamps b)) (bc_encoded_len_bytes (bb_values b)).
Definition overlaps (b : BlockBuilder C) (start_ms end_ms : Z) : bool :=
  (start_ms <=? bb_max_ts b) && (bb_min_ts b <? end_ms).

Definition decode_samples (al : allocator) (b : BlockBuilder C) : io_result (list (Z * V)) :=
  timestamps ← decode_timestamps (bb_base_ms b) (bb_timestamps b) (bb_samples b);
  values ← bc_decode_values al (bc_snapshot_bytes (bb_values b)) (bb_samples b);
  if negb (zlen values =? zlen timestamps) then fail InvalidData "decoded value count mismatch"
  else Ok (zip timestamps values).

Definition block_of (b : BlockBuilder C) (timestamps values : BufferRef) : Block C :=
  mk_block (bb_base_ms b) (bb_min_ts b) (bb_max_ts b) timestamps values (bb_samples b).

(** [None] is the panic of [BlockArena::write]. *)
Definition seal (al1 al2 : allocator) (b : BlockBuilder C) (arena : BlockArena)
    : option (BlockArena * Block C) :=
  '(arena, timestamps) ← write al1 arena (bb_timestamps b);
  '(arena, values) ← write al2 arena (bc_into_bytes (bb_values b));
  Some (arena, block_of b timestamps values).

Definition try_seal (al1 al2 : allocator) (b : BlockBuilder C) (arena : BlockArena)
    : option (BlockArena * io_result (Block C)) :=
  let value_bytes := bc_snapshot_bytes (bb_values b) in
  '(arena, r) ← try_write_pair al1 al2 arena (bb_timestamps b) value_bytes;
  Some (arena, '(timestamps, values) ← r; Ok (block_of b timestamps values)).
End builder.
End Builder.

Section block.
Context {V C : Type} `{BlockCodec V C}.

Definition block_overlaps (b : Block C) (start_ms end_ms : Z) : bool :=
  (start_ms <=? bk_max_ts b) && (bk_min_ts b <? end_ms).
Definition estimated_bytes (b : Block C) : Z :=
  saturating_add_u64 (br_len (bk_timestamps b)) (br_len (bk_values b)).

Definition validate_arena {A} `{ArenaRead A} (b : Block C) (arena : A) : io_result unit :=
  _ ← arena_slice arena (bk_timestamps b);
  _ ← arena_slice arena (bk_values b);
  Ok tt.

Definition decode_samples {A} `{ArenaRead A} (al : allocator) (b : Block C) (arena : A)
    : io_result (list (Z * V)) :=
  ts_buf ← arena_slice arena (bk_timestamps b);
  timestamps ← decode_timestamps (bk_base_ms b) ts_buf (bk_samples b);
  value_buf ← arena_slice arena (bk_values b);
  values ← bc_decode_values al value_buf (bk_samples b);
  if negb (zlen values =? zlen timestamps) then fail InvalidData "decoded value count mismatch"
  else Ok (zip timestamps values).
End block.

(** ** Sessions: a builder and the samples it accepted *)

Record sample_op (V : Type) := mk_op { op_alloc : allocator; op_ts : Z; op_value : V }.
Arguments mk_op {V}.
Arguments op_alloc {V}.
Arguments op_ts {V}.
Arguments op_value {V}.

Section specification.
Context {V C : Type} `{HL : BlockCodecLaws V C}.
Implicit Types (b : BlockBuilder C) (samples : list (Z * V)).

Fixpoint push_run b (block_size : Z) (ops : list (sample_op V)) : list (Z * V) * BlockBuilder C :=
  match ops with
  | [] => ([], b)
  | op :: ops =>
      match Builder.push_sample (op_alloc op) b (op_ts op) (op_value op) block_size with
      | (Ok _, b) => let '(accepted, b) := push_run b block_size ops in ((op_ts op, op_value op) :: accepted, b)
      | (Err _, b) => push_run b block_size ops
      end
  end.

(** A builder for the window at [base_ms] given these samples. *)
Definition builder_run (base_ms block_size : Z) (first : sample_op V) (ops : list (sample_op V))
    : io_result (list (Z * V) * BlockBuilder C) :=
  b ← Builder.new (op_alloc first) base_ms (op_ts first) (op_value first) block_size;
  let '(accepted, b) := push_run b block_size ops in
  Ok ((op_ts first, op_value first) :: accepted, b).

Definition ts_bytes (base_ms ts : Z) : list Z := encode_varint (ts - base_ms) [].

(** The builder holds [samples]. *)
Record builder_rep b samples : Prop := {
  rep_nonempty : samples ≠ [];
  rep_base : 0 ≤ bb_base_ms b;
  rep_range : Forall (λ s, bb_base_ms b ≤ s.1 ≤ u64_max) samples;
  rep_timestamps : bb_timestamps b = mjoin (ts_bytes (bb_base_ms b) <$> samples.*1);
  rep_values : bc_rep (bb_values b) samples.*2;
  rep_samples : bb_samples b = Z.min (zlen samples) u32_max;
  rep_min : bb_min_ts b ∈ samples.*1 ∧ Forall (Z.le (bb_min_ts b)) samples.*1;
  rep_max : bb_max_ts b ∈ samples.*1 ∧ Forall (λ t, t ≤ bb_max_ts b) samples.*1;
}.

(** Inputs within the machine types that the codec can represent. *)
Definition op_ok (op : sample_op V) : Prop := in_u64 (op_ts op) ∧ bc_value (op_value op).

Lemma builder_new_rep al base ts v size b :
  in_u64 base → in_u64 ts → bc_value v → Builder.new al base ts v size = Ok b →
  builder_rep b [(ts, v)] ∧ bb_base_ms b = base.
Proof.
  intros [Hb _] [_ Ht] Hv. unfold Builder.new. destruct (Z.ltb_spec ts base); [done|]. intros Hn.
  apply bind_ok in Hn as (c & Hc & Hn). injection Hn as <-. split; [|done].
  split; cbn; [done|done|by repeat constructor|by rewrite app_nil_r|by apply (bc_new_rep al)|done|..];
    (split; [set_solver|by repeat constructor]).
Qed.

Lemma push_sample_rep al b samples ts v size :
  builder_rep b samples → in_u64 ts → bc_value v →
  match Builder.push_sample al b ts v size with
  | (Ok _, b') => builder_rep b' (samples ++ [(ts, v)]) ∧ bb_base_ms b' = bb_base_ms b
  | (Err _, b') => builder_rep b' samples ∧ bb_base_ms b' = bb_base_ms b
  end.
Proof.
  intros Hb [_ Ht] Hv. unfold Builder.push_sample. destruct (Z.ltb_spec ts (bb_base_ms b)); [done|].
  destruct Hb as [Hne Hbase Hrange Hts Hvals Hn [Hmin1 Hmin2] [Hmax1 Hmax2]].
  pose proof (bc_push_rep al (bb_values b) samples.*2 v Hvals Hv) as Hpush.
  destruct (bc_push al (bb_values b) v) as [[[]|e] c]; split; try done; split; cbn; try done.
  - by destruct samples.
  - by apply Forall_snoc.
  - rewrite encode_varint_out, Hts, !fmap_app, join_app. cbn. by rewrite app_nil_r.
  - by rewrite fmap_app.
  - rewrite zlen_app, zlen_cons, zlen_nil, Hn. unfold saturating_add_u32. lia.
  - rewrite fmap_app. cbn. destruct (Z.ltb_spec ts (bb_min_ts b)); split; try set_solver;
      apply Forall_snoc; try lia; [|done]. eapply Forall_impl; [exact Hmin2|]. cbn. intros; lia.
  - rewrite fmap_app. cbn. destruct (Z.ltb_spec (bb_max_ts b) ts); split; try set_solver;
      apply Forall_snoc; try lia; [|done]. eapply Forall_impl; [exact Hmax2|]. cbn. intros; lia.
Qed.

Lemma push_run_rep size ops : ∀ b samples accepted b',
  builder_rep b samples → Forall op_ok ops → push_run b size ops = (accepted, b') →
  builder_rep b' (samples ++ accepted).
Proof.
  induction ops as [|op ops IH]; intros b samples accepted b' Hb Hops Hr; cbn [push_run] in Hr.
  { injection Hr as <- <-. by rewrite app_nil_r. }
  apply Forall_cons_1 in Hops as [[Ht Hv] Hops].
  pose proof (push_sample_rep (op_alloc op) b samples (op_ts op) (op_value op) size Hb Ht Hv) as Hp.
  destruct (Builder.push_sample _ _ _ _ _) as [[[]|e] b1].
  - destruct (push_run b1 size ops) as [acc b2] eqn:Hrun. injection Hr as <- <-.
    pose proof (IH _ _ _ _ (proj1 Hp) Hops Hrun) as Hrep. by rewrite <- app_assoc in Hrep.
  - destruct Hp as [Hp _]. by apply (IH b1 samples).
Qed.

Lemma builder_run_rep base size first ops accepted b :
  in_u64 base → op_ok first → Forall op_ok ops → builder_run base size first ops = Ok (accepted, b) →
  builder_rep b accepted.
Proof.
  intros Hbase [Hft Hfv] Hops Hr. unfold builder_run in Hr. apply bind_ok in Hr as (b0 & Hnew & Hr).
  destruct (push_run b0 size ops) as [acc b1] eqn:Hrun. injection Hr as <- <-.
  destruct (builder_new_rep _ _ _ _ _ _ Hbase Hft Hfv Hnew) as [Hb0 _].
  apply (push_run_rep _ _ _ _ _ _ Hb0 Hops Hrun).
Qed.

(** ** Decoding *)

Lemma ts_bytes_join base tss :
  mjoin (ts_bytes base <$> tss) = mjoin ((λ dt, encode_varint dt []) <$> ((λ t, t - base) <$> tss)).
Proof. by rewrite <- list_fmap_compose. Qed.

Lemma bytes_ts base tss :
  0 ≤ base → Forall (λ t, base ≤ t ≤ u64_max) tss → bytes (mjoin (ts_bytes base <$> tss)).
Proof.
  intros Hb. induction 1 as [|t tss Ht _ IH]; [constructor|]. rewrite join_fmap_cons. apply Forall_app.
  split; [|done]. apply bytes_encode_varint. unfold in_u64. lia.
Qed.

Lemma decode_timestamps_fwd base tss :
  0 ≤ base → Forall (λ t, base ≤ t ≤ u64_max) tss → vec_ok (mjoin (ts_bytes base <$> tss)) →
  decode_timestamps base (mjoin (ts_bytes base <$> tss)) (zlen tss) = Ok tss.
Proof.
  intros Hb Htss Hsz. unfold decode_timestamps. pose proof (bytes_ts base tss Hb Htss) as Hbs.
  rewrite ts_bytes_join in *. set (dts := (λ t, t - base) <$> tss) in *.
  replace (Z.to_nat (zlen tss)) with (length dts) by (unfold dts, zlen; rewrite length_fmap; lia).
  pose proof (cursor_start _ Hbs Hsz) as Hr. rewrite <- (app_nil_r (mjoin _)) in Hr at 2.
  assert (Hok : Forall in_u64 dts).
  { unfold dts. apply Forall_fmap. eapply Forall_impl; [exact Htss|]. intros t Ht. cbn in *. unfold in_u64. lia. }
  destruct (codec_fwd (Codec := items_codec _ _ _ (length dts) varint_codec) alloc_ok _ _ _ _ (λ _ _, eq_refl) Hr
    (conj eq_refl Hok)) as (c & -> & Hend).
  cbn [mbind result_bind]. pose proof (cursor_zlen _ _ _ Hend) as Hz. rewrite zlen_nil in Hz.
  rewrite (proj2 (Z.eqb_eq _ _)) by lia. cbn [negb]. f_equal. unfold dts. rewrite <- list_fmap_compose.
  clear -Htss. induction Htss as [|t tss Ht _ IH]; [done|]. rewrite fmap_cons, IH. f_equal.
  unfold saturating_add_u64. cbn. lia.
Qed.

(** What a seal stores decodes to the samples. *)
Lemma decode_stored al b samples :
  builder_rep b samples → zlen samples ≤ u32_max → grants al →
  vec_ok (bb_timestamps b) → vec_ok (bc_snapshot_bytes (bb_values b)) →
  decode_timestamps (bb_base_ms b) (bb_timestamps b) (bb_samples b) = Ok samples.*1 ∧
  bc_decode_values al (bc_snapshot_bytes (bb_values b)) (bb_samples b) = Ok samples.*2 ∧
  zip samples.*1 samples.*2 = samples.
Proof.
  intros [Hne Hbase Hrange Hts Hvals Hn _ _] Hcount Hal Hsz1 Hsz2.
  assert (Hz : bb_samples b = zlen samples) by lia. rewrite Hz. rewrite Hts in *. split_and!.
  - replace (zlen samples) with (zlen samples.*1) by (unfold zlen; by rewrite length_fmap).
    apply decode_timestamps_fwd; [done| |done]. by apply Forall_fmap.
  - replace (zlen samples) with (zlen samples.*2) by (unfold zlen; by rewrite length_fmap).
    apply bc_decode_rep; [done|by destruct samples| |done|done]. unfold zlen in *. by rewrite length_fmap.
  - apply zip_fst_snd.
Qed.

Lemma builder_decode al b samples :
  builder_rep b samples → zlen samples ≤ u32_max → grants al →
  vec_ok (bb_timestamps b) → vec_ok (bc_snapshot_bytes (bb_values b)) →
  Builder.decode_samples al b = Ok samples.
Proof.
  intros Hb Hn Hal H1 H2. destruct (decode_stored al b samples Hb Hn Hal H1 H2) as (Ht & Hv & Hz).
  unfold Builder.decode_samples. rewrite Ht. cbn [mbind result_bind]. rewrite Hv. cbn [mbind result_bind].
  rewrite Hz. unfold zlen. by rewrite !length_fmap, Z.eqb_refl.
Qed.

(** A block of two buffers that read back as the builder's streams. *)
Lemma block_decode {A} `{ArenaRead A} al b samples (arena : A) r1 r2 :
  builder_rep b samples → zlen samples ≤ u32_max → grants al →
  vec_ok (bb_timestamps b) → vec_ok (bc_snapshot_bytes (bb_values b)) →
  arena_slice arena r1 = Ok (bb_timestamps b) → arena_slice arena r2 = Ok (bc_snapshot_bytes (bb_values b)) →
  decode_samples al (Builder.block_of b r1 r2) arena = Ok samples ∧
  validate_arena (Builder.block_of b r1 r2) arena = Ok tt.
Proof.
  intros Hb Hn Hal H1 H2 Hr1 Hr2. destruct (decode_stored al b samples Hb Hn Hal H1 H2) as (Ht & Hv & Hz).
  unfold decode_samples, validate_arena, Builder.block_of. cbn [bk_timestamps bk_values bk_base_ms bk_samples].
  rewrite Hr1, Hr2. cbn [mbind result_bind]. rewrite Ht. cbn [mbind result_bind]. rewrite Hv. cbn [mbind result_bind].
  rewrite Hz. unfold zlen. by rewrite !length_fmap, Z.eqb_refl.
Qed.
End specification.

(** ** Theorems *)

Section theorems.
Context {V C : Type} `{HL : BlockCodecLaws V C}.
Implicit Types (b : BlockBuilder C) (accepted : list (Z * V)).

(** Buffers of the sizes the machine holds. *)
Definition builder_fits b accepted : Prop :=
  zlen accepted ≤ u32_max ∧ vec_ok (bb_timestamps b) ∧ vec_ok (bc_snapshot_bytes (bb_values b)).

Lemma mins_in_range b accepted t :
  builder_rep b accepted → t ∈ accepted.*1 → bb_min_ts b ≤ t ≤ bb_max_ts b.
Proof.
  intros [_ _ _ _ _ _ [_ Hmin] [_ Hmax]] Ht. rewrite Forall_forall in Hmin, Hmax. split; [by apply Hmin|by apply Hmax].
Qed.

Lemma timestamps_nonempty b accepted : builder_rep b accepted → bb_timestamps b ≠ [].
Proof.
  intros [Hne _ _ -> _ _ _ _]. destruct accepted as [|s l]; [done|]. rewrite fmap_cons, join_fmap_cons.
  apply app_nonempty_l, encode_varint_nonempty.
Qed.

Lemma values_nonempty b accepted : builder_rep b accepted → accepted.*2 ≠ [].
Proof. intros [Hne _ _ _ _ _ _ _]. by destruct accepted. Qed.

(** C35: the builder is a list of samples.  Whatever pushes it is given, early
    timestamps, invalid values and refused allocations included, it decodes to
    exactly the samples it accepted, in order, the two streams aligned; its
    payload length is exact, its bounds are the least and greatest timestamp,
    and no range holding one of them is reported as not overlapping. *)
Theorem builder_refines_samples base size first ops accepted b al :
  in_u64 base → op_ok first → Forall op_ok ops →
  builder_run base size first ops = Ok (accepted, b) → builder_fits b accepted → grants al →
  Builder.decode_samples al b = Ok accepted ∧
  Builder.payload_bytes b = zlen (bb_timestamps b) + zlen (bc_snapshot_bytes (bb_values b)) ∧
  Builder.is_full b size = (size <=? zlen accepted) ∧
  (bb_min_ts b ∈ accepted.*1 ∧ bb_max_ts b ∈ accepted.*1) ∧
  ∀ t start_ms end_ms, t ∈ accepted.*1 → start_ms ≤ t < end_ms → Builder.overlaps b start_ms end_ms = true.
Proof.
  intros Hbase Hf Hops Hrun (Hn & Hs1 & Hs2) Hal.
  pose proof (builder_run_rep _ _ _ _ _ _ Hbase Hf Hops Hrun) as Hb. split; [by apply builder_decode|].
  destruct (Hb) as [Hne _ _ _ Hv Hcount [Hmin _] [Hmax _]]. split_and!; [| |done|done|].
  - unfold Builder.payload_bytes. rewrite (bc_len_rep _ _ Hv Hs2). unfold saturating_add_u64.
    rewrite Z.min_l; lia.
  - unfold Builder.is_full. rewrite Hcount. by rewrite Z.min_l.
  - intros t s e Ht Hse. pose proof (mins_in_range _ _ _ Hb Ht). unfold Builder.overlaps.
    rewrite (proj2 (Z.leb_le _ _)), (proj2 (Z.ltb_lt _ _)) by lia. done.
Qed.

(** C26: sealing keeps every sample.  The block sealed into any arena decodes to
    the accepted samples from that arena after any later writes, and from the
    frozen arena; when sealing fails the arena is as before and the builder is
    still there. *)
Theorem sealed_block_decodes base size first ops accepted b arena al1 al2 :
  in_u64 base → op_ok first → Forall op_ok ops →
  builder_run base size first ops = Ok (accepted, b) → builder_fits b accepted → arena_wf arena →
  ∃ arena1 res, Builder.try_seal al1 al2 b arena = Some (arena1, res) ∧
    match res with
    | Err _ => arena_same arena arena1
    | Ok block => ∀ later, ∃ arena2 log, arena_run arena1 later = Some (arena2, log) ∧
        ∀ al, grants al →
          decode_samples al block arena2 = Ok accepted ∧
          ∀ al' frozen, try_freeze al' arena2 = Ok frozen →
            decode_samples al block frozen = Ok accepted ∧ validate_arena block frozen = Ok tt
    end.
Proof.
  intros Hbase Hf Hops Hrun (Hn & Hs1 & Hs2) Ha.
  pose proof (builder_run_rep _ _ _ _ _ _ Hbase Hf Hops Hrun) as Hb. unfold Builder.try_seal.
  destruct (try_write_pair_spec al1 al2 arena (bb_timestamps b) (bc_snapshot_bytes (bb_values b)) [] Ha (log_ok_nil _))
    as (a1 & res & -> & Ha1 & Hres). cbn [mbind option_bind].
  destruct res as [[r1 r2]|e]; do 2 eexists; (split; [done|]); [|done]. cbn [mbind result_bind].
  destruct Hres as [_ Hlog]. intros later.
  destruct (arena_run_spec later a1 _ Ha1 Hlog) as (a2 & new & Hrun2 & Ha2 & [Hall _]).
  exists a2, new. split; [done|]. cbn [app] in Hall.
  apply Forall_cons_1 in Hall as [(Hr1 & d1 & Hd1 & Hst1) Hall].
  apply Forall_cons_1 in Hall as [(Hr2 & d2 & Hd2 & Hst2) _]. unfold stored in Hst1, Hst2.
  rewrite bool_decide_false in Hst1 by by eapply timestamps_nonempty. subst d1.
  rewrite bool_decide_false in Hst2 by (eapply bc_snapshot_nonempty; [apply Hb|]; by eapply values_nonempty).
  subst d2. intros al Hal. split; [by apply (block_decode al b accepted a2)|]. intros al' fz Hfz.
  apply (freeze_slice al' a2 fz _ _ Ha2 Hfz) in Hd1, Hd2; [|done..].
  by apply (block_decode al b accepted fz).
Qed.
End theorems.

(** *** A block of floats: the third push precedes the window and is refused *)

Definition sample_first : sample_op Z := mk_op alloc_ok 1005 0x3ff0000000000000.
Definition sample_ops : list (sample_op Z) :=
  [mk_op alloc_ok 1003 0x4000000000000000; mk_op alloc_ok 999 0; mk_op alloc_ok 1300 0x7ff8000000000001].
Definition sample_run : list (Z * Z) * BlockBuilder GorillaEncoder :=
  match builder_run 1000 3 sample_first sample_ops with
  | Ok r => r
  | Err _ => ([], mk_builder 0 0 0 [] Encoder.new 0 true)
  end.

Lemma sample_run_ok : builder_run 1000 3 sample_first sample_ops = Ok (sample_run.1, sample_run.2).
Proof. vm_compute. reflexivity. Qed.
Lemma sample_run_fits : builder_fits sample_run.2 sample_run.1.
Proof. split_and!; vm_compute; discriminate. Qed.
Lemma sample_ops_ok : op_ok (C := GorillaEncoder) sample_first ∧ Forall (op_ok (C := GorillaEncoder)) sample_ops.
Proof. split; [|repeat (apply Forall_cons_2; [|])]; try apply Forall_nil_2; split; cbn; unfold in_u64; lia. Qed.

Lemma builder_refines_samples_witness :
  sample_run.1 = [(1005, 0x3ff0000000000000); (1003, 0x4000000000000000); (1300, 0x7ff8000000000001)] ∧
  Builder.decode_samples alloc_ok sample_run.2 = Ok sample_run.1.
Proof.
  split; [vm_compute; reflexivity|].
  exact (proj1 (builder_refines_samples 1000 3 sample_first sample_ops sample_run.1 sample_run.2 alloc_ok
    (conj (Z.lt_le_incl 0 1000 eq_refl) (Z.lt_le_incl 1000 u64_max eq_refl)) (proj1 sample_ops_ok) (proj2 sample_ops_ok) sample_run_ok
    sample_run_fits (λ _ _, eq_refl))).
Defined.

Definition sealed : option (BlockArena * io_result (Block GorillaEncoder)) :=
  Builder.try_seal alloc_ok alloc_ok sample_run.2 sample_arena.

Lemma sealed_block_decodes_witness :
  (∃ arena1 block, sealed = Some (arena1, Ok block)) ∧
  ∃ arena1 res, sealed = Some (arena1, res) ∧
    match res with
    | Err _ => arena_same sample_arena arena1
    | Ok block => ∀ later, ∃ arena2 log, arena_run arena1 later = Some (arena2, log) ∧
        ∀ al, grants al → decode_samples al block arena2 = Ok sample_run.1 ∧
          ∀ al' frozen, try_freeze al' arena2 = Ok frozen →
            decode_samples al block frozen = Ok sample_run.1 ∧ validate_arena block frozen = Ok tt
    end.
Proof.
  split.
  - assert (Hs : match sealed with Some (_, Ok _) => True | _ => False end) by (vm_compute; exact I).
    destruct sealed as [[a [b|e]]|]; [by exists a, b|destruct Hs|destruct Hs].
  - exact (sealed_block_decodes 1000 3 sample_first sample_ops sample_run.1 sample_run.2 sample_arena alloc_ok alloc_ok
      (conj (Z.lt_le_incl 0 1000 eq_refl) (Z.lt_le_incl 1000 u64_max eq_refl)) (proj1 sample_ops_ok)
      (proj2 sample_ops_ok) sample_run_ok sample_run_fits sample_arena_wf).
Defined.
