(* ===== verification/Governor.v ===== *)
(** * The metadata memory governor

    [chronoxide-core/src/storage/metadata_governor.rs]: charges against two byte
    budgets, in-flight and retained, accounted in total and per usage class.  The
    mutex makes every operation atomic, so an execution is a sequence of
    operations on one state; the live [MetadataCharge]s are a map from handles.
    [None] is a panic: a failed assertion or [expect]. *)
From S2P Require Import Prelude.

#[local] Set Warnings "-clear-no-such-hyp".

(** ** Configuration *)

Record MetadataGovernorConfig := mk_config {
  retained_max_bytes : Z;
  in_flight_max_bytes : Z;
  max_open_files : Z;
  max_cached_open_files : Z;
}.

Definition DEFAULT_METADATA_RETAINED_MAX_BYTES : Z := 64 * 1024 * 1024.
Definition DEFAULT_METADATA_IN_FLIGHT_MAX_BYTES : Z := 256 * 1024 * 1024.
Definition DEFAULT_METADATA_MAX_OPEN_FILES : Z := 128.
Definition DEFAULT_METADATA_MAX_CACHED_OPEN_FILES : Z := 64.

Definition config_default : MetadataGovernorConfig :=
  mk_config DEFAULT_METADATA_RETAINED_MAX_BYTES DEFAULT_METADATA_IN_FLIGHT_MAX_BYTES
    DEFAULT_METADATA_MAX_OPEN_FILES DEFAULT_METADATA_MAX_CACHED_OPEN_FILES.

Inductive MetadataGovernorConfigError :=
  | ZeroInFlightBudget
  | ZeroOpenFileLimit
  | CachedOpenFileLimitExceedsHardLimit (cached hard : Z).

Definition config_validate (c : MetadataGovernorConfig)
    : result MetadataGovernorConfigError MetadataGovernorConfig :=
  if in_flight_max_bytes c =? 0 then Err ZeroInFlightBudget
  else if max_open_files c =? 0 then Err ZeroOpenFileLimit
  else if max_open_files c <? max_cached_open_files c then
    Err (CachedOpenFileLimitExceedsHardLimit (max_cached_open_files c) (max_open_files c))
  else Ok c.

(** ** Classes *)

Inductive MetadataChargeClass := InFlight | Retained.

#[export] Instance charge_class_eq_dec : EqDecision MetadataChargeClass.
Proof. solve_decision. Defined.

Inductive MetadataCacheClass :=
  | SymbolRoot | SymbolPage | IndexRoot | IndexDirectory | IndexPage | MetricRange | SeriesRoot
  | SeriesHotPage | SeriesColdPage | OverflowRoot | OverflowBlob | Postings | FullValidation.

#[export] Instance cache_class_eq_dec : EqDecision MetadataCacheClass.
Proof. solve_decision. Defined.

Definition METADATA_CACHE_CLASS_ORDER : list MetadataCacheClass :=
  [SymbolRoot; SymbolPage; IndexRoot; IndexDirectory; IndexPage; MetricRange; SeriesRoot;
   SeriesHotPage; SeriesColdPage; OverflowRoot; OverflowBlob; Postings; FullValidation].

Definition cache_stable_index (c : MetadataCacheClass) : nat :=
  match c with
  | SymbolRoot => 0 | SymbolPage => 1 | IndexRoot => 2 | IndexDirectory => 3 | IndexPage => 4
  | MetricRange => 5 | SeriesRoot => 6 | SeriesHotPage => 7 | SeriesColdPage => 8
  | OverflowRoot => 9 | OverflowBlob => 10 | Postings => 11 | FullValidation => 12
  end.

Inductive MetadataUsageClass :=
  | Unclassified
  | Scratch
  | CorruptionLedger
  | Cache (c : MetadataCacheClass).

Definition METADATA_USAGE_CLASS_COUNT : nat := 16.

Definition METADATA_USAGE_CLASS_ORDER : list MetadataUsageClass :=
  [Unclassified; Scratch; CorruptionLedger; Cache SymbolRoot; Cache SymbolPage; Cache IndexRoot;
   Cache IndexDirectory; Cache IndexPage; Cache MetricRange; Cache SeriesRoot; Cache SeriesHotPage;
   Cache SeriesColdPage; Cache OverflowRoot; Cache OverflowBlob; Cache Postings; Cache FullValidation].

Definition stable_index (u : MetadataUsageClass) : nat :=
  match u with
  | Unclassified => 0 | Scratch => 1 | CorruptionLedger => 2
  | Cache SymbolRoot => 3 | Cache SymbolPage => 4 | Cache IndexRoot => 5 | Cache IndexDirectory => 6
  | Cache IndexPage => 7 | Cache MetricRange => 8 | Cache SeriesRoot => 9 | Cache SeriesHotPage => 10
  | Cache SeriesColdPage => 11 | Cache OverflowRoot => 12 | Cache OverflowBlob => 13
  | Cache Postings => 14 | Cache FullValidation => 15
  end.

#[export] Instance usage_class_eq_dec : EqDecision MetadataUsageClass.
Proof. solve_decision. Defined.

(** ** State *)

Record MetadataUsageCounters := mk_counters {
  uc_in_flight_bytes : Z;
  uc_retained_bytes : Z;
  uc_peak_in_flight_bytes : Z;
  uc_peak_retained_bytes : Z;
}.

Record MetadataGovernorState := mk_gov {
  gs_retained_bytes : Z;
  gs_in_flight_bytes : Z;
  gs_peak_retained_bytes : Z;
  gs_peak_in_flight_bytes : Z;
  gs_retained_refusals : Z;
  gs_in_flight_refusals : Z;
  gs_usage : list MetadataUsageCounters;
}.

Definition counters_default : MetadataUsageCounters := mk_counters 0 0 0 0.
Definition gov_default : MetadataGovernorState :=
  mk_gov 0 0 0 0 0 0 (replicate METADATA_USAGE_CLASS_COUNT counters_default).

Record MetadataBudgetError := mk_budget_error {
  be_class : MetadataChargeClass;
  be_requested_bytes : Z;
  be_current_bytes : Z;
  be_limit_bytes : Z;
}.

Record MetadataCharge := mk_charge {
  ch_class : MetadataChargeClass;
  ch_usage : MetadataUsageClass;
  ch_bytes : Z;
}.

(** The places the code selects by class. *)
Definition limit (cfg : MetadataGovernorConfig) (class : MetadataChargeClass) : Z :=
  match class with InFlight => in_flight_max_bytes cfg | Retained => retained_max_bytes cfg end.

Definition charged (class : MetadataChargeClass) (st : MetadataGovernorState) : Z :=
  match class with InFlight => gs_in_flight_bytes st | Retained => gs_retained_bytes st end.
Definition set_charged (class : MetadataChargeClass) (v : Z) (st : MetadataGovernorState) : MetadataGovernorState :=
  let '(mk_gov r i pr pi rr ir u) := st in
  match class with InFlight => mk_gov r v pr pi rr ir u | Retained => mk_gov v i pr pi rr ir u end.

Definition peak (class : MetadataChargeClass) (st : MetadataGovernorState) : Z :=
  match class with InFlight => gs_peak_in_flight_bytes st | Retained => gs_peak_retained_bytes st end.
(** [state.peak = state.peak.max(v)]. *)
Definition raise_peak (class : MetadataChargeClass) (v : Z) (st : MetadataGovernorState) : MetadataGovernorState :=
  let '(mk_gov r i pr pi rr ir u) := st in
  match class with
  | InFlight => mk_gov r i pr (Z.max pi v) rr ir u
  | Retained => mk_gov r i (Z.max pr v) pi rr ir u
  end.

Definition usage_charged (class : MetadataChargeClass) (c : MetadataUsageCounters) : Z :=
  match class with InFlight => uc_in_flight_bytes c | Retained => uc_retained_bytes c end.
Definition usage_peak (class : MetadataChargeClass) (c : MetadataUsageCounters) : Z :=
  match class with InFlight => uc_peak_in_flight_bytes c | Retained => uc_peak_retained_bytes c end.
Definition usage_set (class : MetadataChargeClass) (v : Z) (c : MetadataUsageCounters) : MetadataUsageCounters :=
  let '(mk_counters i r pi pr) := c in
  match class with InFlight => mk_counters v r pi pr | Retained => mk_counters i v pi pr end.
Definition usage_raise_peak (class : MetadataChargeClass) (v : Z) (c : MetadataUsageCounters) : MetadataUsageCounters :=
  let '(mk_counters i r pi pr) := c in
  match class with
  | InFlight => mk_counters i r (Z.max pi v) pr
  | Retained => mk_counters i r pi (Z.max pr v)
  end.

Definition usage_counters (u : MetadataUsageClass) (st : MetadataGovernorState) : MetadataUsageCounters :=
  nth (stable_index u) (gs_usage st) counters_default.
Definition update_usage (u : MetadataUsageClass) (f : MetadataUsageCounters → MetadataUsageCounters)
    (st : MetadataGovernorState) : MetadataGovernorState :=
  let '(mk_gov r i pr pi rr ir us) := st in mk_gov r i pr pi rr ir (alter f (stable_index u) us).

(** ** Operations under the lock *)

Definition observe_refusal (class : MetadataChargeClass) (st : MetadataGovernorState) : MetadataGovernorState :=
  let '(mk_gov r i pr pi rr ir u) := st in
  match class with
  | InFlight => mk_gov r i pr pi rr (saturating_add_u64 ir 1) u
  | Retained => mk_gov r i pr pi (saturating_add_u64 rr 1) ir u
  end.

Abbreviation budget_result := (result MetadataBudgetError).

(** The state is returned with the error too: a refusal is counted. *)
Definition reserve_locked (cfg : MetadataGovernorConfig) (st : MetadataGovernorState)
    (class : MetadataChargeClass) (usage : MetadataUsageClass) (bytes : Z)
    : option (MetadataGovernorState * budget_result unit) :=
  let current := charged class st in
  let limit := limit cfg class in
  let refused := Err (mk_budget_error class bytes current limit) in
  match checked_add_u64 current bytes with
  | None => Some (observe_refusal class st, refused)
  | Some next =>
      if limit <? next then Some (observe_refusal class st, refused)
      else
        usage_next ← checked_add_u64 (usage_charged class (usage_counters usage st)) bytes;
        let st := raise_peak class next (set_charged class next st) in
        let st := update_usage usage (λ c, usage_raise_peak class usage_next (usage_set class usage_next c)) st in
        Some (st, Ok tt)
  end.

Definition release_locked (st : MetadataGovernorState) (class : MetadataChargeClass)
    (usage : MetadataUsageClass) (bytes : Z) : option MetadataGovernorState :=
  v ← checked_sub_u64 (charged class st) bytes;
  let st := set_charged class v st in
  u ← checked_sub_u64 (usage_charged class (usage_counters usage st)) bytes;
  Some (update_usage usage (usage_set class u) st).

Definition reserve (cfg : MetadataGovernorConfig) (st : MetadataGovernorState) (class : MetadataChargeClass)
    (usage : MetadataUsageClass) (bytes : Z) : option (MetadataGovernorState * budget_result MetadataCharge) :=
  '(st, r) ← reserve_locked cfg st class usage bytes;
  Some (st, match r with Ok _ => Ok (mk_charge class usage bytes) | Err e => Err e end).

Definition reserve_in_flight_for_usage (cfg : MetadataGovernorConfig) (st : MetadataGovernorState) (bytes : Z)
    (usage : MetadataUsageClass) : option (MetadataGovernorState * budget_result MetadataCharge) :=
  reserve cfg st InFlight usage bytes.

Definition reserve_in_flight (cfg : MetadataGovernorConfig) (st : MetadataGovernorState) (bytes : Z)
    : option (MetadataGovernorState * budget_result MetadataCharge) :=
  reserve_in_flight_for_usage cfg st bytes Unclassified.

Definition reconcile (cfg : MetadataGovernorConfig) (st : MetadataGovernorState) (c : MetadataCharge)
    (actual_bytes : Z) : option (MetadataGovernorState * MetadataCharge * budget_result unit) :=
  let done := mk_charge (ch_class c) (ch_usage c) actual_bytes in
  if actual_bytes =? ch_bytes c then Some (st, c, Ok tt)
  else if ch_bytes c <? actual_bytes then
    '(st, r) ← reserve_locked cfg st (ch_class c) (ch_usage c) (actual_bytes - ch_bytes c);
    Some (match r with Ok _ => (st, done, Ok tt) | Err e => (st, c, Err e) end)
  else
    st ← release_locked st (ch_class c) (ch_usage c) (ch_bytes c - actual_bytes);
    Some (st, done, Ok tt).

Definition try_promote_to_retained (cfg : MetadataGovernorConfig) (st : MetadataGovernorState)
    (c : MetadataCharge) : option (MetadataGovernorState * MetadataCharge * bool) :=
  match ch_class c with
  | Retained => Some (st, c, true)
  | InFlight =>
      match checked_add_u64 (gs_retained_bytes st) (ch_bytes c) with
      | None => Some (observe_refusal Retained st, c, false)
      | Some next_retained =>
          if retained_max_bytes cfg <? next_retained then Some (observe_refusal Retained st, c, false)
          else
            next_usage_retained ← checked_add_u64 (uc_retained_bytes (usage_counters (ch_usage c) st)) (ch_bytes c);
            v ← checked_sub_u64 (gs_in_flight_bytes st) (ch_bytes c);
            let st := raise_peak Retained next_retained
                        (set_charged Retained next_retained (set_charged InFlight v st)) in
            u ← checked_sub_u64 (uc_in_flight_bytes (usage_counters (ch_usage c) st)) (ch_bytes c);
            let st := update_usage (ch_usage c)
                        (λ k, usage_raise_peak Retained next_usage_retained
                                (usage_set Retained next_usage_retained (usage_set InFlight u k))) st in
            Some (st, mk_charge Retained (ch_usage c) (ch_bytes c), true)
      end
  end.

(** [charge_drop] is [Drop::drop]. *)
Definition charge_drop (st : MetadataGovernorState) (c : MetadataCharge) : option MetadataGovernorState :=
  release_locked st (ch_class c) (ch_usage c) (ch_bytes c).

(** ** Cache admission *)

Record MetadataScratchHandoff := mk_handoff {
  live_charge : MetadataCharge;
  resident_charge : option MetadataCharge;
}.

Definition is_cache (u : MetadataUsageClass) : bool := match u with Cache _ => true | _ => false end.

(** The caller's assertions; both charges belong to the one governor modelled. *)
Definition admit_asserts (final : MetadataCharge) (scratch : option MetadataCharge) : bool :=
  bool_decide (ch_class final = InFlight) && is_cache (ch_usage final) &&
  match scratch with
  | Some s => bool_decide (ch_class s = InFlight) && bool_decide (ch_usage s = Scratch)
  | None => true
  end.

Definition scratch_bytes (scratch : option MetadataCharge) : Z := from_option ch_bytes 0 scratch.
Definition zeroed (scratch : option MetadataCharge) : option MetadataCharge :=
  (λ s, mk_charge (ch_class s) (ch_usage s) 0) <$> scratch.

(** Admission to retained accounting. [Some None]: it does not fit. *)
Definition admit_retained (cfg : MetadataGovernorConfig) (st : MetadataGovernorState) (final : MetadataCharge)
    (scratch : option MetadataCharge) (live_bytes resident_bytes : Z)
    : option (option (MetadataGovernorState * MetadataCharge * option MetadataCharge * MetadataScratchHandoff)) :=
  let usage := ch_usage final in
  let transfer_bytes := b ← checked_add_u64 (ch_bytes final) live_bytes; checked_add_u64 b resident_bytes in
  let next_retained := b ← transfer_bytes; checked_add_u64 (gs_retained_bytes st) b in
  let next_usage_retained := b ← transfer_bytes; checked_add_u64 (uc_retained_bytes (usage_counters usage st)) b in
  match next_retained, next_usage_retained with
  | Some next_retained, Some next_usage_retained =>
      if next_retained <=? retained_max_bytes cfg then
        released ← checked_add_u64 (ch_bytes final) (scratch_bytes scratch);
        v ← checked_sub_u64 (gs_in_flight_bytes st) released;
        let st := raise_peak Retained next_retained
                    (set_charged Retained next_retained (set_charged InFlight v st)) in
        s ← checked_sub_u64 (uc_in_flight_bytes (usage_counters Scratch st)) (scratch_bytes scratch);
        let st := update_usage Scratch (usage_set InFlight s) st in
        f ← checked_sub_u64 (uc_in_flight_bytes (usage_counters usage st)) (ch_bytes final);
        let st := update_usage usage
                    (λ k, usage_raise_peak Retained next_usage_retained
                            (usage_set Retained next_usage_retained (usage_set InFlight f k))) st in
        Some (Some (st, mk_charge Retained usage (ch_bytes final), zeroed scratch,
          mk_handoff (mk_charge Retained usage live_bytes) (Some (mk_charge Retained usage resident_bytes))))
      else Some None
  | _, _ => Some None
  end.

Definition admit_transient (cfg : MetadataGovernorConfig) (st : MetadataGovernorState) (final : MetadataCharge)
    (scratch : option MetadataCharge) (live_bytes : Z)
    : option (MetadataGovernorState * MetadataCharge * option MetadataCharge * budget_result MetadataScratchHandoff) :=
  let usage := ch_usage final in
  current_after_scratch ← checked_sub_u64 (gs_in_flight_bytes st) (scratch_bytes scratch);
  let refused := Err (mk_budget_error InFlight live_bytes current_after_scratch (in_flight_max_bytes cfg)) in
  match checked_add_u64 current_after_scratch live_bytes with
  | None => Some (observe_refusal InFlight st, final, scratch, refused)
  | Some next_in_flight =>
      if in_flight_max_bytes cfg <? next_in_flight then Some (observe_refusal InFlight st, final, scratch, refused)
      else
        next_usage ← checked_add_u64 (uc_in_flight_bytes (usage_counters usage st)) live_bytes;
        let st := raise_peak InFlight next_in_flight (set_charged InFlight next_in_flight st) in
        s ← checked_sub_u64 (uc_in_flight_bytes (usage_counters Scratch st)) (scratch_bytes scratch);
        let st := update_usage Scratch (usage_set InFlight s) st in
        let st := update_usage usage
                    (λ k, usage_raise_peak InFlight next_usage (usage_set InFlight next_usage k)) st in
        Some (st, final, zeroed scratch, Ok (mk_handoff (mk_charge InFlight usage live_bytes) None))
  end.

Definition admit_cache_allocation (cfg : MetadataGovernorConfig) (st : MetadataGovernorState)
    (final : MetadataCharge) (scratch : option MetadataCharge) (live_bytes : Z) (resident_bytes : option Z)
    : option (MetadataGovernorState * MetadataCharge * option MetadataCharge * budget_result MetadataScratchHandoff) :=
  if negb (admit_asserts final scratch) then None
  else
    match resident_bytes with
    | Some resident_bytes =>
        r ← admit_retained cfg st final scratch live_bytes resident_bytes;
        match r with
        | Some (st, final, scratch, handoff) => Some (st, final, scratch, Ok handoff)
        | None => admit_transient cfg (observe_refusal Retained st) final scratch live_bytes
        end
    | None => admit_transient cfg st final scratch live_bytes
    end.

(** ** Statistics *)

Record MetadataUsageStats := mk_usage_stats {
  us_usage : MetadataUsageClass;
  us_counters : MetadataUsageCounters;
}.

(** [self.state] read under the lock, with the configuration and the usage in
    report order. *)
Definition stats_usage (st : MetadataGovernorState) : list MetadataUsageStats :=
  (λ u, mk_usage_stats u (usage_counters u st)) <$> METADATA_USAGE_CLASS_ORDER.
(** [MetadataGovernorStats::usage]. *)
Definition stats_lookup (stats : list MetadataUsageStats) (u : MetadataUsageClass) : option MetadataUsageStats :=
  stats !! stable_index u.

(** ** Sessions *)

Record gov_session := mk_session {
  se_state : MetadataGovernorState;
  se_live : gmap Z MetadataCharge;
  se_next : Z;
}.

Inductive gov_op :=
  | OpReserve (class : MetadataChargeClass) (usage : MetadataUsageClass) (bytes : Z)
  | OpReconcile (h actual_bytes : Z)
  | OpPromote (h : Z)
  | OpAdmit (final : Z) (scratch : option Z) (live_bytes : Z) (resident_bytes : option Z)
  | OpDrop (h : Z).

(** Handles that are not live cannot be written in the program. *)
Definition put_back (h : option Z) (c : option MetadataCharge) (live : gmap Z MetadataCharge)
    : gmap Z MetadataCharge :=
  match h, c with Some h, Some c => <[h := c]> live | _, _ => live end.

Definition add_handoff (next : Z) (ho : MetadataScratchHandoff) (live : gmap Z MetadataCharge)
    : gmap Z MetadataCharge :=
  let live := <[next := live_charge ho]> live in
  match resident_charge ho with Some c => <[next + 1 := c]> live | None => live end.

Definition gov_step (cfg : MetadataGovernorConfig) (s : gov_session) (op : gov_op) : option gov_session :=
  let '(mk_session st live next) := s in
  match op with
  | OpReserve class usage bytes =>
      '(st, r) ← reserve cfg st class usage bytes;
      Some (match r with
            | Ok c => mk_session st (<[next := c]> live) (next + 1)
            | Err _ => mk_session st live next
            end)
  | OpReconcile h actual =>
      match live !! h with
      | None => Some s
      | Some c => '(st, c, _) ← reconcile cfg st c actual; Some (mk_session st (<[h := c]> live) next)
      end
  | OpPromote h =>
      match live !! h with
      | None => Some s
      | Some c => '(st, c, _) ← try_promote_to_retained cfg st c; Some (mk_session st (<[h := c]> live) next)
      end
  | OpAdmit final scratch live_bytes resident_bytes =>
      match live !! final with
      | None => Some s
      | Some fc =>
          let sc := h ← scratch; live !! h in
          '(st, fc, sc, r) ← admit_cache_allocation cfg st fc sc live_bytes resident_bytes;
          let live := put_back scratch sc (<[final := fc]> live) in
          Some (match r with
                | Ok ho => mk_session st (add_handoff next ho live) (next + 2)
                | Err _ => mk_session st live next
                end)
      end
  | OpDrop h =>
      match live !! h with
      | None => Some s
      | Some c => st ← charge_drop st c; Some (mk_session st (delete h live) next)
      end
  end.

(** The states along an execution, the first included. *)
Fixpoint gov_run (cfg : MetadataGovernorConfig) (s : gov_session) (ops : list gov_op)
    : option (gov_session * list MetadataGovernorState) :=
  match ops with
  | [] => Some (s, [se_state s])
  | op :: ops =>
      s' ← gov_step cfg s op;
      '(final, states) ← gov_run cfg s' ops;
      Some (final, se_state s :: states)
  end.

Definition gov_start : gov_session := mk_session gov_default ∅ 0.

(** ** Sums over the live charges *)

Definition sum_live (f : MetadataCharge → Z) (live : gmap Z MetadataCharge) : Z :=
  map_fold (λ _ c acc, f c + acc) 0 live.

Lemma sum_live_empty f : sum_live f ∅ = 0.
Proof. apply map_fold_empty. Qed.

Lemma sum_live_fresh f h c live : live !! h = None → sum_live f (<[h := c]> live) = f c + sum_live f live.
Proof. intros Hh. unfold sum_live. rewrite map_fold_insert_L; [done|intros; lia|done]. Qed.

Lemma sum_live_delete f h c live : live !! h = Some c → sum_live f live = f c + sum_live f (delete h live).
Proof. intros Hh. unfold sum_live. rewrite (map_fold_delete_L _ _ h c); [done|intros; lia|done]. Qed.

Lemma sum_live_update f h c c' live :
  live !! h = Some c → sum_live f (<[h := c']> live) = sum_live f live - f c + f c'.
Proof.
  intros Hh. rewrite (sum_live_delete f h c' (<[h := c']> live)) by by rewrite lookup_insert_eq.
  rewrite delete_insert_eq, (sum_live_delete f h c live) by done. lia.
Qed.

Lemma sum_live_le f g live :
  map_Forall (λ _ c, f c ≤ g c) live → sum_live f live ≤ sum_live g live.
Proof.
  induction live as [|h c live Hh IH] using map_ind; intros Hle; [by rewrite !sum_live_empty|].
  rewrite !sum_live_fresh by done. apply map_Forall_insert in Hle as [? ?]; [|done]. specialize (IH ltac:(done)). lia.
Qed.

Lemma sum_live_nonneg f live : map_Forall (λ _ c, 0 ≤ f c) live → 0 ≤ sum_live f live.
Proof.
  intros H. replace 0 with (sum_live (λ _, 0) live); [by apply sum_live_le|].
  clear H. induction live as [|h c live Hh IH] using map_ind; [apply sum_live_empty|].
  by rewrite sum_live_fresh.
Qed.

Lemma sum_live_member f h c live :
  map_Forall (λ _ c, 0 ≤ f c) live → live !! h = Some c → f c ≤ sum_live f live.
Proof.
  intros Hf Hh. rewrite (sum_live_delete f h c live Hh).
  pose proof (sum_live_nonneg f (delete h live) (map_Forall_delete _ _ _ Hf)). lia.
Qed.

(** Two distinct charges together. *)
Lemma sum_live_member2 f h c k d live :
  map_Forall (λ _ c, 0 ≤ f c) live → live !! h = Some c → live !! k = Some d → h ≠ k → f c + f d ≤ sum_live f live.
Proof.
  intros Hf Hh Hk Hne. rewrite (sum_live_delete f h c live Hh).
  assert (f d ≤ sum_live f (delete h live)); [|lia]. apply (sum_live_member f k); [by apply map_Forall_delete|].
  by rewrite lookup_delete_ne.
Qed.

(** ** Conservation: what an operation does to the account is what it does to
    the charges *)

Definition weight (class : MetadataChargeClass) (c : MetadataCharge) : Z :=
  if decide (ch_class c = class) then ch_bytes c else 0.
Definition usage_weight (class : MetadataChargeClass) (u : MetadataUsageClass) (c : MetadataCharge) : Z :=
  if decide (ch_class c = class ∧ ch_usage c = u) then ch_bytes c else 0.
Definition total (f : MetadataCharge → Z) (cs : list MetadataCharge) : Z := foldr (λ c acc, f c + acc) 0 cs.

(** Limits are 64-bit. *)
Definition limits_ok (cfg : MetadataGovernorConfig) : Prop := ∀ class, 0 ≤ limit cfg class ≤ u64_max.

(** The account alone: within limits, usage within totals, peaks above. *)
Record gov_ok (cfg : MetadataGovernorConfig) (st : MetadataGovernorState) : Prop := {
  ok_length : length (gs_usage st) = METADATA_USAGE_CLASS_COUNT;
  ok_charged class : 0 ≤ charged class st ≤ limit cfg class;
  ok_peak class : charged class st ≤ peak class st ≤ limit cfg class;
  ok_usage class u :
    0 ≤ usage_charged class (usage_counters u st) ≤ charged class st;
  ok_usage_two class u v :
    u ≠ v → usage_charged class (usage_counters u st) + usage_charged class (usage_counters v st) ≤ charged class st;
  ok_usage_peak class u : usage_charged class (usage_counters u st) ≤ usage_peak class (usage_counters u st);
}.

(** [consumed] charges become [produced] ones. *)
Record gov_effect (cfg : MetadataGovernorConfig) (st st' : MetadataGovernorState)
    (consumed produced : list MetadataCharge) : Prop := {
  ef_length : length (gs_usage st') = METADATA_USAGE_CLASS_COUNT;
  ef_charged class : charged class st' = charged class st - total (weight class) consumed + total (weight class) produced;
  ef_usage class u :
    usage_charged class (usage_counters u st')
    = usage_charged class (usage_counters u st) - total (usage_weight class u) consumed
      + total (usage_weight class u) produced;
  ef_peak class : peak class st' = Z.max (peak class st) (charged class st');
  ef_usage_peak class u :
    usage_peak class (usage_counters u st')
    = Z.max (usage_peak class (usage_counters u st)) (usage_charged class (usage_counters u st'));
  ef_limit class : charged class st' ≤ limit cfg class;
}.

Lemma usage_order_lookup u : METADATA_USAGE_CLASS_ORDER !! stable_index u = Some u.
Proof. destruct u as [| | |[]]; reflexivity. Qed.

Lemma stable_index_inj u v : stable_index u = stable_index v → u = v.
Proof.
  intros H. pose proof (usage_order_lookup u) as Hu. rewrite H, usage_order_lookup in Hu. by injection Hu.
Qed.

Lemma stable_index_lt u : (stable_index u < METADATA_USAGE_CLASS_COUNT)%nat.
Proof. exact (lookup_lt_Some _ _ _ (usage_order_lookup u)). Qed.

Lemma usage_counters_update u v f st :
  length (gs_usage st) = METADATA_USAGE_CLASS_COUNT →
  usage_counters u (update_usage v f st)
  = if decide (u = v) then f (usage_counters v st) else usage_counters u st.
Proof.
  intros Hl. destruct st as [r i pr pi rr ir us]. cbn in Hl. unfold usage_counters. cbn. rewrite !nth_lookup.
  destruct (decide (u = v)) as [->|Hne].
  - rewrite list_lookup_alter_eq. pose proof (stable_index_lt v) as Hlt.
    destruct (lookup_lt_is_Some_2 us (stable_index v)) as [c ->]; [lia|done].
  - rewrite list_lookup_alter_ne; [done|]. intros H. by apply Hne, stable_index_inj.
Qed.

Lemma usage_counters_set_charged u class v st : usage_counters u (set_charged class v st) = usage_counters u st.
Proof. by destruct st, class. Qed.
Lemma usage_counters_raise_peak u class v st : usage_counters u (raise_peak class v st) = usage_counters u st.
Proof. by destruct st, class. Qed.
Lemma usage_counters_refusal u class st : usage_counters u (observe_refusal class st) = usage_counters u st.
Proof. by destruct st, class. Qed.
Lemma length_usage_update u f st : length (gs_usage (update_usage u f st)) = length (gs_usage st).
Proof. destruct st. cbn. apply length_alter. Qed.
Lemma length_usage_set_charged class v st : length (gs_usage (set_charged class v st)) = length (gs_usage st).
Proof. by destruct st, class. Qed.
Lemma length_usage_raise_peak class v st : length (gs_usage (raise_peak class v st)) = length (gs_usage st).
Proof. by destruct st, class. Qed.
Lemma charged_update u f class st : charged class (update_usage u f st) = charged class st.
Proof. by destruct st, class. Qed.
Lemma charged_raise_peak c v class st : charged class (raise_peak c v st) = charged class st.
Proof. by destruct st, class, c. Qed.
Lemma charged_set_charged c v class st : charged class (set_charged c v st) = if decide (class = c) then v else charged class st.
Proof. by destruct st, class, c. Qed.
Lemma peak_update u f class st : peak class (update_usage u f st) = peak class st.
Proof. by destruct st, class. Qed.
Lemma peak_set_charged c v class st : peak class (set_charged c v st) = peak class st.
Proof. by destruct st, class, c. Qed.
Lemma peak_raise_peak c v class st : peak class (raise_peak c v st) = if decide (class = c) then Z.max (peak class st) v else peak class st.
Proof. by destruct st, class, c. Qed.
Lemma charged_usage_set c v class k : usage_charged class (usage_set c v k) = if decide (class = c) then v else usage_charged class k.
Proof. by destruct k, class, c. Qed.
Lemma charged_usage_raise c v class k : usage_charged class (usage_raise_peak c v k) = usage_charged class k.
Proof. by destruct k, class, c. Qed.
Lemma peak_usage_set c v class k : usage_peak class (usage_set c v k) = usage_peak class k.
Proof. by destruct k, class, c. Qed.
Lemma peak_usage_raise c v class k : usage_peak class (usage_raise_peak c v k) = if decide (class = c) then Z.max (usage_peak class k) v else usage_peak class k.
Proof. by destruct k, class, c. Qed.

#[export] Hint Rewrite usage_counters_set_charged usage_counters_raise_peak usage_counters_refusal
  length_usage_update length_usage_set_charged length_usage_raise_peak charged_update charged_raise_peak
  charged_set_charged peak_update peak_set_charged peak_raise_peak charged_usage_set charged_usage_raise
  peak_usage_set peak_usage_raise : gov.
#[export] Hint Rewrite usage_counters_update using (rewrite ?length_usage_update, ?length_usage_raise_peak, ?length_usage_set_charged, ?length_usage_update; assumption) : gov.

(** Proves the fields of a [gov_effect] of an explicit final state. *)
Ltac gov_solve Hok :=
  let cls := fresh "cls" in let u := fresh "u" in
  pose proof (ok_length _ _ Hok);
  split;
  [ autorewrite with gov; assumption
  | intros cls; autorewrite with gov; cbn [total foldr]; unfold weight; cbn [ch_class ch_bytes];
    pose proof (ok_charged _ _ Hok cls)
  | intros cls u; autorewrite with gov; cbn [total foldr]; unfold usage_weight; cbn [ch_class ch_usage ch_bytes];
    pose proof (ok_usage _ _ Hok cls u)
  | intros cls; autorewrite with gov; pose proof (ok_charged _ _ Hok cls); pose proof (ok_peak _ _ Hok cls)
  | intros cls u; autorewrite with gov; pose proof (ok_usage _ _ Hok cls u); pose proof (ok_usage_peak _ _ Hok cls u)
  | intros cls; autorewrite with gov; pose proof (ok_charged _ _ Hok cls) ].

(** Splits the decisions left in a goal. *)
Ltac split_decides :=
  repeat (case_decide; autorewrite with gov); subst; try done; try lia;
  try (exfalso; naive_solver congruence); try (naive_solver lia).

Lemma checked_add_overflow a b : u64_max < a + b → checked_add_u64 a b = None.
Proof. intros H. unfold checked_add_u64. by rewrite (proj2 (Z.leb_gt _ _)). Qed.

Lemma reserve_locked_spec cfg st class usage bytes :
  gov_ok cfg st → limits_ok cfg → 0 ≤ bytes →
  (∃ st', reserve_locked cfg st class usage bytes = Some (st', Ok tt) ∧
     charged class st + bytes ≤ limit cfg class ∧
     gov_effect cfg st st' [] [mk_charge class usage bytes]) ∨
  (limit cfg class < charged class st + bytes ∧
   reserve_locked cfg st class usage bytes
   = Some (observe_refusal class st, Err (mk_budget_error class bytes (charged class st) (limit cfg class)))).
Proof.
  intros Hok Hlim Hb. pose proof (Hlim class) as Hl. pose proof (ok_charged _ _ Hok class) as Hc.
  pose proof (ok_usage _ _ Hok class usage) as Hu. unfold reserve_locked.
  destruct (Z.leb_spec (charged class st + bytes) u64_max) as [Hfit|Hfit].
  - rewrite checked_add_u64_fits by done. destruct (Z.ltb_spec (limit cfg class) (charged class st + bytes)); [right|left].
    { done. }
    rewrite checked_add_u64_fits by lia. cbn [mbind option_bind]. eexists. split; [done|]. split; [done|].
    gov_solve Hok; split_decides.
  - right. split; [lia|]. by rewrite checked_add_overflow.
Qed.

Lemma release_locked_spec cfg st class usage bytes :
  gov_ok cfg st → 0 ≤ bytes ≤ usage_charged class (usage_counters usage st) →
  ∃ st', release_locked st class usage bytes = Some st' ∧ gov_effect cfg st st' [mk_charge class usage bytes] [].
Proof.
  intros Hok Hb. pose proof (ok_usage _ _ Hok class usage). unfold release_locked.
  rewrite checked_sub_u64_fits by lia. cbn [mbind option_bind]. rewrite usage_counters_set_charged, checked_sub_u64_fits by lia.
  cbn [mbind option_bind]. eexists. split; [done|]. gov_solve Hok; split_decides.
Qed.

(** What a charge contributes is in the account. *)
Definition covered (st : MetadataGovernorState) (c : MetadataCharge) : Prop :=
  0 ≤ ch_bytes c ≤ usage_charged (ch_class c) (usage_counters (ch_usage c) st).

Lemma reconcile_spec cfg st c actual :
  gov_ok cfg st → limits_ok cfg → covered st c → 0 ≤ actual →
  (∃ st', reconcile cfg st c actual = Some (st', mk_charge (ch_class c) (ch_usage c) actual, Ok tt) ∧
     gov_effect cfg st st' [c] [mk_charge (ch_class c) (ch_usage c) actual]) ∨
  (limit cfg (ch_class c) < charged (ch_class c) st - ch_bytes c + actual ∧ ∃ e,
   reconcile cfg st c actual = Some (observe_refusal (ch_class c) st, c, Err e)).
Proof.
  intros Hok Hlim [Hc1 Hc2] Ha. destruct c as [class usage bytes]. cbn in *. unfold reconcile. cbn.
  pose proof (ok_usage _ _ Hok class usage). pose proof (ok_charged _ _ Hok class).
  destruct (Z.eqb_spec actual bytes) as [->|Hne].
  { left. exists st. split; [done|]. gov_solve Hok; split_decides. }
  destruct (Z.ltb_spec bytes actual).
  - destruct (reserve_locked_spec cfg st class usage (actual - bytes) Hok Hlim ltac:(lia))
      as [(st' & -> & Hl & Hef)|[Hl ->]]; cbn [mbind option_bind].
    + left. eexists. split; [done|]. destruct Hef as [E1 E2 E3 E4 E5 E6]. split; try done; intros;
        [rewrite E2|rewrite E3]; cbn; unfold weight, usage_weight; cbn; split_decides.
    + right. split; [lia|]. by eexists.
  - left. destruct (release_locked_spec cfg st class usage (bytes - actual) Hok ltac:(lia)) as (st' & -> & Hef).
    eexists. split; [done|]. destruct Hef as [E1 E2 E3 E4 E5 E6]. split; try done; intros;
        [rewrite E2|rewrite E3]; cbn; unfold weight, usage_weight; cbn; split_decides.
Qed.

Lemma promote_spec cfg st c :
  gov_ok cfg st → limits_ok cfg → covered st c →
  (∃ st', try_promote_to_retained cfg st c = Some (st', mk_charge Retained (ch_usage c) (ch_bytes c), true) ∧
     gov_effect cfg st st' [c] [mk_charge Retained (ch_usage c) (ch_bytes c)]) ∨
  (ch_class c = InFlight ∧ retained_max_bytes cfg < gs_retained_bytes st + ch_bytes c ∧
   try_promote_to_retained cfg st c = Some (observe_refusal Retained st, c, false)).
Proof.
  intros Hok Hlim [Hc1 Hc2]. destruct c as [class usage bytes]. cbn in *. unfold try_promote_to_retained. cbn.
  destruct class; [|left; exists st; split; [done|gov_solve Hok; split_decides]].
  pose proof (ok_usage _ _ Hok InFlight usage) as Hui. pose proof (ok_usage _ _ Hok Retained usage) as Hur.
  pose proof (ok_charged _ _ Hok Retained) as Hcr. pose proof (Hlim Retained) as Hlr. cbn in *.
  destruct (Z.leb_spec (gs_retained_bytes st + bytes) u64_max) as [Hfit|Hfit].
  - rewrite checked_add_u64_fits by done.
    destruct (Z.ltb_spec (retained_max_bytes cfg) (gs_retained_bytes st + bytes)); [by right|left].
    rewrite checked_add_u64_fits by lia. cbn [mbind option_bind].
    rewrite checked_sub_u64_fits by lia. cbn [mbind option_bind].
    rewrite usage_counters_raise_peak, !usage_counters_set_charged, checked_sub_u64_fits by lia. cbn [mbind option_bind].
    eexists. split; [done|]. gov_solve Hok; split_decides.
  - right. rewrite checked_add_overflow by done. split_and!; [done|lia|done].
Qed.

(** The charges an admission is given. *)
Record admission (st : MetadataGovernorState) (final : MetadataCharge) (scratch : option MetadataCharge) : Prop := {
  ad_asserts : admit_asserts final scratch = true;
  ad_final : covered st final;
  ad_scratch : from_option (covered st) True scratch;
  ad_both : ch_bytes final + scratch_bytes scratch ≤ gs_in_flight_bytes st;
}.

Lemma admission_shape st final scratch :
  admission st final scratch →
  ch_class final = InFlight ∧ ch_usage final ≠ Scratch ∧ 0 ≤ ch_bytes final ∧ 0 ≤ scratch_bytes scratch ∧
  ch_bytes final ≤ uc_in_flight_bytes (usage_counters (ch_usage final) st) ∧
  (scratch = None ∨ scratch = Some (mk_charge InFlight Scratch (scratch_bytes scratch)) ∧
     scratch_bytes scratch ≤ uc_in_flight_bytes (usage_counters Scratch st)).
Proof.
  intros [Ha [Hf1 Hf2] Hs _]. unfold admit_asserts in Ha. apply andb_true_iff in Ha as [Ha Hsc].
  apply andb_true_iff in Ha as [Hcl%bool_decide_eq_true Hca]. rewrite Hcl in Hf2. cbn in Hf2.
  destruct scratch as [[sc su sb]|]; cbn in *.
  - apply andb_true_iff in Hsc as [->%bool_decide_eq_true ->%bool_decide_eq_true]. destruct Hs as [? ?]. cbn in *.
    split_and!; try done; [by intros Hu; rewrite Hu in Hca|right; done].
  - split_and!; try done; [by intros Hu; rewrite Hu in Hca|by left].
Qed.

Definition retained_charges (final : MetadataCharge) (scratch : option MetadataCharge) (live_bytes resident_bytes : Z)
    : list MetadataCharge :=
  mk_charge Retained (ch_usage final) (ch_bytes final) :: option_list (zeroed scratch)
    ++ [mk_charge Retained (ch_usage final) live_bytes; mk_charge Retained (ch_usage final) resident_bytes].
Definition transient_charges (final : MetadataCharge) (scratch : option MetadataCharge) (live_bytes : Z)
    : list MetadataCharge :=
  final :: option_list (zeroed scratch) ++ [mk_charge InFlight (ch_usage final) live_bytes].
Definition input_charges (final : MetadataCharge) (scratch : option MetadataCharge) : list MetadataCharge :=
  final :: option_list scratch.

Lemma admit_retained_spec cfg st final scratch live res :
  gov_ok cfg st → limits_ok cfg → admission st final scratch → 0 ≤ live → 0 ≤ res →
  let usage := ch_usage final in
  if gs_retained_bytes st + (ch_bytes final + live + res) <=? retained_max_bytes cfg then
    ∃ st', admit_retained cfg st final scratch live res
      = Some (Some (st', mk_charge Retained usage (ch_bytes final), zeroed scratch,
          mk_handoff (mk_charge Retained usage live) (Some (mk_charge Retained usage res)))) ∧
      gov_effect cfg st st' (input_charges final scratch) (retained_charges final scratch live res)
  else admit_retained cfg st final scratch live res = Some None.
Proof.
  intros Hok Hlim Had Hl Hr usage. destruct (admission_shape _ _ _ Had) as (Hcl & Hns & Hfb & Hsb & Hfu & Hsc).
  pose proof (ad_both _ _ _ Had) as Hboth. pose proof (ok_usage _ _ Hok Retained usage) as Hur.
  pose proof (ok_charged _ _ Hok Retained) as Hcr. pose proof (ok_charged _ _ Hok InFlight) as Hci.
  pose proof (Hlim Retained) as Hlr. pose proof (Hlim InFlight) as Hli. cbn in Hur, Hcr, Hci, Hlr, Hli.
  unfold admit_retained. fold usage in Hfu, Hns |- *.
  destruct (Z.leb_spec (gs_retained_bytes st + (ch_bytes final + live + res)) (retained_max_bytes cfg)) as [Hfit|Hfit].
  - rewrite !checked_add_u64_fits by lia. cbn [mbind option_bind]. rewrite !checked_add_u64_fits by lia. cbn [mbind option_bind].
    rewrite !checked_add_u64_fits by lia.
    rewrite (proj2 (Z.leb_le _ _)) by lia. cbn [mbind option_bind]. rewrite checked_sub_u64_fits by lia.
    cbn [mbind option_bind]. rewrite usage_counters_raise_peak, !usage_counters_set_charged.
    rewrite checked_sub_u64_fits by (destruct Hsc as [->|[_ ?]]; [cbn; pose proof (ok_usage _ _ Hok InFlight Scratch) as Hx; cbn in Hx; lia|done]).
    cbn [mbind option_bind]. autorewrite with gov.
    pose proof (ok_length _ _ Hok).
    rewrite usage_counters_update by (autorewrite with gov; done). rewrite decide_False by done.
    rewrite usage_counters_raise_peak, !usage_counters_set_charged, checked_sub_u64_fits by lia. cbn [mbind option_bind].
    eexists. split; [done|]. destruct final as [cl us fb]. cbn in *. subst cl.
    destruct Hsc as [->|[-> Hsu]]; unfold retained_charges, input_charges, zeroed; cbn in *;
      gov_solve Hok; split_decides.
  - destruct (checked_add_u64 (ch_bytes final) live) as [t1|] eqn:H1; cbn [mbind option_bind]; [|done].
    apply checked_add_u64_Some in H1 as [-> _].
    destruct (checked_add_u64 (ch_bytes final + live) res) as [t2|] eqn:H2; cbn [mbind option_bind]; [|done].
    apply checked_add_u64_Some in H2 as [-> _].
    destruct (checked_add_u64 (gs_retained_bytes st) _) as [t3|] eqn:H3; cbn [mbind option_bind]; [|done].
    apply checked_add_u64_Some in H3 as [-> _]. destruct (checked_add_u64 _ _); [|done].
    by rewrite (proj2 (Z.leb_gt _ _)).
Qed.

Lemma admit_transient_spec cfg st final scratch live :
  gov_ok cfg st → limits_ok cfg → admission st final scratch → 0 ≤ live →
  let usage := ch_usage final in
  if gs_in_flight_bytes st - scratch_bytes scratch + live <=? in_flight_max_bytes cfg then
    ∃ st', admit_transient cfg st final scratch live
      = Some (st', final, zeroed scratch, Ok (mk_handoff (mk_charge InFlight usage live) None)) ∧
      gov_effect cfg st st' (input_charges final scratch) (transient_charges final scratch live)
  else admit_transient cfg st final scratch live
    = Some (observe_refusal InFlight st, final, scratch,
        Err (mk_budget_error InFlight live (gs_in_flight_bytes st - scratch_bytes scratch) (in_flight_max_bytes cfg))).
Proof.
  intros Hok Hlim Had Hl usage. destruct (admission_shape _ _ _ Had) as (Hcl & Hns & Hfb & Hsb & Hfu & Hsc).
  pose proof (ad_both _ _ _ Had) as Hboth. pose proof (ok_usage _ _ Hok InFlight usage) as Hui.
  pose proof (ok_charged _ _ Hok InFlight) as Hci. pose proof (Hlim InFlight) as Hli. cbn in Hui, Hci, Hli.
  pose proof (ok_usage_two _ _ Hok InFlight usage Scratch Hns) as Htwo. cbn in Htwo.
  unfold admit_transient. fold usage in Hfu, Hns |- *. rewrite checked_sub_u64_fits by lia. cbn [mbind option_bind].
  destruct (Z.leb_spec (gs_in_flight_bytes st - scratch_bytes scratch + live) (in_flight_max_bytes cfg)) as [Hfit|Hfit].
  - rewrite checked_add_u64_fits by lia. rewrite (proj2 (Z.ltb_ge _ _)) by lia.
    assert (scratch_bytes scratch ≤ uc_in_flight_bytes (usage_counters Scratch st)).
    { pose proof (ok_usage _ _ Hok InFlight Scratch) as Hx. cbn in Hx. destruct Hsc as [->|[_ ?]]; [cbn; lia|done]. }
    rewrite checked_add_u64_fits by lia. cbn [mbind option_bind].
    rewrite usage_counters_raise_peak, !usage_counters_set_charged, checked_sub_u64_fits by lia. cbn [mbind option_bind].
    eexists. split; [done|]. destruct final as [cl us fb]. cbn in *. subst cl.
    destruct Hsc as [->|[-> Hsu]]; unfold transient_charges, input_charges, zeroed; cbn in *;
      gov_solve Hok; split_decides.
  - destruct (checked_add_u64 _ _) as [n|] eqn:Hn; [|done]. apply checked_add_u64_Some in Hn as [-> _].
    by rewrite (proj2 (Z.ltb_lt _ _)).
Qed.

(** ** The invariant of an execution *)

Record session_ok (cfg : MetadataGovernorConfig) (s : gov_session) : Prop := {
  so_gov : gov_ok cfg (se_state s);
  so_bytes : map_Forall (λ _ c, 0 ≤ ch_bytes c) (se_live s);
  so_fresh : map_Forall (λ h _, h < se_next s) (se_live s);
  so_charged class : charged class (se_state s) = sum_live (weight class) (se_live s);
  so_usage class u :
    usage_charged class (usage_counters u (se_state s)) = sum_live (usage_weight class u) (se_live s);
}.

Lemma weight_nonneg class c : 0 ≤ ch_bytes c → 0 ≤ weight class c.
Proof. unfold weight. by case_decide. Qed.
Lemma usage_weight_nonneg class u c : 0 ≤ ch_bytes c → 0 ≤ usage_weight class u c.
Proof. unfold usage_weight. by case_decide. Qed.

Lemma sum_weights_le class u live :
  map_Forall (λ _ c, 0 ≤ ch_bytes c) live →
  0 ≤ sum_live (usage_weight class u) live ≤ sum_live (weight class) live.
Proof.
  intros Hb. split; [apply sum_live_nonneg|apply sum_live_le]; eapply map_Forall_impl; [exact Hb| |exact Hb|];
    intros h c Hc; cbn; [by apply usage_weight_nonneg|]. unfold usage_weight, weight. split_decides.
Qed.

Lemma sum_weights_two class u v live :
  u ≠ v → map_Forall (λ _ c, 0 ≤ ch_bytes c) live →
  sum_live (usage_weight class u) live + sum_live (usage_weight class v) live ≤ sum_live (weight class) live.
Proof.
  intros Hne Hb. induction live as [|h c live Hh IH] using map_ind; [by rewrite !sum_live_empty|].
  rewrite !sum_live_fresh by done. apply map_Forall_insert in Hb as [Hc Hb]; [|done]. specialize (IH Hb).
  unfold usage_weight at 1 3, weight at 1. split_decides.
Qed.

(** The account of the sums is within bounds when the totals and peaks are. *)
Lemma session_ok_intro cfg st live next :
  length (gs_usage st) = METADATA_USAGE_CLASS_COUNT →
  map_Forall (λ _ c, 0 ≤ ch_bytes c) live → map_Forall (λ h _, h < next) live →
  (∀ class, charged class st = sum_live (weight class) live) →
  (∀ class u, usage_charged class (usage_counters u st) = sum_live (usage_weight class u) live) →
  (∀ class, charged class st ≤ limit cfg class ∧ charged class st ≤ peak class st ≤ limit cfg class) →
  (∀ class u, usage_charged class (usage_counters u st) ≤ usage_peak class (usage_counters u st)) →
  session_ok cfg (mk_session st live next).
Proof.
  intros Hl Hb Hf Hc Hu Hlim Hup. split; try done. cbn. split; try done.
  - intros class. destruct (Hlim class) as [? _]. pose proof (sum_weights_le class Scratch live Hb).
    rewrite Hc in *. lia.
  - intros class. apply Hlim.
  - intros class u. rewrite Hu, Hc. by apply sum_weights_le.
  - intros class u v Hne. rewrite !Hu, Hc. by apply sum_weights_two.
Qed.

Lemma session_effect cfg st live next st' live' next' consumed produced :
  session_ok cfg (mk_session st live next) → gov_effect cfg st st' consumed produced →
  map_Forall (λ _ c, 0 ≤ ch_bytes c) live' → map_Forall (λ h _, h < next') live' →
  (∀ f, sum_live f live' = sum_live f live - total f consumed + total f produced) →
  session_ok cfg (mk_session st' live' next').
Proof.
  intros [Hok _ _ Hc Hu] [E1 E2 E3 E4 E5 E6] Hb Hf Hsum. cbn in Hok, Hc, Hu. apply session_ok_intro; try done.
  - intros class. by rewrite E2, Hc, Hsum.
  - intros class u. by rewrite E3, Hu, Hsum.
  - intros class. pose proof (E6 class). pose proof (ok_peak _ _ Hok class). rewrite E4. lia.
  - intros class u. rewrite E5. lia.
Qed.

Lemma observe_refusal_same class st :
  (∀ c, charged c (observe_refusal class st) = charged c st) ∧
  (∀ c, peak c (observe_refusal class st) = peak c st) ∧ gs_usage (observe_refusal class st) = gs_usage st.
Proof. destruct st, class; split_and!; try done; by intros []. Qed.

Lemma session_refusal cfg class st live next :
  session_ok cfg (mk_session st live next) → session_ok cfg (mk_session (observe_refusal class st) live next).
Proof.
  intros [Hok Hb Hf Hc Hu]. cbn in *. destruct (observe_refusal_same class st) as (H1 & H2 & H3).
  apply session_ok_intro; try done.
  - rewrite H3. apply Hok.
  - intros c. by rewrite H1.
  - intros c u. by rewrite usage_counters_refusal.
  - intros c. rewrite H1, H2. pose proof (ok_charged _ _ Hok c). pose proof (ok_peak _ _ Hok c). lia.
  - intros c u. rewrite usage_counters_refusal. apply Hok.
Qed.

Lemma gov_ok_refusal cfg class st : gov_ok cfg st → gov_ok cfg (observe_refusal class st).
Proof.
  intros Hok. destruct (observe_refusal_same class st) as (H1 & H2 & H3).
  split; intros; rewrite ?H1, ?H2, ?H3, ?usage_counters_refusal; by apply Hok.
Qed.

Lemma session_covered cfg s h c : session_ok cfg s → se_live s !! h = Some c → covered (se_state s) c.
Proof.
  intros [_ Hb _ _ Hu] Hh. split; [by apply (Hb h)|]. rewrite Hu.
  pose proof (sum_live_member (usage_weight (ch_class c) (ch_usage c)) h c (se_live s)) as Hm.
  unfold usage_weight in Hm at 2. rewrite decide_True in Hm by done. apply Hm; [|done].
  eapply map_Forall_impl; [exact Hb|]. intros k d Hd. by apply usage_weight_nonneg.
Qed.

Lemma session_admission cfg s h c sc :
  session_ok cfg s → se_live s !! h = Some c → let scratch := k ← sc; se_live s !! k in
  admit_asserts c scratch = true → admission (se_state s) c scratch.
Proof.
  intros Hs Hh scratch Ha. split; [done|by eapply session_covered| |].
  - unfold scratch. destruct sc as [k|]; cbn; [|done]. destruct (se_live s !! k) as [d|] eqn:Hk; cbn; [|done].
    by eapply session_covered.
  - pose proof (so_charged _ _ Hs InFlight) as Hc. cbn in Hc. rewrite Hc. pose proof (so_bytes _ _ Hs) as Hb.
    assert (Hw : map_Forall (λ _ c, 0 ≤ weight InFlight c) (se_live s)).
    { eapply map_Forall_impl; [exact Hb|]. intros. by apply weight_nonneg. }
    unfold admit_asserts in Ha. apply andb_true_iff in Ha as [Ha Hsc].
    apply andb_true_iff in Ha as [Hcl%bool_decide_eq_true Hca].
    assert (Hwc : weight InFlight c = ch_bytes c) by (unfold weight; by rewrite decide_True).
    rewrite <- Hwc. destruct scratch as [d|] eqn:Hd; cbn.
    + destruct sc as [k|]; [|done]. unfold scratch in Hd. cbn in Hd.
      apply andb_true_iff in Hsc as [Hdc%bool_decide_eq_true Hdu%bool_decide_eq_true].
      assert (Hwd : weight InFlight d = ch_bytes d) by (unfold weight; by rewrite decide_True).
      rewrite <- Hwd. apply (sum_live_member2 _ h c k d); [done|done|done|]. intros ->.
      rewrite Hh in Hd. injection Hd as ->. by rewrite Hdu in Hca.
    + rewrite Z.add_0_r. by apply (sum_live_member _ h).
Qed.

(** The caller's part: amounts are [u64]s, and an admission is given a live
    in-flight cache charge and, at most, a scratch charge. *)
Definition op_ok (s : gov_session) (op : gov_op) : Prop :=
  match op with
  | OpReserve _ _ bytes => 0 ≤ bytes
  | OpReconcile _ actual => 0 ≤ actual
  | OpAdmit final scratch live resident =>
      0 ≤ live ∧ 0 ≤ default 0 resident ∧
      ∀ c, se_live s !! final = Some c → admit_asserts c (k ← scratch; se_live s !! k) = true
  | OpPromote _ | OpDrop _ => True
  end.

(** How a step moves the peaks. *)
Definition peaks_follow (st st' : MetadataGovernorState) : Prop :=
  ∀ class, peak class st' = Z.max (peak class st) (charged class st').

Lemma effect_peaks cfg st st' consumed produced : gov_effect cfg st st' consumed produced → peaks_follow st st'.
Proof. intros Hef class. apply Hef. Qed.

Lemma refusal_peaks cfg class st : gov_ok cfg st → peaks_follow st (observe_refusal class st).
Proof.
  intros Hok c. destruct (observe_refusal_same class st) as (H1 & H2 & _). rewrite H1, H2.
  pose proof (ok_peak _ _ Hok c). lia.
Qed.

Lemma same_peaks cfg st : gov_ok cfg st → peaks_follow st st.
Proof. intros Hok c. pose proof (ok_peak _ _ Hok c). lia. Qed.

Lemma update_charge cfg st live next h c c' st' :
  session_ok cfg (mk_session st live next) → live !! h = Some c → 0 ≤ ch_bytes c' →
  gov_effect cfg st st' [c] [c'] → session_ok cfg (mk_session st' (<[h := c']> live) next).
Proof.
  intros Hs Hh Hc' Hef. eapply session_effect; [exact Hs|exact Hef| | |].
  - apply map_Forall_insert_2; [done|apply Hs].
  - apply map_Forall_insert_2; [by apply (so_fresh _ _ Hs h c)|apply Hs].
  - intros f. rewrite (sum_live_update f h c c' live Hh). cbn. lia.
Qed.

Lemma fresh_lookup cfg st live next h : session_ok cfg (mk_session st live next) → next ≤ h → live !! h = None.
Proof.
  intros Hs Hle. destruct (live !! h) as [c|] eqn:Hh; [|done]. pose proof (so_fresh _ _ Hs h c Hh) as H. cbn in H. lia.
Qed.

(** The live charges after an admission. *)
Lemma admitted_live cfg st live next final fc fc' scratch ho st' consumed produced :
  session_ok cfg (mk_session st live next) → live !! final = Some fc →
  let sc := k ← scratch; live !! k in
  admit_asserts fc sc = true → gov_effect cfg st st' consumed produced → 0 ≤ ch_bytes fc' →
  0 ≤ ch_bytes (live_charge ho) → from_option (λ c, 0 ≤ ch_bytes c) True (resident_charge ho) →
  (∀ f, total f consumed = total f (fc :: option_list sc)) →
  (∀ f, total f produced = total f (fc' :: option_list (zeroed sc) ++ live_charge ho :: option_list (resident_charge ho))) →
  session_ok cfg (mk_session st' (add_handoff next ho (put_back scratch (zeroed sc) (<[final := fc']> live))) (next + 2)).
Proof.
  intros Hs Hh sc Ha Hef Hb1 Hb2 Hb3 Hcons Hprod. pose proof (so_bytes _ _ Hs) as Hb. pose proof (so_fresh _ _ Hs) as Hf.
  cbn in Hb, Hf. set (live1 := put_back scratch (zeroed sc) (<[final := fc']> live)).
  assert (H1 : map_Forall (λ _ c, 0 ≤ ch_bytes c) live1 ∧ map_Forall (λ h _, h < next) live1 ∧
    ∀ f, sum_live f live1 = sum_live f live - total f (fc :: option_list sc) + total f (fc' :: option_list (zeroed sc))).
  { unfold live1, sc in *. destruct scratch as [k|]; cbn [mbind option_bind put_back] in *.
    - destruct (live !! k) as [d|] eqn:Hk; cbn in *.
      + assert (Hne : final ≠ k).
        { intros ->. rewrite Hh in Hk. injection Hk as ->. unfold admit_asserts in Ha.
          apply andb_true_iff in Ha as [[_ Hca]%andb_true_iff [_ Hdu%bool_decide_eq_true]%andb_true_iff].
          by rewrite Hdu in Hca. }
        split_and!.
        * apply map_Forall_insert_2; [done|]. by apply map_Forall_insert_2.
        * apply map_Forall_insert_2; [by apply (Hf k d)|]. apply map_Forall_insert_2; [by apply (Hf final fc)|done].
        * intros f. rewrite (sum_live_update f k d) by by rewrite lookup_insert_ne.
          rewrite (sum_live_update f final fc) by done. lia.
      + split_and!; [by apply map_Forall_insert_2|apply map_Forall_insert_2; [by apply (Hf final fc)|done]|].
        intros f. rewrite (sum_live_update f final fc) by done. lia.
    - split_and!; [by apply map_Forall_insert_2|apply map_Forall_insert_2; [by apply (Hf final fc)|done]|].
      intros f. rewrite (sum_live_update f final fc) by done. cbn. lia. }
  destruct H1 as (Hb' & Hf' & Hsum).
  assert (Hnone : ∀ h, next ≤ h → live1 !! h = None).
  { intros h Hle. destruct (live1 !! h) as [c|] eqn:Hc; [|done]. specialize (Hf' h c Hc). cbn in Hf'. lia. }
  eapply session_effect; [exact Hs|exact Hef|..]; unfold add_handoff; destruct ho as [lc [rc|]]; cbn in *.
  1, 2: repeat apply map_Forall_insert_2; done.
  1, 2: repeat (apply map_Forall_insert_2; [lia|]); eapply map_Forall_impl; [exact Hf'|]; cbn; intros; lia.
  all: intros f; rewrite Hcons, Hprod.
  - rewrite sum_live_fresh by (rewrite lookup_insert_ne by lia; apply Hnone; lia).
    rewrite sum_live_fresh by (apply Hnone; lia). rewrite Hsum. destruct sc; cbn; lia.
  - rewrite sum_live_fresh by (apply Hnone; lia). rewrite Hsum. destruct sc; cbn; lia.
Qed.

Lemma admission_refusal st final scratch class :
  admission st final scratch → admission (observe_refusal class st) final scratch.
Proof.
  destruct (observe_refusal_same class st) as (H1 & _). specialize (H1 InFlight). cbn in H1.
  intros [A1 [A2 A3] A4 A5]. split; [done|split; [done|by rewrite usage_counters_refusal]| |by rewrite H1].
  destruct scratch as [d|]; [|done]. destruct A4 as [B1 B2]. split; [done|]. by rewrite usage_counters_refusal.
Qed.

Lemma gov_step_admit cfg st live next final scratch lb rb :
  limits_ok cfg → session_ok cfg (mk_session st live next) →
  op_ok (mk_session st live next) (OpAdmit final scratch lb rb) →
  ∃ s', gov_step cfg (mk_session st live next) (OpAdmit final scratch lb rb) = Some s' ∧
    session_ok cfg s' ∧ peaks_follow st (se_state s').
Proof.
  intros Hlim Hs (Hl & Hr & Ha). pose proof (so_gov _ _ Hs) as Hok. cbn in Hok. cbn [gov_step].
  destruct (live !! final) as [fc|] eqn:Hh; [|eexists; split; [done|]; split; [done|by eapply same_peaks]].
  specialize (Ha fc Hh). cbn [se_live] in Ha. set (sc := k ← scratch; live !! k) in *.
  pose proof (session_admission _ _ _ _ scratch Hs Hh Ha) as Had. cbn [se_live se_state] in Had. fold sc in Had.
  pose proof (so_bytes _ _ Hs final fc Hh) as Hfb. cbn in Hfb.
  unfold admit_cache_allocation. rewrite Ha. cbn [negb].
  assert (Htrans : ∀ st0, gov_ok cfg st0 → admission st0 fc sc → session_ok cfg (mk_session st0 live next) →
    peaks_follow st st0 → (∀ c, charged c st0 = charged c st) → ∃ s',
    ('(st, fc, sc, r) ← admit_transient cfg st0 fc sc lb;
     let live := put_back scratch sc (<[final := fc]> live) in
     Some (match r with
           | Ok ho => mk_session st (add_handoff next ho live) (next + 2)
           | Err _ => mk_session st live next
           end)) = Some s' ∧ session_ok cfg s' ∧ peaks_follow st (se_state s')).
  { intros st0 Hok0 Had0 Hs0 Hpk Hch. pose proof (admit_transient_spec cfg st0 fc sc lb Hok0 Hlim Had0 Hl) as Ht. cbn zeta in Ht.
    destruct (_ <=? _).
    - destruct Ht as (st' & -> & Hef). cbn [mbind option_bind]. eexists. split; [done|]. split.
      + eapply (admitted_live cfg st0 live next final fc fc scratch); try done.
      + intros class. cbn [se_state]. rewrite (ef_peak _ _ _ _ _ Hef), Hpk, Hch. pose proof (ok_peak _ _ Hok class). lia.
    - rewrite Ht. cbn [mbind option_bind]. eexists. split; [done|]. rewrite insert_id by done.
      assert (Hpb : put_back scratch sc live = live).
      { unfold put_back. destruct scratch as [k|]; [|done]. unfold sc. cbn.
        destruct (live !! k) as [d|] eqn:Hk; [by rewrite insert_id|done]. }
      rewrite Hpb. split; [by apply session_refusal|]. intros class. cbn [se_state].
      rewrite (refusal_peaks cfg InFlight st0 Hok0 class), Hpk, Hch.
      destruct (observe_refusal_same InFlight st0) as (H1 & _). rewrite !H1, Hch.
      pose proof (ok_peak _ _ Hok class). lia. }
  destruct rb as [rb|]; [|by apply Htrans; [..|by eapply same_peaks|]].
  pose proof (admit_retained_spec cfg st fc sc lb rb Hok Hlim Had Hl Hr) as Hret. cbn zeta in Hret.
  destruct (_ <=? _).
  - destruct Hret as (st' & -> & Hef). cbn [mbind option_bind]. eexists. split; [done|]. split; [|by eapply effect_peaks].
    eapply (admitted_live cfg st live next final fc); try done.
  - rewrite Hret. cbn [mbind option_bind]. destruct (observe_refusal_same Retained st) as (H1 & H2 & H3).
    apply Htrans; [by apply gov_ok_refusal| |by apply session_refusal|by eapply refusal_peaks|done].
    by apply admission_refusal.
Qed.

Lemma gov_step_spec cfg s op :
  limits_ok cfg → session_ok cfg s → op_ok s op →
  ∃ s', gov_step cfg s op = Some s' ∧ session_ok cfg s' ∧ peaks_follow (se_state s) (se_state s').
Proof.
  intros Hlim Hs Hop. destruct s as [st live next]. pose proof (so_gov _ _ Hs) as Hok. cbn in Hok.
  destruct op as [class usage bytes|h actual|h|final scratch lb rb|h]; cbn [gov_step].
  - unfold reserve. destruct (reserve_locked_spec cfg st class usage bytes Hok Hlim Hop)
      as [(st' & -> & _ & Hef)|[_ ->]]; cbn; eexists; (split; [done|]).
    + split; [|by eapply effect_peaks]. pose proof (fresh_lookup _ _ _ _ next Hs ltac:(lia)) as Hn.
      eapply session_effect; [exact Hs|exact Hef| | |].
      * apply map_Forall_insert_2; [done|apply Hs].
      * apply map_Forall_insert_2; [lia|]. eapply map_Forall_impl; [exact (so_fresh _ _ Hs)|]. cbn. intros; lia.
      * intros f. rewrite sum_live_fresh by done. cbn. lia.
    + split; [by apply session_refusal|by eapply refusal_peaks].
  - destruct (live !! h) as [c|] eqn:Hh; [|eexists; split; [done|]; split; [done|by eapply same_peaks]].
    destruct (reconcile_spec cfg st c actual Hok Hlim (session_covered _ _ _ _ Hs Hh) Hop)
      as [(st' & -> & Hef)|[_ [e ->]]]; cbn; eexists; (split; [done|]).
    + split; [|by eapply effect_peaks]. by eapply update_charge.
    + rewrite insert_id by done. split; [by apply session_refusal|by eapply refusal_peaks].
  - destruct (live !! h) as [c|] eqn:Hh; [|eexists; split; [done|]; split; [done|by eapply same_peaks]].
    destruct (promote_spec cfg st c Hok Hlim (session_covered _ _ _ _ Hs Hh))
      as [(st' & -> & Hef)|(_ & _ & ->)]; cbn; eexists; (split; [done|]).
    + split; [|by eapply effect_peaks]. eapply update_charge; [done|done| |done]. cbn. by apply (so_bytes _ _ Hs h).
    + rewrite insert_id by done. split; [by apply session_refusal|by eapply refusal_peaks].
  - by apply gov_step_admit.
  - destruct (live !! h) as [c|] eqn:Hh; [|eexists; split; [done|]; split; [done|by eapply same_peaks]].
    pose proof (session_covered _ _ _ _ Hs Hh) as Hcov. unfold charge_drop.
    destruct (release_locked_spec cfg st _ _ _ Hok Hcov) as (st' & -> & Hef). cbn. eexists. split; [done|].
    split; [|by eapply effect_peaks]. eapply session_effect; [exact Hs|exact Hef| | |].
    + apply map_Forall_delete, Hs.
    + apply map_Forall_delete, Hs.
    + intros f. rewrite (sum_live_delete f h c live Hh). destruct c. cbn. lia.
Qed.

(** ** Theorems *)

Definition gov_new (config : MetadataGovernorConfig)
    : result MetadataGovernorConfigError (MetadataGovernorConfig * gov_session) :=
  cfg ← config_validate config; Ok (cfg, gov_start).

(** The caller keeps its part along the execution. *)
Fixpoint contract (cfg : MetadataGovernorConfig) (s : gov_session) (ops : list gov_op) : Prop :=
  match ops with
  | [] => True
  | op :: ops => op_ok s op ∧ ∀ s', gov_step cfg s op = Some s' → contract cfg s' ops
  end.

Definition highest (class : MetadataChargeClass) (states : list MetadataGovernorState) : Z :=
  foldr (λ st m, Z.max (charged class st) m) 0 states.

Lemma session_ok_start cfg : limits_ok cfg → session_ok cfg gov_start.
Proof.
  intros Hlim. assert (Hu : ∀ u, usage_counters u gov_default = counters_default).
  { intros u. unfold usage_counters. cbn [gs_usage gov_default]. by destruct u as [| | |[]]. }
  apply session_ok_intro.
  - done.
  - apply map_Forall_empty.
  - apply map_Forall_empty.
  - intros []; by rewrite sum_live_empty.
  - intros class u. rewrite Hu, sum_live_empty. by destruct class.
  - intros class. pose proof (Hlim class). destruct class; cbn in *; lia.
  - intros class u. rewrite Hu. by destruct class.
Qed.

Lemma gov_run_spec cfg ops : ∀ s,
  limits_ok cfg → session_ok cfg s → contract cfg s ops →
  ∃ s' rest, gov_run cfg s ops = Some (s', se_state s :: rest) ∧ session_ok cfg s' ∧
    ∀ class, Z.max (peak class (se_state s)) (highest class (se_state s :: rest)) = peak class (se_state s').
Proof.
  induction ops as [|op ops IH]; intros s Hlim Hs Hc; cbn [gov_run].
  { do 2 eexists. split; [done|]. split; [done|]. intros class. cbn. pose proof (ok_peak _ _ (so_gov _ _ Hs) class).
    pose proof (ok_charged _ _ (so_gov _ _ Hs) class). lia. }
  destruct Hc as [Hop Hc]. destruct (gov_step_spec cfg s op Hlim Hs Hop) as (s1 & Hstep & Hs1 & Hpk).
  rewrite Hstep. cbn [mbind option_bind]. destruct (IH s1 Hlim Hs1 (Hc s1 Hstep)) as (s2 & rest & -> & Hs2 & Hhi).
  cbn [mbind option_bind]. do 2 eexists. split; [done|]. split; [done|]. intros class. rewrite <- (Hhi class), (Hpk class).
  cbn [highest foldr]. pose proof (ok_peak _ _ (so_gov _ _ Hs) class). lia.
Qed.

(** C22: the governor's books balance.  From a new governor, any operations,
    refused ones included, run without a panic as long as admissions are given
    the charges they ask for; afterwards each budget's total is the sum of the
    live charges and within its limit, each usage class holds its share, the
    peak is the highest total there ever was, and with no charge left the
    totals are zero. *)
Theorem governor_accounts config cfg s0 ops :
  gov_new config = Ok (cfg, s0) → limits_ok config → contract cfg s0 ops →
  ∃ s rest, gov_run cfg s0 ops = Some (s, se_state s0 :: rest) ∧
    (∀ class, charged class (se_state s) = sum_live (weight class) (se_live s) ∧
       0 ≤ charged class (se_state s) ≤ limit cfg class ∧
       peak class (se_state s) = highest class (se_state s0 :: rest)) ∧
    (∀ class u, usage_charged class (usage_counters u (se_state s)) = sum_live (usage_weight class u) (se_live s)) ∧
    (∀ u, stats_lookup (stats_usage (se_state s)) u = Some (mk_usage_stats u (usage_counters u (se_state s)))) ∧
    (se_live s = ∅ → gs_retained_bytes (se_state s) = 0 ∧ gs_in_flight_bytes (se_state s) = 0).
Proof.
  intros Hnew Hlim Hc. unfold gov_new in Hnew. apply bind_ok in Hnew as (cfg' & Hv & Hnew). injection Hnew as -> <-.
  assert (cfg = config) as ->. { unfold config_validate in Hv. do 3 (destruct (_ : bool) in Hv; try done). by injection Hv. }
  destruct (gov_run_spec config ops gov_start Hlim (session_ok_start _ Hlim) Hc) as (s & rest & Hrun & Hs & Hhi).
  exists s, rest. split; [done|]. split; [|split; [apply Hs|split]].
  - intros class. split; [apply Hs|]. split; [apply (so_gov _ _ Hs)|]. rewrite <- Hhi.
    assert (peak class gov_default = 0) as Hp by by destruct class. cbn [se_state gov_start] in *. rewrite Hp.
    assert (0 ≤ charged class gov_default) by by destruct class. cbn [highest foldr]. lia.
  - intros u. unfold stats_lookup, stats_usage. by rewrite list_lookup_fmap, usage_order_lookup.
  - intros He. pose proof (so_charged _ _ Hs Retained) as H1. pose proof (so_charged _ _ Hs InFlight) as H2.
    rewrite He, sum_live_empty in H1, H2. done.
Qed.

(** C36: refusals are exact and change nothing but their counter.  Against live
    charges, a reservation, a growth or a promotion succeeds exactly when the
    budget covers it; a refusal reports the request, the total and the limit,
    and leaves the totals, the shares, the peaks and the charge as they were. *)
Theorem governor_refuses_exactly cfg s h c :
  limits_ok cfg → session_ok cfg s → se_live s !! h = Some c →
  let st := se_state s in
  (∀ class usage bytes, 0 ≤ bytes → ∃ st' r, reserve cfg st class usage bytes = Some (st', r) ∧
     (is_ok r = true ↔ charged class st + bytes ≤ limit cfg class) ∧
     (∀ e, r = Err e → st' = observe_refusal class st ∧
        e = mk_budget_error class bytes (charged class st) (limit cfg class))) ∧
  (∀ actual, 0 ≤ actual → ∃ st' c' r, reconcile cfg st c actual = Some (st', c', r) ∧
     (is_ok r = true ↔ charged (ch_class c) st - ch_bytes c + actual ≤ limit cfg (ch_class c)) ∧
     (∀ e, r = Err e → st' = observe_refusal (ch_class c) st ∧ c' = c)) ∧
  ∃ st' c' b, try_promote_to_retained cfg st c = Some (st', c', b) ∧
     (b = true → ch_class c' = Retained ∧ ch_bytes c' = ch_bytes c) ∧
     (b = false ↔ ch_class c = InFlight ∧ retained_max_bytes cfg < gs_retained_bytes st + ch_bytes c) ∧
     (b = false → st' = observe_refusal Retained st ∧ c' = c).
Proof.
  intros Hlim Hs Hh st. pose proof (so_gov _ _ Hs) as Hok. pose proof (session_covered _ _ _ _ Hs Hh) as Hcov.
  fold st in Hok, Hcov. split_and!.
  - intros class usage bytes Hb. unfold reserve. destruct (reserve_locked_spec cfg st class usage bytes Hok Hlim Hb)
      as [(st' & -> & Hfit & Hef)|[Hno ->]]; cbn; do 2 eexists; (split; [done|]); (split; [|naive_solver]).
    + done.
    + split; [done|lia].
  - intros actual Ha. destruct (reconcile_spec cfg st c actual Hok Hlim Hcov Ha)
      as [(st' & -> & Hef)|[Hno [e ->]]]; do 3 eexists; (split; [done|]); (split; [|naive_solver]).
    + split; [|done]. intros _. pose proof (ef_limit _ _ _ _ _ Hef (ch_class c)) as Hl.
      rewrite (ef_charged _ _ _ _ _ Hef) in Hl. cbn in Hl. unfold weight in Hl. cbn in Hl.
      rewrite !decide_True in Hl by done. lia.
    + split; [done|lia].
  - destruct (promote_spec cfg st c Hok Hlim Hcov) as [(st' & Hp & Hef)|(Hcl & Hno & ->)]; do 3 eexists.
    + split; [exact Hp|]. split; [done|]. split; [|done]. split; [done|]. intros [Hcl Hno]. exfalso.
      pose proof (ef_limit _ _ _ _ _ Hef Retained) as Hl. rewrite (ef_charged _ _ _ _ _ Hef) in Hl. cbn in Hl.
      unfold weight in Hl. cbn in Hl. rewrite Hcl, decide_False, decide_True in Hl by done. cbn in Hl. lia.
    + split; [done|]. by split_and!.
Qed.

(** The totals after each kind of admission. *)
Lemma transient_totals cfg st st' c sc live (P : Prop) :
  gov_effect cfg st st' (input_charges c sc) (transient_charges c sc live) → ch_class c = InFlight →
  (sc = None ∨ sc = Some (mk_charge InFlight Scratch (scratch_bytes sc)) ∧ P) →
  gs_retained_bytes st' = gs_retained_bytes st ∧
  gs_in_flight_bytes st' = gs_in_flight_bytes st - scratch_bytes sc + live.
Proof.
  intros Hef Hcl Hsc. pose proof (ef_charged _ _ _ _ _ Hef Retained) as HR.
  pose proof (ef_charged _ _ _ _ _ Hef InFlight) as HI. unfold input_charges, transient_charges, weight in *.
  cbn in HR, HI. rewrite Hcl in *.
  destruct Hsc as [->|[Hsc _]]; [|destruct sc as [[cl u b]|]; [|done]; injection Hsc as -> ->]; cbn in *;
    rewrite ?(decide_False (P := InFlight = Retained)), ?(decide_True (P := InFlight = InFlight)) in * by done; lia.
Qed.

Lemma retained_totals cfg st st' c sc live res (P : Prop) :
  gov_effect cfg st st' (input_charges c sc) (retained_charges c sc live res) → ch_class c = InFlight →
  (sc = None ∨ sc = Some (mk_charge InFlight Scratch (scratch_bytes sc)) ∧ P) →
  gs_retained_bytes st' = gs_retained_bytes st + (ch_bytes c + live + res) ∧
  gs_in_flight_bytes st' = gs_in_flight_bytes st - scratch_bytes sc + - ch_bytes c.
Proof.
  intros Hef Hcl Hsc. pose proof (ef_charged _ _ _ _ _ Hef Retained) as HR.
  pose proof (ef_charged _ _ _ _ _ Hef InFlight) as HI. unfold input_charges, retained_charges, weight in *.
  cbn in HR, HI. rewrite Hcl in *.
  destruct Hsc as [->|[Hsc _]]; [|destruct sc as [[cl u b]|]; [|done]; injection Hsc as -> ->]; cbn in *;
    rewrite ?(decide_False (P := InFlight = Retained)), ?(decide_False (P := Retained = InFlight)),
      ?(decide_True (P := InFlight = InFlight)), ?(decide_True (P := Retained = Retained)) in * by done; lia.
Qed.

(** What admission reports, given which budget had room. *)
Definition admission_result (cfg : MetadataGovernorConfig) (st : MetadataGovernorState) (c : MetadataCharge) (sc : option MetadataCharge)
    (live : Z) (resident : option Z) (retained_fits : bool)
    (out : MetadataGovernorState * MetadataCharge * option MetadataCharge * budget_result MetadataScratchHandoff)
    : Prop :=
  let '(st', c', sc', r) := out in
  (∀ ho, r = Ok ho →
     sc' = zeroed sc ∧ ch_bytes c' = ch_bytes c ∧
     ch_class c' = (if retained_fits then Retained else InFlight) ∧
     live_charge ho = mk_charge (ch_class c') (ch_usage c) live ∧
     resident_charge ho = (if retained_fits then mk_charge Retained (ch_usage c) <$> resident else None) ∧
     gs_retained_bytes st' = gs_retained_bytes st + (if retained_fits then ch_bytes c + live + default 0 resident else 0) ∧
     gs_in_flight_bytes st' = gs_in_flight_bytes st - scratch_bytes sc + (if retained_fits then - ch_bytes c else live)) ∧
  (∀ e, r = Err e → c' = c ∧ sc' = sc ∧ (∀ class, charged class st' = charged class st) ∧
     e = mk_budget_error InFlight live (gs_in_flight_bytes st - scratch_bytes sc) (in_flight_max_bytes cfg)).

(** The transient branch, entered with the state as it was or with one more
    refusal counted. *)
Lemma admit_transient_decides cfg st st0 c sc live resident :
  limits_ok cfg → 0 ≤ live → gov_ok cfg st0 → admission st0 c sc → ch_class c = InFlight →
  (∀ k, charged k st0 = charged k st) →
  ∃ st' c' sc' r, admit_transient cfg st0 c sc live = Some (st', c', sc', r) ∧
    is_ok r = (gs_in_flight_bytes st - scratch_bytes sc + live <=? in_flight_max_bytes cfg) ∧
    admission_result cfg st c sc live resident false (st', c', sc', r).
Proof.
  intros Hlim Hl Hok Had Hcl Hch. destruct (admission_shape _ _ _ Had) as (_ & _ & _ & _ & _ & Hsc).
  pose proof (admit_transient_spec cfg st0 c sc live Hok Hlim Had Hl) as Ht. cbn zeta in Ht.
  pose proof (Hch InFlight) as Hi. pose proof (Hch Retained) as Hre. cbn in Hi, Hre. rewrite Hi in Ht.
  destruct (_ <=? _).
  - destruct Ht as (st' & -> & Hef). do 4 eexists. split; [done|]. split; [done|]. split; [|done]. intros ho [= <-].
    destruct (transient_totals _ _ _ _ _ _ _ Hef Hcl Hsc) as [H1 H2]. cbn. rewrite Hcl. split_and!; try done; lia.
  - rewrite Ht. do 4 eexists. split; [done|]. split; [done|]. split; [done|]. intros e [= <-].
    split_and!; [done|done| |done]. intros k. rewrite <- Hch. by destruct k, st0.
Qed.

(** Admission chooses by the budgets.  With room for the value and its
    bookkeeping in the retained budget it moves all of it there and releases
    the scratch; otherwise, or when no residency was asked for, it keeps the
    value in flight and only adds the live charge, if the in-flight budget has
    room once the scratch is released; otherwise it fails, reporting the room
    there was, and leaves both totals and the input charges as they were. *)
Theorem admission_decides cfg s h c scratch live resident :
  limits_ok cfg → session_ok cfg s → se_live s !! h = Some c → 0 ≤ live → 0 ≤ default 0 resident →
  let st := se_state s in
  let sc := k ← scratch; se_live s !! k in
  admit_asserts c sc = true →
  let retained_fits := match resident with
    | Some r => gs_retained_bytes st + (ch_bytes c + live + r) <=? retained_max_bytes cfg | None => false end in
  let in_flight_fits := gs_in_flight_bytes st - scratch_bytes sc + live <=? in_flight_max_bytes cfg in
  ∃ st' c' sc' r, admit_cache_allocation cfg st c sc live resident = Some (st', c', sc', r) ∧
    is_ok r = retained_fits || in_flight_fits ∧
    admission_result cfg st c sc live resident retained_fits (st', c', sc', r).
Proof.
  intros Hlim Hs Hh Hl Hr st sc Ha. pose proof (so_gov _ _ Hs) as Hok. fold st in Hok.
  pose proof (session_admission _ _ _ _ scratch Hs Hh Ha) as Had. fold st sc in Had.
  destruct (admission_shape _ _ _ Had) as (Hcl & _ & _ & _ & _ & Hsc).
  unfold admit_cache_allocation. rewrite Ha. cbn [negb].
  destruct resident as [res|]; [|by apply admit_transient_decides].
  pose proof (admit_retained_spec cfg st c sc live res Hok Hlim Had Hl Hr) as Hret. cbn zeta in Hret.
  destruct (_ <=? retained_max_bytes cfg).
  - destruct Hret as (st' & -> & Hef). cbn [mbind option_bind]. do 4 eexists. split; [done|]. split; [done|]. split; [|done].
    intros ho [= <-]. destruct (retained_totals _ _ _ _ _ _ _ _ Hef Hcl Hsc) as [H1 H2]. split_and!; done || (cbn; lia).
  - rewrite Hret. cbn [mbind option_bind orb]. apply admit_transient_decides; try done.
    + by apply gov_ok_refusal.
    + by apply admission_refusal.
    + apply observe_refusal_same.
Qed.

(** *** At a concrete execution *)

(** The contract, decided along the run. *)
Definition op_okb (s : gov_session) (op : gov_op) : bool :=
  match op with
  | OpReserve _ _ bytes => 0 <=? bytes
  | OpReconcile _ actual => 0 <=? actual
  | OpAdmit final scratch live resident =>
      (0 <=? live) && (0 <=? default 0 resident) &&
      match se_live s !! final with
      | Some c => admit_asserts c (k ← scratch; se_live s !! k)
      | None => true
      end
  | OpPromote _ | OpDrop _ => true
  end.
Fixpoint contractb (cfg : MetadataGovernorConfig) (s : gov_session) (ops : list gov_op) : bool :=
  match ops with
  | [] => true
  | op :: ops => op_okb s op && match gov_step cfg s op with Some s' => contractb cfg s' ops | None => true end
  end.

Lemma contractb_contract cfg ops : ∀ s, contractb cfg s ops = true → contract cfg s ops.
Proof.
  induction ops as [|op ops IH]; intros s; cbn [contractb contract]; [done|].
  intros [Hop Hc]%andb_true_iff. split.
  - destruct op as [| | |f sc l r|]; cbn in *; try lia; try done.
    apply andb_true_iff in Hop as [[H1%Z.leb_le H2%Z.leb_le]%andb_true_iff Hop]. split_and!; [done|done|].
    intros c Hf. by rewrite Hf in Hop.
  - intros s' Hs. rewrite Hs in Hc. by apply IH.
Qed.

Definition sample_config : MetadataGovernorConfig := mk_config 100 120 4 2.
Definition sample_gov_ops : list gov_op :=
  [ OpReserve InFlight (Cache Postings) 60; OpReserve InFlight Scratch 40; OpReserve InFlight Unclassified 30;
    OpReconcile 0 50; OpReserve InFlight (Cache IndexPage) 25 ].
Definition sample_gov_session : gov_session :=
  match gov_run sample_config gov_start sample_gov_ops with Some (s, _) => s | None => gov_start end.

Lemma sample_limits : limits_ok sample_config.
Proof. intros []; cbn; lia. Qed.
Lemma sample_gov_session_ok : session_ok sample_config sample_gov_session.
Proof.
  destruct (gov_run_spec sample_config sample_gov_ops gov_start sample_limits (session_ok_start _ sample_limits))
    as (s & rest & Hrun & Hs & _); [apply contractb_contract; vm_compute; reflexivity|].
  unfold sample_gov_session. by rewrite Hrun.
Qed.

(** 60 and 40 fit, 30 does not; shrinking 60 to 50 makes room for 25; then the
    value of 50 is admitted with its bookkeeping, and the scratch is gone. *)
Lemma governor_accounts_witness :
  ∃ s rest, gov_run sample_config gov_start (sample_gov_ops ++ [OpAdmit 0 (Some 1) 5 (Some 7)])
      = Some (s, gov_default :: rest) ∧
    ∀ class, charged class (se_state s) = sum_live (weight class) (se_live s) ∧
      0 ≤ charged class (se_state s) ≤ limit sample_config class ∧
      peak class (se_state s) = highest class (gov_default :: rest).
Proof.
  destruct (governor_accounts sample_config sample_config gov_start (sample_gov_ops ++ [OpAdmit 0 (Some 1) 5 (Some 7)])
    eq_refl sample_limits) as (s & rest & Hrun & Hc & _);
    [apply contractb_contract; vm_compute; reflexivity|].
  exists s, rest. split; [exact Hrun|exact Hc].
Defined.

Lemma governor_refuses_exactly_witness :
  charged InFlight (se_state sample_gov_session) = 115 ∧
  ∃ st' r, reserve sample_config (se_state sample_gov_session) InFlight Scratch 6 = Some (st', r) ∧
    (is_ok r = true ↔ 115 + 6 ≤ 120).
Proof.
  split; [vm_compute; reflexivity|].
  assert (Hh : se_live sample_gov_session !! 0 = Some (mk_charge InFlight (Cache Postings) 50)) by (vm_compute; reflexivity).
  destruct (proj1 (governor_refuses_exactly sample_config sample_gov_session 0 _ sample_limits sample_gov_session_ok Hh)
    InFlight Scratch 6 ltac:(lia)) as (st' & r & Hr & Hok & _).
  exists st', r. split; [exact Hr|exact Hok].
Defined.

Lemma admission_decides_witness :
  let st := se_state sample_gov_session in
  let c := mk_charge InFlight (Cache Postings) 50 in
  ∃ st' c' sc' r, admit_cache_allocation sample_config st c (Some (mk_charge InFlight Scratch 40)) 5 (Some 7)
      = Some (st', c', sc', r) ∧ is_ok r = true.
Proof.
  intros st c.
  assert (Hh : se_live sample_gov_session !! 0 = Some c) by (vm_compute; reflexivity).
  destruct (admission_decides sample_config sample_gov_session 0 c (Some 1) 5 (Some 7) sample_limits
    sample_gov_session_ok Hh ltac:(lia) ltac:(cbn; lia) ltac:(vm_compute; reflexivity))
    as (st' & c' & sc' & r & Hr & Hok & _).
  exists st', c', sc', r. split; [exact Hr|]. rewrite Hok. vm_compute. reflexivity.
Defined.
