(* ===== verification/Sort.v ===== *)
(** * Stable sorting and deduplication by a key

    Rust's [slice::sort_by_key] (stable) and [Vec::dedup_by_key], and the equations
    that determine their results: a sorted list is determined by its sublists of
    equal keys, a strictly sorted one by the last element at each key. *)
From Stdlib Require Import Sorted.
From stdpp Require Import sorting.
From S2P Require Import Prelude.

(** ** Lists sorted by a strict order *)

Section strict.
Context {A : Type} (R : A → A → Prop).
Implicit Types l k : list A.

Lemma sorted_lookup_lt l i j x y : StronglySorted R l → l !! i = Some x → l !! j = Some y → (i < j)%nat → R x y.
Proof.
  intros Hl. revert i j. induction Hl as [|z l Hl IH Hz]; intros [|i] [|j] Hi Hj Hlt; try done || lia.
  - injection Hi as <-. apply (proj1 (Forall_forall _ _) Hz). by eapply list_elem_of_lookup_2.
  - by apply (IH i j); [..|lia].
Qed.
(** It is determined by its elements. *)
Lemma strict_sorted_eq l k :
  (∀ x, ¬ R x x) → (∀ x y z, R x y → R y z → R x z) →
  StronglySorted R l → StronglySorted R k → (∀ x, x ∈ l ↔ x ∈ k) → l = k.
Proof.
  intros Hirr Htrans Hl. revert k. induction Hl as [|x l Hl IH Hx]; intros k Hk Heq.
  { destruct k as [|y k]; [done|]. destruct (not_elem_of_nil y). apply Heq. left. }
  destruct Hk as [|y k Hk Hy]; [destruct (not_elem_of_nil x); apply Heq; left|].
  rewrite Forall_forall in Hx, Hy. assert (x = y) as ->.
  { pose proof (proj1 (Heq x) ltac:(left)) as [?|H1]%elem_of_cons; [done|].
    pose proof (proj2 (Heq y) ltac:(left)) as [?|H2]%elem_of_cons; [done|].
    exfalso. apply (Hirr x), (Htrans _ y); [by apply Hx|by apply Hy]. }
  f_equal. apply IH; [done|]. intros z. specialize (Heq z). rewrite !elem_of_cons in Heq. split; intros Hz.
  - assert (z = y ∨ z ∈ k) as [->|?] by (apply Heq; by right); [|done]. by destruct (Hirr y); apply Hx.
  - assert (z = y ∨ z ∈ l) as [->|?] by (apply Heq; by right); [|done]. by destruct (Hirr y); apply Hy.
Qed.
End strict.

Lemma StronglySorted_impl {A} (R S : A → A → Prop) l : (∀ x y, R x y → S x y) → StronglySorted R l → StronglySorted S l.
Proof. intros Hi. induction 1 as [|x l _ IH Hx]; constructor; [done|]. eapply Forall_impl; [exact Hx|]. apply Hi. Qed.

Section sort.
Context {A : Type} (key : A → Z).
Implicit Types (l k : list A) (x y : A) (n : Z).

Fixpoint insert_by_key x l : list A :=
  match l with
  | [] => [x]
  | y :: l' => if key x <=? key y then x :: l else y :: insert_by_key x l'
  end.
Definition sort_by_key l : list A := foldr insert_by_key [] l.

(** Runs of equal keys keep their first element. *)
Fixpoint dedup_after n l : list A :=
  match l with
  | [] => []
  | x :: l => if key x =? n then dedup_after n l else x :: dedup_after (key x) l
  end.
Definition dedup_by_key l : list A :=
  match l with [] => [] | x :: l => x :: dedup_after (key x) l end.

Definition key_le x y : Prop := key x ≤ key y.
Definition key_lt x y : Prop := key x < key y.
Definition at_key n l : list A := filter (λ x, key x = n) l.
Definition sorted l : Prop := StronglySorted key_le l.
Definition ascending l : Prop := StronglySorted key_lt l.

Lemma at_key_cons n x l : at_key n (x :: l) = if decide (key x = n) then x :: at_key n l else at_key n l.
Proof. unfold at_key. by rewrite filter_cons. Qed.
Lemma at_key_app n l k : at_key n (l ++ k) = at_key n l ++ at_key n k.
Proof. unfold at_key. by rewrite filter_app. Qed.
Lemma at_key_hit n x l : key x = n → at_key n (x :: l) = x :: at_key n l.
Proof. intros Hx. rewrite at_key_cons. by rewrite decide_True. Qed.
Lemma at_key_miss n x l : key x ≠ n → at_key n (x :: l) = at_key n l.
Proof. intros Hx. rewrite at_key_cons. by rewrite decide_False. Qed.
Lemma at_key_nil n l : Forall (λ x, key x ≠ n) l → at_key n l = [].
Proof. induction 1 as [|x l Hx _ IH]; [done|]. by rewrite at_key_miss. Qed.

(** ** Sorting *)

Lemma insert_perm x l : insert_by_key x l ≡ₚ x :: l.
Proof.
  induction l as [|y l IH]; cbn; [done|]. destruct (_ <=? _); [done|]. rewrite IH. apply perm_swap.
Qed.
Lemma sort_perm l : sort_by_key l ≡ₚ l.
Proof. induction l as [|x l IH]; [done|]. cbn. fold (sort_by_key l). by rewrite insert_perm, IH. Qed.

Lemma insert_sorted x l : sorted l → sorted (insert_by_key x l).
Proof.
  unfold sorted. induction 1 as [|y l Hl IH Hy]; cbn; [repeat constructor|].
  destruct (Z.leb_spec (key x) (key y)).
  - constructor; [by constructor|]. constructor; [done|]. eapply Forall_impl; [exact Hy|]. unfold key_le. intros; lia.
  - constructor; [done|]. rewrite insert_perm. constructor; [|done]. unfold key_le. lia.
Qed.
Lemma sort_sorted l : sorted (sort_by_key l).
Proof. induction l as [|x l IH]; [constructor|]. by apply insert_sorted. Qed.

Lemma insert_stable n x l : at_key n (insert_by_key x l) = at_key n (x :: l).
Proof.
  induction l as [|y l IH]; [done|]. cbn [insert_by_key].
  destruct (Z.leb_spec (key x) (key y)); [done|]. rewrite at_key_cons, IH, !at_key_cons.
  repeat case_decide; [lia|done..].
Qed.
Lemma sort_stable n l : at_key n (sort_by_key l) = at_key n l.
Proof.
  induction l as [|x l IH]; [done|]. change (sort_by_key (x :: l)) with (insert_by_key x (sort_by_key l)).
  by rewrite insert_stable, !at_key_cons, IH.
Qed.

(** Equal at every key and sorted: equal. *)
Lemma sorted_eq l k : sorted l → sorted k → (∀ n, at_key n l = at_key n k) → l = k.
Proof.
  intros Hl. revert k. induction Hl as [|x l Hl IH Hx]; intros k Hk Heq.
  { destruct k as [|y k]; [done|]. specialize (Heq (key y)). by rewrite at_key_hit in Heq. }
  destruct k as [|y k].
  { specialize (Heq (key x)). by rewrite at_key_hit in Heq. }
  inversion Hk as [|? ? Hk' Hy]; subst.
  assert (key x = key y) as Hxy.
  { pose proof (Heq (key x)) as H1. pose proof (Heq (key y)) as H2.
    rewrite at_key_hit in H1 by done. rewrite (at_key_hit _ y) in H2 by done.
    assert (x ∈ at_key (key x) (y :: k)) as Hin1 by (rewrite <- H1; left).
    assert (y ∈ at_key (key y) (x :: l)) as Hin2 by (rewrite H2; left).
    apply list_elem_of_filter in Hin1 as [_ [Hin1|Hin1]%elem_of_cons]; [by subst|].
    apply list_elem_of_filter in Hin2 as [_ [Hin2|Hin2]%elem_of_cons]; [by subst|].
    pose proof (proj1 (Forall_forall _ _) Hy x Hin1). pose proof (proj1 (Forall_forall _ _) Hx y Hin2).
    unfold key_le in *. lia. }
  pose proof (Heq (key x)) as H1. rewrite !at_key_hit in H1 by done. injection H1 as -> _. f_equal.
  apply IH; [done|]. intros n. specialize (Heq n). rewrite !at_key_cons in Heq. case_decide; congruence.
Qed.

Lemma sort_unique l k : sorted k → (∀ n, at_key n k = at_key n l) → sort_by_key l = k.
Proof. intros Hk Heq. apply sorted_eq; [apply sort_sorted|done|]. intros n. by rewrite sort_stable, Heq. Qed.
Lemma sort_id l : sorted l → sort_by_key l = l.
Proof. intros Hl. by apply sort_unique. Qed.

Lemma sorted_filter (P : A → Prop) `{!∀ x, Decision (P x)} l : sorted l → sorted (filter P l).
Proof.
  induction 1 as [|x l Hl IH Hx]; [constructor|]. rewrite filter_cons. case_decide; [|done].
  constructor; [done|]. apply Forall_forall. intros y [_ Hy]%list_elem_of_filter. by eapply Forall_forall in Hx.
Qed.
Lemma at_key_filter (P : A → Prop) `{!∀ x, Decision (P x)} n l : at_key n (filter P l) = filter P (at_key n l).
Proof. unfold at_key. rewrite !list_filter_filter. apply list_filter_iff. tauto. Qed.
Lemma sort_filter (P : A → Prop) `{!∀ x, Decision (P x)} l : sort_by_key (filter P l) = filter P (sort_by_key l).
Proof.
  apply sort_unique; [apply sorted_filter, sort_sorted|]. intros n. by rewrite !at_key_filter, sort_stable.
Qed.
Lemma sort_app l k : sort_by_key (sort_by_key l ++ k) = sort_by_key (l ++ k).
Proof. apply sort_unique; [apply sort_sorted|]. intros n. by rewrite sort_stable, !at_key_app, sort_stable. Qed.

(** ** Strictly sorted lists *)

Lemma ascending_sorted l : ascending l → sorted l.
Proof.
  unfold ascending, sorted. induction 1 as [|x l Hl IH Hx]; constructor; [done|].
  eapply Forall_impl; [exact Hx|]. unfold key_lt, key_le. intros; lia.
Qed.

(** At most one element at each key. *)
Lemma ascending_at l n : ascending l → at_key n l = [] ∨ ∃ x, at_key n l = [x].
Proof.
  induction 1 as [|x l Hl IH Hx]; [by left|]. rewrite at_key_cons. case_decide as Hn; [|done]. right.
  exists x. f_equal. apply at_key_nil. eapply Forall_impl; [exact Hx|]. unfold key_lt. cbn. intros; lia.
Qed.
Lemma ascending_eq l k : ascending l → ascending k → (∀ n, last (at_key n l) = last (at_key n k)) → l = k.
Proof.
  intros Hl Hk Heq. apply sorted_eq; [by apply ascending_sorted..|]. intros n. specialize (Heq n).
  destruct (ascending_at l n Hl) as [H1|[x H1]], (ascending_at k n Hk) as [H2|[y H2]];
    rewrite H1, H2 in *; cbn in Heq; congruence.
Qed.

(** ** Deduplication *)

(** The run structure: reading off the first of every key in a sorted list. *)
Lemma dedup_after_spec n l :
  sorted l → Forall (λ x, n ≤ key x) l →
  ascending (dedup_after n l) ∧ Forall (λ x, n < key x) (dedup_after n l) ∧
  ∀ m, m ≠ n → head (at_key m (dedup_after n l)) = head (at_key m l).
Proof.
  intros Hl. revert n. induction Hl as [|x l Hl IH Hx]; intros n Hn.
  { cbn. split_and!; [constructor|constructor|done]. }
  apply Forall_cons_1 in Hn as [Hnx Hn]. cbn [dedup_after]. destruct (Z.eqb_spec (key x) n) as [Heq|Hne].
  - destruct (IH n Hn) as (H1 & H2 & H3). split_and!; [done|done|]. intros m Hm. rewrite H3 by done.
    by rewrite at_key_miss by congruence.
  - destruct (IH (key x) Hx) as (H1 & H2 & H3). split_and!.
    + by constructor.
    + constructor; [lia|]. eapply Forall_impl; [exact H2|]. cbn. intros; lia.
    + intros m Hm. rewrite !at_key_cons. case_decide; [done|]. by apply H3.
Qed.
Lemma dedup_spec l :
  sorted l → ascending (dedup_by_key l) ∧ ∀ n, head (at_key n (dedup_by_key l)) = head (at_key n l).
Proof.
  intros Hl. destruct Hl as [|x l Hl Hx]; [split; [constructor|done]|].
  destruct (dedup_after_spec (key x) l Hl Hx) as (H1 & H2 & H3). cbn [dedup_by_key].
  split; [by constructor|]. intros n. rewrite !at_key_cons. case_decide; [done|]. apply H3. congruence.
Qed.

End sort.

Lemma filter_fmap {A B} (P : B → Prop) (Q : A → Prop) `{!∀ x, Decision (P x)} `{!∀ x, Decision (Q x)} (f : A → B)
    (l : list A) : (∀ x, P (f x) ↔ Q x) → filter P (f <$> l) = f <$> filter Q l.
Proof.
  intros Hpq. induction l as [|x l IH]; [done|]. rewrite fmap_cons, !filter_cons, IH. specialize (Hpq x).
  repeat case_decide; (done || tauto).
Qed.

(** A map that keeps the key. *)
Lemma sort_fmap {A B} (key : A → Z) (key' : B → Z) (f : A → B) l :
  (∀ x, key' (f x) = key x) → sort_by_key key' (f <$> l) = f <$> sort_by_key key l.
Proof.
  intros Hf. induction l as [|x l IH]; [done|]. rewrite fmap_cons.
  change (sort_by_key key' (f x :: (f <$> l))) with (insert_by_key key' (f x) (sort_by_key key' (f <$> l))).
  change (sort_by_key key (x :: l)) with (insert_by_key key x (sort_by_key key l)). rewrite IH. clear IH.
  induction (sort_by_key key l) as [|y k IH]; [done|]. rewrite fmap_cons. cbn. rewrite !Hf.
  destruct (_ <=? _); [done|]. by rewrite fmap_cons, IH.
Qed.

(** The reverse of a list sorted by a key is sorted by its negation. *)
Section rev_sort.
Context {A : Type} (key : A → Z).
Implicit Types l : list A.

Lemma at_key_reverse n l : at_key key n (reverse l) = reverse (at_key key n l).
Proof.
  induction l as [|x l IH]; [done|]. rewrite reverse_cons, at_key_app, IH, !at_key_cons.
  case_decide; [by rewrite reverse_cons|]. apply app_nil_r.
Qed.
Lemma at_key_opp n l : at_key (λ x, - key x) n l = at_key key (- n) l.
Proof. apply list_filter_iff. intros x. lia. Qed.
Lemma StronglySorted_reverse (R S : A → A → Prop) l :
  (∀ x y, R x y → S y x) → StronglySorted R l → StronglySorted S (reverse l).
Proof.
  intros HRS. induction 1 as [|x l Hl IH Hx]; [constructor|]. rewrite reverse_cons.
  apply StronglySorted_app. split_and!; [|done|repeat constructor].
  intros y z Hy ->%list_elem_of_singleton. rewrite elem_of_reverse in Hy. apply HRS.
  by apply (proj1 (Forall_forall _ _) Hx).
Qed.
Lemma dedup_opp l : dedup_by_key (λ x, - key x) l = dedup_by_key key l.
Proof.
  destruct l as [|x l]; [done|]. cbn. f_equal. generalize (key x). clear x.
  induction l as [|x l IH]; intros n; [done|]. cbn. rewrite IH, (IH (key x)).
  destruct (Z.eqb_spec (- key x) (- n)), (Z.eqb_spec (key x) n); (done || lia).
Qed.

(** [reverse], [dedup_by_key], [reverse] keeps the last of every key. *)
Lemma dedup_last_spec l :
  sorted key l → let r := reverse (dedup_by_key key (reverse l)) in
  ascending key r ∧ ∀ n, last (at_key key n r) = last (at_key key n l).
Proof.
  intros Hl. cbv zeta. rewrite <- dedup_opp.
  destruct (dedup_spec (λ x, - key x) (reverse l)) as [H1 H2].
  { eapply StronglySorted_reverse; [|exact Hl]. unfold key_le. intros; lia. }
  split; [eapply StronglySorted_reverse; [|exact H1]; unfold key_lt; intros; lia|].
  intros n. rewrite at_key_reverse, last_reverse. specialize (H2 (- n)). rewrite !at_key_opp, Z.opp_involutive in H2.
  by rewrite H2, at_key_reverse, head_reverse.
Qed.
End rev_sort.

(** ** Sorting by a comparison

    [slice::sort_by] is stable too. *)

Definition then_with (c d : comparison) : comparison := match c with Eq => d | _ => c end.

Section sort_by.
Context {A : Type} (cmp : A → A → comparison).
Implicit Types (l k : list A) (x y : A).

Fixpoint insert_by x l : list A :=
  match l with
  | [] => [x]
  | y :: l' => match cmp x y with Gt => y :: insert_by x l' | _ => x :: l end
  end.
Definition sort_by l : list A := foldr insert_by [] l.

Definition cmp_le x y : Prop := cmp x y ≠ Gt.

Class TotalOrder : Prop := {
  cmp_antisym x y : cmp y x = CompOpp (cmp x y);
  cmp_trans x y z : cmp_le x y → cmp_le y z → cmp_le x z;
}.

Lemma insert_by_perm x l : insert_by x l ≡ₚ x :: l.
Proof. induction l as [|y l IH]; cbn; [done|]. destruct (cmp x y); [done|done|]. rewrite IH. apply perm_swap. Qed.
Lemma sort_by_perm l : sort_by l ≡ₚ l.
Proof. induction l as [|x l IH]; [done|]. cbn. by rewrite insert_by_perm, IH. Qed.

Context `{!TotalOrder}.

Lemma insert_by_sorted x l : StronglySorted cmp_le l → StronglySorted cmp_le (insert_by x l).
Proof.
  induction 1 as [|y l Hl IH Hy]; cbn; [by repeat constructor|].
  assert (cmp_le x y → StronglySorted cmp_le (x :: y :: l)) as Hfront.
  { intros Hc. constructor; [by constructor|]. constructor; [done|]. eapply Forall_impl; [exact Hy|]. intros z. by apply cmp_trans. }
  unfold cmp_le in Hfront. destruct (cmp x y) eqn:Hc; [by apply Hfront..|]. constructor; [done|].
  rewrite insert_by_perm. constructor; [|done]. unfold cmp_le. by rewrite cmp_antisym, Hc.
Qed.
Lemma sort_by_sorted l : StronglySorted cmp_le (sort_by l).
Proof. induction l as [|x l IH]; [constructor|]. by apply insert_by_sorted. Qed.

(** Elements that compare equal stay in their order. *)
Lemma insert_by_stable z x l : filter (λ y, cmp z y = Eq) (insert_by x l) = filter (λ y, cmp z y = Eq) (x :: l).
Proof.
  induction l as [|y l IH]; [done|]. cbn [insert_by]. destruct (cmp x y) eqn:Hc; [done|done|].
  rewrite filter_cons, IH, !filter_cons. destruct (decide (cmp z y = Eq)) as [Hy|], (decide (cmp z x = Eq)) as [Hx|]; try done.
  assert (cmp x z = Eq) as Hxz by by rewrite cmp_antisym, Hx.
  assert (cmp_le x y) as []; [|done]. apply (cmp_trans x z y); unfold cmp_le; by rewrite ?Hxz, ?Hy.
Qed.
Lemma sort_by_stable z l : filter (λ y, cmp z y = Eq) (sort_by l) = filter (λ y, cmp z y = Eq) l.
Proof.
  induction l as [|x l IH]; [done|]. change (sort_by (x :: l)) with (insert_by x (sort_by l)).
  by rewrite insert_by_stable, !filter_cons, IH.
Qed.
End sort_by.

#[export] Instance key_order {A} (key : A → Z) : TotalOrder (λ x y, key x ?= key y).
Proof. split; intros; [by rewrite Z.compare_antisym|]. unfold cmp_le in *. rewrite Z.compare_gt_iff in *. lia. Qed.
#[export] Instance then_with_order {A} (f g : A → A → comparison) : TotalOrder f → TotalOrder g → TotalOrder (λ x y, then_with (f x y) (g x y)).
Proof.
  intros Hf Hg. split.
  - intros x y. rewrite (cmp_antisym f x y), (cmp_antisym g x y). by destruct (f x y).
  - intros x y z. unfold cmp_le. intros Hxy Hyz. assert (cmp_le f x y) as Fxy by (unfold cmp_le; by destruct (f x y)).
    assert (cmp_le f y z) as Fyz by (unfold cmp_le; by destruct (f y z)). pose proof (cmp_trans f x y z Fxy Fyz) as Fxz.
    unfold cmp_le in Fxz. destruct (f x z) eqn:Hxz; [|done|done]. cbn [then_with].
    assert (cmp_le f z x) as Fzx by (unfold cmp_le; by rewrite (cmp_antisym f x z), Hxz).
    pose proof (cmp_trans f y z x Fyz Fzx) as Fyx. pose proof (cmp_trans f z x y Fzx Fxy) as Fzy. unfold cmp_le in *.
    rewrite (cmp_antisym f x y) in Fyx. rewrite (cmp_antisym f y z) in Fzy.
    destruct (f x y), (f y z); try done. by apply (cmp_trans g x y z).
Qed.
