(* ===== verification/Text.v ===== *)
(** * Strings

    A Rust [str] is its UTF-8 bytes, so its length is [zlen], its order is the
    order of the bytes and [as_bytes] is the identity; [from_utf8] is the check of
    the standard library.  Below that check: the parts of [str] and of decimal
    formatting and parsing that file and directory names go through. *)
From S2P Require Import Prelude.

Abbreviation str := (list Z).

(** ** UTF-8 *)

Definition in_range (lo hi b : Z) : bool := (lo <=? b) && (b <=? hi).
Definition continuation (b : Z) : bool := in_range 0x80 0xBF b.

(** [core::str::validations::run_utf8_validation]. *)
Fixpoint utf8_valid (s : list Z) : bool :=
  match s with
  | [] => true
  | b :: s1 =>
      if b <? 0x80 then utf8_valid s1
      else match s1 with
      | [] => false
      | c :: s2 =>
          if in_range 0xC2 0xDF b then continuation c && utf8_valid s2
          else match s2 with
          | [] => false
          | d :: s3 =>
              if in_range 0xE0 0xEF b then
                in_range (if b =? 0xE0 then 0xA0 else 0x80) (if b =? 0xED then 0x9F else 0xBF) c &&
                continuation d && utf8_valid s3
              else match s3 with
              | [] => false
              | e :: s4 =>
                  in_range 0xF0 0xF4 b &&
                  in_range (if b =? 0xF0 then 0x90 else 0x80) (if b =? 0xF4 then 0x8F else 0xBF) c &&
                  continuation d && continuation e && utf8_valid s4
              end
          end
      end
  end.

Definition from_utf8 (s : list Z) : option str := if utf8_valid s then Some s else None.

(** What every [String] satisfies. *)
Definition is_str (s : str) : Prop := bytes s ∧ utf8_valid s = true ∧ vec_ok s.

Lemma from_utf8_str s : is_str s → from_utf8 s = Some s.
Proof. intros (_ & Hu & _). unfold from_utf8. by rewrite Hu. Qed.
Lemma from_utf8_inv s t : from_utf8 s = Some t → t = s ∧ utf8_valid s = true.
Proof. unfold from_utf8. destruct (utf8_valid s) eqn:Hu; [|done]. intros [= <-]. done. Qed.

(** The code's literals, and everything printed below, are ASCII. *)
Definition ascii (s : str) : Prop := Forall (λ b, 0 ≤ b < 0x80) s.
Definition asciib (s : str) : bool := forallb (in_range 0 0x7F) s.
Lemma asciib_ascii s : asciib s = true → ascii s.
Proof.
  intros Hs. apply Forall_forall. intros b Hb. unfold asciib in Hs. rewrite forallb_forall in Hs.
  apply list_elem_of_In, Hs, andb_true_iff in Hb as [H1%Z.leb_le H2%Z.leb_le]. lia.
Qed.
Lemma ascii_utf8 s : ascii s → utf8_valid s = true.
Proof. induction 1 as [|b s Hb Hs IH]; [done|]. cbn [utf8_valid]. by rewrite (proj2 (Z.ltb_lt _ _)) by lia. Qed.
Lemma ascii_bytes s : ascii s → bytes s.
Proof. intros Hs. eapply Forall_impl; [exact Hs|]. unfold is_byte. cbn. lia. Qed.

Lemma ascii_str s : ascii s → vec_ok s → is_str s.
Proof. intros. split_and!; [by apply ascii_bytes|by apply ascii_utf8|done]. Qed.

(** Lexicographic order, [Ord for str]. *)
Fixpoint str_compare (s t : str) : comparison :=
  match s, t with
  | [], [] => Eq
  | [], _ => Lt
  | _, [] => Gt
  | a :: s, b :: t => match a ?= b with Eq => str_compare s t | c => c end
  end.

Lemma str_compare_eq s t : str_compare s t = Eq ↔ s = t.
Proof.
  revert t. induction s as [|a s IH]; intros [|b t]; cbn; try done.
  destruct (Z.compare_spec a b) as [->|Hab|Hab].
  - rewrite IH. naive_solver.
  - split; [done|]. intros [= -> _]. lia.
  - split; [done|]. intros [= -> _]. lia.
Qed.
Lemma str_compare_antisym s t : str_compare t s = CompOpp (str_compare s t).
Proof.
  revert t. induction s as [|a s IH]; intros [|b t]; cbn; try done.
  rewrite (Z.compare_antisym a b). destruct (a ?= b); cbn; [apply IH|done|done].
Qed.
Lemma str_compare_trans s t u : str_compare s t = Lt → str_compare t u = Lt → str_compare s u = Lt.
Proof.
  revert t u. induction s as [|a s IH]; intros [|b t] [|c u]; cbn; try done.
  destruct (Z.compare_spec a b) as [->|Hab|Hab], (Z.compare_spec b c) as [->|Hbc|Hbc];
    intros H1 H2; try done; [by eapply IH|..].
  - by rewrite (proj2 (Z.compare_lt_iff _ _) Hab).
  - assert (a < c) as Hac by lia. by rewrite (proj2 (Z.compare_lt_iff _ _) Hac).
Qed.

(** ** Prefixes, suffixes, splitting, trimming *)

Fixpoint strip_prefix (p s : str) : option str :=
  match p, s with
  | [], _ => Some s
  | a :: p, b :: s => if a =? b then strip_prefix p s else None
  | _ :: _, [] => None
  end.
Definition strip_suffix (p s : str) : option str := reverse <$> strip_prefix (reverse p) (reverse s).
Definition starts_with (p s : str) : bool := bool_decide (is_Some (strip_prefix p s)).

Lemma strip_prefix_Some p s t : strip_prefix p s = Some t ↔ s = p ++ t.
Proof.
  revert s. induction p as [|a p IH]; intros [|b s]; cbn; [naive_solver..|].
  destruct (Z.eqb_spec a b) as [->|Hne]; [rewrite IH|]; naive_solver.
Qed.
Lemma strip_suffix_Some p s t : strip_suffix p s = Some t ↔ s = t ++ p.
Proof.
  unfold strip_suffix. rewrite fmap_Some. setoid_rewrite strip_prefix_Some. split.
  - intros (r & Hr & ->). rewrite <- (reverse_involutive s), Hr, reverse_app, reverse_involutive. done.
  - intros ->. exists (reverse t). by rewrite reverse_app, reverse_involutive.
Qed.

Lemma strip_prefix_app p t : strip_prefix p (p ++ t) = Some t.
Proof. by apply strip_prefix_Some. Qed.
Lemma strip_suffix_app p t : strip_suffix p (t ++ p) = Some t.
Proof. by apply strip_suffix_Some. Qed.
Lemma starts_with_spec p s : starts_with p s = true ↔ p `prefix_of` s.
Proof.
  unfold starts_with. rewrite bool_decide_eq_true. split.
  - intros [t Ht%strip_prefix_Some]. by exists t.
  - intros [t ->]. exists t. by apply strip_prefix_Some.
Qed.

(** The part before the first [c] and the part after it. *)
Fixpoint split_once (c : Z) (s : str) : option (str * str) :=
  match s with
  | [] => None
  | b :: s => if b =? c then Some ([], s) else '(l, r) ← split_once c s; Some (b :: l, r)
  end.
(** [splitn(n, c)]: at most [n] parts. *)
Fixpoint splitn (n : nat) (c : Z) (s : str) : list str :=
  match n with
  | O => []
  | S O => [s]
  | S n => match split_once c s with Some (l, r) => l :: splitn n c r | None => [s] end
  end.

Lemma split_once_app c l r : c ∉ l → split_once c (l ++ c :: r) = Some (l, r).
Proof.
  induction l as [|b l IH]; intros Hc; cbn; [by rewrite Z.eqb_refl|].
  apply not_elem_of_cons in Hc as [Hne Hc].
  destruct (Z.eqb_spec b c); [congruence|]. by rewrite IH.
Qed.

(** The encodings of the [White_Space] characters. *)
Definition whitespace : list str :=
  [[9]; [10]; [11]; [12]; [13]; [32]; [0xC2; 0x85]; [0xC2; 0xA0]; [0xE1; 0x9A; 0x80];
   [0xE2; 0x80; 0x80]; [0xE2; 0x80; 0x81]; [0xE2; 0x80; 0x82]; [0xE2; 0x80; 0x83]; [0xE2; 0x80; 0x84];
   [0xE2; 0x80; 0x85]; [0xE2; 0x80; 0x86]; [0xE2; 0x80; 0x87]; [0xE2; 0x80; 0x88]; [0xE2; 0x80; 0x89];
   [0xE2; 0x80; 0x8A]; [0xE2; 0x80; 0xA8]; [0xE2; 0x80; 0xA9]; [0xE2; 0x80; 0xAF]; [0xE2; 0x81; 0x9F];
   [0xE3; 0x80; 0x80]].

(** Strips, from the front, the first of the patterns that is there. *)
Definition strip_any (ps : list str) (s : str) : option str :=
  foldr (λ p r, match strip_prefix p s with Some t => Some t | None => r end) None ps.
Fixpoint trim_loop (fuel : nat) (ps : list str) (s : str) : str :=
  match fuel with
  | O => s
  | S fuel => match strip_any ps s with Some t => trim_loop fuel ps t | None => s end
  end.
Definition trim_start (s : str) : str := trim_loop (length s) whitespace s.
(** On UTF-8, matching from the back is matching the reversed encodings. *)
Definition trim_end (s : str) : str := reverse (trim_loop (length s) (reverse <$> whitespace) (reverse s)).
Definition trim (s : str) : str := trim_end (trim_start s).

(** Whether a byte starts (ends) a whitespace encoding. *)
Definition space_first (b : Z) : bool := bool_decide (b ∈ [9; 10; 11; 12; 13; 32; 0xC2; 0xE1; 0xE2; 0xE3]).
Lemma strip_any_none ps b s :
  Forall (λ p, match p with [] => False | a :: _ => a ≠ b end) ps → strip_any ps (b :: s) = None.
Proof.
  induction 1 as [|p ps Hp _ IH]; [done|]. cbn. destruct p as [|a p]; [done|]. cbn.
  destruct (Z.eqb_spec a b); [done|]. apply IH.
Qed.
Lemma strip_any_nil ps : Forall (λ p, p ≠ []) ps → strip_any ps [] = None.
Proof. induction 1 as [|[|a p] ps Hp _ IH]; [done..|]. cbn. apply IH. Qed.

(** ** Decimal numbers *)

Definition digit (b : Z) : bool := in_range 48 57 b.

Fixpoint decimal_loop (fuel : nat) (n : Z) (acc : str) : str :=
  match fuel with
  | O => acc
  | S fuel =>
      let acc := 48 + n `mod` 10 :: acc in
      if n <? 10 then acc else decimal_loop fuel (n / 10) acc
  end.
(** [{}]: a [u64] has at most 20 digits. *)
Definition decimal (n : Z) : str := decimal_loop 20 n [].
Definition string_of_bytes (s : str) : string :=
  String.string_of_list_ascii ((λ b, Ascii.ascii_of_N (Z.to_N b)) <$> s).
Definition decimal_text (n : Z) : string := string_of_bytes (decimal n).
(** [{:06}]. *)
Definition zero_padded (width : nat) (s : str) : str := replicate (width - length s) 48 ++ s.

(** [str::parse] for an unsigned type with the given maximum: an optional [+],
    then at least one digit. *)
Definition parse_step (max : Z) (acc : option Z) (b : Z) : option Z :=
  acc ← acc;
  if digit b then
    let v := acc * 10 + (b - 48) in if v <=? max then Some v else None
  else None.
Definition parse_unsigned (max : Z) (s : str) : option Z :=
  match s with
  | [] => None
  | b :: s' =>
      let ds := if b =? 43 then s' else s in
      match ds with [] => None | _ => foldl (parse_step max) (Some 0) ds end
  end.

(** The number a list of digits denotes. *)
Definition digits_value (ds : str) : Z := foldl (λ acc b, acc * 10 + (b - 48)) 0 ds.

Lemma digit_spec b : digit b = true ↔ 48 ≤ b ≤ 57.
Proof. unfold digit, in_range. rewrite andb_true_iff, !Z.leb_le. done. Qed.

Lemma digits_value_snoc ds b : digits_value (ds ++ [b]) = digits_value ds * 10 + (b - 48).
Proof. unfold digits_value. by rewrite foldl_app. Qed.
Lemma digits_value_nonneg ds : Forall (λ b, digit b = true) ds → 0 ≤ digits_value ds.
Proof.
  induction ds as [|b ds IH] using rev_ind; [done|]. intros [Hds Hb]%Forall_snoc_inv.
  rewrite digits_value_snoc. apply digit_spec in Hb. specialize (IH Hds). lia.
Qed.

(** Parsing checks the digits and the value. *)
Lemma parse_steps max ds v : 0 ≤ max →
  foldl (parse_step max) (Some 0) ds = Some v ↔
  Forall (λ b, digit b = true) ds ∧ v = digits_value ds ∧ v ≤ max.
Proof.
  intros Hm. revert v. induction ds as [|b ds IH] using rev_ind; intros v.
  - cbn. split; [intros [= <-]; by split_and!|naive_solver].
  - rewrite foldl_app. cbn [foldl]. rewrite digits_value_snoc. unfold parse_step at 1. split.
    + intros (a & Ha & H)%bind_Some. apply IH in Ha as (Hd & -> & Hle).
      destruct (digit b) eqn:Hb; [|done]. destruct (Z.leb_spec (digits_value ds * 10 + (b - 48)) max); [|done].
      injection H as <-. split_and!; [by apply Forall_snoc|done|done].
    + intros ([Hd Hb]%Forall_snoc_inv & -> & Hle). pose proof (digits_value_nonneg _ Hd).
      pose proof (proj1 (digit_spec _) Hb). rewrite (proj2 (IH (digits_value ds))) by (split_and!; [done|done|lia]).
      cbn. rewrite Hb. by rewrite (proj2 (Z.leb_le _ _)).
Qed.

Lemma decimal_loop_spec fuel n acc :
  0 ≤ n < 10 ^ Z.of_nat fuel → (0 < fuel)%nat →
  ∃ ds, decimal_loop fuel n acc = ds ++ acc ∧ Forall (λ b, digit b = true) ds ∧ digits_value ds = n ∧
    ds ≠ [] ∧ (∀ k, (0 < k)%nat → n < 10 ^ Z.of_nat k → (length ds ≤ k)%nat) ∧
    (∀ k, 10 ^ Z.of_nat k ≤ n → (k < length ds)%nat).
Proof.
  revert n acc. induction fuel as [|fuel IH]; intros n acc Hn Hf; [lia|]. cbn [decimal_loop].
  assert (digit (48 + n `mod` 10) = true) as Hd. { apply digit_spec. pose proof (Z.mod_pos_bound n 10). lia. }
  destruct (Z.ltb_spec n 10) as [Hs|Hs].
  - exists [48 + n `mod` 10]. split_and!; [done|by constructor| |done|cbn; lia|].
    + unfold digits_value. cbn [foldl]. rewrite Z.mod_small by lia. lia.
    + intros k Hk. destruct k as [|k]; [cbn; lia|]. rewrite Nat2Z.inj_succ, Z.pow_succ_r in Hk by lia.
      pose proof (Z.pow_pos_nonneg 10 (Z.of_nat k)). lia.
  - destruct fuel as [|fuel]. { cbn in Hn. lia. }
    assert (0 ≤ n / 10 < 10 ^ Z.of_nat (S fuel)) as Hq.
    { rewrite (Nat2Z.inj_succ (S fuel)), Z.pow_succ_r in Hn by lia. split; [apply Z.div_pos; lia|].
      apply Z.div_lt_upper_bound; lia. }
    destruct (IH (n / 10) (48 + n `mod` 10 :: acc) Hq ltac:(lia)) as (ds & -> & Hds & Hv & Hne & Hup & Hlo).
    exists (ds ++ [48 + n `mod` 10]). split_and!.
    + by rewrite <- app_assoc.
    + by apply Forall_snoc.
    + rewrite digits_value_snoc, Hv. pose proof (Z.div_mod n 10). lia.
    + by destruct ds.
    + intros k Hk Hlt. rewrite length_app. cbn [length]. destruct k as [|[|k]]; [lia|cbn in Hlt; lia|].
      specialize (Hup (S k) ltac:(lia)). rewrite (Nat2Z.inj_succ (S k)), Z.pow_succ_r in Hlt by lia.
      assert (n / 10 < 10 ^ Z.of_nat (S k)) by (apply Z.div_lt_upper_bound; lia). lia.
    + intros k Hk. rewrite length_app. cbn [length]. destruct k as [|k]; [lia|].
      specialize (Hlo k). rewrite Nat2Z.inj_succ, Z.pow_succ_r in Hk by lia.
      assert (10 ^ Z.of_nat k ≤ n / 10) by (apply Z.div_le_lower_bound; lia). lia.
Qed.

Lemma decimal_spec n : in_u64 n →
  Forall (λ b, digit b = true) (decimal n) ∧ digits_value (decimal n) = n ∧ decimal n ≠ [] ∧
  (∀ k, (0 < k)%nat → n < 10 ^ Z.of_nat k → (length (decimal n) ≤ k)%nat) ∧
  (∀ k, 10 ^ Z.of_nat k ≤ n → (k < length (decimal n))%nat).
Proof.
  intros Hn. destruct (decimal_loop_spec 20 n [] ltac:(unfold in_u64 in Hn; change (10 ^ Z.of_nat 20) with 100000000000000000000; lia) ltac:(lia))
    as (ds & Hd & H). unfold decimal. rewrite Hd, app_nil_r. done.
Qed.

Lemma digits_value_zeros k ds : digits_value (replicate k 48 ++ ds) = digits_value ds.
Proof.
  unfold digits_value. rewrite foldl_app. f_equal. induction k as [|k IH]; [done|]. cbn. apply IH.
Qed.

(** Digits are parsed as what they denote, with or without a sign in front. *)
Lemma parse_unsigned_digits max ds :
  0 ≤ max → Forall (λ b, digit b = true) ds → ds ≠ [] → digits_value ds ≤ max →
  parse_unsigned max ds = Some (digits_value ds).
Proof.
  intros Hm Hd Hne Hle. destruct ds as [|b ds]; [done|]. unfold parse_unsigned.
  assert (b =? 43 = false) as ->. { apply Forall_cons_1 in Hd as [Hb _]. apply digit_spec in Hb. lia. }
  by apply parse_steps.
Qed.

Lemma parse_decimal max n : in_u64 n → n ≤ max → parse_unsigned max (decimal n) = Some n.
Proof.
  intros Hn Hle. destruct (decimal_spec n Hn) as (Hd & Hv & Hne & _).
  rewrite parse_unsigned_digits; [by rewrite Hv|unfold in_u64 in Hn; lia|done|done|by rewrite Hv].
Qed.

Lemma zero_padded_spec w n : in_u64 n →
  Forall (λ b, digit b = true) (zero_padded w (decimal n)) ∧ digits_value (zero_padded w (decimal n)) = n ∧
  zero_padded w (decimal n) ≠ [].
Proof.
  intros Hn. destruct (decimal_spec n Hn) as (Hd & Hv & Hne & _). unfold zero_padded. split_and!.
  - apply Forall_app. split; [|done]. by apply Forall_replicate.
  - by rewrite digits_value_zeros.
  - intros [_ ?]%app_eq_nil. done.
Qed.

(** A padded number is the only digit string of its length with its value. *)
Lemma digits_bound ds : Forall (λ b, digit b = true) ds → digits_value ds < 10 ^ zlen ds.
Proof.
  induction ds as [|b ds IH] using rev_ind; [intros _; vm_compute; reflexivity|]. intros [Hds Hb]%Forall_snoc_inv.
  rewrite digits_value_snoc, zlen_app, zlen_cons, zlen_nil. apply digit_spec in Hb.
  pose proof (zlen_nonneg ds). rewrite Z.pow_add_r by lia. change (10 ^ (1 + 0)) with 10. specialize (IH Hds). lia.
Qed.
Lemma digits_unique ds es :
  Forall (λ b, digit b = true) ds → Forall (λ b, digit b = true) es → length ds = length es →
  digits_value ds = digits_value es → ds = es.
Proof.
  revert es. induction ds as [|b ds IH] using rev_ind; intros es Hd He Hl Hv.
  - by destruct es.
  - destruct es as [|c es _] using rev_ind; [rewrite length_app in Hl; cbn in Hl; lia|].
    apply Forall_snoc_inv in Hd as [Hd Hb%digit_spec]. apply Forall_snoc_inv in He as [He Hc%digit_spec].
    rewrite !digits_value_snoc in Hv. rewrite !length_app in Hl. cbn in Hl.
    f_equal; [apply IH; [done|done|lia|lia]|f_equal; lia].
Qed.
Lemma length_zero_padded w s : (length s ≤ w)%nat → length (zero_padded w s) = w.
Proof. intros. unfold zero_padded. rewrite length_app, length_replicate. lia. Qed.

Lemma digits_ascii ds : Forall (λ b, digit b = true) ds → ascii ds.
Proof. intros H. eapply Forall_impl; [exact H|]. cbn. intros b Hb%digit_spec. lia. Qed.
