(* ===== verification/Display.v ===== *)
(** * Printing scalars

    [to_string] of [bool], [i64] and [f64], as the label code uses it.  A double is
    printed with the fewest digits that read back as the same double, nearest to
    its value among those, and without an exponent ([core::fmt::float] over
    [flt2dec::strategy::dragon], whose interval arithmetic this follows). *)
From Stdlib Require Import SpecFloat.
From S2P Require Import Prelude Float64 Text.

Definition bool_text (b : bool) : str := bytes_of_string (if b then "true" else "false").
Definition i64_text (v : Z) : str := if v <? 0 then 45 :: decimal (- v) else decimal v.

(** ** Doubles *)

(** [flt2dec::decode]: the value and the two ends of the interval that rounds to
    it, over one power of two; the ends count when the decoded mantissa is even,
    which it always is below the normal range. *)
Record decoded := mk_decoded { dc_low : Z; dc_value : Z; dc_high : Z; dc_exp : Z; dc_inclusive : bool }.

Definition decode_finite (m e : Z) : decoded :=
  mk_decoded (4 * m - (if m =? 0x10000000000000 then 1 else 2)) (4 * m) (4 * m + 2) (e - 2)
    (Z.even m || (m <? 0x10000000000000)).

(** [n * 2^e * 10^-k] as a fraction. *)
Definition scale_num (n e k : Z) : Z := n * 2 ^ Z.max 0 e * 10 ^ Z.max 0 (- k).
Definition scale_den (e k : Z) : Z := 2 ^ Z.max 0 (- e) * 10 ^ Z.max 0 k.

(** The multiple of [10^k] in the interval next to the value, if any. *)
Definition digits_at (d : decoded) (k : Z) : option Z :=
  let den := scale_den (dc_exp d) k in
  let num n := scale_num n (dc_exp d) k in
  let below a b := if dc_inclusive d then a <=? b else a <? b in
  let q := num (dc_value d) / den in
  let rest := num (dc_value d) `mod` den in
  let down := below (num (dc_low d)) (q * den) in
  let up := below ((q + 1) * den) (num (dc_high d)) in
  if up && (negb down || (den <=? 2 * rest)) then Some (q + 1) else if down then Some q else None.

(** The largest exponent that has one gives the fewest digits. *)
Fixpoint shortest (fuel : nat) (d : decoded) (k : Z) : Z * Z :=
  match fuel with
  | O => (0, k)
  | S fuel => match digits_at d k with Some n => (n, k) | None => shortest fuel d (k - 1) end
  end.

(** [flt2dec::estimator]: the value is above [10^(k-1)] and at most [10^(k+1)], so
    the search starts at [10^(k+1)]; seventeen digits always suffice. *)
Definition estimate_scaling_factor (mant exp : Z) : Z :=
  let nbits := if mant =? 1 then 0 else Z.log2 (mant - 1) + 1 in
  Z.shiftr ((nbits + exp) * 1292913986) 32.

Definition shortest_digits (m e : Z) : Z * Z :=
  shortest 24 (decode_finite m e) (estimate_scaling_factor m e + 1).

(** [flt2dec::digits_to_dec_str]: the point [p] digits into [ds]. *)
Definition place_point (ds : str) (p : Z) : str :=
  if p <=? 0 then [48; 46] ++ replicate (Z.to_nat (- p)) 48 ++ ds
  else if p <? zlen ds then take (Z.to_nat p) ds ++ [46] ++ drop (Z.to_nat p) ds
  else ds ++ replicate (Z.to_nat (p - zlen ds)) 48.

Definition f64_text (bits : Z) : str :=
  let signed (s : bool) (t : str) := if s then 45 :: t else t in
  match f64_of_bits bits with
  | S754_nan => bytes_of_string "NaN"
  | S754_infinity s => signed s (bytes_of_string "inf")
  | S754_zero s => signed s [48]
  | S754_finite s m e =>
      let '(n, k) := shortest_digits (Z.pos m) e in
      let ds := decimal n in
      signed s (place_point ds (zlen ds + k))
  end.

Example f64_texts :
  f64_text <$> [0x3ff8000000000000; 0x3fb999999999999a; 0x444b1ae4d6e2ef50; 0xc05ec00000000000; 0x44b52d02c7e14af6;
                0x8000000000000000; 0x7ff8000000000000; 0xfff0000000000000; 0x4340000000000001; 0x3ff0000000000001;
                0x40c3880000000000] =
  bytes_of_string <$> ["1.5"; "0.1"; "1000000000000000000000"; "-123"; "100000000000000000000000"; "-0"; "NaN"; "-inf";
                "9007199254740994"; "1.0000000000000002"; "10000"]%string.
Proof. vm_compute. reflexivity. Qed.
(** The smallest and the largest double, and the smallest normal one. *)
Example f64_text_extremes :
  f64_text 1 = [48; 46] ++ replicate 323 48 ++ [53] ∧
  f64_text 0x7fefffffffffffff = bytes_of_string "17976931348623157" ++ replicate 292 48 ∧
  f64_text 0x0010000000000000 = [48; 46] ++ replicate 307 48 ++ bytes_of_string "22250738585072014".
Proof. vm_compute. done. Qed.
