(* ===== verification/Frame.v ===== *)
(** * Checksummed records

    What the record logs of [storage/wal.rs] and [storage/manifest.rs] share: a
    16-byte header (magic, version, type, payload length), the payload and its
    CRC-32C.  A reader is the bytes it has left; device errors while reading are
    not modelled, and CRC-32C is a class, since the crate that computes it is not
    part of the program. *)
From S2P Require Import Prelude.

(** ** Panics

    [vec![0; n]] panics when [n] exceeds [isize::MAX]; the functions that can get
    there return [run A]. *)
Inductive failure :=
  | Panic
  | Io (e : io_error).
Abbreviation run := (result failure).

Definition io {A} (r : io_result A) : run A :=
  match r with Ok a => Ok a | Err e => Err (Io e) end.

Lemma io_ok {A} (r : io_result A) a : io r = Ok a ↔ r = Ok a.
Proof. destruct r; naive_solver. Qed.

(** [injection] would compute the encoders. *)
Lemma ok_inj {E A} (a b : A) : @Ok E A a = Ok b → a = b.
Proof. congruence. Qed.

(** ** Readers *)

Definition read_exact (n : Z) (s : list Z) : io_result (list Z * list Z) :=
  if zlen s <? n then fail UnexpectedEof "failed to fill whole buffer"
  else Ok (take (Z.to_nat n) s, drop (Z.to_nat n) s).

(** [let mut v = vec![0u8; n]; reader.read_exact(&mut v)?]. *)
Definition read_vec (n : Z) (s : list Z) : run (list Z * list Z) :=
  if i64_max <? n then Err Panic else io (read_exact n s).

(** [let Ok(()) = ... else return Err(..)]. *)
Definition ensure (b : bool) (k : ErrorKind) (m : string) : io_result unit :=
  if b then Ok tt else fail k m.

Lemma ensure_ok b k m : ensure b k m = Ok tt ↔ b = true.
Proof. destruct b; cbn; split; done. Qed.
Lemma ensure_ok_inv b k m u : ensure b k m = Ok u → b = true.
Proof. by destruct b. Qed.

Lemma read_exact_app x s n : n = zlen x → read_exact n (x ++ s) = Ok (x, s).
Proof.
  intros ->. unfold read_exact. pose proof (zlen_nonneg s).
  rewrite (proj2 (Z.ltb_ge _ _)) by (rewrite zlen_app; lia). unfold zlen.
  by rewrite Nat2Z.id, take_app_length, drop_app_length.
Qed.
Lemma read_exact_short s n : zlen s < n → read_exact n s = fail UnexpectedEof "failed to fill whole buffer".
Proof. intros. unfold read_exact. by rewrite (proj2 (Z.ltb_lt _ _)). Qed.
Lemma read_exact_inv s n x r : 0 ≤ n → read_exact n s = Ok (x, r) → s = x ++ r ∧ zlen x = n.
Proof.
  intros Hn. unfold read_exact. destruct (Z.ltb_spec (zlen s) n); [done|]. intros [= <- <-].
  rewrite take_drop. split; [done|]. unfold zlen in *. rewrite length_take. lia.
Qed.
Lemma read_vec_app x s n : n = zlen x → vec_ok x → read_vec n (x ++ s) = Ok (x, s).
Proof.
  intros -> Hv. unfold read_vec. rewrite (proj2 (Z.ltb_ge _ _)) by done. by rewrite read_exact_app.
Qed.
Lemma read_vec_inv s n x r : 0 ≤ n → read_vec n s = Ok (x, r) → s = x ++ r ∧ zlen x = n ∧ n ≤ i64_max.
Proof.
  intros Hn. unfold read_vec. destruct (Z.ltb_spec i64_max n); [done|]. intros Hr%io_ok.
  apply read_exact_inv in Hr as [-> Hz]; [|done]. by split_and!.
Qed.

(** ** Records *)

Class Crc32c := {
  crc32c : list Z → Z;
  crc32c_append : Z → list Z → Z;
}.
(** All the proofs need: the checksum is a [u32]. *)
Class Crc32cLaws `{Crc32c} : Prop := {
  crc32c_u32 l : in_u32 (crc32c l);
  crc32c_append_u32 c l : in_u32 (crc32c_append c l);
}.

Definition RECORD_HEADER_LEN : Z := 16.
Definition RECORD_TRAILER_LEN : Z := 4.

(** The header's fields in place. *)
Definition record_header (magic version record_type payload_len : Z) : list Z :=
  le_bytes 4 magic ++ le_bytes 2 version ++ le_bytes 2 record_type ++ le_bytes 8 payload_len.

Section frame.
Context `{Crc32c}.

Definition record_crc_parts (header payload : list Z) : Z := crc32c_append (crc32c header) payload.

(** A format's constants and messages. *)
Record frame_format := mk_format {
  ff_magic : Z;
  ff_version : Z;
  ff_bad_magic : string;
  ff_bad_version : string;
  ff_bad_crc : string;
}.

(** The record written for a payload. *)
Definition frame (f : frame_format) (record_type : Z) (payload : list Z) : list Z :=
  let header := record_header (ff_magic f) (ff_version f) record_type (zlen payload) in
  header ++ payload ++ le_bytes 4 (record_crc_parts header payload).

(** The reader: [None] at the end of the input, otherwise the type, the payload
    and what is left. [decode_type] is applied where the log checks the type. *)
Definition read_frame {A} (f : frame_format) (decode_type : Z → io_result A) (s : list Z)
    : run (option (A * list Z * list Z)) :=
  match s with
  | [] => Ok None
  | first :: s =>
      '(rest, s) ← io (read_exact (RECORD_HEADER_LEN - 1) s);
      let header := first :: rest in
      _ ← io (ensure (of_le (slice header 0 4) =? ff_magic f) InvalidData (ff_bad_magic f));
      _ ← io (ensure (of_le (slice header 4 6) =? ff_version f) InvalidData (ff_bad_version f));
      record_type ← io (decode_type (of_le (slice header 6 8)));
      let payload_len := of_le (slice header 8 16) in
      '(payload, s) ← read_vec payload_len s;
      '(crc_buf, s) ← io (read_exact RECORD_TRAILER_LEN s);
      let expected_crc := of_le crc_buf in
      let actual_crc := record_crc_parts header payload in
      _ ← io (ensure (actual_crc =? expected_crc) InvalidData (ff_bad_crc f));
      Ok (Some (record_type, payload, s))
  end.

(** *** Headers *)

Lemma zlen_record_header m v t n : zlen (record_header m v t n) = 16.
Proof. unfold record_header. autorewrite with zlen. done. Qed.
Lemma bytes_record_header m v t n : bytes (record_header m v t n).
Proof. unfold record_header. rewrite !Forall_app. split_and!; by apply bytes_le_bytes. Qed.

Lemma of_le_exact w z : 0 ≤ w → 0 ≤ z < 2 ^ (w * 8) → of_le (le_bytes w z) = z.
Proof. intros Hw Hz. rewrite of_le_le_bytes by done. by apply Z.mod_small. Qed.

Lemma slice_head {A} (x post : list A) b : b = zlen x → slice (x ++ post) 0 b = x.
Proof. intros. by apply (slice_app [] x post 0 b). Qed.

Lemma header_fields m v t n :
  in_u32 m → in_u16 v → in_u16 t → in_u64 n →
  let h := record_header m v t n in
  of_le (slice h 0 4) = m ∧ of_le (slice h 4 6) = v ∧ of_le (slice h 6 8) = t ∧ of_le (slice h 8 16) = n.
Proof.
  intros Hm Hv Ht Hn h. unfold h, record_header. split_and!.
  - rewrite slice_head by (by autorewrite with zlen). apply of_le_exact; [done|]. unfold in_u32 in Hm. lia.
  - rewrite (slice_app (le_bytes 4 m)) by (by autorewrite with zlen). apply of_le_exact; [done|]. unfold in_u16 in Hv. lia.
  - rewrite app_assoc. rewrite (slice_app (le_bytes 4 m ++ le_bytes 2 v)) by (by autorewrite with zlen).
    apply of_le_exact; [done|]. unfold in_u16 in Ht. lia.
  - rewrite !app_assoc. rewrite <- (app_nil_r (le_bytes 8 n)).
    rewrite (slice_app ((le_bytes 4 m ++ le_bytes 2 v) ++ le_bytes 2 t)) by (by autorewrite with zlen).
    apply of_le_exact; [done|]. unfold in_u64 in Hn. lia.
Qed.

Lemma slice_le (l : list Z) a b w : bytes l → 0 ≤ a → a ≤ b ≤ zlen l → b - a = w →
  le_bytes w (of_le (slice l a b)) = slice l a b.
Proof.
  intros Hb Ha Hab Hw. apply le_bytes_of_le.
  - unfold slice, zlen in *. rewrite length_take, length_drop. lia.
  - by apply Forall_take, Forall_drop.
Qed.

(** Sixteen bytes are a header. *)
Lemma header_inv h : bytes h → zlen h = 16 →
  h = record_header (of_le (slice h 0 4)) (of_le (slice h 4 6)) (of_le (slice h 6 8)) (of_le (slice h 8 16)).
Proof.
  intros Hb Hz. unfold record_header. rewrite !slice_le by (done || lia).
  unfold slice. do 16 (destruct h as [|? h]; [done|]). destruct h; [done|].
  rewrite !zlen_cons in Hz. pose proof (zlen_nonneg h). lia.
Qed.
Lemma slice_le_range (l : list Z) a b : bytes l → 0 ≤ a → a ≤ b ≤ zlen l →
  0 ≤ of_le (slice l a b) < 2 ^ ((b - a) * 8).
Proof.
  intros Hb Ha Hab. assert (zlen (slice l a b) = b - a) as Hz.
  { unfold slice, zlen in *. rewrite length_take, length_drop. lia. }
  rewrite <- Hz. apply of_le_range. by apply Forall_take, Forall_drop.
Qed.

(** *** Reading what was written *)

Definition format_ok (f : frame_format) : Prop := in_u32 (ff_magic f) ∧ in_u16 (ff_version f).

Lemma zlen_frame f t p : zlen (frame f t p) = RECORD_HEADER_LEN + zlen p + RECORD_TRAILER_LEN.
Proof. unfold frame. rewrite !zlen_app, zlen_record_header, zlen_le_bytes by done. unfold RECORD_HEADER_LEN, RECORD_TRAILER_LEN. lia. Qed.
Lemma bytes_of_frame f t p : bytes p → bytes (frame f t p).
Proof. intros Hp. unfold frame. rewrite !Forall_app. split_and!; [apply bytes_record_header|done|by apply bytes_le_bytes]. Qed.

(** One unfolding for the proofs below: a header, then anything. *)
Lemma read_frame_header {A} f (dec : Z → io_result A) t a n s :
  format_ok f → in_u16 t → in_u64 n → dec t = Ok a →
  let h := record_header (ff_magic f) (ff_version f) t n in
  read_frame f dec (h ++ s) =
    ('(payload, s) ← read_vec n s;
     '(crc_buf, s) ← io (read_exact RECORD_TRAILER_LEN s);
     _ ← io (ensure (record_crc_parts h payload =? of_le crc_buf) InvalidData (ff_bad_crc f));
     Ok (Some (a, payload, s))).
Proof.
  intros [Hm Hv] Ht Hn Hdec h. destruct (header_fields _ _ _ _ Hm Hv Ht Hn) as (H1 & H2 & H3 & H4).
  fold h in H1, H2, H3, H4. pose proof (zlen_record_header (ff_magic f) (ff_version f) t n) as Hz. fold h in Hz.
  clearbody h. destruct h as [|first rest]; [done|]. cbn [app]. unfold read_frame.
  rewrite read_exact_app by (rewrite zlen_cons in Hz; unfold RECORD_HEADER_LEN; lia).
  cbn [io mbind result_bind]. rewrite H1, H2, H3, H4, !Z.eqb_refl. cbn [ensure io mbind result_bind].
  rewrite Hdec. done.
Qed.

Lemma read_frame_encoded `{!Crc32cLaws} {A} f (dec : Z → io_result A) t a p s :
  format_ok f → in_u16 t → dec t = Ok a → vec_ok p →
  read_frame f dec (frame f t p ++ s) = Ok (Some (a, p, s)).
Proof.
  intros Hf Ht Hdec Hv. unfold frame. rewrite <- !app_assoc.
  rewrite (read_frame_header f dec t a) by (try done; unfold in_u64; pose proof (zlen_nonneg p); lia).
  rewrite read_vec_app by done. cbn [mbind result_bind].
  rewrite read_exact_app by (by rewrite zlen_le_bytes). cbn [io mbind result_bind].
  rewrite of_le_exact, Z.eqb_refl; [done..|]. change (2 ^ (4 * 8)) with 4294967296.
  pose proof (crc32c_append_u32 (crc32c (record_header (ff_magic f) (ff_version f) t (zlen p))) p) as [Hl Hu].
  unfold record_crc_parts. lia.
Qed.

(** A record cut short anywhere but at its start is an unexpected end. *)
Lemma read_frame_torn {A} f (dec : Z → io_result A) t a p s :
  format_ok f → in_u16 t → dec t = Ok a → vec_ok p →
  s `prefix_of` frame f t p → s ≠ [] → s ≠ frame f t p →
  read_frame f dec s = Err (Io (io_err UnexpectedEof "failed to fill whole buffer")).
Proof.
  intros Hf Ht Hdec Hv Hpre Hne Hnf.
  assert (zlen s < zlen (frame f t p)) as Hlt.
  { destruct Hpre as [k Hk]. rewrite Hk, zlen_app. destruct k as [|b k]; [by rewrite app_nil_r in Hk|].
    rewrite zlen_cons. pose proof (zlen_nonneg k). lia. }
  destruct Hpre as [k Hk]. rewrite zlen_frame in Hlt. unfold RECORD_HEADER_LEN, RECORD_TRAILER_LEN in Hlt.
  destruct (decide (zlen s < 16)) as [H16|H16].
  - destruct s as [|b s]; [done|]. unfold read_frame. rewrite zlen_cons in H16.
    by rewrite read_exact_short by (unfold RECORD_HEADER_LEN; lia).
  - unfold frame in Hk. set (h := record_header _ _ _ _) in Hk.
    assert (zlen h = 16) as Hh by apply zlen_record_header.
    assert (∃ q, s = h ++ q ∧ q ++ k = p ++ le_bytes 4 (record_crc_parts h p)) as (q & -> & Hq).
    { symmetry in Hk. apply app_eq_inv in Hk as [(q & -> & Hq)|(q & Hq & Hkq)]; [by exists q|].
      exists []. assert (q = []) as ->. { apply zlen_0. pose proof (zlen_nonneg q). rewrite Hq, zlen_app in Hh. lia. }
      rewrite app_nil_r in Hq |- *. by rewrite Hkq. }
    rewrite zlen_app, Hh in Hlt. unfold h.
    rewrite (read_frame_header f dec t a) by (try done; unfold in_u64; pose proof (zlen_nonneg p); lia).
    unfold read_vec. rewrite (proj2 (Z.ltb_ge _ _)) by done.
    destruct (decide (zlen q < zlen p)) as [Hqp|Hqp]; [by rewrite read_exact_short|].
    apply app_eq_inv in Hq as [(r & -> & Hr)|(r & -> & _)].
    + rewrite read_exact_app by done. cbn [io mbind result_bind]. rewrite zlen_app in Hlt.
      by rewrite read_exact_short by (unfold RECORD_TRAILER_LEN; lia).
    + rewrite zlen_app in Hqp. assert (r = []) as ->. { apply zlen_0. pose proof (zlen_nonneg r). lia. }
      rewrite app_nil_r in *. rewrite <- (app_nil_r q) at 2. rewrite read_exact_app by done.
      cbn [io mbind result_bind]. done.
Qed.

(** What reads is what is written. *)
Lemma read_frame_inv {A} f (dec : Z → io_result A) s a p r :
  bytes s → read_frame f dec s = Ok (Some (a, p, r)) →
  ∃ t, in_u16 t ∧ dec t = Ok a ∧ s = frame f t p ++ r ∧ vec_ok p.
Proof.
  intros Hb. destruct s as [|b s]; [done|]. unfold read_frame. intros Hd.
  apply bind_ok in Hd as ([rest s1] & Hr%io_ok & Hd). apply read_exact_inv in Hr as [-> Hz]; [|done].
  set (h := b :: rest) in *. assert (bytes h ∧ bytes s1) as [Hbh Hb1] by (apply Forall_app; done).
  assert (zlen h = 16) as Hzh by (unfold h; rewrite zlen_cons, Hz; done).
  apply bind_ok in Hd as (u1 & E1%io_ok%ensure_ok_inv%Z.eqb_eq & Hd).
  apply bind_ok in Hd as (u2 & E2%io_ok%ensure_ok_inv%Z.eqb_eq & Hd).
  apply bind_ok in Hd as (a' & Ha%io_ok & Hd). apply bind_ok in Hd as ([p' s2] & Hp & Hd).
  pose proof (slice_le_range h 8 16 Hbh ltac:(lia) ltac:(lia)) as Hn.
  apply read_vec_inv in Hp as (-> & Hzp & Hle); [|lia].
  apply bind_ok in Hd as ([c s3] & Hc%io_ok & Hd). apply read_exact_inv in Hc as [-> Hzc]; [|done].
  apply bind_ok in Hd as (u3 & E3%io_ok%ensure_ok_inv%Z.eqb_eq & Hd). injection Hd as -> -> ->.
  exists (of_le (slice h 6 8)). pose proof (slice_le_range h 6 8 Hbh ltac:(lia) ltac:(lia)).
  split_and!; [unfold in_u16; lia|done| |lia].
  unfold frame. rewrite Hzp, <- E1, <- E2, <- header_inv by done. rewrite E3, le_bytes_of_le.
  - by rewrite <- !app_assoc.
  - done.
  - apply Forall_app in Hb1 as [_ Hb1]. by apply Forall_app in Hb1 as [Hb1 _].
Qed.
Lemma read_frame_none {A} f (dec : Z → io_result A) s : read_frame f dec s = Ok None → s = [].
Proof.
  destruct s as [|b s]; [done|]. unfold read_frame. intros Hd.
  repeat (apply bind_ok in Hd as (? & _ & Hd) || (case_match; subst)). done.
Qed.

End frame.

(** ** A concrete checksum *)

(** Not CRC-32C: a polynomial sum, for evaluating examples. *)
Definition sample_sum (start : Z) (l : list Z) : Z := foldl (λ acc b, (acc * 31 + b) `mod` 4294967296) (start `mod` 4294967296) l.
#[export] Instance sample_crc : Crc32c := { crc32c := sample_sum 7; crc32c_append := sample_sum }.
#[export] Instance sample_crc_laws : @Crc32cLaws sample_crc.
Proof.
  assert (∀ l z, 0 ≤ z ≤ u32_max → 0 ≤ foldl (λ acc b, (acc * 31 + b) `mod` 4294967296) z l ≤ u32_max) as Hf.
  { clear. induction l as [|b l IH]; intros z Hz; [done|]. cbn. apply IH.
    pose proof (Z.mod_pos_bound (z * 31 + b) 4294967296). lia. }
  assert (∀ z, 0 ≤ z `mod` 4294967296 ≤ u32_max) as Hm by (intros z; pose proof (Z.mod_pos_bound z 4294967296); lia).
  split; intros; apply Hf, Hm.
Qed.
