(* ===== verification/Fields.v ===== *)
(** * Fixed-width fields

    The little-endian fields of record payloads: [read_bytes], [read_u16] and the
    like of [storage/wal.rs] and [storage/manifest.rs], which differ only in the
    text of their error, with their contracts as [Cursor.Codec]s. *)
From S2P Require Import Prelude Cursor Text.

Definition read_bytes (truncated : string) (len : Z) (buf : list Z) (cursor : Z)
    : io_result (list Z * Z) :=
  end_ ← ok_or (io_err UnexpectedEof truncated) (checked_add_u64 cursor len);
  if zlen buf <? end_ then fail UnexpectedEof truncated
  else Ok (slice buf cursor end_, end_).

(** [uN::from_le_bytes(read_array(..)?)] for a width in bytes. *)
Definition read_unsigned (truncated : string) (width : Z) (buf : list Z) (cursor : Z) : io_result (Z * Z) :=
  '(b, cursor) ← read_bytes truncated width buf cursor;
  Ok (of_le b, cursor).

(** Two's complement. *)
Definition as_signed (bits z : Z) : Z := if z <? 2 ^ (bits - 1) then z else z - 2 ^ bits.
Definition read_signed (truncated : string) (width : Z) (buf : list Z) (cursor : Z) : io_result (Z * Z) :=
  '(b, cursor) ← read_bytes truncated width buf cursor;
  Ok (as_signed (width * 8) (of_le b), cursor).

(** A string with its length in front. *)
Definition read_text (truncated bad_utf8 : string) (buf : list Z) (cursor : Z) : io_result (str * Z) :=
  '(len, cursor) ← read_unsigned truncated 2 buf cursor;
  '(b, cursor) ← read_bytes truncated len buf cursor;
  s ← ok_or (io_err InvalidData bad_utf8) (from_utf8 b);
  Ok (s, cursor).

(** ** Contracts *)

Lemma le_bytes_mod w z : 0 ≤ w → le_bytes w (z `mod` 2 ^ (w * 8)) = le_bytes w z.
Proof. intros. rewrite <- of_le_le_bytes by done. apply le_bytes_of_le; [by apply zlen_le_bytes|by apply bytes_le_bytes]. Qed.

Section contracts.
Context (truncated : string).

#[export] Instance bytes_codec n :
  TCEq (0 <=? n) true →
  Codec (λ _, read_bytes truncated n) (λ b, b) (λ b, zlen b = n ∧ bytes b).
Proof.
  intros Hn'. assert (0 ≤ n) as Hn by (apply Z.leb_le; by apply TCEq_eq). clear Hn'. split.
  - intros _ buf c b rest _ Hr [<- Hb]. exists (c + zlen b). pose proof (cursor_zlen _ _ _ Hr) as Hz.
    pose proof Hr as (_ & Hv & Hc & _). rewrite zlen_app in Hz. pose proof (zlen_nonneg rest).
    unfold read_bytes. rewrite checked_add_u64_fits by lia. cbn [ok_or mbind result_bind].
    rewrite (proj2 (Z.ltb_ge _ _)) by lia. rewrite (cursor_slice buf c b rest) by done.
    split; [done|]. by apply cursor_step.
  - intros _ buf c l b c' Hr Hd. unfold read_bytes in Hd. apply bind_ok in Hd as (e & He & Hd).
    destruct (checked_add_u64 c n) as [e'|] eqn:Hce; [|done]. injection He as ->.
    apply checked_add_u64_Some in Hce as [-> _]. destruct (Z.ltb_spec (zlen buf) (c + n)) as [|Hle]; [done|].
    injection Hd as <- <-. destruct (cursor_take _ _ _ (c + n) Hr ltac:(lia)) as (rest & -> & Hz & Hb & Hr').
    exists rest. split_and!; [done|lia|done|done].
Qed.

Lemma unsigned_codec_gen w (lim : Z) (ok : Z → Prop) : 0 <= w → 2 ^ (w * 8) = lim + 1 → (∀ z, ok z ↔ 0 ≤ z ≤ lim) →
  Codec (λ _, read_unsigned truncated w) (le_bytes w) ok.
Proof.
  intros Hw Hlim Hok. assert (TCEq (0 <=? w) true) as Hw' by (rewrite (proj2 (Z.leb_le _ _) Hw); done). split.
  - intros al buf c v rest Hal Hr Hv%Hok.
    destruct (codec_fwd (Codec := bytes_codec w Hw') al _ _ _ _ Hal Hr) as (c' & Hd & Hr').
    { split; [by apply zlen_le_bytes|by apply bytes_le_bytes]. }
    exists c'. unfold read_unsigned. rewrite Hd. cbn [mbind result_bind]. rewrite of_le_le_bytes by done.
    by rewrite Z.mod_small by lia.
  - intros al buf c l v c' Hr Hd. unfold read_unsigned in Hd. apply bind_ok in Hd as ([b c1] & Hb & Hd).
    destruct (codec_inv (Codec := bytes_codec w Hw') al _ _ _ _ _ Hr Hb) as (rest & -> & [Hz Hbs] & Hr').
    injection Hd as <- <-. exists rest. rewrite le_bytes_of_le by done. split_and!; [done| |done].
    apply Hok. pose proof (of_le_range _ Hbs) as Hrg. rewrite Hz in Hrg. lia.
Qed.

Lemma signed_codec_gen w (half : Z) (ok : Z → Prop) : 0 < w → 2 ^ (w * 8 - 1) = half →
  (∀ z, ok z ↔ - half ≤ z < half) →
  Codec (λ _, read_signed truncated w) (le_bytes w) ok.
Proof.
  intros Hw Hhalf Hok. assert (TCEq (0 <=? w) true) as Hw' by (rewrite (proj2 (Z.leb_le _ _)); [done|lia]).
  assert (2 ^ (w * 8) = 2 * half) as Hfull.
  { rewrite <- Hhalf. replace (w * 8) with (w * 8 - 1 + 1) at 1 by lia. rewrite Z.pow_add_r by lia. lia. }
  split.
  - intros al buf c v rest Hal Hr Hv%Hok.
    destruct (codec_fwd (Codec := bytes_codec w Hw') al _ _ _ _ Hal Hr) as (c' & Hd & Hr').
    { split; [apply zlen_le_bytes; lia|apply bytes_le_bytes; lia]. }
    exists c'. unfold read_signed. rewrite Hd. cbn [mbind result_bind]. rewrite of_le_le_bytes by lia.
    split; [|done]. do 2 f_equal. unfold as_signed. rewrite Hhalf, Hfull.
    destruct (decide (0 ≤ v)) as [Hp|Hp].
    + rewrite Z.mod_small by lia. by rewrite (proj2 (Z.ltb_lt _ _)) by lia.
    + assert (v `mod` (2 * half) = v + 2 * half) as ->.
      { rewrite <- (Z.mod_add v 1) by lia. rewrite Z.mod_small by lia. lia. }
      rewrite (proj2 (Z.ltb_ge _ _)) by lia. lia.
  - intros al buf c l v c' Hr Hd. unfold read_signed in Hd. apply bind_ok in Hd as ([b c1] & Hb & Hd).
    destruct (codec_inv (Codec := bytes_codec w Hw') al _ _ _ _ _ Hr Hb) as (rest & -> & [Hz Hbs] & Hr').
    injection Hd as <- <-. exists rest. pose proof (of_le_range _ Hbs) as Hrg. rewrite Hz, Hfull in Hrg.
    unfold as_signed. rewrite Hhalf, Hfull. assert (le_bytes w (of_le b - 2 * half) = b) as Hneg.
    { transitivity (le_bytes w (of_le b)); [|by apply le_bytes_of_le]. rewrite <- (le_bytes_mod w) by lia.
      rewrite <- (le_bytes_mod w (of_le b)) by lia. f_equal. rewrite Hfull.
      rewrite <- (Z.mod_add (of_le b - 2 * half) 1) by lia. f_equal. lia. }
    destruct (Z.ltb_spec (of_le b) half).
    + rewrite le_bytes_of_le by done. split_and!; [done| |done]. apply Hok. lia.
    + rewrite Hneg. split_and!; [done| |done]. apply Hok. lia.
Qed.

#[export] Instance u16_codec : Codec (λ _, read_unsigned truncated 2) (le_bytes 2) in_u16.
Proof. by apply (unsigned_codec_gen 2 u16_max). Qed.
#[export] Instance u32_codec : Codec (λ _, read_unsigned truncated 4) (le_bytes 4) in_u32.
Proof. by apply (unsigned_codec_gen 4 u32_max). Qed.
#[export] Instance u64_codec : Codec (λ _, read_unsigned truncated 8) (le_bytes 8) in_u64.
Proof. by apply (unsigned_codec_gen 8 u64_max). Qed.
#[export] Instance fixed_i32_codec : Codec (λ _, read_signed truncated 4) (le_bytes 4) in_i32.
Proof. apply (signed_codec_gen 4 2147483648); [done|done|]. unfold in_i32. lia. Qed.
#[export] Instance fixed_i64_codec : Codec (λ _, read_signed truncated 8) (le_bytes 8) in_i64.
Proof. apply (signed_codec_gen 8 9223372036854775808); [done|done|]. unfold in_i64. lia. Qed.

Definition text_bytes (s : str) : list Z := le_bytes 2 (zlen s) ++ s.
Definition text_ok (s : str) : Prop := is_str s ∧ zlen s ≤ u16_max.

#[export] Instance text_codec bad_utf8 : Codec (λ _, read_text truncated bad_utf8) text_bytes text_ok.
Proof.
  split.
  - intros al buf c s rest Hal Hr [Hs Hl]. unfold text_bytes in Hr. rewrite <- app_assoc in Hr. unfold read_text.
    pose proof (zlen_nonneg s). read_fwd (u16_codec) Hr. 
    assert (TCEq (0 <=? zlen s) true) as Hw' by (rewrite (proj2 (Z.leb_le _ _)) by done; done).
    read_fwd (bytes_codec (zlen s) Hw') Hr. { split; [done|]. apply Hs. }
    rewrite from_utf8_str by done. cbn [ok_or mbind result_bind]. by eexists.
  - intros al buf c l s c' Hr Hd. unfold read_text in Hd. pose proof Hr as (Hbuf & Hvec & Hc & _).
    read_inv (u16_codec) al Hr Hd len Hlen.
    assert (TCEq (0 <=? len) true) as Hw' by (rewrite (proj2 (Z.leb_le _ _)) by apply Hlen; done).
    read_inv (bytes_codec len Hw') al Hr Hd b Hb. destruct Hb as [<- Hb].
    apply bind_ok in Hd as (t & Ht & Hd). destruct (from_utf8 b) as [t'|] eqn:Hu; [|done]. injection Ht as ->.
    apply from_utf8_inv in Hu as [-> Hu]. injection Hd as -> ->. eexists. unfold text_bytes. rewrite <- app_assoc.
    split_and!; [done| |done]. unfold in_u16 in Hlen. repeat split; try done; lia.
Qed.

End contracts.

#[global] Arguments read_unsigned : simpl never.
#[global] Arguments read_signed : simpl never.
#[global] Arguments read_text : simpl never.
#[global] Arguments read_bytes : simpl never.
