(* ===== verification/SegmentId.v ===== *)
(** * Segment identifiers

    [chronoxide-core/src/storage/segment/id.rs].  A ULID is a value of the [ulid]
    crate, which is not part of the program: its printing and parsing are a class. *)
From S2P Require Import Prelude Text.

Class Ulid := {
  ulid : Type;
  ulid_eq_dec :: EqDecision ulid;
  ulid_to_string : ulid → str;
  ulid_parse : str → option ulid;
}.
(** The crate prints 26 ASCII characters and parses them back. *)
Class UlidLaws `{Ulid} : Prop := {
  ulid_parse_to_string u : ulid_parse (ulid_to_string u) = Some u;
  ulid_ascii u : ascii (ulid_to_string u);
  ulid_length u : zlen (ulid_to_string u) = 26;
}.

Section segment_id.
Context `{Ulid}.

Record SegmentId := mk_segment_id {
  si_start_ms : Z;
  si_end_ms : Z;
  si_ulid : ulid;
}.

#[export] Instance segment_id_eq_dec : EqDecision SegmentId.
Proof. solve_decision. Defined.

Inductive SegmentIdError :=
  | InvalidRange (start_ms end_ms : Z)
  | InvalidFormat (name : str)
  | InvalidNumber (text : str)
  | InvalidUlid (text : str).

(** [with_ulid]; [new] supplies a fresh ULID, [next_segment_id] a provider's. *)
Definition with_ulid (start_ms end_ms : Z) (u : ulid) : result SegmentIdError SegmentId :=
  if end_ms <=? start_ms then Err (InvalidRange start_ms end_ms)
  else Ok (mk_segment_id start_ms end_ms u).

(** [b"seg-"] and [b'-']. *)
Definition seg_prefix : str := [115; 101; 103; 45].
Definition dash : Z := 45.

Definition dir_name (id : SegmentId) : str :=
  seg_prefix ++ decimal (si_start_ms id) ++ [dash] ++ decimal (si_end_ms id) ++ [dash] ++ ulid_to_string (si_ulid id).

Definition parse_dir_name (name : str) : result SegmentIdError SegmentId :=
  stripped ← ok_or (InvalidFormat name) (strip_prefix seg_prefix name);
  let parts := splitn 3 dash stripped in
  start ← ok_or (InvalidFormat name) (parts !! 0%nat);
  end_ ← ok_or (InvalidFormat name) (parts !! 1%nat);
  ulid_str ← ok_or (InvalidFormat name) (parts !! 2%nat);
  start_ms ← ok_or (InvalidNumber start) (parse_unsigned u64_max start);
  end_ms ← ok_or (InvalidNumber end_) (parse_unsigned u64_max end_);
  u ← ok_or (InvalidUlid ulid_str) (ulid_parse ulid_str);
  with_ulid start_ms end_ms u.

(** The text [thiserror] derives. *)
Definition segment_id_error_text (e : SegmentIdError) : string :=
  match e with
  | InvalidRange start_ms end_ms =>
      "segment range invalid: start_ms=" +:+ decimal_text start_ms +:+
      " end_ms=" +:+ decimal_text end_ms
  | InvalidFormat s => "segment dir format invalid: " +:+ string_of_bytes s
  | InvalidNumber s => "segment dir number invalid: " +:+ string_of_bytes s
  | InvalidUlid s => "segment ulid invalid: " +:+ string_of_bytes s
  end.

(** ** Properties *)

(** What the constructor establishes. *)
Definition segment_id_ok (id : SegmentId) : Prop :=
  in_u64 (si_start_ms id) ∧ in_u64 (si_end_ms id) ∧ si_start_ms id < si_end_ms id.

Lemma with_ulid_ok s e u id : with_ulid s e u = Ok id ↔ s < e ∧ id = mk_segment_id s e u.
Proof. unfold with_ulid. destruct (Z.leb_spec e s); naive_solver lia. Qed.

Lemma digits_no_dash ds : Forall (λ b, digit b = true) ds → dash ∉ ds.
Proof. intros Hd Hin. rewrite Forall_forall in Hd. by apply Hd in Hin. Qed.

Lemma parse_unsigned_range max s v : 0 ≤ max → parse_unsigned max s = Some v → 0 ≤ v ≤ max.
Proof.
  intros Hm. destruct s as [|b s]; [done|]. unfold parse_unsigned.
  set (ds := if b =? 43 then s else b :: s). clearbody ds. destruct ds as [|d ds]; [done|].
  intros (Hd & -> & Hle)%parse_steps; [|done]. split; [by apply digits_value_nonneg|done].
Qed.

Lemma parse_dir_name_encoded `{!UlidLaws} id : segment_id_ok id → parse_dir_name (dir_name id) = Ok id.
Proof.
  intros (Hs & He & Hlt). destruct id as [s e u]. cbn in Hs, He, Hlt. unfold parse_dir_name, dir_name.
  destruct (decimal_spec s Hs) as (Hds & _). destruct (decimal_spec e He) as (Hde & _).
  rewrite strip_prefix_app. cbn [ok_or mbind result_bind si_start_ms si_end_ms si_ulid].
  cbn [splitn app]. rewrite split_once_app by by apply digits_no_dash.
  rewrite split_once_app by by apply digits_no_dash. cbn [lookup list_lookup ok_or mbind result_bind].
  rewrite !parse_decimal by (done || apply Hs || apply He). cbn [ok_or mbind result_bind].
  rewrite ulid_parse_to_string. cbn [ok_or mbind result_bind]. by apply with_ulid_ok.
Qed.

Lemma parse_dir_name_ok name id : parse_dir_name name = Ok id → segment_id_ok id.
Proof.
  unfold parse_dir_name. intros Hd.
  apply bind_ok in Hd as (st & _ & Hd). apply bind_ok in Hd as (a & _ & Hd). apply bind_ok in Hd as (b & _ & Hd).
  apply bind_ok in Hd as (c & _ & Hd). apply bind_ok in Hd as (s & Hs & Hd). apply bind_ok in Hd as (e & He & Hd).
  apply bind_ok in Hd as (u & _ & Hd). apply with_ulid_ok in Hd as [Hlt ->].
  destruct (parse_unsigned u64_max a) eqn:Hs'; [|done]. injection Hs as ->.
  destruct (parse_unsigned u64_max b) eqn:He'; [|done]. injection He as ->.
  split_and!; [by eapply parse_unsigned_range|by eapply parse_unsigned_range|done].
Qed.

Lemma dir_name_ascii `{!UlidLaws} id : segment_id_ok id → ascii (dir_name id).
Proof.
  intros (Hs & He & _). unfold dir_name, ascii. rewrite !Forall_app. split_and!.
  - by apply asciib_ascii.
  - apply digits_ascii, decimal_spec, Hs.
  - by apply asciib_ascii.
  - apply digits_ascii, decimal_spec, He.
  - by apply asciib_ascii.
  - apply ulid_ascii.
Qed.

Lemma zlen_decimal n : in_u64 n → zlen (decimal n) ≤ 20.
Proof.
  intros Hn. destruct (decimal_spec n Hn) as (_ & _ & _ & Hup & _). unfold zlen.
  pose proof (Hup 20%nat ltac:(lia)) as Hl. change (10 ^ Z.of_nat 20) with 100000000000000000000 in Hl.
  unfold in_u64 in Hn. lia.
Qed.

(** A directory name is a string of at most 72 bytes, so it fits a manifest record. *)
Lemma dir_name_str `{!UlidLaws} id : segment_id_ok id → is_str (dir_name id) ∧ zlen (dir_name id) ≤ 72.
Proof.
  intros Hid. pose proof (dir_name_ascii id Hid) as Ha. destruct Hid as (Hs & He & _).
  assert (zlen (dir_name id) ≤ 72) as Hl.
  { unfold dir_name. rewrite !zlen_app, ulid_length, !zlen_cons, zlen_nil.
    pose proof (zlen_decimal _ Hs). pose proof (zlen_decimal _ He). change (zlen seg_prefix) with 4. lia. }
  split; [|done]. split_and!; [by apply ascii_bytes|by apply ascii_utf8|lia].
Qed.

End segment_id.

(** C38: segment directories name their segment.  A well-formed identifier's
    directory name is an ASCII string of at most 72 bytes that parses to that
    identifier, so distinct segments have distinct directories; and whatever
    parses is well formed: 64-bit bounds, the start before the end. *)
Theorem segment_names_identify `{UlidLaws} id other name :
  segment_id_ok id →
  parse_dir_name (dir_name id) = Ok id ∧
  ascii (dir_name id) ∧ zlen (dir_name id) ≤ 72 ∧
  (segment_id_ok other → dir_name other = dir_name id → other = id) ∧
  (∀ parsed, parse_dir_name name = Ok parsed → segment_id_ok parsed).
Proof.
  intros Hid. split_and!.
  - by apply parse_dir_name_encoded.
  - by apply dir_name_ascii.
  - by apply dir_name_str.
  - intros Ho Heq. apply parse_dir_name_encoded in Hid. rewrite <- Heq, parse_dir_name_encoded in Hid by done. congruence.
  - intros p. apply parse_dir_name_ok.
Qed.

(** ** A concrete ULID printer *)

Definition sample_ulids : list str :=
  [bytes_of_string "01ARZ3NDEKTSV4RRFFQ69G5FAV"; bytes_of_string "01BX5ZZKBKACTAV9WEVGEMMVRZ"].
(** Two identifiers, told apart by their text. *)
#[export] Instance sample_ulid : Ulid := {
  ulid := bool;
  ulid_to_string b := nth (if b then 1 else 0)%nat sample_ulids [];
  ulid_parse s :=
    if decide (s = nth 0 sample_ulids []) then Some false
    else if decide (s = nth 1 sample_ulids []) then Some true else None;
}.
#[export] Instance sample_ulid_laws : @UlidLaws sample_ulid.
Proof.
  split.
  - by intros [].
  - intros []; by apply asciib_ascii.
  - by intros [].
Qed.

Definition sample_segment : @SegmentId sample_ulid := @mk_segment_id sample_ulid 1000 2000 true.

Lemma segment_names_identify_witness :
  dir_name sample_segment = bytes_of_string "seg-1000-2000-01BX5ZZKBKACTAV9WEVGEMMVRZ" ∧
  parse_dir_name (dir_name sample_segment) = Ok sample_segment.
Proof.
  split; [vm_compute; reflexivity|].
  apply (segment_names_identify sample_segment sample_segment []).
  unfold segment_id_ok, in_u64. cbn. lia.
Defined.
