(* ===== verification/Wal.v ===== *)
(** * The write-ahead log

    [chronoxide-core/src/storage/wal.rs]: records, the payloads of checkpoints and
    of OTLP batches, file names and log sequence numbers.  Files are their bytes
    here; the operations on the WAL's directory are in [WalDir]. *)
From stdpp Require Import sorting.
From S2P Require Import Prelude Bits Cursor Text Fields Frame.

Definition invalid_data {A} (m : string) : io_result A := fail InvalidData m.

(** ** Constants *)

(** [u32::from_le_bytes] of four letters. *)
Definition WAL_RECORD_MAGIC : Z := of_le (bytes_of_string "CWAL").
Definition WAL_RECORD_VERSION : Z := 1.
Definition CHECKPOINT_PAYLOAD_MAGIC : Z := of_le (bytes_of_string "WCHK").
Definition CHECKPOINT_PAYLOAD_VERSION : Z := 1.
Definition CHECKPOINT_META_MAGIC : Z := of_le (bytes_of_string "CMET").
Definition CHECKPOINT_META_VERSION : Z := 1.
Definition OTLP_BATCH_PAYLOAD_MAGIC : Z := of_le (bytes_of_string "OBAT").
Definition OTLP_BATCH_PAYLOAD_VERSION : Z := 2.
Definition OTLP_BATCH_HEADER_LEN : Z := 48.
Definition WAL_LSN_SEQUENCE_SHIFT : Z := 40.
Definition WAL_LSN_OFFSET_MASK : Z := Z.shiftl 1 WAL_LSN_SEQUENCE_SHIFT - 1.
Definition WAL_LSN_MAX_SEQUENCE : Z := Z.shiftr u64_max WAL_LSN_SEQUENCE_SHIFT `mod` 4294967296.

(** ** Data *)

Inductive WalRecordType := OtlpBatch | Checkpoint | SegmentSealed.

#[export] Instance wal_record_type_eq_dec : EqDecision WalRecordType.
Proof. solve_decision. Defined.

Definition from_u16 (value : Z) : io_result WalRecordType :=
  if value =? 1 then Ok OtlpBatch
  else if value =? 2 then Ok Checkpoint
  else if value =? 3 then Ok SegmentSealed
  else invalid_data "unknown WAL record type".

Definition as_u16 (t : WalRecordType) : Z :=
  match t with OtlpBatch => 1 | Checkpoint => 2 | SegmentSealed => 3 end.

Record WalRecord := mk_wal_record {
  wr_type : WalRecordType;
  wr_payload : list Z;
}.

Record OtlpWalBatch := mk_batch {
  ob_topic : str;
  ob_partition : Z;
  ob_offset : Z;
  ob_source_timestamp_ms : Z;
  ob_captured_at_ms : Z;
  ob_payload : list Z;
}.

Record TransportOffset := mk_offset {
  to_topic : str;
  to_partition : Z;
  to_next_offset : Z;
}.

#[export] Instance offset_eq_dec : EqDecision TransportOffset.
Proof. solve_decision. Defined.

Record WalCheckpoint := mk_checkpoint {
  cp_wal_lsn : Z;
  cp_wall_time_ms : Z;
  cp_offsets : list TransportOffset;
}.

#[export] Instance checkpoint_eq_dec : EqDecision WalCheckpoint.
Proof. solve_decision. Defined.

(** ** Checkpoints *)

(** The order of [sort_by], topic first. *)
Definition offset_compare (a b : TransportOffset) : comparison :=
  match str_compare (to_topic a) (to_topic b) with
  | Eq => to_partition a ?= to_partition b
  | c => c
  end.
Definition offset_le (a b : TransportOffset) : Prop := offset_compare a b ≠ Gt.
#[export] Instance offset_le_dec : RelDecision offset_le.
Proof. intros a b. unfold Decision, offset_le. destruct (offset_compare a b); [by left|by left|right; auto]. Defined.

(** [offsets.windows(2)] has no two equal keys. *)
Fixpoint adjacent_duplicates (offsets : list TransportOffset) : bool :=
  match offsets with
  | a :: (b :: _) as rest =>
      (bool_decide (to_topic a = to_topic b) && (to_partition a =? to_partition b)) || adjacent_duplicates rest
  | _ => false
  end.

Definition canonicalize_offsets (offsets : list TransportOffset) (duplicate_error_kind : ErrorKind)
    : io_result (list TransportOffset) :=
  let offsets := merge_sort offset_le offsets in
  if adjacent_duplicates offsets then
    fail duplicate_error_kind "duplicate checkpoint offset for topic partition"
  else Ok offsets.

Definition checkpoint_try_new (wal_lsn wall_time_ms : Z) (offsets : list TransportOffset)
    : io_result WalCheckpoint :=
  offsets ← canonicalize_offsets offsets InvalidInput;
  Ok (mk_checkpoint wal_lsn wall_time_ms offsets).

(** One iteration of the loop over the offsets. *)
Definition encode_offset (o : TransportOffset) (out : list Z) : io_result (list Z) :=
  topic_len ← ok_or (io_err InvalidInput "checkpoint topic too long") (try_u16 (zlen (to_topic o)));
  let out := out ++ le_bytes 2 topic_len in
  let out := out ++ to_topic o in
  let out := out ++ le_bytes 4 (to_partition o) in
  Ok (out ++ le_bytes 8 (to_next_offset o)).
Fixpoint encode_offsets (offsets : list TransportOffset) (out : list Z) : io_result (list Z) :=
  match offsets with
  | [] => Ok out
  | o :: offsets => out ← encode_offset o out; encode_offsets offsets out
  end.

Definition encode_checkpoint_payload (c : WalCheckpoint) : io_result (list Z) :=
  offsets ← canonicalize_offsets (cp_offsets c) InvalidInput;
  offset_count ← ok_or (io_err InvalidInput "checkpoint offset count exceeds u32") (try_u32 (zlen offsets));
  let out := le_bytes 4 CHECKPOINT_PAYLOAD_MAGIC in
  let out := out ++ le_bytes 2 CHECKPOINT_PAYLOAD_VERSION in
  let out := out ++ le_bytes 2 0 in
  let out := out ++ le_bytes 8 (cp_wal_lsn c) in
  let out := out ++ le_bytes 8 (cp_wall_time_ms c) in
  let out := out ++ le_bytes 4 offset_count in
  encode_offsets offsets out.

Abbreviation truncated := "checkpoint payload truncated"%string.

Definition decode_offset (buf : list Z) (cursor : Z) : io_result (TransportOffset * Z) :=
  '(topic, cursor) ← read_text truncated "checkpoint topic is not valid UTF-8" buf cursor;
  '(partition, cursor) ← read_signed truncated 4 buf cursor;
  '(next_offset, cursor) ← read_signed truncated 8 buf cursor;
  Ok (mk_offset topic partition next_offset, cursor).

Definition decode_checkpoint_payload (payload : list Z) : io_result WalCheckpoint :=
  '(magic, cursor) ← read_unsigned truncated 4 payload 0;
  _ ← ensure (magic =? CHECKPOINT_PAYLOAD_MAGIC) InvalidData "invalid checkpoint payload magic";
  '(version, cursor) ← read_unsigned truncated 2 payload cursor;
  _ ← ensure (version =? CHECKPOINT_PAYLOAD_VERSION) InvalidData "unsupported checkpoint payload version";
  '(_, cursor) ← read_unsigned truncated 2 payload cursor;
  '(wal_lsn, cursor) ← read_unsigned truncated 8 payload cursor;
  '(wall_time_ms, cursor) ← read_signed truncated 8 payload cursor;
  '(offset_count, cursor) ← read_unsigned truncated 4 payload cursor;
  '(offsets, cursor) ← decode_items decode_offset (Z.to_nat offset_count) payload cursor;
  _ ← ensure (cursor =? zlen payload) InvalidData "checkpoint payload has trailing bytes";
  offsets ← canonicalize_offsets offsets InvalidData;
  Ok (mk_checkpoint wal_lsn wall_time_ms offsets).

Definition decode_checkpoint_record (r : WalRecord) : io_result WalCheckpoint :=
  if bool_decide (wr_type r ≠ Checkpoint) then fail InvalidInput "WAL record is not a checkpoint"
  else decode_checkpoint_payload (wr_payload r).

(** ** OTLP batches *)

Definition encode_otlp_batch_payload (b : OtlpWalBatch) : io_result (list Z) :=
  topic_len ← ok_or (io_err InvalidInput "OTLP WAL batch topic too long") (try_u32 (zlen (ob_topic b)));
  payload_len ← ok_or (io_err InvalidInput "OTLP WAL batch protobuf payload length exceeds u64")
    (try_u64 (zlen (ob_payload b)));
  _ ← ok_or (io_err InvalidInput "OTLP WAL batch is too large")
    (len ← checked_add_u64 OTLP_BATCH_HEADER_LEN (zlen (ob_topic b)); checked_add_u64 len (zlen (ob_payload b)));
  let out := le_bytes 4 OTLP_BATCH_PAYLOAD_MAGIC in
  let out := out ++ le_bytes 2 OTLP_BATCH_PAYLOAD_VERSION in
  let out := out ++ le_bytes 2 0 in
  let out := out ++ le_bytes 4 topic_len in
  let out := out ++ le_bytes 4 (ob_partition b) in
  let out := out ++ le_bytes 8 (ob_offset b) in
  let out := out ++ le_bytes 8 (ob_source_timestamp_ms b) in
  let out := out ++ le_bytes 8 (ob_captured_at_ms b) in
  let out := out ++ le_bytes 8 payload_len in
  let out := out ++ ob_topic b in
  Ok (out ++ ob_payload b).

Definition decode_otlp_batch_payload (payload : list Z) : io_result OtlpWalBatch :=
  '(magic, cursor) ← read_unsigned truncated 4 payload 0;
  _ ← ensure (magic =? OTLP_BATCH_PAYLOAD_MAGIC) InvalidData "invalid OTLP WAL batch payload magic";
  '(version, cursor) ← read_unsigned truncated 2 payload cursor;
  _ ← ensure (version =? OTLP_BATCH_PAYLOAD_VERSION) Unsupported "unsupported OTLP WAL batch payload version";
  '(flags, cursor) ← read_unsigned truncated 2 payload cursor;
  _ ← ensure (flags =? 0) InvalidData "unsupported OTLP WAL batch payload flags";
  '(topic_len, cursor) ← read_unsigned truncated 4 payload cursor;
  '(partition, cursor) ← read_signed truncated 4 payload cursor;
  '(offset, cursor) ← read_signed truncated 8 payload cursor;
  '(source_timestamp_ms, cursor) ← read_signed truncated 8 payload cursor;
  '(captured_at_ms, cursor) ← read_signed truncated 8 payload cursor;
  '(otlp_payload_len, cursor) ← read_unsigned truncated 8 payload cursor;
  required_payload_len ← ok_or (io_err UnexpectedEof "OTLP WAL batch is truncated")
    (checked_add_u64 topic_len otlp_payload_len);
  _ ← ensure (required_payload_len <=? saturating_sub (zlen payload) cursor)
    UnexpectedEof "OTLP WAL batch is truncated";
  '(topic_bytes, cursor) ← read_bytes truncated topic_len payload cursor;
  topic ← ok_or (io_err InvalidData "OTLP WAL batch topic is not valid UTF-8") (from_utf8 topic_bytes);
  '(otlp_payload, cursor) ← read_bytes truncated otlp_payload_len payload cursor;
  _ ← ensure (cursor =? zlen payload) InvalidData "OTLP WAL batch payload has trailing bytes";
  Ok (mk_batch topic partition offset source_timestamp_ms captured_at_ms otlp_payload).

(** ** Records *)

Section records.
Context `{Crc32c}.

Definition wal_format : frame_format :=
  mk_format WAL_RECORD_MAGIC WAL_RECORD_VERSION "invalid WAL record magic" "unsupported WAL record version"
    "WAL record checksum mismatch".

(** The bytes handed to the writer. *)
Definition write_wal_record (t : WalRecordType) (payload : list Z) : list Z :=
  frame wal_format (as_u16 t) payload.

Definition read_wal_record (s : list Z) : run (option (WalRecord * list Z)) :=
  r ← read_frame wal_format from_u16 s;
  Ok ('(t, payload, s) ← r; Some (mk_wal_record t payload, s)).

(** [WalWriter] on the file's bytes: [append] returns the record's offset. *)
Definition append (file : list Z) (t : WalRecordType) (payload : list Z) : list Z * Z :=
  (file ++ write_wal_record t payload, zlen file).

Definition append_otlp_batch (file : list Z) (b : OtlpWalBatch) : io_result (list Z * Z) :=
  payload ← encode_otlp_batch_payload b;
  Ok (append file OtlpBatch payload).

Definition append_checkpoint (file : list Z) (wall_time_ms : Z) (offsets : list TransportOffset)
    : io_result (list Z * WalCheckpoint) :=
  let wal_lsn := zlen file in
  c ← checkpoint_try_new wal_lsn wall_time_ms offsets;
  payload ← encode_checkpoint_payload c;
  let '(file, _) := append file Checkpoint payload in
  Ok (file, c).

End records.

(** ** File names and sequence numbers *)

Definition wal_prefix : str := [119; 97; 108; 45].        (* wal- *)
Definition log_suffix : str := [46; 108; 111; 103].       (* .log *)

Definition wal_file_name (sequence : Z) : str :=
  wal_prefix ++ zero_padded 6 (decimal sequence) ++ log_suffix.

Definition parse_wal_file_name (file_name : str) : io_result Z :=
  raw_sequence ← ok_or (io_err InvalidInput "WAL file name must be wal-000000.log style")
    (v ← strip_prefix wal_prefix file_name; strip_suffix log_suffix v);
  _ ← ensure ((zlen raw_sequence =? 6) && forallb digit raw_sequence)
    InvalidInput "WAL file sequence must be six decimal digits";
  ok_or (io_err InvalidInput "number too large to fit in target type") (parse_unsigned u32_max raw_sequence).

Definition wal_lsn (sequence offset : Z) : io_result Z :=
  if WAL_LSN_MAX_SEQUENCE <? sequence then
    fail InvalidInput "WAL file sequence exceeds encodable LSN range"
  else if WAL_LSN_OFFSET_MASK <? offset then
    fail InvalidInput "WAL file offset exceeds encodable LSN range"
  else Ok (Z.lor (wrap_u64 (Z.shiftl sequence WAL_LSN_SEQUENCE_SHIFT)) offset).

Definition wal_lsn_sequence (lsn : Z) : Z := Z.shiftr lsn WAL_LSN_SEQUENCE_SHIFT `mod` 4294967296.
Definition wal_lsn_offset (lsn : Z) : Z := Z.land lsn WAL_LSN_OFFSET_MASK.

(** ** The order of offsets *)

Definition offset_lt (a b : TransportOffset) : Prop := offset_compare a b = Lt.
Definition offset_key (o : TransportOffset) : str * Z := (to_topic o, to_partition o).

Lemma offset_compare_eq a b : offset_compare a b = Eq ↔ offset_key a = offset_key b.
Proof.
  unfold offset_compare, offset_key. destruct (str_compare (to_topic a) (to_topic b)) eqn:Hc.
  - apply str_compare_eq in Hc. rewrite Z.compare_eq_iff, Hc. split; [by intros ->|by intros [= ->]].
  - split; [done|]. intros [= Heq _]. apply str_compare_eq in Heq. congruence.
  - split; [done|]. intros [= Heq _]. apply str_compare_eq in Heq. congruence.
Qed.
Lemma offset_compare_antisym a b : offset_compare b a = CompOpp (offset_compare a b).
Proof.
  unfold offset_compare. rewrite (str_compare_antisym (to_topic a)).
  destruct (str_compare _ _); cbn; [apply Z.compare_antisym|done|done].
Qed.
Lemma offset_lt_trans a b c : offset_lt a b → offset_lt b c → offset_lt a c.
Proof.
  unfold offset_lt, offset_compare. intros H1 H2.
  destruct (str_compare (to_topic a) (to_topic b)) eqn:E1; [|clear H1|done].
  - apply str_compare_eq in E1 as ->. destruct (str_compare (to_topic b) (to_topic c)); [|done|done].
    rewrite Z.compare_lt_iff in *. lia.
  - destruct (str_compare (to_topic b) (to_topic c)) eqn:E2; [|clear H2|done].
    + apply str_compare_eq in E2 as <-. by rewrite E1.
    + by rewrite (str_compare_trans _ _ _ E1 E2).
Qed.
#[export] Instance offset_lt_transitive : Transitive offset_lt.
Proof. exact offset_lt_trans. Qed.

Lemma offset_le_cases a b : offset_le a b ↔ offset_lt a b ∨ offset_key a = offset_key b.
Proof. unfold offset_le, offset_lt. rewrite <- offset_compare_eq. destruct (offset_compare a b); naive_solver. Qed.
Lemma offset_key_lt_l a b c : offset_key a = offset_key b → offset_lt b c → offset_lt a c.
Proof. unfold offset_key, offset_lt, offset_compare. by intros [= -> ->]. Qed.
Lemma offset_key_lt_r a b c : offset_key b = offset_key c → offset_lt a b → offset_lt a c.
Proof. unfold offset_key, offset_lt, offset_compare. by intros [= -> ->]. Qed.

#[export] Instance offset_le_total : Total offset_le.
Proof.
  intros a b. unfold offset_le. rewrite (offset_compare_antisym a b). destruct (offset_compare a b); naive_solver.
Qed.
#[export] Instance offset_le_trans : Transitive offset_le.
Proof.
  intros a b c [H1|H1]%offset_le_cases [H2|H2]%offset_le_cases; apply offset_le_cases.
  - left. by eapply offset_lt_trans.
  - left. by eapply offset_key_lt_r.
  - left. by eapply offset_key_lt_l.
  - right. congruence.
Qed.
Lemma offset_lt_irrefl a : ¬ offset_lt a a.
Proof. unfold offset_lt. by rewrite (proj2 (offset_compare_eq a a) eq_refl). Qed.

(** Sorted without adjacent duplicates is strictly sorted. *)
Lemma strictly_sorted l : StronglySorted offset_le l → adjacent_duplicates l = false ↔ StronglySorted offset_lt l.
Proof.
  intros Hs. induction l as [|a [|b l] IH]; [by repeat constructor..|].
  apply StronglySorted_cons in Hs as [Ha Hs]. specialize (IH Hs).
  change (adjacent_duplicates (a :: b :: l)) with
    ((bool_decide (to_topic a = to_topic b) && (to_partition a =? to_partition b)) || adjacent_duplicates (b :: l)).
  assert (bool_decide (to_topic a = to_topic b) && (to_partition a =? to_partition b) = false ↔ offset_lt a b) as Hab.
  { apply Forall_cons_1 in Ha as [Hab%offset_le_cases _]. unfold offset_key in Hab.
    split.
    - destruct Hab as [|[= H1 H2]]; [done|]. rewrite bool_decide_true, H2, Z.eqb_refl by done. done.
    - intros Hlt. apply not_true_iff_false. intros [H1%bool_decide_eq_true H2%Z.eqb_eq]%andb_true_iff.
      apply (offset_lt_irrefl b). apply (offset_key_lt_l b a b); [|done]. unfold offset_key. congruence. }
  rewrite orb_false_iff, Hab, IH, (StronglySorted_cons offset_lt _ a). split.
  - intros [Hlt Hss]. split; [|done]. constructor; [done|]. apply StronglySorted_cons in Hss as [Hb _].
    eapply Forall_impl; [exact Hb|]. cbn. intros c Hbc. by eapply offset_lt_trans.
  - intros [Hlt Hss]. split; [|done]. by apply Forall_cons_1 in Hlt as [Hlt _].
Qed.

Lemma sorted_lt_le l : StronglySorted offset_lt l → StronglySorted offset_le l.
Proof.
  induction 1 as [|a l Hs IH Ha]; constructor; [done|]. eapply Forall_impl; [exact Ha|]. cbn. intros b Hb.
  apply offset_le_cases. by left.
Qed.
(** Strict order separates the keys, so the sorted list is unique. *)
Lemma strictly_sorted_unique l l' :
  StronglySorted offset_le l → StronglySorted offset_lt l' → l ≡ₚ l' → l = l'.
Proof.
  intros Hl Hl' Hp. apply (StronglySorted_unique_strong offset_le); [|done|by apply sorted_lt_le|done].
  intros a b Ha Hb Hab Hba. rewrite Hp in Ha. clear Hp Hl. revert a b Ha Hb Hab Hba.
  assert (∀ a b, offset_le a b → offset_le b a → ¬ offset_lt a b) as Hno.
  { intros a b _ Hba%offset_le_cases Hab. destruct Hba as [Hba|Hk].
    - by apply (offset_lt_irrefl a), (offset_lt_trans _ b).
    - by apply (offset_lt_irrefl a), (offset_key_lt_r a b a). }
  induction Hl' as [|c l' Hs IH Hc]; [by intros ? ? ?%not_elem_of_nil|]. rewrite Forall_forall in Hc.
  intros a b [->|Ha]%elem_of_cons [->|Hb]%elem_of_cons Hab Hba; [done| | |by apply IH].
  - exfalso. eapply Hno; [exact Hab|exact Hba|by apply Hc].
  - exfalso. eapply Hno; [exact Hba|exact Hab|by apply Hc].
Qed.

Lemma canonicalize_ok offsets k l :
  canonicalize_offsets offsets k = Ok l ↔ l ≡ₚ offsets ∧ StronglySorted offset_lt l.
Proof.
  unfold canonicalize_offsets.
  pose proof (StronglySorted_merge_sort offset_le offsets) as Hs.
  pose proof (merge_sort_Permutation offset_le offsets) as Hp. revert Hs Hp.
  generalize (merge_sort offset_le offsets). intros m Hs Hp. split.
  - destruct (adjacent_duplicates m) eqn:Hd; [done|]. intros [= <-]. split; [done|]. by apply strictly_sorted.
  - intros [Hl Hls]. assert (m = l) as -> by (apply strictly_sorted_unique; [done|done|by rewrite Hp]).
    by rewrite (proj2 (strictly_sorted l Hs) Hls).
Qed.

(** Sorting fails exactly on a repeated key. *)
Lemma canonicalize_total offsets k :
  is_ok (canonicalize_offsets offsets k) = true ↔ NoDup (offset_key <$> offsets).
Proof.
  unfold canonicalize_offsets. pose proof (StronglySorted_merge_sort offset_le offsets) as Hs.
  pose proof (merge_sort_Permutation offset_le offsets) as Hp. revert Hs Hp.
  generalize (merge_sort offset_le offsets). intros m Hs Hp.
  assert (NoDup (offset_key <$> offsets) ↔ NoDup (offset_key <$> m)) as -> by by rewrite Hp.
  assert (NoDup (offset_key <$> m) ↔ StronglySorted offset_lt m) as ->.
  { clear Hp. induction Hs as [|a l Hs IH Ha]; [split; constructor|]. rewrite fmap_cons, NoDup_cons.
    rewrite IH, StronglySorted_cons. split; intros [H1 H2]; (split; [|exact H2]).
    - apply Forall_forall. intros b Hb. rewrite Forall_forall in Ha. destruct (proj1 (offset_le_cases a b) (Ha b Hb)) as [|Heq]; [done|].
      exfalso. apply H1. rewrite Heq. by apply list_elem_of_fmap_2.
    - intros (b & Heq & Hb)%list_elem_of_fmap. rewrite Forall_forall in H1. specialize (H1 b Hb).
      apply (offset_lt_irrefl b). by eapply offset_key_lt_l. }
  rewrite <- strictly_sorted by done. destruct (adjacent_duplicates m); split; done.
Qed.

(** ** Payloads *)

Definition offset_bytes (o : TransportOffset) : list Z :=
  text_bytes (to_topic o) ++ le_bytes 4 (to_partition o) ++ le_bytes 8 (to_next_offset o).
Definition offset_ok (o : TransportOffset) : Prop :=
  text_ok (to_topic o) ∧ in_i32 (to_partition o) ∧ in_i64 (to_next_offset o).

#[export] Instance offset_codec : Codec (λ _, decode_offset) offset_bytes offset_ok.
Proof.
  split.
  - intros al buf c [t p n] rest Hal Hr (Ht & Hp & Hn). unfold offset_bytes in Hr. cbn in Hr, Ht, Hp, Hn.
    rewrite <- !app_assoc in Hr. unfold decode_offset.
    read_fwd (text_codec truncated "checkpoint topic is not valid UTF-8") Hr.
    read_fwd (fixed_i32_codec truncated) Hr. read_fwd (fixed_i64_codec truncated) Hr. by eexists.
  - intros al buf c l o c' Hr Hd. unfold decode_offset in Hd.
    read_inv (text_codec truncated "checkpoint topic is not valid UTF-8") al Hr Hd t Ht.
    read_inv (fixed_i32_codec truncated) al Hr Hd p Hp. read_inv (fixed_i64_codec truncated) al Hr Hd n Hn.
    injection Hd as <- <-. eexists. unfold offset_bytes. rewrite <- !app_assoc. by split_and!.
Qed.

(** The fixed part, with the ignored field as it was read, and the offsets. *)
Definition checkpoint_bytes (reserved : Z) (c : WalCheckpoint) : list Z :=
  le_bytes 4 CHECKPOINT_PAYLOAD_MAGIC ++ le_bytes 2 CHECKPOINT_PAYLOAD_VERSION ++ le_bytes 2 reserved ++
  le_bytes 8 (cp_wal_lsn c) ++ le_bytes 8 (cp_wall_time_ms c) ++ le_bytes 4 (zlen (cp_offsets c)) ++
  mjoin (offset_bytes <$> cp_offsets c).

(** The ranges of the fields' types; a topic is a [String]. *)
Definition checkpoint_ok (c : WalCheckpoint) : Prop :=
  in_u64 (cp_wal_lsn c) ∧ in_i64 (cp_wall_time_ms c) ∧
  Forall (λ o, is_str (to_topic o) ∧ in_i32 (to_partition o) ∧ in_i64 (to_next_offset o)) (cp_offsets c).

Lemma encode_offset_ok o out bs :
  encode_offset o out = Ok bs ↔ zlen (to_topic o) ≤ u16_max ∧ bs = out ++ offset_bytes o.
Proof.
  unfold encode_offset, offset_bytes, text_bytes. rewrite bind_ok. pose proof (zlen_nonneg (to_topic o)). split.
  - intros (n & Hn & Hbs). destruct (try_u16 (zlen (to_topic o))) as [n'|] eqn:Hu; [|done]. injection Hn as ->.
    apply try_u16_Some in Hu as [-> [_ Hu]]. injection Hbs as <-. by rewrite <- !app_assoc.
  - intros [Hu ->]. exists (zlen (to_topic o)). rewrite try_u16_fits by (unfold in_u16; lia). by rewrite <- !app_assoc.
Qed.
Lemma encode_offsets_ok l : ∀ out bs,
  encode_offsets l out = Ok bs ↔
  Forall (λ o, zlen (to_topic o) ≤ u16_max) l ∧ bs = out ++ mjoin (offset_bytes <$> l).
Proof.
  induction l as [|o l IH]; intros out bs; cbn [encode_offsets].
  - rewrite app_nil_r. naive_solver.
  - rewrite bind_ok, join_fmap_cons, Forall_cons, app_assoc. setoid_rewrite encode_offset_ok. setoid_rewrite IH.
    naive_solver.
Qed.

Lemma encode_checkpoint_ok c bs :
  encode_checkpoint_payload c = Ok bs ↔
  ∃ l, canonicalize_offsets (cp_offsets c) InvalidInput = Ok l ∧ zlen l ≤ u32_max ∧
    Forall (λ o, zlen (to_topic o) ≤ u16_max) l ∧
    bs = checkpoint_bytes 0 (mk_checkpoint (cp_wal_lsn c) (cp_wall_time_ms c) l).
Proof.
  unfold encode_checkpoint_payload, checkpoint_bytes. rewrite bind_ok. apply exist_proper. intros l.
  rewrite bind_ok. setoid_rewrite encode_offsets_ok. pose proof (zlen_nonneg l). cbn [cp_wal_lsn cp_wall_time_ms cp_offsets].
  split.
  - intros (Hl & n & Hn & Ht & ->). destruct (try_u32 (zlen l)) as [n'|] eqn:Hu; [|done]. injection Hn as ->.
    apply try_u32_Some in Hu as [-> [_ Hu]]. split_and!; [done..|]. by rewrite <- !app_assoc.
  - intros (Hl & Hu & Ht & ->). split; [done|]. exists (zlen l). rewrite try_u32_fits by (unfold in_u32; lia).
    split_and!; [done..|]. by rewrite <- !app_assoc.
Qed.

Lemma encode_checkpoint_total c :
  is_ok (encode_checkpoint_payload c) = true ↔
  NoDup (offset_key <$> cp_offsets c) ∧ zlen (cp_offsets c) ≤ u32_max ∧ Forall (λ o, zlen (to_topic o) ≤ u16_max) (cp_offsets c).
Proof.
  rewrite <- (canonicalize_total (cp_offsets c) InvalidInput). split.
  - destruct (encode_checkpoint_payload c) as [out|] eqn:He; [|done]. intros _.
    apply encode_checkpoint_ok in He as (l & Hl & Hn & Ht & _). rewrite Hl. apply canonicalize_ok in Hl as [Hp _].
    unfold zlen in *. rewrite <- (Permutation_length Hp), <- Hp. done.
  - intros (Hk & Hn & Ht). destruct (canonicalize_offsets _ _) as [l|] eqn:Hl; [|done].
    pose proof Hl as [Hp _]%canonicalize_ok. unfold zlen in Hn. rewrite <- (Permutation_length Hp) in Hn. rewrite <- Hp in Ht.
    assert (encode_checkpoint_payload c = Ok (checkpoint_bytes 0 (mk_checkpoint (cp_wal_lsn c) (cp_wall_time_ms c) l))) as ->;
      [|done]. apply encode_checkpoint_ok. by exists l.
Qed.
Lemma offsets_fit l : Forall (λ o, is_str (to_topic o) ∧ in_i32 (to_partition o) ∧ in_i64 (to_next_offset o)) l →
  Forall (λ o, zlen (to_topic o) ≤ u16_max) l → Forall offset_ok l.
Proof.
  intros Hl Ht. apply Forall_forall. intros o Ho. rewrite Forall_forall in Hl, Ht. destruct (Hl o Ho) as (? & ? & ?).
  split; [|done]. split; [done|by apply Ht].
Qed.

Lemma bytes_offset o : offset_ok o → bytes (offset_bytes o).
Proof.
  intros ([Hs _] & _). unfold offset_bytes, text_bytes. rewrite !Forall_app.
  split_and!; by apply bytes_le_bytes || apply Hs.
Qed.
Lemma bytes_checkpoint r c : Forall offset_ok (cp_offsets c) → bytes (checkpoint_bytes r c).
Proof.
  intros Ho. unfold checkpoint_bytes. rewrite !Forall_app. split_and!; try by apply bytes_le_bytes.
  induction Ho as [|o l Ho _ IH]; [constructor|]. rewrite join_fmap_cons. apply Forall_app.
  split; [by apply bytes_offset|done].
Qed.

(** Decoding a checkpoint's bytes, whatever the ignored field and the order of its
    offsets; the buffer is a Rust slice. *)
Lemma decode_checkpoint_bytes r c l :
  checkpoint_ok c → in_u16 r → Forall offset_ok (cp_offsets c) → zlen (cp_offsets c) ≤ u32_max →
  l ≡ₚ cp_offsets c → StronglySorted offset_lt l → vec_ok (checkpoint_bytes r c) →
  decode_checkpoint_payload (checkpoint_bytes r c) = Ok (mk_checkpoint (cp_wal_lsn c) (cp_wall_time_ms c) l).
Proof.
  intros (Hlsn & Htime & _) Hrv Ho Hcount Hperm Hsorted Hvec. assert (grants alloc_ok) as Hal by done.
  pose proof (cursor_start _ (bytes_checkpoint r c Ho) Hvec) as Hr.
  remember (checkpoint_bytes r c) as buf eqn:Hbuf. rewrite Hbuf in Hr at 2. unfold checkpoint_bytes in Hr.
  unfold decode_checkpoint_payload. pose proof (zlen_nonneg (cp_offsets c)).
  read_fwd (u32_codec truncated) Hr. rewrite Z.eqb_refl. cbn [ensure mbind result_bind].
  read_fwd (u16_codec truncated) Hr. rewrite Z.eqb_refl. cbn [ensure mbind result_bind].
  read_fwd (u16_codec truncated) Hr. read_fwd (u64_codec truncated) Hr. read_fwd (fixed_i64_codec truncated) Hr.
  read_fwd (u32_codec truncated) Hr.
  rewrite <- (app_nil_r (mjoin _)) in Hr.
  replace (Z.to_nat (zlen (cp_offsets c))) with (length (cp_offsets c)) by (unfold zlen; lia).
  read_fwd (items_codec (λ _, decode_offset) offset_bytes offset_ok (length (cp_offsets c)) offset_codec) Hr.
  apply cursor_zlen in Hr. rewrite zlen_nil in Hr. rewrite (proj2 (Z.eqb_eq _ _)) by lia. cbn [ensure mbind result_bind].
  by rewrite (proj2 (canonicalize_ok (cp_offsets c) InvalidData l)) by done.
Qed.

(** What decodes is a checkpoint's bytes, the ignored field and the order of the
    offsets apart. *)
Lemma decode_checkpoint_inv bs c :
  bytes bs → vec_ok bs → decode_checkpoint_payload bs = Ok c →
  checkpoint_ok c ∧ StronglySorted offset_lt (cp_offsets c) ∧ Forall offset_ok (cp_offsets c) ∧
  zlen (cp_offsets c) ≤ u32_max ∧ ∃ r offsets, in_u16 r ∧ offsets ≡ₚ cp_offsets c ∧
    bs = checkpoint_bytes r (mk_checkpoint (cp_wal_lsn c) (cp_wall_time_ms c) offsets).
Proof.
  intros Hb Hv Hd. pose proof (cursor_start _ Hb Hv) as Hr. unfold decode_checkpoint_payload in Hd.
  remember bs as buf eqn:Hbuf. rewrite Hbuf in Hr at 2. rewrite Hbuf. clear Hbuf.
  read_inv (u32_codec truncated) alloc_ok Hr Hd magic Hmagic.
  apply bind_ok in Hd as (u1 & E1%ensure_ok_inv%Z.eqb_eq & Hd). subst magic.
  read_inv (u16_codec truncated) alloc_ok Hr Hd version Hversion.
  apply bind_ok in Hd as (u2 & E2%ensure_ok_inv%Z.eqb_eq & Hd). subst version.
  read_inv (u16_codec truncated) alloc_ok Hr Hd reserved Hres.
  read_inv (u64_codec truncated) alloc_ok Hr Hd lsn Hlsn. read_inv (fixed_i64_codec truncated) alloc_ok Hr Hd time Htime.
  read_inv (u32_codec truncated) alloc_ok Hr Hd count Hcount.
  read_inv (items_codec (λ _, decode_offset) offset_bytes offset_ok (Z.to_nat count) offset_codec) alloc_ok Hr Hd offs Hoffs.
  apply bind_ok in Hd as (u3 & E3%ensure_ok_inv%Z.eqb_eq & Hd).
  apply bind_ok in Hd as (l & [Hl Hs]%canonicalize_ok & Hd). injection Hd as <-. cbn.
  destruct Hoffs as [Hn Ho]. apply cursor_zlen in Hr.
  match goal with H : zlen ?rest = _ |- context [?rest] => assert (rest = []) as -> by (apply zlen_0; lia) end.
  assert (Forall offset_ok l) as Hol by by rewrite Hl. assert (zlen offs = count) as Hz by (unfold zlen; unfold in_u32 in Hcount; lia).
  assert (zlen l = count) as Hzl by (unfold zlen in *; by rewrite (Permutation_length Hl)). split_and!; try done.
  - unfold checkpoint_ok. cbn. split_and!; [done|done|]. eapply Forall_impl; [exact Hol|]. by intros o ([? _] & ? & ?).
  - rewrite Hzl. apply Hcount.
  - exists reserved, offs. split_and!; [done|by symmetry|]. unfold checkpoint_bytes. cbn. by rewrite app_nil_r, Hz.
Qed.

Definition batch_bytes (b : OtlpWalBatch) : list Z :=
  le_bytes 4 OTLP_BATCH_PAYLOAD_MAGIC ++ le_bytes 2 OTLP_BATCH_PAYLOAD_VERSION ++ le_bytes 2 0 ++
  le_bytes 4 (zlen (ob_topic b)) ++ le_bytes 4 (ob_partition b) ++ le_bytes 8 (ob_offset b) ++
  le_bytes 8 (ob_source_timestamp_ms b) ++ le_bytes 8 (ob_captured_at_ms b) ++ le_bytes 8 (zlen (ob_payload b)) ++
  ob_topic b ++ ob_payload b.

(** The types of the fields. *)
Definition batch_ok (b : OtlpWalBatch) : Prop :=
  is_str (ob_topic b) ∧ in_i32 (ob_partition b) ∧ in_i64 (ob_offset b) ∧ in_i64 (ob_source_timestamp_ms b) ∧
  in_i64 (ob_captured_at_ms b) ∧ bytes (ob_payload b) ∧ vec_ok (ob_payload b).

Lemma encode_batch_ok b bs : batch_ok b →
  encode_otlp_batch_payload b = Ok bs ↔ zlen (ob_topic b) ≤ u32_max ∧ bs = batch_bytes b.
Proof.
  intros ((_ & _ & Hs) & _ & _ & _ & _ & _ & Hp). unfold encode_otlp_batch_payload.
  pose proof (zlen_nonneg (ob_topic b)). pose proof (zlen_nonneg (ob_payload b)).
  rewrite (try_u64_fits (zlen (ob_payload b))) by (unfold in_u64; lia).
  assert (zlen (ob_topic b) ≤ u32_max →
    (len ← checked_add_u64 OTLP_BATCH_HEADER_LEN (zlen (ob_topic b)); checked_add_u64 len (zlen (ob_payload b))) =
    Some (OTLP_BATCH_HEADER_LEN + zlen (ob_topic b) + zlen (ob_payload b))) as Hcap.
  { intros. unfold OTLP_BATCH_HEADER_LEN. rewrite checked_add_u64_fits by lia. cbn [mbind option_bind].
    by rewrite checked_add_u64_fits by lia. }
  split.
  - intros Hd. apply bind_ok in Hd as (n & Hn & Hd). destruct (try_u32 (zlen (ob_topic b))) as [n'|] eqn:Hu; [|done].
    injection Hn as ->. apply try_u32_Some in Hu as [-> [_ Hu]]. rewrite (Hcap Hu) in Hd. cbn [ok_or mbind result_bind] in Hd. apply ok_inj in Hd as <-.
    split; [done|]. unfold batch_bytes. by rewrite <- !app_assoc.
  - intros [Hu ->]. rewrite try_u32_fits by (unfold in_u32; lia). rewrite (Hcap Hu). cbn [ok_or mbind result_bind]. unfold batch_bytes. by rewrite <- !app_assoc.
Qed.

Lemma bytes_batch b : batch_ok b → bytes (batch_bytes b).
Proof.
  intros ((Ht & _) & _ & _ & _ & _ & Hp & _). unfold batch_bytes. rewrite !Forall_app.
  split_and!; try by apply bytes_le_bytes. all: done.
Qed.

#[local] Instance sized_bytes_codec (b : list Z) : Codec (λ _, read_bytes truncated (zlen b)) (λ x, x) (λ x, zlen x = zlen b ∧ bytes x).
Proof. apply bytes_codec. rewrite (proj2 (Z.leb_le _ _) (zlen_nonneg b)). done. Qed.

Lemma decode_batch_bytes b : batch_ok b → zlen (ob_topic b) ≤ u32_max → vec_ok (batch_bytes b) →
  decode_otlp_batch_payload (batch_bytes b) = Ok b.
Proof.
  intros Hok Hu Hvec. assert (grants alloc_ok) as Hal by done.
  pose proof (cursor_start _ (bytes_batch b Hok) Hvec) as Hr.
  remember (batch_bytes b) as buf eqn:Hbuf. rewrite Hbuf in Hr at 2. unfold batch_bytes in Hr.
  destruct b as [t p o st ct pl]. destruct Hok as (Ht & Hp & Ho & Hst & Hct & Hb & Hl). cbn in * |-.
  unfold decode_otlp_batch_payload. pose proof (zlen_nonneg t). pose proof (zlen_nonneg pl).
  read_fwd (u32_codec truncated) Hr. rewrite Z.eqb_refl. cbn [ensure mbind result_bind].
  read_fwd (u16_codec truncated) Hr. rewrite Z.eqb_refl. cbn [ensure mbind result_bind].
  read_fwd (u16_codec truncated) Hr. rewrite Z.eqb_refl. cbn [ensure mbind result_bind].
  read_fwd (u32_codec truncated) Hr. read_fwd (fixed_i32_codec truncated) Hr.
  read_fwd (fixed_i64_codec truncated) Hr. read_fwd (fixed_i64_codec truncated) Hr. read_fwd (fixed_i64_codec truncated) Hr.
  read_fwd (u64_codec truncated) Hr. { unfold in_u64. lia. }
  pose proof (cursor_zlen _ _ _ Hr) as Hz. rewrite zlen_app in Hz. destruct Ht as (Htb & Htu & Htv).
  rewrite checked_add_u64_fits by lia. cbn [ok_or mbind result_bind].
  rewrite (proj2 (Z.leb_le _ _)) by (unfold saturating_sub; lia). cbn [ensure mbind result_bind].
  read_fwd (sized_bytes_codec t) Hr. rewrite from_utf8_str by done. cbn [ok_or mbind result_bind].
  rewrite <- (app_nil_r pl) in Hr. read_fwd (sized_bytes_codec pl) Hr.
  apply cursor_zlen in Hr. rewrite zlen_nil in Hr. rewrite (proj2 (Z.eqb_eq _ _)) by lia. done.
Qed.

Lemma decode_batch_inv bs b : bytes bs → vec_ok bs → decode_otlp_batch_payload bs = Ok b →
  batch_ok b ∧ zlen (ob_topic b) ≤ u32_max ∧ bs = batch_bytes b.
Proof.
  intros Hb Hv Hd. pose proof (cursor_start _ Hb Hv) as Hr. unfold decode_otlp_batch_payload in Hd.
  remember bs as buf eqn:Hbuf. rewrite Hbuf in Hr at 2. rewrite Hbuf. clear Hbuf.
  read_inv (u32_codec truncated) alloc_ok Hr Hd magic Hmagic.
  apply bind_ok in Hd as (u1 & E1%ensure_ok_inv%Z.eqb_eq & Hd). subst magic.
  read_inv (u16_codec truncated) alloc_ok Hr Hd version Hversion.
  apply bind_ok in Hd as (u2 & E2%ensure_ok_inv%Z.eqb_eq & Hd). subst version.
  read_inv (u16_codec truncated) alloc_ok Hr Hd flags Hflags.
  apply bind_ok in Hd as (u3 & E3%ensure_ok_inv%Z.eqb_eq & Hd). subst flags.
  read_inv (u32_codec truncated) alloc_ok Hr Hd topic_len Htl. read_inv (fixed_i32_codec truncated) alloc_ok Hr Hd p Hp.
  read_inv (fixed_i64_codec truncated) alloc_ok Hr Hd o Ho. read_inv (fixed_i64_codec truncated) alloc_ok Hr Hd st Hst.
  read_inv (fixed_i64_codec truncated) alloc_ok Hr Hd ct Hct. read_inv (u64_codec truncated) alloc_ok Hr Hd payload_len Hpl.
  apply bind_ok in Hd as (required & _ & Hd). apply bind_ok in Hd as (u4 & _ & Hd).
  assert (TCEq (0 <=? topic_len) true) as Htl' by (rewrite (proj2 (Z.leb_le _ _)) by apply Htl; done).
  assert (TCEq (0 <=? payload_len) true) as Hpl' by (rewrite (proj2 (Z.leb_le _ _)) by apply Hpl; done).
  pose proof (cursor_zlen _ _ _ Hr) as Hz. pose proof Hr as (_ & _ & Hc & _).
  read_inv (bytes_codec truncated topic_len Htl') alloc_ok Hr Hd topic Htopic.
  apply bind_ok in Hd as (s & Hs & Hd). destruct (from_utf8 topic) as [s'|] eqn:Hu; [|done]. injection Hs as ->.
  apply from_utf8_inv in Hu as [-> Hu].
  read_inv (bytes_codec truncated payload_len Hpl') alloc_ok Hr Hd pl Hpay.
  apply bind_ok in Hd as (u5 & E5%ensure_ok_inv%Z.eqb_eq & Hd). injection Hd as <-.
  destruct Htopic as [<- Htb], Hpay as [<- Hpb]. apply cursor_zlen in Hr.
  match goal with H : zlen ?rest = _ |- context [?rest] => assert (rest = []) as -> by (apply zlen_0; lia) end.
  unfold in_u32, in_u64 in *. split.
  - unfold batch_ok, is_str. cbn. split_and!; try done; rewrite !zlen_app in Hz;
      pose proof (zlen_nonneg pl); pose proof (zlen_nonneg topic); lia.
  - split; [cbn; lia|]. unfold batch_bytes. cbn [ob_topic ob_partition ob_offset ob_source_timestamp_ms ob_captured_at_ms ob_payload].
    by rewrite app_nil_r.
Qed.

(** ** Names and sequence numbers *)

Lemma parse_name_inv name n : parse_wal_file_name name = Ok n ↔
  ∃ ds, name = wal_prefix ++ ds ++ log_suffix ∧ length ds = 6%nat ∧ Forall (λ b, digit b = true) ds ∧ n = digits_value ds.
Proof.
  unfold parse_wal_file_name. rewrite bind_ok. split.
  - intros (ds & Hds & Hd). destruct (_ ≫= _) as [ds'|] eqn:Hs in Hds; [|done]. injection Hds as ->.
    apply bind_Some in Hs as (v & Hv%strip_prefix_Some & Hs%strip_suffix_Some). subst.
    apply bind_ok in Hd as (u & [Hl%Z.eqb_eq Hf]%ensure_ok_inv%andb_true_iff & Hd).
    assert (Forall (λ b, digit b = true) ds) as Hall.
    { apply Forall_forall. intros b Hb. rewrite forallb_forall in Hf. by apply Hf, list_elem_of_In. }
    assert (length ds = 6%nat) as Hlen by (unfold zlen in Hl; lia).
    assert (digits_value ds < 10 ^ zlen ds) as Hb by by apply digits_bound. rewrite Hl in Hb. change (10 ^ 6) with 1000000 in Hb.
    rewrite parse_unsigned_digits in Hd by (done || lia || by destruct ds). apply ok_inj in Hd as <-. by exists ds.
  - intros (ds & -> & Hlen & Hall & ->). exists ds. rewrite strip_prefix_app. cbn [mbind option_bind].
    rewrite strip_suffix_app. split; [done|].
    assert (zlen ds = 6) as Hl by (unfold zlen; lia). rewrite Hl.
    assert (forallb digit ds = true) as ->.
    { apply forallb_forall. intros b Hb%list_elem_of_In. rewrite Forall_forall in Hall. by apply Hall. }
    cbn [Z.eqb ensure andb mbind result_bind].
    assert (digits_value ds < 10 ^ zlen ds) as Hb by by apply digits_bound. rewrite Hl in Hb. change (10 ^ 6) with 1000000 in Hb.
    by rewrite parse_unsigned_digits by (done || lia || by destruct ds).
Qed.

(** Six digits hold a sequence below a million, and only those. *)
Lemma padded_length n : in_u32 n → length (zero_padded 6 (decimal n)) = 6%nat ↔ n ≤ 999999.
Proof.
  intros Hn. assert (in_u64 n) as Hn64 by (unfold in_u32, in_u64 in *; lia).
  destruct (decimal_spec n Hn64) as (_ & _ & _ & Hup & Hlo). split.
  - intros Hl. destruct (Z.le_gt_cases n 999999) as [|Hgt]; [done|]. exfalso.
    specialize (Hlo 6%nat). change (10 ^ Z.of_nat 6) with 1000000 in Hlo.
    unfold zero_padded in Hl. rewrite length_app in Hl. lia.
  - intros Hle. apply length_zero_padded, Hup; [lia|]. change (10 ^ Z.of_nat 6) with 1000000. lia.
Qed.

Lemma parse_name_encoded n : in_u32 n →
  parse_wal_file_name (wal_file_name n) = Ok n ↔ n ≤ 999999.
Proof.
  intros Hn. rewrite <- padded_length by done. rewrite parse_name_inv.
  assert (in_u64 n) as Hn64 by (unfold in_u32, in_u64 in *; lia).
  destruct (zero_padded_spec 6 n Hn64) as (Hd & Hv & _). split.
  - intros (ds & Heq & Hl & _ & _). unfold wal_file_name in Heq. apply app_inv_head, app_inv_tail in Heq. by rewrite Heq.
  - intros Hl. by exists (zero_padded 6 (decimal n)).
Qed.

Lemma parse_name_canonical name n : parse_wal_file_name name = Ok n → 0 ≤ n ≤ 999999 ∧ name = wal_file_name n.
Proof.
  intros (ds & -> & Hl & Hd & ->)%parse_name_inv.
  assert (digits_value ds < 10 ^ zlen ds) as Hb by by apply digits_bound.
  replace (zlen ds) with 6 in Hb by (unfold zlen; lia). change (10 ^ 6) with 1000000 in Hb.
  pose proof (digits_value_nonneg ds Hd) as H0. split; [lia|]. unfold wal_file_name. do 2 f_equal.
  assert (in_u64 (digits_value ds)) as Hn64 by (unfold in_u64; lia).
  destruct (zero_padded_spec 6 (digits_value ds) Hn64) as (Hd' & Hv & _).
  apply digits_unique; [done|done| |by rewrite Hv].
  rewrite Hl. symmetry. apply padded_length; [unfold in_u32; lia|lia].
Qed.

(** Packing is arithmetic: the offset is below the shift. *)
Lemma wal_lsn_ok s o l : in_u32 s → in_u64 o →
  wal_lsn s o = Ok l ↔ s ≤ WAL_LSN_MAX_SEQUENCE ∧ o ≤ WAL_LSN_OFFSET_MASK ∧ l = s * 2 ^ 40 + o.
Proof.
  unfold in_u32, in_u64. intros Hs Ho. unfold wal_lsn.
  change WAL_LSN_MAX_SEQUENCE with 16777215. change WAL_LSN_OFFSET_MASK with 1099511627775.
  destruct (Z.ltb_spec 16777215 s); [naive_solver lia|]. destruct (Z.ltb_spec 1099511627775 o); [naive_solver lia|].
  change WAL_LSN_SEQUENCE_SHIFT with 40. rewrite Z.shiftl_mul_pow2 by lia. change (2 ^ 40) with 1099511627776.
  rewrite wrap_u64_small by (unfold in_u64; lia). change 1099511627776 with (2 ^ 40).
  rewrite lor_pow2_add by (change (2 ^ 40) with 1099511627776; lia). naive_solver.
Qed.
Lemma lsn_split l : in_u64 l →
  wal_lsn_sequence l = l / 2 ^ 40 ∧ wal_lsn_offset l = l `mod` 2 ^ 40.
Proof.
  unfold in_u64. intros Hl. unfold wal_lsn_sequence, wal_lsn_offset. change WAL_LSN_SEQUENCE_SHIFT with 40.
  rewrite Z.shiftr_div_pow2 by lia. change WAL_LSN_OFFSET_MASK with (Z.ones 40). rewrite Z.land_ones by lia.
  split; [|done]. apply Z.mod_small. split; [apply Z.div_pos; lia|].
  apply Z.div_lt_upper_bound; [lia|]. change (2 ^ 40 * 4294967296) with 4722366482869645213696. lia.
Qed.

(** ** Properties *)

(** C29: batch payloads are canonical.  A batch whose topic is shorter than 4 GiB
    encodes, its bytes decode to it, and no other bytes decode to it: whatever
    decodes is exactly what encoding the result writes. *)
Theorem batch_payload_canonical b bs :
  batch_ok b → bytes bs → vec_ok bs →
  (is_ok (encode_otlp_batch_payload b) = true ↔ zlen (ob_topic b) ≤ u32_max) ∧
  (encode_otlp_batch_payload b = Ok bs ↔ decode_otlp_batch_payload bs = Ok b).
Proof.
  intros Hb Hbs Hv. split.
  - split.
    + destruct (encode_otlp_batch_payload b) as [out|] eqn:He; [|done]. intros _. by apply (encode_batch_ok b out Hb) in He as [He _].
    + intros Hl. by rewrite (proj2 (encode_batch_ok b _ Hb) (conj Hl eq_refl)).
  - rewrite encode_batch_ok by done. split.
    + intros [Hl ->]. by apply decode_batch_bytes.
    + intros Hd. apply decode_batch_inv in Hd; tauto.
Qed.

(** C30: checkpoints are canonical.  Encoding fails exactly on a repeated topic
    partition, a topic over 64 KiB or over 2^32 offsets; what it writes decodes to
    the checkpoint with its offsets sorted, whatever order they were given in, and
    so do all other encodings of it.  A payload decodes to a checkpoint exactly when
    that checkpoint is one that encodes, with its offsets sorted, and the payload is
    its encoding up to the two things the decoder does not look at: any value of
    the reserved field, and the offsets in any order.  Encoding what was decoded
    gives the payload with both of them made canonical. *)
Theorem checkpoint_payload_canonical c bs :
  checkpoint_ok c → bytes bs → vec_ok bs →
  (is_ok (encode_checkpoint_payload c) = true ↔
     NoDup (offset_key <$> cp_offsets c) ∧ zlen (cp_offsets c) ≤ u32_max ∧
     Forall (λ o, zlen (to_topic o) ≤ u16_max) (cp_offsets c)) ∧
  (encode_checkpoint_payload c = Ok bs →
     ∃ c', decode_checkpoint_payload bs = Ok c' ∧
       cp_wal_lsn c' = cp_wal_lsn c ∧ cp_wall_time_ms c' = cp_wall_time_ms c ∧
       cp_offsets c' ≡ₚ cp_offsets c ∧ StronglySorted offset_lt (cp_offsets c') ∧
       ∀ d, cp_wal_lsn d = cp_wal_lsn c → cp_wall_time_ms d = cp_wall_time_ms c →
         cp_offsets d ≡ₚ cp_offsets c → encode_checkpoint_payload d = Ok bs) ∧
  (∀ d, decode_checkpoint_payload bs = Ok d ↔
     checkpoint_ok d ∧ StronglySorted offset_lt (cp_offsets d) ∧ zlen (cp_offsets d) ≤ u32_max ∧
     Forall (λ o, zlen (to_topic o) ≤ u16_max) (cp_offsets d) ∧
     ∃ r offsets, in_u16 r ∧ offsets ≡ₚ cp_offsets d ∧
       bs = checkpoint_bytes r (mk_checkpoint (cp_wal_lsn d) (cp_wall_time_ms d) offsets)) ∧
  (∀ d, decode_checkpoint_payload bs = Ok d → encode_checkpoint_payload d = Ok (checkpoint_bytes 0 d)).
Proof.
  intros Hc Hbs Hv. split; [by apply encode_checkpoint_total|]. split; [|split].
  - intros (l & Hl & Hn & Ht & Heq)%encode_checkpoint_ok. pose proof Hl as [Hp Hs]%canonicalize_ok.
    destruct Hc as (H1 & H2 & H3). rewrite <- Hp in H3.
    exists (mk_checkpoint (cp_wal_lsn c) (cp_wall_time_ms c) l). cbn [cp_wal_lsn cp_wall_time_ms cp_offsets]. split.
    + rewrite Heq. apply (decode_checkpoint_bytes 0 (mk_checkpoint (cp_wal_lsn c) (cp_wall_time_ms c) l)); try done; [|by rewrite <- Heq].
      by apply offsets_fit.
    + split_and!; try done. intros d Hd1 Hd2 Hd. apply encode_checkpoint_ok. exists l. rewrite Hd1, Hd2. split_and!; try done.
      apply canonicalize_ok. by rewrite Hd.
  - intros d. split.
    + intros (Hok & Hs & Ho & Hn & r & offs & Hr & Hp & Heq)%decode_checkpoint_inv; [|done|done]. split; [done|]. split; [done|]. split; [done|].
      split; [by eapply Forall_impl; [exact Ho|]; intros o [[_ ?] _]|]. by exists r, offs.
    + intros ((H1 & H2 & H3) & Hs & Hn & Ht & r & offs & Hr & Hp & ->). destruct d as [lsn time l]. cbn [cp_wal_lsn cp_wall_time_ms cp_offsets] in *.
      rewrite <- Hp in H3, Ht. unfold zlen in Hn. rewrite <- (Permutation_length Hp) in Hn.
      apply (decode_checkpoint_bytes r (mk_checkpoint lsn time offs) l); try done; by apply offsets_fit.
  - intros d (Hok & Hs & Ho & Hn & _)%decode_checkpoint_inv; [|done|done]. apply encode_checkpoint_ok. exists (cp_offsets d).
    split_and!; [by apply canonicalize_ok|done|by eapply Forall_impl; [exact Ho|]; intros o [[_ ?] _]|by destruct d].
Qed.

(** C37: File names and sequence numbers.  A name that parses is the name of the
    sequence it parses to, which has at most six digits; a sequence's name parses
    exactly when it has at most six digits, although log sequence numbers admit
    2^24 files.  A sequence number packs a file and an offset below 2^40, gives
    both back, orders positions by file and then offset, and every 64-bit value
    is one. *)
Theorem wal_positions_exact name n s o s' o' l l' :
  in_u32 s → in_u64 o → in_u32 s' → in_u64 o' → in_u64 l →
  (parse_wal_file_name name = Ok n → 0 ≤ n ≤ 999999 ∧ name = wal_file_name n) ∧
  (parse_wal_file_name (wal_file_name s) = Ok s ↔ s ≤ 999999) ∧
  (is_ok (wal_lsn s o) = true ↔ s < 2 ^ 24 ∧ o < 2 ^ 40) ∧
  wal_lsn (wal_lsn_sequence l) (wal_lsn_offset l) = Ok l ∧
  (wal_lsn s o = Ok l → wal_lsn_sequence l = s ∧ wal_lsn_offset l = o) ∧
  (wal_lsn s o = Ok l → wal_lsn s' o' = Ok l' → l < l' ↔ s < s' ∨ s = s' ∧ o < o').
Proof.
  intros Hs Ho Hs' Ho' Hl. destruct (lsn_split l Hl) as [Hseq Hoff].
  pose proof (Z.mod_pos_bound l (2 ^ 40) ltac:(lia)) as Hm. pose proof (Z.div_mod l (2 ^ 40) ltac:(lia)) as Hdm.
  rewrite <- Hseq, <- Hoff in Hdm. rewrite <- Hoff in Hm. clear Hseq Hoff.
  split_and!.
  - apply parse_name_canonical.
  - by apply parse_name_encoded.
  - destruct (wal_lsn s o) as [l0|] eqn:Hw.
    + split; [|done]. intros _. apply wal_lsn_ok in Hw as (H1 & H2 & _); [|done..].
      change WAL_LSN_MAX_SEQUENCE with 16777215 in H1. change WAL_LSN_OFFSET_MASK with 1099511627775 in H2. lia.
    + split; [done|]. intros [H1 H2]. exfalso. assert (wal_lsn s o = Ok (s * 2 ^ 40 + o)) as He; [|congruence].
      apply wal_lsn_ok; [done..|]. change WAL_LSN_MAX_SEQUENCE with 16777215. change WAL_LSN_OFFSET_MASK with 1099511627775. lia.
  - unfold in_u64 in Hl. change (2 ^ 40) with 1099511627776 in Hm, Hdm.
    apply wal_lsn_ok; [unfold in_u32; lia|unfold in_u64; lia|].
    change WAL_LSN_MAX_SEQUENCE with 16777215. change WAL_LSN_OFFSET_MASK with 1099511627775.
    change (2 ^ 40) with 1099511627776. lia.
  - intros (_ & H2 & ->)%wal_lsn_ok; [|done..]. change WAL_LSN_OFFSET_MASK with 1099511627775 in H2.
    change (2 ^ 40) with 1099511627776 in *. unfold in_u64 in Ho. lia.
  - intros (_ & H2 & ->)%wal_lsn_ok (_ & H4 & ->)%wal_lsn_ok; [|done..].
    change WAL_LSN_OFFSET_MASK with 1099511627775 in H2, H4. change (2 ^ 40) with 1099511627776.
    unfold in_u64 in Ho, Ho'. lia.
Qed.

(** *** At concrete values *)

Definition sample_topic : str := bytes_of_string "metrics".
Definition sample_batch : OtlpWalBatch := mk_batch sample_topic 3 (-1) 1000 1001 [1; 2; 255].

Lemma sample_topic_str : is_str sample_topic.
Proof. apply ascii_str; [by apply asciib_ascii|vm_compute; discriminate]. Qed.
Lemma sample_batch_ok : batch_ok sample_batch.
Proof.
  split; [apply sample_topic_str|]. unfold in_i32, in_i64. cbn. split_and!; try lia; [by apply bytesb_bytes|].
  vm_compute. discriminate.
Qed.

Lemma batch_payload_canonical_witness :
  decode_otlp_batch_payload (batch_bytes sample_batch) = Ok sample_batch ∧
  encode_otlp_batch_payload sample_batch = Ok (batch_bytes sample_batch).
Proof.
  assert (decode_otlp_batch_payload (batch_bytes sample_batch) = Ok sample_batch) as Hd by (vm_compute; reflexivity).
  split; [exact Hd|]. apply (batch_payload_canonical sample_batch (batch_bytes sample_batch)).
  - apply sample_batch_ok.
  - apply bytesb_bytes. vm_compute. reflexivity.
  - vm_compute. discriminate.
  - exact Hd.
Defined.

(** Two partitions, given in the wrong order. *)
Definition sample_checkpoint : WalCheckpoint :=
  mk_checkpoint 77 (-5) [mk_offset sample_topic 2 20; mk_offset sample_topic 1 10].
Definition sample_checkpoint_bytes : list Z :=
  checkpoint_bytes 0 (mk_checkpoint 77 (-5) [mk_offset sample_topic 1 10; mk_offset sample_topic 2 20]).

Lemma sample_checkpoint_ok : checkpoint_ok sample_checkpoint.
Proof.
  unfold checkpoint_ok, in_u64, in_i64, in_i32. cbn. split_and!; try lia.
  repeat constructor; try apply sample_topic_str; cbn; lia.
Qed.

(** Its bytes with a reserved field and the offsets as they were given. *)
Definition sample_other_bytes : list Z := checkpoint_bytes 513 sample_checkpoint.
Definition sample_sorted : WalCheckpoint := mk_checkpoint 77 (-5) [mk_offset sample_topic 1 10; mk_offset sample_topic 2 20].

Lemma checkpoint_payload_canonical_witness :
  encode_checkpoint_payload sample_checkpoint = Ok sample_checkpoint_bytes ∧
  (∃ c, decode_checkpoint_payload sample_checkpoint_bytes = Ok c ∧ cp_offsets c ≡ₚ cp_offsets sample_checkpoint) ∧
  sample_other_bytes ≠ sample_checkpoint_bytes ∧ decode_checkpoint_payload sample_other_bytes = Ok sample_sorted ∧
  encode_checkpoint_payload sample_sorted = Ok sample_checkpoint_bytes.
Proof.
  assert (encode_checkpoint_payload sample_checkpoint = Ok sample_checkpoint_bytes) as He by (vm_compute; reflexivity).
  assert (decode_checkpoint_payload sample_other_bytes = Ok sample_sorted) as Ho by (vm_compute; reflexivity).
  destruct (checkpoint_payload_canonical sample_checkpoint sample_checkpoint_bytes sample_checkpoint_ok) as (_ & Hd & _);
    [apply bytesb_bytes; vm_compute; reflexivity|vm_compute; discriminate|].
  destruct (checkpoint_payload_canonical sample_checkpoint sample_other_bytes sample_checkpoint_ok) as (_ & _ & _ & Hre);
    [apply bytesb_bytes; vm_compute; reflexivity|vm_compute; discriminate|].
  split; [exact He|]. split; [|split; [vm_compute; discriminate|split; [exact Ho|exact (Hre sample_sorted Ho)]]].
  destruct (Hd He) as (c & Hc & _ & _ & Hp & _). exists c. split; [exact Hc|exact Hp].
Defined.

Lemma wal_positions_exact_witness :
  wal_file_name 7 = bytes_of_string "wal-000007.log" ∧ parse_wal_file_name (wal_file_name 7) = Ok 7 ∧
  parse_wal_file_name (wal_file_name 1000000) ≠ Ok 1000000 ∧ wal_lsn 1 5 = Ok 1099511627781 ∧
  wal_lsn_sequence 1099511627781 = 1.
Proof.
  assert (∀ s, in_u32 s → (parse_wal_file_name (wal_file_name s) = Ok s ↔ s ≤ 999999)) as Hn.
  { intros s Hs. apply (wal_positions_exact [] 0 s 0 0 0 0 0); unfold in_u32, in_u64 in *; lia. }
  assert (wal_lsn 1 5 = Ok 1099511627781) as Hw by (vm_compute; reflexivity).
  split_and!; [vm_compute; reflexivity|apply Hn; unfold in_u32; lia|rewrite Hn; unfold in_u32; lia|exact Hw|].
  apply (wal_positions_exact [] 0 1 5 0 0 1099511627781 0); [unfold in_u32, in_u64; lia..|exact Hw].
Defined.
