(* ===== verification/Manifest.v ===== *)
(** * The segment manifest

    [chronoxide-core/src/storage/manifest.rs]: the records of the append-only log
    of sealed and deleted segments, the inventory they add up to, and the snapshot
    that binds an inventory to the bytes it was read from.  Publication, which
    works on a directory, is in [ManifestCoordinator]. *)
From stdpp Require Import sorting.
From S2P Require Import Prelude Cursor Text Fields Frame SegmentId.

(** ** Data *)

Definition MANIFEST_RECORD_MAGIC : Z := of_le (bytes_of_string "CMNF").
Definition MANIFEST_RECORD_VERSION : Z := 1.
Definition MANIFEST_RECORD_TYPE_SEGMENT_SEALED : Z := 1.
Definition MANIFEST_RECORD_TYPE_SEGMENT_DELETED : Z := 2.
Definition MANIFEST_SEGMENT_FLAG_WAL_LSN_BOUNDARY : Z := 1.

Record ManifestSegment := mk_segment {
  ms_segment_id : str;
  ms_start_ms : Z;
  ms_end_ms : Z;
  ms_wal_lsn_boundary : option Z;
}.

#[export] Instance manifest_segment_eq_dec : EqDecision ManifestSegment.
Proof. solve_decision. Defined.

Inductive ManifestRecord :=
  | SegmentSealed (segment : ManifestSegment)
  | SegmentDeleted (segment_id : str).

#[export] Instance manifest_record_eq_dec : EqDecision ManifestRecord.
Proof. solve_decision. Defined.

Definition record_type (r : ManifestRecord) : Z :=
  match r with
  | SegmentSealed _ => MANIFEST_RECORD_TYPE_SEGMENT_SEALED
  | SegmentDeleted _ => MANIFEST_RECORD_TYPE_SEGMENT_DELETED
  end.

Record ManifestInventory := mk_inventory { mi_segments : list ManifestSegment }.

(** A SHA-256 digest is 32 bytes; [sha2] computes it. *)
Class Sha256 := { sha256 : list Z → list Z }.

Inductive ManifestCut :=
  | Absent
  | Present (file_name : str) (validated_offset : Z) (prefix_sha256 : list Z).

Record ManifestSnapshot := mk_snapshot {
  sn_cut : ManifestCut;
  sn_records : list ManifestRecord;
  sn_inventory : ManifestInventory;
}.

Definition snapshot_absent : ManifestSnapshot := mk_snapshot Absent [] (mk_inventory []).

Definition cut_validated_offset (c : ManifestCut) : Z :=
  match c with Absent => 0 | Present _ validated_offset _ => validated_offset end.

(** ** Validation *)

Section manifest.
Context `{HU : Ulid} `{HC : Crc32c} `{HS : Sha256}.

Definition validate_segment_id (segment_id : str) (start_ms end_ms : Z) : io_result unit :=
  match parse_dir_name segment_id with
  | Err e => fail InvalidInput ("invalid manifest segment id: " +:+ segment_id_error_text e)
  | Ok parsed =>
      ensure ((si_start_ms parsed =? start_ms) && (si_end_ms parsed =? end_ms))
        InvalidInput "manifest segment id range does not match record range"
  end.

Definition validate_manifest_segment_name (segment_id : str) : io_result unit :=
  match parse_dir_name segment_id with
  | Err e => fail InvalidInput ("invalid segment id: " +:+ segment_id_error_text e)
  | Ok _ => Ok tt
  end.

(** [b"MANIFEST-"]. *)
Definition manifest_prefix : str := [77; 65; 78; 73; 70; 69; 83; 84; 45].
Definition manifest_file_name (sequence : Z) : str := manifest_prefix ++ zero_padded 6 (decimal sequence).

Definition validate_manifest_file_name (file_name : str) : io_result unit :=
  number ← ok_or (io_err InvalidInput "manifest file name must start with MANIFEST-")
    (strip_prefix manifest_prefix file_name);
  ensure ((zlen number =? 6) && forallb digit number)
    InvalidInput "manifest file name must be MANIFEST-000000 style".

Definition manifest_segment_new (segment_id : str) (start_ms end_ms : Z) (wal_lsn_boundary : option Z)
    : io_result ManifestSegment :=
  _ ← validate_segment_id segment_id start_ms end_ms;
  Ok (mk_segment segment_id start_ms end_ms wal_lsn_boundary).

(** ** Payloads *)

Definition write_string (out : list Z) (value : str) : io_result (list Z) :=
  len ← ok_or (io_err InvalidInput "manifest string too long") (try_u16 (zlen value));
  Ok ((out ++ le_bytes 2 len) ++ value).

Definition encode_manifest_payload (r : ManifestRecord) : io_result (list Z) :=
  match r with
  | SegmentSealed s =>
      _ ← validate_segment_id (ms_segment_id s) (ms_start_ms s) (ms_end_ms s);
      let flags := if bool_decide (is_Some (ms_wal_lsn_boundary s))
                   then Z.lor 0 MANIFEST_SEGMENT_FLAG_WAL_LSN_BOUNDARY else 0 in
      let out := le_bytes 2 flags in
      let out := out ++ le_bytes 2 0 in
      let out := out ++ le_bytes 8 (ms_start_ms s) in
      let out := out ++ le_bytes 8 (ms_end_ms s) in
      out ← write_string out (ms_segment_id s);
      Ok match ms_wal_lsn_boundary s with Some b => out ++ le_bytes 8 b | None => out end
  | SegmentDeleted segment_id =>
      _ ← validate_manifest_segment_name segment_id;
      write_string [] segment_id
  end.

Abbreviation truncated := "manifest payload truncated"%string.
Abbreviation bad_utf8 := "manifest string is not valid UTF-8"%string.

Definition decode_manifest_payload (ty : Z) (payload : list Z) : io_result ManifestRecord :=
  '(record, cursor) ←
    (if ty =? MANIFEST_RECORD_TYPE_SEGMENT_SEALED then
       '(flags, cursor) ← read_unsigned truncated 2 payload 0;
       _ ← ensure (Z.land flags (u16_max - MANIFEST_SEGMENT_FLAG_WAL_LSN_BOUNDARY) =? 0)
         InvalidData "unsupported manifest segment flags";
       '(_, cursor) ← read_unsigned truncated 2 payload cursor;
       '(start_ms, cursor) ← read_unsigned truncated 8 payload cursor;
       '(end_ms, cursor) ← read_unsigned truncated 8 payload cursor;
       '(segment_id, cursor) ← read_text truncated bad_utf8 payload cursor;
       '(wal_lsn_boundary, cursor) ←
         (if negb (Z.land flags MANIFEST_SEGMENT_FLAG_WAL_LSN_BOUNDARY =? 0) then
            '(b, cursor) ← read_unsigned truncated 8 payload cursor; Ok (Some b, cursor)
          else Ok (None, cursor));
       segment ← manifest_segment_new segment_id start_ms end_ms wal_lsn_boundary;
       Ok (SegmentSealed segment, cursor)
     else if ty =? MANIFEST_RECORD_TYPE_SEGMENT_DELETED then
       '(segment_id, cursor) ← read_text truncated bad_utf8 payload 0;
       _ ← validate_manifest_segment_name segment_id;
       Ok (SegmentDeleted segment_id, cursor)
     else fail InvalidData "unknown manifest record type");
  _ ← ensure (cursor =? zlen payload) InvalidData "manifest record payload has trailing bytes";
  Ok record.

(** ** Records *)

Definition manifest_format : frame_format :=
  mk_format MANIFEST_RECORD_MAGIC MANIFEST_RECORD_VERSION "invalid manifest record magic"
    "unsupported manifest record version" "manifest record checksum mismatch".

(** The allocation of the encoded record may fail. *)
Definition encode_manifest_record (al : allocator) (r : ManifestRecord) : io_result (list Z) :=
  payload ← encode_manifest_payload r;
  capacity ← ok_or (io_err InvalidInput "manifest record length overflow")
    (c ← checked_add_u64 RECORD_HEADER_LEN (zlen payload); checked_add_u64 c RECORD_TRAILER_LEN);
  _ ← try_reserve al "encoded manifest record" "" capacity;
  Ok (frame manifest_format (record_type r) payload).

Definition read_manifest_record (s : list Z) : run (option (ManifestRecord * list Z)) :=
  r ← read_frame manifest_format Ok s;
  match r with
  | None => Ok None
  | Some (ty, payload, s) => record ← io (decode_manifest_payload ty payload); Ok (Some (record, s))
  end.

(** [while let Some(record) = read_manifest_record(&mut reader)? { .. }]: the
    records, and what is left.  A record takes at least 20 bytes, so [length s]
    rounds are enough. *)
Fixpoint read_records_loop (fuel : nat) (s : list Z) : run (list ManifestRecord * list Z) :=
  match fuel with
  | O => Ok ([], s)
  | S fuel =>
      r ← read_manifest_record s;
      match r with
      | None => Ok ([], s)
      | Some (record, s) => '(records, s) ← read_records_loop fuel s; Ok (record :: records, s)
      end
  end.
Definition read_manifest_records (file : list Z) : run (list ManifestRecord) :=
  '(records, _) ← read_records_loop (S (length file)) file;
  Ok records.

(** ** Inventory *)

(** One round of the loop of [from_records]. *)
Definition apply_record (live : gmap str (Z * ManifestSegment)) (ordinal : Z) (r : ManifestRecord)
    : io_result (gmap str (Z * ManifestSegment)) :=
  match r with
  | SegmentSealed s =>
      _ ← validate_segment_id (ms_segment_id s) (ms_start_ms s) (ms_end_ms s);
      Ok (<[ms_segment_id s := (ordinal, s)]> live)
  | SegmentDeleted segment_id =>
      _ ← validate_manifest_segment_name segment_id;
      Ok (delete segment_id live)
  end.
Fixpoint apply_records (live : gmap str (Z * ManifestSegment)) (ordinal : Z) (records : list ManifestRecord)
    : io_result (gmap str (Z * ManifestSegment)) :=
  match records with
  | [] => Ok live
  | r :: records => live ← apply_record live ordinal r; apply_records live (ordinal + 1) records
  end.

(** [sort_by_key(|(record_ordinal, _)| *record_ordinal)]. *)
Definition ordinal_le (a b : Z * ManifestSegment) : Prop := a.1 ≤ b.1.
#[export] Instance ordinal_le_dec : RelDecision ordinal_le.
Proof. intros a b. unfold ordinal_le. apply _. Defined.

Definition from_records (records : list ManifestRecord) : io_result ManifestInventory :=
  live ← apply_records ∅ 0 records;
  let live := (map_to_list live).*2 in
  let live := merge_sort ordinal_le live in
  Ok (mk_inventory (live.*2)).

(** [append_retention_tombstones] on the manifest's bytes: the bytes after it and
    the segments it reports. *)
Fixpoint tombstone_loop (al : allocator) (retain_after_ms : Z) (segments : list ManifestSegment)
    (file : list Z) (tombstoned : list str) : io_result (list Z * list str) :=
  match segments with
  | [] => Ok (file, tombstoned)
  | s :: segments =>
      if retain_after_ms <? ms_end_ms s then tombstone_loop al retain_after_ms segments file tombstoned
      else
        encoded ← encode_manifest_record al (SegmentDeleted (ms_segment_id s));
        tombstone_loop al retain_after_ms segments (file ++ encoded) (tombstoned ++ [ms_segment_id s])
  end.
Definition append_retention_tombstones (al : allocator) (file : list Z) (inventory : ManifestInventory)
    (retain_after_ms : Z) : io_result (list Z * list str) :=
  tombstone_loop al retain_after_ms (mi_segments inventory) file [].

(** ** Snapshots *)

Definition manifest_snapshot_from_bytes (file_name : str) (bs : list Z) : run ManifestSnapshot :=
  _ ← io (validate_manifest_file_name file_name);
  '(records, rest) ← read_records_loop (S (length bs)) bs;
  let validated_offset := zlen bs - zlen rest in
  _ ← io (ensure (validated_offset =? zlen bs) InvalidData
    "manifest parser stopped before the validated byte boundary");
  inventory ← io (from_records records);
  Ok (mk_snapshot (Present file_name validated_offset (sha256 bs)) records inventory).

(** [refresh_manifest_snapshot], given [CURRENT]'s content and the manifest's
    bytes: the previous cut must still be a prefix. *)
Definition refresh_from_bytes (previous : ManifestSnapshot) (file_name : str) (bs : list Z) : run ManifestSnapshot :=
  _ ← match sn_cut previous with
      | Present previous_file_name validated_offset prefix_sha256 =>
          if bool_decide (previous_file_name = file_name) then
            _ ← io (ensure (validated_offset <=? zlen bs) InvalidData
              "manifest became shorter than its validated prefix");
            io (ensure (bool_decide (sha256 (slice bs 0 validated_offset) = prefix_sha256)) InvalidData
              "manifest validated prefix changed")
          else Ok tt
      | Absent => Ok tt
      end;
  manifest_snapshot_from_bytes file_name bs.

(** ** Records and their bytes *)

Definition record_id (r : ManifestRecord) : str :=
  match r with SegmentSealed s => ms_segment_id s | SegmentDeleted segment_id => segment_id end.
Definition record_valid (r : ManifestRecord) : Prop :=
  match r with
  | SegmentSealed s => validate_segment_id (ms_segment_id s) (ms_start_ms s) (ms_end_ms s) = Ok tt
  | SegmentDeleted segment_id => validate_manifest_segment_name segment_id = Ok tt
  end.
(** The types of the fields. *)
Definition record_typed (r : ManifestRecord) : Prop :=
  is_str (record_id r) ∧
  match r with SegmentSealed s => ∀ b, ms_wal_lsn_boundary s = Some b → in_u64 b | SegmentDeleted _ => True end.
(** Records that can be written. *)
Definition record_ok (r : ManifestRecord) : Prop :=
  record_valid r ∧ record_typed r ∧ zlen (record_id r) ≤ u16_max.

Definition payload_bytes (reserved : Z) (r : ManifestRecord) : list Z :=
  match r with
  | SegmentSealed s =>
      le_bytes 2 (if bool_decide (is_Some (ms_wal_lsn_boundary s)) then 1 else 0) ++ le_bytes 2 reserved ++
      le_bytes 8 (ms_start_ms s) ++ le_bytes 8 (ms_end_ms s) ++ text_bytes (ms_segment_id s) ++
      match ms_wal_lsn_boundary s with Some b => le_bytes 8 b | None => [] end
  | SegmentDeleted segment_id => text_bytes segment_id
  end.
Definition record_bytes (reserved : Z) (r : ManifestRecord) : list Z :=
  frame manifest_format (record_type r) (payload_bytes reserved r).

Lemma validate_segment_id_ok id s e u : validate_segment_id id s e = Ok u →
  ∃ parsed, parse_dir_name id = Ok parsed ∧ si_start_ms parsed = s ∧ si_end_ms parsed = e ∧ in_u64 s ∧ in_u64 e ∧ s < e.
Proof.
  unfold validate_segment_id. destruct (parse_dir_name id) as [p|] eqn:Hp; [|done].
  intros [E1%Z.eqb_eq E2%Z.eqb_eq]%ensure_ok_inv%andb_true_iff. exists p. split; [done|].
  apply parse_dir_name_ok in Hp as (E3 & E4 & E5). subst. by split_and!.
Qed.
Lemma validate_name_ok r : record_valid r → validate_manifest_segment_name (record_id r) = Ok tt.
Proof.
  destruct r as [s|id]; [|done]. intros (p & Hp & _)%validate_segment_id_ok. unfold validate_manifest_segment_name. cbn.
  by rewrite Hp.
Qed.

Lemma write_string_ok out v bs : write_string out v = Ok bs ↔ zlen v ≤ u16_max ∧ bs = out ++ text_bytes v.
Proof.
  unfold write_string, text_bytes. rewrite bind_ok. pose proof (zlen_nonneg v). split.
  - intros (n & Hn & Hd). destruct (try_u16 (zlen v)) as [n'|] eqn:Hu; [|done]. injection Hn as ->.
    apply try_u16_Some in Hu as [-> [_ Hu]]. apply ok_inj in Hd as <-. by rewrite <- app_assoc.
  - intros [Hu ->]. exists (zlen v). rewrite try_u16_fits by (unfold in_u16; lia). by rewrite <- app_assoc.
Qed.

Lemma encode_payload_ok r out :
  encode_manifest_payload r = Ok out ↔ record_valid r ∧ zlen (record_id r) ≤ u16_max ∧ out = payload_bytes 0 r.
Proof.
  destruct r as [s|id]; cbn [encode_manifest_payload record_valid record_id payload_bytes].
  - rewrite bind_ok. split.
    + intros ([] & Hv & Hd). apply bind_ok in Hd as (w & [Hl ->]%write_string_ok & Hd). apply ok_inj in Hd as <-.
      split_and!; [done..|]. destruct (ms_wal_lsn_boundary s); cbn; [|rewrite app_nil_r]; by rewrite <- !app_assoc.
    + intros (Hv & Hl & ->). exists tt. split; [done|]. apply bind_ok. eexists. split; [by apply write_string_ok|].
      destruct (ms_wal_lsn_boundary s); cbn; [|rewrite app_nil_r]; by rewrite <- !app_assoc.
  - rewrite bind_ok. split.
    + intros ([] & Hv & [Hl ->]%write_string_ok). by rewrite app_nil_l.
    + intros (Hv & Hl & ->). exists tt. split; [done|]. by apply write_string_ok.
Qed.

Lemma bytes_text v : is_str v → bytes (text_bytes v).
Proof. intros [Hb _]. unfold text_bytes. rewrite Forall_app. split; [by apply bytes_le_bytes|done]. Qed.
Lemma bytes_payload n r : record_typed r → bytes (payload_bytes n r).
Proof.
  intros [Hs _]. destruct r as [s|id]; cbn [payload_bytes]; [|by apply bytes_text]. rewrite !Forall_app.
  split_and!; try by apply bytes_le_bytes. { by apply bytes_text. }
  destruct (ms_wal_lsn_boundary s); [by apply bytes_le_bytes|constructor].
Qed.
(** A payload is small. *)
Lemma zlen_payload n r : zlen (record_id r) ≤ u16_max → 0 ≤ zlen (payload_bytes n r) ≤ u16_max + 30.
Proof.
  intros Hl. split; [apply zlen_nonneg|]. pose proof (zlen_nonneg (record_id r)).
  destruct r as [s|id]; cbn [payload_bytes record_id] in *; unfold text_bytes.
  - rewrite !zlen_app, !zlen_le_bytes by done. destruct (ms_wal_lsn_boundary s); rewrite ?zlen_le_bytes, ?zlen_nil by done; lia.
  - rewrite zlen_app, zlen_le_bytes by done. lia.
Qed.

Lemma decode_payload_bytes n r : record_ok r → in_u16 n →
  decode_manifest_payload (record_type r) (payload_bytes n r) = Ok r.
Proof.
  intros (Hv & Ht & Hl) Hn. assert (grants alloc_ok) as Hal by done.
  pose proof (cursor_start _ (bytes_payload n r Ht) ltac:(pose proof (zlen_payload n r Hl); lia)) as Hr.
  remember (payload_bytes n r) as buf eqn:Hbuf. rewrite Hbuf in Hr at 2. destruct Ht as [Hs Hb].
  unfold decode_manifest_payload. destruct r as [s|id]; cbn [payload_bytes record_type record_id record_valid] in *.
  - destruct (validate_segment_id_ok _ _ _ _ Hv) as (_ & _ & _ & _ & Hs1 & He1 & _).
    change (MANIFEST_RECORD_TYPE_SEGMENT_SEALED =? MANIFEST_RECORD_TYPE_SEGMENT_SEALED) with true. cbn iota.
    destruct s as [id st en [b|]]; cbn [ms_segment_id ms_start_ms ms_end_ms ms_wal_lsn_boundary] in *.
    + read_fwd (u16_codec truncated) Hr. change (Z.land _ (u16_max - _) =? 0) with true. cbn [ensure mbind result_bind].
      read_fwd (u16_codec truncated) Hr.
      read_fwd (u64_codec truncated) Hr. read_fwd (u64_codec truncated) Hr.
      read_fwd (text_codec truncated bad_utf8) Hr. rewrite <- (app_nil_r (le_bytes 8 b)) in Hr. 
      change (negb (Z.land _ _ =? 0)) with true. cbn iota. cbn [mbind result_bind].
      read_fwd (u64_codec truncated) Hr. unfold manifest_segment_new. rewrite Hv. cbn [mbind result_bind].
      apply cursor_zlen in Hr. rewrite zlen_nil in Hr. by rewrite (proj2 (Z.eqb_eq _ _)) by lia.
    + read_fwd (u16_codec truncated) Hr. change (Z.land _ (u16_max - _) =? 0) with true. cbn [ensure mbind result_bind].
      read_fwd (u16_codec truncated) Hr.
      read_fwd (u64_codec truncated) Hr. read_fwd (u64_codec truncated) Hr.
      read_fwd (text_codec truncated bad_utf8) Hr.
      change (negb (Z.land _ _ =? 0)) with false. cbn iota. cbn [mbind result_bind].
      unfold manifest_segment_new. rewrite Hv. cbn [mbind result_bind].
      apply cursor_zlen in Hr. rewrite zlen_nil in Hr. by rewrite (proj2 (Z.eqb_eq _ _)) by lia.
  - rewrite <- (app_nil_r (text_bytes id)) in Hr. change (_ =? MANIFEST_RECORD_TYPE_SEGMENT_SEALED) with false. cbn iota.
    rewrite Z.eqb_refl. read_fwd (text_codec truncated bad_utf8) Hr. rewrite Hv. cbn [mbind result_bind].
    apply cursor_zlen in Hr. rewrite zlen_nil in Hr. by rewrite (proj2 (Z.eqb_eq _ _)) by lia.
Qed.

Lemma segment_flags f : in_u16 f → Z.land f (u16_max - MANIFEST_SEGMENT_FLAG_WAL_LSN_BOUNDARY) = 0 →
  f = Z.land f MANIFEST_SEGMENT_FLAG_WAL_LSN_BOUNDARY ∧ (f = 0 ∨ f = 1).
Proof.
  unfold in_u16, MANIFEST_SEGMENT_FLAG_WAL_LSN_BOUNDARY. intros Hf Hz.
  assert (f = Z.land f 1) as Heq.
  { rewrite <- (Z.mod_small f (2 ^ 16)) at 1 by (change (2 ^ 16) with 65536; lia). rewrite <- Z.land_ones by lia.
    change (Z.ones 16) with (Z.lor (65535 - 1) 1). rewrite Z.land_lor_distr_r, Hz. done. }
  split; [done|]. change 1 with (Z.ones 1) in Heq at 1. rewrite Z.land_ones in Heq by lia.
  pose proof (Z.mod_pos_bound f (2 ^ 1) ltac:(done)). change (2 ^ 1) with 2 in *. lia.
Qed.

Lemma decode_payload_inv ty p r : bytes p → vec_ok p → decode_manifest_payload ty p = Ok r →
  record_ok r ∧ ty = record_type r ∧ ∃ n, in_u16 n ∧ p = payload_bytes n r.
Proof.
  intros Hb Hv Hd. pose proof (cursor_start _ Hb Hv) as Hr. unfold decode_manifest_payload in Hd.
  remember p as buf eqn:Hbuf. rewrite Hbuf in Hr at 2. rewrite Hbuf. clear Hbuf.
  apply bind_ok in Hd as ([r' cend] & Hrec & Hd). apply bind_ok in Hd as (u & E%ensure_ok_inv%Z.eqb_eq & Hd).
  injection Hd as ->.
  destruct (Z.eqb_spec ty MANIFEST_RECORD_TYPE_SEGMENT_SEALED) as [->|_].
  - read_inv (u16_codec truncated) alloc_ok Hr Hrec flags Hflags.
    apply bind_ok in Hrec as (u1 & E1%ensure_ok_inv%Z.eqb_eq & Hrec).
    destruct (segment_flags _ Hflags E1) as [Hf1 Hf2].
    read_inv (u16_codec truncated) alloc_ok Hr Hrec n Hn. read_inv (u64_codec truncated) alloc_ok Hr Hrec st Hst.
    read_inv (u64_codec truncated) alloc_ok Hr Hrec en Hen. read_inv (text_codec truncated bad_utf8) alloc_ok Hr Hrec name Hid.
    apply bind_ok in Hrec as ([b cb] & Hbo & Hrec). apply bind_ok in Hrec as (seg & Hseg & Hrec). injection Hrec as <- ->.
    unfold manifest_segment_new in Hseg. apply bind_ok in Hseg as ([] & Hval & Hseg). injection Hseg as <-.
    rewrite <- Hf1 in Hbo. destruct Hf2 as [->| ->]; cbn [Z.eqb negb] in Hbo.
    + injection Hbo as <- ->. apply cursor_zlen in Hr.
      match type of Hr with zlen ?rest = _ => assert (rest = []) as -> by (apply zlen_0; lia) end.
      split; [|split; [done|]].
      * split; [done|]. split; [split; [apply Hid|done]|apply Hid].
      * exists n. split; [done|]. cbn [payload_bytes ms_segment_id ms_start_ms ms_end_ms ms_wal_lsn_boundary]. done.
    + read_inv (u64_codec truncated) alloc_ok Hr Hbo b' Hb'. injection Hbo as <- ->. apply cursor_zlen in Hr.
      match type of Hr with zlen ?rest = _ => assert (rest = []) as -> by (apply zlen_0; lia) end.
      split; [|split; [done|]].
      * split; [done|]. split; [split; [apply Hid|by intros ? [= <-]]|apply Hid].
      * exists n. split; [done|]. cbn [payload_bytes ms_segment_id ms_start_ms ms_end_ms ms_wal_lsn_boundary].
        by rewrite app_nil_r.
  - destruct (Z.eqb_spec ty MANIFEST_RECORD_TYPE_SEGMENT_DELETED) as [->|_]; [|done].
    read_inv (text_codec truncated bad_utf8) alloc_ok Hr Hrec name Hid.
    apply bind_ok in Hrec as ([] & Hval & Hrec). injection Hrec as <- ->. apply cursor_zlen in Hr.
    match type of Hr with zlen ?rest = _ => assert (rest = []) as -> by (apply zlen_0; lia) end.
    split; [|split; [done|]].
    + split; [done|]. split; [split; [apply Hid|done]|apply Hid].
    + exists 0. split; [done|]. by rewrite app_nil_r.
Qed.

(** *** The log *)

Lemma manifest_format_ok : format_ok manifest_format.
Proof. split; done. Qed.
Lemma record_type_u16 r : in_u16 (record_type r).
Proof. by destruct r. Qed.

Lemma encode_record_ok al r bs : encode_manifest_record al r = Ok bs →
  record_valid r ∧ zlen (record_id r) ≤ u16_max ∧ bs = record_bytes 0 r.
Proof.
  unfold encode_manifest_record. intros Hd. apply bind_ok in Hd as (p & (Hv & Hl & ->)%encode_payload_ok & Hd).
  apply bind_ok in Hd as (c & _ & Hd). apply bind_ok in Hd as (u & _ & Hd). by apply ok_inj in Hd as <-.
Qed.
Lemma encode_record_granted al r : grants al → record_valid r → zlen (record_id r) ≤ u16_max →
  encode_manifest_record al r = Ok (record_bytes 0 r).
Proof.
  intros Hal Hv Hl. unfold encode_manifest_record. rewrite (proj2 (encode_payload_ok r _)) by done.
  cbn [mbind result_bind]. pose proof (zlen_payload 0 r Hl). unfold RECORD_HEADER_LEN, RECORD_TRAILER_LEN.
  rewrite checked_add_u64_fits by lia. cbn [mbind option_bind]. rewrite checked_add_u64_fits by lia.
  cbn [ok_or mbind result_bind]. unfold try_reserve. by rewrite Hal.
Qed.

Lemma read_record_encoded `{!Crc32cLaws} n r s : record_ok r → in_u16 n →
  read_manifest_record (record_bytes n r ++ s) = Ok (Some (r, s)).
Proof.
  intros Hok Hn. unfold read_manifest_record, record_bytes. pose proof Hok as (_ & _ & Hl).
  rewrite (read_frame_encoded manifest_format Ok (record_type r) (record_type r));
    [|apply manifest_format_ok|apply record_type_u16|done|pose proof (zlen_payload n r Hl); lia].
  cbn [mbind result_bind]. by rewrite decode_payload_bytes.
Qed.
Lemma read_record_torn `{!Crc32cLaws} n r s : record_ok r →
  s `prefix_of` record_bytes n r → s ≠ [] → s ≠ record_bytes n r →
  read_manifest_record s = Err (Io (io_err UnexpectedEof "failed to fill whole buffer")).
Proof.
  intros Hok Hp Hne Hnf. unfold read_manifest_record. pose proof Hok as (_ & _ & Hl).
  rewrite (read_frame_torn manifest_format Ok (record_type r) (record_type r) (payload_bytes n r));
    [done|apply manifest_format_ok|apply record_type_u16|done|pose proof (zlen_payload n r Hl); lia|done|done|done].
Qed.
Lemma read_record_inv s r rest : bytes s → read_manifest_record s = Ok (Some (r, rest)) →
  record_ok r ∧ ∃ n, in_u16 n ∧ s = record_bytes n r ++ rest.
Proof.
  intros Hb. unfold read_manifest_record. intros Hd. apply bind_ok in Hd as ([[[ty p] s']|] & Hf & Hd); [|done].
  apply bind_ok in Hd as (r' & Hr%io_ok & Hd). injection Hd as -> ->.
  apply read_frame_inv in Hf as (t & Ht & [= ->] & -> & Hv); [|done].
  apply decode_payload_inv in Hr as (Hok & -> & n & Hn & ->); [|..].
  - split; [done|]. by exists n.
  - unfold frame in Hb. rewrite !Forall_app in Hb. apply Hb.
  - done.
Qed.
Lemma read_record_none s : read_manifest_record s = Ok None → s = [].
Proof.
  unfold read_manifest_record. intros Hd. apply bind_ok in Hd as ([[[ty p] s']|] & Hf & Hd).
  - by apply bind_ok in Hd as (? & _ & ?).
  - by apply read_frame_none in Hf.
Qed.

(** Records one after another, with whatever their ignored fields held. *)
Fixpoint log_bytes (rs : list (Z * ManifestRecord)) : list Z :=
  match rs with [] => [] | (n, r) :: rs => record_bytes n r ++ log_bytes rs end.

Lemma record_bytes_long n r : (20 ≤ length (record_bytes n r))%nat.
Proof.
  pose proof (zlen_frame manifest_format (record_type r) (payload_bytes n r)) as Hz. fold (record_bytes n r) in Hz.
  pose proof (zlen_nonneg (payload_bytes n r)). unfold zlen, RECORD_HEADER_LEN, RECORD_TRAILER_LEN in *. lia.
Qed.

(** Reading a log of whole records, and then whatever comes after them. *)
Lemma read_records_log `{!Crc32cLaws} rs tail fuel :
  Forall (λ nr, in_u16 nr.1 ∧ record_ok nr.2) rs → (length (log_bytes rs ++ tail) < fuel)%nat →
  ∃ fuel', (length tail < fuel')%nat ∧ read_records_loop fuel (log_bytes rs ++ tail) =
    ('(records, s) ← read_records_loop fuel' tail; Ok (rs.*2 ++ records, s)).
Proof.
  revert fuel. induction rs as [|[n r] rs IH]; intros fuel Hok Hf.
  - exists fuel. split; [done|]. cbn [log_bytes app fmap list_fmap]. by destruct (read_records_loop fuel tail) as [[]|].
  - apply Forall_cons_1 in Hok as [[Hn Hr] Hok]. cbn [log_bytes] in *. rewrite <- app_assoc in *.
    pose proof (record_bytes_long n r). rewrite length_app in Hf.
    destruct fuel as [|fuel]; [lia|]. cbn [read_records_loop].
    rewrite read_record_encoded by done. cbn [mbind result_bind].
    destruct (IH fuel Hok ltac:(lia)) as (fuel' & Hlt & ->). exists fuel'. split; [done|].
    by destruct (read_records_loop fuel' tail) as [[]|].
Qed.

(** What reads without error is a log. *)
Lemma read_records_inv fuel s records rest : bytes s → (length s < fuel)%nat →
  read_records_loop fuel s = Ok (records, rest) →
  rest = [] ∧ ∃ rs, rs.*2 = records ∧ s = log_bytes rs ∧ Forall (λ nr, in_u16 nr.1 ∧ record_ok nr.2) rs.
Proof.
  revert s records. induction fuel as [|fuel IH]; intros s records Hb Hf Hd; [lia|]. cbn [read_records_loop] in Hd.
  apply bind_ok in Hd as ([[r s']|] & Hr & Hd).
  - apply bind_ok in Hd as ([records' rest'] & Hl & Hd). injection Hd as <- ->.
    apply read_record_inv in Hr as (Hok & n & Hn & ->); [|done].
    apply Forall_app in Hb as [_ Hb]. rewrite length_app in Hf. pose proof (record_bytes_long n r).
    destruct (IH s' records' Hb ltac:(lia) Hl) as (-> & rs & <- & -> & Hrs).
    split; [done|]. exists ((n, r) :: rs). split_and!; [done..|]. by constructor.
  - injection Hd as <- <-. apply read_record_none in Hr as ->. split; [done|]. exists []. by split_and!.
Qed.

(** ** The inventory's specification *)

(** Some later record is about this segment. *)
Definition superseded (segment_id : str) (later : list ManifestRecord) : bool :=
  existsb (λ r, bool_decide (record_id r = segment_id)) later.

(** The seals with no later seal or deletion of the same segment, in order. *)
Fixpoint live_segments (records : list ManifestRecord) : list ManifestSegment :=
  match records with
  | [] => []
  | SegmentSealed s :: later =>
      if superseded (ms_segment_id s) later then live_segments later else s :: live_segments later
  | SegmentDeleted _ :: later => live_segments later
  end.

(** The same with the records' positions. *)
Fixpoint live_indexed (k : Z) (records : list ManifestRecord) : list (Z * ManifestSegment) :=
  match records with
  | [] => []
  | SegmentSealed s :: later =>
      if superseded (ms_segment_id s) later then live_indexed (k + 1) later
      else (k, s) :: live_indexed (k + 1) later
  | SegmentDeleted _ :: later => live_indexed (k + 1) later
  end.

Lemma live_indexed_segments k rs : (live_indexed k rs).*2 = live_segments rs.
Proof.
  revert k. induction rs as [|[s|name] rs IH]; intros k; cbn [live_indexed live_segments]; [done| |apply IH].
  destruct (superseded _ _); [apply IH|]. by rewrite fmap_cons, IH.
Qed.

Lemma live_indexed_bound k rs v : v ∈ live_indexed k rs → k ≤ v.1 < k + zlen rs.
Proof.
  revert k. induction rs as [|[s|name] rs IH]; intros k; cbn [live_indexed]; rewrite ?zlen_cons.
  - by intros ?%not_elem_of_nil.
  - pose proof (zlen_nonneg rs). destruct (superseded _ _).
    + intros Hv%IH. lia.
    + intros [->|Hv%IH]%elem_of_cons; cbn; lia.
  - intros Hv%IH. lia.
Qed.
Lemma live_indexed_sorted k rs : StronglySorted (λ a b, a.1 < b.1) (live_indexed k rs).
Proof.
  revert k. induction rs as [|[s|name] rs IH]; intros k; cbn [live_indexed]; [constructor| |apply IH].
  destruct (superseded _ _); [apply IH|]. constructor; [apply IH|]. apply Forall_forall.
  intros v Hv%live_indexed_bound. cbn. lia.
Qed.

(** One more record. *)
Lemma superseded_snoc name rs r :
  superseded name (rs ++ [r]) = superseded name rs || bool_decide (record_id r = name).
Proof. unfold superseded. rewrite existsb_app. cbn. by rewrite orb_false_r. Qed.
Lemma live_indexed_snoc k rs r v :
  v ∈ live_indexed k (rs ++ [r]) ↔
  v ∈ live_indexed k rs ∧ ms_segment_id v.2 ≠ record_id r ∨
  v.1 = k + zlen rs ∧ r = SegmentSealed v.2.
Proof.
  revert k. induction rs as [|[s|name] rs IH]; intros k; cbn [app live_indexed].
  - destruct v as [j t]. destruct r as [s|name]; cbn.
    + rewrite list_elem_of_singleton, zlen_nil. split.
      * intros [= -> ->]. right. split; [lia|done].
      * intros [[[]%not_elem_of_nil _]|[-> [= ->]]]. f_equal. lia.
    + split; [by intros ?%not_elem_of_nil|]. intros [[[]%not_elem_of_nil _]|[_ [=]]].
  - rewrite superseded_snoc, zlen_cons. destruct (superseded (ms_segment_id s) rs); cbn [orb].
    + rewrite IH, Z.add_assoc. done.
    + case_bool_decide as Hid; rewrite ?elem_of_cons, IH, Z.add_assoc.
      * split; [naive_solver|]. intros [[[->|Hv] Hne]|[Hk ->]]; [|naive_solver..]. by cbn in Hne.
      * split; [intros [->|[Hv|Hv]]; [left; cbn; naive_solver|naive_solver..]|naive_solver].
  - rewrite IH, zlen_cons, Z.add_assoc. done.
Qed.

(** The map after a prefix holds its live segments. *)
Lemma apply_records_app live k rs1 rs2 :
  apply_records live k (rs1 ++ rs2) = (live ← apply_records live k rs1; apply_records live (k + zlen rs1) rs2).
Proof.
  revert live k. induction rs1 as [|r rs1 IH]; intros live k; cbn [app apply_records].
  - by rewrite zlen_nil, Z.add_0_r.
  - destruct (apply_record live k r) as [live'|e]; cbn [mbind result_bind]; [|done].
    by rewrite IH, zlen_cons, Z.add_assoc.
Qed.

Lemma apply_records_spec rs live :
  apply_records ∅ 0 rs = Ok live →
  ∀ name v, live !! name = Some v ↔ v ∈ live_indexed 0 rs ∧ ms_segment_id v.2 = name.
Proof.
  revert live. induction rs as [|r rs IH] using rev_ind; intros live Hd name v.
  - injection Hd as <-. rewrite lookup_empty. split; [done|]. by intros [?%not_elem_of_nil _].
  - rewrite apply_records_app in Hd. apply bind_ok in Hd as (m & Hm & Hd). specialize (IH m Hm).
    cbn [apply_records] in Hd. apply bind_ok in Hd as (m' & Hr & [= ->]). rewrite live_indexed_snoc.
    destruct r as [s|del]; cbn [apply_record record_id] in *; apply bind_ok in Hr as (u & _ & [= <-]).
    + rewrite lookup_insert_Some, IH, Z.add_0_l. destruct v as [j t]; cbn. split.
      * intros [[<- [= <- <-]]|[Hne [Hv <-]]]; [by auto|]. split; [|done]. left. by split.
      * intros [[[Hv Hne]|[-> [= ->]]] <-]; [|by left]. right. by split_and!.
    + rewrite lookup_delete_Some, IH. destruct v as [j t]; cbn. split.
      * intros [Hne [Hv <-]]. split; [|done]. left. by split.
      * intros [[[Hv Hne]|[_ [=]]] <-]. by split_and!.
Qed.

Lemma apply_records_ok rs live k :
  is_ok (apply_records live k rs) = true ↔ Forall record_valid rs.
Proof.
  revert live k. induction rs as [|r rs IH]; intros live k; cbn [apply_records]; [by split|].
  rewrite Forall_cons. destruct r as [s|name]; cbn [apply_record record_valid].
  - destruct (validate_segment_id _ _ _) as [[]|]; cbn [mbind result_bind]; [rewrite IH; tauto|].
    split; [done|]. by intros [? _].
  - destruct (validate_manifest_segment_name _) as [[]|]; cbn [mbind result_bind]; [rewrite IH; tauto|].
    split; [done|]. by intros [? _].
Qed.

#[local] Instance ordinal_le_total : Total ordinal_le.
Proof. intros a b. unfold ordinal_le. lia. Qed.
#[local] Instance ordinal_le_trans : Transitive ordinal_le.
Proof. intros a b c. unfold ordinal_le. lia. Qed.

Lemma sorted_values (rs : list ManifestRecord) (live : gmap str (Z * ManifestSegment)) :
  (∀ (name : str) (v : Z * ManifestSegment), live !! name = Some v ↔ v ∈ live_indexed 0 rs ∧ ms_segment_id v.2 = name) →
  merge_sort ordinal_le (map_to_list live).*2 = live_indexed 0 rs.
Proof.
  intros Hlive. pose proof (live_indexed_sorted 0 rs) as Hs.
  assert (∀ a b, a ∈ live_indexed 0 rs → b ∈ live_indexed 0 rs → a.1 = b.1 → a = b) as Hinj.
  { revert Hs. generalize (live_indexed 0 rs). clear. intros l Hs. induction Hs as [|c l _ IH Hc].
    - by intros a b ?%not_elem_of_nil.
    - rewrite Forall_forall in Hc. intros a b [->|Ha]%elem_of_cons [->|Hb]%elem_of_cons Heq; [done| | |by apply IH].
      + apply Hc in Hb. lia.
      + apply Hc in Ha. lia. }
  assert ((map_to_list live).*2 ≡ₚ live_indexed 0 rs) as Hp.
  { apply NoDup_Permutation.
    - apply NoDup_fmap_2_strong; [|apply NoDup_map_to_list]. intros [n1 v1] [n2 v2] E1 E2 Heq. cbn in Heq. subst v2.
      apply elem_of_map_to_list, Hlive in E1 as [_ <-]. by apply elem_of_map_to_list, Hlive in E2 as [_ <-].
    - clear -Hs. induction Hs as [|c l _ IH Hc]; constructor; [|done]. intros Hin. rewrite Forall_forall in Hc.
      apply Hc in Hin. lia.
    - intros v. rewrite list_elem_of_fmap. split.
      + intros ([n v'] & -> & Hv%elem_of_map_to_list%Hlive). apply Hv.
      + intros Hv. exists (ms_segment_id v.2, v). split; [done|]. by apply elem_of_map_to_list, Hlive. }
  apply (StronglySorted_unique_strong ordinal_le).
  - intros a b Ha Hb Hab Hba. unfold ordinal_le in *. apply Hinj; [|done|lia].
    by rewrite <- Hp, <- (merge_sort_Permutation ordinal_le).
  - apply (StronglySorted_merge_sort ordinal_le).
  - clear -Hs. induction Hs as [|c l Hs IH Hc]; constructor; [done|]. eapply Forall_impl; [exact Hc|].
    cbn. unfold ordinal_le. lia.
  - rewrite <- Hp. apply (merge_sort_Permutation ordinal_le).
Qed.

Lemma from_records_ok rs inv :
  from_records rs = Ok inv ↔ Forall record_valid rs ∧ mi_segments inv = live_segments rs.
Proof.
  unfold from_records. rewrite <- (apply_records_ok rs ∅ 0). destruct (apply_records ∅ 0 rs) as [live|] eqn:Hl.
  - cbn [mbind result_bind is_ok]. rewrite (sorted_values rs live) by by apply apply_records_spec.
    rewrite live_indexed_segments. destruct inv as [segs]. cbn. naive_solver.
  - cbn. naive_solver.
Qed.

(** ** Snapshots of logs *)

Definition log_ok (rs : list (Z * ManifestRecord)) : Prop := Forall (λ nr, in_u16 nr.1 ∧ record_ok nr.2) rs.
(** The snapshot a log stands for. *)
Definition log_snapshot (file_name : str) (rs : list (Z * ManifestRecord)) : ManifestSnapshot :=
  mk_snapshot (Present file_name (zlen (log_bytes rs)) (sha256 (log_bytes rs))) rs.*2
    (mk_inventory (live_segments rs.*2)).

Lemma log_ok_valid rs : log_ok rs → Forall record_valid rs.*2.
Proof. intros Hrs. apply Forall_fmap. eapply Forall_impl; [exact Hrs|]. by intros [n r] (_ & Hv & _). Qed.

Lemma read_log_all `{!Crc32cLaws} rs fuel : log_ok rs → (length (log_bytes rs) < fuel)%nat →
  read_records_loop fuel (log_bytes rs) = Ok (rs.*2, []).
Proof.
  intros Hrs Hf. rewrite <- (app_nil_r (log_bytes rs)).
  destruct (read_records_log rs [] fuel Hrs ltac:(by rewrite app_nil_r)) as (fuel' & Hlt & ->).
  destruct fuel' as [|fuel']; [cbn in Hlt; lia|]. cbn [read_records_loop read_manifest_record read_frame mbind result_bind].
  by rewrite app_nil_r.
Qed.

Lemma snapshot_of_log `{!Crc32cLaws} name rs u : validate_manifest_file_name name = Ok u → log_ok rs →
  manifest_snapshot_from_bytes name (log_bytes rs) = Ok (log_snapshot name rs).
Proof.
  intros Hn Hrs. unfold manifest_snapshot_from_bytes. rewrite Hn. cbn [io mbind result_bind].
  rewrite read_log_all by (done || lia). cbn [mbind result_bind]. rewrite zlen_nil, Z.sub_0_r, Z.eqb_refl.
  cbn [ensure io mbind result_bind].
  rewrite (proj2 (from_records_ok rs.*2 (mk_inventory (live_segments rs.*2)))) by (split; [by apply log_ok_valid|done]).
  done.
Qed.

Lemma snapshot_inv name bs snap : bytes bs → manifest_snapshot_from_bytes name bs = Ok snap →
  validate_manifest_file_name name = Ok tt ∧ ∃ rs, log_ok rs ∧ bs = log_bytes rs ∧ snap = log_snapshot name rs.
Proof.
  intros Hb Hd. unfold manifest_snapshot_from_bytes in Hd. apply bind_ok in Hd as ([] & Hn%io_ok & Hd).
  apply bind_ok in Hd as ([records rest] & Hl & Hd). apply bind_ok in Hd as (u & _ & Hd).
  apply bind_ok in Hd as (inv & [_ Hi]%io_ok%from_records_ok & Hd). apply ok_inj in Hd as <-.
  apply read_records_inv in Hl as (-> & rs & <- & -> & Hrs); [|done|lia]. split; [done|].
  exists rs. split_and!; [done..|]. unfold log_snapshot. rewrite zlen_nil, Z.sub_0_r. destruct inv. cbn in Hi. by rewrite Hi.
Qed.

(** A prefix of a log is a shorter log, or ends inside a record. *)
Lemma log_prefix rs s : s `prefix_of` log_bytes rs →
  (∃ rs1 rs2, rs = rs1 ++ rs2 ∧ s = log_bytes rs1) ∨
  (∃ rs1 n r rs2 t, rs = rs1 ++ (n, r) :: rs2 ∧ s = log_bytes rs1 ++ t ∧
     t `prefix_of` record_bytes n r ∧ t ≠ [] ∧ t ≠ record_bytes n r).
Proof.
  revert s. induction rs as [|[n r] rs IH]; intros s [k Hk]; cbn [log_bytes] in Hk.
  - symmetry in Hk. apply app_eq_nil in Hk as [-> _]. left. by exists [], [].
  - apply app_eq_inv in Hk as [(l & Hl & Hk)|(l & -> & Hl)].
    + destruct s as [|b s]; [left; by exists [], ((n, r) :: rs)|].
      destruct l as [|b' l].
      * left. exists [(n, r)], rs. split; [done|]. cbn [log_bytes]. by rewrite app_nil_r, Hl, app_nil_r.
      * right. exists [], n, r, rs, (b :: s). split_and!; [done|done|by eexists|done|].
        rewrite Hl. intros Heq%(f_equal length). rewrite length_app in Heq. cbn in Heq. lia.
    + destruct (IH l) as [(rs1 & rs2 & -> & ->)|(rs1 & n' & r' & rs2 & t & -> & -> & Ht)]; [by eexists|..].
      * left. by exists ((n, r) :: rs1), rs2.
      * right. exists ((n, r) :: rs1), n', r', rs2, t. split_and!; [done| |apply Ht..]. cbn [log_bytes]. by rewrite <- app_assoc.
Qed.

Lemma torn_log_error `{!Crc32cLaws} name rs1 n r t u : validate_manifest_file_name name = Ok u →
  log_ok rs1 → record_ok r → t `prefix_of` record_bytes n r → t ≠ [] → t ≠ record_bytes n r →
  manifest_snapshot_from_bytes name (log_bytes rs1 ++ t) =
    Err (Io (io_err UnexpectedEof "failed to fill whole buffer")).
Proof.
  intros Hn Hrs Hr Hp Hne Hnf. unfold manifest_snapshot_from_bytes. rewrite Hn. cbn [io mbind result_bind].
  destruct (read_records_log rs1 t (S (length (log_bytes rs1 ++ t))) Hrs ltac:(lia)) as (fuel & Hf & ->).
  destruct fuel as [|fuel]; [lia|]. cbn [read_records_loop]. by rewrite (read_record_torn n r t).
Qed.

(** ** Tombstones *)

Lemma list_filter_ext_in {A} (P Q : A → Prop) `{!∀ x, Decision (P x), !∀ x, Decision (Q x)} (l : list A) :
  (∀ x, x ∈ l → P x ↔ Q x) → filter P l = filter Q l.
Proof.
  induction l as [|a l IH]; intros Hl; [done|]. rewrite !filter_cons, IH by (intros; apply Hl; by right).
  pose proof (Hl a ltac:(by left)). do 2 case_decide; tauto || done.
Qed.
Lemma NoDup_fmap_elem {A B} (f : A → B) (l : list A) a b : NoDup (f <$> l) → a ∈ l → b ∈ l → f a = f b → a = b.
Proof.
  induction l as [|c l IH]; [by intros _ ?%not_elem_of_nil|]. rewrite fmap_cons. intros [Hc Hl]%NoDup_cons.
  intros [->|Ha]%elem_of_cons [->|Hb]%elem_of_cons Heq; [done|..|by apply IH].
  - exfalso. apply Hc. rewrite Heq. by apply list_elem_of_fmap_2.
  - exfalso. apply Hc. rewrite <- Heq. by apply list_elem_of_fmap_2.
Qed.

Lemma live_segments_tombstone rs name :
  live_segments (rs ++ [SegmentDeleted name]) = filter (λ s, ms_segment_id s ≠ name) (live_segments rs).
Proof.
  induction rs as [|[s|d] rs IH]; cbn [app live_segments]; [done| |done].
  rewrite superseded_snoc. cbn [record_id]. destruct (superseded _ rs); cbn [orb]; [done|].
  case_bool_decide as Hid; rewrite filter_cons.
  - by rewrite decide_False by naive_solver.
  - rewrite decide_True by naive_solver. by rewrite IH.
Qed.

Lemma superseded_cons name r rs : superseded name (r :: rs) = bool_decide (record_id r = name) || superseded name rs.
Proof. done. Qed.
(** A live segment's name is not live a second time. *)
Lemma live_not_superseded rs s : s ∈ live_segments rs → superseded (ms_segment_id s) rs = true.
Proof.
  induction rs as [|[t|d] rs IH]; cbn [live_segments].
  - by intros ?%not_elem_of_nil.
  - rewrite superseded_cons. destruct (superseded (ms_segment_id t) rs).
    + intros Hs%IH. by rewrite Hs, orb_true_r.
    + intros [->|Hs%IH]%elem_of_cons; [by rewrite bool_decide_true|]. by rewrite Hs, orb_true_r.
  - rewrite superseded_cons. intros Hs%IH. by rewrite Hs, orb_true_r.
Qed.
Lemma live_segments_distinct rs : NoDup (ms_segment_id <$> live_segments rs).
Proof.
  induction rs as [|[s|d] rs IH]; cbn [live_segments]; [constructor| |done].
  destruct (superseded (ms_segment_id s) rs) eqn:Hsup; [done|]. rewrite fmap_cons. constructor; [|done].
  intros (t & Heq & Ht)%list_elem_of_fmap. apply live_not_superseded in Ht. congruence.
Qed.
Lemma live_segments_sealed rs s : s ∈ live_segments rs → SegmentSealed s ∈ rs.
Proof.
  induction rs as [|[t|d] rs IH]; cbn [live_segments]; [by intros ?%not_elem_of_nil| |right; auto].
  destruct (superseded _ rs); [right; auto|]. intros [->|Hs]%elem_of_cons; [left|right; auto].
Qed.

(** Deleting expired segments one by one, over the rest of the inventory. *)
Lemma tombstone_loop_spec al cutoff todo : ∀ file tombstoned,
  grants al → Forall (λ s, record_valid (SegmentDeleted (ms_segment_id s)) ∧ zlen (ms_segment_id s) ≤ u16_max) todo →
  let expired := filter (λ s, ms_end_ms s ≤ cutoff) todo in
  tombstone_loop al cutoff todo file tombstoned =
    Ok (file ++ log_bytes ((λ s, (0, SegmentDeleted (ms_segment_id s))) <$> expired),
        tombstoned ++ (ms_segment_id <$> expired)).
Proof.
  induction todo as [|s todo IH]; intros file tombstoned Hal Hv; cbn [tombstone_loop].
  - cbn. by rewrite !app_nil_r.
  - apply Forall_cons_1 in Hv as [[Hs Hl] Hv]. rewrite filter_cons.
    destruct (Z.ltb_spec cutoff (ms_end_ms s)).
    + rewrite decide_False by lia. by apply IH.
    + rewrite decide_True by lia. rewrite encode_record_granted by done. cbn [mbind result_bind].
      rewrite IH by done. rewrite !fmap_cons. cbn [log_bytes]. by rewrite <- !app_assoc.
Qed.

Lemma log_bytes_app rs1 rs2 : log_bytes (rs1 ++ rs2) = log_bytes rs1 ++ log_bytes rs2.
Proof. induction rs1 as [|[n r] rs1 IH]; [done|]. cbn [app log_bytes]. by rewrite IH, <- app_assoc. Qed.

Lemma live_after_tombstones rs names :
  live_segments (rs ++ (SegmentDeleted <$> names)) = filter (λ s, ms_segment_id s ∉ names) (live_segments rs).
Proof.
  induction names as [|name names IH] using rev_ind.
  - cbn. rewrite app_nil_r. symmetry. induction (live_segments rs) as [|s l IHl]; [done|].
    rewrite filter_cons, decide_True by by intros ?%not_elem_of_nil. by rewrite IHl.
  - rewrite fmap_app, app_assoc. cbn [fmap list_fmap]. rewrite live_segments_tombstone, IH, list_filter_filter.
    apply list_filter_iff. intros s. rewrite not_elem_of_app, list_elem_of_singleton. tauto.
Qed.

End manifest.

Section theorems.
Context `{HU : Ulid} `{HC : Crc32c} `{HS : Sha256} `{!Crc32cLaws}.

(** C19: a manifest is exactly its log.  Bytes read as a snapshot exactly when
    they are a sequence of whole, valid, checksummed records, and then the
    snapshot holds those records, the whole length, the digest of the bytes and,
    as its inventory, the seals with no later seal or deletion of their segment,
    in the order of the log; writing one more record adds exactly it; and every
    other prefix of a log ends inside a record and is rejected as an unexpected
    end, never read as a shorter manifest. *)
Theorem manifest_snapshot_exact file_name bs snap rs cut :
  validate_manifest_file_name file_name = Ok tt → bytes bs → log_ok rs → cut `prefix_of` log_bytes rs →
  (manifest_snapshot_from_bytes file_name bs = Ok snap ↔
     ∃ log, log_ok log ∧ bs = log_bytes log ∧
       snap = mk_snapshot (Present file_name (zlen bs) (sha256 bs)) log.*2 (mk_inventory (live_segments log.*2))) ∧
  (∀ al r encoded, record_typed r → encode_manifest_record al r = Ok encoded →
     manifest_snapshot_from_bytes file_name (log_bytes rs ++ encoded) = Ok (log_snapshot file_name (rs ++ [(0, r)]))) ∧
  ((∃ rs1 rs2, rs = rs1 ++ rs2 ∧ cut = log_bytes rs1) ∨
   manifest_snapshot_from_bytes file_name cut =
     Err (Io (io_err UnexpectedEof "failed to fill whole buffer"))).
Proof.
  intros Hn Hb Hrs Hcut. split; [split|split].
  - intros (_ & rs' & Hrs' & -> & ->)%snapshot_inv; [|done]. by exists rs'.
  - intros (rs' & Hrs' & -> & ->). by apply (snapshot_of_log _ _ tt).
  - intros al r encoded Ht (Hv & Hl & ->)%encode_record_ok.
    assert (log_bytes rs ++ record_bytes 0 r = log_bytes (rs ++ [(0, r)])) as ->.
    { rewrite log_bytes_app. cbn [log_bytes]. by rewrite app_nil_r. }
    apply (snapshot_of_log _ _ tt); [done|]. apply Forall_snoc; [done|].
    split; [done|]. by split.
  - destruct (log_prefix rs cut Hcut) as [Hwhole|(rs1 & n & r & rs2 & t & -> & -> & Hp & Hne & Hnf)]; [by left|right].
    apply Forall_app in Hrs as [Hrs1 [[_ Hr] _]%Forall_cons_1]. by apply (torn_log_error file_name rs1 n r t tt).
Qed.

(** Retention removes exactly the expired segments.  Appending tombstones to
    a manifest, given memory, succeeds and only appends; the manifest then reads
    back with the segments that end after the cut-off, in their order; the
    reported names are those of the others; and doing it again appends nothing. *)
Theorem retention_drops_expired al file_name rs cutoff :
  grants al → validate_manifest_file_name file_name = Ok tt → log_ok rs →
  let live := live_segments rs.*2 in
  let kept := filter (λ s, cutoff < ms_end_ms s) live in
  ∃ appended,
    append_retention_tombstones al (log_bytes rs) (mk_inventory live) cutoff =
      Ok (log_bytes (rs ++ appended), ms_segment_id <$> filter (λ s, ms_end_ms s ≤ cutoff) live) ∧
    manifest_snapshot_from_bytes file_name (log_bytes (rs ++ appended)) = Ok (log_snapshot file_name (rs ++ appended)) ∧
    live_segments (rs ++ appended).*2 = kept ∧
    append_retention_tombstones al (log_bytes (rs ++ appended)) (mk_inventory kept) cutoff =
      Ok (log_bytes (rs ++ appended), []).
Proof.
  intros Hal Hn Hrs live kept.
  assert (∀ s, s ∈ live → record_ok (SegmentDeleted (ms_segment_id s))) as Hdel.
  { intros s Hs. apply live_segments_sealed, list_elem_of_fmap in Hs as ([n r] & Heq & Hin). cbn in Heq. subst r.
    eapply Forall_forall in Hrs as [_ (Hv & [Hstr _] & Hl)]; [|exact Hin]. cbn in *.
    split; [|by split]. by apply (validate_name_ok (SegmentSealed s)). }
  assert (∀ todo, todo ⊆ live →
    Forall (λ s, record_valid (SegmentDeleted (ms_segment_id s)) ∧ zlen (ms_segment_id s) ≤ u16_max) todo) as Hall.
  { intros todo Htodo. apply Forall_forall. intros s Hs. by destruct (Hdel s (Htodo s Hs)) as (? & _ & ?). }
  set (expired := filter (λ s, ms_end_ms s ≤ cutoff) live).
  set (appended := (λ s, (0, SegmentDeleted (ms_segment_id s))) <$> expired). exists appended.
  assert (log_ok (rs ++ appended)) as Hok.
  { apply Forall_app. split; [done|]. apply Forall_fmap, Forall_forall. intros s [_ Hs]%list_elem_of_filter.
    split; [done|by apply Hdel]. }
  assert (live_segments (rs ++ appended).*2 = kept) as Hkept.
  { assert ((rs ++ appended).*2 = rs.*2 ++ (SegmentDeleted <$> (ms_segment_id <$> expired))) as ->.
    { rewrite fmap_app. f_equal. unfold appended. by rewrite <- !list_fmap_compose. }
    rewrite live_after_tombstones. fold live. apply list_filter_ext_in. intros s Hs. rewrite list_elem_of_fmap. split.
    - intros Hno. destruct (Z.lt_ge_cases cutoff (ms_end_ms s)); [done|]. exfalso. apply Hno. exists s.
      split; [done|]. by apply list_elem_of_filter.
    - intros Hlt (t & Heq & [Hle Ht]%list_elem_of_filter).
      assert (s = t) as ->; [|lia]. eapply NoDup_fmap_elem; [apply (live_segments_distinct rs.*2)|done..]. }
  unfold append_retention_tombstones. cbn [mi_segments]. split_and!.
  - rewrite tombstone_loop_spec by (done || by apply Hall). fold expired. by rewrite log_bytes_app.
  - by apply (snapshot_of_log _ _ tt).
  - done.
  - rewrite tombstone_loop_spec by (try done; apply Hall; intros s [_ Hs]%list_elem_of_filter; done).
    assert (filter (λ s, ms_end_ms s ≤ cutoff) kept = []) as ->; [|cbn; by rewrite app_nil_r].
    unfold kept. rewrite list_filter_filter. apply list_filter_none. intros s. lia.
Qed.

(** A refresh only extends.  Against a snapshot taken from a log, and
    barring a collision of its digest, refreshing the same file succeeds exactly
    when the bytes are that log with whole records after it, and the new snapshot
    is the extended log's: no record is lost, changed or reordered. *)
Theorem refresh_extends file_name rs bs snap :
  validate_manifest_file_name file_name = Ok tt → bytes bs → log_ok rs →
  (∀ x, sha256 x = sha256 (log_bytes rs) → x = log_bytes rs) →
  refresh_from_bytes (log_snapshot file_name rs) file_name bs = Ok snap ↔
  ∃ more, log_ok more ∧ bs = log_bytes (rs ++ more) ∧ snap = log_snapshot file_name (rs ++ more).
Proof.
  intros Hn Hb Hrs Hsha. unfold refresh_from_bytes. cbn [log_snapshot sn_cut]. rewrite bool_decide_true by done. split.
  - intros Hd. apply bind_ok in Hd as (u & Hpre & Hd).
    apply bind_ok in Hpre as (u1 & Hle%io_ok%ensure_ok_inv%Z.leb_le & Hpre).
    apply io_ok, ensure_ok_inv, bool_decide_eq_true in Hpre. apply Hsha in Hpre.
    assert (bs = log_bytes rs ++ drop (length (log_bytes rs)) bs) as Hbs.
    { rewrite <- Hpre at 1. unfold slice. rewrite Z.sub_0_r. unfold zlen. rewrite Nat2Z.id. cbn [Z.to_nat drop].
      by rewrite take_drop. }
    revert Hbs Hb Hd. generalize (drop (length (log_bytes rs)) bs). clear Hpre Hle. intros k -> Hb Hd.
    apply snapshot_inv in Hd as (_ & rs1 & Hrs1 & Heq & ->); [|done].
    destruct (read_records_log rs k (S (length (log_bytes rs ++ k))) Hrs ltac:(lia)) as (fuel & Hf & Hread).
    rewrite Heq, read_log_all in Hread by (done || lia). symmetry in Hread.
    apply bind_ok in Hread as ([records rest] & Hk & _). apply Forall_app in Hb as [_ Hbk].
    apply read_records_inv in Hk as (_ & more & _ & -> & Hmore); [|done|lia].
    exists more. rewrite <- log_bytes_app in Heq. split_and!; [done|by rewrite log_bytes_app|].
    unfold log_snapshot. assert (rs1.*2 = (rs ++ more).*2) as ->; [|by rewrite Heq].
    assert (log_ok (rs ++ more)) as Hok by (apply Forall_app; done).
    pose proof (read_log_all rs1 (S (length (log_bytes rs1))) Hrs1 ltac:(lia)) as H1. rewrite <- Heq in H1.
    rewrite read_log_all in H1 by (done || lia). congruence.
  - intros (more & Hmore & -> & ->). rewrite log_bytes_app. pose proof (zlen_nonneg (log_bytes more)).
    rewrite zlen_app, (proj2 (Z.leb_le _ _)) by lia. cbn [ensure io mbind result_bind].
    rewrite slice_head by done. rewrite bool_decide_true by done. cbn [ensure io mbind result_bind].
    rewrite <- log_bytes_app. apply (snapshot_of_log _ _ tt); [done|]. apply Forall_app. done.
Qed.

End theorems.

(** ** At a concrete log *)

(** Not SHA-256: the identity has no collisions. *)
#[export] Instance sample_sha256 : Sha256 := { sha256 l := l }.

Definition sample_segment_at (s e : Z) (u : bool) (b : option Z) : ManifestSegment :=
  mk_segment (@dir_name sample_ulid (@mk_segment_id sample_ulid s e u)) s e b.
Definition sample_first := sample_segment_at 1000 2000 false (Some 77).
Definition sample_second := sample_segment_at 2000 3000 true None.
(** Two seals, and the first again with a later position. *)
Definition sample_log : list (Z * ManifestRecord) :=
  [(0, SegmentSealed sample_first); (0, SegmentSealed sample_second);
   (0, SegmentSealed (sample_segment_at 1000 2000 false (Some 99)))].
Definition sample_name : str := bytes_of_string "MANIFEST-000001".

Definition record_okb (r : ManifestRecord) : bool :=
  match r with
  | SegmentSealed s => is_ok (validate_segment_id (ms_segment_id s) (ms_start_ms s) (ms_end_ms s)) &&
      match ms_wal_lsn_boundary s with Some b => in_range 0 u64_max b | None => true end
  | SegmentDeleted name => is_ok (validate_manifest_segment_name name)
  end && asciib (record_id r) && (zlen (record_id r) <=? u16_max).
Lemma record_okb_ok r : record_okb r = true → record_ok r.
Proof.
  unfold record_okb. rewrite !andb_true_iff. intros [[Hv Ha%asciib_ascii] Hl%Z.leb_le].
  assert (is_str (record_id r)) as Hs by (apply ascii_str; [done|lia]).
  destruct r as [s|name]; cbn in *.
  - apply andb_true_iff in Hv as [Hv Hb]. split; [|split; [split; [done|]|done]].
    + cbn. by destruct (validate_segment_id _ _ _) as [[]|].
    + intros b Heq. rewrite Heq in Hb. apply andb_true_iff in Hb as [H1%Z.leb_le H2%Z.leb_le]. done.
  - split; [|split; [by split|done]]. cbn. by destruct (validate_manifest_segment_name _) as [[]|].
Qed.
Lemma sample_log_ok : log_ok sample_log.
Proof. repeat (apply Forall_cons; split; [split; [vm_compute; split; discriminate|by apply record_okb_ok]|]). constructor. Qed.

Lemma manifest_snapshot_exact_witness :
  manifest_snapshot_from_bytes sample_name (log_bytes sample_log) = Ok (log_snapshot sample_name sample_log) ∧
  manifest_snapshot_from_bytes sample_name (take 100 (log_bytes sample_log)) =
    Err (Io (io_err UnexpectedEof "failed to fill whole buffer")) ∧
  live_segments sample_log.*2 = [sample_second; sample_segment_at 1000 2000 false (Some 99)].
Proof.
  assert (bytes (log_bytes sample_log)) as Hb by (apply bytesb_bytes; vm_compute; reflexivity).
  destruct (manifest_snapshot_exact sample_name (log_bytes sample_log) (log_snapshot sample_name sample_log) sample_log
    (take 100 (log_bytes sample_log)) eq_refl Hb sample_log_ok) as (H1 & _ & H2).
  { eexists. symmetry. apply take_drop. }
  split; [|split; [|vm_compute; reflexivity]].
  - apply H1. exists sample_log. split; [apply sample_log_ok|]. split; reflexivity.
  - destruct H2 as [(rs1 & rs2 & _ & Heq)|H2]; [|exact H2]. vm_compute. reflexivity.
Defined.

Lemma retention_drops_expired_witness :
  ∃ appended, append_retention_tombstones alloc_ok (log_bytes sample_log) (mk_inventory (live_segments sample_log.*2)) 2000 =
      Ok (log_bytes (sample_log ++ appended), [ms_segment_id sample_first]) ∧
    live_segments (sample_log ++ appended).*2 = [sample_second].
Proof.
  destruct (retention_drops_expired alloc_ok sample_name sample_log 2000 ltac:(done) eq_refl sample_log_ok)
    as (appended & Ha & _ & Hl & _).
  exists appended. split; [exact Ha|exact Hl].
Defined.

Lemma refresh_extends_witness :
  refresh_from_bytes (log_snapshot sample_name (take 2 sample_log)) sample_name (log_bytes sample_log) =
    Ok (log_snapshot sample_name sample_log).
Proof.
  apply (refresh_extends sample_name (take 2 sample_log)).
  - reflexivity.
  - apply bytesb_bytes. vm_compute. reflexivity.
  - apply Forall_take, sample_log_ok.
  - intros x Hx. exact Hx.
  - exists (drop 2 sample_log). split; [apply Forall_drop, sample_log_ok|]. split; reflexivity.
Defined.
