(* ===== verification/Files.v ===== *)
(** * A directory, with faults and crashes

    What the durable parts of the storage layer do to a directory: open, read,
    write, truncate, sync, rename.  Files are inodes, so that a rename moves a file
    and a handle stays on it; an inode is [synced] when a successful [sync_all]
    followed its last change; and [fs_tables] are the entry tables a power failure
    may leave, the current one and those since the last successful sync of the
    directory.  Every operation may fail, as the list of faults it consumes says:
    [Some k] fails it after [k] bytes of a write, or after ([0 < k]) or before the
    effect of any other operation.  The operating system is not part of the
    program, and this is the behaviour the code relies on. *)
From S2P Require Import Prelude Text Frame.

Record inode := mk_inode {
  in_data : list Z;
  in_synced : bool;
}.

Record fs := mk_fs {
  fs_names : gmap str nat;
  fs_inodes : gmap nat inode;
  fs_tables : list (gmap str nat);
  fs_next : nat;
}.

(** Operations, over the faults that are still to come. *)
Definition fsM (A : Type) : Type := list (option nat) → fs → run A * list (option nat) * fs.

#[export] Instance fs_ret : MRet fsM := λ A a fl w, (Ok a, fl, w).
#[export] Instance fs_bind : MBind fsM := λ A B f m fl w,
  match m fl w with
  | (Ok a, fl, w) => f a fl w
  | (Err e, fl, w) => (Err e, fl, w)
  end.
(** A computation that does not touch the directory. *)
Definition pure_run {A} (r : run A) : fsM A := λ fl w, (r, fl, w).

Definition device_error : failure := Io (io_err OtherError "device error").
Definition not_found : failure := Io (io_err NotFound "no such file").

(** The outcome without a fault, and the directory after one. *)
Definition faulty {A} (ok : fs → run A * fs) (bad : nat → fs → fs) : fsM A := λ fl w,
  match fl with
  | Some k :: fl => (Err device_error, fl, bad k w)
  | None :: fl => let '(r, w) := ok w in (r, fl, w)
  | [] => let '(r, w) := ok w in (r, [], w)
  end.

(** ** Operations *)

Definition set_inode (i : nat) (x : inode) (w : fs) : fs :=
  mk_fs (fs_names w) (<[i := x]> (fs_inodes w)) (fs_tables w) (fs_next w).
Definition create (name : str) (w : fs) : fs :=
  let names := <[name := fs_next w]> (fs_names w) in
  mk_fs names (<[fs_next w := mk_inode [] false]> (fs_inodes w)) (names :: fs_tables w) (S (fs_next w)).
Definition set_names (names : gmap str nat) (w : fs) : fs :=
  mk_fs names (fs_inodes w) (names :: fs_tables w) (fs_next w).
Definition data_of (w : fs) (i : nat) : list Z := from_option in_data [] (fs_inodes w !! i).

(** An operation that either happened or did not. *)
Definition maybe (effect : fs → fs) (k : nat) (w : fs) : fs := match k with O => w | S _ => effect w end.

(** [OpenOptions::new().create(true).truncate(t)..open(name)]: the file's inode. *)
Definition open_effect (truncate : bool) (name : str) (w : fs) : fs :=
  match fs_names w !! name with
  | None => create name w
  | Some i => if truncate then set_inode i (mk_inode [] false) w else w
  end.
Definition open_create (truncate : bool) (name : str) : fsM nat :=
  faulty (λ w, let w' := open_effect truncate name w in
               (match fs_names w' !! name with Some i => Ok i | None => Err not_found end, w'))
    (maybe (open_effect truncate name)).

Definition read_to_end (i : nat) : fsM (list Z) := faulty (λ w, (Ok (data_of w i), w)) (λ _ w, w).

(** [fs::read] and [File::open] followed by reading all of it. *)
Definition read_file (name : str) : fsM (list Z) :=
  faulty (λ w, (match fs_names w !! name with Some i => Ok (data_of w i) | None => Err not_found end, w)) (λ _ w, w).

(** [Err(err) if err.kind() == ErrorKind::NotFound => return Ok(None)]. *)
Definition absent_ok {A} (m : fsM A) : fsM (option A) := λ fl w,
  match m fl w with
  | (Ok a, fl, w) => (Ok (Some a), fl, w)
  | (Err (Io e), fl, w) => if decide (err_kind e = NotFound) then (Ok None, fl, w) else (Err (Io e), fl, w)
  | (Err Panic, fl, w) => (Err Panic, fl, w)
  end.

Definition read_dir : fsM (list str) := faulty (λ w, (Ok (map_to_list (fs_names w)).*1, w)) (λ _ w, w).

Definition set_len (i : nat) (n : Z) : fsM unit :=
  let effect w := set_inode i (mk_inode (take (Z.to_nat n) (data_of w i)) false) w in
  faulty (λ w, (Ok tt, effect w)) (maybe effect).

(** [seek(SeekFrom::Start(offset))] and [write_all]; past the end the gap is zero. *)
Definition write_at (offset : Z) (l : list Z) (data : list Z) : list Z :=
  let pos := Z.to_nat offset in
  take pos data ++ replicate (pos - length data) 0 ++ l ++ drop (pos + length l) data.
Definition write_all (i : nat) (offset : Z) (l : list Z) : fsM unit :=
  faulty (λ w, (Ok tt, set_inode i (mk_inode (write_at offset l (data_of w i)) false) w))
    (λ k w, set_inode i (mk_inode (write_at offset (take k l) (data_of w i)) false) w).

Definition sync_all (i : nat) : fsM unit :=
  faulty (λ w, (Ok tt, set_inode i (mk_inode (data_of w i) true) w)) (λ _ w, w).

Definition rename_effect (from to : str) (w : fs) : fs :=
  match fs_names w !! from with
  | None => w
  | Some i => set_names (<[to := i]> (delete from (fs_names w))) w
  end.
Definition rename (from to : str) : fsM unit :=
  faulty (λ w, (match fs_names w !! from with Some _ => Ok tt | None => Err not_found end, rename_effect from to w))
    (maybe (rename_effect from to)).

Definition remove_file (name : str) : fsM unit :=
  faulty (λ w, (match fs_names w !! name with Some _ => Ok tt | None => Err not_found end,
                set_names (delete name (fs_names w)) w))
    (maybe (λ w, set_names (delete name (fs_names w)) w)).

(** Once the directory is synced a power failure leaves its current entries. *)
Definition sync_directory : fsM unit :=
  faulty (λ w, (Ok tt, mk_fs (fs_names w) (fs_inodes w) [fs_names w] (fs_next w))) (λ _ w, w).

(** The directory exists in the model; creating it can still fail. *)
Definition create_dir_all : fsM unit := faulty (λ w, (Ok tt, w)) (λ _ w, w).

(** Writing a file in pieces, in order, from its start. *)
Fixpoint write_chunks (i : nat) (offset : Z) (chunks : list (list Z)) : fsM unit :=
  match chunks with
  | [] => mret tt
  | l :: chunks => _ ← write_all i offset l; write_chunks i (offset + zlen l) chunks
  end.

(** What [write_current_with] and [write_checkpoint_meta] share: write a temporary
    file, sync it, rename it over the final one, sync the directory. *)
Definition publish (temp final : str) (chunks : list (list Z)) : fsM unit :=
  i ← open_create true temp;
  _ ← write_chunks i 0 chunks;
  _ ← sync_all i;
  _ ← rename temp final;
  sync_directory.

(** ** Power failures *)

(** The inodes keep what was synced; anything may be left of the others. *)
Definition crash (w w' : fs) : Prop :=
  fs_names w' ∈ fs_tables w ∧
  (∀ i x, fs_inodes w !! i = Some x → ∃ x', fs_inodes w' !! i = Some x' ∧
     (in_synced x = true → in_data x' = in_data x)).

(** ** Files by name *)

Definition file (w : fs) (name : str) : option inode := i ← fs_names w !! name; fs_inodes w !! i.
Definition file_data (w : fs) (name : str) : option (list Z) := in_data <$> file w name.

(** Names are of distinct, existing files, also in the tables a crash may leave. *)
Record fs_wf (w : fs) : Prop := {
  wf_inode name i : fs_names w !! name = Some i → is_Some (fs_inodes w !! i);
  wf_inj m n i : fs_names w !! m = Some i → fs_names w !! n = Some i → m = n;
  wf_next i : is_Some (fs_inodes w !! i) → (i < fs_next w)%nat;
  wf_tables t name i : t ∈ fs_tables w → t !! name = Some i → is_Some (fs_inodes w !! i);
}.

Lemma file_Some w name x : file w name = Some x ↔ ∃ i, fs_names w !! name = Some i ∧ fs_inodes w !! i = Some x.
Proof. unfold file. by rewrite bind_Some. Qed.
Lemma data_of_file w name i x : fs_names w !! name = Some i → file w name = Some x → data_of w i = in_data x.
Proof. intros Hn (j & Hn' & Hx)%file_Some. rewrite Hn in Hn'. injection Hn' as <-. unfold data_of. by rewrite Hx. Qed.
Lemma file_None w name : fs_wf w → file w name = None ↔ fs_names w !! name = None.
Proof.
  intros Hwf. unfold file. destruct (fs_names w !! name) as [i|] eqn:Hn; [|done]. cbn. split; [|done].
  intros Hx. destruct (wf_inode w Hwf _ _ Hn) as [x Hx']. congruence.
Qed.

(** *** The effects *)

Lemma file_set_inode w name i x m : fs_wf w → fs_names w !! name = Some i →
  file (set_inode i x w) m = if decide (m = name) then Some x else file w m.
Proof.
  intros Hwf Hn. unfold file, set_inode. cbn [fs_names fs_inodes]. case_decide as Hm.
  - subst m. rewrite Hn. cbn. by rewrite lookup_insert_eq.
  - destruct (fs_names w !! m) as [j|] eqn:Hj; [|done]. cbn. rewrite lookup_insert_ne; [done|].
    intros ->. apply Hm. by eapply wf_inj.
Qed.
Lemma wf_set_inode w i x : fs_wf w → is_Some (fs_inodes w !! i) → fs_wf (set_inode i x w).
Proof.
  intros [H1 H2 H3 H4] Hi. split; cbn.
  - intros name j Hn. destruct (decide (i = j)) as [->|]; [by rewrite lookup_insert_eq|].
    rewrite lookup_insert_ne by done. by eapply H1.
  - done.
  - intros j. destruct (decide (i = j)) as [->|]; [by intros _; apply H3|]. rewrite lookup_insert_ne by done. apply H3.
  - intros t name j Ht Hn. destruct (decide (i = j)) as [->|]; [by rewrite lookup_insert_eq|].
    rewrite lookup_insert_ne by done. by eapply H4.
Qed.

Lemma fresh_inode w : fs_wf w → fs_inodes w !! fs_next w = None.
Proof. intros Hwf. apply eq_None_not_Some. intros Hs%(wf_next w Hwf). lia. Qed.
Lemma file_create w name m : fs_wf w →
  file (create name w) m = if decide (m = name) then Some (mk_inode [] false) else file w m.
Proof.
  intros Hwf. unfold file, create. cbn [fs_names fs_inodes]. case_decide as Hm.
  - subst m. rewrite lookup_insert_eq. cbn. by rewrite lookup_insert_eq.
  - rewrite lookup_insert_ne by done. destruct (fs_names w !! m) as [j|] eqn:Hj; [|done]. cbn.
    rewrite lookup_insert_ne; [done|]. intros <-. destruct (wf_inode w Hwf _ _ Hj) as [x Hx].
    by rewrite fresh_inode in Hx.
Qed.
Lemma wf_create w name : fs_wf w → fs_wf (create name w).
Proof.
  intros Hwf. pose proof (fresh_inode w Hwf) as Hfresh. pose proof Hwf as [H1 H2 H3 H4].
  assert (∀ j, is_Some (fs_inodes w !! j) → is_Some (<[fs_next w := mk_inode [] false]> (fs_inodes w) !! j)) as Hk.
  { intros j Hj. destruct (decide (fs_next w = j)) as [->|]; [by rewrite lookup_insert_eq|]. by rewrite lookup_insert_ne. }
  assert (∀ n i, <[name := fs_next w]> (fs_names w) !! n = Some i →
    is_Some (<[fs_next w := mk_inode [] false]> (fs_inodes w) !! i)) as Hn.
  { intros n i [[_ <-]|[_ Hn]]%lookup_insert_Some; [by rewrite lookup_insert_eq|]. by eapply Hk, H1. }
  split; cbn.
  - exact Hn.
  - intros m n i [[<- <-]|[Hm Hmi]]%lookup_insert_Some [[<- E]|[Hn' Hni]]%lookup_insert_Some; [done| | |by eapply H2].
    + apply H1 in Hni. rewrite Hfresh in Hni. by destruct Hni.
    + subst i. apply H1 in Hmi. rewrite Hfresh in Hmi. by destruct Hmi.
  - intros j. destruct (decide (fs_next w = j)) as [->|]; [lia|]. rewrite lookup_insert_ne by done. intros ?%H3. lia.
  - intros t n i [->|Ht]%elem_of_cons; [apply Hn|]. intros Hni. by eapply Hk, H4.
Qed.

Lemma file_rename w from to i m : fs_names w !! from = Some i → from ≠ to →
  file (rename_effect from to w) m =
    if decide (m = to) then file w from else if decide (m = from) then None else file w m.
Proof.
  intros Hi Hne. unfold rename_effect. rewrite Hi. unfold file, set_names. cbn [fs_names fs_inodes]. rewrite Hi.
  destruct (decide (m = to)) as [->|Hm]; [by rewrite lookup_insert_eq|]. rewrite lookup_insert_ne by done.
  destruct (decide (m = from)) as [->|Hm']; [by rewrite lookup_delete_eq|]. by rewrite lookup_delete_ne.
Qed.
Lemma wf_rename w from to : fs_wf w → fs_wf (rename_effect from to w).
Proof.
  intros Hwf. unfold rename_effect. destruct (fs_names w !! from) as [i|] eqn:Hi; [|done].
  pose proof Hwf as [H1 H2 H3 H4].
  assert (∀ n j, <[to := i]> (delete from (fs_names w)) !! n = Some j → is_Some (fs_inodes w !! j)) as Hn.
  { intros n j [[_ <-]|[_ [_ Hn]%lookup_delete_Some]]%lookup_insert_Some; by eapply H1. }
  split; cbn; [exact Hn| |exact H3|].
  - intros m n j [[<- <-]|[Hm [Hmf Hmi]%lookup_delete_Some]]%lookup_insert_Some
      [[<- E]|[Hn' [Hnf Hni]%lookup_delete_Some]]%lookup_insert_Some; [done| | |by eapply H2].
    + exfalso. apply Hnf. by eapply H2.
    + subst j. exfalso. apply Hmf. by eapply H2.
  - intros t n j [->|Ht]%elem_of_cons; [apply Hn|]. by apply H4.
Qed.

Lemma file_sync_directory w m : file (mk_fs (fs_names w) (fs_inodes w) [fs_names w] (fs_next w)) m = file w m.
Proof. done. Qed.
Lemma wf_sync_directory w : fs_wf w → fs_wf (mk_fs (fs_names w) (fs_inodes w) [fs_names w] (fs_next w)).
Proof.
  intros [H1 H2 H3 H4]. split; cbn; [done|done|done|]. intros t n i ->%list_elem_of_singleton. apply H1.
Qed.

(** ** Triples

    [triple P m Q E]: from a state in [P], [m] never panics; it fails only with a
    fault, and then leaves a state in [E]; otherwise its value and state are in
    [Q]. *)
Definition triple {A} (P : fs → Prop) (m : fsM A) (Q : A → fs → Prop) (E : fs → Prop) : Prop :=
  ∀ fl w, P w →
    let '(r, fl', w') := m fl w in
    (fl = [] → fl' = []) ∧
    match r with
    | Ok a => Q a w'
    | Err (Io _) => fl ≠ [] ∧ E w'
    | Err Panic => False
    end.

Lemma triple_bind {A B} P (m : fsM A) (f : A → fsM B) Q R E :
  triple P m Q E → (∀ a, triple (Q a) (f a) R E) → triple P (m ≫= f) R E.
Proof.
  intros Hm Hf fl w HP. specialize (Hm fl w HP). unfold mbind, fs_bind.
  destruct (m fl w) as [[[a|[|e]] fl1] w1]; destruct Hm as [Hfl Hm]; [|done..].
  specialize (Hf a fl1 w1 Hm). destruct (f a fl1 w1) as [[[b|[|e]] fl2] w2]; destruct Hf as [Hfl2 Hf].
  - split; [auto|done].
  - done.
  - split; [auto|]. destruct Hf as [Hne HE]. split; [|done]. intros ->. by apply Hne, Hfl.
Qed.
Lemma triple_pure {A} (P : fs → Prop) (r : run A) a (Q : A → fs → Prop) E :
  r = Ok a → (∀ w, P w → Q a w) → triple P (pure_run r) Q E.
Proof. intros -> HQ fl w HP. cbn. auto. Qed.
Lemma triple_ret {A} (P : fs → Prop) (a : A) (Q : A → fs → Prop) E :
  (∀ w, P w → Q a w) → triple P (mret a) Q E.
Proof. intros HQ fl w HP. cbn. auto. Qed.
Lemma triple_faulty {A} (P : fs → Prop) (ok : fs → run A * fs) bad (Q : A → fs → Prop) (E : fs → Prop) :
  (∀ w, P w → ∃ a w', ok w = (Ok a, w') ∧ Q a w') → (∀ k w, P w → E (bad k w)) → triple P (faulty ok bad) Q E.
Proof.
  intros Hok Hbad fl w HP. destruct (Hok w HP) as (a & w' & Heq & HQ).
  destruct fl as [|[k|] fl]; cbn; rewrite ?Heq; split; try done. split; [done|]. by apply Hbad.
Qed.
Lemma triple_weaken {A} (P P' : fs → Prop) (m : fsM A) (Q Q' : A → fs → Prop) (E E' : fs → Prop) :
  triple P m Q E → (∀ w, P' w → P w) → (∀ a w, Q a w → Q' a w) → (∀ w, E w → E' w) → triple P' m Q' E'.
Proof.
  intros Hm HP HQ HE fl w Hw. specialize (Hm fl w (HP w Hw)).
  destruct (m fl w) as [[[a|[|e]] fl1] w1]; destruct Hm as [Hfl Hm]; [auto|done|].
  destruct Hm as [Hne Hm]. auto.
Qed.
Lemma triple_pre {A} (P P' : fs → Prop) (m : fsM A) (Q : A → fs → Prop) (E : fs → Prop) :
  triple P m Q E → (∀ w, P' w → P w) → triple P' m Q E.
Proof. intros Hm HP. by eapply triple_weaken. Qed.
Lemma triple_exists {A X} (P : X → fs → Prop) (m : fsM A) (Q : A → fs → Prop) (E : fs → Prop) :
  (∀ x, triple (P x) m Q E) → triple (λ w, ∃ x, P x w) m Q E.
Proof. intros Hm fl w [x HP]. exact (Hm x fl w HP). Qed.
Lemma triple_fact {A} (φ : Prop) (P : fs → Prop) (m : fsM A) (Q : A → fs → Prop) (E : fs → Prop) :
  (φ → triple P m Q E) → triple (λ w, φ ∧ P w) m Q E.
Proof. intros Hm fl w [Hφ HP]. exact (Hm Hφ fl w HP). Qed.

(** Without faults a triple gives the result. *)
Lemma triple_clean {A} (P : fs → Prop) (m : fsM A) (Q : A → fs → Prop) E w :
  triple P m Q E → P w → ∃ a w', m [] w = (Ok a, [], w') ∧ Q a w'.
Proof.
  intros Hm HP. specialize (Hm [] w HP). destruct (m [] w) as [[[a|[|e]] fl] w']; destruct Hm as [Hfl Hm].
  - rewrite (Hfl eq_refl). by exists a, w'.
  - done.
  - by destruct Hm.
Qed.

(** Two facts about one program. *)
Lemma triple_and {A} (P P' : fs → Prop) (m : fsM A) (Q Q' : A → fs → Prop) (E E' : fs → Prop) :
  triple P m Q E → triple P' m Q' E' →
  triple (λ w, P w ∧ P' w) m (λ a w, Q a w ∧ Q' a w) (λ w, E w ∧ E' w).
Proof.
  intros H1 H2 fl w [HP HP']. specialize (H1 fl w HP). specialize (H2 fl w HP').
  destruct (m fl w) as [[[a|[|e]] fl1] w1]; [tauto|tauto|]. destruct H1 as (? & ? & ?), H2 as (? & ? & ?). by split_and!.
Qed.

(** ** Publishing *)

Lemma write_at_end data l : write_at (zlen data) l data = data ++ l.
Proof.
  unfold write_at, zlen. rewrite Nat2Z.id, take_ge, Nat.sub_diag, drop_ge by lia. cbn. by rewrite app_nil_r.
Qed.

(** Writing in pieces, in any family of states indexed by the file's bytes. *)
Lemma write_chunks_gen (St : list Z → fs → Prop) i chunks : ∀ data,
  (∀ d w, St d w → data_of w i = d) →
  (∀ d d' w, St d w → St d' (set_inode i (mk_inode d' false) w)) →
  triple (St data) (write_chunks i (zlen data) chunks) (λ _, St (data ++ mjoin chunks)) (λ w, ∃ d, St d w).
Proof.
  induction chunks as [|l chunks IH]; intros data Hd Hset; cbn [write_chunks].
  - apply triple_ret. intros w Hw. by rewrite app_nil_r.
  - eapply (triple_bind _ _ _ (λ _, St (data ++ l))).
    + apply triple_faulty.
      * intros w Hw. do 2 eexists. split; [done|]. rewrite (Hd _ _ Hw), write_at_end. by eapply Hset.
      * intros k w Hw. eexists. by eapply Hset.
    + intros []. specialize (IH (data ++ l) Hd Hset). rewrite zlen_app, <- app_assoc in IH. exact IH.
Qed.

Section publish.
Context (temp final : str) (Hdistinct : temp ≠ final).

(** Everything but the two files stays as [g] has it. *)
Definition frame_of (g : str → option inode) (w : fs) : Prop :=
  ∀ n, n ≠ temp → n ≠ final → file w n = g n.

(** The temporary file is open, as inode [i], with these contents; the final one
    is as it was. *)
Definition writing g f0 (i : nat) (data : list Z) (synced : bool) (w : fs) : Prop :=
  fs_wf w ∧ frame_of g w ∧ file w final = f0 ∧ fs_names w !! temp = Some i ∧
  fs_inodes w !! i = Some (mk_inode data synced).
Definition unpublished g f0 (w : fs) : Prop := fs_wf w ∧ frame_of g w ∧ file w final = f0.

Lemma writing_unpublished g f0 i d s w : writing g f0 i d s w → unpublished g f0 w.
Proof. by intros (? & ? & ? & _). Qed.

Lemma unpublished_open g f0 w : unpublished g f0 w →
  unpublished g f0 (open_effect true temp w) ∧
  ∃ i, fs_names (open_effect true temp w) !! temp = Some i ∧
    fs_inodes (open_effect true temp w) !! i = Some (mk_inode [] false).
Proof.
  intros (Hwf & Hg & Hf). unfold open_effect. destruct (fs_names w !! temp) as [i|] eqn:Hn.
  - split.
    + split; [apply wf_set_inode; [done|by eapply wf_inode]|]. split.
      * intros n Hnt Hnf. rewrite (file_set_inode w temp) by done. rewrite decide_False by done. by apply Hg.
      * rewrite (file_set_inode w temp) by done. by rewrite decide_False.
    + exists i. split; [done|]. cbn. by rewrite lookup_insert_eq.
  - split.
    + split; [by apply wf_create|]. split.
      * intros n Hnt Hnf. rewrite file_create by done. rewrite decide_False by done. by apply Hg.
      * rewrite file_create by done. by rewrite decide_False.
    + exists (fs_next w). cbn. by rewrite !lookup_insert_eq.
Qed.

Lemma writing_set g f0 i d s d' s' w : writing g f0 i d s w → writing g f0 i d' s' (set_inode i (mk_inode d' s') w).
Proof.
  intros (Hwf & Hg & Hf & Hn & Hi). split_and!.
  - apply wf_set_inode; [done|by rewrite Hi].
  - intros n Hnt Hnf. rewrite (file_set_inode w temp) by done. rewrite decide_False by done. by apply Hg.
  - rewrite (file_set_inode w temp) by done. by rewrite decide_False.
  - done.
  - cbn. by rewrite lookup_insert_eq.
Qed.
Lemma data_of_writing g f0 i d s w : writing g f0 i d s w → data_of w i = d.
Proof. intros (_ & _ & _ & _ & Hi). unfold data_of. by rewrite Hi. Qed.

Lemma write_chunks_spec g f0 i chunks : ∀ data,
  triple (writing g f0 i data false) (write_chunks i (zlen data) chunks)
    (λ _, writing g f0 i (data ++ mjoin chunks) false) (unpublished g f0).
Proof.
  intros data. eapply triple_weaken.
  - apply (write_chunks_gen (λ d, writing g f0 i d false) i chunks data).
    + intros d w. apply data_of_writing.
    + intros d d' w. apply writing_set.
  - done.
  - done.
  - intros w [d Hw]. by eapply writing_unpublished.
Qed.

Lemma rename_published g f0 i d s w : writing g f0 i d s w →
  fs_wf (rename_effect temp final w) ∧ frame_of g (rename_effect temp final w) ∧
  file (rename_effect temp final w) final = Some (mk_inode d s).
Proof.
  intros (Hwf & Hg & Hf & Hn & Hi). split_and!.
  - by apply wf_rename.
  - intros n Hnt Hnf. rewrite (file_rename w temp final i) by done. rewrite decide_False by done.
    rewrite decide_False by done. by apply Hg.
  - rewrite (file_rename w temp final i) by done. rewrite decide_True by done. unfold file. by rewrite Hn.
Qed.

(** Publishing replaces the final file by the whole new contents, synced, or
    leaves it as it was; it succeeds without faults, and then durably. *)
Lemma publish_spec g f0 chunks :
  let new := Some (mk_inode (mjoin chunks) true) in
  triple (unpublished g f0) (publish temp final chunks)
    (λ _ w, unpublished g new w ∧ fs_tables w = [fs_names w])
    (λ w, unpublished g f0 w ∨ unpublished g new w).
Proof.
  intros new. unfold publish. eapply (triple_bind _ _ _ (λ i, writing g f0 i [] false)).
  - eapply triple_weaken with (E := unpublished g f0) (Q := λ i, writing g f0 i [] false); [|done|done|by left].
    apply triple_faulty.
    + intros w Hw. destruct (unpublished_open _ _ _ Hw) as [(H1 & H2 & H3) (i & Hn & Hi)].
      exists i, (open_effect true temp w). cbv beta zeta. rewrite Hn. split; [done|]. by split_and!.
    + intros [|k] w Hw; [done|]. by apply unpublished_open.
  - intros i. eapply (triple_bind _ _ _ (λ _, writing g f0 i (mjoin chunks) false)).
    { eapply triple_weaken; [apply (write_chunks_spec g f0 i chunks [])|done|done|by left]. }
    intros []. eapply (triple_bind _ _ _ (λ _, writing g f0 i (mjoin chunks) true)).
    { apply triple_faulty; [|intros _ w Hw; left; by eapply writing_unpublished].
      intros w Hw. exists tt. eexists. split; [done|]. rewrite (data_of_writing _ _ _ _ _ _ Hw). by eapply writing_set. }
    intros []. eapply (triple_bind _ _ _ (λ _, unpublished g new)).
    { apply triple_faulty.
      - intros w Hw. exists tt. pose proof Hw as (_ & _ & _ & Hn & _). eexists. rewrite Hn. split; [done|].
        by eapply rename_published.
      - intros [|k] w Hw; [left; by eapply writing_unpublished|right]. by eapply rename_published. }
    intros []. apply triple_faulty; [|by right].
    intros w (Hwf & Hg & Hf). exists tt. eexists. split; [done|]. split; [|done].
    split; [by apply wf_sync_directory|]. by split.
Qed.

(** *** Across power failures *)

(** Whatever a crash leaves of the final file is one of the [allowed] contents,
    or nothing, if [absent]. *)
Record crash_inv (absent : Prop) (allowed : list Z → Prop) (w : fs) : Prop := {
  ci_wf : fs_wf w;
  ci_names : fs_names w ∈ fs_tables w;
  ci_final t : t ∈ fs_tables w →
    match t !! final with
    | None => absent
    | Some i => ∃ d, fs_inodes w !! i = Some (mk_inode d true) ∧ allowed d
    end;
  ci_temp t i : fs_names w !! temp = Some i → t ∈ fs_tables w → t !! final ≠ Some i;
}.

Lemma crash_inv_crash absent allowed w w' : crash_inv absent allowed w → crash w w' →
  match file w' final with None => absent | Some x => allowed (in_data x) end.
Proof.
  intros Hci [Ht Hi]. pose proof (ci_final _ _ _ Hci _ Ht) as Hf. unfold file.
  destruct (fs_names w' !! final) as [i|]; [|done]. cbn. destruct Hf as (d & Hd & Hal).
  destruct (Hi _ _ Hd) as (x & -> & Hx). by rewrite Hx.
Qed.

Lemma crash_inv_weaken (absent absent' : Prop) (allowed allowed' : list Z → Prop) w :
  crash_inv absent allowed w → (absent → absent') → (∀ d, allowed d → allowed' d) → crash_inv absent' allowed' w.
Proof.
  intros [Hwf Hn Hf Ht] Ha Hal. split; [done|done| |done]. intros t Htab. specialize (Hf t Htab).
  destruct (t !! final); [|by apply Ha]. destruct Hf as (d & Hd & Hd'). exists d. split; [done|by apply Hal].
Qed.
(** So may inodes that never were the final file. *)
Lemma crash_inv_set_other absent allowed w i x : crash_inv absent allowed w → is_Some (fs_inodes w !! i) →
  (∀ t, t ∈ fs_tables w → t !! final ≠ Some i) → crash_inv absent allowed (set_inode i x w).
Proof.
  intros [Hwf Hn Hf Ht] Hi Hno. split; cbn.
  - by apply wf_set_inode.
  - done.
  - intros t Htab. specialize (Hf t Htab). specialize (Hno t Htab). destruct (t !! final) as [j|]; [|done].
    destruct Hf as (d & Hd & Hal). exists d. split; [|done]. rewrite lookup_insert_ne by congruence. done.
  - done.
Qed.

(** The temporary inode may change at will. *)
Lemma crash_inv_set absent allowed w i x : crash_inv absent allowed w → fs_names w !! temp = Some i →
  crash_inv absent allowed (set_inode i x w).
Proof.
  intros [Hwf Hn Hf Ht] Hi. split; cbn.
  - apply wf_set_inode; [done|by eapply wf_inode].
  - done.
  - intros t Htab. specialize (Hf t Htab). specialize (Ht t i Hi Htab). destruct (t !! final) as [j|]; [|done].
    destruct Hf as (d & Hd & Hal). exists d. split; [|done]. rewrite lookup_insert_ne by congruence. done.
  - done.
Qed.
Lemma crash_inv_open absent allowed w : crash_inv absent allowed w →
  crash_inv absent allowed (open_effect true temp w) ∧ is_Some (fs_names (open_effect true temp w) !! temp).
Proof.
  intros Hci. unfold open_effect. destruct (fs_names w !! temp) as [i|] eqn:Hn.
  { split; [by apply crash_inv_set|]. by exists i. }
  pose proof Hci as [Hwf Htn Hf Ht]. split; [|cbn; rewrite lookup_insert_eq; by eexists]. split.
  - by apply wf_create.
  - by left.
  - cbn. intros t Htab. assert (∃ t', t' ∈ fs_tables w ∧ t !! final = t' !! final) as (t' & Ht' & Heq).
    { apply elem_of_cons in Htab as [->|]; [|by exists t]. exists (fs_names w). split; [done|].
      by rewrite lookup_insert_ne. }
    rewrite Heq. specialize (Hf t' Ht'). destruct (t' !! final) as [j|] eqn:Hj; [|done].
    destruct Hf as (d & Hd & Hal). exists d. split; [|done]. rewrite lookup_insert_ne; [done|].
    intros <-. by rewrite fresh_inode in Hd.
  - cbn. intros t i. rewrite lookup_insert_eq. intros [= <-] Htab Hj.
    assert (∃ t', t' ∈ fs_tables w ∧ t' !! final = Some (fs_next w)) as (t' & Ht' & Heq).
    { apply elem_of_cons in Htab as [->|]; [|by exists t]. exists (fs_names w). split; [done|].
      by rewrite lookup_insert_ne in Hj. }
    destruct (wf_tables w Hwf _ _ _ Ht' Heq) as [x Hx]. by rewrite fresh_inode in Hx.
Qed.
Lemma crash_inv_rename absent allowed w i d : crash_inv absent allowed w → fs_names w !! temp = Some i →
  fs_inodes w !! i = Some (mk_inode d true) → allowed d → crash_inv absent allowed (rename_effect temp final w).
Proof.
  intros [Hwf Hn Hf Ht] Hi Hd Hal. unfold rename_effect. rewrite Hi. split.
  - pose proof (wf_rename w temp final Hwf) as Hwr. unfold rename_effect in Hwr. by rewrite Hi in Hwr.
  - by left.
  - cbn. intros t [->|Htab]%elem_of_cons; [|by apply Hf]. rewrite lookup_insert_eq. by exists d.
  - cbn. intros t j. rewrite lookup_insert_ne by done. by rewrite lookup_delete_eq.
Qed.

Definition crash_writing absent allowed (i : nat) (d : list Z) (s : bool) (w : fs) : Prop :=
  crash_inv absent allowed w ∧ fs_names w !! temp = Some i ∧ fs_inodes w !! i = Some (mk_inode d s).

Lemma crash_writing_set absent allowed i d s d' s' w : crash_writing absent allowed i d s w →
  crash_writing absent allowed i d' s' (set_inode i (mk_inode d' s') w).
Proof.
  intros (Hci & Hn & Hi). split; [by apply crash_inv_set|]. split; [done|]. cbn. by rewrite lookup_insert_eq.
Qed.

Lemma write_chunks_crash absent allowed i chunks : ∀ data,
  triple (crash_writing absent allowed i data false) (write_chunks i (zlen data) chunks)
    (λ _, crash_writing absent allowed i (data ++ mjoin chunks) false) (crash_inv absent allowed).
Proof.
  intros data. eapply triple_weaken.
  - apply (write_chunks_gen (λ d, crash_writing absent allowed i d false) i chunks data).
    + intros d w (_ & _ & Hi). unfold data_of. by rewrite Hi.
    + intros d d' w. apply crash_writing_set.
  - done.
  - done.
  - by intros w [d [Hw _]].
Qed.

(** A crash at any moment of a publication finds an allowed file. *)
Lemma publish_crash absent allowed chunks : allowed (mjoin chunks) →
  triple (crash_inv absent allowed) (publish temp final chunks)
    (λ _, crash_inv absent allowed) (crash_inv absent allowed).
Proof.
  intros Hal. unfold publish. eapply (triple_bind _ _ _ (λ i, crash_writing absent allowed i [] false)).
  { apply triple_faulty.
    - intros w Hw. pose proof (crash_inv_open _ _ _ Hw) as [Hci [i Hi]]. exists i, (open_effect true temp w). cbv beta zeta.
      rewrite Hi. split; [done|].
      split; [done|]. split; [done|]. revert Hi. unfold open_effect. destruct (fs_names w !! temp) eqn:Hn; cbn.
      + rewrite Hn. intros [= ->]. by rewrite lookup_insert_eq.
      + rewrite lookup_insert_eq. intros [= ->]. by rewrite lookup_insert_eq.
    - intros [|k] w Hw; [done|]. by apply crash_inv_open. }
  intros i. eapply (triple_bind _ _ _ (λ _, crash_writing absent allowed i (mjoin chunks) false)).
  { apply (write_chunks_crash absent allowed i chunks []). }
  intros []. eapply (triple_bind _ _ _ (λ _, crash_writing absent allowed i (mjoin chunks) true)).
  { apply triple_faulty; [|by intros _ w [? _]]. intros w Hw. exists tt. eexists. split; [done|].
    pose proof Hw as (_ & _ & Hi). unfold data_of. rewrite Hi. by eapply crash_writing_set. }
  intros []. eapply (triple_bind _ _ _ (λ _, crash_inv absent allowed)).
  { apply triple_faulty.
    - intros w (Hci & Hn & Hi). exists tt. rewrite Hn. eexists. split; [done|]. by eapply crash_inv_rename.
    - intros [|k] w (Hci & Hn & Hi); [done|]. by eapply crash_inv_rename. }
  intros []. apply triple_faulty; [|done]. intros w [Hwf Hn Hf Ht]. exists tt. eexists. split; [done|]. split; cbn.
  - by apply wf_sync_directory.
  - by left.
  - intros t ->%list_elem_of_singleton. by apply Hf.
  - intros t j Hj ->%list_elem_of_singleton. by apply Ht.
Qed.

(** *** Other files *)

(** A file that is the same whatever a crash leaves. *)
Definition pinned (name : str) (x : inode) (w : fs) : Prop :=
  fs_wf w ∧ ∃ i, fs_inodes w !! i = Some x ∧ fs_names w !! name = Some i ∧
    ∀ t, t ∈ fs_tables w → t !! name = Some i.

Lemma pinned_crash name x w w' : pinned name x w → in_synced x = true → crash w w' →
  file_data w' name = Some (in_data x).
Proof.
  intros (_ & i & Hi & _ & Ht) Hs [Hn Hc]. specialize (Ht _ Hn). unfold file_data, file. rewrite Ht. cbn.
  destruct (Hc _ _ Hi) as (x' & -> & Hx). cbn. by rewrite Hx.
Qed.

Definition pinned_temp (name : str) (x : inode) (i : nat) (w : fs) : Prop :=
  pinned name x w ∧ fs_names w !! temp = Some i.
Lemma pinned_set name x i x' w : name ≠ temp → pinned_temp name x i w → pinned_temp name x i (set_inode i x' w).
Proof.
  intros Hne [(Hwf & j & Hj & Hn & Ht) Hi]. split; [|done]. split; [apply wf_set_inode; [done|by eapply wf_inode]|].
  exists j. split_and!; [|done|done]. cbn. rewrite lookup_insert_ne; [done|]. intros ->. apply Hne. by eapply (wf_inj w Hwf).
Qed.

Lemma publish_pinned name x chunks : name ≠ temp → name ≠ final →
  triple (pinned name x) (publish temp final chunks) (λ _, pinned name x) (pinned name x).
Proof.
  intros Hnt Hnf. unfold publish. eapply (triple_bind _ _ _ (λ i, pinned_temp name x i)).
  { assert (∀ w, pinned name x w → ∃ i, pinned_temp name x i (open_effect true temp w)) as Hopen.
    { intros w Hp. unfold open_effect. destruct (fs_names w !! temp) as [i|] eqn:Hi.
      - exists i. by apply pinned_set.
      - exists (fs_next w). destruct Hp as (Hwf & j & Hj & Hn & Ht). split; [|cbn; by rewrite lookup_insert_eq].
        split; [by apply wf_create|]. exists j. cbn. split_and!.
        + rewrite lookup_insert_ne; [done|]. intros <-. by rewrite fresh_inode in Hj.
        + by rewrite lookup_insert_ne.
        + intros t [->|Htab]%elem_of_cons; [by rewrite lookup_insert_ne|by apply Ht]. }
    apply triple_faulty.
    - intros w Hp. destruct (Hopen w Hp) as (i & Hpt). exists i, (open_effect true temp w). cbv beta zeta.
      pose proof Hpt as [_ ->]. done.
    - intros [|k] w Hp; [done|]. destruct (Hopen w Hp) as (i & Hpt). apply Hpt. }
  intros i. eapply (triple_bind _ _ _ (λ _, pinned_temp name x i)).
  { generalize 0. induction chunks as [|l chunks IH]; intros off; cbn [write_chunks]; [by apply triple_ret|].
    eapply (triple_bind _ _ _ (λ _, pinned_temp name x i)); [|intros []; apply IH].
    apply triple_faulty.
    - intros w Hp. do 2 eexists. split; [done|]. by apply pinned_set.
    - intros k w Hp. eapply pinned_set; [done|]. exact Hp. }
  intros []. eapply (triple_bind _ _ _ (λ _, pinned_temp name x i)).
  { apply triple_faulty; [|by intros _ w [? _]]. intros w Hp. do 2 eexists. split; [done|]. by apply pinned_set. }
  intros []. eapply (triple_bind _ _ _ (λ _, pinned name x)).
  { assert (∀ w, pinned_temp name x i w → pinned name x (rename_effect temp final w)) as Hren.
    { intros w [(Hwf & j & Hj & Hn & Ht) Hi]. split; [by apply wf_rename|]. exists j. unfold rename_effect. rewrite Hi. cbn.
      assert (<[final := i]> (delete temp (fs_names w)) !! name = Some j) as Hnew
        by (rewrite lookup_insert_ne by done; by rewrite lookup_delete_ne).
      split_and!; [done|done|]. intros t [->|Htab]%elem_of_cons; [done|by apply Ht]. }
    apply triple_faulty.
    - intros w Hp. pose proof Hp as [_ Hi]. exists tt, (rename_effect temp final w). rewrite Hi. split; [done|]. by apply Hren.
    - intros [|k] w Hp; [by destruct Hp|]. by apply Hren. }
  intros []. apply triple_faulty; [|done]. intros w (Hwf & j & Hj & Hn & Ht). do 2 eexists. split; [done|].
  split; [by apply wf_sync_directory|]. exists j. cbn. split_and!; [done|done|]. by intros t ->%list_elem_of_singleton.
Qed.

End publish.

(** ** The empty directory *)

Definition empty_directory : fs := mk_fs ∅ ∅ [∅] 0.
Lemma empty_directory_wf : fs_wf empty_directory.
Proof. split; cbn; [done|done|by intros i [x Hx]|by intros t name i ->%list_elem_of_singleton]. Qed.
