(* ===== verification/ManifestCoordinator.v ===== *)
(** * Manifest publication

    The directory side of [chronoxide-core/src/storage/manifest.rs]: the [CURRENT]
    pointer, reading the published snapshot, and the coordinator whose append
    attempts can be committed again after an ambiguous I/O error.  The
    coordinator's mutex makes each of its operations atomic. *)
From S2P Require Import Prelude Cursor Text Fields Frame SegmentId Manifest Files.

(** ** The current manifest *)

Definition CURRENT_FILE_NAME : str := bytes_of_string "CURRENT".
Definition CURRENT_TEMP_FILE_NAME : str := bytes_of_string "CURRENT.tmp".

Section coordinator.
Context `{HU : Ulid} `{HC : Crc32c} `{HS : Sha256}.

(** [write_current_with]: the name, a newline, and the shared publication. *)
Definition write_current (manifest_file_name : str) : fsM unit :=
  _ ← pure_run (io (validate_manifest_file_name manifest_file_name));
  _ ← create_dir_all;
  publish CURRENT_TEMP_FILE_NAME CURRENT_FILE_NAME [manifest_file_name; [10]].

Definition parse_current (bs : list Z) : io_result str :=
  raw ← ok_or (io_err InvalidData "manifest CURRENT is not valid UTF-8") (from_utf8 bs);
  let raw := trim raw in
  _ ← validate_manifest_file_name raw;
  Ok raw.

Definition read_current : fsM (option str) :=
  bs ← absent_ok (read_file CURRENT_FILE_NAME);
  match bs with
  | None => mret None
  | Some bs => raw ← pure_run (io (parse_current bs)); mret (Some raw)
  end.

(** Nothing of a publication may be there when [CURRENT] is not. *)
Definition publication_evidence (name : str) : bool :=
  bool_decide (name = CURRENT_FILE_NAME) || bool_decide (name = CURRENT_TEMP_FILE_NAME) ||
  starts_with manifest_prefix name.
Definition validate_proven_absent_manifest : fsM unit :=
  entries ← read_dir;
  pure_run (io (ensure (negb (existsb publication_evidence entries)) InvalidData
    "manifest CURRENT is absent despite existing publication evidence")).

Definition read_manifest_snapshot : fsM ManifestSnapshot :=
  current ← read_current;
  match current with
  | None => _ ← validate_proven_absent_manifest; mret snapshot_absent
  | Some file_name => bs ← read_file file_name; pure_run (manifest_snapshot_from_bytes file_name bs)
  end.

(** ** The coordinator *)

Record ManifestCoordinatorState := mk_coordinator {
  active_token : option Z;
  next_token : Z;
}.

Record ManifestAppendAttempt := mk_attempt {
  at_token : Z;
  at_record : ManifestRecord;
  at_encoded_record : list Z;
  at_file_name : str;
  at_pre_append_offset : Z;
  at_pre_append_prefix_sha256 : list Z;
}.

(** Errors leave the coordinator as it was, so its state is returned on success
    only. *)
Definition prepare_append (al : allocator) (state : ManifestCoordinatorState) (record : ManifestRecord)
    : fsM (ManifestAppendAttempt * ManifestCoordinatorState) :=
  _ ← pure_run (io (ensure (bool_decide (active_token state = None)) WouldBlock
    "another manifest mutation attempt is still active"));
  snapshot ← read_manifest_snapshot;
  let '(file_name, pre_append_offset, pre_append_prefix_sha256) :=
    match sn_cut snapshot with
    | Absent => (manifest_file_name 1, 0, sha256 [])
    | Present file_name validated_offset prefix_sha256 => (file_name, validated_offset, prefix_sha256)
    end in
  encoded_record ← pure_run (io (encode_manifest_record al record));
  token ← pure_run (io (ok_or (io_err OtherError "manifest coordinator token overflow")
    (checked_add_u64 (next_token state) 1)));
  mret (mk_attempt token record encoded_record file_name pre_append_offset pre_append_prefix_sha256,
        mk_coordinator (Some token) token).

(** What is already there of the record decides what is written. *)
Definition append_missing (i : nat) (attempt : ManifestAppendAttempt) (suffix : list Z) : fsM unit :=
  let encoded := at_encoded_record attempt in
  if bool_decide (suffix = encoded) then mret tt
  else if bool_decide (suffix = []) || ((zlen suffix <? zlen encoded) && starts_with suffix encoded) then
    _ ← (if negb (bool_decide (suffix = [])) then
           _ ← set_len i (at_pre_append_offset attempt); sync_all i
         else mret tt);
    write_all i (at_pre_append_offset attempt) encoded
  else pure_run (Err (Io (io_err InvalidData
    "manifest tail is neither empty, intended record, nor its exact prefix"))).

Definition commit_attempt (state : ManifestCoordinatorState) (attempt : ManifestAppendAttempt)
    : fsM (ManifestSnapshot * ManifestCoordinatorState) :=
  _ ← pure_run (io (ensure (bool_decide (active_token state = Some (at_token attempt))) InvalidInput
    "manifest append attempt is no longer active"));
  _ ← pure_run (io (validate_manifest_file_name (at_file_name attempt)));
  i ← open_create false (at_file_name attempt);
  bs ← read_to_end i;
  let offset := at_pre_append_offset attempt in
  _ ← pure_run (io (ensure (offset <=? zlen bs) InvalidData "manifest became shorter than append prefix"));
  _ ← pure_run (io (ensure (bool_decide (sha256 (slice bs 0 offset) = at_pre_append_prefix_sha256 attempt))
    InvalidData "manifest append prefix changed before reconciliation"));
  _ ← append_missing i attempt (drop (Z.to_nat offset) bs);
  _ ← sync_all i;
  _ ← write_current (at_file_name attempt);
  snapshot ← read_manifest_snapshot;
  expected_offset ← pure_run (io (ok_or (io_err InvalidData "manifest append end offset overflow")
    (checked_add_u64 offset (zlen (at_encoded_record attempt)))));
  _ ← pure_run (io (ensure ((cut_validated_offset (sn_cut snapshot) =? expected_offset) &&
      bool_decide (last (sn_records snapshot) = Some (at_record attempt)))
    InvalidData "manifest append reconciliation produced an unexpected cut"));
  mret (snapshot, mk_coordinator None (next_token state)).

(** [Drop for ManifestAppendAttempt]. *)
Definition drop_attempt (state : ManifestCoordinatorState) (attempt : ManifestAppendAttempt)
    : ManifestCoordinatorState :=
  if bool_decide (active_token state = Some (at_token attempt)) then mk_coordinator None (next_token state)
  else state.

(** ** Names *)

Lemma names_distinct : CURRENT_TEMP_FILE_NAME ≠ CURRENT_FILE_NAME.
Proof. vm_compute. discriminate. Qed.

Lemma validate_name_inv name u : validate_manifest_file_name name = Ok u →
  ∃ ds, name = manifest_prefix ++ ds ∧ length ds = 6%nat ∧ Forall (λ b, digit b = true) ds.
Proof.
  unfold validate_manifest_file_name. intros Hd. apply bind_ok in Hd as (ds & Hds & Hd).
  destruct (strip_prefix manifest_prefix name) as [ds'|] eqn:Hs; [|done]. injection Hds as ->.
  apply strip_prefix_Some in Hs as ->. apply ensure_ok_inv, andb_true_iff in Hd as [Hl%Z.eqb_eq Hf].
  exists ds. split_and!; [done|unfold zlen in Hl; lia|]. apply Forall_forall. intros b Hb. rewrite forallb_forall in Hf.
  by apply Hf, list_elem_of_In.
Qed.
Lemma manifest_name_other name u : validate_manifest_file_name name = Ok u →
  name ≠ CURRENT_FILE_NAME ∧ name ≠ CURRENT_TEMP_FILE_NAME.
Proof. intros (ds & -> & _)%validate_name_inv. split; intros [=]. Qed.
Lemma validate_first_name : validate_manifest_file_name (manifest_file_name 1) = Ok tt.
Proof. vm_compute. reflexivity. Qed.

(** Trimming takes the newline off, and nothing else. *)
Lemma trim_loop_stop fuel ps s : strip_any ps s = None → trim_loop fuel ps s = s.
Proof. intros Hs. destruct fuel; [done|]. cbn. by rewrite Hs. Qed.
Lemma strip_any_head ps b s : forallb (λ p, match p with [] => false | a :: _ => negb (a =? b) end) ps = true →
  strip_any ps (b :: s) = None.
Proof.
  intros Hps. apply strip_any_none, Forall_forall. intros p Hp. rewrite forallb_forall in Hps.
  apply list_elem_of_In, Hps in Hp. destruct p as [|a p]; [done|]. by apply negb_true_iff, Z.eqb_neq in Hp.
Qed.
Lemma digit_not_space b : 48 ≤ b ≤ 57 →
  forallb (λ p, match p with [] => false | a :: _ => negb (a =? b) end) (reverse <$> whitespace) = true.
Proof.
  intros Hb. assert (b ∈ [48; 49; 50; 51; 52; 53; 54; 55; 56; 57]) as Hin by (rewrite !elem_of_cons; lia).
  clear Hb. revert b Hin. apply Forall_forall. vm_compute. repeat constructor.
Qed.
Lemma parse_written name u : validate_manifest_file_name name = Ok u → parse_current (name ++ [10]) = Ok name.
Proof.
  intros Hv. pose proof Hv as (ds & Hname & Hl & Hd)%validate_name_inv. unfold parse_current.
  assert (utf8_valid (name ++ [10]) = true) as Hu.
  { apply ascii_utf8. subst name. unfold ascii. rewrite !Forall_app. split; [split|].
    - by apply asciib_ascii.
    - by apply digits_ascii.
    - by apply asciib_ascii. }
  unfold from_utf8. rewrite Hu. cbn [ok_or mbind result_bind].
  assert (trim (name ++ [10]) = name) as ->; [|by rewrite Hv].
  unfold trim, trim_start. rewrite trim_loop_stop by (subst name; by apply strip_any_head). unfold trim_end.
  rewrite reverse_snoc, length_app, Nat.add_1_r. cbn [trim_loop].
  assert (strip_any (reverse <$> whitespace) (10 :: reverse name) = Some (reverse name)) as -> by done.
  rewrite trim_loop_stop; [apply reverse_involutive|]. subst name. rewrite reverse_app.
  destruct ds as [|b ds _] using rev_ind; [done|]. apply Forall_snoc_inv in Hd as [_ Hb%digit_spec].
  rewrite reverse_snoc. cbn [app]. by apply strip_any_head, digit_not_space.
Qed.

(** ** States of a publication *)

Definition current_at (F : str) (w : fs) : Prop :=
  ∃ x, file w CURRENT_FILE_NAME = Some x ∧ parse_current (in_data x) = Ok F.

(** The manifest [F] is current and holds the log [rs]. *)
Definition published (F : str) (rs : list (Z * ManifestRecord)) (w : fs) : Prop :=
  fs_wf w ∧ current_at F w ∧ file_data w F = Some (log_bytes rs).

(** Nothing has been published yet. *)
Definition unstarted (w : fs) : Prop :=
  fs_wf w ∧ ∀ name i, fs_names w !! name = Some i → publication_evidence name = false.

(** The pointer, while the first publication may still be under way. *)
Definition current_ok (F : str) (rs : list (Z * ManifestRecord)) (pointer : option inode) : Prop :=
  (∃ x, pointer = Some x ∧ parse_current (in_data x) = Ok F) ∨ pointer = None ∧ rs = [].

(** The manifest holds the log and some prefix of the record's bytes [e]. *)
Definition in_progress (F : str) (rs : list (Z * ManifestRecord)) (e : list Z) (w : fs) : Prop :=
  fs_wf w ∧ current_ok F rs (file w CURRENT_FILE_NAME) ∧
  ∃ p, p `prefix_of` e ∧ default [] (file_data w F) = log_bytes rs ++ p.

(** What a power failure may leave is what is there now, all of it synced. *)
Definition durable (F : str) (w : fs) : Prop :=
  fs_tables w = [fs_names w] ∧ (∃ x, file w F = Some x ∧ in_synced x = true) ∧
  (∃ x, file w CURRENT_FILE_NAME = Some x ∧ in_synced x = true).

Lemma published_crash F rs w w' : published F rs w → durable F w → crash w w' →
  (∀ name x, file w name = Some x → in_synced x = true → ∃ x', file w' name = Some x' ∧ in_data x' = in_data x).
Proof.
  intros Hp (Ht & _) [Hn Hi] name x (i & Hname & Hx)%file_Some Hs. rewrite Ht in Hn.
  apply list_elem_of_singleton in Hn. destruct (Hi _ _ Hx) as (x' & Hx' & Heq). exists x'. split; [|auto].
  apply file_Some. exists i. by rewrite Hn.
Qed.

Context (al : allocator) (Hal : grants al) (Hlaws : Crc32cLaws).

(** *** Reading *)

Lemma read_file_spec (P : fs → Prop) F rs :
  (∀ w, P w → file_data w F = Some (log_bytes rs)) →
  triple P (read_file F) (λ bs w, bs = log_bytes rs ∧ P w) P.
Proof.
  intros HP. apply triple_faulty; [|done]. intros w Hw. specialize (HP w Hw). unfold file_data in HP.
  apply fmap_Some in HP as (x & Hx & Hd). pose proof Hx as (i & Hn & Hi)%file_Some.
  exists (data_of w i), w. rewrite Hn. split; [done|]. split; [|done]. by rewrite (data_of_file w F i x).
Qed.

(** Reading changes nothing, so it also finds the snapshot after other things. *)
Lemma read_current_spec (P : fs → Prop) F :
  (∀ w, P w → current_at F w) → triple P read_current (λ c w, c = Some F ∧ P w) P.
Proof.
  intros HP. unfold read_current.
  eapply (triple_bind _ _ _ (λ bs w, (∃ d, bs = Some d ∧ parse_current d = Ok F) ∧ P w)).
  - intros fl w Hw. destruct (HP w Hw) as (x & Hx & Hp). pose proof Hx as (i & Hn & Hi)%file_Some.
    assert (data_of w i = in_data x) as Hd by by rewrite (data_of_file w CURRENT_FILE_NAME i x).
    unfold absent_ok, read_file, faulty. destruct fl as [|[k|] fl]; cbn -[CURRENT_FILE_NAME].
    + rewrite Hn, Hd. split; [done|]. split; [|done]. by eexists.
    + split; [done|]. by split.
    + rewrite Hn, Hd. split; [done|]. split; [|done]. by eexists.
  - intros bs. apply triple_fact. intros (d & -> & Hp).
    eapply (triple_bind _ _ _ (λ raw w, raw = F ∧ P w)).
    + apply (triple_pure _ _ F); [by rewrite Hp|done].
    + intros raw. apply triple_fact. intros ->. by apply triple_ret.
Qed.

Lemma read_snapshot_spec (P : fs → Prop) F rs u :
  validate_manifest_file_name F = Ok u → log_ok rs →
  (∀ w, P w → current_at F w ∧ file_data w F = Some (log_bytes rs)) →
  triple P read_manifest_snapshot (λ snap w, snap = log_snapshot F rs ∧ P w) P.
Proof.
  intros Hv Hrs HP. unfold read_manifest_snapshot.
  eapply (triple_bind _ _ _ (λ c w, c = Some F ∧ P w)); [apply read_current_spec; intros w Hw; apply (HP w Hw)|].
  intros c. apply triple_fact. intros ->.
  eapply (triple_bind _ _ _ (λ bs w, bs = log_bytes rs ∧ P w)); [apply read_file_spec; intros w Hw; apply (HP w Hw)|].
  intros bs. apply triple_fact. intros ->.
  apply (triple_pure _ _ (log_snapshot F rs)); [by apply (snapshot_of_log _ _ u)|done].
Qed.

Lemma unstarted_read (P : fs → Prop) : (∀ w, P w → unstarted w) →
  triple P read_manifest_snapshot (λ snap w, snap = snapshot_absent ∧ P w) P.
Proof.
  intros HP. unfold read_manifest_snapshot, read_current.
  assert (∀ w, P w → fs_names w !! CURRENT_FILE_NAME = None) as Hnone.
  { intros w Hw. destruct (fs_names w !! CURRENT_FILE_NAME) as [i|] eqn:Hn; [|done].
    by apply (proj2 (HP w Hw)) in Hn. }
  eapply (triple_bind _ _ _ (λ c w, c = None ∧ P w)).
  { eapply (triple_bind _ _ _ (λ bs w, bs = None ∧ P w)).
    - intros fl w Hw. unfold absent_ok, read_file, faulty.
      destruct fl as [|[k|] fl]; cbn -[CURRENT_FILE_NAME]; rewrite ?Hnone by done; by split_and!.
    - intros bs. apply triple_fact. intros ->. by apply triple_ret. }
  intros c. apply triple_fact. intros ->. eapply (triple_bind _ _ _ (λ _, P)).
  { unfold validate_proven_absent_manifest.
    eapply (triple_bind _ _ _ (λ entries w, existsb publication_evidence entries = false ∧ P w)).
    - apply triple_faulty; [|done]. intros w Hw. do 2 eexists. split; [done|]. split; [|done].
      apply not_true_iff_false. intros (name & Hin & Hev)%existsb_exists. apply list_elem_of_In in Hin.
      apply list_elem_of_fmap in Hin as ([n i] & -> & Hin%elem_of_map_to_list). apply (HP w Hw) in Hin. cbn in Hev. congruence.
    - intros entries. apply triple_fact. intros He. apply (triple_pure _ _ tt); [by rewrite He|done]. }
  intros []. by apply triple_ret.
Qed.

(** *** Writing the record *)

(** The manifest is open as inode [i] and holds [d]. *)
Definition opened (F : str) (rs : list (Z * ManifestRecord)) (d : list Z) (i : nat) (w : fs) : Prop :=
  fs_wf w ∧ current_ok F rs (file w CURRENT_FILE_NAME) ∧ fs_names w !! F = Some i ∧ data_of w i = d.

Lemma opened_set F rs d i d' b w : F ≠ CURRENT_FILE_NAME →
  opened F rs d i w → opened F rs d' i (set_inode i (mk_inode d' b) w).
Proof.
  intros HF (Hwf & Hc & Hn & Hd). split_and!.
  - apply wf_set_inode; [done|by eapply wf_inode].
  - rewrite (file_set_inode w F) by done. by rewrite decide_False.
  - done.
  - unfold data_of. cbn. by rewrite lookup_insert_eq.
Qed.
Lemma opened_data F rs d i w : opened F rs d i w → file_data w F = Some d.
Proof.
  intros (Hwf & _ & Hn & Hd). unfold file_data, file. rewrite Hn. cbn. unfold data_of in Hd.
  destruct (wf_inode w Hwf _ _ Hn) as [x Hx]. rewrite Hx in Hd |- *. cbn in *. by rewrite Hd.
Qed.
Lemma opened_progress F rs e p i w : p `prefix_of` e → opened F rs (log_bytes rs ++ p) i w → in_progress F rs e w.
Proof.
  intros Hp Ho. pose proof (opened_data _ _ _ _ _ Ho) as Hd. destruct Ho as (Hwf & Hc & _ & _).
  split_and!; [done|done|]. exists p. by rewrite Hd.
Qed.

Lemma open_spec F rs e : F ≠ CURRENT_FILE_NAME →
  triple (in_progress F rs e) (open_create false F)
    (λ i w, ∃ p, p `prefix_of` e ∧ opened F rs (log_bytes rs ++ p) i w) (in_progress F rs e).
Proof.
  intros HF. assert (∀ w, in_progress F rs e w → ∃ i p, fs_names (open_effect false F w) !! F = Some i ∧
    p `prefix_of` e ∧ opened F rs (log_bytes rs ++ p) i (open_effect false F w)) as Hopen.
  { intros w (Hwf & Hc & p & Hp & Hd). unfold open_effect, file_data, file in *.
    destruct (fs_names w !! F) as [i|] eqn:Hn.
    - destruct (wf_inode w Hwf _ _ Hn) as [x Hx]. cbn in Hd. rewrite Hx in Hd. cbn in Hd. exists i, p.
      split_and!; [done|done|]. split_and!; [done|done|done|]. unfold data_of. by rewrite Hx.
    - cbn in Hd. exists (fs_next w), p. cbn. rewrite lookup_insert_eq. split_and!; [done|done|]. split_and!.
      + by apply wf_create.
      + rewrite file_create by done. by rewrite decide_False.
      + cbn. by rewrite lookup_insert_eq.
      + unfold data_of. cbn. by rewrite lookup_insert_eq. }
  apply triple_faulty.
  - intros w Hw. destruct (Hopen w Hw) as (i & p & Hn & Hp & Ho). exists i, (open_effect false F w). cbv beta zeta.
    rewrite Hn. split; [done|]. by exists p.
  - intros [|k] w Hw; [done|]. destruct (Hopen w Hw) as (i & p & _ & Hp & Ho). by eapply opened_progress.
Qed.

Lemma append_missing_spec F rs attempt p i : F ≠ CURRENT_FILE_NAME →
  let e := at_encoded_record attempt in
  at_pre_append_offset attempt = zlen (log_bytes rs) → p `prefix_of` e →
  triple (opened F rs (log_bytes rs ++ p) i) (append_missing i attempt p)
    (λ _, opened F rs (log_bytes rs ++ e) i) (in_progress F rs e).
Proof.
  intros HF e Hoff Hp. unfold append_missing. fold e. rewrite Hoff. case_bool_decide as Hfull.
  { subst p. by apply triple_ret. }
  assert (bool_decide (p = []) || ((zlen p <? zlen e) && starts_with p e) = true) as ->.
  { rewrite (proj2 (starts_with_spec p e) Hp), andb_true_r. apply orb_true_iff. right. apply Z.ltb_lt.
    destruct Hp as [k Hk]. rewrite Hk, zlen_app. destruct k as [|b k]; [by rewrite app_nil_r in Hk|].
    rewrite zlen_cons. pose proof (zlen_nonneg k). lia. }
  eapply (triple_bind _ _ _ (λ _, opened F rs (log_bytes rs) i)).
  - case_bool_decide as Hne; cbn [negb].
    { subst p. rewrite app_nil_r. by apply triple_ret. }
    eapply (triple_bind _ _ _ (λ _, opened F rs (log_bytes rs) i)).
    + assert (∀ w, opened F rs (log_bytes rs ++ p) i w → opened F rs (log_bytes rs) i
        (set_inode i (mk_inode (take (Z.to_nat (zlen (log_bytes rs))) (data_of w i)) false) w)) as Hset.
      { intros w Hw. assert (take (Z.to_nat (zlen (log_bytes rs))) (data_of w i) = log_bytes rs) as ->.
        { destruct Hw as (_ & _ & _ & ->). unfold zlen. by rewrite Nat2Z.id, take_app_length. }
        by eapply opened_set. }
      apply triple_faulty.
      * intros w Hw. do 2 eexists. split; [done|]. by apply Hset.
      * intros [|k] w Hw; [by eapply opened_progress|]. eapply (opened_progress _ _ _ []); [by apply prefix_nil|].
        rewrite app_nil_r. by apply Hset.
    + intros []. apply triple_faulty.
      * intros w Hw. do 2 eexists. split; [done|]. pose proof Hw as (_ & _ & _ & Hd). rewrite Hd. by eapply opened_set.
      * intros _ w Hw. eapply (opened_progress _ _ _ []); [by apply prefix_nil|]. by rewrite app_nil_r.
  - intros []. apply triple_faulty.
    + intros w Hw. do 2 eexists. split; [done|]. pose proof Hw as (_ & _ & _ & Hd). rewrite Hd, write_at_end.
      by eapply opened_set.
    + intros k w Hw. pose proof Hw as (_ & _ & _ & Hd). rewrite Hd, write_at_end.
      eapply (opened_progress _ _ _ (take k e)); [by apply prefix_take|]. by eapply opened_set.
Qed.

(** *** Publishing the pointer *)

(** The manifest is complete and synced. *)
Definition completed (F : str) (rs : list (Z * ManifestRecord)) (d : list Z) (w : fs) : Prop :=
  fs_wf w ∧ current_ok F rs (file w CURRENT_FILE_NAME) ∧ file w F = Some (mk_inode d true).

Lemma sync_completed F rs e i : F ≠ CURRENT_FILE_NAME →
  triple (opened F rs (log_bytes rs ++ e) i) (sync_all i) (λ _, completed F rs (log_bytes rs ++ e)) (in_progress F rs e).
Proof.
  intros HF. apply triple_faulty.
  - intros w Hw. do 2 eexists. split; [done|]. pose proof Hw as (Hwf & _ & Hn & Hd). rewrite Hd.
    split; [|split]; [|apply (opened_set _ _ _ _ (log_bytes rs ++ e) true _ HF Hw)|].
    + apply wf_set_inode; [done|by eapply wf_inode].
    + rewrite (file_set_inode w F) by done. by rewrite decide_True.
  - intros _ w Hw. by eapply opened_progress.
Qed.

Lemma completed_progress F rs e w : completed F rs (log_bytes rs ++ e) w → in_progress F rs e w.
Proof.
  intros (Hwf & Hc & Hf). split_and!; [done|done|]. exists e. split; [done|]. unfold file_data. by rewrite Hf.
Qed.

Lemma write_current_spec F rs e u : validate_manifest_file_name F = Ok u →
  triple (completed F rs (log_bytes rs ++ e)) (write_current F)
    (λ _ w, completed F rs (log_bytes rs ++ e) w ∧ current_at F w ∧ durable F w) (in_progress F rs e).
Proof.
  intros Hv. destruct (manifest_name_other F u Hv) as [HFC HFT]. unfold write_current.
  eapply (triple_bind _ _ _ (λ _, completed F rs (log_bytes rs ++ e))); [apply (triple_pure _ _ u); [by rewrite Hv|done]|].
  intros _. eapply (triple_bind _ _ _ (λ _, completed F rs (log_bytes rs ++ e))).
  { apply triple_faulty; [by eauto|]. intros _ w. apply completed_progress. }
  intros []. set (new := Some (mk_inode (F ++ [10]) true)).
  assert (∀ g w, unpublished CURRENT_TEMP_FILE_NAME CURRENT_FILE_NAME g new w →
    g F = Some (mk_inode (log_bytes rs ++ e) true) → completed F rs (log_bytes rs ++ e) w ∧ current_at F w) as Hnew.
  { intros g w (Hwf & Hg & Hf) HgF. assert (current_at F w) as Hat.
    { exists (mk_inode (F ++ [10]) true). split; [done|]. by apply (parse_written F u). }
    split; [|done]. split_and!; [done|by left|]. by rewrite Hg. }
  intros fl w (Hwf & Hc & Hf).
  pose proof (publish_spec _ _ names_distinct (file w) (file w CURRENT_FILE_NAME) [F; [10]]) as Hpub.
  specialize (Hpub fl w (conj Hwf (conj (λ n _ _, eq_refl) eq_refl))).
  assert (Some (mk_inode (mjoin [F; [10]]) true) = new) as Hnew' by done.
  rewrite Hnew' in Hpub. destruct (publish _ _ _ fl w) as [[[[]|[|er]] fl'] w'] in Hpub |- *; destruct Hpub as [Hfl Hpub].
  - split; [done|]. destruct Hpub as [Hu Ht]. destruct (Hnew _ _ Hu Hf) as [Hcomp Hat]. split; [done|]. split; [done|].
    split; [done|]. split; [destruct Hcomp as (_ & _ & Hx)|destruct Hu as (_ & _ & Hx)]; rewrite Hx; by eexists.
  - done.
  - split; [done|]. destruct Hpub as [Hne [(Hwf' & Hg & Hc')|Hu]]; (split; [done|]).
    + apply completed_progress. split_and!; [done|by rewrite Hc'|]. by rewrite Hg.
    + apply completed_progress. by apply (Hnew _ _ Hu).
Qed.

(** *** Committing *)

Context (F : str) (rs : list (Z * ManifestRecord)) (record : ManifestRecord).
Context (HF : validate_manifest_file_name F = Ok tt) (Hrs : log_ok rs) (Hrecord : record_ok record).

Definition log_after : list (Z * ManifestRecord) := rs ++ [(0, record)].

Lemma log_after_ok : log_ok log_after.
Proof. by apply Forall_snoc. Qed.
Lemma log_after_bytes : log_bytes log_after = log_bytes rs ++ record_bytes 0 record.
Proof. unfold log_after. rewrite log_bytes_app. cbn. by rewrite app_nil_r. Qed.

(** What [prepare_append] captures. *)
Definition attempt_for (token : Z) : ManifestAppendAttempt :=
  mk_attempt token record (record_bytes 0 record) F (zlen (log_bytes rs)) (sha256 (log_bytes rs)).

Definition committed (w : fs) : Prop := published F log_after w ∧ durable F w.

Lemma committed_progress w : committed w → in_progress F rs (record_bytes 0 record) w.
Proof.
  intros [(Hwf & Hat & Hd) _]. split_and!; [done|by left|]. exists (record_bytes 0 record). split; [done|].
  by rewrite Hd, log_after_bytes.
Qed.

Lemma commit_spec state token : active_token state = Some token →
  zlen (log_bytes log_after) ≤ u64_max →
  triple (in_progress F rs (record_bytes 0 record)) (commit_attempt state (attempt_for token))
    (λ r w, r = (log_snapshot F log_after, mk_coordinator None (next_token state)) ∧ committed w)
    (in_progress F rs (record_bytes 0 record)).
Proof.
  intros Htok Hmax. destruct (manifest_name_other F tt HF) as [HFC _]. unfold commit_attempt. set (e := record_bytes 0 record).
  cbn [at_token at_record at_encoded_record at_file_name at_pre_append_offset at_pre_append_prefix_sha256 attempt_for].
  rewrite log_after_bytes in Hmax. fold e in Hmax. pose proof log_after_bytes as Hlog. fold e in Hlog.
  eapply (triple_bind _ _ _ (λ _, in_progress F rs e)); [apply (triple_pure _ _ tt); [by rewrite bool_decide_true|done]|].
  intros _. eapply (triple_bind _ _ _ (λ _, in_progress F rs e)); [apply (triple_pure _ _ tt); [by rewrite HF|done]|].
  intros _. eapply triple_bind; [by apply open_spec|]. intros i. apply triple_exists. intros p. apply triple_fact. intros Hp.
  eapply (triple_bind _ _ _ (λ bs w, bs = log_bytes rs ++ p ∧ opened F rs (log_bytes rs ++ p) i w)).
  { apply triple_faulty; [|intros _ w Hw; by eapply opened_progress]. intros w Hw. do 2 eexists. split; [done|].
    split; [|done]. apply Hw. }
  intros bs. apply triple_fact. intros ->. pose proof (zlen_nonneg p). rewrite zlen_app, slice_head by done.
  eapply (triple_bind _ _ _ (λ _, opened F rs (log_bytes rs ++ p) i)).
  { apply (triple_pure _ _ tt); [by rewrite (proj2 (Z.leb_le _ _)) by lia|done]. }
  intros _. eapply (triple_bind _ _ _ (λ _, opened F rs (log_bytes rs ++ p) i)).
  { apply (triple_pure _ _ tt); [by rewrite bool_decide_true|done]. }
  intros _. replace (Z.to_nat (zlen (log_bytes rs))) with (length (log_bytes rs)) by (unfold zlen; lia).
  rewrite drop_app_length.
  eapply triple_bind; [by apply (append_missing_spec F rs (attempt_for token) p i HFC)|]. intros [].
  eapply triple_bind; [by apply sync_completed|]. intros [].
  eapply triple_bind; [by apply (write_current_spec F rs e tt)|]. intros [].
  eapply (triple_bind _ _ _ (λ snap w, snap = log_snapshot F log_after ∧ committed w)).
  { eapply triple_weaken; [apply (read_snapshot_spec committed F log_after tt HF log_after_ok); by intros w [[_ Hw] _]| |done|].
    - intros w ((Hwf & _ & Hf) & Hat & Hdur). split; [|done]. split_and!; [done|done|]. unfold file_data.
      by rewrite Hf, Hlog.
    - apply committed_progress. }
  intros snap. apply triple_fact. intros ->. pose proof (zlen_nonneg e). rewrite zlen_app in Hmax.
  eapply (triple_bind _ _ _ (λ n w, n = zlen (log_bytes rs) + zlen e ∧ committed w)).
  { apply (triple_pure _ _ (zlen (log_bytes rs) + zlen e)); [by rewrite checked_add_u64_fits|done]. }
  intros n. apply triple_fact. intros ->. eapply (triple_bind _ _ _ (λ _, committed)).
  { apply (triple_pure _ _ tt); [|done]. cbn [log_snapshot sn_cut cut_validated_offset sn_records].
    rewrite Hlog, zlen_app, Z.eqb_refl. unfold log_after. rewrite fmap_app. cbn [fmap list_fmap].
    by rewrite last_snoc, bool_decide_true. }
  intros []. by apply triple_ret.
Qed.

(** Preparing only reads. *)
Lemma prepare_spec state P : active_token state = None → 0 ≤ next_token state < u64_max →
  (∀ w, P w → published F rs w) ∨ (∀ w, P w → unstarted w) ∧ F = manifest_file_name 1 ∧ rs = [] →
  triple P (prepare_append al state record)
    (λ r w, r = (attempt_for (next_token state + 1), mk_coordinator (Some (next_token state + 1)) (next_token state + 1)) ∧ P w) P.
Proof.
  intros Hidle Hnext HP. unfold prepare_append. destruct Hrecord as (Hvalid & _ & Hlen).
  eapply (triple_bind _ _ _ (λ _, P)); [apply (triple_pure _ _ tt); [by rewrite bool_decide_true|done]|]. intros _.
  eapply (triple_bind _ _ _ (λ snap w, (match sn_cut snap with
      | Absent => (manifest_file_name 1, 0, sha256 []) | Present n o h => (n, o, h) end) =
      (F, zlen (log_bytes rs), sha256 (log_bytes rs)) ∧ P w)).
  { destruct HP as [HP|(HP & -> & ->)].
    - eapply triple_weaken; [apply (read_snapshot_spec P F rs tt HF Hrs); intros w Hw; apply (HP w Hw)|done| |done]. by intros snap w [-> Hw].
    - eapply triple_weaken; [apply (unstarted_read P HP)|done| |done]. by intros snap w [-> Hw]. }
  intros snap. apply triple_fact. intros ->.
  eapply (triple_bind _ _ _ (λ enc w, enc = record_bytes 0 record ∧ P w)).
  { apply (triple_pure _ _ (record_bytes 0 record)); [by rewrite encode_record_granted|done]. }
  intros enc. apply triple_fact. intros ->.
  eapply (triple_bind _ _ _ (λ t w, t = next_token state + 1 ∧ P w)).
  { apply (triple_pure _ _ (next_token state + 1)); [by rewrite checked_add_u64_fits by lia|done]. }
  intros t. apply triple_fact. intros ->. by apply triple_ret.
Qed.

End coordinator.

(** A commit that returned an error. *)
Definition failed_commit `{Ulid} `{Crc32c} `{Sha256} (state : ManifestCoordinatorState)
    (attempt : ManifestAppendAttempt) (w w' : fs) : Prop :=
  ∃ fl e fl', commit_attempt state attempt fl w = (Err e, fl', w').

(** C17: an append happens exactly once.  On a published manifest, or before the
    first, a valid record is prepared without touching the directory; commits of
    the attempt may then fail any number of times, at any of their file operations
    and with partial effects, and the manifest still holds the old log and a prefix
    of the one record; a commit never panics and fails only if an operation does,
    so one without faults succeeds; and a success returns the snapshot of the old
    log with the record once at its end, frees the coordinator, and lasts: after a
    power failure the same snapshot is read. *)
Theorem append_exactly_once `{Ulid} `{Crc32c} `{Sha256} `{!Crc32cLaws} al state record F rs w0 :
  grants al → active_token state = None → 0 ≤ next_token state < u64_max →
  validate_manifest_file_name F = Ok tt → log_ok rs → record_ok record →
  zlen (log_bytes (rs ++ [(0, record)])) ≤ u64_max →
  published F rs w0 ∨ unstarted w0 ∧ F = manifest_file_name 1 ∧ rs = [] →
  ∃ attempt state1, prepare_append al state record [] w0 = (Ok (attempt, state1), [], w0) ∧
    ∀ w fl, rtc (failed_commit state1 attempt) w0 w →
      (∃ p, p `prefix_of` record_bytes 0 record ∧ default [] (file_data w F) = log_bytes rs ++ p) ∧
      let '(r, _, w') := commit_attempt state1 attempt fl w in
      match r with
      | Ok (snap, state2) =>
          snap = log_snapshot F (rs ++ [(0, record)]) ∧ active_token state2 = None ∧
          published F (rs ++ [(0, record)]) w' ∧
          ∀ w'', crash w' w'' → read_manifest_snapshot [] w'' = (Ok snap, [], w'')
      | Err (Io _) => fl ≠ []
      | Err Panic => False
      end.
Proof.
  intros Hal Hidle Hnext HF Hrs Hrec Hmax Hstart.
  assert (in_progress F rs (record_bytes 0 record) w0) as Hp0.
  { destruct Hstart as [(Hwf & Hat & Hd)|([Hwf Hnone] & -> & ->)].
    - split_and!; [done|by left|]. exists []. split; [by apply prefix_nil|]. by rewrite Hd, app_nil_r.
    - assert (∀ n, publication_evidence n = true → file w0 n = None) as Hno.
      { intros n Hn. apply file_None; [done|]. destruct (fs_names w0 !! n) as [i|] eqn:Hi; [|done].
        apply Hnone in Hi. congruence. }
      split_and!; [done|right; by rewrite Hno|]. exists []. split; [by apply prefix_nil|].
      unfold file_data. by rewrite Hno. }
  destruct (triple_clean (λ w, w = w0) _ _ _ w0 (prepare_spec al Hal _ F rs record HF Hrs Hrec state (λ w, w = w0) Hidle Hnext
    ltac:(destruct Hstart as [Hs|[Hs ?]]; [left|right; split; [|done]]; by intros w ->)) eq_refl) as (r & w1 & Hprep & -> & ->).
  eexists _, _. split; [exact Hprep|]. intros w fl Hrtc.
  pose proof (commit_spec _ F rs record HF Hrs Hrec (mk_coordinator (Some (next_token state + 1)) (next_token state + 1))
    (next_token state + 1) eq_refl Hmax) as Hcommit.
  assert (in_progress F rs (record_bytes 0 record) w) as Hp.
  { clear Hstart Hprep. induction Hrtc as [w|w w' w'' (fl1 & e & fl2 & Hfail) _ IH]; [done|]. apply IH.
    specialize (Hcommit fl1 w Hp0). rewrite Hfail in Hcommit. destruct Hcommit as [_ Hcommit], e; [done|]. apply Hcommit. }
  split; [apply Hp|]. specialize (Hcommit fl w Hp). destruct (commit_attempt _ _ fl w) as [[[[snap state2]|[|e]] fl'] w'];
    destruct Hcommit as [_ Hcommit]; [|done|apply Hcommit].
  destruct Hcommit as [[= -> ->] [Hpub Hdur]]. split_and!; [done|done|done|]. intros w'' Hcrash.
  pose proof (published_crash _ _ _ _ Hpub Hdur Hcrash) as Hsame. destruct Hpub as (_ & (c & Hc & Hparse) & Hdata).
  destruct Hdur as (_ & (x & Hx & Hxs) & (c' & Hc' & Hcs)). rewrite Hc in Hc'. injection Hc' as <-.
  destruct (Hsame _ _ Hc Hcs) as (c2 & Hc2 & Hceq). destruct (Hsame _ _ Hx Hxs) as (x2 & Hx2 & Hxeq).
  unfold file_data in Hdata. rewrite Hx in Hdata. injection Hdata as Hdata.
  destruct (triple_clean (λ v, v = w'') _ _ _ w'' (read_snapshot_spec _ (λ v, v = w'') F (log_after rs record) tt HF
    (log_after_ok rs record Hrs Hrec)
    ltac:(intros v ->; split; [exists c2; by rewrite Hceq|unfold file_data; rewrite Hx2; cbn; by rewrite Hxeq, Hdata])) eq_refl)
    as (s & v & Hread & -> & ->). exact Hread.
Qed.

(** ** At a concrete directory *)

Lemma empty_directory_unstarted : unstarted empty_directory.
Proof. split; [apply empty_directory_wf|done]. Qed.

Definition sample_record : ManifestRecord := SegmentSealed sample_first.
Definition idle_coordinator : ManifestCoordinatorState := mk_coordinator None 0.
Definition sample_attempt : ManifestAppendAttempt :=
  attempt_for (manifest_file_name 1) [] sample_record 1.
Definition busy_coordinator : ManifestCoordinatorState := mk_coordinator (Some 1) 1.
(** The write stops after 30 bytes; on the retry the rename does. *)
Definition torn_write : list (option nat) := [None; None; Some 30%nat].
Definition lost_rename : list (option nat) := replicate 10 None ++ [Some 0%nat].
Definition after_torn_write : fs := (commit_attempt busy_coordinator sample_attempt torn_write empty_directory).2.
Definition after_lost_rename : fs := (commit_attempt busy_coordinator sample_attempt lost_rename after_torn_write).2.

Lemma append_exactly_once_witness :
  file_data after_torn_write (manifest_file_name 1) = Some (take 30 (record_bytes 0 sample_record)) ∧
  let '(r, _, w) := commit_attempt busy_coordinator sample_attempt [] after_lost_rename in
  r = Ok (log_snapshot (manifest_file_name 1) [(0, sample_record)], mk_coordinator None 1) ∧
  published (manifest_file_name 1) [(0, sample_record)] w.
Proof.
  split; [vm_compute; reflexivity|].
  destruct (append_exactly_once alloc_ok idle_coordinator sample_record (manifest_file_name 1) [] empty_directory)
    as (attempt & state1 & Hprep & Hcommit).
  - intros site n. reflexivity.
  - reflexivity.
  - cbn. lia.
  - vm_compute. reflexivity.
  - constructor.
  - apply record_okb_ok. vm_compute. reflexivity.
  - vm_compute. discriminate.
  - right. split; [apply empty_directory_unstarted|split; reflexivity].
  - assert (prepare_append alloc_ok idle_coordinator sample_record [] empty_directory =
      (Ok (sample_attempt, busy_coordinator), [], empty_directory)) as Heq by (vm_compute; reflexivity).
    rewrite Heq in Hprep. injection Hprep as <- <-.
    specialize (Hcommit after_lost_rename []).
    assert (rtc (failed_commit busy_coordinator sample_attempt) empty_directory after_lost_rename) as Hrtc.
    { apply (rtc_l _ _ after_torn_write).
      - exists torn_write, device_error, []. vm_compute. reflexivity.
      - apply rtc_once. exists lost_rename, device_error, []. vm_compute. reflexivity. }
    destruct (Hcommit Hrtc) as [_ Hc]. clear Hcommit Hrtc Heq. revert Hc.
    assert (commit_attempt busy_coordinator sample_attempt [] after_lost_rename =
      (Ok (log_snapshot (manifest_file_name 1) [(0, sample_record)], mk_coordinator None 1), [],
       (commit_attempt busy_coordinator sample_attempt [] after_lost_rename).2)) as -> by (vm_compute; reflexivity).
    intros (_ & _ & Hpub & _). split; [reflexivity|exact Hpub].
Defined.
