(* ===== verification/WalDir.v ===== *)
(** * The WAL's directory

    The parts of [chronoxide-core/src/storage/wal.rs] that work on files:
    [WalWriter], publishing a checkpoint, and truncating the log's prefix.  The
    writer's directory is also the checkpoint directory here. *)
From stdpp Require Import sorting.
From S2P Require Import Prelude Cursor Text Fields Frame SegmentId Wal Manifest Files.

Section wal_dir.
Context `{HC : Crc32c}.

(** ** The writer *)

Definition seek_end (i : nat) : fsM Z := faulty (λ w, (Ok (zlen (data_of w i)), w)) (λ _ w, w).

(** [WalWriter::append]: the record's three writes, at the end of the file. *)
Definition append_record (i : nat) (t : WalRecordType) (payload : list Z) : fsM Z :=
  offset ← seek_end i;
  let header := record_header WAL_RECORD_MAGIC WAL_RECORD_VERSION (as_u16 t) (zlen payload) in
  _ ← write_chunks i offset [header; payload; le_bytes 4 (record_crc_parts header payload)];
  mret offset.

Definition writer_append_checkpoint (i : nat) (wall_time_ms : Z) (offsets : list TransportOffset)
    : fsM WalCheckpoint :=
  wal_lsn ← seek_end i;
  checkpoint ← pure_run (io (checkpoint_try_new wal_lsn wall_time_ms offsets));
  payload ← pure_run (io (encode_checkpoint_payload checkpoint));
  _ ← append_record i Checkpoint payload;
  mret checkpoint.

Definition writer_append_otlp_batch (i : nat) (batch : OtlpWalBatch) : fsM Z :=
  payload ← pure_run (io (encode_otlp_batch_payload batch));
  append_record i OtlpBatch payload.

(** ** Checkpoint metadata *)

Definition CHECKPOINT_META_FILE_NAME : str := bytes_of_string "checkpoint.meta".
Definition CHECKPOINT_META_TEMP_FILE_NAME : str := bytes_of_string "checkpoint.meta.tmp".

Definition checkpoint_meta_format : frame_format :=
  mk_format CHECKPOINT_META_MAGIC CHECKPOINT_META_VERSION "invalid checkpoint.meta magic"
    "unsupported checkpoint.meta version" "checkpoint.meta checksum mismatch".

Definition write_checkpoint_meta (c : WalCheckpoint) : fsM unit :=
  _ ← create_dir_all;
  payload ← pure_run (io (encode_checkpoint_payload c));
  let header := record_header CHECKPOINT_META_MAGIC CHECKPOINT_META_VERSION 0 (zlen payload) in
  publish CHECKPOINT_META_TEMP_FILE_NAME CHECKPOINT_META_FILE_NAME
    [header; payload; le_bytes 4 (record_crc_parts header payload)].

(** The reserved field is in the type's place and not looked at; an empty file is
    an unexpected end like any other short one. *)
Definition parse_checkpoint_meta (s : list Z) : run WalCheckpoint :=
  r ← read_frame checkpoint_meta_format Ok s;
  match r with
  | None => io (fail UnexpectedEof "failed to fill whole buffer")
  | Some (_, payload, trailing) =>
      _ ← io (ensure (bool_decide (trailing = [])) InvalidData "checkpoint.meta has trailing bytes");
      io (decode_checkpoint_payload payload)
  end.

Definition read_checkpoint_meta : fsM (option WalCheckpoint) :=
  bs ← absent_ok (read_file CHECKPOINT_META_FILE_NAME);
  match bs with
  | None => mret None
  | Some bs => c ← pure_run (parse_checkpoint_meta bs); mret (Some c)
  end.

Definition append_checkpoint_and_publish (i : nat) (wall_time_ms : Z) (offsets : list TransportOffset)
    : fsM WalCheckpoint :=
  checkpoint ← writer_append_checkpoint i wall_time_ms offsets;
  _ ← sync_all i;
  _ ← sync_directory;
  _ ← write_checkpoint_meta checkpoint;
  mret checkpoint.

(** ** Truncation *)

Definition safe_wal_truncation_lsn (inventory : ManifestInventory) : option Z :=
  (fix go (segments : list ManifestSegment) (safe_lsn : option Z) : option Z :=
    match segments with
    | [] => safe_lsn
    | s :: segments =>
        boundary ← ms_wal_lsn_boundary s;
        go segments (Some match safe_lsn with Some existing => Z.min existing boundary | None => boundary end)
    end) (mi_segments inventory) None.

Record WalTruncationReport := mk_report {
  tr_safe_lsn : option Z;
  tr_active_sequence : Z;
  tr_deleted_files : list str;
  tr_kept_files : list str;
}.

(** [WalFileEntry]: the sequence and the name. *)
Definition entry_le (a b : Z * str) : Prop :=
  a.1 < b.1 ∨ a.1 = b.1 ∧ str_compare a.2 b.2 ≠ Gt.
#[export] Instance entry_le_dec : RelDecision entry_le.
Proof. intros a b. unfold entry_le. apply _. Defined.

Definition wal_entry (name : str) : option (Z * str) :=
  match parse_wal_file_name name with Ok sequence => Some (sequence, name) | Err _ => None end.
Definition discover_wal_files : fsM (list (Z * str)) :=
  entries ← read_dir;
  mret (merge_sort entry_le (omap wal_entry entries)).

Fixpoint truncate_loop (safe_sequence active_sequence : Z) (files : list (Z * str)) (deleted kept : list str)
    : fsM (list str * list str) :=
  match files with
  | [] => mret (deleted, kept)
  | (sequence, file_name) :: files =>
      if (sequence <? safe_sequence) && (sequence <? active_sequence) then
        _ ← remove_file file_name;
        truncate_loop safe_sequence active_sequence files (deleted ++ [file_name]) kept
      else truncate_loop safe_sequence active_sequence files deleted (kept ++ [file_name])
  end.

Definition truncate_wal_prefix (safe_lsn : option Z) (active_sequence : Z) : fsM WalTruncationReport :=
  files ← discover_wal_files;
  match safe_lsn with
  | None => mret (mk_report safe_lsn active_sequence [] files.*2)
  | Some lsn =>
      '(deleted, kept) ← truncate_loop (wal_lsn_sequence lsn) active_sequence files [] [];
      _ ← (if negb (bool_decide (deleted = [])) then sync_directory else mret tt);
      mret (mk_report safe_lsn active_sequence deleted kept)
  end.

Definition truncate_wal_prefix_from_manifest (inventory : ManifestInventory) (active_sequence : Z)
    : fsM WalTruncationReport :=
  truncate_wal_prefix (safe_wal_truncation_lsn inventory) active_sequence.

(** ** Truncation never takes what a segment still needs *)

(** The boundary is the least over the segments, if all have one. *)
Lemma safe_lsn_spec inventory lsn : safe_wal_truncation_lsn inventory = Some lsn →
  (∃ s, s ∈ mi_segments inventory ∧ ms_wal_lsn_boundary s = Some lsn) ∧
  ∀ s, s ∈ mi_segments inventory → ∃ b, ms_wal_lsn_boundary s = Some b ∧ lsn ≤ b.
Proof.
  unfold safe_wal_truncation_lsn. destruct inventory as [segments]. cbn [mi_segments].
  match goal with |- ?g segments None = _ → _ => set (go := g) end.
  assert (∀ segments acc lsn, go segments acc = Some lsn →
    (acc = Some lsn ∨ ∃ s, s ∈ segments ∧ ms_wal_lsn_boundary s = Some lsn) ∧
    (∀ a, acc = Some a → lsn ≤ a) ∧
    ∀ s, s ∈ segments → ∃ b, ms_wal_lsn_boundary s = Some b ∧ lsn ≤ b) as Hgo.
  { clear. induction segments as [|s segments IH]; intros acc lsn; cbn.
    - intros ->. split; [by left|]. split; [intros a [= ->]; lia|]. by intros s ?%not_elem_of_nil.
    - intros (b & Hb & Hgo)%bind_Some. apply IH in Hgo as (Hin & Hacc & Hall). specialize (Hacc _ eq_refl).
      split_and!.
      + destruct Hin as [[= Heq]|(t & Ht & Hbt)]; [|right; exists t; split; [by right|done]].
        destruct acc as [a|]; [|right; exists s; split; [by left|congruence]].
        destruct (Z.min_spec a b) as [[_ Hm]|[_ Hm]]; rewrite Hm in Heq; subst; [by left|right; exists s; split; [by left|done]].
      + intros a ->. lia.
      + intros t [->|Ht]%elem_of_cons; [|by apply Hall]. exists b. split; [done|]. destruct acc; lia. }
  intros (Hin & _ & Hall)%Hgo. split; [|done]. by destruct Hin as [[=]|Hin].
Qed.

(** A file may go if its positions are all below every segment's boundary. *)
Definition expendable (inventory : ManifestInventory) (active_sequence : Z) (name : str) : Prop :=
  ∃ sequence, parse_wal_file_name name = Ok sequence ∧ sequence < active_sequence ∧
    mi_segments inventory ≠ [] ∧
    ∀ s, s ∈ mi_segments inventory → ∃ b, ms_wal_lsn_boundary s = Some b ∧
      ∀ offset lsn, in_u64 offset → wal_lsn sequence offset = Ok lsn → lsn < b.

Lemma expendable_below inventory active name sequence lsn :
  (∀ s b, s ∈ mi_segments inventory → ms_wal_lsn_boundary s = Some b → in_u64 b) →
  safe_wal_truncation_lsn inventory = Some lsn → parse_wal_file_name name = Ok sequence →
  sequence < wal_lsn_sequence lsn → sequence < active → expendable inventory active name.
Proof.
  intros Hu Hsafe Hname Hlt Hact. apply safe_lsn_spec in Hsafe as [(s0 & Hs0 & Hb0) Hall].
  exists sequence. split_and!; [done|done| |].
  { intros Hnil. rewrite Hnil in Hs0. by apply not_elem_of_nil in Hs0. }
  intros s Hs. destruct (Hall s Hs) as (b & Hb & Hle). exists b. split; [done|]. intros offset l Ho Hl.
  pose proof (Hu _ _ Hs0 Hb0) as Hlsn. destruct (lsn_split lsn Hlsn) as [Hseq _]. rewrite Hseq in Hlt.
  apply parse_name_canonical in Hname as [Hn _].
  apply wal_lsn_ok in Hl as (_ & Hmask & ->); [|unfold in_u32; lia|done].
  change WAL_LSN_OFFSET_MASK with 1099511627775 in Hmask. change (2 ^ 40) with 1099511627776 in *.
  pose proof (Z.div_mod lsn 1099511627776 ltac:(lia)). pose proof (Z.mod_pos_bound lsn 1099511627776 ltac:(lia)). lia.
Qed.

(** The directory with some names removed. *)
Definition removed (w0 : fs) (gone : list str) (w : fs) : Prop :=
  fs_wf w ∧ fs_inodes w = fs_inodes w0 ∧
  ∀ n, fs_names w !! n = if decide (n ∈ gone) then None else fs_names w0 !! n.

Lemma removed_start w : fs_wf w → removed w [] w.
Proof. intros Hwf. split_and!; [done|done|]. intros n. by rewrite decide_False by by intros ?%not_elem_of_nil. Qed.
Lemma removed_one w0 gone name w : removed w0 gone w →
  removed w0 (gone ++ [name]) (set_names (delete name (fs_names w)) w).
Proof.
  intros (Hwf & Hi & Hn). pose proof Hwf as [H1 H2 H3 H4].
  assert (∀ n i, delete name (fs_names w) !! n = Some i → fs_names w !! n = Some i) as Hsub.
  { by intros n i [_ H]%lookup_delete_Some. }
  split; [split; cbn|split; [done|]].
  - intros n i H%Hsub. by eapply H1.
  - intros m n i Hm%Hsub Hn'%Hsub. by eapply H2.
  - exact H3.
  - intros t n i [->|Ht]%elem_of_cons; [intros H%Hsub; by eapply H1|by apply H4].
  - intros n. cbn. destruct (decide (n = name)) as [->|Hne].
    + rewrite lookup_delete_eq, decide_True; [done|]. apply elem_of_app. right. by apply list_elem_of_singleton.
    + rewrite lookup_delete_ne by done. rewrite Hn. case_decide as Hin; case_decide as Hin'; try done; exfalso.
      * apply Hin'. apply elem_of_app. by left.
      * apply elem_of_app in Hin' as [?|Heq%list_elem_of_singleton]; [done|congruence].
Qed.
Lemma removed_sync w0 gone w : removed w0 gone w →
  removed w0 gone (mk_fs (fs_names w) (fs_inodes w) [fs_names w] (fs_next w)).
Proof. intros (Hwf & Hi & Hn). split_and!; [by apply wf_sync_directory|done|done]. Qed.
Lemma removed_file w0 gone w n : removed w0 gone w →
  file w n = if decide (n ∈ gone) then None else file w0 n.
Proof. intros (_ & Hi & Hn). unfold file. rewrite Hn, Hi. by case_decide. Qed.

Definition obsolete (safe_sequence active_sequence : Z) (e : Z * str) : Prop :=
  e.1 < safe_sequence ∧ e.1 < active_sequence.
#[local] Instance obsolete_dec ss act e : Decision (obsolete ss act e).
Proof. unfold obsolete. apply _. Defined.

Lemma truncate_loop_spec w0 ss act files : ∀ deleted kept,
  NoDup (deleted ++ files.*2) → (∀ e, e ∈ files → is_Some (fs_names w0 !! e.2)) →
  triple (removed w0 deleted) (truncate_loop ss act files deleted kept)
    (λ r w, r = (deleted ++ (filter (obsolete ss act) files).*2, kept ++ (filter (λ e, ¬ obsolete ss act e) files).*2) ∧
      removed w0 r.1 w)
    (λ w, ∃ gone, gone ⊆ deleted ++ (filter (obsolete ss act) files).*2 ∧ removed w0 gone w).
Proof.
  induction files as [|[q n] files IH]; intros deleted kept Hnd Hin; cbn [truncate_loop].
  { apply triple_ret. intros w Hw. cbn. rewrite !app_nil_r. by split. }
  rewrite !filter_cons. destruct (decide (obsolete ss act (q, n))) as [Ho|Ho].
  - destruct Ho as [Ho1 Ho2]. cbn in Ho1, Ho2. rewrite (proj2 (Z.ltb_lt _ _) Ho1), (proj2 (Z.ltb_lt _ _) Ho2). cbn [andb].
    rewrite (decide_False (P := ¬ obsolete ss act (q, n))) by (intros Hno; by apply Hno). rewrite fmap_cons. cbn [snd].
    eapply (triple_bind _ _ _ (λ _, removed w0 (deleted ++ [n]))).
    + apply triple_faulty.
      * intros w Hw. exists tt. eexists. split; [|by apply removed_one].
        destruct (Hin (q, n) ltac:(by left)) as [i Hi]. pose proof Hw as (_ & _ & Hnames). rewrite Hnames.
        rewrite decide_False; [cbn in Hi; by rewrite Hi|]. apply NoDup_app in Hnd as (_ & Hnd & _). intros Hd.
        apply (Hnd n Hd). cbn. by left.
      * intros [|k] w Hw; [exists deleted|exists (deleted ++ [n])]; (split; [|by try apply removed_one]); set_solver.
    + intros []. eapply triple_weaken; [apply (IH (deleted ++ [n]) kept)|done|..].
      * cbn in Hnd. by rewrite <- app_assoc.
      * intros e He. apply Hin. by right.
      * intros r w [-> Hw]. cbn in Hw |- *. rewrite <- app_assoc in Hw |- *. by split.
      * intros w (gone & Hg & Hw). exists gone. split; [|done]. by rewrite <- app_assoc in Hg.
  - assert ((q <? ss) && (q <? act) = false) as ->.
    { apply not_true_iff_false. intros [H1%Z.ltb_lt H2%Z.ltb_lt]%andb_true_iff. by apply Ho. }
    rewrite (decide_True (P := ¬ obsolete ss act (q, n))) by done. rewrite fmap_cons. cbn [snd].
    eapply triple_weaken; [apply (IH deleted (kept ++ [n]))|done|..].
    + apply NoDup_app in Hnd as (H1 & H2 & H3). apply NoDup_app. split_and!; [done| |by apply NoDup_cons in H3 as [_ ?]].
      intros x Hx Hx'. apply (H2 x Hx). by right.
    + intros e He. apply Hin. by right.
    + intros r w [-> Hw]. rewrite <- app_assoc. by split.
    + done.
Qed.

(** The log files of a directory, in order. *)
Definition wal_files (w : fs) : list (Z * str) :=
  merge_sort entry_le (omap wal_entry (map_to_list (fs_names w)).*1).

Lemma wal_files_elem w e : e ∈ wal_files w ↔ is_Some (fs_names w !! e.2) ∧ parse_wal_file_name e.2 = Ok e.1.
Proof.
  unfold wal_files. rewrite (merge_sort_Permutation entry_le), list_elem_of_omap. destruct e as [q n]. cbn. split.
  - intros (m & ([k p] & -> & Hp%elem_of_map_to_list)%list_elem_of_fmap & He). unfold wal_entry in He. cbn in He.
    destruct (parse_wal_file_name k) as [q'|] eqn:Hq; [|done]. injection He as <- <-. split; [by eexists|done].
  - intros [[i Hi] Hq]. exists n. split.
    + apply list_elem_of_fmap. exists (n, i). split; [done|]. by apply elem_of_map_to_list.
    + unfold wal_entry. by rewrite Hq.
Qed.
Lemma wal_files_nodup w : NoDup (wal_files w).*2.
Proof.
  unfold wal_files. rewrite (merge_sort_Permutation entry_le).
  pose proof (NoDup_fst_map_to_list (fs_names w)) as Hnd. revert Hnd.
  generalize (map_to_list (fs_names w)).*1. intros l Hnd. induction Hnd as [|n l Hn Hnd IH]; cbn; [constructor|].
  unfold wal_entry at 1. destruct (parse_wal_file_name n); [|done]. rewrite fmap_cons. constructor; [|done].
  cbn. intros ([q m] & Heq & Hm)%list_elem_of_fmap. cbn in Heq. subst m. apply list_elem_of_omap in Hm as (x & Hx & He).
  unfold wal_entry in He. destruct (parse_wal_file_name x); [|done]. injection He as _ ->. done.
Qed.

Lemma truncate_spec w0 safe act : fs_wf w0 →
  let doomed := match safe with
    | Some lsn => (filter (obsolete (wal_lsn_sequence lsn) act) (wal_files w0)).*2 | None => [] end in
  let spared := match safe with
    | Some lsn => (filter (λ e, ¬ obsolete (wal_lsn_sequence lsn) act e) (wal_files w0)).*2 | None => (wal_files w0).*2 end in
  triple (λ w, w = w0) (truncate_wal_prefix safe act)
    (λ r w, r = mk_report safe act doomed spared ∧ removed w0 doomed w)
    (λ w, ∃ gone, gone ⊆ doomed ∧ removed w0 gone w).
Proof.
  intros Hwf doomed spared. unfold truncate_wal_prefix.
  assert (∃ gone, gone ⊆ doomed ∧ removed w0 gone w0) as Hstart.
  { exists []. split; [set_solver|]. by apply removed_start. }
  eapply (triple_bind _ _ _ (λ files w, files = wal_files w0 ∧ removed w0 [] w)).
  { unfold discover_wal_files. eapply (triple_bind _ _ _ (λ entries w, entries = (map_to_list (fs_names w0)).*1 ∧ removed w0 [] w)).
    - apply triple_faulty; [|by intros _ w ->]. intros w ->. do 2 eexists. split; [done|]. split; [done|]. by apply removed_start.
    - intros entries. apply triple_fact. intros ->. by apply triple_ret. }
  intros files. apply triple_fact. intros ->. destruct safe as [lsn|].
  - eapply triple_bind.
    + eapply triple_weaken; [apply (truncate_loop_spec w0 (wal_lsn_sequence lsn) act (wal_files w0) [] [])|done|by intros r w Hr; exact Hr|done].
      * apply wal_files_nodup.
      * intros e He. by apply wal_files_elem in He as [He _].
    + intros [deleted kept]. apply triple_fact. intros [= -> ->]. cbn [fst]. fold doomed spared.
      eapply (triple_bind _ _ _ (λ _, removed w0 doomed)); [|intros []; by apply triple_ret].
      case_bool_decide; cbn [negb]; [by apply triple_ret|]. apply triple_faulty.
      * intros w Hw. do 2 eexists. split; [done|]. by apply removed_sync.
      * intros _ w Hw. by exists doomed.
  - apply triple_ret. by intros w Hw.
Qed.

End wal_dir.

(** C21: truncation never takes what a segment still needs.  Whatever fails on the
    way, every file is as it was or gone, and what is gone is a log file before
    the active one whose positions all lie below the boundary of every segment of
    the manifest, each of which has one; it does not panic and fails only if an
    operation does; and when it succeeds it has removed all log files that lie
    wholly below the least boundary and the active file, and reports each log file
    once, as deleted or kept. *)
Theorem wal_truncation_safe inventory active fl w :
  fs_wf w → (∀ s b, s ∈ mi_segments inventory → ms_wal_lsn_boundary s = Some b → in_u64 b) →
  let '(r, _, w') := truncate_wal_prefix_from_manifest inventory active fl w in
  (∀ name, file w' name = file w name ∨ file w' name = None ∧ expendable inventory active name) ∧
  match r with
  | Ok report =>
      (∀ name sequence, parse_wal_file_name name = Ok sequence → is_Some (fs_names w !! name) →
         name ∈ tr_deleted_files report ↔
         ∃ lsn, safe_wal_truncation_lsn inventory = Some lsn ∧ sequence < wal_lsn_sequence lsn ∧ sequence < active) ∧
      (∀ name, name ∈ tr_deleted_files report → file w' name = None) ∧
      tr_deleted_files report ++ tr_kept_files report ≡ₚ (wal_files w).*2
  | Err (Io _) => fl ≠ []
  | Err Panic => False
  end.
Proof.
  intros Hwf Hu. unfold truncate_wal_prefix_from_manifest.
  pose proof (truncate_spec w (safe_wal_truncation_lsn inventory) active Hwf fl w eq_refl) as Ht. cbv zeta in Ht.
  set (doomed := match safe_wal_truncation_lsn inventory with Some _ => _ | None => [] end) in Ht.
  assert (∀ name sequence, parse_wal_file_name name = Ok sequence → is_Some (fs_names w !! name) →
    name ∈ doomed ↔ ∃ lsn, safe_wal_truncation_lsn inventory = Some lsn ∧ sequence < wal_lsn_sequence lsn ∧ sequence < active) as Hdoomed.
  { intros name q Hq Hn. unfold doomed. destruct (safe_wal_truncation_lsn inventory) as [lsn|].
    - rewrite list_elem_of_fmap. split.
      + intros ([q' n] & -> & [[H1 H2] He]%list_elem_of_filter). cbn in *. apply wal_files_elem in He as [_ Hq'].
        cbn in Hq'. rewrite Hq in Hq'. injection Hq' as ->. by exists lsn.
      + intros (l & [= <-] & Hlt). exists (q, name). split; [done|]. apply list_elem_of_filter. split; [done|].
        by apply wal_files_elem.
    - split; [by intros ?%not_elem_of_nil|]. by intros (l & [=] & _). }
  assert (∀ name, name ∈ doomed → expendable inventory active name) as Hexp.
  { intros name Hd. pose proof Hd as Hd'. unfold doomed in Hd'. destruct (safe_wal_truncation_lsn inventory) as [lsn|] eqn:Hsafe.
    - apply list_elem_of_fmap in Hd' as ([q n] & -> & [[H1 H2] He]%list_elem_of_filter). cbn in *.
      apply wal_files_elem in He as [_ Hq]. by eapply expendable_below.
    - by apply not_elem_of_nil in Hd'. }
  assert (∀ gone w', gone ⊆ doomed → removed w gone w' →
    ∀ name, file w' name = file w name ∨ file w' name = None ∧ expendable inventory active name) as Hfiles.
  { intros gone w' Hg Hr name. rewrite (removed_file _ _ _ name Hr). case_decide as Hin; [right|by left].
    split; [done|]. by apply Hexp, Hg. }
  destruct (truncate_wal_prefix _ active fl w) as [[[report|[|e]] fl'] w']; destruct Ht as [_ Ht].
  - destruct Ht as [-> Hr]. split; [by apply (Hfiles doomed)|]. cbn [tr_deleted_files tr_kept_files].
    split_and!; [done| |].
    + intros name Hin. rewrite (removed_file _ _ _ name Hr). by rewrite decide_True.
    + unfold doomed. destruct (safe_wal_truncation_lsn inventory); [|done]. rewrite <- fmap_app. f_equiv.
      apply filter_app_complement.
  - done.
  - destruct Ht as [Hne (gone & Hg & Hr)]. split; [by apply (Hfiles gone)|done].
Qed.

(** ** Checkpoints are published in crash-safe order *)

Section checkpoint.
Context `{HC : Crc32c} `{!Crc32cLaws}.
Abbreviation META := CHECKPOINT_META_FILE_NAME.
Abbreviation TEMP := CHECKPOINT_META_TEMP_FILE_NAME.

(** The writer's file, the bytes in it, and what [checkpoint.meta] held. *)
Context (W : str) (i : nat) (HWM : W ≠ META) (HWT : W ≠ TEMP) (d : list Z) (prev : option (list Z)).
Context (time : Z) (offsets sorted : list TransportOffset) (payload : list Z).
Definition the_checkpoint : WalCheckpoint := mk_checkpoint (zlen d) time sorted.
Context (Hsorted : canonicalize_offsets offsets InvalidInput = Ok sorted).
Context (Hencode : encode_checkpoint_payload (mk_checkpoint (zlen d) time offsets) = Ok payload).
Context (Hok : checkpoint_ok (mk_checkpoint (zlen d) time offsets)) (Hvec : vec_ok payload).

Definition meta_bytes : list Z := frame checkpoint_meta_format 0 payload.
Definition wal_after : list Z := d ++ write_wal_record Checkpoint payload.

Abbreviation settled := (crash_inv TEMP META (prev = None) (λ x, prev = Some x)).
Abbreviation replaced := (crash_inv TEMP META (prev = None) (λ x, prev = Some x ∨ x = meta_bytes)).

Lemma meta_distinct : TEMP ≠ META.
Proof. vm_compute. discriminate. Qed.

Lemma payload_decodes : decode_checkpoint_payload payload = Ok the_checkpoint ∧
  checkpoint_try_new (zlen d) time offsets = Ok the_checkpoint ∧ encode_checkpoint_payload the_checkpoint = Ok payload.
Proof.
  pose proof Hencode as (l & Hl & Hn & Ht & Heq)%encode_checkpoint_ok. cbn [cp_offsets cp_wal_lsn cp_wall_time_ms] in Hl, Heq.
  rewrite Hsorted in Hl. injection Hl as <-. pose proof Hsorted as [Hp Hs]%canonicalize_ok.
  destruct Hok as (H1 & H2 & H3). cbn in H1, H2, H3. rewrite <- Hp in H3. split_and!.
  - rewrite Heq. apply (decode_checkpoint_bytes 0 the_checkpoint); try done; [|unfold the_checkpoint; by rewrite <- Heq].
    cbn. apply Forall_forall. intros o Ho. rewrite !Forall_forall in H3, Ht. destruct (H3 o Ho) as (? & ? & ?).
    split; [|done]. split; [done|by apply Ht].
  - unfold checkpoint_try_new. by rewrite Hsorted.
  - apply encode_checkpoint_ok. exists sorted. split_and!; [by apply canonicalize_ok|done|done|done].
Qed.

Lemma meta_reads : parse_checkpoint_meta meta_bytes = Ok the_checkpoint.
Proof.
  unfold parse_checkpoint_meta, meta_bytes. rewrite <- (app_nil_r (frame _ _ _)).
  rewrite (read_frame_encoded checkpoint_meta_format Ok 0 0) by done.
  cbn [mbind result_bind]. rewrite bool_decide_true by done. cbn [ensure io mbind result_bind].
  by rewrite (proj1 payload_decodes).
Qed.
Lemma wal_reads : read_wal_record (drop (length d) wal_after) = Ok (Some (mk_wal_record Checkpoint payload, [])).
Proof.
  unfold wal_after. rewrite drop_app_length. unfold read_wal_record, write_wal_record.
  rewrite <- (app_nil_r (frame _ _ _)). by rewrite (read_frame_encoded wal_format from_u16 2 Checkpoint).
Qed.

(** The WAL holds [x], and no table has its inode as [checkpoint.meta]. *)
Definition logging (x : list Z) (s : bool) (w : fs) : Prop :=
  settled w ∧ fs_names w !! W = Some i ∧ fs_inodes w !! i = Some (mk_inode x s) ∧
  ∀ t, t ∈ fs_tables w → t !! META ≠ Some i.

Lemma logging_set x s x' s' w : logging x s w → logging x' s' (set_inode i (mk_inode x' s') w).
Proof.
  intros (Hci & Hn & Hi & Hno). split_and!; [|done| |done].
  - apply crash_inv_set_other; [done|by rewrite Hi|done].
  - cbn. by rewrite lookup_insert_eq.
Qed.
Lemma logging_data x s w : logging x s w → data_of w i = x.
Proof. intros (_ & _ & Hi & _). unfold data_of. by rewrite Hi. Qed.

Lemma append_checkpoint_spec s :
  triple (logging d s) (writer_append_checkpoint i time offsets)
    (λ c w, c = the_checkpoint ∧ ∃ b, logging wal_after b w) settled.
Proof.
  destruct payload_decodes as (_ & Hnew & Henc). unfold writer_append_checkpoint.
  assert (∀ s w, logging d s w → settled w) as Hset by by intros ? ? [? _].
  eapply (triple_bind _ _ _ (λ n w, n = zlen d ∧ logging d s w)).
  { apply triple_faulty; [|intros _ w; apply Hset]. intros w Hw. do 2 eexists. split; [done|].
    by rewrite (logging_data _ _ _ Hw). }
  intros n. apply triple_fact. intros ->.
  eapply (triple_bind _ _ _ (λ c w, c = the_checkpoint ∧ logging d s w)).
  { apply (triple_pure _ _ the_checkpoint); [by rewrite Hnew|done]. }
  intros c. apply triple_fact. intros ->.
  eapply (triple_bind _ _ _ (λ p w, p = payload ∧ logging d s w)).
  { apply (triple_pure _ _ payload); [by rewrite Henc|done]. }
  intros p. apply triple_fact. intros ->.
  eapply (triple_bind _ _ _ (λ _ w, ∃ b, logging wal_after b w)); [|intros ?; by apply triple_ret].
  unfold append_record. eapply (triple_bind _ _ _ (λ n w, n = zlen d ∧ logging d s w)).
  { apply triple_faulty; [|intros _ w; apply Hset]. intros w Hw. do 2 eexists. split; [done|].
    by rewrite (logging_data _ _ _ Hw). }
  intros n. apply triple_fact. intros ->. eapply (triple_bind _ _ _ (λ _ w, ∃ b, logging wal_after b w)); [|intros []; by apply triple_ret].
  eapply triple_weaken.
  - apply (write_chunks_gen (λ x w, ∃ b, logging x b w) i).
    + intros x w [b Hw]. by eapply logging_data.
    + intros x x' w [b Hw]. exists false. by eapply logging_set.
  - intros w Hw. by exists s.
  - intros [] w Hw. unfold wal_after, write_wal_record, frame. by rewrite !app_nil_r in Hw || exact Hw.
  - by intros w (x & b & [Hw _]).
Qed.

(** Before the new file can be reached, the old one is what a crash leaves;
    from then on the WAL is pinned with the checkpoint's record in it. *)
Definition recoverable (w : fs) : Prop :=
  settled w ∨ replaced w ∧ pinned W (mk_inode wal_after true) w.

Lemma sync_wal :
  triple (λ w, ∃ b, logging wal_after b w) (_ ← sync_all i; sync_directory)
    (λ _ w, settled w ∧ pinned W (mk_inode wal_after true) w) settled.
Proof.
  eapply (triple_bind _ _ _ (λ _, logging wal_after true)).
  - apply triple_faulty; [|by intros _ w (b & [Hw _])]. intros w (b & Hw). do 2 eexists. split; [done|].
    rewrite (logging_data _ _ _ Hw). by eapply logging_set.
  - intros []. apply triple_faulty; [|by intros _ w [Hw _]]. intros w (Hci & Hn & Hi & _). do 2 eexists. split; [done|].
    destruct Hci as [Hwf Hnames Hfinal Htemp]. split.
    + split; cbn; [by apply wf_sync_directory|by left| |].
      * intros t ->%list_elem_of_singleton. by apply Hfinal.
      * intros t j Hj ->%list_elem_of_singleton. by apply Htemp.
    + split; [by apply wf_sync_directory|]. exists i. cbn. split_and!; [done|done|]. by intros t ->%list_elem_of_singleton.
Qed.

Definition published_meta (w : fs) : Prop :=
  fs_tables w = [fs_names w] ∧ file w META = Some (mk_inode meta_bytes true).

Lemma write_meta_spec :
  triple (λ w, settled w ∧ pinned W (mk_inode wal_after true) w) (write_checkpoint_meta the_checkpoint)
    (λ _ w, published_meta w ∧ recoverable w) recoverable.
Proof.
  unfold write_checkpoint_meta. eapply (triple_bind _ _ _ (λ _ w, settled w ∧ pinned W (mk_inode wal_after true) w)).
  { apply triple_faulty; [by eauto|]. intros _ w [Hw _]. by left. }
  intros []. eapply (triple_bind _ _ _ (λ p w, p = payload ∧ settled w ∧ pinned W (mk_inode wal_after true) w)).
  { apply (triple_pure _ _ payload); [by rewrite (proj2 (proj2 payload_decodes))|done]. }
  intros p. apply triple_fact. intros ->.
  set (chunks := [_; _; _]). assert (mjoin chunks = meta_bytes) as Hchunks.
  { unfold chunks, meta_bytes, frame. cbn [mjoin list_join]. by rewrite app_nil_r. }
  intros fl w [Hs Hpin].
  pose proof (publish_crash TEMP META meta_distinct (prev = None) (λ x, prev = Some x ∨ x = meta_bytes) chunks (or_intror Hchunks)
    fl w ltac:(eapply crash_inv_weaken; [exact Hs|done|by left])) as Hcrash.
  pose proof (publish_pinned TEMP META W (mk_inode wal_after true) chunks HWT HWM fl w Hpin) as Hp.
  pose proof (publish_spec TEMP META meta_distinct (file w) (file w META) chunks fl w
    (conj (ci_wf _ _ _ _ _ Hs) (conj (λ n _ _, eq_refl) eq_refl))) as Hpub.
  rewrite Hchunks in Hpub.
  destruct (publish TEMP META chunks fl w) as [[[[]|[|e]] fl'] w']; destruct Hcrash as [Hfl Hcrash], Hp as [_ Hp], Hpub as [_ Hpub].
  - split; [done|]. destruct Hpub as [(_ & _ & Hf) Ht]. split; [by split|]. by right.
  - done.
  - split; [done|]. destruct Hcrash as [Hne Hcrash], Hp as [_ Hp]. split; [done|]. by right.
Qed.

Lemma publish_checkpoint_spec s :
  triple (logging d s) (append_checkpoint_and_publish i time offsets)
    (λ c w, c = the_checkpoint ∧ published_meta w ∧ recoverable w) recoverable.
Proof.
  assert (∀ w, settled w → recoverable w) as Hleft by by left.
  unfold append_checkpoint_and_publish. eapply triple_bind.
  { eapply triple_weaken; [apply (append_checkpoint_spec s)|done|by intros c w Hw; exact Hw|done]. }
  intros c. apply triple_fact. intros ->. intros fl w Hw.
  assert (triple (λ w, ∃ b, logging wal_after b w)
    (_ ← (_ ← sync_all i; sync_directory); _ ← write_checkpoint_meta the_checkpoint; mret the_checkpoint)
    (λ c w, c = the_checkpoint ∧ published_meta w ∧ recoverable w) recoverable) as Ht.
  { eapply triple_bind; [eapply triple_weaken; [apply sync_wal|done|by intros a v Hv; exact Hv|done]|]. intros [].
    eapply triple_bind; [apply write_meta_spec|]. intros []. by apply triple_ret. }
  specialize (Ht fl w Hw). unfold mbind, fs_bind in Ht |- *. destruct (sync_all i fl w) as [[[[]|e] fl1] w1]; exact Ht.
Qed.

End checkpoint.

(** C20: checkpoints are published in crash-safe order.  Given a directory whose
    [checkpoint.meta] is settled and a writer on its log, [append_checkpoint_and_publish]
    yields the canonical checkpoint at the end of the log.  Whichever operation
    fails, and at whatever moment the power does, [checkpoint.meta] is afterwards
    either what it was before, or reads as the new checkpoint while the log that
    survived holds, at the checkpoint's position, the record that replay compares
    it with.  It does not panic, fails only if an operation does, and once it has
    succeeded every crash leaves the new checkpoint. *)
Theorem checkpoint_publication_atomic `{Crc32cLaws} W i d s prev time offsets payload w0 :
  W ≠ CHECKPOINT_META_FILE_NAME → W ≠ CHECKPOINT_META_TEMP_FILE_NAME →
  encode_checkpoint_payload (mk_checkpoint (zlen d) time offsets) = Ok payload →
  checkpoint_ok (mk_checkpoint (zlen d) time offsets) → vec_ok payload →
  crash_inv CHECKPOINT_META_TEMP_FILE_NAME CHECKPOINT_META_FILE_NAME (prev = None) (λ x, prev = Some x) w0 →
  fs_names w0 !! W = Some i → fs_inodes w0 !! i = Some (mk_inode d s) →
  (∀ t, t ∈ fs_tables w0 → t !! CHECKPOINT_META_FILE_NAME ≠ Some i) →
  ∃ c, cp_wal_lsn c = zlen d ∧ cp_wall_time_ms c = time ∧ cp_offsets c ≡ₚ offsets ∧
    ∀ fl, let '(r, _, w1) := append_checkpoint_and_publish i time offsets fl w0 in
      (∀ w2, crash w1 w2 →
         file_data w2 CHECKPOINT_META_FILE_NAME = prev ∨
         read_checkpoint_meta [] w2 = (Ok (Some c), [], w2) ∧
         ∃ log record, file_data w2 W = Some log ∧
           read_wal_record (drop (Z.to_nat (cp_wal_lsn c)) log) = Ok (Some (record, [])) ∧
           decode_checkpoint_record record = Ok c) ∧
      match r with
      | Ok c' => c' = c ∧ ∀ w2, crash w1 w2 → read_checkpoint_meta [] w2 = (Ok (Some c), [], w2)
      | Err (Io _) => fl ≠ []
      | Err Panic => False
      end.
Proof.
  intros HWM HWT Henc Hok Hvec Hci Hn Hi Hno.
  pose proof Henc as (sorted & Hsorted & _)%encode_checkpoint_ok. cbn in Hsorted.
  set (c := the_checkpoint d time sorted). exists c. split_and!; [done|done|by apply canonicalize_ok in Hsorted as [? _]|].
  intros fl.
  destruct (payload_decodes d time offsets sorted payload Hsorted Henc Hok Hvec) as [Hdec _].
  assert (∀ w2, file_data w2 CHECKPOINT_META_FILE_NAME = Some (meta_bytes payload) →
    read_checkpoint_meta [] w2 = (Ok (Some c), [], w2)) as Hread.
  { intros w2 (x & Hx & Hd)%fmap_Some. apply file_Some in Hx as (j & Hj & Hx).
    unfold read_checkpoint_meta, absent_ok, read_file, faulty, mbind, fs_bind. rewrite Hj. unfold data_of. rewrite Hx.
    cbn [from_option]. rewrite <- Hd. unfold pure_run.
    by rewrite (meta_reads d time offsets sorted payload Hsorted Henc Hok Hvec). }
  pose proof (publish_checkpoint_spec W i HWM HWT d prev time offsets sorted payload Hsorted Henc Hok Hvec s fl w0
    ltac:(by split_and!)) as Ht.
  assert (∀ w1 w2, recoverable W d prev payload w1 → crash w1 w2 →
    file_data w2 CHECKPOINT_META_FILE_NAME = prev ∨
    read_checkpoint_meta [] w2 = (Ok (Some c), [], w2) ∧
    ∃ log record, file_data w2 W = Some log ∧
      read_wal_record (drop (Z.to_nat (cp_wal_lsn c)) log) = Ok (Some (record, [])) ∧
      decode_checkpoint_record record = Ok c) as Hrec.
  { intros w1 w2 [Hs|[Hr Hp]] Hcrash.
    - left. apply (crash_inv_crash _ _ _ _ _ _ Hs) in Hcrash. unfold file_data.
      destruct (file w2 CHECKPOINT_META_FILE_NAME); cbn; by symmetry.
    - pose proof (pinned_crash _ _ _ _ Hp eq_refl Hcrash) as Hlog. apply (crash_inv_crash _ _ _ _ _ _ Hr) in Hcrash.
      unfold file_data at 1. destruct (file w2 CHECKPOINT_META_FILE_NAME) as [x|] eqn:Hx; [|by left].
      destruct Hcrash as [Hpx|Hmx]; [by left|right]. split; [apply Hread; unfold file_data; rewrite Hx; cbn; by rewrite Hmx|].
      exists (wal_after d payload), (mk_wal_record Checkpoint payload). split; [done|].
      cbn [cp_wal_lsn c the_checkpoint]. unfold zlen. rewrite Nat2Z.id. split; [by apply wal_reads|done]. }
  destruct (append_checkpoint_and_publish i time offsets fl w0) as [[[c'|[|e]] fl'] w1]; destruct Ht as [_ Ht].
  - destruct Ht as (-> & [Htab Hf] & Hr). split; [by intros; eapply Hrec|]. split; [done|]. intros w2 [Hnames Hin].
    rewrite Htab in Hnames. apply list_elem_of_singleton in Hnames. apply Hread. apply file_Some in Hf as (j & Hj & Hx).
    destruct (Hin _ _ Hx) as (x' & Hx' & Heq). unfold file_data, file. rewrite Hnames, Hj. cbn. rewrite Hx'. cbn.
    by rewrite Heq.
  - done.
  - destruct Ht as [Hne Hr]. split; [by intros; eapply Hrec|done].
Qed.

(** *** At a concrete directory *)

Definition three_logs : fs :=
  create (wal_file_name 3) (create (wal_file_name 1) (create (wal_file_name 2) empty_directory)).
Lemma three_logs_wf : fs_wf three_logs.
Proof. do 3 apply wf_create. apply empty_directory_wf. Qed.
(** Position 10 of file 3 is the least boundary. *)
Definition two_segments : ManifestInventory :=
  mk_inventory [sample_segment_at 1000 2000 false (Some (3 * 2 ^ 40 + 10)); sample_segment_at 2000 3000 true (Some (4 * 2 ^ 40))].

Lemma wal_truncation_safe_witness :
  ∃ report w, truncate_wal_prefix_from_manifest two_segments 5 [] three_logs = (Ok report, [], w) ∧
    tr_deleted_files report = [wal_file_name 1; wal_file_name 2] ∧ tr_kept_files report = [wal_file_name 3] ∧
    file w (wal_file_name 2) = None.
Proof.
  pose proof (wal_truncation_safe two_segments 5 [] three_logs three_logs_wf) as Ht.
  assert (∀ s b, s ∈ mi_segments two_segments → ms_wal_lsn_boundary s = Some b → in_u64 b) as Hu.
  { intros s b Hs Hb. cbn in Hs. apply elem_of_cons in Hs as [->|Hs%list_elem_of_singleton]; [|subst s];
      cbn in Hb; injection Hb as <-; vm_compute; split; discriminate. }
  specialize (Ht Hu). clear Hu.
  assert (truncate_wal_prefix_from_manifest two_segments 5 [] three_logs =
    (Ok (mk_report (Some (3 * 2 ^ 40 + 10)) 5 [wal_file_name 1; wal_file_name 2] [wal_file_name 3]), [],
     (truncate_wal_prefix_from_manifest two_segments 5 [] three_logs).2)) as Heq by (vm_compute; reflexivity).
  revert Ht. rewrite Heq. intros (_ & _ & Hgone & _). do 2 eexists.
  split; [reflexivity|]. split; [reflexivity|]. split; [reflexivity|]. apply Hgone. right. left.
Defined.

Definition one_log : fs := create (wal_file_name 1) empty_directory.
(** The directory sync after the log's is lost, and with it the checkpoint. *)
Definition lost_sync : list (option nat) := replicate 6 None ++ [Some 0%nat].

Lemma one_log_settled :
  crash_inv CHECKPOINT_META_TEMP_FILE_NAME CHECKPOINT_META_FILE_NAME (@None (list Z) = None) (λ x, None = Some x) one_log.
Proof.
  split; cbn.
  - apply wf_create, empty_directory_wf.
  - left.
  - intros t [->| ->%list_elem_of_singleton]%elem_of_cons; vm_compute; reflexivity.
  - intros t j Hj. exfalso. revert Hj. vm_compute. discriminate.
Qed.

Lemma checkpoint_publication_atomic_witness :
  ∃ c, cp_wal_lsn c = 0 ∧ cp_offsets c ≡ₚ cp_offsets sample_checkpoint ∧
    (append_checkpoint_and_publish 0 (-5) (cp_offsets sample_checkpoint) lost_sync one_log).1.1 = Err device_error ∧
    let '(r, _, w) := append_checkpoint_and_publish 0 (-5) (cp_offsets sample_checkpoint) [] one_log in
    r = Ok c ∧ ∀ w', crash w w' → read_checkpoint_meta [] w' = (Ok (Some c), [], w').
Proof.
  set (cp := mk_checkpoint 0 (-5) (cp_offsets sample_checkpoint)).
  set (payload := checkpoint_bytes 0 (mk_checkpoint 0 (-5) [mk_offset sample_topic 1 10; mk_offset sample_topic 2 20])).
  assert (encode_checkpoint_payload cp = Ok payload) as Henc by (vm_compute; reflexivity).
  assert (checkpoint_ok cp) as Hok.
  { pose proof sample_checkpoint_ok as (_ & Ht & Ho). split; [vm_compute; split; discriminate|]. split; [exact Ht|exact Ho]. }
  destruct (checkpoint_publication_atomic (wal_file_name 1) 0 [] false None (-5) (cp_offsets sample_checkpoint) payload one_log)
    as (c & Hlsn & _ & Hp & Hrun); [vm_compute; discriminate|vm_compute; discriminate|exact Henc|exact Hok|
      vm_compute; discriminate|apply one_log_settled|vm_compute; reflexivity|vm_compute; reflexivity| |].
  { intros t [->| ->%list_elem_of_singleton]%elem_of_cons; vm_compute; discriminate. }
  exists c. split; [exact Hlsn|]. split; [exact Hp|]. split; [vm_compute; reflexivity|].
  specialize (Hrun []). revert Hrun.
  assert (∃ r w, append_checkpoint_and_publish 0 (-5) (cp_offsets sample_checkpoint) [] one_log = (Ok r, [], w)) as (r & w & ->).
  { do 2 eexists. vm_compute. reflexivity. }
  intros [_ [-> Hc]]. split; [reflexivity|exact Hc].
Defined.
