(* ===== verification/Series.v ===== *)
(** * Series of blocks

    [Series] of [chronoxide-core/src/storage/head/encoded.rs], generic in the
    codec: sealed blocks and the block being built, sharing an arena with the
    other series of the window.  [None] is a panic of [BlockArena::write].  The
    allocator may answer differently at each point of an operation, so an
    operation is given a sequence of answers. *)
From Stdlib Require Import Sorted.
From S2P Require Import Prelude Varint Bits Bitstream Cursor Gorilla VarLen SchemaVarLen Arena BlockCodec Block Sort.

Abbreviation alloc_seq := (nat → allocator).
Definition grants_all (al : alloc_seq) : Prop := ∀ n, grants (al n).

Record Series (C : Type) := mk_series {
  se_blocks : list (Block C);
  se_current : option (BlockBuilder C);
  se_samples : Z;
}.
Arguments mk_series {C}.
Arguments se_blocks {C}.
Arguments se_current {C}.
Arguments se_samples {C}.

Section series.
Context {V C : Type} `{BlockCodec V C}.
Implicit Types (s : Series C) (arena : BlockArena).

Definition series_new : Series C := mk_series [] None 0.

Definition seal_current (al : alloc_seq) s arena : option (BlockArena * Series C) :=
  match se_current s with
  | None => Some (arena, s)
  | Some block =>
      '(arena, sealed) ← Builder.seal (al 0%nat) (al 1%nat) block arena;
      Some (arena, mk_series (se_blocks s ++ [sealed]) None (se_samples s))
  end.

Definition try_seal_current (al : alloc_seq) s arena : option (BlockArena * io_result unit * Series C) :=
  match se_current s with
  | None => Some (arena, Ok tt, s)
  | Some block =>
      match try_reserve (al 0%nat) "live head block descriptor" "failed to reserve live head block descriptor: " 1 with
      | Err e => Some (arena, Err e, s)
      | Ok _ =>
          '(arena, r) ← Builder.try_seal (al 1%nat) (al 2%nat) block arena;
          match r with
          | Err e => Some (arena, Err e, s)
          | Ok sealed => Some (arena, Ok tt, mk_series (se_blocks s ++ [sealed]) None (se_samples s))
          end
      end
  end.

(** [EncodedSeries::try_seal] chooses by the arena's mode, as [push_sample] does. *)
Definition seal_by_mode (al : alloc_seq) s arena : option (BlockArena * io_result unit * Series C) :=
  if ar_adaptive arena then try_seal_current al s arena
  else '(arena, s) ← seal_current al s arena; Some (arena, Ok tt, s).

Definition push_sample (al : alloc_seq) s (base_ms timestamp_ms : Z) (value : V) (block_size : Z) arena
    : option (BlockArena * io_result unit * Series C) :=
  if timestamp_ms <? base_ms then Some (arena, fail InvalidInput "timestamp precedes window start", s)
  else
    let current_full :=
      match se_current s with Some block => Builder.is_full block block_size | None => false end in
    '(arena, r, s) ← (if current_full then seal_by_mode al s arena else Some (arena, Ok tt, s));
    match r with
    | Err e => Some (arena, Err e, s)
    | Ok _ =>
        match se_current s with
        | Some block =>
            let '(r, block) :=
              if negb (Builder.is_full block block_size) then
                Builder.push_sample (al 3%nat) block timestamp_ms value block_size
              else (Ok tt, block) in
            let samples := match r with Ok _ => saturating_add_u64 (se_samples s) 1 | Err _ => se_samples s end in
            Some (arena, r, mk_series (se_blocks s) (Some block) samples)
        | None =>
            match Builder.new (al 3%nat) base_ms timestamp_ms value block_size with
            | Err e => Some (arena, Err e, s)
            | Ok block =>
                Some (arena, Ok tt, mk_series (se_blocks s) (Some block) (saturating_add_u64 (se_samples s) 1))
            end
        end
    end.

Definition validate_series_arena {A} `{ArenaRead A} s (arena : A) : io_result unit :=
  if bool_decide (is_Some (se_current s)) then
    fail InvalidInput "cannot validate an arena while a series block remains unsealed"
  else foldl (λ r block, _ ← r; validate_arena block arena) (Ok tt) (se_blocks s).

(** The loops over the blocks of [into_samples] and [samples_in_range]. *)
Fixpoint decode_blocks {A} `{ArenaRead A} (al : alloc_seq) (blocks : list (Block C)) (arena : A)
    : io_result (list (Z * V)) :=
  match blocks with
  | [] => Ok []
  | block :: blocks =>
      samples ← decode_samples (al 0%nat) block arena;
      rest ← decode_blocks (λ n, al (S n)) blocks arena;
      Ok (samples ++ rest)
  end.

Definition into_samples {A} `{ArenaRead A} (al : alloc_seq) s (arena : A) : io_result (list (Z * V)) :=
  if se_samples s =? 0 then Ok []
  else
    _ ← ok_or (io_err InvalidData "series sample count overflow") (try_u64 (se_samples s));
    out ← decode_blocks al (se_blocks s) arena;
    Ok (sort_by_key fst out).

(** [ts >= start_ms && ts < end_ms]. *)
Definition in_range {T} (start_ms end_ms : Z) (sample : Z * T) : Prop := start_ms ≤ sample.1 < end_ms.
#[export] Instance in_range_dec {T} start_ms end_ms (sample : Z * T) : Decision (in_range start_ms end_ms sample).
Proof. unfold in_range. apply _. Defined.

Fixpoint range_blocks {A} `{ArenaRead A} (al : alloc_seq) (blocks : list (Block C)) (arena : A)
    (start_ms end_ms : Z) : io_result (list (Z * V)) :=
  match blocks with
  | [] => Ok []
  | block :: blocks =>
      samples ← (if negb (block_overlaps block start_ms end_ms) then Ok []
                 else samples ← decode_samples (al 0%nat) block arena;
                      Ok (filter (in_range start_ms end_ms) samples));
      rest ← range_blocks (λ n, al (S n)) blocks arena start_ms end_ms;
      Ok (samples ++ rest)
  end.

Definition samples_in_range {A} `{ArenaRead A} (al : alloc_seq) s (arena : A) (start_ms end_ms : Z)
    : io_result (list (Z * V)) :=
  if (end_ms <=? start_ms) || (se_samples s =? 0) then Ok []
  else
    out ← range_blocks (λ n, al (S n)) (se_blocks s) arena start_ms end_ms;
    current ← match se_current s with
              | Some block =>
                  if Builder.overlaps block start_ms end_ms then
                    samples ← Builder.decode_samples (al 0%nat) block;
                    Ok (filter (in_range start_ms end_ms) samples)
                  else Ok []
              | None => Ok []
              end;
    Ok (sort_by_key fst (out ++ current)).

Definition block_count s : Z :=
  saturating_add_u64 (zlen (se_blocks s)) (match se_current s with Some _ => 1 | None => 0 end).

(** The counts handed to [for_each_block_sample]'s closure. *)
Definition block_samples s : list Z :=
  (bk_samples <$> se_blocks s) ++ match se_current s with Some block => [bb_samples block] | None => [] end.

Definition series_payload_bytes s : Z :=
  saturating_add_u64
    (foldl (λ acc block, saturating_add_u64 acc (estimated_bytes block)) 0 (se_blocks s))
    (match se_current s with Some block => Builder.payload_bytes block | None => 0 end).
End series.

(** ** Arenas that keep what was written *)

Definition arena_keeps (a b : BlockArena) : Prop :=
  ar_adaptive a = ar_adaptive b ∧ ∀ r d, ref_wf r → arena_slice a r = Ok d → arena_slice b r = Ok d.

#[export] Instance arena_keeps_preorder : PreOrder arena_keeps.
Proof.
  split; [done|]. intros a b c [H1 H2] [H3 H4]. split; [congruence|]. intros r d Hr Ha. by apply H4, H2.
Qed.

Lemma keeps_of_le a b : arena_le a b → arena_wf b → arena_keeps a b.
Proof. intros Hle Hwf. split; [apply Hle|]. intros r d Hr. by apply arena_le_slice. Qed.
Lemma keeps_of_same a b : arena_same a b → arena_keeps a b.
Proof. intros Hs. split; [apply Hs|]. intros r d Hr Ha. by rewrite <- (arena_same_slice a b). Qed.

(** Room in every reference for [n] more writes of up to 4 GiB. *)
Definition arena_roomy (n : Z) (a : BlockArena) : Prop :=
  Forall (λ p, zlen (pg_buf p) ≤ u32_max) (ar_pages a) ∧ ar_max_page_size a ≤ u32_max ∧
  zlen (ar_pages a) + n ≤ u32_max.

Lemma roomy_small n a : 0 ≤ n → arena_roomy n a → arena_small a.
Proof. intros Hn (H1 & H2 & H3). split; [done|lia]. Qed.
Lemma roomy_le n m a : m ≤ n → arena_roomy n a → arena_roomy m a.
Proof. intros Hn (H1 & H2 & H3). split_and!; (done || lia). Qed.

Lemma try_write_total al a data :
  arena_wf a → arena_small a → grants al → zlen data ≤ u32_max →
  ∃ b r, try_write al a data = Some (Ok (b, r)).
Proof.
  intros Hwf Hs Hal Hd. destruct (try_write_spec al a data Hwf) as ([[b r]|e] & Hw & He); [by eauto|].
  destruct He as (n & Hn & He). assert (is_ok (try_alloc al a n) = true) as Hok by (apply try_alloc_total; (done || lia)).
  by rewrite He in Hok.
Qed.

Lemma try_alloc_small al a n b r :
  try_alloc al a n = Ok (b, r) → n ≤ u32_max → ar_page_size a ≤ ar_max_page_size a → ar_max_page_size a ≤ u32_max →
  Forall (λ p, zlen (pg_buf p) ≤ u32_max) (ar_pages a) →
  Forall (λ p, zlen (pg_buf p) ≤ u32_max) (ar_pages b) ∧ zlen (ar_pages b) ≤ zlen (ar_pages a) + 1.
Proof.
  intros Ht Hn Hps Hmax Hp. unfold try_alloc in Ht. apply bind_ok in Ht as (u & _ & Ht).
  apply bind_ok in Ht as ([] & _ & Ht).
  - unfold alloc_page in Ht. apply bind_ok in Ht as (u2 & _ & Ht). apply bind_ok in Ht as (r' & _ & Ht).
    apply bind_ok in Ht as (p & Hpg & Ht). apply bind_ok in Ht as (u3 & _ & Ht). injection Ht as <- <-.
    unfold page_try_new in Hpg. apply bind_ok in Hpg as (u4 & _ & [= <-]). cbn [ar_pages].
    split; [|unfold zlen; rewrite length_app; cbn; lia]. apply Forall_snoc; [done|]. cbn. rewrite zlen_replicate. lia.
  - unfold alloc_in_page in Ht. destruct (last (ar_pages a)) as [p|] eqn:Hl; [|done].
    apply bind_ok in Ht as (r' & _ & Ht). apply bind_ok in Ht as (e & _ & Ht). injection Ht as <- <-. cbn [ar_pages].
    apply last_Some in Hl as [l Hl]. rewrite Hl in *. rewrite set_last_used_snoc.
    apply Forall_snoc_inv in Hp as [Hp1 Hp2]. split; [by apply Forall_snoc|]. unfold zlen. rewrite !length_app. cbn. lia.
Qed.

Lemma copy_into_lengths b r data c :
  ref_wf r → copy_into b r data = Some c → zlen <$> (pg_buf <$> ar_pages c) = zlen <$> (pg_buf <$> ar_pages b).
Proof.
  intros (_ & [Ho _] & [Hl _]). unfold copy_into. destruct (ar_pages b !! _) as [p|] eqn:Hp; [|done]. cbn.
  destruct (Z.leb_spec (br_offset r + br_len r) (zlen (pg_buf p))); [|done].
  destruct (Z.eqb_spec (zlen data) (br_len r)); [|done]. cbn. intros [= <-]. cbn. rewrite !list_fmap_insert. cbn.
  apply list_insert_id. rewrite !list_lookup_fmap, Hp. cbn. f_equal. unfold zlen in *.
  rewrite !length_app, length_take, length_drop. lia.
Qed.

Lemma try_write_roomy al a data b r n :
  try_write al a data = Some (Ok (b, r)) → zlen data ≤ u32_max → arena_wf a → arena_roomy (n + 1) a → arena_roomy n b.
Proof.
  intros Hw Hd Hwf (Hp & Hmax & Hc). pose proof Hwf as [_ [_ Hps]].
  destruct (try_write_spec al a data Hwf) as (res & Hres & Hle). rewrite Hw in Hres. injection Hres as <-.
  destruct Hle as (_ & (_ & Hmax' & _) & _). unfold try_write in Hw.
  assert (∀ k b' r', try_alloc al a k = Ok (b', r') → k ≤ u32_max →
    Forall (λ p, zlen (pg_buf p) ≤ u32_max) (ar_pages b') ∧ zlen (ar_pages b') + n ≤ u32_max) as Hsmall.
  { intros k b' r' Ht Hn. destruct (try_alloc_small _ _ _ _ _ Ht Hn Hps Hmax Hp). split; [done|lia]. }
  split_and!; [| lia |].
  all: case_bool_decide; [injection Hw as Hw; by apply (Hsmall 0 b r)|].
  all: destruct (try_alloc al a (zlen data)) as [[b' r']|] eqn:Ht; [|done].
  all: destruct (copy_into b' r' data) as [c|] eqn:Hcp; [|done]; cbn in Hw; injection Hw as <- <-.
  all: pose proof (try_alloc_spec _ _ _ _ _ Hwf Ht) as (_ & _ & [Hr _ _ _]).
  all: apply copy_into_lengths in Hcp; [|done]; destruct (Hsmall _ _ _ Ht Hd) as [H1 H2].
  - assert (Forall (λ n, n ≤ u32_max) (zlen <$> (pg_buf <$> ar_pages c))) as Hf.
    { rewrite Hcp. by rewrite !Forall_fmap. }
    by rewrite !Forall_fmap in Hf.
  - apply (f_equal length) in Hcp. rewrite !length_fmap in Hcp. unfold zlen in *. lia.
Qed.

(** ** What a series holds *)

Section specification.
Context {V C : Type} `{HL : BlockCodecLaws V C}.
Implicit Types (s : Series C) (arena : BlockArena) (b : BlockBuilder C) (l samples : list (Z * V)).

(** The buffers of the block being built fit an arena reference. *)
Definition builder_small b : Prop :=
  zlen (bb_timestamps b) ≤ u32_max ∧ zlen (bc_snapshot_bytes (bb_values b)) ≤ u32_max.

Lemma small_fits b l : builder_small b → zlen l ≤ u32_max → builder_fits b l.
Proof. intros [H1 H2] Hl. split_and!; lia. Qed.

(** A sealed block, whose two buffers read back as the streams of a builder. *)
Definition block_holds arena (block : Block C) l : Prop :=
  ∃ b r1 r2, block = Builder.block_of b r1 r2 ∧ builder_rep b l ∧ builder_fits b l ∧ ref_wf r1 ∧ ref_wf r2 ∧
    arena_slice arena r1 = Ok (bb_timestamps b) ∧ arena_slice arena r2 = Ok (bc_snapshot_bytes (bb_values b)).

(** The series holds [l], in the order of arrival. *)
Definition series_rep (base_ms : Z) arena s l : Prop :=
  ∃ parts current, l = mjoin parts ++ current ∧ Forall2 (block_holds arena) (se_blocks s) parts ∧
    match se_current s with
    | None => current = []
    | Some b => builder_rep b current ∧ zlen current ≤ u32_max ∧ bb_base_ms b = base_ms
    end ∧ se_samples s = Z.min (zlen l) u64_max.

Definition series_fits s : Prop :=
  match se_current s with Some b => builder_small b | None => True end.

Lemma series_rep_new base arena : series_rep base arena series_new [].
Proof. exists [], []. by repeat split; try constructor. Qed.

Lemma block_holds_keeps (a b : BlockArena) block l : arena_keeps a b → block_holds a block l → block_holds b block l.
Proof.
  intros [_ Hk] (bb & r1 & r2 & ? & ? & ? & Hr1 & Hr2 & H1 & H2). exists bb, r1, r2. split_and!; try done; by apply Hk.
Qed.
Lemma series_rep_keeps base (a b : BlockArena) s l :
  arena_keeps a b → series_rep base a s l → series_rep base b s l.
Proof.
  intros Hk (parts & cur & ? & Hb & ?). exists parts, cur. split_and!; try done; try tauto.
  eapply Forall2_impl; [exact Hb|]. intros x y. by apply block_holds_keeps.
Qed.

(** *** Sealing *)

Lemma sealed_rep_app base arena a' s parts cur block :
  Forall2 (block_holds arena) (se_blocks s) parts → se_samples s = Z.min (zlen (mjoin parts ++ cur)) u64_max →
  arena_keeps arena a' → block_holds a' block cur →
  series_rep base a' (mk_series (se_blocks s ++ [block]) None (se_samples s)) (mjoin parts ++ cur).
Proof.
  intros Hblocks Hn Hk Hbl. exists (parts ++ [cur]), []. cbn. rewrite join_app. cbn. rewrite !app_nil_r.
  split_and!; [done| |done|done]. apply Forall2_app; [|by constructor].
  eapply Forall2_impl; [exact Hblocks|]. intros x y. by apply block_holds_keeps.
Qed.

Lemma stored_refs arena b l r1 r2 :
  builder_rep b l → log_ok arena [(r1, bb_timestamps b); (r2, bc_snapshot_bytes (bb_values b))] →
  builder_fits b l → block_holds arena (Builder.block_of b r1 r2) l.
Proof.
  intros Hb [Hlog _] Hf. apply Forall_cons_1 in Hlog as [(Hr1 & d1 & Hd1 & Hst1) Hlog].
  apply Forall_cons_1 in Hlog as [(Hr2 & d2 & Hd2 & Hst2) _]. unfold stored in Hst1, Hst2.
  rewrite bool_decide_false in Hst1 by by eapply timestamps_nonempty. subst d1.
  rewrite bool_decide_false in Hst2 by (eapply bc_snapshot_nonempty; [apply Hb|]; by eapply values_nonempty).
  subst d2. by exists b, r1, r2.
Qed.

Lemma try_seal_rep al1 al2 b l arena :
  builder_rep b l → builder_fits b l → arena_wf arena →
  ∃ arena' r, Builder.try_seal al1 al2 b arena = Some (arena', r) ∧ arena_wf arena' ∧ arena_keeps arena arena' ∧
    match r with Ok block => block_holds arena' block l | Err _ => True end.
Proof.
  intros Hb Hf Ha. unfold Builder.try_seal.
  destruct (try_write_pair_spec al1 al2 arena (bb_timestamps b) (bc_snapshot_bytes (bb_values b)) [] Ha (log_ok_nil _))
    as (a1 & res & -> & Ha1 & Hres). cbn [mbind option_bind]. do 2 eexists. split; [done|]. split; [done|].
  destruct res as [[r1 r2]|e]; cbn [mbind result_bind].
  - destruct Hres as [Hle Hlog]. split; [by apply keeps_of_le|]. by apply stored_refs.
  - split; [by apply keeps_of_same|done].
Qed.

Lemma seal_rep al1 al2 b l arena :
  builder_rep b l → builder_fits b l → arena_wf arena →
  match Builder.seal al1 al2 b arena with
  | Some (arena', block) =>
      arena_wf arena' ∧ arena_keeps arena arena' ∧ block_holds arena' block l ∧
      ∀ n, builder_small b → arena_roomy (n + 2) arena → arena_roomy n arena'
  | None => ¬ (grants al1 ∧ grants al2 ∧ arena_roomy 2 arena ∧ builder_small b)
  end.
Proof.
  intros Hb Hf Ha. unfold Builder.seal, write. rewrite <- (bc_snapshot_into _ _ (rep_values _ _ Hb)).
  destruct (try_write_spec al1 arena (bb_timestamps b) Ha) as ([[a1 r1]|e] & Hw1 & He1); rewrite Hw1; cbn [mbind option_bind].
  - destruct (log_ok_write _ _ _ _ _ _ Ha Hw1 (log_ok_nil _)) as (Ha1 & Hle1 & Hlog1).
    destruct (try_write_spec al2 a1 (bc_snapshot_bytes (bb_values b)) Ha1) as ([[a2 r2]|e] & Hw2 & He2); rewrite Hw2;
      cbn [mbind option_bind].
    + destruct (log_ok_write _ _ _ _ _ _ Ha1 Hw2 Hlog1) as (Ha2 & Hle2 & Hlog2).
      split_and!; [done| |by apply stored_refs|]; [apply keeps_of_le; [by transitivity a1|done]|].
      intros n [Hs1 Hs2] Hroom. apply (try_write_roomy _ _ _ _ _ n Hw2 Hs2 Ha1).
      apply (try_write_roomy _ _ _ _ _ (n + 1) Hw1 Hs1 Ha). by replace (n + 1 + 1) with (n + 2) by lia.
    + intros (Hg1 & Hg2 & Hroom & [Hs1 Hs2]).
      pose proof (roomy_small 1 _ ltac:(lia) (try_write_roomy _ _ _ _ _ 1 Hw1 Hs1 Ha Hroom)) as Hsm.
      destruct (try_write_total al2 a1 (bc_snapshot_bytes (bb_values b)) Ha1 Hsm Hg2 Hs2) as (x & y & Hxy). congruence.
  - intros (Hg1 & Hg2 & Hroom & [Hs1 Hs2]).
    destruct (try_write_total al1 arena (bb_timestamps b) Ha) as (x & y & Hxy); [|done|done|congruence].
    by apply (roomy_small 2).
Qed.

(** A fallible arena does not panic, whatever room it has; another one uses up two
    writes. *)
Definition keeps_room (a b : BlockArena) : Prop :=
  ∀ n, ar_adaptive a = false → arena_roomy (n + 2) a → arena_roomy n b.
Lemma keeps_room_refl a : keeps_room a a.
Proof. intros n _. apply roomy_le. lia. Qed.

(** Sealing by panicking writes, in any arena. *)
Lemma seal_current_rep al base s l arena :
  arena_wf arena → series_rep base arena s l → series_fits s →
  match seal_current al s arena with
  | Some (arena', s') =>
      arena_wf arena' ∧ arena_keeps arena arena' ∧ (∀ n, arena_roomy (n + 2) arena → arena_roomy n arena') ∧
      series_rep base arena' s' l ∧ se_current s' = None
  | None => ¬ (grants_all al ∧ arena_roomy 2 arena)
  end.
Proof.
  intros Ha Hrep Hfit. unfold seal_current, series_fits in *.
  destruct (se_current s) as [b|] eqn:Hcur.
  2: { split_and!; [done|done| |done|done]. intros n. apply roomy_le. lia. }
  destruct Hrep as (parts & cur & -> & Hblocks & Hc & Hn). rewrite Hcur in Hc. destruct Hc as (Hb & Hlen & Hbase).
  pose proof (small_fits b cur Hfit Hlen) as Hf.
  pose proof (seal_rep (al 0%nat) (al 1%nat) b cur arena Hb Hf Ha) as Hs.
  destruct (Builder.seal _ _ _ _) as [[a' block]|]; cbn; [|intros [Hg Hroom]; by apply Hs].
  destruct Hs as (Ha' & Hk & Hbl & Hr). split_and!; [done|done|intros n; by apply Hr| |done].
  by eapply sealed_rep_app.
Qed.

(** Both ways to seal: the series holds what it held; only want of memory or of
    arena references is an error or a panic. *)
Lemma seal_by_mode_rep al base s l arena :
  arena_wf arena → series_rep base arena s l → series_fits s →
  match seal_by_mode al s arena with
  | Some (arena', r, s') =>
      arena_wf arena' ∧ arena_keeps arena arena' ∧ keeps_room arena arena' ∧ series_rep base arena' s' l ∧
      match r with
      | Ok _ => se_current s' = None
      | Err _ => s' = s ∧ ar_adaptive arena = true
      end
  | None => ¬ (grants_all al ∧ arena_roomy 2 arena) ∧ ar_adaptive arena = false
  end.
Proof.
  intros Ha Hrep Hfit. unfold seal_by_mode. pose proof (keeps_room_refl arena) as Hroom0.
  destruct (ar_adaptive arena) eqn:Had.
  2: { pose proof (seal_current_rep al base s l arena Ha Hrep Hfit) as Hs.
       destruct (seal_current al s arena) as [[a' s']|]; cbn; [|done].
       destruct Hs as (Ha' & Hk & Hr & Hrep' & Hcur). split_and!; try done. intros n _. apply Hr. }
  unfold try_seal_current, series_fits in *. destruct (se_current s) as [b|] eqn:Hcur; [|by split_and!].
  destruct (try_reserve _ _ _ _); [|done].
  pose proof Hrep as (parts & cur & -> & Hblocks & Hc & Hn). rewrite Hcur in Hc. destruct Hc as (Hb & Hlen & Hbase).
  pose proof (small_fits b cur Hfit Hlen) as Hf.
  destruct (try_seal_rep (al 1%nat) (al 2%nat) b cur arena Hb Hf Ha) as (a' & r & -> & Ha' & Hk & Hr). cbn.
  assert (keeps_room arena a') by (intros n Hfalse; congruence).
  destruct r as [block|e]; cbn; (split; [done|split; [done|split; [done|split]]]); try done;
    [by eapply sealed_rep_app|by eapply series_rep_keeps].
Qed.

(** *** Pushing *)

(** The codec itself would not have the value, first or after others. *)
Definition refused (al : allocator) (v : V) (e : io_error) : Prop :=
  bc_new al v = Err e ∨ ∃ c vs, bc_rep c vs ∧ zlen vs ≤ u32_max ∧ (bc_push al c v).1 = Err e.

Lemma push_current_rep al base b cur ts v size :
  builder_rep b cur → zlen cur ≤ u32_max → bb_base_ms b = base → base ≤ ts → in_u64 ts → bc_value v →
  match Builder.push_sample al b ts v size with
  | (Ok _, b') => builder_rep b' (cur ++ [(ts, v)]) ∧ bb_base_ms b' = base
  | (Err e, b') => builder_rep b' cur ∧ bb_base_ms b' = base ∧ refused al v e
  end.
Proof.
  intros Hb Hcur Hbase Hts Hu Hv. pose proof (push_sample_rep al b cur ts v size Hb Hu Hv) as Hp. revert Hp.
  unfold Builder.push_sample. rewrite (proj2 (Z.ltb_ge _ _)) by lia.
  destruct (bc_push al (bb_values b) v) as [[[]|e] c] eqn:Hpush; intros [H1 H2]; (split; [done|]); cbn in *; [done|].
  split; [done|]. right. exists (bb_values b), cur.*2. split; [apply Hb|]. unfold zlen in *.
  rewrite length_fmap, Hpush. by split.
Qed.

Lemma series_push_rep al base s l ts v size arena :
  arena_wf arena → series_rep base arena s l → series_fits s → in_u64 base → in_u64 ts → bc_value v →
  1 ≤ size ≤ u32_max →
  match push_sample al s base ts v size arena with
  | Some (arena', r, s') =>
      arena_wf arena' ∧ arena_keeps arena arena' ∧ keeps_room arena arena' ∧
      match r with
      | Ok _ => base ≤ ts ∧ series_rep base arena' s' (l ++ [(ts, v)])
      | Err e => series_rep base arena' s' l ∧ (ts < base ∨ ar_adaptive arena = true ∨ refused (al 3%nat) v e)
      end
  | None => ¬ (grants_all al ∧ arena_roomy 2 arena) ∧ ar_adaptive arena = false
  end.
Proof.
  intros Ha Hrep Hfit Hb Hts Hv Hsize. unfold push_sample. pose proof (keeps_room_refl arena) as Hroom0.
  destruct (Z.ltb_spec ts base) as [Hlt|Hge]; [cbn; split_and!; by auto|].
  set (full := match se_current s with Some b => Builder.is_full b size | None => false end).
  assert (∀ a' s', arena_wf a' → arena_keeps arena a' → series_rep base a' s' l →
    (∀ b, se_current s' = Some b → Builder.is_full b size = false) →
    let out := match se_current s' with
      | Some block =>
          let '(r, block) :=
            if negb (Builder.is_full block size) then Builder.push_sample (al 3%nat) block ts v size
            else (Ok tt, block) in
          let samples := match r with Ok _ => saturating_add_u64 (se_samples s') 1 | Err _ => se_samples s' end in
          Some (a', r, mk_series (se_blocks s') (Some block) samples)
      | None =>
          match Builder.new (al 3%nat) base ts v size with
          | Err e => Some (a', Err e, s')
          | Ok block => Some (a', Ok tt, mk_series (se_blocks s') (Some block) (saturating_add_u64 (se_samples s') 1))
          end
      end in
    ∃ r s2, out = Some (a', r, s2) ∧
      match r with
      | Ok _ => series_rep base a' s2 (l ++ [(ts, v)])
      | Err e => series_rep base a' s2 l ∧ refused (al 3%nat) v e
      end) as Hstep.
  { intros a' s' Ha' Hk Hrep' Hnf out. subst out. pose proof Hrep' as (parts & cur & -> & Hblocks & Hc & Hn).
    assert (saturating_add_u64 (se_samples s') 1 = Z.min (zlen ((mjoin parts ++ cur) ++ [(ts, v)])) u64_max) as Hcount.
    { rewrite Hn, (zlen_app (mjoin parts ++ cur)), zlen_cons, zlen_nil. unfold saturating_add_u64. lia. }
    destruct (se_current s') as [b|] eqn:Hcur.
    - destruct Hc as (Hbr & Hlen & Hbase). rewrite (Hnf b eq_refl). cbn [negb].
      pose proof (push_current_rep (al 3%nat) base b cur ts v size Hbr Hlen Hbase Hge Hts Hv) as Hp.
      destruct (Builder.push_sample _ _ _ _ _) as [[[]|e] b']; do 2 eexists; (split; [done|]).
      + destruct Hp as [Hp1 Hp2]. exists parts, (cur ++ [(ts, v)]). cbn. rewrite app_assoc. split_and!; try done.
        specialize (Hnf b eq_refl). unfold Builder.is_full in Hnf. apply Z.leb_gt in Hnf.
        pose proof (rep_samples _ _ Hbr). rewrite zlen_app, zlen_cons, zlen_nil. lia.
      + destruct Hp as (Hp1 & Hp2 & Hp3). split; [|done]. by exists parts, cur.
    - subst cur. rewrite app_nil_r in *. destruct (Builder.new _ _ _ _ _) as [b|e] eqn:Hnew; do 2 eexists; (split; [done|]).
      + destruct (builder_new_rep _ _ _ _ _ _ Hb Hts Hv Hnew) as [H1 H2].
        exists parts, [(ts, v)]. cbn. by split_and!.
      + split; [done|]. left. unfold Builder.new in Hnew. rewrite (proj2 (Z.ltb_ge _ _)) in Hnew by lia.
        by destruct (bc_new (al 3%nat) v); [|injection Hnew as ->]. }
  cbv zeta in Hstep. destruct full eqn:Hfull.
  - pose proof (seal_by_mode_rep al base s l arena Ha Hrep Hfit) as Hseal.
    destruct (seal_by_mode al s arena) as [[[a' r] s']|]; cbn; [|done].
    destruct Hseal as (Ha' & Hk & Hroom & Hrep' & Hr). destruct r as [[]|e].
    + destruct (Hstep a' s' Ha' Hk Hrep') as (r2 & s2 & -> & Hout); [by rewrite Hr|].
      split_and!; [done|done|done|]. destruct r2; [done|]. destruct Hout. by auto.
    + destruct Hr. split_and!; by auto.
  - cbn. destruct (Hstep arena s Ha ltac:(done) Hrep) as (r2 & s2 & -> & Hout).
    { intros b Hb'. unfold full in Hfull. by rewrite Hb' in Hfull. }
    split_and!; [done|done|done|]. destruct r2; [done|]. destruct Hout. by auto.
Qed.

(** *** Reading *)

(** [a] gives the contents that the writing arena has. *)
Definition reads_as {A} `{ArenaRead A} arena (a : A) : Prop :=
  ∀ r d, ref_wf r → arena_slice arena r = Ok d → arena_slice a r = Ok d.

Lemma block_holds_decode {A} `{ArenaRead A} al arena (a : A) block l :
  block_holds arena block l → reads_as arena a → grants al →
  decode_samples al block a = Ok l ∧ validate_arena block a = Ok tt.
Proof.
  intros (b & r1 & r2 & -> & Hb & (Hn & H1 & H2) & Hr1 & Hr2 & Hs1 & Hs2) Ha Hal.
  apply block_decode; try done; by apply Ha.
Qed.

Lemma decode_blocks_rep {A} `{ArenaRead A} arena (a : A) blocks parts :
  Forall2 (block_holds arena) blocks parts → reads_as arena a →
  ∀ al, grants_all al → decode_blocks al blocks a = Ok (mjoin parts).
Proof.
  intros Hb Ha. induction Hb as [|block l blocks parts Hl _ IH]; intros al Hal; [done|]. cbn [decode_blocks].
  destruct (block_holds_decode (al 0%nat) arena a block l Hl Ha (Hal 0%nat)) as [-> _]. cbn [mbind result_bind].
  by rewrite IH by (intros n; apply Hal).
Qed.

(** No sample of a stream is outside the bounds it is skipped by. *)
Lemma disjoint_filter b l start_ms end_ms :
  builder_rep b l → Builder.overlaps b start_ms end_ms = false → filter (in_range start_ms end_ms) l = [].
Proof.
  intros Hb Ho. unfold Builder.overlaps in Ho.
  destruct (filter _ l) as [|x k] eqn:Hf; [done|]. assert (x ∈ filter (in_range start_ms end_ms) l) as Hx by (rewrite Hf; left).
  apply list_elem_of_filter in Hx as [[H1 H2] Hx].
  pose proof (mins_in_range b l x.1 Hb (list_elem_of_fmap_2 _ _ _ Hx)).
  destruct (Z.leb_spec start_ms (bb_max_ts b)), (Z.ltb_spec (bb_min_ts b) end_ms); (done || lia).
Qed.

Lemma range_blocks_rep {A} `{ArenaRead A} arena (a : A) blocks parts start_ms end_ms :
  Forall2 (block_holds arena) blocks parts → reads_as arena a →
  ∀ al, grants_all al → range_blocks al blocks a start_ms end_ms = Ok (filter (in_range start_ms end_ms) (mjoin parts)).
Proof.
  intros Hb Ha. induction Hb as [|block l blocks parts Hl _ IH]; intros al Hal; [done|]. cbn [range_blocks].
  rewrite IH by (intros n; apply Hal). cbn [mjoin list_join]. rewrite filter_app.
  destruct (block_holds_decode (al 0%nat) arena a block l Hl Ha (Hal 0%nat)) as [-> _].
  destruct (block_overlaps block start_ms end_ms) eqn:Ho; cbn; [done|].
  destruct Hl as (b & r1 & r2 & -> & Hbr & _). by rewrite (disjoint_filter b l).
Qed.

Lemma into_samples_rep {A} `{ArenaRead A} al base arena (a : A) s l :
  series_rep base arena s l → se_current s = None → reads_as arena a → grants_all al →
  into_samples al s a = Ok (sort_by_key fst l).
Proof.
  intros (parts & cur & -> & Hb & Hc & Hn) Hcur Ha Hal. rewrite Hcur in Hc. subst cur. rewrite app_nil_r in *.
  unfold into_samples. pose proof (zlen_nonneg (mjoin parts)). destruct (Z.eqb_spec (se_samples s) 0).
  - rewrite (zlen_0 (mjoin parts)) by lia. done.
  - rewrite try_u64_fits by (unfold in_u64; lia). cbn. by rewrite (decode_blocks_rep arena a _ parts).
Qed.

Lemma samples_in_range_rep {A} `{ArenaRead A} al base arena (a : A) s l start_ms end_ms :
  series_rep base arena s l → series_fits s → reads_as arena a → grants_all al →
  samples_in_range al s a start_ms end_ms = Ok (sort_by_key fst (filter (in_range start_ms end_ms) l)).
Proof.
  intros (parts & cur & -> & Hb & Hc & Hn) Hfit Ha Hal. unfold samples_in_range.
  destruct (Z.leb_spec end_ms start_ms).
  { cbn. rewrite list_filter_none; [done|]. intros x [??]. lia. }
  destruct (Z.eqb_spec (se_samples s) 0); cbn [orb].
  { pose proof (zlen_nonneg (mjoin parts ++ cur)). by rewrite (zlen_0 (mjoin parts ++ cur)) by lia. }
  rewrite (range_blocks_rep arena a _ parts) by (try done; intros m; apply Hal). cbn [mbind result_bind].
  rewrite filter_app. unfold series_fits in Hfit. destruct (se_current s) as [b|].
  - destruct Hc as (Hbr & Hlen & _). destruct (small_fits b cur Hfit Hlen) as (_ & Hts & Hvs).
    destruct (Builder.overlaps b start_ms end_ms) eqn:Ho.
    + rewrite (builder_decode (al 0%nat) b cur) by done. done.
    + by rewrite (disjoint_filter b cur).
  - by rewrite Hc.
Qed.

(** What sealing left is valid in whatever reads the arena. *)
Lemma validate_rep {A} `{ArenaRead A} base arena (a : A) s l :
  series_rep base arena s l → se_current s = None → reads_as arena a → validate_series_arena s a = Ok tt.
Proof.
  intros (parts & cur & -> & Hb & _ & _) Hcur Ha. unfold validate_series_arena. rewrite Hcur.
  rewrite bool_decide_false by (intros [? ?]; done).
  induction Hb as [|block l blocks parts Hl _ IH]; [done|]. cbn [foldl mbind result_bind].
  by destruct (block_holds_decode alloc_ok arena a block l Hl Ha) as [_ ->].
Qed.

Lemma reads_self arena arena' : arena_keeps arena arena' → reads_as arena arena'.
Proof. intros [_ Hk]. exact Hk. Qed.
Lemma reads_frozen al arena frozen : arena_wf arena → try_freeze al arena = Ok frozen → reads_as arena frozen.
Proof. intros Ha Hf r d Hr. by apply (freeze_slice al arena frozen r d Ha Hf Hr). Qed.
End specification.

(** ** Codecs that take every value *)

Class BlockCodecTotal (V C : Type) `{BlockCodecLaws V C} : Prop := {
  bc_never_refuses al v e : bc_value v → ¬ refused al v e;
}.

(** At most ten bytes a value. *)
Class BlockCodecSmall (V C : Type) `{BlockCodecLaws V C} : Prop := {
  bc_size c vs : bc_rep c vs → zlen (bc_snapshot_bytes c) ≤ 10 * zlen vs;
}.

#[export] Instance raw_total t : BlockCodecTotal Z (RawCodec t).
Proof. split. intros al v e _ [Hn|(c & vs & _ & _ & Hn)]; discriminate Hn. Qed.
#[export] Instance int_delta_total : BlockCodecTotal Z IntDeltaCodec.
Proof. split. intros al v e _ [Hn|(c & vs & _ & _ & Hn)]; discriminate Hn. Qed.
#[export] Instance gorilla_total : BlockCodecTotal Z GorillaEncoder.
Proof.
  split. intros al v e Hv [Hn|(c & [|first vs] & [Hne Hc] & _ & Hp)]; [|done|].
  - destruct (push_first v Hv) as (e1 & He1 & _). cbn in Hn. congruence.
  - destruct (gorilla_rep_cons c first vs Hc) as (prev & w & l & Hr).
    destruct (push_rep _ _ _ _ _ Hr Hv) as (e1 & He1 & _). cbn in Hp. unfold gorilla_push in Hp. by rewrite He1 in Hp.
Qed.

Lemma varint_at_most_10 v : in_u64 v → zlen (encode_varint v []) ≤ 10.
Proof. intros Hv. rewrite zlen_encode_varint by done. apply varint_len_pos, Hv. Qed.

#[export] Instance int_delta_small : BlockCodecSmall Z IntDeltaCodec.
Proof.
  split. intros c vs (Hvs & Hc & _). cbn in *. rewrite Hc. clear Hc. generalize 0 as prev.
  induction vs as [|v vs IH]; intros prev; [done|]. cbn [deltas]. rewrite zlen_app, zlen_cons.
  apply Forall_cons_1 in Hvs as [_ Hvs]. specialize (IH Hvs v).
  assert (zlen (delta_bytes prev v) ≤ 10) by (apply varint_at_most_10, encode_zigzag_in_u64, wrap_i64_range). lia.
Qed.

(** A code word takes at most two marker bits, a window and 64 bits. *)
Lemma gorilla_code_size w x : window_ok w → 0 ≤ x < 2 ^ 64 → zlen (gorilla_code w x) ≤ 77.
Proof.
  intros Hw Hx. unfold gorilla_code. destruct (Z.eqb_spec x 0); [done|].
  assert (∀ lt : Z * Z, 0 ≤ lt.1 → 0 ≤ lt.2 → zlen (window_bits x lt) ≤ 64) as Hbits.
  { intros [a b] Ha Hb. cbn in *. unfold window_bits, zlen. rewrite length_bits_be. cbn. lia. }
  assert (0 < x < 2 ^ 64) as Hx' by lia. destruct (new_window_ok x Hx') as (Hl & Ht & _).
  assert (zlen ([true; true] ++ bits_be 5 (new_window x).1 ++ bits_be 6 (64 - (new_window x).1 - (new_window x).2)
    ++ window_bits x (new_window x)) ≤ 77) as Hnew.
  { pose proof (Hbits (new_window x) (proj1 Hl) Ht). rewrite !zlen_app, !zlen_bits_be.
    change (zlen [true; true]) with 2. lia. }
  destruct w as [lt|]; [|done]. destruct (reusable _ _); [|done]. destruct lt as [a b], Hw as (? & ? & _).
  pose proof (Hbits (a, b) ltac:(cbn; lia) ltac:(cbn; lia)). rewrite zlen_app. change (zlen [true; false]) with 2. lia.
Qed.

Lemma gorilla_stream_size vs : ∀ e prev w l,
  encoder_rep e prev w l → Forall in_u64 vs → zlen (gorilla_stream w prev vs) ≤ 77 * zlen vs.
Proof.
  induction vs as [|v vs IH]; intros e prev w l He Hvs; [done|]. apply Forall_cons_1 in Hvs as [Hv Hvs].
  destruct (push_rep _ _ _ _ _ He Hv) as (e1 & _ & He1). cbn [gorilla_stream]. rewrite zlen_app, zlen_cons.
  specialize (IH _ _ _ _ He1 Hvs). destruct He as (_ & Hp & _ & [Hw _]).
  pose proof (gorilla_code_size w _ Hw (lxor_range prev v Hp Hv)). lia.
Qed.

#[export] Instance gorilla_small : BlockCodecSmall Z GorillaEncoder.
Proof.
  split. intros c [|first vs] [Hne [Hvs Hc]]; [done|]. apply Forall_cons_1 in Hvs as [Hf Hvs].
  destruct (push_first first Hf) as (e1 & Hp & He1).
  destruct (push_all_rep vs _ _ _ _ He1 Hvs) as (e2 & prev & w & Hall & He2).
  cbn [push_all] in Hc. rewrite Hp in Hc. cbn [mbind result_bind] in Hc. rewrite Hall in Hc. injection Hc as <-.
  pose proof (gorilla_stream_size vs _ _ _ _ He1 Hvs) as Hs. destruct He2 as (_ & _ & Hw & _).
  apply finish_rep in Hw as [_ Hbits]. apply (f_equal zlen) in Hbits. rewrite zlen_bytes_bits in Hbits.
  unfold padding in Hbits. set (stream := bits_be 64 first ++ _) in *.
  rewrite zlen_app, zlen_replicate in Hbits. pose proof (Z.mod_pos_bound (- zlen stream) 8 ltac:(lia)).
  assert (zlen stream = 64 + zlen (gorilla_stream None first vs)) as Hz.
  { unfold stream. rewrite zlen_app, zlen_bits_be. lia. }
  cbn [bc_snapshot_bytes gorilla_block_codec]. unfold Encoder.snapshot. rewrite finish_snapshot, zlen_cons. pose proof (zlen_nonneg vs). lia.
Qed.

(** ** Codecs that refuse exactly the invalid values *)

(** [bc_fits]: the encoding of the value fits a vector.  A codec given memory
    refuses a value only when it is not valid, and holds valid values only. *)
Class BlockCodecExact (V C : Type) `{BlockCodecLaws V C} := {
  bc_valid : V → Prop;
  bc_fits : V → Prop;
  bc_rep_valid c vs : bc_rep c vs → Forall bc_valid vs;
  bc_refuses al v e : bc_value v → bc_fits v → grants al → refused al v e → ¬ bc_valid v;
}.

Program Definition total_exact {V C} `{BlockCodecTotal V C} : BlockCodecExact V C := {|
  bc_valid _ := True;
  bc_fits _ := True;
|}.
Next Obligation. intros. by apply Forall_forall. Qed.
Next Obligation. intros V C H HL HT al v e Hv _ _ Hr. by apply bc_never_refuses in Hr. Qed.

#[export] Program Instance varlen_exact {T} `{VarLenLaws T} : BlockCodecExact T VarLenCodec := {
  bc_valid := vl_valid;
  bc_fits _ := True;
}.
Next Obligation. by intros T ?? c vs [Hvs _]. Qed.
Next Obligation.
  intros T ?? al v e Hv _ _ Hr. destruct Hr as [Hn|(c & vs & _ & _ & Hp)]; cbn in *.
  - unfold VarLen.new in Hn. pose proof (varlen_push_spec empty_varlen v Hv) as Hs.
    unfold VarLen.push, empty_varlen in Hs. destruct (VarLen.encode_value _ v) as [[[]|e'] c']; [done|apply Hs].
  - pose proof (varlen_push_spec c v Hv) as Hs. destruct (VarLen.push c v) as [[[]|e'] c']; [done|apply Hs].
Qed.

#[export] Program Instance schema_exact {T} `{SchemaVarLenLaws T} : BlockCodecExact T (SchemaVarLenCodec Schema) := {
  bc_valid := sv_ok;
  bc_fits v := vec_ok (value_enc v);
}.
Next Obligation. intros T ?? c vs [Hvs _]. eapply Forall_impl; [exact Hvs|]. by intros v [? _]. Qed.
Next Obligation.
  intros T ?? al v e Hv Hfit Hal Hr Hok. destruct Hr as [Hn|(c & vs & Hc & Hlen & Hp)]; cbn in *.
  - unfold SchemaVarLen.new in Hn. pose proof (push_spec al empty_codec [] v codec_rep_empty Hv) as Hs.
    unfold SchemaVarLen.push, empty_codec in Hs.
    destruct (SchemaVarLen.encode_value al _ v) as [[[]|e'] c']; [done|]. destruct Hs as [_ Hs]. apply Hs. by split_and!.
  - pose proof (push_spec al c vs v Hc Hv) as Hs. destruct (SchemaVarLen.push al c v) as [[[]|e'] c']; [done|].
    destruct Hs as [_ Hs]. apply Hs. split; [done|]. split; [done|]. split; [by apply (codec_rep_schemas c vs)|done].
Qed.

Section exact.
Context {V C : Type} `{HE : BlockCodecExact V C}.

Lemma series_rep_valid base arena (s : Series C) l : series_rep base arena s l → Forall bc_valid l.*2.
Proof.
  intros (parts & cur & -> & Hblocks & Hc & _). rewrite fmap_app. apply Forall_app. split.
  - clear Hc. induction Hblocks as [|block part blocks parts Hb _ IH]; [constructor|].
    change (mjoin (part :: parts)) with (part ++ mjoin parts). rewrite fmap_app. apply Forall_app. split; [|done].
    destruct Hb as (b & _ & _ & _ & Hb & _). apply (bc_rep_valid _ _ (rep_values _ _ Hb)).
  - destruct (se_current s) as [b|]; [|subst cur; constructor]. destruct Hc as [Hb _].
    apply (bc_rep_valid _ _ (rep_values _ _ Hb)).
Qed.
End exact.
