(* ===== verification/EncodedSeries.v ===== *)
(** * Encoded head series

    [EncodedSeries] of [chronoxide-core/src/storage/head/encoded.rs]: a series of
    one sample kind in the head's configured encoding, or the inline staging of a
    short numeric series.  Its nineteen variants are a [SeriesEncoding] with the
    [Series] of that encoding's codec, and the two inline ones.  The float codecs
    Elf, Alp and Chimp are not modelled: they are arbitrary operations
    ([OtherFloatCodecs]), nothing is assumed of what they store, and what is proved
    of stored samples is for float series in the raw encoding or in Gorilla, the
    default ([exact_encoding]). *)
From Stdlib Require Import Sorted.
From S2P Require Import Prelude Cursor Fields TypedSamples TypedCodecs VarLen SchemaVarLen Gorilla Arena BlockCodec Block Sort Series.

Inductive FloatEncoding :=
  | RawFloat | Gorilla | Elf | Alp | AlpRd | AlpSpiral | AlpRdSpiral | Chimp128DuckDB | Chimp128Baseline.
Inductive IntEncoding := RawInt | DeltaZigZag.
Inductive VarLenEncodingKind := RawVarLen | SchemaTagged.
Inductive SampleKind := KindFloat | KindInt64 | KindHistogram | KindExponentialHistogram | KindSummary.

#[export] Instance float_encoding_eq_dec : EqDecision FloatEncoding.
Proof. solve_decision. Defined.
#[export] Instance int_encoding_eq_dec : EqDecision IntEncoding.
Proof. solve_decision. Defined.
#[export] Instance sample_kind_eq_dec : EqDecision SampleKind.
Proof. solve_decision. Defined.

(** [SampleValue::kind]. *)
Definition value_kind (v : SampleValue) : SampleKind :=
  match v with
  | SampleFloat _ => KindFloat
  | SampleInt64 _ => KindInt64
  | SampleHistogram _ => KindHistogram
  | SampleExponentialHistogram _ => KindExponentialHistogram
  | SampleSummary _ => KindSummary
  end.

Inductive SeriesEncoding :=
  | EncodingFloat (e : FloatEncoding)
  | EncodingInt (e : IntEncoding)
  | EncodingHistogram (e : VarLenEncodingKind)
  | EncodingExponentialHistogram (e : VarLenEncodingKind)
  | EncodingSummary (e : VarLenEncodingKind).

Definition encoding_kind (e : SeriesEncoding) : SampleKind :=
  match e with
  | EncodingFloat _ => KindFloat
  | EncodingInt _ => KindInt64
  | EncodingHistogram _ => KindHistogram
  | EncodingExponentialHistogram _ => KindExponentialHistogram
  | EncodingSummary _ => KindSummary
  end.

(** ** Codecs by encoding *)

(** The operations of the float codecs that are not modelled, with no law. *)
Class OtherFloatCodecs := {
  other_codec : FloatEncoding → Type;
  other_block_codec e :: BlockCodec Z (other_codec e);
}.

(** The encodings whose codecs are modelled, and give back the values they took:
    all but the other float codecs.  Elf, for one, stores one NaN for all. *)
Definition exact_encoding (e : SeriesEncoding) : Prop :=
  match e with EncodingFloat e => e = RawFloat ∨ e = Gorilla | _ => True end.

(** A codec of which nothing is promised: no value is within its contract. *)
Program Definition no_contract {V C} `{BlockCodec V C} : BlockCodecLaws V C := {|
  bc_value _ := False;
  bc_rep _ _ := False;
|}.
Solve Obligations with done.

Section encoded.
Context `{HO : OtherFloatCodecs}.

Definition float_codec (e : FloatEncoding) : Type :=
  match e with RawFloat => RawCodec raw_f64 | Gorilla => GorillaEncoder | e => other_codec e end.
Definition int_codec (e : IntEncoding) : Type :=
  match e with RawInt => RawCodec raw_i64 | DeltaZigZag => IntDeltaCodec end.
Definition varlen_codec (e : VarLenEncodingKind) (S : Type) : Type :=
  match e with RawVarLen => VarLenCodec | SchemaTagged => SchemaVarLenCodec S end.

Definition codec_of (e : SeriesEncoding) : Type :=
  match e with
  | EncodingFloat e => float_codec e
  | EncodingInt e => int_codec e
  | EncodingHistogram e => varlen_codec e HistogramSchema
  | EncodingExponentialHistogram e => varlen_codec e ExponentialHistogramSchema
  | EncodingSummary e => varlen_codec e SummarySchema
  end.
Definition value_of (e : SeriesEncoding) : Type :=
  match e with
  | EncodingFloat _ | EncodingInt _ => Z
  | EncodingHistogram _ => HistogramValue
  | EncodingExponentialHistogram _ => ExponentialHistogramValue
  | EncodingSummary _ => SummaryValue
  end.

Definition varlen_block (T : Type) `{VarLenEncoding T} `{SchemaVarLenEncoding T} (e : VarLenEncodingKind)
    : BlockCodec T (varlen_codec e Schema) :=
  match e with RawVarLen => varlen_block_codec | SchemaTagged => schema_block_codec end.

#[export] Instance encoding_codec (e : SeriesEncoding) : BlockCodec (value_of e) (codec_of e) :=
  match e with
  | EncodingFloat e =>
      match e return BlockCodec Z (float_codec e) with
      | RawFloat => raw_block_codec raw_f64
      | Gorilla => gorilla_block_codec
      | e => other_block_codec e
      end
  | EncodingInt e =>
      match e return BlockCodec Z (int_codec e) with
      | RawInt => raw_block_codec raw_i64
      | DeltaZigZag => int_delta_block_codec
      end
  | EncodingHistogram e => varlen_block HistogramValue e
  | EncodingExponentialHistogram e => varlen_block ExponentialHistogramValue e
  | EncodingSummary e => varlen_block SummaryValue e
  end.

#[export] Instance encoding_laws (e : SeriesEncoding) : BlockCodecLaws (value_of e) (codec_of e).
Proof.
  destruct e as [f|[]|[]|[]|[]]; cbn.
  - destruct f; cbn; [apply raw_block_laws|apply gorilla_block_laws|apply no_contract..].
  - apply raw_block_laws.
  - apply int_delta_block_laws.
  - exact (varlen_block_laws (T := HistogramValue)).
  - exact (schema_block_laws (T := HistogramValue)).
  - exact (varlen_block_laws (T := ExponentialHistogramValue)).
  - exact (schema_block_laws (T := ExponentialHistogramValue)).
  - exact (varlen_block_laws (T := SummaryValue)).
  - exact (schema_block_laws (T := SummaryValue)).
Defined.

#[export] Instance encoding_exact (e : SeriesEncoding) : BlockCodecExact (value_of e) (codec_of e).
Proof.
  destruct e as [f|[]|[]|[]|[]]; cbn.
  - destruct f; cbn; [apply total_exact|apply total_exact|..].
    all: by refine {| bc_valid _ := True; bc_fits _ := True |}.
  - apply total_exact.
  - apply total_exact.
  - exact (varlen_exact (T := HistogramValue)).
  - exact (schema_exact (T := HistogramValue)).
  - exact (varlen_exact (T := ExponentialHistogramValue)).
  - exact (schema_exact (T := ExponentialHistogramValue)).
  - exact (varlen_exact (T := SummaryValue)).
  - exact (schema_exact (T := SummaryValue)).
Defined.

(** The payload of a sample of the encoding's kind. *)
Definition to_value (e : SeriesEncoding) : SampleValue → option (value_of e) :=
  match e with
  | EncodingFloat _ => λ v, match v with SampleFloat bits => Some bits | _ => None end
  | EncodingInt _ => λ v, match v with SampleInt64 z => Some z | _ => None end
  | EncodingHistogram _ => λ v, match v with SampleHistogram h => Some h | _ => None end
  | EncodingExponentialHistogram _ => λ v, match v with SampleExponentialHistogram h => Some h | _ => None end
  | EncodingSummary _ => λ v, match v with SampleSummary s => Some s | _ => None end
  end.
Definition from_value (e : SeriesEncoding) : value_of e → SampleValue :=
  match e with
  | EncodingFloat _ => SampleFloat
  | EncodingInt _ => SampleInt64
  | EncodingHistogram _ => SampleHistogram
  | EncodingExponentialHistogram _ => SampleExponentialHistogram
  | EncodingSummary _ => SampleSummary
  end.

(** ** The inline staging *)

Definition INLINE_NUMERIC_SERIES_CAPACITY : Z := 4.

(** The arrays of four; [in_len] of their entries are in use. *)
Record InlineNumericSeries := mk_inline {
  in_timestamps : list Z;
  in_values : list Z;
  in_block_size : Z;
  in_len : Z;
}.

Definition inline_new (block_size : Z) : InlineNumericSeries :=
  mk_inline (replicate 4 0) (replicate 4 0) block_size 0.

Definition inline_push (i : InlineNumericSeries) (timestamp_ms value_bits : Z) : bool * InlineNumericSeries :=
  let index := in_len i in
  if INLINE_NUMERIC_SERIES_CAPACITY <=? index then (false, i)
  else (true, mk_inline (<[Z.to_nat index := timestamp_ms]> (in_timestamps i))
                (<[Z.to_nat index := value_bits]> (in_values i)) (in_block_size i) (Z.min (in_len i + 1) u8_max)).

Definition inline_is_full (i : InlineNumericSeries) : bool := in_len i =? INLINE_NUMERIC_SERIES_CAPACITY.

(** [(self.timestamps[index], self.values[index])] for the indices below the length. *)
Definition inline_samples (i : InlineNumericSeries) : list (Z * Z) :=
  take (Z.to_nat (in_len i)) (zip (in_timestamps i) (in_values i)).

Definition inline_all_samples (decode : Z → Z) (i : InlineNumericSeries) : list (Z * Z) :=
  sort_by_key fst ((λ s, (s.1, decode s.2)) <$> inline_samples i).
Definition inline_range_samples (start_ms end_ms : Z) (decode : Z → Z) (i : InlineNumericSeries) : list (Z * Z) :=
  sort_by_key fst ((λ s, (s.1, decode s.2)) <$> filter (in_range start_ms end_ms) (inline_samples i)).

(** [u64::from_le_bytes(value.to_le_bytes())] and back. *)
Definition int_bits (value : Z) : Z := wrap_u64 value.
Definition int_of_bits (bits : Z) : Z := as_signed 64 bits.

(** ** Series *)

Inductive EncodedSeries :=
  | InlineFloatGorilla (i : InlineNumericSeries)
  | InlineIntDelta (i : InlineNumericSeries)
  | Encoded (e : SeriesEncoding) (s : Series (codec_of e)).

Definition encoded_new (encoding : SeriesEncoding) (compact_numeric_series : bool) (block_size : Z) : EncodedSeries :=
  match encoding, compact_numeric_series with
  | EncodingFloat Gorilla, true => InlineFloatGorilla (inline_new block_size)
  | EncodingInt DeltaZigZag, true => InlineIntDelta (inline_new block_size)
  | e, _ => Encoded e series_new
  end.

Definition encoded_kind (es : EncodedSeries) : SampleKind :=
  match es with
  | InlineFloatGorilla _ => KindFloat
  | InlineIntDelta _ => KindInt64
  | Encoded e _ => encoding_kind e
  end.

Definition kind_error (e : SeriesEncoding) : string :=
  match e with
  | EncodingFloat _ => "float series received non-float sample"
  | EncodingInt RawInt => "int series received float sample"
  | EncodingInt DeltaZigZag => "int series received non-int sample"
  | EncodingHistogram _ => "histogram series received non-histogram sample"
  | EncodingExponentialHistogram _ => "exponential histogram series received non-histogram sample"
  | EncodingSummary _ => "summary series received non-summary sample"
  end.

(** The promotion loop: the staged samples and then the new one; an operation
    takes at most four answers of the allocator. *)
Fixpoint push_samples {V C} `{BlockCodec V C} (al : alloc_seq) (s : Series C) (base_ms : Z)
    (samples : list (Z * V)) (block_size : Z) (arena : BlockArena)
    : option (BlockArena * io_result unit * Series C) :=
  match samples with
  | [] => Some (arena, Ok tt, s)
  | (timestamp_ms, value) :: samples =>
      '(arena, r, s) ← push_sample al s base_ms timestamp_ms value block_size arena;
      match r with
      | Err e => Some (arena, Err e, s)
      | Ok _ => push_samples (λ n, al (4 + n)%nat) s base_ms samples block_size arena
      end
  end.

(** The inline branches of [push_sample], which differ in the numeric type: the
    value as bits, and the series it is promoted to. *)
Definition inline_push_sample (al : alloc_seq) (inline : InlineNumericSeries → EncodedSeries) (e : SeriesEncoding)
    (decode : Z → value_of e) (i : InlineNumericSeries) (base_ms timestamp_ms : Z) (value : value_of e) (bits : Z)
    (block_size : Z) (arena : BlockArena) : option (BlockArena * io_result unit * EncodedSeries) :=
  if timestamp_ms <? base_ms then
    Some (arena, fail InvalidInput "timestamp precedes window start", inline i)
  else if negb (inline_is_full i) then Some (arena, Ok tt, inline (inline_push i timestamp_ms bits).2)
  else
    let staged := (λ s, (s.1, decode s.2)) <$> inline_samples i in
    '(arena, r, promoted) ← push_samples al series_new base_ms (staged ++ [(timestamp_ms, value)]) block_size arena;
    Some (arena, r, match r with Ok _ => Encoded e promoted | Err _ => inline i end).

Definition encoded_push_sample (al : alloc_seq) (es : EncodedSeries) (base_ms timestamp_ms : Z) (value : SampleValue)
    (block_size : Z) (arena : BlockArena) : option (BlockArena * io_result unit * EncodedSeries) :=
  match es with
  | InlineFloatGorilla i =>
      match value with
      | SampleFloat v =>
          inline_push_sample al InlineFloatGorilla (EncodingFloat Gorilla) (λ bits, bits) i base_ms timestamp_ms v v
            block_size arena
      | _ => Some (arena, fail InvalidInput (kind_error (EncodingFloat Gorilla)), es)
      end
  | InlineIntDelta i =>
      match value with
      | SampleInt64 v =>
          inline_push_sample al InlineIntDelta (EncodingInt DeltaZigZag) int_of_bits i base_ms timestamp_ms v
            (int_bits v) block_size arena
      | _ => Some (arena, fail InvalidInput (kind_error (EncodingInt DeltaZigZag)), es)
      end
  | Encoded e s =>
      match to_value e value with
      | Some v =>
          '(arena, r, s) ← push_sample al s base_ms timestamp_ms v block_size arena;
          Some (arena, r, Encoded e s)
      | None => Some (arena, fail InvalidInput (kind_error e), es)
      end
  end.

Definition encoded_seal (al : alloc_seq) (es : EncodedSeries) (arena : BlockArena) : option (BlockArena * EncodedSeries) :=
  match es with
  | Encoded e s => '(arena, s) ← seal_current al s arena; Some (arena, Encoded e s)
  | inline => Some (arena, inline)
  end.

Definition encoded_try_seal (al : alloc_seq) (es : EncodedSeries) (arena : BlockArena)
    : option (BlockArena * io_result unit * EncodedSeries) :=
  match es with
  | Encoded e s => '(arena, r, s) ← seal_by_mode al s arena; Some (arena, r, Encoded e s)
  | inline => Some (arena, Ok tt, inline)
  end.

Inductive SeriesSamples :=
  | SamplesFloat (encoding : FloatEncoding) (samples : list (Z * Z))
  | SamplesInt64 (encoding : IntEncoding) (samples : list (Z * Z))
  | SamplesHistogram (samples : list (Z * HistogramValue))
  | SamplesExponentialHistogram (samples : list (Z * ExponentialHistogramValue))
  | SamplesSummary (samples : list (Z * SummaryValue)).

Definition samples_as (e : SeriesEncoding) : list (Z * value_of e) → SeriesSamples :=
  match e with
  | EncodingFloat e => SamplesFloat e
  | EncodingInt e => SamplesInt64 e
  | EncodingHistogram _ => SamplesHistogram
  | EncodingExponentialHistogram _ => SamplesExponentialHistogram
  | EncodingSummary _ => SamplesSummary
  end.

Definition encoded_into_samples {A} `{ArenaRead A} (al : alloc_seq) (es : EncodedSeries) (arena : A)
    : io_result SeriesSamples :=
  match es with
  | InlineFloatGorilla i => Ok (SamplesFloat Gorilla (inline_all_samples (λ bits, bits) i))
  | InlineIntDelta i => Ok (SamplesInt64 DeltaZigZag (inline_all_samples int_of_bits i))
  | Encoded e s => samples ← into_samples al s arena; Ok (samples_as e samples)
  end.

Definition encoded_samples_in_range {A} `{ArenaRead A} (al : alloc_seq) (es : EncodedSeries) (arena : A)
    (start_ms end_ms : Z) : io_result SeriesSamples :=
  match es with
  | InlineFloatGorilla i => Ok (SamplesFloat Gorilla (inline_range_samples start_ms end_ms (λ bits, bits) i))
  | InlineIntDelta i => Ok (SamplesInt64 DeltaZigZag (inline_range_samples start_ms end_ms int_of_bits i))
  | Encoded e s => samples ← samples_in_range al s arena start_ms end_ms; Ok (samples_as e samples)
  end.

Definition encoded_sample_count (es : EncodedSeries) : Z :=
  match es with
  | InlineFloatGorilla i | InlineIntDelta i => in_len i
  | Encoded e s => se_samples s
  end.
Definition encoded_block_count (es : EncodedSeries) : Z :=
  match es with
  | InlineFloatGorilla i | InlineIntDelta i => (in_len i + in_block_size i - 1) / in_block_size i
  | Encoded e s => block_count s
  end.

(** ** What an encoded series holds *)

(** The encoding, staged or not. *)
Definition encoded_encoding (es : EncodedSeries) : SeriesEncoding :=
  match es with
  | InlineFloatGorilla _ => EncodingFloat Gorilla
  | InlineIntDelta _ => EncodingInt DeltaZigZag
  | Encoded e _ => e
  end.
Lemma encoded_kind_encoding es : encoded_kind es = encoding_kind (encoded_encoding es).
Proof. by destruct es. Qed.

Definition typed (e : SeriesEncoding) (l : list (Z * value_of e)) : list (Z * SampleValue) :=
  (λ s, (s.1, from_value e s.2)) <$> l.
Definition decoded {T} (decode : Z → T) (i : InlineNumericSeries) : list (Z * T) :=
  (λ s, (s.1, decode s.2)) <$> inline_samples i.

Definition inline_wf (i : InlineNumericSeries) : Prop :=
  0 ≤ in_len i ≤ 4 ∧ length (in_timestamps i) = 4%nat ∧ length (in_values i) = 4%nat.

(** The staged samples may all be pushed to a series. *)
Definition pushable_sample (e : SeriesEncoding) (base_ms : Z) (s : Z * value_of e) : Prop :=
  base_ms ≤ s.1 ∧ in_u64 s.1 ∧ bc_value (C := codec_of e) s.2.
Definition inline_rep (e : SeriesEncoding) (decode : Z → value_of e) (base_ms : Z) (i : InlineNumericSeries)
    (l : list (Z * SampleValue)) : Prop :=
  inline_wf i ∧ l = typed e (decoded decode i) ∧ Forall (pushable_sample e base_ms) (decoded decode i).

Definition encoded_rep (base_ms : Z) (arena : BlockArena) (es : EncodedSeries) (l : list (Z * SampleValue)) : Prop :=
  match es with
  | InlineFloatGorilla i => inline_rep (EncodingFloat Gorilla) (λ bits, bits) base_ms i l
  | InlineIntDelta i => inline_rep (EncodingInt DeltaZigZag) int_of_bits base_ms i l
  | Encoded e s => ∃ k, series_rep base_ms arena s k ∧ l = typed e k
  end.
Definition encoded_fits (es : EncodedSeries) : Prop :=
  match es with Encoded e s => series_fits s | _ => True end.

(** A sample of a modelled encoding, within the machine types of its codec and with
    an encoding that fits a vector. *)
Definition storable (e : SeriesEncoding) (v : SampleValue) : Prop :=
  exact_encoding e ∧
  ∀ x, to_value e v = Some x → bc_value (C := codec_of e) x ∧ bc_fits (C := codec_of e) x.

(** A sample its codec has an encoding for: a number, or a typed value of a valid
    shape ("invalid histogram", "invalid summary" and the like are refused). *)
Definition encodable (v : SampleValue) : Prop :=
  match v with
  | SampleFloat _ | SampleInt64 _ => True
  | SampleHistogram h => histogram_ok h
  | SampleExponentialHistogram h => exponential_ok h
  | SampleSummary s => summary_ok s
  end.

Lemma to_value_Some e v x : to_value e v = Some x ↔ v = from_value e x.
Proof. destruct e, v; cbn; naive_solver. Qed.
Lemma to_value_None e v : to_value e v = None ↔ value_kind v ≠ encoding_kind e.
Proof. destruct e, v; cbn; naive_solver. Qed.
Lemma encodable_valid e v x : to_value e v = Some x → exact_encoding e → bc_valid (C := codec_of e) x ↔ encodable v.
Proof.
  intros ->%to_value_Some He. destruct e as [[]|[]|[]|[]|[]]; cbn; try done; destruct He; done.
Qed.
Lemma kind_from_value e x : value_kind (from_value e x) = encoding_kind e.
Proof. by destruct e. Qed.
Lemma typed_app e l k : typed e (l ++ k) = typed e l ++ typed e k.
Proof. apply fmap_app. Qed.

Lemma int_of_int_bits v : in_i64 v → int_of_bits (int_bits v) = v.
Proof.
  unfold int_of_bits, int_bits, as_signed, wrap_u64, in_i64. intros Hv.
  change (2 ^ (64 - 1)) with 9223372036854775808. change (2 ^ 64) with 18446744073709551616.
  destruct (Z.ltb_spec (v `mod` 18446744073709551616) 9223372036854775808); Z.div_mod_to_equations; lia.
Qed.

Lemma inline_push_samples i ts bits :
  inline_wf i → inline_is_full i = false →
  inline_wf (inline_push i ts bits).2 ∧ inline_samples (inline_push i ts bits).2 = inline_samples i ++ [(ts, bits)].
Proof.
  intros (Hn & Ht & Hv) Hfull. unfold inline_is_full in Hfull. apply Z.eqb_neq in Hfull.
  unfold inline_push, INLINE_NUMERIC_SERIES_CAPACITY in *. rewrite (proj2 (Z.leb_gt _ _)) by lia. cbn [snd].
  rewrite Z.min_l by lia. split; [unfold inline_wf; cbn; rewrite !length_insert; split_and!; (done || lia)|].
  unfold inline_samples. cbn [in_len in_timestamps in_values].
  rewrite <- (insert_zip_with pair). replace (Z.to_nat (in_len i + 1)) with (S (Z.to_nat (in_len i))) by lia.
  rewrite (take_S_r _ _ (ts, bits)).
  - by rewrite take_insert_ge by lia.
  - apply list_lookup_insert_eq. rewrite length_zip_with. lia.
Qed.
End encoded.

(** ** Promotion *)

Section promotion.
Context {V C : Type} `{HL : BlockCodecLaws V C} `{!BlockCodecSmall V C} `{!BlockCodecTotal V C}.
Implicit Types (s : Series C) (l samples : list (Z * V)).

(** Few samples fit any buffer. *)
Lemma small_series_fits base arena s l : series_rep base arena s l → zlen l ≤ 5 → series_fits s.
Proof.
  intros (parts & cur & -> & _ & Hc & _) Hl. unfold series_fits. destruct (se_current s) as [b|]; [|done].
  destruct Hc as (Hb & _ & _). rewrite zlen_app in Hl. pose proof (zlen_nonneg (mjoin parts)).
  assert (zlen cur ≤ 5) as Hcur by lia. clear Hl. split.
  - rewrite (rep_timestamps _ _ Hb). pose proof (rep_base _ _ Hb) as Hbase. pose proof (rep_range _ _ Hb) as Hr.
    assert (zlen (mjoin (ts_bytes (bb_base_ms b) <$> cur.*1)) ≤ 10 * zlen cur); [|lia].
    clear -Hr Hbase. induction Hr as [|x cur Hx _ IH]; [done|]. rewrite fmap_cons, join_fmap_cons, zlen_cons, zlen_app.
    assert (zlen (ts_bytes (bb_base_ms b) x.1) ≤ 10); [|lia].
    apply varint_at_most_10. unfold in_u64. lia.
  - pose proof (bc_size _ _ (rep_values _ _ Hb)) as Hs. unfold zlen in *. rewrite length_fmap in Hs. lia.
Qed.

Definition keeps_room_n (k : Z) (a b : BlockArena) : Prop :=
  ∀ n, ar_adaptive a = false → arena_roomy (n + k) a → arena_roomy n b.

Lemma push_samples_rep base size samples : ∀ al s l arena,
  in_u64 base → 1 ≤ size ≤ u32_max → arena_wf arena → series_rep base arena s l →
  zlen l + zlen samples ≤ 5 → Forall (λ x, base ≤ x.1 ∧ in_u64 x.1 ∧ bc_value x.2) samples →
  match push_samples al s base samples size arena with
  | Some (arena', r, s') =>
      arena_wf arena' ∧ arena_keeps arena arena' ∧ keeps_room_n (2 * zlen samples) arena arena' ∧
      match r with
      | Ok _ => series_rep base arena' s' (l ++ samples)
      | Err e => ar_adaptive arena = true
      end
  | None => ¬ (grants_all al ∧ arena_roomy (2 * zlen samples) arena) ∧ ar_adaptive arena = false
  end.
Proof.
  induction samples as [|[ts v] samples IH]; intros al s l arena Hb Hsize Ha Hrep Hlen Hall; cbn [push_samples].
  { rewrite app_nil_r. split_and!; try done. intros n _. by rewrite Z.add_0_r. }
  rewrite zlen_cons in *. pose proof (zlen_nonneg samples). apply Forall_cons_1 in Hall as [(Hge & Hts & Hv) Hall]. cbn [fst snd] in *.
  pose proof (series_push_rep al base s l ts v size arena Ha Hrep (small_series_fits _ _ _ _ Hrep ltac:(lia))
    Hb Hts Hv Hsize) as Hp.
  destruct (push_sample al s base ts v size arena) as [[[a1 r1] s1]|]; cbn [mbind option_bind].
  - destruct Hp as (Ha1 & Hk1 & Hr1 & Hout). destruct r1 as [[]|e].
    + destruct Hout as [_ Hrep1]. specialize (IH (λ n, al (4 + n)%nat) s1 (l ++ [(ts, v)]) a1 Hb Hsize Ha1 Hrep1).
      rewrite zlen_app, zlen_cons, zlen_nil in IH. specialize (IH ltac:(lia) Hall).
      destruct (push_samples _ s1 _ _ _ _) as [[[a2 r2] s2]|].
      * destruct IH as (Ha2 & Hk2 & Hr2 & Hout). split_and!; [done|by transitivity a1| |].
        -- intros n Had Hroom. apply Hr2; [by rewrite <- (proj1 Hk1)|]. apply Hr1; [done|].
           eapply roomy_le; [|exact Hroom]. lia.
        -- rewrite <- (app_assoc l) in Hout. destruct r2; [done|]. by rewrite (proj1 Hk1).
      * destruct IH as [Hno Had]. rewrite <- (proj1 Hk1) in Had. split; [|done]. intros [Hg Hroom].
        apply Hno. split; [intros n; apply Hg|]. apply Hr1; [done|]. eapply roomy_le; [|exact Hroom]. lia.
    + split_and!; [done|done| |].
      * intros n Had Hroom. apply Hr1; [done|]. eapply roomy_le; [|exact Hroom]. lia.
      * destruct Hout as [_ [Hlt|[Had|Href]]]; [lia|done|]. by destruct (bc_never_refuses (al 3%nat) v e Hv).
  - destruct Hp as [Hno Had]. split; [|done]. intros [Hg Hroom]. apply Hno. split; [done|].
    eapply roomy_le; [|exact Hroom]. lia.
Qed.
End promotion.

(** ** Pushing *)

Section pushing.
Context `{HO : OtherFloatCodecs}.

Lemma inline_push_rep al inline e decode base i l ts v bits size arena :
  BlockCodecSmall (value_of e) (codec_of e) → BlockCodecTotal (value_of e) (codec_of e) →
  decode bits = v → in_u64 base → in_u64 ts → bc_value (C := codec_of e) v → 1 ≤ size ≤ u32_max →
  arena_wf arena → inline_rep e decode base i l →
  match inline_push_sample al inline e decode i base ts v bits size arena with
  | Some (arena', r, es') =>
      arena_wf arena' ∧ arena_keeps arena arena' ∧ keeps_room_n 10 arena arena' ∧
      match r with
      | Ok _ => base ≤ ts ∧ ((∃ i', es' = inline i' ∧ inline_rep e decode base i' (l ++ [(ts, from_value e v)])) ∨
                  ∃ s, es' = Encoded e s ∧ encoded_rep base arena' es' (l ++ [(ts, from_value e v)]))
      | Err _ => es' = inline i ∧ (ts < base ∨ ar_adaptive arena = true)
      end
  | None => ¬ (grants_all al ∧ arena_roomy 10 arena) ∧ ar_adaptive arena = false
  end.
Proof.
  intros Hsmall Htotal Hdec Hb Hts Hv Hsize Ha (Hwf & -> & Hall). unfold inline_push_sample.
  assert (keeps_room_n 10 arena arena) as Hroom0 by (intros n _; apply roomy_le; lia).
  destruct (Z.ltb_spec ts base) as [Hlt|Hge]; [cbn; split_and!; by auto|].
  assert (pushable_sample e base (ts, v)) as Hps by done.
  destruct (inline_is_full i) eqn:Hfull; cbn [negb].
  - set (samples := ((λ s, (s.1, decode s.2)) <$> inline_samples i) ++ [(ts, v)]).
    assert (zlen samples = 5) as Hn.
    { unfold samples, inline_samples, zlen. unfold inline_is_full in Hfull. apply Z.eqb_eq in Hfull.
      unfold INLINE_NUMERIC_SERIES_CAPACITY in Hfull. destruct Hwf as (_ & H1 & H2).
      rewrite length_app, length_fmap, length_take, length_zip_with, H1, H2, Hfull. done. }
    pose proof (push_samples_rep (C := codec_of e) base size samples al series_new [] arena Hb Hsize Ha
      (series_rep_new base arena)) as Hp. rewrite Hn in Hp. specialize (Hp ltac:(done)).
    assert (Forall (λ x, base ≤ x.1 ∧ in_u64 x.1 ∧ bc_value (C := codec_of e) x.2) samples) as Hok by by apply Forall_snoc.
    specialize (Hp Hok). destruct (push_samples _ _ _ _ _ _) as [[[a1 r1] s1]|]; cbn [mbind option_bind]; [|done].
    destruct Hp as (Ha1 & Hk1 & Hr1 & Hout). split_and!; [done|done|done|]. destruct r1 as [[]|]; [|by auto].
    split; [done|]. right. exists s1. split; [done|]. exists samples. split; [done|].
    unfold samples. by rewrite typed_app.
  - destruct (inline_push_samples i ts bits Hwf Hfull) as [Hwf' Hsam]. split_and!; [done|done|done|done|].
    left. eexists. split; [done|]. unfold inline_rep, decoded. rewrite Hsam, fmap_app. cbn. rewrite Hdec, typed_app.
    split_and!; [done|done|]. by apply Forall_snoc.
Qed.

Lemma encoded_push_rep al base es l ts v size arena :
  arena_wf arena → encoded_rep base arena es l → encoded_fits es → in_u64 base → in_u64 ts →
  storable (encoded_encoding es) v → 1 ≤ size ≤ u32_max →
  match encoded_push_sample al es base ts v size arena with
  | Some (arena', r, es') =>
      arena_wf arena' ∧ arena_keeps arena arena' ∧ keeps_room_n 10 arena arena' ∧
      encoded_encoding es' = encoded_encoding es ∧
      match r with
      | Ok _ => base ≤ ts ∧ value_kind v = encoded_kind es ∧ encoded_rep base arena' es' (l ++ [(ts, v)])
      | Err e =>
          encoded_rep base arena' es' l ∧
          (ts < base ∨ value_kind v ≠ encoded_kind es ∨ ar_adaptive arena = true ∨
           ∃ x, to_value (encoded_encoding es) v = Some x ∧ refused (C := codec_of (encoded_encoding es)) (al 3%nat) x e)
      end
  | None => ¬ (grants_all al ∧ arena_roomy 10 arena) ∧ ar_adaptive arena = false
  end.
Proof.
  intros Ha Hrep Hfit Hb Hts Hv Hsize.
  assert (keeps_room_n 10 arena arena) as Hroom0 by (intros n _; apply roomy_le; lia).
  destruct es as [i|i|e s]; cbn [encoded_push_sample].
  - destruct v as [x|x|x|x|x]; try (cbn; split_and!; try done; right; left; done). destruct (proj2 Hv x eq_refl) as [Hx _].
    pose proof (inline_push_rep al InlineFloatGorilla (EncodingFloat Gorilla) (λ bits, bits) base i l ts x x size arena
      gorilla_small gorilla_total eq_refl Hb Hts Hx Hsize Ha Hrep) as Hp.
    destruct (inline_push_sample _ _ _ _ _ _ _ _ _ _ _) as [[[a1 r1] es1]|]; [|done].
    destruct Hp as (Ha1 & Hk1 & Hr1 & Hout). destruct r1 as [[]|].
    + destruct Hout as [Hge [(i' & -> & Hi)|(s & -> & Hs)]]; by split_and!.
    + destruct Hout as [-> Hor]. split_and!; try done. destruct Hor; by auto.
  - destruct v as [x|x|x|x|x]; try (cbn; split_and!; try done; right; left; done). destruct (proj2 Hv x eq_refl) as [Hx _].
    pose proof (inline_push_rep al InlineIntDelta (EncodingInt DeltaZigZag) int_of_bits base i l ts x (int_bits x) size
      arena int_delta_small int_delta_total (int_of_int_bits x Hx) Hb Hts Hx Hsize Ha Hrep) as Hp.
    destruct (inline_push_sample _ _ _ _ _ _ _ _ _ _ _) as [[[a1 r1] es1]|]; [|done].
    destruct Hp as (Ha1 & Hk1 & Hr1 & Hout). destruct r1 as [[]|].
    + destruct Hout as [Hge [(i' & -> & Hi)|(s & -> & Hs)]]; by split_and!.
    + destruct Hout as [-> Hor]. split_and!; try done. destruct Hor; by auto.
  - destruct Hrep as (k & Hk & ->). destruct (to_value e v) as [x|] eqn:Hx.
    + pose proof (series_push_rep al base s k ts x size arena Ha Hk Hfit Hb Hts (proj1 (proj2 Hv x Hx)) Hsize) as Hp.
      destruct (push_sample al s base ts x size arena) as [[[a1 r1] s1]|]; cbn [mbind option_bind].
      * destruct Hp as (Ha1 & Hk1 & Hr1 & Hout). apply to_value_Some in Hx as ->. split_and!; try done.
        { intros n Had Hroom. apply Hr1; [done|]. eapply roomy_le; [|exact Hroom]. lia. }
        destruct r1 as [[]|err].
        -- destruct Hout as [Hge Hs]. split_and!; [done|apply kind_from_value|]. exists (k ++ [(ts, x)]).
           by rewrite typed_app.
        -- destruct Hout as [Hs Hor]. split; [by exists k|]. destruct Hor as [?|[?|?]]; [by auto|by auto|].
           do 3 right. exists x. split; [|done]. by apply to_value_Some.
      * destruct Hp as [Hno Had]. split; [|done]. intros [Hg Hroom]. apply Hno. split; [done|].
        eapply roomy_le; [|exact Hroom]. lia.
    + apply to_value_None in Hx. cbn. split_and!; try done; [by exists k|by auto].
Qed.
End pushing.

(** *** What is held, and what is refused *)

Section encodable.
Context `{HO : OtherFloatCodecs}.

Lemma encoded_rep_encodable base arena es l :
  exact_encoding (encoded_encoding es) → encoded_rep base arena es l → Forall (λ x, encodable x.2) l.
Proof.
  intros He Hrep. apply Forall_forall. intros x Hx. destruct es as [i|i|e s]; cbn in *.
  - destruct Hrep as (_ & -> & _). by apply list_elem_of_fmap in Hx as (y & -> & _).
  - destruct Hrep as (_ & -> & _). by apply list_elem_of_fmap in Hx as (y & -> & _).
  - destruct Hrep as (k & Hk & ->). apply list_elem_of_fmap in Hx as (y & -> & Hy). cbn [snd].
    apply series_rep_valid in Hk. rewrite Forall_fmap, Forall_forall in Hk. specialize (Hk y Hy).
    apply (encodable_valid e (from_value e y.2) y.2); [by apply to_value_Some|done|done].
Qed.

Lemma refused_not_encodable e v x al err :
  storable e v → to_value e v = Some x → grants al → refused (C := codec_of e) al x err → ¬ encodable v.
Proof.
  intros [He Hv] Hx Hal Hr Hok. destruct (Hv x Hx) as [Hval Hfit].
  apply (bc_refuses al x err Hval Hfit Hal Hr). by apply (encodable_valid e v x).
Qed.
End encodable.

(** ** Sealing and reading *)

Section reading.
Context `{HO : OtherFloatCodecs}.

Definition encoded_sealed (es : EncodedSeries) : Prop :=
  match es with Encoded e s => se_current s = None | _ => True end.

Lemma encoded_rep_keeps base a b es l : arena_keeps a b → encoded_rep base a es l → encoded_rep base b es l.
Proof.
  intros Hk. destruct es as [i|i|e s]; [done|done|]. intros (k & Hs & ->). exists k. split; [|done].
  by eapply series_rep_keeps.
Qed.

Lemma encoded_rep_new base arena e compact size : encoded_rep base arena (encoded_new e compact size) [].
Proof.
  assert (inline_wf (inline_new size)) by (unfold inline_wf; cbn; lia).
  destruct e as [[]|[]|[]|[]|[]], compact; cbn; try (exists []; split; [apply series_rep_new|done]);
    split_and!; (done || constructor).
Qed.
Lemma encoded_encoding_new e compact size : encoded_encoding (encoded_new e compact size) = e.
Proof. by destruct e as [[]|[]|[]|[]|[]], compact. Qed.

Lemma encoded_seal_rep al base es l arena :
  arena_wf arena → encoded_rep base arena es l → encoded_fits es →
  match encoded_seal al es arena with
  | Some (arena', es') =>
      arena_wf arena' ∧ arena_keeps arena arena' ∧ (∀ n, arena_roomy (n + 2) arena → arena_roomy n arena') ∧
      encoded_encoding es' = encoded_encoding es ∧ encoded_rep base arena' es' l ∧ encoded_sealed es'
  | None => ¬ (grants_all al ∧ arena_roomy 2 arena)
  end.
Proof.
  intros Ha Hrep Hfit. assert (∀ n, arena_roomy (n + 2) arena → arena_roomy n arena) by (intros n; apply roomy_le; lia).
  destruct es as [i|i|e s]; cbn [encoded_seal]; [by split_and!..|].
  destruct Hrep as (k & Hk & ->). pose proof (seal_current_rep al base s k arena Ha Hk Hfit) as Hs.
  destruct (seal_current al s arena) as [[a' s']|]; cbn [mbind option_bind]; [|done].
  destruct Hs as (Ha' & Hkeep & Hr & Hrep' & Hcur). split_and!; try done. by exists k.
Qed.

Lemma filter_typed e start_ms end_ms k :
  filter (in_range start_ms end_ms) (typed e k) = typed e (filter (in_range start_ms end_ms) k).
Proof. by apply filter_fmap. Qed.
Lemma sort_typed e k : sort_by_key fst (typed e k) = typed e (sort_by_key fst k).
Proof. by apply sort_fmap. Qed.

Definition samples_list (ss : SeriesSamples) : list (Z * SampleValue) :=
  match ss with
  | SamplesFloat e l => typed (EncodingFloat e) l
  | SamplesInt64 e l => typed (EncodingInt e) l
  | SamplesHistogram l => typed (EncodingHistogram RawVarLen) l
  | SamplesExponentialHistogram l => typed (EncodingExponentialHistogram RawVarLen) l
  | SamplesSummary l => typed (EncodingSummary RawVarLen) l
  end.
Lemma samples_list_as e k : samples_list (samples_as e k) = typed e k.
Proof. by destruct e. Qed.

Lemma encoded_into_samples_rep {A} `{ArenaRead A} al base arena (a : A) es l :
  encoded_rep base arena es l → encoded_sealed es → reads_as arena a → grants_all al →
  ∃ k, l = typed (encoded_encoding es) k ∧
    encoded_into_samples al es a = Ok (samples_as (encoded_encoding es) (sort_by_key fst k)).
Proof.
  intros Hrep Hs Ha Hal. destruct es as [i|i|e s]; cbn in *.
  - destruct Hrep as (_ & -> & _). by eexists.
  - destruct Hrep as (_ & -> & _). by eexists.
  - destruct Hrep as (k & Hk & ->). exists k. split; [done|].
    by rewrite (into_samples_rep al base arena a s k).
Qed.

Lemma encoded_range_rep {A} `{ArenaRead A} al base arena (a : A) es l start_ms end_ms :
  encoded_rep base arena es l → encoded_fits es → reads_as arena a → grants_all al →
  ∃ k, l = typed (encoded_encoding es) k ∧
    encoded_samples_in_range al es a start_ms end_ms =
      Ok (samples_as (encoded_encoding es) (sort_by_key fst (filter (in_range start_ms end_ms) k))).
Proof.
  intros Hrep Hs Ha Hal.
  assert (∀ T (decode : Z → T) i, (λ s, (s.1, decode s.2)) <$> filter (in_range start_ms end_ms) (inline_samples i) =
    filter (in_range start_ms end_ms) (decoded decode i)) as Hfilter.
  { intros T decode i. symmetry. by apply filter_fmap. }
  destruct es as [i|i|e s]; cbn in *.
  - destruct Hrep as (_ & -> & _). eexists. split; [done|]. cbn. do 2 f_equal. unfold inline_range_samples. f_equal. apply (Hfilter _ (λ bits, bits)).
  - destruct Hrep as (_ & -> & _). eexists. split; [done|]. cbn. do 2 f_equal. unfold inline_range_samples. f_equal. apply (Hfilter _ int_of_bits).
  - destruct Hrep as (k & Hk & ->). exists k. split; [done|].
    by rewrite (samples_in_range_rep al base arena a s k).
Qed.
End reading.
