(* ===== verification/HeadWindow.v ===== *)
(** * Head windows

    [HeadWindow] of [chronoxide-core/src/storage/head/window.rs] and
    [push_sample_to_window] of [buffer.rs]: the series of one time range and one
    lane, sharing an arena; their last-write-wins decode at sealing and the merge
    of the in-order window with the out-of-order one of its range.  The series
    table is a finite map, whose iteration order is unspecified ([TableOrder]).
    The ledger of the live-coverage mode is not part of the state. *)
From Stdlib Require Import Sorted.
From S2P Require Import Prelude Text Float64 Cursor TypedSamples Gorilla Arena BlockCodec Block Sort Series EncodedSeries.

(** [std::time::Duration]. *)
Record Duration := mk_duration { du_secs : Z; du_nanos : Z }.
Definition as_millis (d : Duration) : Z := du_secs d * 1000 + du_nanos d / 1000000.

Record HeadConfig := mk_head_config {
  hc_window_duration : Duration;
  hc_block_size : Z;
  hc_float_encoding : FloatEncoding;
  hc_int_encoding : IntEncoding;
  hc_varlen_encoding : VarLenEncodingKind;
  hc_out_of_order_time_window : Duration;
  hc_compact_numeric_series : bool;
}.

Definition DEFAULT_HEAD_ARENA_PAGE_BYTES : Z := 4 * 1024 * 1024.

(** Iterating a hash map visits every entry once, in some order. *)
Class TableOrder := {
  entries {V} : gmap Z V → list (Z * V);
  entries_perm V (m : gmap Z V) : entries m ≡ₚ map_to_list m;
}.

(** The [Debug] names. *)
Definition float_encoding_name (e : FloatEncoding) : string :=
  match e with
  | RawFloat => "Raw" | Gorilla => "Gorilla" | Elf => "Elf" | Alp => "Alp" | AlpRd => "AlpRd"
  | AlpSpiral => "AlpSpiral" | AlpRdSpiral => "AlpRdSpiral" | Chimp128DuckDB => "Chimp128DuckDB"
  | Chimp128Baseline => "Chimp128Baseline"
  end.
Definition int_encoding_name (e : IntEncoding) : string :=
  match e with RawInt => "Raw" | DeltaZigZag => "DeltaZigZag" end.

(** ** Rows *)

Section rows.
Context {T : Type}.
Implicit Types l : list (Z * T).

(** [samples.windows(2).all(..)] for a comparison of timestamps. *)
Fixpoint pairs_all (cmp : Z → Z → bool) l : bool :=
  match l with
  | x :: (y :: _) as l => cmp x.1 y.1 && pairs_all cmp l
  | _ => true
  end.

Definition sort_and_dedupe_last l : list (Z * T) :=
  if (zlen l <? 2) || pairs_all Z.ltb l then l
  else
    let l := if negb (pairs_all Z.leb l) then sort_by_key fst l else l in
    reverse (dedup_by_key fst (reverse l)).

Definition first_outside (start_ms end_ms : Z) l : option Z :=
  fst <$> head (filter (λ s, s.1 < start_ms ∨ end_ms ≤ s.1) l).

Definition out_of_window (series timestamp_ms start_ms end_ms : Z) : string :=
  "head series " +:+ decimal_text series +:+ " timestamp " +:+ decimal_text timestamp_ms +:+
  " falls outside window [" +:+ decimal_text start_ms +:+ ", " +:+ decimal_text end_ms +:+ ")".
End rows.

Definition sort_and_dedupe_series_samples (ss : SeriesSamples) : SeriesSamples :=
  match ss with
  | SamplesFloat e l => SamplesFloat e (sort_and_dedupe_last l)
  | SamplesInt64 e l => SamplesInt64 e (sort_and_dedupe_last l)
  | SamplesHistogram l => SamplesHistogram (sort_and_dedupe_last l)
  | SamplesExponentialHistogram l => SamplesExponentialHistogram (sort_and_dedupe_last l)
  | SamplesSummary l => SamplesSummary (sort_and_dedupe_last l)
  end.

Definition validate_series_samples_range (series : Z) (ss : SeriesSamples) (start_ms end_ms : Z) : io_result unit :=
  let invalid := match ss with
    | SamplesFloat _ l | SamplesInt64 _ l => first_outside start_ms end_ms l
    | SamplesHistogram l => first_outside start_ms end_ms l
    | SamplesExponentialHistogram l => first_outside start_ms end_ms l
    | SamplesSummary l => first_outside start_ms end_ms l
    end in
  match invalid with
  | Some timestamp_ms => fail InvalidData (out_of_window series timestamp_ms start_ms end_ms)
  | None => Ok tt
  end.

Definition as_floats (l : list (Z * Z)) : list (Z * Z) := (λ s, (s.1, f64_of_i64 s.2)) <$> l.

(** The new earlier row, and the later one when it stays a row of its own. *)
Definition merge_series_samples (al : allocator) (earlier later : SeriesSamples) (series : Z)
    : io_result (SeriesSamples * option SeriesSamples) :=
  let done ss := Ok (sort_and_dedupe_series_samples ss, None) in
  let mismatch kind a b := fail InvalidInput ("head series " +:+ decimal_text series +:+ " " +:+ kind +:+
    " encoding mismatch while merging " +:+ a +:+ " with " +:+ b) in
  match earlier, later with
  | SamplesFloat e l, SamplesFloat e' l' =>
      if decide (e = e') then done (SamplesFloat e (l ++ l'))
      else mismatch "float" (float_encoding_name e) (float_encoding_name e')
  | SamplesInt64 e l, SamplesInt64 e' l' =>
      if decide (e = e') then done (SamplesInt64 e (l ++ l'))
      else mismatch "int64" (int_encoding_name e) (int_encoding_name e')
  | SamplesFloat e l, SamplesInt64 _ l' => done (SamplesFloat e (l ++ as_floats l'))
  | SamplesInt64 _ l, SamplesFloat e l' =>
      _ ← try_reserve al "merged head samples" "" (saturating_add_u64 (zlen l) (zlen l'));
      done (SamplesFloat e (as_floats l ++ l'))
  | SamplesHistogram l, SamplesHistogram l' => done (SamplesHistogram (l ++ l'))
  | SamplesExponentialHistogram l, SamplesExponentialHistogram l' => done (SamplesExponentialHistogram (l ++ l'))
  | SamplesSummary l, SamplesSummary l' => done (SamplesSummary (l ++ l'))
  | _, _ => Ok (earlier, Some later)
  end.

Definition samples_empty (ss : SeriesSamples) : bool :=
  match ss with
  | SamplesFloat _ [] | SamplesInt64 _ [] | SamplesHistogram [] | SamplesExponentialHistogram [] | SamplesSummary [] => true
  | _ => false
  end.

Record SealedHeadWindowSamples := mk_sealed_samples {
  sw_series_samples : list (Z * SeriesSamples);
  sw_unique_series_count : Z;
}.

(** ** The window *)

Section window.
Context `{HO : OtherFloatCodecs} `{HT : TableOrder}.

Record HeadWindow := mk_window {
  hw_start_ms : Z;
  hw_end_ms : Z;
  hw_series : gmap Z EncodedSeries;
  hw_datapoints : Z;
  hw_arena : BlockArena;
  hw_out_of_order : bool;
}.
Implicit Types (w : HeadWindow) (c : HeadConfig).

Definition window_new (start_ms end_ms : Z) (out_of_order : bool) : HeadWindow :=
  mk_window start_ms end_ms ∅ 0 (arena_new DEFAULT_HEAD_ARENA_PAGE_BYTES) out_of_order.

Definition with_series w (series : gmap Z EncodedSeries) (arena : BlockArena) : HeadWindow :=
  mk_window (hw_start_ms w) (hw_end_ms w) series (hw_datapoints w) arena (hw_out_of_order w).
Definition with_datapoints w (n : Z) : HeadWindow :=
  mk_window (hw_start_ms w) (hw_end_ms w) (hw_series w) n (hw_arena w) (hw_out_of_order w).

Definition encoding_for c (kind : SampleKind) : SeriesEncoding :=
  match kind with
  | KindFloat => EncodingFloat (hc_float_encoding c)
  | KindInt64 => EncodingInt (hc_int_encoding c)
  | KindHistogram => EncodingHistogram (hc_varlen_encoding c)
  | KindExponentialHistogram => EncodingExponentialHistogram (hc_varlen_encoding c)
  | KindSummary => EncodingSummary (hc_varlen_encoding c)
  end.

Definition push_sample_to_window (al : alloc_seq) c w (series timestamp_ms : Z) (value : SampleValue)
    : option (HeadWindow * io_result bool) :=
  let accept w := Some (with_datapoints w (saturating_add_u64 (hw_datapoints w) 1), Ok true) in
  match hw_series w !! series with
  | Some encoded =>
      if negb (bool_decide (encoded_kind encoded = value_kind value)) then Some (w, Ok false)
      else
        '(arena, r, encoded) ← encoded_push_sample al encoded (hw_start_ms w) timestamp_ms value (hc_block_size c)
                                 (hw_arena w);
        let w := with_series w (<[series := encoded]> (hw_series w)) arena in
        match r with Ok _ => accept w | Err e => Some (w, Err e) end
  | None =>
      let encoded := encoded_new (encoding_for c (value_kind value)) (hc_compact_numeric_series c) (hc_block_size c) in
      '(arena, r, encoded) ← encoded_push_sample al encoded (hw_start_ms w) timestamp_ms value (hc_block_size c)
                               (hw_arena w);
      match r with
      | Ok _ => accept (with_series w (<[series := encoded]> (hw_series w)) arena)
      | Err e => Some (with_series w (hw_series w) arena, Err e)
      end
  end.

(** [for encoded in self.series.values_mut()]; a seal takes two answers of the
    allocator. *)
Fixpoint seal_entries (al : alloc_seq) (es : list (Z * EncodedSeries)) (arena : BlockArena)
    : option (BlockArena * list (Z * EncodedSeries)) :=
  match es with
  | [] => Some (arena, [])
  | (series, encoded) :: es =>
      '(arena, encoded) ← encoded_seal al encoded arena;
      '(arena, es) ← seal_entries (λ n, al (2 + n)%nat) es arena;
      Some (arena, (series, encoded) :: es)
  end.
Definition seal_all_series (al : alloc_seq) w : option HeadWindow :=
  '(arena, es) ← seal_entries al (entries (hw_series w)) (hw_arena w);
  Some (with_series w (list_to_map es) arena).

Fixpoint decode_entries (al : nat → alloc_seq) (es : list (Z * EncodedSeries)) (arena : BlockArena)
    : io_result (list (Z * SeriesSamples)) :=
  match es with
  | [] => Ok []
  | (series, encoded) :: es =>
      samples ← encoded_into_samples (al 0%nat) encoded arena;
      decoded ← decode_entries (λ n, al (S n)) es arena;
      Ok ((series, samples) :: decoded)
  end.

Definition window_into_series_samples (al : alloc_seq) (al' : nat → alloc_seq) w
    : option (io_result (list (Z * SeriesSamples))) :=
  w ← seal_all_series al w;
  Some (decode_entries al' (entries (hw_series w)) (hw_arena w)).

Fixpoint dedupe_rows (start_ms end_ms : Z) (rows : list (Z * SeriesSamples)) : io_result (list (Z * SeriesSamples)) :=
  match rows with
  | [] => Ok []
  | (series, samples) :: rows =>
      _ ← validate_series_samples_range series samples start_ms end_ms;
      rows ← dedupe_rows start_ms end_ms rows;
      Ok ((series, sort_and_dedupe_series_samples samples) :: rows)
  end.
Definition into_deduped_series_samples (al : alloc_seq) (al' : nat → alloc_seq) w
    : option (io_result (list (Z * SeriesSamples))) :=
  decoded ← window_into_series_samples al al' w;
  Some (decoded ← decoded; dedupe_rows (hw_start_ms w) (hw_end_ms w) decoded).

(** [later_by_series]: the later rows by series, refused when two have one. *)
Fixpoint rows_by_series (rows : list (Z * SeriesSamples)) (m : gmap Z SeriesSamples) : io_result (gmap Z SeriesSamples) :=
  match rows with
  | [] => Ok m
  | (series, samples) :: rows =>
      match m !! series with
      | Some _ => fail InvalidData ("OOO head window contains duplicate series " +:+ decimal_text series)
      | None => rows_by_series rows (<[series := samples]> m)
      end
  end.

(** The loop over the earlier rows: the merged rows, the additional ones and the
    later rows left over. *)
Fixpoint merge_rows (al : alloc_seq) (earlier : list (Z * SeriesSamples)) (later : gmap Z SeriesSamples)
    : io_result (list (Z * SeriesSamples) * list (Z * SeriesSamples) * gmap Z SeriesSamples) :=
  match earlier with
  | [] => Ok ([], [], later)
  | (series, samples) :: earlier =>
      '(samples, more) ← match later !! series with
                         | Some later_samples => merge_series_samples (al 0%nat) samples later_samples series
                         | None => Ok (samples, None)
                         end;
      '(rows, additional, later) ← merge_rows (λ n, al (S n)) earlier (delete series later);
      Ok ((series, samples) :: rows,
          match more with Some ss => (series, ss) :: additional | None => additional end, later)
  end.

Definition into_series_samples_with_ooo (al1 al2 al3 : alloc_seq) (al1' al2' : nat → alloc_seq) w (ooo : option HeadWindow)
    : option (io_result SealedHeadWindowSamples) :=
  if hw_out_of_order w then Some (fail InvalidInput "in-order head window expected as merge receiver")
  else match ooo with
  | None =>
      rows ← into_deduped_series_samples al1 al1' w;
      Some (rows ← rows; Ok (mk_sealed_samples rows (zlen rows)))
  | Some ooo =>
      if negb (hw_out_of_order ooo) then
        Some (fail InvalidInput "out-of-order head window expected as merge argument")
      else if negb ((hw_start_ms w =? hw_start_ms ooo) && (hw_end_ms w =? hw_end_ms ooo)) then
        Some (fail InvalidInput ("cannot merge head windows with different ranges: [" +:+
          decimal_text (hw_start_ms w) +:+ ", " +:+ decimal_text (hw_end_ms w) +:+ ") and [" +:+
          decimal_text (hw_start_ms ooo) +:+ ", " +:+ decimal_text (hw_end_ms ooo) +:+ ")"))
      else
        earlier ← into_deduped_series_samples al1 al1' w;
        match earlier with
        | Err e => Some (Err e)
        | Ok earlier =>
            later ← into_deduped_series_samples al2 al2' ooo;
            Some (later ← later;
                  _ ← try_reserve (al3 0%nat) "later head series" "" (zlen later);
                  later ← rows_by_series later ∅;
                  '(rows, additional, later) ← merge_rows (λ n, al3 (2 + n)%nat) earlier later;
                  _ ← try_reserve (al3 1%nat) "merged head rows" ""
                        (saturating_add_u64 (zlen (entries later)) (zlen additional));
                  let rows := rows ++ entries later in
                  Ok (mk_sealed_samples (rows ++ additional) (zlen rows)))
        end
  end.

Fixpoint range_rows (al : nat → alloc_seq) (es : list (Z * EncodedSeries)) (arena : BlockArena) (start_ms end_ms : Z)
    : io_result (list (Z * SeriesSamples)) :=
  match es with
  | [] => Ok []
  | (series, encoded) :: es =>
      samples ← encoded_samples_in_range (al 0%nat) encoded arena start_ms end_ms;
      decoded ← range_rows (λ n, al (S n)) es arena start_ms end_ms;
      Ok (if samples_empty samples then decoded else (series, samples) :: decoded)
  end.
Definition series_samples_in_range (al : nat → alloc_seq) w (start_ms end_ms : Z) : io_result (list (Z * SeriesSamples)) :=
  if end_ms <=? start_ms then Ok [] else range_rows al (entries (hw_series w)) (hw_arena w) start_ms end_ms.
End window.

(** ** Last write wins *)

Section last_writes.
Context {T : Type}.
Implicit Types l r k : list (Z * T).

(** One sample a timestamp, ascending, the last to arrive. *)
Definition last_writes l r : Prop := ascending fst r ∧ ∀ n, last (at_key fst n r) = last (at_key fst n l).

Lemma last_writes_unique l r k : last_writes l r → last_writes l k → r = k.
Proof. intros [Hr Hl] [Hk Hl']. apply (ascending_eq fst); [done|done|]. intros m. by rewrite Hl, Hl'. Qed.
Lemma last_writes_ext l k r : (∀ n, last (at_key fst n l) = last (at_key fst n k)) → last_writes l r → last_writes k r.
Proof. intros He [Hr Hl]. split; [done|]. intros m. by rewrite Hl, He. Qed.
Lemma last_writes_elem l r x : last_writes l r → x ∈ r → x ∈ l.
Proof.
  intros [Hr Hl] Hx. assert (at_key fst x.1 r = [x]) as Hat.
  { destruct (ascending_at fst r x.1 Hr) as [He|[y He]].
    - assert (x ∈ at_key fst x.1 r) as Hin by by apply list_elem_of_filter. by rewrite He in Hin; apply elem_of_nil in Hin.
    - assert (x ∈ at_key fst x.1 r) as Hin by by apply list_elem_of_filter.
      rewrite He in Hin. by apply list_elem_of_singleton in Hin as ->. }
  specialize (Hl x.1). rewrite Hat in Hl. symmetry in Hl. cbn in Hl.
  apply last_Some_elem_of in Hl. by apply list_elem_of_filter in Hl as [_ Hl].
Qed.

Lemma pairs_all_sorted cmp (R : Z * T → Z * T → Prop) l :
  Transitive R → (∀ x y, cmp x.1 y.1 = true → R x y) → pairs_all cmp l = true → StronglySorted R l.
Proof.
  intros HR Hc Hall. apply Sorted_StronglySorted; [intros x y z; apply HR|].
  induction l as [|x [|y l] IH]; [constructor|repeat constructor|]. cbn in Hall. apply andb_true_iff in Hall as [Hxy Hall].
  constructor; [by apply IH|]. constructor. by apply Hc.
Qed.

Lemma last_writes_sorted l : sorted fst l → last_writes l (reverse (dedup_by_key fst (reverse l))).
Proof. intros Hl. exact (dedup_last_spec fst l Hl). Qed.
Lemma last_writes_sort l r : last_writes (sort_by_key fst l) r → last_writes l r.
Proof. apply last_writes_ext. intros m. by rewrite sort_stable. Qed.

Lemma sort_and_dedupe_last_writes l : last_writes l (sort_and_dedupe_last l).
Proof.
  unfold sort_and_dedupe_last. destruct (Z.ltb_spec (zlen l) 2) as [Hlen|]; cbn [orb].
  { split; [|done]. destruct l as [|x [|y l]]; [constructor|repeat constructor|].
    rewrite !zlen_cons in Hlen. pose proof (zlen_nonneg l). lia. }
  destruct (pairs_all Z.ltb l) eqn:Hlt.
  { split; [|done]. apply (pairs_all_sorted Z.ltb); [intros x y z; unfold key_lt; lia| |done].
    intros x y Hxy. unfold key_lt. lia. }
  destruct (pairs_all Z.leb l) eqn:Hle; cbn [negb].
  - apply last_writes_sorted. apply (pairs_all_sorted Z.leb); [intros x y z; unfold key_le; lia| |done].
    intros x y Hxy. unfold key_le. lia.
  - apply last_writes_sort, last_writes_sorted, sort_sorted.
Qed.
End last_writes.

Lemma last_writes_fmap {A B} (f : A → B) (l r : list (Z * A)) :
  last_writes l r → last_writes ((λ s, (s.1, f s.2)) <$> l) ((λ s, (s.1, f s.2)) <$> r).
Proof.
  intros [Hr Hl]. split.
  - clear Hl. induction Hr as [|x r Hr IH Hx]; [constructor|]. rewrite fmap_cons. constructor; [done|].
    rewrite Forall_fmap. eapply Forall_impl; [exact Hx|]. by intros y Hy.
  - intros m. specialize (Hl m). unfold at_key in *.
    rewrite !(filter_fmap _ (λ s : Z * A, s.1 = m)) by done. by rewrite !fmap_last, Hl.
Qed.

(** ** What a window holds *)

(** An accepted sample: its series, timestamp and value. *)
Abbreviation recorded := (Z * (Z * SampleValue))%type.

Abbreviation row_map rows := (list_to_map rows : gmap Z SeriesSamples).

Definition of_series (series : Z) (l : list recorded) : list (Z * SampleValue) := snd <$> filter (λ x, x.1 = series) l.

Lemma of_series_app s l k : of_series s (l ++ k) = of_series s l ++ of_series s k.
Proof. unfold of_series. by rewrite filter_app, fmap_app. Qed.
Lemma of_series_hit s x : of_series s [(s, x)] = [x].
Proof. unfold of_series. by rewrite filter_cons, decide_True. Qed.
Lemma of_series_miss s s' x : s' ≠ s → of_series s [(s', x)] = [].
Proof. intros Hs. unfold of_series. by rewrite filter_cons, decide_False. Qed.

Section window_spec.
Context `{HO : OtherFloatCodecs} `{HT : TableOrder}.
Implicit Types (w : HeadWindow) (c : HeadConfig) (l : list recorded) (arena : BlockArena) (es : EncodedSeries).

(** The entry of series [s]: present when the window has a sample of it, in the
    encoding the configuration chooses for its kind. *)
Definition entry_rep c (base_ms : Z) arena (entry : option EncodedSeries) (k : list (Z * SampleValue)) : Prop :=
  match entry with
  | Some es => k ≠ [] ∧ encoded_rep base_ms arena es k ∧ encoded_encoding es = encoding_for c (encoded_kind es)
  | None => k = []
  end.

Definition window_rep c w l : Prop :=
  arena_wf (hw_arena w) ∧ hw_datapoints w = Z.min (zlen l) u64_max ∧
  ∀ s, entry_rep c (hw_start_ms w) (hw_arena w) (hw_series w !! s) (of_series s l).
Definition window_fits w : Prop := map_Forall (λ _ es, encoded_fits es) (hw_series w).

(** The range and the lane do not change. *)
Definition same_window w w' : Prop :=
  hw_start_ms w' = hw_start_ms w ∧ hw_end_ms w' = hw_end_ms w ∧ hw_out_of_order w' = hw_out_of_order w.

Definition block_size_ok c : Prop := 1 ≤ hc_block_size c ≤ u32_max.

Lemma window_rep_new c start_ms end_ms ooo : window_rep c (window_new start_ms end_ms ooo) [].
Proof. split_and!; [apply arena_new_wf|done|done]. Qed.

Lemma entry_rep_keeps c base (a b : BlockArena) entry k :
  arena_keeps a b → entry_rep c base a entry k → entry_rep c base b entry k.
Proof. intros Hk. destruct entry as [es|]; [|done]. intros (Hne & Hrep & He). split_and!; try done. by eapply encoded_rep_keeps. Qed.

Lemma encoding_for_kind c kind : encoding_kind (encoding_for c kind) = kind.
Proof. by destruct kind. Qed.
Lemma encoded_kind_of es c kind : encoded_encoding es = encoding_for c kind → encoded_kind es = kind.
Proof. intros He. by rewrite encoded_kind_encoding, He, encoding_for_kind. Qed.

(** The window after a push that replaced or added one entry. *)
Lemma window_rep_insert c w l s k es arena :
  window_rep c w l → arena_wf arena → arena_keeps (hw_arena w) arena →
  entry_rep c (hw_start_ms w) arena (Some es) (of_series s (l ++ k)) → (∀ s', s' ≠ s → of_series s' k = []) →
  arena_wf arena ∧ ∀ s', entry_rep c (hw_start_ms w) arena (<[s := es]> (hw_series w) !! s') (of_series s' (l ++ k)).
Proof.
  intros (_ & _ & Hall) Ha Hk He Hother. split; [done|]. intros s'. destruct (decide (s = s')) as [->|Hne].
  - by rewrite lookup_insert_eq.
  - rewrite lookup_insert_ne by done. rewrite of_series_app, Hother, app_nil_r by done. by eapply entry_rep_keeps.
Qed.

Lemma window_push_rep al c w l s ts v :
  window_rep c w l → window_fits w → in_u64 (hw_start_ms w) → in_u64 ts → block_size_ok c →
  storable (encoding_for c (value_kind v)) v →
  match push_sample_to_window al c w s ts v with
  | Some (w', r) =>
      same_window w w' ∧ ar_adaptive (hw_arena w') = ar_adaptive (hw_arena w) ∧
      keeps_room_n 10 (hw_arena w) (hw_arena w') ∧
      match r with
      | Ok true => hw_start_ms w ≤ ts ∧ window_rep c w' (l ++ [(s, (ts, v))])
      | Ok false => w' = w ∧ ∃ es, hw_series w !! s = Some es ∧ encoded_kind es ≠ value_kind v
      | Err e => window_rep c w' l ∧ (∀ es, hw_series w !! s = Some es → encoded_kind es = value_kind v) ∧
          (ts < hw_start_ms w ∨ ar_adaptive (hw_arena w) = true ∨
          ∃ x, to_value (encoding_for c (value_kind v)) v = Some x ∧
            refused (C := codec_of (encoding_for c (value_kind v))) (al 3%nat) x e)
      end
  | None => ¬ (grants_all al ∧ arena_roomy 10 (hw_arena w)) ∧ ar_adaptive (hw_arena w) = false
  end.
Proof.
  intros Hrep Hfits Hstart Hts Hsize Hv. pose proof Hrep as (Ha & Hn & Hall). unfold push_sample_to_window.
  specialize (Hall s) as Hs.
  assert (∀ arena es, arena_wf arena → arena_keeps (hw_arena w) arena →
    entry_rep c (hw_start_ms w) arena (Some es) (of_series s (l ++ [(s, (ts, v))])) →
    window_rep c (with_datapoints (with_series w (<[s:=es]> (hw_series w)) arena)
      (saturating_add_u64 (hw_datapoints w) 1)) (l ++ [(s, (ts, v))])) as Haccept.
  { intros arena es Harena Hk He. destruct (window_rep_insert c w l s [(s, (ts, v))] es arena) as [H1 H2]; try done.
    { intros s' Hne. by apply of_series_miss. }
    split_and!; [done| |done]. cbn. rewrite Hn, zlen_app, zlen_cons, zlen_nil. unfold saturating_add_u64. lia. }
  destruct (hw_series w !! s) as [es|] eqn:Hlook.
  - destruct Hs as (Hne & Hes & Henc). case_bool_decide as Hkind; cbn [negb].
    2: { unfold same_window, keeps_room_n. split_and!; try done; [intros n _; apply roomy_le; lia|by eauto]. }
    rewrite Hkind in Henc.
    pose proof (encoded_push_rep al (hw_start_ms w) es _ ts v (hc_block_size c) _ Ha Hes (Hfits s es Hlook)
      Hstart Hts) as Hp. rewrite Henc in Hp. specialize (Hp Hv Hsize).
    destruct (encoded_push_sample _ _ _ _ _ _ _) as [[[a1 r1] es1]|]; cbn [mbind option_bind]; [|done].
    destruct Hp as (Ha1 & Hk1 & Hr1 & Henc1 & Hout). destruct r1 as [[]|e].
    + destruct Hout as (Hge & _ & Hrep1). split_and!; try done; [symmetry; exact (proj1 Hk1)|].
      apply Haccept; [done..|]. rewrite of_series_app, of_series_hit. split_and!; [by destruct (of_series s l)|done|].
      by rewrite Henc1, (encoded_kind_of es1 c _ Henc1).
    + destruct Hout as [Hrep1 Hor]. split_and!; try done; [symmetry; exact (proj1 Hk1)| |congruence|naive_solver].
      destruct (window_rep_insert c w l s [] es1 a1) as [H1 H2]; try done.
      { rewrite app_nil_r. split_and!; [done|done|]. by rewrite Henc1, (encoded_kind_of es1 c _ Henc1). }
      rewrite app_nil_r in H2. by split_and!.
  - cbn in Hs. set (es0 := encoded_new _ _ _).
    assert (encoded_encoding es0 = encoding_for c (value_kind v)) as Henc by apply encoded_encoding_new.
    pose proof (encoded_push_rep al (hw_start_ms w) es0 [] ts v (hc_block_size c) _ Ha
      (encoded_rep_new _ _ _ _ _)) as Hp.
    assert (encoded_fits es0) as Hfit0.
    { unfold es0. by destruct (encoding_for c (value_kind v)) as [[]|[]|[]|[]|[]], (hc_compact_numeric_series c). }
    rewrite Henc, (encoded_kind_of es0 c _ Henc) in Hp. specialize (Hp Hfit0 Hstart Hts Hv Hsize).
    destruct (encoded_push_sample _ _ _ _ _ _ _) as [[[a1 r1] es1]|]; cbn [mbind option_bind]; [|done].
    destruct Hp as (Ha1 & Hk1 & Hr1 & Henc1 & Hout). destruct r1 as [[]|e].
    + destruct Hout as (Hge & _ & Hrep1). split_and!; try done; [symmetry; exact (proj1 Hk1)|].
      apply Haccept; [done..|]. rewrite of_series_app, of_series_hit, Hs. split_and!; [done|done|].
      by rewrite Henc1, (encoded_kind_of es1 c _ Henc1).
    + destruct Hout as [_ Hor]. split_and!; try done; [symmetry; exact (proj1 Hk1)| |naive_solver].
      split_and!; [done|done|]. intros s'. specialize (Hall s'). by eapply entry_rep_keeps.
Qed.

(** ** Sealing *)

Lemma entries_elem {V} (m : gmap Z V) s x : (s, x) ∈ entries m ↔ m !! s = Some x.
Proof. rewrite (entries_perm _ m). apply elem_of_map_to_list. Qed.
Lemma entries_NoDup {V} (m : gmap Z V) : NoDup (entries m).*1.
Proof. rewrite (entries_perm _ m). apply NoDup_fst_map_to_list. Qed.
Lemma entries_size {V} (m : gmap Z V) : zlen (entries m) = Z.of_nat (size m).
Proof. unfold zlen. by rewrite (entries_perm _ m), length_map_to_list. Qed.

Lemma seal_entries_rep base f entries : ∀ al arena,
  arena_wf arena → Forall (λ x, encoded_rep base arena x.2 (f x.1) ∧ encoded_fits x.2) entries →
  match seal_entries al entries arena with
  | Some (arena', sealed) =>
      arena_wf arena' ∧ arena_keeps arena arena' ∧ (∀ n, arena_roomy (n + 2 * zlen entries) arena → arena_roomy n arena') ∧
      Forall2 (λ x y, y.1 = x.1 ∧ encoded_encoding y.2 = encoded_encoding x.2 ∧
        encoded_rep base arena' y.2 (f x.1) ∧ encoded_sealed y.2) entries sealed
  | None => ¬ (grants_all al ∧ arena_roomy (2 * zlen entries) arena)
  end.
Proof.
  induction entries as [|[s es] entries IH]; intros al arena Ha Hall; cbn [seal_entries].
  { split_and!; [done|done| |done]. intros n Hroom. eapply roomy_le; [|exact Hroom]. rewrite (@zlen_nil (Z * EncodedSeries)). lia. }
  apply Forall_cons_1 in Hall as [[Hrep Hfit] Hall]. cbn [fst snd] in *.
  rewrite zlen_cons. pose proof (zlen_nonneg entries).
  pose proof (encoded_seal_rep al base es (f s) arena Ha Hrep Hfit) as Hs.
  destruct (encoded_seal al es arena) as [[a1 es1]|]; cbn [mbind option_bind].
  2: { intros [Hg Hroom]. apply Hs. split; [done|]. eapply roomy_le; [|exact Hroom]. lia. }
  destruct Hs as (Ha1 & Hk1 & Hr1 & Henc1 & Hrep1 & Hsealed1).
  specialize (IH (λ n, al (2 + n)%nat) a1 Ha1).
  assert (Forall (λ x, encoded_rep base a1 x.2 (f x.1) ∧ encoded_fits x.2) entries) as Hall1.
  { eapply Forall_impl; [exact Hall|]. intros x [Hx Hfx]. split; [|done]. by eapply encoded_rep_keeps. }
  specialize (IH Hall1). destruct (seal_entries _ entries a1) as [[a2 sealed]|]; cbn [mbind option_bind].
  - destruct IH as (Ha2 & Hk2 & Hr2 & Hf). split_and!; [done|by transitivity a1| |].
    { intros n Hroom. apply Hr2, Hr1. eapply roomy_le; [|exact Hroom]. lia. }
    constructor; [|done].
    split_and!; [done|done| |done]. by eapply encoded_rep_keeps.
  - intros [Hg Hroom]. apply IH. split; [intros n; apply Hg|]. apply Hr1. eapply roomy_le; [|exact Hroom]. lia.
Qed.

Definition window_sealed w : Prop := map_Forall (λ _ es, encoded_sealed es) (hw_series w).

(** Same keys, related values. *)
Lemma related_keys {A B} (R : Z * A → Z * B → Prop) (l : list (Z * A)) (k : list (Z * B)) :
  Forall2 (λ x y, y.1 = x.1 ∧ R x y) l k → k.*1 = l.*1.
Proof. induction 1 as [|x y l k [Hxy _] _ IH]; [done|]. by rewrite !fmap_cons, Hxy, IH. Qed.
Lemma related_entries {A B} (R : Z * A → Z * B → Prop) (l : list (Z * A)) (k : list (Z * B)) :
  Forall2 (λ x y, y.1 = x.1 ∧ R x y) l k → NoDup l.*1 →
  ∀ s, match (list_to_map l : gmap Z A) !! s, (list_to_map k : gmap Z B) !! s with
       | Some a, Some b => R (s, a) (s, b)
       | None, None => True
       | _, _ => False
       end.
Proof.
  induction 1 as [|[s1 a] [s2 b] l k [Hk HR] _ IH]; intros Hnd s; [done|]. cbn in *. subst s2.
  apply NoDup_cons in Hnd as [_ Hnd]. destruct (decide (s = s1)) as [->|Hne]; [by rewrite !lookup_insert_eq|].
  rewrite !lookup_insert_ne by done. by apply IH.
Qed.

Lemma list_to_map_entries {V} (m : gmap Z V) : list_to_map (entries m) = m.
Proof.
  rewrite <- (list_to_map_to_list m) at 2. apply list_to_map_proper; [apply entries_NoDup|apply entries_perm].
Qed.

Lemma window_size c w l : window_rep c w l → Z.of_nat (size (hw_series w)) ≤ zlen l.
Proof.
  intros (_ & _ & Hall). rewrite <- entries_size. unfold zlen. rewrite <- (length_fmap fst l), <- (length_fmap fst (entries _)).
  apply inj_le, submseteq_length, NoDup_submseteq; [apply entries_NoDup|].
  intros s Hs. apply list_elem_of_fmap in Hs as ([s' es] & -> & Hs%entries_elem). cbn. specialize (Hall s').
  rewrite Hs in Hall. destruct Hall as [Hne _]. destruct (of_series s' l) as [|x k] eqn:Hk; [done|].
  assert (x ∈ of_series s' l) as Hx by (rewrite Hk; by left).
  apply list_elem_of_fmap in Hx as (y & _ & Hy). apply list_elem_of_filter in Hy as [<- Hy].
  by apply list_elem_of_fmap_2.
Qed.

Lemma seal_all_rep al c w l :
  window_rep c w l → window_fits w →
  match seal_all_series al w with
  | Some w' => same_window w w' ∧ window_rep c w' l ∧ window_sealed w' ∧ dom (hw_series w') = dom (hw_series w) ∧
      ∀ n, arena_roomy (n + 2 * Z.of_nat (size (hw_series w))) (hw_arena w) → arena_roomy n (hw_arena w')
  | None => ¬ (grants_all al ∧ arena_roomy (2 * Z.of_nat (size (hw_series w))) (hw_arena w))
  end.
Proof.
  intros (Ha & Hn & Hall) Hfits. unfold seal_all_series. rewrite <- entries_size.
  pose proof (seal_entries_rep (hw_start_ms w) (λ s, of_series s l) (entries (hw_series w)) al (hw_arena w) Ha) as Hs.
  destruct (seal_entries _ _ _) as [[arena es]|]; cbn [mbind option_bind].
  2: { apply Hs. apply Forall_forall. intros [s x] Hx%entries_elem. specialize (Hall s). rewrite Hx in Hall.
       split; [apply Hall|]. by apply (Hfits s). }
  destruct Hs as (Ha' & Hk & Hroom & Hf).
  { apply Forall_forall. intros [s x] Hx%entries_elem. specialize (Hall s). rewrite Hx in Hall.
    split; [apply Hall|]. by apply (Hfits s). }
  pose proof (related_entries (λ x y, encoded_encoding y.2 = encoded_encoding x.2 ∧
    encoded_rep (hw_start_ms w) arena y.2 (of_series x.1 l) ∧ encoded_sealed y.2) _ _ Hf (entries_NoDup _)) as Hrel.
  rewrite list_to_map_entries in Hrel. cbn [fst snd] in Hrel. rewrite entries_size in *.
  split_and!; [done|split_and!; [done|done|]| | |done].
  - intros s. specialize (Hrel s). specialize (Hall s). cbn.
    destruct (hw_series w !! s) as [es0|], (list_to_map es !! s) as [es1|]; try done.
    destruct Hrel as (He & Hrep & _), Hall as (Hne & _ & Henc). split_and!; [done|done|].
    by rewrite He, Henc, !encoded_kind_encoding, He.
  - intros s es1 Hl. cbn in Hl. specialize (Hrel s). rewrite Hl in Hrel. destruct (hw_series w !! s); [apply Hrel|done].
  - cbn. apply set_eq. intros s. rewrite !elem_of_dom. specialize (Hrel s).
    destruct (hw_series w !! s), (list_to_map es !! s); try done; split; by eauto.
Qed.

(** ** Rows of a window *)

Definition row_of (e : SeriesEncoding) (k : list (Z * SampleValue)) (ss : SeriesSamples) : Prop :=
  ∃ k', k = typed e k' ∧ ss = samples_as e k'.
Definition kind_of (k : list (Z * SampleValue)) : SampleKind :=
  match k with x :: _ => value_kind x.2 | [] => KindFloat end.
Definition encoding_of c (k : list (Z * SampleValue)) : SeriesEncoding := encoding_for c (kind_of k).

Definition sorted_row c (k : list (Z * SampleValue)) (ss : SeriesSamples) : Prop :=
  row_of (encoding_of c k) (sort_by_key fst k) ss.
(** The row of a sealed series: its last writes. *)
Definition deduped_row c (k : list (Z * SampleValue)) (ss : SeriesSamples) : Prop :=
  ∃ r, last_writes k r ∧ row_of (encoding_of c k) r ss.

(** One row for each series with samples. *)
Definition rows_are (Q : list (Z * SampleValue) → SeriesSamples → Prop) l (rows : list (Z * SeriesSamples)) : Prop :=
  NoDup rows.*1 ∧
  ∀ s, match (list_to_map rows : gmap Z SeriesSamples) !! s with
       | Some ss => of_series s l ≠ [] ∧ Q (of_series s l) ss
       | None => of_series s l = []
       end.

Lemma kind_of_typed e k : typed e k ≠ [] → kind_of (typed e k) = encoding_kind e.
Proof. destruct k; [done|]. intros _. apply kind_from_value. Qed.
Lemma encoded_rep_typed base arena es k : encoded_rep base arena es k → ∃ k', k = typed (encoded_encoding es) k'.
Proof. destruct es as [i|i|e s]; cbn; [intros (_ & -> & _); by eexists..|]. intros (k' & _ & ->). by exists k'. Qed.
Lemma entry_encoding c base arena es k :
  entry_rep c base arena (Some es) k → encoded_encoding es = encoding_of c k.
Proof.
  intros (Hne & Hrep & He). destruct (encoded_rep_typed _ _ _ _ Hrep) as [k' ->]. unfold encoding_of.
  by rewrite kind_of_typed, <- encoded_kind_encoding, <- He.
Qed.

Lemma decode_entries_rep base c l arena ents : ∀ al : nat → alloc_seq,
  (∀ n, grants_all (al n)) →
  Forall (λ x, entry_rep c base arena (Some x.2) (of_series x.1 l) ∧ encoded_sealed x.2) ents →
  ∃ rows, decode_entries al ents arena = Ok rows ∧
    Forall2 (λ x y, y.1 = x.1 ∧ sorted_row c (of_series x.1 l) y.2) ents rows.
Proof.
  induction ents as [|[s es0] ents IH]; intros al Hal Hall; [by exists []|]. apply Forall_cons_1 in Hall as [[Hrep Hs] Hall].
  cbn [fst snd decode_entries] in *.
  destruct (encoded_into_samples_rep (al 0%nat) base arena arena es0 (of_series s l) (proj1 (proj2 Hrep)) Hs
    (reads_self arena arena ltac:(done)) (Hal 0%nat)) as (k & Hk & ->). cbn [mbind result_bind].
  destruct (IH (λ n, al (S n)) (λ n, Hal (S n)) Hall) as (rows & -> & Hrows). cbn. eexists. split; [done|].
  constructor; [|done]. split; [done|]. cbn. unfold sorted_row. rewrite <- (entry_encoding _ _ _ _ _ Hrep).
  exists (sort_by_key fst k). split; [|done]. rewrite Hk. apply sort_typed.
Qed.

Lemma window_into_series_samples_rep al al' c w l :
  window_rep c w l → window_fits w → grants_all al → (∀ n, grants_all (al' n)) →
  arena_roomy (2 * Z.of_nat (size (hw_series w))) (hw_arena w) →
  ∃ rows, window_into_series_samples al al' w = Some (Ok rows) ∧ rows_are (sorted_row c) l rows.
Proof.
  intros Hrep Hfits Hg Hg' Hroom. unfold window_into_series_samples. pose proof (seal_all_rep al c w l Hrep Hfits) as Hs.
  destruct (seal_all_series al w) as [w'|]; [|by destruct Hs]. destruct Hs as (Hsame & Hrep' & Hsealed & _ & _).
  cbn [mbind option_bind]. destruct Hrep' as (_ & _ & Hall).
  destruct (decode_entries_rep (hw_start_ms w') c l (hw_arena w') (entries (hw_series w')) al' Hg') as (rows & -> & Hf).
  { apply Forall_forall. intros [s es] Hx%entries_elem. split; [|by apply (Hsealed s)].
    specialize (Hall s). by rewrite Hx in Hall. }
  exists rows. split; [done|]. split; [rewrite (related_keys _ _ _ Hf); apply entries_NoDup|]. intros s.
  pose proof (related_entries (λ x y, sorted_row c (of_series x.1 l) y.2) _ _ Hf (entries_NoDup _) s) as Hrel.
  rewrite list_to_map_entries in Hrel. specialize (Hall s). cbn [fst snd] in Hrel.
  destruct (hw_series w' !! s), (list_to_map rows !! s); try done. split; [apply Hall|done].
Qed.

Lemma first_outside_none {T} start_ms end_ms (k : list (Z * T)) :
  Forall (λ x, start_ms ≤ x.1 < end_ms) k → first_outside start_ms end_ms k = None.
Proof.
  intros Hk. unfold first_outside. induction Hk as [|x k Hx _ IH]; [done|].
  rewrite filter_cons, decide_False; [done|]. lia.
Qed.
Lemma validate_range_ok s e k ss start_ms end_ms :
  row_of e k ss → Forall (λ x, start_ms ≤ x.1 < end_ms) k → validate_series_samples_range s ss start_ms end_ms = Ok tt.
Proof.
  intros (k' & -> & ->) Hk. unfold typed in Hk. rewrite Forall_fmap in Hk. unfold compose in Hk. cbn in Hk.
  unfold validate_series_samples_range. apply first_outside_none in Hk. destruct e; cbn in *; by rewrite Hk.
Qed.
Lemma dedupe_samples_as e k :
  sort_and_dedupe_series_samples (samples_as e k) = samples_as e (sort_and_dedupe_last k).
Proof. by destruct e. Qed.

(** What sorting and deduping makes of a row. *)
Lemma deduped_as e k r :
  (∀ m, last (at_key fst m (typed e k)) = last (at_key fst m r)) →
  ∃ r', last_writes r r' ∧ row_of e r' (sort_and_dedupe_series_samples (samples_as e k)).
Proof.
  intros Hk. exists (typed e (sort_and_dedupe_last k)). rewrite dedupe_samples_as. split; [|by eexists].
  eapply last_writes_ext; [exact Hk|]. apply (last_writes_fmap (from_value e)), sort_and_dedupe_last_writes.
Qed.

Lemma dedupe_rows_rep c l start_ms end_ms rows :
  rows_are (sorted_row c) l rows → Forall (λ x, start_ms ≤ x.2.1 < end_ms) l →
  ∃ rows', dedupe_rows start_ms end_ms rows = Ok rows' ∧ rows_are (deduped_row c) l rows'.
Proof.
  intros [Hnd Hall] Hl.
  assert (Forall (λ x, sorted_row c (of_series x.1 l) x.2) rows) as Hrows.
  { apply Forall_forall. intros [s ss] Hx. apply (elem_of_list_to_map_1 (M := gmap Z)) in Hx; [|done]. specialize (Hall s).
    rewrite Hx in Hall. apply Hall. }
  assert (∃ rows', dedupe_rows start_ms end_ms rows = Ok rows' ∧
    Forall2 (λ x y, y.1 = x.1 ∧ deduped_row c (of_series x.1 l) y.2) rows rows') as (rows' & Heq & Hf).
  { clear Hall Hnd. induction Hrows as [|[s ss] rows Hr _ IH]; [by exists []|]. cbn [dedupe_rows]. cbn [fst snd] in Hr.
    rewrite (validate_range_ok s _ _ _ _ _ Hr).
    2: { rewrite sort_perm. unfold of_series. rewrite Forall_fmap. apply Forall_forall. intros x [_ Hx]%list_elem_of_filter. by apply (proj1 (Forall_forall _ _) Hl) in Hx. }
    cbn [mbind result_bind]. destruct IH as (rows' & -> & Hf). cbn. eexists. split; [done|]. constructor; [|done].
    split; [done|]. cbn. destruct Hr as (k & Hk & ->). apply deduped_as. intros m. by rewrite <- Hk, sort_stable. }
  exists rows'. split; [done|]. split; [by rewrite (related_keys _ _ _ Hf)|]. intros s.
  pose proof (related_entries (λ x y, deduped_row c (of_series x.1 l) y.2) _ _ Hf Hnd s) as Hrel.
  specialize (Hall s). cbn [fst snd] in Hrel.
  destruct ((list_to_map rows : gmap Z SeriesSamples) !! s), (list_to_map rows' !! s); try done. split; [apply Hall|done].
Qed.

(** ** Merging the lanes *)

(** Both lanes in one row: as they are when of one kind, as floats when of the two
    number kinds. *)
Definition number (v : SampleValue) : SampleValue :=
  match v with SampleInt64 x => SampleFloat (f64_of_i64 x) | v => v end.
Definition combined (k1 k2 : SampleKind) : option (SampleValue → SampleValue) :=
  match k1, k2 with
  | KindFloat, KindFloat | KindInt64, KindInt64 | KindHistogram, KindHistogram
  | KindExponentialHistogram, KindExponentialHistogram | KindSummary, KindSummary => Some (λ v, v)
  | KindFloat, KindInt64 | KindInt64, KindFloat => Some number
  | _, _ => None
  end.
Definition retype (f : SampleValue → SampleValue) (k : list (Z * SampleValue)) : list (Z * SampleValue) :=
  (λ s, (s.1, f s.2)) <$> k.

(** The row of both lanes and the additional one. *)
Definition merged c (k1 k2 : list (Z * SampleValue)) (ss : SeriesSamples) (more : option SeriesSamples) : Prop :=
  match combined (kind_of k1) (kind_of k2) with
  | Some f => more = None ∧ deduped_row c (retype f (k1 ++ k2)) ss
  | None => deduped_row c k1 ss ∧ ∃ ss2, more = Some ss2 ∧ deduped_row c k2 ss2
  end.
Definition merged_entry c (k1 k2 : list (Z * SampleValue)) (main additional : option SeriesSamples) : Prop :=
  match k1, k2 with
  | [], [] => main = None ∧ additional = None
  | _, [] => additional = None ∧ ∃ ss, main = Some ss ∧ deduped_row c k1 ss
  | [], _ => additional = None ∧ ∃ ss, main = Some ss ∧ deduped_row c k2 ss
  | _, _ => ∃ ss, main = Some ss ∧ merged c k1 k2 ss additional
  end.

Lemma retype_id k : retype (λ v, v) k = k.
Proof. unfold retype. induction k as [|[ts v] k IH]; [done|]. by rewrite fmap_cons, IH. Qed.
Lemma kind_of_app k1 k2 : k1 ≠ [] → kind_of (k1 ++ k2) = kind_of k1.
Proof. by destruct k1. Qed.

Lemma last_writes_app {T} (k1 k2 r1 r2 : list (Z * T)) n :
  last_writes k1 r1 → last_writes k2 r2 → last (at_key fst n (r1 ++ r2)) = last (at_key fst n (k1 ++ k2)).
Proof. intros [_ H1] [_ H2]. by rewrite !at_key_app, !last_app, H1, H2. Qed.

Lemma typed_number e' e k : retype number (typed (EncodingInt e) k) = typed (EncodingFloat e') (as_floats k).
Proof. unfold retype, typed, as_floats. rewrite <- !list_fmap_compose. done. Qed.
Lemma retype_number e k : retype number (typed (EncodingFloat e) k) = typed (EncodingFloat e) k.
Proof. unfold retype, typed. rewrite <- !list_fmap_compose. done. Qed.

Lemma merge_series_rep al c s k1 k2 ss1 ss2 :
  deduped_row c k1 ss1 → deduped_row c k2 ss2 → k1 ≠ [] → k2 ≠ [] → grants al →
  ∃ ss more, merge_series_samples al ss1 ss2 s = Ok (ss, more) ∧ merged c k1 k2 ss more.
Proof.
  intros (r1 & Hr1 & t1 & -> & ->) (r2 & Hr2 & t2 & -> & ->) Hk1 Hk2 Hal. unfold merged, deduped_row.
  assert (∀ f e t, last_writes (retype f k1) (retype f (typed (encoding_of c k1) t1)) →
    encoding_for c (kind_of (retype f k1)) = e →
    typed e t = retype f (typed (encoding_of c k1) t1 ++ typed (encoding_of c k2) t2) →
    ∃ r, last_writes (retype f (k1 ++ k2)) r ∧
      row_of (encoding_of c (retype f (k1 ++ k2))) r (sort_and_dedupe_series_samples (samples_as e t))) as Hdone.
  { intros f e t Hf He Ht. unfold encoding_of, retype. rewrite fmap_app, kind_of_app by by destruct k1.
    fold (retype f k1) (retype f k2). rewrite He. apply deduped_as. intros m. rewrite Ht. unfold retype.
    rewrite fmap_app. apply last_writes_app; [done|]. by apply (last_writes_fmap f). }
  assert (∀ f, last_writes (retype f k1) (retype f (typed (encoding_of c k1) t1))) as Hf.
  { intros f. by apply (last_writes_fmap f). }
  assert (kind_of (retype number k1) = match kind_of k1 with KindInt64 => KindFloat | k => k end) as Hnum.
  { destruct k1 as [|[? []] ?]; done. }
  assert (kind_of (retype (λ v, v) k1) = kind_of k1) as Hid by by rewrite retype_id.
  specialize (Hdone (λ v, v) (encoding_of c k1)) as Hsame. rewrite Hid in Hsame.
  specialize (Hdone number) as Hmix. rewrite Hnum in Hmix. clear Hdone Hid Hnum. unfold encoding_of in *.
  assert (∀ e t, row_of e (typed e t) (samples_as e t)) as Hrow by (intros e t; by exists t).
  destruct (kind_of k1), (kind_of k2); cbn [merge_series_samples samples_as encoding_for].
  all: cbn [combined]; repeat (rewrite decide_True by done).
  all: try (do 2 eexists; split; [reflexivity|]; split; [done|apply (Hsame (t1 ++ t2)); [apply Hf|done|];
    by rewrite typed_app, retype_id]).
  all: try (do 2 eexists; split; [reflexivity|]; split; [by eauto|]; eexists; split; [done|by eauto]).
  - do 2 eexists. split; [reflexivity|]. split; [done|]. apply (Hmix (EncodingFloat (hc_float_encoding c))); [apply Hf|done|].
    change (value_of (encoding_for c KindFloat)) with Z in t1. cbn [encoding_for]. unfold retype at 1.
    rewrite fmap_app. fold (retype number (typed (EncodingFloat (hc_float_encoding c)) t1)).
    fold (retype number (typed (EncodingInt (hc_int_encoding c)) t2)).
    by rewrite retype_number, (typed_number (hc_float_encoding c)), typed_app.
  - unfold try_reserve. rewrite Hal. do 2 eexists. split; [reflexivity|]. split; [done|].
    apply (Hmix (EncodingFloat (hc_float_encoding c))); [apply Hf|done|].
    change (value_of (encoding_for c KindInt64)) with Z in t1. cbn [encoding_for]. unfold retype at 1.
    rewrite fmap_app. fold (retype number (typed (EncodingInt (hc_int_encoding c)) t1)).
    fold (retype number (typed (EncodingFloat (hc_float_encoding c)) t2)).
    by rewrite retype_number, (typed_number (hc_float_encoding c)), typed_app.
Qed.

(** [Q] of the merged row and the additional one, for every series of both. *)
Lemma merge_rows_rep (Q : Z → SeriesSamples → SeriesSamples → SeriesSamples → option SeriesSamples → Prop) earlier :
  ∀ (al : alloc_seq) (later : gmap Z SeriesSamples), NoDup earlier.*1 → grants_all al →
  (∀ al s ss1 ss2, grants al → row_map earlier !! s = Some ss1 → later !! s = Some ss2 →
     ∃ ss more, merge_series_samples al ss1 ss2 s = Ok (ss, more) ∧ Q s ss1 ss2 ss more) →
  ∃ rows additional later', merge_rows al earlier later = Ok (rows, additional, later') ∧
    rows.*1 = earlier.*1 ∧ NoDup additional.*1 ∧ (∀ s, s ∈ additional.*1 → s ∈ earlier.*1) ∧
    (∀ s, later' !! s = match row_map earlier !! s with Some _ => None | None => later !! s end) ∧
    ∀ s, match row_map earlier !! s with
         | Some ss1 => ∃ ss, row_map rows !! s = Some ss ∧
             match later !! s with
             | Some ss2 => Q s ss1 ss2 ss (row_map additional !! s)
             | None => ss = ss1 ∧ row_map additional !! s = None
             end
         | None => row_map additional !! s = None
         end.
Proof.
  induction earlier as [|[s0 ss1] earlier IH]; intros al later Hnd Hal HQ; cbn [merge_rows].
  { exists [], [], later. split_and!; try done; constructor. }
  apply NoDup_cons in Hnd as [Hs0 Hnd].
  assert (∃ ss more, match later !! s0 with
      | Some later_samples => merge_series_samples (al 0%nat) ss1 later_samples s0
      | None => Ok (ss1, None)
      end = Ok (ss, more) ∧
      match later !! s0 with Some ss2 => Q s0 ss1 ss2 ss more | None => ss = ss1 ∧ more = None end)
    as (ss & more & -> & Hmore).
  { destruct (later !! s0) as [ss2|] eqn:Hl; [|by exists ss1, None]. apply HQ; [apply Hal| |done]. cbn. by rewrite lookup_insert_eq. }
  assert (∀ s, s ≠ s0 → row_map ((s0, ss1) :: earlier) !! s = row_map earlier !! s) as Hne
    by (intros s Hs; cbn; by rewrite lookup_insert_ne by done).
  assert (row_map earlier !! s0 = None) as Hnone by by apply not_elem_of_list_to_map_1.
  destruct (IH (λ n, al (S n)) (delete s0 later) Hnd (λ n, Hal (S n))) as (rows & add & later' & Heq & Hkeys & Hadd & Hsub & Hl' & Hall).
  { intros al' s ssa ssb Hg Ha Hb. apply HQ; [done| |].
    - rewrite Hne; [done|]. intros ->. by rewrite Hnone in Ha.
    - by apply lookup_delete_Some in Hb as [_ Hb]. }
  cbn [mbind result_bind]. rewrite Heq. cbn [mbind result_bind]. do 3 eexists. split; [done|].
  assert (row_map add !! s0 = None) as Hadd0 by (specialize (Hall s0); by rewrite Hnone in Hall).
  assert (s0 ∉ add.*1) as Hnot by (intros Hin; by apply Hs0, Hsub).
  split_and!.
  - cbn. by rewrite Hkeys.
  - destruct more; [|done]. cbn. by constructor.
  - intros s. destruct more; cbn; rewrite ?elem_of_cons; naive_solver.
  - intros s. destruct (decide (s = s0)) as [->|Hs].
    + cbn. rewrite lookup_insert_eq, Hl', Hnone. by rewrite lookup_delete_eq.
    + rewrite Hne, Hl' by done. by rewrite lookup_delete_ne.
  - intros s. specialize (Hall s). destruct (decide (s = s0)) as [->|Hs].
    + cbn. rewrite !lookup_insert_eq. exists ss. split; [done|].
      assert (row_map (match more with Some x => (s0, x) :: add | None => add end) !! s0 = more) as ->.
      { destruct more; cbn; [by rewrite lookup_insert_eq|done]. }
      destruct (later !! s0); [done|by destruct Hmore as [-> ->]].
    + assert (row_map (match more with Some x => (s0, x) :: add | None => add end) !! s = row_map add !! s) as ->.
      { destruct more; cbn; [by rewrite lookup_insert_ne|done]. }
      rewrite lookup_delete_ne in Hall by done. rewrite Hne by done.
      cbn. by rewrite (lookup_insert_ne _ s0 s).
Qed.

Lemma rows_by_series_rep rows : ∀ m,
  NoDup rows.*1 → (∀ s, s ∈ rows.*1 → m !! s = None) →
  ∃ m', rows_by_series rows m = Ok m' ∧ ∀ s, m' !! s = match row_map rows !! s with Some ss => Some ss | None => m !! s end.
Proof.
  induction rows as [|[s0 ss0] rows IH]; intros m Hnd Hm; [by exists m|]. cbn [rows_by_series].
  apply NoDup_cons in Hnd as [Hs0 Hnd]. cbn [fst] in Hs0. rewrite Hm by by left.
  destruct (IH (<[s0 := ss0]> m) Hnd) as (m' & -> & Hm').
  { intros s Hs. rewrite lookup_insert_ne; [apply Hm; by right|]. intros ->. done. }
  exists m'. split; [done|]. intros s. rewrite Hm'. cbn. destruct (decide (s0 = s)) as [->|Hne].
  - by rewrite !lookup_insert_eq, (not_elem_of_list_to_map_1 (M := gmap Z)).
  - by rewrite !lookup_insert_ne.
Qed.

Definition in_window_range w (l : list recorded) : Prop := Forall (λ x, hw_start_ms w ≤ x.2.1 < hw_end_ms w) l.
(** Room in the arena for sealing every series. *)
Definition seal_room w : Prop := arena_roomy (2 * Z.of_nat (size (hw_series w))) (hw_arena w).

Lemma into_deduped_rep al al' c w l :
  window_rep c w l → window_fits w → grants_all al → (∀ n, grants_all (al' n)) → seal_room w → in_window_range w l →
  ∃ rows, into_deduped_series_samples al al' w = Some (Ok rows) ∧ rows_are (deduped_row c) l rows.
Proof.
  intros Hrep Hfits Hal Hal' Hroom Hl. unfold into_deduped_series_samples.
  destruct (window_into_series_samples_rep al al' c w l Hrep Hfits Hal Hal' Hroom) as (rows & -> & Hrows).
  destruct (dedupe_rows_rep c l (hw_start_ms w) (hw_end_ms w) rows Hrows Hl) as (rows' & Hd & Hrows').
  exists rows'. split; [|done]. cbn. by rewrite Hd.
Qed.

(** The rows of both lanes, and how many series they are of. *)
Definition merged_rows c l1 l2 (out : SealedHeadWindowSamples) : Prop :=
  ∃ main additional, out = mk_sealed_samples (main ++ additional) (zlen main) ∧
    NoDup main.*1 ∧ NoDup additional.*1 ∧
    ∀ s, merged_entry c (of_series s l1) (of_series s l2) (row_map main !! s) (row_map additional !! s).

Lemma merged_rows_alone c l rows :
  rows_are (deduped_row c) l rows → merged_rows c l [] (mk_sealed_samples rows (zlen rows)).
Proof.
  intros [Hnd Hall]. exists rows, []. rewrite app_nil_r. split_and!; [done|done|constructor|]. intros s. specialize (Hall s).
  cbn. rewrite lookup_empty. destruct (row_map rows !! s) as [ss|].
  - destruct Hall as [Hne Hd]. destruct (of_series s l); [done|]. split; [done|]. by exists ss.
  - by rewrite Hall.
Qed.

Lemma row_map_app rows k s : row_map (rows ++ k) !! s = match row_map rows !! s with Some x => Some x | None => row_map k !! s end.
Proof.
  rewrite list_to_map_app. destruct (row_map rows !! s) as [x|] eqn:Hx; [by apply lookup_union_Some_l|by rewrite lookup_union_r].
Qed.

Lemma with_ooo_rep al1 al2 al3 al1' al2' c w o l1 l2 :
  window_rep c w l1 → window_rep c o l2 → window_fits w → window_fits o → seal_room w → seal_room o →
  in_window_range w l1 → in_window_range o l2 →
  grants_all al1 → grants_all al2 → grants_all al3 → (∀ n, grants_all (al1' n)) → (∀ n, grants_all (al2' n)) →
  hw_out_of_order w = false → hw_out_of_order o = true → hw_start_ms w = hw_start_ms o → hw_end_ms w = hw_end_ms o →
  ∃ out, into_series_samples_with_ooo al1 al2 al3 al1' al2' w (Some o) = Some (Ok out) ∧ merged_rows c l1 l2 out.
Proof.
  intros Hw Ho Hfw Hfo Hrw Hro Hlw Hlo Hal1 Hal2 Hal3 Hal1' Hal2' How Hoo Hs He. unfold into_series_samples_with_ooo.
  rewrite How, Hoo, Hs, He, !Z.eqb_refl. cbn [negb andb].
  destruct (into_deduped_rep al1 al1' c w l1 Hw Hfw Hal1 Hal1' Hrw Hlw) as (earlier & -> & Hnd1 & Hearlier).
  destruct (into_deduped_rep al2 al2' c o l2 Ho Hfo Hal2 Hal2' Hro Hlo) as (later & -> & Hnd2 & Hlater).
  cbn [mbind option_bind result_bind]. unfold try_reserve. rewrite Hal3. cbn [mbind result_bind].
  destruct (rows_by_series_rep later ∅ Hnd2 ltac:(done)) as (m & -> & Hm). cbn [mbind result_bind].
  assert (∀ s, m !! s = row_map later !! s) as Hm' by (intros s; rewrite Hm; by destruct (row_map later !! s)). clear Hm.
  destruct (merge_rows_rep (λ s ss1 ss2 ss more, merged c (of_series s l1) (of_series s l2) ss more) earlier
    (λ n, al3 (2 + n)%nat) m Hnd1 (λ n, Hal3 (2 + n)%nat)) as (rows & add & m' & -> & Hkeys & Hadd & Hsub & Hm2 & Hall).
  { intros al s ss1 ss2 Hg H1 H2. rewrite Hm' in H2. specialize (Hearlier s). specialize (Hlater s).
    rewrite H1 in Hearlier. rewrite H2 in Hlater. destruct Hearlier, Hlater. by apply merge_series_rep. }
  cbn [mbind result_bind]. rewrite Hal3. cbn [mbind result_bind]. eexists. split; [done|].
  exists (rows ++ entries m'), add. split_and!; [done| |done|].
  - rewrite fmap_app, Hkeys. apply NoDup_app. split_and!; [done| |apply entries_NoDup].
    intros s Hs1 Hs2. apply list_elem_of_fmap in Hs2 as ([s' x] & -> & Hx%entries_elem). cbn in Hs1.
    rewrite Hm2 in Hx. apply list_elem_of_fmap in Hs1 as ([s2 y] & Heq & Hy). cbn in Heq. subst s2.
    apply (elem_of_list_to_map_1 (M := gmap Z)) in Hy; [|done]. by rewrite Hy in Hx.
  - intros s. specialize (Hall s). specialize (Hearlier s). specialize (Hlater s). rewrite row_map_app, list_to_map_entries, Hm2.
    rewrite Hm' in *. destruct (row_map earlier !! s) as [ss1|] eqn:Hs1.
    + destruct Hall as (ss & -> & Hmore), Hearlier as [Hne1 Hd1]. destruct (row_map later !! s) as [ss2|].
      * destruct Hlater as [Hne2 Hd2]. destruct (of_series s l1), (of_series s l2); try done. by exists ss.
      * destruct Hmore as [-> ->]. rewrite Hlater. destruct (of_series s l1); [done|]. split; [done|]. by exists ss1.
    + assert (row_map rows !! s = None) as ->.
      { apply not_elem_of_list_to_map_1. rewrite Hkeys. by apply not_elem_of_list_to_map_2. }
      rewrite Hall, Hearlier. destruct (row_map later !! s) as [ss2|].
      * destruct Hlater as [Hne2 Hd2]. destruct (of_series s l2); [done|]. split; [done|]. by exists ss2.
      * by rewrite Hlater.
Qed.

(** ** Reading a range *)

Definition ranged (start_ms end_ms : Z) s l : list (Z * SampleValue) := filter (in_range start_ms end_ms) (of_series s l).
(** One row for each series with samples in the range. *)
Definition range_rows_are c (start_ms end_ms : Z) l (rows : list (Z * SeriesSamples)) : Prop :=
  NoDup rows.*1 ∧
  ∀ s, match row_map rows !! s with
       | Some ss => ranged start_ms end_ms s l ≠ [] ∧
           row_of (encoding_of c (of_series s l)) (sort_by_key fst (ranged start_ms end_ms s l)) ss
       | None => ranged start_ms end_ms s l = []
       end.

Lemma samples_empty_as e k : samples_empty (samples_as e k) = match k with [] => true | _ => false end.
Proof. by destruct e, k. Qed.

Lemma range_rows_rep base c l arena start_ms end_ms ents : ∀ al : nat → alloc_seq,
  (∀ n, grants_all (al n)) → NoDup ents.*1 →
  Forall (λ x, entry_rep c base arena (Some x.2) (of_series x.1 l) ∧ encoded_fits x.2) ents →
  ∃ rows, range_rows al ents arena start_ms end_ms = Ok rows ∧ NoDup rows.*1 ∧ (∀ s, s ∈ rows.*1 → s ∈ ents.*1) ∧
    ∀ s, match row_map rows !! s with
         | Some ss => ranged start_ms end_ms s l ≠ [] ∧
             row_of (encoding_of c (of_series s l)) (sort_by_key fst (ranged start_ms end_ms s l)) ss
         | None => s ∈ ents.*1 → ranged start_ms end_ms s l = []
         end.
Proof.
  induction ents as [|[s0 es] ents IH]; intros al Hal Hnd Hall; cbn [range_rows].
  { exists []. split_and!; [done|constructor|done|]. intros s. cbn. rewrite lookup_empty. intros Hs. by apply elem_of_nil in Hs. }
  apply Forall_cons_1 in Hall as [[Hrep Hfit] Hall]. apply NoDup_cons in Hnd as [Hs0 Hnd]. cbn [fst snd] in *.
  destruct (encoded_range_rep (al 0%nat) base arena arena es (of_series s0 l) start_ms end_ms (proj1 (proj2 Hrep)) Hfit
    (reads_self arena arena ltac:(done)) (Hal 0%nat)) as (k & Hk & ->). cbn [mbind result_bind].
  destruct (IH (λ n, al (S n)) (λ n, Hal (S n)) Hnd Hall) as (rows & -> & Hrnd & Hsub & Hrows). cbn [mbind result_bind].
  assert (ranged start_ms end_ms s0 l = typed (encoded_encoding es) (filter (in_range start_ms end_ms) k)) as Hr.
  { unfold ranged. by rewrite Hk, filter_typed. }
  rewrite samples_empty_as. eexists. split; [done|].
  destruct (sort_by_key fst (filter (in_range start_ms end_ms) k)) as [|x t] eqn:Hsort.
  - split_and!; [done|intros s Hs; right; by apply Hsub|]. intros s. specialize (Hrows s).
    destruct (row_map rows !! s); [done|]. intros [->|Hs]%elem_of_cons; [|by apply Hrows].
    cbn. pose proof (sort_perm fst (filter (in_range start_ms end_ms) k)) as Hp. rewrite Hsort in Hp.
    apply Permutation_nil_l in Hp. cbn [fst]. by rewrite Hr, <- Hp.
  - assert (s0 ∉ rows.*1) as Hnot by (intros Hin; by apply Hs0, Hsub).
    split_and!; [by constructor|intros s; cbn; rewrite !elem_of_cons; naive_solver|].
    intros s. specialize (Hrows s). cbn. destruct (decide (s = s0)) as [->|Hne].
    + rewrite lookup_insert_eq, <- (entry_encoding _ _ _ _ _ Hrep), Hr, sort_typed, Hsort. split; [|by eexists].
      intros Hnil. apply (f_equal length) in Hnil. pose proof (sort_perm fst (filter (in_range start_ms end_ms) k)) as Hp.
      rewrite Hsort in Hp. apply Permutation_length in Hp. unfold typed in Hnil. rewrite length_fmap in Hnil. cbn in *. lia.
    + rewrite lookup_insert_ne by done. destruct (row_map rows !! s); [done|].
      intros [->|Hs]%elem_of_cons; [done|by apply Hrows].
Qed.

Lemma series_samples_in_range_rep al c w l start_ms end_ms :
  window_rep c w l → window_fits w → (∀ n, grants_all (al n)) →
  ∃ rows, series_samples_in_range al w start_ms end_ms = Ok rows ∧ range_rows_are c start_ms end_ms l rows.
Proof.
  intros (_ & _ & Hall) Hfits Hal. unfold series_samples_in_range. destruct (Z.leb_spec end_ms start_ms) as [Hle|].
  { exists []. split; [done|]. split; [constructor|]. intros s. cbn. apply list_filter_none. intros x [??]. lia. }
  destruct (range_rows_rep (hw_start_ms w) c l (hw_arena w) start_ms end_ms (entries (hw_series w)) al Hal (entries_NoDup _))
    as (rows & -> & Hnd & Hsub & Hrows).
  { apply Forall_forall. intros [s es] Hx%entries_elem. split; [|by apply (Hfits s)]. specialize (Hall s). by rewrite Hx in Hall. }
  exists rows. split; [done|]. split; [done|]. intros s. specialize (Hrows s). destruct (row_map rows !! s); [done|].
  specialize (Hall s). destruct (hw_series w !! s) as [es|] eqn:Hs.
  - apply Hrows, list_elem_of_fmap. exists (s, es). by rewrite entries_elem.
  - unfold ranged. by rewrite Hall.
Qed.

(** ** What a push finds and leaves *)

Definition is_number (v : SampleValue) : Prop :=
  match v with SampleFloat _ | SampleInt64 _ => True | _ => False end.

End window_spec.

(** ** Runs of a window *)

Section window_runs.
Context `{HO : OtherFloatCodecs} `{HT : TableOrder}.
Implicit Types (w : HeadWindow) (c : HeadConfig) (l xs : list recorded) (rs : list (io_result bool)).

(** Pushes, each with the allocator's answers; the results in order. *)
Fixpoint window_run c w (ops : list (alloc_seq * recorded)) : option (HeadWindow * list (io_result bool)) :=
  match ops with
  | [] => Some (w, [])
  | (al, (s, (ts, v))) :: ops =>
      '(w, r) ← push_sample_to_window al c w s ts v;
      '(w, rs) ← window_run c w ops;
      Some (w, r :: rs)
  end.

Fixpoint fits_along c w (ops : list (alloc_seq * recorded)) : Prop :=
  window_fits w ∧
  match ops with
  | [] => True
  | (al, (s, (ts, v))) :: ops =>
      match push_sample_to_window al c w s ts v with Some (w, _) => fits_along c w ops | None => True end
  end.

Definition op_ok c (op : alloc_seq * recorded) : Prop :=
  grants_all op.1 ∧ in_u64 op.2.2.1 ∧ storable (encoding_for c (value_kind op.2.2.2)) op.2.2.2.

(** The samples whose push was accepted. *)
Definition accepted xs rs : list recorded := mjoin (zip_with (λ x r, match r with Ok true => [x] | _ => [] end) xs rs).

(** What the window answers when it holds [l]. *)
Definition window_result (start_ms : Z) l (x : recorded) (r : io_result bool) : Prop :=
  let '(s, (ts, v)) := x in
  let kind_free := of_series s l = [] ∨ kind_of (of_series s l) = value_kind v in
  match r with
  | Ok true => kind_free ∧ start_ms ≤ ts ∧ encodable v
  | Ok false => ¬ kind_free
  | Err _ => kind_free ∧ (ts < start_ms ∨ ¬ encodable v)
  end.

Lemma window_kind c w l s : window_rep c w l →
  match hw_series w !! s with
  | Some es => of_series s l ≠ [] ∧ encoded_kind es = kind_of (of_series s l)
  | None => of_series s l = []
  end.
Proof.
  intros (_ & _ & Hall). specialize (Hall s). destruct (hw_series w !! s) as [es|]; [|done].
  split; [apply Hall|]. apply (encoded_kind_of es c). by apply (entry_encoding c (hw_start_ms w) (hw_arena w)).
Qed.

(** A sample that was taken has an encoding, and the kind of its series. *)
Lemma window_pushed c w l s ts v :
  storable (encoding_for c (value_kind v)) v → window_rep c w (l ++ [(s, (ts, v))]) →
  (of_series s l = [] ∨ kind_of (of_series s l) = value_kind v) ∧ encodable v.
Proof.
  intros [Hex _] Hrep. pose proof (window_kind c w _ s Hrep) as Hk. destruct Hrep as (_ & _ & Hall). specialize (Hall s).
  rewrite of_series_app, of_series_hit in *.
  destruct (hw_series w !! s) as [es|]; [|by destruct (of_series s l)].
  destruct Hall as (_ & Hes & Henc). destruct (encoded_rep_typed _ _ _ _ Hes) as [k' Hk2].
  assert (∀ z, z ∈ of_series s l ++ [(ts, v)] → value_kind z.2 = encoded_kind es) as Hkinds.
  { intros z. rewrite Hk2. intros (z' & -> & _)%list_elem_of_fmap. rewrite encoded_kind_encoding. apply kind_from_value. }
  assert (value_kind v = encoded_kind es) as Hv.
  { apply (Hkinds (ts, v)), elem_of_app. right. by apply list_elem_of_singleton. }
  split.
  - destruct (of_series s l) as [|y k]; [by left|right]. rewrite Hv. apply (Hkinds y). by left.
  - rewrite <- Hv in Henc. rewrite <- Henc in Hex.
    pose proof (encoded_rep_encodable _ _ _ _ Hex Hes) as He. rewrite Forall_app, Forall_singleton in He. apply He.
Qed.

Lemma window_new_roomy n start_ms end_ms ooo : n ≤ u32_max → arena_roomy n (hw_arena (window_new start_ms end_ms ooo)).
Proof. intros Hn. split; [constructor|]. split; [done|]. cbn. by rewrite zlen_nil. Qed.

(** One push, against the specification. *)
Lemma window_push_result al c w l s ts v :
  window_rep c w l → window_fits w → in_u64 (hw_start_ms w) → block_size_ok c → op_ok c (al, (s, (ts, v))) →
  arena_roomy 10 (hw_arena w) → ar_adaptive (hw_arena w) = false →
  ∃ w' r, push_sample_to_window al c w s ts v = Some (w', r) ∧ same_window w w' ∧
    ar_adaptive (hw_arena w') = false ∧ keeps_room_n 10 (hw_arena w) (hw_arena w') ∧
    window_result (hw_start_ms w) l (s, (ts, v)) r ∧ window_rep c w' (l ++ accepted [(s, (ts, v))] [r]).
Proof.
  intros Hrep Hfits Hstart Hsize (Hal & Hts & Hv) Hroom Had. cbn [fst snd] in *.
  pose proof (window_push_rep al c w l s ts v Hrep Hfits Hstart Hts Hsize Hv) as Hp.
  pose proof (window_kind c w l s Hrep) as Hkind.
  destruct (push_sample_to_window al c w s ts v) as [[w' r]|]; [|by destruct Hp as [[]]].
  destruct Hp as (Hsame & Had' & Hroom' & Hout). exists w', r. rewrite Had in Had'. split_and!; try done.
  - destruct r as [[]|e]; cbn.
    + destruct Hout as [Hge Hrep']. pose proof (window_pushed c w' l s ts v Hv Hrep') as [Hk He]. by split_and!.
    + destruct Hout as [-> (es & Hes & Hne)]. rewrite Hes in Hkind. destruct Hkind as [Hnil Hk].
      intros [?|?]; [done|]. congruence.
    + destruct Hout as (_ & Hfree & Hor). split.
      { destruct (hw_series w !! s) as [es|] eqn:Hes; [|by left]. right. rewrite <- (Hfree es eq_refl). symmetry. apply Hkind. }
      destruct Hor as [?|[?|(x & Hx & Href)]]; [by left|congruence|]. right.
      by apply (refused_not_encodable _ v x (al 3%nat) e Hv Hx (Hal _)).
  - destruct r as [[]|e]; cbn; rewrite ?app_nil_r; [apply Hout| |apply Hout]. by destruct Hout as [-> _].
Qed.

Lemma accepted_cons x r xs rs : accepted (x :: xs) (r :: rs) = accepted [x] [r] ++ accepted xs rs.
Proof. unfold accepted. cbn. by rewrite app_nil_r. Qed.

Lemma window_run_rep c ops : ∀ w l,
  window_rep c w l → in_u64 (hw_start_ms w) → block_size_ok c → Forall (op_ok c) ops → fits_along c w ops →
  arena_roomy (10 * zlen ops) (hw_arena w) → ar_adaptive (hw_arena w) = false →
  ∃ w' rs, window_run c w ops = Some (w', rs) ∧ length rs = length ops ∧ same_window w w' ∧ window_fits w' ∧
    window_rep c w' (l ++ accepted ops.*2 rs) ∧
    ∀ i x r, ops.*2 !! i = Some x → rs !! i = Some r →
      window_result (hw_start_ms w) (l ++ accepted (take i ops.*2) (take i rs)) x r.
Proof.
  induction ops as [|[al [s [ts v]]] ops IH]; intros w l Hrep Hstart Hsize Hok [Hfits Halong] Hroom Had; cbn [window_run].
  { exists w, []. cbn. rewrite app_nil_r. split_and!; try done. }
  apply Forall_cons_1 in Hok as [Hop Hok]. rewrite zlen_cons in Hroom. pose proof (zlen_nonneg ops).
  destruct (window_push_result al c w l s ts v) as (w1 & r1 & Hp & Hsame & Had1 & Hroom1 & Hres & Hrep1); try done.
  { eapply roomy_le; [|exact Hroom]. lia. }
  rewrite Hp in *. cbn [mbind option_bind].
  destruct (IH w1 _ Hrep1) as (w2 & rs & -> & Hlen & Hsame2 & Hfits2 & Hrep2 & Hall); try done.
  { by rewrite (proj1 Hsame). }
  { apply Hroom1; [done|]. eapply roomy_le; [|exact Hroom]. lia. }
  cbn [mbind option_bind]. exists w2, (r1 :: rs). cbn [fmap list_fmap snd].
  rewrite accepted_cons, app_assoc. split_and!; try done; [cbn; by rewrite Hlen|..|].
  - destruct Hsame as (? & ? & ?), Hsame2 as (? & ? & ?). unfold same_window. split_and!; congruence.
  - intros [|i] x r Hx Hr; cbn in Hx, Hr.
    + injection Hx as <-. injection Hr as <-. cbn [take]. unfold accepted. cbn. by rewrite app_nil_r.
    + cbn [take]. rewrite accepted_cons, app_assoc. rewrite <- (proj1 Hsame). by apply Hall.
Qed.

(** Deciding [fits_along] on a concrete run. *)
Definition series_fitsb {V C} `{BlockCodec V C} (s : Series C) : bool :=
  match se_current s with
  | Some b => (zlen (bb_timestamps b) <=? u32_max) && (zlen (bc_snapshot_bytes (bb_values b)) <=? u32_max)
  | None => true
  end.
Definition encoded_fitsb (es : EncodedSeries) : bool := match es with Encoded e s => series_fitsb s | _ => true end.
Definition window_fitsb w : bool := forallb (λ x, encoded_fitsb x.2) (map_to_list (hw_series w)).
Fixpoint fits_alongb c w (ops : list (alloc_seq * recorded)) : bool :=
  window_fitsb w &&
  match ops with
  | [] => true
  | (al, (s, (ts, v))) :: ops =>
      match push_sample_to_window al c w s ts v with Some (w, _) => fits_alongb c w ops | None => true end
  end.

Lemma encoded_fitsb_ok es : encoded_fitsb es = true → encoded_fits es.
Proof.
  destruct es as [i|i|e s]; [done|done|]. unfold encoded_fitsb, series_fitsb, encoded_fits, series_fits, builder_small.
  destruct (se_current s); [|done]. intros [??]%andb_true_iff. lia.
Qed.
Lemma window_fitsb_ok w : window_fitsb w = true → window_fits w.
Proof.
  unfold window_fitsb. rewrite forallb_forall. intros Hall s es Hs. apply encoded_fitsb_ok, (Hall (s, es)).
  apply list_elem_of_In. by apply elem_of_map_to_list.
Qed.
Lemma fits_alongb_ok c ops : ∀ w, fits_alongb c w ops = true → fits_along c w ops.
Proof.
  induction ops as [|[al [s [ts v]]] ops IH]; intros w; cbn; intros [Hw Hall]%andb_true_iff; apply window_fitsb_ok in Hw; [done|].
  split; [done|]. destruct (push_sample_to_window al c w s ts v) as [[w' r]|]; [|done]. by apply IH.
Qed.

(** C3: a head window against a list of samples.  Whatever is pushed to it, for
    any number of series sharing its arena and with short number series staged
    inline, in the raw or the Gorilla encoding of floats and either encoding of
    every other kind, no push panics while memory is granted and the arena and the
    builders have room; a sample is dropped exactly when the kind of its series is
    another, refused exactly when it is of that kind but before the window's start
    or of a shape that has no encoding, and accepted otherwise; and any range reads
    back, for every series, exactly its accepted samples in the range, by timestamp
    and in arrival order among equal ones. *)
Theorem window_refines c start_ms end_ms ooo ops :
  block_size_ok c → in_u64 start_ms → 10 * zlen ops ≤ u32_max → Forall (op_ok c) ops →
  fits_along c (window_new start_ms end_ms ooo) ops →
  ∃ w rs, window_run c (window_new start_ms end_ms ooo) ops = Some (w, rs) ∧ length rs = length ops ∧
    (∀ i x r, ops.*2 !! i = Some x → rs !! i = Some r →
       window_result start_ms (accepted (take i ops.*2) (take i rs)) x r) ∧
    hw_datapoints w = Z.min (zlen (accepted ops.*2 rs)) u64_max ∧
    ∀ al a b, (∀ n, grants_all (al n)) →
      ∃ rows, series_samples_in_range al w a b = Ok rows ∧ range_rows_are c a b (accepted ops.*2 rs) rows.
Proof.
  intros Hsize Hstart Hroom Hok Halong.
  destruct (window_run_rep c ops _ [] (window_rep_new c start_ms end_ms ooo)) as (w & rs & Hrun & Hlen & _ & Hfits & Hrep & Hall);
    [done..|by apply window_new_roomy|done|].
  exists w, rs. split_and!; [done|done|done|apply Hrep|]. intros al a b Hal. by apply series_samples_in_range_rep.
Qed.
End window_runs.

(** ** Witnesses *)

#[local] Instance raw_other_codecs : OtherFloatCodecs := {|
  other_codec _ := RawCodec raw_f64;
  other_block_codec _ := raw_block_codec raw_f64;
|}.
#[local] Instance list_table_order : TableOrder := {|
  entries V m := map_to_list m;
  entries_perm V m := Permutation_refl (map_to_list m);
|}.

Definition head_config : HeadConfig :=
  mk_head_config (mk_duration 10 0) 1024 Gorilla DeltaZigZag RawVarLen (mk_duration 5 0) true.
Definition calm : alloc_seq := λ _, alloc_ok.
Definition window_sample_ops : list (alloc_seq * recorded) :=
  (calm,.) <$> [(7, (10_000, SampleFloat 0x3ff0000000000000)); (8, (10_500, SampleInt64 (-3)));
    (7, (10_400, SampleFloat 0x4000000000000000)); (7, (10_400, SampleInt64 1)); (7, (10_200, SampleFloat 1));
    (7, (9_999, SampleFloat 5)); (7, (10_900, SampleFloat 7)); (7, (10_901, SampleFloat 8)); (8, (10_500, SampleInt64 4))].

Lemma window_refines_witness : ∃ w rs,
  window_run head_config (window_new 10_000 20_000 false) window_sample_ops = Some (w, rs) ∧
  hw_datapoints w = Z.min (zlen (accepted window_sample_ops.*2 rs)) u64_max.
Proof.
  destruct (window_refines head_config 10_000 20_000 false window_sample_ops) as (w & rs & Hrun & _ & _ & Hn & _).
  - done.
  - done.
  - done.
  - unfold window_sample_ops. cbn [fmap list_fmap].
    repeat (apply Forall_cons; split; [split; [done|]; split; [cbn; unfold in_u64; lia|split; [cbn; auto|intros x [= <-]; done]]|]).
    apply Forall_nil. done.
  - apply fits_alongb_ok. vm_compute. reflexivity.
  - exists w, rs. split; [exact Hrun|exact Hn].
Defined.
