(* ===== verification/HeadBuffer.v ===== *)
(** * The head buffer

    [HeadBuffer] of [chronoxide-core/src/storage/head/buffer.rs] without live
    coverage: the active in-order window, the out-of-order windows by range, the
    completed windows a failed batch left behind, the latest timestamp of every
    series and the kind guards.  [None] is a panic of the arena.  The selector
    cache is not part of the state, and the last-timestamp table is a finite map. *)
From Stdlib Require Import Sorted.
From S2P Require Import Prelude Text Float64 Cursor TypedSamples Arena BlockCodec Block Sort Series EncodedSeries HeadWindow.

Definition window_for (timestamp_ms duration_ms : Z) : Z * Z :=
  let start_ms := saturating_sub timestamp_ms (timestamp_ms `mod` duration_ms) in
  (start_ms, saturating_add_u64 start_ms duration_ms).

(** [FrozenHeadLane] is [true] for the out-of-order lane. *)
Record KindGuardKey := mk_guard_key { gk_start_ms : Z; gk_end_ms : Z; gk_lane : bool; gk_series : Z }.
#[export] Instance guard_key_eq_dec : EqDecision KindGuardKey.
Proof. solve_decision. Defined.
#[export] Instance guard_key_countable : Countable KindGuardKey.
Proof.
  refine (inj_countable' (λ k, (gk_start_ms k, gk_end_ms k, gk_lane k, gk_series k)) (λ '(a, b, l, s), mk_guard_key a b l s) _).
  by intros [].
Defined.

Definition window_duration_ms (c : HeadConfig) : io_result Z :=
  let ms := as_millis (hc_window_duration c) in
  if ms =? 0 then fail InvalidInput "window_duration must be > 0"
  else if u64_max <? ms then fail InvalidInput "window_duration is too large"
  else Ok ms.
Definition out_of_order_time_window_ms (c : HeadConfig) : io_result Z :=
  let ms := as_millis (hc_out_of_order_time_window c) in
  if u64_max <? ms then fail InvalidInput "out_of_order_time_window is too large" else Ok ms.
Definition validate_block_size (c : HeadConfig) : io_result unit :=
  if hc_block_size c =? 0 then fail InvalidInput "block_size must be > 0"
  else if u32_max <? hc_block_size c then fail InvalidInput "block_size is too large"
  else Ok tt.
Definition validate_sample_timestamp (c : HeadConfig) (last_timestamp_ms : option Z) (timestamp_ms : Z) : io_result unit :=
  match last_timestamp_ms with
  | None => Ok tt
  | Some last =>
      if last <=? timestamp_ms then Ok tt
      else
        window_ms ← out_of_order_time_window_ms c;
        if timestamp_ms <? saturating_sub last window_ms then
          fail InvalidInput "sample is outside out_of_order_time_window"
        else Ok tt
  end.

Section head.
Context `{HO : OtherFloatCodecs} `{HT : TableOrder}.

Record HeadBuffer := mk_head {
  hb_config : HeadConfig;
  hb_window : option HeadWindow;
  hb_ooo_windows : gmap (Z * Z) HeadWindow;
  hb_retained_windows : list HeadWindow;
  hb_last_timestamps : gmap Z Z;
  hb_kind_guards : option (gmap KindGuardKey SampleKind);
  hb_live_coverage_tracking : bool;
}.
Implicit Types (h : HeadBuffer) (w : HeadWindow).

Definition with_window h (x : option HeadWindow) : HeadBuffer :=
  mk_head (hb_config h) x (hb_ooo_windows h) (hb_retained_windows h) (hb_last_timestamps h) (hb_kind_guards h)
    (hb_live_coverage_tracking h).
Definition with_ooo h (x : gmap (Z * Z) HeadWindow) : HeadBuffer :=
  mk_head (hb_config h) (hb_window h) x (hb_retained_windows h) (hb_last_timestamps h) (hb_kind_guards h)
    (hb_live_coverage_tracking h).
Definition with_retained h (x : list HeadWindow) : HeadBuffer :=
  mk_head (hb_config h) (hb_window h) (hb_ooo_windows h) x (hb_last_timestamps h) (hb_kind_guards h)
    (hb_live_coverage_tracking h).
Definition with_last h (x : gmap Z Z) : HeadBuffer :=
  mk_head (hb_config h) (hb_window h) (hb_ooo_windows h) (hb_retained_windows h) x (hb_kind_guards h)
    (hb_live_coverage_tracking h).
Definition with_guards h (x : option (gmap KindGuardKey SampleKind)) : HeadBuffer :=
  mk_head (hb_config h) (hb_window h) (hb_ooo_windows h) (hb_retained_windows h) (hb_last_timestamps h) x
    (hb_live_coverage_tracking h).

Definition head_new (c : HeadConfig) : io_result HeadBuffer :=
  _ ← window_duration_ms c;
  _ ← out_of_order_time_window_ms c;
  _ ← validate_block_size c;
  Ok (mk_head c None ∅ [] ∅ None false).

Definition head_is_empty h : bool :=
  bool_decide (hb_window h = None) && bool_decide (hb_ooo_windows h = ∅) && bool_decide (hb_retained_windows h = [])
  && bool_decide (hb_last_timestamps h = ∅).

Definition enable_live_coverage_tracking h : io_result unit * HeadBuffer :=
  if hb_live_coverage_tracking h then (Ok tt, h)
  else if negb (head_is_empty h) then
    (fail InvalidInput "live coverage tracking must be enabled before recording head samples", h)
  else (Ok tt, mk_head (hb_config h) (hb_window h) (hb_ooo_windows h) (hb_retained_windows h) (hb_last_timestamps h)
                 (hb_kind_guards h) true).

(** [ts < last] or before the active window. *)
Definition route_to_ooo h (previous : option Z) (ts : Z) : bool :=
  match previous with Some last => ts <? last | None => false end
  || match hb_window h with Some active => ts <? hw_start_ms active | None => false end.

(** The push into the window the sample belongs to; [al2] are the answers for
    sealing a window that completes.  The windows completed are the third part. *)
Definition push_routed (al1 al2 : alloc_seq) h (to_ooo : bool) (range : Z * Z) (series ts : Z) (value : SampleValue)
    : option (HeadBuffer * io_result bool * list HeadWindow) :=
  if to_ooo then
    match hb_ooo_windows h !! range with
    | Some target =>
        '(target, r) ← push_sample_to_window al1 (hb_config h) target series ts value;
        Some (with_ooo h (<[range := target]> (hb_ooo_windows h)), r, [])
    | None =>
        '(next, r) ← push_sample_to_window al1 (hb_config h) (window_new range.1 range.2 true) series ts value;
        match r with
        | Err e => Some (h, Err e, [])
        | Ok accepted => Some (with_ooo h (<[range := next]> (hb_ooo_windows h)), Ok accepted, [])
        end
    end
  else
    match hb_window h with
    | Some active =>
        if hw_end_ms active <=? ts then
          '(next, r) ← push_sample_to_window al1 (hb_config h) (window_new range.1 range.2 false) series ts value;
          match r with
          | Err e => Some (h, Err e, [])
          | Ok accepted =>
              completed ← seal_all_series al2 active;
              Some (with_window h (Some next), Ok accepted, [completed])
          end
        else
          '(active, r) ← push_sample_to_window al1 (hb_config h) active series ts value;
          Some (with_window h (Some active), r, [])
    | None =>
        '(next, r) ← push_sample_to_window al1 (hb_config h) (window_new range.1 range.2 false) series ts value;
        match r with
        | Err e => Some (h, Err e, [])
        | Ok accepted => Some (with_window h (Some next), Ok accepted, [])
        end
    end.

(** After an accepted sample: its kind guard and the series' latest timestamp. *)
Definition commit_accepted h (key : KindGuardKey) (kind : SampleKind) (series ts : Z) : io_result unit * HeadBuffer :=
  let latest h :=
    match hb_last_timestamps h !! series with
    | Some previous => if previous <? ts then with_last h (<[series := ts]> (hb_last_timestamps h)) else h
    | None => with_last h (<[series := ts]> (hb_last_timestamps h))
    end in
  match hb_kind_guards h with
  | None => (Ok tt, latest h)
  | Some guards =>
      match guards !! key with
      | Some existing =>
          if bool_decide (existing = kind) then (Ok tt, latest h)
          else (fail InvalidData "head kind guard changed during exclusive recording", h)
      | None => (Ok tt, latest (with_guards h (Some (<[key := kind]> guards))))
      end
  end.

(** One turn of the loop of [record_samples_owned::<false>]: whether the sample
    was recorded, and the windows it completed. *)
Definition record_step (al1 al2 : alloc_seq) h (duration_ms series ts : Z) (value : SampleValue)
    : option (HeadBuffer * io_result bool * list HeadWindow) :=
  let previous := hb_last_timestamps h !! series in
  match validate_sample_timestamp (hb_config h) previous ts with
  | Err e => Some (h, Err e, [])
  | Ok _ =>
      let range := window_for ts duration_ms in
      let to_ooo := route_to_ooo h previous ts in
      let key := mk_guard_key range.1 range.2 to_ooo series in
      let guarded := match hb_kind_guards h with
                     | Some guards => match guards !! key with
                                      | Some expected => negb (bool_decide (expected = value_kind value))
                                      | None => false
                                      end
                     | None => false
                     end in
      if guarded then Some (h, Ok false, [])
      else
        '(h, accepted, completed) ← push_routed al1 al2 h to_ooo range series ts value;
        match accepted with
        | Ok true =>
            let '(r, h) := commit_accepted h key (value_kind value) series ts in
            Some (h, (_ ← r; Ok true), completed)
        | r => Some (h, r, completed)
        end
  end.

(** Sample [i] is given the allocator's answers [al (2 i)] and [al (2 i + 1)].  On
    an error the windows completed so far are retained.  The count is checked
    before the latest timestamp is stored. *)
Fixpoint record_loop (al : nat → alloc_seq) h (duration_ms series : Z) (samples : list (Z * SampleValue))
    (flushed : list HeadWindow) (recorded : Z) : option (HeadBuffer * io_result (list HeadWindow * Z)) :=
  match samples with
  | [] => Some (h, Ok (flushed, recorded))
  | (ts, value) :: samples =>
      '(h', r, completed) ← record_step (al 0%nat) (al 1%nat) h duration_ms series ts value;
      let flushed := flushed ++ completed in
      match r with
      | Err e => Some (with_retained h' (hb_retained_windows h' ++ flushed), Err e)
      | Ok false => record_loop (λ n, al (2 + n)%nat) h' duration_ms series samples flushed recorded
      | Ok true =>
          match checked_add_u64 recorded 1 with
          | None => Some (with_last h' (hb_last_timestamps h), fail InvalidData "recorded sample count overflows")
          | Some recorded => record_loop (λ n, al (2 + n)%nat) h' duration_ms series samples flushed recorded
          end
      end
  end.

Definition record_samples_owned (al : nat → alloc_seq) h (series : Z) (samples : list (Z * SampleValue))
    : option (HeadBuffer * io_result (list HeadWindow * Z)) :=
  if hb_live_coverage_tracking h then Some (h, fail InvalidInput "untracked sample supplied to a live-coverage head")
  else
    match window_duration_ms (hb_config h) with
    | Err e => Some (h, Err e)
    | Ok duration_ms => record_loop al h duration_ms series samples [] 0
    end.

Record HeadRecordOutcome := mk_outcome { ho_recorded : bool; ho_completed_window : option HeadWindow }.

(** The window handed out for one sample: the oldest retained one first. *)
Definition hand_out h (flushed : list HeadWindow) (recorded : Z) : HeadBuffer * io_result HeadRecordOutcome :=
  if 1 <? zlen flushed then
    (with_retained h (hb_retained_windows h ++ flushed),
     fail InvalidData "one head sample unexpectedly rotated multiple windows")
  else
    let '(h, completed) :=
      match hb_retained_windows h with
      | [] => (h, last flushed)
      | retained :: rest => (with_retained h (rest ++ flushed), Some retained)
      end in
    (h, Ok (mk_outcome (recorded =? 1) completed)).

Definition record_sample_with_outcome (al : nat → alloc_seq) h (series timestamp_ms : Z) (value : SampleValue)
    : option (HeadBuffer * io_result HeadRecordOutcome) :=
  '(h, r) ← record_samples_owned al h series [(timestamp_ms, value)];
  Some (match r with Err e => (h, Err e) | Ok (flushed, recorded) => hand_out h flushed recorded end).

Definition record_samples (al : nat → alloc_seq) h (series : Z) (samples : list (Z * SampleValue))
    : option (HeadBuffer * io_result (list HeadWindow)) :=
  '(h, r) ← record_samples_owned al h series samples;
  match r with
  | Err e => Some (h, Err e)
  | Ok (flushed, _) => Some (with_retained h [], Ok (hb_retained_windows h ++ flushed))
  end.

Definition drain (al : alloc_seq) h : option (HeadBuffer * option HeadWindow) :=
  match hb_window h with
  | Some w => w ← seal_all_series al w; Some (with_window h None, Some w)
  | None => Some (h, None)
  end.

(** [sort_by_key] on a pair is two stable sorts. *)
Definition sort_windows (l : list HeadWindow) : list HeadWindow := sort_by_key hw_start_ms (sort_by_key hw_end_ms l).
(** A [BTreeMap] iterates in key order. *)
Definition ooo_entries (m : gmap (Z * Z) HeadWindow) : list ((Z * Z) * HeadWindow) :=
  sort_by_key (fst ∘ fst) (sort_by_key (snd ∘ fst) (map_to_list m)).

Fixpoint seal_windows (al : nat → alloc_seq) (l : list HeadWindow) : option (list HeadWindow) :=
  match l with
  | [] => Some []
  | w :: l =>
      w ← seal_all_series (al 0%nat) w;
      l ← seal_windows (λ n, al (S n)) l;
      Some (w :: l)
  end.

Definition drain_windows (al : nat → alloc_seq) h : option (HeadBuffer * list HeadWindow) :=
  ooo ← seal_windows (λ n, al (S n)) (snd <$> ooo_entries (hb_ooo_windows h));
  active ← seal_windows al (match hb_window h with Some w => [w] | None => [] end);
  Some (with_window (with_ooo (with_retained h []) ∅) None, sort_windows (hb_retained_windows h ++ ooo ++ active)).

Definition take_out_of_order_window h (start_ms end_ms : Z) : HeadBuffer * option HeadWindow :=
  (with_ooo h (delete (start_ms, end_ms) (hb_ooo_windows h)), hb_ooo_windows h !! (start_ms, end_ms)).
End head.

(** ** Ranges *)

Definition ts_ok (D ts : Z) : Prop := 0 ≤ ts ∧ ts + D ≤ u64_max.
Definition aligned (D start_ms end_ms : Z) : Prop :=
  end_ms = start_ms + D ∧ start_ms `mod` D = 0 ∧ 0 ≤ start_ms ∧ end_ms ≤ u64_max.

Lemma window_for_spec D ts : 0 < D → ts_ok D ts →
  ∃ start_ms, window_for ts D = (start_ms, start_ms + D) ∧ aligned D start_ms (start_ms + D) ∧ start_ms ≤ ts < start_ms + D.
Proof.
  intros HD [H1 H2]. unfold window_for, saturating_sub, saturating_add_u64. pose proof (Z.mod_pos_bound ts D HD).
  pose proof (Z.mod_le ts D H1 HD). exists (ts - ts `mod` D). rewrite Z.max_r, Z.min_l by lia. split_and!; try (done || lia).
  unfold aligned. split_and!; [done| |lia|lia]. rewrite Zminus_mod_idemp_r, Z.sub_diag. done.
Qed.
(** A range holds exactly the timestamps it is the window of. *)
Lemma window_for_range D start_ms end_ms ts : 0 < D → ts_ok D ts → aligned D start_ms end_ms →
  window_for ts D = (start_ms, end_ms) ↔ start_ms ≤ ts < end_ms.
Proof.
  intros HD Hts (-> & Hmod & H0 & Hmax). destruct (window_for_spec D ts HD Hts) as (s & -> & (_ & Hs & Hs0 & _) & Hr).
  split; [intros [= ->]; lia|]. intros Hin.
  apply Z.mod_divide in Hmod as [a ->]; [|lia]. apply Z.mod_divide in Hs as [b ->]; [|lia].
  assert (a < b + 1) by (apply (Z.mul_lt_mono_pos_r D); lia).
  assert (b < a + 1) by (apply (Z.mul_lt_mono_pos_r D); lia). by replace a with b by lia.
Qed.
Lemma aligned_disjoint D s1 e1 s2 e2 : 0 < D → aligned D s1 e1 → aligned D s2 e2 → s1 < s2 → e1 ≤ s2.
Proof.
  intros HD (-> & H1 & _) (-> & H2 & _) Hlt. apply Z.mod_divide in H1 as [a ->]; [|lia].
  apply Z.mod_divide in H2 as [b ->]; [|lia]. apply Z.mul_lt_mono_pos_r in Hlt; [|done].
  assert ((a + 1) * D ≤ b * D) by (apply Z.mul_le_mono_nonneg_r; lia). lia.
Qed.

(** ** The log of accepted samples *)

(** An accepted sample and its lane, [true] for out of order. *)
Abbreviation routed := (bool * recorded)%type.

(** What one window holds. *)
Definition lane_log (D : Z) (T : list routed) (range : Z * Z) (lane : bool) : list recorded :=
  snd <$> filter (λ p, p.1 = lane ∧ window_for p.2.2.1 D = range) T.

(** The latest accepted timestamp of a series, and the start of the active window. *)
Definition latest (s : Z) (T : list routed) : option Z :=
  foldl (λ m p, if decide (p.2.1 = s) then Some (match m with Some m => Z.max m p.2.2.1 | None => p.2.2.1 end) else m) None T.
Definition active_start (D : Z) (T : list routed) : option Z :=
  (λ p : routed, (window_for p.2.2.1 D).1) <$> last (filter (λ p, p.1 = false) T).

Inductive verdict := Rejected | Dropped | Accept (lane : bool).

(** What the head does with a sample after the log [T]: too late for the
    out-of-order window, of another kind than its series in its window, or
    accepted in a lane. *)
Definition head_verdict (c : HeadConfig) (D : Z) (T : list routed) (x : recorded) : verdict :=
  let '(s, (ts, v)) := x in
  let last := latest s T in
  if match last with Some last => ts <? saturating_sub last (as_millis (hc_out_of_order_time_window c)) | None => false end
  then Rejected
  else
    let lane := match last with Some last => ts <? last | None => false end
                || match active_start D T with Some start => ts <? start | None => false end in
    let same := of_series s (lane_log D T (window_for ts D) lane) in
    if decide (same = [] ∨ kind_of same = value_kind v) then Accept lane else Dropped.

(** The answer follows from the log: one of [Ok true], [Ok false] and an error. *)
Definition result_for (c : HeadConfig) (D : Z) (T : list routed) (x : recorded) (r : io_result bool) : Prop :=
  match r with
  | Ok true => (∃ lane, head_verdict c D T x = Accept lane) ∧ encodable x.2.2
  | Ok false => head_verdict c D T x = Dropped
  | Err _ => head_verdict c D T x = Rejected ∨ (∃ lane, head_verdict c D T x = Accept lane) ∧ ¬ encodable x.2.2
  end.
Definition grow (c : HeadConfig) (D : Z) (T : list routed) (x : recorded) (r : io_result bool) : list routed :=
  match r, head_verdict c D T x with Ok true, Accept lane => T ++ [(lane, x)] | _, _ => T end.

Lemma lane_log_snoc D T lane x range b :
  lane_log D (T ++ [(lane, x)]) range b =
  lane_log D T range b ++ (if decide (lane = b ∧ window_for x.2.1 D = range) then [x] else []).
Proof.
  unfold lane_log. rewrite filter_app, fmap_app. f_equal. rewrite filter_cons, filter_nil.
  do 2 case_decide; cbn [fst snd] in *; (done || tauto).
Qed.
Lemma lane_log_elem D T range b x : x ∈ lane_log D T range b → (b, x) ∈ T ∧ window_for x.2.1 D = range.
Proof.
  unfold lane_log. intros ([l y] & -> & Hy)%list_elem_of_fmap. apply list_elem_of_filter in Hy as [[Hl Hr] Hy].
  cbn in *. by subst l.
Qed.
Lemma lane_log_empty D T range b : (∀ x, (b, x) ∈ T → window_for x.2.1 D ≠ range) → lane_log D T range b = [].
Proof.
  intros Hno. destruct (lane_log D T range b) as [|x l] eqn:Hl; [done|].
  assert (x ∈ lane_log D T range b) as Hx by (rewrite Hl; by left). apply lane_log_elem in Hx as [Hx Hr].
  by apply Hno in Hx.
Qed.
Lemma lane_log_length D T range b : zlen (lane_log D T range b) ≤ zlen T.
Proof. unfold lane_log, zlen. rewrite length_fmap. pose proof (length_filter (λ p : routed, p.1 = b ∧ window_for p.2.2.1 D = range) T). lia. Qed.

Lemma latest_snoc s T p :
  latest s (T ++ [p]) =
  if decide (p.2.1 = s) then Some (match latest s T with Some m => Z.max m p.2.2.1 | None => p.2.2.1 end) else latest s T.
Proof. unfold latest. by rewrite foldl_app. Qed.
Lemma latest_ge s T p : p ∈ T → p.2.1 = s → ∃ m, latest s T = Some m ∧ p.2.2.1 ≤ m.
Proof.
  induction T as [|q T IH] using rev_ind; [by intros Hp%elem_of_nil|]. intros [Hp|Hp%list_elem_of_singleton]%elem_of_app Hs;
    rewrite latest_snoc.
  - destruct (IH Hp Hs) as (m & -> & Hm). case_decide; eexists; (split; [done|]); lia.
  - subst q. rewrite decide_True by done. eexists. split; [done|]. destruct (latest s T); lia.
Qed.
Lemma active_start_snoc D T lane x :
  active_start D (T ++ [(lane, x)]) = if lane then active_start D T else Some (window_for x.2.1 D).1.
Proof.
  unfold active_start. rewrite filter_app, filter_cons, filter_nil. cbn. destruct lane.
  - by rewrite decide_False, app_nil_r.
  - rewrite decide_True by done. by rewrite last_snoc.
Qed.

(** ** The head against the log *)

Section head_spec.
Context `{HO : OtherFloatCodecs} `{HT : TableOrder}.
Variable (c : HeadConfig) (D : Z).

(** A configuration the constructor accepts, with its window in milliseconds. *)
Definition config_ok : Prop :=
  0 < D ∧ window_duration_ms c = Ok D ∧ 0 ≤ as_millis (hc_out_of_order_time_window c) ≤ u64_max ∧
  block_size_ok c.

(** A window of one lane, holding that part of the log. *)
Record window_is (T : list routed) (lane : bool) (w : HeadWindow) : Prop := {
  wi_lane : hw_out_of_order w = lane;
  wi_range : aligned D (hw_start_ms w) (hw_end_ms w);
  wi_log : window_rep c w (lane_log D T (hw_start_ms w, hw_end_ms w) lane);
}.
(** A window that takes samples; [n] is its room. *)
Definition open_window (n : Z) (T : list routed) (lane : bool) (w : HeadWindow) : Prop :=
  window_is T lane w ∧ ar_adaptive (hw_arena w) = false ∧ arena_roomy n (hw_arena w).
Definition sealed_window (T : list routed) (lane : bool) (w : HeadWindow) : Prop :=
  window_is T lane w ∧ window_sealed w ∧ seal_room w.
Abbreviation completed_window T w := (sealed_window T false w).

(** A late sample was behind its series or behind the active window, so an in-order
    sample of its series that comes after it has a later timestamp. *)
Record log_ok (T : list routed) : Prop := {
  lo_samples : Forall (λ p : routed, ts_ok D p.2.2.1) T;
  lo_late (x : recorded) : (true, x) ∈ T → (∃ m, latest x.1 T = Some m ∧ x.2.1 < m) ∨
    ∃ start, active_start D T = Some start ∧ x.2.1 < start;
  lo_order : StronglySorted (λ p q : routed, p.1 = true → q.1 = false → p.2.1 = q.2.1 → p.2.2.1 < q.2.2.1) T;
}.

(** [N] samples in all, [R] of them to come, and the windows completed so far. *)
Record head_inv (N R : Z) (h : HeadBuffer) (completed : list HeadWindow) (T : list routed) : Prop := {
  hi_config : hb_config h = c;
  hi_live : hb_live_coverage_tracking h = false;
  hi_guards : hb_kind_guards h = None;
  hi_log : log_ok T;
  hi_count : zlen T + R ≤ N;
  hi_room : 0 ≤ R;
  hi_start : hw_start_ms <$> hb_window h = active_start D T;
  hi_active w : hb_window h = Some w → open_window (10 * R + 4 * N) T false w;
  hi_completed : Forall (λ w, completed_window T w ∧
    ∃ active, hb_window h = Some active ∧ hw_end_ms w ≤ hw_start_ms active) completed;
  hi_distinct : NoDup (hw_start_ms <$> completed);
  hi_ooo k o : hb_ooo_windows h !! k = Some o →
    k = (hw_start_ms o, hw_end_ms o) ∧ open_window (10 * R + 4 * N) T true o;
  hi_cover (b : bool) (x : recorded) : (b, x) ∈ T → ∃ w, window_for x.2.1 D = (hw_start_ms w, hw_end_ms w) ∧
    if b then hb_ooo_windows h !! (hw_start_ms w, hw_end_ms w) = Some w
    else hb_window h = Some w ∨ w ∈ completed;
  hi_last s : hb_last_timestamps h !! s = latest s T;
}.

Definition head_fits (h : HeadBuffer) : Prop :=
  (∀ w, hb_window h = Some w → window_fits w) ∧ ∀ k o, hb_ooo_windows h !! k = Some o → window_fits o.

Definition sample_ok (x : recorded) : Prop :=
  ts_ok D x.2.1 ∧ storable (encoding_for c (value_kind x.2.2)) x.2.2.

(** *** Windows when the log grows *)

Lemma window_is_other T lane x lane' w :
  window_is T lane' w → (lane = lane' → window_for x.2.1 D ≠ (hw_start_ms w, hw_end_ms w)) →
  window_is (T ++ [(lane, x)]) lane' w.
Proof.
  intros [Hl Hr Hlog] Hno. split; [done|done|]. rewrite lane_log_snoc, decide_False, app_nil_r; [done|].
  intros [He Hw]. by apply Hno.
Qed.
Lemma window_is_hit T lane s ts v w w' :
  window_is T lane w → same_window w w' → window_for ts D = (hw_start_ms w, hw_end_ms w) →
  window_rep c w' (lane_log D T (hw_start_ms w, hw_end_ms w) lane ++ [(s, (ts, v))]) →
  window_is (T ++ [(lane, (s, (ts, v)))]) lane w'.
Proof.
  intros [Hl Hr Hlog] (Hs & He & Ho) Hw Hrep. split; rewrite ?Ho, ?Hs, ?He; [done|done|].
  by rewrite lane_log_snoc, decide_True.
Qed.
Lemma sealed_fits w : window_sealed w → window_fits w.
Proof.
  intros Hs s es Hl. specialize (Hs s es Hl). destruct es as [i|i|e se]; [done|done|]. cbn in *. unfold series_fits.
  by rewrite Hs.
Qed.
Lemma window_in_range T lane w : 0 < D → Forall (λ p : routed, ts_ok D p.2.2.1) T → window_is T lane w →
  in_window_range w (lane_log D T (hw_start_ms w, hw_end_ms w) lane).
Proof.
  intros HD HT' [Hl Hr _]. apply Forall_forall. intros x Hx. apply lane_log_elem in Hx as [Hx Hw].
  apply (proj1 (Forall_forall _ _) HT') in Hx. cbn in Hx. by apply (window_for_range D) in Hw.
Qed.

(** Sealing an open window. *)
Lemma complete_window al N R T lane w :
  open_window (10 * R + 4 * N) T lane w → window_fits w → 0 ≤ R → zlen T ≤ N → grants_all al →
  ∃ w', seal_all_series al w = Some w' ∧ sealed_window T lane w' ∧ same_window w w'.
Proof.
  intros ([Hl Hr Hlog] & Had & Hroom) Hfits HR HN Hal. pose proof (seal_all_rep al c w _ Hlog Hfits) as Hs.
  pose proof (window_size c w _ Hlog) as Hsize.
  pose proof (lane_log_length D T (hw_start_ms w, hw_end_ms w) lane) as Hlen.
  destruct (seal_all_series al w) as [w'|].
  - destruct Hs as (Hsame & Hrep & Hsealed & Hdom & Hr2). exists w'. split_and!; [done| |done]. pose proof Hsame as (Hs1 & Hs2 & Hs3).
    split; [split; rewrite ?Hs1, ?Hs2, ?Hs3; done|]. split; [done|]. unfold seal_room. apply Hr2.
    assert (size (hw_series w') = size (hw_series w)) as -> by by rewrite <- !size_dom, Hdom.
    eapply roomy_le; [|exact Hroom]. lia.
  - exfalso. apply Hs. split; [done|]. eapply roomy_le; [|exact Hroom]. lia.
Qed.

(** A push into a window of the log. *)
Lemma push_open al N R T lane w s ts v :
  config_ok → open_window (10 * (R + 1) + 4 * N) T lane w → window_fits w → 0 ≤ R → 0 ≤ N → grants_all al →
  sample_ok (s, (ts, v)) → window_for ts D = (hw_start_ms w, hw_end_ms w) →
  ∃ w' r, push_sample_to_window al c w s ts v = Some (w', r) ∧ same_window w w' ∧
    window_result (hw_start_ms w) (lane_log D T (hw_start_ms w, hw_end_ms w) lane) (s, (ts, v)) r ∧
    ar_adaptive (hw_arena w') = false ∧ arena_roomy (10 * R + 4 * N) (hw_arena w') ∧
    match r with Ok true => window_is (T ++ [(lane, (s, (ts, v)))]) lane w' | _ => window_is T lane w' end.
Proof.
  intros (HD & _ & _ & Hsize) (Hw & Had & Hroom) Hfits HR HN Hal [Hts Hv] Hrange. pose proof Hw as [Hl Hr Hlog]. cbn [fst snd] in *.
  assert (in_u64 (hw_start_ms w)) as Hstart by (destruct Hr as (? & _ & ? & ?); unfold in_u64; lia).
  assert (in_u64 ts) as Hts' by (destruct Hts; unfold in_u64; lia).
  destruct (window_push_result al c w _ s ts v Hlog Hfits Hstart Hsize) as (w' & r & Hp & Hsame & Had' & Hroom' & Hres & Hrep);
    [done| |done|].
  { eapply roomy_le; [|exact Hroom]. lia. }
  exists w', r. split_and!; try done.
  - apply Hroom'; [done|]. eapply roomy_le; [|exact Hroom]. lia.
  - destruct Hsame as (Hs1 & Hs2 & Hs3). destruct r as [[]|e]; cbn in Hrep; rewrite ?app_nil_r in Hrep.
    + by apply (window_is_hit T lane s ts v w).
    + split; rewrite ?Hs1, ?Hs2, ?Hs3; done.
    + split; rewrite ?Hs1, ?Hs2, ?Hs3; done.
Qed.

(** *** The log when it grows *)

(** The lane of a sample after [T]. *)
Definition lane_of (T : list routed) (s ts : Z) : bool :=
  match latest s T with Some last => ts <? last | None => false end
  || match active_start D T with Some start => ts <? start | None => false end.

Lemma StronglySorted_snoc {A} (P : A → A → Prop) l x :
  StronglySorted P l → Forall (λ y, P y x) l → StronglySorted P (l ++ [x]).
Proof.
  induction 1 as [|y l Hl IH Hy]; intros Hall; cbn; [repeat constructor|]. apply Forall_cons_1 in Hall as [Hyx Hall].
  constructor; [by apply IH|]. by apply Forall_snoc.
Qed.

Lemma StronglySorted_filter {A} (P : A → A → Prop) (Q : A → Prop) `{!∀ x, Decision (Q x)} l :
  StronglySorted P l → StronglySorted P (filter Q l).
Proof.
  induction 1 as [|x l Hl IH Hx]; [constructor|]. rewrite filter_cons. case_decide; [|done].
  constructor; [done|]. apply Forall_forall. intros y [_ Hy]%list_elem_of_filter. by apply (proj1 (Forall_forall _ _) Hx).
Qed.

Lemma active_start_aligned T start :
  0 < D → Forall (λ p : routed, ts_ok D p.2.2.1) T → active_start D T = Some start → aligned D start (start + D).
Proof.
  intros HD Hall. unfold active_start. intros (p & Hp%last_Some_elem_of & ->)%fmap_Some_1.
  apply list_elem_of_filter in Hp as [_ Hp]. apply (proj1 (Forall_forall _ _) Hall) in Hp.
  by destruct (window_for_spec D p.2.2.1 HD Hp) as (st & -> & Ha & _).
Qed.

Lemma log_ok_grow T s ts v :
  0 < D → log_ok T → ts_ok D ts → log_ok (T ++ [(lane_of T s ts, (s, (ts, v)))]).
Proof.
  intros HD [Hs Hlate Hord] Hts. unfold lane_of.
  destruct (window_for_spec D ts HD Hts) as (start & Hw & Hal & Hin).
  set (behind := match latest s T with Some last => ts <? last | None => false end).
  set (before := match active_start D T with Some start => ts <? start | None => false end).
  assert (behind = false → before = false →
    ∀ x, (true, x) ∈ T → (x.1 = s → x.2.1 < ts) ∧ ∀ st, active_start D T = Some st → st ≤ start) as Hnew.
  { intros Hb1 Hb2 x Hx. unfold behind, before in *. split.
    - intros Hxs. destruct (Hlate x Hx) as [(m & Hm & Hlt)|(st & Hst & Hlt)].
      + rewrite <- Hxs, Hm in Hb1. lia.
      + rewrite Hst in Hb2. lia.
    - intros st Hst. rewrite Hst in Hb2. pose proof (active_start_aligned T st HD Hs Hst) as Hal2.
      destruct (Z.le_gt_cases st start) as [|Hgt]; [done|].
      pose proof (aligned_disjoint D start _ st _ HD Hal Hal2 ltac:(lia)). lia. }
  split.
  - by apply Forall_snoc.
  - intros x Hx. rewrite active_start_snoc, latest_snoc. cbn [fst snd].
    apply elem_of_app in Hx as [Hx|Hx%list_elem_of_singleton].
    + destruct (Hlate x Hx) as [(m & Hm & Hlt)|(st & Hst & Hlt)].
      * left. rewrite Hm. case_decide; eexists; (split; [done|]); lia.
      * right. destruct (behind || before) eqn:Hor; [by exists st|]. apply orb_false_iff in Hor as [Hb1 Hb2].
        rewrite Hw. exists start. split; [done|]. destruct (Hnew Hb1 Hb2 x Hx) as [_ H2]. specialize (H2 st Hst). lia.
    + injection Hx as Hb ->. cbn [fst snd]. rewrite <- Hb. symmetry in Hb. apply orb_true_iff in Hb as [Hb|Hb].
      * left. unfold behind in Hb. destruct (latest s T) as [m|]; [|done]. rewrite decide_True by done. eexists. split; [done|]. lia.
      * right. unfold before in Hb. destruct (active_start D T) as [st|]; [|done]. exists st. split; [done|]. lia.
  - apply StronglySorted_snoc; [done|]. apply Forall_forall. intros [b x] Hx Hb Hl Hsame. cbn in Hb, Hl, Hsame |- *.
    subst b. apply orb_false_iff in Hl as [Hb1 Hb2]. by apply (Hnew Hb1 Hb2 x Hx).
Qed.

(** *** One window changes *)

Definition grown (T : list routed) (lane : bool) (x : recorded) (r : io_result bool) : list routed :=
  match r with Ok true => T ++ [(lane, x)] | _ => T end.

Lemma grown_elem T lane x r p : p ∈ grown T lane x r → p ∈ T ∨ p = (lane, x).
Proof.
  unfold grown. destruct r as [[]|]; [|by left..]. intros [?|?%list_elem_of_singleton]%elem_of_app; by auto.
Qed.
Lemma window_is_grown T lane x r lane' w :
  window_is T lane' w → (lane = lane' → window_for x.2.1 D ≠ (hw_start_ms w, hw_end_ms w)) →
  window_is (grown T lane x r) lane' w.
Proof. intros Hw Hno. unfold grown. destruct r as [[]|]; [|done..]. by apply window_is_other. Qed.
Lemma open_window_grown n m T lane x r lane' w :
  open_window n T lane' w → m ≤ n → (lane = lane' → window_for x.2.1 D ≠ (hw_start_ms w, hw_end_ms w)) →
  open_window m (grown T lane x r) lane' w.
Proof.
  intros (Hw & Had & Hroom) Hm Hno. split_and!; [by apply window_is_grown|done|by eapply roomy_le].
Qed.
Lemma completed_window_grown T lane x r w :
  completed_window T w → (lane = false → window_for x.2.1 D ≠ (hw_start_ms w, hw_end_ms w)) →
  completed_window (grown T lane x r) w.
Proof. intros (Hw & Hs) Hno. split; [by apply window_is_grown|done]. Qed.

Lemma ooo_inv N R h h' comp T x r o :
  head_inv N (R + 1) h comp T → 0 ≤ R → hb_config h' = c → hb_live_coverage_tracking h' = false → hb_kind_guards h' = None →
  hb_window h' = hb_window h →
  hb_ooo_windows h' = <[(hw_start_ms o, hw_end_ms o) := o]> (hb_ooo_windows h) →
  (∀ s, hb_last_timestamps h' !! s = latest s (grown T true x r)) →
  window_for x.2.1 D = (hw_start_ms o, hw_end_ms o) →
  open_window (10 * R + 4 * N) (grown T true x r) true o → log_ok (grown T true x r) →
  head_inv N R h' comp (grown T true x r).
Proof.
  intros [Hc Hl Hg Hlog Hn _ Hstart Hact Hcomp Hnd Hooo Hcov Hlast] HR Hc' Hl' Hg' Hw' Ho' Hlast' Hx Ho Hlog'.
  split; try done.
  - unfold grown. destruct r as [[]|]; rewrite ?zlen_app, ?zlen_cons, ?zlen_nil; lia.
  - rewrite Hw', Hstart. unfold grown. destruct r as [[]|]; [|done..]. by rewrite active_start_snoc.
  - intros w. rewrite Hw'. intros Hw. eapply open_window_grown; [by apply Hact|lia|done].
  - rewrite Hw'. eapply Forall_impl; [exact Hcomp|]. intros w [Hcw Ha]. split; [|done]. by apply completed_window_grown.
  - intros k w. rewrite Ho'. intros [[<- <-]|[Hne Hw]]%lookup_insert_Some; [done|].
    destruct (Hooo k w Hw) as [-> Hopen]. split; [done|]. eapply open_window_grown; [done|lia|]. intros _. by rewrite Hx.
  - intros b y [Hy|[= -> ->]]%grown_elem.
    + destruct (Hcov b y Hy) as (w & Hwy & Hin). rewrite Hw', Ho'. destruct b; [|by exists w].
      destruct (decide ((hw_start_ms o, hw_end_ms o) = (hw_start_ms w, hw_end_ms w))) as [He|Hne].
      * exists o. rewrite Hwy, <- He, lookup_insert_eq. done.
      * exists w. by rewrite lookup_insert_ne.
    + exists o. by rewrite Ho', lookup_insert_eq.
Qed.

Lemma inorder_inv N R h h' comp comp' T x r w :
  0 < D → head_inv N (R + 1) h comp T → 0 ≤ R → hb_config h' = c → hb_live_coverage_tracking h' = false →
  hb_kind_guards h' = None → hb_window h' = Some w → hb_ooo_windows h' = hb_ooo_windows h →
  (∀ s, hb_last_timestamps h' !! s = latest s (grown T false x r)) →
  window_for x.2.1 D = (hw_start_ms w, hw_end_ms w) →
  open_window (10 * R + 4 * N) (grown T false x r) false w → log_ok (grown T false x r) →
  active_start D (grown T false x r) = Some (hw_start_ms w) →
  Forall (λ u, completed_window T u ∧ hw_end_ms u ≤ hw_start_ms w) comp' → NoDup (hw_start_ms <$> comp') →
  (∀ u, hb_window h = Some u ∨ u ∈ comp → ∃ u', (hw_start_ms u', hw_end_ms u') = (hw_start_ms u, hw_end_ms u) ∧
     (u' = w ∨ u' ∈ comp')) →
  head_inv N R h' comp' (grown T false x r).
Proof.
  intros HD [Hc Hl Hg Hlog Hn _ Hstart Hact Hcomp Hnd Hooo Hcov Hlast] HR Hc' Hl' Hg' Hw' Ho' Hlast' Hx Hopen Hlog' Hst
    Hcomp' Hnd' Hkeep. split; try done.
  - unfold grown. destruct r as [[]|]; rewrite ?zlen_app, ?zlen_cons, ?zlen_nil; lia.
  - by rewrite Hw', Hst.
  - intros u. rewrite Hw'. by intros [= <-].
  - rewrite Hw'. eapply Forall_impl; [exact Hcomp'|]. intros u [Hcu Hle]. split; [|by exists w].
    apply completed_window_grown; [done|]. intros _. rewrite Hx. intros [= Hs He].
    destruct Hcu as [[_ (? & _) _] _]. lia.
  - intros k o. rewrite Ho'. intros Hk. destruct (Hooo k o Hk) as [-> Ho]. split; [done|].
    eapply open_window_grown; [done|lia|done].
  - intros b y [Hy|[= -> ->]]%grown_elem.
    + destruct (Hcov b y Hy) as (u & Hu & Hin). rewrite Ho', Hw'. destruct b; [by exists u|].
      destruct (Hkeep u Hin) as (u' & Hr & Hor). exists u'. rewrite Hu, Hr. split; [done|]. destruct Hor as [->|]; by auto.
    + exists w. rewrite Hw'. by auto.
Qed.

(** *** One sample *)

Lemma verdict_lane T s ts v :
  head_verdict c D T (s, (ts, v)) =
  if match latest s T with
     | Some last => ts <? saturating_sub last (as_millis (hc_out_of_order_time_window c))
     | None => false
     end then Rejected
  else if decide (of_series s (lane_log D T (window_for ts D) (lane_of T s ts)) = [] ∨
                  kind_of (of_series s (lane_log D T (window_for ts D) (lane_of T s ts))) = value_kind v)
  then Accept (lane_of T s ts) else Dropped.
Proof. done. Qed.

Lemma route_lane N R h comp T s ts :
  head_inv N R h comp T → route_to_ooo h (hb_last_timestamps h !! s) ts = lane_of T s ts.
Proof.
  intros Hi. unfold route_to_ooo, lane_of. rewrite (hi_last _ _ _ _ _ Hi), <- (hi_start _ _ _ _ _ Hi).
  by destruct (hb_window h).
Qed.

Lemma validate_verdict N R h comp T s ts :
  config_ok → head_inv N R h comp T → 0 ≤ ts →
  match validate_sample_timestamp (hb_config h) (hb_last_timestamps h !! s) ts with
  | Ok _ => match latest s T with
            | Some last => ts <? saturating_sub last (as_millis (hc_out_of_order_time_window c)) | None => false end = false
  | Err _ => match latest s T with
             | Some last => ts <? saturating_sub last (as_millis (hc_out_of_order_time_window c)) | None => false end = true
  end.
Proof.
  intros (_ & _ & Hms & _) Hi Hts. rewrite (hi_last _ _ _ _ _ Hi), (hi_config _ _ _ _ _ Hi).
  unfold validate_sample_timestamp, out_of_order_time_window_ms. destruct (latest s T) as [last|]; [|done].
  rewrite (proj2 (Z.ltb_ge u64_max _)) by lia. cbn [mbind result_bind]. unfold saturating_sub.
  destruct (Z.leb_spec last ts); [apply Z.ltb_ge; lia|].
  by destruct (_ <? _).
Qed.

Definition committed (h : HeadBuffer) (key : KindGuardKey) (s ts : Z) (v : SampleValue) (r : io_result bool) : HeadBuffer :=
  match r with Ok true => (commit_accepted h key (value_kind v) s ts).2 | _ => h end.

(** Only the latest timestamps change. *)
Lemma committed_spec h key s ts v r :
  hb_kind_guards h = None →
  let h' := committed h key s ts v r in
  hb_config h' = hb_config h ∧ hb_live_coverage_tracking h' = hb_live_coverage_tracking h ∧ hb_kind_guards h' = None ∧
  hb_window h' = hb_window h ∧ hb_ooo_windows h' = hb_ooo_windows h ∧ hb_retained_windows h' = hb_retained_windows h ∧
  ∀ T lane, (∀ s', hb_last_timestamps h !! s' = latest s' T) →
    ∀ s', hb_last_timestamps h' !! s' = latest s' (grown T lane (s, (ts, v)) r).
Proof.
  intros Hg. unfold committed, grown. destruct r as [[]|]; [|by split_and!..]. unfold commit_accepted. rewrite Hg. cbn [snd].
  assert (∀ T lane m, (∀ s', hb_last_timestamps h !! s' = latest s' T) →
    match latest s T with Some m => Z.max m ts | None => ts end = m →
    ∀ s', (<[s := m]> (hb_last_timestamps h)) !! s' = latest s' (T ++ [(lane, (s, (ts, v)))])) as Hins.
  { intros T lane m HT' Hm s'. rewrite latest_snoc. cbn. destruct (decide (s = s')) as [->|Hne].
    - by rewrite lookup_insert_eq, Hm.
    - by rewrite lookup_insert_ne. }
  destruct (hb_last_timestamps h !! s) as [m|] eqn:Hl; [destruct (Z.ltb_spec m ts)|]; split_and!; try done.
  - intros T lane HT'. apply Hins; [done|]. rewrite <- HT', Hl. lia.
  - intros T lane HT' s'. rewrite latest_snoc. cbn. case_decide as Hs; [|done]. subst s'. rewrite <- HT', Hl. f_equal. lia.
  - intros T lane HT'. apply Hins; [done|]. by rewrite <- HT', Hl.
Qed.

Lemma record_step_unguarded al1 al2 h s ts v :
  hb_kind_guards h = None → (∃ u, validate_sample_timestamp (hb_config h) (hb_last_timestamps h !! s) ts = Ok u) →
  ∃ key, ∀ h1 r completed,
    push_routed al1 al2 h (route_to_ooo h (hb_last_timestamps h !! s) ts) (window_for ts D) s ts v = Some (h1, r, completed) →
    hb_kind_guards h1 = None →
    record_step al1 al2 h D s ts v = Some (committed h1 key s ts v r, r, completed).
Proof.
  intros Hg [u Hu].
  exists (mk_guard_key (window_for ts D).1 (window_for ts D).2 (route_to_ooo h (hb_last_timestamps h !! s) ts) s). intros h1 r comp Hp Hg1. unfold record_step. rewrite Hu, Hg, Hp. cbn [mbind option_bind].
  destruct r as [[]|]; [|done..]. unfold committed, commit_accepted. by rewrite Hg1.
Qed.

Lemma result_of_window T s ts v start r :
  match latest s T with
  | Some last => ts <? saturating_sub last (as_millis (hc_out_of_order_time_window c)) | None => false end = false →
  start ≤ ts → window_result start (lane_log D T (window_for ts D) (lane_of T s ts)) (s, (ts, v)) r →
  result_for c D T (s, (ts, v)) r ∧ grow c D T (s, (ts, v)) r = grown T (lane_of T s ts) (s, (ts, v)) r.
Proof.
  intros Hlate Hstart Hr. unfold result_for, grow, grown. rewrite verdict_lane, Hlate. destruct r as [[]|e]; cbn in Hr.
  - rewrite decide_True by apply Hr. split; [split; [by eexists|apply Hr]|done].
  - by rewrite decide_False.
  - split; [|done]. destruct Hr as [Hfree [Hr|Hr]]; [lia|]. right. rewrite decide_True by done. by split; [eexists|].
Qed.

Lemma open_window_le n m T lane w : open_window n T lane w → m ≤ n → open_window m T lane w.
Proof. intros (? & ? & ?) Hm. split_and!; [done|done|]. by eapply roomy_le. Qed.
Lemma inv_skip N R h comp T : head_inv N (R + 1) h comp T → 0 ≤ R → head_inv N R h comp T.
Proof.
  intros [? ? ? ? ? ? ? Hact ? ? Hooo ? ?] HR. split; try done; [lia| |].
  - intros w Hww. eapply open_window_le; [by apply Hact|lia].
  - intros k w Hk. destruct (Hooo k w Hk) as [-> Ho]. split; [done|]. eapply open_window_le; [done|lia].
Qed.

(** A window no sample of the log belongs to is as new. *)
Lemma open_window_new T lane start_ms end_ms n :
  aligned D start_ms end_ms → lane_log D T (start_ms, end_ms) lane = [] → n ≤ u32_max →
  open_window n T lane (window_new start_ms end_ms lane) ∧ window_fits (window_new start_ms end_ms lane).
Proof.
  intros Ha Hl Hn. split; [|intros s es Hs; cbn in Hs; by rewrite lookup_empty in Hs].
  split; [|split; [done|by apply window_new_roomy]]. split; [done|done|]. cbn [hw_start_ms hw_end_ms window_new]. rewrite Hl.
  apply window_rep_new.
Qed.

Lemma seal_completes_one al1 al2 h to_ooo range s ts v h1 r done :
  push_routed al1 al2 h to_ooo range s ts v = Some (h1, r, done) →
  (done = [] ∨ ∃ w, done = [w]) ∧ (∀ e, r = Err e → done = []) ∧ hb_retained_windows h1 = hb_retained_windows h.
Proof.
  unfold push_routed. intros Hp.
  repeat match type of Hp with
  | context [match ?m with _ => _ end] => destruct m eqn:?; cbn [mbind option_bind] in Hp; try discriminate Hp
  | mbind _ ?m = _ => destruct m as [[]|] eqn:?; cbn [mbind option_bind] in Hp; try discriminate Hp
  end; simplify_eq; naive_solver.
Qed.
Section step.
Variables (al1 al2 : alloc_seq) (N R : Z) (h : HeadBuffer) (comp : list HeadWindow) (T : list routed) (s ts : Z) (v : SampleValue).
Hypotheses (Hc : config_ok) (Hi : head_inv N (R + 1) h comp T) (HN : 14 * N ≤ u32_max) (HR : 0 ≤ R) (Hfits : head_fits h).
Hypotheses (Hx : sample_ok (s, (ts, v))) (Hal1 : grants_all al1) (Hal2 : grants_all al2).
Abbreviation x := (s, (ts, v)).

(** What one turn of the loop establishes. *)
Definition step_done (h' : HeadBuffer) (r : io_result bool) (done : list HeadWindow) : Prop :=
  hb_retained_windows h' = hb_retained_windows h ∧ result_for c D T x r ∧ head_inv N R h' (comp ++ done) (grow c D T x r).

Lemma step_ooo key :
  match latest s T with
  | Some last => ts <? saturating_sub last (as_millis (hc_out_of_order_time_window c)) | None => false end = false →
  lane_of T s ts = true →
  ∃ h1 r done, push_routed al1 al2 h true (window_for ts D) s ts v = Some (h1, r, done) ∧ hb_kind_guards h1 = None ∧
    step_done (committed h1 key s ts v r) r done.
Proof.
  intros Hlate Hlane. pose proof Hc as (HD & _ & _). destruct Hx as [Hts Hv]. cbn [fst snd] in Hts.
  pose proof (hi_log _ _ _ _ _ Hi) as Hlog. pose proof (log_ok_grow T s ts v HD Hlog Hts) as Hgrow. rewrite Hlane in Hgrow.
  destruct (window_for_spec D ts HD Hts) as (start & Hw & Hal & Hin). pose proof (hi_count _ _ _ _ _ Hi) as Hn.
  pose proof (zlen_nonneg T).
  assert (∃ o fresh, (match hb_ooo_windows h !! window_for ts D with Some o => (o, false) | None => (window_new start (start + D) true, true) end = (o, fresh)) ∧
    (hw_start_ms o, hw_end_ms o) = window_for ts D ∧ open_window (10 * (R + 1) + 4 * N) T true o ∧ window_fits o)
    as (o & fresh & Ho & Hrange & Hopen & Hof).
  { destruct (hb_ooo_windows h !! window_for ts D) as [o|] eqn:Hl.
    - exists o, false. destruct (hi_ooo _ _ _ _ _ Hi _ _ Hl) as [He Ho]. split_and!; [done|done|done|]. by apply (proj2 Hfits) in Hl.
    - exists (window_new start (start + D) true), true. rewrite Hw. split; [done|]. split; [done|].
      apply open_window_new; [done| |lia]. apply lane_log_empty. intros y Hy He.
      destruct (hi_cover _ _ _ _ _ Hi true y Hy) as (w & Hwy & Hin'). rewrite <- Hwy, He, <- Hw in Hin'. congruence. }
  destruct (push_open al1 N R T true o s ts v Hc Hopen Hof HR ltac:(lia) Hal1 Hx) as (o' & r & Hp & Hsame & Hres & Had & Hroom & His);
    [by rewrite Hrange|].
  destruct Hsame as (Hs1 & Hs2 & Hs3). rewrite Hrange, <- Hlane in Hres.
  assert (hw_start_ms o ≤ ts) as Hge by (rewrite Hw in Hrange; injection Hrange as -> _; lia).
  destruct (result_of_window T s ts v _ r Hlate Hge Hres) as [Hresult Hg]. rewrite Hlane in Hg.
  assert (open_window (10 * R + 4 * N) (grown T true x r) true o') as Hopen'.
  { split; [|done]. unfold grown. by destruct r as [[]|]. }
  assert (log_ok (grown T true x r)) as Hlog' by (unfold grown; by destruct r as [[]|]).
  assert (∀ h1, hb_ooo_windows h1 = <[window_for ts D := o']> (hb_ooo_windows h) → hb_config h1 = c → hb_live_coverage_tracking h1 = false →
    hb_kind_guards h1 = None → hb_window h1 = hb_window h → hb_retained_windows h1 = hb_retained_windows h →
    hb_last_timestamps h1 = hb_last_timestamps h → step_done (committed h1 key s ts v r) r []) as Hdone.
  { intros h1 Ho1 Hc1 Hl1 Hg1 Hw1 Hr1 Ht1. destruct (committed_spec h1 key s ts v r Hg1) as (E1 & E2 & E3 & E4 & E5 & E6 & E7).
    split_and!; [congruence|done|]. rewrite app_nil_r, Hg. apply (ooo_inv N R h _ comp T x r o'); try done.
    - congruence.
    - congruence.
    - congruence.
    - by rewrite E5, Ho1, Hs1, Hs2, Hrange.
    - apply E7. intros s'. rewrite Ht1. apply (hi_last _ _ _ _ _ Hi).
    - cbn. by rewrite Hs1, Hs2, Hrange. }
  pose proof (hi_config _ _ _ _ _ Hi) as Hcfg. pose proof (hi_guards _ _ _ _ _ Hi). pose proof (hi_live _ _ _ _ _ Hi).
  unfold push_routed. destruct (hb_ooo_windows h !! window_for ts D) as [o0|] eqn:Hl.
  - injection Ho as -> _. rewrite Hcfg, Hp. cbn [mbind option_bind]. do 3 eexists. split; [done|]. split; [done|]. by apply Hdone.
  - injection Ho as <- _. rewrite Hw. cbn [fst snd]. rewrite Hcfg, Hp. cbn [mbind option_bind]. destruct r as [b|e].
    + do 3 eexists. split; [done|]. split; [done|]. apply Hdone; try done. by rewrite Hw.
    + do 3 eexists. split; [done|]. split; [done|]. split_and!; [done|done|]. rewrite app_nil_r, Hg.
      by apply inv_skip.
Qed.

(** The in-order window after a push; [comp'] the completed windows then. *)
Lemma step_active key w w' r done h1 :
  match latest s T with
  | Some last => ts <? saturating_sub last (as_millis (hc_out_of_order_time_window c)) | None => false end = false →
  lane_of T s ts = false →
  window_for ts D = (hw_start_ms w, hw_end_ms w) → same_window w w' →
  window_result (hw_start_ms w) (lane_log D T (hw_start_ms w, hw_end_ms w) false) x r →
  ar_adaptive (hw_arena w') = false → arena_roomy (10 * R + 4 * N) (hw_arena w') →
  match r with Ok true => window_is (T ++ [(false, x)]) false w' | _ => window_is T false w' end →
  h1 = with_window h (Some w') →
  (r = Ok true ∨ hw_start_ms <$> hb_window h = Some (hw_start_ms w)) →
  Forall (λ u, completed_window T u ∧ hw_end_ms u ≤ hw_start_ms w) (comp ++ done) → NoDup (hw_start_ms <$> comp ++ done) →
  (∀ u, hb_window h = Some u → ∃ u', (hw_start_ms u', hw_end_ms u') = (hw_start_ms u, hw_end_ms u) ∧ (u' = w' ∨ u' ∈ done)) →
  step_done (committed h1 key s ts v r) r done.
Proof.
  intros Hlate Hlane Hrange (Hs1 & Hs2 & Hs3) Hres Had Hroom His -> Hst Hcomp Hnd Hkeep. pose proof Hc as (HD & _ & _).
  destruct Hx as [Hts Hv]. cbn [fst snd] in Hts. pose proof (hi_log _ _ _ _ _ Hi) as Hlog.
  pose proof (log_ok_grow T s ts v HD Hlog Hts) as Hgrow. rewrite Hlane in Hgrow.
  destruct (window_for_spec D ts HD Hts) as (start & Hw & _ & Hin).
  assert (hw_start_ms w ≤ ts) as Hge by (rewrite Hrange in Hw; injection Hw as -> _; lia).
  rewrite <- Hrange, <- Hlane in Hres. destruct (result_of_window T s ts v _ r Hlate Hge Hres) as [Hresult Hg].
  rewrite Hlane in Hg. pose proof (hi_guards _ _ _ _ _ Hi) as Hgd.
  destruct (committed_spec (with_window h (Some w')) key s ts v r Hgd) as (E1 & E2 & E3 & E4 & E5 & E6 & E7).
  split_and!; [done|done|]. rewrite Hg.
  apply (inorder_inv N R h _ comp (comp ++ done) T x r w'); try done.
  - rewrite E1. apply (hi_config _ _ _ _ _ Hi).
  - rewrite E2. apply (hi_live _ _ _ _ _ Hi).
  - apply E7. apply (hi_last _ _ _ _ _ Hi).
  - cbn. by rewrite Hs1, Hs2.
  - split; [|done]. unfold grown. by destruct r as [[]|].
  - unfold grown. by destruct r as [[]|].
  - rewrite Hs1. pose proof (hi_start _ _ _ _ _ Hi) as Hs. unfold grown. destruct r as [[]|e].
    + rewrite active_start_snoc. cbn [fst snd]. by rewrite Hrange.
    + rewrite <- Hs. by destruct Hst.
    + rewrite <- Hs. by destruct Hst.
  - by rewrite Hs1.
  - intros u [Hu|Hu].
    + destruct (Hkeep u Hu) as (u' & He & [->|Hd]); [exists w'; by auto|]. exists u'. split; [done|]. right. apply elem_of_app. by right.
    + exists u. split; [done|]. right. apply elem_of_app. by left.
Qed.

Lemma completed_before w start_ms :
  hw_start_ms <$> hb_window h = Some start_ms → start_ms ≤ hw_start_ms w →
  Forall (λ u, completed_window T u ∧ hw_end_ms u ≤ hw_start_ms w) comp.
Proof.
  intros Hst Hle. eapply Forall_impl; [apply (hi_completed _ _ _ _ _ Hi)|]. intros u (Hu & a & Ha & He). split; [done|].
  rewrite Ha in Hst. injection Hst as <-. lia.
Qed.

(** The first sample of a new in-order window. *)
Lemma step_fresh key start :
  match latest s T with
  | Some last => ts <? saturating_sub last (as_millis (hc_out_of_order_time_window c)) | None => false end = false →
  lane_of T s ts = false → window_for ts D = (start, start + D) → aligned D start (start + D) → start ≤ ts →
  (∀ u, hb_window h = Some u → hw_end_ms u ≤ ts) →
  ∃ w' r, push_sample_to_window al1 c (window_new start (start + D) false) s ts v = Some (w', r) ∧
    match r with
    | Err e => step_done h r []
    | Ok false => False
    | Ok true => ∀ done, Forall (λ u, completed_window T u ∧ hw_end_ms u ≤ start) (comp ++ done) →
        NoDup (hw_start_ms <$> comp ++ done) →
        (∀ u, hb_window h = Some u → ∃ u', (hw_start_ms u', hw_end_ms u') = (hw_start_ms u, hw_end_ms u) ∧ u' ∈ done) →
        step_done (committed (with_window h (Some w')) key s ts v r) r done
    end.
Proof.
  intros Hlate Hlane Hw Hal Hin Hpast. pose proof Hc as (HD & _ & _). pose proof (hi_count _ _ _ _ _ Hi).
  pose proof (zlen_nonneg T). set (fresh := window_new start (start + D) false).
  assert (lane_log D T (start, start + D) false = []) as Hnone.
  { apply lane_log_empty. intros y Hy He.
    destruct (hi_cover _ _ _ _ _ Hi false y Hy) as (u & Hwy & Hor). rewrite He in Hwy. injection Hwy as Hs1 He1.
    assert (∃ a, hb_window h = Some a ∧ hw_end_ms u ≤ hw_end_ms a) as (a & Ha & Hle).
    { destruct Hor as [Hu|Hu]; [by exists u|]. apply (proj1 (Forall_forall _ _) (hi_completed _ _ _ _ _ Hi)) in Hu as (_ & a & Ha & Hle).
      exists a. split; [done|]. destruct (hi_active _ _ _ _ _ Hi a Ha) as [[_ (? & _) _] _]. lia. }
    specialize (Hpast a Ha). destruct Hx as [Hts _].
    destruct (window_for_spec D ts HD Hts) as (st & Hw' & _ & ?). rewrite Hw in Hw'. injection Hw' as <-. lia. }
  destruct (open_window_new T false start (start + D) (10 * (R + 1) + 4 * N) Hal Hnone ltac:(lia)) as [Hopen Hof]. fold fresh in Hopen, Hof.
  destruct (push_open al1 N R T false fresh s ts v Hc Hopen Hof HR ltac:(lia) Hal1 Hx Hw) as (w' & r & Hp & Hsame & Hres & Had & Hroom & His).
  exists w', r. split; [done|]. destruct r as [[]|e].
  - intros done Hcomp Hnd Hkeep. apply (step_active key fresh w' (Ok true) done (with_window h (Some w'))); try done; [by left|].
    intros u Hu. destruct (Hkeep u Hu) as (u' & ? & ?). by eauto.
  - apply Hres. left. cbn [hw_start_ms hw_end_ms fresh window_new]. by rewrite Hnone.
  - split_and!; [done| |rewrite app_nil_r; by apply inv_skip].
    by destruct (result_of_window T s ts v start (Err e) Hlate Hin) as [Hr _]; [rewrite Hw, Hlane|].
Qed.

Lemma step_inorder key :
  match latest s T with
  | Some last => ts <? saturating_sub last (as_millis (hc_out_of_order_time_window c)) | None => false end = false →
  lane_of T s ts = false →
  ∃ h1 r done, push_routed al1 al2 h false (window_for ts D) s ts v = Some (h1, r, done) ∧ hb_kind_guards h1 = None ∧
    step_done (committed h1 key s ts v r) r done.
Proof.
  intros Hlate Hlane. pose proof Hc as (HD & _ & _). pose proof Hx as [Hts Hv]. cbn [fst snd] in Hts.
  destruct (window_for_spec D ts HD Hts) as (start & Hw & Hal & Hin). pose proof (hi_count _ _ _ _ _ Hi) as Hn.
  pose proof (zlen_nonneg T). pose proof (hi_config _ _ _ _ _ Hi) as Hcfg. pose proof (hi_guards _ _ _ _ _ Hi) as Hgd.
  pose proof (hi_completed _ _ _ _ _ Hi) as Hcomp. pose proof (hi_distinct _ _ _ _ _ Hi) as Hnd.
  pose proof (step_fresh key start Hlate Hlane Hw Hal ltac:(lia)) as Hfresh.
  unfold push_routed. destruct (hb_window h) as [a|] eqn:Hwin; [destruct (Z.leb_spec (hw_end_ms a) ts) as [Hrot|Hcur]|].
  - destruct Hfresh as (w' & r & Hp & Hout); [by intros u [= <-]|].
    rewrite Hw. cbn [fst snd]. rewrite Hcfg, Hp. cbn [mbind option_bind].
    destruct r as [[]|e]; [|done|by exists h, (Err e), []].
    destruct (complete_window al2 N (R + 1) T false a) as (sealed & -> & Hcs & Hsa1 & Hsa2 & _); try done;
      [by apply (hi_active _ _ _ _ _ Hi)|by apply Hfits|lia|lia|].
    cbn [mbind option_bind]. do 3 eexists. split; [done|]. split; [done|].
    destruct (hi_active _ _ _ _ _ Hi a Hwin) as [[_ Hala _] _].
    assert (hw_end_ms a ≤ start) as Hdis.
    { apply (aligned_disjoint D (hw_start_ms a) _ start (start + D)); try done.
      destruct Hala as (He & _). destruct (Z.lt_ge_cases (hw_start_ms a) start); lia. }
    assert (hw_start_ms a < hw_end_ms a) by (destruct Hala as (He & _); lia).
    apply Hout.
    + apply Forall_snoc; [|split; [done|by rewrite Hsa2]].
      apply (completed_before (window_new start (start + D) false) (hw_start_ms a)); [by rewrite Hwin|cbn; lia].
    + rewrite fmap_app. apply NoDup_app. split_and!; [done| |apply NoDup_singleton].
      intros st (u & -> & Hu)%list_elem_of_fmap Hin'%list_elem_of_singleton. rewrite Hsa1 in Hin'.
      apply (proj1 (Forall_forall _ _) Hcomp) in Hu as ([[_ (? & _) _] _] & a' & [= <-] & Hle). lia.
    + intros u [= <-]. exists sealed. rewrite Hsa1, Hsa2. split; [done|]. by left.
  - assert (window_for ts D = (hw_start_ms a, hw_end_ms a)) as Hrange.
    { destruct (hi_active _ _ _ _ _ Hi a Hwin) as [[_ Hala _] _]. apply (window_for_range D); [done..|]. split; [|done].
      unfold lane_of in Hlane. rewrite <- (hi_start _ _ _ _ _ Hi), Hwin in Hlane. cbn in Hlane. lia. }
    destruct (push_open al1 N R T false a s ts v Hc) as (w' & r & Hp & Hsame & Hres & Had & Hroom & His); try done;
      [by apply (hi_active _ _ _ _ _ Hi)|by apply Hfits|lia|].
    rewrite Hcfg, Hp. cbn [mbind option_bind]. do 3 eexists. split; [done|]. split; [done|].
    apply (step_active key a w' r [] (with_window h (Some w'))); try done; rewrite ?app_nil_r; try done.
    + right. by rewrite Hwin.
    + apply (completed_before a (hw_start_ms a)); [by rewrite Hwin|lia].
    + intros u Hu. rewrite Hwin in Hu. injection Hu as <-. exists w'. destruct Hsame as (Hs1 & Hs2 & _). rewrite Hs1, Hs2. by auto.
  - destruct Hfresh as (w' & r & Hp & Hout); [done|].
    rewrite Hw. cbn [fst snd]. rewrite Hcfg, Hp. cbn [mbind option_bind].
    destruct r as [[]|e]; [|done|by exists h, (Err e), []].
    do 3 eexists. split; [done|]. split; [done|]. apply Hout; rewrite ?app_nil_r; try done.
    eapply Forall_impl; [exact Hcomp|]. intros u (_ & a & Ha & _). done.
Qed.

(** One turn of the loop. *)
Lemma record_step_inv :
  ∃ h' r done, record_step al1 al2 h D s ts v = Some (h', r, done) ∧ step_done h' r done ∧
    (done = [] ∨ ∃ w, done = [w]) ∧ ∀ e, r = Err e → done = [].
Proof.
  pose proof (hi_guards _ _ _ _ _ Hi) as Hgd. pose proof (validate_verdict _ _ h comp T s ts Hc Hi ltac:(apply Hx)) as Hval.
  destruct (validate_sample_timestamp _ _ _) as [u|e] eqn:Hv.
  - destruct (record_step_unguarded al1 al2 h s ts v Hgd ltac:(by eauto)) as [key Hstep].
    rewrite (route_lane _ _ _ _ _ s ts Hi) in Hstep.
    destruct (lane_of T s ts) eqn:Hlane.
    + destruct (step_ooo key Hval Hlane) as (h1 & r & done & Hp & Hg1 & Hd).
      pose proof (seal_completes_one _ _ _ _ _ _ _ _ _ _ _ Hp) as (? & ? & _).
      do 3 eexists. split; [by apply Hstep|done].
    + destruct (step_inorder key Hval Hlane) as (h1 & r & done & Hp & Hg1 & Hd).
      pose proof (seal_completes_one _ _ _ _ _ _ _ _ _ _ _ Hp) as (? & ? & _).
      do 3 eexists. split; [by apply Hstep|done].
  - exists h, (Err e), []. split; [unfold record_step; by rewrite Hv|].
    split; [|split; [by left|done]]. split_and!; [done| |rewrite app_nil_r; by apply inv_skip].
    left. by rewrite verdict_lane, Hval.
Qed.
End step.
End head_spec.

(** ** Runs of the head *)

Section head_runs.
Context `{HO : OtherFloatCodecs} `{HT : TableOrder}.
Variable (c : HeadConfig) (D : Z).

Record head_op := mk_head_op { op_al : nat → alloc_seq; op_sample : recorded }.

(** Samples recorded one at a time, as the ingester does. *)
Fixpoint head_run (h : HeadBuffer) (ops : list head_op) : option (HeadBuffer * list (io_result HeadRecordOutcome)) :=
  match ops with
  | [] => Some (h, [])
  | op :: ops =>
      let '(s, (ts, v)) := op_sample op in
      '(h, r) ← record_sample_with_outcome (op_al op) h s ts v;
      '(h, rs) ← head_run h ops;
      Some (h, r :: rs)
  end.
Fixpoint head_fits_along (h : HeadBuffer) (ops : list head_op) : Prop :=
  head_fits h ∧
  match ops with
  | [] => True
  | op :: ops =>
      let '(s, (ts, v)) := op_sample op in
      match record_sample_with_outcome (op_al op) h s ts v with Some (h, _) => head_fits_along h ops | None => True end
  end.

Definition recorded_flag (r : io_result HeadRecordOutcome) : io_result bool := o ← r; Ok (ho_recorded o).
(** The windows the run handed out. *)
Definition handed_out (rs : list (io_result HeadRecordOutcome)) : list HeadWindow :=
  omap (λ r, match r with Ok o => ho_completed_window o | Err _ => None end) rs.
(** The accepted samples, with their lanes. *)
Fixpoint log_from (T : list routed) (xs : list recorded) (rs : list (io_result HeadRecordOutcome)) : list routed :=
  match xs, rs with
  | x :: xs, r :: rs => log_from (grow c D T x (recorded_flag r)) xs rs
  | _, _ => T
  end.

Lemma head_inv_perm N R h comp comp' T : comp ≡ₚ comp' → head_inv c D N R h comp T → head_inv c D N R h comp' T.
Proof.
  intros Hp [? ? ? ? ? ? ? ? Hcomp Hnd ? Hcov ?]. split; try done; [by rewrite <- Hp|by rewrite <- Hp|].
  intros b x Hx. destruct (Hcov b x Hx) as (w & Hw & Hin). exists w. split; [done|]. destruct b; [done|].
  by rewrite <- Hp.
Qed.


Lemma hi_with_retained N R h comp T l : head_inv c D N R h comp T → head_inv c D N R (with_retained h l) comp T.
Proof. intros []. by split. Qed.

Lemma record_sample_inv al N R h out T s ts v :
  config_ok c D → head_inv c D N (R + 1) h (out ++ hb_retained_windows h) T → 14 * N ≤ u32_max → 0 ≤ R → head_fits h →
  sample_ok c D (s, (ts, v)) → (∀ n, grants_all (al n)) →
  ∃ h' r, record_sample_with_outcome al h s ts v = Some (h', r) ∧
    result_for c D T (s, (ts, v)) (recorded_flag r) ∧
    head_inv c D N R h' ((out ++ handed_out [r]) ++ hb_retained_windows h') (grow c D T (s, (ts, v)) (recorded_flag r)).
Proof.
  intros Hc Hi HN HR Hfits Hx Hal.
  destruct (record_step_inv c D (al 0%nat) (al 1%nat) N R h _ T s ts v Hc Hi HN HR Hfits Hx (Hal _) (Hal _))
    as (h' & r & done & Hstep & (Hret & Hres & Hinv) & Hone & Herr).
  unfold record_sample_with_outcome, record_samples_owned. pose proof Hc as (_ & HD & _).
  rewrite (hi_live _ _ _ _ _ _ _ Hi), (hi_config _ _ _ _ _ _ _ Hi), HD. cbn [record_loop]. rewrite Hstep. cbn [mbind option_bind].
  destruct r as [b|e].
  2: { rewrite (Herr e eq_refl) in *. cbn. do 2 eexists. split; [done|]. split; [done|]. cbn. rewrite !app_nil_r in *.
       apply hi_with_retained. by rewrite Hret. }
  assert (∀ n : Z, n = (if b then 1 else 0) → ∃ h2 r2, hand_out h' ([] ++ done) n = (h2, r2) ∧ recorded_flag r2 = Ok b ∧
    (out ++ hb_retained_windows h) ++ done ≡ₚ (out ++ handed_out [r2]) ++ hb_retained_windows h2 ∧
    (h2 = h' ∨ ∃ l, h2 = with_retained h' l)) as Hfinish.
  { intros n Hn. unfold hand_out. assert (zlen ([] ++ done) ≤ 1) as Hle by (destruct Hone as [->|[w ->]]; done).
    rewrite (proj2 (Z.ltb_ge _ _) Hle). rewrite Hret. destruct (hb_retained_windows h) as [|w rest] eqn:Hr.
    - do 2 eexists. split; [done|]. split; [destruct b; by subst n|]. split; [|by left]. rewrite Hret.
      destruct Hone as [->|[u ->]]; cbn; by rewrite ?app_nil_r.
    - do 2 eexists. split; [done|]. split; [destruct b; by subst n|]. split; [|by right; eexists]. cbn.
      rewrite <- !app_assoc. done. }
  destruct b; cbn [record_loop].
  - change (checked_add_u64 0 1) with (Some 1). cbn [record_loop].
    destruct (Hfinish 1 eq_refl) as (h2 & r2 & Heq & Hflag & Hperm & Hh). cbn [mbind option_bind]. rewrite Heq.
    exists h2, r2. rewrite Hflag. split; [done|]. split; [done|].
    apply (head_inv_perm _ _ _ _ _ _ Hperm). destruct Hh as [->|[l ->]]; [done|by apply hi_with_retained].
  - destruct (Hfinish 0 eq_refl) as (h2 & r2 & Heq & Hflag & Hperm & Hh). cbn [mbind option_bind]. rewrite Heq.
    exists h2, r2. rewrite Hflag. split; [done|]. split; [done|].
    apply (head_inv_perm _ _ _ _ _ _ Hperm). destruct Hh as [->|[l ->]]; [done|by apply hi_with_retained].
Qed.

Definition head_op_ok (op : head_op) : Prop := sample_ok c D (op_sample op) ∧ ∀ n, grants_all (op_al op n).

Lemma head_run_inv ops : ∀ N h out T,
  config_ok c D → head_inv c D N (zlen ops) h (out ++ hb_retained_windows h) T → 14 * N ≤ u32_max →
  Forall head_op_ok ops → head_fits_along h ops →
  ∃ h' rs, head_run h ops = Some (h', rs) ∧ length rs = length ops ∧ head_fits h' ∧
    head_inv c D N 0 h' ((out ++ handed_out rs) ++ hb_retained_windows h') (log_from T (op_sample <$> ops) rs) ∧
    ∀ i x r, (op_sample <$> ops) !! i = Some x → rs !! i = Some r →
      result_for c D (log_from T (take i (op_sample <$> ops)) (take i rs)) x (recorded_flag r).
Proof.
  induction ops as [|[al [s [ts v]]] ops IH]; intros N h out T Hc Hi HN Hok [Hfits Halong]; cbn [head_run].
  { exists h, []. cbn. rewrite app_nil_r. by split_and!. }
  apply Forall_cons_1 in Hok as [[Hx Hal] Hok]. cbn [op_sample op_al] in *. rewrite zlen_cons, Z.add_comm in Hi.
  pose proof (zlen_nonneg ops) as Hn.
  destruct (record_sample_inv al N (zlen ops) h out T s ts v Hc Hi HN Hn Hfits Hx Hal) as (h1 & r & Hr & Hres & Hi1).
  rewrite Hr in *. cbn [mbind option_bind].
  destruct (IH N h1 _ _ Hc Hi1 HN Hok Halong) as (h2 & rs & -> & Hlen & Hf2 & Hi2 & Hall).
  cbn [mbind option_bind]. exists h2, (r :: rs). split; [done|]. split; [cbn; by rewrite Hlen|]. split; [done|].
  split.
  - rewrite <- (app_assoc out) in Hi2. by destruct r as [[? []]|].
  - intros [|i] x r' Hx' Hr'; cbn in Hx', Hr'; [injection Hx' as <-; by injection Hr' as <-|]. by apply Hall.
Qed.

Definition window_key (w : HeadWindow) : Z * Z * bool := (hw_start_ms w, hw_end_ms w, hw_out_of_order w).

Lemma seal_windows_rep N R T l : ∀ al,
  (∀ n, grants_all (al n)) → 0 ≤ R → zlen T ≤ N →
  Forall (λ w, ∃ lane, open_window c D (10 * R + 4 * N) T lane w ∧ window_fits w) l →
  ∃ l', seal_windows al l = Some l' ∧ Forall (λ w, ∃ lane, sealed_window c D T lane w) l' ∧
    window_key <$> l' = window_key <$> l.
Proof.
  induction l as [|w l IH]; intros al Hal HR HN Hall; [by exists []|]. cbn [seal_windows].
  apply Forall_cons_1 in Hall as [(lane & Ho & Hf) Hall].
  destruct (complete_window c D (al 0%nat) N R T lane w Ho Hf HR HN (Hal _)) as (w' & -> & Hs & Hs1 & Hs2 & Hs3).
  destruct (IH (λ n, al (S n)) (λ n, Hal (S n)) HR HN Hall) as (l' & -> & Hl & Hk). cbn [mbind option_bind].
  exists (w' :: l'). split; [done|]. split; [constructor; by eauto|]. rewrite !fmap_cons, Hk. unfold window_key.
  by rewrite Hs1, Hs2, Hs3.
Qed.

Lemma ooo_entries_perm (m : gmap (Z * Z) HeadWindow) : ooo_entries m ≡ₚ map_to_list m.
Proof. unfold ooo_entries. by rewrite !sort_perm. Qed.
Lemma sort_windows_perm l : sort_windows l ≡ₚ l.
Proof. unfold sort_windows. by rewrite !sort_perm. Qed.

Lemma window_is_key T lane w : window_is c D T lane w → window_key w = (hw_start_ms w, hw_end_ms w, lane).
Proof. intros [Hl _ _]. unfold window_key. by rewrite Hl. Qed.

(** The windows of the head, sealed: one for each range and lane of the log. *)
Lemma drain_windows_rep al N h out T :
  config_ok c D → head_inv c D N 0 h (out ++ hb_retained_windows h) T → head_fits h → (∀ n, grants_all (al n)) →
  ∃ h' drained, drain_windows al h = Some (h', drained) ∧ hb_window h' = None ∧ hb_ooo_windows h' = ∅ ∧
    hb_retained_windows h' = [] ∧ NoDup (window_key <$> out ++ drained) ∧
    Forall (λ w, ∃ lane, sealed_window c D T lane w) (out ++ drained) ∧
    ∀ b x, (b, x) ∈ T → ∃ w, w ∈ out ++ drained ∧ window_key w = (window_for x.2.1 D, b).
Proof.
  intros (HD & _) Hi [Hfa Hfo] Hal. pose proof (hi_count _ _ _ _ _ _ _ Hi) as Hn. unfold drain_windows.
  assert (Forall (λ w, ∃ lane, open_window c D (10 * 0 + 4 * N) T lane w ∧ window_fits w) (snd <$> ooo_entries (hb_ooo_windows h))) as Ho.
  { rewrite ooo_entries_perm. apply Forall_fmap, Forall_forall. intros [k o] Hk%elem_of_map_to_list. exists true.
    split; [by apply (hi_ooo _ _ _ _ _ _ _ Hi k o)|by eapply Hfo]. }
  assert (Forall (λ w, ∃ lane, open_window c D (10 * 0 + 4 * N) T lane w ∧ window_fits w)
    (match hb_window h with Some w => [w] | None => [] end)) as Ha.
  { destruct (hb_window h) as [w|] eqn:Hw; [|constructor]. constructor; [|constructor]. exists false.
    split; [by apply (hi_active _ _ _ _ _ _ _ Hi)|by apply Hfa]. }
  destruct (seal_windows_rep N 0 T _ (λ n, al (S n)) (λ n, Hal (S n)) ltac:(lia) ltac:(lia) Ho) as (ooo & -> & Hooo & Hok).
  destruct (seal_windows_rep N 0 T _ al Hal ltac:(lia) ltac:(lia) Ha) as (act & -> & Hact & Hak).
  cbn [mbind option_bind]. do 2 eexists. do 4 (split; [done|]).
  assert (Forall (λ w, ∃ lane, sealed_window c D T lane w) (out ++ hb_retained_windows h)) as Hcomp.
  { eapply Forall_impl; [apply (hi_completed _ _ _ _ _ _ _ Hi)|]. intros w [Hw _]. by exists false. }
  assert (window_key <$> ooo ≡ₚ (λ x, (x.1, true)) <$> map_to_list (hb_ooo_windows h)) as Hok'.
  { rewrite Hok, ooo_entries_perm. rewrite <- list_fmap_compose. apply Permutation_refl', list_fmap_ext.
    intros i [k o] Hk%list_elem_of_lookup_2%elem_of_map_to_list. destruct (hi_ooo _ _ _ _ _ _ _ Hi k o Hk) as [-> [Hw _]].
    cbn. by apply (window_is_key T true). }
  rewrite sort_windows_perm, app_assoc.
  assert (∀ w, w ∈ out ++ hb_retained_windows h → ∃ a, hb_window h = Some a ∧ window_key w = (hw_start_ms w, hw_end_ms w, false) ∧
    hw_start_ms w < hw_start_ms a) as Hbefore.
  { intros w Hw. apply (proj1 (Forall_forall _ _) (hi_completed _ _ _ _ _ _ _ Hi)) in Hw as ([Hwi _] & a & Haw & Hle).
    exists a. split; [done|]. split; [by apply (window_is_key T false)|]. destruct Hwi as [_ (? & _) _]. lia. }
  assert (∀ a, hb_window h = Some a → window_key a = (hw_start_ms a, hw_end_ms a, false)) as Hactkey.
  { intros a Hw. apply (window_is_key T false), (hi_active _ _ _ _ _ _ _ Hi a Hw). }
  split_and!.
  - rewrite !fmap_app, Hak. apply NoDup_app. split_and!.
    + pose proof (hi_distinct _ _ _ _ _ _ _ Hi) as Hnd. rewrite <- fmap_app.
      apply (NoDup_fmap_1 (λ k : Z * Z * bool, k.1.1)). rewrite <- list_fmap_compose. exact Hnd.
    + intros k Hk. rewrite <- fmap_app in Hk. apply list_elem_of_fmap in Hk as (w & -> & Hw).
      destruct (Hbefore w Hw) as (a & Haw & -> & Hlt). rewrite elem_of_app, Hok', Haw. intros [Hin|Hin].
      * by apply list_elem_of_fmap in Hin as ([k o] & [=] & _).
      * cbn in Hin. rewrite (Hactkey a Haw) in Hin. apply list_elem_of_singleton in Hin as [= Hs _]. lia.
    + rewrite Hok'. apply NoDup_app. split_and!.
      * assert ((λ x, (x.1, true)) <$> map_to_list (hb_ooo_windows h) =
          (λ k : Z * Z, (k, true)) <$> (map_to_list (hb_ooo_windows h)).*1) as -> by by rewrite <- list_fmap_compose.
        apply NoDup_fmap_2; [by intros ?? [=]|apply NoDup_fst_map_to_list].
      * intros k (x & -> & _)%list_elem_of_fmap. destruct (hb_window h) as [a|] eqn:Haw; [|by intros ?%elem_of_nil].
        cbn. rewrite (Hactkey a eq_refl). by intros [=]%list_elem_of_singleton.
      * destruct (hb_window h); cbn; [apply NoDup_singleton|constructor].
  - rewrite !Forall_app in *. tauto.
  - intros b x Hx. destruct (hi_cover _ _ _ _ _ _ _ Hi b x Hx) as (w & -> & Hin).
    assert ((hw_start_ms w, hw_end_ms w, b) ∈ window_key <$> (out ++ hb_retained_windows h) ++ ooo ++ act) as Hk.
    { rewrite !fmap_app, Hak, !elem_of_app, Hok'. destruct b.
      - right. left. apply list_elem_of_fmap. exists ((hw_start_ms w, hw_end_ms w), w). split; [done|].
        by apply elem_of_map_to_list.
      - destruct Hin as [Hin|Hin].
        + right. right. rewrite Hin. cbn. rewrite (Hactkey w Hin). by left.
        + left. rewrite <- elem_of_app, <- fmap_app. apply list_elem_of_fmap. exists w. split; [|done].
          by destruct (Hbefore w Hin) as (_ & _ & -> & _). }
    apply list_elem_of_fmap in Hk as (u & Hu1 & Hu). exists u. rewrite sort_windows_perm, app_assoc. split; [done|by rewrite <- Hu1].
Qed.

(** ** Both lanes of a range *)

(** The accepted samples of a range, in order of arrival. *)
Definition range_log (T : list routed) (range : Z * Z) : list recorded :=
  snd <$> filter (λ p, window_for p.2.2.1 D = range) T.

Lemma at_series_log (P : routed → Prop) `{!∀ p, Decision (P p)} s n T :
  at_key fst n (of_series s (snd <$> filter P T)) =
  (λ p : routed, p.2.2) <$> filter P (filter (λ p, p.2.1 = s ∧ p.2.2.1 = n) T).
Proof.
  unfold at_key, of_series. rewrite (filter_fmap _ (λ p : routed, p.2.1 = s)) by done.
  rewrite <- list_fmap_compose, (filter_fmap _ (λ p : routed, p.2.2.1 = n)) by done. f_equal.
  rewrite !list_filter_filter. apply list_filter_iff. intros p. tauto.
Qed.

Lemma split_lanes l :
  StronglySorted (λ p q : routed, p.1 = true → q.1 = false → False) l →
  filter (λ p : routed, p.1 = false) l ++ filter (λ p, p.1 = true) l = l.
Proof.
  induction 1 as [|p l Hl IH Hp]; [done|]. rewrite !filter_cons. destruct p as [[] x].
  - rewrite decide_False, decide_True by done. assert (filter (λ p : routed, p.1 = false) l = []) as Hnil.
    { destruct (filter _ l) as [|q k] eqn:Hf; [done|].
      assert (q ∈ filter (λ p : routed, p.1 = false) l) as [Hq Hin]%list_elem_of_filter by (rewrite Hf; by left).
      exfalso. by apply (proj1 (Forall_forall _ _) Hp q Hin). }
    rewrite Hnil in *. cbn [app] in *. by rewrite IH.
  - rewrite decide_True, decide_False by done. cbn [app]. by rewrite IH.
Qed.

(** At one timestamp of one series, in-order samples arrive before late ones. *)
Lemma lanes_in_order T s n range :
  log_ok D T →
  at_key fst n (of_series s (lane_log D T range false ++ lane_log D T range true)) =
  at_key fst n (of_series s (range_log T range)).
Proof.
  intros [_ _ Hord]. rewrite of_series_app, at_key_app. unfold lane_log, range_log. rewrite !at_series_log, <- fmap_app. f_equal.
  set (l := filter (λ p : routed, window_for p.2.2.1 D = range) (filter (λ p, p.2.1 = s ∧ p.2.2.1 = n) T)).
  rewrite <- (split_lanes l).
  - f_equal; unfold l; rewrite !list_filter_filter; apply list_filter_iff; intros p; tauto.
  - assert (∀ p, p ∈ l → p.2.1 = s ∧ p.2.2.1 = n) as Hl.
    { intros p. unfold l. rewrite !list_elem_of_filter. tauto. }
    assert (StronglySorted (λ p q : routed, p.1 = true → q.1 = false → p.2.1 = q.2.1 → p.2.2.1 < q.2.2.1) l) as Hs.
    { unfold l. by apply StronglySorted_filter, StronglySorted_filter. }
    clear -Hl Hs. induction Hs as [|p l Hs IH Hp]; constructor.
    + apply IH. intros q Hq. apply Hl. by right.
    + apply Forall_forall. intros q Hq Hpt Hqf. pose proof (proj1 (Forall_forall _ _) Hp q Hq) as Hlt. cbn in Hlt.
      destruct (Hl p ltac:(by left)) as [Hs1 Hn1], (Hl q ltac:(by right)) as [Hs2 Hn2].
      specialize (Hlt Hpt Hqf ltac:(congruence)). lia.
Qed.

Lemma at_retype f n k : at_key fst n (retype f k) = retype f (at_key fst n k).
Proof. unfold at_key, retype. by apply filter_fmap. Qed.

(** The same last writes and the same kind make the same rows. *)
Lemma deduped_row_ext k k' ss :
  (∀ n, at_key fst n k = at_key fst n k') → kind_of k = kind_of k' → deduped_row c k ss → deduped_row c k' ss.
Proof.
  intros Hat Hk (r & Hr & Hrow). exists r. unfold encoding_of in *. rewrite <- Hk. split; [|done].
  eapply last_writes_ext; [|exact Hr]. intros n. by rewrite Hat.
Qed.

Definition all_kind (K : SampleKind) (k : list (Z * SampleValue)) : Prop := Forall (λ x, value_kind x.2 = K) k.
Lemma kind_of_all K k : k ≠ [] → all_kind K k → kind_of k = K.
Proof. intros Hk Hall. destruct Hall; [done|]. done. Qed.

Lemma window_uniform T lane w s : window_is c D T lane w →
  ∃ K, all_kind K (of_series s (lane_log D T (hw_start_ms w, hw_end_ms w) lane)).
Proof.
  intros [_ _ (_ & _ & Hall)]. specialize (Hall s). destruct (hw_series w !! s) as [es|].
  - destruct Hall as (_ & Hrep & _). destruct (encoded_rep_typed _ _ _ _ Hrep) as [k ->]. exists (encoding_kind (encoded_encoding es)).
    apply Forall_forall. intros x (y & -> & _)%list_elem_of_fmap. apply kind_from_value.
  - exists KindFloat. rewrite Hall. constructor.
Qed.

Definition same_writes (k k' : list (Z * SampleValue)) : Prop := ∀ n, at_key fst n k = at_key fst n k'.

Lemma same_elements k k' x : same_writes k k' → x ∈ k ↔ x ∈ k'.
Proof.
  intros Hat. assert (∀ l : list (Z * SampleValue), x ∈ l ↔ x ∈ at_key fst x.1 l) as Hl.
  { intros l. unfold at_key. rewrite list_elem_of_filter. tauto. }
  by rewrite (Hl k), (Hl k'), Hat.
Qed.
Lemma same_nil k k' : same_writes k k' → k' = [] → k = [].
Proof.
  intros Hat ->. destruct k as [|x l]; [done|]. exfalso. apply (not_elem_of_nil x), (same_elements _ _ _ Hat). left.
Qed.
Lemma same_forall (P : Z * SampleValue → Prop) k k' : same_writes k k' → Forall P k' → Forall P k.
Proof.
  intros Hat Hall. apply Forall_forall. intros x Hx. apply (proj1 (Forall_forall _ _) Hall). by apply (same_elements _ _ _ Hat).
Qed.
Lemma same_writes_sym k k' : same_writes k k' → same_writes k' k.
Proof. intros Hat n. by rewrite Hat. Qed.

Lemma lanes_same_kind k1 k2 k main additional K :
  merged_entry c k1 k2 main additional → same_writes (k1 ++ k2) k → k ≠ [] → all_kind K k →
  additional = None ∧ ∃ ss, main = Some ss ∧ deduped_row c k ss.
Proof.
  intros Hm Hat Hk HK. pose proof (same_forall _ _ _ Hat HK) as HK12. pose proof HK12 as [HK1 HK2]%Forall_app.
  assert (k1 ++ k2 ≠ []) as Hne by (intros Hnil; apply Hk; by eapply same_nil, Hnil; apply same_writes_sym).
  assert (kind_of (k1 ++ k2) = kind_of k) as Hsame by by rewrite (kind_of_all K k), (kind_of_all K (k1 ++ k2)).
  destruct k1 as [|x l1], k2 as [|y l2]; cbn in Hm; [done|..].
  - destruct Hm as (-> & ss & -> & Hd). split; [done|]. exists ss. split; [done|]. by apply (deduped_row_ext (y :: l2)).
  - destruct Hm as (-> & ss & -> & Hd). split; [done|]. exists ss. split; [done|]. rewrite app_nil_r in *.
    by apply (deduped_row_ext (x :: l1)).
  - destruct Hm as (ss & -> & Hmerged). unfold merged in Hmerged.
    rewrite (kind_of_all K (x :: l1)), (kind_of_all K (y :: l2)) in Hmerged by done.
    replace (combined K K) with (Some (λ v : SampleValue, v)) in Hmerged by by destruct K.
    destruct Hmerged as [-> Hd]. split; [done|]. exists ss. split; [done|]. rewrite retype_id in Hd. by eapply deduped_row_ext.
Qed.

Lemma number_kinds K1 K2 k1 k2 :
  k1 ≠ [] → k2 ≠ [] → all_kind K1 k1 → all_kind K2 k2 → Forall (λ x, is_number x.2) (k1 ++ k2) → K1 ≠ K2 →
  combined K1 K2 = Some number.
Proof.
  intros Hk1 Hk2 H1 H2 [Hn1 Hn2]%Forall_app Hne. destruct k1 as [|[? v1] l1]; [done|]. destruct k2 as [|[? v2] l2]; [done|].
  apply Forall_cons_1 in H1 as [<- _], H2 as [<- _], Hn1 as [Hn1 _], Hn2 as [Hn2 _]. cbn in *.
  by destruct v1, v2.
Qed.

Lemma lanes_numbers k1 k2 k main additional :
  merged_entry c k1 k2 main additional → same_writes (k1 ++ k2) k → (∃ K, all_kind K k1) → (∃ K, all_kind K k2) →
  Forall (λ x, is_number x.2) k → (¬ ∃ K, all_kind K k) →
  additional = None ∧ ∃ ss, main = Some ss ∧ deduped_row c (retype number k) ss.
Proof.
  intros Hm Hat [K1 H1] [K2 H2] Hnum Hmix. pose proof (same_writes_sym _ _ Hat) as Hat'.
  assert (∀ K, all_kind K k1 → ¬ all_kind K k2) as Hdiff.
  { intros K Ha Hb. apply Hmix. exists K. apply (same_forall _ _ _ Hat'). by apply Forall_app. }
  assert (k1 ≠ []) as Hk1 by (intros ->; apply (Hdiff K2); [constructor|done]).
  assert (k2 ≠ []) as Hk2 by (intros ->; apply (Hdiff K1); [done|constructor]).
  assert (k ≠ []) as Hk by (intros ->; apply Hmix; exists KindFloat; constructor).
  assert (∃ ss, main = Some ss ∧ merged c k1 k2 ss additional) as (ss & -> & Hmerged) by by destruct k1, k2.
  unfold merged in Hmerged. rewrite (kind_of_all K1 k1), (kind_of_all K2 k2) in Hmerged by done.
  pose proof (same_forall _ _ _ Hat Hnum) as Hnum12.
  rewrite (number_kinds K1 K2 k1 k2) in Hmerged; try done; [|intros <-; by apply (Hdiff K1)].
  destruct Hmerged as [-> Hd]. split; [done|]. exists ss. split; [done|].
  assert (∀ l, Forall (λ x : Z * SampleValue, is_number x.2) l → kind_of (retype number l) = KindFloat) as Hfloat.
  { intros l Hl. destruct Hl as [|[? []]]; done. }
  eapply deduped_row_ext; [|by rewrite !Hfloat|exact Hd]. intros n. by rewrite !at_retype, Hat.
Qed.

Definition config_wf : Prop :=
  0 ≤ hc_block_size c ∧ 0 ≤ as_millis (hc_window_duration c) ∧ 0 ≤ as_millis (hc_out_of_order_time_window c).

Lemma head_new_inv h0 N :
  config_wf → window_duration_ms c = Ok D → head_new c = Ok h0 → 0 ≤ N → config_ok c D ∧ head_inv c D N N h0 [] [] ∧
  hb_retained_windows h0 = [].
Proof.
  intros (Hb & Hms & Hooo) HD Hnew HN. unfold head_new in Hnew. rewrite HD in Hnew.
  unfold window_duration_ms in HD. destruct (Z.eqb_spec (as_millis (hc_window_duration c)) 0); [done|].
  destruct (Z.ltb_spec u64_max (as_millis (hc_window_duration c))); [done|]. injection HD as HD.
  unfold out_of_order_time_window_ms, validate_block_size in Hnew.
  destruct (Z.ltb_spec u64_max (as_millis (hc_out_of_order_time_window c))); [done|].
  destruct (Z.eqb_spec (hc_block_size c) 0); [done|]. destruct (Z.ltb_spec u32_max (hc_block_size c)); [done|].
  injection Hnew as <-. split.
  - unfold config_ok, window_duration_ms, block_size_ok. rewrite (proj2 (Z.eqb_neq _ _)), (proj2 (Z.ltb_ge _ _)) by done.
    rewrite HD. split_and!; (done || lia).
  - split; [|done]. split; try done; try (constructor; fail).
    + split; [constructor| |constructor]. by intros x ?%elem_of_nil.
    + by intros b x ?%elem_of_nil.
Qed.

Lemma late_uniform N R h comp T range s :
  head_inv c D N R h comp T → ∃ K, all_kind K (of_series s (lane_log D T range true)).
Proof.
  intros Hi. destruct (hb_ooo_windows h !! range) as [o|] eqn:Ho.
  - destruct (hi_ooo _ _ _ _ _ _ _ Hi _ _ Ho) as [-> [Ho1 _]]. by apply (window_uniform T true o s).
  - exists KindFloat. rewrite lane_log_empty; [constructor|]. intros x Hx He.
    destruct (hi_cover _ _ _ _ _ _ _ Hi true x Hx) as (u & Hu & Hin). congruence.
Qed.

(** The rows of a series among the merged ones. *)
Lemma only_row_in main additional s m :
  NoDup main.*1 → NoDup additional.*1 → row_map main !! s = Some m →
  row_map additional !! s = None → ∀ ss, (s, ss) ∈ main ++ additional ↔ ss = m.
Proof.
  intros Hn1 Hn2 Hm Ha ss. rewrite elem_of_app. split.
  - intros [Hin|Hin]; apply (elem_of_list_to_map_1 (M := gmap Z)) in Hin; congruence.
  - intros ->. left. by apply (elem_of_list_to_map_2 (M := gmap Z)).
Qed.

(** A completed window and what is then taken of the other lane. *)
Lemma merge_taken N h comp T w al1 al2 al3 al1' al2' :
  config_ok c D → head_inv c D N 0 h comp T → head_fits h → sealed_window c D T false w →
  grants_all al1 → grants_all al2 → grants_all al3 → (∀ n, grants_all (al1' n)) → (∀ n, grants_all (al2' n)) →
  let range := (hw_start_ms w, hw_end_ms w) in
  ∃ out, into_series_samples_with_ooo al1 al2 al3 al1' al2' w (take_out_of_order_window h (hw_start_ms w) (hw_end_ms w)).2 = Some (Ok out) ∧
    merged_rows c (lane_log D T range false) (lane_log D T range true) out.
Proof.
  intros Hc Hi Hfits (Hw & Hs & Hroom) Hg1 Hg2 Hg3 Hg1' Hg2' range. pose proof Hc as (HD & _). cbn [fst snd take_out_of_order_window].
  pose proof (lo_samples _ _ (hi_log _ _ _ _ _ _ _ Hi)) as Hts. pose proof (window_in_range c D T false w HD Hts Hw) as Hrange.
  fold range.
  destruct (hb_ooo_windows h !! range) as [o|] eqn:Ho.
  - destruct (hi_ooo _ _ _ _ _ _ _ Hi _ _ Ho) as [Hk (Ho1 & _ & Hro)]. injection Hk as Hk1 Hk2.
    pose proof (window_in_range c D T true o HD Hts Ho1) as Hrange2. rewrite <- Hk1, <- Hk2 in Hrange2.
    apply with_ooo_rep; try done.
    + apply Hw.
    + destruct Ho1 as [_ _ Hl]. by rewrite <- Hk1, <- Hk2 in Hl.
    + by apply sealed_fits.
    + by eapply (proj2 Hfits).
    + pose proof (window_size c o _ (wi_log _ _ _ _ _ Ho1)). unfold seal_room. eapply roomy_le; [|exact Hro].
      pose proof (lane_log_length D T (hw_start_ms o, hw_end_ms o) true). pose proof (hi_count _ _ _ _ _ _ _ Hi). lia.
    + apply (wi_lane _ _ _ _ _ Hw).
    + apply (wi_lane _ _ _ _ _ Ho1).
  - assert (lane_log D T range true = []) as ->.
    { apply lane_log_empty. intros x Hx He. destruct (hi_cover _ _ _ _ _ _ _ Hi true x Hx) as (u & Hu & Hin).
      unfold range in *. congruence. }
    unfold into_series_samples_with_ooo. rewrite (wi_lane _ _ _ _ _ Hw).
    destruct (into_deduped_rep al1 al1' c w _ (wi_log _ _ _ _ _ Hw) (sealed_fits _ Hs) Hg1 Hg1' Hroom Hrange) as (rows & -> & Hrows).
    cbn [mbind option_bind result_bind]. eexists. split; [done|]. by apply merged_rows_alone.
Qed.

(** What a run leaves: the windows it handed out and those drained after it. *)
Definition windows_decode (h : HeadBuffer) (T : list routed) (out : list HeadWindow) : Prop :=
  ∀ al, (∀ n, grants_all (al n)) → ∃ h' drained, drain_windows al h = Some (h', drained) ∧
    let windows := out ++ drained in
    NoDup (window_key <$> windows) ∧
    (∀ b x, (b, x) ∈ T → ∃ w, w ∈ windows ∧ window_key w = (window_for x.2.1 D, b)) ∧
    ∀ w al1 al2, w ∈ windows → grants_all al1 → (∀ n, grants_all (al2 n)) →
      ∃ rows, into_deduped_series_samples al1 al2 w = Some (Ok rows) ∧
        rows_are (deduped_row c) (lane_log D T (hw_start_ms w, hw_end_ms w) (hw_out_of_order w)) rows.

Lemma head_run_decodes h0 ops :
  config_wf → window_duration_ms c = Ok D → head_new c = Ok h0 → 14 * zlen ops ≤ u32_max → Forall head_op_ok ops →
  head_fits_along h0 ops →
  ∃ h rs, head_run h0 ops = Some (h, rs) ∧ length rs = length ops ∧
    (∀ i x r, (op_sample <$> ops) !! i = Some x → rs !! i = Some r →
       result_for c D (log_from [] (take i (op_sample <$> ops)) (take i rs)) x (recorded_flag r)) ∧
    windows_decode h (log_from [] (op_sample <$> ops) rs) (handed_out rs).
Proof.
  intros Hwf HD Hnew HN Hok Halong. destruct (head_new_inv h0 (zlen ops) Hwf HD Hnew (zlen_nonneg _)) as (Hc & Hi & Hret).
  destruct (head_run_inv ops (zlen ops) h0 [] [] Hc ltac:(by rewrite Hret) HN Hok Halong) as (h & rs & Hrun & Hlen & Hfits & Hinv & Hall).
  exists h, rs. split_and!; [done|done|done|]. intros al Hal.
  destruct (drain_windows_rep al (zlen ops) h (handed_out rs) _ Hc Hinv Hfits Hal) as (h' & drained & Hd & _ & _ & _ & Hnd & Hsealed & Hcov).
  exists h', drained. split; [done|]. split; [done|]. split; [done|]. intros w al1 al2 Hw Hg1 Hg2.
  apply (proj1 (Forall_forall _ _) Hsealed) in Hw as (lane & Hw & Hs & Hroom). rewrite (wi_lane _ _ _ _ _ Hw).
  apply into_deduped_rep; try done; [apply Hw|by apply sealed_fits|].
  apply (window_in_range c); [apply Hc|apply (hi_log _ _ _ _ _ _ _ Hinv)|done].
Qed.

(** C2: the head accounts for every sample it is given.  In the raw or the Gorilla
    encoding of floats and either encoding of every other kind, after any samples
    recorded one at a time, with memory granted and none of them panicking while
    there is room: a sample is rejected exactly when it is behind its series by more
    than the out-of-order window, dropped exactly when it is not and its series has
    another kind in the window and lane it belongs to, refused exactly when it would
    be accepted but its shape has no encoding, and accepted otherwise; and the
    windows handed out and drained have distinct ranges and lanes, one for each
    accepted sample, and each decodes to a row for exactly the series with accepted
    samples in its range and lane, which has exactly the timestamps of those samples,
    ascending, each with the last of them. *)
Theorem head_accounts h0 ops :
  config_wf → window_duration_ms c = Ok D → head_new c = Ok h0 → 14 * zlen ops ≤ u32_max → Forall head_op_ok ops →
  head_fits_along h0 ops →
  ∃ h rs, head_run h0 ops = Some (h, rs) ∧ length rs = length ops ∧
    (∀ i x r, (op_sample <$> ops) !! i = Some x → rs !! i = Some r →
       result_for c D (log_from [] (take i (op_sample <$> ops)) (take i rs)) x (recorded_flag r)) ∧
    windows_decode h (log_from [] (op_sample <$> ops) rs) (handed_out rs).
Proof. apply head_run_decodes. Qed.

(** C1: last write wins across the lanes.  In the raw or the Gorilla encoding of
    floats and either encoding of every other kind, a window that the head handed
    out, merged with the out-of-order window of its range as it is when taken, has
    one row for every series with samples of one kind in that range: at exactly the
    timestamps the head accepted, the last sample it accepted, in whichever lane it
    was; a series whose lanes hold floats and integers gets one row of floats. *)
Theorem co_sealing_last_write_wins h0 ops :
  config_wf → window_duration_ms c = Ok D → head_new c = Ok h0 → 14 * zlen ops ≤ u32_max → Forall head_op_ok ops →
  head_fits_along h0 ops →
  ∃ h rs, head_run h0 ops = Some (h, rs) ∧
    ∀ w al1 al2 al3 al1' al2', w ∈ handed_out rs → grants_all al1 → grants_all al2 → grants_all al3 →
      (∀ n, grants_all (al1' n)) → (∀ n, grants_all (al2' n)) →
      ∃ out, into_series_samples_with_ooo al1 al2 al3 al1' al2' w
               (take_out_of_order_window h (hw_start_ms w) (hw_end_ms w)).2 = Some (Ok out) ∧
        ∀ s, let k := of_series s (range_log (log_from [] (op_sample <$> ops) rs) (hw_start_ms w, hw_end_ms w)) in
          let only_row ss := ∀ ss', (s, ss') ∈ sw_series_samples out ↔ ss' = ss in
          (∀ K, k ≠ [] → all_kind K k → ∃ ss, only_row ss ∧ deduped_row c k ss) ∧
          (Forall (λ x, is_number x.2) k → (¬ ∃ K, all_kind K k) → ∃ ss, only_row ss ∧ deduped_row c (retype number k) ss).
Proof.
  intros Hwf HD Hnew HN Hok Halong. destruct (head_new_inv h0 (zlen ops) Hwf HD Hnew (zlen_nonneg _)) as (Hc & Hi & Hret).
  destruct (head_run_inv ops (zlen ops) h0 [] [] Hc ltac:(by rewrite Hret) HN Hok Halong) as (h & rs & Hrun & Hlen & Hfits & Hinv & Hall).
  exists h, rs. split; [done|]. intros w al1 al2 al3 al1' al2' Hw Hg1 Hg2 Hg3 Hg1' Hg2'.
  assert (sealed_window c D (log_from [] (op_sample <$> ops) rs) false w) as Hsw.
  { apply (proj1 (Forall_forall _ _) (hi_completed _ _ _ _ _ _ _ Hinv)). by rewrite !elem_of_app; auto. }
  destruct (merge_taken _ h _ _ w al1 al2 al3 al1' al2' Hc Hinv Hfits Hsw Hg1 Hg2 Hg3 Hg1' Hg2') as (out & -> & main & additional & -> & Hn1 & Hn2 & Hm).
  eexists. split; [done|]. intros s k only_row. specialize (Hm s).
  set (T := log_from [] (op_sample <$> ops) rs) in *. set (range := (hw_start_ms w, hw_end_ms w)) in *.
  assert (same_writes (of_series s (lane_log D T range false) ++ of_series s (lane_log D T range true)) k) as Hat.
  { intros n. rewrite <- of_series_app. apply lanes_in_order, (hi_log _ _ _ _ _ _ _ Hinv). }
  split.
  - intros K Hk HK. destruct (lanes_same_kind _ _ _ _ _ K Hm Hat Hk HK) as (Ha & ss & Hss & Hd). exists ss. split; [|done].
    unfold only_row. cbn [sw_series_samples]. by apply only_row_in.
  - intros Hnum Hmix. destruct (lanes_numbers _ _ _ _ _ Hm Hat) as (Ha & ss & Hss & Hd); [..|exists ss; split; [unfold only_row; cbn [sw_series_samples]; by apply only_row_in|done]]; try done.
    + apply (window_uniform T false w s), Hsw.
    + by apply (late_uniform _ _ _ _ _ _ _ Hinv).
Qed.
End head_runs.

(** ** Witnesses *)

#[local] Existing Instance raw_other_codecs.
#[local] Existing Instance list_table_order.

Definition head_fitsb (h : HeadBuffer) : bool :=
  match hb_window h with Some w => window_fitsb w | None => true end &&
  forallb (λ x, window_fitsb x.2) (map_to_list (hb_ooo_windows h)).
Fixpoint head_fits_alongb (h : HeadBuffer) (ops : list head_op) : bool :=
  head_fitsb h &&
  match ops with
  | [] => true
  | op :: ops =>
      let '(s, (ts, v)) := op_sample op in
      match record_sample_with_outcome (op_al op) h s ts v with Some (h, _) => head_fits_alongb h ops | None => true end
  end.
Lemma head_fitsb_ok h : head_fitsb h = true → head_fits h.
Proof.
  unfold head_fitsb. intros [Ha Ho]%andb_true_iff. split.
  - intros w Hw. rewrite Hw in Ha. by apply window_fitsb_ok.
  - intros k o Hk. rewrite forallb_forall in Ho. apply window_fitsb_ok, (Ho (k, o)), list_elem_of_In.
    by apply elem_of_map_to_list.
Qed.
Lemma head_fits_alongb_ok ops : ∀ h, head_fits_alongb h ops = true → head_fits_along h ops.
Proof.
  induction ops as [|[al [s [ts v]]] ops IH]; intros h; cbn; intros [Hh Hall]%andb_true_iff; apply head_fitsb_ok in Hh; [done|].
  split; [done|]. destruct (record_sample_with_outcome al h s ts v) as [[h' r]|]; [|done]. by apply IH.
Qed.

Definition head_samples : list head_op :=
  mk_head_op (λ _, calm) <$> [(7, (11_000, SampleFloat 1)); (7, (12_000, SampleFloat 2)); (7, (11_000, SampleFloat 3));
    (8, (12_500, SampleInt64 4)); (7, (12_000, SampleFloat 5)); (7, (9_000, SampleFloat 6)); (7, (6_000, SampleFloat 7));
    (8, (13_000, SampleFloat 8)); (7, (21_000, SampleFloat 9)); (8, (14_000, SampleInt64 10)); (8, (13_500, SampleInt64 10))].
Definition first_head : HeadBuffer := mk_head head_config None ∅ [] ∅ None false.

Lemma head_samples_ok : Forall (head_op_ok head_config 10_000) head_samples.
Proof.
  unfold head_samples. cbn [fmap list_fmap].
  repeat (apply Forall_cons; split; [split; [split; [cbn; unfold ts_ok; lia|split; [cbn; auto|intros x [= <-]; done]]|done]|]).
  by apply Forall_nil.
Qed.

Lemma head_accounts_witness : ∃ h rs,
  head_run first_head head_samples = Some (h, rs) ∧ length rs = length head_samples.
Proof.
  destruct (head_accounts head_config 10_000 first_head head_samples) as (h & rs & Hrun & Hlen & _).
  - done.
  - reflexivity.
  - reflexivity.
  - done.
  - exact head_samples_ok.
  - apply head_fits_alongb_ok. vm_compute. reflexivity.
  - exists h, rs. split; [exact Hrun|exact Hlen].
Defined.

Lemma co_sealing_last_write_wins_witness : ∃ h rs, head_run first_head head_samples = Some (h, rs).
Proof.
  destruct (co_sealing_last_write_wins head_config 10_000 first_head head_samples) as (h & rs & Hrun & _).
  - done.
  - reflexivity.
  - reflexivity.
  - done.
  - exact head_samples_ok.
  - apply head_fits_alongb_ok. vm_compute. reflexivity.
  - exists h, rs. exact Hrun.
Defined.

(** A sample at the last [u64] millisecond: its range saturates to end there, so
    the window that accepted it does not hold it and cannot be sealed. *)
Example last_timestamp_blocks_sealing :
  ('(h, r) ← record_sample_with_outcome (λ _, calm) first_head 7 u64_max (SampleFloat 1);
   '(_, windows) ← drain_windows (λ _, calm) h;
   rows ← mapM (into_deduped_series_samples calm (λ _, calm)) windows;
   Some (recorded_flag r, rows)) =
  Some (Ok true, [fail InvalidData
    "head series 7 timestamp 18446744073709551615 falls outside window [18446744073709550000, 18446744073709551615)"]).
Proof. vm_compute. reflexivity. Qed.
