(* ===== verification/Otlp.v ===== *)
(** * OTLP data points

    [chronoxide-core/src/otlp.rs].  The messages of [opentelemetry_proto] are
    generated outside the program: each is the record of the fields the program
    reads, and the decoding of a request and of the temporality's number are a
    class.  Doubles are their bits, strings their bytes. *)
From S2P Require Import Prelude Text TypedSamples.

(** ** Messages *)

Inductive AnyValue :=
  | StringValue (value : str)
  | BoolValue (value : bool)
  | IntValue (value : Z)
  | DoubleValue (bits : Z)
  | BytesValue
  | ArrayValue
  | KvlistValue
  | StringValueStrindex.

(** [kv.value] is an optional message whose own [value] is optional. *)
Record KeyValue := mk_kv { kv_key : str; kv_value : option (option AnyValue) }.

Inductive NumberValue := AsInt (value : Z) | AsDouble (bits : Z).

Record NumberDataPoint := mk_number_dp {
  nd_attributes : list KeyValue;
  nd_time_unix_nano : Z;
  nd_value : option NumberValue;
}.
Record HistogramDataPoint := mk_histogram_dp {
  hd_attributes : list KeyValue;
  hd_start_time_unix_nano : Z;
  hd_time_unix_nano : Z;
  hd_count : Z;
  hd_sum : option Z;
  hd_min : option Z;
  hd_max : option Z;
  hd_bucket_counts : list Z;
  hd_explicit_bounds : list Z;
  hd_flags : Z;
}.
Record Buckets := mk_dp_buckets { bk_offset : Z; bk_bucket_counts : list Z }.
Record ExponentialHistogramDataPoint := mk_exponential_dp {
  ed_attributes : list KeyValue;
  ed_start_time_unix_nano : Z;
  ed_time_unix_nano : Z;
  ed_count : Z;
  ed_sum : option Z;
  ed_min : option Z;
  ed_max : option Z;
  ed_scale : Z;
  ed_zero_count : Z;
  ed_zero_threshold : Z;
  ed_positive : option Buckets;
  ed_negative : option Buckets;
  ed_flags : Z;
}.
Record ValueAtQuantile := mk_value_at { vq_quantile : Z; vq_value : Z }.
Record SummaryDataPoint := mk_summary_dp {
  sd_attributes : list KeyValue;
  sd_start_time_unix_nano : Z;
  sd_time_unix_nano : Z;
  sd_count : Z;
  sd_sum : Z;
  sd_quantile_values : list ValueAtQuantile;
  sd_flags : Z;
}.

(** A histogram carries its aggregation temporality as an [i32]. *)
Inductive MetricData :=
  | Gauge (data_points : list NumberDataPoint)
  | Sum (data_points : list NumberDataPoint)
  | Histogram (data_points : list HistogramDataPoint) (aggregation_temporality : Z)
  | ExponentialHistogram (data_points : list ExponentialHistogramDataPoint) (aggregation_temporality : Z)
  | Summary (data_points : list SummaryDataPoint).

Record Metric := mk_metric { mt_name : str; mt_data : option MetricData }.
Record ScopeMetrics := mk_scope { sm_metrics : list Metric }.
(** The attributes of the optional resource. *)
Record ResourceMetrics := mk_resource { rm_resource : option (list KeyValue); rm_scope_metrics : list ScopeMetrics }.
Record ExportMetricsServiceRequest := mk_request { rq_resource_metrics : list ResourceMetrics }.

Inductive AggregationTemporality := Unspecified | Delta | Cumulative.

(** The generated code and [prost]'s decoder; [None] is a decoding error. *)
Class OtlpProto := {
  aggregation_temporality_try_from : Z → option AggregationTemporality;
  decode_request : list Z → option ExportMetricsServiceRequest;
}.

(** ** Values *)

Definition datapoint_time_ms (time_unix_nano : Z) : option Z :=
  if 0 <? time_unix_nano then Some (time_unix_nano / 1000000) else None.

Definition number_value (dp : NumberDataPoint) : option SampleValue :=
  value ← nd_value dp;
  Some (match value with AsInt value => SampleInt64 value | AsDouble bits => SampleFloat bits end).

Definition buckets_value (buckets : option Buckets) : ExponentialHistogramBuckets :=
  match buckets with
  | Some b => mk_buckets (bk_offset b) (bk_bucket_counts b)
  | None => mk_buckets 0 []
  end.

(** The taken value, and what is left behind. *)
Definition take_exponential_histogram_buckets (buckets : option Buckets)
    : ExponentialHistogramBuckets * option Buckets := (buckets_value buckets, None).

Definition summary_quantile (v : ValueAtQuantile) : SummaryQuantileValue := mk_quantile (vq_quantile v) (vq_value v).

Section values.
Context `{OtlpProto}.

Definition typed_metadata (start_time_unix_nano flags aggregation_temporality : Z) : TypedSampleMetadata :=
  mk_metadata (datapoint_time_ms start_time_unix_nano) flags
    (match aggregation_temporality_try_from aggregation_temporality with
     | Some Delta => TemporalityDelta
     | Some Cumulative => TemporalityCumulative
     | Some Unspecified | None => TemporalityUnspecified
     end)
    ResetUnknown.

Definition histogram_value_with_buckets (dp : HistogramDataPoint) (aggregation_temporality : Z)
    (explicit_bounds bucket_counts : list Z) : SampleValue :=
  SampleHistogram (mk_histogram (hd_count dp) (hd_sum dp) (hd_min dp) (hd_max dp)
    (typed_metadata (hd_start_time_unix_nano dp) (hd_flags dp) aggregation_temporality)
    explicit_bounds bucket_counts).

Definition histogram_value (dp : HistogramDataPoint) (aggregation_temporality : Z) : SampleValue :=
  histogram_value_with_buckets dp aggregation_temporality (hd_explicit_bounds dp) (hd_bucket_counts dp).

Definition exponential_histogram_value_with_buckets (dp : ExponentialHistogramDataPoint)
    (aggregation_temporality : Z) (positive negative : ExponentialHistogramBuckets) : SampleValue :=
  SampleExponentialHistogram (mk_exponential (ed_count dp) (ed_sum dp) (ed_min dp) (ed_max dp) (ed_scale dp)
    (ed_zero_threshold dp) (ed_zero_count dp)
    (typed_metadata (ed_start_time_unix_nano dp) (ed_flags dp) aggregation_temporality)
    positive negative).

Definition exponential_histogram_value (dp : ExponentialHistogramDataPoint) (aggregation_temporality : Z)
    : SampleValue :=
  exponential_histogram_value_with_buckets dp aggregation_temporality
    (buckets_value (ed_positive dp)) (buckets_value (ed_negative dp)).

Definition summary_value (dp : SummaryDataPoint) : SampleValue :=
  SampleSummary (mk_summary (sd_count dp) (sd_sum dp)
    (typed_metadata (sd_start_time_unix_nano dp) (sd_flags dp) 0)
    (summary_quantile <$> sd_quantile_values dp)).

End values.
