(* ===== verification/OtlpLabels.v ===== *)
(** * Canonical label sets

    [chronoxide-core/src/otlp_labelset.rs]: the label set of a data point, built
    either by one sort of all its attributes or by merging the resource's labels,
    prepared once per request, with the data point's.  A [&str] into a scratch
    vector is the index the code keeps; an index out of range panics ([None]). *)
From Stdlib Require Import Sorted.
From stdpp Require Import sorting.
From S2P Require Import Prelude Sort Text Display Otlp.

Definition METRIC_NAME_LABEL : str := bytes_of_string "__name__".

(** ** Labels under construction ([labels/mod.rs]) *)

Inductive TmpValue := Borrowed (value : str) | Scratch (index : nat).
Record TmpLabel := mk_tmp { tl_key : str; tl_value : TmpValue; tl_rank : Z; tl_ordinal : nat }.

Definition tmp_as_str (scratch_values : list str) (v : TmpValue) : option str :=
  match v with Borrowed value => Some value | Scratch index => scratch_values !! index end.

Section push.
Context {St : Type} (on_skipped : St → St) (rank : Z).

(** One turn of [push_kvs] on the labels, the scratch values and what the callback
    changes. *)
Definition push_kv (s : list TmpLabel * list str * St) (kv : KeyValue) : list TmpLabel * list str * St :=
  let '(out, scratch_values, st) := s in
  if bool_decide (kv_key kv = []) || bool_decide (kv_key kv = METRIC_NAME_LABEL) then s
  else
    match kv_value kv with
    | None | Some None => s
    | Some (Some value) =>
        let push v scratch_values := (out ++ [mk_tmp (kv_key kv) v rank (length out)], scratch_values, st) in
        let push_text text := push (Scratch (length scratch_values)) (scratch_values ++ [text]) in
        match value with
        | StringValue value => push (Borrowed value) scratch_values
        | BoolValue value => push_text (bool_text value)
        | IntValue value => push_text (i64_text value)
        | DoubleValue value => push_text (f64_text value)
        | BytesValue | ArrayValue | KvlistValue | StringValueStrindex => (out, scratch_values, on_skipped st)
        end
    end.
Definition push_kvs (kvs : list KeyValue) (s : list TmpLabel * list str * St) : list TmpLabel * list str * St :=
  foldl push_kv s kvs.
End push.

Definition label_compare (a b : TmpLabel) : comparison :=
  then_with (str_compare (tl_key a) (tl_key b))
    (then_with (tl_rank a ?= tl_rank b) (tl_ordinal a ?= tl_ordinal b)%nat).

(** The order is total on labels of different ordinals, so any sort gives the same
    result. *)
Definition sort_labels (l : list TmpLabel) : list TmpLabel := sort_by label_compare l.

(** The last label of every run of equal keys. *)
Fixpoint last_of_runs (l : list TmpLabel) : list TmpLabel :=
  match l with
  | x :: (y :: _) as l' => if bool_decide (tl_key y = tl_key x) then last_of_runs l' else x :: last_of_runs l'
  | l => l
  end.
Definition sort_and_dedup_labels (l : list TmpLabel) : list TmpLabel := last_of_runs (sort_labels l).

(** ** Canonical label sets *)

Inductive PreparedCanonicalValue :=
  | PreparedBorrowed (value : str)
  | ResourceScratch (index : nat)
  | DatapointScratch (index : nat).
(** Which symbol cell of the plan a label may use. *)
Inductive PreparedSymbolCache := CacheNone | CacheResource (index : nat) | CacheMetric.
Record PreparedCanonicalLabel := mk_pcl {
  pl_key : str;
  pl_value : PreparedCanonicalValue;
  pl_cache : PreparedSymbolCache;
}.

Definition prepared_as_str (resource_values datapoint_values : list str) (v : PreparedCanonicalValue) : option str :=
  match v with
  | PreparedBorrowed value => Some value
  | ResourceScratch index => resource_values !! index
  | DatapointScratch index => datapoint_values !! index
  end.

Inductive CanonicalLabelSet :=
  | FullSort (labels : list TmpLabel) (scratch_values : list str)
  | Prepared (labels : list PreparedCanonicalLabel) (resource_values datapoint_values : list str).

(** [iter] to its end, and [prepared_parts], which names the cell of each label. *)
Definition canonical_iter (c : CanonicalLabelSet) : option (list (str * str)) :=
  match c with
  | FullSort labels scratch_values =>
      mapM (λ l, v ← tmp_as_str scratch_values (tl_value l); Some (tl_key l, v)) labels
  | Prepared labels resource_values datapoint_values =>
      mapM (λ l, v ← prepared_as_str resource_values datapoint_values (pl_value l); Some (pl_key l, v)) labels
  end.
Definition prepared_parts (c : CanonicalLabelSet) : option (option (list (str * str * PreparedSymbolCache))) :=
  match c with
  | FullSort _ _ => None
  | Prepared labels resource_values datapoint_values =>
      Some (mapM (λ l, v ← prepared_as_str resource_values datapoint_values (pl_value l);
                       Some (pl_key l, v, pl_cache l)) labels)
  end.

(** The interner, its state [I] and its errors [E]. *)
Class OtlpLabelSetInterner (I E : Type) := {
  on_skipped_non_scalar : I → I;
  on_intern_error : E → I → I;
  intern : CanonicalLabelSet → I → option (result E Z * I);
}.
(** It sees a label set through [iter] only. *)
Class InternsLabels (I E : Type) `{OtlpLabelSetInterner I E} : Prop := {
  intern_iter c d i : canonical_iter c = canonical_iter d → intern c i = intern d i;
}.

(** ** One sort *)

Section full_sort.
Context {I E : Type} `{OtlpLabelSetInterner I E}.

Definition finish_intern (c : CanonicalLabelSet) (i : I) : option (option Z * I) :=
  '(r, i) ← intern c i;
  Some (match r with Ok series => (Some series, i) | Err e => (None, on_intern_error e i) end).

Definition build_canonical_labelset (resource_attrs : list KeyValue) (metric_name : str)
    (datapoint_attrs : list KeyValue) (i : I) : CanonicalLabelSet * I :=
  let s := ([mk_tmp METRIC_NAME_LABEL (Borrowed metric_name) 3 0], [], i) in
  let s := push_kvs on_skipped_non_scalar 0 resource_attrs s in
  let '(tmp_labels, scratch_values, i) := push_kvs on_skipped_non_scalar 2 datapoint_attrs s in
  (FullSort (sort_and_dedup_labels tmp_labels) scratch_values, i).

Definition intern_labelset (resource_attrs : list KeyValue) (metric_name : str)
    (datapoint_attrs : list KeyValue) (i : I) : option (option Z * I) :=
  let '(labels, i) := build_canonical_labelset resource_attrs metric_name datapoint_attrs i in
  finish_intern labels i.
End full_sort.

(** ** The prepared plan *)

Record PreparedOtlpResourceLabels := mk_prl {
  pr_labels : list TmpLabel;
  pr_scratch_values : list str;
  pr_skipped_non_scalar : Z;
}.

Definition saturating_succ (n : Z) : Z := Z.min usize_max (n + 1).

Definition prepare_resource (resource_attrs : list KeyValue) : PreparedOtlpResourceLabels :=
  let '(labels, scratch_values, skipped) := push_kvs saturating_succ 0 resource_attrs ([], [], 0) in
  mk_prl (sort_and_dedup_labels labels) scratch_values skipped.

Definition prepared_resource_label (resource_index : nat) (label : TmpLabel) : PreparedCanonicalLabel :=
  mk_pcl (tl_key label)
    (match tl_value label with Borrowed value => PreparedBorrowed value | Scratch index => ResourceScratch index end)
    (CacheResource resource_index).
Definition prepared_datapoint_label (label : TmpLabel) : PreparedCanonicalLabel :=
  mk_pcl (tl_key label)
    (match tl_value label with Borrowed value => PreparedBorrowed value | Scratch index => DatapointScratch index end)
    CacheNone.

Section merge.
Context (metric_name : str) (resource_labels datapoint_labels : list TmpLabel).

Definition str_min (a b : str) : str := match str_compare a b with Gt => b | _ => a end.

(** The [while] loop of [merge_prepared_labels]; [None] is too little fuel. *)
Fixpoint merge_loop (fuel : nat) (resource_index datapoint_index : nat) (metric_pending : bool)
    (merged : list PreparedCanonicalLabel) : option (list PreparedCanonicalLabel) :=
  match fuel with
  | O => None
  | S fuel =>
      if bool_decide (resource_index < length resource_labels)%nat
         || bool_decide (datapoint_index < length datapoint_labels)%nat || metric_pending then
        let resource := resource_labels !! resource_index in
        let datapoint := datapoint_labels !! datapoint_index in
        let next_attribute_key :=
          match resource, datapoint with
          | Some resource, Some datapoint => Some (str_min (tl_key resource) (tl_key datapoint))
          | Some resource, None => Some (tl_key resource)
          | None, Some datapoint => Some (tl_key datapoint)
          | None, None => None
          end in
        let metric_first :=
          match next_attribute_key with
          | Some key => bool_decide (str_compare METRIC_NAME_LABEL key = Lt)
          | None => true
          end in
        if metric_pending && metric_first then
          merge_loop fuel resource_index datapoint_index false
            (merged ++ [mk_pcl METRIC_NAME_LABEL (PreparedBorrowed metric_name) CacheMetric])
        else
          let take_resource r := merged ++ [prepared_resource_label resource_index r] in
          let take_datapoint d := merged ++ [prepared_datapoint_label d] in
          match resource, datapoint with
          | Some r, Some d =>
              match str_compare (tl_key r) (tl_key d) with
              | Lt => merge_loop fuel (S resource_index) datapoint_index metric_pending (take_resource r)
              | Eq => merge_loop fuel (S resource_index) (S datapoint_index) metric_pending (take_datapoint d)
              | Gt => merge_loop fuel resource_index (S datapoint_index) metric_pending (take_datapoint d)
              end
          | Some r, None => merge_loop fuel (S resource_index) datapoint_index metric_pending (take_resource r)
          | None, Some d => merge_loop fuel resource_index (S datapoint_index) metric_pending (take_datapoint d)
          | None, None => merge_loop fuel resource_index datapoint_index metric_pending merged
          end
      else Some merged
  end.

(** Every turn but the last consumes a label or places the metric name. *)
Definition merge_prepared_labels : option (list PreparedCanonicalLabel) :=
  merge_loop (S (S (length resource_labels + length datapoint_labels))) 0 0 true [].
End merge.

Section prepared.
Context {I E : Type} `{OtlpLabelSetInterner I E}.

Definition build_prepared_canonical_labelset (resource : PreparedOtlpResourceLabels) (metric_name : str)
    (datapoint_attrs : list KeyValue) (i : I) : option (CanonicalLabelSet * I) :=
  let '(labels, datapoint_values, skipped) := push_kvs saturating_succ 2 datapoint_attrs ([], [], 0) in
  let datapoint_labels := sort_and_dedup_labels labels in
  merged ← merge_prepared_labels metric_name (pr_labels resource) datapoint_labels;
  let skipped_non_scalar := Z.min usize_max (pr_skipped_non_scalar resource + skipped) in
  Some (Prepared merged (pr_scratch_values resource) datapoint_values,
        Nat.iter (Z.to_nat skipped_non_scalar) on_skipped_non_scalar i).

Definition intern_prepared_labelset (resource : PreparedOtlpResourceLabels) (metric_name : str)
    (datapoint_attrs : list KeyValue) (i : I) : option (option Z * I) :=
  '(labels, i) ← build_prepared_canonical_labelset resource metric_name datapoint_attrs i;
  finish_intern labels i.
End prepared.

(** ** Specification *)

(** The label an attribute gives, and whether it is skipped. *)
Definition attr_text (kv : KeyValue) : option str :=
  value ← kv_value kv; value ← value;
  match value with
  | StringValue value => Some value
  | BoolValue value => Some (bool_text value)
  | IntValue value => Some (i64_text value)
  | DoubleValue value => Some (f64_text value)
  | _ => None
  end.
Definition attr_named (kv : KeyValue) : Prop := kv_key kv ≠ [] ∧ kv_key kv ≠ METRIC_NAME_LABEL.
#[export] Instance attr_named_dec kv : Decision (attr_named kv) := _.
Definition attr_non_scalar (kv : KeyValue) : Prop :=
  attr_named kv ∧ attr_text kv = None ∧ ∃ value, kv_value kv = Some (Some value).
#[export] Instance attr_non_scalar_dec kv : Decision (attr_non_scalar kv).
Proof.
  refine (match kv_value kv as o return kv_value kv = o → _ with
          | Some (Some value) => λ Heq, cast_if (decide (attr_named kv ∧ attr_text kv = None))
          | _ => λ Heq, right _
          end eq_refl); unfold attr_non_scalar; naive_solver.
Defined.

Definition attr_label (kv : KeyValue) : option (str * str) :=
  if decide (attr_named kv) then (λ text, (kv_key kv, text)) <$> attr_text kv else None.
Definition attr_labels (kvs : list KeyValue) : list (str * str) := omap attr_label kvs.
Definition skipped_attrs (kvs : list KeyValue) : nat := length (filter attr_non_scalar kvs).

(** The last value of a key. *)
Definition last_value (key : str) (labels : list (str * str)) : option str :=
  last (snd <$> filter (λ p, p.1 = key) labels).
(** The metric's name, else the data point's last value, else the resource's. *)
Definition label_value (resource_attrs : list KeyValue) (metric_name : str) (datapoint_attrs : list KeyValue)
    (key : str) : option str :=
  if decide (key = METRIC_NAME_LABEL) then Some metric_name
  else match last_value key (attr_labels datapoint_attrs) with
       | Some value => Some value
       | None => last_value key (attr_labels resource_attrs)
       end.

Definition pair_lt (p q : str * str) : Prop := str_compare p.1 q.1 = Lt.
Definition canonical (value : str → option str) (labels : list (str * str)) : Prop :=
  StronglySorted pair_lt labels ∧ ∀ k v, (k, v) ∈ labels ↔ value k = Some v.

Lemma str_lt_irrefl s : str_compare s s ≠ Lt.
Proof. by rewrite (proj2 (str_compare_eq s s)). Qed.

(** A label set is determined by its lookup function. *)
Lemma canonical_eq value l k : canonical value l → canonical value k → l = k.
Proof.
  intros [Hl Hvl] [Hk Hvk]. apply (strict_sorted_eq pair_lt); [|..|done|done|].
  - intros p. apply str_lt_irrefl.
  - intros p q r. apply str_compare_trans.
  - intros [key v]. by rewrite Hvl, Hvk.
Qed.

(** ** Pushing *)

Definition label_is (scratch_values : list str) (l : TmpLabel) (p : str * str) : Prop :=
  tl_key l = p.1 ∧ tmp_as_str scratch_values (tl_value l) = Some p.2.
Abbreviation labels_are scratch_values := (Forall2 (label_is scratch_values)).

Lemma label_is_extend scratch extra l p : label_is scratch l p → label_is (scratch ++ extra) l p.
Proof.
  intros [Hk Hv]. split; [done|]. destruct (tl_value l) as [v|i]; [done|]. cbn in *. by apply lookup_app_l_Some.
Qed.
Lemma labels_are_extend scratch extra ls ps : labels_are scratch ls ps → labels_are (scratch ++ extra) ls ps.
Proof. intros Hl. eapply Forall2_impl; [exact Hl|]. intros. by apply label_is_extend. Qed.

(** What [push_kvs] appended. *)
Record pushed {St} (on_skipped : St → St) (rank : Z) (kvs : list KeyValue) (out : list TmpLabel)
    (scratch : list str) (st : St) (s : list TmpLabel * list str * St) : Prop := {
  pu_state : s.2 = Nat.iter (skipped_attrs kvs) on_skipped st;
  pu_labels : ∃ new extra, s.1 = (out ++ new, scratch ++ extra) ∧ labels_are (scratch ++ extra) new (attr_labels kvs) ∧
    Forall (λ l, tl_rank l = rank) new ∧ ∀ j l, new !! j = Some l → tl_ordinal l = (length out + j)%nat;
}.

Lemma pushed_app {St} (f : St → St) rank kvs kvs' out scratch st out' scratch' st' s :
  pushed f rank kvs out scratch st (out', scratch', st') → pushed f rank kvs' out' scratch' st' s →
  pushed f rank (kvs ++ kvs') out scratch st s.
Proof.
  intros [Hs1 (n1 & e1 & [= -> ->] & Hl1 & Hr1 & Ho1)] [Hs2 (n2 & e2 & Hs & Hl2 & Hr2 & Ho2)]. cbn [snd] in Hs1. split.
  - rewrite Hs2, Hs1. unfold skipped_attrs. by rewrite filter_app, length_app, Nat.add_comm, Nat.iter_add.
  - exists (n1 ++ n2), (e1 ++ e2). rewrite Hs, <- !app_assoc. split; [done|]. split_and!.
    + unfold attr_labels. rewrite omap_app. rewrite <- app_assoc in Hl2. apply Forall2_app; [|done].
      rewrite app_assoc. by apply labels_are_extend.
    + by apply Forall_app.
    + intros j l [Hj|[Hle Hj]]%lookup_app_Some; [by apply Ho1|]. rewrite (Ho2 _ _ Hj), length_app. lia.
Qed.
Lemma push_kv_spec {St} (f : St → St) rank kv out scratch st :
  pushed f rank [kv] out scratch st (push_kv f rank (out, scratch, st) kv).
Proof.
  assert (∀ v extra text, attr_named kv → attr_text kv = Some text →
    tmp_as_str (scratch ++ extra) v = Some text →
    pushed f rank [kv] out scratch st (out ++ [mk_tmp (kv_key kv) v rank (length out)], scratch ++ extra, st)) as Hpush.
  { intros v extra text Hn Ht Hv. split.
    - unfold skipped_attrs. rewrite filter_cons, decide_False; [done|]. by intros (_ & Ht' & _); rewrite Ht in Ht'.
    - eexists _, extra. split; [done|]. split_and!.
      + cbn. unfold attr_label. rewrite decide_True, Ht by done. cbn. by repeat constructor.
      + by repeat constructor.
      + intros [|j] l; [|done]. intros [= <-]. cbn. lia. }
  assert (∀ st', (if decide (attr_non_scalar kv) then f st else st) = st' → (attr_named kv → attr_text kv = None) →
    pushed f rank [kv] out scratch st (out, scratch, st')) as Hno.
  { intros st' Hs Ht. split.
    - unfold skipped_attrs. rewrite filter_cons. cbn. by destruct (decide (attr_non_scalar kv)).
    - exists [], []. rewrite !app_nil_r. split; [done|]. split; [|by split].
      cbn. unfold attr_label. destruct (decide (attr_named kv)); [rewrite Ht by done|]; constructor. }
  unfold push_kv. case_bool_decide as H1; [|case_bool_decide as H2]; cbn [orb].
  - apply Hno; [by rewrite decide_False by (intros ((H2 & _) & _); done)|]. by intros [].
  - apply Hno; [by rewrite decide_False by (intros ((_ & ?) & _); done)|]. by intros [].
  - destruct (kv_value kv) as [[value|]|] eqn:Hv;
      [|by apply Hno; [rewrite decide_False; [done|intros (_ & _ & ? & ?); congruence]|
                       intros _; unfold attr_text; rewrite Hv]..].
    destruct value;
      try (assert (attr_text kv = None) by (unfold attr_text; by rewrite Hv);
           apply Hno; [rewrite decide_True; [done|split; [done|split; [done|by eexists]]]|done]);
      [rewrite <- (app_nil_r scratch) at 2|..]; (eapply Hpush; [done|unfold attr_text; by rewrite Hv|]);
      [done|cbn; by rewrite lookup_app_r, Nat.sub_diag by lia..].
Qed.
Lemma push_kvs_spec {St} (f : St → St) rank kvs out scratch st :
  pushed f rank kvs out scratch st (push_kvs f rank kvs (out, scratch, st)).
Proof.
  revert out scratch st. induction kvs as [|kv kvs IH]; intros out scratch st.
  - split; [done|]. exists [], []. rewrite !app_nil_r. by repeat constructor.
  - change (push_kvs f rank (kv :: kvs) (out, scratch, st)) with (push_kvs f rank kvs (push_kv f rank (out, scratch, st) kv)).
    pose proof (push_kv_spec f rank kv out scratch st) as Hkv.
    destruct (push_kv f rank (out, scratch, st) kv) as [[out' scratch'] st'].
    by apply (pushed_app f rank [kv] kvs _ _ _ _ _ _ _ Hkv).
Qed.

(** ** Sorting and deduplicating *)

Definition key_ordered (a b : TmpLabel) : Prop := str_compare (tl_key a) (tl_key b) ≠ Gt.
Definition key_before (a b : TmpLabel) : Prop := str_compare (tl_key a) (tl_key b) = Lt.
(** Labels of one key come with increasing ranks and ordinals, as they are pushed. *)
Definition pushed_before (a b : TmpLabel) : Prop := tl_key a = tl_key b → label_compare a b = Lt.
Abbreviation at_label k := (filter (λ l : TmpLabel, tl_key l = k)).

Lemma str_le_trans a b c : str_compare a b ≠ Gt → str_compare b c ≠ Gt → str_compare a c ≠ Gt.
Proof.
  intros Hab Hbc. destruct (str_compare a b) eqn:E1; [|destruct (str_compare b c) eqn:E2|done].
  - by apply str_compare_eq in E1 as ->.
  - apply str_compare_eq in E2 as <-. by rewrite E1.
  - by rewrite (str_compare_trans _ _ _ E1 E2).
  - done.
Qed.
Lemma str_gt_lt a b : str_compare a b = Gt → str_compare b a = Lt.
Proof. intros Hab. by rewrite str_compare_antisym, Hab. Qed.

Lemma label_compare_key x y : label_compare x y ≠ Gt → key_ordered x y.
Proof. unfold label_compare, key_ordered. by destruct (str_compare (tl_key x) (tl_key y)). Qed.
Lemma label_compare_gt x y : label_compare x y = Gt → key_ordered y x.
Proof.
  unfold label_compare, key_ordered. rewrite (str_compare_antisym (tl_key x)).
  by destruct (str_compare (tl_key x) (tl_key y)).
Qed.

Lemma sort_labels_perm l : sort_labels l ≡ₚ l.
Proof. apply sort_by_perm. Qed.

Lemma insert_label_sorted x l : StronglySorted key_ordered l → StronglySorted key_ordered (insert_by label_compare x l).
Proof.
  induction 1 as [|y l Hl IH Hy]; cbn; [by repeat constructor|].
  assert (label_compare x y ≠ Gt → StronglySorted key_ordered (x :: y :: l)) as Hfront.
  { intros Hc%label_compare_key. constructor; [by constructor|]. constructor; [done|].
    eapply Forall_impl; [exact Hy|]. intros z. by apply str_le_trans. }
  destruct (label_compare x y) eqn:Hc; [by apply Hfront..|]. constructor; [done|].
  rewrite insert_by_perm. constructor; [by apply label_compare_gt|done].
Qed.
Lemma sort_labels_sorted l : StronglySorted key_ordered (sort_labels l).
Proof. induction l as [|x l IH]; [constructor|]. by apply insert_label_sorted. Qed.

Lemma insert_label_stable k x l : Forall (pushed_before x) l → at_label k (insert_by label_compare x l) = at_label k (x :: l).
Proof.
  induction 1 as [|y l Hy Hl IH]; [done|]. cbn [insert_by]. destruct (label_compare x y) eqn:Hc; [done|done|].
  rewrite filter_cons, IH, !filter_cons. destruct (decide (tl_key y = k)), (decide (tl_key x = k)); try done.
  rewrite Hy in Hc by congruence. done.
Qed.
Lemma sort_labels_stable k l : StronglySorted pushed_before l → at_label k (sort_labels l) = at_label k l.
Proof.
  induction 1 as [|x l Hl IH Hx]; [done|]. change (sort_labels (x :: l)) with (insert_by label_compare x (sort_labels l)).
  rewrite insert_label_stable, !filter_cons, IH; [done|]. by rewrite sort_labels_perm.
Qed.

(** The last of each run of a list in key order: one label for each key. *)
Lemma last_of_runs_spec l : StronglySorted key_ordered l →
  StronglySorted key_before (last_of_runs l) ∧ ∀ x, x ∈ last_of_runs l ↔ last (at_label (tl_key x) l) = Some x.
Proof.
  induction 1 as [|x l Hl IH Hx]; [split; [constructor|]; intros x; cbn; split; [by intros ?%not_elem_of_nil|done]|].
  destruct IH as [Hs Hin]. destruct l as [|y l].
  { change (last_of_runs [x]) with [x]. split; [by repeat constructor|]. intros z. rewrite list_elem_of_singleton, filter_cons.
    case_decide as Hk; cbn; [naive_solver|]. split; [by intros ->|done]. }
  set (l' := y :: l) in *. change (last_of_runs (x :: l')) with
    (if bool_decide (tl_key y = tl_key x) then last_of_runs l' else x :: last_of_runs l').
  case_bool_decide as Hyx.
  - split; [done|]. intros z. rewrite Hin, (filter_cons _ x). case_decide as Hk; [|done].
    unfold l'. rewrite filter_cons, decide_True by congruence. by rewrite last_cons_cons.
  - assert (Forall (λ z, str_compare (tl_key x) (tl_key z) = Lt) l') as Hlt.
    { assert (str_compare (tl_key x) (tl_key y) = Lt) as Hxy.
      { apply Forall_cons_1 in Hx as [Hx _]. unfold key_ordered in Hx.
        destruct (str_compare (tl_key x) (tl_key y)) eqn:E; [|done|done]. by apply str_compare_eq in E. }
      unfold l'. apply StronglySorted_inv in Hl as [_ Hy]. constructor; [done|]. eapply Forall_impl; [exact Hy|].
      cbn. intros z Hz. unfold key_ordered in Hz. destruct (str_compare (tl_key y) (tl_key z)) eqn:E; [|..|done].
      - apply str_compare_eq in E. by rewrite <- E.
      - by eapply str_compare_trans. }
    assert (at_label (tl_key x) l' = []) as Hnil.
    { apply elem_of_nil_inv. intros z [Hk Hz]%list_elem_of_filter. pose proof (proj1 (Forall_forall _ _) Hlt z Hz) as Hxz.
      cbn in Hxz. rewrite Hk in Hxz. by apply str_lt_irrefl in Hxz. }
    split.
    + constructor; [done|]. apply Forall_forall. intros z Hz%Hin.
      apply last_Some_elem_of, list_elem_of_filter in Hz as [_ Hz]. by eapply Forall_forall in Hlt.
    + intros z. rewrite elem_of_cons, Hin, filter_cons. case_decide as Hk.
      * rewrite <- Hk, Hnil. cbn. split; [|by intros [= ->]; left]. intros [->|?]; done.
      * split; [|by right]. by intros [->|?].
Qed.

(** What the sort leaves of pushed labels. *)
Lemma sort_and_dedup_spec l : StronglySorted pushed_before l →
  StronglySorted key_before (sort_and_dedup_labels l) ∧
  ∀ x, x ∈ sort_and_dedup_labels l ↔ last (at_label (tl_key x) l) = Some x.
Proof.
  intros Hl. destruct (last_of_runs_spec _ (sort_labels_sorted l)) as [Hs Hin]. split; [done|].
  intros x. unfold sort_and_dedup_labels. by rewrite Hin, sort_labels_stable.
Qed.

(** ** Resolved labels *)

Lemma run_pushed_before rank n l : Forall (λ x, tl_rank x = rank) l →
  (∀ j x, l !! j = Some x → tl_ordinal x = (n + j)%nat) → StronglySorted pushed_before l.
Proof.
  intros Hr. revert n. induction Hr as [|x l Hx Hl IH]; intros n Ho; constructor.
  - apply (IH (S n)). intros j y Hj. rewrite (Ho (S j) y Hj). lia.
  - apply Forall_forall. intros y Hy Hk. unfold label_compare.
    apply (proj2 (str_compare_eq _ _)) in Hk as ->. cbn [then_with].
    rewrite Hx, (proj1 (Forall_forall _ _) Hl y Hy), Z.compare_refl. cbn [then_with].
    apply list_elem_of_lookup_1 in Hy as [j Hj]. rewrite (Ho 0%nat x eq_refl), (Ho (S j) y Hj).
    apply Nat.compare_lt_iff. lia.
Qed.
Lemma ranks_pushed_before r1 r2 l k : r1 < r2 → Forall (λ x, tl_rank x = r1) l → Forall (λ x, tl_rank x = r2) k →
  StronglySorted pushed_before l → StronglySorted pushed_before k → StronglySorted pushed_before (l ++ k).
Proof.
  intros Hr Hl Hk Hsl Hsk. apply StronglySorted_app. split_and!; [|done|done]. intros x y Hx Hy Hkey.
  unfold label_compare. apply (proj2 (str_compare_eq _ _)) in Hkey as ->. cbn [then_with].
  rewrite (proj1 (Forall_forall _ _) Hl x Hx), (proj1 (Forall_forall _ _) Hk y Hy).
  by rewrite (proj2 (Z.compare_lt_iff r1 r2) Hr).
Qed.

Lemma last_value_nil k : last_value k [] = None.
Proof. done. Qed.
Lemma last_value_app k l l' :
  last_value k (l ++ l') = match last_value k l' with Some v => Some v | None => last_value k l end.
Proof. unfold last_value. rewrite filter_app, fmap_app, last_app. done. Qed.
Lemma last_value_single k p : last_value k [p] = if decide (p.1 = k) then Some p.2 else None.
Proof. unfold last_value. rewrite filter_cons. by case_decide. Qed.
Lemma last_value_Some k l v : last_value k l = Some v → (k, v) ∈ l.
Proof.
  unfold last_value. intros Hv%last_Some_elem_of. apply list_elem_of_fmap in Hv as ([k' v'] & -> & Hp).
  by apply list_elem_of_filter in Hp as [<- Hp].
Qed.
Lemma attr_labels_named kvs k v : (k, v) ∈ attr_labels kvs → k ≠ METRIC_NAME_LABEL.
Proof.
  intros (kv & _ & Hkv)%list_elem_of_omap. unfold attr_label in Hkv. case_decide as Hn; [|done].
  destruct (attr_text kv); [|done]. injection Hkv as <- <-. apply Hn.
Qed.
Lemma attr_labels_metric kvs : last_value METRIC_NAME_LABEL (attr_labels kvs) = None.
Proof.
  destruct (last_value _ _) as [v|] eqn:Hv; [|done]. by apply last_value_Some, attr_labels_named in Hv.
Qed.

(** The text a label stands for. *)
Definition tmp_text (scratch : list str) (l : TmpLabel) : str := default [] (tmp_as_str scratch (tl_value l)).
Definition tmp_pair (scratch : list str) (l : TmpLabel) : str * str := (tl_key l, tmp_text scratch l).

Lemma label_is_pair scratch l p : label_is scratch l p → tmp_pair scratch l = p.
Proof. intros [Hk Hv]. unfold tmp_pair, tmp_text. rewrite Hk, Hv. by destruct p. Qed.
Lemma label_is_text scratch l p : label_is scratch l p → tmp_as_str scratch (tl_value l) = Some (tmp_text scratch l).
Proof. intros [Hk Hv]. unfold tmp_text. by rewrite Hv. Qed.

(** Sorted and deduplicated, pushed labels keep the last value of every key. *)
Lemma dedup_values scratch l ps : labels_are scratch l ps → StronglySorted pushed_before l →
  (∀ x, x ∈ sort_and_dedup_labels l → tmp_as_str scratch (tl_value x) = Some (tmp_text scratch x)) ∧
  ∀ k v, last_value k ps = Some v ↔ ∃ x, x ∈ sort_and_dedup_labels l ∧ tmp_pair scratch x = (k, v).
Proof.
  intros Hl Hp. destruct (sort_and_dedup_spec l Hp) as [Hs Hin]. split.
  - intros x Hx%Hin. apply last_Some_elem_of, list_elem_of_filter in Hx as [_ Hx].
    apply list_elem_of_lookup_1 in Hx as [i Hx]. destruct (Forall2_lookup_l _ _ _ _ _ Hl Hx) as (p & _ & Hxp).
    by eapply label_is_text.
  - intros k v. assert (Forall2 (label_is scratch) (at_label k l) (filter (λ p, p.1 = k) ps)) as Hf%Forall2_last.
    { apply Forall2_filter; [|done]. by intros x p [-> _]. }
    unfold last_value. rewrite fmap_last.
    destruct (last (at_label k l)) as [x|] eqn:Hx, (last (filter _ ps)) as [p|] eqn:Hlp; inversion Hf as [? ? Hxp|]; subst.
    + pose proof (label_is_pair _ _ _ Hxp) as Hpair. assert (tl_key x = k) as Hk.
      { by apply last_Some_elem_of, list_elem_of_filter in Hx as [Hx _]. }
      cbn. split.
      * intros [= <-]. exists x. rewrite Hin, Hk. split; [done|]. rewrite Hpair, <- Hk. destruct Hxp as [-> _]. by destruct p.
      * intros (y & Hy & Hyp). assert (tl_key y = k) as Hky by (by injection Hyp).
        apply Hin in Hy. rewrite Hky, Hx in Hy. injection Hy as ->. rewrite Hpair in Hyp. by rewrite Hyp.
    + split; [done|]. intros (y & Hy%Hin & Hyp). assert (tl_key y = k) as Hky by (by injection Hyp). by rewrite Hky, Hx in Hy.
Qed.

(** Sorted labels with a text each are a canonical set. *)
Lemma labels_canonical {L} (key : L → str) (text : L → option str) (txt : L → str) (value : str → option str) (l : list L) :
  StronglySorted (λ a b, str_compare (key a) (key b) = Lt) l →
  (∀ x, x ∈ l → text x = Some (txt x)) →
  (∀ k v, value k = Some v ↔ ∃ x, x ∈ l ∧ (key x, txt x) = (k, v)) →
  ∃ ps, mapM (λ x, v ← text x; Some (key x, v)) l = Some ps ∧ canonical value ps.
Proof.
  intros Hs Ht Hv. exists ((λ x, (key x, txt x)) <$> l). split; [|split].
  - apply mapM_Some, Forall2_fmap_r, Forall_Forall2_diag, Forall_forall. intros x Hx. by rewrite Ht.
  - clear Ht Hv. induction Hs as [|x l Hl IH Hx]; [constructor|]. rewrite fmap_cons. constructor; [done|].
    by apply Forall_fmap.
  - intros k v. rewrite Hv, list_elem_of_fmap. split; intros (x & Hx & Hl); exists x; by split.
Qed.

(** ** The label set of one sort *)

Section full_sort_spec.
Context {I E : Type} `{OtlpLabelSetInterner I E}.

Lemma build_canonical_spec resource metric datapoint i :
  ∃ c ps, build_canonical_labelset resource metric datapoint i =
      (c, Nat.iter (skipped_attrs resource + skipped_attrs datapoint) on_skipped_non_scalar i) ∧
    canonical_iter c = Some ps ∧ canonical (label_value resource metric datapoint) ps.
Proof.
  unfold build_canonical_labelset. set (m := mk_tmp METRIC_NAME_LABEL (Borrowed metric) 3 0).
  pose proof (push_kvs_spec on_skipped_non_scalar 0 resource [m] [] i) as [Hs1 (n1 & e1 & E1 & Hl1 & Hr1 & Ho1)].
  destruct (push_kvs on_skipped_non_scalar 0 resource ([m], [], i)) as [out1 i1]. cbn [fst snd] in *. subst out1 i1.
  match goal with |- context [push_kvs _ 2 datapoint (?out, ?scratch, ?st)] =>
    pose proof (push_kvs_spec on_skipped_non_scalar 2 datapoint out scratch st) as [Hs2 (n2 & e2 & E2 & Hl2 & Hr2 & Ho2)];
    destruct (push_kvs on_skipped_non_scalar 2 datapoint (out, scratch, st)) as [out2 i2] end.
  cbn [fst snd] in *. subst out2 i2. cbn [app] in *.
  set (scratch := e1 ++ e2) in *. set (l := m :: n1 ++ n2).
  set (ps := (METRIC_NAME_LABEL, metric) :: attr_labels resource ++ attr_labels datapoint).
  assert (labels_are scratch l ps) as Hl.
  { constructor; [done|]. apply Forall2_app; [by apply labels_are_extend|done]. }
  assert (StronglySorted pushed_before l) as Hp.
  { constructor.
    - apply (ranks_pushed_before 0 2); [done|done|done| |]; eapply run_pushed_before; eauto.
    - apply Forall_forall. intros x Hx Hk. assert (∃ p, p ∈ attr_labels resource ++ attr_labels datapoint ∧ tl_key x = p.1)
        as ([k v] & Hkv & Hkx).
      { apply Forall2_cons_1 in Hl as [_ Hl]. apply list_elem_of_lookup_1 in Hx as [j Hx].
        destruct (Forall2_lookup_l _ _ _ _ _ Hl Hx) as (p & Hp & [Hkp _]). exists p. split; [|done].
        by eapply list_elem_of_lookup_2. }
      change (tl_key x = k) in Hkx. change (METRIC_NAME_LABEL = tl_key x) in Hk. apply elem_of_app in Hkv as [Hkv|Hkv]; apply attr_labels_named in Hkv; congruence. }
  destruct (dedup_values scratch l ps Hl Hp) as [Ht Hv].
  destruct (labels_canonical tl_key (λ x, tmp_as_str scratch (tl_value x)) (tmp_text scratch)
    (label_value resource metric datapoint) (sort_and_dedup_labels l)) as (qs & Hq & Hc).
  - apply sort_and_dedup_spec; done.
  - done.
  - intros k v. change (∃ x, x ∈ sort_and_dedup_labels l ∧ (tl_key x, tmp_text scratch x) = (k, v)) with
      (∃ x, x ∈ sort_and_dedup_labels l ∧ tmp_pair scratch x = (k, v)). rewrite <- Hv. unfold label_value.
    change ps with ([(METRIC_NAME_LABEL, metric)] ++ attr_labels resource ++ attr_labels datapoint).
    rewrite (last_value_app k [_]), last_value_app, last_value_single. cbn [fst snd].
    case_decide as Hk; [subst k; rewrite decide_True, !attr_labels_metric by done; done|].
    rewrite decide_False by done. destruct (last_value k (attr_labels datapoint)); [done|].
    by destruct (last_value k (attr_labels resource)).
  - exists (FullSort (sort_and_dedup_labels l) scratch), qs. split_and!; [|done|done].
    f_equal. by rewrite Nat.add_comm, Nat.iter_add.
Qed.
End full_sort_spec.

(** ** Merging *)

Lemma str_lt_neq a b : str_compare a b = Lt → a ≠ b.
Proof. intros Hab ->. by apply str_lt_irrefl in Hab. Qed.
Lemma str_lt_asym a b : str_compare a b = Lt → str_compare b a ≠ Lt.
Proof. intros Hab Hba. by apply (str_lt_irrefl a), (str_compare_trans _ b). Qed.
Lemma str_total a b : a ≠ b → str_compare a b ≠ Lt → str_compare b a = Lt.
Proof.
  intros Hne Hlt. rewrite str_compare_antisym. destruct (str_compare a b) eqn:E; [|done|done].
  by apply str_compare_eq in E.
Qed.

Section merge_spec.
Context (metric_name : str) (r d : list TmpLabel).
Context (Hr : StronglySorted key_before r) (Hd : StronglySorted key_before d).
Context (Hrn : ∀ x, x ∈ r → tl_key x ≠ METRIC_NAME_LABEL) (Hdn : ∀ x, x ∈ d → tl_key x ≠ METRIC_NAME_LABEL).

Definition metric_label : PreparedCanonicalLabel := mk_pcl METRIC_NAME_LABEL (PreparedBorrowed metric_name) CacheMetric.
Definition pcl_before (a b : PreparedCanonicalLabel) : Prop := str_compare (pl_key a) (pl_key b) = Lt.

(** What is left to merge. *)
Inductive left_over (i j : nat) (pending : bool) : PreparedCanonicalLabel → Prop :=
  | left_metric : pending = true → left_over i j pending metric_label
  | left_datapoint j' y : (j ≤ j')%nat → d !! j' = Some y → left_over i j pending (prepared_datapoint_label y)
  | left_resource i' y : (i ≤ i')%nat → r !! i' = Some y →
      (∀ j' z, (j ≤ j')%nat → d !! j' = Some z → tl_key z ≠ tl_key y) →
      left_over i j pending (prepared_resource_label i' y).

Lemma left_inv i j pending x : left_over i j pending x ↔
  (pending = true ∧ x = metric_label) ∨
  (∃ j' y, (j ≤ j')%nat ∧ d !! j' = Some y ∧ x = prepared_datapoint_label y) ∨
  (∃ i' y, (i ≤ i')%nat ∧ r !! i' = Some y ∧ x = prepared_resource_label i' y ∧
     ∀ j' z, (j ≤ j')%nat → d !! j' = Some z → tl_key z ≠ tl_key y).
Proof.
  split.
  - intros [?|j' y ? ?|i' y ? ? ?]; [by left|right; left; by exists j', y|right; right; by exists i', y].
  - intros [[? ->]|[(j' & y & ? & ? & ->)|(i' & y & ? & ? & -> & ?)]]; by econstructor.
Qed.

(** The front of a strictly sorted list. *)
Lemma front_lookup l i a i' y : StronglySorted key_before l → l !! i = Some a → (i ≤ i')%nat → l !! i' = Some y →
  (i' = i ∧ y = a) ∨ ((S i ≤ i')%nat ∧ str_compare (tl_key a) (tl_key y) = Lt).
Proof.
  intros Hl Ha Hle Hy. destruct (decide (i' = i)) as [->|Hne]; [left; by simplify_eq|]. right. split; [lia|].
  apply (sorted_lookup_lt key_before l i i' a y); [done..|lia].
Qed.

Definition merges (fuel i j : nat) (pending : bool) : Prop := ∀ merged,
  ∃ out, merge_loop metric_name r d fuel i j pending merged = Some (merged ++ out) ∧
    StronglySorted pcl_before out ∧ ∀ x, x ∈ out ↔ left_over i j pending x.

(** One turn that places [e] and leaves the rest. *)
Lemma merge_emit fuel i j pending i' j' pending' e :
  merges fuel i' j' pending' →
  (∀ merged, merge_loop metric_name r d (S fuel) i j pending merged =
     merge_loop metric_name r d fuel i' j' pending' (merged ++ [e])) →
  (∀ x, left_over i j pending x ↔ x = e ∨ left_over i' j' pending' x) →
  (∀ x, left_over i' j' pending' x → pcl_before e x) →
  merges (S fuel) i j pending.
Proof.
  intros IH Hstep Hsplit Hlow merged. destruct (IH (merged ++ [e])) as (out & Hout & Hs & Hin).
  exists (e :: out). rewrite Hstep, Hout, <- app_assoc. split; [done|]. split.
  - constructor; [done|]. apply Forall_forall. intros x Hx. by apply Hlow, Hin.
  - intros x. by rewrite elem_of_cons, Hin, Hsplit.
Qed.

Lemma left_bound i j pending k x :
  (∀ y, r !! i = Some y → str_compare k (tl_key y) = Lt) → (∀ y, d !! j = Some y → str_compare k (tl_key y) = Lt) →
  (pending = true → str_compare k METRIC_NAME_LABEL = Lt) → left_over i j pending x → str_compare k (pl_key x) = Lt.
Proof.
  assert (∀ l n n' y, StronglySorted key_before l → (∀ y, l !! n = Some y → str_compare k (tl_key y) = Lt) → (n ≤ n')%nat →
    l !! n' = Some y → str_compare k (tl_key y) = Lt) as Hgen.
  { intros l n n' y Hl Hn Hle Hy. destruct (l !! n) as [a|] eqn:Ha.
    - destruct (front_lookup l n a n' y Hl Ha Hle Hy) as [[_ ->]|[_ Hlt]]; [by apply Hn|].
      eapply str_compare_trans; [by apply Hn|done].
    - apply lookup_ge_None in Ha. apply lookup_lt_Some in Hy. lia. }
  intros H1 H2 H3 [?|j' y ? ?|i' y ? ? _]; cbn [pl_key metric_label prepared_datapoint_label prepared_resource_label]; eauto.
Qed.

Lemma str_min_lt k a b : str_compare k (str_min a b) = Lt ↔ str_compare k a = Lt ∧ str_compare k b = Lt.
Proof.
  unfold str_min. destruct (str_compare a b) eqn:E.
  - apply str_compare_eq in E as ->. tauto.
  - split; [|tauto]. intros Hk. split; [done|]. by eapply str_compare_trans.
  - split; [|tauto]. intros Hk. split; [|done]. eapply str_compare_trans; [done|]. by apply str_gt_lt.
Qed.

(** Whether the metric's name is next. *)
Definition metric_next (i j : nat) : Prop :=
  (∀ y, r !! i = Some y → str_compare METRIC_NAME_LABEL (tl_key y) = Lt) ∧
  (∀ y, d !! j = Some y → str_compare METRIC_NAME_LABEL (tl_key y) = Lt).

Lemma metric_next_spec i j :
  match (match r !! i, d !! j with
         | Some resource, Some datapoint => Some (str_min (tl_key resource) (tl_key datapoint))
         | Some resource, None => Some (tl_key resource)
         | None, Some datapoint => Some (tl_key datapoint)
         | None, None => None
         end) with
  | Some key => bool_decide (str_compare METRIC_NAME_LABEL key = Lt)
  | None => true
  end = true ↔ metric_next i j.
Proof.
  unfold metric_next. destruct (r !! i) as [a|], (d !! j) as [b|]; rewrite ?bool_decide_eq_true, ?str_min_lt; naive_solver.
Qed.

Lemma merge_metric fuel i j : metric_next i j → merges fuel i j false → merges (S fuel) i j true.
Proof.
  intros Hnext IH. apply (merge_emit _ _ _ _ i j false metric_label IH).
  - intros merged. cbn [merge_loop]. rewrite orb_true_r, (proj2 (metric_next_spec i j) Hnext). done.
  - intros x. rewrite !left_inv. naive_solver.
  - intros x. by apply left_bound; [apply Hnext|apply Hnext|].
Qed.

(** A turn that does not place the metric's name. *)
Lemma merge_attr_step fuel i j pending merged : is_Some (r !! i) ∨ is_Some (d !! j) → ¬ (pending = true ∧ metric_next i j) →
  merge_loop metric_name r d (S fuel) i j pending merged =
  match r !! i, d !! j with
  | Some a, Some b =>
      match str_compare (tl_key a) (tl_key b) with
      | Lt => merge_loop metric_name r d fuel (S i) j pending (merged ++ [prepared_resource_label i a])
      | Eq => merge_loop metric_name r d fuel (S i) (S j) pending (merged ++ [prepared_datapoint_label b])
      | Gt => merge_loop metric_name r d fuel i (S j) pending (merged ++ [prepared_datapoint_label b])
      end
  | Some a, None => merge_loop metric_name r d fuel (S i) j pending (merged ++ [prepared_resource_label i a])
  | None, Some b => merge_loop metric_name r d fuel i (S j) pending (merged ++ [prepared_datapoint_label b])
  | None, None => merge_loop metric_name r d fuel i j pending merged
  end.
Proof.
  intros Hsome Hno. cbn [merge_loop].
  assert (bool_decide (i < length r)%nat || bool_decide (j < length d)%nat || pending = true) as ->.
  { destruct Hsome as [[y Hy%lookup_lt_Some]|[y Hy%lookup_lt_Some]]; rewrite (bool_decide_true _ Hy); [done|].
    by rewrite orb_true_r. }
  destruct pending; [|done]. cbn [andb].
  match goal with |- context [if ?b then _ else _] => destruct b eqn:Hb; [|done] end.
  apply metric_next_spec in Hb. by destruct Hno.
Qed.

(** Below the metric's name, if that is still to come. *)
Lemma below_metric i j pending k : ¬ (pending = true ∧ metric_next i j) →
  (∀ y, r !! i = Some y → k = tl_key y ∨ str_compare k (tl_key y) = Lt) →
  (∀ y, d !! j = Some y → k = tl_key y ∨ str_compare k (tl_key y) = Lt) → k ≠ METRIC_NAME_LABEL →
  pending = true → str_compare k METRIC_NAME_LABEL = Lt.
Proof.
  intros Hno H1 H2 Hk Hp. apply str_total; [done|]. intros Hlt. apply Hno. split; [done|].
  split; intros y Hy; [destruct (H1 y Hy) as [->|?]|destruct (H2 y Hy) as [->|?]]; try done; by eapply str_compare_trans.
Qed.
Lemma next_above l i a y : StronglySorted key_before l → l !! i = Some a → l !! S i = Some y → str_compare (tl_key a) (tl_key y) = Lt.
Proof. intros Hl Ha Hy. apply (sorted_lookup_lt key_before l i (S i) a y); [done..|lia]. Qed.

Lemma merge_resource fuel i j pending a : r !! i = Some a → (∀ b, d !! j = Some b → str_compare (tl_key a) (tl_key b) = Lt) →
  ¬ (pending = true ∧ metric_next i j) → merges fuel (S i) j pending → merges (S fuel) i j pending.
Proof.
  intros Ha Hb Hno IH. assert (∀ j' z, (j ≤ j')%nat → d !! j' = Some z → str_compare (tl_key a) (tl_key z) = Lt) as Hall.
  { intros j' z Hle Hz. pose proof (lookup_lt_Some _ _ _ Hz). destruct (d !! j) as [b|] eqn:Hj;
      [|by apply lookup_ge_None in Hj; lia].
    destruct (front_lookup d j b j' z Hd Hj Hle Hz) as [[_ ->]|[_ Hlt]]; [by apply Hb|].
    eapply str_compare_trans; [by apply Hb|done]. }
  apply (merge_emit _ _ _ _ (S i) j pending (prepared_resource_label i a) IH).
  - intros merged. rewrite merge_attr_step by (try done; left; by rewrite Ha). rewrite Ha.
    destruct (d !! j) as [b|] eqn:Hj; [|done]. by rewrite (Hb b).
  - intros x. rewrite !left_inv. split.
    + intros [?|[?|(i' & y & Hle & Hy & -> & Hne)]]; [tauto|tauto|].
      destruct (front_lookup r i a i' y Hr Ha Hle Hy) as [[-> ->]|[Hle' _]]; [by left|]. right; right; right. by exists i', y.
    + intros [->|[?|[?|(i' & y & Hle & Hy & -> & Hne)]]]; [|tauto|tauto|].
      * right; right. exists i, a. split_and!; [done..|]. intros j' z Hle Hz Heq. pose proof (Hall j' z Hle Hz) as Hlt.
        rewrite Heq in Hlt. by apply str_lt_irrefl in Hlt.
      * right; right. exists i', y. split_and!; [lia|done..].
  - intros x. apply left_bound; [by intros y; apply next_above|done|].
    apply (below_metric i j); [done|intros y Hy; left; by simplify_eq|by intros y Hy; right; apply Hb|].
    by eapply Hrn, list_elem_of_lookup_2.
Qed.

Lemma merge_datapoint fuel i i' j pending b : d !! j = Some b →
  (r !! i = None ∧ i' = i ∨ ∃ a, r !! i = Some a ∧
     (str_compare (tl_key b) (tl_key a) = Lt ∧ i' = i ∨ tl_key a = tl_key b ∧ i' = S i)) →
  ¬ (pending = true ∧ metric_next i j) → merges fuel i' (S j) pending → merges (S fuel) i j pending.
Proof.
  intros Hb Hi Hno IH.
  assert (i ≤ i' ∧ (∀ k y, (i ≤ k)%nat → r !! k = Some y → tl_key y ≠ tl_key b → i' ≤ k) ∧
    (∀ k y, (i' ≤ k)%nat → r !! k = Some y → str_compare (tl_key b) (tl_key y) = Lt) ∧
    ∀ y, r !! i = Some y → tl_key b = tl_key y ∨ str_compare (tl_key b) (tl_key y) = Lt)%nat as (Hle & Hsame & Habove & Hfront).
  { destruct Hi as [[Hnone ->]|(a & Ha & [[Hlt ->]|[Heq ->]])].
    - apply lookup_ge_None in Hnone. split_and!; [done|..]; intros; exfalso;
        match goal with H : r !! _ = Some _ |- _ => apply lookup_lt_Some in H; lia end.
    - split_and!; [done|done| |].
      + intros k y Hk Hy. destruct (front_lookup r i a k y Hr Ha Hk Hy) as [[_ ->]|[_ ?]]; [done|by eapply str_compare_trans].
      + intros y Hy. simplify_eq. by right.
    - split_and!; [lia|..].
      + intros k y Hk Hy Hne. destruct (front_lookup r i a k y Hr Ha Hk Hy) as [[_ ->]|[? _]]; [done|done].
      + intros k y Hk Hy. rewrite <- Heq. apply (sorted_lookup_lt key_before r i k a y); [done..|lia].
      + intros y Hy. simplify_eq. by left. }
  apply (merge_emit _ _ _ _ i' (S j) pending (prepared_datapoint_label b) IH).
  - intros merged. rewrite merge_attr_step by (try done; right; by rewrite Hb). rewrite Hb.
    destruct Hi as [[-> ->]|(a & -> & [[Hlt ->]|[Heq ->]])]; [done| |].
    + rewrite str_compare_antisym, Hlt. done.
    + by rewrite (proj2 (str_compare_eq _ _) Heq).
  - intros x. rewrite !left_inv. split.
    + intros [?|[(j' & y & Hj & Hy & ->)|(k & y & Hk & Hy & -> & Hne)]]; [tauto|..].
      * destruct (front_lookup d j b j' y Hd Hb Hj Hy) as [[-> ->]|[Hj' _]]; [by left|]. right; right; left. by exists j', y.
      * right; right; right. exists k, y. split_and!; [|done|done|intros j' z Hj; apply Hne; lia].
        apply (Hsame k y); [done..|]. intros Heq. by apply (Hne j b).
    + intros [->|[?|[(j' & y & Hj & Hy & ->)|(k & y & Hk & Hy & -> & Hne)]]]; [|tauto|..].
      * right; left. by exists j, b.
      * right; left. exists j', y. split_and!; [lia|done..].
      * right; right. exists k, y. split_and!; [lia|done..|]. intros j' z Hj Hz Heq.
        destruct (decide (j' = j)) as [->|Hne']; [|by apply (Hne j' z); [lia|..]].
        simplify_eq. pose proof (Habove k y Hk Hy) as Hlt. rewrite Heq in Hlt. by apply str_lt_irrefl in Hlt.
  - intros x. apply left_bound; [intros y Hy; by apply (Habove i' y)|by intros y; apply next_above|].
    apply (below_metric i j); [done|done|intros y Hy; left; by simplify_eq|].
    by eapply Hdn, list_elem_of_lookup_2.
Qed.

Lemma merge_loop_spec fuel i j (pending : bool) :
  (length r - i + (length d - j) + (if pending then 1 else 0) < fuel)%nat → merges fuel i j pending.
Proof.
  revert i j pending. induction fuel as [|fuel IH]; intros i j pending Hf; [lia|].
  assert (metric_next i j ∨ ¬ metric_next i j) as Hdec.
  { pose proof (metric_next_spec i j) as Hspec. revert Hspec.
    match goal with |- ?b = true ↔ _ → _ => destruct b end; [left|right; intros ?]; naive_solver. }
  destruct (r !! i) as [a|] eqn:Ha, (d !! j) as [b|] eqn:Hb;
    (destruct Hdec as [Hm|Hm]; [destruct pending; [apply merge_metric; [done|apply IH; lia]|]|]);
    try (assert (¬ (pending = true ∧ metric_next i j)) as Hno by tauto);
    try (assert (¬ (false = true ∧ metric_next i j)) as Hno by (by intros []));
    try pose proof (lookup_lt_Some _ _ _ Ha); try pose proof (lookup_lt_Some _ _ _ Hb).
  1-2: destruct (str_compare (tl_key a) (tl_key b)) eqn:Hc;
    [apply str_compare_eq in Hc; apply (merge_datapoint _ _ (S i) _ _ b); [done|right; exists a; tauto|done|apply IH; lia]
    |apply (merge_resource _ _ _ _ a); [done|intros y Hy; by simplify_eq|done|apply IH; lia]
    |apply (merge_datapoint _ _ i _ _ b); [done|right; exists a; split; [done|left; split; [by apply str_gt_lt|done]]|done|apply IH; lia]].
  1-2: apply (merge_resource _ _ _ _ a); [done|by intros y Hy; simplify_eq|done|apply IH; lia].
  1-2: apply (merge_datapoint _ _ i _ _ b); [done|by left|done|apply IH; lia].
  - intros merged. apply lookup_ge_None in Ha, Hb. exists []. cbn [merge_loop].
    rewrite !bool_decide_false by lia. cbn [orb]. rewrite app_nil_r. split; [done|]. split; [constructor|].
    intros x. split; [by intros ?%not_elem_of_nil|]. rewrite left_inv.
    intros [[? _]|[(? & ? & ? & ?%lookup_lt_Some & _)|(? & ? & ? & ?%lookup_lt_Some & _)]]; [done|lia|lia].
  - destruct Hm. split; intros y Hy; congruence.
Qed.
End merge_spec.

(** ** The label set of the plan *)

Lemma saturating_iter n : Nat.iter n saturating_succ 0 = Z.min usize_max (Z.of_nat n).
Proof. induction n as [|n IH]; [done|]. rewrite Nat.iter_succ, IH. unfold saturating_succ. lia. Qed.

(** The labels of one attribute list, sorted, with the last value of every key. *)
Record prepared_group (kvs : list KeyValue) (labels : list TmpLabel) (scratch : list str) : Prop := {
  pg_sorted : StronglySorted key_before labels;
  pg_text x : x ∈ labels → tmp_as_str scratch (tl_value x) = Some (tmp_text scratch x);
  pg_value k v : last_value k (attr_labels kvs) = Some v ↔ ∃ x, x ∈ labels ∧ tmp_pair scratch x = (k, v);
}.

Lemma prepare_group rank kvs : ∃ labels scratch,
  push_kvs saturating_succ rank kvs ([], [], 0) = (labels, scratch, Z.min usize_max (Z.of_nat (skipped_attrs kvs))) ∧
  prepared_group kvs (sort_and_dedup_labels labels) scratch.
Proof.
  pose proof (push_kvs_spec saturating_succ rank kvs [] [] 0) as [Hs (n & e & E1 & Hl & Hr & Ho)].
  destruct (push_kvs saturating_succ rank kvs ([], [], 0)) as [ls st]. cbn [fst snd app] in *. subst ls st.
  exists n, e. rewrite saturating_iter. split; [done|].
  assert (StronglySorted pushed_before n) as Hp by (by eapply run_pushed_before).
  destruct (dedup_values e n _ Hl Hp) as [Ht Hv]. split; [by apply sort_and_dedup_spec|done|done].
Qed.
Lemma group_named kvs labels scratch x : prepared_group kvs labels scratch → x ∈ labels → tl_key x ≠ METRIC_NAME_LABEL.
Proof.
  intros Hg Hx. assert (last_value (tl_key x) (attr_labels kvs) = Some (tmp_text scratch x)) as Hv.
  { apply (pg_value _ _ _ Hg). by exists x. }
  by apply last_value_Some, attr_labels_named in Hv.
Qed.
Lemma group_none kvs labels scratch k : prepared_group kvs labels scratch →
  last_value k (attr_labels kvs) = None ↔ ∀ x, x ∈ labels → tl_key x ≠ k.
Proof.
  intros Hg. split.
  - intros Hn x Hx <-. assert (last_value (tl_key x) (attr_labels kvs) = Some (tmp_text scratch x)) as Hv; [|congruence].
    apply (pg_value _ _ _ Hg). by exists x.
  - intros Hno. destruct (last_value _ _) as [v|] eqn:Hv; [|done]. apply (pg_value _ _ _ Hg) in Hv as (x & Hx & [= Hk _]).
    by destruct (Hno x Hx).
Qed.

Section prepared_spec.
Context (resource datapoint : list KeyValue) (metric : str).
Context (r d : list TmpLabel) (rs ds : list str).
Context (Hr : prepared_group resource r rs) (Hd : prepared_group datapoint d ds).

Definition prepared_text (x : PreparedCanonicalLabel) : str := default [] (prepared_as_str rs ds (pl_value x)).

(** What a label's cell stands for. *)
Definition cell_ok (p : str * str * PreparedSymbolCache) : Prop :=
  match p.2 with
  | CacheNone => True
  | CacheResource index => ∃ l, r !! index = Some l ∧ tmp_pair rs l = p.1
  | CacheMetric => p.1 = (METRIC_NAME_LABEL, metric)
  end.

Lemma resource_label_text i y : r !! i = Some y →
  prepared_as_str rs ds (pl_value (prepared_resource_label i y)) = Some (tmp_text rs y).
Proof. intros Hy%list_elem_of_lookup_2. apply (pg_text _ _ _ Hr) in Hy. by destruct (tl_value y) eqn:Hv; cbn; rewrite Hv. Qed.
Lemma datapoint_label_text y : y ∈ d →
  prepared_as_str rs ds (pl_value (prepared_datapoint_label y)) = Some (tmp_text ds y).
Proof. intros Hy. apply (pg_text _ _ _ Hd) in Hy. by destruct (tl_value y) eqn:Hv; cbn; rewrite Hv. Qed.

Lemma left_over_text x : left_over metric r d 0 0 true x → prepared_as_str rs ds (pl_value x) = Some (prepared_text x).
Proof.
  unfold prepared_text. intros [_|j y _ Hy|i y _ Hy _]; [done|..].
  - by rewrite datapoint_label_text by (by eapply list_elem_of_lookup_2).
  - by rewrite resource_label_text.
Qed.
Lemma left_over_value k v : label_value resource metric datapoint k = Some v ↔
  ∃ x, left_over metric r d 0 0 true x ∧ (pl_key x, prepared_text x) = (k, v).
Proof.
  unfold label_value, prepared_text. case_decide as Hk.
  { subst k. split.
    - intros [= <-]. exists (metric_label metric). split; [by constructor|done].
    - intros (x & [_|j y _ Hy%list_elem_of_lookup_2|i y _ Hy%list_elem_of_lookup_2 _] & Hp);
        [by injection Hp as ->|injection Hp as Hn _..];
        [by destruct (group_named _ _ _ y Hd Hy)|by destruct (group_named _ _ _ y Hr Hy)]. }
  assert (∀ y, y ∈ d → prepared_text (prepared_datapoint_label y) = tmp_text ds y) as Hdt.
  { intros y Hy. unfold prepared_text. by rewrite datapoint_label_text. }
  assert (∀ i y, r !! i = Some y → prepared_text (prepared_resource_label i y) = tmp_text rs y) as Hrt.
  { intros i y Hy. unfold prepared_text. by rewrite resource_label_text. }
  fold prepared_text. split.
  - destruct (last_value k (attr_labels datapoint)) as [w|] eqn:Hw.
    + intros [= ->]. apply (pg_value _ _ _ Hd) in Hw as (y & Hy & [= Hyk Hyv]).
      pose proof Hy as [j Hj]%list_elem_of_lookup_1. exists (prepared_datapoint_label y).
      split; [by apply (left_datapoint _ _ _ _ _ _ j); [lia|]|]. fold (prepared_text (prepared_datapoint_label y)).
      rewrite Hdt by done. cbn. congruence.
    + intros Hv. apply (pg_value _ _ _ Hr) in Hv as (y & Hy & [= Hyk Hyv]).
      pose proof Hy as [i Hi]%list_elem_of_lookup_1. exists (prepared_resource_label i y). split.
      * apply left_resource; [lia|done|]. intros j z _ Hz%list_elem_of_lookup_2 Heq.
        apply (proj1 (group_none _ _ _ k Hd) Hw z Hz). congruence.
      * fold (prepared_text (prepared_resource_label i y)). rewrite Hrt by done. cbn. congruence.
  - intros (x & Hx & Hp). fold (prepared_text x) in Hp. destruct Hx as [_|j y _ Hy|i y _ Hy Hne].
    + injection Hp as Hp _. by destruct Hk.
    + apply list_elem_of_lookup_2 in Hy. rewrite Hdt in Hp by done. injection Hp as Hpk Hpv.
      rewrite (proj2 (pg_value _ _ _ Hd k v)); [done|]. exists y. split; [done|]. unfold tmp_pair. congruence.
    + rewrite (Hrt i y Hy) in Hp. injection Hp as Hpk Hpv.
      rewrite (proj2 (group_none _ _ _ k Hd)).
      * apply (pg_value _ _ _ Hr). exists y. split; [by eapply list_elem_of_lookup_2|]. unfold tmp_pair. congruence.
      * intros z Hz Heq. apply list_elem_of_lookup_1 in Hz as [j Hz]. apply (Hne j z); [lia|done|congruence].
Qed.
Lemma left_over_cell x : left_over metric r d 0 0 true x → cell_ok (pl_key x, prepared_text x, pl_cache x).
Proof.
  unfold prepared_text. intros [_|j y _ Hy|i y _ Hy _]; [done|done|].
  rewrite (resource_label_text i y Hy). by exists y.
Qed.

Lemma merged_canonical : ∃ merged ps,
  merge_prepared_labels metric r d = Some merged ∧ canonical_iter (Prepared merged rs ds) = Some ps ∧
  canonical (label_value resource metric datapoint) ps ∧
  ∃ parts, prepared_parts (Prepared merged rs ds) = Some (Some parts) ∧ parts.*1 = ps ∧ Forall cell_ok parts.
Proof.
  destruct (merge_loop_spec metric r d (pg_sorted _ _ _ Hr) (pg_sorted _ _ _ Hd)
    (λ x, group_named _ _ _ x Hr) (λ x, group_named _ _ _ x Hd) (S (S (length r + length d))) 0 0 true ltac:(cbn; lia) [])
    as (merged & Hm & Hs & Hin).
  destruct (labels_canonical pl_key (λ x, prepared_as_str rs ds (pl_value x)) prepared_text
    (label_value resource metric datapoint) merged) as (ps & Hps & Hc).
  - done.
  - intros x Hx%Hin. by apply left_over_text.
  - intros k v. rewrite left_over_value. by setoid_rewrite Hin.
  - exists merged, ps. split_and!; [done|done|done|].
    exists ((λ x, (pl_key x, prepared_text x, pl_cache x)) <$> merged). split_and!.
    + cbn. f_equal. apply mapM_Some, Forall2_fmap_r, Forall_Forall2_diag, Forall_forall.
      intros x Hx%Hin. by rewrite (left_over_text x Hx).
    + apply mapM_Some in Hps. clear - Hps. induction Hps as [|x p l ps Hx _ IH]; [done|].
      rewrite !fmap_cons, IH. f_equal. unfold prepared_text. by apply bind_Some in Hx as (v & -> & [= <-]).
    + apply Forall_fmap, Forall_forall. intros x Hx%Hin. by apply left_over_cell.
Qed.
End prepared_spec.

Lemma skipped_attrs_le kvs : Z.of_nat (skipped_attrs kvs) ≤ zlen kvs.
Proof. unfold skipped_attrs, zlen. pose proof (length_filter attr_non_scalar kvs). lia. Qed.


(** Both ways of building, side by side. *)
Lemma build_both {I E} `{OtlpLabelSetInterner I E} resource metric datapoint i :
  zlen resource + zlen datapoint ≤ usize_max →
  ∃ c d i' ps parts, build_prepared_canonical_labelset (prepare_resource resource) metric datapoint i = Some (c, i') ∧
    build_canonical_labelset resource metric datapoint i = (d, i') ∧
    canonical_iter c = Some ps ∧ canonical_iter d = Some ps ∧ StronglySorted pair_lt ps ∧
    prepared_parts c = Some (Some parts) ∧ parts.*1 = ps ∧
    Forall (cell_ok metric (pr_labels (prepare_resource resource)) (pr_scratch_values (prepare_resource resource))) parts.
Proof.
  intros Hn. pose proof (skipped_attrs_le resource). pose proof (skipped_attrs_le datapoint).
  pose proof (zlen_nonneg resource). pose proof (zlen_nonneg datapoint).
  destruct (build_canonical_spec resource metric datapoint i) as (d & ps & Hb & Hi & Hc).
  destruct (prepare_group 0 resource) as (ls & rs & Er & Hr), (prepare_group 2 datapoint) as (ds & dv & Ed & Hd).
  assert (prepare_resource resource = mk_prl (sort_and_dedup_labels ls) rs (Z.of_nat (skipped_attrs resource))) as ->.
  { unfold prepare_resource. rewrite Er. f_equal. lia. }
  destruct (merged_canonical resource datapoint metric _ _ rs dv Hr Hd) as (merged & ps' & Hm & Hi' & Hc' & parts & Hparts & Hps & Hcells).
  pose proof (canonical_eq _ _ _ Hc Hc') as <-.
  exists (Prepared merged rs dv), d. eexists _, ps, parts. split; [|destruct Hc as [Hsort _]; done].
  unfold build_prepared_canonical_labelset. rewrite Ed. cbn [pr_labels pr_scratch_values pr_skipped_non_scalar].
  rewrite Hm. cbn [mbind option_bind]. do 2 f_equal. f_equal. lia.
Qed.

(** The prepared plan is the full sort.  For an interner that reads label sets
    by iterating, interning a data point through the resource's prepared labels has
    the same result and the same effects as sorting all its attributes; and every
    label that names a symbol cell of the plan is the one the cell stands for. *)
Theorem prepared_labels_agree {I E} `{InternsLabels I E} resource metric datapoint i :
  zlen resource + zlen datapoint ≤ usize_max →
  intern_prepared_labelset (prepare_resource resource) metric datapoint i = intern_labelset resource metric datapoint i ∧
  ∃ c i' ps parts, build_prepared_canonical_labelset (prepare_resource resource) metric datapoint i = Some (c, i') ∧
    canonical_iter c = Some ps ∧ prepared_parts c = Some (Some parts) ∧ parts.*1 = ps ∧
    Forall (cell_ok metric (pr_labels (prepare_resource resource)) (pr_scratch_values (prepare_resource resource))) parts.
Proof.
  intros Hn. destruct (build_both resource metric datapoint i Hn) as (c & d & i' & ps & parts & Hp & Hb & Hc & Hd & _ & Hparts & Hps & Hcells).
  split; [|by exists c, i', ps, parts]. unfold intern_prepared_labelset, intern_labelset. rewrite Hp, Hb.
  cbn [mbind option_bind]. unfold finish_intern. by rewrite (intern_iter c d) by congruence.
Qed.

(** ** Witness: an interner that records what it is given *)

Record recording := mk_recording { rec_labelsets : list (list (str * str)); rec_skipped : Z }.
#[export] Instance recording_interner : OtlpLabelSetInterner recording Empty_set := {
  on_skipped_non_scalar i := mk_recording (rec_labelsets i) (rec_skipped i + 1);
  on_intern_error _ i := i;
  intern c i := ps ← canonical_iter c; Some (Ok (zlen (rec_labelsets i)), mk_recording (rec_labelsets i ++ [ps]) (rec_skipped i));
}.
#[export] Instance recording_interns : InternsLabels recording Empty_set.
Proof. split. intros c d i Hcd. cbn. by rewrite Hcd. Qed.

Definition attribute (key : string) (value : AnyValue) : KeyValue := mk_kv (bytes_of_string key) (Some (Some value)).
Definition sample_resource : list KeyValue :=
  [attribute "host" (StringValue (bytes_of_string "a")); attribute "zone" (IntValue (-3)); attribute "host" (StringValue (bytes_of_string "b"));
   attribute "blob" BytesValue; attribute "__name__" (StringValue []); mk_kv (bytes_of_string "none") None].
Definition sample_datapoint : list KeyValue :=
  [attribute "zone" (DoubleValue 0x3ff8000000000000); attribute "Up" (BoolValue true); attribute "list" ArrayValue].

Example sample_labels :
  intern_labelset sample_resource (bytes_of_string "cpu") sample_datapoint (mk_recording [] 0) =
  Some (Some 0, mk_recording [(λ p, (bytes_of_string p.1, bytes_of_string p.2)) <$>
    [("Up", "true"); ("__name__", "cpu"); ("host", "b"); ("zone", "1.5")]%string] 2).
Proof. vm_compute. reflexivity. Qed.

(** Where the code and the specification of label values (storage.md 4.2.2) differ:
    it keeps bytes, arrays and lists as strings and empty values as the empty string,
    which the code skips, so that a data point's array does not hide the resource's
    scalar; it prints a double as Go's [FormatFloat(v, 'g', -1, 64)] does, [1e+21] and
    [+Inf], where the code prints every digit and [inf]. *)
Example label_values_leave_the_specification :
  canonical_iter (build_canonical_labelset
    [attribute "a" (StringValue (bytes_of_string "r")); attribute "b" BytesValue; mk_kv (bytes_of_string "e") (Some None)]
    (bytes_of_string "cpu")
    [attribute "a" ArrayValue; attribute "d" (DoubleValue 0x444b1ae4d6e2ef50); attribute "i" (DoubleValue 0x7ff0000000000000)]
    (mk_recording [] 0)).1 =
  Some ((λ p, (bytes_of_string p.1, bytes_of_string p.2)) <$>
    [("__name__", "cpu"); ("a", "r"); ("d", "1000000000000000000000"); ("i", "inf")]%string).
Proof. vm_compute. reflexivity. Qed.

Lemma prepared_labels_agree_witness :
  intern_prepared_labelset (prepare_resource sample_resource) (bytes_of_string "cpu") sample_datapoint (mk_recording [] 0) =
  intern_labelset sample_resource (bytes_of_string "cpu") sample_datapoint (mk_recording [] 0).
Proof.
  apply (prepared_labels_agree sample_resource (bytes_of_string "cpu") sample_datapoint (mk_recording [] 0)).
  vm_compute. discriminate.
Defined.
