(* ===== verification/Normalizer.v ===== *)
(** * Label normalisation

    [chronoxide-core/src/labels/normalizer.rs]: names and values over their limit
    are cut at a character boundary and tagged with the SipHash-2-4 of the whole.
    The standard library's [SipHasher::new_with_keys] is defined here; the check
    values are the ones of the code's own test. *)
From S2P Require Import Prelude Text.

Definition MAX_LABEL_NAME_BYTES : Z := 1024.
Definition MAX_LABEL_VALUE_BYTES : Z := 2048.
Definition TRUNC_HASH_ALGO_ID : Z := 115.                     (* s *)
Definition TRUNC_HASH_SIPHASH_K0 : Z := 0x0706050403020100.
Definition TRUNC_HASH_SIPHASH_K1 : Z := 0x0f0e0d0c0b0a0908.

(** ** SipHash-2-4 *)

Definition rotate_left (x n : Z) : Z := Z.lor (wrap_u64 (Z.shiftl x n)) (Z.shiftr x (64 - n)).

Definition sip_round (v : Z * Z * Z * Z) : Z * Z * Z * Z :=
  let '(v0, v1, v2, v3) := v in
  let v0 := wrap_u64 (v0 + v1) in
  let v1 := Z.lxor (rotate_left v1 13) v0 in
  let v0 := rotate_left v0 32 in
  let v2 := wrap_u64 (v2 + v3) in
  let v3 := Z.lxor (rotate_left v3 16) v2 in
  let v0 := wrap_u64 (v0 + v3) in
  let v3 := Z.lxor (rotate_left v3 21) v0 in
  let v2 := wrap_u64 (v2 + v1) in
  let v1 := Z.lxor (rotate_left v1 17) v2 in
  let v2 := rotate_left v2 32 in
  (v0, v1, v2, v3).

Definition sip_word (v : Z * Z * Z * Z) (m : Z) : Z * Z * Z * Z :=
  let '(v0, v1, v2, v3) := v in
  let '(v0, v1, v2, v3) := sip_round (sip_round (v0, v1, v2, Z.lxor v3 m)) in
  (Z.lxor v0 m, v1, v2, v3).

(** Whole little-endian words, then what is left of the input. *)
Fixpoint sip_words (fuel : nat) (bytes : list Z) (v : Z * Z * Z * Z) : Z * Z * Z * Z * list Z :=
  match fuel with
  | O => (v, bytes)
  | S fuel =>
      if zlen bytes <? 8 then (v, bytes)
      else sip_words fuel (drop 8 bytes) (sip_word v (of_le (take 8 bytes)))
  end.

Definition siphash24 (k0 k1 : Z) (bytes : list Z) : Z :=
  let v := (Z.lxor k0 0x736f6d6570736575, Z.lxor k1 0x646f72616e646f6d,
            Z.lxor k0 0x6c7967656e657261, Z.lxor k1 0x7465646279746573) in
  let '(v, tail) := sip_words (length bytes) bytes v in
  let last := Z.lor (Z.shiftl (zlen bytes `mod` 256) 56) (of_le tail) in
  let '(v0, v1, v2, v3) := sip_word v last in
  let '(v0, v1, v2, v3) := sip_round (sip_round (sip_round (sip_round (v0, v1, Z.lxor v2 0xff, v3)))) in
  Z.lxor (Z.lxor v0 v1) (Z.lxor v2 v3).

Definition siphash24_fixed_64 (bytes : list Z) : Z :=
  siphash24 TRUNC_HASH_SIPHASH_K0 TRUNC_HASH_SIPHASH_K1 bytes.

Example siphash24_matches_reference_vectors :
  (λ len, siphash24_fixed_64 (Z.of_nat <$> seq 0 len)) <$> [0; 1; 2; 3; 4; 63]%nat =
  [0x726fdb47dd0e0e31; 0x74f839c593dc67fd; 0x0d6c8009d9a94f5a; 0x85676696d7fb7e2d; 0xcf2794e0277187b7;
   0x958a324ceb064572].
Proof. vm_compute. reflexivity. Qed.

(** ** Truncation *)

(** [{:016x}]. *)
Definition hex_digit (d : Z) : Z := if d <? 10 then 48 + d else 87 + d.
Fixpoint hex_loop (digits : nat) (n : Z) (acc : str) : str :=
  match digits with
  | O => acc
  | S digits => hex_loop digits (n / 16) (hex_digit (n `mod` 16) :: acc)
  end.
Definition hex16 (n : Z) : str := hex_loop 16 n [].

(** [str::is_char_boundary], for an index within the string. *)
Definition is_char_boundary (s : str) (index : Z) : bool :=
  match s !! Z.to_nat index with
  | Some b => negb (continuation b)
  | None => index =? zlen s
  end.

(** The [while] loop, with [end] as its fuel. *)
Fixpoint boundary_at (s : str) (fuel : nat) (end_ : Z) : Z :=
  match fuel with
  | O => end_
  | S fuel => if (0 <? end_) && negb (is_char_boundary s end_) then boundary_at s fuel (saturating_sub end_ 1) else end_
  end.
Definition truncate_utf8_to_boundary (s : str) (max_bytes : Z) : str :=
  if zlen s <=? max_bytes then s else take (Z.to_nat (boundary_at s (Z.to_nat max_bytes) max_bytes)) s.

Definition HASH_SUFFIX_BYTES : Z := 18.

Definition truncate_with_hash (s : str) (max_bytes : Z) : str :=
  if zlen s <=? max_bytes then s
  else
    let suffix := [126; TRUNC_HASH_ALGO_ID] ++ hex16 (siphash24_fixed_64 s) in
    truncate_utf8_to_boundary s (saturating_sub max_bytes HASH_SUFFIX_BYTES) ++ suffix.

Definition normalize_label_key (key : str) : str := truncate_with_hash key MAX_LABEL_NAME_BYTES.
Definition normalize_label_value (value : str) : str := truncate_with_hash value MAX_LABEL_VALUE_BYTES.

(** ** Characters *)

(** Valid text starts with one character: a byte that does not continue one, and
    at most three that do. *)
Lemma utf8_cases s : utf8_valid s = true → s = [] ∨
  ∃ b cs t, s = b :: cs ++ t ∧ continuation b = false ∧ Forall (λ c, continuation c = true) cs ∧ (length cs ≤ 3)%nat ∧
    utf8_valid t = true ∧ ∀ u, utf8_valid u = true → utf8_valid (b :: cs ++ u) = true.
Proof.
  assert (∀ lo hi c, 0x80 ≤ lo → hi ≤ 0xBF → in_range lo hi c = true → continuation c = true) as Hcont.
  { intros lo hi c Hlo Hhi [?%Z.leb_le ?%Z.leb_le]%andb_true_iff. apply andb_true_iff. split; apply Z.leb_le; lia. }
  assert (∀ b, 0xC0 ≤ b → continuation b = false) as Hlead.
  { intros b Hb. apply andb_false_iff. right. apply Z.leb_gt. lia. }
  destruct s as [|b s1]; [by left|]. intros Hs. right. revert Hs. cbn [utf8_valid].
  destruct (b <? 0x80) eqn:E1.
  { exists b, [], s1. split_and!; [done| |constructor|cbn; lia|done|intros u Hu; cbn; by rewrite E1].
    apply andb_false_iff. left. apply Z.leb_gt. lia. }
  destruct s1 as [|c s2]; [done|]. destruct (in_range 0xC2 0xDF b) eqn:E2.
  { intros [Hc Hv]%andb_true_iff. exists b, [c], s2. split_and!; [done| |by repeat constructor|cbn; lia|done|].
    - apply Hlead. apply andb_true_iff in E2 as [?%Z.leb_le _]. lia.
    - intros u Hu. cbn. by rewrite E1, E2, Hc. }
  destruct s2 as [|d s3]; [done|]. destruct (in_range 0xE0 0xEF b) eqn:E3.
  { intros [[Hc Hd]%andb_true_iff Hv]%andb_true_iff. exists b, [c; d], s3. split_and!; [done| | |cbn; lia|done|].
    - apply Hlead. apply andb_true_iff in E3 as [?%Z.leb_le _]. lia.
    - repeat constructor; [|done]. revert Hc. apply Hcont; case_match; lia.
    - intros u Hu. cbn. by rewrite E1, E2, E3, Hc, Hd. }
  destruct s3 as [|e s4]; [done|].
  intros [[[[Hb Hc]%andb_true_iff Hd]%andb_true_iff He]%andb_true_iff Hv]%andb_true_iff.
  exists b, [c; d; e], s4. split_and!; [done| | |cbn; lia|done|].
  - apply Hlead. apply andb_true_iff in Hb as [?%Z.leb_le _]. lia.
  - repeat constructor; [|done|done]. revert Hc. apply Hcont; case_match; lia.
  - intros u Hu. cbn. by rewrite E1, E2, E3, Hb, Hc, Hd, He.
Qed.
Lemma utf8_ind (P : str → Prop) :
  P [] →
  (∀ b cs t, continuation b = false → Forall (λ c, continuation c = true) cs → (length cs ≤ 3)%nat →
     (∀ u, utf8_valid u = true → utf8_valid (b :: cs ++ u) = true) → utf8_valid t = true → P t → P (b :: cs ++ t)) →
  ∀ s, utf8_valid s = true → P s.
Proof.
  intros Hnil Hchar s. remember (length s) as n eqn:Hn. revert s Hn.
  induction (lt_wf n) as [n _ IH]. intros s -> Hs.
  destruct (utf8_cases s Hs) as [->|(b & cs & t & -> & Hb & Hcs & Hl & Ht & Hu)]; [done|].
  apply Hchar; try done. apply (IH (length t)); [|done|done]. cbn. rewrite length_app. lia.
Qed.

(** Cutting at a boundary keeps the text valid, and there is one within three bytes
    below any index. *)
Lemma boundary_valid s : utf8_valid s = true → ∀ n : nat, (n ≤ length s)%nat →
  is_char_boundary s (Z.of_nat n) = true → utf8_valid (take n s) = true.
Proof.
  revert s. apply (utf8_ind (λ s, ∀ n : nat, (n ≤ length s)%nat → is_char_boundary s (Z.of_nat n) = true → utf8_valid (take n s) = true)).
  { intros [|n]; done. }
  intros b cs t Hb Hcs Hl Hu Ht IH [|n] Hn; [done|]. unfold is_char_boundary. rewrite Nat2Z.id.
  change ((b :: cs ++ t) !! S n) with ((cs ++ t) !! n). intros Hbd.
  destruct (decide (n < length cs)%nat) as [Hlt|Hge].
  - exfalso. rewrite lookup_app_l in Hbd by done. destruct (lookup_lt_is_Some_2 cs n Hlt) as [c Hc]. rewrite Hc in Hbd.
    rewrite (proj1 (Forall_lookup _ _) Hcs n c Hc) in Hbd. done.
  - cbn [take]. rewrite take_app_ge by lia. apply Hu. apply IH; [cbn in Hn; rewrite length_app in Hn; lia|].
    rewrite lookup_app_r in Hbd by lia. unfold is_char_boundary. rewrite Nat2Z.id.
    destruct (t !! (n - length cs)%nat) eqn:E; [done|]. apply lookup_ge_None in E. cbn in Hn. rewrite length_app in Hn.
    apply Z.eqb_eq. unfold zlen. lia.
Qed.
Lemma boundary_near s : utf8_valid s = true → ∀ n : nat, (n ≤ length s)%nat →
  ∃ m : nat, (n - 3 ≤ m ≤ n)%nat ∧ is_char_boundary s (Z.of_nat m) = true.
Proof.
  revert s. apply (utf8_ind (λ s, ∀ n : nat, (n ≤ length s)%nat → ∃ m : nat, (n - 3 ≤ m ≤ n)%nat ∧ is_char_boundary s (Z.of_nat m) = true)).
  { intros [|n] Hn; [|cbn in Hn; lia]. by exists 0%nat. }
  intros b cs t Hb Hcs Hl Hu Ht IH n Hn. destruct (decide (n ≤ length cs)%nat) as [Hle|Hgt].
  - exists 0%nat. split; [lia|]. change (negb (continuation b) = true). by rewrite Hb.
  - destruct (IH (n - S (length cs))%nat) as (m & Hm & Hbd); [cbn in Hn; rewrite length_app in Hn; lia|].
    exists (S (length cs) + m)%nat. split; [lia|]. revert Hbd. unfold is_char_boundary. rewrite !Nat2Z.id.
    change ((b :: cs ++ t) !! (S (length cs) + m)%nat) with ((cs ++ t) !! (length cs + m)%nat).
    rewrite lookup_app_r by lia. replace (length cs + m - length cs)%nat with m by lia.
    destruct (t !! m) as [c|]; [done|]. unfold zlen. intros Heq%Z.eqb_eq. apply Z.eqb_eq. cbn. rewrite length_app. lia.
Qed.

Lemma boundary_at_spec s (m n fuel : nat) : (m ≤ n ≤ fuel)%nat → is_char_boundary s (Z.of_nat m) = true →
  ∃ k : nat, boundary_at s fuel (Z.of_nat n) = Z.of_nat k ∧ (m ≤ k ≤ n)%nat ∧ (is_char_boundary s (Z.of_nat k) = true ∨ k = 0%nat).
Proof.
  revert n. induction fuel as [|fuel IH]; intros n Hmn Hm.
  { exists n. split; [done|]. split; [lia|right; lia]. }
  cbn [boundary_at]. destruct (Z.ltb_spec 0 (Z.of_nat n)); cbn [andb]; [|exists n; split; [done|split; [lia|right; lia]]].
  destruct (is_char_boundary s (Z.of_nat n)) eqn:Hn; cbn [negb]; [exists n; split; [done|split; [lia|by left]]|].
  assert (m ≠ n) by congruence. destruct (IH (n - 1)%nat) as (k & Hk & Hmk & Hb); [lia|done|].
  exists k. unfold saturating_sub. replace (Z.max 0 (Z.of_nat n - 1)) with (Z.of_nat (n - 1)) by lia.
  split; [done|]. split; [lia|done].
Qed.

(** The cut keeps all but at most three of the bytes asked for. *)
Lemma truncate_utf8_spec s (n : nat) : utf8_valid s = true → (n < length s)%nat →
  ∃ k : nat, truncate_utf8_to_boundary s (Z.of_nat n) = take k s ∧ (n - 3 ≤ k ≤ n)%nat ∧ utf8_valid (take k s) = true.
Proof.
  intros Hs Hn. unfold truncate_utf8_to_boundary. rewrite (proj2 (Z.leb_gt _ _)) by (unfold zlen; lia).
  destruct (boundary_near s Hs n) as (m & Hm & Hbm); [lia|]. rewrite Nat2Z.id.
  destruct (boundary_at_spec s m n n) as (k & -> & Hk & Hb); [lia|done|]. rewrite Nat2Z.id. exists k. split; [done|].
  split; [lia|]. destruct Hb as [Hb| ->]; [|done]. apply boundary_valid; [done|lia|done].
Qed.

Lemma hex_loop_length d n acc : length (hex_loop d n acc) = (d + length acc)%nat.
Proof. revert n acc. induction d as [|d IH]; intros n acc; cbn; [done|]. rewrite IH. cbn. lia. Qed.
Lemma hex_loop_ascii d n acc : ascii acc → ascii (hex_loop d n acc).
Proof.
  revert n acc. induction d as [|d IH]; intros n acc Hacc; cbn; [done|]. apply IH. constructor; [|done].
  unfold hex_digit. pose proof (Z.mod_pos_bound n 16). case_match; lia.
Qed.
Lemma utf8_app_ascii s t : utf8_valid s = true → ascii t → utf8_valid (s ++ t) = true.
Proof.
  intros Hs Ht. revert s Hs. apply utf8_ind; [by apply ascii_utf8|]. intros b cs u _ _ _ Hu _ IH.
  rewrite <- app_comm_cons, <- app_assoc. by apply Hu.
Qed.

(** What normalisation does to one string. *)
Lemma truncate_with_hash_spec s max : is_str s → 21 ≤ max ≤ i64_max →
  let r := truncate_with_hash s max in
  is_str r ∧ (zlen s ≤ max → r = s) ∧
  (max < zlen s → ∃ k : nat, r = take k s ++ [126; TRUNC_HASH_ALGO_ID] ++ hex16 (siphash24_fixed_64 s) ∧ max - 3 ≤ zlen r ≤ max).
Proof.
  intros (Hb & Hu & Hv) Hmax. cbv zeta. unfold truncate_with_hash. destruct (Z.leb_spec (zlen s) max) as [Hle|Hgt].
  { split; [done|]. split; [done|lia]. }
  unfold saturating_sub, HASH_SUFFIX_BYTES. rewrite Z.max_r by lia.
  destruct (truncate_utf8_spec s (Z.to_nat (max - 18)) Hu) as (k & Hk & Hrange & Hpu); [unfold zlen in Hgt; lia|].
  rewrite Z2Nat.id in Hk by lia. rewrite Hk. set (h := hex16 (siphash24_fixed_64 s)).
  assert (ascii ([126; TRUNC_HASH_ALGO_ID] ++ h)) as Hascii.
  { apply Forall_cons. split; [lia|]. apply Forall_cons. split; [unfold TRUNC_HASH_ALGO_ID; lia|].
    apply hex_loop_ascii. by apply Forall_nil. }
  assert (zlen (take k s ++ [126; TRUNC_HASH_ALGO_ID] ++ h) = Z.of_nat k + 18) as Hlen.
  { unfold zlen, h, hex16 in *. rewrite !length_app, hex_loop_length, length_take. cbn. lia. }
  split_and!.
  - split_and!.
    + apply Forall_app. split; [by apply Forall_take|by apply ascii_bytes].
    + by apply utf8_app_ascii.
    + rewrite Hlen. lia.
  - lia.
  - intros _. exists k. split; [done|]. rewrite Hlen. lia.
Qed.

(** Normalisation bounds a label.  A name or value within its limit is kept as
    it is; a longer one becomes a valid string of at most the limit and at least
    three bytes less, made of a prefix cut between characters and the hash of the
    whole; and normalising again changes nothing. *)
Theorem normalize_label_bounded s : is_str s →
  (let r := normalize_label_key s in
   is_str r ∧ zlen r ≤ MAX_LABEL_NAME_BYTES ∧ normalize_label_key r = r ∧ (zlen s ≤ MAX_LABEL_NAME_BYTES → r = s) ∧
   (MAX_LABEL_NAME_BYTES < zlen s → MAX_LABEL_NAME_BYTES - 3 ≤ zlen r ∧
      ∃ p, p `prefix_of` s ∧ r = p ++ [126; TRUNC_HASH_ALGO_ID] ++ hex16 (siphash24_fixed_64 s))) ∧
  (let r := normalize_label_value s in
   is_str r ∧ zlen r ≤ MAX_LABEL_VALUE_BYTES ∧ normalize_label_value r = r ∧ (zlen s ≤ MAX_LABEL_VALUE_BYTES → r = s) ∧
   (MAX_LABEL_VALUE_BYTES < zlen s → MAX_LABEL_VALUE_BYTES - 3 ≤ zlen r ∧
      ∃ p, p `prefix_of` s ∧ r = p ++ [126; TRUNC_HASH_ALGO_ID] ++ hex16 (siphash24_fixed_64 s))).
Proof.
  intros Hs. unfold normalize_label_key, normalize_label_value, MAX_LABEL_NAME_BYTES, MAX_LABEL_VALUE_BYTES.
  assert (∀ max, 21 ≤ max ≤ i64_max → let r := truncate_with_hash s max in
    is_str r ∧ zlen r ≤ max ∧ truncate_with_hash r max = r ∧ (zlen s ≤ max → r = s) ∧
    (max < zlen s → max - 3 ≤ zlen r ∧ ∃ p, p `prefix_of` s ∧ r = p ++ [126; TRUNC_HASH_ALGO_ID] ++ hex16 (siphash24_fixed_64 s)))
    as Hgen; [|by split; apply Hgen].
  intros max Hmax r. destruct (truncate_with_hash_spec s max Hs Hmax) as (Hr & Hshort & Hlong). fold r in Hr, Hshort, Hlong.
  assert (zlen r ≤ max) as Hle.
  { destruct (Z.le_gt_cases (zlen s) max) as [Hs'|Hs']; [by rewrite Hshort|]. destruct (Hlong Hs') as (k & _ & Hk). lia. }
  split_and!; [done|done| |done|].
  - by apply (truncate_with_hash_spec r max Hr Hmax).
  - intros Hs'. destruct (Hlong Hs') as (k & Hr' & Hk). split; [lia|]. exists (take k s). split; [|done].
    exists (drop k s). by rewrite take_drop.
Qed.

Lemma normalize_label_bounded_witness :
  zlen (normalize_label_key (replicate 1500 0x61)) ≤ MAX_LABEL_NAME_BYTES ∧
  normalize_label_key (replicate 1500 0x61) ≠ replicate 1500 0x61.
Proof.
  split; [|by vm_compute].
  apply (normalize_label_bounded (replicate 1500 0x61)). apply ascii_str; [by apply Forall_replicate|by vm_compute].
Defined.
