(* ===== verification/Symbols.v ===== *)
(** * Interning: hash chains and the arena symbol table

    [chronoxide-core/src/labels/symbol_table.rs].  A table finds what it interned
    through a hash map from a 64-bit hash to the first identifier with that hash
    and, on a collision, a list of the others; the hash is only a hint, so it is a
    parameter ([ahash] and [DefaultHasher] are not part of the program).  The
    contract between a symbol table and its clients is [SymbolTable] with its
    laws; the arena table, the default one, is an instance.  The statistics of
    allocated capacity are not modelled. *)
From S2P Require Import Prelude Text.

(** ** Specification of interning *)

Definition index_of {A} `{EqDecision A} (x : A) (l : list A) : option Z :=
  (λ p, Z.of_nat p.1) <$> list_find (x =.) l.

(** [x] keeps its identifier, or gets the next one, or is refused and nothing changes. *)
Definition interning {E A} `{EqDecision A} (l : list A) (x : A) (r : result E Z) (l' : list A) : Prop :=
  match index_of x l with
  | Some i => r = Ok i ∧ l' = l
  | None => (r = Ok (zlen l) ∧ l' = l ++ [x]) ∨ (∃ e, r = Err e) ∧ l' = l
  end.

Section index.
Context {A} `{EqDecision A}.
Implicit Types (l : list A) (x : A).

Lemma index_of_at x l i : NoDup l → index_of x l = Some i ↔ 0 ≤ i ∧ l !! Z.to_nat i = Some x.
Proof.
  intros Hnd. unfold index_of. rewrite fmap_Some. split.
  - intros ([n y] & Hf & ->). apply list_find_Some in Hf as (Hl & -> & _). cbn. split; [lia|]. by rewrite Nat2Z.id.
  - intros [Hi Hl]. exists (Z.to_nat i, x). split; [|cbn; lia]. apply list_find_Some. split_and!; [done|done|].
    intros j y Hj Hlt ->. pose proof (NoDup_lookup _ _ _ _ Hnd Hl Hj). lia.
Qed.
Lemma not_interned x l : index_of x l = None ↔ x ∉ l.
Proof.
  unfold index_of. rewrite fmap_None, list_find_None, Forall_forall. split; [|naive_solver].
  intros Hno Hin. by apply (Hno x Hin).
Qed.
Lemma index_of_app_r x l k : x ∈ l → index_of x (l ++ k) = index_of x l.
Proof.
  intros Hx. unfold index_of. destruct (list_find (x =.) l) as [[i y]|] eqn:Hf.
  - by rewrite (list_find_app_l _ _ _ _ _ Hf).
  - apply list_find_None in Hf. by destruct (proj1 (Forall_forall _ _) Hf x Hx).
Qed.
Lemma interning_nodup {E} l x (r : result E Z) l' : interning l x r l' → NoDup l → NoDup l'.
Proof.
  unfold interning. destruct (index_of x l) as [i|] eqn:Hi; [by intros [_ ->]|].
  apply not_interned in Hi. intros [[_ ->]|[_ ->]] Hnd; [|done]. apply NoDup_app. split_and!; [done| |apply NoDup_singleton].
  by intros y Hy ->%list_elem_of_singleton.
Qed.
Lemma interning_prefix {E} l x (r : result E Z) l' : interning l x r l' → l `prefix_of` l'.
Proof.
  unfold interning. destruct (index_of x l); [by intros [_ ->]|]. intros [[_ ->]|[_ ->]]; [|done]. by exists [x].
Qed.
Lemma interning_grows {E} l x (r : result E Z) l' : interning l x r l' → zlen l' ≤ zlen l + 1.
Proof.
  unfold interning. destruct (index_of x l); [intros [_ ->]; lia|]. intros [[_ ->]|[_ ->]]; [|lia].
  rewrite zlen_app. change (zlen [x]) with 1. lia.
Qed.
Lemma interning_ok {E} l x i l' : NoDup l → interning (E:=E) l x (Ok i) l' → 0 ≤ i ∧ l' !! Z.to_nat i = Some x.
Proof.
  intros Hnd. unfold interning. destruct (index_of x l) as [j|] eqn:Hj.
  - intros [[= ->] ->]. by apply index_of_at.
  - intros [[[= ->] ->]|[[e He] _]]; [|done]. split; [apply zlen_nonneg|]. unfold zlen. rewrite Nat2Z.id.
    by rewrite lookup_app_r, Nat.sub_diag.
Qed.
(** Mapped along a function that separates the elements. *)
Lemma index_of_fmap {B} `{EqDecision B} (f : A → B) x l :
  (∀ y, y ∈ l → f y = f x → y = x) → index_of (f x) (f <$> l) = index_of x l.
Proof.
  unfold index_of. intros Hinj. rewrite list_find_fmap.
  assert (list_find ((f x =.) ∘ f) l = list_find (x =.) l) as ->.
  { induction l as [|y l IH]; [done|]. cbn. destruct (decide (x = y)) as [->|Hne].
    - by rewrite decide_True.
    - rewrite decide_False; [|intros Heq; apply Hne; symmetry; apply Hinj; [by left|done]].
      rewrite IH; [done|]. intros z Hz. apply Hinj. by right. }
  by destruct (list_find (x =.) l) as [[]|].
Qed.
Lemma interning_fmap {E B} `{EqDecision B} (f : A → B) l x (r : result E Z) l' :
  (∀ y, y ∈ l → f y = f x → y = x) → interning l x r l' → interning (f <$> l) (f x) r (f <$> l').
Proof.
  intros Hinj. unfold interning. rewrite index_of_fmap by done. destruct (index_of x l); [by intros [-> ->]|].
  intros [[-> ->]|[He ->]]; [left|by right]. rewrite fmap_app. split; [|done]. by unfold zlen; rewrite length_fmap.
Qed.

Lemma index_of_snoc x y l : x ∉ l → index_of y (l ++ [x]) = if decide (y = x) then Some (zlen l) else index_of y l.
Proof.
  intros Hx. destruct (decide (y = x)) as [->|Hne].
  - unfold index_of. rewrite (list_find_app_r (x =.) l [x]).
    + cbn. rewrite decide_True by done. cbn. f_equal; unfold zlen; lia.
    + apply list_find_None, Forall_forall. by intros z Hz <-.
  - destruct (decide (y ∈ l)) as [Hy|Hy]; [by rewrite index_of_app_r|].
    rewrite (proj2 (not_interned y l) Hy), (proj2 (not_interned y (l ++ [x]))); [done|].
    rewrite elem_of_app, list_elem_of_singleton. tauto.
Qed.
End index.

(** A map from the elements of a list to their positions. *)
Definition indexed {A} `{Countable A} (m : gmap A Z) (l : list A) : Prop := NoDup l ∧ ∀ x, m !! x = index_of x l.
Lemma indexed_nil {A} `{Countable A} : indexed (A:=A) ∅ [].
Proof. split; [apply NoDup_nil_2|]. intros x. by rewrite lookup_empty. Qed.
Lemma indexed_snoc {A} `{Countable A} (m : gmap A Z) l x : indexed m l → m !! x = None → indexed (<[x := zlen l]> m) (l ++ [x]).
Proof.
  intros [Hnd Hm] Hx. rewrite Hm in Hx. apply not_interned in Hx. split.
  - apply NoDup_app. split_and!; [done| |apply NoDup_singleton]. by intros y Hy ->%list_elem_of_singleton.
  - intros y. rewrite index_of_snoc by done. destruct (decide (y = x)) as [->|Hne]; [by rewrite lookup_insert_eq|].
    by rewrite lookup_insert_ne, Hm.
Qed.
Lemma indexed_at {A} `{Countable A} (m : gmap A Z) l x i : indexed m l → m !! x = Some i ↔ 0 ≤ i ∧ l !! Z.to_nat i = Some x.
Proof. intros [Hnd Hm]. rewrite Hm. by apply index_of_at. Qed.

(** ** Hash chains *)

Record chains := mk_chains { ch_first : gmap Z Z; ch_collisions : gmap Z (list Z) }.

Definition no_chains : chains := mk_chains ∅ ∅.

(** The identifiers tried for a hash, in order. *)
Definition chain (c : chains) (hash : Z) : list Z :=
  match ch_first c !! hash with
  | Some first => first :: default [] (ch_collisions c !! hash)
  | None => []
  end.
(** The first that is the same, with the number of comparisons; [None] panics. *)
Fixpoint find_same (same : Z → option bool) (ids : list Z) (checks : Z) : option (option Z * Z) :=
  match ids with
  | [] => Some (None, checks)
  | id :: ids =>
      b ← same id;
      if b : bool then Some (Some id, checks + 1) else find_same same ids (checks + 1)
  end.
Definition chain_insert (c : chains) (hash id : Z) : chains :=
  match ch_first c !! hash with
  | None => mk_chains (<[hash := id]> (ch_first c)) (ch_collisions c)
  | Some _ => mk_chains (ch_first c) (<[hash := default [] (ch_collisions c !! hash) ++ [id]]> (ch_collisions c))
  end.

Section chains.
Context {A} `{EqDecision A} (hash : A → Z).
Implicit Types (l : list A) (x : A) (c : chains).

(** Every element is in the chain of its hash, and nothing else is in a chain. *)
Record chains_ok c l : Prop := {
  co_reach i x : l !! i = Some x → Z.of_nat i ∈ chain c (hash x);
  co_valid h id : id ∈ chain c h → 0 ≤ id < zlen l;
  co_first h : ch_first c !! h = None → ch_collisions c !! h = None;
}.

Lemma no_chains_ok : chains_ok no_chains [].
Proof. split; [done|by intros h id ?%not_elem_of_nil|done]. Qed.

Lemma find_same_ids l x (same : Z → option bool) ids checks :
  (∀ id, id ∈ ids → 0 ≤ id < zlen l ∧ same id = Some (bool_decide (l !! Z.to_nat id = Some x))) → NoDup l →
  (∀ i, l !! i = Some x → Z.of_nat i ∈ ids) →
  ∃ n, find_same same ids checks = Some (index_of x l, checks + n) ∧ 0 ≤ n ∧ (is_Some (index_of x l) → 1 ≤ n).
Proof.
  intros Hsame Hnd Hreach. revert checks. induction ids as [|id ids IH]; intros checks.
  - exists 0. cbn. rewrite (proj2 (not_interned x l)).
    + split; [f_equal; f_equal; lia|]. split; [lia|by intros []].
    + intros [i Hi]%list_elem_of_lookup_1. by apply Hreach, not_elem_of_nil in Hi.
  - destruct (Hsame id) as [Hid Hs]; [left|]. cbn. rewrite Hs. cbn. case_bool_decide as Hl.
    + exists 1. rewrite (proj2 (index_of_at x l id Hnd)) by (split; [lia|done]). split; [done|]. split; [lia|lia].
    + destruct (IH) with (checks := checks + 1) as (n & Hn & Hn0 & _).
      * intros id' Hid'. apply Hsame. by right.
      * intros i Hi. pose proof (Hreach i Hi) as [Heq|?]%elem_of_cons; [|done]. rewrite <- Heq, Nat2Z.id in Hl. done.
      * exists (1 + n). rewrite Hn. split; [f_equal; f_equal; lia|]. split; [lia|lia].
Qed.
Lemma chain_find c l x (same : Z → option bool) checks :
  chains_ok c l → NoDup l →
  (∀ id, 0 ≤ id < zlen l → same id = Some (bool_decide (l !! Z.to_nat id = Some x))) →
  ∃ n, find_same same (chain c (hash x)) checks = Some (index_of x l, checks + n) ∧ 0 ≤ n ∧ (is_Some (index_of x l) → 1 ≤ n).
Proof.
  intros Hc Hnd Hsame. apply find_same_ids; [|done|intros i; apply (co_reach _ _ Hc)].
  intros id Hid%(co_valid _ _ Hc). split; [done|by apply Hsame].
Qed.

Lemma chain_insert_eq c h id : (ch_first c !! h = None → ch_collisions c !! h = None) →
  chain (chain_insert c h id) h = chain c h ++ [id].
Proof.
  intros Hf. unfold chain_insert, chain. destruct (ch_first c !! h) as [first|] eqn:E; cbn [ch_first ch_collisions].
  - by rewrite E, lookup_insert_eq.
  - by rewrite lookup_insert_eq, Hf.
Qed.
Lemma chain_insert_ne c h h' id : h ≠ h' → chain (chain_insert c h id) h' = chain c h'.
Proof.
  intros Hne. unfold chain_insert, chain. destruct (ch_first c !! h) as [first|] eqn:E; cbn [ch_first ch_collisions];
    by rewrite lookup_insert_ne.
Qed.
Lemma chain_insert_ok c l x : chains_ok c l → chains_ok (chain_insert c (hash x) (zlen l)) (l ++ [x]).
Proof.
  intros [Hr Hv Hf]. assert (∀ h, chain (chain_insert c (hash x) (zlen l)) h =
    chain c h ++ if decide (hash x = h) then [zlen l] else []) as Hchain.
  { intros h. case_decide as Hh; [subst h; apply chain_insert_eq, Hf|]. rewrite app_nil_r. by apply chain_insert_ne. }
  split.
  - intros i y [Hi|[Hle Hi]]%lookup_app_Some; rewrite Hchain, elem_of_app; [left; by apply Hr|right].
    pose proof (lookup_lt_Some _ _ _ Hi) as Hlt. cbn in Hlt. replace (i - length l)%nat with 0%nat in Hi by lia.
    injection Hi as <-. rewrite decide_True by done. apply list_elem_of_singleton. unfold zlen. lia.
  - intros h id. rewrite Hchain, elem_of_app, zlen_app. pose proof (zlen_nonneg l). change (zlen [x]) with 1.
    intros [Hid%Hv|Hid]; [lia|]. case_decide; [|by apply not_elem_of_nil in Hid]. apply list_elem_of_singleton in Hid. lia.
  - intros h. unfold chain_insert. destruct (ch_first c !! hash x) eqn:E; cbn [ch_first ch_collisions].
    + intros Hn. rewrite lookup_insert_ne by congruence. by apply Hf.
    + destruct (decide (hash x = h)) as [<-|Hne]; [by rewrite lookup_insert_eq|]. rewrite lookup_insert_ne by done. apply Hf.
Qed.
End chains.

(** ** The contract of a symbol table *)

Class SymbolTable (S E : Type) := {
  st_len : S → Z;
  st_lookup : S → str → option (option Z);
  st_intern : S → str → option (result E Z * S);
  st_resolve : S → Z → option str;
}.
(** [None] is a panic, which a table in use never does.  A table may refuse a symbol,
    but not while it has room for it ([st_room]: for these, one after the other). *)
Class SymbolTableLaws (S E : Type) `{SymbolTable S E} := {
  st_ok : S → Prop;
  symbols_of : S → list str;
  st_room : S → list str → Prop;
  st_nodup s : st_ok s → NoDup (symbols_of s);
  st_len_ok s : st_ok s → st_len s = zlen (symbols_of s) ∧ zlen (symbols_of s) ≤ u32_max + 1;
  st_lookup_ok s x : st_ok s → st_lookup s x = Some (index_of x (symbols_of s));
  st_resolve_ok s id : st_ok s → 0 ≤ id → st_resolve s id = symbols_of s !! Z.to_nat id;
  st_intern_ok s x : st_ok s → ∃ r s', st_intern s x = Some (r, s') ∧ st_ok s' ∧
    interning (E:=E) (symbols_of s) x r (symbols_of s');
  st_intern_known s x id : st_ok s → index_of x (symbols_of s) = Some id → st_intern s x = Some (Ok id, s);
  st_room_ok s x xs : st_ok s → st_room s (x :: xs) → ∃ id s', st_intern s x = Some (Ok id, s') ∧ st_room s' xs;
}.

(** Symbols taken one after the other. *)
Lemma st_room_step {S E} `{SymbolTableLaws S E} (s : S) x xs : st_ok s → st_room s (x :: xs) →
  ∃ id s', st_intern s x = Some (Ok id, s') ∧ st_ok s' ∧ st_room s' xs.
Proof.
  intros Hok Hroom. destruct (st_room_ok s x xs Hok Hroom) as (id & s' & Hi & Hr). exists id, s'. split; [done|].
  destruct (st_intern_ok s x Hok) as (r & s1 & Hi' & Hok' & _). rewrite Hi in Hi'. by injection Hi' as _ <-.
Qed.

(** ** The arena table *)

Inductive ArenaSymbolTableError :=
  | SymbolTooLong (len max : Z)
  | ArenaOverflow (offset len : Z)
  | ArenaFull (offset len end_ max : Z)
  | TooManySymbols (count max : Z).

(** The table's fingerprint of a symbol. *)
Class SymbolHash := symbol_hash : str → Z.

Record SymbolLoc := mk_symbol_loc { sl_offset : Z; sl_len : Z }.
(** [hash_to_id] and [hash_collisions] are the chains. *)
Record ArenaSymbolTable := mk_arena_table {
  at_chains : chains;
  at_arena : list Z;
  at_id_to_loc : list SymbolLoc;
  at_max_arena_bytes : Z;
}.
Definition arena_table_default : ArenaSymbolTable := mk_arena_table no_chains [] [] u32_max.

Definition arena_resolve (t : ArenaSymbolTable) (id : Z) : option str :=
  loc ← at_id_to_loc t !! Z.to_nat id;
  if sl_offset loc + sl_len loc <=? zlen (at_arena t)
  then Some (slice (at_arena t) (sl_offset loc) (sl_offset loc + sl_len loc)) else None.

Definition arena_same (t : ArenaSymbolTable) (symbol : str) (id : Z) : option bool :=
  s ← arena_resolve t id; Some (bool_decide (s = symbol)).

Definition lookup_with_hash (t : ArenaSymbolTable) (symbol : str) (hash : Z) : option (option Z) :=
  '(id, _) ← find_same (arena_same t symbol) (chain (at_chains t) hash) 0; Some id.

Definition intern_new (t : ArenaSymbolTable) (symbol : str) : result ArenaSymbolTableError (Z * ArenaSymbolTable) :=
  let count := zlen (at_id_to_loc t) in
  let len := zlen symbol in
  let offset := zlen (at_arena t) in
  let end_ := offset + len in
  let max := Z.min (at_max_arena_bytes t) u32_max in
  if u32_max <? count then Err (TooManySymbols count u32_max)
  else if u16_max <? len then Err (SymbolTooLong len u16_max)
  else if usize_max <? end_ then Err (ArenaOverflow offset len)
  else if max <? end_ then Err (ArenaFull offset len end_ max)
  else Ok (count, mk_arena_table (at_chains t) (at_arena t ++ symbol)
             (at_id_to_loc t ++ [mk_symbol_loc (offset `mod` 4294967296) len]) (at_max_arena_bytes t)).

Definition try_intern_with_hash (t : ArenaSymbolTable) (symbol : str) (hash : Z)
    : option (result ArenaSymbolTableError Z * ArenaSymbolTable) :=
  '(found, _) ← find_same (arena_same t symbol) (chain (at_chains t) hash) 0;
  match found with
  | Some id => Some (Ok id, t)
  | None =>
      Some (match intern_new t symbol with
            | Err e => (Err e, t)
            | Ok (id, t) => (Ok id, mk_arena_table (chain_insert (at_chains t) hash id) (at_arena t) (at_id_to_loc t)
                                      (at_max_arena_bytes t))
            end)
  end.

#[export] Instance arena_symbol_table `{SymbolHash} : SymbolTable ArenaSymbolTable ArenaSymbolTableError := {
  st_len t := zlen (at_id_to_loc t);
  st_lookup t symbol := lookup_with_hash t symbol (symbol_hash symbol);
  st_intern t symbol := try_intern_with_hash t symbol (symbol_hash symbol);
  st_resolve := arena_resolve;
}.

(** *** The arena holds each symbol once *)

Definition loc_text (arena : list Z) (loc : SymbolLoc) : str := slice arena (sl_offset loc) (sl_offset loc + sl_len loc).
Definition arena_symbols (t : ArenaSymbolTable) : list str := loc_text (at_arena t) <$> at_id_to_loc t.
Definition loc_ok (arena : list Z) (loc : SymbolLoc) : Prop :=
  0 ≤ sl_offset loc ∧ 0 ≤ sl_len loc ∧ sl_offset loc + sl_len loc ≤ zlen arena.

Section arena_table.
Context `{SymbolHash}.

Record arena_ok (t : ArenaSymbolTable) : Prop := {
  ao_locs : Forall (loc_ok (at_arena t)) (at_id_to_loc t);
  ao_nodup : NoDup (arena_symbols t);
  ao_chains : chains_ok symbol_hash (at_chains t) (arena_symbols t);
  ao_arena : zlen (at_arena t) ≤ u32_max;
  ao_count : zlen (at_id_to_loc t) ≤ u32_max + 1;
}.

Lemma arena_default_ok : arena_ok arena_table_default.
Proof. split; [by apply Forall_nil|apply NoDup_nil_2|apply no_chains_ok|done|done]. Qed.

Lemma arena_resolve_ok t id : arena_ok t → arena_resolve t id = arena_symbols t !! Z.to_nat id.
Proof.
  intros Ht. unfold arena_resolve, arena_symbols. rewrite list_lookup_fmap.
  destruct (at_id_to_loc t !! Z.to_nat id) as [loc|] eqn:Hl; [|done]. cbn.
  destruct (proj1 (Forall_lookup _ _) (ao_locs _ Ht) _ _ Hl) as (_ & _ & Hle). by rewrite (proj2 (Z.leb_le _ _)).
Qed.
Lemma arena_find t symbol : arena_ok t → ∃ n,
  find_same (arena_same t symbol) (chain (at_chains t) (symbol_hash symbol)) 0 = Some (index_of symbol (arena_symbols t), n).
Proof.
  intros Ht. destruct (chain_find symbol_hash (at_chains t) (arena_symbols t) symbol (arena_same t symbol) 0
    (ao_chains _ Ht) (ao_nodup _ Ht)) as (n & Hn & _); [|by exists (0 + n)].
  intros id Hid. unfold arena_same. rewrite arena_resolve_ok by done.
  destruct (lookup_lt_is_Some_2 (arena_symbols t) (Z.to_nat id)) as [s Hs]; [unfold zlen in Hid; lia|]. rewrite Hs. cbn.
  f_equal. apply bool_decide_ext. naive_solver.
Qed.

Lemma loc_text_app arena s loc : loc_ok arena loc → loc_text (arena ++ s) loc = loc_text arena loc.
Proof.
  intros (H1 & H2 & H3). unfold loc_text, slice, zlen in *. rewrite drop_app_le by lia. rewrite take_app_le; [done|].
  rewrite length_drop. lia.
Qed.
Lemma loc_ok_app arena s loc : loc_ok arena loc → loc_ok (arena ++ s) loc.
Proof. intros (H1 & H2 & H3). pose proof (zlen_nonneg s). split_and!; [done|done|]. rewrite zlen_app. lia. Qed.

Lemma arena_intern_ok t symbol : arena_ok t → ∃ r t',
  try_intern_with_hash t symbol (symbol_hash symbol) = Some (r, t') ∧ arena_ok t' ∧
  interning (arena_symbols t) symbol r (arena_symbols t').
Proof.
  intros Ht. unfold try_intern_with_hash, interning. destruct (arena_find t symbol Ht) as (n & ->). cbn [mbind option_bind].
  destruct (index_of symbol (arena_symbols t)) as [i|] eqn:Hi; [by exists (Ok i), t|].
  unfold intern_new. repeat case_match; simplify_eq; try (by do 2 eexists; split_and!; [done|done|right; split; [by eexists|done]]).
  match goal with |- ∃ _ _, Some (Ok ?id, ?t') = _ ∧ _ => exists (Ok id), t'; set (u := t') end.
  repeat match goal with Hlt : (_ <? _) = false |- _ => apply Z.ltb_ge in Hlt end.
  pose proof (zlen_nonneg (at_arena t)). pose proof (zlen_nonneg symbol).
  assert (loc_ok (at_arena t ++ symbol) (mk_symbol_loc (zlen (at_arena t) `mod` 4294967296) (zlen symbol)) ∧
    loc_text (at_arena t ++ symbol) (mk_symbol_loc (zlen (at_arena t) `mod` 4294967296) (zlen symbol)) = symbol) as [Hloc Htext].
  { rewrite Z.mod_small by lia. split.
    - split_and!; cbn; [done|done|]. rewrite zlen_app. lia.
    - unfold loc_text, slice. cbn. replace (Z.to_nat (zlen (at_arena t) + zlen symbol - zlen (at_arena t))) with (length symbol)
        by (unfold zlen; lia). unfold zlen at 1. rewrite Nat2Z.id, drop_app_length. apply firstn_all. }
  assert (arena_symbols u = arena_symbols t ++ [symbol]) as Hsym.
  { unfold arena_symbols, u. cbn [at_arena at_id_to_loc]. rewrite fmap_app. cbn. rewrite Htext. f_equal.
    apply list_fmap_ext. intros k loc Hk. by apply loc_text_app, (proj1 (Forall_lookup _ _) (ao_locs _ Ht) k). }
  split_and!; [done| |].
  - split.
    + cbn. apply Forall_app. split; [|by apply Forall_singleton].
      eapply Forall_impl; [apply (ao_locs _ Ht)|].
      intros loc. apply loc_ok_app.
    + rewrite Hsym. apply NoDup_app. split_and!; [apply Ht| |apply NoDup_singleton].
      intros x Hx ->%list_elem_of_singleton. by apply not_interned in Hi.
    + rewrite Hsym. cbn [at_chains u]. replace (zlen (at_id_to_loc t)) with (zlen (arena_symbols t))
        by (unfold arena_symbols, zlen; by rewrite length_fmap).
      apply chain_insert_ok, Ht.
    + cbn. rewrite zlen_app. lia.
    + cbn. rewrite zlen_app. change (zlen [_]) with 1. lia.
  - left. rewrite Hsym. split; [|done]. f_equal. unfold arena_symbols, zlen. by rewrite length_fmap.
Qed.

(** Room for symbols of at most [u16::MAX] bytes: of their bytes and their numbers. *)
Definition arena_room (t : ArenaSymbolTable) (xs : list str) : Prop :=
  Forall (λ x, zlen x ≤ u16_max) xs ∧
  zlen (at_arena t) + zlen (mjoin xs) ≤ Z.min (at_max_arena_bytes t) u32_max ∧
  zlen (at_id_to_loc t) + zlen xs ≤ u32_max + 1.

Lemma arena_room_ok t x xs : arena_ok t → arena_room t (x :: xs) → ∃ id t',
  try_intern_with_hash t x (symbol_hash x) = Some (Ok id, t') ∧ arena_room t' xs.
Proof.
  intros Ht (Hlen & Hbytes & Hcount). apply Forall_cons_1 in Hlen as [Hx Hlen].
  change (mjoin (x :: xs)) with (x ++ mjoin xs) in Hbytes. rewrite zlen_app in Hbytes. rewrite zlen_cons in Hcount.
  pose proof (zlen_nonneg x). pose proof (zlen_nonneg xs). pose proof (zlen_nonneg (mjoin xs)).
  unfold try_intern_with_hash. destruct (arena_find t x Ht) as (n & ->). cbn [mbind option_bind].
  destruct (index_of x (arena_symbols t)) as [i|]; [exists i, t; split; [done|]; split; [done|lia]|].
  unfold intern_new. rewrite !(proj2 (Z.ltb_ge _ _)) by lia. eexists _, _. split; [done|]. split; [done|].
  cbn [at_arena at_id_to_loc at_max_arena_bytes]. rewrite !zlen_app. change (zlen [_]) with 1. lia.
Qed.

#[export] Instance arena_symbol_table_laws : SymbolTableLaws ArenaSymbolTable ArenaSymbolTableError.
Proof.
  refine {| st_ok := arena_ok; symbols_of := arena_symbols; st_room := arena_room |}.
  - apply ao_nodup.
  - intros t Ht. cbn. unfold arena_symbols, zlen. rewrite length_fmap. split; [done|]. apply (ao_count _ Ht).
  - intros t x Ht. cbn. unfold lookup_with_hash. by destruct (arena_find t x Ht) as (n & ->).
  - intros t id Ht _. by apply arena_resolve_ok.
  - apply arena_intern_ok.
  - intros t x id Ht Hid. cbn. unfold try_intern_with_hash. destruct (arena_find t x Ht) as (n & ->). by rewrite Hid.
  - apply arena_room_ok.
Defined.
End arena_table.
