(* ===== verification/FlatStore.v ===== *)
(** * The flat label-set store

    [chronoxide-core/src/labels/interners/flat.rs] over [interners/common.rs]: label
    sets are rows of symbol pairs in one buffer or in bounded pages, found through
    a fingerprint that is only a hint.  The hashers are parameters: [DefaultHasher]
    and the keyed [ahash] as functions of what is written to them.  A store asserts,
    in a debug build, that a label set is canonical: its keys strictly ascend.  Here
    a label set that is not panics; one that is, as every label set of [OtlpLabels]
    is, is treated alike by both builds.  The counters wrap as in a release build;
    allocated capacities and the clearing of the scratch row (it is an argument
    here) are not modelled. *)
From Stdlib Require Import Sorted.
From S2P Require Import Prelude Text Bits OtlpLabels Normalizer Symbols.

Record InternedKeyValue := mk_ikv { ik_key : Z; ik_value : Z }.
#[export] Instance ikv_eq_dec : EqDecision InternedKeyValue.
Proof. solve_decision. Defined.

Abbreviation row := (list InternedKeyValue).
Abbreviation labelset := (list (str * str)).

(** ** The contract of a label-set store *)

Inductive LabelSetStoreError (SE : Type) :=
  | SymbolTableError (e : SE)
  | SealedStore
  | LocatorCapacityExceeded (layout field : string) (value max : Z).
Arguments SymbolTableError {SE} e.
Arguments SealedStore {SE}.
Arguments LocatorCapacityExceeded {SE} layout field value max.

Definition normalize_label (p : str * str) : str * str := (normalize_label_key p.1, normalize_label_value p.2).
Definition normalize_labelset (labels : labelset) : labelset := normalize_label <$> labels.

(** "LabelSet must be canonical (sorted by key, unique keys)":
    [labels.windows(2).all(|pair| pair[0].key < pair[1].key)]. *)
Fixpoint is_canonical (labels : labelset) : bool :=
  match labels with
  | p :: (q :: _) as rest => bool_decide (str_compare p.1 q.1 = Lt) && is_canonical rest
  | _ => true
  end.
(** The same assertion of a loop: [previous_key.is_none_or(|key| key < label.key)]. *)
Definition key_follows (previous_key : option str) (key : str) : bool :=
  match previous_key with Some previous => bool_decide (str_compare previous key = Lt) | None => true end.
Fixpoint canonical_from (previous_key : option str) (labels : labelset) : bool :=
  match labels with
  | [] => true
  | label :: labels => key_follows previous_key label.1 && canonical_from (Some label.1) labels
  end.
Lemma canonical_from_none labels : canonical_from None labels = is_canonical labels.
Proof.
  assert (∀ p l, canonical_from (Some p.1) l = is_canonical (p :: l)) as Hall.
  { intros p l. revert p. induction l as [|q l IH]; intros p; [done|]. cbn [canonical_from key_follows]. by rewrite IH. }
  destruct labels as [|p labels]; [done|]. apply (Hall p).
Qed.
Lemma canonical_sorted (labels : labelset) : StronglySorted pair_lt labels → is_canonical labels = true.
Proof.
  induction 1 as [|p labels Hs IH Hp]; [done|]. destruct labels as [|q labels]; [done|].
  apply Forall_cons_1 in Hp as [Hpq _]. cbn [is_canonical]. rewrite bool_decide_eq_true_2 by done. exact IH.
Qed.

(** The strings of label sets, in the order in which they are interned. *)
Definition label_strings (normalized : labelset) : list str := mjoin ((λ p, [p.1; p.2]) <$> normalized).
Definition session_strings (xs : list labelset) : list str := mjoin ((λ x, label_strings (normalize_labelset x)) <$> xs).

Class LabelSetStore (L E : Type) := {
  ls_intern : L → labelset → option (result E Z * L);
  ls_len : L → Z;
  ls_visit : L → Z → option labelset;   (* what [visit_labelset] is given *)
}.
Definition ls_is_empty {L E} `{LabelSetStore L E} (s : L) : bool := ls_len s =? 0.

(** A store in use holds distinct normalised label sets in order of arrival; it has
    references for [u32::MAX] of them.  It may refuse a canonical label set, but not
    while it has room for it ([ls_room]: for these, one after the other). *)
Class LabelSetStoreLaws (L E : Type) `{LabelSetStore L E} := {
  ls_ok : L → Prop;
  labelsets_of : L → list labelset;
  ls_room : L → list labelset → Prop;
  ls_nodup s : ls_ok s → NoDup (labelsets_of s);
  ls_len_ok s : ls_ok s → ls_len s = zlen (labelsets_of s);
  ls_visit_ok s i : ls_ok s → 0 ≤ i → ls_visit s i = labelsets_of s !! Z.to_nat i;
  ls_intern_ok s labels : ls_ok s → zlen (labelsets_of s) ≤ u32_max → is_canonical labels = true →
    ∃ r s', ls_intern s labels = Some (r, s') ∧ ls_ok s' ∧
    interning (E:=E) (labelsets_of s) (normalize_labelset labels) r (labelsets_of s');
  ls_room_ok s labels xs : ls_ok s → zlen (labelsets_of s) ≤ u32_max → is_canonical labels = true →
    ls_room s (labels :: xs) → ∃ a s', ls_intern s labels = Some (Ok a, s') ∧ ls_room s' xs;
}.

(** ** Rows *)

Record SeriesLoc := mk_series_loc { lc_offset : Z; lc_len : Z }.

Definition DEFAULT_INTERNED_KEY_VALUE_PAGE_CAPACITY : Z := u16_max + 1.
Definition MAX_INTERNED_KEY_VALUE_PAGES : Z := u16_max + 1.

Section storage.
Context {SE : Type}.
Abbreviation store_result := (result (LabelSetStoreError SE)).

Definition fits (layout field : string) (value max : Z) : store_result unit :=
  if max <? value then Err (LocatorCapacityExceeded layout field value max) else Ok tt.

Definition loc_paged (page_index page_offset len : Z) : store_result SeriesLoc :=
  _ ← fits "paged" "page_index" page_index u16_max;
  _ ← fits "paged" "page_offset" page_offset u16_max;
  _ ← fits "paged" "row_len" len u32_max;
  Ok (mk_series_loc (Z.lor (Z.shiftl page_index 16) page_offset) len).
Definition loc_contiguous (offset len : Z) : store_result SeriesLoc :=
  _ ← fits "contiguous" "offset" offset u32_max;
  _ ← fits "contiguous" "row_len" len u32_max;
  Ok (mk_series_loc offset len).
Definition paged_parts (loc : SeriesLoc) : Z * Z := (Z.shiftr (lc_offset loc) 16, Z.land (lc_offset loc) u16_max).

Record PagedInternedKeyValues := mk_paged { pg_pages : list row; pg_len : Z; pg_page_capacity : Z }.

(** An error may leave a new empty page behind. *)
Definition paged_append_row (p : PagedInternedKeyValues) (r : row) : store_result SeriesLoc * PagedInternedKeyValues :=
  let row_len := zlen r in
  if u32_max <? row_len then (Err (LocatorCapacityExceeded "paged" "row_len" row_len u32_max), p)
  else if row_len =? 0 then (loc_paged 0 0 0, p)
  else
    let has_room := match last (pg_pages p) with
                    | Some page => (zlen page <=? pg_page_capacity p) && (row_len <=? saturating_sub (pg_page_capacity p) (zlen page))
                    | None => false
                    end in
    if negb has_room && (zlen (pg_pages p) =? MAX_INTERNED_KEY_VALUE_PAGES) then
      (Err (LocatorCapacityExceeded "paged" "page_index" (zlen (pg_pages p)) u16_max), p)
    else
      let pages := if has_room then pg_pages p else pg_pages p ++ [[]] in
      let page_index := (length pages - 1)%nat in
      let page := default [] (pages !! page_index) in
      match loc_paged (Z.of_nat page_index) (zlen page) row_len with
      | Err e => (Err e, mk_paged pages (pg_len p) (pg_page_capacity p))
      | Ok loc => (Ok loc, mk_paged (<[page_index := page ++ r]> pages) (Z.min usize_max (pg_len p + row_len)) (pg_page_capacity p))
      end.

(** A slice out of range panics. *)
Definition slice_at (l : row) (start len : Z) : option row :=
  if start + len <=? zlen l then Some (slice l start (start + len)) else None.
Definition paged_row (p : PagedInternedKeyValues) (loc : SeriesLoc) : option row :=
  if lc_len loc =? 0 then Some []
  else
    let '(page_index, start) := paged_parts loc in
    page ← pg_pages p !! Z.to_nat page_index;
    slice_at page start (lc_len loc).

Inductive InternedKeyValueStorage :=
  | Paged (values : PagedInternedKeyValues)
  | Contiguous (values : row).

Definition append_row (kv : InternedKeyValueStorage) (r : row) : store_result SeriesLoc * InternedKeyValueStorage :=
  match kv with
  | Paged values => let '(loc, values) := paged_append_row values r in (loc, Paged values)
  | Contiguous values =>
      match loc_contiguous (zlen values) (zlen r) with
      | Err e => (Err e, kv)
      | Ok loc => (Ok loc, Contiguous (values ++ r))
      end
  end.
Definition storage_row (kv : InternedKeyValueStorage) (loc : SeriesLoc) : option row :=
  match kv with
  | Paged values => paged_row values loc
  | Contiguous values => slice_at values (lc_offset loc) (lc_len loc)
  end.
Definition storage_len (kv : InternedKeyValueStorage) : Z :=
  match kv with Paged values => pg_len values | Contiguous values => zlen values end.

(** ** Fingerprints *)

Inductive FlatInternedLabelSetHash := CanonicalStrings | InternedIdsSipHash | InternedIdsAHash.

(** The hash of the strings, or of the words, written to a hasher. *)
Class LabelSetHashers := {
  hash_strings : list str → Z;
  hash_words_sip : list Z → Z;
  hash_words_ahash : list Z → Z;
}.

Definition pair_word (kv : InternedKeyValue) : Z := Z.lor (Z.shiftl (ik_key kv) 32) (ik_value kv).

Definition labelset_hash `{LabelSetHashers} (normalized : labelset) : Z :=
  hash_strings (mjoin ((λ p, [p.1; p.2]) <$> normalized)).
Definition fingerprint `{LabelSetHashers} (mode : FlatInternedLabelSetHash) (normalized : labelset) (encoded : row) : Z :=
  match mode with
  | CanonicalStrings => labelset_hash normalized
  | InternedIdsSipHash => hash_words_sip (zlen encoded :: (pair_word <$> encoded))
  | InternedIdsAHash => hash_words_ahash (zlen encoded :: (pair_word <$> encoded))
  end.

(** ** The store *)

Record FlatStats := mk_flat_stats {
  sx_fingerprint_calls : Z;
  sx_fingerprint_label_pairs : Z;
  sx_equality_checks : Z;
  sx_equality_matches : Z;
  sx_equality_mismatches : Z;
  sx_collision_inserts : Z;
}.
Record FlatStore (S : Type) := mk_flat {
  fs_chains : chains;             (* by_hash and by_hash_collisions *)
  fs_symbols : S;
  fs_series : list SeriesLoc;
  fs_key_values : InternedKeyValueStorage;
  fs_labelset_hash : FlatInternedLabelSetHash;
  fs_stats : FlatStats;
  fs_prepared_cache_id : Z;
}.

(** A symbol cell of a prepared plan, and the cells of one metric's plan. *)
Record PreparedInternedKeyValue := mk_pikv { pk_cache_id : Z; pk_interned : InternedKeyValue }.
Record PlanCells := mk_cells {
  pc_resource : list (option PreparedInternedKeyValue);
  pc_metric : option PreparedInternedKeyValue;
}.
End storage.
Arguments mk_flat {S}.
Arguments fs_chains {S}.
Arguments fs_symbols {S}.
Arguments fs_series {S}.
Arguments fs_key_values {S}.
Arguments fs_labelset_hash {S}.
Arguments fs_stats {S}.
Arguments fs_prepared_cache_id {S}.

Definition get_cell (cells : PlanCells) (cache : PreparedSymbolCache) : option (option PreparedInternedKeyValue) :=
  match cache with
  | CacheNone => Some None
  | CacheResource index => pc_resource cells !! index
  | CacheMetric => Some (pc_metric cells)
  end.
Definition set_cell (cells : PlanCells) (cache : PreparedSymbolCache) (v : PreparedInternedKeyValue) : PlanCells :=
  match cache with
  | CacheNone => cells
  | CacheResource index => mk_cells (<[index := Some v]> (pc_resource cells)) (pc_metric cells)
  | CacheMetric => mk_cells (pc_resource cells) (Some v)
  end.

Section flat.
Context {S SE : Type} `{HST : SymbolTable S SE} `{HH : LabelSetHashers}.
Abbreviation store_error := (LabelSetStoreError SE).
Abbreviation Flat := (FlatStore S).

Definition flat_new (kv : InternedKeyValueStorage) (mode : FlatInternedLabelSetHash) (symbols : S) (cache_id : Z) : Flat :=
  mk_flat no_chains symbols [] kv mode (mk_flat_stats 0 0 0 0 0 0) cache_id.

(** [key] first, then [value]; the symbols interned before an error stay. *)
Definition intern_normalized_pair (symbols : S) (label : str * str) : option (result store_error InternedKeyValue * S) :=
  '(key, symbols) ← st_intern symbols (normalize_label_key label.1);
  match key with
  | Err e => Some (Err (SymbolTableError e), symbols)
  | Ok key =>
      '(value, symbols) ← st_intern symbols (normalize_label_value label.2);
      Some (match value with Err e => Err (SymbolTableError e) | Ok value => Ok (mk_ikv key value) end, symbols)
  end.

(** The row of a label set; what the hasher was given is a function of it.  The
    assertion on a pair of keys comes before the second is interned. *)
Fixpoint encode_loop (symbols : S) (previous_key : option str) (labels : labelset) (encoded : row)
    : option (result store_error row * S) :=
  match labels with
  | [] => Some (Ok encoded, symbols)
  | label :: labels =>
      if negb (key_follows previous_key label.1) then None
      else
        '(r, symbols) ← intern_normalized_pair symbols label;
        match r with
        | Err e => Some (Err e, symbols)
        | Ok interned => encode_loop symbols (Some label.1) labels (encoded ++ [interned])
        end
  end.

(** The same through the plan's cells: a pair cached for this store is not interned
    again, and a pair interned for a cell is cached. *)
Fixpoint encode_prepared_loop (cache_id : Z) (symbols : S) (cells : PlanCells) (previous_key : option str)
    (parts : list (str * str * PreparedSymbolCache)) (encoded : row) : option (result store_error row * S * PlanCells) :=
  match parts with
  | [] => Some (Ok encoded, symbols, cells)
  | (label, cache) :: parts =>
      if negb (key_follows previous_key label.1) then None
      else
        cached ← get_cell cells cache;
        match (cached ← cached; if pk_cache_id cached =? cache_id then Some cached else None) with
        | Some cached =>
            encode_prepared_loop cache_id symbols cells (Some label.1) parts (encoded ++ [pk_interned cached])
        | None =>
            '(r, symbols) ← intern_normalized_pair symbols label;
            match r with
            | Err e => Some (Err e, symbols, cells)
            | Ok interned =>
                encode_prepared_loop cache_id symbols (set_cell cells cache (mk_pikv cache_id interned)) (Some label.1)
                  parts (encoded ++ [interned])
            end
        end
  end.

Definition series_slice (s : Flat) (series : Z) : option row :=
  loc ← fs_series s !! Z.to_nat series; storage_row (fs_key_values s) loc.

Definition row_same (s : Flat) (encoded : row) (series : Z) : option bool :=
  r ← series_slice s series; Some (bool_decide (r = encoded)).

(** The candidate found, and the comparisons made. *)
Definition find_existing (s : Flat) (encoded : row) (labelset_hash : Z) : option (option Z * Z) :=
  find_same (row_same s encoded) (chain (fs_chains s) labelset_hash) 0.

Definition stats_add (st : FlatStats) (calls pairs checks matches mismatches collisions : Z) : FlatStats :=
  mk_flat_stats (wrap_u64 (sx_fingerprint_calls st + calls)) (wrap_u64 (sx_fingerprint_label_pairs st + pairs))
    (wrap_u64 (sx_equality_checks st + checks)) (wrap_u64 (sx_equality_matches st + matches))
    (wrap_u64 (sx_equality_mismatches st + mismatches)) (wrap_u64 (sx_collision_inserts st + collisions)).

Definition intern_encoded (s : Flat) (encoded : row) (labelset_hash : Z) : option (result store_error Z * Flat) :=
  let '(mk_flat ch symbols series kv mode stats cache_id) := s in
  let pairs := zlen encoded in
  '(existing, checks) ← find_existing s encoded labelset_hash;
  Some
    (match existing with
     | Some id => (Ok id, mk_flat ch symbols series kv mode (stats_add stats 1 pairs checks 1 (checks - 1) 0) cache_id)
     | None =>
         let series_ref := zlen series `mod` 4294967296 in
         match append_row (SE:=SE) kv encoded with
         | (Err e, kv) => (Err e, mk_flat ch symbols series kv mode (stats_add stats 0 0 checks 0 checks 0) cache_id)
         | (Ok loc, kv) =>
             let collision := if ch_first ch !! labelset_hash then 1 else 0 in
             (Ok series_ref, mk_flat (chain_insert ch labelset_hash series_ref) symbols (series ++ [loc]) kv mode
                (stats_add stats 1 pairs checks 0 checks collision) cache_id)
         end
     end).

Definition with_symbols (s : Flat) (symbols : S) : Flat :=
  mk_flat (fs_chains s) symbols (fs_series s) (fs_key_values s) (fs_labelset_hash s) (fs_stats s) (fs_prepared_cache_id s).

Definition flat_intern_iter (s : Flat) (labels : labelset) : option (result store_error Z * Flat) :=
  '(r, symbols) ← encode_loop (fs_symbols s) None labels [];
  let s := with_symbols s symbols in
  match r with
  | Err e => Some (Err e, s)
  | Ok encoded => intern_encoded s encoded (fingerprint (fs_labelset_hash s) (normalize_labelset labels) encoded)
  end.

Definition intern_prepared_otlp (s : Flat) (cells : PlanCells) (labels : CanonicalLabelSet)
    : option (result store_error Z * Flat * PlanCells) :=
  match prepared_parts labels with
  | None =>
      labels ← canonical_iter labels;
      '(r, s) ← flat_intern_iter s labels; Some (r, s, cells)
  | Some parts =>
      parts ← parts;
      '(r, symbols, cells) ← encode_prepared_loop (fs_prepared_cache_id s) (fs_symbols s) cells None parts [];
      let s := with_symbols s symbols in
      match r with
      | Err e => Some (Err e, s, cells)
      | Ok encoded =>
          '(r, s) ← intern_encoded s encoded (fingerprint (fs_labelset_hash s) (normalize_labelset parts.*1) encoded);
          Some (r, s, cells)
      end
  end.

Definition resolve_pair (symbols : S) (kv : InternedKeyValue) : option (str * str) :=
  key ← st_resolve symbols (ik_key kv); value ← st_resolve symbols (ik_value kv); Some (key, value).
Definition visit_labelset (s : Flat) (series : Z) : option labelset :=
  r ← series_slice s series; mapM (resolve_pair (fs_symbols s)) r.

#[export] Instance flat_label_set_store : LabelSetStore Flat store_error := {
  ls_intern := flat_intern_iter;
  ls_len s := zlen (fs_series s);
  ls_visit := visit_labelset;
}.
End flat.

(** ** Rows are kept *)

Lemma pack_parts i o : 0 ≤ o ≤ u16_max → Z.shiftr (Z.lor (Z.shiftl i 16) o) 16 = i ∧ Z.land (Z.lor (Z.shiftl i 16) o) u16_max = o.
Proof.
  intros Ho. rewrite Z.shiftl_mul_pow2, lor_pow2_add by (try lia; change (2 ^ 16) with 65536; lia).
  rewrite Z.shiftr_div_pow2 by lia. change u16_max with (Z.ones 16). rewrite Z.land_ones by lia. change (2 ^ 16) with 65536.
  split; [rewrite Z.div_add_l by lia; rewrite Z.div_small; lia|].
  rewrite Z.add_comm, Z.mod_add by lia. apply Z.mod_small. lia.
Qed.

Section storage_spec.
Context {SE : Type}.
Implicit Types (kv : InternedKeyValueStorage) (r : row) (l : row).

Lemma slice_at_app l k start len r : slice_at l start len = Some r → 0 ≤ start → 0 ≤ len → slice_at (l ++ k) start len = Some r.
Proof.
  unfold slice_at. destruct (Z.leb_spec (start + len) (zlen l)) as [Hle|]; [|done]. intros [= <-] Hs Hl.
  pose proof (zlen_nonneg k). rewrite zlen_app, (proj2 (Z.leb_le _ _)) by lia. f_equal. unfold slice, zlen in *.
  rewrite drop_app_le by lia. rewrite take_app_le; [done|]. rewrite length_drop. lia.
Qed.
Lemma slice_at_end l r : slice_at (l ++ r) (zlen l) (zlen r) = Some r.
Proof.
  unfold slice_at. rewrite zlen_app, Z.leb_refl. f_equal. rewrite <- (app_nil_r (l ++ r)), <- app_assoc.
  by apply slice_app.
Qed.

Definition loc_valid (loc : SeriesLoc) : Prop := 0 ≤ lc_offset loc ∧ 0 ≤ lc_len loc.

Lemma fits_ok layout field value max : fits (SE:=SE) layout field value max = Ok tt ↔ value ≤ max.
Proof. unfold fits. destruct (Z.ltb_spec max value); naive_solver lia. Qed.
Lemma loc_contiguous_inv o n loc : loc_contiguous (SE:=SE) o n = Ok loc → loc = mk_series_loc o n.
Proof. unfold loc_contiguous. intros ([] & _ & ([] & _ & [= <-])%bind_ok)%bind_ok. done. Qed.
Lemma loc_paged_inv i o n loc : loc_paged (SE:=SE) i o n = Ok loc →
  loc = mk_series_loc (Z.lor (Z.shiftl i 16) o) n ∧ o ≤ u16_max.
Proof.
  unfold loc_paged. intros ([] & _ & ([] & Ho%fits_ok & ([] & _ & [= <-])%bind_ok)%bind_ok)%bind_ok. done.
Qed.

(** A row appended is where its locator says, and the others stay. *)
Lemma append_row_spec kv r loc kv' : append_row (SE:=SE) kv r = (loc, kv') →
  (∀ (l : SeriesLoc) x, loc_valid l → storage_row kv l = Some x → storage_row kv' l = Some x) ∧
  (∀ l : SeriesLoc, loc = Ok l → loc_valid l ∧ storage_row kv' l = Some r).
Proof.
  destruct kv as [p|values]; cbn [append_row].
  - unfold paged_append_row. pose proof (zlen_nonneg r) as Hr0.
    destruct (Z.ltb_spec u32_max (zlen r)); [by intros [= <- <-]|].
    destruct (Z.eqb_spec (zlen r) 0) as [Hr|Hr].
    { intros [= <- <-]. split; [done|]. intros l [-> _]%loc_paged_inv. split; [done|]. cbn. by apply zlen_0 in Hr as ->. }
    set (has_room := match last (pg_pages p) with Some page => _ | None => false end).
    destruct (negb has_room && _); [by intros [= <- <-]|].
    set (pages := if has_room then pg_pages p else pg_pages p ++ [[]]). set (n := (length pages - 1)%nat).
    assert (pg_pages p `prefix_of` pages) as Hpre.
    { unfold pages. destruct has_room; [done|by apply prefix_app_r]. }
    assert (∃ page, pages !! n = Some page) as [page Hpage].
    { apply lookup_lt_is_Some_2. unfold n, pages, has_room. destruct (pg_pages p) as [|q qs] eqn:Hq; cbn; [lia|].
      repeat case_match; cbn; rewrite ?length_app; cbn; lia. }
    rewrite Hpage. cbn [from_option id].
    assert (∀ rest (l : SeriesLoc) x, loc_valid l → paged_row p l = Some x → paged_row (mk_paged (<[n := page ++ rest]> pages) 0 0) l = Some x) as Hkeep.
    { intros rest l x [Hlo Hln] Hx. unfold paged_row in *. destruct (lc_len l =? 0); [done|].
      unfold paged_parts in *. cbn [pg_pages]. apply bind_Some in Hx as (q & Hq & Hx).
      pose proof (prefix_lookup_Some _ _ _ _ Hq Hpre) as Hq'.
      destruct (decide (n = Z.to_nat (Z.shiftr (lc_offset l) 16))) as [Hn|Hn].
      - rewrite <- Hn in *. rewrite list_lookup_insert_eq by (by eapply lookup_lt_Some). cbn.
        rewrite Hq' in Hpage. injection Hpage as ->. apply slice_at_app; [done|apply Z.land_nonneg; by left|done].
      - rewrite list_lookup_insert_ne by done. by rewrite Hq'. }
    destruct (loc_paged _ _ _) as [l|e] eqn:Hl; intros [= <- <-]; cbn [storage_row].
    + split; [intros l' x Hv Hx; by apply (Hkeep r)|]. intros ? [= <-].
      apply loc_paged_inv in Hl as [-> Ho]. pose proof (zlen_nonneg page).
      split; [split; cbn; [|lia]; apply Z.lor_nonneg; split; [apply Z.shiftl_nonneg; lia|done]|].
      unfold paged_row, paged_parts. cbn [lc_len lc_offset pg_pages]. destruct (pack_parts (Z.of_nat n) (zlen page)) as [-> ->]; [lia|].
      rewrite (proj2 (Z.eqb_neq _ _)), Nat2Z.id by done. rewrite list_lookup_insert_eq by (by eapply lookup_lt_Some). cbn.
      apply slice_at_end.
    + split; [|done]. intros l x Hv Hx. specialize (Hkeep [] l x Hv Hx). rewrite app_nil_r, list_insert_id in Hkeep by done. done.
  - destruct (loc_contiguous _ _) as [l|e] eqn:Hl; intros [= <- <-]; [|done]. cbn [storage_row]. split.
    + intros l' x [Hlo Hln] Hx. by apply slice_at_app.
    + intros ? [= <-]. apply loc_contiguous_inv in Hl as ->. split; [split; apply zlen_nonneg|]. apply slice_at_end.
Qed.

(** *** Room for rows *)

(** A page is only opened for a row that does not fit the page before it. *)
Fixpoint pages_dense (capacity : Z) (pages : list row) : Prop :=
  match pages with
  | a :: (b :: _) as rest => capacity < zlen a + zlen b ∧ pages_dense capacity rest
  | _ => True
  end.
(** The layout takes rows of [n] pairs in all: a contiguous buffer up to [u32::MAX]
    pairs; pages, which may be half empty, half of what 2^16 of them hold. *)
Definition layout_room (kv : InternedKeyValueStorage) (n : Z) : Prop :=
  match kv with
  | Contiguous values => zlen values + n ≤ u32_max
  | Paged p =>
      0 ≤ pg_page_capacity p ≤ u16_max + 1 ∧ pages_dense (pg_page_capacity p) (pg_pages p) ∧
      zlen (mjoin (pg_pages p)) + n < 32768 * (pg_page_capacity p + 1)
  end.
Lemma layout_room_le kv n m : m ≤ n → layout_room kv n → layout_room kv m.
Proof. intros Hm. destruct kv; cbn; [intros (? & ? & ?); split_and!; (done || lia)|lia]. Qed.

Lemma pages_dense_count capacity pages : 0 ≤ capacity → pages_dense capacity pages →
  (capacity + 1) * (zlen pages - 1) ≤ 2 * zlen (mjoin pages).
Proof.
  intros Hc. assert (∀ n pages, (length pages ≤ n)%nat → pages_dense capacity pages →
    (capacity + 1) * (zlen pages - 1) ≤ 2 * zlen (mjoin pages)) as Hall; [|by apply (Hall (length pages))].
  clear pages. induction n as [|n IH]; intros [|a [|b pages]] Hn Hd; try (cbn in Hn; lia).
  - unfold zlen. cbn. lia.
  - unfold zlen. cbn. lia.
  - change (zlen [a]) with 1. pose proof (zlen_nonneg (mjoin [a])). lia.
  - destruct Hd as [Hab Hd]. change (mjoin (a :: b :: pages)) with (a ++ b ++ mjoin pages). rewrite !zlen_app, !zlen_cons.
    assert (pages_dense capacity pages) as Hd' by (by destruct pages; [|apply Hd]).
    specialize (IH pages ltac:(cbn in Hn; lia) Hd'). lia.
Qed.
Lemma pages_dense_grow capacity pages a r : pages_dense capacity (pages ++ [a]) → pages_dense capacity (pages ++ [a ++ r]).
Proof.
  induction pages as [|b pages IH]; [done|]. destruct pages as [|c pages]; cbn [app pages_dense] in *.
  - rewrite zlen_app. pose proof (zlen_nonneg r). intros [? _]. split; [lia|done].
  - intros [? Hd]. split; [done|by apply IH].
Qed.
Lemma pages_dense_snoc capacity pages r : pages_dense capacity pages → (∀ a, last pages = Some a → capacity < zlen a + zlen r) →
  pages_dense capacity (pages ++ [r]).
Proof.
  induction pages as [|b pages IH]; [done|]. destruct pages as [|c pages].
  - intros _ Hl. split; [by apply Hl|done].
  - intros [? Hd] Hl. split; [done|]. apply IH; [done|]. intros a Ha. by apply Hl.
Qed.

Lemma fits_ok_le layout field value max : value ≤ max → fits (SE:=SE) layout field value max = Ok tt.
Proof. intros Hle. unfold fits. by rewrite (proj2 (Z.ltb_ge _ _)). Qed.

Lemma append_row_room kv r n : layout_room kv n → zlen r ≤ n → ∃ loc kv',
  append_row (SE:=SE) kv r = (Ok loc, kv') ∧ layout_room kv' (n - zlen r).
Proof.
  intros Hroom Hr. pose proof (zlen_nonneg r) as Hr0. destruct kv as [p|values]; cbn [append_row layout_room] in *; cycle 1.
  { pose proof (zlen_nonneg values). unfold loc_contiguous. rewrite !fits_ok_le by lia. cbn [mbind result_bind].
    eexists _, _. split; [done|]. cbn. rewrite zlen_app. lia. }
  destruct Hroom as (Hcap & Hd & Hn). pose proof (zlen_nonneg (mjoin (pg_pages p))). unfold paged_append_row, loc_paged.
  rewrite (proj2 (Z.ltb_ge _ _)) by lia. destruct (Z.eqb_spec (zlen r) 0) as [Hr'|Hr'].
  { rewrite !fits_ok_le by lia. cbn [mbind result_bind]. eexists _, _. split; [done|]. split_and!; [lia|lia|done|lia]. }
  assert (∀ pages, pages_dense (pg_page_capacity p) pages → zlen (mjoin pages) + (n - zlen r) < 32768 * (pg_page_capacity p + 1) →
    zlen pages ≤ 65536) as Hcount.
  { intros pages Hpd Hpn. pose proof (pages_dense_count _ _ (proj1 Hcap) Hpd). nia. }
  set (has_room := match last (pg_pages p) with Some page => _ | None => false end).
  destruct has_room eqn:Hh; subst has_room; cbn [negb andb].
  - destruct (last (pg_pages p)) as [page|] eqn:Hl; [|done]. apply last_Some in Hl as [pre Hpre].
    apply andb_true_iff in Hh as [Hh1%Z.leb_le Hh2%Z.leb_le]. unfold saturating_sub in Hh2.
    rewrite Hpre in *. rewrite length_app. cbn [length]. replace (length pre + 1 - 1)%nat with (length pre) by lia.
    rewrite lookup_app_r, Nat.sub_diag by lia. cbn [lookup list_lookup from_option id].
    pose proof (Hcount (pre ++ [page]) Hd ltac:(lia)) as Hc. rewrite zlen_app in Hc. change (zlen [page]) with 1 in Hc.
    rewrite !fits_ok_le by (unfold zlen in *; lia). cbn [mbind result_bind]. eexists _, _. split; [done|].
    cbn [layout_room pg_page_capacity pg_pages]. rewrite insert_app_r_alt, Nat.sub_diag by lia. cbn [insert list_insert].
    split_and!; [lia|lia|by apply pages_dense_grow|]. rewrite !join_app, !zlen_app in *. cbn [mjoin list_join] in *.
    rewrite !app_nil_r, !zlen_app in *. lia.
  - assert (pages_dense (pg_page_capacity p) (pg_pages p ++ [r])) as Hd'.
    { apply pages_dense_snoc; [done|]. intros a Ha. rewrite Ha in Hh. apply andb_false_iff in Hh as [Hh%Z.leb_gt|Hh%Z.leb_gt];
        unfold saturating_sub in Hh; lia. }
    assert (zlen (mjoin (pg_pages p ++ [r])) = zlen (mjoin (pg_pages p)) + zlen r) as Htot.
    { rewrite join_app, zlen_app. cbn. by rewrite app_nil_r. }
    pose proof (Hcount _ Hd' ltac:(lia)) as Hc. rewrite zlen_app in Hc. change (zlen [r]) with 1 in Hc.
    unfold MAX_INTERNED_KEY_VALUE_PAGES. rewrite (proj2 (Z.eqb_neq _ _)) by lia. rewrite length_app. cbn [length].
    replace (length (pg_pages p) + 1 - 1)%nat with (length (pg_pages p)) by lia.
    rewrite lookup_app_r, Nat.sub_diag by lia. cbn [lookup list_lookup from_option id]. rewrite zlen_nil.
    rewrite !fits_ok_le by (unfold zlen in *; lia). cbn [mbind result_bind]. eexists _, _. split; [done|].
    cbn [layout_room pg_page_capacity pg_pages]. rewrite insert_app_r_alt, Nat.sub_diag by lia. cbn [insert list_insert app].
    split_and!; [lia|lia|done|]. rewrite Htot. lia.
Qed.
End storage_spec.

(** ** The store against a list of label sets *)

Definition symbol_at (symbols : list str) (id : Z) : str := default [] (symbols !! Z.to_nat id).
Definition pair_at (symbols : list str) (kv : InternedKeyValue) : str * str :=
  (symbol_at symbols (ik_key kv), symbol_at symbols (ik_value kv)).
Definition row_labels (symbols : list str) (r : row) : labelset := pair_at symbols <$> r.
Definition pair_valid (symbols : list str) (kv : InternedKeyValue) : Prop :=
  0 ≤ ik_key kv < zlen symbols ∧ 0 ≤ ik_value kv < zlen symbols.
Abbreviation row_valid symbols := (Forall (pair_valid symbols)).

Lemma symbol_at_prefix l l' id : l `prefix_of` l' → 0 ≤ id < zlen l → symbol_at l' id = symbol_at l id.
Proof.
  intros [k ->] Hid. unfold symbol_at, zlen in *. by rewrite lookup_app_l by lia.
Qed.
Lemma pair_valid_prefix l l' kv : l `prefix_of` l' → pair_valid l kv → pair_valid l' kv.
Proof. intros [k ->] [? ?]. unfold pair_valid. rewrite zlen_app. pose proof (zlen_nonneg k). lia. Qed.
Lemma row_labels_prefix l l' r : l `prefix_of` l' → row_valid l r → row_labels l' r = row_labels l r ∧ row_valid l' r.
Proof.
  intros Hp Hr. split; [|eapply Forall_impl; [exact Hr|]; intros kv; by apply pair_valid_prefix].
  unfold row_labels. apply list_fmap_ext. intros i kv Hi. destruct (proj1 (Forall_lookup _ _) Hr i kv Hi) as [? ?].
  unfold pair_at. by rewrite !(symbol_at_prefix l l').
Qed.
Lemma symbol_at_inj l a b : NoDup l → 0 ≤ a < zlen l → 0 ≤ b < zlen l → symbol_at l a = symbol_at l b → a = b.
Proof.
  unfold symbol_at, zlen. intros Hnd Ha Hb Heq.
  destruct (lookup_lt_is_Some_2 l (Z.to_nat a)) as [x Hx]; [lia|]. destruct (lookup_lt_is_Some_2 l (Z.to_nat b)) as [y Hy]; [lia|].
  rewrite Hx, Hy in Heq. cbn in Heq. subst y. pose proof (NoDup_lookup _ _ _ _ Hnd Hx Hy). lia.
Qed.
Lemma row_labels_inj l r r' : NoDup l → row_valid l r → row_valid l r' → row_labels l r = row_labels l r' → r = r'.
Proof.
  intros Hnd Hr. revert r'. induction Hr as [|kv r [Hk Hv] _ IH]; intros [|kv' r'] Hr' Heq; try done.
  apply Forall_cons_1 in Hr' as [[Hk' Hv'] Hr']. injection Heq as Hke Hve Heq. f_equal; [|by apply IH].
  apply symbol_at_inj in Hke; [|done..]. apply symbol_at_inj in Hve; [|done..]. destruct kv, kv'; cbn in *. congruence.
Qed.

Section flat_spec.
Context {S SE : Type} `{HSL : SymbolTableLaws S SE} `{HH : LabelSetHashers}.
Abbreviation store_error := (LabelSetStoreError SE).
Abbreviation Flat := (FlatStore S).

(** *** Encoding *)

Lemma interned_at l x i : NoDup l → 0 ≤ i → l !! Z.to_nat i = Some x → symbol_at l i = x ∧ 0 ≤ i < zlen l.
Proof. intros Hnd Hi Hl. unfold symbol_at. rewrite Hl. apply lookup_lt_Some in Hl. unfold zlen. split; [done|lia]. Qed.

(** One pair: the symbols it needs are in the table, or it fails for a new one. *)
Lemma intern_pair_spec symbols label : st_ok symbols → ∃ r symbols',
  intern_normalized_pair symbols label = Some (r, symbols') ∧ st_ok symbols' ∧ symbols_of symbols `prefix_of` symbols_of symbols' ∧
  match r with
  | Ok kv => pair_valid (symbols_of symbols') kv ∧ pair_at (symbols_of symbols') kv = normalize_label label
  | Err _ => ¬ (normalize_label_key label.1 ∈ symbols_of symbols ∧ normalize_label_value label.2 ∈ symbols_of symbols)
  end.
Proof.
  intros Hok. unfold intern_normalized_pair. destruct (st_intern_ok symbols (normalize_label_key label.1) Hok) as (r1 & s1 & -> & Hok1 & Hi1).
  cbn [mbind option_bind]. pose proof (interning_prefix _ _ _ _ Hi1) as Hp1. destruct r1 as [key|e]; cycle 1.
  { eexists _, s1. split_and!; [done|done|done|]. intros [Hin _]. unfold interning in Hi1.
    destruct (index_of _ _) eqn:Hidx; [by destruct Hi1|]. by apply not_interned in Hidx. }
  apply interning_ok in Hi1 as [Hk0 Hk]; [|by apply st_nodup]. apply interned_at in Hk as [Hk Hkr]; [|by apply st_nodup|done].
  destruct (st_intern_ok s1 (normalize_label_value label.2) Hok1) as (r2 & s2 & -> & Hok2 & Hi2). cbn [mbind option_bind].
  pose proof (interning_prefix _ _ _ _ Hi2) as Hp2. eexists _, s2. split; [done|]. split; [done|].
  split; [by etrans|]. destruct r2 as [value|e]; cycle 1.
  { intros [_ Hin]. unfold interning in Hi2. destruct (index_of _ _) eqn:Hidx; [by destruct Hi2|].
    apply not_interned in Hidx. apply Hidx. destruct Hp1 as [k ->]. apply elem_of_app. by left. }
  apply interning_ok in Hi2 as [Hv0 Hv]; [|by apply st_nodup]. apply interned_at in Hv as [Hv Hvr]; [|by apply st_nodup|done].
  assert (pair_valid (symbols_of s2) (mk_ikv key value)) as Hvalid.
  { split; cbn; [|done]. destruct Hp2 as [k ->]. rewrite zlen_app. pose proof (zlen_nonneg k). lia. }
  split; [done|]. unfold pair_at, normalize_label. cbn. by rewrite (symbol_at_prefix (symbols_of s1)), Hk, Hv.
Qed.

Definition known (symbols : list str) (p : str * str) : Prop := p.1 ∈ symbols ∧ p.2 ∈ symbols.
Lemma known_prefix l l' p : l `prefix_of` l' → known l p → known l' p.
Proof. intros [k ->] [? ?]. unfold known. rewrite !elem_of_app. tauto. Qed.

Definition encoded_ok (symbols0 symbols : list str) (labels : labelset) (acc : row) (r : result store_error row) : Prop :=
  symbols0 `prefix_of` symbols ∧
  match r with
  | Ok encoded => ∃ new, encoded = acc ++ new ∧ row_valid symbols new ∧ row_labels symbols new = normalize_labelset labels
  | Err _ => ¬ Forall (known symbols0) (normalize_labelset labels)
  end.

Lemma encoded_cons l0 l1 l2 label labels acc kv r :
  l0 `prefix_of` l1 → pair_valid l1 kv → pair_at l1 kv = normalize_label label →
  encoded_ok l1 l2 labels (acc ++ [kv]) r → encoded_ok l0 l2 (label :: labels) acc r.
Proof.
  intros Hp Hv Hkv [Hp' Hr]. split; [by etrans|]. destruct r as [encoded|e].
  - destruct Hr as (new & -> & Hnew & Hlab). exists (kv :: new). split; [by rewrite <- app_assoc|]. split.
    + constructor; [by eapply pair_valid_prefix|done].
    + cbn. f_equal; [|done]. rewrite <- Hkv. destruct Hv as [? ?]. unfold pair_at. by rewrite !(symbol_at_prefix l1 l2).
  - intros [_ Hall]%Forall_cons_1. apply Hr. eapply Forall_impl; [exact Hall|]. intros p. by apply known_prefix.
Qed.
(** It panics only on a label set that is not canonical. *)
Lemma encode_loop_spec symbols previous labels acc : st_ok symbols →
  match encode_loop symbols previous labels acc with
  | Some (r, symbols') => st_ok symbols' ∧ encoded_ok (symbols_of symbols) (symbols_of symbols') labels acc r
  | None => canonical_from previous labels = false
  end.
Proof.
  revert symbols previous acc. induction labels as [|label labels IH]; intros symbols previous acc Hok.
  - split; [done|]. split; [done|]. exists []. by rewrite app_nil_r.
  - cbn [encode_loop canonical_from]. destruct (key_follows previous label.1); [|done]. cbn [negb andb].
    destruct (intern_pair_spec symbols label Hok) as (r & s1 & -> & Hok1 & Hp1 & Hr). cbn [mbind option_bind].
    destruct r as [kv|e].
    + destruct Hr as [Hv Hkv]. specialize (IH s1 (Some label.1) (acc ++ [kv]) Hok1).
      destruct (encode_loop s1 _ labels _) as [[r s2]|]; [|done]. destruct IH as [Hok2 He].
      split; [done|]. by eapply encoded_cons.
    + split; [done|]. split; [done|]. intros [Hk _]%Forall_cons_1. by apply Hr.
Qed.

Lemma intern_pair_room symbols label rest : st_ok symbols → st_room symbols (label_strings [normalize_label label] ++ rest) →
  ∃ kv symbols', intern_normalized_pair symbols label = Some (Ok (E:=store_error) kv, symbols') ∧ st_ok symbols' ∧ st_room symbols' rest.
Proof.
  intros Hok Hroom. unfold intern_normalized_pair.
  change (normalize_label_key label.1) with (normalize_label label).1.
  change (normalize_label_value label.2) with (normalize_label label).2.
  destruct (st_room_step _ _ _ Hok Hroom) as (key & s1 & -> & Hok1 & Hroom1). cbn [mbind option_bind].
  destruct (st_room_step _ _ _ Hok1 Hroom1) as (value & s2 & -> & Hok2 & Hroom2). cbn [mbind option_bind].
  by eexists _, s2.
Qed.
Lemma encode_loop_room symbols previous labels acc rest : st_ok symbols → canonical_from previous labels = true →
  st_room symbols (label_strings (normalize_labelset labels) ++ rest) →
  ∃ encoded symbols', encode_loop symbols previous labels acc = Some (Ok encoded, symbols') ∧ st_room symbols' rest ∧
    zlen encoded = zlen acc + zlen labels.
Proof.
  revert symbols previous acc. induction labels as [|label labels IH]; intros symbols previous acc Hok Hcan Hroom.
  - exists acc, symbols. rewrite zlen_nil. split_and!; [done|done|lia].
  - cbn [encode_loop canonical_from] in *. apply andb_true_iff in Hcan as [-> Hcan]. cbn [negb].
    destruct (intern_pair_room symbols label _ Hok Hroom) as (kv & s1 & -> & Hok1 & Hroom1). cbn [mbind option_bind].
    destruct (IH s1 _ (acc ++ [kv]) Hok1 Hcan Hroom1) as (encoded & s2 & -> & Hroom2 & Hlen). exists encoded, s2.
    split; [done|]. split; [done|]. rewrite Hlen, zlen_app, (zlen_cons label). change (zlen [kv]) with 1. lia.
Qed.

(** *** The store's rows *)

Definition loc_row (kv : InternedKeyValueStorage) (loc : SeriesLoc) : row := default [] (storage_row kv loc).
Definition flat_rows (s : Flat) : list row := loc_row (fs_key_values s) <$> fs_series s.
Definition flat_labelsets (s : Flat) : list labelset := row_labels (symbols_of (fs_symbols s)) <$> flat_rows s.
Definition row_fingerprint (s : Flat) (r : row) : Z :=
  fingerprint (fs_labelset_hash s) (row_labels (symbols_of (fs_symbols s)) r) r.

Record flat_ok (s : Flat) : Prop := {
  fo_symbols : st_ok (fs_symbols s);
  fo_series : Forall (λ loc, loc_valid loc ∧ storage_row (fs_key_values s) loc = Some (loc_row (fs_key_values s) loc)) (fs_series s);
  fo_valid : Forall (row_valid (symbols_of (fs_symbols s))) (flat_rows s);
  fo_nodup : NoDup (flat_rows s);
  fo_chains : chains_ok (row_fingerprint s) (fs_chains s) (flat_rows s);
}.

Lemma chains_ok_ext {A} (f g : A → Z) c (l : list A) : (∀ x, x ∈ l → f x = g x) → chains_ok f c l → chains_ok g c l.
Proof.
  intros Hfg [Hr Hv Hf]. split; [|done|done]. intros i x Hi. rewrite <- Hfg by (by eapply list_elem_of_lookup_2). by apply Hr.
Qed.

Lemma flat_new_ok kv mode symbols cache_id : st_ok symbols → flat_ok (flat_new kv mode symbols cache_id).
Proof. intros Hs. split; [done|by apply Forall_nil|by apply Forall_nil|apply NoDup_nil_2|apply no_chains_ok]. Qed.

(** A symbol table that grew. *)
Lemma with_symbols_ok s symbols : flat_ok s → st_ok symbols → symbols_of (fs_symbols s) `prefix_of` symbols_of symbols →
  flat_ok (with_symbols s symbols) ∧ flat_labelsets (with_symbols s symbols) = flat_labelsets s.
Proof.
  intros [Hsy Hse Hva Hnd Hch] Hok Hp.
  assert (∀ r, r ∈ flat_rows s → row_labels (symbols_of symbols) r = row_labels (symbols_of (fs_symbols s)) r ∧
    row_valid (symbols_of symbols) r) as Hrow.
  { intros r Hr. apply row_labels_prefix; [done|]. by apply (proj1 (Forall_forall _ _) Hva). }
  split; [split|].
  - done.
  - done.
  - apply Forall_forall. intros r Hr. by apply Hrow.
  - done.
  - eapply chains_ok_ext; [|exact Hch]. intros r Hr. unfold row_fingerprint. cbn. by rewrite (proj1 (Hrow r Hr)).
  - unfold flat_labelsets. apply list_fmap_ext. intros i r Hi%list_elem_of_lookup_2. by apply Hrow.
Qed.

Lemma flat_find s encoded : flat_ok s → ∃ n,
  find_existing s encoded (row_fingerprint s encoded) = Some (index_of encoded (flat_rows s), n).
Proof.
  intros [Hsy Hse Hva Hnd Hch]. unfold find_existing.
  destruct (chain_find (row_fingerprint s) (fs_chains s) (flat_rows s) encoded (row_same s encoded) 0 Hch Hnd) as (n & Hn & _);
    [|by exists (0 + n)].
  intros id Hid. unfold row_same, series_slice, flat_rows in *. rewrite list_lookup_fmap.
  destruct (lookup_lt_is_Some_2 (fs_series s) (Z.to_nat id)) as [loc Hloc].
  { unfold zlen in Hid. rewrite length_fmap in Hid. lia. }
  rewrite Hloc. cbn. destruct (proj1 (Forall_lookup _ _) Hse _ _ Hloc) as [_ ->]. cbn. f_equal.
  apply bool_decide_ext. naive_solver.
Qed.

(** A row is found, appended, or refused. *)
Lemma intern_encoded_spec s encoded : flat_ok s → row_valid (symbols_of (fs_symbols s)) encoded →
  zlen (fs_series s) ≤ u32_max →
  ∃ (r : result store_error Z) s', intern_encoded s encoded (row_fingerprint s encoded) = Some (r, s') ∧ flat_ok s' ∧
    fs_symbols s' = fs_symbols s ∧ fs_prepared_cache_id s' = fs_prepared_cache_id s ∧
    interning (flat_rows s) encoded r (flat_rows s').
Proof.
  intros Hok Hv Hlen. destruct (flat_find s encoded Hok) as (n & Hn). unfold intern_encoded.
  set (h := row_fingerprint s encoded) in *. destruct s as [ch symbols series kv mode stats cache_id]. rewrite Hn.
  cbn [mbind option_bind]. unfold interning. set (s := mk_flat ch symbols series kv mode stats cache_id) in *.
  destruct Hok as [Hsy Hse Hva Hnd Hch]. cbn [fs_symbols fs_series fs_key_values fs_chains s] in *.
  destruct (index_of encoded (flat_rows s)) as [i|] eqn:Hi.
  { eexists _, _. split; [done|]. split; [by split|]. done. }
  destruct (append_row kv encoded) as [loc kv'] eqn:Ha. destruct (append_row_spec kv encoded loc kv' Ha) as [Hkeep Hnew].
  assert (∀ x, x ∈ series → loc_valid x ∧ storage_row kv' x = Some (loc_row kv' x) ∧ loc_row kv' x = loc_row kv x) as Hold.
  { intros x Hx. destruct (proj1 (Forall_forall _ _) Hse x Hx) as [Hval Hrow]. split; [done|].
    apply Hkeep in Hrow; [|done]. unfold loc_row at 1 2. rewrite Hrow. done. }
  assert (loc_row kv' <$> series = loc_row kv <$> series) as Hmap.
  { apply list_fmap_ext. intros j x Hx%list_elem_of_lookup_2. by apply Hold. }
  destruct loc as [loc|e]; cycle 1.
  { eexists _, _. split; [done|]. split.
    - split; [done| |..].
      + apply Forall_forall. intros x Hx. destruct (Hold x Hx) as (? & ? & _). done.
      + unfold flat_rows. cbn. rewrite Hmap. exact Hva.
      + unfold flat_rows. cbn. rewrite Hmap. exact Hnd.
      + unfold flat_rows. cbn. rewrite Hmap. exact Hch.
    - split_and!; [done|done|]. right. split; [by eexists|]. unfold flat_rows. cbn. exact Hmap. }
  destruct (Hnew loc eq_refl) as [Hlv Hlr]. assert (loc_row kv' loc = encoded) as Hlrow by (unfold loc_row; by rewrite Hlr).
  assert (zlen series `mod` 4294967296 = zlen (flat_rows s)) as Hid.
  { change (flat_rows s) with (loc_row kv <$> series). unfold zlen in *. rewrite length_fmap. apply Z.mod_small. lia. }
  eexists _, _. split; [done|]. rewrite Hid.
  match goal with |- flat_ok ?x ∧ _ => set (s' := x) end.
  assert (flat_rows s' = flat_rows s ++ [encoded]) as Hrows.
  { unfold flat_rows, s'. cbn. by rewrite fmap_app, Hmap, list_fmap_singleton, Hlrow. }
  split; [|split_and!; [done|done|left; by rewrite Hrows]]. split.
  - done.
  - cbn. apply Forall_app. split; [|apply Forall_singleton; split; [done|by rewrite Hlrow]].
    apply Forall_forall. intros x Hx. destruct (Hold x Hx) as (? & ? & _). done.
  - rewrite Hrows. apply Forall_app. split; [exact Hva|by apply Forall_singleton].
  - rewrite Hrows. apply NoDup_app. split_and!; [done| |apply NoDup_singleton].
    intros x Hx ->%list_elem_of_singleton. by apply not_interned in Hi.
  - rewrite Hrows. cbn [s' fs_chains]. by apply (chain_insert_ok (row_fingerprint s)).
Qed.

(** *** The contract *)

Lemma flat_labelsets_nodup s : flat_ok s → NoDup (flat_labelsets s).
Proof.
  intros [Hsy _ Hva Hnd _]. unfold flat_labelsets. apply NoDup_fmap_2_strong; [|done]. intros x y Hx Hy.
  apply row_labels_inj; [by apply st_nodup|by apply (proj1 (Forall_forall _ _) Hva)..].
Qed.

(** Interning a row is interning its label set. *)
Lemma interning_labels s encoded (r : result store_error Z) s' : flat_ok s → fs_symbols s' = fs_symbols s →
  row_valid (symbols_of (fs_symbols s)) encoded → interning (flat_rows s) encoded r (flat_rows s') →
  interning (flat_labelsets s) (row_labels (symbols_of (fs_symbols s)) encoded) r (flat_labelsets s').
Proof.
  intros Hok Heq Hv Hi. unfold flat_labelsets. rewrite Heq. apply interning_fmap; [|done]. intros y Hy.
  apply row_labels_inj; [by apply st_nodup, Hok|by apply (proj1 (Forall_forall _ _) (fo_valid _ Hok))|done].
Qed.
(** A label set the store has is known to its symbols. *)
Lemma pair_known symbols kv : pair_valid symbols kv → known symbols (pair_at symbols kv).
Proof.
  assert (∀ id, 0 ≤ id < zlen symbols → symbol_at symbols id ∈ symbols) as Hin.
  { intros id Hid. destruct (lookup_lt_is_Some_2 symbols (Z.to_nat id)) as [y Hy]; [unfold zlen in Hid; lia|].
    unfold symbol_at. rewrite Hy. by eapply list_elem_of_lookup_2. }
  intros [Hk Hv]. by split; apply Hin.
Qed.
Lemma labelset_known s x : flat_ok s → x ∈ flat_labelsets s → Forall (known (symbols_of (fs_symbols s))) x.
Proof.
  intros Hok (r & -> & Hr)%list_elem_of_fmap. apply (proj1 (Forall_forall _ _) (fo_valid _ Hok)) in Hr.
  apply Forall_fmap. eapply Forall_impl; [exact Hr|]. apply pair_known.
Qed.
(** Visiting a row resolves its pairs. *)
Lemma resolve_row_labels symbols r : st_ok symbols → row_valid (symbols_of symbols) r →
  mapM (resolve_pair symbols) r = Some (row_labels (symbols_of symbols) r).
Proof.
  intros Hok Hv. assert (∀ id, 0 ≤ id < zlen (symbols_of symbols) → st_resolve symbols id = Some (symbol_at (symbols_of symbols) id)) as Hres.
  { intros id Hid. rewrite st_resolve_ok by (done || lia). unfold symbol_at.
    destruct (lookup_lt_is_Some_2 (symbols_of symbols) (Z.to_nat id)) as [y Hy]; [unfold zlen in Hid; lia|]. by rewrite Hy. }
  apply mapM_Some. unfold row_labels. apply Forall2_fmap_r, Forall_Forall2_diag. eapply Forall_impl; [exact Hv|].
  intros kv [Hk Hkv]. unfold resolve_pair. by rewrite !Hres.
Qed.

(** It panics only on a label set that is not canonical. *)
Lemma flat_intern_ok s labels : flat_ok s → zlen (fs_series s) ≤ u32_max →
  match flat_intern_iter s labels with
  | Some (r, s') =>
      flat_ok s' ∧ fs_prepared_cache_id s' = fs_prepared_cache_id s ∧
      symbols_of (fs_symbols s) `prefix_of` symbols_of (fs_symbols s') ∧
      interning (flat_labelsets s) (normalize_labelset labels) r (flat_labelsets s')
  | None => is_canonical labels = false
  end.
Proof.
  intros Hok Hlen. pose proof (encode_loop_spec (fs_symbols s) None labels [] (fo_symbols _ Hok)) as He.
  unfold flat_intern_iter. rewrite <- canonical_from_none.
  destruct (encode_loop (fs_symbols s) None labels []) as [[r symbols]|]; cbn [mbind option_bind]; [|done].
  destruct He as (Hsok & Hp & Hr). destruct (with_symbols_ok s symbols Hok Hsok Hp) as [Hok' Hls].
  destruct r as [encoded|e]; cycle 1.
  { split_and!; [done|done|done|]. rewrite Hls. unfold interning.
    destruct (index_of _ _) as [i|] eqn:Hi; [|right; split; [by eexists|done]].
    apply index_of_at in Hi as [_ Hi]; [|by apply flat_labelsets_nodup]. apply list_elem_of_lookup_2 in Hi.
    by destruct Hr; apply labelset_known. }
  destruct Hr as (new & -> & Hv & Hlab). cbn [app].
  rewrite <- Hlab.
  change (fingerprint (fs_labelset_hash (with_symbols s symbols)) (row_labels (symbols_of symbols) new) new) with
    (row_fingerprint (with_symbols s symbols) new).
  destruct (intern_encoded_spec (with_symbols s symbols) new Hok' Hv Hlen) as (r & s' & -> & Hok2 & Hsy & Hc & Hint).
  split; [done|]. split; [done|]. split; [by rewrite Hsy|].
  apply (interning_labels (with_symbols s symbols)) in Hint; [|done..]. by rewrite Hls in Hint.
Qed.
Lemma flat_intern_canonical s labels : flat_ok s → zlen (fs_series s) ≤ u32_max → is_canonical labels = true →
  ∃ (r : result store_error Z) s', flat_intern_iter s labels = Some (r, s') ∧ flat_ok s' ∧
  fs_prepared_cache_id s' = fs_prepared_cache_id s ∧ symbols_of (fs_symbols s) `prefix_of` symbols_of (fs_symbols s') ∧
  interning (flat_labelsets s) (normalize_labelset labels) r (flat_labelsets s').
Proof.
  intros Hok Hlen Hcan. pose proof (flat_intern_ok s labels Hok Hlen) as Hi. rewrite Hcan in Hi.
  destruct (flat_intern_iter s labels) as [[r s']|]; [|done]. by exists r, s'.
Qed.

(** While the symbols and the rows fit, nothing is refused. *)
Definition flat_room (s : Flat) (xs : list labelset) : Prop :=
  st_room (fs_symbols s) (session_strings xs) ∧ layout_room (fs_key_values s) (zlen (mjoin xs)).

Lemma flat_intern_room s labels xs : flat_ok s → is_canonical labels = true → flat_room s (labels :: xs) →
  ∃ a s', flat_intern_iter s labels = Some (Ok (E:=store_error) a, s') ∧ flat_room s' xs.
Proof.
  intros Hok Hcan [Hsy Hkv]. rewrite <- canonical_from_none in Hcan. change (mjoin (labels :: xs)) with (labels ++ mjoin xs) in Hkv.
  rewrite zlen_app in Hkv. pose proof (zlen_nonneg (mjoin xs)).
  destruct (encode_loop_room (fs_symbols s) None labels [] (session_strings xs) (fo_symbols _ Hok) Hcan Hsy) as (encoded & symbols & He & Hroom & Hlen).
  pose proof (encode_loop_spec (fs_symbols s) None labels [] (fo_symbols _ Hok)) as Hs. rewrite He in Hs.
  destruct Hs as (Hsok & Hp & new & Hnew & Hv & Hlab). cbn [app] in Hnew. subst new.
  unfold flat_intern_iter. rewrite He. cbn [mbind option_bind]. rewrite <- Hlab. destruct (with_symbols_ok s symbols Hok Hsok Hp) as [Hok' _].
  change (fingerprint (fs_labelset_hash (with_symbols s symbols)) (row_labels (symbols_of symbols) encoded) encoded) with
    (row_fingerprint (with_symbols s symbols) encoded).
  destruct (flat_find (with_symbols s symbols) encoded Hok') as (n & Hn). unfold intern_encoded.
  change (with_symbols s symbols) with (mk_flat (fs_chains s) symbols (fs_series s) (fs_key_values s) (fs_labelset_hash s) (fs_stats s) (fs_prepared_cache_id s)) in *.
  rewrite Hn. cbn [mbind option_bind]. rewrite zlen_nil in Hlen. destruct (index_of encoded _) as [i|].
  { eexists _, _. split; [done|]. split; [done|]. cbn. eapply layout_room_le; [|exact Hkv]. pose proof (zlen_nonneg labels). lia. }
  destruct (append_row_room (SE:=SE) (fs_key_values s) encoded (zlen labels + zlen (mjoin xs)) Hkv ltac:(lia)) as (loc & kv & -> & Hkv').
  eexists _, _. split; [done|]. split; [done|]. cbn. by replace (zlen (mjoin xs)) with (zlen labels + zlen (mjoin xs) - zlen encoded) by lia.
Qed.

Lemma visit_ok s i : flat_ok s → 0 ≤ i → visit_labelset s i = flat_labelsets s !! Z.to_nat i.
Proof.
  intros Hok Hi. unfold visit_labelset, series_slice, flat_labelsets, flat_rows. rewrite !list_lookup_fmap.
  destruct (fs_series s !! Z.to_nat i) as [loc|] eqn:Hloc; [|done]. cbn.
  destruct (proj1 (Forall_lookup _ _) (fo_series _ Hok) _ _ Hloc) as [_ Hrow]. rewrite Hrow. cbn.
  assert (row_valid (symbols_of (fs_symbols s)) (loc_row (fs_key_values s) loc)) as Hv.
  { apply (proj1 (Forall_forall _ _) (fo_valid _ Hok)). unfold flat_rows. apply list_elem_of_fmap_2.
    by eapply list_elem_of_lookup_2. }
  by apply resolve_row_labels; [apply Hok|].
Qed.

#[export] Instance flat_store_laws : LabelSetStoreLaws Flat store_error.
Proof.
  refine {| ls_ok := flat_ok; labelsets_of := flat_labelsets; ls_room := flat_room |}.
  - apply flat_labelsets_nodup.
  - intros s _. cbn. unfold flat_labelsets, flat_rows, zlen. by rewrite !length_fmap.
  - apply visit_ok.
  - intros s labels Hok Hlen Hcan. destruct (flat_intern_canonical s labels Hok) as (r & s' & Hi & Hok' & _ & _ & Hint); [|done|by exists r, s'].
    unfold flat_labelsets, flat_rows, zlen in *. by rewrite !length_fmap in Hlen.
  - intros s labels xs Hok _. by apply flat_intern_room.
Defined.

(** *** The symbol cells of a plan *)

Section plan.
Context (metric : str) (labels : list TmpLabel) (scratch : list str).

(** The label a cell stands for. *)
Definition plan_pair (cache : PreparedSymbolCache) : option (str * str) :=
  match cache with
  | CacheNone => None
  | CacheResource index => tmp_pair scratch <$> labels !! index
  | CacheMetric => Some (METRIC_NAME_LABEL, metric)
  end.
(** A cell written by this store holds the symbols of its label. *)
Definition cell_valid (cache_id : Z) (symbols : list str) (p : str * str) (cell : option PreparedInternedKeyValue) : Prop :=
  ∀ v, cell = Some v → pk_cache_id v = cache_id →
    pair_valid symbols (pk_interned v) ∧ pair_at symbols (pk_interned v) = normalize_label p.
Definition cells_valid (cache_id : Z) (symbols : list str) (cells : PlanCells) : Prop :=
  ∀ cache p, plan_pair cache = Some p → ∃ cell, get_cell cells cache = Some cell ∧ cell_valid cache_id symbols p cell.

Lemma cell_valid_prefix cache_id l l' p cell : l `prefix_of` l' → cell_valid cache_id l p cell → cell_valid cache_id l' p cell.
Proof.
  intros Hp Hc v Hv Hid. destruct (Hc v Hv Hid) as [Hval Hat]. split; [by eapply pair_valid_prefix|].
  destruct Hval as [? ?]. rewrite <- Hat. unfold pair_at. by rewrite !(symbol_at_prefix l l').
Qed.
Lemma set_cell_valid cache_id symbols cells cache p v :
  (∀ q, plan_pair cache = Some q → q = p) → cell_valid cache_id symbols p (Some v) → cells_valid cache_id symbols cells →
  cells_valid cache_id symbols (set_cell cells cache v).
Proof.
  intros Hp Hv Hc cache' q Hq. destruct (Hc cache' q Hq) as (cell & Hg & Hcell).
  destruct cache as [|i|], cache' as [|j|]; cbn in *; try done; try (by exists cell).
  - destruct (decide (i = j)) as [<-|Hne].
    + exists (Some v). split; [apply list_lookup_insert_eq; by eapply lookup_lt_Some|]. by rewrite (Hp q Hq).
    + exists cell. split; [by rewrite list_lookup_insert_ne|done].
  - exists (Some v). split; [done|]. by rewrite (Hp q Hq).
Qed.

(** Fresh cells. *)
Lemma no_cells_valid cache_id symbols : cells_valid cache_id symbols (mk_cells (replicate (length labels) None) None).
Proof.
  intros [|i|] p Hp; [done|..]; exists None; (split; [|by intros v]); [|done]. cbn in *.
  apply lookup_replicate_2. destruct (labels !! i) eqn:Hi; [by eapply lookup_lt_Some|done].
Qed.

(** Known symbols are interned without a change. *)
Lemma intern_pair_known symbols p kv : st_ok symbols → pair_valid (symbols_of symbols) kv →
  pair_at (symbols_of symbols) kv = normalize_label p → intern_normalized_pair symbols p = Some (Ok kv, symbols).
Proof.
  intros Hok [Hk Hv] [= Hkey Hval].
  assert (∀ id, 0 ≤ id < zlen (symbols_of symbols) →
    st_intern symbols (symbol_at (symbols_of symbols) id) = Some (Ok id, symbols)) as Hin.
  { intros id Hid. apply st_intern_known; [done|]. apply index_of_at; [by apply st_nodup|]. split; [lia|]. unfold symbol_at.
    destruct (lookup_lt_is_Some_2 (symbols_of symbols) (Z.to_nat id)) as [y Hy]; [unfold zlen in Hid; lia|]. by rewrite Hy. }
  unfold intern_normalized_pair. rewrite <- Hkey, (Hin _ Hk). cbn [mbind option_bind]. rewrite <- Hval, (Hin _ Hv).
  cbn. by destruct kv.
Qed.

Lemma encode_prepared_spec cache_id symbols cells previous parts acc :
  st_ok symbols → cells_valid cache_id (symbols_of symbols) cells → Forall (cell_ok metric labels scratch) parts →
  canonical_from previous parts.*1 = true →
  ∃ (r : result store_error row) symbols' cells',
    encode_prepared_loop cache_id symbols cells previous parts acc = Some (r, symbols', cells') ∧
    encode_loop symbols previous parts.*1 acc = Some (r, symbols') ∧ cells_valid cache_id (symbols_of symbols') cells'.
Proof.
  intros Hok Hc Hp. revert symbols cells previous acc Hok Hc.
  induction Hp as [|[p cache] parts Hcell _ IH]; intros symbols cells previous acc Hok Hc Hcan.
  { by exists (Ok acc), symbols, cells. }
  cbn [fmap list_fmap fst canonical_from] in Hcan. apply andb_true_iff in Hcan as [Hprev Hcan].
  assert (∀ q, plan_pair cache = Some q → q = p) as Hplan.
  { intros q Hq. destruct cache as [|i|]; cbn in Hcell, Hq; [done| |congruence].
    destruct Hcell as (l & Hl & <-). rewrite Hl in Hq. by injection Hq. }
  assert (∃ cell, get_cell cells cache = Some cell ∧ cell_valid cache_id (symbols_of symbols) p cell) as (cell & Hg & Hval).
  { destruct (plan_pair cache) as [q|] eqn:Hq; [pose proof (Hplan q eq_refl) as ->; by apply Hc|].
    destruct cache as [|i|]; [exists None; split; [done|by intros v]| |done].
    cbn in Hcell, Hq. destruct Hcell as (l & Hl & _). by rewrite Hl in Hq. }
  cbn [encode_prepared_loop fmap list_fmap encode_loop fst]. rewrite Hprev. cbn [negb]. rewrite Hg. cbn [mbind option_bind].
  assert (∀ (r : result store_error InternedKeyValue) s1, intern_normalized_pair symbols p = Some (r, s1) →
    st_ok s1 → symbols_of symbols `prefix_of` symbols_of s1 →
    (∀ kv, r = Ok kv → pair_valid (symbols_of s1) kv ∧ pair_at (symbols_of s1) kv = normalize_label p) →
    ∃ (r' : result store_error row) symbols' cells',
      match r with
      | Ok kv => encode_prepared_loop cache_id s1 (set_cell cells cache (mk_pikv cache_id kv)) (Some p.1) parts (acc ++ [kv])
      | Err e => Some (Err e, s1, cells)
      end = Some (r', symbols', cells') ∧
      match r with Ok kv => encode_loop s1 (Some p.1) parts.*1 (acc ++ [kv]) | Err e => Some (Err e, s1) end = Some (r', symbols') ∧
      cells_valid cache_id (symbols_of symbols') cells') as Hintern.
  { intros r s1 _ Hok1 Hpre Hr. assert (cells_valid cache_id (symbols_of s1) cells) as Hc1.
    { intros cache' q Hq. destruct (Hc cache' q Hq) as (cell' & ? & ?). exists cell'. split; [done|by eapply cell_valid_prefix]. }
    destruct r as [kv|e]; [|by exists (Err e), s1, cells]. destruct (Hr kv eq_refl) as [Hkv1 Hkv2]. apply IH; [done| |done].
    apply (set_cell_valid _ _ _ _ p); [done| |done]. by intros v [= <-] _. }
  destruct (intern_pair_spec symbols p Hok) as (r & s1 & Hi & Hok1 & Hpre & Hr).
  destruct cell as [v|]; cbn [mbind option_bind]; [destruct (Z.eqb_spec (pk_cache_id v) cache_id) as [Hid|_]|].
  - destruct (Hval v eq_refl Hid) as [Hv1 Hv2]. rewrite (intern_pair_known symbols p (pk_interned v)) by done.
    cbn [mbind option_bind]. by apply IH.
  - rewrite Hi. cbn [mbind option_bind]. apply Hintern; [done|done|done|]. by intros kv ->.
  - rewrite Hi. cbn [mbind option_bind]. apply Hintern; [done|done|done|]. by intros kv ->.
Qed.
End plan.

Lemma intern_encoded_frame (s : Flat) encoded h (r : result store_error Z) (s' : Flat) : intern_encoded s encoded h = Some (r, s') →
  fs_symbols s' = fs_symbols s ∧ fs_prepared_cache_id s' = fs_prepared_cache_id s.
Proof.
  unfold intern_encoded. destruct s. intros ([existing checks] & _ & Hs)%bind_Some.
  repeat case_match; by injection Hs as _ <-.
Qed.
Lemma cells_valid_prefix metric labels scratch cache_id l l' cells : l `prefix_of` l' →
  cells_valid metric labels scratch cache_id l cells → cells_valid metric labels scratch cache_id l' cells.
Proof.
  intros Hp Hc cache p Hq. destruct (Hc cache p Hq) as (cell & ? & ?). exists cell. split; [done|by eapply cell_valid_prefix].
Qed.

(** C24: symbol cells change nothing.  Interning a data point through its
    resource's prepared labels and their symbol cells gives the same result and the
    same store as interning the label set of one sort of all its attributes, as long
    as the cells this store wrote are its own; and they stay so, however the store
    grows between data points. *)
Theorem prepared_cells_agree {I E} `{OtlpLabelSetInterner I E} resource metric datapoint (i : I) (s : Flat) cells :
  let plan := prepare_resource resource in
  let valid (s : Flat) cells := cells_valid metric (pr_labels plan) (pr_scratch_values plan)
    (fs_prepared_cache_id s) (symbols_of (fs_symbols s)) cells in
  flat_ok s → zlen (fs_series s) ≤ u32_max → valid s cells → zlen resource + zlen datapoint ≤ usize_max →
  ∃ c d i' ps (r : result store_error Z) s' cells',
    build_prepared_canonical_labelset plan metric datapoint i = Some (c, i') ∧
    build_canonical_labelset resource metric datapoint i = (d, i') ∧ canonical_iter d = Some ps ∧
    intern_prepared_otlp s cells c = Some (r, s', cells') ∧ ls_intern s ps = Some (r, s') ∧ valid s' cells' ∧
    ∀ labels (r' : result store_error Z) s'', ls_intern s' labels = Some (r', s'') → zlen (fs_series s') ≤ u32_max → valid s'' cells'.
Proof.
  intros plan valid Hok Hlen Hcells Hn.
  destruct (build_both resource metric datapoint i Hn) as (c & d & i' & ps & parts & Hp & Hb & Hc & Hd & Hsort & Hparts & Hps & Hcell).
  apply canonical_sorted in Hsort as Hcan. assert (canonical_from None parts.*1 = true) as Hcan' by (by rewrite Hps, canonical_from_none).
  destruct (encode_prepared_spec metric (pr_labels plan) (pr_scratch_values plan) (fs_prepared_cache_id s) (fs_symbols s) cells
    None parts [] (fo_symbols _ Hok) Hcells Hcell Hcan') as (er & symbols' & cells' & He1 & He2 & Hv).
  destruct (flat_intern_canonical s ps Hok Hlen Hcan) as (r & s' & Hi & Hok' & Hid & Hpre & _).
  assert (intern_prepared_otlp s cells c = Some (r, s', cells') ∧ fs_symbols s' = symbols') as [Hpi Hsym].
  { unfold intern_prepared_otlp, flat_intern_iter in *. rewrite Hparts. cbn [mbind option_bind] in *. rewrite He1.
    rewrite <- Hps, He2 in Hi. cbn [mbind option_bind] in *. destruct er as [encoded|e]; [|by injection Hi as <- <-].
    rewrite Hi. cbn [mbind option_bind]. split; [done|]. by apply intern_encoded_frame in Hi as [-> _]. }
  exists c, d, i', ps, r, s', cells'. split_and!; [done..| |].
  - unfold valid. by rewrite Hid, Hsym.
  - intros labels' r' s'' Hi' Hlen'. pose proof (flat_intern_ok s' labels' Hok' Hlen') as Hi2.
    cbn in Hi'. rewrite Hi' in Hi2. destruct Hi2 as (_ & Hid2 & Hpre2 & _). unfold valid. rewrite Hid2.
    eapply cells_valid_prefix; [exact Hpre2|]. by rewrite Hid, Hsym.
Qed.
End flat_spec.

(** ** Sessions *)

Section sessions.
Context {L E : Type} `{HL : LabelSetStoreLaws L E}.

Fixpoint intern_all (s : L) (xs : list labelset) : option (list (result E Z) * L) :=
  match xs with
  | [] => Some ([], s)
  | x :: xs =>
      '(r, s) ← ls_intern s x;
      '(rs, s) ← intern_all s xs;
      Some (r :: rs, s)
  end.

Fixpoint internings (l : list labelset) (xs : list labelset) (rs : list (result E Z)) (l' : list labelset) : Prop :=
  match xs, rs with
  | [], [] => l' = l
  | x :: xs, r :: rs => ∃ k, interning l (normalize_labelset x) r k ∧ internings k xs rs l'
  | _, _ => False
  end.

Lemma intern_all_spec xs : ∀ s, ls_ok s → zlen (labelsets_of s) + zlen xs ≤ u32_max + 1 →
  Forall (λ x, is_canonical x = true) xs →
  ∃ rs s', intern_all s xs = Some (rs, s') ∧ ls_ok s' ∧ internings (labelsets_of s) xs rs (labelsets_of s') ∧
    (ls_room s xs → Forall (λ r, ∃ a, r = Ok a) rs).
Proof.
  induction xs as [|x xs IH]; intros s Hok Hlen Hcan; [by exists [], s|].
  rewrite zlen_cons in Hlen. pose proof (zlen_nonneg xs). apply Forall_cons_1 in Hcan as [Hx Hcan].
  destruct (ls_intern_ok s x Hok) as (r & s1 & Hi & Hok1 & Hint); [lia|done|].
  assert (zlen (labelsets_of s1) ≤ zlen (labelsets_of s) + 1) as Hlen1 by (by eapply interning_grows).
  destruct (IH s1 Hok1) as (rs & s' & Hall & Hok' & Hints & Hroom); [lia|done|].
  exists (r :: rs), s'. cbn. rewrite Hi. cbn. rewrite Hall. cbn. split_and!; [done|done|by eexists|].
  intros Hr. destruct (ls_room_ok s x xs Hok) as (a & s2 & Hi2 & Hr2); [lia|done|done|]. rewrite Hi in Hi2. injection Hi2 as -> ->.
  apply Forall_cons_2; [by exists a|by apply Hroom].
Qed.

Lemma internings_spec xs : ∀ l rs l', internings l xs rs l' → NoDup l →
  NoDup l' ∧ l `prefix_of` l' ∧ length rs = length xs ∧
  (∀ i x a, xs !! i = Some x → rs !! i = Some (Ok a) → 0 ≤ a ∧ l' !! Z.to_nat a = Some (normalize_labelset x)) ∧
  (∀ i x a, xs !! i = Some x → l !! a = Some (normalize_labelset x) → rs !! i = Some (Ok (Z.of_nat a))) ∧
  (∀ i j x y a, (i < j)%nat → xs !! i = Some x → xs !! j = Some y → normalize_labelset x = normalize_labelset y →
     rs !! i = Some (Ok a) → rs !! j = Some (Ok a)) ∧
  (∀ a, (length l ≤ a < length l')%nat → ∃ i, rs !! i = Some (Ok (Z.of_nat a))).
Proof.
  induction xs as [|x xs IH]; intros l [|r rs] l' Hints Hnd; try done.
  { cbn in Hints. subst l'. split_and!; [done|done|done|done|done|done|]. intros a Ha. lia. }
  destruct Hints as (k & Hint & Hints). pose proof (interning_nodup _ _ _ _ Hint Hnd) as Hnk.
  pose proof (interning_prefix _ _ _ _ Hint) as Hpk.
  destruct (IH k rs l' Hints Hnk) as (Hnd' & Hp & Hlen & Hok & Hold & Hsame & Hnew). split_and!; [done|by etrans|cbn; lia|..].
  - intros [|i] y a Hy Ha; [|by apply (Hok i)]. cbn in Hy, Ha. injection Hy as <-. injection Ha as ->.
    apply interning_ok in Hint as [Ha Hl]; [|done]. split; [done|]. by eapply prefix_lookup_Some.
  - intros [|i] y a Hy Ha; [|apply (Hold i y); [done|by eapply prefix_lookup_Some]]. cbn in Hy. injection Hy as <-.
    unfold interning in Hint. rewrite (proj2 (index_of_at _ _ (Z.of_nat a) Hnd)) in Hint; [by destruct Hint as [-> _]|].
    split; [lia|]. by rewrite Nat2Z.id.
  - intros [|i] [|j] y z a Hij Hy Hz Heq Ha; try lia; [|by apply (Hsame i j y z a); [lia|..]].
    cbn in Hy, Ha. injection Hy as <-. injection Ha as ->. apply interning_ok in Hint as [Ha0 Hl]; [|done].
    rewrite Heq in Hl. change (rs !! j = Some (Ok a)). rewrite (Hold j z (Z.to_nat a)) by done. by rewrite Z2Nat.id.
  - intros a Ha. destruct (decide (length k ≤ a)%nat) as [Hka|Hka].
    + destruct (Hnew a) as [i Hi]; [lia|]. by exists (S i).
    + exists 0%nat. unfold interning in Hint. destruct (index_of _ _); [destruct Hint as [_ ->]; lia|].
      destruct Hint as [[-> ->]|[_ ->]]; [|lia]. rewrite length_app in Hka. cbn in Hka |- *. do 2 f_equal. unfold zlen. lia.
Qed.
End sessions.

(** C7: the store is an interner.  A fresh store, with either buffer layout, any
    fingerprint and any symbol table that keeps its contract, takes any canonical
    label sets without a panic and answers as the list of distinct normal forms
    does: a label set whose normal form it has gets the reference of that, and
    another gets the next number or is refused, which changes nothing.  None is
    refused while the symbol table has room for their strings and the buffer for
    their pairs.  An accepted label set gets a reference that reads back as its
    normal form, two accepted label sets share a reference exactly when they have
    the same normal form, a label set accepted once is never refused later, and the
    references are the numbers below the store's length. *)
Theorem flat_store_refines {S SE} `{SymbolTableLaws S SE} `{LabelSetHashers} kv mode (symbols : S) cache_id xs :
  st_ok symbols → zlen xs ≤ u32_max → Forall (λ x, is_canonical x = true) xs →
  ∃ (rs : list (result (LabelSetStoreError SE) Z)) s,
    intern_all (flat_new kv mode symbols cache_id) xs = Some (rs, s) ∧ length rs = length xs ∧
    internings [] xs rs (flat_labelsets s) ∧
    (st_room symbols (session_strings xs) → layout_room kv (zlen (mjoin xs)) → Forall (λ r, ∃ a, r = Ok a) rs) ∧
    (∀ i x a, xs !! i = Some x → rs !! i = Some (Ok a) →
       0 ≤ a < ls_len s ∧ visit_labelset s a = Some (normalize_labelset x)) ∧
    (∀ i j x y a b, xs !! i = Some x → xs !! j = Some y → rs !! i = Some (Ok a) → rs !! j = Some (Ok b) →
       a = b ↔ normalize_labelset x = normalize_labelset y) ∧
    (∀ i j x y a, (i < j)%nat → xs !! i = Some x → xs !! j = Some y → normalize_labelset x = normalize_labelset y →
       rs !! i = Some (Ok a) → rs !! j = Some (Ok a)) ∧
    (∀ a, 0 ≤ a < ls_len s → ∃ i, rs !! i = Some (Ok a)).
Proof.
  intros Hsym Hlen Hcan. pose proof (flat_new_ok kv mode symbols cache_id Hsym) as Hnew.
  destruct (intern_all_spec (E:=LabelSetStoreError SE) (HL:=flat_store_laws) xs (flat_new kv mode symbols cache_id) Hnew) as (rs & s & Hall & Hok & Hints & Hroom).
  { change (zlen ([] : list labelset) + zlen xs ≤ u32_max + 1). rewrite zlen_nil. lia. }
  { done. }
  destruct (internings_spec xs [] rs (flat_labelsets s) Hints (NoDup_nil_2)) as (Hnd & _ & Hrs & Hval & _ & Hsame & Hdense).
  assert (ls_len s = zlen (flat_labelsets s)) as Hsl by (by cbn; unfold flat_labelsets, flat_rows, zlen; rewrite !length_fmap).
  exists rs, s. split; [done|]. split; [done|]. split; [exact Hints|]. split; [intros; by apply Hroom|]. split_and!.
  - intros i x a Hx Ha. destruct (Hval i x a Hx Ha) as [Ha0 Hl]. rewrite visit_ok by done. split; [|done].
    apply lookup_lt_Some in Hl. rewrite Hsl. unfold zlen. lia.
  - intros i j x y a b Hx Hy Ha Hb. destruct (Hval i x a Hx Ha) as [Ha0 Hla]. destruct (Hval j y b Hy Hb) as [Hb0 Hlb].
    split; [intros ->; congruence|]. intros Heq. rewrite Heq in Hla. pose proof (NoDup_lookup _ _ _ _ Hnd Hla Hlb). lia.
  - exact Hsame.
  - intros a Ha. destruct (Hdense (Z.to_nat a)) as [i Hi]; [rewrite Hsl in Ha; unfold zlen in Ha; cbn; lia|].
    exists i. by rewrite Z2Nat.id in Hi by lia.
Qed.

(** ** Witnesses: every hash collides *)

Definition colliding_symbols : SymbolHash := λ _, 7.
Definition colliding_hashers : LabelSetHashers :=
  {| hash_strings := λ _, 7; hash_words_sip := λ _, 7; hash_words_ahash := λ _, 7 |}.
#[local] Existing Instances colliding_symbols colliding_hashers.

Definition small_pages : InternedKeyValueStorage := Paged (mk_paged [] 0 3).
Definition sample_store : FlatStore ArenaSymbolTable := flat_new small_pages InternedIdsAHash arena_table_default 1.
Definition labels_of (l : list (string * string)) : labelset := (λ p, (bytes_of_string p.1, bytes_of_string p.2)) <$> l.
Definition sample_labelsets : list labelset :=
  labels_of <$> [[("__name__", "cpu"); ("host", "a")]; [("__name__", "cpu"); ("host", "b")]; [("__name__", "cpu"); ("host", "a")];
                 [("__name__", "up")]]%string.

Example sample_refs :
  (fst <$> intern_all (L:=FlatStore ArenaSymbolTable) sample_store sample_labelsets) =
  Some [Ok 0; Ok 1; Ok 0; Ok (E:=LabelSetStoreError ArenaSymbolTableError) 2].
Proof. vm_compute. reflexivity. Qed.

Lemma sample_canonical : Forall (λ x, is_canonical x = true) sample_labelsets.
Proof. apply Forall_forall. intros x Hx. apply (proj1 (forallb_forall is_canonical sample_labelsets) eq_refl), list_elem_of_In, Hx. Qed.
Lemma sample_room : arena_room arena_table_default (session_strings sample_labelsets).
Proof. split; [apply (bool_decide_unpack _); vm_compute; exact I|]. split; vm_compute; discriminate. Qed.

Lemma sample_layout_room : layout_room small_pages (zlen (mjoin sample_labelsets)).
Proof. replace (zlen (mjoin sample_labelsets)) with 7 by reflexivity. unfold layout_room, small_pages. cbn. change (zlen (@nil InternedKeyValue)) with 0. lia. Qed.

(** The four label sets are accepted, the third as the first. *)
Lemma flat_store_refines_witness :
  ∃ (rs : list (result (LabelSetStoreError ArenaSymbolTableError) Z)) s,
    intern_all sample_store sample_labelsets = Some (rs, s) ∧ length rs = 4%nat ∧ Forall (λ r, ∃ a, r = Ok a) rs.
Proof.
  destruct (flat_store_refines small_pages InternedIdsAHash arena_table_default 1 sample_labelsets) as (rs & s & Hall & Hlen & _ & Hroom & _).
  - exact arena_default_ok.
  - done.
  - exact sample_canonical.
  - exists rs, s. split; [exact Hall|]. split; [exact Hlen|]. exact (Hroom sample_room sample_layout_room).
Defined.

(** Keys out of order fail the assertion, after the first pair is interned or refused. *)
Example not_canonical_panics :
  intern_all (E:=LabelSetStoreError ArenaSymbolTableError) sample_store [labels_of [("host", "a"); ("__name__", "cpu")]%string] = None.
Proof. vm_compute. reflexivity. Qed.

Definition sample_plan : PreparedOtlpResourceLabels := prepare_resource sample_resource.
Definition fresh_cells : PlanCells := mk_cells (replicate (length (pr_labels sample_plan)) None) None.

Lemma prepared_cells_agree_witness : ∃ c (r : result (LabelSetStoreError ArenaSymbolTableError) Z) s' cells',
  intern_prepared_otlp sample_store fresh_cells c = Some (r, s', cells').
Proof.
  destruct (prepared_cells_agree (S:=ArenaSymbolTable) sample_resource (bytes_of_string "cpu") sample_datapoint
    (mk_recording [] 0) sample_store fresh_cells) as (c & _ & _ & _ & r & s' & cells' & _ & _ & _ & Hi & _).
  - apply flat_new_ok, arena_default_ok.
  - done.
  - apply no_cells_valid.
  - vm_compute. discriminate.
  - exists c, r, s', cells'. exact Hi.
Defined.
