(* ===== verification/NaiveStore.v ===== *)
(** * The naive label-set store

    [chronoxide-core/src/labels/interners/naive.rs]: every label set is a vector of
    owned strings, found through the hash of its strings.  It is the baseline of the
    other layouts, and satisfies the same contract; its assertion that label sets are
    canonical is kept as a panic.  The counters of allocated and
    used bytes are not modelled. *)
From S2P Require Import Prelude Text Normalizer Symbols FlatStore.

(** [series] holds [OwnedKeyValue]s, pairs of strings. *)
Record NaiveLabelSetStore := mk_naive { nv_chains : chains; nv_series : list labelset }.
Definition naive_new : NaiveLabelSetStore := mk_naive no_chains [].

Section naive.
Context {SE : Type} `{HH : LabelSetHashers}.

Definition naive_encode (labels : labelset) : labelset * Z :=
  let encoded := normalize_labelset labels in (encoded, labelset_hash encoded).

(** [series_slice] panics out of range. *)
Definition naive_same (s : NaiveLabelSetStore) (encoded : labelset) (id : Z) : option bool :=
  stored ← nv_series s !! Z.to_nat id; Some (bool_decide (stored = encoded)).

Definition naive_intern (s : NaiveLabelSetStore) (labels : labelset) : option (result (LabelSetStoreError SE) Z * NaiveLabelSetStore) :=
  if negb (is_canonical labels) then None   (* [debug_assert!] *)
  else
  let '(encoded, hash) := naive_encode labels in
  '(existing, _) ← find_same (naive_same s encoded) (chain (nv_chains s) hash) 0;
  Some
    (match existing with
     | Some id => (Ok id, s)
     | None =>
         let series_ref := zlen (nv_series s) `mod` 4294967296 in
         (Ok series_ref, mk_naive (chain_insert (nv_chains s) hash series_ref) (nv_series s ++ [encoded]))
     end).

Definition naive_visit (s : NaiveLabelSetStore) (series : Z) : option labelset := nv_series s !! Z.to_nat series.

#[export] Instance naive_label_set_store : LabelSetStore NaiveLabelSetStore (LabelSetStoreError SE) := {
  ls_intern := naive_intern;
  ls_len s := zlen (nv_series s);
  ls_visit := naive_visit;
}.

(** ** The contract *)

Record naive_ok (s : NaiveLabelSetStore) : Prop := {
  nvo_nodup : NoDup (nv_series s);
  nvo_chains : chains_ok labelset_hash (nv_chains s) (nv_series s);
}.

Lemma naive_new_ok : naive_ok naive_new.
Proof. split; [apply NoDup_nil_2|apply no_chains_ok]. Qed.

Lemma naive_find s encoded : naive_ok s → ∃ n,
  find_same (naive_same s encoded) (chain (nv_chains s) (labelset_hash encoded)) 0 = Some (index_of encoded (nv_series s), n).
Proof.
  intros [Hnd Hch].
  destruct (chain_find labelset_hash (nv_chains s) (nv_series s) encoded (naive_same s encoded) 0 Hch Hnd) as (n & -> & _); [|by eexists].
  intros id Hid. unfold naive_same. destruct (lookup_lt_is_Some_2 (nv_series s) (Z.to_nat id)) as [x Hx]; [unfold zlen in Hid; lia|].
  rewrite Hx. cbn. f_equal. apply bool_decide_ext. naive_solver.
Qed.

(** It refuses no canonical label set. *)
Lemma naive_intern_ok s labels : naive_ok s → zlen (nv_series s) ≤ u32_max → is_canonical labels = true → ∃ a s',
  naive_intern s labels = Some (Ok a, s') ∧ naive_ok s' ∧
  interning (nv_series s) (normalize_labelset labels) (Ok (E:=LabelSetStoreError SE) a) (nv_series s').
Proof.
  intros Hok Hlen Hcan. pose proof Hok as [Hnd Hch]. unfold naive_intern, naive_encode. rewrite Hcan. cbn [negb].
  set (encoded := normalize_labelset labels). destruct (naive_find s encoded Hok) as (n & ->).
  cbn [mbind option_bind]. unfold interning. destruct (index_of encoded (nv_series s)) as [i|] eqn:Hi; [by eexists _, _|].
  assert (zlen (nv_series s) `mod` 4294967296 = zlen (nv_series s)) as -> by (pose proof (zlen_nonneg (nv_series s)); apply Z.mod_small; lia).
  eexists _, _. split; [done|]. split; [|by left]. apply not_interned in Hi. split; cbn [nv_series nv_chains].
  - apply NoDup_app. split_and!; [done| |apply NoDup_singleton]. by intros x Hx ->%list_elem_of_singleton.
  - by apply (chain_insert_ok labelset_hash).
Qed.

#[export] Instance naive_store_laws : LabelSetStoreLaws NaiveLabelSetStore (LabelSetStoreError SE).
Proof.
  refine {| ls_ok := naive_ok; labelsets_of := nv_series; ls_room _ _ := True |}.
  - by intros s [].
  - done.
  - done.
  - intros s labels Hok Hlen Hcan. destruct (naive_intern_ok s labels Hok Hlen Hcan) as (a & s' & ?). by exists (Ok a), s'.
  - intros s labels xs Hok _ Hcan _. cbn. unfold naive_intern, naive_encode. rewrite Hcan. cbn [negb].
    destruct (naive_find s (normalize_labelset labels) Hok) as (n & ->). cbn [mbind option_bind].
    by destruct (index_of _ _); eexists _, _.
Defined.
End naive.

(** ** Every store against the naive one *)

Lemma interning_det {A E E'} `{EqDecision A} (l : list A) x a b k k' :
  interning (E:=E) l x (Ok a) k → interning (E:=E') l x (Ok b) k' → a = b ∧ k = k'.
Proof.
  unfold interning. destruct (index_of x l); [by intros [[= ->] ->] [[= ->] ->]|].
  intros [[[= ->] ->]|[[e He] _]]; [|done]. intros [[[= ->] ->]|[[e He] _]]; [done|done].
Qed.

(** The label sets a run accepted, with their references. *)
Definition accepted {E} (xs : list labelset) (rs : list (result E Z)) : list (labelset * Z) :=
  omap (λ p, match p.2 with Ok a => Some (p.1, a) | Err _ => None end) (zip xs rs).

(** A store that keeps the contract answers what it accepts as the naive store does. *)
Lemma agrees_with_naive {L E SE} `{HL : LabelSetStoreLaws L E} `{HH : LabelSetHashers} xs : ∀ (s : L) n rs s',
  ls_ok s → naive_ok n → labelsets_of s = nv_series n → zlen (labelsets_of s) + zlen xs ≤ u32_max + 1 →
  Forall (λ x, is_canonical x = true) xs → intern_all s xs = Some (rs, s') →
  ∃ n', intern_all (E:=LabelSetStoreError SE) n (accepted xs rs).*1 = Some (Ok <$> (accepted xs rs).*2, n') ∧
    ls_len s' = zlen (nv_series n') ∧ ∀ a, 0 ≤ a → ls_visit s' a = naive_visit n' a.
Proof.
  induction xs as [|x xs IH]; intros s n rs s' Hok Hn Heq Hlen Hcan.
  { intros [= <- <-]. exists n. split; [done|]. rewrite ls_len_ok, Heq by done. split; [done|].
    intros a Ha. by rewrite ls_visit_ok, Heq by done. }
  rewrite zlen_cons in Hlen. pose proof (zlen_nonneg xs). cbn [intern_all]. apply Forall_cons_1 in Hcan as [Hx Hcan].
  destruct (ls_intern_ok s x Hok) as (r & s1 & -> & Hok1 & Hint); [lia|done|]. cbn [mbind option_bind].
  destruct (intern_all s1 xs) as [[rs1 s2]|] eqn:Hall; [|done]. intros [= <- <-].
  destruct r as [a|e]; cycle 1.
  { assert (labelsets_of s1 = labelsets_of s) as Hsame.
    { unfold interning in Hint. destruct (index_of _ _); [by destruct Hint|]. by destruct Hint as [[? _]|[_ ->]]. }
    apply (IH s1 n rs1 s2 Hok1 Hn); [congruence|rewrite Hsame; lia|done|done]. }
  destruct (naive_intern_ok (SE:=SE) n x Hn) as (b & n1 & Hi & Hn1 & Hint'); [rewrite <- Heq; lia|done|].
  rewrite Heq in Hint. destruct (interning_det _ _ _ _ _ _ Hint Hint') as [-> Hl1].
  assert (zlen (labelsets_of s1) ≤ zlen (labelsets_of s) + 1) as Hlen1 by (rewrite Heq; by eapply interning_grows).
  destruct (IH s1 n1 rs1 s2 Hok1 Hn1 Hl1) as (n' & Hall' & Hrest); [lia|done|done|]. exists n'. split; [|done].
  change (accepted (x :: xs) (Ok b :: rs1)) with ((x, b) :: accepted xs rs1). rewrite !fmap_cons. cbn [fst snd intern_all].
  change (ls_intern n x) with (naive_intern (SE:=SE) n x). rewrite Hi. cbn [mbind option_bind]. by rewrite Hall'.
Qed.
