(* ===== verification/BitPack.v ===== *)
(** * Packing value codes

    [pack_value_code], [pack_bits], their inverses and the widths of
    [chronoxide-core/src/labels/interners/packing.rs].  A packed block is seen as
    one little-endian integer ([of_le]): packing adds a code above what is there, and
    unpacking reads a field of it; both layouts are then the same sum of fields
    ([fields_number]).  [None] is a panic. *)
From S2P Require Import Prelude Bits.

(** ** Whole bytes *)

Definition pack_value_code (out : list Z) (width value : Z) : option (list Z) :=
  if width =? 0 then if value =? 0 then Some out else None
  else if width =? 1 then Some (out ++ [value `mod` 256])
  else if width =? 2 then Some (out ++ le_bytes 2 (value `mod` 65536))
  else if width =? 4 then Some (out ++ le_bytes 4 value)
  else None.

(** The code and the offset after it. *)
Definition unpack_value_code (data : list Z) (offset width : Z) : option (Z * Z) :=
  if width =? 0 then Some (0, offset)
  else if width =? 1 then b0 ← data !! Z.to_nat offset; Some (b0, offset + 1)
  else if width =? 2 then
    if offset + 2 <=? zlen data then Some (of_le (slice data offset (offset + 2)), offset + 2) else None
  else if width =? 4 then
    if offset + 4 <=? zlen data then Some (of_le (slice data offset (offset + 4)), offset + 4) else None
  else None.

Definition width_for_cardinality (cardinality : Z) : Z :=
  if cardinality <=? 1 then 0
  else if cardinality <=? 256 then 1
  else if cardinality <=? 65536 then 2
  else 4.

(** ** Bits *)

Definition leading_zeros_u32 (x : Z) : Z := if x =? 0 then 32 else 31 - Z.log2 x.

Definition bit_width_for_max_code (max_code : Z) : Z :=
  if max_code =? 0 then 0 else 32 - leading_zeros_u32 max_code.

(** Each turn fills the rest of a byte; [fuel] is a turn for each bit. *)
Fixpoint pack_bits_loop (fuel : nat) (out : list Z) (bit_offset remaining val : Z) : option (list Z * Z) :=
  if remaining <=? 0 then Some (out, bit_offset)
  else match fuel with
  | O => None
  | S fuel =>
      let byte_index := Z.to_nat (bit_offset / 8) in
      let bit_index := bit_offset `mod` 8 in
      let bits_in_chunk := Z.min remaining (8 - bit_index) in
      let mask := Z.shiftl 1 bits_in_chunk - 1 in
      let chunk := Z.land val mask `mod` 256 in
      byte ← out !! byte_index;
      pack_bits_loop fuel (<[byte_index := Z.lor byte (Z.shiftl chunk bit_index `mod` 256)]> out)
        (bit_offset + bits_in_chunk) (remaining - bits_in_chunk) (Z.shiftr val bits_in_chunk)
  end.
Definition pack_bits (out : list Z) (bit_offset width value : Z) : option (list Z * Z) :=
  if width =? 0 then Some (out, bit_offset)
  else pack_bits_loop (Z.to_nat width) out bit_offset width value.

Fixpoint unpack_bits_loop (fuel : nat) (data : list Z) (bit_offset remaining shift value : Z) : option (Z * Z) :=
  if remaining <=? 0 then Some (value, bit_offset)
  else match fuel with
  | O => None
  | S fuel =>
      let byte_index := Z.to_nat (bit_offset / 8) in
      let bit_index := bit_offset `mod` 8 in
      let bits_in_chunk := Z.min remaining (8 - bit_index) in
      let mask := if bits_in_chunk =? 8 then 255 else Z.shiftl 1 bits_in_chunk - 1 in
      byte ← data !! byte_index;
      let chunk := Z.land (Z.shiftr byte bit_index) mask in
      unpack_bits_loop fuel data (bit_offset + bits_in_chunk) (remaining - bits_in_chunk) (shift + bits_in_chunk)
        (Z.lor value (Z.shiftl chunk shift `mod` 4294967296))
  end.
Definition unpack_bits (data : list Z) (bit_offset width : Z) : option (Z * Z) :=
  if width =? 0 then Some (0, bit_offset)
  else unpack_bits_loop (Z.to_nat width) data bit_offset width 0 0.

(** ** Fields of an integer *)

Definition field (n off width : Z) : Z := (n / 2 ^ off) `mod` 2 ^ width.

Lemma field_0 n off : field n off 0 = 0.
Proof. unfold field. apply Z.mod_1_r. Qed.
Lemma field_split n off a b : 0 ≤ off → 0 ≤ a → 0 ≤ b → field n off (a + b) = field n off a + 2 ^ a * field n (off + a) b.
Proof.
  intros. unfold field. rewrite !Z.pow_add_r by lia. rewrite <- (Z.div_div n) by lia.
  rewrite Z.rem_mul_r by lia. done.
Qed.
Lemma field_range n off width : 0 ≤ width → 0 ≤ field n off width < 2 ^ width.
Proof. intros. apply Z.mod_pos_bound. lia. Qed.

(** The byte at an index. *)
Lemma of_le_split l i b : bytes l → l !! i = Some b →
  of_le l = of_le (take i l) + 2 ^ (8 * Z.of_nat i) * (b + 256 * of_le (drop (S i) l)) ∧ zlen (take i l) = Z.of_nat i.
Proof.
  intros Hl Hi. assert (zlen (take i l) = Z.of_nat i) as Hz.
  { apply lookup_lt_Some in Hi. unfold zlen. rewrite length_take. lia. }
  split; [|done]. rewrite <- (take_drop_middle l i b Hi) at 1. rewrite of_le_app by (by apply Forall_take). rewrite Hz. f_equal. f_equal.
  apply of_le_cons. exact (Forall_lookup_1 _ _ _ _ Hl Hi).
Qed.
Lemma byte_field l i b : bytes l → l !! i = Some b → b = field (of_le l) (8 * Z.of_nat i) 8.
Proof.
  intros Hl Hi. destruct (of_le_split l i b Hl Hi) as [-> Hz].
  pose proof (of_le_range (take i l) ltac:(by apply Forall_take)) as Hr. rewrite Hz, (Z.mul_comm (Z.of_nat i)) in Hr.
  pose proof (Forall_lookup_1 _ _ _ _ Hl Hi) as Hb. unfold is_byte in Hb.
  unfold field. rewrite (Z.mul_comm (2 ^ _) (b + _)), Z.div_add, Z.div_small, Z.add_0_l by lia. change (2 ^ 8) with 256.
  rewrite Z.mul_comm, Z.mod_add by done. by rewrite Z.mod_small.
Qed.
Lemma of_le_insert l i b b' : bytes l → is_byte b' → l !! i = Some b →
  of_le (<[i := b']> l) = of_le l + 2 ^ (8 * Z.of_nat i) * (b' - b) ∧ bytes (<[i := b']> l).
Proof.
  intros Hl Hb' Hi. assert (bytes (<[i := b']> l)) as Hl' by (by apply Forall_insert). split; [|done].
  destruct (of_le_split l i b Hl Hi) as [-> _]. pose proof (lookup_lt_Some _ _ _ Hi).
  destruct (of_le_split (<[i := b']> l) i b' Hl') as [-> _]; [by apply list_lookup_insert_eq|].
  rewrite take_insert_ge by lia. rewrite drop_insert_lt by lia. ring.
Qed.
(** Bits of a byte. *)
Lemma byte_bits l off width : bytes l → 0 ≤ off → 0 ≤ width → off `mod` 8 + width ≤ 8 → off < 8 * zlen l →
  ∃ b, l !! Z.to_nat (off / 8) = Some b ∧ is_byte b ∧ field b (off `mod` 8) width = field (of_le l) off width ∧
    (of_le l < 2 ^ off → b < 2 ^ (off `mod` 8)).
Proof.
  intros Hl Ho Hw Hfit Hlt. pose proof (Z.div_mod off 8 ltac:(lia)) as Hdm. pose proof (Z.mod_pos_bound off 8 ltac:(lia)) as Hm.
  assert (0 ≤ off / 8) by (apply Z.div_pos; lia).
  destruct (lookup_lt_is_Some_2 l (Z.to_nat (off / 8))) as [b Hb]; [unfold zlen in Hlt; lia|]. exists b.
  pose proof (Forall_lookup_1 _ _ _ _ Hl Hb) as Hbyte. pose proof (byte_field l _ b Hl Hb) as Hf. rewrite Z2Nat.id in Hf by done.
  split_and!; [done|done| |].
  - rewrite Hf. unfold field. set (q := off / 8) in *. set (m := off `mod` 8) in *.
    replace (2 ^ off) with (2 ^ (8 * q) * 2 ^ m) by (rewrite <- Z.pow_add_r by lia; by rewrite Hdm).
    rewrite <- Z.div_div by lia. set (x := of_le l / 2 ^ (8 * q)).
    replace 8 with (m + (8 - m)) at 1 by lia. rewrite (Z.pow_add_r 2 m (8 - m)) by lia. rewrite Z.rem_mul_r by lia.
    rewrite (Z.mul_comm (2 ^ m)), Z.div_add, Z.div_small, Z.add_0_l by (try apply Z.mod_pos_bound; lia).
    replace (8 - m) with (width + (8 - m - width)) by lia. rewrite Z.pow_add_r, Z.rem_mul_r by lia.
    rewrite Z.mul_comm, Z.mod_add, Z.mod_mod by lia. done.
  - intros Hsmall. destruct (of_le_split l _ b Hl Hb) as [Heq _]. rewrite Z2Nat.id in Heq by done.
    pose proof (of_le_range (take (Z.to_nat (off / 8)) l) ltac:(by apply Forall_take)).
    pose proof (of_le_range (drop (S (Z.to_nat (off / 8))) l) ltac:(by apply Forall_drop)).
    replace (2 ^ off) with (2 ^ (8 * (off / 8)) * 2 ^ (off `mod` 8)) in Hsmall by (rewrite <- Z.pow_add_r by lia; by rewrite <- Hdm).
    unfold is_byte in Hbyte. nia.
Qed.

(** ** The loops *)

Lemma low_bits_mask v n : 0 ≤ n → Z.land v (Z.shiftl 1 n - 1) = v `mod` 2 ^ n.
Proof.
  intros Hn. assert (Z.shiftl 1 n - 1 = Z.ones n) as -> by (rewrite Z.ones_equiv, Z.shiftl_mul_pow2 by done; lia). by apply Z.land_ones.
Qed.
Lemma chunk_mask n : 0 ≤ n → (if n =? 8 then 255 else Z.shiftl 1 n - 1) = Z.shiftl 1 n - 1.
Proof. intros Hn. by destruct (Z.eqb_spec n 8) as [->|]. Qed.
Lemma pow2_8 n : 0 ≤ n ≤ 8 → 1 ≤ 2 ^ n ≤ 256.
Proof. intros. pose proof (Z.pow_le_mono_r 2 n 8). lia. Qed.

Lemma pack_bits_loop_spec fuel : ∀ out off rem val, bytes out → 0 ≤ off → 0 ≤ rem ≤ Z.of_nat fuel → off + rem ≤ 8 * zlen out →
  of_le out < 2 ^ off → ∃ out', pack_bits_loop fuel out off rem val = Some (out', off + rem) ∧ bytes out' ∧ zlen out' = zlen out ∧
    of_le out' = of_le out + field val 0 rem * 2 ^ off.
Proof.
  induction fuel as [|fuel IH]; intros out off rem val Hout Hoff Hrem Hfit Hlt.
  { exists out. assert (rem = 0) as -> by lia. rewrite field_0. cbn. split_and!; [f_equal; f_equal; lia|done|done|lia]. }
  cbn [pack_bits_loop]. destruct (Z.leb_spec rem 0).
  { exists out. assert (rem = 0) as -> by lia. rewrite field_0. split_and!; [f_equal; f_equal; lia|done|done|lia]. }
  pose proof (Z.mod_pos_bound off 8 ltac:(lia)) as Hm. set (n := Z.min rem (8 - off `mod` 8)).
  destruct (byte_bits out off n Hout Hoff) as (b & Hb & Hbyte & _ & Hsmall); [lia..|]. specialize (Hsmall Hlt). unfold is_byte in Hbyte.
  rewrite Hb. cbn [mbind option_bind]. rewrite low_bits_mask by lia.
  pose proof (Z.mod_pos_bound val (2 ^ n) ltac:(lia)) as Hv. pose proof (pow2_8 n ltac:(lia)).
  pose proof (Z.div_mod off 8 ltac:(lia)) as Hdm. assert (0 ≤ off / 8) by (apply Z.div_pos; lia).
  set (chunk := val `mod` 2 ^ n) in *. set (m := off `mod` 8) in *.
  assert (0 < 2 ^ m) by lia. assert (2 ^ n * 2 ^ m ≤ 256) as Hnm by (rewrite <- Z.pow_add_r by lia; apply pow2_8; lia).
  assert (chunk * 2 ^ m + 2 ^ m ≤ 256) as Hb'0 by nia.
  rewrite (Z.mod_small chunk), Z.shiftl_mul_pow2, (Z.mod_small (chunk * 2 ^ m)), Z.lor_comm, lor_pow2_add by nia.
  destruct (of_le_insert out (Z.to_nat (off / 8)) b (chunk * 2 ^ m + b) Hout) as [Hof Hbs]; [unfold is_byte; nia|done|].
  rewrite Z2Nat.id in Hof by done. set (out1 := <[_ := _]> out) in *.
  assert (of_le out1 = of_le out + chunk * 2 ^ off) as Hof1.
  { rewrite Hof. replace (2 ^ off) with (2 ^ (8 * (off / 8)) * 2 ^ m) by (rewrite <- Z.pow_add_r by lia; by rewrite <- Hdm). ring. }
  assert (zlen out1 = zlen out) as Hz by (unfold zlen, out1; by rewrite length_insert).
  destruct (IH out1 (off + n) (rem - n) (Z.shiftr val n)) as (out' & -> & Hb' & Hz' & Hof'); [done|lia|lia|lia| |].
  { rewrite Hof1, Z.pow_add_r by lia. nia. }
  exists out'. split_and!; [f_equal; f_equal; lia|done|congruence|]. rewrite Hof', Hof1.
  replace rem with (n + (rem - n)) at 2 by lia. rewrite field_split by lia. rewrite Z.add_0_l.
  assert (field val 0 n = chunk) as -> by (unfold field; by rewrite Z.div_1_r).
  assert (field (Z.shiftr val n) 0 (rem - n) = field val n (rem - n)) as -> by (unfold field; by rewrite Z.shiftr_div_pow2, Z.div_1_r by lia).
  rewrite Z.pow_add_r by lia. ring.
Qed.

(** Packing adds a code above the bits in use, and only there. *)
Lemma pack_bits_spec out off w v : bytes out → 0 ≤ off → 0 ≤ w → off + w ≤ 8 * zlen out → of_le out < 2 ^ off → 0 ≤ v < 2 ^ w →
  ∃ out', pack_bits out off w v = Some (out', off + w) ∧ bytes out' ∧ zlen out' = zlen out ∧ of_le out' = of_le out + v * 2 ^ off.
Proof.
  intros Hout Hoff Hw Hfit Hlt Hv. assert (field v 0 w = v) as Hf by (unfold field; rewrite Z.div_1_r; by apply Z.mod_small).
  unfold pack_bits. destruct (Z.eqb_spec w 0) as [->|].
  - exists out. change (2 ^ 0) with 1 in Hv. assert (v = 0) as -> by lia. split_and!; [f_equal; f_equal; lia|done|done|lia].
  - destruct (pack_bits_loop_spec (Z.to_nat w) out off w v) as (out' & ? & ? & ? & ?); [done|done|lia|done|done|].
    exists out'. by rewrite Hf in *.
Qed.

Lemma unpack_bits_loop_spec fuel data : bytes data → ∀ off rem shift value, 0 ≤ off → 0 ≤ rem ≤ Z.of_nat fuel → off + rem ≤ 8 * zlen data →
  0 ≤ shift → shift + rem ≤ 32 → 0 ≤ value < 2 ^ shift →
  unpack_bits_loop fuel data off rem shift value = Some (value + 2 ^ shift * field (of_le data) off rem, off + rem).
Proof.
  intros Hdata. induction fuel as [|fuel IH]; intros off rem shift value Hoff Hrem Hfit Hs Hsr Hv.
  { assert (rem = 0) as -> by lia. rewrite field_0. cbn. f_equal. f_equal; lia. }
  cbn [unpack_bits_loop]. destruct (Z.leb_spec rem 0).
  { assert (rem = 0) as -> by lia. rewrite field_0. f_equal. f_equal; lia. }
  pose proof (Z.mod_pos_bound off 8 ltac:(lia)) as Hm. set (n := Z.min rem (8 - off `mod` 8)).
  destruct (byte_bits data off n Hdata Hoff) as (b & Hb & Hbyte & Hbf & _); [lia..|].
  rewrite Hb. cbn [mbind option_bind]. rewrite chunk_mask, low_bits_mask, Z.shiftr_div_pow2 by lia.
  change ((b / 2 ^ (off `mod` 8)) `mod` 2 ^ n) with (field b (off `mod` 8) n). rewrite Hbf.
  pose proof (field_range (of_le data) off n ltac:(lia)) as Hc. set (chunk := field (of_le data) off n) in *.
  assert (2 ^ shift * 2 ^ n ≤ 4294967296) as Hmax.
  { rewrite <- Z.pow_add_r by lia. change 4294967296 with (2 ^ 32). apply Z.pow_le_mono_r; lia. }
  assert (0 < 2 ^ shift) by lia.
  rewrite Z.shiftl_mul_pow2, (Z.mod_small (chunk * _)), Z.lor_comm, lor_pow2_add by nia.
  rewrite IH; [|lia|lia|lia|lia|lia|rewrite Z.pow_add_r by lia; nia].
  f_equal. f_equal; [|lia]. replace rem with (n + (rem - n)) at 2 by lia. rewrite field_split by lia. fold chunk.
  rewrite Z.pow_add_r by lia. ring.
Qed.
Lemma unpack_bits_spec data off w : bytes data → 0 ≤ off → 0 ≤ w ≤ 32 → off + w ≤ 8 * zlen data →
  unpack_bits data off w = Some (field (of_le data) off w, off + w).
Proof.
  intros Hdata Hoff Hw Hfit. unfold unpack_bits. destruct (Z.eqb_spec w 0) as [->|].
  - rewrite field_0. f_equal. f_equal; lia.
  - rewrite unpack_bits_loop_spec by (try done; lia). rewrite Z.mul_1_l. done.
Qed.

(** ** Sequences of fields *)

(** Pairs of a width in bits and a value that fits in it. *)
Fixpoint fields_number (fs : list (Z * Z)) : Z :=
  match fs with [] => 0 | (w, c) :: fs => c + 2 ^ w * fields_number fs end.
Definition total_width (fs : list (Z * Z)) : Z := foldr Z.add 0 fs.*1.
Definition field_ok (f : Z * Z) : Prop := 0 ≤ f.1 ∧ 0 ≤ f.2 < 2 ^ f.1.

Lemma total_width_app a b : total_width (a ++ b) = total_width a + total_width b.
Proof. unfold total_width. induction a as [|x a IH]; [done|]. cbn in *. lia. Qed.
Lemma total_width_nonneg fs : Forall field_ok fs → 0 ≤ total_width fs.
Proof. unfold total_width. induction 1 as [|x fs [Hx _] _ IH]; cbn; lia. Qed.
Lemma fields_number_app a b : Forall field_ok a → fields_number (a ++ b) = fields_number a + 2 ^ total_width a * fields_number b.
Proof.
  induction 1 as [|[w c] a [Hw Hc] Ha IH]; [cbn [app fields_number]; change (2 ^ total_width []) with 1; by rewrite Z.mul_1_l|].
  change (total_width ((w, c) :: a)) with (w + total_width a). pose proof (total_width_nonneg a Ha). cbn [fst] in Hw.
  cbn [app fields_number]. rewrite IH, Z.pow_add_r by lia. ring.
Qed.
Lemma fields_number_range fs : Forall field_ok fs → 0 ≤ fields_number fs < 2 ^ total_width fs.
Proof.
  induction 1 as [|[w c] fs [Hw Hc] Hfs IH]; [done|]. change (total_width ((w, c) :: fs)) with (w + total_width fs).
  pose proof (total_width_nonneg fs Hfs). cbn [fields_number fst snd] in *. rewrite Z.pow_add_r by lia. nia.
Qed.
Lemma fields_number_field a w c b : Forall field_ok a → field_ok (w, c) → Forall field_ok b →
  field (fields_number (a ++ (w, c) :: b)) (total_width a) w = c.
Proof.
  intros Ha [Hw Hc] Hb. cbn [fst snd] in *. rewrite fields_number_app by done. pose proof (fields_number_range a Ha) as Hr.
  pose proof (total_width_nonneg a Ha). unfold field. rewrite (Z.mul_comm (2 ^ total_width a)), Z.div_add, Z.div_small, Z.add_0_l by lia.
  cbn [fields_number]. rewrite Z.mul_comm, Z.mod_add by lia. by apply Z.mod_small.
Qed.

(** ** Whole-byte codes are the same fields *)

Definition code_width_ok (w : Z) : Prop := w = 0 ∨ w = 1 ∨ w = 2 ∨ w = 4.

Lemma pack_value_code_spec out w v : bytes out → code_width_ok w → 0 ≤ v < 2 ^ (8 * w) →
  ∃ out', pack_value_code out w v = Some out' ∧ bytes out' ∧ zlen out' = zlen out + w ∧
    of_le out' = of_le out + v * 2 ^ (8 * zlen out).
Proof.
  intros Hout Hw Hv. assert (of_le (le_bytes w v) = v ∧ zlen (le_bytes w v) = w ∧ bytes (le_bytes w v)) as (Hof & Hz & Hb).
  { assert (0 ≤ w) by (destruct Hw as [->|[->|[->| ->]]]; lia). split_and!; [|by apply zlen_le_bytes|by apply bytes_le_bytes].
    rewrite of_le_le_bytes by done. rewrite (Z.mul_comm w). by apply Z.mod_small. }
  assert (∀ k, k = le_bytes w v → pack_value_code out w v = Some (out ++ k) → ∃ out', pack_value_code out w v = Some out' ∧ bytes out' ∧
    zlen out' = zlen out + w ∧ of_le out' = of_le out + v * 2 ^ (8 * zlen out)) as Hgo.
  { intros k -> ->. eexists. split; [done|]. split; [by apply Forall_app|]. rewrite zlen_app, of_le_app, Hz, Hof by done.
    split; [done|ring]. }
  destruct Hw as [->|[->|[->| ->]]]; match type of Hv with _ ≤ _ < ?p => let q := eval vm_compute in p in change p with q in Hv end.
  - assert (v = 0) as -> by lia. apply (Hgo []); [done|]. cbn. by rewrite app_nil_r.
  - apply (Hgo [v]).
    + rewrite <- (le_bytes_of_le 1 [v]); [|done|by apply Forall_singleton]. f_equal. unfold of_le. cbn. by rewrite Z.lor_0_r.
    + unfold pack_value_code. cbn. by rewrite Z.mod_small.
  - apply (Hgo (le_bytes 2 v)); [done|]. unfold pack_value_code. cbn [Z.eqb Pos.eqb]. rewrite Z.mod_small by lia. done.
  - by apply (Hgo (le_bytes 4 v)).
Qed.

Lemma slice_number l a w : bytes l → 0 ≤ a → 0 ≤ w → a + w ≤ zlen l → of_le (slice l a (a + w)) = field (of_le l) (8 * a) (8 * w).
Proof.
  intros Hl Ha Hw Hfit. unfold slice. replace (a + w - a) with w by lia. set (d := drop (Z.to_nat a) l).
  rewrite <- (take_drop (Z.to_nat a) l). fold d. assert (zlen (take (Z.to_nat a) l) = a) as Hz1 by (unfold zlen in *; rewrite length_take; lia).
  rewrite of_le_app by (by apply Forall_take). rewrite Hz1.
  pose proof (of_le_range (take (Z.to_nat a) l) ltac:(by apply Forall_take)) as Hr1. rewrite Hz1, (Z.mul_comm a) in Hr1.
  assert (zlen (take (Z.to_nat w) d) = w) as Hz2 by (unfold d, zlen in *; rewrite length_take, length_drop; lia).
  assert (bytes d) as Hd by (by apply Forall_drop).
  rewrite <- (take_drop (Z.to_nat w) d) at 2. rewrite of_le_app by (by apply Forall_take). rewrite Hz2.
  pose proof (of_le_range (take (Z.to_nat w) d) ltac:(by apply Forall_take)) as Hr2. rewrite Hz2, (Z.mul_comm w) in Hr2.
  unfold field. rewrite (Z.mul_comm (2 ^ (8 * a))), Z.div_add, Z.div_small, Z.add_0_l by lia.
  rewrite (Z.mul_comm (2 ^ (8 * w))), Z.mod_add, Z.mod_small by lia. done.
Qed.
Lemma unpack_value_code_spec data off w : bytes data → 0 ≤ off → code_width_ok w → off + w ≤ zlen data →
  unpack_value_code data off w = Some (field (of_le data) (8 * off) (8 * w), off + w).
Proof.
  intros Hdata Hoff Hw Hfit. unfold unpack_value_code. destruct Hw as [->|[->|[->| ->]]]; cbn [Z.eqb Pos.eqb].
  - rewrite Z.mul_0_r, field_0, Z.add_0_r. done.
  - destruct (lookup_lt_is_Some_2 data (Z.to_nat off)) as [b Hb]; [unfold zlen in Hfit; lia|]. rewrite Hb. cbn [mbind option_bind].
    pose proof (byte_field data _ b Hdata Hb) as Hf. rewrite Z2Nat.id in Hf by done. by rewrite Hf.
  - rewrite (proj2 (Z.leb_le _ _)), slice_number by (done || lia). done.
  - rewrite (proj2 (Z.leb_le _ _)), slice_number by (done || lia). done.
Qed.

(** ** The widths chosen *)

Lemma width_for_cardinality_fits n c : 0 ≤ c < n → n ≤ u32_max + 1 → code_width_ok (width_for_cardinality n) ∧ c < 2 ^ (8 * width_for_cardinality n).
Proof.
  intros Hc Hn. unfold code_width_ok, width_for_cardinality.
  destruct (Z.leb_spec n 1); [split; [tauto|cbn; lia]|]. destruct (Z.leb_spec n 256); [split; [tauto|cbn; lia]|].
  destruct (Z.leb_spec n 65536); (split; [tauto|cbn; lia]).
Qed.
Lemma bit_width_fits m c : 0 ≤ c ≤ m → m ≤ u32_max → 0 ≤ bit_width_for_max_code m ≤ 32 ∧ c < 2 ^ bit_width_for_max_code m.
Proof.
  intros Hc Hm. unfold bit_width_for_max_code, leading_zeros_u32. destruct (Z.eqb_spec m 0) as [->|]; [cbn; lia|].
  replace (32 - (31 - Z.log2 m)) with (Z.succ (Z.log2 m)) by lia. pose proof (Z.log2_spec m ltac:(lia)).
  pose proof (Z.log2_nonneg m). pose proof (Z.log2_lt_pow2 m 32 ltac:(lia)). cbn in *. lia.
Qed.
