(* ===== verification/KeySetStore.v ===== *)
(** * The dictionary-encoded label-set store

    [chronoxide-core/src/labels/interners/keyset.rs]: a label set is a row of value
    codes under the interned sequence of its keys ("key set"); every key has its own
    dictionary of values.  The store satisfies the contract of label-set stores; its
    assertion that label sets are canonical is kept as a panic.  The
    buffer statistics, the estimates of memory and the debugging dump are not
    modelled. *)
From S2P Require Import Prelude Text Normalizer Symbols FlatStore NaiveStore.

(** ** Key sets and dictionaries *)

Record KeySetTable := mk_keysets { kt_keyset_to_id : gmap (list Z) Z; kt_id_to_keyset : list (list Z) }.
Definition keysets_default : KeySetTable := mk_keysets ∅ [].

(** The identifier, and whether it is new. *)
Definition keyset_intern (t : KeySetTable) (keys : list Z) : Z * bool * KeySetTable :=
  match kt_keyset_to_id t !! keys with
  | Some id => (id, false, t)
  | None =>
      let id := zlen (kt_id_to_keyset t) `mod` 4294967296 in
      (id, true, mk_keysets (<[keys := id]> (kt_keyset_to_id t)) (kt_id_to_keyset t ++ [keys]))
  end.
Definition keyset_resolve (t : KeySetTable) (id : Z) : option (list Z) := kt_id_to_keyset t !! Z.to_nat id.

Record ValueCodeDict := mk_dict { vd_value_to_code : gmap Z Z; vd_code_to_value : list Z }.
Definition dict_default : ValueCodeDict := mk_dict ∅ [].

Definition dict_cardinality (d : ValueCodeDict) : Z := zlen (vd_code_to_value d).
Definition dict_intern (d : ValueCodeDict) (value : Z) : Z * ValueCodeDict :=
  match vd_value_to_code d !! value with
  | Some code => (code, d)
  | None =>
      let code := zlen (vd_code_to_value d) `mod` 4294967296 in
      (code, mk_dict (<[value := code]> (vd_value_to_code d)) (vd_code_to_value d ++ [value]))
  end.
Definition dict_resolve (d : ValueCodeDict) (code : Z) : option Z := vd_code_to_value d !! Z.to_nat code.

(** ** Rows *)

Record SeriesEntry := mk_entry { se_keyset_id : Z; se_row : Z }.
Record KeySetRows := mk_rows { kr_key_count : Z; kr_values : list Z }.

Definition rows_count (r : KeySetRows) : Z :=
  if kr_key_count r =? 0 then 0 else (zlen (kr_values r) / kr_key_count r) `mod` 4294967296.
(** A slice out of range panics. *)
Definition row_slice (r : KeySetRows) (row : Z) : option (list Z) :=
  let start := row * kr_key_count r in
  let end_ := start + kr_key_count r in
  if end_ <=? zlen (kr_values r) then Some (slice (kr_values r) start end_) else None.

(** ** The store *)

Record KeySetStore (S : Type) := mk_keyset_store {
  ks_chains : chains;             (* by_hash and by_hash_collisions *)
  ks_symbols : S;
  ks_keysets : KeySetTable;
  ks_value_dicts : gmap Z ValueCodeDict;
  ks_rows : list KeySetRows;      (* per_keyset_rows *)
  ks_series : list SeriesEntry;
}.
Arguments mk_keyset_store {S}.
Arguments ks_chains {S}.
Arguments ks_symbols {S}.
Arguments ks_keysets {S}.
Arguments ks_value_dicts {S}.
Arguments ks_rows {S}.
Arguments ks_series {S}.

(** What a key's dictionary says of a code; a missing dictionary panics. *)
Definition dict_value (dicts : gmap Z ValueCodeDict) (key code : Z) : option Z :=
  d ← dicts !! key; dict_resolve d code.
(** The symbols a row visits. *)
Definition resolve_codes (dicts : gmap Z ValueCodeDict) (keys codes : list Z) : option row :=
  mapM (λ kc, value ← dict_value dicts kc.1 kc.2; Some (mk_ikv kc.1 value)) (zip keys codes).

Section keyset.
Context {S SE : Type} `{HST : SymbolTable S SE} `{HH : LabelSetHashers}.
Abbreviation store_error := (LabelSetStoreError SE).
Abbreviation Store := (KeySetStore S).

Definition keyset_store_new (symbols : S) : Store := mk_keyset_store no_chains symbols keysets_default ∅ [] [].

(** An error keeps the symbols and the codes interned before it. *)
Fixpoint keyset_encode_loop (symbols : S) (dicts : gmap Z ValueCodeDict) (labels : labelset) (keys codes : list Z)
    : option (result store_error (list Z * list Z) * S * gmap Z ValueCodeDict) :=
  match labels with
  | [] => Some (Ok (keys, codes), symbols, dicts)
  | label :: labels =>
      '(r, symbols) ← intern_normalized_pair symbols label;
      match r with
      | Err e => Some (Err e, symbols, dicts)
      | Ok kv =>
          let '(code, d) := dict_intern (default dict_default (dicts !! ik_key kv)) (ik_value kv) in
          keyset_encode_loop symbols (<[ik_key kv := d]> dicts) labels (keys ++ [ik_key kv]) (codes ++ [code])
      end
  end.

Definition keyset_encode (s : Store) (labels : labelset) : option (result store_error (Z * Z * list Z) * Store) :=
  if negb (is_canonical labels) then None   (* [debug_assert!] *)
  else
  '(r, symbols, dicts) ← keyset_encode_loop (ks_symbols s) (ks_value_dicts s) labels [] [];
  Some
    (match r with
     | Err e => (Err e, mk_keyset_store (ks_chains s) symbols (ks_keysets s) dicts (ks_rows s) (ks_series s))
     | Ok (keys, codes) =>
         let '(keyset_id, is_new, keysets) := keyset_intern (ks_keysets s) keys in
         let rows := if is_new : bool then ks_rows s ++ [mk_rows (zlen keys) []] else ks_rows s in
         (Ok (labelset_hash (normalize_labelset labels), keyset_id, codes),
          mk_keyset_store (ks_chains s) symbols keysets dicts rows (ks_series s))
     end).

Definition keyset_labels_equal (s : Store) (stored : SeriesEntry) (keyset_id : Z) (codes : list Z) : option bool :=
  if negb (se_keyset_id stored =? keyset_id) then Some false
  else
    stored_rows ← ks_rows s !! Z.to_nat (se_keyset_id stored);
    stored_codes ← row_slice stored_rows (se_row stored);
    Some (bool_decide (stored_codes = codes)).

Definition keyset_same (s : Store) (keyset_id : Z) (codes : list Z) (id : Z) : option bool :=
  stored ← ks_series s !! Z.to_nat id; keyset_labels_equal s stored keyset_id codes.

(** A new row under its key set, and its series. *)
Definition keyset_push (s : Store) (hash keyset_id : Z) (codes : list Z) : option (Z * Store) :=
  rows ← ks_rows s !! Z.to_nat keyset_id;
  let series_ref := zlen (ks_series s) `mod` 4294967296 in
  Some (series_ref,
    mk_keyset_store (chain_insert (ks_chains s) hash series_ref) (ks_symbols s) (ks_keysets s) (ks_value_dicts s)
      (<[Z.to_nat keyset_id := mk_rows (kr_key_count rows) (kr_values rows ++ codes)]> (ks_rows s))
      (ks_series s ++ [mk_entry keyset_id (rows_count rows)])).

Definition keyset_store_intern (s : Store) (labels : labelset) : option (result store_error Z * Store) :=
  '(r, s) ← keyset_encode s labels;
  match r with
  | Err e => Some (Err e, s)
  | Ok (hash, keyset_id, codes) =>
      '(existing, _) ← find_same (keyset_same s keyset_id codes) (chain (ks_chains s) hash) 0;
      match existing with
      | Some id => Some (Ok id, s)
      | None => '(id, s) ← keyset_push s hash keyset_id codes; Some (Ok id, s)
      end
  end.

Definition keyset_row (s : Store) (entry : SeriesEntry) : option row :=
  keys ← keyset_resolve (ks_keysets s) (se_keyset_id entry);
  rows ← ks_rows s !! Z.to_nat (se_keyset_id entry);
  codes ← row_slice rows (se_row entry);
  resolve_codes (ks_value_dicts s) keys codes.
Definition keyset_visit (s : Store) (series : Z) : option labelset :=
  entry ← ks_series s !! Z.to_nat series;
  r ← keyset_row s entry;
  mapM (resolve_pair (ks_symbols s)) r.

(** [None] is a panic, [Some None] a key without a dictionary. *)
Definition keyset_key_cardinality (s : Store) (key : str) : option (option Z) :=
  key ← st_lookup (ks_symbols s) key;
  Some (key ← key; d ← ks_value_dicts s !! key; Some (dict_cardinality d)).

#[export] Instance keyset_label_set_store : LabelSetStore Store store_error := {
  ls_intern := keyset_store_intern;
  ls_len s := zlen (ks_series s);
  ls_visit := keyset_visit;
}.
End keyset.

(** ** Dictionaries *)

Definition dict_ok (n : Z) (d : ValueCodeDict) : Prop :=
  indexed (vd_value_to_code d) (vd_code_to_value d) ∧ Forall (λ v, 0 ≤ v < n) (vd_code_to_value d).
Abbreviation dicts_ok n := (map_Forall (λ _, dict_ok n)).
Definition dict_le (d d' : ValueCodeDict) : Prop := vd_code_to_value d `prefix_of` vd_code_to_value d'.
Definition dicts_le (ds ds' : gmap Z ValueCodeDict) : Prop := ∀ k d, ds !! k = Some d → ∃ d', ds' !! k = Some d' ∧ dict_le d d'.

#[export] Instance dict_le_preorder : PreOrder dict_le.
Proof. split; [by intros d; red|by intros a b c; unfold dict_le; etrans]. Qed.
#[export] Instance dicts_le_preorder : PreOrder dicts_le.
Proof.
  split; [by intros ds k d Hd; exists d|]. intros a b c Hab Hbc k d Hd. destruct (Hab k d Hd) as (d1 & Hd1 & H1).
  destruct (Hbc k d1 Hd1) as (d2 & ? & H2). exists d2. split; [done|by etrans].
Qed.
Lemma dict_ok_mono n n' d : n ≤ n' → dict_ok n d → dict_ok n' d.
Proof. intros Hn [Hi Hv]. split; [done|]. eapply Forall_impl; [exact Hv|]. intros v Hn0. cbn in *. lia. Qed.
Lemma dict_default_ok n : dict_ok n dict_default.
Proof. split; [apply indexed_nil|by apply Forall_nil]. Qed.

Lemma dict_intern_spec n d v code d' : dict_ok n d → 0 ≤ v < n → n ≤ u32_max + 1 → dict_intern d v = (code, d') →
  dict_ok n d' ∧ in_u32 code ∧ dict_resolve d' code = Some v ∧ dict_le d d'.
Proof.
  intros [Hi Hf] Hv Hn. unfold dict_intern, dict_resolve, dict_le. destruct (vd_value_to_code d !! v) as [c|] eqn:Hc.
  - intros [= <- <-]. apply (indexed_at _ _ _ _ Hi) in Hc as [? Hc]. pose proof (nodup_bounded _ _ (proj1 Hi) Hf).
    apply lookup_lt_Some in Hc as Hlt. split; [by split|]. split; [unfold in_u32, zlen in *; lia|done].
  - pose proof (indexed_snoc _ _ _ Hi Hc) as Hi'. assert (Forall (λ v, 0 ≤ v < n) (vd_code_to_value d ++ [v])) as Hf' by (by apply Forall_snoc).
    pose proof (nodup_bounded _ _ (proj1 Hi') Hf') as Hlen. rewrite zlen_app in Hlen. change (zlen [v]) with 1 in Hlen.
    pose proof (zlen_nonneg (vd_code_to_value d)). rewrite Z.mod_small by lia. intros [= <- <-]. cbn [vd_code_to_value].
    split; [by split|]. split; [unfold in_u32; lia|]. split; [|by exists [v]]. unfold zlen. by rewrite Nat2Z.id, lookup_app_r, Nat.sub_diag.
Qed.

Lemma dict_value_le ds ds' k c v : dicts_le ds ds' → dict_value ds k c = Some v → dict_value ds' k c = Some v.
Proof.
  intros Hle (d & Hd & Hv)%bind_Some. destruct (Hle k d Hd) as (d' & Hd' & Hp). unfold dict_value. rewrite Hd'. cbn.
  unfold dict_resolve in *. by eapply prefix_lookup_Some.
Qed.
Lemma dict_value_inj n ds k c c' v : dicts_ok n ds → in_u32 c → in_u32 c' → dict_value ds k c = Some v → dict_value ds k c' = Some v → c = c'.
Proof.
  intros Hok Hc Hc' (d & Hd & Hv)%bind_Some (d' & Hd' & Hv')%bind_Some. rewrite Hd in Hd'. injection Hd' as <-.
  destruct (Hok k d Hd) as [[Hnd _] _]. pose proof (NoDup_lookup _ _ _ _ Hnd Hv Hv'). unfold in_u32 in *. lia.
Qed.

(** A value a dictionary knows. *)
Definition in_dict (ds : gmap Z ValueCodeDict) (k v : Z) : Prop := ∃ d, ds !! k = Some d ∧ v ∈ vd_code_to_value d.

Lemma dict_intern_values d v code d' : dict_intern d v = (code, d') → ∀ x, x ∈ vd_code_to_value d' → x ∈ vd_code_to_value d ∨ x = v.
Proof.
  unfold dict_intern. destruct (vd_value_to_code d !! v); intros [= <- <-] x; [by left|]. cbn. rewrite elem_of_app, list_elem_of_singleton. done.
Qed.
Lemma dict_value_in ds k c v : dict_value ds k c = Some v → in_dict ds k v.
Proof. intros (d & Hd & Hv)%bind_Some. exists d. split; [done|]. by eapply list_elem_of_lookup_2. Qed.

(** ** Rows of codes and rows of symbols *)

Lemma resolve_codes_cons ds k ks c cs : resolve_codes ds (k :: ks) (c :: cs) =
  (v ← dict_value ds k c; r ← resolve_codes ds ks cs; Some (mk_ikv k v :: r)).
Proof. unfold resolve_codes. cbn. by destruct (dict_value ds k c). Qed.
Lemma resolve_codes_le ds ds' ks cs r : dicts_le ds ds' → resolve_codes ds ks cs = Some r → resolve_codes ds' ks cs = Some r.
Proof.
  intros Hle. unfold resolve_codes. rewrite !mapM_Some. intros Hr. eapply Forall2_impl; [exact Hr|]. intros [k c] kv (v & Hv & [= <-])%bind_Some.
  cbn in *. by rewrite (dict_value_le ds ds' k c v).
Qed.
Lemma resolve_codes_snoc ds ks cs k c v r : length ks = length cs → resolve_codes ds ks cs = Some r → dict_value ds k c = Some v →
  resolve_codes ds (ks ++ [k]) (cs ++ [c]) = Some (r ++ [mk_ikv k v]).
Proof.
  intros Hlen Hr Hv. unfold resolve_codes in *. rewrite zip_with_app by done. rewrite mapM_Some in *. apply Forall2_app; [done|].
  apply Forall2_cons. split; [|by apply Forall2_nil]. cbn. by rewrite Hv.
Qed.
Lemma resolve_codes_keys ds ks : ∀ cs r, length ks = length cs → resolve_codes ds ks cs = Some r → ik_key <$> r = ks.
Proof.
  induction ks as [|k ks IH]; intros [|c cs] r Hlen; try done; [by intros [= <-]|]. rewrite resolve_codes_cons.
  intros (v & _ & (r' & Hr & [= <-])%bind_Some)%bind_Some. cbn. f_equal. apply (IH cs); [by injection Hlen|done].
Qed.
Lemma resolve_codes_inj n ds ks : dicts_ok n ds → ∀ cs cs' r, length cs = length ks → length cs' = length ks →
  Forall in_u32 cs → Forall in_u32 cs' → resolve_codes ds ks cs = Some r → resolve_codes ds ks cs' = Some r → cs = cs'.
Proof.
  intros Hok. induction ks as [|k ks IH]; intros [|c cs] [|c' cs'] r Hl Hl' Hp Hp'; try done. rewrite !resolve_codes_cons.
  intros (v & Hv & (r1 & Hr & [= <-])%bind_Some)%bind_Some (v' & Hv' & (r1' & Hr' & [= <- <-])%bind_Some)%bind_Some.
  apply Forall_cons_1 in Hp as [? ?], Hp' as [? ?]. injection Hl as Hl. injection Hl' as Hl'.
  f_equal; [by eapply dict_value_inj|by eapply IH].
Qed.

(** ** Rows in one vector *)

Definition rows_ok (keys : list Z) (rs : KeySetRows) : Prop :=
  kr_key_count rs = zlen keys ∧ (∃ n, 0 ≤ n ∧ zlen (kr_values rs) = n * zlen keys) ∧ Forall in_u32 (kr_values rs).
Definition rows_le (a b : KeySetRows) : Prop := kr_key_count b = kr_key_count a ∧ kr_values a `prefix_of` kr_values b.

#[export] Instance rows_le_preorder : PreOrder rows_le.
Proof. split; [by intros a; split|]. intros a b c [? ?] [? ?]. split; [congruence|by etrans]. Qed.

Lemma slice_prefix {A} (l k : list A) a b : 0 ≤ a ≤ b → b ≤ zlen l → slice (l ++ k) a b = slice l a b.
Proof.
  intros. unfold slice, zlen in *. rewrite drop_app_le by lia. apply take_app_le. rewrite length_drop. lia.
Qed.
Lemma row_slice_le a b row codes : rows_le a b → 0 ≤ row → 0 ≤ kr_key_count a → row_slice a row = Some codes → row_slice b row = Some codes.
Proof.
  intros [Hk [k Hv]] Hr Hc. unfold row_slice. rewrite Hk, Hv, zlen_app. pose proof (zlen_nonneg k).
  destruct (Z.leb_spec (row * kr_key_count a + kr_key_count a) (zlen (kr_values a))) as [Hfit|]; [|done].
  rewrite (proj2 (Z.leb_le _ _)), slice_prefix by nia. done.
Qed.
Lemma row_slice_codes keys rs row codes : rows_ok keys rs → 0 ≤ row → row_slice rs row = Some codes →
  length codes = length keys ∧ Forall in_u32 codes.
Proof.
  intros (Hk & _ & Hv) Hr. unfold row_slice. rewrite Hk. pose proof (zlen_nonneg keys).
  destruct (Z.leb_spec (row * zlen keys + zlen keys) (zlen (kr_values rs))) as [Hfit|]; [|done]. intros [= <-].
  split; [|by apply Forall_take, Forall_drop]. unfold slice, zlen in *. rewrite length_take, length_drop. nia.
Qed.
(** A row is appended where [rows] says. *)
Lemma rows_push keys rs codes bound : rows_ok keys rs → length codes = length keys → Forall in_u32 codes →
  zlen (kr_values rs) ≤ bound * kr_key_count rs → bound ≤ u32_max →
  let rs' := mk_rows (kr_key_count rs) (kr_values rs ++ codes) in
  rows_ok keys rs' ∧ zlen (kr_values rs') ≤ (bound + 1) * kr_key_count rs' ∧ rows_le rs rs' ∧ 0 ≤ rows_count rs ∧
  row_slice rs' (rows_count rs) = Some codes.
Proof.
  intros (Hk & (n & Hn & Hlen) & Hv) Hc Hpos Hb Hu rs'. assert (zlen codes = zlen keys) as Hz by (unfold zlen; by rewrite Hc).
  assert (zlen (kr_values rs') = (n + 1) * zlen keys) as Hlen' by (unfold rs'; cbn; rewrite zlen_app, Hlen, Hz; lia).
  split; [split; [done|]; split; [exists (n + 1); split; [lia|done]|by apply Forall_app]|].
  rewrite Hk in Hb. rewrite Hlen in Hb. split; [rewrite Hlen'; unfold rs'; cbn; rewrite Hk; lia|].
  split; [split; [done|by exists codes]|]. unfold rows_count. rewrite Hk, Hlen.
  destruct (Z.eqb_spec (zlen keys) 0) as [H0|H0].
  - split; [done|]. unfold row_slice. rewrite Hlen'. unfold rs'. cbn [kr_key_count kr_values]. rewrite Hk, H0, Z.mul_0_r. cbn.
    rewrite (zlen_0 codes), Z.mul_0_r by lia. done.
  - pose proof (zlen_nonneg keys). rewrite Z.div_mul by done. rewrite Z.mod_small by nia. split; [done|].
    unfold row_slice. rewrite Hlen'. unfold rs'. cbn [kr_key_count kr_values]. rewrite Hk, (proj2 (Z.leb_le _ _)) by lia. f_equal.
    rewrite <- (app_nil_r (kr_values rs ++ codes)), <- app_assoc. apply slice_app; lia.
Qed.

Section keyset_spec.
Context {S SE : Type} `{HSL : SymbolTableLaws S SE} `{HH : LabelSetHashers}.
Abbreviation store_error := (LabelSetStoreError SE).
Abbreviation Store := (KeySetStore S).
Abbreviation symbol_count symbols := (zlen (symbols_of symbols)).

(** *** Encoding: the same symbols as a flat store, with codes that resolve to them *)

Definition codes_encode (dicts : gmap Z ValueCodeDict) (r : result store_error (list Z * list Z)) (r' : result store_error row) : Prop :=
  match r, r' with
  | Ok (keys, codes), Ok encoded =>
      length keys = length codes ∧ Forall in_u32 codes ∧ resolve_codes dicts keys codes = Some encoded
  | Err e, Err e' => e = e'
  | _, _ => False
  end.

Lemma keyset_encode_spec labels : ∀ symbols dicts keys codes acc, st_ok symbols → dicts_ok (symbol_count symbols) dicts →
  codes_encode dicts (Ok (keys, codes)) (Ok acc) → ∃ r symbols' dicts' r',
  keyset_encode_loop symbols dicts labels keys codes = Some (r, symbols', dicts') ∧
  st_ok symbols' ∧ dicts_ok (symbol_count symbols') dicts' ∧ dicts_le dicts dicts' ∧ codes_encode dicts' r r' ∧
  encoded_ok (symbols_of symbols) (symbols_of symbols') labels acc r' ∧
  ∀ encoded k v, r' = Ok encoded → in_dict dicts' k v → in_dict dicts k v ∨ mk_ikv k v ∈ encoded.
Proof.
  induction labels as [|label labels IH]; intros symbols dicts keys codes acc Hok Hds Hacc.
  { exists (Ok (keys, codes)), symbols, dicts, (Ok acc). do 5 (split; [done || reflexivity|]). split; [|by left]. split; [done|].
    exists []. by rewrite app_nil_r. }
  destruct (intern_pair_spec symbols label Hok) as (r & s1 & Hi & Hok1 & Hp & Hr). cbn [keyset_encode_loop]. rewrite Hi. cbn [mbind option_bind].
  assert (symbol_count symbols ≤ symbol_count s1) as Hcount.
  { destruct Hp as [k ->]. rewrite zlen_app. pose proof (zlen_nonneg k). lia. }
  assert (dicts_ok (symbol_count s1) dicts) as Hds1 by (intros k d Hd; eapply dict_ok_mono; [done|by apply (Hds k)]).
  destruct r as [kv|e]; cycle 1.
  { exists (Err e), s1, dicts, (Err e). do 5 (split; [done || reflexivity|]). split; [|done]. split; [done|]. by intros [Hk _]%Forall_cons_1. }
  destruct Hr as [Hkv Hat]. destruct (dict_intern _ _) as [code d] eqn:Hd. pose proof (dict_intern_values _ _ _ _ Hd) as Hvals.
  apply (dict_intern_spec (symbol_count s1)) in Hd as (Hd & Hc & Hres & Hle);
    [|destruct (dicts !! ik_key kv) eqn:Hk; [by apply (Hds1 (ik_key kv))|apply dict_default_ok]|apply Hkv|by apply st_len_ok].
  set (dicts1 := <[ik_key kv := d]> dicts).
  assert (dicts_le dicts dicts1) as Hle1.
  { intros k d0 Hd0. unfold dicts1. destruct (decide (k = ik_key kv)) as [->|Hne].
    - exists d. rewrite lookup_insert_eq. by rewrite Hd0 in Hle.
    - exists d0. by rewrite lookup_insert_ne. }
  destruct (IH s1 dicts1 (keys ++ [ik_key kv]) (codes ++ [code]) (acc ++ [kv])) as (r & s2 & dicts2 & r' & Hl & Hok2 & Hds2 & Hle2 & Hc2 & He & Hin).
  - done.
  - by apply map_Forall_insert_2.
  - destruct Hacc as (Hlen & Hpos & Hr). split_and!; [rewrite !length_app, Hlen; done|by apply Forall_snoc|]. destruct kv as [k v].
    apply resolve_codes_snoc; [done|by eapply resolve_codes_le|]. unfold dict_value, dicts1. by rewrite lookup_insert_eq.
  - exists r, s2, dicts2, r'. split; [done|]. do 2 (split; [done|]). split; [by etrans|]. split; [done|]. split; [by eapply encoded_cons|].
    intros encoded k v -> [(d0 & Hd0 & Hv0)|Hv0]%(Hin encoded); [|by right|done]. unfold dicts1 in Hd0. destruct (decide (k = ik_key kv)) as [->|Hne].
    + rewrite lookup_insert_eq in Hd0. injection Hd0 as <-. apply Hvals in Hv0 as [Hv0| ->].
      * left. destruct (dicts !! ik_key kv) as [d0|] eqn:Hk; [by exists d0|]. by apply not_elem_of_nil in Hv0.
      * right. destruct He as [_ (new & -> & _)]. destruct kv. rewrite <- app_assoc. apply elem_of_app. right. by left.
    + rewrite lookup_insert_ne in Hd0 by done. left. by exists d0.
Qed.

(** *** The store's rows *)

Definition entry_row (s : Store) (e : SeriesEntry) : row := default [] (keyset_row s e).
Definition keyset_rows (s : Store) : list row := entry_row s <$> ks_series s.
Definition keyset_labelsets (s : Store) : list labelset := row_labels (symbols_of (ks_symbols s)) <$> keyset_rows s.
Definition row_hash (s : Store) (r : row) : Z := labelset_hash (row_labels (symbols_of (ks_symbols s)) r).

(** An entry is a row of symbols in the table. *)
Definition entry_ok (s : Store) (e : SeriesEntry) : Prop :=
  0 ≤ se_keyset_id e ∧ 0 ≤ se_row e ∧ keyset_row s e = Some (entry_row s e) ∧ row_valid (symbols_of (ks_symbols s)) (entry_row s e).

Record keyset_inv (s : Store) : Prop := {
  ko_symbols : st_ok (ks_symbols s);
  ko_keysets : indexed (kt_keyset_to_id (ks_keysets s)) (kt_id_to_keyset (ks_keysets s));
  ko_dicts : dicts_ok (symbol_count (ks_symbols s)) (ks_value_dicts s);
  ko_rows : Forall2 rows_ok (kt_id_to_keyset (ks_keysets s)) (ks_rows s);
  ko_bound : Forall (λ rs, zlen (kr_values rs) ≤ zlen (ks_series s) * kr_key_count rs) (ks_rows s);
  ko_entries : Forall (entry_ok s) (ks_series s);
  ko_nodup : NoDup (keyset_rows s);
  ko_chains : chains_ok (row_hash s) (ks_chains s) (keyset_rows s);
}.
(** Between operations every key set has a series. *)
Definition keyset_ok (s : Store) : Prop := keyset_inv s ∧ zlen (kt_id_to_keyset (ks_keysets s)) ≤ zlen (ks_series s).

Lemma keyset_new_ok symbols : st_ok symbols → keyset_ok (keyset_store_new symbols).
Proof.
  intros Hs. split; [|done]. split; [done|apply indexed_nil|apply map_Forall_empty|by apply Forall2_nil|by apply Forall_nil|by apply Forall_nil|apply NoDup_nil_2|apply no_chains_ok].
Qed.

(** What growth keeps. *)
Record store_le (s s' : Store) : Prop := {
  le_symbols : symbols_of (ks_symbols s) `prefix_of` symbols_of (ks_symbols s');
  le_keysets : kt_id_to_keyset (ks_keysets s) `prefix_of` kt_id_to_keyset (ks_keysets s');
  le_dicts : dicts_le (ks_value_dicts s) (ks_value_dicts s');
  le_rows i rs : ks_rows s !! i = Some rs → ∃ rs', ks_rows s' !! i = Some rs' ∧ rows_le rs rs';
}.

Lemma keyset_row_inv s e r : keyset_inv s → 0 ≤ se_row e → keyset_row s e = Some r → ∃ keys rs codes,
  kt_id_to_keyset (ks_keysets s) !! Z.to_nat (se_keyset_id e) = Some keys ∧ ks_rows s !! Z.to_nat (se_keyset_id e) = Some rs ∧
  rows_ok keys rs ∧ row_slice rs (se_row e) = Some codes ∧ length codes = length keys ∧ Forall in_u32 codes ∧
  resolve_codes (ks_value_dicts s) keys codes = Some r.
Proof.
  intros Hinv Hr (keys & Hk & (rs & Hrs & (codes & Hc & Hres)%bind_Some)%bind_Some)%bind_Some.
  pose proof (Forall2_lookup_lr _ _ _ _ _ _ (ko_rows _ Hinv) Hk Hrs) as Hok. destruct (row_slice_codes keys rs _ codes Hok Hr Hc) as [? ?].
  by exists keys, rs, codes.
Qed.
Lemma keyset_row_le s s' e r : keyset_inv s → store_le s s' → 0 ≤ se_row e → keyset_row s e = Some r → keyset_row s' e = Some r.
Proof.
  intros Hinv [_ Hks Hds Hrs] Hr Hrow. destruct (keyset_row_inv s e r Hinv Hr Hrow) as (keys & rs & codes & Hk & Hrows & (Hc0 & _) & Hc & _ & _ & Hres).
  unfold keyset_row, keyset_resolve. rewrite (prefix_lookup_Some _ _ _ _ Hk Hks). cbn. destruct (Hrs _ _ Hrows) as (rs' & -> & Hle). cbn.
  rewrite (row_slice_le rs rs' _ codes); [|done|done|rewrite Hc0; apply zlen_nonneg|done]. cbn. by eapply resolve_codes_le.
Qed.
Lemma entry_le s s' e : keyset_inv s → store_le s s' → entry_ok s e → entry_ok s' e ∧ entry_row s' e = entry_row s e.
Proof.
  intros Hinv Hle (Hk & Hr & Hrow & Hv). pose proof (keyset_row_le s s' e _ Hinv Hle Hr Hrow) as Hrow'.
  assert (entry_row s' e = entry_row s e) as Heq by (unfold entry_row at 1; by rewrite Hrow'). split; [|done].
  split; [done|]. split; [done|]. rewrite Heq. split; [done|]. by apply (row_labels_prefix _ _ _ (le_symbols _ _ Hle) Hv).
Qed.
Lemma keyset_rows_le s s' series : keyset_inv s → store_le s s' → Forall (entry_ok s) series →
  Forall (entry_ok s') series ∧ entry_row s' <$> series = entry_row s <$> series.
Proof.
  intros Hinv Hle Hs. split; [eapply Forall_impl; [exact Hs|]; intros e He; by apply (entry_le s s' e)|].
  apply list_fmap_ext. intros i e Hi. by apply (entry_le s s' e), (Forall_lookup_1 _ _ _ _ Hs Hi).
Qed.
Lemma entries_valid s : keyset_inv s → Forall (row_valid (symbols_of (ks_symbols s))) (keyset_rows s).
Proof. intros Hinv. apply Forall_fmap. eapply Forall_impl; [apply (ko_entries _ Hinv)|]. by intros e (_ & _ & _ & ?). Qed.
Lemma row_hash_le s s' rows : symbols_of (ks_symbols s) `prefix_of` symbols_of (ks_symbols s') →
  Forall (row_valid (symbols_of (ks_symbols s))) rows → ∀ r, r ∈ rows → row_hash s r = row_hash s' r.
Proof. intros Hp Hv r Hr. unfold row_hash. by rewrite (proj1 (row_labels_prefix _ _ r Hp (proj1 (Forall_forall _ _) Hv r Hr))). Qed.

(** Symbols, dictionaries, key sets and rows may grow under the same series. *)
Lemma keyset_grow s symbols keysets dicts rows : keyset_inv s → let s' := mk_keyset_store (ks_chains s) symbols keysets dicts rows (ks_series s) in
  store_le s s' → st_ok symbols → indexed (kt_keyset_to_id keysets) (kt_id_to_keyset keysets) → dicts_ok (symbol_count symbols) dicts →
  Forall2 rows_ok (kt_id_to_keyset keysets) rows → Forall (λ rs, zlen (kr_values rs) ≤ zlen (ks_series s) * kr_key_count rs) rows →
  keyset_inv s' ∧ keyset_rows s' = keyset_rows s ∧ keyset_labelsets s' = keyset_labelsets s.
Proof.
  intros Hinv s' Hle Hs Hk Hd Hr Hb. destruct (keyset_rows_le s s' (ks_series s) Hinv Hle (ko_entries _ Hinv)) as [He Hrows].
  pose proof (entries_valid s Hinv) as Hval.
  assert (keyset_rows s' = keyset_rows s) as Heq by exact Hrows. split; [|split; [done|]].
  - split; [done|done|done|done|done|done|rewrite Heq; apply (ko_nodup _ Hinv)|]. rewrite Heq.
    eapply chains_ok_ext; [|apply (ko_chains _ Hinv)]. apply (row_hash_le s s'); [apply Hle|done].
  - unfold keyset_labelsets. rewrite Heq. apply list_fmap_ext. intros i r Hi. apply (row_labels_prefix _ _ r (le_symbols _ _ Hle)). by apply (Forall_lookup_1 _ _ _ _ Hval Hi).
Qed.

(** *** Operations *)

(** A key set of a table, old or new. *)
Lemma keyset_intern_spec t keys id new t' : indexed (kt_keyset_to_id t) (kt_id_to_keyset t) → zlen (kt_id_to_keyset t) ≤ u32_max →
  keyset_intern t keys = (id, new, t') → indexed (kt_keyset_to_id t') (kt_id_to_keyset t') ∧ 0 ≤ id ∧
    kt_id_to_keyset t' !! Z.to_nat id = Some keys ∧
    kt_id_to_keyset t' = kt_id_to_keyset t ++ (if new then [keys] else []) ∧ (new = true → keys ∉ kt_id_to_keyset t).
Proof.
  intros Hi Hu. unfold keyset_intern. destruct (kt_keyset_to_id t !! keys) as [i|] eqn:Hk.
  - intros [= <- <- <-]. apply (indexed_at _ _ _ _ Hi) in Hk as [? ?]. rewrite app_nil_r. by split_and!.
  - pose proof (zlen_nonneg (kt_id_to_keyset t)). rewrite Z.mod_small by lia. intros [= <- <- <-]. cbn [kt_keyset_to_id kt_id_to_keyset].
    split; [by apply indexed_snoc|]. split; [done|]. split; [unfold zlen; by rewrite Nat2Z.id, lookup_app_r, Nat.sub_diag|].
    split; [done|]. intros _. apply not_interned. by rewrite <- (proj2 Hi).
Qed.

(** The codes of a label set, under its key set. *)
Definition encoded_in (s : Store) (keyset_id : Z) (codes : list Z) (encoded : row) : Prop :=
  0 ≤ keyset_id ∧ Forall in_u32 codes ∧ row_valid (symbols_of (ks_symbols s)) encoded ∧
  ∃ keys, kt_id_to_keyset (ks_keysets s) !! Z.to_nat keyset_id = Some keys ∧ length codes = length keys ∧
    resolve_codes (ks_value_dicts s) keys codes = Some encoded.

Lemma keyset_encode_ok s labels : keyset_ok s → zlen (ks_series s) ≤ u32_max → is_canonical labels = true → ∃ r s',
  keyset_encode s labels = Some (r, s') ∧ keyset_inv s' ∧ ks_series s' = ks_series s ∧ keyset_labelsets s' = keyset_labelsets s ∧
  match r with
  | Err _ => keyset_ok s' ∧ ¬ Forall (known (symbols_of (ks_symbols s))) (normalize_labelset labels)
  | Ok (hash, keyset_id, codes) => ∃ encoded, encoded_in s' keyset_id codes encoded ∧ hash = row_hash s' encoded ∧
      row_labels (symbols_of (ks_symbols s')) encoded = normalize_labelset labels ∧
      (∀ k v, in_dict (ks_value_dicts s') k v → in_dict (ks_value_dicts s) k v ∨ mk_ikv k v ∈ encoded) ∧ keyset_rows s' = keyset_rows s ∧
      (keyset_ok s' ∨ encoded ∉ keyset_rows s' ∧ zlen (kt_id_to_keyset (ks_keysets s')) ≤ zlen (ks_series s) + 1)
  end.
Proof.
  intros [Hinv Hkb] Hlen Hcan. destruct (keyset_encode_spec labels (ks_symbols s) (ks_value_dicts s) [] [] [] (ko_symbols _ Hinv) (ko_dicts _ Hinv))
    as (r & symbols & dicts & r' & He & Hok & Hds & Hle & Hcodes & Henc & Hvals); [by split_and!; [|apply Forall_nil|]|].
  unfold keyset_encode. rewrite Hcan, He. cbn [negb mbind option_bind]. destruct Henc as [Hp Hr].
  assert (∀ keysets rows, kt_id_to_keyset (ks_keysets s) `prefix_of` kt_id_to_keyset keysets → ks_rows s `prefix_of` rows →
    store_le s (mk_keyset_store (ks_chains s) symbols keysets dicts rows (ks_series s))) as Hgrow.
  { intros keysets rows Hk Hrows. split; [done|done|done|]. intros i rs Hi. exists rs. split; [by eapply prefix_lookup_Some|done]. }
  destruct r as [[keys codes]|e], r' as [encoded|e']; try done; cycle 1.
  { destruct (keyset_grow s symbols (ks_keysets s) dicts (ks_rows s) Hinv) as (Hinv' & _ & Hlab); [by apply Hgrow|done|by destruct Hinv..|].
    eexists _, _. split; [done|]. split; [done|]. split; [done|]. split; [done|]. split; [by split|done]. }
  destruct Hcodes as (Hl & Hpos & Hres), Hr as (new & -> & Hv & Hlab). cbn [app] in *.
  destruct (keyset_intern _ _) as [[id is_new] keysets] eqn:Hid.
  destruct (keyset_intern_spec (ks_keysets s) keys id is_new keysets (ko_keysets _ Hinv) ltac:(lia) Hid) as (Hidx & Hid0 & Hat & Happ & Hnew).
  set (rows := if is_new then _ else _).
  assert (Forall2 rows_ok (kt_id_to_keyset keysets) rows ∧ Forall (λ rs, zlen (kr_values rs) ≤ zlen (ks_series s) * kr_key_count rs) rows ∧
    ks_rows s `prefix_of` rows) as (Hro & Hbo & Hpre).
  { unfold rows. rewrite Happ. destruct is_new; [|rewrite app_nil_r; split_and!; [apply Hinv|apply Hinv|done]]. split_and!.
    - apply Forall2_app; [apply Hinv|]. apply Forall2_cons. split; [|by apply Forall2_nil]. split; [done|]. split; [by exists 0|by apply Forall_nil].
    - apply Forall_snoc; [apply Hinv|]. pose proof (zlen_nonneg keys). pose proof (zlen_nonneg (ks_series s)). by apply Z.mul_nonneg_nonneg.
    - by exists [mk_rows (zlen keys) []]. }
  destruct (keyset_grow s symbols keysets dicts rows Hinv) as (Hinv' & Hrows & Hlabs); [apply Hgrow; [rewrite Happ; by eexists|done]|done..|].
  eexists _, _. split; [done|]. split; [done|]. split; [done|]. split; [done|]. exists new. split; [|split; [|split; [done|split; [|split; [done|]]]]].
  - split; [done|]. split; [done|]. split; [done|]. by exists keys.
  - unfold row_hash. cbn [ks_symbols]. by rewrite Hlab.
  - intros k v. by apply Hvals.
  - destruct is_new; [right|left; split; [done|]; cbn; by rewrite Happ, app_nil_r].
    split; [|cbn; rewrite Happ, zlen_app; change (zlen [keys]) with 1; lia]. rewrite Hrows. intros (e & Heq & He0)%list_elem_of_fmap.
    destruct (proj1 (Forall_forall _ _) (ko_entries _ Hinv) e He0) as (_ & Hrow0 & Hrow & _).
    destruct (keyset_row_inv s e _ Hinv Hrow0 Hrow) as (keys' & _ & codes' & Hk' & _ & _ & _ & Hl' & _ & Hres').
    apply resolve_codes_keys in Hres'; [|done]. apply resolve_codes_keys in Hres; [|done].
    apply Hnew; [done|]. rewrite <- Hres, Heq, Hres'. by eapply list_elem_of_lookup_2.
Qed.

Lemma keyset_same_spec s keyset_id codes encoded id : keyset_inv s → encoded_in s keyset_id codes encoded → 0 ≤ id < zlen (keyset_rows s) →
  keyset_same s keyset_id codes id = Some (bool_decide (keyset_rows s !! Z.to_nat id = Some encoded)).
Proof.
  intros Hinv (Hk0 & Hpos & _ & keys & Hk & Hlen & Hres) Hid. unfold keyset_same, keyset_rows in *. rewrite list_lookup_fmap.
  destruct (lookup_lt_is_Some_2 (ks_series s) (Z.to_nat id)) as [e He]; [unfold zlen in Hid; rewrite length_fmap in Hid; lia|].
  rewrite He. cbn. destruct (Forall_lookup_1 _ _ _ _ (ko_entries _ Hinv) He) as (Hek & Her & Hrow & _).
  destruct (keyset_row_inv s e _ Hinv Her Hrow) as (keys' & rs & codes' & Hk' & Hrs & _ & Hs & Hlen' & Hpos' & Hres').
  pose proof (resolve_codes_keys _ _ _ _ (eq_sym Hlen) Hres) as Hkeys. pose proof (resolve_codes_keys _ _ _ _ (eq_sym Hlen') Hres') as Hkeys'.
  unfold keyset_labels_equal. destruct (Z.eqb_spec (se_keyset_id e) keyset_id) as [Heq|Hne]; cbn [negb].
  - rewrite Hrs. cbn. rewrite Hs. cbn. f_equal. apply bool_decide_ext. rewrite Heq, Hk in Hk'. injection Hk' as <-. split.
    + intros ->. rewrite Hres in Hres'. by injection Hres' as ->.
    + intros [= Hr]. rewrite Hr in Hres'. by eapply resolve_codes_inj; [apply (ko_dicts _ Hinv)|..].
  - f_equal. symmetry. apply bool_decide_eq_false_2. intros [= Hr]. rewrite Hr in Hkeys'. rewrite Hkeys in Hkeys'. subst keys'.
    apply Hne. pose proof (NoDup_lookup _ _ _ _ (proj1 (ko_keysets _ Hinv)) Hk Hk'). lia.
Qed.

(** A new row: the others stay, and it is where its entry says. *)
Lemma keyset_push_spec s keyset_id codes encoded : keyset_inv s → encoded_in s keyset_id codes encoded → encoded ∉ keyset_rows s →
  zlen (ks_series s) ≤ u32_max → ∃ s', keyset_push s (row_hash s encoded) keyset_id codes = Some (zlen (ks_series s), s') ∧ keyset_inv s' ∧
    keyset_rows s' = keyset_rows s ++ [encoded] ∧ ks_value_dicts s' = ks_value_dicts s ∧ ks_symbols s' = ks_symbols s ∧ ks_keysets s' = ks_keysets s ∧ zlen (ks_series s') = zlen (ks_series s) + 1.
Proof.
  intros Hinv (Hk0 & Hpos & Hval & keys & Hk & Hlen & Hres) Hnew Hu. pose proof Hinv as [Hsy Hks Hds Hro Hbo Hen Hnd Hch].
  destruct (Forall2_lookup_l _ _ _ _ _ Hro Hk) as (rs & Hrs & Hok). pose proof (Forall_lookup_1 _ _ _ _ Hbo Hrs) as Hb. cbn in Hb.
  destruct (rows_push keys rs codes (zlen (ks_series s)) Hok Hlen Hpos Hb Hu) as (Hok' & Hb' & Hle' & Hc0 & Hsl).
  unfold keyset_push. rewrite Hrs. cbn [mbind option_bind]. pose proof (zlen_nonneg (ks_series s)). rewrite Z.mod_small by lia.
  eexists. split; [done|]. match goal with |- keyset_inv ?x ∧ _ => set (s' := x) end. set (rs' := mk_rows (kr_key_count rs) (kr_values rs ++ codes)) in *.
  pose proof (lookup_lt_Some _ _ _ Hrs) as Hlt.
  assert (store_le s s') as Hle.
  { split; [done|done|cbn; reflexivity|]. intros i rs0 Hi. cbn [s' ks_rows]. destruct (decide (i = Z.to_nat keyset_id)) as [->|Hne].
    - rewrite Hrs in Hi. injection Hi as <-. exists rs'. by rewrite list_lookup_insert_eq.
    - exists rs0. rewrite list_lookup_insert_ne by done. split; [done|reflexivity]. }
  destruct (keyset_rows_le s s' (ks_series s) Hinv Hle Hen) as [Hen' Hrows]. set (e := mk_entry keyset_id (rows_count rs)).
  assert (keyset_row s' e = Some encoded) as Hrow.
  { unfold keyset_row, keyset_resolve, s', e. cbn [ks_keysets ks_rows ks_value_dicts se_keyset_id se_row]. rewrite Hk. cbn.
    rewrite list_lookup_insert_eq by done. cbn [mbind option_bind]. fold rs'. by rewrite Hsl. }
  assert (entry_row s' e = encoded) as Her by (unfold entry_row; by rewrite Hrow).
  assert (keyset_rows s' = keyset_rows s ++ [encoded]) as Hrows'.
  { unfold keyset_rows. cbn [s' ks_series]. rewrite fmap_app, list_fmap_singleton. fold s'. fold e. by rewrite Hrows, Her. }
  split; [|split_and!; [done|done|done|done|cbn; by rewrite zlen_app]]. split.
  - done.
  - done.
  - done.
  - cbn [s' ks_rows ks_keysets]. apply Forall2_same_length_lookup_2; [by rewrite length_insert; apply (Forall2_length _ _ _ Hro)|].
    intros i ks0 rs0 Hi. destruct (decide (i = Z.to_nat keyset_id)) as [->|Hne].
    + rewrite list_lookup_insert_eq by done. intros [= <-]. rewrite Hk in Hi. by injection Hi as <-.
    + rewrite list_lookup_insert_ne by done. intros Hi'. by eapply Forall2_lookup_lr.
  - cbn [s' ks_rows ks_series]. rewrite zlen_app. change (zlen [_]) with 1. apply Forall_insert; [|exact Hb'].
    eapply Forall_impl; [apply Forall_and; split; [exact Hbo|exact (Forall2_Forall_r _ (λ rs, 0 ≤ kr_key_count rs) _ _ Hro ltac:(apply Forall_forall; intros k _ r0 (-> & _); apply zlen_nonneg))]|].
    intros r0 [? ?]. cbn in *. nia.
  - cbn [s' ks_series]. fold s'. apply Forall_snoc; [done|]. fold e. split; [done|]. split; [done|]. rewrite Her. by split.
  - rewrite Hrows'. apply NoDup_app. split_and!; [done| |apply NoDup_singleton]. by intros x Hx ->%list_elem_of_singleton.
  - rewrite Hrows'. cbn [s' ks_chains]. fold s'. assert (zlen (ks_series s) = zlen (keyset_rows s)) as -> by (unfold keyset_rows, zlen; by rewrite length_fmap).
    by apply (chain_insert_ok (row_hash s)).
Qed.

Lemma keyset_labels_nodup s : keyset_inv s → NoDup (keyset_labelsets s).
Proof.
  intros Hinv. pose proof (entries_valid s Hinv) as Hv. apply NoDup_fmap_2_strong; [|apply (ko_nodup _ Hinv)]. intros x y Hx Hy.
  apply row_labels_inj; [by apply st_nodup, Hinv|by apply (proj1 (Forall_forall _ _) Hv)..].
Qed.

(** Every value of a dictionary is in a row. *)
Definition dicts_used (s : Store) : Prop := ∀ k v, in_dict (ks_value_dicts s) k v → ∃ rw, rw ∈ keyset_rows s ∧ mk_ikv k v ∈ rw.

Lemma keyset_intern_ok s labels : keyset_ok s → zlen (ks_series s) ≤ u32_max → is_canonical labels = true → ∃ (r : result store_error Z) s',
  keyset_store_intern s labels = Some (r, s') ∧ keyset_ok s' ∧ interning (keyset_labelsets s) (normalize_labelset labels) r (keyset_labelsets s') ∧
  ∀ a, r = Ok a → dicts_used s → dicts_used s'.
Proof.
  intros Hok Hlen Hcan. destruct (keyset_encode_ok s labels Hok Hlen Hcan) as (r & s1 & He & Hinv & Hse & Hls & Hr).
  unfold keyset_store_intern. rewrite He. cbn [mbind option_bind]. rewrite <- Hls. destruct r as [[[hash id] codes]|e]; cycle 1.
  { destruct Hr as [Hok1 Hr]. exists (Err e), s1. split; [done|]. split; [done|]. split; [|done]. unfold interning.
    destruct (index_of _ _) as [i|] eqn:Hi; [|right; split; [by eexists|done]].
    apply index_of_at in Hi as [_ Hi]; [|by apply keyset_labels_nodup]. apply list_elem_of_lookup_2 in Hi. exfalso. apply Hr.
    rewrite Hls in Hi. apply list_elem_of_fmap in Hi as (rw & -> & Hi). destruct Hok as [Hinv0 _].
    pose proof (proj1 (Forall_forall _ _) (entries_valid s Hinv0) _ Hi) as Hv. apply Forall_fmap. eapply Forall_impl; [exact Hv|].
    intros kv. apply pair_known. }
  destruct Hr as (encoded & Hin & -> & <- & Hvals & Hrs & Hnew). pose proof (ko_nodup _ Hinv) as Hnd.
  destruct (chain_find (row_hash s1) (ks_chains s1) (keyset_rows s1) encoded (keyset_same s1 id codes) 0 (ko_chains _ Hinv) Hnd) as (n & -> & _);
    [intros; by apply keyset_same_spec|]. cbn [mbind option_bind].
  pose proof (entries_valid s1 Hinv) as Hval. pose proof Hin as (_ & _ & Hv & _).
  assert (∀ (r : result store_error Z) l', interning (keyset_rows s1) encoded r l' →
    interning (keyset_labelsets s1) (row_labels (symbols_of (ks_symbols s1)) encoded) r (row_labels (symbols_of (ks_symbols s1)) <$> l')) as Hmap.
  { intros r l'. apply interning_fmap. intros y Hy. apply row_labels_inj; [by apply st_nodup, Hinv|by apply (proj1 (Forall_forall _ _) Hval)|done]. }
  destruct (index_of encoded (keyset_rows s1)) as [i|] eqn:Hi.
  - exists (Ok i), s1. split; [done|]. split; [|split; [apply Hmap; unfold interning; by rewrite Hi|]]; cycle 1.
    { intros _ _ Hu k v [Hv0|Hv0]%Hvals; [rewrite Hrs; by apply Hu|]. exists encoded. split; [|done].
      apply index_of_at in Hi as [_ Hi]; [|done]. by eapply list_elem_of_lookup_2. }
    destruct Hnew as [?|[Hno _]]; [done|]. by apply not_interned in Hno; rewrite Hi in Hno.
  - apply not_interned in Hi as Hno. destruct (keyset_push_spec s1 id codes encoded Hinv Hin Hno) as (s2 & -> & Hinv2 & Hrows & Hds2 & Hsy & Hks & Hz); [by rewrite Hse|].
    cbn [mbind option_bind]. eexists (Ok _), s2. split; [done|]. split.
    + split; [done|]. rewrite Hks, Hz, Hse. destruct Hnew as [[_ Hb]|[_ Hb]]; [rewrite Hse in Hb|]; lia.
    + split; [unfold keyset_labelsets at 2; rewrite Hsy; apply Hmap; unfold interning; rewrite Hi; left; split; [|done]; f_equal|].
      { unfold keyset_rows, zlen. by rewrite length_fmap. }
      intros _ _ Hu k v Hv0. rewrite Hds2 in Hv0. rewrite Hrows. apply Hvals in Hv0 as [Hv0|Hv0].
      * destruct (Hu k v Hv0) as (rw & Hrw & ?). exists rw. split; [|done]. rewrite Hrs. apply elem_of_app. by left.
      * exists encoded. split; [|done]. apply elem_of_app. right. by left.
Qed.

Lemma keyset_visit_ok s i : keyset_inv s → 0 ≤ i → keyset_visit s i = keyset_labelsets s !! Z.to_nat i.
Proof.
  intros Hinv Hi. unfold keyset_visit, keyset_labelsets, keyset_rows. rewrite !list_lookup_fmap.
  destruct (ks_series s !! Z.to_nat i) as [e|] eqn:He; [|done]. cbn.
  destruct (Forall_lookup_1 _ _ _ _ (ko_entries _ Hinv) He) as (_ & _ & -> & Hv). cbn. by apply resolve_row_labels; [apply Hinv|].
Qed.

(** While the symbol table has room, nothing is refused. *)
Lemma keyset_loop_room labels rest : ∀ symbols dicts keys codes, st_ok symbols →
  st_room symbols (label_strings (normalize_labelset labels) ++ rest) →
  ∃ kc symbols' dicts', keyset_encode_loop symbols dicts labels keys codes = Some (Ok (E:=store_error) kc, symbols', dicts') ∧
    st_room symbols' rest.
Proof.
  induction labels as [|label labels IH]; intros symbols dicts keys codes Hok Hroom; [by eexists _, symbols, dicts|].
  cbn [keyset_encode_loop]. destruct (intern_pair_room (SE:=SE) symbols label _ Hok Hroom) as (kv & s1 & -> & Hok1 & Hroom1).
  cbn [mbind option_bind]. destruct (dict_intern _ _) as [code d]. by apply IH.
Qed.
Definition keyset_room (s : Store) (xs : list labelset) : Prop := st_room (ks_symbols s) (session_strings xs).
Lemma keyset_intern_room s labels xs : keyset_ok s → is_canonical labels = true → keyset_room s (labels :: xs) →
  ∀ (r : result store_error Z) s', keyset_store_intern s labels = Some (r, s') → (∃ a, r = Ok a) ∧ keyset_room s' xs.
Proof.
  intros [Hinv _] Hcan Hroom r s'. destruct (keyset_loop_room labels (session_strings xs) (ks_symbols s) (ks_value_dicts s) [] []
    (ko_symbols _ Hinv) Hroom) as ([keys codes] & symbols & dicts & He & Hroom').
  unfold keyset_store_intern, keyset_encode. rewrite Hcan, He. cbn [negb mbind option_bind].
  destruct (keyset_intern _ _) as [[id is_new] keysets]. intros ([existing n] & _ & Hs)%bind_Some.
  destruct existing as [a|]; [injection Hs as <- <-; split; [by eexists|done]|].
  apply bind_Some in Hs as ([a s2] & Hp & [= <- <-]). split; [by eexists|]. unfold keyset_push in Hp.
  by apply bind_Some in Hp as (rows & _ & [= _ <-]).
Qed.

#[export] Instance keyset_store_laws : LabelSetStoreLaws Store store_error.
Proof.
  refine {| ls_ok := keyset_ok; labelsets_of := keyset_labelsets; ls_room := keyset_room |}.
  - intros s [? _]. by apply keyset_labels_nodup.
  - intros s _. cbn. unfold keyset_labelsets, keyset_rows, zlen. by rewrite !length_fmap.
  - intros s i [? _]. by apply keyset_visit_ok.
  - intros s labels Hok Hlen Hcan. destruct (keyset_intern_ok s labels Hok) as (r & s' & Hi & Hok' & Hint & _); [|done|by exists r, s'].
    unfold keyset_labelsets, keyset_rows, zlen in *. by rewrite !length_fmap in Hlen.
  - intros s labels xs Hok Hlen Hcan Hroom. destruct (keyset_intern_ok s labels Hok) as (r & s' & Hi & _); [|done|].
    { unfold keyset_labelsets, keyset_rows, zlen in *. by rewrite !length_fmap in Hlen. }
    destruct (keyset_intern_room s labels xs Hok Hcan Hroom r s' Hi) as [[a ->] Hr]. by exists a, s'.
Defined.
End keyset_spec.

(** C9: the dictionary-encoded store is an interner.  Over any symbol table that
    keeps its contract and any hash, a fresh store takes any canonical label sets
    without a panic and answers as the list of distinct normal forms does, refusing
    none while the symbol table has room for their strings; an accepted label set
    reads back as its normal form, two share a reference exactly when their normal
    forms are equal, and the references, the length and the contents are those of
    the naive store given the accepted label sets.  A label set that is not canonical
    fails the assertion, in any state. *)
Theorem keyset_store_refines {S SE} `{SymbolTableLaws S SE} `{LabelSetHashers} (symbols : S) xs :
  st_ok symbols → zlen xs ≤ u32_max → Forall (λ x, is_canonical x = true) xs →
  ∃ (rs : list (result (LabelSetStoreError SE) Z)) s n,
    intern_all (keyset_store_new symbols) xs = Some (rs, s) ∧ length rs = length xs ∧
    internings [] xs rs (keyset_labelsets s) ∧
    (st_room symbols (session_strings xs) → Forall (λ r, ∃ a, r = Ok a) rs) ∧
    (∀ i x a, xs !! i = Some x → rs !! i = Some (Ok a) →
       0 ≤ a < ls_len s ∧ keyset_visit s a = Some (normalize_labelset x)) ∧
    (∀ i j x y a b, xs !! i = Some x → xs !! j = Some y → rs !! i = Some (Ok a) → rs !! j = Some (Ok b) →
       a = b ↔ normalize_labelset x = normalize_labelset y) ∧
    intern_all (E:=LabelSetStoreError SE) naive_new (accepted xs rs).*1 = Some (Ok <$> (accepted xs rs).*2, n) ∧
    ls_len s = zlen (nv_series n) ∧ (∀ a, 0 ≤ a → keyset_visit s a = naive_visit n a) ∧
    ∀ (s' : KeySetStore S) x, is_canonical x = false → keyset_store_intern (SE:=SE) s' x = None.
Proof.
  intros Hsym Hlen Hcan. pose proof (keyset_new_ok symbols Hsym) as Hnew.
  assert (zlen (keyset_labelsets (keyset_store_new symbols)) + zlen xs ≤ u32_max + 1) as Hfit.
  { change (zlen ([] : list labelset) + zlen xs ≤ u32_max + 1). rewrite zlen_nil. lia. }
  destruct (intern_all_spec (E:=LabelSetStoreError SE) (HL:=keyset_store_laws) xs (keyset_store_new symbols) Hnew Hfit Hcan) as (rs & s & Hall & Hok & Hints & Hroom).
  destruct (agrees_with_naive (SE:=SE) (HL:=keyset_store_laws) xs (keyset_store_new symbols) naive_new rs s Hnew naive_new_ok eq_refl Hfit Hcan Hall)
    as (n & Hn & Hz & Hv).
  destruct (internings_spec xs [] rs (keyset_labelsets s) Hints (NoDup_nil_2)) as (Hnd & _ & Hrs & Hval & _ & _ & _).
  exists rs, s, n. split; [done|]. split; [done|]. split; [exact Hints|]. split; [exact Hroom|].
  split; [|split; [|split; [exact Hn|split; [exact Hz|split; [exact Hv|]]]]].
  - intros i x a Hx Ha. destruct (Hval i x a Hx Ha) as [Ha0 Hl]. rewrite keyset_visit_ok by (done || apply Hok). split; [|done].
    apply lookup_lt_Some in Hl. cbn. unfold keyset_labelsets, keyset_rows, zlen in *. rewrite !length_fmap in Hl. lia.
  - intros i j x y a b Hx Hy Ha Hb. destruct (Hval i x a Hx Ha) as [Ha0 Hla]. destruct (Hval j y b Hy Hb) as [Hb0 Hlb].
    split; [intros ->; congruence|]. intros Heq. rewrite Heq in Hla. pose proof (NoDup_lookup _ _ _ _ Hnd Hla Hlb). lia.
  - intros s' x Hx. unfold keyset_store_intern, keyset_encode. by rewrite Hx.
Qed.

(** *** Cardinalities *)

Section cardinality.
Context {S SE : Type} `{HSL : SymbolTableLaws S SE} `{HH : LabelSetHashers}.
Abbreviation Store := (KeySetStore S).

Lemma session_used xs : ∀ (s : Store) (rs : list (result (LabelSetStoreError SE) Z)) s', keyset_ok s → zlen (keyset_labelsets s) + zlen xs ≤ u32_max + 1 →
  dicts_used s → Forall (λ x, is_canonical x = true) xs → intern_all s xs = Some (rs, s') → Forall (λ r, ∃ a, r = Ok a) rs → dicts_used s'.
Proof.
  induction xs as [|x xs IH]; intros s rs s' Hok Hlen Hu Hcan; [by intros [= <- <-]|]. apply Forall_cons_1 in Hcan as [Hx Hcan]. cbn [intern_all]. rewrite zlen_cons in Hlen. pose proof (zlen_nonneg xs).
  assert (zlen (keyset_labelsets s) = zlen (ks_series s)) as Hz by (unfold keyset_labelsets, keyset_rows, zlen; by rewrite !length_fmap).
  destruct (keyset_intern_ok (SE:=SE) s x Hok) as (r & s1 & Hi & Hok1 & Hint & Hu1); [lia|done|].
  change (ls_intern s x) with (keyset_store_intern (SE:=SE) s x). rewrite Hi. cbn [mbind option_bind].
  destruct (intern_all s1 xs) as [[rs1 s2]|] eqn:Hall; [|done]. intros [= <- <-] [[a ->] Hrs]%Forall_cons_1.
  apply (IH s1 rs1); [done|pose proof (interning_grows _ _ _ _ Hint); lia|by apply (Hu1 a)|done|done|done].
Qed.

(** A pair of a label set and the dictionary of its key. *)
Lemma labelset_in_dict (s : Store) labels key v : keyset_inv s → labels ∈ keyset_labelsets s → (key, v) ∈ labels → ∃ k x,
  index_of key (symbols_of (ks_symbols s)) = Some k ∧ in_dict (ks_value_dicts s) k x ∧ symbol_at (symbols_of (ks_symbols s)) x = v.
Proof.
  intros Hinv (rw & -> & (e & -> & He)%list_elem_of_fmap)%list_elem_of_fmap (kv & Heq & Hkv)%list_elem_of_fmap.
  destruct (proj1 (Forall_forall _ _) (ko_entries _ Hinv) e He) as (_ & Hr & Hrow & Hval).
  pose proof (proj1 (Forall_forall _ _) Hval kv Hkv) as [Hk0 _]. unfold pair_at in Heq. injection Heq as -> ->.
  destruct (keyset_row_inv s e _ Hinv Hr Hrow) as (keys & rs & codes & _ & _ & _ & _ & _ & _ & Hres). exists (ik_key kv), (ik_value kv).
  split; [|split; [|done]].
  - apply index_of_at; [by apply st_nodup, Hinv|]. split; [lia|]. unfold symbol_at.
    destruct (lookup_lt_is_Some_2 (symbols_of (ks_symbols s)) (Z.to_nat (ik_key kv))) as [y Hy]; [unfold zlen in Hk0; lia|]. by rewrite Hy.
  - unfold resolve_codes in Hres. apply mapM_Some in Hres. apply list_elem_of_lookup in Hkv as [i Hi].
    destruct (Forall2_lookup_r _ _ _ _ _ Hres Hi) as ([k c] & _ & (x & Hx & [= <-])%bind_Some). by eapply dict_value_in.
Qed.

Lemma key_cardinality_spec (s : Store) key : keyset_inv s → dicts_used s →
  match keyset_key_cardinality s key with
  | Some (Some n) => ∃ values, NoDup values ∧ zlen values = n ∧ ∀ v, v ∈ values ↔ ∃ labels, labels ∈ keyset_labelsets s ∧ (key, v) ∈ labels
  | Some None => ∀ labels v, labels ∈ keyset_labelsets s → (key, v) ∉ labels
  | None => False
  end.
Proof.
  intros Hinv Hu. unfold keyset_key_cardinality. pose proof (ko_symbols _ Hinv) as Hsy. rewrite st_lookup_ok by done. cbn [mbind option_bind].
  set (syms := symbols_of (ks_symbols s)) in *. pose proof (st_nodup _ Hsy) as Hnd. fold syms in Hnd.
  destruct (index_of key syms) as [k|] eqn:Hk; cbn [mbind option_bind]; cycle 1.
  { intros labels v Hl Hv. destruct (labelset_in_dict s labels key v Hinv Hl Hv) as (k & _ & Hk' & _). fold syms in Hk'. congruence. }
  destruct (ks_value_dicts s !! k) as [d|] eqn:Hd; cbn [mbind option_bind]; cycle 1.
  { intros labels v Hl Hv. destruct (labelset_in_dict s labels key v Hinv Hl Hv) as (k' & x & Hk' & (d & Hd' & _) & _). fold syms in Hk'. congruence. }
  destruct (ko_dicts _ Hinv k d Hd) as [[Hdn _] Hdv]. fold syms in Hdv. exists (symbol_at syms <$> vd_code_to_value d).
  apply index_of_at in Hk as Hk'; [|done]. destruct Hk' as [Hk0 Hka].
  split; [|split; [unfold dict_cardinality, zlen; by rewrite length_fmap|]].
  - apply NoDup_fmap_2_strong; [|done]. intros x y Hx Hy. apply symbol_at_inj; [done|..];
      [by apply (proj1 (Forall_forall _ _) Hdv x)|by apply (proj1 (Forall_forall _ _) Hdv y)].
  - intros v. split.
    + intros (x & -> & Hx)%list_elem_of_fmap. destruct (Hu k x) as (rw & Hrw & Hin); [by exists d|].
      exists (row_labels syms rw). split; [by apply list_elem_of_fmap_2|]. apply list_elem_of_fmap. eexists. split; [|exact Hin].
      unfold pair_at. cbn. f_equal. unfold symbol_at. by rewrite Hka.
    + intros (labels & Hl & Hv). destruct (labelset_in_dict s labels key v Hinv Hl Hv) as (k' & x & Hk' & (d' & Hd' & Hx) & Heq).
      fold syms in Hk', Heq. rewrite Hk in Hk'. injection Hk' as <-. rewrite Hd in Hd'. injection Hd' as <-. subst v. by apply list_elem_of_fmap_2.
Qed.

(** Cardinalities are exact as long as nothing was refused.  After any label
    sets, all accepted by a fresh store, the cardinality of a key is the number of
    its distinct values in their normal forms, and a key without a cardinality is in
    none of them. *)
Theorem key_cardinality_exact (symbols : S) xs (rs : list (result (LabelSetStoreError SE) Z)) s key :
  st_ok symbols → zlen xs ≤ u32_max → Forall (λ x, is_canonical x = true) xs →
  intern_all (keyset_store_new symbols) xs = Some (rs, s) → Forall (λ r, ∃ a, r = Ok a) rs →
  match keyset_key_cardinality s key with
  | Some (Some n) => ∃ values, NoDup values ∧ zlen values = n ∧ ∀ v, v ∈ values ↔ ∃ x, x ∈ xs ∧ (key, v) ∈ normalize_labelset x
  | Some None => ∀ x v, x ∈ xs → (key, v) ∉ normalize_labelset x
  | None => False
  end.
Proof.
  intros Hsym Hlen Hcan Hall Hrs. pose proof (keyset_new_ok symbols Hsym) as Hnew.
  assert (zlen (keyset_labelsets (keyset_store_new symbols)) + zlen xs ≤ u32_max + 1) as Hfit.
  { change (zlen ([] : list labelset) + zlen xs ≤ u32_max + 1). rewrite zlen_nil. lia. }
  destruct (intern_all_spec (E:=LabelSetStoreError SE) (HL:=keyset_store_laws) xs _ Hnew Hfit Hcan) as (rs' & s' & Hall' & [Hinv _] & Hints & _).
  rewrite Hall in Hall'. injection Hall' as <- <-.
  assert (dicts_used s) as Hu by (apply (session_used xs (keyset_store_new symbols) rs s Hnew Hfit); [by intros k v (d & Hd & _)|done|done|done]).
  destruct (internings_spec xs [] rs (keyset_labelsets s) Hints (NoDup_nil_2)) as (_ & _ & Hz & Hval & _ & _ & Hdense).
  assert (∀ labels, labels ∈ keyset_labelsets s ↔ ∃ x, x ∈ xs ∧ labels = normalize_labelset x) as Hsets.
  { intros labels. split.
    - intros [a Ha]%list_elem_of_lookup. destruct (Hdense a) as [i Hi]; [apply lookup_lt_Some in Ha; cbn; lia|].
      destruct (lookup_lt_is_Some_2 xs i) as [x Hx]; [rewrite <- Hz; by eapply lookup_lt_Some|]. destruct (Hval i x _ Hx Hi) as [_ Hl].
      rewrite Nat2Z.id, Ha in Hl. injection Hl as ->. exists x. split; [by eapply list_elem_of_lookup_2|done].
    - intros (x & [i Hx]%list_elem_of_lookup & ->). destruct (lookup_lt_is_Some_2 rs i) as [r Hr]; [rewrite Hz; by eapply lookup_lt_Some|].
      destruct (Forall_lookup_1 _ _ _ _ Hrs Hr) as [a ->]. destruct (Hval i x a Hx Hr) as [_ Hl]. by eapply list_elem_of_lookup_2. }
  pose proof (key_cardinality_spec s key Hinv Hu) as Hc. destruct (keyset_key_cardinality s key) as [[n|]|]; [|..|done].
  - destruct Hc as (values & Hnd & Hn & Hv). exists values. split; [done|]. split; [done|]. intros v. rewrite Hv. split.
    + intros (labels & (x & Hx & ->)%Hsets & ?). by exists x.
    + intros (x & Hx & ?). exists (normalize_labelset x). split; [|done]. apply Hsets. by exists x.
  - intros x v Hx. apply Hc, Hsets. by exists x.
Qed.
End cardinality.

(** ** Witnesses: every hash collides *)

#[local] Existing Instances colliding_symbols colliding_hashers.
Abbreviation arena_keyset := (KeySetStore ArenaSymbolTable).
Abbreviation arena_store_error := (LabelSetStoreError ArenaSymbolTableError).

Lemma keyset_store_refines_witness : ∃ (rs : list (result arena_store_error Z)) (s : arena_keyset),
  intern_all (keyset_store_new arena_table_default) sample_labelsets = Some (rs, s) ∧ rs = [Ok 0; Ok 1; Ok 0; Ok 2].
Proof.
  destruct (keyset_store_refines arena_table_default sample_labelsets) as (rs & s & n & Hall & _).
  - exact arena_default_ok.
  - done.
  - exact sample_canonical.
  - exists rs, s. split; [exact Hall|]. assert (fst <$> intern_all (E:=arena_store_error) (keyset_store_new arena_table_default) sample_labelsets = Some rs) as Hr
      by (by rewrite Hall). vm_compute in Hr. by injection Hr as <-.
Defined.

Lemma key_cardinality_exact_witness : ∃ rs (s : arena_keyset),
  intern_all (E:=arena_store_error) (keyset_store_new arena_table_default) sample_labelsets = Some (rs, s) ∧
  ∃ values, NoDup values ∧ zlen values = 2 ∧ bytes_of_string "a" ∈ values.
Proof.
  destruct (intern_all (E:=arena_store_error) (keyset_store_new arena_table_default) sample_labelsets) as [[rs s]|] eqn:Hall; [|vm_compute in Hall; discriminate].
  pose proof (key_cardinality_exact arena_table_default sample_labelsets rs s (bytes_of_string "host") arena_default_ok ltac:(done) sample_canonical Hall) as Hc.
  exists rs, s. split; [done|]. vm_compute in Hall. injection Hall as <- <-.
  assert (Forall (λ r : result arena_store_error Z, ∃ a, r = Ok a) [Ok 0; Ok 1; Ok 0; Ok 2]) as Hrs by (repeat constructor; by eexists).
  specialize (Hc Hrs). match type of Hc with match ?c with _ => _ end => let v := eval vm_compute in c in change c with v in Hc end. cbv beta iota in Hc.
  destruct Hc as (values & Hnd & Hn & Hv). exists values. split; [done|]. split; [done|]. apply Hv. eexists. split; [by left|].
  vm_compute. right. left.
Defined.

(** The dictionaries keep the values of a refused label set: in an arena with room
    for [host=a] alone, the label set [host=a, job=b] is refused, and [host] then has
    a value that no label set has. *)
Example refused_values_counted :
  let small : ArenaSymbolTable := mk_arena_table no_chains [] [] 6 in
  let refused := labels_of [("host", "a"); ("job", "b")]%string in
  match keyset_store_intern (SE:=ArenaSymbolTableError) (keyset_store_new small) refused with
  | Some (Err _, s) => ks_series s = [] ∧ keyset_key_cardinality s (bytes_of_string "host") = Some (Some 1)
  | _ => False
  end.
Proof. vm_compute. by split. Qed.
