(* ===== verification/SealedStore.v ===== *)
(** * Sealed label-set stores

    [chronoxide-core/src/labels/interners/fixed_width.rs] and [bit_packed.rs], with
    [seal_fixed_width] and [seal_bit_packed] of [keyset.rs]: a dictionary-encoded
    store is sealed into one whose rows are packed, each key with the width its
    largest code needs.  Sealing is proved to lose nothing.  Offsets are integers
    without a bound ([usize] arithmetic does not overflow for data in memory);
    capacities and statistics are not modelled. *)
From S2P Require Import Prelude Text Normalizer Symbols FlatStore KeySetStore Bits BitPack.

(** ** Blocks and stores *)

Record PackedKeySetBlock := mk_packed_block { pb_widths : list Z; pb_row_len : Z; pb_data : list Z }.
Record BitPackedKeySetBlock := mk_bit_block { bb_widths_bits : list Z; bb_row_bits : Z; bb_data : list Z }.

(** The two sealed stores differ in their blocks. *)
Record PackedStore (B S : Type) := mk_packed_store {
  ps_chains : chains;             (* by_hash and by_hash_collisions *)
  ps_symbols : S;
  ps_keysets : KeySetTable;
  ps_value_dicts : gmap Z ValueCodeDict;
  ps_blocks : list B;             (* per_keyset_blocks *)
  ps_series : list SeriesEntry;
}.
Arguments mk_packed_store {B S}.
Arguments ps_chains {B S}.
Arguments ps_symbols {B S}.
Arguments ps_keysets {B S}.
Arguments ps_value_dicts {B S}.
Arguments ps_blocks {B S}.
Arguments ps_series {B S}.
Abbreviation FixedWidthStore := (PackedStore PackedKeySetBlock).
Abbreviation BitPackedStore := (PackedStore BitPackedKeySetBlock).

(** ** Sealing *)

(** [iter().skip(i).step_by(step)]: the values whose position is [i] modulo [step]. *)
Fixpoint step_from (step offset : Z) (values : list Z) : list Z :=
  match values with
  | [] => []
  | v :: values => if offset `mod` step =? 0 then v :: step_from step (offset + 1) values else step_from step (offset + 1) values
  end.
(** The largest code of a column, zero if there is none. *)
Definition max_code (key_count : Z) (values : list Z) (i : nat) : Z :=
  foldr Z.max 0 (step_from key_count 0 (drop i values)).

Fixpoint pack_codes (widths : list Z) (key_count offset : Z) (values data : list Z) : option (list Z) :=
  match values with
  | [] => Some data
  | code :: values =>
      width ← widths !! Z.to_nat (offset `mod` key_count);
      data ← pack_value_code data width code;
      pack_codes widths key_count (offset + 1) values data
  end.
Definition seal_fixed_block (rows : KeySetRows) : option PackedKeySetBlock :=
  let key_count := kr_key_count rows in
  let widths := (λ i, width_for_cardinality (max_code key_count (kr_values rows) i + 1)) <$> seq 0 (Z.to_nat key_count) in
  data ← pack_codes widths key_count 0 (kr_values rows) [];
  Some (mk_packed_block widths (foldr Z.add 0 widths) data).

Fixpoint pack_code_bits (widths_bits : list Z) (key_count offset : Z) (values data : list Z) (bit_offset : Z) : option (list Z) :=
  match values with
  | [] => Some data
  | code :: values =>
      width ← widths_bits !! Z.to_nat (offset `mod` key_count);
      '(data, bit_offset) ← pack_bits data bit_offset width code;
      pack_code_bits widths_bits key_count (offset + 1) values data bit_offset
  end.
Definition seal_bit_block (rows : KeySetRows) : option BitPackedKeySetBlock :=
  let key_count := kr_key_count rows in
  if key_count =? 0 then Some (mk_bit_block [] 0 [])
  else
    let widths_bits := (λ i, bit_width_for_max_code (max_code key_count (kr_values rows) i)) <$> seq 0 (Z.to_nat key_count) in
    let row_bits := foldr Z.add 0 widths_bits in
    let row_count := zlen (kr_values rows) / Z.max key_count 1 in
    let total_bits := Z.min usize_max (row_bits * row_count) in
    data ← pack_code_bits widths_bits key_count 0 (kr_values rows) (replicate (Z.to_nat ((total_bits + 7) / 8)) 0) 0;
    Some (mk_bit_block widths_bits row_bits data).

Definition seal_with {B S} (seal_block : KeySetRows → option B) (s : KeySetStore S) : option (PackedStore B S) :=
  blocks ← mapM seal_block (ks_rows s);
  Some (mk_packed_store (ks_chains s) (ks_symbols s) (ks_keysets s) (ks_value_dicts s) blocks (ks_series s)).
Definition seal_fixed_width {S} : KeySetStore S → option (FixedWidthStore S) := seal_with seal_fixed_block.
Definition seal_bit_packed {S} : KeySetStore S → option (BitPackedStore S) := seal_with seal_bit_block.

(** ** Reading *)

(** The loop of both [resolve_row]s, over the unpacking of one code. *)
Fixpoint resolve_row_loop (unpack : list Z → Z → Z → option (Z * Z)) (dicts : gmap Z ValueCodeDict) (data : list Z)
    (fields : list (Z * Z)) (offset : Z) : option row :=
  match fields with
  | [] => Some []
  | (key, width) :: fields =>
      '(code, offset) ← unpack data offset width;
      value ← dict_value dicts key code;
      r ← resolve_row_loop unpack dicts data fields offset;
      Some (mk_ikv key value :: r)
  end.
Definition fixed_resolve_row {S} (s : FixedWidthStore S) (keyset_id row_index : Z) : option row :=
  keys ← keyset_resolve (ps_keysets s) keyset_id;
  block ← ps_blocks s !! Z.to_nat keyset_id;
  resolve_row_loop unpack_value_code (ps_value_dicts s) (pb_data block) (zip keys (pb_widths block)) (row_index * pb_row_len block).
Definition bit_resolve_row {S} (s : BitPackedStore S) (keyset_id row_index : Z) : option row :=
  keys ← keyset_resolve (ps_keysets s) keyset_id;
  block ← ps_blocks s !! Z.to_nat keyset_id;
  resolve_row_loop unpack_bits (ps_value_dicts s) (bb_data block) (zip keys (bb_widths_bits block)) (row_index * bb_row_bits block).

Section sealed.
Context {S SE : Type} `{HST : SymbolTable S SE}.

Definition packed_visit {B} (resolve : PackedStore B S → Z → Z → option row) (s : PackedStore B S) (series : Z) : option labelset :=
  entry ← ps_series s !! Z.to_nat series;
  r ← resolve s (se_keyset_id entry) (se_row entry);
  mapM (resolve_pair (ps_symbols s)) r.
Definition fixed_visit : FixedWidthStore S → Z → option labelset := packed_visit fixed_resolve_row.
Definition bit_visit : BitPackedStore S → Z → option labelset := packed_visit bit_resolve_row.

Definition packed_key_cardinality {B} (s : PackedStore B S) (key : str) : option (option Z) :=
  key ← st_lookup (ps_symbols s) key;
  Some (key ← key; d ← ps_value_dicts s !! key; Some (dict_cardinality d)).

(** A sealed store refuses every label set. *)
Definition packed_intern {B} (s : PackedStore B S) (labels : labelset) : option (result (LabelSetStoreError SE) Z * PackedStore B S) :=
  Some (Err SealedStore, s).

#[export] Instance fixed_label_set_store : LabelSetStore (FixedWidthStore S) (LabelSetStoreError SE) := {
  ls_intern := packed_intern;
  ls_len s := zlen (ps_series s);
  ls_visit := fixed_visit;
}.
#[export] Instance bit_label_set_store : LabelSetStore (BitPackedStore S) (LabelSetStoreError SE) := {
  ls_intern := packed_intern;
  ls_len s := zlen (ps_series s);
  ls_visit := bit_visit;
}.
End sealed.

(** ** A block is a sequence of fields *)

Lemma step_from_elem step i values : ∀ offset v, values !! i = Some v → (offset + Z.of_nat i) `mod` step = 0 → v ∈ step_from step offset values.
Proof.
  revert i. induction values as [|x values IH]; intros i offset v Hi Hm; [done|]. cbn [step_from]. destruct i as [|i].
  - injection Hi as ->. rewrite Z.add_0_r in Hm. rewrite Hm. by left.
  - assert (v ∈ step_from step (offset + 1) values) as Hin by (apply (IH i); [done|]; rewrite <- Hm; f_equal; lia).
    destruct (_ =? 0); [by right|done].
Qed.
Lemma foldr_max_le l v : v ∈ l → v ≤ foldr Z.max 0 l.
Proof. induction l as [|x l IH]; [by intros ?%not_elem_of_nil|]. intros [->|Hin]%elem_of_cons; cbn; [lia|]. specialize (IH Hin). lia. Qed.
Lemma step_from_Forall (P : Z → Prop) step values : ∀ offset, Forall P values → Forall P (step_from step offset values).
Proof. induction values as [|x values IH]; intros offset; [done|]. intros [Hx Hv]%Forall_cons_1. cbn. destruct (_ =? 0); [constructor|]; auto. Qed.
Lemma max_code_range k values i : Forall in_u32 values → in_u32 (max_code k values i).
Proof.
  intros Hv. unfold max_code. pose proof (step_from_Forall in_u32 k _ 0 (Forall_drop _ i _ Hv)) as Hs.
  induction Hs as [|x l Hx _ IH]; unfold in_u32 in *; cbn; lia.
Qed.
Lemma max_code_bound k values p v : 0 < k → values !! p = Some v → v ≤ max_code k values (Z.to_nat (Z.of_nat p `mod` k)).
Proof.
  intros Hk Hp. apply foldr_max_le. pose proof (Z.mod_pos_bound (Z.of_nat p) k Hk). pose proof (Z.mod_le (Z.of_nat p) k ltac:(lia) Hk).
  apply (step_from_elem _ (p - Z.to_nat (Z.of_nat p `mod` k))).
  - rewrite lookup_drop. rewrite <- Hp. f_equal. lia.
  - rewrite Nat2Z.inj_sub, Z2Nat.id by lia. rewrite Z.add_0_l, Zminus_mod_idemp_r, Z.sub_diag. done.
Qed.

(** The codes from an offset on, each with the width of its column, in units of
    [unit] bits. *)
Fixpoint code_fields (unit : Z) (widths : list Z) (key_count offset : Z) (values : list Z) : list (Z * Z) :=
  match values with
  | [] => []
  | v :: values => (unit * default 0 (widths !! Z.to_nat (offset `mod` key_count)), v) :: code_fields unit widths key_count (offset + 1) values
  end.
Lemma code_fields_app unit widths k a b : ∀ offset,
  code_fields unit widths k offset (a ++ b) = code_fields unit widths k offset a ++ code_fields unit widths k (offset + zlen a) b.
Proof.
  induction a as [|v a IH]; intros offset; [by rewrite Z.add_0_r|]. cbn [app code_fields]. rewrite IH. do 2 f_equal. f_equal. rewrite zlen_cons. lia.
Qed.
Lemma code_fields_shift unit widths k n values : k ≠ 0 → ∀ offset,
  code_fields unit widths k (offset + n * k) values = code_fields unit widths k offset values.
Proof.
  intros Hk. induction values as [|v values IH]; intros offset; [done|]. cbn [code_fields]. rewrite Z.mod_add by done. f_equal.
  rewrite <- (IH (offset + 1)). f_equal. lia.
Qed.
(** A row from its [j]th code on. *)
Lemma code_fields_row unit widths codes : ∀ j, (length codes + j = length widths)%nat →
  code_fields unit widths (zlen widths) (Z.of_nat j) codes = zip ((λ w, unit * w) <$> drop j widths) codes.
Proof.
  induction codes as [|v codes IH]; intros j Hj; [by rewrite zip_with_nil_r|]. cbn [code_fields length] in *.
  destruct (lookup_lt_is_Some_2 widths j) as [w Hw]; [lia|]. rewrite Z.mod_small by (unfold zlen; lia). rewrite Nat2Z.id, Hw.
  rewrite (drop_S widths w j Hw). cbn. f_equal. replace (Z.of_nat j + 1) with (Z.of_nat (S j)) by lia. apply IH. lia.
Qed.

Abbreviation sum_widths := (foldr Z.add 0).
Lemma total_width_zip unit widths codes : length codes = length widths → total_width (zip ((λ w, unit * w) <$> widths) codes) = unit * sum_widths widths.
Proof.
  unfold total_width. revert codes. induction widths as [|w widths IH]; intros [|c codes] Hl; try done; cbn; [lia|].
  injection Hl as Hl. specialize (IH codes Hl). cbn in IH. lia.
Qed.

(** Both layouts, with widths in units of [unit] bits. *)
Section block.
Context (unpack : list Z → Z → Z → option (Z * Z)) (unit : Z) (width_ok : Z → Prop).
Context (width_pos : ∀ w, width_ok w → 0 ≤ w).
Context (unpack_spec : ∀ data off w, bytes data → 0 ≤ off → width_ok w → unit * (off + w) ≤ 8 * zlen data →
  unpack data off w = Some (field (of_le data) (unit * off) (unit * w), off + w)).

Record block_ok (keys values widths : list Z) (row_len : Z) (data : list Z) : Prop := {
  bo_bytes : bytes data;
  bo_length : length widths = length keys;
  bo_widths : Forall width_ok widths;
  bo_row_len : row_len = sum_widths widths;
  bo_fields : Forall field_ok (code_fields unit widths (zlen keys) 0 values);
  bo_number : of_le data = fields_number (code_fields unit widths (zlen keys) 0 values);
  bo_fits : total_width (code_fields unit widths (zlen keys) 0 values) ≤ 8 * zlen data;
}.

Lemma resolve_loop_spec dicts data : bytes data → ∀ keys codes widths before after off,
  length codes = length keys → length widths = length keys → Forall width_ok widths → 0 ≤ off → unit * off = total_width before →
  let fs := before ++ zip ((λ w, unit * w) <$> widths) codes ++ after in
  Forall field_ok fs → of_le data = fields_number fs → total_width fs ≤ 8 * zlen data →
  resolve_row_loop unpack dicts data (zip keys widths) off = resolve_codes dicts keys codes.
Proof.
  intros Hdata. induction keys as [|key keys IH]; intros [|code codes] [|w widths] before after off Hl Hw Hok Hoff Htw fs Hfs Hn Hfit; try done.
  apply Forall_cons_1 in Hok as [Hw0 Hok]. pose proof (width_pos w Hw0). rewrite resolve_codes_cons. cbn [zip zip_with resolve_row_loop].
  change fs with (before ++ (unit * w, code) :: (zip ((λ w, unit * w) <$> widths) codes ++ after)) in *.
  clear fs. set (rest := zip _ codes ++ after) in *. pose proof Hfs as [Hb [Hc Hr]%Forall_cons_1]%Forall_app.
  assert (total_width (before ++ [(unit * w, code)]) = unit * (off + w)) as Htw'.
  { rewrite total_width_app, <- Htw. unfold total_width. cbn. lia. }
  assert (0 ≤ total_width rest) by (by apply total_width_nonneg).
  rewrite unpack_spec; [|done|done|done|].
  2: { rewrite <- Htw'. revert Hfit. rewrite (cons_middle _ before rest), app_assoc, total_width_app. lia. }
  cbn [mbind option_bind]. rewrite Hn, Htw, fields_number_field by done.
  destruct (dict_value dicts key code) as [v|]; [|done]. cbn [mbind option_bind].
  rewrite (IH codes widths (before ++ [(unit * w, code)]) after (off + w)); [done|..].
  - by injection Hl.
  - by injection Hw.
  - done.
  - lia.
  - done.
  - by rewrite <- app_assoc.
  - by rewrite <- app_assoc.
  - by rewrite <- app_assoc.
Qed.

Lemma rows_width (keys values widths : list Z) row_len (n : nat) : length widths = length keys → row_len = sum_widths widths → keys ≠ [] →
  (n * length keys ≤ length values)%nat →
  total_width (code_fields unit widths (zlen keys) 0 (take (n * length keys) values)) = unit * (Z.of_nat n * row_len).
Proof.
  intros Hl Hrl Hne. assert (zlen keys ≠ 0) as Hk by (intros ?%zlen_0; done).
  induction n as [|n IH]; intros Hn; [by rewrite Z.mul_0_l, Z.mul_0_r|]. replace (S n * length keys)%nat with (n * length keys + length keys)%nat by lia.
  rewrite <- take_take_drop, code_fields_app, total_width_app, IH by lia.
  assert (zlen (take (n * length keys) values) = Z.of_nat n * zlen keys) as -> by (unfold zlen; rewrite length_take; lia).
  rewrite code_fields_shift by done. assert (zlen keys = zlen widths) as -> by (unfold zlen; by rewrite Hl).
  assert (length (take (length keys) (drop (n * length keys) values)) = length widths) as Hlen by (rewrite length_take, length_drop; lia).
  rewrite (code_fields_row unit widths _ 0) by lia. rewrite drop_0, total_width_zip, <- Hrl by done. lia.
Qed.

(** Reading a row of a block. *)
Lemma block_reads dicts keys rs widths row_len data i codes : rows_ok keys rs → block_ok keys (kr_values rs) widths row_len data →
  0 ≤ i → row_slice rs i = Some codes →
  resolve_row_loop unpack dicts data (zip keys widths) (i * row_len) = resolve_codes dicts keys codes.
Proof.
  intros Hrs Hblock Hi Hsl. destruct (row_slice_codes keys rs i codes Hrs Hi Hsl) as [Hlen _]. pose proof Hblock as [Hb Hl Hw Hrl Hf Hn Hfit].
  destruct (decide (keys = [])) as [->|Hne]; [by destruct codes, widths|].
  assert (zlen keys ≠ 0) as Hk by (intros ?%zlen_0; done). pose proof (zlen_nonneg keys).
  revert Hsl. unfold row_slice. rewrite (proj1 Hrs). destruct (Z.leb_spec (i * zlen keys + zlen keys) (zlen (kr_values rs))) as [Hle|]; [|done].
  intros [= Hc]. set (values := kr_values rs) in *. set (n := (Z.to_nat i * length keys)%nat).
  assert (values = take n values ++ codes ++ drop (length keys) (drop n values)) as Hsplit.
  { rewrite <- Hc. unfold slice. rewrite Z.add_simpl_l. unfold n, zlen. rewrite Nat2Z.id.
    replace (Z.to_nat (i * Z.of_nat (length keys))) with (Z.to_nat i * length keys)%nat by (rewrite Z2Nat.inj_mul by lia; by rewrite Nat2Z.id).
    by rewrite take_drop, take_drop. }
  assert (n ≤ length values)%nat as Hnl by (unfold n, zlen in *; nia).
  assert (zlen (take n values) = i * zlen keys) as Hz by (unfold n, zlen in *; rewrite length_take; nia).
  set (after := code_fields unit widths (zlen keys) (i * zlen keys + zlen codes) (drop (length keys) (drop n values))).
  assert (code_fields unit widths (zlen keys) 0 values =
    code_fields unit widths (zlen keys) 0 (take n values) ++ zip ((λ w, unit * w) <$> widths) codes ++ after) as Hfs.
  { rewrite Hsplit at 1. rewrite !code_fields_app, Hz, Z.add_0_l. f_equal. fold after. f_equal.
    rewrite <- (Z.add_0_l (i * zlen keys)), code_fields_shift by done.
    assert (zlen keys = zlen widths) as -> by (unfold zlen; by rewrite Hl).
    etrans; [apply (code_fields_row unit widths codes 0); lia|]. by rewrite drop_0. }
  pose proof (rows_width keys values widths row_len (Z.to_nat i) Hl Hrl Hne Hnl) as Htw. rewrite Z2Nat.id in Htw by done.
  assert (0 ≤ row_len) as Hrl0 by (rewrite Hrl; clear - Hw width_pos; induction Hw as [|w l Hw _ IH]; cbn; [done|specialize (width_pos w Hw); lia]).
  rewrite Hfs in *.
  apply (resolve_loop_spec dicts data Hb keys codes widths (code_fields unit widths (zlen keys) 0 (take n values)) after); try done; lia.
Qed.
End block.

(** ** Sealing packs the codes *)

Lemma code_fields_ok unit widths k values : ∀ offset,
  (∀ p v, values !! p = Some v → field_ok (unit * default 0 (widths !! Z.to_nat ((offset + Z.of_nat p) `mod` k)), v)) →
  Forall field_ok (code_fields unit widths k offset values).
Proof.
  induction values as [|v values IH]; intros offset Hf; [by apply Forall_nil|]. cbn [code_fields]. apply Forall_cons. split.
  - specialize (Hf 0%nat v eq_refl). by rewrite Z.add_0_r in Hf.
  - apply IH. intros p x Hp. specialize (Hf (S p) x Hp). by replace (offset + 1 + Z.of_nat p) with (offset + Z.of_nat (S p)) by lia.
Qed.
(** Widths chosen from the largest code of a column hold every code of it. *)
Lemma column_widths unit (width : Z → Z) k values : 0 < k → Forall in_u32 values → (∀ m c, 0 ≤ c ≤ m → m ≤ u32_max → 0 ≤ unit * width m ∧ c < 2 ^ (unit * width m)) →
  let widths := (λ i, width (max_code k values i)) <$> seq 0 (Z.to_nat k) in
  Forall field_ok (code_fields unit widths k 0 values) ∧ zlen widths = k.
Proof.
  intros Hk Hv Hw widths. split; [|unfold widths, zlen; rewrite length_fmap, length_seq; lia]. apply code_fields_ok. intros p v Hp. rewrite Z.add_0_l.
  pose proof (Z.mod_pos_bound (Z.of_nat p) k Hk). pose proof (max_code_bound k values p v Hk Hp) as Hmax. set (i := Z.to_nat (Z.of_nat p `mod` k)) in *.
  assert (widths !! i = Some (width (max_code k values i))) as ->.
  { unfold widths. rewrite list_lookup_fmap, lookup_seq_lt by lia. done. }
  cbn [default from_option id]. pose proof (Forall_lookup_1 _ _ _ _ Hv Hp) as Hv0. pose proof (max_code_range k values i Hv) as Hr. unfold in_u32 in *.
  destruct (Hw (max_code k values i) v); [lia|lia|]. split; cbn; lia.
Qed.

Lemma pack_codes_spec widths k : 0 < k → zlen widths = k → Forall code_width_ok widths → ∀ values offset data, 0 ≤ offset → bytes data →
  let fs := code_fields 8 widths k offset values in Forall field_ok fs → ∃ data', pack_codes widths k offset values data = Some data' ∧ bytes data' ∧
    8 * zlen data' = 8 * zlen data + total_width fs ∧ of_le data' = of_le data + 2 ^ (8 * zlen data) * fields_number fs.
Proof.
  intros Hk Hz Hw. induction values as [|v values IH]; intros offset data Ho Hd fs Hfs.
  { exists data. split; [done|]. split; [done|]. cbn. change (total_width []) with 0. lia. }
  unfold fs in *. cbn [code_fields pack_codes] in *. pose proof (Z.mod_pos_bound offset k Hk).
  destruct (lookup_lt_is_Some_2 widths (Z.to_nat (offset `mod` k))) as [w Hl]; [unfold zlen in Hz; lia|]. rewrite Hl in Hfs |- *.
  cbn [default from_option id mbind option_bind] in *. apply Forall_cons_1 in Hfs as [[_ Hc] Hfs]. cbn [fst snd] in Hc.
  pose proof (Forall_lookup_1 _ _ _ _ Hw Hl) as Hw0. destruct (pack_value_code_spec data w v Hd Hw0 Hc) as (d1 & -> & Hd1 & Hz1 & Hn1).
  cbn [mbind option_bind]. destruct (IH (offset + 1) d1 ltac:(lia) Hd1 Hfs) as (d2 & -> & Hd2 & Hz2 & Hn2). exists d2. split; [done|]. split; [done|].
  assert (0 ≤ w) by (destruct Hw0 as [->|[->|[->| ->]]]; lia). pose proof (zlen_nonneg data).
  change (total_width ((8 * w, v) :: ?l)) with (8 * w + total_width l). split; [lia|].
  rewrite Hn2, Hn1, Hz1. cbn [fields_number]. rewrite Z.mul_add_distr_l, Z.pow_add_r by lia. ring.
Qed.
Lemma pack_code_bits_spec widths k : 0 < k → zlen widths = k → Forall (Z.le 0) widths → ∀ values offset data off, 0 ≤ offset → bytes data → 0 ≤ off →
  of_le data < 2 ^ off → let fs := code_fields 1 widths k offset values in Forall field_ok fs → off + total_width fs ≤ 8 * zlen data →
  ∃ data', pack_code_bits widths k offset values data off = Some data' ∧ bytes data' ∧ zlen data' = zlen data ∧
    of_le data' = of_le data + 2 ^ off * fields_number fs.
Proof.
  intros Hk Hz Hw. induction values as [|v values IH]; intros offset data off Ho Hd Hoff Hlt fs Hfs Hfit.
  { exists data. split_and!; [done|done|done|]. cbn. lia. }
  unfold fs in *. cbn [code_fields pack_code_bits] in *. pose proof (Z.mod_pos_bound offset k Hk).
  destruct (lookup_lt_is_Some_2 widths (Z.to_nat (offset `mod` k))) as [w Hl]; [unfold zlen in Hz; lia|]. rewrite Hl in Hfs, Hfit |- *.
  cbn [default from_option id mbind option_bind] in *. pose proof (Forall_lookup_1 _ _ _ _ Hw Hl) as Hw0. cbn in Hw0.
  rewrite Z.mul_1_l in Hfs, Hfit |- *. apply Forall_cons_1 in Hfs as [[_ Hc] Hfs]. cbn [fst snd] in Hc.
  pose proof (total_width_nonneg _ Hfs). change (total_width ((w, v) :: ?l)) with (w + total_width l) in *.
  destruct (pack_bits_spec data off w v Hd Hoff Hw0 ltac:(lia) Hlt Hc) as (d1 & -> & Hd1 & Hz1 & Hn1). cbn [mbind option_bind].
  destruct (IH (offset + 1) d1 (off + w)) as (d2 & -> & Hd2 & Hz2 & Hn2); [lia|done|lia| |done|lia|].
  { rewrite Hn1, Z.pow_add_r by lia. nia. }
  exists d2. split_and!; [done|done|congruence|]. rewrite Hn2, Hn1. cbn [fields_number]. rewrite Z.pow_add_r by lia. ring.
Qed.

Lemma code_width_pos w : code_width_ok w → 0 ≤ w.
Proof. intros [->|[->|[->| ->]]]; lia. Qed.
Lemma sum_widths_le widths b : Forall (λ w, 0 ≤ w ≤ b) widths → 0 ≤ sum_widths widths ≤ b * zlen widths.
Proof. induction 1 as [|w l Hw _ IH]; [change (0 ≤ 0 ≤ b * 0); lia|]. rewrite zlen_cons. cbn in *. lia. Qed.

Lemma seal_fixed_block_spec keys rs : rows_ok keys rs → ∃ b, seal_fixed_block rs = Some b ∧
  block_ok 8 code_width_ok keys (kr_values rs) (pb_widths b) (pb_row_len b) (pb_data b).
Proof.
  intros (Hk & (n & Hn0 & Hn) & Hv). unfold seal_fixed_block. rewrite Hk. destruct (decide (keys = [])) as [->|Hne].
  { change (zlen []) with 0 in *. rewrite Z.mul_0_r in Hn. rewrite (zlen_0 _ Hn). cbn. eexists. split; [done|]. by split. }
  assert (0 < zlen keys) as Hpos by (pose proof (zlen_nonneg keys); assert (zlen keys ≠ 0) by (intros ?%zlen_0; done); lia).
  destruct (column_widths 8 (λ m, width_for_cardinality (m + 1)) (zlen keys) (kr_values rs) Hpos Hv) as [Hf Hz].
  { intros m c Hc Hm. destruct (width_for_cardinality_fits (m + 1) c) as [Hw ?]; [lia|lia|]. apply code_width_pos in Hw. lia. }
  set (widths := _ <$> seq 0 _) in *.
  assert (Forall code_width_ok widths) as Hw.
  { apply Forall_fmap, Forall_forall. intros i _. pose proof (max_code_range (zlen keys) _ i Hv) as Hr. unfold in_u32 in Hr.
    apply (width_for_cardinality_fits _ 0); lia. }
  destruct (pack_codes_spec widths (zlen keys) Hpos Hz Hw (kr_values rs) 0 [] ltac:(done) (Forall_nil_2 _) Hf) as (data & -> & Hd & Hdz & Hdn).
  cbn [mbind option_bind]. eexists. split; [done|]. cbn [pb_widths pb_row_len pb_data]. split; [done| |done|done|done|by rewrite Hdn; change (of_le []) with 0; change (2 ^ (8 * zlen [])) with 1; rewrite Z.mul_1_l|].
  - unfold zlen in Hz. lia.
  - rewrite Hdz. change (8 * zlen []) with 0. lia.
Qed.
Lemma seal_bit_block_spec keys rs : rows_ok keys rs → 32 * zlen (kr_values rs) ≤ usize_max → ∃ b, seal_bit_block rs = Some b ∧
  block_ok 1 (λ w, 0 ≤ w ≤ 32) keys (kr_values rs) (bb_widths_bits b) (bb_row_bits b) (bb_data b).
Proof.
  intros (Hk & (n & Hn0 & Hn) & Hv) Hmem. unfold seal_bit_block. rewrite Hk. destruct (Z.eqb_spec (zlen keys) 0) as [H0|H0].
  { apply zlen_0 in H0 as ->. change (zlen []) with 0 in *. rewrite Z.mul_0_r in Hn. rewrite (zlen_0 _ Hn). eexists. split; [done|]. by split. }
  assert (0 < zlen keys) as Hpos by (pose proof (zlen_nonneg keys); lia).
  destruct (column_widths 1 bit_width_for_max_code (zlen keys) (kr_values rs) Hpos Hv) as [Hf Hz].
  { intros m c Hc Hm. rewrite Z.mul_1_l. destruct (bit_width_fits m c); [done|done|]. lia. }
  set (widths := _ <$> seq 0 _) in *.
  assert (Forall (λ w, 0 ≤ w ≤ 32) widths) as Hw.
  { apply Forall_fmap, Forall_forall. intros i _. pose proof (max_code_range (zlen keys) _ i Hv) as Hr. unfold in_u32 in Hr.
    apply (bit_width_fits _ 0); lia. }
  pose proof (sum_widths_le _ _ Hw) as Hsum. rewrite Z.max_l by lia. rewrite Hn, Z.div_mul by done.
  assert (length widths = length keys) as Hl by (unfold zlen in Hz; lia).
  pose proof (rows_width 1 keys (kr_values rs) widths _ (Z.to_nat n) Hl eq_refl ltac:(by intros ->)) as Htw.
  rewrite Z2Nat.id in Htw by done. rewrite take_ge in Htw by (unfold zlen in *; nia).
  assert (n * sum_widths widths ≤ 32 * (n * zlen keys)) as Hle by (rewrite Hz in Hsum; nia).
  rewrite Z.min_r by lia. set (len := (sum_widths widths * n + 7) / 8).
  assert (sum_widths widths * n ≤ 8 * len ∧ 0 ≤ len) as [Hlen Hlen0].
  { pose proof (Z.div_mod (sum_widths widths * n + 7) 8 ltac:(lia)) as Hdm. pose proof (Z.mod_pos_bound (sum_widths widths * n + 7) 8 ltac:(lia)).
    fold len in Hdm. assert (0 ≤ sum_widths widths * n) by (apply Z.mul_nonneg_nonneg; lia). lia. }
  assert (bytes (replicate (Z.to_nat len) 0) ∧ of_le (replicate (Z.to_nat len) 0) = 0) as [Hb0 Hn00].
  { induction (Z.to_nat len) as [|m [IHb IHn]]; [by split; [apply Forall_nil|]|]. cbn [replicate]. split; [by apply Forall_cons|].
    rewrite of_le_cons, IHn by done. done. }
  destruct (pack_code_bits_spec widths (zlen keys) Hpos Hz ltac:(eapply Forall_impl; [exact Hw|]; intros w Hw0; cbn in Hw0; lia) (kr_values rs) 0 (replicate (Z.to_nat len) 0) 0) as
    (data & -> & Hd & Hdz & Hdn); [done|done|done|by rewrite Hn00|done| |].
  { specialize (Htw ltac:(unfold zlen in *; nia)). rewrite zlen_replicate, Htw. lia. }
  specialize (Htw ltac:(unfold zlen in *; nia)). cbn [mbind option_bind]. eexists. split; [done|]. cbn [bb_widths_bits bb_row_bits bb_data].
  split; [done|done|done|done|done|by rewrite Hdn, Hn00, Z.mul_1_l|]. rewrite Hdz, zlen_replicate, Htw. lia.
Qed.

(** The two unpackers, in units of a byte and of a bit. *)
Lemma fixed_unpack data off w : bytes data → 0 ≤ off → code_width_ok w → 8 * (off + w) ≤ 8 * zlen data →
  unpack_value_code data off w = Some (field (of_le data) (8 * off) (8 * w), off + w).
Proof. intros. by apply unpack_value_code_spec; [..|lia]. Qed.
Lemma bit_unpack data off w : bytes data → 0 ≤ off → 0 ≤ w ≤ 32 → 1 * (off + w) ≤ 8 * zlen data →
  unpack_bits data off w = Some (field (of_le data) (1 * off) (1 * w), off + w).
Proof. intros. rewrite !Z.mul_1_l. by apply unpack_bits_spec; [..|lia]. Qed.

(** ** Sealed stores *)

Section sealed_spec.
Context {S SE : Type} `{HSL : SymbolTableLaws S SE} `{HH : LabelSetHashers}.
Abbreviation Store := (KeySetStore S).

(** A sealed store whose blocks pack the rows of the store it came from. *)
Lemma seal_with_spec {B} (seal_block : KeySetRows → option B) (block : list Z → KeySetRows → B → Prop) (s : Store) :
  keyset_inv s → (∀ keys rs, rs ∈ ks_rows s → rows_ok keys rs → ∃ b, seal_block rs = Some b ∧ block keys rs b) →
  ∃ p, seal_with seal_block s = Some p ∧ ps_symbols p = ks_symbols s ∧ ps_keysets p = ks_keysets s ∧ ps_value_dicts p = ks_value_dicts s ∧
    ps_series p = ks_series s ∧ ∀ i keys rs, kt_id_to_keyset (ks_keysets s) !! i = Some keys → ks_rows s !! i = Some rs →
      ∃ b, ps_blocks p !! i = Some b ∧ block keys rs b.
Proof.
  intros Hinv Hblock.
  assert (∃ blocks, mapM seal_block (ks_rows s) = Some blocks ∧ ∀ i keys rs, kt_id_to_keyset (ks_keysets s) !! i = Some keys →
    ks_rows s !! i = Some rs → ∃ b, blocks !! i = Some b ∧ block keys rs b) as (blocks & Hm & Hb).
  { pose proof (ko_rows _ Hinv) as Hro. induction Hro as [|keys rs ks rows Hok _ IH]; [by exists []|].
    destruct (Hblock keys rs ltac:(by left) Hok) as (b & Hsb & Hb). destruct IH as (blocks & Hm & Hbs); [intros; apply Hblock; [by right|done]|].
    exists (b :: blocks). cbn. rewrite Hsb. cbn. rewrite Hm. split; [done|]. intros [|i] ks0 rs0; [|apply Hbs].
    cbn. intros [= <-] [= <-]. by exists b. }
  unfold seal_with. rewrite Hm. eexists. by split_and!.
Qed.

Lemma packed_visit_spec {B} (resolve : PackedStore B S → Z → Z → option row) (s : Store) p : keyset_inv s →
  ps_symbols p = ks_symbols s → ps_series p = ks_series s →
  (∀ e, entry_ok s e → resolve p (se_keyset_id e) (se_row e) = keyset_row s e) → ∀ i, packed_visit resolve p i = keyset_visit s i.
Proof.
  intros Hinv Hsy Hse Hres i. unfold packed_visit, keyset_visit. rewrite Hsy, Hse. destruct (ks_series s !! Z.to_nat i) as [e|] eqn:He; [|done].
  cbn. rewrite Hres; [done|]. by apply (Forall_lookup_1 _ _ _ _ (ko_entries _ Hinv) He).
Qed.

(** C8: sealing loses nothing.  A store of fewer than 2^59 codes under each key
    set is sealed into both packed layouts without a panic; both then show every
    reference, in range or not, the label set the store shows, with its length and
    its cardinality of every key, and refuse to intern. *)
Theorem sealing_keeps_labelsets (s : Store) : keyset_ok s →
  Forall (λ rs, 32 * zlen (kr_values rs) ≤ usize_max) (ks_rows s) →
  ∃ (f : FixedWidthStore S) (b : BitPackedStore S), seal_fixed_width s = Some f ∧ seal_bit_packed s = Some b ∧
    (∀ i, fixed_visit f i = keyset_visit s i ∧ bit_visit b i = keyset_visit s i) ∧
    ls_len f = zlen (ks_series s) ∧ ls_len b = zlen (ks_series s) ∧
    (∀ key, packed_key_cardinality f key = keyset_key_cardinality s key ∧ packed_key_cardinality b key = keyset_key_cardinality s key) ∧
    ∀ labels, ls_intern f labels = Some (Err (E:=LabelSetStoreError SE) SealedStore, f) ∧ ls_intern b labels = Some (Err (E:=LabelSetStoreError SE) SealedStore, b).
Proof.
  intros [Hinv _] Hmem.
  destruct (seal_with_spec seal_fixed_block (λ keys rs b, block_ok 8 code_width_ok keys (kr_values rs) (pb_widths b) (pb_row_len b) (pb_data b)) s Hinv)
    as (f & Hf & Hfs & Hfk & Hfd & Hfse & Hfb); [intros; by apply seal_fixed_block_spec|].
  destruct (seal_with_spec seal_bit_block (λ keys rs b, block_ok 1 (λ w, 0 ≤ w ≤ 32) keys (kr_values rs) (bb_widths_bits b) (bb_row_bits b) (bb_data b)) s Hinv)
    as (b & Hb & Hbs & Hbk & Hbd & Hbse & Hbb).
  { intros keys rs Hin Hok. apply seal_bit_block_spec; [done|]. by apply (proj1 (Forall_forall _ _) Hmem). }
  exists f, b. split; [exact Hf|]. split; [exact Hb|]. split; [|cbn; rewrite Hfse, Hbse; split_and!; [done|done|..]].
  - intros i. split; apply packed_visit_spec; try done; intros e (_ & Hr & Hrow & _);
      destruct (keyset_row_inv s e _ Hinv Hr Hrow) as (keys & rs & codes & Hk & Hrs & Hok & Hsl & _ & _ & Hres).
    + unfold fixed_resolve_row, keyset_resolve. rewrite Hfk, Hk. cbn. destruct (Hfb _ _ _ Hk Hrs) as (blk & -> & Hblk). cbn.
      rewrite Hfd, (block_reads unpack_value_code 8 code_width_ok code_width_pos fixed_unpack _ _ _ _ _ _ _ _ Hok Hblk Hr Hsl). congruence.
    + unfold bit_resolve_row, keyset_resolve. rewrite Hbk, Hk. cbn. destruct (Hbb _ _ _ Hk Hrs) as (blk & -> & Hblk). cbn.
      rewrite Hbd, (block_reads unpack_bits 1 (λ w, 0 ≤ w ≤ 32) (λ w, @proj1 _ _) bit_unpack _ _ _ _ _ _ _ _ Hok Hblk Hr Hsl). congruence.
  - intros key. unfold packed_key_cardinality, keyset_key_cardinality. by rewrite Hfs, Hfd, Hbs, Hbd.
  - done.
Qed.
End sealed_spec.

(** ** Witness: four label sets, one of them twice, under colliding hashes *)

#[local] Existing Instances colliding_symbols colliding_hashers.

Definition sample_keyset : arena_keyset :=
  from_option snd (keyset_store_new arena_table_default)
    (intern_all (E:=arena_store_error) (keyset_store_new arena_table_default) sample_labelsets).
Lemma sample_keyset_ok : keyset_ok sample_keyset.
Proof.
  destruct (intern_all_spec (E:=arena_store_error) (HL:=keyset_store_laws) sample_labelsets (keyset_store_new arena_table_default))
    as (rs & s & Hall & Hok & _); [apply keyset_new_ok, arena_default_ok|done|exact sample_canonical|]. unfold sample_keyset. rewrite Hall. exact Hok.
Qed.

(** Under [__name__] and [host], a bit for each of the two hosts and none for [cpu];
    under [__name__] alone, the code of [up]. *)
Example sample_bits : fmap bb_data <$> mapM seal_bit_block (ks_rows sample_keyset) = Some [[2]; [1]].
Proof. vm_compute. reflexivity. Qed.

Lemma sealing_keeps_labelsets_witness : ∃ f b, seal_fixed_width sample_keyset = Some f ∧ seal_bit_packed sample_keyset = Some b ∧
  fixed_visit f 1 = Some (labels_of [("__name__", "cpu"); ("host", "b")]%string) ∧
  bit_visit b 2 = Some (labels_of [("__name__", "up")]%string).
Proof.
  destruct (sealing_keeps_labelsets (SE:=ArenaSymbolTableError) sample_keyset sample_keyset_ok) as (f & b & Hf & Hb & Hv & _).
  { apply (bool_decide_unpack _). vm_compute. exact I. }
  exists f, b. split; [exact Hf|]. split; [exact Hb|]. split.
  - rewrite (proj1 (Hv 1)). vm_compute. reflexivity.
  - rewrite (proj2 (Hv 2)). vm_compute. reflexivity.
Defined.
