(* ===== verification/WalReplay.v ===== *)
(** * WAL replay

    [chronoxide-core/src/storage/wal_replay.rs]: one log file rebuilds one source
    partition's head.  It composes the records of [Wal], the ingest-time policy of
    [EventTime], the values of [Otlp], the label sets of [OtlpLabels], the reset
    hints of [OtlpReset] and the head of [HeadBuffer]; [prost]'s decoder is the class
    [OtlpProto] and the label store any [LabelSetStore].  A replay that fails drops
    its head and store, as its caller must, so an error carries no state.  Each
    sample is given the allocator's answers at the front of a stream of them. *)
From S2P Require Import Prelude Text Frame Wal Files WalDir EventTime TypedSamples Otlp OtlpLabels OtlpReset Symbols FlatStore BlockCodec Arena Series EncodedSeries HeadWindow HeadBuffer.

Inductive WalReplayStopReason := InvalidRecord | UnexpectedEofRecord.

Record WalReplayReport := mk_replay_report {
  rr_checkpoint_lsn : option Z;
  rr_replay_start_lsn : Z;
  rr_records_read : Z;
  rr_checkpoints_read : Z;
  rr_batches_replayed : Z;
  rr_invalid_otlp_batches : Z;
  rr_policy_accepted_datapoints : Z;
  rr_invalid_typed_datapoints : Z;
  rr_dropped_too_old_datapoints : Z;
  rr_dropped_too_future_datapoints : Z;
  rr_missing_timestamp_datapoints : Z;
  rr_datapoints_replayed : Z;
  rr_skipped_non_scalar_labels : Z;
  rr_labelset_errors : Z;
  rr_stopped_at_lsn : option Z;
  rr_stop_reason : option WalReplayStopReason;
}.
Definition report_default : WalReplayReport :=
  mk_replay_report None 0 0 0 0 0 0 0 0 0 0 0 0 0 None None.

(** Assigning a field, and a saturating addition to a counter. *)
Definition set_checkpoint_lsn (v : option Z) (r : WalReplayReport) : WalReplayReport :=
  mk_replay_report v (rr_replay_start_lsn r) (rr_records_read r) (rr_checkpoints_read r) (rr_batches_replayed r)
    (rr_invalid_otlp_batches r) (rr_policy_accepted_datapoints r) (rr_invalid_typed_datapoints r)
    (rr_dropped_too_old_datapoints r) (rr_dropped_too_future_datapoints r) (rr_missing_timestamp_datapoints r)
    (rr_datapoints_replayed r) (rr_skipped_non_scalar_labels r) (rr_labelset_errors r) (rr_stopped_at_lsn r)
    (rr_stop_reason r).
Definition set_replay_start_lsn (v : Z) (r : WalReplayReport) : WalReplayReport :=
  mk_replay_report (rr_checkpoint_lsn r) v (rr_records_read r) (rr_checkpoints_read r) (rr_batches_replayed r)
    (rr_invalid_otlp_batches r) (rr_policy_accepted_datapoints r) (rr_invalid_typed_datapoints r)
    (rr_dropped_too_old_datapoints r) (rr_dropped_too_future_datapoints r) (rr_missing_timestamp_datapoints r)
    (rr_datapoints_replayed r) (rr_skipped_non_scalar_labels r) (rr_labelset_errors r) (rr_stopped_at_lsn r)
    (rr_stop_reason r).
Definition add_records_read (n : Z) (r : WalReplayReport) : WalReplayReport :=
  mk_replay_report (rr_checkpoint_lsn r) (rr_replay_start_lsn r) (saturating_add_u64 (rr_records_read r) n)
    (rr_checkpoints_read r) (rr_batches_replayed r) (rr_invalid_otlp_batches r)
    (rr_policy_accepted_datapoints r) (rr_invalid_typed_datapoints r) (rr_dropped_too_old_datapoints r)
    (rr_dropped_too_future_datapoints r) (rr_missing_timestamp_datapoints r) (rr_datapoints_replayed r)
    (rr_skipped_non_scalar_labels r) (rr_labelset_errors r) (rr_stopped_at_lsn r) (rr_stop_reason r).
Definition add_checkpoints_read (n : Z) (r : WalReplayReport) : WalReplayReport :=
  mk_replay_report (rr_checkpoint_lsn r) (rr_replay_start_lsn r) (rr_records_read r)
    (saturating_add_u64 (rr_checkpoints_read r) n) (rr_batches_replayed r) (rr_invalid_otlp_batches r)
    (rr_policy_accepted_datapoints r) (rr_invalid_typed_datapoints r) (rr_dropped_too_old_datapoints r)
    (rr_dropped_too_future_datapoints r) (rr_missing_timestamp_datapoints r) (rr_datapoints_replayed r)
    (rr_skipped_non_scalar_labels r) (rr_labelset_errors r) (rr_stopped_at_lsn r) (rr_stop_reason r).
Definition add_batches_replayed (n : Z) (r : WalReplayReport) : WalReplayReport :=
  mk_replay_report (rr_checkpoint_lsn r) (rr_replay_start_lsn r) (rr_records_read r) (rr_checkpoints_read r)
    (saturating_add_u64 (rr_batches_replayed r) n) (rr_invalid_otlp_batches r) (rr_policy_accepted_datapoints r)
    (rr_invalid_typed_datapoints r) (rr_dropped_too_old_datapoints r) (rr_dropped_too_future_datapoints r)
    (rr_missing_timestamp_datapoints r) (rr_datapoints_replayed r) (rr_skipped_non_scalar_labels r)
    (rr_labelset_errors r) (rr_stopped_at_lsn r) (rr_stop_reason r).
Definition add_invalid_otlp_batches (n : Z) (r : WalReplayReport) : WalReplayReport :=
  mk_replay_report (rr_checkpoint_lsn r) (rr_replay_start_lsn r) (rr_records_read r) (rr_checkpoints_read r)
    (rr_batches_replayed r) (saturating_add_u64 (rr_invalid_otlp_batches r) n) (rr_policy_accepted_datapoints r)
    (rr_invalid_typed_datapoints r) (rr_dropped_too_old_datapoints r) (rr_dropped_too_future_datapoints r)
    (rr_missing_timestamp_datapoints r) (rr_datapoints_replayed r) (rr_skipped_non_scalar_labels r)
    (rr_labelset_errors r) (rr_stopped_at_lsn r) (rr_stop_reason r).
Definition add_policy_accepted_datapoints (n : Z) (r : WalReplayReport) : WalReplayReport :=
  mk_replay_report (rr_checkpoint_lsn r) (rr_replay_start_lsn r) (rr_records_read r) (rr_checkpoints_read r)
    (rr_batches_replayed r) (rr_invalid_otlp_batches r) (saturating_add_u64 (rr_policy_accepted_datapoints r) n)
    (rr_invalid_typed_datapoints r) (rr_dropped_too_old_datapoints r) (rr_dropped_too_future_datapoints r)
    (rr_missing_timestamp_datapoints r) (rr_datapoints_replayed r) (rr_skipped_non_scalar_labels r)
    (rr_labelset_errors r) (rr_stopped_at_lsn r) (rr_stop_reason r).
Definition add_invalid_typed_datapoints (n : Z) (r : WalReplayReport) : WalReplayReport :=
  mk_replay_report (rr_checkpoint_lsn r) (rr_replay_start_lsn r) (rr_records_read r) (rr_checkpoints_read r)
    (rr_batches_replayed r) (rr_invalid_otlp_batches r) (rr_policy_accepted_datapoints r)
    (saturating_add_u64 (rr_invalid_typed_datapoints r) n) (rr_dropped_too_old_datapoints r)
    (rr_dropped_too_future_datapoints r) (rr_missing_timestamp_datapoints r) (rr_datapoints_replayed r)
    (rr_skipped_non_scalar_labels r) (rr_labelset_errors r) (rr_stopped_at_lsn r) (rr_stop_reason r).
Definition add_dropped_too_old_datapoints (n : Z) (r : WalReplayReport) : WalReplayReport :=
  mk_replay_report (rr_checkpoint_lsn r) (rr_replay_start_lsn r) (rr_records_read r) (rr_checkpoints_read r)
    (rr_batches_replayed r) (rr_invalid_otlp_batches r) (rr_policy_accepted_datapoints r)
    (rr_invalid_typed_datapoints r) (saturating_add_u64 (rr_dropped_too_old_datapoints r) n)
    (rr_dropped_too_future_datapoints r) (rr_missing_timestamp_datapoints r) (rr_datapoints_replayed r)
    (rr_skipped_non_scalar_labels r) (rr_labelset_errors r) (rr_stopped_at_lsn r) (rr_stop_reason r).
Definition add_dropped_too_future_datapoints (n : Z) (r : WalReplayReport) : WalReplayReport :=
  mk_replay_report (rr_checkpoint_lsn r) (rr_replay_start_lsn r) (rr_records_read r) (rr_checkpoints_read r)
    (rr_batches_replayed r) (rr_invalid_otlp_batches r) (rr_policy_accepted_datapoints r)
    (rr_invalid_typed_datapoints r) (rr_dropped_too_old_datapoints r)
    (saturating_add_u64 (rr_dropped_too_future_datapoints r) n) (rr_missing_timestamp_datapoints r)
    (rr_datapoints_replayed r) (rr_skipped_non_scalar_labels r) (rr_labelset_errors r) (rr_stopped_at_lsn r)
    (rr_stop_reason r).
Definition add_missing_timestamp_datapoints (n : Z) (r : WalReplayReport) : WalReplayReport :=
  mk_replay_report (rr_checkpoint_lsn r) (rr_replay_start_lsn r) (rr_records_read r) (rr_checkpoints_read r)
    (rr_batches_replayed r) (rr_invalid_otlp_batches r) (rr_policy_accepted_datapoints r)
    (rr_invalid_typed_datapoints r) (rr_dropped_too_old_datapoints r) (rr_dropped_too_future_datapoints r)
    (saturating_add_u64 (rr_missing_timestamp_datapoints r) n) (rr_datapoints_replayed r)
    (rr_skipped_non_scalar_labels r) (rr_labelset_errors r) (rr_stopped_at_lsn r) (rr_stop_reason r).
Definition add_datapoints_replayed (n : Z) (r : WalReplayReport) : WalReplayReport :=
  mk_replay_report (rr_checkpoint_lsn r) (rr_replay_start_lsn r) (rr_records_read r) (rr_checkpoints_read r)
    (rr_batches_replayed r) (rr_invalid_otlp_batches r) (rr_policy_accepted_datapoints r)
    (rr_invalid_typed_datapoints r) (rr_dropped_too_old_datapoints r) (rr_dropped_too_future_datapoints r)
    (rr_missing_timestamp_datapoints r) (saturating_add_u64 (rr_datapoints_replayed r) n)
    (rr_skipped_non_scalar_labels r) (rr_labelset_errors r) (rr_stopped_at_lsn r) (rr_stop_reason r).
Definition add_skipped_non_scalar_labels (n : Z) (r : WalReplayReport) : WalReplayReport :=
  mk_replay_report (rr_checkpoint_lsn r) (rr_replay_start_lsn r) (rr_records_read r) (rr_checkpoints_read r)
    (rr_batches_replayed r) (rr_invalid_otlp_batches r) (rr_policy_accepted_datapoints r)
    (rr_invalid_typed_datapoints r) (rr_dropped_too_old_datapoints r) (rr_dropped_too_future_datapoints r)
    (rr_missing_timestamp_datapoints r) (rr_datapoints_replayed r)
    (saturating_add_u64 (rr_skipped_non_scalar_labels r) n) (rr_labelset_errors r) (rr_stopped_at_lsn r)
    (rr_stop_reason r).
Definition add_labelset_errors (n : Z) (r : WalReplayReport) : WalReplayReport :=
  mk_replay_report (rr_checkpoint_lsn r) (rr_replay_start_lsn r) (rr_records_read r) (rr_checkpoints_read r)
    (rr_batches_replayed r) (rr_invalid_otlp_batches r) (rr_policy_accepted_datapoints r)
    (rr_invalid_typed_datapoints r) (rr_dropped_too_old_datapoints r) (rr_dropped_too_future_datapoints r)
    (rr_missing_timestamp_datapoints r) (rr_datapoints_replayed r) (rr_skipped_non_scalar_labels r)
    (saturating_add_u64 (rr_labelset_errors r) n) (rr_stopped_at_lsn r) (rr_stop_reason r).
Definition set_stop (lsn : Z) (reason : WalReplayStopReason) (r : WalReplayReport) : WalReplayReport :=
  mk_replay_report (rr_checkpoint_lsn r) (rr_replay_start_lsn r) (rr_records_read r) (rr_checkpoints_read r)
    (rr_batches_replayed r) (rr_invalid_otlp_batches r) (rr_policy_accepted_datapoints r)
    (rr_invalid_typed_datapoints r) (rr_dropped_too_old_datapoints r) (rr_dropped_too_future_datapoints r)
    (rr_missing_timestamp_datapoints r) (rr_datapoints_replayed r) (rr_skipped_non_scalar_labels r)
    (rr_labelset_errors r) (Some lsn) (Some reason).

Record WalReplayPartition := mk_replay_partition { rp_topic : str; rp_partition : Z }.
#[export] Instance replay_partition_eq_dec : EqDecision WalReplayPartition.
Proof. solve_decision. Defined.

Definition replay_stop_reason (err : io_error) : option WalReplayStopReason :=
  match err_kind err with
  | InvalidData => Some InvalidRecord
  | UnexpectedEof => Some UnexpectedEofRecord
  | _ => None
  end.

Definition observe_replay_partition (replay_partition : option WalReplayPartition) (batch : OtlpWalBatch)
    : io_result (option WalReplayPartition) :=
  let next := mk_replay_partition (ob_topic batch) (ob_partition batch) in
  match replay_partition with
  | Some current =>
      if bool_decide (current = next) then Ok (Some current)
      else fail Unsupported "single-head WAL replay encountered multiple source partitions"
  | None => Ok (Some next)
  end.

Definition evaluate_replay_datapoint_time (policy : EventTimePolicy) (time_unix_nano captured_at_ms : Z)
    (report : WalReplayReport) : option Z * WalReplayReport :=
  match decision (evaluate policy time_unix_nano captured_at_ms) with
  | Accepted timestamp_ms => (Some timestamp_ms, add_policy_accepted_datapoints 1 report)
  | DroppedTooOld => (None, add_dropped_too_old_datapoints 1 report)
  | DroppedTooFuture => (None, add_dropped_too_future_datapoints 1 report)
  | MissingTimestamp => (None, add_missing_timestamp_datapoints 1 report)
  end.

(** A panic of the code, as a failure of a [run]. *)
Definition or_panic {A} (m : option A) : run A := match m with Some a => Ok a | None => Err Panic end.

Section loops.
Context {St A : Type}.
(** [for x in l { .. }] with [?] in the body. *)
Fixpoint for_each (f : St → A → run St) (s : St) (l : list A) : run St :=
  match l with
  | [] => Ok s
  | x :: l => s ← f s x; for_each f s l
  end.
End loops.

Section replay.
Context `{HO : OtherFloatCodecs} `{HT : TableOrder} `{HC : Crc32c} `{HP : OtlpProto}.
Context {L E : Type} `{HL : LabelSetStore L E}.

(** ** The label store behind the interner *)

Record ReplayLabelInterner := mk_interner { ri_labels : L; ri_report : WalReplayReport }.

#[export] Instance replay_label_interner : OtlpLabelSetInterner ReplayLabelInterner E := {
  on_skipped_non_scalar i := mk_interner (ri_labels i) (add_skipped_non_scalar_labels 1 (ri_report i));
  on_intern_error _ i := mk_interner (ri_labels i) (add_labelset_errors 1 (ri_report i));
  intern c i :=
    labels ← canonical_iter c;
    '(r, store) ← ls_intern (ri_labels i) labels;
    Some (r, mk_interner store (ri_report i));
}.

Definition intern_replay_labelset (labels : L) (report : WalReplayReport) (resource_attrs : list KeyValue)
    (metric_name : str) (datapoint_attrs : list KeyValue) : option (option Z * L * WalReplayReport) :=
  '(series, i) ← intern_labelset (E:=E) resource_attrs metric_name datapoint_attrs (mk_interner labels report);
  Some (series, ri_labels i, ri_report i).

(** ** Data points *)

(** The mutable arguments and [WalReplayRuntime]. *)
Record replay_state := mk_replay {
  rs_head : HeadBuffer;
  rs_labels : L;
  rs_report : WalReplayReport;
  rs_reset_tracker : OtlpResetTracker;
  rs_partition : option WalReplayPartition;
  rs_completed_windows : list HeadWindow;
  rs_alloc : nat → alloc_seq;
}.
Definition with_report (st : replay_state) (report : WalReplayReport) : replay_state :=
  mk_replay (rs_head st) (rs_labels st) report (rs_reset_tracker st) (rs_partition st) (rs_completed_windows st) (rs_alloc st).
Definition with_labels (st : replay_state) (labels : L) (report : WalReplayReport) : replay_state :=
  mk_replay (rs_head st) labels report (rs_reset_tracker st) (rs_partition st) (rs_completed_windows st) (rs_alloc st).
Definition with_tracker (st : replay_state) (tracker : OtlpResetTracker) : replay_state :=
  mk_replay (rs_head st) (rs_labels st) (rs_report st) tracker (rs_partition st) (rs_completed_windows st) (rs_alloc st).
Definition with_partition (st : replay_state) (partition : option WalReplayPartition) : replay_state :=
  mk_replay (rs_head st) (rs_labels st) (rs_report st) (rs_reset_tracker st) partition (rs_completed_windows st) (rs_alloc st).

Definition record_replay_sample (st : replay_state) (series timestamp_ms : Z) (value : SampleValue) : run replay_state :=
  '(head, r) ← or_panic (record_sample_with_outcome (rs_alloc st) (rs_head st) series timestamp_ms value);
  outcome ← io r;
  Ok (mk_replay head (rs_labels st) (rs_report st) (rs_reset_tracker st) (rs_partition st)
        (rs_completed_windows st ++ option_list (ho_completed_window outcome)) (λ n, rs_alloc st (2 + n)%nat)).

Record ReplayBatchMode := mk_mode { md_captured_at_ms : Z; md_event_time_policy : EventTimePolicy }.

Section points.
Context (mode : ReplayBatchMode) (resource_attrs : list KeyValue) (metric_name : str).

(** The state and the samples recorded so far. *)
Definition replay_number_datapoint (acc : replay_state * Z) (dp : NumberDataPoint) : run (replay_state * Z) :=
  let '(st, recorded) := acc in
  let '(ts_ms, report) :=
    evaluate_replay_datapoint_time (md_event_time_policy mode) (nd_time_unix_nano dp) (md_captured_at_ms mode) (rs_report st) in
  match ts_ms with
  | None => Ok (with_report st report, recorded)
  | Some ts_ms =>
      '(series, labels, report) ← or_panic (intern_replay_labelset (rs_labels st) report resource_attrs metric_name (nd_attributes dp));
      let st := with_labels st labels report in
      match series, number_value dp with
      | Some series, Some value =>
          st ← record_replay_sample st series ts_ms value;
          Ok (st, saturating_add_u64 recorded 1)
      | _, _ => Ok (st, recorded)
      end
  end.
Definition replay_number_datapoints (st : replay_state) (points : list NumberDataPoint) : run (replay_state * Z) :=
  for_each replay_number_datapoint (st, 0) points.

(** The body shared by the three typed kinds. *)
Definition replay_typed_datapoint (attributes : list KeyValue) (time_unix_nano : Z) (value : SampleValue)
    (acc : replay_state * Z) : run (replay_state * Z) :=
  let '(st, recorded) := acc in
  let '(ts_ms, report) :=
    evaluate_replay_datapoint_time (md_event_time_policy mode) time_unix_nano (md_captured_at_ms mode) (rs_report st) in
  match ts_ms with
  | None => Ok (with_report st report, recorded)
  | Some ts_ms =>
      match validate_for_storage value with
      | Err _ => Ok (with_report st (add_invalid_typed_datapoints 1 report), recorded)
      | Ok _ =>
          '(series, labels, report) ← or_panic (intern_replay_labelset (rs_labels st) report resource_attrs metric_name attributes);
          let st := with_labels st labels report in
          match series with
          | None => Ok (st, recorded)
          | Some series =>
              let '(tracker, value) := stamp_sample (rs_reset_tracker st) series value in
              st ← record_replay_sample (with_tracker st tracker) series ts_ms value;
              Ok (st, saturating_add_u64 recorded 1)
          end
      end
  end.

Definition replay_metric_data (acc : replay_state * Z) (data : MetricData) : run (replay_state * Z) :=
  let '(st, recorded) := acc in
  match data with
  | Gauge points | Sum points =>
      '(st, n) ← replay_number_datapoints st points;
      Ok (st, saturating_add_u64 recorded n)
  | Histogram points temporality =>
      for_each (λ acc dp, replay_typed_datapoint (hd_attributes dp) (hd_time_unix_nano dp) (histogram_value dp temporality) acc)
        acc points
  | ExponentialHistogram points temporality =>
      for_each (λ acc dp, replay_typed_datapoint (ed_attributes dp) (ed_time_unix_nano dp)
        (exponential_histogram_value dp temporality) acc) acc points
  | Summary points =>
      for_each (λ acc dp, replay_typed_datapoint (sd_attributes dp) (sd_time_unix_nano dp) (summary_value dp) acc) acc points
  end.
End points.

Definition replay_otlp_batch (request : ExportMetricsServiceRequest) (mode : ReplayBatchMode) (st : replay_state)
    : run (replay_state * Z) :=
  for_each (λ acc resource_metrics,
    let resource_attrs := default [] (rm_resource resource_metrics) in
    for_each (λ acc scope_metrics,
      for_each (λ acc metric,
        match mt_data metric with
        | None => Ok acc
        | Some data => replay_metric_data mode resource_attrs (mt_name metric) acc data
        end) acc (sm_metrics scope_metrics)) acc (rm_scope_metrics resource_metrics))
    (st, 0) (rq_resource_metrics request).

(** ** Records *)

Definition replay_record (policy : EventTimePolicy) (record_lsn : Z) (record : WalRecord) (st : replay_state)
    : run replay_state :=
  match wr_type record with
  | OtlpBatch =>
      match decode_otlp_batch_payload (wr_payload record) with
      | Err err =>
          match replay_stop_reason err with
          | Some reason => Ok (with_report st (set_stop record_lsn reason (rs_report st)))
          | None => Err (Io err)
          end
      | Ok batch =>
          partition ← io (observe_replay_partition (rs_partition st) batch);
          let st := with_partition st partition in
          match decode_request (ob_payload batch) with
          | None => Ok (with_report st (add_invalid_otlp_batches 1 (rs_report st)))
          | Some request =>
              '(st, datapoints) ← replay_otlp_batch request (mk_mode (ob_captured_at_ms batch) policy) st;
              Ok (with_report st (add_datapoints_replayed datapoints (add_batches_replayed 1 (rs_report st))))
          end
      end
  | Checkpoint =>
      _ ← io (decode_checkpoint_record record);
      Ok (with_report st (add_checkpoints_read 1 (rs_report st)))
  | SegmentSealed => Ok st
  end.

(** The loop over the log, from the bytes left and their position; [None] is too
    little fuel. *)
Fixpoint replay_loop (policy : EventTimePolicy) (fuel : nat) (file : list Z) (record_lsn : Z) (st : replay_state)
    : option (run replay_state) :=
  match fuel with
  | O => None
  | S fuel =>
      match read_wal_record file with
      | Ok None => Some (Ok st)
      | Ok (Some (record, rest)) =>
          let st := with_report st (add_records_read 1 (rs_report st)) in
          match replay_record policy record_lsn record st with
          | Err e => Some (Err e)
          | Ok st =>
              if rr_stop_reason (rs_report st) then Some (Ok st)
              else replay_loop policy fuel rest (record_lsn + (zlen file - zlen rest)) st
          end
      | Err (Io err) =>
          match replay_stop_reason err with
          | Some reason => Some (Ok (with_report st (set_stop record_lsn reason (rs_report st))))
          | None => Some (Err (Io err))
          end
      | Err Panic => Some (Err Panic)
      end
  end.

(** The record [checkpoint.meta] points at must be the checkpoint it holds. *)
Definition check_checkpoint (file : list Z) (checkpoint : WalCheckpoint) : run unit :=
  record ← read_wal_record (drop (Z.to_nat (cp_wal_lsn checkpoint)) file);
  '(record, _) ← io (ok_or (io_err InvalidData "checkpoint.meta points past WAL EOF") record);
  decoded ← io (decode_checkpoint_record record);
  io (ensure (bool_decide (decoded = checkpoint)) InvalidData "checkpoint.meta does not match WAL checkpoint record").

Definition check_fresh (head : HeadBuffer) (labels : L) : io_result unit :=
  ensure (head_is_empty head && ls_is_empty labels) InvalidInput "WAL replay requires a fresh empty head and label store".

(** After the file is opened: its contents, of which the loop has one turn for
    every byte and one for the end. *)
Definition replay_file (policy : EventTimePolicy) (checkpoint : option WalCheckpoint) (file : list Z) (head : HeadBuffer)
    (labels : L) (al : nat → alloc_seq) : option (run replay_state) :=
  let report := set_checkpoint_lsn (cp_wal_lsn <$> checkpoint) report_default in
  match (match checkpoint with Some c => check_checkpoint file c | None => Ok tt end) with
  | Err e => Some (Err e)
  | Ok _ =>
      replay_loop policy (S (length file)) file 0
        (mk_replay head labels (set_replay_start_lsn 0 report) tracker_default None [] al)
  end.

Definition replay_wal_file_into_head_after_checkpoint (wal_path : str) (checkpoint : option WalCheckpoint)
    (policy : EventTimePolicy) (head : HeadBuffer) (labels : L) (al : nat → alloc_seq) : fsM (option (run replay_state)) :=
  _ ← pure_run (io (check_fresh head labels));
  file ← read_file wal_path;
  mret (replay_file policy checkpoint file head labels al).

Definition replay_wal_file_into_head_from_checkpoint (wal_path : str) (policy : EventTimePolicy) (head : HeadBuffer)
    (labels : L) (al : nat → alloc_seq) : fsM (option (run replay_state)) :=
  checkpoint ← read_checkpoint_meta;
  replay_wal_file_into_head_after_checkpoint wal_path checkpoint policy head labels al.

Definition replay_wal_file_into_head (wal_path : str) (policy : EventTimePolicy) (head : HeadBuffer) (labels : L)
    (al : nat → alloc_seq) : fsM (option (run replay_state)) :=
  replay_wal_file_into_head_after_checkpoint wal_path None policy head labels al.
End replay.

(** ** Reading consumes the log *)

Section reading.
Context `{HC : Crc32c}.

Lemma read_exact_length n s x r : read_exact n s = Ok (x, r) → (length r ≤ length s)%nat ∧ (0 ≤ n → zlen s = n + zlen r).
Proof.
  unfold read_exact. destruct (Z.ltb_spec (zlen s) n); [done|]. intros [= <- <-]. unfold zlen in *. rewrite length_drop. lia.
Qed.
(** A record is at least its header and its checksum. *)
Lemma read_record_length s record rest : read_wal_record s = Ok (Some (record, rest)) → (length rest + 20 ≤ length s)%nat.
Proof.
  unfold read_wal_record. intros (o & Ho & Hr)%bind_ok. destruct o as [[[t payload] s']|]; [|done]. injection Hr as _ ->.
  revert Ho. unfold read_frame. destruct s as [|first s]; [done|].
  intros ([header s1] & [_ H1]%io_ok%read_exact_length & Hd)%bind_ok. specialize (H1 ltac:(done)).
  apply bind_ok in Hd as (? & _ & Hd). apply bind_ok in Hd as (? & _ & Hd). apply bind_ok in Hd as (? & _ & Hd).
  apply bind_ok in Hd as ([p s2] & Hp & Hd). apply bind_ok in Hd as ([crc s3] & [_ H3]%io_ok%read_exact_length & Hd).
  specialize (H3 ltac:(done)). apply bind_ok in Hd as (? & _ & [= _ _ ->]).
  assert (length s2 ≤ length s1)%nat as H2.
  { unfold read_vec in Hp. destruct (_ <? _); [done|]. by apply io_ok, read_exact_length in Hp as [Hp _]. }
  unfold RECORD_HEADER_LEN, RECORD_TRAILER_LEN, zlen in *. cbn [length]. lia.
Qed.
Lemma read_record_written `{!Crc32cLaws} t payload s : vec_ok payload →
  read_wal_record (write_wal_record t payload ++ s) = Ok (Some (mk_wal_record t payload, s)).
Proof.
  intros Hv. unfold read_wal_record, write_wal_record.
  rewrite (read_frame_encoded wal_format from_u16 (as_u16 t) t payload s); [done|by split|by destruct t|by destruct t|done].
Qed.
End reading.

(** ** What replay leaves alone, and what it does to the head *)

Section effects.
Context `{HO : OtherFloatCodecs} `{HT : TableOrder} `{HC : Crc32c} `{HP : OtlpProto}.
Context {L E : Type} `{HL : LabelSetStore L E}.
Abbreviation state := (replay_state (L:=L)).

Lemma head_run_app h ops1 ops2 : head_run h (ops1 ++ ops2) =
  ('(h, rs1) ← head_run h ops1; '(h, rs2) ← head_run h ops2; Some (h, rs1 ++ rs2)).
Proof.
  revert h. induction ops1 as [|[al [s [ts v]]] ops1 IH]; intros h; cbn.
  - by destruct (head_run h ops2) as [[]|].
  - destruct (record_sample_with_outcome al h s ts v) as [[h1 r]|]; cbn; [|done]. rewrite IH.
    destruct (head_run h1 ops1) as [[h2 rs1]|]; cbn; [|done]. by destruct (head_run h2 ops2) as [[]|].
Qed.

(** From one state to another by recording samples, every one of which the head
    took without an error; only the counters of data points and labels change in
    the report. *)
Record advanced (st st' : state) (ops : list head_op) (outs : list HeadRecordOutcome) : Prop := {
  ad_run : head_run (rs_head st) ops = Some (rs_head st', Ok <$> outs);
  ad_windows : rs_completed_windows st' = rs_completed_windows st ++ omap ho_completed_window outs;
  ad_alloc : ∀ n, rs_alloc st' n = rs_alloc st (2 * length ops + n)%nat;
  ad_ops : Forall (λ op, validate_for_storage (op_sample op).2.2 = Ok tt ∧
    ∃ k, ∀ n, op_al op n = rs_alloc st (k + n)%nat) ops;
  ad_records : rr_records_read (rs_report st') = rr_records_read (rs_report st);
  ad_replayed : rr_datapoints_replayed (rs_report st') = rr_datapoints_replayed (rs_report st);
  ad_stop : rr_stop_reason (rs_report st') = rr_stop_reason (rs_report st);
}.

Lemma advanced_refl st st' :
  rs_head st' = rs_head st → rs_completed_windows st' = rs_completed_windows st → rs_alloc st' = rs_alloc st →
  rr_records_read (rs_report st') = rr_records_read (rs_report st) →
  rr_datapoints_replayed (rs_report st') = rr_datapoints_replayed (rs_report st) →
  rr_stop_reason (rs_report st') = rr_stop_reason (rs_report st) → advanced st st' [] [].
Proof. intros Hh Hw Ha ???. split; [cbn; by rewrite Hh|cbn; by rewrite app_nil_r|intros n; by rewrite Ha|by apply Forall_nil|done|done|done]. Qed.

Lemma advanced_trans st st1 st2 ops1 ops2 outs1 outs2 :
  advanced st st1 ops1 outs1 → advanced st1 st2 ops2 outs2 → advanced st st2 (ops1 ++ ops2) (outs1 ++ outs2).
Proof.
  intros [Hr1 Hw1 Ha1 Ho1 Hc1 Hd1 Hs1] [Hr2 Hw2 Ha2 Ho2 Hc2 Hd2 Hs2]. split.
  - rewrite head_run_app, Hr1. cbn. rewrite Hr2. cbn. by rewrite fmap_app.
  - by rewrite Hw2, Hw1, omap_app, app_assoc.
  - intros n. rewrite Ha2, Ha1, length_app. f_equal. lia.
  - apply Forall_app. split; [done|]. eapply Forall_impl; [exact Ho2|]. intros op [Hv [k Hk]]. split; [done|].
    exists (2 * length ops1 + k)%nat. intros n. rewrite Hk, Ha1. f_equal. lia.
  - congruence.
  - congruence.
  - congruence.
Qed.

(** The state and the number recorded, which saturates. *)
Definition grows (acc acc' : state * Z) : Prop :=
  ∃ ops outs, advanced acc.1 acc'.1 ops outs ∧ acc'.2 = Z.min (acc.2 + zlen ops) u64_max.
Definition counting (acc : state * Z) : Prop := 0 ≤ acc.2 ≤ u64_max.

Lemma grows_trans a b c : grows a b → grows b c → grows a c.
Proof.
  intros (ops1 & outs1 & H1 & E1) (ops2 & outs2 & H2 & E2). exists (ops1 ++ ops2), (outs1 ++ outs2).
  split; [by eapply advanced_trans|]. rewrite E2, E1, zlen_app. pose proof (zlen_nonneg ops1). pose proof (zlen_nonneg ops2). lia.
Qed.
Lemma grows_counting a b : counting a → grows a b → counting b.
Proof. intros Ha (ops & outs & _ & E'). unfold counting in *. rewrite E'. pose proof (zlen_nonneg ops). lia. Qed.
Lemma grows_refl st st' n : n ≤ u64_max → advanced st st' [] [] → grows (st, n) (st', n).
Proof. intros Hn Ha. exists [], []. split; [done|]. cbn. rewrite zlen_nil. lia. Qed.

Lemma for_each_grows {A} (f : state * Z → A → run (state * Z)) l acc acc' :
  (∀ acc x acc', counting acc → f acc x = Ok acc' → grows acc acc') → counting acc →
  for_each f acc l = Ok acc' → grows acc acc'.
Proof.
  intros Hf. revert acc. induction l as [|x l IH]; intros acc Hc; cbn.
  - intros [= <-]. destruct acc. apply grows_refl; [apply Hc|by apply advanced_refl].
  - intros (acc1 & H1 & H2)%bind_ok. apply Hf in H1; [|done]. eapply grows_trans; [exact H1|].
    apply IH; [by eapply grows_counting|done].
Qed.

(** *** One data point *)

Lemma evaluate_frame policy time captured report ts report' :
  evaluate_replay_datapoint_time policy time captured report = (ts, report') →
  rr_records_read report' = rr_records_read report ∧ rr_datapoints_replayed report' = rr_datapoints_replayed report ∧
  rr_stop_reason report' = rr_stop_reason report.
Proof. unfold evaluate_replay_datapoint_time. destruct (decision _); by intros [= <- <-]. Qed.

Definition same_run (r r' : WalReplayReport) : Prop :=
  rr_records_read r' = rr_records_read r ∧ rr_datapoints_replayed r' = rr_datapoints_replayed r ∧
  rr_stop_reason r' = rr_stop_reason r.

Lemma intern_frame labels report resource name attrs series labels' report' :
  intern_replay_labelset (L:=L) labels report resource name attrs = Some (series, labels', report') → same_run report report'.
Proof.
  unfold intern_replay_labelset, intern_labelset. intros ([series1 i] & Hi & Hx)%bind_Some.
  injection Hx as -> <- <-.
  destruct (build_canonical_spec (I:=ReplayLabelInterner (L:=L)) (E:=E) resource name attrs (mk_interner labels report)) as (c & ps & Hb & Hc & _).
  rewrite Hb in Hi. unfold finish_intern in Hi. apply bind_Some in Hi as ([r j] & Hj & Hi).
  assert (∀ n, same_run report (ri_report (Nat.iter n on_skipped_non_scalar (mk_interner labels report)))) as Hskip.
  { induction n as [|n IH]; [done|]. rewrite Nat.iter_succ. destruct IH as (? & ? & ?). by split_and!. }
  specialize (Hskip (skipped_attrs resource + skipped_attrs attrs)%nat). revert Hj Hskip.
  generalize (Nat.iter (skipped_attrs resource + skipped_attrs attrs) on_skipped_non_scalar (mk_interner labels report)).
  intros k Hj Hskip. cbn in Hj. rewrite Hc in Hj. cbn in Hj. apply bind_Some in Hj as ([r' store] & _ & Hj).
  injection Hj as <- <-. destruct r'; injection Hi as _ <-; [done|]. destruct Hskip as (? & ? & ?). by split_and!.
Qed.

Lemma or_panic_ok {A} (m : option A) a : or_panic m = Ok a ↔ m = Some a.
Proof. destruct m; cbn; naive_solver. Qed.

(** The samples a record of the log can store have valid values. *)
Lemma record_advanced st st' series ts value : validate_for_storage value = Ok tt →
  record_replay_sample st series ts value = Ok st' → ∃ op out, advanced st st' [op] [out].
Proof.
  intros Hv. unfold record_replay_sample. intros ([h r] & Hr%or_panic_ok & (out & ->%io_ok & [= <-])%bind_ok)%bind_ok.
  exists (mk_head_op (rs_alloc st) (series, (ts, value))), out. split; try done.
  - cbn. by rewrite Hr.
  - apply Forall_singleton. split; [done|]. by exists 0%nat.
Qed.
Lemma record_grows st st1 st' recorded series ts value : recorded ≤ u64_max →
  advanced st st1 [] [] → validate_for_storage value = Ok tt → record_replay_sample st1 series ts value = Ok st' →
  grows (st, recorded) (st', saturating_add_u64 recorded 1).
Proof.
  intros Hn H1 Hv (op & out & H2)%record_advanced; [|done]. exists [op], [out]. split; [|done].
  by apply (advanced_trans _ _ _ [] _ [] _ H1 H2).
Qed.

Lemma validate_stamped t series value : validate_for_storage (stamp_sample t series value).2 = validate_for_storage value.
Proof.
  destruct value as [| |v|v|v]; cbn; try done.
  - unfold stamp_histogram, stamp. cbn. repeat case_match; simplify_eq; done.
  - unfold stamp_exponential_histogram, stamp. cbn. repeat case_match; simplify_eq; done.
Qed.

Lemma same_run_refl r : same_run r r.
Proof. done. Qed.
Lemma advanced_report st labels report tracker : same_run (rs_report st) report →
  advanced st (with_tracker (with_labels st labels report) tracker) [] [] ∧ advanced st (with_labels st labels report) [] [] ∧
  advanced st (with_report st report) [] [].
Proof. intros (? & ? & ?). split_and!; by apply advanced_refl. Qed.

Section points.
Context (mode : ReplayBatchMode) (resource : list KeyValue) (name : str).

Lemma number_grows acc dp acc' : counting acc → replay_number_datapoint mode resource name acc dp = Ok acc' → grows acc acc'.
Proof.
  intros Hc. unfold replay_number_datapoint. destruct acc as [st recorded]. unfold counting in Hc. cbn in Hc.
  destruct (evaluate_replay_datapoint_time _ _ _ _) as [ts report] eqn:Hev. apply evaluate_frame in Hev.
  destruct ts as [ts|]; cycle 1.
  { intros [= <-]. apply grows_refl; [lia|]. by apply (advanced_report st (rs_labels st) report (rs_reset_tracker st)). }
  intros ([[series labels] report'] & Hi%or_panic_ok%intern_frame & Hd)%bind_ok.
  assert (same_run (rs_report st) report') as Hrun by (destruct Hi as (? & ? & ?), Hev as (? & ? & ?); split_and!; congruence).
  destruct (advanced_report st labels report' (rs_reset_tracker st) Hrun) as (_ & Hadv & _).
  assert (∀ s v, number_value dp = Some v → (st' ← record_replay_sample (with_labels st labels report') s ts v;
    Ok (st', saturating_add_u64 recorded 1)) = Ok acc' → grows (st, recorded) acc') as Hrec.
  { intros s v Hv (st' & Hst & [= <-])%bind_ok. eapply record_grows; [lia|exact Hadv| |exact Hst].
    unfold number_value in Hv. apply bind_Some in Hv as (x & _ & [= <-]). by destruct x. }
  destruct series as [series|]; [destruct (number_value dp) as [v|] eqn:Hv; [by apply (Hrec series v)|]|];
    injection Hd as <-; (apply grows_refl; [lia|done]).
Qed.

Lemma typed_grows attrs time value acc acc' : counting acc →
  replay_typed_datapoint mode resource name attrs time value acc = Ok acc' → grows acc acc'.
Proof.
  intros Hc. unfold replay_typed_datapoint. destruct acc as [st recorded]. unfold counting in Hc. cbn in Hc.
  destruct (evaluate_replay_datapoint_time _ _ _ _) as [ts report] eqn:Hev. apply evaluate_frame in Hev.
  destruct ts as [ts|]; cycle 1.
  { intros [= <-]. apply grows_refl; [lia|]. by apply (advanced_report st (rs_labels st) report (rs_reset_tracker st)). }
  destruct (validate_for_storage value) as [u|e] eqn:Hval; cycle 1.
  { intros [= <-]. apply grows_refl; [lia|].
    by apply (advanced_report st (rs_labels st) (add_invalid_typed_datapoints 1 report) (rs_reset_tracker st)). }
  intros ([[series labels] report'] & Hi%or_panic_ok%intern_frame & Hd)%bind_ok.
  assert (same_run (rs_report st) report') as Hrun by (destruct Hi as (? & ? & ?), Hev as (? & ? & ?); split_and!; congruence).
  destruct series as [series|]; cycle 1.
  { injection Hd as <-. apply grows_refl; [lia|]. by apply (advanced_report st labels report' (rs_reset_tracker st)). }
  pose proof (validate_stamped (rs_reset_tracker st) series value) as Hst. change (rs_reset_tracker (with_labels st labels report'))
    with (rs_reset_tracker st) in Hd. destruct (stamp_sample (rs_reset_tracker st) series value) as [tracker stamped].
  apply bind_ok in Hd as (st' & Hrec & [= <-]). eapply record_grows; [lia| | |exact Hrec].
  - by apply (advanced_report st labels report' tracker).
  - cbn in Hst. rewrite Hst, Hval. by destruct u.
Qed.

Lemma metric_grows acc data acc' : counting acc → replay_metric_data mode resource name acc data = Ok acc' → grows acc acc'.
Proof.
  intros Hc. unfold replay_metric_data. destruct acc as [st recorded].
  assert (∀ points, ('(st, n) ← replay_number_datapoints mode resource name st points;
    Ok (st, saturating_add_u64 recorded n)) = Ok acc' → grows (st, recorded) acc') as Hnum.
  { intros points ([st1 n] & Hp & [= <-])%bind_ok. apply for_each_grows in Hp as (ops & outs & Ha & Hn);
      [|intros ? ? ?; apply number_grows|unfold counting; cbn; lia].
    exists ops, outs. split; [done|]. unfold counting in Hc. cbn in *. subst n. unfold saturating_add_u64. pose proof (zlen_nonneg ops). lia. }
  destruct data; try by apply Hnum.
  all: apply for_each_grows; [intros ? ? ? ?; by apply typed_grows|done].
Qed.
End points.

Lemma batch_grows request mode st st' n : replay_otlp_batch request mode st = Ok (st', n) → grows (st, 0) (st', n).
Proof.
  unfold replay_otlp_batch. apply for_each_grows; [|unfold counting; cbn; lia]. intros acc rm acc' Hc. apply for_each_grows; [|done].
  clear acc acc' Hc. intros acc sm acc' Hc. apply for_each_grows; [|done]. clear acc acc' Hc.
  intros acc m acc' Hc. destruct (mt_data m) as [data|]; [by apply metric_grows|]. intros [= <-]. destruct acc.
  apply grows_refl; [apply Hc|by apply advanced_refl].
Qed.

(** *** Records and the loop *)

(** As [advanced], with the samples counted in the report. *)
Record replayed (st st' : state) (ops : list head_op) (outs : list HeadRecordOutcome) : Prop := {
  re_run : head_run (rs_head st) ops = Some (rs_head st', Ok <$> outs);
  re_windows : rs_completed_windows st' = rs_completed_windows st ++ omap ho_completed_window outs;
  re_alloc : ∀ n, rs_alloc st' n = rs_alloc st (2 * length ops + n)%nat;
  re_ops : Forall (λ op, validate_for_storage (op_sample op).2.2 = Ok tt ∧
    ∃ k, ∀ n, op_al op n = rs_alloc st (k + n)%nat) ops;
  re_replayed : rr_datapoints_replayed (rs_report st') = Z.min (rr_datapoints_replayed (rs_report st) + zlen ops) u64_max;
}.
Lemma replayed_none st st' : 0 ≤ rr_datapoints_replayed (rs_report st) ≤ u64_max → advanced st st' [] [] → replayed st st' [] [].
Proof. intros Hn [? ? ? ? ? Hd ?]. split; try done. rewrite Hd, zlen_nil. lia. Qed.
Lemma replayed_trans st st1 st2 ops1 ops2 outs1 outs2 :
  replayed st st1 ops1 outs1 → replayed st1 st2 ops2 outs2 → replayed st st2 (ops1 ++ ops2) (outs1 ++ outs2).
Proof.
  intros [Hr1 Hw1 Ha1 Ho1 Hn1] [Hr2 Hw2 Ha2 Ho2 Hn2].
  destruct (advanced_trans (with_report st report_default) (with_report st1 report_default) (with_report st2 report_default)
    ops1 ops2 outs1 outs2) as [Hr Hw Ha Ho _ _ _]; [by split|by split|]. split; [done|done|done|done|].
  rewrite Hn2, Hn1, zlen_app. pose proof (zlen_nonneg ops1). pose proof (zlen_nonneg ops2). lia.
Qed.

Lemma replay_record_replayed policy lsn record st st' : 0 ≤ rr_datapoints_replayed (rs_report st) ≤ u64_max →
  replay_record policy lsn record st = Ok st' →
  (∃ ops outs, replayed st st' ops outs) ∧ rr_records_read (rs_report st') = rr_records_read (rs_report st).
Proof.
  intros Hn. unfold replay_record. assert (∀ st'', advanced st st'' [] [] → Ok (E:=failure) st'' = Ok st' →
    (∃ ops outs, replayed st st' ops outs) ∧ rr_records_read (rs_report st') = rr_records_read (rs_report st)) as Hsame.
  { intros st'' Ha [= ->]. split; [exists [], []; by apply replayed_none|by apply Ha]. }
  destruct (wr_type record).
  - destruct (decode_otlp_batch_payload _) as [batch|err].
    2: { destruct (replay_stop_reason err) as [reason|]; [|done]. intros [= <-]. split; [|done].
         exists [], []. split; [done|cbn; by rewrite app_nil_r|done|by apply Forall_nil|rewrite zlen_nil; cbn; lia]. }
    intros (partition & _ & Hd)%bind_ok. destruct (decode_request _) as [request|].
    2: { revert Hd. apply Hsame. by apply advanced_refl. }
    apply bind_ok in Hd as ([st1 n] & (ops & outs & [Hr Hw Ha Ho Hrec Hrep Hstop] & Hcount)%batch_grows & [= <-]).
    cbn in *. split; [|done]. exists ops, outs. split; [done|done|done|done|].
    cbn. rewrite Hrep. subst n. unfold saturating_add_u64. pose proof (zlen_nonneg ops). lia.
  - intros (? & _ & Hd)%bind_ok. revert Hd. apply Hsame. by apply advanced_refl.
  - apply Hsame. by apply advanced_refl.
Qed.

Lemma replay_loop_replayed policy fuel : ∀ file lsn st st', 0 ≤ rr_datapoints_replayed (rs_report st) ≤ u64_max →
  replay_loop policy fuel file lsn st = Some (Ok st') →
  (∃ ops outs, replayed st st' ops outs) ∧
  rr_records_read (rs_report st') ≤ Z.max (rr_records_read (rs_report st)) (rr_records_read (rs_report st) + zlen file / 20).
Proof.
  induction fuel as [|fuel IH]; [done|]. intros file lsn st st' Hn. cbn [replay_loop].
  assert (0 ≤ zlen file / 20) as Hpos by (apply Z.div_pos; [apply zlen_nonneg|done]).
  assert (replayed st st [] []) as Hrefl by (by apply replayed_none, advanced_refl).
  destruct (read_wal_record file) as [[[record rest]|]|e] eqn:Hread.
  2: { intros [= <-]. split; [by exists [], []|lia]. }
  2: { destruct e as [|err]; [done|]. destruct (replay_stop_reason err); [|done]. intros [= <-]. split; [|cbn; lia].
       exists [], []. split; [done|cbn; by rewrite app_nil_r|done|by apply Forall_nil|rewrite zlen_nil; cbn; lia]. }
  apply read_record_length in Hread. set (st1 := with_report st _).
  destruct (replay_record policy lsn record st1) as [st2|e] eqn:Hrec; [|done].
  apply replay_record_replayed in Hrec as [(ops & outs & H1) Hrr]; [|done].
  assert (rr_records_read (rs_report st2) ≤ rr_records_read (rs_report st) + 1) as Hrr1.
  { rewrite Hrr. unfold st1. cbn. unfold saturating_add_u64. lia. }
  assert (zlen rest / 20 + 1 ≤ zlen file / 20) as Hdiv.
  { rewrite <- Z.div_add by done. apply Z.div_le_mono; [done|]. unfold zlen. lia. }
  assert (0 ≤ zlen rest / 20) by (apply Z.div_pos; [apply zlen_nonneg|done]).
  assert (replayed st st2 ops outs) as H1'.
  { destruct H1 as [? ? ? ? ?]. by split. }
  destruct (rr_stop_reason (rs_report st2)).
  - intros [= <-]. split; [by exists ops, outs|lia].
  - intros Hloop. apply IH in Hloop as [(ops2 & outs2 & H2) Hr2]; [|rewrite (re_replayed _ _ _ _ H1'); pose proof (zlen_nonneg ops); lia].
    split; [|lia]. exists (ops ++ ops2), (outs ++ outs2). by eapply replayed_trans.
Qed.

(** ** Termination and torn logs *)

Lemma replay_loop_fuel policy fuel : ∀ file lsn st, (length file < fuel)%nat →
  ∃ r, ∀ fuel', (length file < fuel')%nat → replay_loop policy fuel' file lsn st = Some r.
Proof.
  induction fuel as [|fuel IH]; intros file lsn st Hf; [lia|].
  assert (∃ r, ∀ fuel', (length file ≤ fuel')%nat → replay_loop policy (S fuel') file lsn st = Some r) as [r Hr].
  { cbn [replay_loop]. destruct (read_wal_record file) as [[[record rest]|]|[|err]] eqn:Hread; [|by eexists..|].
    - apply read_record_length in Hread. destruct (replay_record _ _ _ _) as [st'|e]; [|by eexists].
      destruct (rr_stop_reason (rs_report st')); [by eexists|].
      destruct (IH rest (lsn + (zlen file - zlen rest)) st') as [r Hr]; [lia|]. exists r. intros fuel' Hf'. apply Hr. lia.
    - destruct (replay_stop_reason err); by eexists. }
  exists r. intros [|fuel'] Hf'; [lia|]. apply Hr. lia.
Qed.

(** The records of a log and their bytes. *)
Definition record_bytes (r : WalRecord) : list Z := write_wal_record (wr_type r) (wr_payload r).
Definition log_bytes (records : list WalRecord) : list Z := mjoin (record_bytes <$> records).

(** Replaying whole records, from a position. *)
Fixpoint replay_records (policy : EventTimePolicy) (lsn : Z) (records : list WalRecord) (st : state) : run state :=
  match records with
  | [] => Ok st
  | record :: records =>
      st ← replay_record policy lsn record (with_report st (add_records_read 1 (rs_report st)));
      if rr_stop_reason (rs_report st) then Ok st
      else replay_records policy (lsn + zlen (record_bytes record)) records st
  end.
(** The end of a log that ends at [lsn] with an unreadable record. *)
Definition stop_at (lsn : Z) (reason : WalReplayStopReason) (st : state) : state :=
  if rr_stop_reason (rs_report st) then st else with_report st (set_stop lsn reason (rs_report st)).

Lemma replay_loop_records `{!Crc32cLaws} policy records tail : Forall (λ r, vec_ok (wr_payload r)) records →
  ∀ fuel lsn st, (length (log_bytes records ++ tail) < fuel)%nat → rr_stop_reason (rs_report st) = None →
  replay_loop policy fuel (log_bytes records ++ tail) lsn st =
    match replay_records policy lsn records st with
    | Err e => Some (Err e)
    | Ok st => if rr_stop_reason (rs_report st) then Some (Ok st)
               else replay_loop policy (S (length tail)) tail (lsn + zlen (log_bytes records)) st
    end.
Proof.
  induction 1 as [|r records Hr _ IH]; intros fuel lsn st Hf Hst.
  - cbn [replay_records log_bytes fmap list_fmap mjoin list_join app] in *. rewrite Hst, zlen_nil, Z.add_0_r.
    destruct (replay_loop_fuel policy fuel tail lsn st Hf) as [x Hx].
    rewrite (Hx (S (length tail))) by lia. by apply Hx.
  - change (log_bytes (r :: records)) with (record_bytes r ++ log_bytes records) in *.
    rewrite <- app_assoc in *. destruct fuel as [|fuel]; [lia|]. cbn [replay_loop replay_records].
    unfold record_bytes at 1. rewrite read_record_written by done. destruct r as [t p]. cbn [wr_type wr_payload] in *.
    destruct (replay_record _ _ _ _) as [st1|e] eqn:Hrec; [|done]. cbn [mbind result_bind].
    destruct (rr_stop_reason (rs_report st1)) eqn:Hst1; [by rewrite Hst1|].
    rewrite (zlen_app (record_bytes _)). replace (zlen (record_bytes (mk_wal_record t p)) + zlen (log_bytes records ++ tail) -
      zlen (log_bytes records ++ tail)) with (zlen (record_bytes (mk_wal_record t p))) by lia.
    assert (length (log_bytes records ++ tail) < fuel)%nat as Hf'.
    { pose proof (read_record_written t p (log_bytes records ++ tail) Hr) as Hl%read_record_length. unfold record_bytes in Hf. cbn in Hf. lia. }
    rewrite IH by done. by rewrite zlen_app, Z.add_assoc.
Qed.

(** C25: replay always ends.  On any bytes, whatever the decoder, the store and the
    head answer, the loop finishes, in the same way with any more turns; and one
    that succeeds has read at most one record for every twenty bytes. *)
Theorem replay_terminates policy checkpoint file head (labels : L) al : ∃ r,
  replay_file policy checkpoint file head labels al = Some r ∧
  (∀ st, r = Ok st → rr_records_read (rs_report st) ≤ zlen file / 20) ∧
  (∀ lsn st fuel, (length file < fuel)%nat →
     replay_loop policy fuel file lsn st = replay_loop policy (S (length file)) file lsn st ∧
     is_Some (replay_loop policy fuel file lsn st)).
Proof.
  assert (∀ lsn st fuel, (length file < fuel)%nat →
     replay_loop policy fuel file lsn st = replay_loop policy (S (length file)) file lsn st ∧
     is_Some (replay_loop policy fuel file lsn st)) as Hall.
  { intros lsn st fuel Hf. destruct (replay_loop_fuel policy fuel file lsn st Hf) as [r Hr]. rewrite !Hr by (done || lia). by split. }
  unfold replay_file. destruct (match checkpoint with Some c => _ | None => _ end) as [u|e]; [|by exists (Err e)].
  set (st0 := mk_replay _ _ _ _ _ _ _). destruct (Hall 0 st0 (S (length file))) as [_ [r Hr]]; [lia|].
  exists r. split_and!; [done| |done]. intros st ->. apply replay_loop_replayed in Hr as [_ Hr]; [|cbn; lia].
  cbn in Hr. assert (0 ≤ zlen file / 20) by (apply Z.div_pos; [apply zlen_nonneg|done]). lia.
Qed.

(** C6: a torn log is its whole records.  When a log of whole records is followed by
    part of another, replay does what its whole records say, and if no record
    stopped it, it reports the end of the whole records as the place where it
    stopped, for an unexpected end, or nothing when the log ends there. *)
Theorem replay_torn_log `{!Crc32cLaws} policy checkpoint records t payload tail head (labels : L) al :
  Forall (λ r, vec_ok (wr_payload r)) records → vec_ok payload →
  tail `prefix_of` write_wal_record t payload → tail ≠ write_wal_record t payload →
  let file := log_bytes records ++ tail in
  (∀ c, checkpoint = Some c → check_checkpoint file c = Ok tt) →
  let st0 := mk_replay head labels (set_replay_start_lsn 0 (set_checkpoint_lsn (cp_wal_lsn <$> checkpoint) report_default))
    tracker_default None [] al in
  replay_file policy checkpoint file head labels al =
    Some (st ← replay_records policy 0 records st0;
          Ok (if decide (tail = []) then st else stop_at (zlen (log_bytes records)) UnexpectedEofRecord st)).
Proof.
  intros Hrec Hv Hpre Hne file Hck st0. unfold replay_file.
  assert (match checkpoint with Some c => check_checkpoint file c | None => Ok () end = Ok ()) as ->.
  { destruct checkpoint as [c|]; [by apply Hck|done]. }
  fold st0. unfold file. rewrite replay_loop_records by (done || lia). rewrite Z.add_0_l.
  destruct (replay_records policy 0 records st0) as [st|e]; [|done]. cbn [mbind result_bind]. unfold stop_at.
  destruct (rr_stop_reason (rs_report st)) eqn:Hst; [by case_decide|]. cbn [replay_loop].
  case_decide as Ht; [by subst tail|]. unfold read_wal_record.
  rewrite (read_frame_torn wal_format from_u16 (as_u16 t) t payload tail); [done|by split|by destruct t|by destruct t|done..].
Qed.

(** C5: replay rebuilds the head.  A replay that succeeds recorded a sequence of
    samples with valid values in a fresh head, every one of which the head took,
    counted in the report up to saturation; and, in the raw or the Gorilla encoding
    of floats and either encoding of every other kind, the windows it returns
    together with those then drained decode to the last writes of the samples
    accepted in each range and lane. *)
Theorem replay_rebuilds_head policy checkpoint file head (labels : L) al st :
  replay_file policy checkpoint file head labels al = Some (Ok st) →
  ∃ ops outs, head_run head ops = Some (rs_head st, Ok <$> outs) ∧
    rs_completed_windows st = handed_out (Ok <$> outs) ∧
    Forall (λ op, validate_for_storage (op_sample op).2.2 = Ok tt) ops ∧
    rr_datapoints_replayed (rs_report st) = Z.min (zlen ops) u64_max ∧
    ∀ c D, config_wf c → window_duration_ms c = Ok D → head_new c = Ok head → 14 * zlen ops ≤ u32_max →
      Forall (sample_ok c D) (op_sample <$> ops) → (∀ n m, grants_all (al (n + m)%nat)) → head_fits_along head ops →
      windows_decode c D (rs_head st) (log_from c D [] (op_sample <$> ops) (Ok <$> outs)) (rs_completed_windows st).
Proof.
  unfold replay_file. destruct (match checkpoint with Some c => _ | None => _ end); [|done].
  intros [(ops & outs & [Hr Hw Ha Ho Hn]) _]%replay_loop_replayed; [|cbn; lia].
  cbn [rs_head rs_completed_windows rs_alloc rs_report] in *. exists ops, outs.
  assert (rs_completed_windows st = handed_out (Ok <$> outs)) as Hout.
  { rewrite Hw. unfold handed_out. cbn [app]. clear. induction outs as [|o outs IH]; [done|]. cbn.
    destruct (ho_completed_window o); cbn; by rewrite IH. }
  split_and!; [done|done|eapply Forall_impl; [exact Ho|]; by intros op []| |].
  - rewrite Hn. cbn. done.
  - intros c D Hwf HD Hnew HN Hok Hal Hfits. destruct (head_run_decodes c D head ops) as (h & rs & Hrun & _ & _ & Hdec); try done.
    + apply Forall_forall. intros op Hop. split; [by apply (proj1 (Forall_forall _ _) Hok), list_elem_of_fmap_2|].
      apply (proj1 (Forall_forall _ _) Ho) in Hop as [_ [k Hk]]. intros n. rewrite Hk. apply Hal.
    + rewrite Hr in Hrun. injection Hrun as <- <-. by rewrite Hout.
Qed.
End effects.

(** ** Witnesses *)

#[local] Existing Instance raw_other_codecs.
#[local] Existing Instance list_table_order.
#[local] Existing Instances colliding_symbols colliding_hashers.

Definition sample_gauge (points : list NumberDataPoint) : ExportMetricsServiceRequest :=
  mk_request [mk_resource (Some sample_resource) [mk_scope [mk_metric (bytes_of_string "cpu") (Some (Gauge points))]]].
Definition point (ms : Z) (value : NumberValue) : NumberDataPoint :=
  mk_number_dp sample_datapoint (ms * 1000000) (Some value).
(** A decoder of two requests. *)
#[local] Instance sample_proto : OtlpProto := {
  aggregation_temporality_try_from t := if t =? 2 then Some Cumulative else None;
  decode_request bytes :=
    if bool_decide (bytes = [1]) then Some (sample_gauge [point 11_000 (AsDouble 1); point 12_000 (AsDouble 2); mk_number_dp [] 0 None])
    else if bool_decide (bytes = [2]) then Some (sample_gauge [point 9_000 (AsDouble 3); point 21_000 (AsDouble 4)])
    else None;
}.
Definition sample_batch (payload : list Z) : WalRecord :=
  mk_wal_record OtlpBatch match encode_otlp_batch_payload (mk_batch (bytes_of_string "t") 0 7 1 20_000 payload) with
                          | Ok bytes => bytes | Err _ => [] end.
Definition sample_log : list WalRecord := [sample_batch [1]; mk_wal_record SegmentSealed []; sample_batch [3]; sample_batch [2]].
Definition torn_record : list Z := take 30 (record_bytes (sample_batch [1])).
Definition sample_policy : EventTimePolicy := mk_policy 15_000 5_000 true.

Example sample_replay :
  (λ r, st ← r; Ok (length (rs_completed_windows st), rs_report st)) <$>
  replay_file (E:=LabelSetStoreError ArenaSymbolTableError) sample_policy None (log_bytes sample_log ++ torn_record)
    first_head sample_store (λ _, calm) =
  Some (Ok (1%nat, mk_replay_report None 0 4 0 2 1 4 0 0 0 1 4 8 0 (Some (zlen (log_bytes sample_log))) (Some UnexpectedEofRecord))).
Proof. vm_compute. reflexivity. Qed.

Definition replay_succeeds {A} (r : option (run A)) : bool := match r with Some (Ok _) => true | _ => false end.

Lemma replay_rebuilds_head_witness : ∃ st ops outs,
  replay_file (E:=LabelSetStoreError ArenaSymbolTableError) sample_policy None (log_bytes sample_log ++ torn_record)
    first_head sample_store (λ _, calm) = Some (Ok st) ∧
  head_run first_head ops = Some (rs_head st, Ok <$> outs) ∧ rs_completed_windows st = handed_out (Ok <$> outs).
Proof.
  assert (replay_succeeds (replay_file (E:=LabelSetStoreError ArenaSymbolTableError) sample_policy None
    (log_bytes sample_log ++ torn_record) first_head sample_store (λ _, calm)) = true) as Hs by (vm_compute; reflexivity).
  destruct (replay_file (E:=LabelSetStoreError ArenaSymbolTableError) sample_policy None
    (log_bytes sample_log ++ torn_record) first_head sample_store (λ _, calm)) as [[st|e]|] eqn:Hr; [|discriminate Hs..].
  destruct (replay_rebuilds_head (E:=LabelSetStoreError ArenaSymbolTableError) sample_policy None
    (log_bytes sample_log ++ torn_record) first_head sample_store (λ _, calm) st Hr) as (ops & outs & Hrun & Hw & _).
  exists st, ops, outs. split; [exact eq_refl|]. split; [exact Hrun|exact Hw].
Defined.

Lemma replay_torn_log_witness : ∃ r,
  replay_file (E:=LabelSetStoreError ArenaSymbolTableError) sample_policy None (log_bytes sample_log ++ torn_record)
    first_head sample_store (λ _, calm) = Some r.
Proof.
  eexists. apply (replay_torn_log (E:=LabelSetStoreError ArenaSymbolTableError) sample_policy None sample_log OtlpBatch
    (wr_payload (sample_batch [1])) torn_record).
  - unfold sample_log. repeat (apply Forall_cons; split; [vm_compute; discriminate|]). by apply Forall_nil.
  - vm_compute. discriminate.
  - apply prefix_take.
  - vm_compute. discriminate.
  - done.
Defined.
