(* ===== verification/Chunk.v ===== *)
(** * Chunk records

    [chronoxide-core/src/storage/chunk]: [types.rs] and [codec.rs].  A
    sealed chunk is a record of one series: a fixed header, for typed kinds a
    redundant lane of the values' counts and sums, and a payload of timestamp
    deltas and values in one of five encodings.  The helpers of [codec.rs] that repeat those of the head and of [schema_varlen.rs]
    word for word ([decode_len], [decode_i32], [try_vec_with_capacity],
    [ensure_minimum_encoded_items]) are the definitions of [Cursor] and
    [SchemaVarLen].  The writer is in [ChunkWriter]. *)
From Stdlib Require Import Sorted.
From stdpp Require Import sorting.
From S2P Require Import Prelude Varint Sort Cursor Frame Fields Bits Bitstream Gorilla SchemaVarLen TypedSamples TypedCodecs BlockCodec.

Definition FRAME_HEADER_LEN : Z := 14.
Definition CHUNK_HEADER_LEN : Z := 40.
Definition TYPED_SCALAR_LANE_MAGIC : Z := of_le (bytes_of_string "TSCL").
Definition TYPED_SCALAR_LANE_VERSION : Z := 1.
Definition TYPED_SCALAR_LANE_HEADER_LEN : Z := 16.

Definition CHUNK_FLAG_HAS_START_TIME : Z := Z.shiftl 1 1.
Definition CHUNK_FLAG_HAS_PER_SAMPLE_FLAGS : Z := Z.shiftl 1 2.
Definition CHUNK_FLAG_HAS_COUNTER_RESET_HINTS : Z := Z.shiftl 1 3.
Definition CHUNK_FLAG_TEMPORALITY_DELTA : Z := Z.shiftl 1 4.

Inductive ChunkKind := KindFloat | KindInt64 | KindHistogram | KindExponentialHistogram | KindSummary.
#[export] Instance chunk_kind_eq_dec : EqDecision ChunkKind.
Proof. solve_decision. Defined.
Inductive ChunkEncoding := EncSchemaVarLen | EncRawF64 | EncRawI64 | EncGorilla | EncIntDeltaZigZag.
#[export] Instance chunk_encoding_eq_dec : EqDecision ChunkEncoding.
Proof. solve_decision. Defined.

(** [as u8] and [chunk_kind_from_u8]. *)
Definition chunk_kind_code (k : ChunkKind) : Z :=
  match k with KindFloat => 0 | KindInt64 => 1 | KindHistogram => 2 | KindExponentialHistogram => 3 | KindSummary => 4 end.
Definition chunk_kind_from_u8 (value : Z) : io_result ChunkKind :=
  if value =? 0 then Ok KindFloat else if value =? 1 then Ok KindInt64 else if value =? 2 then Ok KindHistogram
  else if value =? 3 then Ok KindExponentialHistogram else if value =? 4 then Ok KindSummary
  else fail InvalidData "unknown chunk kind".
Definition chunk_encoding_code (e : ChunkEncoding) : Z :=
  match e with EncSchemaVarLen => 0 | EncRawF64 => 1 | EncRawI64 => 2 | EncGorilla => 3 | EncIntDeltaZigZag => 4 end.
Definition chunk_encoding_from_u8 (value : Z) : io_result ChunkEncoding :=
  if value =? 0 then Ok EncSchemaVarLen else if value =? 1 then Ok EncRawF64 else if value =? 3 then Ok EncGorilla
  else if value =? 4 then Ok EncIntDeltaZigZag else if value =? 2 then Ok EncRawI64
  else fail InvalidData "unknown chunk encoding".

#[export] Instance metadata_eq_dec : EqDecision TypedSampleMetadata.
Proof. solve_decision. Defined.

(** [TypedCounterValue]. *)
Class TypedCounterValue (T : Type) := {
  tc_metadata : T → TypedSampleMetadata;
  tc_count : T → Z;
  tc_sum : T → option Z;
}.
#[export] Instance histogram_counter : TypedCounterValue HistogramValue :=
  {| tc_metadata := h_metadata; tc_count := h_count; tc_sum := h_sum |}.
#[export] Instance exponential_counter : TypedCounterValue ExponentialHistogramValue :=
  {| tc_metadata := e_metadata; tc_count := e_count; tc_sum := e_sum |}.
#[export] Instance summary_counter : TypedCounterValue SummaryValue :=
  {| tc_metadata := s_metadata; tc_count := s_count; tc_sum v := Some (s_sum v) |}.

Record TypedChunkFlagsAccumulator := mk_flags { fa_flags : Z; fa_saw_any : bool; fa_all_delta : bool }.
Definition flags_default : TypedChunkFlagsAccumulator := mk_flags 0 false false.
Definition flags_observe (a : TypedChunkFlagsAccumulator) (m : TypedSampleMetadata) : TypedChunkFlagsAccumulator :=
  let all_delta := if fa_saw_any a then fa_all_delta a else true in
  let set (b : bool) flag flags := if b then Z.lor flags flag else flags in
  mk_flags
    (set (bool_decide (md_reset_hint m ≠ ResetUnknown)) CHUNK_FLAG_HAS_COUNTER_RESET_HINTS
      (set (negb (md_flags m =? 0)) CHUNK_FLAG_HAS_PER_SAMPLE_FLAGS
        (set (bool_decide (is_Some (md_start_time_ms m))) CHUNK_FLAG_HAS_START_TIME (fa_flags a))))
    true
    (all_delta && bool_decide (md_temporality m = TemporalityDelta)).
Definition flags_finish (a : TypedChunkFlagsAccumulator) : Z :=
  if fa_saw_any a && fa_all_delta a then Z.lor (fa_flags a) CHUNK_FLAG_TEMPORALITY_DELTA else fa_flags a.
Definition typed_chunk_flags (metadata : list TypedSampleMetadata) : Z :=
  flags_finish (foldl flags_observe flags_default metadata).

(** ** The header *)

Record DecodedChunkHeader := mk_header {
  dh_kind : ChunkKind;
  dh_encoding : ChunkEncoding;
  dh_flags : Z;
  dh_series_ref : Z;
  dh_min_time_ms : Z;
  dh_max_time_ms : Z;
  dh_num_points : Z;
  dh_header_len : Z;
  dh_payload_len : Z;
  dh_chunk_crc : Z;
}.

Definition decode_chunk_header (payload : list Z) : io_result DecodedChunkHeader :=
  if zlen payload <? CHUNK_HEADER_LEN then fail UnexpectedEof "chunk header short read"
  else
    let field a b := of_le (slice payload a b) in
    kind ← chunk_kind_from_u8 (field 0 1);
    encoding ← chunk_encoding_from_u8 (field 1 2);
    let header_len := field 28 32 in
    let payload_len := field 32 36 in
    _ ← ok_or (io_err InvalidData "chunk record length overflows") (checked_add_u64 header_len payload_len);
    Ok (mk_header kind encoding (field 2 4) (field 4 8) (field 8 16) (field 16 24) (field 24 28) header_len payload_len
          (field 36 40)).

(** The fields in place, as [append_chunk_payload_with_scalar_lane] writes them. *)
Definition chunk_header_bytes (h : DecodedChunkHeader) : list Z :=
  [chunk_kind_code (dh_kind h)] ++ [chunk_encoding_code (dh_encoding h)] ++ le_bytes 2 (dh_flags h)
  ++ le_bytes 4 (dh_series_ref h) ++ le_bytes 8 (dh_min_time_ms h) ++ le_bytes 8 (dh_max_time_ms h)
  ++ le_bytes 4 (dh_num_points h) ++ le_bytes 4 (dh_header_len h) ++ le_bytes 4 (dh_payload_len h)
  ++ le_bytes 4 (dh_chunk_crc h).

(** The header, with the payload it checks. *)
Definition decode_chunk_payload `{Crc32c} (payload : list Z) : io_result (DecodedChunkHeader * list Z) :=
  decoded ← decode_chunk_header payload;
  record_len ← ok_or (io_err InvalidData "chunk length overflows") (checked_add_u64 (dh_header_len decoded) (dh_payload_len decoded));
  if (dh_header_len decoded <? CHUNK_HEADER_LEN) || negb (record_len =? zlen payload) then
    fail InvalidData "chunk payload length is not exact"
  else
    let chunk_payload := slice payload (dh_header_len decoded) record_len in
    if negb (crc32c chunk_payload =? dh_chunk_crc decoded) then fail InvalidData "chunk crc mismatch"
    else Ok (decoded, chunk_payload).

(** ** The redundant lane of typed values *)

Definition encode_scalar_lane_metadata (m : TypedSampleMetadata) (out : list Z) : list Z :=
  let out := encode_varint (md_flags m) out in
  let out := encode_varint (temporality_code (md_temporality m)) out in
  let out := encode_varint (reset_hint_code (md_reset_hint m)) out in
  match md_start_time_ms m with
  | Some start_time_ms => encode_varint start_time_ms (out ++ [1])
  | None => out ++ [0]
  end.
Definition encode_scalar_lane_opt_f64 (value : option Z) (out : list Z) : list Z :=
  match value with Some value => out ++ [1] ++ le_bytes 8 value | None => out ++ [0] end.

(** The timestamps' offsets, the loop shared by every encoder. *)
Definition encode_deltas {T} (t0_ms : Z) (samples : list (Z * T)) (out : list Z) : list Z :=
  foldl (λ out p, encode_varint (saturating_sub p.1 t0_ms) out) out samples.

Definition checked_u32_len (len : Z) (field : string) : io_result Z :=
  ok_or (io_err InvalidInput (field +:+ " exceeds the u32 on-disk limit")) (try_u32 len).

Definition encode_typed_scalar_lane `{Crc32c} {T} `{TypedCounterValue T} (al : allocator) (t0_ms : Z) (samples : list (Z * T))
    : io_result (list Z) :=
  let body := encode_deltas t0_ms samples (le_bytes 8 t0_ms) in
  let body := foldl (λ body p, encode_scalar_lane_opt_f64 (tc_sum p.2)
                (encode_varint (tc_count p.2) (encode_scalar_lane_metadata (tc_metadata p.2) body))) body samples in
  body_len ← ok_or (io_err InvalidInput "typed scalar lane body exceeds the u32 on-disk limit") (try_u32 (zlen body));
  lane_len ← ok_or (io_err InvalidInput "typed scalar lane length overflows")
    (checked_add_u64 TYPED_SCALAR_LANE_HEADER_LEN (zlen body));
  _ ← try_reserve al "typed scalar lane" "typed scalar lane allocation failed: " lane_len;
  Ok (le_bytes 4 TYPED_SCALAR_LANE_MAGIC ++ le_bytes 2 TYPED_SCALAR_LANE_VERSION ++ le_bytes 2 0
      ++ le_bytes 4 body_len ++ le_bytes 4 (crc32c body) ++ body).

Definition typed_kind (k : ChunkKind) : bool :=
  match k with KindHistogram | KindExponentialHistogram | KindSummary => true | _ => false end.

Definition typed_scalar_lane_body `{Crc32c} (header : DecodedChunkHeader) (lane : list Z) : io_result (list Z) :=
  if dh_num_points header =? 0 then fail InvalidData "typed scalar lane has no points"
  else if negb (bool_decide (dh_encoding header = EncSchemaVarLen)) then
    fail InvalidData "typed scalar lane requires schema varlen encoding"
  else if negb (typed_kind (dh_kind header)) then fail InvalidInput "typed scalar lane requires a typed chunk"
  else if zlen lane <? TYPED_SCALAR_LANE_HEADER_LEN then fail UnexpectedEof "typed scalar lane header short read"
  else
    let field a b := of_le (slice lane a b) in
    if negb (field 0 4 =? TYPED_SCALAR_LANE_MAGIC) then fail InvalidData "typed scalar lane magic mismatch"
    else if negb (field 4 6 =? TYPED_SCALAR_LANE_VERSION) then fail InvalidData "unsupported typed scalar lane version"
    else if negb (field 6 8 =? 0) then fail InvalidData "typed scalar lane flags must be zero"
    else if negb (TYPED_SCALAR_LANE_HEADER_LEN + field 8 12 =? zlen lane) then
      fail InvalidData "typed scalar lane body length mismatch"
    else
      let body := drop (Z.to_nat TYPED_SCALAR_LANE_HEADER_LEN) lane in
      if negb (crc32c body =? field 12 16) then fail InvalidData "typed scalar lane crc mismatch"
      else
        minimum_body_len ← ok_or (io_err InvalidData "typed scalar lane minimum body size overflows")
          (checked_mul_u64 (dh_num_points header) 7 ≫= λ bytes, checked_add_u64 bytes 8);
        if zlen body <? minimum_body_len then
          fail InvalidData "typed scalar lane point count is infeasible for its body bytes"
        else Ok body.

Definition read_u64 : list Z → Z → io_result (Z * Z) := read_unsigned "short read" 8.
Definition read_f64 : list Z → Z → io_result (Z * Z) := read_unsigned "short read" 8.
Definition read_i64 : list Z → Z → io_result (Z * Z) := read_signed "short read" 8.

Definition checked_timestamp_ms (t0_ms delta_ms : Z) : io_result Z :=
  ok_or (io_err InvalidData "chunk timestamp overflows u64") (checked_add_u64 t0_ms delta_ms).
Definition decode_timestamp (t0_ms : Z) (buf : list Z) (cursor : Z) : io_result (Z * Z) :=
  '(dt, cursor) ← decode_varint buf cursor;
  timestamp_ms ← checked_timestamp_ms t0_ms dt;
  Ok (timestamp_ms, cursor).

Record DecodedTypedScalarLaneRow := mk_row {
  lr_timestamp_ms : Z;
  lr_metadata : TypedSampleMetadata;
  lr_count : Z;
  lr_sum : option Z;
}.

(** The two cursors' walk; what is left of them, the timestamps' range, the flags
    and the caller's state. *)
Section lane_rows.
Context {St : Type} (t0_ms : Z) (body : list Z) (on_row : St → DecodedTypedScalarLaneRow → io_result St).

Record lane_walk := mk_walk {
  lw_timestamp_cursor : Z;
  lw_value_cursor : Z;
  lw_first : option Z;
  lw_previous : option Z;
  lw_flags : TypedChunkFlagsAccumulator;
  lw_state : St;
}.
Definition lane_row_step (w : lane_walk) : io_result lane_walk :=
  '(timestamp_ms, timestamp_cursor) ← decode_timestamp t0_ms body (lw_timestamp_cursor w);
  if match lw_previous w with Some previous => timestamp_ms <? previous | None => false end then
    fail InvalidData "typed scalar lane timestamps are not ordered"
  else
    '(metadata, value_cursor) ← decode_typed_metadata body (lw_value_cursor w);
    '(count, value_cursor) ← decode_varint body value_cursor;
    '(sum, value_cursor) ← decode_opt_f64 body value_cursor;
    st ← on_row (lw_state w) (mk_row timestamp_ms metadata count sum);
    Ok (mk_walk timestamp_cursor value_cursor (Some (default timestamp_ms (lw_first w))) (Some timestamp_ms)
          (flags_observe (lw_flags w) metadata) st).
Fixpoint lane_rows_loop (n : nat) (w : lane_walk) : io_result lane_walk :=
  match n with
  | O => Ok w
  | S n => w ← lane_row_step w; lane_rows_loop n w
  end.
End lane_rows.
Arguments lane_walk : clear implicits.
Arguments mk_walk {St}.
Arguments lw_timestamp_cursor {St}.
Arguments lw_value_cursor {St}.
Arguments lw_first {St}.
Arguments lw_previous {St}.
Arguments lw_flags {St}.
Arguments lw_state {St}.

Definition for_each_typed_scalar_lane_row_body {St} (header : DecodedChunkHeader) (body : list Z)
    (on_row : St → DecodedTypedScalarLaneRow → io_result St) (st : St) : io_result St :=
  '(t0_ms, timestamp_cursor) ← read_u64 body 0;
  if negb (t0_ms =? dh_min_time_ms header) then
    fail InvalidData "typed scalar lane timestamp base disagrees with min_time_ms"
  else
    let n := Z.to_nat (dh_num_points header) in
    '(_, values_start) ← decode_items decode_varint n body timestamp_cursor;
    w ← lane_rows_loop t0_ms body on_row n (mk_walk timestamp_cursor values_start None None flags_default st);
    if negb (lw_timestamp_cursor w =? values_start) || negb (lw_value_cursor w =? zlen body) then
      fail InvalidData "typed scalar lane has trailing bytes"
    else if negb (bool_decide (lw_first w = Some (dh_min_time_ms header)))
            || negb (bool_decide (lw_previous w = Some (dh_max_time_ms header))) then
      fail InvalidData "typed scalar lane timestamp range disagrees with the chunk header"
    else if negb (flags_finish (lw_flags w) =? dh_flags header) then
      fail InvalidData "typed chunk header flags disagree with scalar-lane metadata"
    else Ok (lw_state w).

Definition for_each_typed_scalar_lane_row `{Crc32c} {St} (header : DecodedChunkHeader) (lane : list Z)
    (on_row : St → DecodedTypedScalarLaneRow → io_result St) (st : St) : io_result St :=
  body ← typed_scalar_lane_body header lane;
  for_each_typed_scalar_lane_row_body header body on_row st.

(** ** Samples and records *)

Inductive ChunkSamples :=
  | ChunkFloats (samples : list (Z * Z))
  | ChunkInt64s (samples : list (Z * Z))
  | ChunkHistograms (samples : list (Z * HistogramValue))
  | ChunkExponentialHistograms (samples : list (Z * ExponentialHistogramValue))
  | ChunkSummaries (samples : list (Z * SummaryValue)).

Record ChunkRecord := mk_chunk_record {
  cr_series_ref : Z;
  cr_kind : ChunkKind;
  cr_min_time_ms : Z;
  cr_max_time_ms : Z;
  cr_samples : ChunkSamples;
}.
Record DecodedChunkLayout := mk_layout {
  dl_kind : ChunkKind;
  dl_encoding : ChunkEncoding;
  dl_flags : Z;
  dl_num_points : Z;
  dl_common_header_bytes : Z;
  dl_scalar_lane_bytes : Z;
  dl_payload_bytes : Z;
  dl_timestamp_base_bytes : Z;
  dl_timestamp_delta_bytes : Z;
  dl_value_bytes : Z;
}.

(** The timestamps that a validation iterates over. *)
Definition sample_timestamps (samples : ChunkSamples) : list Z :=
  match samples with
  | ChunkFloats l | ChunkInt64s l => l.*1
  | ChunkHistograms l => l.*1
  | ChunkExponentialHistograms l => l.*1
  | ChunkSummaries l => l.*1
  end.

Fixpoint timestamps_ordered (previous : option Z) (timestamps : list Z) : io_result unit :=
  match timestamps with
  | [] => Ok tt
  | timestamp :: timestamps =>
      if match previous with Some previous => timestamp <? previous | None => false end then
        fail InvalidData "decoded chunk timestamps are not ordered"
      else timestamps_ordered (Some timestamp) timestamps
  end.
Definition validate_timestamp_iter (num_points min_time_ms max_time_ms : Z) (timestamps : list Z) : io_result unit :=
  if negb (zlen timestamps =? num_points) then fail InvalidData "decoded point count disagrees with the chunk header"
  else
    _ ← timestamps_ordered None timestamps;
    if negb (bool_decide (head timestamps = Some min_time_ms)) || negb (bool_decide (last timestamps = Some max_time_ms)) then
      fail InvalidData "decoded timestamp range disagrees with the chunk header"
    else Ok tt.
Definition validate_decoded_sample_timestamps (num_points min_time_ms max_time_ms : Z) (samples : ChunkSamples) : io_result unit :=
  validate_timestamp_iter num_points min_time_ms max_time_ms (sample_timestamps samples).

Definition verify_scalar_chunk_redundant_metadata (header : DecodedChunkHeader) (lane : list Z) : io_result unit :=
  if negb (dh_flags header =? 0) then fail InvalidData "scalar chunk header flags must be zero"
  else match lane with [] => Ok tt | _ => fail InvalidData "scalar chunk has a typed scalar lane" end.

(** [optional_f64_bits_equal] is equality of the patterns. *)
Definition verify_row {T} `{TypedCounterValue T} (values : list (Z * T)) (observed : Z) (row : DecodedTypedScalarLaneRow)
    : io_result Z :=
  '(expected_timestamp_ms, expected_value) ←
    ok_or (io_err InvalidData "typed scalar lane has more rows than the native payload") (values !! Z.to_nat observed : option (Z * T));
  if negb (lr_timestamp_ms row =? expected_timestamp_ms) || negb (bool_decide (lr_metadata row = tc_metadata expected_value))
     || negb (lr_count row =? tc_count expected_value) || negb (bool_decide (lr_sum row = tc_sum expected_value)) then
    fail InvalidData "typed scalar lane row disagrees with the native payload"
  else ok_or (io_err InvalidData "typed scalar lane row count overflows") (checked_add_u64 observed 1).

Definition verify_typed_chunk_redundant_metadata `{Crc32c} {T} `{TypedCounterValue T} (header : DecodedChunkHeader)
    (lane : list Z) (values : list (Z * T)) : io_result unit :=
  if negb (dh_flags header =? typed_chunk_flags ((λ p, tc_metadata p.2) <$> values)) then
    fail InvalidData "typed chunk header flags disagree with native metadata"
  else
    match lane with
    | [] => Ok tt
    | _ =>
        observed ← for_each_typed_scalar_lane_row header lane (verify_row values) 0;
        if negb (observed =? zlen values) then
          fail InvalidData "typed scalar lane has fewer rows than the native payload"
        else Ok tt
    end.

Definition verify_chunk_scalar_lane_and_flags `{Crc32c} (record_bytes : list Z) (samples : ChunkSamples) : io_result unit :=
  header ← decode_chunk_header record_bytes;
  if (dh_header_len header <? CHUNK_HEADER_LEN) || (zlen record_bytes <? dh_header_len header) then
    fail InvalidData "chunk header length is invalid while verifying redundant metadata"
  else
    let lane := slice record_bytes CHUNK_HEADER_LEN (dh_header_len header) in
    match samples, dh_kind header with
    | ChunkFloats _, KindFloat | ChunkInt64s _, KindInt64 => verify_scalar_chunk_redundant_metadata header lane
    | ChunkHistograms values, KindHistogram => verify_typed_chunk_redundant_metadata header lane values
    | ChunkExponentialHistograms values, KindExponentialHistogram => verify_typed_chunk_redundant_metadata header lane values
    | ChunkSummaries values, KindSummary => verify_typed_chunk_redundant_metadata header lane values
    | _, _ => fail InvalidData "decoded chunk samples disagree with the redundant-metadata kind"
    end.

Definition validate_full_chunk_point_count_feasible (kind : ChunkKind) (encoding : ChunkEncoding)
    (point_count available_payload_bytes_after_t0 : Z) : io_result unit :=
  let check (minimum : io_result (option Z)) :=
    minimum ← minimum;
    minimum_bytes ← ok_or (io_err InvalidData "chunk minimum payload size overflows") minimum;
    if available_payload_bytes_after_t0 <? minimum_bytes then
      fail InvalidData "chunk point count is infeasible for its encoded payload bytes"
    else Ok tt in
  match kind, encoding with
  | KindFloat, EncRawF64 | KindInt64, EncRawI64 => check (Ok (checked_mul_u64 point_count 9))
  | KindFloat, EncGorilla =>
      check (bytes ← minimum_gorilla_encoded_len_bytes point_count; Ok (checked_add_u64 point_count bytes))
  | KindInt64, EncIntDeltaZigZag => check (Ok (checked_mul_u64 point_count 2))
  | (KindHistogram | KindExponentialHistogram | KindSummary), EncSchemaVarLen =>
      check (Ok (checked_mul_u64 point_count 2 ≫= λ bytes, checked_add_u64 bytes 2))
  | _, _ => Ok tt
  end.

Definition require_payload_end (payload : list Z) (cursor : Z) : io_result unit :=
  if negb (cursor =? zlen payload) then fail InvalidData "chunk value payload has trailing bytes" else Ok tt.

Definition decode_timestamps (al : allocator) (buf : list Z) (cursor t0_ms num_points : Z) : io_result (list Z * Z) :=
  _ ← ensure_minimum_encoded_items (saturating_sub (zlen buf) cursor) num_points 1 "timestamp deltas";
  _ ← try_vec_with_capacity al num_points "decoded timestamps";
  decode_items (decode_timestamp t0_ms) (Z.to_nat num_points) buf cursor.

(** The interleaved loops of the two raw encodings; also the bytes of deltas. *)
Fixpoint decode_raw_loop (read : list Z → Z → io_result (Z * Z)) (n : nat) (buf : list Z) (cursor t0_ms encoded_timestamp_bytes : Z)
    : io_result (list (Z * Z) * Z * Z) :=
  match n with
  | O => Ok ([], encoded_timestamp_bytes, cursor)
  | S n =>
      '(dt, after) ← decode_varint buf cursor;
      encoded_timestamp_bytes ← ok_or (io_err InvalidData "timestamp byte count overflows")
        (checked_add_u64 encoded_timestamp_bytes (after - cursor));
      '(value, cursor) ← read buf after;
      timestamp_ms ← checked_timestamp_ms t0_ms dt;
      '(samples, encoded_timestamp_bytes, cursor) ← decode_raw_loop read n buf cursor t0_ms encoded_timestamp_bytes;
      Ok ((timestamp_ms, value) :: samples, encoded_timestamp_bytes, cursor)
  end.

(** The samples, the bytes of their deltas and of their values. *)
Definition decode_raw (al : allocator) (read : list Z → Z → io_result (Z * Z)) (field underflow : string) (payload : list Z)
    (cursor t0_ms num_points : Z) : io_result (list (Z * Z) * Z * Z) :=
  _ ← try_vec_with_capacity al num_points field;
  '(samples, timestamp_delta_bytes, after) ← decode_raw_loop read (Z.to_nat num_points) payload cursor t0_ms 0;
  _ ← require_payload_end payload after;
  value_bytes ← ok_or (io_err InvalidData underflow) (checked_sub_u64 (zlen payload) (cursor + timestamp_delta_bytes));
  Ok (samples, timestamp_delta_bytes, value_bytes).

Definition decode_gorilla (al : allocator) (payload : list Z) (cursor t0_ms num_points : Z) : io_result (list (Z * Z) * Z * Z) :=
  _ ← try_vec_with_capacity al num_points "decoded Gorilla timestamps";
  '(timestamps, after) ← decode_items (decode_timestamp t0_ms) (Z.to_nat num_points) payload cursor;
  values ← decode_gorilla_values al (drop (Z.to_nat after) payload) num_points;
  _ ← try_vec_with_capacity al num_points "decoded Gorilla samples";
  Ok (zip timestamps values, after - cursor, zlen payload - after).

Definition decode_int_delta (al : allocator) (payload : list Z) (cursor t0_ms num_points : Z) : io_result (list (Z * Z) * Z * Z) :=
  _ ← try_vec_with_capacity al num_points "decoded IntDelta timestamps";
  '(timestamps, values_start) ← decode_items (decode_timestamp t0_ms) (Z.to_nat num_points) payload cursor;
  _ ← try_vec_with_capacity al num_points "decoded IntDelta values";
  '(values, after) ← decode_int_loop (Z.to_nat num_points) payload values_start 0;
  _ ← require_payload_end payload after;
  _ ← try_vec_with_capacity al num_points "decoded IntDelta samples";
  Ok (zip timestamps values, values_start - cursor, after - values_start).

Definition zip_decoded_samples {T} (al : allocator) (timestamps : list Z) (values : list T) (field : string)
    : io_result (list (Z * T)) :=
  if negb (zlen timestamps =? zlen values) then fail InvalidData "decoded timestamp and value counts disagree"
  else
    _ ← try_vec_with_capacity al (zlen timestamps) field;
    Ok (zip timestamps values).

(** The arm of each typed kind. *)
Definition decode_typed {T} `{SchemaVarLenEncoding T} (al : allocator) (field : string) (payload : list Z)
    (cursor t0_ms num_points : Z) : io_result (list (Z * T) * Z * Z) :=
  '(timestamps, after) ← decode_timestamps al payload cursor t0_ms num_points;
  values ← SchemaVarLen.decode_values al (drop (Z.to_nat after) payload) num_points;
  samples ← zip_decoded_samples al timestamps values field;
  Ok (samples, after - cursor, zlen payload - after).

Definition wrap_samples {T} (c : list (Z * T) → ChunkSamples) (r : io_result (list (Z * T) * Z * Z)) : io_result (ChunkSamples * Z * Z) :=
  '(l, timestamp_delta_bytes, value_bytes) ← r; Ok (c l, timestamp_delta_bytes, value_bytes).

Definition decode_samples (al : allocator) (kind : ChunkKind) (encoding : ChunkEncoding) (payload : list Z)
    (cursor t0_ms n : Z) : io_result (ChunkSamples * Z * Z) :=
  match kind, encoding with
  | KindFloat, EncRawF64 =>
      wrap_samples ChunkFloats (decode_raw al read_f64 "decoded RawF64 samples" "float payload size underflows" payload cursor t0_ms n)
  | KindFloat, EncGorilla => wrap_samples ChunkFloats (decode_gorilla al payload cursor t0_ms n)
  | KindFloat, _ => fail InvalidData "unsupported float chunk encoding"
  | KindInt64, EncIntDeltaZigZag => wrap_samples ChunkInt64s (decode_int_delta al payload cursor t0_ms n)
  | KindInt64, EncRawI64 =>
      wrap_samples ChunkInt64s (decode_raw al read_i64 "decoded RawI64 samples" "int payload size underflows" payload cursor t0_ms n)
  | KindInt64, _ => fail InvalidData "unsupported int chunk encoding"
  | KindHistogram, EncSchemaVarLen =>
      wrap_samples ChunkHistograms (decode_typed al "decoded histogram samples" payload cursor t0_ms n)
  | KindHistogram, _ => fail InvalidData "unsupported histogram chunk encoding"
  | KindExponentialHistogram, EncSchemaVarLen =>
      wrap_samples ChunkExponentialHistograms (decode_typed al "decoded exponential histogram samples" payload cursor t0_ms n)
  | KindExponentialHistogram, _ => fail InvalidData "unsupported exponential histogram chunk encoding"
  | KindSummary, EncSchemaVarLen => wrap_samples ChunkSummaries (decode_typed al "decoded summary samples" payload cursor t0_ms n)
  | KindSummary, _ => fail InvalidData "unsupported summary chunk encoding"
  end.

Definition decode_chunk_record_with_layout `{Crc32c} (al : allocator) (payload : list Z)
    : io_result (ChunkRecord * DecodedChunkLayout) :=
  '(decoded, body) ← decode_chunk_payload payload;
  '(t0_ms, cursor) ← read_u64 body 0;
  if dh_num_points decoded =? 0 then fail InvalidData "chunk has no points"
  else if negb (t0_ms =? dh_min_time_ms decoded) then fail InvalidData "chunk timestamp base disagrees with min_time_ms"
  else
    _ ← validate_full_chunk_point_count_feasible (dh_kind decoded) (dh_encoding decoded) (dh_num_points decoded)
          (saturating_sub (zlen body) cursor);
    '(samples, timestamp_delta_bytes, value_bytes) ←
      decode_samples al (dh_kind decoded) (dh_encoding decoded) body cursor t0_ms (dh_num_points decoded);
    _ ← validate_decoded_sample_timestamps (dh_num_points decoded) (dh_min_time_ms decoded) (dh_max_time_ms decoded) samples;
    _ ← verify_chunk_scalar_lane_and_flags payload samples;
    scalar_lane_bytes ← ok_or (io_err InvalidData "chunk header size underflows")
      (checked_sub_u64 (zlen payload) (zlen body) ≫= λ bytes, checked_sub_u64 bytes CHUNK_HEADER_LEN);
    scalar_lane_bytes ← ok_or (io_err InvalidData "scalar lane length exceeds u32") (try_u32 scalar_lane_bytes);
    payload_bytes ← ok_or (io_err InvalidData "chunk payload length exceeds u32") (try_u32 (zlen body));
    timestamp_base_bytes ← ok_or (io_err InvalidData "timestamp base length exceeds u32") (try_u32 cursor);
    timestamp_delta_bytes ← ok_or (io_err InvalidData "timestamp delta length exceeds u32") (try_u32 timestamp_delta_bytes);
    value_bytes ← ok_or (io_err InvalidData "value length exceeds u32") (try_u32 value_bytes);
    Ok (mk_chunk_record (dh_series_ref decoded) (dh_kind decoded) (dh_min_time_ms decoded) (dh_max_time_ms decoded) samples,
        mk_layout (dh_kind decoded) (dh_encoding decoded) (dh_flags decoded) (dh_num_points decoded) CHUNK_HEADER_LEN
          scalar_lane_bytes payload_bytes timestamp_base_bytes timestamp_delta_bytes value_bytes).

Definition decode_chunk_record `{Crc32c} (al : allocator) (payload : list Z) : io_result ChunkRecord :=
  '(record, _) ← decode_chunk_record_with_layout al payload; Ok record.

(** ** Fields at fixed places *)

Lemma slice_skip {A} (x l : list A) a b : zlen x ≤ a → slice (x ++ l) a b = slice l (a - zlen x) (b - zlen x).
Proof.
  intros Ha. unfold slice, zlen in *. rewrite drop_app_ge by lia. f_equal; [lia|]. f_equal. lia.
Qed.
Lemma slice_here {A} (x l : list A) a b : a = 0 → b = zlen x → slice (x ++ l) a b = x.
Proof. intros -> ->. by apply (slice_app [] x l). Qed.
Lemma slice_drop {A} (l : list A) a b : 0 ≤ a → a ≤ b → slice l a b ++ drop (Z.to_nat b) l = drop (Z.to_nat a) l.
Proof.
  intros. unfold slice. rewrite <- (take_drop (Z.to_nat (b - a)) (drop (Z.to_nat a) l)) at 2. rewrite drop_drop.
  do 3 f_equal. lia.
Qed.
Lemma slice_whole {A} (l : list A) b : zlen l ≤ b → slice l 0 b = l.
Proof. intros. unfold slice, zlen in *. rewrite drop_0, take_ge; [done|lia]. Qed.
Lemma zlen_slice {A} (l : list A) a b : 0 ≤ a → a ≤ b → b ≤ zlen l → zlen (slice l a b) = b - a.
Proof. intros. unfold slice, zlen in *. rewrite length_take, length_drop. lia. Qed.
Lemma bytes_slice l a b : bytes l → bytes (slice l a b).
Proof. intros. by apply Forall_take, Forall_drop. Qed.
Lemma of_le_one b : of_le [b] = b.
Proof. unfold of_le. cbn. by rewrite Z.lor_0_r. Qed.
Lemma slice_field l a b : bytes l → 0 ≤ a → a ≤ b → b ≤ zlen l →
  le_bytes (b - a) (of_le (slice l a b)) = slice l a b ∧ 0 ≤ of_le (slice l a b) < 2 ^ ((b - a) * 8).
Proof.
  intros Hl Ha Hab Hb. pose proof (zlen_slice l a b Ha Hab Hb) as Hz. pose proof (bytes_slice l a b Hl) as Hs.
  split; [by apply le_bytes_of_le|]. rewrite <- Hz. by apply of_le_range.
Qed.
Lemma of_le_fixed w z : 0 ≤ w → 0 ≤ z < 2 ^ (w * 8) → of_le (le_bytes w z) = z.
Proof. intros. rewrite of_le_le_bytes by done. by apply Z.mod_small. Qed.

(** Reads a field of a concatenation of fields of known sizes. *)
Ltac field_fwd :=
  repeat (rewrite slice_skip by (autorewrite with zlen; lia));
  rewrite slice_here by (autorewrite with zlen; lia).

(** ** Headers *)

Definition header_ok (h : DecodedChunkHeader) : Prop :=
  in_u16 (dh_flags h) ∧ in_u32 (dh_series_ref h) ∧ in_u64 (dh_min_time_ms h) ∧ in_u64 (dh_max_time_ms h) ∧
  in_u32 (dh_num_points h) ∧ in_u32 (dh_header_len h) ∧ in_u32 (dh_payload_len h) ∧ in_u32 (dh_chunk_crc h).

Lemma chunk_kind_codes k : chunk_kind_from_u8 (chunk_kind_code k) = Ok k.
Proof. by destruct k. Qed.
Lemma chunk_encoding_codes e : chunk_encoding_from_u8 (chunk_encoding_code e) = Ok e.
Proof. by destruct e. Qed.
Lemma chunk_kind_inv z k : chunk_kind_from_u8 z = Ok k → z = chunk_kind_code k.
Proof. unfold chunk_kind_from_u8. repeat case_match; intros [= <-]; cbn; lia. Qed.
Lemma chunk_encoding_inv z e : chunk_encoding_from_u8 z = Ok e → z = chunk_encoding_code e.
Proof. unfold chunk_encoding_from_u8. repeat case_match; intros [= <-]; cbn; lia. Qed.

Lemma zlen_header h : zlen (chunk_header_bytes h) = 40.
Proof. unfold chunk_header_bytes. by autorewrite with zlen. Qed.
Lemma bytes_header h : bytes (chunk_header_bytes h).
Proof.
  unfold chunk_header_bytes. rewrite !Forall_app. split_and!; try (by apply bytes_le_bytes).
  - apply Forall_singleton. destruct (dh_kind h); cbn; unfold is_byte; lia.
  - apply Forall_singleton. destruct (dh_encoding h); cbn; unfold is_byte; lia.
Qed.

Lemma decode_header_fwd h rest : header_ok h → decode_chunk_header (chunk_header_bytes h ++ rest) = Ok h.
Proof.
  intros (Hf & Hs & Hmin & Hmax & Hn & Hh & Hp & Hc). unfold decode_chunk_header. pose proof (zlen_nonneg rest).
  rewrite (proj2 (Z.ltb_ge _ _)) by (rewrite zlen_app, zlen_header; unfold CHUNK_HEADER_LEN; lia).
  unfold chunk_header_bytes. rewrite <- !app_assoc.
  unfold in_u16, in_u32, in_u64 in *.
  replace (slice _ 0 1) with [chunk_kind_code (dh_kind h)] by (by field_fwd).
  replace (slice _ 1 2) with [chunk_encoding_code (dh_encoding h)] by (by field_fwd).
  rewrite !of_le_one, chunk_kind_codes, chunk_encoding_codes. cbn [mbind result_bind].
  do 8 (field_fwd; rewrite of_le_fixed by (cbn; lia)).
  rewrite checked_add_u64_fits by lia. cbn [ok_or mbind result_bind]. by destruct h.
Qed.
Lemma decode_header_inv bs h : bytes bs → decode_chunk_header bs = Ok h → header_ok h ∧ ∃ rest, bs = chunk_header_bytes h ++ rest.
Proof.
  intros Hb Hd. unfold decode_chunk_header, CHUNK_HEADER_LEN in Hd. destruct (Z.ltb_spec (zlen bs) 40) as [|Hlen]; [done|].
  apply bind_ok in Hd as (k & Hk%chunk_kind_inv & Hd). apply bind_ok in Hd as (e & He%chunk_encoding_inv & Hd).
  apply bind_ok in Hd as (? & _ & Hd). injection Hd as <-.
  assert (∀ a b, 0 ≤ a → a ≤ b → b ≤ 40 → le_bytes (b - a) (of_le (slice bs a b)) = slice bs a b ∧
    0 ≤ of_le (slice bs a b) < 2 ^ ((b - a) * 8)) as Hf by (intros; apply slice_field; lia || done).
  split.
  - unfold header_ok, in_u16, in_u32, in_u64. cbn -[of_le]. split_and!; first [apply Hf; lia|
      lazymatch goal with |- of_le (slice _ ?a ?b) ≤ _ =>
        let H := fresh in pose proof (proj2 (Hf a b ltac:(lia) ltac:(lia) ltac:(lia))) as H; cbn in H; lia end].
  - exists (drop 40 bs). unfold chunk_header_bytes. cbn [dh_kind dh_encoding dh_flags dh_series_ref dh_min_time_ms
      dh_max_time_ms dh_num_points dh_header_len dh_payload_len dh_chunk_crc]. rewrite <- Hk, <- He.
    assert (∀ a b, 0 ≤ a → b = a + 1 → b ≤ 40 → [of_le (slice bs a b)] = slice bs a b) as H1.
    { intros a b ? -> ?. pose proof (zlen_slice bs a (a + 1) ltac:(lia) ltac:(lia) ltac:(lia)) as Hz.
      destruct (slice bs a (a + 1)) as [|y [|? ?]]; [|by rewrite of_le_one|]; unfold zlen in Hz; cbn [length] in Hz; lia. }
    rewrite !H1 by lia.
    assert (∀ w a b, b - a = w → 0 ≤ a → a ≤ b → b ≤ 40 → le_bytes w (of_le (slice bs a b)) = slice bs a b) as Hw.
    { intros w a b <- ? ? ?. by apply Hf. }
    rewrite !Hw by lia.
    change 40%nat with (Z.to_nat 40). rewrite <- !app_assoc. by rewrite !slice_drop by lia.
Qed.

(** ** Columns *)

Definition deltas_bytes (t0_ms : Z) (ts : list Z) : list Z := mjoin ((λ t, encode_varint (t - t0_ms) []) <$> ts).

Lemma timestamp_codec t0_ms : in_u64 t0_ms →
  Codec (λ _, decode_timestamp t0_ms) (λ t, encode_varint (t - t0_ms) []) (λ t, t0_ms ≤ t ≤ u64_max).
Proof.
  intros H0. split.
  - intros al buf c t rest Hal Hr Ht. unfold decode_timestamp, checked_timestamp_ms, in_u64 in *. read_fwd varint_codec Hr; [unfold in_u64; lia|].
    rewrite checked_add_u64_fits by lia. cbn [ok_or mbind result_bind]. eexists. split; [|exact Hr]. do 2 f_equal. lia.
  - intros al buf c l t c' Hr Hd. unfold decode_timestamp, checked_timestamp_ms in Hd. read_inv varint_codec al Hr Hd dt Hdt.
    destruct (checked_add_u64 t0_ms dt) as [t'|] eqn:Ht; [|done]. cbn in Hd. injection Hd as <- <-.
    apply checked_add_u64_Some in Ht as [-> Ht]. eexists. unfold in_u64 in *. split_and!; [|lia..|done].
    by replace (t0_ms + dt - t0_ms) with dt by lia.
Qed.

Definition ordered (ts : list Z) : Prop := StronglySorted Z.le ts.

Lemma timestamps_ordered_spec ts : ∀ previous, timestamps_ordered previous ts = Ok tt ↔
  ordered (match previous with Some p => p :: ts | None => ts end).
Proof.
  unfold ordered. induction ts as [|t ts IH]; intros previous; cbn [timestamps_ordered].
  { split; [|done]. intros _. destruct previous; repeat constructor. }
  destruct previous as [p|]; [|by rewrite IH]. destruct (Z.ltb_spec t p) as [Hlt|Hle].
  - split; [done|]. intros Hs. apply StronglySorted_inv in Hs as [_ [Hp _]%Forall_cons_1]. lia.
  - rewrite IH. split; intros Hs.
    + constructor; [done|]. apply StronglySorted_inv in Hs as [_ Hs]. constructor; [lia|].
      eapply Forall_impl; [exact Hs|]. cbn. lia.
    + by apply StronglySorted_inv in Hs as [Hs _].
Qed.

(** The timestamps of a chunk. *)
Definition times_ok (n min_ms max_ms : Z) (ts : list Z) : Prop :=
  zlen ts = n ∧ ordered ts ∧ head ts = Some min_ms ∧ last ts = Some max_ms.
Lemma validate_timestamp_iter_spec n min_ms max_ms ts :
  validate_timestamp_iter n min_ms max_ms ts = Ok tt ↔ times_ok n min_ms max_ms ts.
Proof.
  unfold validate_timestamp_iter, times_ok. destruct (Z.eqb_spec (zlen ts) n) as [Hn|Hn]; cbn; [|naive_solver].
  destruct (timestamps_ordered None ts) as [[]|e] eqn:Ho; cbn [mbind result_bind].
  - apply timestamps_ordered_spec in Ho. repeat case_bool_decide; cbn; naive_solver.
  - split; [done|]. intros (_ & Hs & _). by rewrite (proj2 (timestamps_ordered_spec ts None)) in Ho.
Qed.
Lemma times_ok_min n min_ms max_ms ts : times_ok n min_ms max_ms ts → Forall (λ t, min_ms ≤ t) ts.
Proof.
  intros (_ & Hs & Hh & _). destruct ts as [|t ts]; [done|]. injection Hh as ->. constructor; [done|].
  by apply StronglySorted_inv in Hs as [_ Hs].
Qed.

(** ** The lane *)

Definition row_ok (r : DecodedTypedScalarLaneRow) : Prop :=
  metadata_ok (lr_metadata r) ∧ in_u64 (lr_count r) ∧ opt_in_u64 (lr_sum r).
Definition row_bytes (r : DecodedTypedScalarLaneRow) : list Z :=
  metadata_bytes (lr_metadata r) ++ encode_varint (lr_count r) [] ++ opt_f64_bytes (lr_sum r).
Definition lane_body (t0_ms : Z) (rows : list DecodedTypedScalarLaneRow) : list Z :=
  le_bytes 8 t0_ms ++ deltas_bytes t0_ms (lr_timestamp_ms <$> rows) ++ mjoin (row_bytes <$> rows).
Definition lane_bytes `{Crc32c} (t0_ms : Z) (rows : list DecodedTypedScalarLaneRow) : list Z :=
  le_bytes 4 TYPED_SCALAR_LANE_MAGIC ++ le_bytes 2 TYPED_SCALAR_LANE_VERSION ++ le_bytes 2 0
  ++ le_bytes 4 (zlen (lane_body t0_ms rows)) ++ le_bytes 4 (crc32c (lane_body t0_ms rows)) ++ lane_body t0_ms rows.

(** The rows that go with a header. *)
Definition rows_ok (header : DecodedChunkHeader) (rows : list DecodedTypedScalarLaneRow) : Prop :=
  Forall row_ok rows ∧ Forall (λ t, t ≤ u64_max) (lr_timestamp_ms <$> rows) ∧
  times_ok (dh_num_points header) (dh_min_time_ms header) (dh_max_time_ms header) (lr_timestamp_ms <$> rows) ∧
  dh_flags header = typed_chunk_flags (lr_metadata <$> rows).

#[local] Arguments metadata_bytes : simpl never.
#[local] Arguments opt_f64_bytes : simpl never.
#[local] Arguments decode_typed_metadata : simpl never.
#[local] Arguments flags_observe : simpl never.

Section lane.
Context {St : Type} (on_row : St → DecodedTypedScalarLaneRow → io_result St).

Fixpoint fold_rows (st : St) (rows : list DecodedTypedScalarLaneRow) : io_result St :=
  match rows with
  | [] => Ok st
  | row :: rows => st ← on_row st row; fold_rows st rows
  end.

(** The walk over [rows]. *)
Definition walked (w : lane_walk St) (rows : list DecodedTypedScalarLaneRow) (tc vc : Z) (st : St) : lane_walk St :=
  mk_walk tc vc (match lw_first w with Some t => Some t | None => head (lr_timestamp_ms <$> rows) end)
    (match last (lr_timestamp_ms <$> rows) with Some t => Some t | None => lw_previous w end)
    (foldl flags_observe (lw_flags w) (lr_metadata <$> rows)) st.
Definition follows (w : lane_walk St) (rows : list DecodedTypedScalarLaneRow) : Prop :=
  ordered (match lw_previous w with Some t => t :: (lr_timestamp_ms <$> rows) | None => lr_timestamp_ms <$> rows end).

Lemma follows_cons w t row rows : lw_previous w = Some t → follows w (row :: rows) →
  t ≤ lr_timestamp_ms row.
Proof. unfold follows. intros ->. intros Hs%StronglySorted_inv. by destruct Hs as [_ [Ht _]%Forall_cons_1]. Qed.

Section walk.
Context (t0_ms : Z) (body : list Z) (Ht0 : in_u64 t0_ms).

Lemma lane_step_fwd w row rt rv : cursor_rep body (lw_timestamp_cursor w) (encode_varint (lr_timestamp_ms row - t0_ms) [] ++ rt) →
  cursor_rep body (lw_value_cursor w) (row_bytes row ++ rv) → row_ok row → t0_ms ≤ lr_timestamp_ms row ≤ u64_max → follows w [row] →
  ∃ tc vc, cursor_rep body tc rt ∧ cursor_rep body vc rv ∧
    lane_row_step t0_ms body on_row w = (st ← on_row (lw_state w) row; Ok (walked w [row] tc vc st)).
Proof.
  intros Hrt Hrv (Hm & Hc & Hs) Ht Hf. unfold lane_row_step.
  assert (grants alloc_ok) as Hal by done.
  destruct (codec_fwd (Codec := timestamp_codec t0_ms Ht0) alloc_ok _ _ _ _ Hal Hrt Ht) as (tc & -> & Hrt'). cbn [mbind result_bind].
  assert (match lw_previous w with Some previous => lr_timestamp_ms row <? previous | None => false end = false) as ->.
  { destruct (lw_previous w) eqn:Hp; [|done]. apply Z.ltb_ge. by apply (follows_cons w _ row []). }
  unfold row_bytes in Hrv. rewrite <- !app_assoc in Hrv.
  destruct (codec_fwd (Codec := metadata_codec) alloc_ok _ _ _ _ Hal Hrv Hm) as (v1 & -> & Hrv1). cbn [mbind result_bind].
  destruct (codec_fwd (Codec := varint_codec) alloc_ok _ _ _ _ Hal Hrv1 Hc) as (v2 & -> & Hrv2). cbn [mbind result_bind].
  destruct (codec_fwd (Codec := opt_f64_codec) alloc_ok _ _ _ _ Hal Hrv2 Hs) as (v3 & -> & Hrv3). cbn [mbind result_bind].
  exists tc, v3. split_and!; [done|done|]. destruct row as [t m n s]; cbn. destruct (on_row _ _); [|done]. cbn. unfold walked. cbn.
  by destruct (lw_first w).
Qed.

Lemma lane_step_inv w w' lt lv : cursor_rep body (lw_timestamp_cursor w) lt → cursor_rep body (lw_value_cursor w) lv →
  lane_row_step t0_ms body on_row w = Ok w' →
  ∃ row tc vc rt rv st, lt = encode_varint (lr_timestamp_ms row - t0_ms) [] ++ rt ∧ lv = row_bytes row ++ rv ∧ row_ok row ∧
    t0_ms ≤ lr_timestamp_ms row ≤ u64_max ∧ follows w [row] ∧ cursor_rep body tc rt ∧ cursor_rep body vc rv ∧
    on_row (lw_state w) row = Ok st ∧ w' = walked w [row] tc vc st.
Proof.
  intros Hrt Hrv Hd. unfold lane_row_step in Hd.
  read_inv (timestamp_codec t0_ms Ht0) alloc_ok Hrt Hd t Ht. destruct (match lw_previous w with Some _ => _ | None => _ end) eqn:Hprev; [done|].
  read_inv metadata_codec alloc_ok Hrv Hd m Hm. read_inv varint_codec alloc_ok Hrv Hd n Hn. read_inv opt_f64_codec alloc_ok Hrv Hd s Hs.
  apply bind_ok in Hd as (st & Hst & Hd). injection Hd as <-. exists (mk_row t m n s). do 5 eexists. unfold row_bytes, row_ok. cbn.
  split_and!; [done|by rewrite <- !app_assoc|done|done|done|apply Ht|apply Ht| |exact Hrt|exact Hrv|exact Hst|].
  - unfold follows, ordered. cbn. destruct (lw_previous w) as [p|]; [|by repeat constructor]. apply Z.ltb_ge in Hprev. by repeat constructor.
  - unfold walked. cbn. by destruct (lw_first w).
Qed.

Lemma follows_tail w row rows tc vc st : follows w (row :: rows) → follows w [row] ∧ follows (walked w [row] tc vc st) rows.
Proof.
  unfold follows, ordered. cbn. destruct (lw_previous w) as [p|].
  - intros Hs. pose proof Hs as [Hs1 [Hp _]%Forall_cons_1]%StronglySorted_inv. split; [|done]. by repeat constructor.
  - intros Hs. split; [|done]. by repeat constructor.
Qed.
Lemma walked_cons w row rows tc vc st tc' vc' st' :
  walked (walked w [row] tc vc st) rows tc' vc' st' = walked w (row :: rows) tc' vc' st'.
Proof.
  unfold walked. cbn. f_equal; [by destruct (lw_first w)|]. rewrite last_cons. by destruct (last _).
Qed.

Lemma lane_loop_fwd rows : ∀ w rt rv, cursor_rep body (lw_timestamp_cursor w) (deltas_bytes t0_ms (lr_timestamp_ms <$> rows) ++ rt) →
  cursor_rep body (lw_value_cursor w) (mjoin (row_bytes <$> rows) ++ rv) → Forall row_ok rows →
  Forall (λ t, t0_ms ≤ t ≤ u64_max) (lr_timestamp_ms <$> rows) → follows w rows →
  ∃ tc vc, cursor_rep body tc rt ∧ cursor_rep body vc rv ∧
    lane_rows_loop t0_ms body on_row (length rows) w = (st ← fold_rows (lw_state w) rows; Ok (walked w rows tc vc st)).
Proof.
  induction rows as [|row rows IH]; intros w rt rv Hrt Hrv Hok Ht Hf.
  { exists (lw_timestamp_cursor w), (lw_value_cursor w). split_and!; [done|done|]. cbn. unfold walked. cbn. destruct w as [? ? [] ? ? ?]; done. }
  cbn [fmap list_fmap] in *. apply Forall_cons_1 in Hok as [Hr Hok]. apply Forall_cons_1 in Ht as [Ht Hts].
  unfold deltas_bytes in Hrt. cbn [fmap list_fmap] in Hrt. cbn [mjoin list_join] in Hrt, Hrv. rewrite <- app_assoc in Hrt, Hrv.
  destruct (follows_tail w row rows 0 0 (lw_state w) Hf) as [Hf1 _].
  destruct (lane_step_fwd w row _ _ Hrt Hrv Hr Ht Hf1) as (tc1 & vc1 & Hrt1 & Hrv1 & Hstep). cbn [length lane_rows_loop fold_rows].
  destruct (on_row (lw_state w) row) as [st|e] eqn:Hon.
  - destruct (IH (walked w [row] tc1 vc1 st) rt rv Hrt1 Hrv1 Hok Hts) as (tc & vc & Hrt' & Hrv' & Hloop); [by apply follows_tail|].
    exists tc, vc. split_and!; [done|done|]. rewrite Hstep. cbn [mbind result_bind]. rewrite Hloop. cbn [lw_state walked].
    destruct (fold_rows st rows); cbn [mbind result_bind]; [|done]. by rewrite walked_cons.
  - assert (∃ tc, cursor_rep body tc rt) as [tc Htc].
    { clear -Hrt1. exists (tc1 + zlen (mjoin ((λ t, encode_varint (t - t0_ms) []) <$> (lr_timestamp_ms <$> rows)))). by apply cursor_step. }
    assert (∃ vc, cursor_rep body vc rv) as [vc Hvc].
    { clear -Hrv1. exists (vc1 + zlen (mjoin (row_bytes <$> rows))). by apply cursor_step. }
    exists tc, vc. split_and!; [done|done|]. by rewrite Hstep.
Qed.

Lemma lane_loop_inv n : ∀ w w' lt lv, cursor_rep body (lw_timestamp_cursor w) lt → cursor_rep body (lw_value_cursor w) lv →
  lane_rows_loop t0_ms body on_row n w = Ok w' →
  ∃ rows tc vc rt rv st, length rows = n ∧ lt = deltas_bytes t0_ms (lr_timestamp_ms <$> rows) ++ rt ∧
    lv = mjoin (row_bytes <$> rows) ++ rv ∧ Forall row_ok rows ∧ Forall (λ t, t0_ms ≤ t ≤ u64_max) (lr_timestamp_ms <$> rows) ∧
    follows w rows ∧ cursor_rep body tc rt ∧ cursor_rep body vc rv ∧ fold_rows (lw_state w) rows = Ok st ∧ w' = walked w rows tc vc st.
Proof.
  induction n as [|n IH]; intros w w' lt lv Hrt Hrv Hd; cbn [lane_rows_loop] in Hd.
  { injection Hd as <-. exists [], (lw_timestamp_cursor w), (lw_value_cursor w), lt, lv, (lw_state w).
    split_and!; try (by apply Forall_nil); try done.
    - unfold follows, ordered. cbn. destruct (lw_previous w); repeat constructor.
    - unfold walked. cbn. destruct w as [? ? [] ? ? ?]; done. }
  apply bind_ok in Hd as (w1 & Hstep & Hd).
  destruct (lane_step_inv _ _ _ _ Hrt Hrv Hstep) as (row & tc1 & vc1 & rt1 & rv1 & st1 & -> & -> & Hr & Ht & Hf & Hrt1 & Hrv1 & Hon & ->).
  destruct (IH (walked w [row] tc1 vc1 st1) _ _ _ Hrt1 Hrv1 Hd) as (rows & tc & vc & rt & rv & st & <- & -> & -> & Hok & Hts & Hf2 & Hrt' & Hrv' & Hfold & ->).
  exists (row :: rows), tc, vc, rt, rv, st. cbn [fmap list_fmap fold_rows]. split_and!; try done.
  - unfold deltas_bytes. cbn [fmap list_fmap mjoin list_join]. by rewrite <- app_assoc.
  - cbn [mjoin list_join]. by rewrite <- app_assoc.
  - by apply Forall_cons.
  - by apply Forall_cons.
  - unfold follows, ordered in *. cbn in Hf, Hf2 |- *. destruct (lw_previous w) as [p|]; [|done]. constructor; [done|].
    apply StronglySorted_inv in Hf as [_ [Hp _]%Forall_cons_1]. constructor; [done|]. apply StronglySorted_inv in Hf2 as [_ Hall].
    eapply Forall_impl; [exact Hall|]. cbn. lia.
  - by rewrite Hon.
  - by rewrite walked_cons.
Qed.
End walk.

Lemma rows_times header rows : rows_ok header rows →
  Forall (λ t, dh_min_time_ms header ≤ t ≤ u64_max) (lr_timestamp_ms <$> rows).
Proof. intros (_ & Hmax & Ht%times_ok_min & _). apply Forall_and. by split. Qed.

Lemma deltas_bytes_varints t0_ms ts : deltas_bytes t0_ms ts = mjoin ((λ v, encode_varint v []) <$> ((λ t, t - t0_ms) <$> ts)).
Proof. unfold deltas_bytes. by rewrite <- list_fmap_compose. Qed.
Lemma deltas_u64 t0_ms ts : in_u64 t0_ms → Forall (λ t, t0_ms ≤ t ≤ u64_max) ts → Forall in_u64 ((λ t, t - t0_ms) <$> ts).
Proof. intros H0 Hts. apply Forall_fmap. eapply Forall_impl; [exact Hts|]. unfold in_u64 in *. cbn. lia. Qed.
Lemma bytes_deltas_bytes t0_ms ts : in_u64 t0_ms → Forall (λ t, t0_ms ≤ t ≤ u64_max) ts → bytes (deltas_bytes t0_ms ts).
Proof.
  intros H0 Hts. rewrite deltas_bytes_varints. apply (bytes_join _ in_u64); [apply bytes_encode_varint|by apply deltas_u64].
Qed.
Lemma bytes_row r : row_ok r → bytes (row_bytes r).
Proof.
  intros (Hm & Hc & _). unfold row_bytes. rewrite !Forall_app.
  split_and!; [by apply bytes_metadata|by apply bytes_encode_varint|apply bytes_opt_f64].
Qed.
Lemma bytes_lane_body header rows : in_u64 (dh_min_time_ms header) → rows_ok header rows → bytes (lane_body (dh_min_time_ms header) rows).
Proof.
  intros Hmin Hr. unfold lane_body. rewrite !Forall_app. split_and!; [by apply bytes_le_bytes| |].
  - by apply bytes_deltas_bytes, rows_times.
  - apply (bytes_join _ row_ok); [apply bytes_row|apply Hr].
Qed.

Lemma rows_body_fwd header rows st : in_u64 (dh_min_time_ms header) → rows_ok header rows →
  vec_ok (lane_body (dh_min_time_ms header) rows) →
  for_each_typed_scalar_lane_row_body header (lane_body (dh_min_time_ms header) rows) on_row st = fold_rows st rows.
Proof.
  intros Hmin Hrows Hv. pose proof (rows_times _ _ Hrows) as Hts. pose proof (cursor_start _ (bytes_lane_body _ _ Hmin Hrows) Hv) as Hr.
  pose proof Hrows as (Hok & _ & (Hn & Hord & Hhead & Hlast) & Hflags).
  set (body := lane_body _ rows) in *. unfold body in Hr at 2. unfold lane_body in Hr.
  assert (grants alloc_ok) as Hal by done. unfold for_each_typed_scalar_lane_row_body, read_u64.
  destruct (codec_fwd (Codec := u64_codec "short read") alloc_ok _ _ _ _ Hal Hr Hmin) as (c1 & -> & Hr1). cbn [mbind result_bind].
  rewrite Z.eqb_refl. cbn [negb]. pose proof Hr1 as Hd. rewrite deltas_bytes_varints in Hd.
  destruct (codec_fwd (Codec := items_codec _ _ _ (length rows) varint_codec) alloc_ok _ _ _ _ Hal Hd) as (c2 & Hit & Hr2).
  { split; [by rewrite !length_fmap|]. by apply deltas_u64. }
  assert (Z.to_nat (dh_num_points header) = length rows) as -> by (rewrite <- Hn; unfold zlen; rewrite length_fmap; lia).
  rewrite Hit. cbn [mbind result_bind]. rewrite <- (app_nil_r (mjoin (row_bytes <$> rows))) in Hr2.
  set (w := mk_walk c1 c2 None None flags_default st).
  destruct (lane_loop_fwd _ body Hmin rows w _ _ Hr1 Hr2 Hok Hts Hord) as (tc & vc & Ht & Hvc & ->).
  change (lw_state w) with st. destruct (fold_rows st rows) as [st'|]; [|done]. cbn [mbind result_bind].
  unfold walked. cbn [lw_timestamp_cursor lw_value_cursor lw_first lw_previous lw_flags lw_state w].
  pose proof (cursor_zlen _ _ _ Ht) as Hz1. pose proof (cursor_zlen _ _ _ Hr2) as Hz2. pose proof (cursor_zlen _ _ _ Hvc) as Hz3.
  rewrite app_nil_r in Hz2. rewrite zlen_nil in Hz3. rewrite (proj2 (Z.eqb_eq tc c2)), (proj2 (Z.eqb_eq vc (zlen body))) by lia. cbn [negb orb].
  rewrite Hhead, Hlast, !bool_decide_eq_true_2 by done. cbn [negb orb].
  change (flags_finish (foldl flags_observe flags_default (lr_metadata <$> rows))) with (typed_chunk_flags (lr_metadata <$> rows)).
  by rewrite Hflags, Z.eqb_refl.
Qed.

Lemma rows_body_inv header body st st' : in_u64 (dh_min_time_ms header) → bytes body → vec_ok body → 0 ≤ dh_num_points header →
  for_each_typed_scalar_lane_row_body header body on_row st = Ok st' →
  ∃ rows, body = lane_body (dh_min_time_ms header) rows ∧ rows_ok header rows ∧ fold_rows st rows = Ok st'.
Proof.
  intros Hmin Hb Hv Hn Hd. pose proof (cursor_start _ Hb Hv) as Hr. unfold for_each_typed_scalar_lane_row_body, read_u64 in Hd.
  set (l := body) in Hr at 2. assert (body = l) as Hl by done. clearbody l.
  read_inv (u64_codec "short read") alloc_ok Hr Hd t0 Ht0. destruct (Z.eqb_spec t0 (dh_min_time_ms header)) as [->|]; [|done]. cbn [negb] in Hd.
  pose proof Hr as Hr1. apply bind_ok in Hd as ([dts c2] & Hit & Hd).
  destruct (codec_inv (Codec := items_codec _ _ _ _ varint_codec) alloc_ok _ _ _ _ _ Hr Hit) as (rv & -> & _ & Hr2).
  apply bind_ok in Hd as (w & Hloop & Hd).
  destruct (lane_loop_inv _ body Hmin _ (mk_walk c c2 None None flags_default st) _ _ _ Hr1 Hr2 Hloop)
    as (rows & tc & vc & rt & rv' & st1 & Hlen & Heq & -> & Hok & Hts & Hord & Ht & Hvc & Hfold & ->).
  unfold walked in Hd. cbn [lw_timestamp_cursor lw_value_cursor lw_first lw_previous lw_flags lw_state negb orb] in *.
  destruct (Z.eqb_spec tc c2) as [->|]; [|done]. destruct (Z.eqb_spec vc (zlen body)) as [->|]; [|done].
  cbn [negb orb] in Hd.
  destruct (bool_decide_reflect (head (lr_timestamp_ms <$> rows) = Some (dh_min_time_ms header))) as [Hh|]; [|done].
  destruct (last (lr_timestamp_ms <$> rows)) as [tl|] eqn:Hlast; [|done].
  destruct (bool_decide_reflect (Some tl = Some (dh_max_time_ms header))) as [[= ->]|]; [|done]. cbn [negb orb] in Hd.
  destruct (Z.eqb_spec (flags_finish (foldl flags_observe flags_default (lr_metadata <$> rows))) (dh_flags header)) as [Hfl|]; [|done].
  injection Hd as <-. pose proof (cursor_zlen _ _ _ Hvc) as Hz. rewrite Z.sub_diag in Hz. apply zlen_0 in Hz as ->. rewrite app_nil_r in *.
  assert (rt = mjoin (row_bytes <$> rows)) as ->.
  { destruct Ht as (_ & _ & _ & <-). by destruct Hr2 as (_ & _ & _ & ->). }
  exists rows. split_and!; [|split_and!|done].
  - rewrite Hl. unfold lane_body. by rewrite Heq.
  - done.
  - eapply Forall_impl; [exact Hts|]. cbn. lia.
  - split_and!; [unfold zlen; rewrite length_fmap; lia|done|done|done].
  - by rewrite <- Hfl.
Qed.
End lane.

Definition lane_frame `{Crc32c} (body : list Z) : list Z :=
  le_bytes 4 TYPED_SCALAR_LANE_MAGIC ++ le_bytes 2 TYPED_SCALAR_LANE_VERSION ++ le_bytes 2 0
  ++ le_bytes 4 (zlen body) ++ le_bytes 4 (crc32c body) ++ body.
Lemma zlen_lane_frame `{Crc32c} body : zlen (lane_frame body) = 16 + zlen body.
Proof. unfold lane_frame. autorewrite with zlen. lia. Qed.
Lemma bytes_lane_frame `{Crc32c} body : bytes body → bytes (lane_frame body).
Proof. intros. unfold lane_frame. rewrite !Forall_app. split_and!; try (by apply bytes_le_bytes). done. Qed.

Section lanes.
Context `{HC : Crc32c} `{!Crc32cLaws}.

Lemma metadata_bytes_min m : metadata_ok m → 4 ≤ zlen (metadata_bytes m).
Proof.
  intros [Hf Hs]. unfold metadata_bytes. rewrite !zlen_app.
  pose proof (varint_min _ (in_u32_u64 _ Hf)). pose proof (varint_min _ (temporality_code_u64 (md_temporality m))).
  pose proof (varint_min _ (reset_hint_code_u64 (md_reset_hint m))). assert (1 ≤ zlen (opt_u64_bytes (md_start_time_ms m))); [|lia].
  destruct (md_start_time_ms m); cbn [opt_u64_bytes]; rewrite zlen_cons; [|done]. pose proof (zlen_nonneg (encode_varint z [])). lia.
Qed.
Lemma opt_f64_min v : 1 ≤ zlen (opt_f64_bytes v).
Proof. destruct v; unfold opt_f64_bytes; rewrite zlen_cons; [|done]. pose proof (zlen_nonneg (le_bytes 8 z)). lia. Qed.
Lemma row_bytes_min r : row_ok r → 6 ≤ zlen (row_bytes r).
Proof.
  intros (Hm & Hc & _). unfold row_bytes. rewrite !zlen_app.
  pose proof (metadata_bytes_min _ Hm). pose proof (varint_min _ Hc). pose proof (opt_f64_min (lr_sum r)). lia.
Qed.
Lemma deltas_min t0_ms ts : in_u64 t0_ms → Forall (λ t, t0_ms ≤ t ≤ u64_max) ts → zlen ts ≤ zlen (deltas_bytes t0_ms ts).
Proof.
  intros H0 Hts. rewrite deltas_bytes_varints. etrans; [|apply (zlen_join_min _ in_u64 1); [apply varint_min|by apply deltas_u64]].
  unfold zlen. rewrite length_fmap. lia.
Qed.
Lemma lane_body_min header rows : in_u64 (dh_min_time_ms header) → rows_ok header rows →
  dh_num_points header * 7 + 8 ≤ zlen (lane_body (dh_min_time_ms header) rows).
Proof.
  intros Hmin Hr. pose proof (rows_times _ _ Hr) as Hts. destruct Hr as (Hok & _ & (<- & _) & _).
  unfold lane_body. rewrite !zlen_app, zlen_le_bytes by done.
  pose proof (deltas_min _ _ Hmin Hts). pose proof (zlen_join_min _ row_ok 6 _ row_bytes_min Hok).
  assert (zlen (lr_timestamp_ms <$> rows) = zlen rows) by (unfold zlen; by rewrite length_fmap). lia.
Qed.

Lemma lane_fwd header body : dh_num_points header ≠ 0 → dh_encoding header = EncSchemaVarLen → typed_kind (dh_kind header) = true →
  zlen body ≤ u32_max → 0 ≤ dh_num_points header ≤ u32_max → dh_num_points header * 7 + 8 ≤ zlen body →
  typed_scalar_lane_body header (lane_frame body) = Ok body.
Proof.
  intros Hn He Hk Hlen Hu Hmin. unfold typed_scalar_lane_body. rewrite (proj2 (Z.eqb_neq _ _)) by done.
  rewrite bool_decide_eq_true_2, Hk by done. cbn [negb]. pose proof (zlen_nonneg body). pose proof (crc32c_u32 body) as Hcrc. unfold in_u32 in Hcrc.
  rewrite (proj2 (Z.ltb_ge _ _)) by (rewrite zlen_lane_frame; unfold TYPED_SCALAR_LANE_HEADER_LEN; lia). unfold lane_frame.
  assert (0 ≤ TYPED_SCALAR_LANE_MAGIC < 2 ^ 32) as Hmagic by (vm_compute; split; congruence).
  do 3 (field_fwd; rewrite of_le_fixed by (change (2 ^ (4 * 8)) with (2 ^ 32); change (2 ^ (2 * 8)) with 65536;
    unfold TYPED_SCALAR_LANE_VERSION; lia); rewrite Z.eqb_refl; cbn [negb]).
  do 2 (field_fwd; rewrite of_le_fixed by (change (2 ^ (4 * 8)) with 4294967296; lia)).
  rewrite (proj2 (Z.eqb_eq _ (zlen _))) by (autorewrite with zlen; unfold TYPED_SCALAR_LANE_HEADER_LEN; lia). cbn [negb].
  assert (∀ x1 x2 x3 x4 x5 : list Z, zlen x1 = 4 → zlen x2 = 2 → zlen x3 = 2 → zlen x4 = 4 → zlen x5 = 4 →
    drop (Z.to_nat TYPED_SCALAR_LANE_HEADER_LEN) (x1 ++ x2 ++ x3 ++ x4 ++ x5 ++ body) = body) as Hdrop.
  { intros x1 x2 x3 x4 x5 ? ? ? ? ?. rewrite !app_assoc. apply drop_app_length'. rewrite !length_app.
    unfold zlen, TYPED_SCALAR_LANE_HEADER_LEN in *. lia. }
  rewrite Hdrop by (by apply zlen_le_bytes). rewrite Z.eqb_refl. cbn [negb]. unfold checked_mul_u64.
  rewrite (proj2 (Z.leb_le _ _)) by lia. cbn [mbind option_bind]. rewrite checked_add_u64_fits by lia. cbn [ok_or mbind result_bind].
  by rewrite (proj2 (Z.ltb_ge _ _)) by lia.
Qed.

Lemma lane_inv header lane body : bytes lane → vec_ok lane → typed_scalar_lane_body header lane = Ok body →
  dh_num_points header ≠ 0 ∧ dh_encoding header = EncSchemaVarLen ∧ typed_kind (dh_kind header) = true ∧
  lane = lane_frame body ∧ zlen body ≤ u32_max.
Proof.
  intros Hb Hv Hd. unfold typed_scalar_lane_body in Hd. destruct (Z.eqb_spec (dh_num_points header) 0) as [|Hn]; [done|].
  destruct (bool_decide_reflect (dh_encoding header = EncSchemaVarLen)) as [He|]; [|done]. cbn [negb] in Hd.
  destruct (typed_kind (dh_kind header)) eqn:Hk; [|done]. cbn [negb] in Hd. unfold TYPED_SCALAR_LANE_HEADER_LEN in Hd.
  destruct (Z.ltb_spec (zlen lane) 16) as [|Hlen]; [done|].
  assert (∀ w a b, b - a = w → 0 ≤ a → a ≤ b → b ≤ 16 → le_bytes w (of_le (slice lane a b)) = slice lane a b) as Hw.
  { intros w a b <- ? ? ?. apply slice_field; lia || done. }
  destruct (Z.eqb_spec (of_le (slice lane 0 4)) TYPED_SCALAR_LANE_MAGIC) as [Hm|]; [|done]. cbn [negb] in Hd.
  destruct (Z.eqb_spec (of_le (slice lane 4 6)) TYPED_SCALAR_LANE_VERSION) as [Hver|]; [|done]. cbn [negb] in Hd.
  destruct (Z.eqb_spec (of_le (slice lane 6 8)) 0) as [Hz|]; [|done]. cbn [negb] in Hd.
  destruct (Z.eqb_spec (16 + of_le (slice lane 8 12)) (zlen lane)) as [Hl|]; [|done]. cbn [negb] in Hd.
  destruct (Z.eqb_spec (crc32c (drop (Z.to_nat 16) lane)) (of_le (slice lane 12 16))) as [Hc|]; [|done]. cbn [negb] in Hd.
  apply bind_ok in Hd as (m & _ & Hd). destruct (zlen (drop _ _) <? m); [done|]. injection Hd as <-.
  assert (zlen (drop (Z.to_nat 16) lane) = of_le (slice lane 8 12)) as Hzl by (unfold zlen in *; rewrite length_drop; lia).
  pose proof (proj2 (slice_field lane 8 12 Hb ltac:(lia) ltac:(lia) ltac:(lia))) as Hr. change (2 ^ ((12 - 8) * 8)) with 4294967296 in Hr.
  split_and!; [done|done|done| |lia]. unfold lane_frame. rewrite Hzl, Hc, <- Hm, <- Hver.
  assert (le_bytes 2 0 = slice lane 6 8) as -> by (rewrite <- (Hw 2 6 8) by lia; by rewrite Hz). rewrite !Hw by lia.
  by rewrite !slice_drop by lia.
Qed.
End lanes.

(** ** Payloads *)

Lemma block_min_len {T} `{SchemaVarLenLaws T} (vs : list T) : vs ≠ [] → Forall (λ v, sv_ok v) vs → zlen vs ≤ u32_max → zlen vs + 2 ≤ zlen (block_bytes vs).
Proof.
  intros Hne Hok Hn. destruct (tagged_out vs [] Hok) as (_ & Hl & _); [rewrite zlen_nil; lia|]. unfold block_bytes, header. rewrite !zlen_app.
  assert (in_u64 (zlen (tagged [] vs).1)) as Ht.
  { destruct (tagged_length vs []) as [H1 _]. cbn in H1. unfold in_u64, zlen in *. lia. }
  pose proof (varint_min _ Ht). assert ((tagged [] vs).1 ≠ []) as Hnil.
  { destruct (tagged_length vs []) as [_ H2]. specialize (H2 Hne). by destruct (tagged [] vs).1; cbn in *; [lia|]. }
  destruct (tagged [] vs).1 as [|b table]; [done|]. rewrite join_fmap_cons, zlen_app.
  pose proof (zlen_nonneg (mjoin (schema_frame <$> table))). assert (1 ≤ zlen (schema_frame b)); [|lia].
  assert (schema_frame b ≠ []) as Hs by (apply app_nonempty_l, encode_varint_nonempty).
  destruct (schema_frame b) as [|x y]; [done|]. rewrite zlen_cons. pose proof (zlen_nonneg y). lia.
Qed.

(** What a typed value's counter shows is within the value's contract. *)
Class ChunkValue (T : Type) `{SchemaVarLenLaws T} `{TypedCounterValue T} : Prop := {
  counter_ok v : sv_ok v → metadata_ok (tc_metadata v) ∧ in_u64 (tc_count v) ∧ opt_in_u64 (tc_sum v);
}.
#[export] Instance histogram_chunk_value : ChunkValue HistogramValue.
Proof. split. intros v [(Hm & Hc & Hs & _) _]. done. Qed.
#[export] Instance exponential_chunk_value : ChunkValue ExponentialHistogramValue.
Proof. split. intros v [(Hm & Hc & Hs & _) _]. done. Qed.
#[export] Instance summary_chunk_value : ChunkValue SummaryValue.
Proof. split. intros v [(Hm & Hc & Hs & _) _]. done. Qed.

Definition chunk_kind_of (s : ChunkSamples) : ChunkKind :=
  match s with
  | ChunkFloats _ => KindFloat
  | ChunkInt64s _ => KindInt64
  | ChunkHistograms _ => KindHistogram
  | ChunkExponentialHistograms _ => KindExponentialHistogram
  | ChunkSummaries _ => KindSummary
  end.
Definition samples_ok (s : ChunkSamples) : Prop :=
  match s with
  | ChunkFloats l => Forall in_u64 l.*2
  | ChunkInt64s l => Forall in_i64 l.*2
  | ChunkHistograms l => Forall sv_ok l.*2
  | ChunkExponentialHistograms l => Forall sv_ok l.*2
  | ChunkSummaries l => Forall sv_ok l.*2
  end.

Definition raw_row (t0_ms : Z) (p : Z * Z) : list Z := encode_varint (p.1 - t0_ms) [] ++ le_bytes 8 p.2.
Definition typed_payload {T} `{SchemaVarLenLaws T} (t0_ms : Z) (l : list (Z * T)) : list Z :=
  deltas_bytes t0_ms l.*1 ++ block_bytes l.*2.
(** The deltas and values of samples in an encoding that their kind can have. *)
Definition values_bytes (e : ChunkEncoding) (t0_ms : Z) (s : ChunkSamples) : option (list Z) :=
  match s, e with
  | ChunkFloats l, EncRawF64 | ChunkInt64s l, EncRawI64 => Some (mjoin (raw_row t0_ms <$> l))
  | ChunkFloats l, EncGorilla =>
      match encode_gorilla_values l.*2 with Ok b => Some (deltas_bytes t0_ms l.*1 ++ b) | Err _ => None end
  | ChunkInt64s l, EncIntDeltaZigZag => Some (deltas_bytes t0_ms l.*1 ++ deltas 0 l.*2)
  | ChunkHistograms l, EncSchemaVarLen => Some (typed_payload t0_ms l)
  | ChunkExponentialHistograms l, EncSchemaVarLen => Some (typed_payload t0_ms l)
  | ChunkSummaries l, EncSchemaVarLen => Some (typed_payload t0_ms l)
  | _, _ => None
  end.

Lemma zlen_to_nat {A} (l : list A) : Z.to_nat (zlen l) = length l.
Proof. unfold zlen. lia. Qed.

(** Every encoding's part: [l] decodes to [samples] and is what they encode to. *)
Section column.
Context (t0_ms : Z) (Ht0 : in_u64 t0_ms).
Abbreviation in_times ts := (Forall (λ t, t0_ms ≤ t ≤ u64_max) ts).

Lemma timestamps_fwd ts payload c rest : cursor_rep payload c (deltas_bytes t0_ms ts ++ rest) → in_times ts →
  ∃ c', decode_items (decode_timestamp t0_ms) (length ts) payload c = Ok (ts, c') ∧ cursor_rep payload c' rest ∧
    c' - c = zlen (deltas_bytes t0_ms ts).
Proof.
  intros Hr Hts. assert (grants alloc_ok) as Hal by done.
  destruct (codec_fwd (Codec := items_codec _ _ _ (length ts) (timestamp_codec t0_ms Ht0)) alloc_ok _ _ _ _ Hal Hr (conj eq_refl Hts)) as (c' & Hd & Hr').
  exists c'. split_and!; [done|done|]. pose proof (cursor_zlen _ _ _ Hr) as H1. pose proof (cursor_zlen _ _ _ Hr') as H2.
  rewrite zlen_app in H1. lia.
Qed.
Lemma timestamps_inv n payload c l ts c' : cursor_rep payload c l → decode_items (decode_timestamp t0_ms) n payload c = Ok (ts, c') →
  ∃ rest, l = deltas_bytes t0_ms ts ++ rest ∧ length ts = n ∧ in_times ts ∧ cursor_rep payload c' rest ∧
    c' - c = zlen (deltas_bytes t0_ms ts).
Proof.
  intros Hr Hd. destruct (codec_inv (Codec := items_codec _ _ _ n (timestamp_codec t0_ms Ht0)) alloc_ok _ _ _ _ _ Hr Hd)
    as (rest & -> & [Hlen Hts] & Hr'). exists rest. split_and!; [done|done|done|done|].
  pose proof (cursor_zlen _ _ _ Hr) as H1. pose proof (cursor_zlen _ _ _ Hr') as H2. rewrite zlen_app in H1. unfold deltas_bytes. lia.
Qed.

Lemma deltas_cons t ts : deltas_bytes t0_ms (t :: ts) = encode_varint (t - t0_ms) [] ++ deltas_bytes t0_ms ts.
Proof. done. Qed.

Lemma raw_deltas_le samples : zlen (deltas_bytes t0_ms samples.*1) ≤ zlen (mjoin (raw_row t0_ms <$> samples)).
Proof.
  induction samples as [|[t v] samples IH]; [done|]. rewrite join_fmap_cons. cbn [fmap list_fmap fst]. rewrite deltas_cons. unfold raw_row at 1.
  rewrite !zlen_app. pose proof (zlen_nonneg (le_bytes 8 v)). cbn [fst snd]. lia.
Qed.

Lemma raw_loop_fwd read ok l : Codec (λ _, read) (le_bytes 8) ok → ∀ payload c tb rest,
  cursor_rep payload c (mjoin (raw_row t0_ms <$> l) ++ rest) → in_times l.*1 → Forall ok l.*2 → 0 ≤ tb → tb + zlen payload - c ≤ u64_max →
  ∃ c', decode_raw_loop read (length l) payload c t0_ms tb = Ok (l, tb + zlen (deltas_bytes t0_ms l.*1), c') ∧ cursor_rep payload c' rest.
Proof.
  intros Hcodec. induction l as [|[t v] l IH]; intros payload c tb rest Hr Hts Hvs Htb Hmax.
  { exists c. cbn. rewrite zlen_nil, Z.add_0_r. done. }
  cbn [fmap list_fmap fst snd] in *. apply Forall_cons_1 in Hts as [Ht Hts]. apply Forall_cons_1 in Hvs as [Hv Hvs].
  cbn [mjoin list_join] in *. unfold raw_row in Hr at 1. cbn [fst snd] in Hr. rewrite <- !app_assoc in Hr.
  assert (grants alloc_ok) as Hal by done. pose proof (cursor_zlen _ _ _ Hr) as Hz0. rewrite zlen_app in Hz0.
  pose proof (zlen_nonneg (encode_varint (t - t0_ms) [])). unfold in_u64 in Ht0.
  destruct (codec_fwd (Codec := varint_codec) alloc_ok _ _ _ _ Hal Hr) as (c1 & Hd1 & Hr1); [unfold in_u64; lia|].
  pose proof (cursor_zlen _ _ _ Hr1) as Hz1. pose proof Hr1 as (_ & _ & Hc1 & _).
  destruct (codec_fwd (Codec := Hcodec) alloc_ok _ _ _ _ Hal Hr1 Hv) as (c2 & Hd2 & Hr2). pose proof (cursor_zlen _ _ _ Hr2) as Hz2.
  assert (zlen (encode_varint (t - t0_ms) []) = c1 - c) as Hw by lia. rewrite zlen_app, zlen_le_bytes in Hz1 by done.
  destruct (IH payload c2 (tb + (c1 - c)) rest Hr2 Hts Hvs) as (c' & Hd & Hr'); [lia|lia|].
  exists c'. split; [|done]. cbn [length decode_raw_loop]. rewrite Hd1. cbn [mbind result_bind]. rewrite checked_add_u64_fits by lia.
  cbn [ok_or mbind result_bind]. rewrite Hd2. cbn [mbind result_bind]. unfold checked_timestamp_ms. rewrite checked_add_u64_fits by lia.
  cbn [ok_or mbind result_bind]. rewrite Hd. cbn [mbind result_bind]. rewrite deltas_cons, zlen_app, Hw.
  replace (t0_ms + (t - t0_ms)) with t by lia. do 3 f_equal. lia.
Qed.
Lemma raw_loop_inv read ok n : Codec (λ _, read) (le_bytes 8) ok → ∀ payload c tb l samples tb' c',
  cursor_rep payload c l → decode_raw_loop read n payload c t0_ms tb = Ok (samples, tb', c') →
  ∃ rest, l = mjoin (raw_row t0_ms <$> samples) ++ rest ∧ length samples = n ∧ in_times samples.*1 ∧ Forall ok samples.*2 ∧
    cursor_rep payload c' rest ∧ tb' = tb + zlen (deltas_bytes t0_ms samples.*1).
Proof.
  intros Hcodec. induction n as [|n IH]; intros payload c tb l samples tb' c' Hr Hd; cbn [decode_raw_loop] in Hd.
  { injection Hd as <- <- <-. exists l. cbn. rewrite zlen_nil, Z.add_0_r. split_and!; try (by apply Forall_nil); done. }
  pose proof (cursor_zlen _ _ _ Hr) as Hz0. apply bind_ok in Hd as ([dt c1] & Hd1 & Hd).
  destruct (codec_inv (Codec := varint_codec) alloc_ok _ _ _ _ _ Hr Hd1) as (l1 & -> & Hdt & Hr1). pose proof (cursor_zlen _ _ _ Hr1) as Hz1.
  apply bind_ok in Hd as (tb1 & Htb & Hd). destruct (checked_add_u64 tb (c1 - c)) as [?|] eqn:Hadd; [|done]. injection Htb as ->.
  apply checked_add_u64_Some in Hadd as [-> _]. apply bind_ok in Hd as ([v c2] & Hd2 & Hd).
  destruct (codec_inv (Codec := Hcodec) alloc_ok _ _ _ _ _ Hr1 Hd2) as (l2 & -> & Hv & Hr2). apply bind_ok in Hd as (t & Ht & Hd).
  unfold checked_timestamp_ms in Ht. destruct (checked_add_u64 t0_ms dt) as [?|] eqn:Hadd; [|done]. injection Ht as ->.
  apply checked_add_u64_Some in Hadd as [-> Ht]. apply bind_ok in Hd as ([[samples' tb2] c3] & Hloop & Hd). injection Hd as <- <- <-.
  destruct (IH _ _ _ _ _ _ _ Hr2 Hloop) as (rest & -> & <- & Hts & Hvs & Hr3 & ->). exists rest. rewrite zlen_app in Hz0.
  unfold in_u64 in *. split_and!; [|done| | |done|].
  - rewrite join_fmap_cons. unfold raw_row at 2. cbn [fst snd]. rewrite <- !app_assoc. by replace (t0_ms + dt - t0_ms) with dt by lia.
  - cbn [fmap list_fmap fst]. constructor; [lia|done].
  - cbn [fmap list_fmap snd]. by constructor.
  - cbn [fmap list_fmap fst]. rewrite deltas_cons, zlen_app. replace (t0_ms + dt - t0_ms) with dt by lia. lia.
Qed.

(** What an arm of [decode_samples] answers: the samples whose bytes are [l]. *)
Definition column {T} (ok : T → Prop) (image : list (Z * T) → option (list Z)) (n : Z) (l : list Z) (a : list (Z * T) * Z * Z) : Prop :=
  let '(samples, timestamp_delta_bytes, value_bytes) := a in
  zlen samples = n ∧ in_times samples.*1 ∧ Forall ok samples.*2 ∧ image samples = Some l ∧
  timestamp_delta_bytes = zlen (deltas_bytes t0_ms samples.*1) ∧ value_bytes = zlen l - timestamp_delta_bytes.

Lemma fmap_fst_len {A B} (l : list (A * B)) : zlen l.*1 = zlen l.
Proof. unfold zlen. by rewrite length_fmap. Qed.
Lemma fmap_snd_len {A B} (l : list (A * B)) : zlen l.*2 = zlen l.
Proof. unfold zlen. by rewrite length_fmap. Qed.
Lemma zlen_nat {A} (l : list A) n : length l = Z.to_nat n → 0 ≤ n → zlen l = n.
Proof. unfold zlen. lia. Qed.

Context (payload : list Z) (c : Z) (l : list Z) (Hr : cursor_rep payload c l) (Hc : 0 ≤ c).

(** A fixed part of deltas, then the rest of the payload. *)
Lemma times_first_fwd ts rest : l = deltas_bytes t0_ms ts ++ rest → in_times ts →
  ∃ after, decode_items (decode_timestamp t0_ms) (Z.to_nat (zlen ts)) payload c = Ok (ts, after) ∧ cursor_rep payload after rest ∧
    drop (Z.to_nat after) payload = rest ∧ bytes rest ∧ vec_ok rest ∧ after - c = zlen (deltas_bytes t0_ms ts) ∧ zlen payload - after = zlen rest.
Proof.
  intros -> Hts. destruct (timestamps_fwd _ _ _ _ Hr Hts) as (after & Hd & Hr' & Hz). exists after. rewrite zlen_to_nat.
  pose proof (cursor_zlen _ _ _ Hr') as Hz'. pose proof (cursor_bytes _ _ _ Hr'). destruct Hr' as (? & ? & ? & Hdrop).
  split_and!; try done; lia.
Qed.
Lemma times_first_inv n ts after : decode_items (decode_timestamp t0_ms) (Z.to_nat n) payload c = Ok (ts, after) → 0 ≤ n →
  ∃ rest, l = deltas_bytes t0_ms ts ++ rest ∧ zlen ts = n ∧ in_times ts ∧ cursor_rep payload after rest ∧
    drop (Z.to_nat after) payload = rest ∧ bytes rest ∧ vec_ok rest ∧ after - c = zlen (deltas_bytes t0_ms ts) ∧ zlen payload - after = zlen rest.
Proof.
  intros Hd Hn. destruct (timestamps_inv _ _ _ _ _ _ Hr Hd) as (rest & -> & Hlen & Hts & Hr' & Hz). exists rest.
  pose proof (cursor_zlen _ _ _ Hr') as Hz'. pose proof (cursor_bytes _ _ _ Hr'). pose proof Hr' as (? & ? & ? & Hdrop).
  split_and!; try done; [by apply zlen_nat|lia..].
Qed.

Context (al : allocator).
Section column_raw.
Context (read : list Z → Z → io_result (Z * Z)) (ok : Z → Prop) (Hcodec : Codec (λ _, read) (le_bytes 8) ok) (field underflow : string).
Abbreviation image samples := (Some (mjoin (raw_row t0_ms <$> samples))).
Lemma raw_fwd samples : grants al → in_times samples.*1 → Forall ok samples.*2 → l = mjoin (raw_row t0_ms <$> samples) →
  ∃ a, decode_raw al read field underflow payload c t0_ms (zlen samples) = Ok (samples, a.1, a.2) ∧
    column ok (λ samples, image samples) (zlen samples) l (samples, a.1, a.2).
Proof.
  intros Hal Hts Hvs Heq. pose proof (cursor_zlen _ _ _ Hr) as Hz. pose proof Hr as (_ & Hv & Hc' & _).
  rewrite Heq, <- (app_nil_r (mjoin _)) in Hr.
  destruct (raw_loop_fwd _ _ _ Hcodec _ _ 0 _ Hr Hts Hvs) as (c' & Hd & Hr'); [lia|lia|]. apply cursor_zlen in Hr'. rewrite zlen_nil in Hr'.
  exists (zlen (deltas_bytes t0_ms samples.*1), zlen l - zlen (deltas_bytes t0_ms samples.*1)). cbn [fst snd]. split; [|unfold column; split_and!; [done|done|done|by rewrite Heq|done|done]].
  unfold decode_raw, try_vec_with_capacity, try_reserve. rewrite Hal. cbn [mbind result_bind]. rewrite zlen_to_nat, Hd. cbn [mbind result_bind].
  unfold require_payload_end. rewrite (proj2 (Z.eqb_eq _ _)) by lia. cbn [negb mbind result_bind].
  pose proof (raw_deltas_le samples) as Hle.
  rewrite <- Heq in Hle. unfold checked_sub_u64. rewrite (proj2 (Z.leb_le _ _)) by lia. cbn [ok_or mbind result_bind]. do 2 f_equal. lia.
Qed.
Lemma raw_inv n a : 0 ≤ n → decode_raw al read field underflow payload c t0_ms n = Ok a → column ok (λ samples, image samples) n l a.
Proof.
  intros Hn Hd. unfold decode_raw in Hd. apply bind_ok in Hd as (? & _ & Hd). apply bind_ok in Hd as ([[samples tb] after] & Hloop & Hd).
  destruct (raw_loop_inv _ _ _ Hcodec _ _ _ _ _ _ _ Hr Hloop) as (rest & -> & Hlen & Hts & Hvs & Hr' & ->).
  apply bind_ok in Hd as (? & Hend & Hd). apply bind_ok in Hd as (vb & Hvb & Hd). injection Hd as <-.
  unfold require_payload_end in Hend. destruct (Z.eqb_spec after (zlen payload)) as [->|]; [|done].
  apply cursor_zlen in Hr'. rewrite Z.sub_diag in Hr'. apply zlen_0 in Hr' as ->. rewrite app_nil_r in *. pose proof (cursor_zlen _ _ _ Hr).
  destruct (checked_sub_u64 _ _) as [?|] eqn:Hs; [|done]. injection Hvb as ->. apply checked_sub_u64_Some in Hs as [-> _].
  unfold column. split_and!; [by apply zlen_nat|done|done|done|lia|lia].
Qed.
End column_raw.

Definition gorilla_image (samples : list (Z * Z)) : option (list Z) :=
  match encode_gorilla_values samples.*2 with Ok b => Some (deltas_bytes t0_ms samples.*1 ++ b) | Err _ => None end.
Lemma gorilla_fwd samples : grants al → samples ≠ [] → zlen samples ≤ u32_max → in_times samples.*1 → Forall in_u64 samples.*2 →
  gorilla_image samples = Some l →
  ∃ a, decode_gorilla al payload c t0_ms (zlen samples) = Ok (samples, a.1, a.2) ∧ column in_u64 gorilla_image (zlen samples) l (samples, a.1, a.2).
Proof.
  intros Hal Hne Hn Hts Hvs Heq. pose proof Heq as Heq'. unfold gorilla_image in Heq.
  assert (samples.*2 ≠ []) as Hne' by (by destruct samples).
  destruct (decode_encoded al samples.*2 Hne' Hvs) as (out & Hout & Hd); [rewrite fmap_snd_len; lia|apply Hal|].
  rewrite Hout in Heq. injection Heq as Heq. symmetry in Heq. destruct (times_first_fwd _ _ Heq Hts) as (after & Hts' & _ & Hdrop & Hb & Hv & H1 & H2).
  exists (zlen (deltas_bytes t0_ms samples.*1), zlen l - zlen (deltas_bytes t0_ms samples.*1)). cbn [fst snd]. split; [|unfold column; by split_and!].
  unfold decode_gorilla, try_vec_with_capacity, try_reserve. rewrite !Hal. cbn [mbind result_bind]. rewrite fmap_fst_len in Hts'. rewrite Hts'.
  cbn [mbind result_bind]. rewrite fmap_snd_len in Hd. rewrite Hdrop, Hd by done. cbn [mbind result_bind]. rewrite zip_fst_snd, H1, H2, Heq, zlen_app.
  do 2 f_equal. lia.
Qed.
Lemma gorilla_inv n a : 0 < n → decode_gorilla al payload c t0_ms n = Ok a → column in_u64 gorilla_image n l a.
Proof.
  intros Hn Hd. unfold decode_gorilla in Hd. apply bind_ok in Hd as (? & _ & Hd). apply bind_ok in Hd as ([ts after] & Hts & Hd).
  destruct (times_first_inv _ _ _ Hts) as (rest & Heq & Hlen & Htimes & _ & Hdrop & Hb & Hv & H1 & H2); [lia|].
  apply bind_ok in Hd as (vs & Hvs & Hd). rewrite Hdrop in Hvs. apply decode_exact in Hvs as (Henc & Hlen' & Hvs); [|done..].
  apply bind_ok in Hd as (? & _ & Hd). injection Hd as <-. unfold column. assert (length ts = length vs) as Hzip by (unfold zlen in *; lia).
  rewrite fst_zip, snd_zip by lia. split_and!; [|done|done| |done|rewrite Heq, zlen_app; lia].
  - unfold zlen in *. rewrite length_zip_with. lia.
  - unfold gorilla_image. rewrite fst_zip, snd_zip, Henc by lia. by rewrite Heq.
Qed.

Definition int_image (samples : list (Z * Z)) : option (list Z) := Some (deltas_bytes t0_ms samples.*1 ++ deltas 0 samples.*2).
Lemma int_fwd samples : grants al → in_times samples.*1 → Forall in_i64 samples.*2 → int_image samples = Some l →
  ∃ a, decode_int_delta al payload c t0_ms (zlen samples) = Ok (samples, a.1, a.2) ∧ column in_i64 int_image (zlen samples) l (samples, a.1, a.2).
Proof.
  intros Hal Hts Hvs Heq. pose proof Heq as Heq'. injection Heq as Heq. symmetry in Heq.
  destruct (times_first_fwd _ _ Heq Hts) as (after & Hts' & Hr' & Hdrop & Hb & Hv & H1 & H2).
  rewrite <- (app_nil_r (deltas 0 _)) in Hr'. destruct (decode_int_loop_fwd al _ _ _ _ _ Hal Hvs Hr') as (c' & Hd & Hend).
  apply cursor_zlen in Hend. rewrite zlen_nil in Hend.
  exists (zlen (deltas_bytes t0_ms samples.*1), zlen l - zlen (deltas_bytes t0_ms samples.*1)). cbn [fst snd]. split; [|unfold column; by split_and!].
  unfold decode_int_delta, try_vec_with_capacity, try_reserve. rewrite !Hal. cbn [mbind result_bind]. rewrite fmap_fst_len in Hts'. rewrite Hts'.
  cbn [mbind result_bind]. rewrite length_fmap, <- zlen_to_nat in Hd. rewrite Hd. cbn [mbind result_bind].
  unfold require_payload_end. rewrite (proj2 (Z.eqb_eq _ _)) by lia. cbn [negb mbind result_bind].
  rewrite zip_fst_snd, Heq, zlen_app. do 2 f_equal; [|lia]. f_equal. lia.
Qed.
Lemma int_inv n a : 0 ≤ n → decode_int_delta al payload c t0_ms n = Ok a → column in_i64 int_image n l a.
Proof.
  intros Hn Hd. unfold decode_int_delta in Hd. apply bind_ok in Hd as (? & _ & Hd). apply bind_ok in Hd as ([ts after] & Hts & Hd).
  destruct (times_first_inv _ _ _ Hts) as (rest & Heq & Hlen & Htimes & Hr' & Hdrop & Hb & Hv & H1 & H2); [lia|].
  apply bind_ok in Hd as (? & _ & Hd). apply bind_ok in Hd as ([vs c'] & Hvs & Hd). apply bind_ok in Hd as (? & Hend & Hd).
  apply bind_ok in Hd as (? & _ & Hd). injection Hd as <-.
  destruct (decode_int_loop_inv _ _ _ _ _ _ _ Hr' Hvs) as (rest' & -> & Hlen' & Hvs' & Hr2).
  unfold require_payload_end in Hend. destruct (Z.eqb_spec c' (zlen payload)) as [->|]; [|done]. apply cursor_zlen in Hr2.
  rewrite Z.sub_diag in Hr2. apply zlen_0 in Hr2 as ->. rewrite app_nil_r in *. assert (length ts = length vs) as Hzip by (unfold zlen in *; lia).
  unfold column. rewrite fst_zip, snd_zip by lia. split_and!; [|done|done| |done|rewrite Heq, zlen_app; lia].
  - unfold zlen in *. rewrite length_zip_with. lia.
  - unfold int_image. rewrite fst_zip, snd_zip by lia. by rewrite Heq.
Qed.

Section column_typed.
Context {T : Type} `{HL : SchemaVarLenLaws T} (field : string).
Definition typed_image (samples : list (Z * T)) : option (list Z) := Some (typed_payload t0_ms samples).
Lemma typed_fwd samples : grants al → zlen samples ≤ u32_max → in_times samples.*1 → Forall (λ v, sv_ok v) samples.*2 →
  typed_image samples = Some l →
  ∃ a, decode_typed al field payload c t0_ms (zlen samples) = Ok (samples, a.1, a.2) ∧
    column (λ v, sv_ok v) typed_image (zlen samples) l (samples, a.1, a.2).
Proof.
  intros Hal Hn Hts Hvs Heq. pose proof Heq as Heq'. injection Heq as Heq. symmetry in Heq. unfold typed_payload in Heq.
  destruct (times_first_fwd _ _ Heq Hts) as (after & Hts' & Hr' & Hdrop & Hb & Hv & H1 & H2).
  exists (zlen (deltas_bytes t0_ms samples.*1), zlen l - zlen (deltas_bytes t0_ms samples.*1)). cbn [fst snd]. split; [|unfold column; by split_and!].
  pose proof (decode_block_ok al samples.*2 Hal Hvs Hv) as Hd. rewrite fmap_snd_len in Hd. specialize (Hd Hn).
  pose proof (cursor_zlen _ _ _ Hr) as Hz. rewrite Heq, zlen_app in Hz.
  assert (zlen samples ≤ zlen (deltas_bytes t0_ms samples.*1)) as Hmin by (rewrite <- fmap_fst_len; by apply deltas_min).
  unfold decode_typed, decode_timestamps, try_vec_with_capacity, try_reserve. pose proof (zlen_nonneg samples). pose proof (zlen_nonneg (block_bytes samples.*2)).
  rewrite ensure_minimum_fits by (unfold saturating_sub; lia). cbn [mbind result_bind]. rewrite !Hal. cbn [mbind result_bind]. rewrite fmap_fst_len in Hts'. rewrite Hts'.
  cbn [mbind result_bind]. rewrite Hdrop, Hd. cbn [mbind result_bind]. unfold zip_decoded_samples. rewrite fmap_fst_len, fmap_snd_len, Z.eqb_refl.
  cbn [negb]. unfold try_vec_with_capacity, try_reserve. rewrite Hal. cbn [mbind result_bind]. rewrite zip_fst_snd, H1, H2, Heq, zlen_app. do 2 f_equal. lia.
Qed.
Lemma typed_inv n a : 0 ≤ n → decode_typed al field payload c t0_ms n = Ok a → column (λ v, sv_ok v) typed_image n l a.
Proof.
  intros Hn Hd. unfold decode_typed, decode_timestamps in Hd. apply bind_ok in Hd as ([ts after] & Hts & Hd).
  apply bind_ok in Hts as (? & _ & Hts). apply bind_ok in Hts as (? & _ & Hts).
  destruct (times_first_inv _ _ _ Hts) as (rest & Heq & Hlen & Htimes & Hr' & Hdrop & Hb & Hv & H1 & H2); [lia|].
  apply bind_ok in Hd as (vs & Hvs & Hd). rewrite Hdrop in Hvs. apply bind_ok in Hd as (samples & Hs & Hd). injection Hd as <-.
  destruct (decode_block_inv _ _ _ _ Hb Hv Hn Hvs) as (_ & _ & _ & Hok & _ & -> & Hlen' & _).
  unfold zip_decoded_samples in Hs. destruct (_ =? _); [|done]. cbn [negb] in Hs. apply bind_ok in Hs as (? & _ & Hs). injection Hs as <-.
  assert (length ts = length vs) as Hzip by (unfold zlen in *; lia). unfold column.
  rewrite fst_zip, snd_zip by lia. split_and!; [|done|done| |done|rewrite Heq, zlen_app; lia].
  - unfold zlen in *. rewrite length_zip_with. lia.
  - unfold typed_image, typed_payload. rewrite fst_zip, snd_zip by lia. by rewrite Heq.
Qed.
End column_typed.
End column.

(** Samples whose encoded length fits: what every append and every record has. *)
Definition chunk_times (t0_ms : Z) (s : ChunkSamples) : Prop :=
  sample_timestamps s ≠ [] ∧ zlen (sample_timestamps s) ≤ u32_max ∧ Forall (λ t, t0_ms ≤ t ≤ u64_max) (sample_timestamps s).

Lemma samples_fwd al t0_ms s e payload c l :
  in_u64 t0_ms → cursor_rep payload c l → grants al → values_bytes e t0_ms s = Some l → samples_ok s → chunk_times t0_ms s →
  decode_samples al (chunk_kind_of s) e payload c t0_ms (zlen (sample_timestamps s)) =
    Ok (s, zlen (deltas_bytes t0_ms (sample_timestamps s)), zlen l - zlen (deltas_bytes t0_ms (sample_timestamps s))).
Proof.
  intros Ht0 Hr Hal He Hok (Hne & Hn & Hts).
  assert (0 ≤ c) as Hc by apply Hr.
  assert (∀ T (mk : list (Z * T) → ChunkSamples) (samples : list (Z * T)) ok image (r : io_result (list (Z * T) * Z * Z)),
    (∃ a : Z * Z, r = Ok (samples, a.1, a.2) ∧ column t0_ms ok image (zlen samples) l (samples, a.1, a.2)) →
    wrap_samples mk r = Ok (mk samples, zlen (deltas_bytes t0_ms samples.*1), zlen l - zlen (deltas_bytes t0_ms samples.*1))) as Hwrap.
  { intros T mk samples ok image r ([d v] & -> & _ & _ & _ & _ & -> & ->). done. }
  destruct s as [s|s|s|s|s], e; try done; cbn [sample_timestamps chunk_kind_of decode_samples samples_ok] in *; rewrite fmap_fst_len in *; eapply Hwrap.
  - injection He as <-. by eapply (raw_fwd _ Ht0 _ _ _ Hr _ _ _ (u64_codec "short read")).
  - eapply (gorilla_fwd _ Ht0 _ _ _ Hr); try done. by destruct s.
  - injection He as <-. by eapply (raw_fwd _ Ht0 _ _ _ Hr _ _ _ (fixed_i64_codec "short read")).
  - by eapply int_fwd.
  - by eapply typed_fwd.
  - by eapply typed_fwd.
  - by eapply typed_fwd.
Qed.

Lemma samples_inv al t0_ms k e payload c l n s timestamp_delta_bytes value_bytes :
  in_u64 t0_ms → cursor_rep payload c l → 0 < n → decode_samples al k e payload c t0_ms n = Ok (s, timestamp_delta_bytes, value_bytes) →
  chunk_kind_of s = k ∧ values_bytes e t0_ms s = Some l ∧ samples_ok s ∧ zlen (sample_timestamps s) = n ∧
  Forall (λ t, t0_ms ≤ t ≤ u64_max) (sample_timestamps s) ∧
  timestamp_delta_bytes = zlen (deltas_bytes t0_ms (sample_timestamps s)) ∧ value_bytes = zlen l - timestamp_delta_bytes.
Proof.
  intros Ht0 Hr Hn Hd. assert (0 ≤ c) as Hc by apply Hr.
  assert (∀ T (mk : list (Z * T) → ChunkSamples) ok image (r : io_result (list (Z * T) * Z * Z)),
    (∀ a, r = Ok a → column t0_ms ok image n l a) → wrap_samples mk r = Ok (s, timestamp_delta_bytes, value_bytes) →
    ∃ samples, s = mk samples ∧ column t0_ms ok image n l (samples, timestamp_delta_bytes, value_bytes)) as Hwrap.
  { intros T mk ok image r Hcol Hw. destruct r as [[[samples d] v]|]; [|done]. cbn in Hw. injection Hw as <- <- <-. eauto. }
  assert (0 ≤ n) as Hn0 by lia.
  destruct k, e; try done; cbn [decode_samples] in Hd; eapply Hwrap in Hd as (samples & -> & Hcol).
  all: try (intros a; first [by eapply gorilla_inv|by eapply int_inv|by eapply typed_inv]).
  2,5: first [exact (λ a, raw_inv _ _ _ _ Hr _ _ _ (u64_codec "short read") _ _ _ a Hn0)
    |exact (λ a, raw_inv _ _ _ _ Hr _ _ _ (fixed_i64_codec "short read") _ _ _ a Hn0)].
  all: cbn [sample_timestamps chunk_kind_of values_bytes samples_ok]; rewrite fmap_fst_len; destruct Hcol as (? & ? & ? & ? & ? & ?); done.
Qed.

Lemma raw_rows_min t0_ms (samples : list (Z * Z)) : in_u64 t0_ms → Forall (λ t, t0_ms ≤ t ≤ u64_max) samples.*1 →
  zlen samples * 9 ≤ zlen (mjoin (raw_row t0_ms <$> samples)).
Proof.
  intros Ht0 Hs%Forall_fmap. apply (zlen_join_min _ (λ p : Z * Z, t0_ms ≤ p.1 ≤ u64_max) 9); [|done].
  intros [t v] Ht. unfold raw_row. rewrite zlen_app, zlen_le_bytes by done. cbn [fst snd] in *.
  pose proof (varint_min (t - t0_ms)). unfold in_u64 in *. lia.
Qed.
Lemma typed_payload_min {T} `{SchemaVarLenLaws T} t0_ms (samples : list (Z * T)) : in_u64 t0_ms → samples.*1 ≠ [] → zlen samples ≤ u32_max →
  Forall (λ t, t0_ms ≤ t ≤ u64_max) samples.*1 → Forall (λ v, sv_ok v) samples.*2 → zlen samples * 2 + 2 ≤ zlen (typed_payload t0_ms samples).
Proof.
  intros Ht0 Hne Hn Hts Hvs. pose proof (deltas_min _ _ Ht0 Hts) as Hd. pose proof (block_min_len samples.*2) as Hb.
  unfold typed_payload. rewrite zlen_app. rewrite fmap_fst_len in Hd. rewrite fmap_snd_len in Hb.
  specialize (Hb ltac:(by destruct samples) Hvs Hn). lia.
Qed.

Lemma deltas_int_min vs : ∀ prev, zlen vs ≤ zlen (deltas prev vs).
Proof.
  induction vs as [|v vs IH]; intros prev; cbn [deltas]; [done|]. rewrite zlen_cons, zlen_app. specialize (IH v).
  assert (1 ≤ zlen (delta_bytes prev v)); [|lia]. apply varint_min, encode_zigzag_in_u64, wrap_i64_range.
Qed.

Lemma feasible_fwd t0_ms s e l : in_u64 t0_ms → values_bytes e t0_ms s = Some l → samples_ok s → chunk_times t0_ms s →
  validate_full_chunk_point_count_feasible (chunk_kind_of s) e (zlen (sample_timestamps s)) (zlen l) = Ok tt.
Proof.
  intros Ht0 He Hok (Hne & Hn & Hts). pose proof (deltas_min _ _ Ht0 Hts) as Hmin. pose proof (zlen_nonneg (sample_timestamps s)).
  assert (0 < zlen (sample_timestamps s)) as Hpos.
  { destruct (sample_timestamps s); [done|]. rewrite zlen_cons. pose proof (zlen_nonneg l0). lia. }
  destruct s as [s|s|s|s|s], e; try done; cbn [sample_timestamps chunk_kind_of values_bytes samples_ok] in *;
    rewrite fmap_fst_len in *; unfold validate_full_chunk_point_count_feasible, checked_mul_u64; cbn [mbind result_bind].
  1, 3: injection He as <-; pose proof (raw_rows_min _ _ Ht0 Hts).
  3: { destruct (encode_gorilla_values s.*2) as [b|] eqn:Hb; [|done]. injection He as <-.
       apply encoded_min_len in Hb as [_ Hb]; [|by destruct s|done]. rewrite fmap_snd_len in Hb.
       pose proof (Z.div_le_upper_bound (zlen s + 70) 8 (zlen s + 70) ltac:(lia) ltac:(lia)).
       rewrite minimum_len_ok by lia. cbn [mbind result_bind]. rewrite zlen_app. rewrite checked_add_u64_fits by lia. cbn [ok_or mbind result_bind].
       by rewrite (proj2 (Z.ltb_ge _ _)) by lia. }
  4-6: injection He as <-; pose proof (typed_payload_min _ _ Ht0 Hne Hn Hts Hok).
  3: injection He as <-; pose proof (deltas_int_min s.*2 0) as Hi; rewrite fmap_snd_len in Hi.
  all: rewrite (proj2 (Z.leb_le _ _)) by lia; cbn [mbind option_bind]; rewrite ?checked_add_u64_fits by lia; cbn [ok_or mbind result_bind].
  all: by rewrite (proj2 (Z.ltb_ge _ _)) by (rewrite ?zlen_app; lia).
Qed.

(** ** Records *)

Lemma deltas_le e t0_ms s l : values_bytes e t0_ms s = Some l → zlen (deltas_bytes t0_ms (sample_timestamps s)) ≤ zlen l.
Proof.
  assert (∀ x y : list Z, zlen x ≤ zlen (x ++ y)) as Happ by (intros x y; rewrite zlen_app; pose proof (zlen_nonneg y); lia).
  destruct s as [s|s|s|s|s], e; try done; cbn [values_bytes sample_timestamps]; [| |intros [= <-]..].
  - intros [= <-]. apply raw_deltas_le.
  - destruct (encode_gorilla_values s.*2); [|done]. intros [= <-]. apply Happ.
  - apply raw_deltas_le.
  - apply Happ.
  - apply Happ.
  - apply Happ.
  - apply Happ.
Qed.
Lemma lor_small f : 0 ≤ f < 32 → ∀ b, b = 0 ∨ b = 2 ∨ b = 4 ∨ b = 8 ∨ b = 16 → 0 ≤ Z.lor f b < 32.
Proof.
  intros Hf b Hb. assert (0 ≤ b < 32) as Hb32 by lia. split; [apply Z.lor_nonneg; lia|].
  destruct (Z.eq_dec (Z.lor f b) 0) as [->|Hne]; [done|]. apply (Z.log2_lt_pow2 _ 5).
  { pose proof (proj2 (Z.lor_nonneg f b) ltac:(lia)). lia. }
  rewrite Z.log2_lor by lia.
  assert (∀ x, 0 ≤ x < 32 → Z.log2 x < 5) as Hl.
  { intros x Hx. destruct (Z.eq_dec x 0) as [->|]; [done|]. apply (Z.log2_lt_pow2 _ 5); lia. }
  pose proof (Hl f Hf). pose proof (Hl b Hb32). lia.
Qed.
Lemma typed_flags_small ms : 0 ≤ typed_chunk_flags ms < 32.
Proof.
  unfold typed_chunk_flags. assert (∀ a, 0 ≤ fa_flags a < 32 → 0 ≤ fa_flags (foldl flags_observe a ms) < 32) as Hf.
  { induction ms as [|m ms IH]; intros a Ha; [done|]. cbn [foldl]. apply IH. unfold flags_observe. cbn [fa_flags].
    repeat case_match; repeat apply lor_small; unfold CHUNK_FLAG_HAS_START_TIME, CHUNK_FLAG_HAS_PER_SAMPLE_FLAGS,
      CHUNK_FLAG_HAS_COUNTER_RESET_HINTS; cbn; tauto. }
  specialize (Hf flags_default ltac:(cbn; lia)). unfold flags_finish. destruct (_ && _); [|done].
  apply lor_small; [done|]. unfold CHUNK_FLAG_TEMPORALITY_DELTA. cbn. tauto.
Qed.

Definition typed_rows {T} `{TypedCounterValue T} (l : list (Z * T)) : list DecodedTypedScalarLaneRow :=
  (λ p, mk_row p.1 (tc_metadata p.2) (tc_count p.2) (tc_sum p.2)) <$> l.
(** The counters that a lane repeats. *)
Definition sample_rows (s : ChunkSamples) : list DecodedTypedScalarLaneRow :=
  match s with
  | ChunkFloats _ | ChunkInt64s _ => []
  | ChunkHistograms l => typed_rows l
  | ChunkExponentialHistograms l => typed_rows l
  | ChunkSummaries l => typed_rows l
  end.
Definition chunk_flags (s : ChunkSamples) : Z :=
  if typed_kind (chunk_kind_of s) then typed_chunk_flags (lr_metadata <$> sample_rows s) else 0.

Lemma typed_rows_times {T} `{TypedCounterValue T} (l : list (Z * T)) : lr_timestamp_ms <$> typed_rows l = l.*1.
Proof. unfold typed_rows. by rewrite <- list_fmap_compose. Qed.
Lemma typed_rows_metadata {T} `{TypedCounterValue T} (l : list (Z * T)) : lr_metadata <$> typed_rows l = (λ p, tc_metadata p.2) <$> l.
Proof. unfold typed_rows. by rewrite <- list_fmap_compose. Qed.
Lemma sample_rows_times s : typed_kind (chunk_kind_of s) = true → lr_timestamp_ms <$> sample_rows s = sample_timestamps s.
Proof. destruct s; try done; intros _; apply typed_rows_times. Qed.
Lemma typed_rows_ok {T} `{ChunkValue T} (l : list (Z * T)) : Forall (λ v, sv_ok v) l.*2 → Forall row_ok (typed_rows l).
Proof.
  intros Hl. apply (Forall_fmap snd) in Hl. apply Forall_fmap. eapply Forall_impl; [exact Hl|]. intros [t v] Hv%counter_ok. exact Hv.
Qed.
Lemma sample_rows_ok s : samples_ok s → Forall row_ok (sample_rows s).
Proof. destruct s; intros Hs; [by apply Forall_nil|by apply Forall_nil|exact (typed_rows_ok samples Hs)..]. Qed.

(** *** The lane against the values *)

Section verify.
Context {T : Type} `{TypedCounterValue T} (values : list (Z * T)).

Lemma verify_row_spec pre v suf row k : values = pre ++ v :: suf → zlen values ≤ u32_max →
  verify_row values (zlen pre) row = Ok k ↔ [row] = typed_rows [v] ∧ k = zlen (pre ++ [v]).
Proof.
  intros -> Hn. unfold verify_row. rewrite zlen_to_nat, list_lookup_middle by done. cbn [ok_or mbind result_bind]. destruct v as [t v].
  rewrite zlen_app, zlen_cons in Hn. pose proof (zlen_nonneg suf). rewrite zlen_app. change (zlen [(t, v)]) with 1.
  cbn [typed_rows fmap list_fmap fst snd]. destruct row as [t' m c s]. cbn [lr_timestamp_ms lr_metadata lr_count lr_sum].
  destruct (Z.eqb_spec t' t) as [->|]; cbn [negb orb]; [|split; [done|naive_solver]].
  destruct (bool_decide_reflect (m = tc_metadata v)) as [->|]; cbn [negb orb]; [|split; [done|naive_solver]].
  destruct (Z.eqb_spec c (tc_count v)) as [->|]; cbn [negb orb]; [|split; [done|naive_solver]].
  destruct (bool_decide_reflect (s = tc_sum v)) as [->|]; cbn [negb orb]; [|split; [done|naive_solver]].
  rewrite checked_add_u64_fits by lia. cbn [ok_or]. naive_solver.
Qed.
Lemma verify_row_end row k : verify_row values (zlen values) row ≠ Ok k.
Proof. unfold verify_row. rewrite zlen_to_nat, lookup_ge_None_2 by done. done. Qed.

Lemma verify_rows_spec rows : ∀ pre suf, values = pre ++ suf → zlen values ≤ u32_max →
  fold_rows (verify_row values) (zlen pre) rows = Ok (zlen values) ↔ rows = typed_rows suf.
Proof.
  induction rows as [|row rows IH]; intros pre suf Heq Hn; cbn [fold_rows].
  { rewrite Heq, zlen_app. destruct suf as [|v suf]; cbn [typed_rows fmap list_fmap].
    - split; [done|]. intros _. f_equal. rewrite zlen_nil. lia.
    - split; [|done]. intros [= Hl]. rewrite zlen_cons in Hl. pose proof (zlen_nonneg suf). lia. }
  destruct suf as [|v suf].
  { rewrite app_nil_r in Heq. subst pre. split; [|done]. intros (k & Hk & _)%bind_ok. by apply verify_row_end in Hk. }
  specialize (IH (pre ++ [v]) suf). rewrite <- app_assoc in IH. specialize (IH Heq Hn). split.
  - intros (k & Hk & Hrows)%bind_ok. apply (verify_row_spec pre v suf) in Hk as [[= ->] ->]; [|done..]. apply IH in Hrows as ->. done.
  - cbn [typed_rows fmap list_fmap]. intros [= -> ->]. rewrite (proj2 (verify_row_spec pre v suf _ (zlen (pre ++ [v])) Heq Hn)) by done.
    cbn [mbind result_bind]. by apply IH.
Qed.
End verify.

Section records.
Context `{HC : Crc32c} `{!Crc32cLaws}.

Lemma verify_typed_spec {T} `{HV : ChunkValue T} header lane (values : list (Z * T)) :
  header_ok header → bytes lane → zlen lane ≤ u32_max → typed_kind (dh_kind header) = true → dh_encoding header = EncSchemaVarLen →
  values ≠ [] → zlen values ≤ u32_max → Forall (λ t, t ≤ u64_max) values.*1 → Forall (λ v, sv_ok v) values.*2 →
  times_ok (dh_num_points header) (dh_min_time_ms header) (dh_max_time_ms header) values.*1 →
  verify_typed_chunk_redundant_metadata header lane values = Ok tt ↔
  dh_flags header = typed_chunk_flags (lr_metadata <$> typed_rows values) ∧
  (lane = [] ∨ lane = lane_bytes (dh_min_time_ms header) (typed_rows values)).
Proof.
  intros (_ & _ & Hmin & _ & Hnp & _) Hb Hlen Hk He Hne Hn Hts Hvs Htimes. unfold verify_typed_chunk_redundant_metadata. rewrite typed_rows_metadata.
  destruct (Z.eqb_spec (dh_flags header) (typed_chunk_flags ((λ p, tc_metadata p.2) <$> values))) as [Hf|]; cbn [negb]; [|by split; [done|intros [? _]]].
  destruct lane as [|b lane']; [by split; [split; [done|left]|]|]. set (lane := b :: lane') in *. split.
  - intros (observed & Hobs & Hend)%bind_ok. split; [done|right]. unfold for_each_typed_scalar_lane_row in Hobs.
    apply bind_ok in Hobs as (body & Hbody & Hrows). destruct (Z.eqb_spec observed (zlen values)) as [->|]; [|done].
    destruct (lane_inv _ _ _ Hb ltac:(lia) Hbody) as (_ & _ & _ & Hlane & Hbl).
    assert (bytes body) as Hbb by (rewrite Hlane in Hb; unfold lane_frame in Hb; rewrite !Forall_app in Hb; apply Hb).
    destruct (rows_body_inv _ _ _ _ _ Hmin Hbb ltac:(lia) (proj1 Hnp) Hrows) as (rows & -> & _ & Hfold).
    apply (verify_rows_spec values rows [] values) in Hfold as ->; done.
  - intros [_ [?|Hlane]]; [done|]. rewrite Hlane. unfold for_each_typed_scalar_lane_row.
    change (lane_bytes ?t ?r) with (lane_frame (lane_body t r)) in *.
    assert (rows_ok header (typed_rows values)) as Hrows.
    { split_and!; [by apply typed_rows_ok|by rewrite typed_rows_times|by rewrite typed_rows_times|by rewrite typed_rows_metadata]. }
    pose proof (lane_body_min _ _ Hmin Hrows). rewrite Hlane, zlen_lane_frame in Hlen. assert (zlen values = dh_num_points header) as Hz.
    { destruct Htimes as [<- _]. by rewrite fmap_fst_len. }
    assert (dh_num_points header ≠ 0) by (rewrite <- Hz; destruct values; [done|rewrite zlen_cons; pose proof (zlen_nonneg values); lia]).
    rewrite lane_fwd; [|done|done|done|lia|unfold in_u32 in Hnp; lia|lia]. cbn [mbind result_bind].
    rewrite rows_body_fwd by (done || lia). rewrite (proj2 (verify_rows_spec values _ [] values eq_refl Hn) eq_refl). cbn [mbind result_bind].
    by rewrite Z.eqb_refl.
Qed.

Definition min_time (s : ChunkSamples) : Z := default 0 (head (sample_timestamps s)).
Definition max_time (s : ChunkSamples) : Z := default 0 (last (sample_timestamps s)).
Definition chunk_payload (s : ChunkSamples) (values : list Z) : list Z := le_bytes 8 (min_time s) ++ values.
Definition chunk_header_of (e : ChunkEncoding) (series_ref : Z) (s : ChunkSamples) (lane values : list Z) : DecodedChunkHeader :=
  mk_header (chunk_kind_of s) e (chunk_flags s) series_ref (min_time s) (max_time s) (zlen (sample_timestamps s)) (CHUNK_HEADER_LEN + zlen lane)
    (zlen (chunk_payload s values)) (crc32c (chunk_payload s values)).
Definition record_image (e : ChunkEncoding) (series_ref : Z) (s : ChunkSamples) (lane values : list Z) : list Z :=
  chunk_header_bytes (chunk_header_of e series_ref s lane values) ++ lane ++ chunk_payload s values.

Definition has_lane (s : ChunkSamples) (lane : list Z) : Prop :=
  lane = [] ∨ typed_kind (chunk_kind_of s) = true ∧ lane = lane_bytes (min_time s) (sample_rows s).
Definition chunk_ok (e : ChunkEncoding) (series_ref : Z) (s : ChunkSamples) (lane values : list Z) : Prop :=
  in_u32 series_ref ∧ sample_timestamps s ≠ [] ∧ zlen (sample_timestamps s) ≤ u32_max ∧ ordered (sample_timestamps s) ∧
  Forall in_u64 (sample_timestamps s) ∧ samples_ok s ∧ values_bytes e (min_time s) s = Some values ∧ has_lane s lane ∧
  CHUNK_HEADER_LEN + zlen lane ≤ u32_max ∧ zlen (chunk_payload s values) ≤ u32_max.
Definition record_of (series_ref : Z) (s : ChunkSamples) : ChunkRecord := mk_chunk_record series_ref (chunk_kind_of s) (min_time s) (max_time s) s.
Definition layout_of (e : ChunkEncoding) (s : ChunkSamples) (lane values : list Z) : DecodedChunkLayout :=
  let delta_bytes := zlen (deltas_bytes (min_time s) (sample_timestamps s)) in
  mk_layout (chunk_kind_of s) e (chunk_flags s) (zlen (sample_timestamps s)) CHUNK_HEADER_LEN (zlen lane) (zlen (chunk_payload s values)) 8
    delta_bytes (zlen values - delta_bytes).

(** The redundant part of a record agrees with its samples. *)
Lemma verify_spec e s lane values header record_bytes : header_ok header → bytes lane → zlen lane ≤ u32_max →
  decode_chunk_header record_bytes = Ok header → CHUNK_HEADER_LEN ≤ dh_header_len header ≤ zlen record_bytes →
  slice record_bytes CHUNK_HEADER_LEN (dh_header_len header) = lane → dh_kind header = chunk_kind_of s → dh_encoding header = e →
  sample_timestamps s ≠ [] → zlen (sample_timestamps s) ≤ u32_max → Forall (λ t, t ≤ u64_max) (sample_timestamps s) → samples_ok s →
  values_bytes e (dh_min_time_ms header) s = Some values → dh_min_time_ms header = min_time s →
  times_ok (dh_num_points header) (dh_min_time_ms header) (dh_max_time_ms header) (sample_timestamps s) →
  verify_chunk_scalar_lane_and_flags record_bytes s = Ok tt ↔ dh_flags header = chunk_flags s ∧ has_lane s lane.
Proof.
  intros Hh Hb Hlen Hdec Hhl Hlane Hk He Hne Hn Hts Hok Hval Hm Htimes. unfold verify_chunk_scalar_lane_and_flags. rewrite Hdec. cbn [mbind result_bind].
  rewrite !(proj2 (Z.ltb_ge _ _)) by lia. cbn [orb]. rewrite Hlane, Hk. unfold chunk_flags, has_lane. rewrite <- Hm.
  assert (verify_scalar_chunk_redundant_metadata header lane = Ok tt ↔ dh_flags header = 0 ∧ (lane = [] ∨ false = true ∧ lane = lane_bytes (dh_min_time_ms header) (sample_rows s))) as Hscalar.
  { unfold verify_scalar_chunk_redundant_metadata. destruct (Z.eqb_spec (dh_flags header) 0); cbn [negb]; [|naive_solver]. destruct lane; naive_solver. }
  destruct s as [s|s|s|s|s]; cbn [chunk_kind_of typed_kind sample_timestamps] in *; try exact Hscalar; rewrite fmap_fst_len in Hn;
    (rewrite verify_typed_spec; [naive_solver|first [done|by rewrite Hk|by rewrite He; destruct e|by intros ->]..]).
Qed.

Lemma chunk_ok_times e series_ref s lane values : chunk_ok e series_ref s lane values →
  in_u64 (min_time s) ∧ in_u64 (max_time s) ∧ chunk_times (min_time s) s ∧
  times_ok (zlen (sample_timestamps s)) (min_time s) (max_time s) (sample_timestamps s).
Proof.
  intros (_ & Hne & Hn & Hord & Hts & _). unfold chunk_times, min_time, max_time.
  assert (times_ok (zlen (sample_timestamps s)) (default 0 (head (sample_timestamps s))) (default 0 (last (sample_timestamps s))) (sample_timestamps s)) as Ht.
  { split_and!; [done|done| |]; destruct (sample_timestamps s) as [|t ts]; try done. by destruct (last_is_Some (t :: ts)) as [_ [x ->]]. }
  destruct Ht as (H1 & H2 & H3 & H4). assert (∀ x, x ∈ sample_timestamps s → in_u64 x) as Hin by (apply Forall_forall; done).
  split_and!; try done.
  - apply Hin. by apply head_Some_elem_of.
  - apply Hin. by apply last_Some_elem_of.
  - apply Forall_and. split; [by eapply times_ok_min|]. eapply Forall_impl; [exact Hts|]. by intros x [].
Qed.

Lemma bytes_values e t0_ms s values : in_u64 t0_ms → chunk_times t0_ms s → samples_ok s → values_bytes e t0_ms s = Some values → vec_ok values → bytes values.
Proof.
  intros Ht0 (Hne & Hn & Hts) Hok Hv Hlen. pose proof (bytes_deltas_bytes _ _ Ht0 Hts) as Hd.
  assert (∀ samples : list (Z * Z), Forall (λ t, t0_ms ≤ t ≤ u64_max) samples.*1 → bytes (mjoin (raw_row t0_ms <$> samples))) as Hraw.
  { intros samples Hs%(Forall_fmap fst). apply (bytes_join _ (λ p : Z * Z, t0_ms ≤ p.1 ≤ u64_max)); [|done]. intros [t v] Ht. apply Forall_app.
    split; [|by apply bytes_le_bytes]. apply bytes_encode_varint. unfold in_u64 in *. cbn [fst compose] in *. lia. }
  assert (∀ T `{SchemaVarLenLaws T} (samples : list (Z * T)), zlen samples.*1 ≤ u32_max → bytes (deltas_bytes t0_ms samples.*1) → Forall (λ v, sv_ok v) samples.*2 →
    vec_ok (typed_payload t0_ms samples) → bytes (typed_payload t0_ms samples)) as Htyped.
  { intros T HE HL samples Hlen' Hd' Hs Hvec. unfold typed_payload in *. apply Forall_app. split; [done|]. rewrite zlen_app in Hvec.
    pose proof (zlen_nonneg (deltas_bytes t0_ms samples.*1)). apply bytes_block; [done|lia|]. by rewrite fmap_snd_len, <- fmap_fst_len. }
  destruct s as [s|s|s|s|s], e; try done; cbn [values_bytes sample_timestamps samples_ok] in *.
  - injection Hv as <-. by apply Hraw.
  - destruct (encode_gorilla_values s.*2) as [b|] eqn:Hb; [|done]. injection Hv as <-. apply Forall_app. split; [done|].
    eapply encoded_min_len; [|done|exact Hb]. by destruct s.
  - injection Hv as <-. by apply Hraw.
  - injection Hv as <-. apply Forall_app. split; [done|]. apply bytes_deltas.
  - injection Hv as <-. by apply Htyped.
  - injection Hv as <-. by apply Htyped.
  - injection Hv as <-. by apply Htyped.
Qed.
Lemma bytes_lane s lane : in_u64 (min_time s) → chunk_times (min_time s) s → samples_ok s → has_lane s lane → bytes lane.
Proof.
  intros Hmin (_ & _ & Hts) Hok [->|[Hk ->]]; [by apply Forall_nil|]. apply (bytes_lane_frame (lane_body _ _)). unfold lane_body. rewrite !Forall_app.
  rewrite sample_rows_times by done. split_and!; [by apply bytes_le_bytes|by apply bytes_deltas_bytes|].
  apply (bytes_join _ row_ok); [apply bytes_row|by apply sample_rows_ok].
Qed.
Lemma bytes_record e series_ref s lane values : chunk_ok e series_ref s lane values → bytes (record_image e series_ref s lane values).
Proof.
  intros Hc. pose proof (chunk_ok_times _ _ _ _ _ Hc) as (Hmin & Hmax & Hct & _). destruct Hc as (_ & _ & _ & _ & _ & Hok & Hv & Hl & _ & Hsz).
  unfold record_image, chunk_payload in *. rewrite !Forall_app. split_and!; [apply bytes_header|by eapply bytes_lane|by apply bytes_le_bytes|].
  eapply bytes_values; [exact Hmin|done..|]. rewrite zlen_app in Hsz. pose proof (zlen_nonneg (le_bytes 8 (min_time s))). lia.
Qed.

Lemma record_header_ok e series_ref s lane values : chunk_ok e series_ref s lane values → header_ok (chunk_header_of e series_ref s lane values).
Proof.
  intros Hc. pose proof (chunk_ok_times _ _ _ _ _ Hc) as (Hmin & Hmax & _). destruct Hc as (Href & _ & Hn & _ & _ & _ & _ & _ & Hh & Hsz).
  assert (in_u16 (chunk_flags s)) as Hfl.
  { unfold chunk_flags, in_u16. destruct (typed_kind _); [|lia]. pose proof (typed_flags_small (lr_metadata <$> sample_rows s)). lia. }
  pose proof (zlen_nonneg lane). pose proof (zlen_nonneg (chunk_payload s values)). pose proof (zlen_nonneg (sample_timestamps s)).
  pose proof (crc32c_u32 (chunk_payload s values)). unfold CHUNK_HEADER_LEN in *.
  unfold header_ok, chunk_header_of; cbn [dh_flags dh_series_ref dh_min_time_ms dh_max_time_ms dh_num_points dh_header_len dh_payload_len dh_chunk_crc].
  unfold in_u32 in *. split_and!; try done; unfold CHUNK_HEADER_LEN; lia.
Qed.

Lemma record_parts e series_ref s lane values : chunk_ok e series_ref s lane values →
  decode_chunk_header (record_image e series_ref s lane values) = Ok (chunk_header_of e series_ref s lane values) ∧
  decode_chunk_payload (record_image e series_ref s lane values) = Ok (chunk_header_of e series_ref s lane values, chunk_payload s values) ∧
  slice (record_image e series_ref s lane values) CHUNK_HEADER_LEN (CHUNK_HEADER_LEN + zlen lane) = lane ∧
  zlen (record_image e series_ref s lane values) = CHUNK_HEADER_LEN + zlen lane + zlen (chunk_payload s values).
Proof.
  intros Hc. pose proof (record_header_ok _ _ _ _ _ Hc) as Hh. destruct Hc as (_ & _ & _ & _ & _ & _ & _ & _ & Hhl & Hsz).
  assert (decode_chunk_header (record_image e series_ref s lane values) = Ok (chunk_header_of e series_ref s lane values)) as Hdec by (by apply decode_header_fwd).
  unfold decode_chunk_payload. rewrite Hdec. cbn [mbind result_bind]. unfold record_image in *. set (h := chunk_header_of e series_ref s lane values) in *.
  change (dh_header_len h) with (CHUNK_HEADER_LEN + zlen lane). change (dh_payload_len h) with (zlen (chunk_payload s values)).
  change (dh_chunk_crc h) with (crc32c (chunk_payload s values)). set (payload := chunk_payload s values) in *. unfold CHUNK_HEADER_LEN in *.
  pose proof (zlen_nonneg lane) as Hzl. pose proof (zlen_nonneg payload) as Hzp.
  assert (zlen (chunk_header_bytes h ++ lane ++ payload) = 40 + zlen lane + zlen payload) as Hzb by (rewrite !zlen_app, zlen_header; lia).
  split_and!; [done| |rewrite slice_skip by (rewrite zlen_header; done); rewrite zlen_header; apply slice_here; lia|done].
  rewrite checked_add_u64_fits by lia. cbn [ok_or mbind result_bind]. rewrite (proj2 (Z.ltb_ge _ _)) by lia.
  rewrite (proj2 (Z.eqb_eq _ (zlen _))) by lia. cbn [negb orb].
  rewrite !slice_skip by (rewrite ?zlen_header; lia). rewrite zlen_header. replace (40 + zlen lane - 40 - zlen lane) with 0 by lia.
  rewrite slice_whole by lia. by rewrite Z.eqb_refl.
Qed.

Lemma record_fwd al e series_ref s lane values : grants al → chunk_ok e series_ref s lane values →
  decode_chunk_record_with_layout al (record_image e series_ref s lane values) = Ok (record_of series_ref s, layout_of e s lane values).
Proof.
  intros Hal Hc. pose proof (record_header_ok _ _ _ _ _ Hc) as Hh. pose proof (bytes_record _ _ _ _ _ Hc) as Hb.
  destruct (record_parts _ _ _ _ _ Hc) as (Hdec & Hpay & Hlane & Hzb).
  pose proof (chunk_ok_times _ _ _ _ _ Hc) as (Hmin & Hmax & Hct & Htimes). pose proof Hc as (Href & Hne & Hn & _ & Hts & Hok & Hv & Hl & Hhl & Hsz).
  unfold decode_chunk_record_with_layout. rewrite Hpay. cbn [mbind result_bind].
  set (bs := record_image e series_ref s lane values) in *. set (h := chunk_header_of e series_ref s lane values) in *.
  set (payload := chunk_payload s values) in *. unfold CHUNK_HEADER_LEN in *. pose proof (zlen_nonneg lane). pose proof (zlen_nonneg values).
  assert (zlen payload = 8 + zlen values) as Hzpv by (unfold payload, chunk_payload; rewrite zlen_app, zlen_le_bytes by done; lia).
  assert (bytes payload) as Hbp by (unfold bs, record_image in Hb; rewrite !Forall_app in Hb; apply Hb).
  pose proof (cursor_start payload Hbp ltac:(lia)) as Hr. unfold payload at 2 in Hr. unfold chunk_payload in Hr. assert (grants alloc_ok) as Hal' by done.
  unfold read_u64. destruct (codec_fwd (Codec := u64_codec "short read") alloc_ok _ _ _ _ Hal' Hr Hmin) as (c & -> & Hr'). cbn [mbind result_bind].
  pose proof (cursor_zlen _ _ _ Hr') as Hz. assert (c = 8) as -> by lia.
  change (dh_num_points h) with (zlen (sample_timestamps s)). change (dh_min_time_ms h) with (min_time s). change (dh_kind h) with (chunk_kind_of s).
  change (dh_encoding h) with e. rewrite (proj2 (Z.eqb_neq _ _)) by (destruct (sample_timestamps s) as [|? l0]; [done|rewrite zlen_cons; pose proof (zlen_nonneg l0); lia]).
  rewrite Z.eqb_refl. cbn [negb]. assert (saturating_sub (zlen payload) 8 = zlen values) as -> by (unfold saturating_sub; lia).
  rewrite (feasible_fwd (min_time s)) by done. cbn [mbind result_bind]. rewrite (samples_fwd al _ _ _ _ _ values) by done. cbn [mbind result_bind].
  unfold validate_decoded_sample_timestamps. change (dh_max_time_ms h) with (max_time s). rewrite (proj2 (validate_timestamp_iter_spec _ _ _ _) Htimes). cbn [mbind result_bind].
  assert (verify_chunk_scalar_lane_and_flags bs s = Ok tt) as ->.
  { eapply (verify_spec e s lane values h); try done; [by eapply bytes_lane|lia| |].
    - change (dh_header_len h) with (40 + zlen lane). unfold CHUNK_HEADER_LEN. lia.
    - eapply Forall_impl; [exact Hts|]. by intros x []. }
  cbn [mbind result_bind].
  pose proof (deltas_le _ _ _ _ Hv). pose proof (zlen_nonneg (deltas_bytes (min_time s) (sample_timestamps s))).
  unfold checked_sub_u64. rewrite (proj2 (Z.leb_le (zlen payload) (zlen bs))) by lia. cbn [mbind option_bind].
  rewrite (proj2 (Z.leb_le 40 _)) by lia. cbn [ok_or mbind result_bind].
  rewrite !try_u32_fits by (unfold in_u32; lia). cbn [ok_or mbind result_bind]. unfold layout_of, record_of, CHUNK_HEADER_LEN. fold payload.
  change (dh_series_ref h) with series_ref. change (dh_flags h) with (chunk_flags s). do 3 f_equal. lia.
Qed.

Lemma ok_or_u32_inv {E} (e : E) z x : ok_or e (try_u32 z) = Ok x → x = z.
Proof. destruct (try_u32 z) as [y|] eqn:Hy; [|done]. intros [= <-]. by apply try_u32_Some in Hy as [-> _]. Qed.

(** What [decode_chunk_payload] accepts. *)
Lemma payload_inv bs header payload : bytes bs → vec_ok bs → decode_chunk_payload bs = Ok (header, payload) →
  decode_chunk_header bs = Ok header ∧ header_ok header ∧ bytes payload ∧ ∃ lane, bytes lane ∧ bs = chunk_header_bytes header ++ lane ++ payload ∧
    dh_header_len header = CHUNK_HEADER_LEN + zlen lane ∧ dh_payload_len header = zlen payload ∧ dh_chunk_crc header = crc32c payload ∧
    slice bs CHUNK_HEADER_LEN (dh_header_len header) = lane.
Proof.
  intros Hb Hv Hd. unfold decode_chunk_payload in Hd. apply bind_ok in Hd as (h & Hdec & Hd). apply bind_ok in Hd as (record_len & Hrl & Hd).
  destruct (checked_add_u64 _ _) as [?|] eqn:Hadd; [|done]. injection Hrl as ->. apply checked_add_u64_Some in Hadd as [-> _].
  destruct (Z.ltb_spec (dh_header_len h) CHUNK_HEADER_LEN) as [|Hhl]; [done|]. destruct (Z.eqb_spec (dh_header_len h + dh_payload_len h) (zlen bs)) as [Hlen|]; [|done].
  cbn [negb orb] in Hd. destruct (Z.eqb_spec (crc32c (slice bs (dh_header_len h) (dh_header_len h + dh_payload_len h))) (dh_chunk_crc h)) as [Hcrc|]; [|done].
  cbn [negb] in Hd. injection Hd as <- <-. destruct (decode_header_inv _ _ Hb Hdec) as [Hok [rest Hbs]]. pose proof Hok as (_ & _ & _ & _ & _ & Hhu & Hpu & _).
  unfold in_u32, CHUNK_HEADER_LEN in *. split_and!; [done|done|by apply bytes_slice|]. exists (slice bs 40 (dh_header_len h)).
  assert (rest = drop (Z.to_nat 40) bs) as Hrest.
  { rewrite Hbs. symmetry. apply drop_app_length'. pose proof (zlen_header h). unfold zlen in *. lia. }
  split_and!; [by apply bytes_slice| | | |done|done].
  - rewrite Hbs at 1. f_equal. rewrite Hrest, <- (slice_drop bs 40 (dh_header_len h)) by lia. f_equal. unfold slice. rewrite take_ge; [done|].
    rewrite length_drop. unfold zlen in *. lia.
  - rewrite zlen_slice by lia. lia.
  - rewrite zlen_slice by lia. lia.
Qed.

Lemma times_ok_ends n min_ms max_ms s : times_ok n min_ms max_ms (sample_timestamps s) →
  min_time s = min_ms ∧ max_time s = max_ms ∧ sample_timestamps s ≠ [] ∧ zlen (sample_timestamps s) = n ∧ ordered (sample_timestamps s).
Proof.
  intros (Hn & Hord & Hh & Hl). unfold min_time, max_time. rewrite Hh, Hl. split_and!; try done. by intros Hnil; rewrite Hnil in Hh.
Qed.

Lemma record_inv al bs record layout : bytes bs → vec_ok bs → decode_chunk_record_with_layout al bs = Ok (record, layout) →
  ∃ e lane values, chunk_ok e (cr_series_ref record) (cr_samples record) lane values ∧
    bs = record_image e (cr_series_ref record) (cr_samples record) lane values ∧
    record = record_of (cr_series_ref record) (cr_samples record) ∧ layout = layout_of e (cr_samples record) lane values.
Proof.
  intros Hb Hv Hd. unfold decode_chunk_record_with_layout in Hd. apply bind_ok in Hd as ([h payload] & Hpay & Hd).
  destruct (payload_inv _ _ _ Hb Hv Hpay) as (Hdec & Hok & Hbp & lane & Hbl & Hbs & Hhl & Hpl & Hcrc & Hlane).
  pose proof Hok as (Hfl & Href & Hmin & Hmax & Hn & Hhu & Hpu & _). pose proof (zlen_nonneg lane) as Hzl. unfold in_u32 in Hn, Hhu, Hpu.
  assert (vec_ok payload) as Hvp by lia. pose proof (cursor_start payload Hbp Hvp) as Hr.
  set (l := payload) in Hr at 2. assert (payload = l) as Hl by done. clearbody l. unfold read_u64 in Hd.
  read_inv (u64_codec "short read") alloc_ok Hr Hd t0 Ht0. destruct (Z.eqb_spec (dh_num_points h) 0) as [|Hn0]; [done|].
  destruct (Z.eqb_spec t0 (dh_min_time_ms h)) as [->|]; [|done]. cbn [negb] in Hd. apply bind_ok in Hd as (? & _ & Hd).
  apply bind_ok in Hd as ([[s db] vb] & Hs & Hd).
  assert (0 < dh_num_points h) as Hpos by lia.
  destruct (samples_inv _ _ _ _ _ _ _ _ _ _ _ Hmin Hr Hpos Hs) as (Hk & Hval & Hsok & Hzn & Hts & -> & ->). rename rest into values.
  apply bind_ok in Hd as ([] & Htimes%validate_timestamp_iter_spec & Hd). apply bind_ok in Hd as ([] & Hver & Hd).
  destruct (times_ok_ends _ _ _ _ Htimes) as (Hmt & Hmx & Hne & _ & Hord). assert (payload = chunk_payload s values) as -> by (unfold chunk_payload; by rewrite Hmt).
  assert (Forall in_u64 (sample_timestamps s)) as Hu by (eapply Forall_impl; [exact Hts|]; unfold in_u64 in *; cbn; lia).
  assert (zlen bs = 40 + zlen lane + zlen (chunk_payload s values)) as Hzb by (rewrite Hbs, !zlen_app, zlen_header; lia). unfold CHUNK_HEADER_LEN in *.
  apply (verify_spec (dh_encoding h) s lane values h) in Hver as [Hflags Hhas]; try done; try lia.
  2: unfold CHUNK_HEADER_LEN; lia.
  2: by eapply Forall_impl; [exact Hu|intros ? []].
  assert (c = 8) as ->.
  { pose proof (cursor_zlen _ _ _ Hr) as Hz. unfold chunk_payload in Hz. rewrite zlen_app, zlen_le_bytes in Hz by done. lia. }
  apply bind_ok in Hd as (x1 & Hx1 & Hd). do 4 (apply bind_ok in Hd as (? & ->%ok_or_u32_inv & Hd)). apply bind_ok in Hd as (? & ->%ok_or_u32_inv & Hd).
  unfold checked_sub_u64 in Hx1. destruct (zlen (chunk_payload s values) <=? zlen bs); [|done]. cbn [mbind option_bind] in Hx1.
  destruct (40 <=? _); [|done]. injection Hx1 as <-. injection Hd as <- <-. cbn [cr_series_ref cr_samples].
  exists (dh_encoding h), lane, values. unfold chunk_ok, record_image, record_of, layout_of, CHUNK_HEADER_LEN. rewrite Hmt, Hmx, Hk.
  assert (chunk_header_of (dh_encoding h) (dh_series_ref h) s lane values = h) as Hheader.
  { unfold chunk_header_of, CHUNK_HEADER_LEN. rewrite Hk, <- Hflags, Hmt, Hmx, Hzn, <- Hhl, <- Hpl, <- Hcrc. by destruct h. }
  rewrite Hheader, Hbs at 1. split_and!; try done; try lia.
  rewrite Hzn, Hflags. f_equal. lia.
Qed.
End records.

(** ** Correctness *)

(** C10: the chunk decoder accepts exactly the images of well-formed chunks.  Bytes
    decode to a record and a layout if and only if they are the header, lane and
    payload of that record in some encoding its kind has: the checksum, the
    lengths, the point count, the base timestamp, the order and range of the
    timestamps, the flags and every counter repeated in the lane all agree with
    the samples, no byte is left over, and the layout reports the parts' sizes. *)
Theorem chunk_record_exact `{HC : Crc32c} `{!Crc32cLaws} al bs record layout : bytes bs → vec_ok bs → grants al →
  decode_chunk_record_with_layout al bs = Ok (record, layout) ↔
  ∃ e lane values, chunk_ok e (cr_series_ref record) (cr_samples record) lane values ∧
    bs = record_image e (cr_series_ref record) (cr_samples record) lane values ∧
    record = record_of (cr_series_ref record) (cr_samples record) ∧ layout = layout_of e (cr_samples record) lane values.
Proof.
  intros Hb Hv Hal. split; [by apply record_inv|]. intros (e & lane & values & Hc & -> & Hrecord & ->). rewrite record_fwd by done. by rewrite <- Hrecord.
Qed.

(** The layout accounts for every byte of the record. *)
Lemma layout_accounts `{HC : Crc32c} `{!Crc32cLaws} al bs record layout : bytes bs → vec_ok bs →
  decode_chunk_record_with_layout al bs = Ok (record, layout) →
  dl_common_header_bytes layout + dl_scalar_lane_bytes layout + dl_payload_bytes layout = zlen bs ∧
  dl_timestamp_base_bytes layout + dl_timestamp_delta_bytes layout + dl_value_bytes layout = dl_payload_bytes layout.
Proof.
  intros Hb Hv Hd. destruct (record_inv _ _ _ _ Hb Hv Hd) as (e & lane & values & Hc & Hbs & _ & ->).
  destruct (record_parts _ _ _ _ _ Hc) as (_ & _ & _ & Hz). rewrite <- Hbs in Hz. cbn [layout_of dl_common_header_bytes dl_scalar_lane_bytes
    dl_payload_bytes dl_timestamp_base_bytes dl_timestamp_delta_bytes dl_value_bytes]. split; [done|].
  unfold chunk_payload. rewrite zlen_app, zlen_le_bytes by done. lia.
Qed.

(** Two histograms and the lane of their counters. *)
Definition sample_chunk_samples : ChunkSamples := ChunkHistograms [(1000, sample_histogram); (2000, sample_histogram)].
Definition sample_chunk : list Z :=
  record_image EncSchemaVarLen 7 sample_chunk_samples (lane_bytes 1000 (sample_rows sample_chunk_samples))
    (typed_payload 1000 [(1000, sample_histogram); (2000, sample_histogram)]).
Lemma chunk_record_exact_witness : ∃ layout, decode_chunk_record_with_layout alloc_ok sample_chunk = Ok (record_of 7 sample_chunk_samples, layout) ∧
  dl_scalar_lane_bytes layout ≠ 0 ∧
  ∃ e lane values, chunk_ok e 7 sample_chunk_samples lane values ∧ sample_chunk = record_image e 7 sample_chunk_samples lane values.
Proof.
  assert (∃ layout, decode_chunk_record_with_layout alloc_ok sample_chunk = Ok (record_of 7 sample_chunk_samples, layout) ∧
    dl_scalar_lane_bytes layout ≠ 0) as (layout & Hd & Hl).
  { vm_compute. eexists. split; [reflexivity|discriminate]. }
  destruct (proj1 (chunk_record_exact alloc_ok sample_chunk (record_of 7 sample_chunk_samples) layout ltac:(apply bytesb_bytes; vm_compute; reflexivity)
    ltac:(vm_compute; discriminate) (λ _ _, eq_refl)) Hd) as (e & lane & values & Hc & Hb & _).
  exists layout. split; [exact Hd|]. split; [exact Hl|]. exists e, lane, values. split; [exact Hc|exact Hb].
Defined.
