(* ===== verification/ChunkWriter.v ===== *)
(** * Chunk files

    [chronoxide-core/src/storage/chunk/writer.rs].  Every append builds the payload
    of one chunk, for typed kinds the lane of its counters, and writes a frame
    that holds the record.  The writer's file is the bytes that its buffer took,
    which a [flush] brings to the device: a write may fail after it took any part of
    a frame, and the writer then keeps its offset though the bytes stay. *)
From Stdlib Require Import Sorted.
From stdpp Require Import sorting.
From S2P Require Import Prelude Varint Sort Cursor Frame Fields Bits Bitstream Gorilla SchemaVarLen TypedSamples TypedCodecs BlockCodec Chunk.

(** ** The writer *)

Record ChunkIndexEntry := mk_chunk_entry {
  ce_file_id : Z;
  ce_kind : ChunkKind;
  ce_flags : Z;
  ce_min_time_ms : Z;
  ce_max_time_ms : Z;
  ce_offset : Z;
  ce_length : Z;
  ce_scalar_lane_offset : Z;
  ce_scalar_lane_len : Z;
}.
Definition scalar_projection_read_len (e : ChunkIndexEntry) : Z :=
  if (ce_scalar_lane_offset e =? 0) || (ce_scalar_lane_len e =? 0) then ce_length e
  else saturating_add_u32 CHUNK_HEADER_LEN (ce_scalar_lane_len e).

Record ChunkWriter := mk_chunk_writer { cw_file : list Z; cw_offset : Z; cw_file_id : Z }.
(** An error outside is one before the first write, which leaves the writer as it
    was; inside is what the writes answered, with the writer after them. *)
Abbreviation appended := (io_result (io_result ChunkIndexEntry * ChunkWriter)).

(** The device: it may fail with [e] after the buffer took [n] more bytes. *)
Definition write_fault : Type := option (nat * io_error).

(** [self.file.write_all(part)?] for each part in turn. *)
Fixpoint write_parts (fault : write_fault) (file : list Z) (parts : list (list Z)) : io_result unit * list Z :=
  match parts with
  | [] => (Ok tt, file)
  | part :: parts =>
      match fault with
      | None => write_parts None (file ++ part) parts
      | Some (n, e) =>
          if (n <? length part)%nat then (Err e, file ++ take n part)
          else write_parts (Some ((n - length part)%nat, e)) (file ++ part) parts
      end
  end.

Definition new_with_file_id (file : list Z) (file_id : Z) : io_result ChunkWriter :=
  if 1 <? file_id then fail InvalidInput "chunk file ID must be 0 or 1"
  else Ok (mk_chunk_writer file (zlen file) file_id).
Definition chunk_writer_new (file : list Z) : io_result ChunkWriter := new_with_file_id file 0.

Definition checked_chunk_point_count (len : Z) : io_result Z := checked_u32_len len "chunk sample count".

Definition validate_ordered_samples {T} (samples : list (Z * T)) : io_result unit :=
  match samples with
  | [] => fail InvalidInput "samples must be non-empty"
  | _ =>
      if existsb (λ p, p.2 <? p.1) (zip samples.*1 (tail samples.*1)) then
        fail InvalidInput "ordered samples must be sorted by timestamp"
      else Ok tt
  end.
Definition samples_sorted_by_timestamp {T} (samples : list (Z * T)) : io_result (list (Z * T)) :=
  match samples with
  | [] => fail InvalidInput "samples must be non-empty"
  | _ => Ok (sort_by_key fst samples)
  end.

Definition first_time {T} (samples : list (Z * T)) : Z := default 0 (fst <$> head samples).
Definition last_time {T} (samples : list (Z * T)) : Z := default 0 (fst <$> last samples).

Section writer.
Context `{HC : Crc32c} (al : allocator) (fault : write_fault).

(** The rest of [append_chunk_payload_with_scalar_lane], on the lane's bytes. *)
Definition append_chunk_frame (w : ChunkWriter) (kind : ChunkKind) (encoding : ChunkEncoding)
    (flags series_ref min_time_ms max_time_ms num_points : Z) (payload lane : list Z) : appended :=
  payload_len ← checked_u32_len (zlen payload) "chunk payload length";
  let chunk_crc := crc32c payload in
  scalar_lane_len ← checked_u32_len (zlen lane) "scalar lane length";
  header_len_usize ← ok_or (io_err InvalidInput "chunk header length overflows") (checked_add_u64 CHUNK_HEADER_LEN (zlen lane));
  header_len ← checked_u32_len header_len_usize "chunk header length";
  fixed_header_len ← checked_u32_len CHUNK_HEADER_LEN "fixed chunk header length";
  let scalar_lane_offset := if zlen lane =? 0 then 0 else fixed_header_len in
  let chunk_header := chunk_header_bytes (mk_header kind encoding flags series_ref min_time_ms max_time_ms num_points
                        header_len payload_len chunk_crc) in
  frame_crc_len ← ok_or (io_err InvalidInput "chunk frame body length overflows")
    (checked_add_u64 (zlen chunk_header) (zlen lane) ≫= λ len, checked_add_u64 len (zlen payload));
  _ ← try_reserve al "chunk frame body" "chunk frame body allocation failed: " frame_crc_len;
  let frame_crc_buf := chunk_header ++ lane ++ payload in
  let frame_crc := crc32c frame_crc_buf in
  frame_len_usize ← ok_or (io_err InvalidInput "chunk frame length overflows")
    (checked_add_u64 FRAME_HEADER_LEN (zlen frame_crc_buf));
  frame_len ← checked_u32_len frame_len_usize "chunk frame length";
  let frame_header := le_bytes 4 frame_len ++ le_bytes 4 frame_crc ++ le_bytes 2 0 ++ le_bytes 4 1 in
  chunk_offset ← ok_or (io_err InvalidInput "chunk file offset overflows") (checked_add_u64 (cw_offset w) FRAME_HEADER_LEN);
  chunk_length_usize ← ok_or (io_err InvalidInput "chunk record length overflows")
    (checked_add_u64 header_len_usize (zlen payload));
  chunk_length ← checked_u32_len chunk_length_usize "chunk record length";
  new_offset ← ok_or (io_err InvalidInput "chunk file length overflows") (checked_add_u64 (cw_offset w) frame_len);
  let '(written, file) := write_parts fault (cw_file w) [frame_header; chunk_header; lane; payload] in
  Ok match written with
     | Err e => (Err e, mk_chunk_writer file (cw_offset w) (cw_file_id w))
     | Ok _ =>
         (Ok (mk_chunk_entry (cw_file_id w) kind flags min_time_ms max_time_ms chunk_offset chunk_length scalar_lane_offset
                scalar_lane_len),
          mk_chunk_writer file new_offset (cw_file_id w))
     end.

Definition append_chunk_payload_with_scalar_lane (w : ChunkWriter) (kind : ChunkKind) (encoding : ChunkEncoding)
    (flags series_ref min_time_ms max_time_ms num_points : Z) (payload : list Z) (scalar_lane : option (list Z)) : appended :=
  append_chunk_frame w kind encoding flags series_ref min_time_ms max_time_ms num_points payload (default [] scalar_lane).

(** [codec.push(value.clone())?] for the rest of the values. *)
Fixpoint push_values {T} `{SchemaVarLenEncoding T} (codec : SchemaVarLenCodec Schema) (values : list T)
    : io_result (SchemaVarLenCodec Schema) :=
  match values with
  | [] => Ok codec
  | value :: values =>
      match SchemaVarLen.push al codec value with
      | (Err e, _) => Err e
      | (Ok _, codec) => push_values codec values
      end
  end.

Definition append_schema_varlen_chunk_ordered {T} `{SchemaVarLenEncoding T} `{TypedCounterValue T} (w : ChunkWriter)
    (kind : ChunkKind) (series_ref : Z) (samples : list (Z * T)) (flags : Z) : appended :=
  _ ← validate_ordered_samples samples;
  num_points ← checked_chunk_point_count (zlen samples);
  let t0_ms := first_time samples in
  let dt_buf := encode_deltas t0_ms samples [] in
  match samples with
  | [] => fail InvalidInput "samples must be non-empty"
  | (_, first_value) :: rest =>
      codec ← SchemaVarLen.new al first_value;
      codec ← push_values codec rest.*2;
      let payload := le_bytes 8 t0_ms ++ dt_buf ++ SchemaVarLen.into_bytes codec in
      scalar_lane ← encode_typed_scalar_lane al t0_ms samples;
      append_chunk_payload_with_scalar_lane w kind EncSchemaVarLen flags series_ref (first_time samples) (last_time samples)
        num_points payload (Some scalar_lane)
  end.
Definition append_typed_chunk_ordered {T} `{SchemaVarLenEncoding T} `{TypedCounterValue T} (kind : ChunkKind) (w : ChunkWriter)
    (series_ref : Z) (samples : list (Z * T)) : appended :=
  append_schema_varlen_chunk_ordered w kind series_ref samples (typed_chunk_flags ((λ p, tc_metadata p.2) <$> samples)).
Definition append_histogram_chunk_ordered : ChunkWriter → Z → list (Z * HistogramValue) → appended :=
  append_typed_chunk_ordered KindHistogram.
Definition append_exponential_histogram_chunk_ordered : ChunkWriter → Z → list (Z * ExponentialHistogramValue) → appended :=
  append_typed_chunk_ordered KindExponentialHistogram.
Definition append_summary_chunk_ordered : ChunkWriter → Z → list (Z * SummaryValue) → appended :=
  append_typed_chunk_ordered KindSummary.

Definition append_float_chunk_ordered (w : ChunkWriter) (series_ref : Z) (samples : list (Z * Z)) : appended :=
  _ ← validate_ordered_samples samples;
  num_points ← checked_chunk_point_count (zlen samples);
  let t0_ms := first_time samples in
  let dt_buf := encode_deltas t0_ms samples [] in
  value_buf ← encode_gorilla_values samples.*2;
  append_chunk_payload_with_scalar_lane w KindFloat EncGorilla 0 series_ref t0_ms (last_time samples) num_points
    (le_bytes 8 t0_ms ++ dt_buf ++ value_buf) None.

Definition append_raw (kind : ChunkKind) (encoding : ChunkEncoding) (w : ChunkWriter) (series_ref : Z) (samples : list (Z * Z)) : appended :=
  _ ← validate_ordered_samples samples;
  num_points ← checked_chunk_point_count (zlen samples);
  let t0_ms := first_time samples in
  let payload := foldl (λ out p, encode_varint (saturating_sub p.1 t0_ms) out ++ le_bytes 8 p.2) (le_bytes 8 t0_ms) samples in
  append_chunk_payload_with_scalar_lane w kind encoding 0 series_ref t0_ms (last_time samples) num_points payload None.
Definition append_float_chunk_raw_ordered : ChunkWriter → Z → list (Z * Z) → appended := append_raw KindFloat EncRawF64.
Definition append_int_chunk_raw_ordered : ChunkWriter → Z → list (Z * Z) → appended := append_raw KindInt64 EncRawI64.

Definition append_int_chunk_ordered (w : ChunkWriter) (series_ref : Z) (samples : list (Z * Z)) : appended :=
  _ ← validate_ordered_samples samples;
  num_points ← checked_chunk_point_count (zlen samples);
  let t0_ms := first_time samples in
  let '(dt_buf, value_buf, _) :=
    foldl (λ '(dt_buf, value_buf, prev) p,
        (encode_varint (saturating_sub p.1 t0_ms) dt_buf,
         encode_varint (encode_zigzag_i64 (wrap_i64 (p.2 - prev))) value_buf, p.2)) ([], [], 0) samples in
  append_chunk_payload_with_scalar_lane w KindInt64 EncIntDeltaZigZag 0 series_ref t0_ms (last_time samples) num_points
    (le_bytes 8 t0_ms ++ dt_buf ++ value_buf) None.

(** The four appends that sort first, and those of one sample. *)
Definition sorting (append : ChunkWriter → Z → list (Z * Z) → appended) (w : ChunkWriter) (series_ref : Z)
    (samples : list (Z * Z)) : appended :=
  sorted ← samples_sorted_by_timestamp samples; append w series_ref sorted.
Definition append_float_chunk := sorting append_float_chunk_ordered.
Definition append_float_chunk_raw := sorting append_float_chunk_raw_ordered.
Definition append_int_chunk := sorting append_int_chunk_ordered.
Definition append_int_chunk_raw := sorting append_int_chunk_raw_ordered.
Definition append_float_sample (w : ChunkWriter) (series_ref timestamp_ms value : Z) : appended :=
  append_float_chunk w series_ref [(timestamp_ms, value)].
Definition append_float_sample_raw (w : ChunkWriter) (series_ref timestamp_ms value : Z) : appended :=
  append_float_chunk_raw w series_ref [(timestamp_ms, value)].
Definition append_int_sample (w : ChunkWriter) (series_ref timestamp_ms value : Z) : appended :=
  append_int_chunk w series_ref [(timestamp_ms, value)].
Definition append_int_sample_raw (w : ChunkWriter) (series_ref timestamp_ms value : Z) : appended :=
  append_int_chunk_raw w series_ref [(timestamp_ms, value)].
End writer.

(** ** What the encoders write *)

Lemma validate_ordered_spec {T} (samples : list (Z * T)) : validate_ordered_samples samples = Ok tt ↔ samples ≠ [] ∧ ordered samples.*1.
Proof.
  unfold validate_ordered_samples. destruct samples as [|p samples]; [naive_solver|]. set (l := p :: samples). assert (l ≠ []) as Hne by done.
  enough (existsb (λ p, p.2 <? p.1) (zip l.*1 (tail l.*1)) = false ↔ ordered l.*1) as Hex.
  { destruct (existsb _ _); [|naive_solver]. split; [done|]. intros [_ Ho%Hex]. done. }
  clearbody l. clear p samples Hne. unfold ordered. induction l as [|[t v] l IH]; [split; [constructor|done]|].
  destruct l as [|[t' v'] l]; [split; [repeat constructor|done]|]. cbn [fmap list_fmap fst tail zip zip_with existsb snd] in *. rewrite orb_false_iff.
  split.
  - intros [Hle%Z.ltb_ge Hs%IH]. constructor; [done|]. constructor; [done|]. apply StronglySorted_inv in Hs as [_ Hs].
    eapply Forall_impl; [exact Hs|]. cbn. lia.
  - intros [Hs Hall%Forall_cons_1]%StronglySorted_inv. split; [apply Z.ltb_ge; tauto|by apply IH].
Qed.

Lemma encode_deltas_out {T} t0_ms (samples : list (Z * T)) : ∀ out, Forall (λ t, t0_ms ≤ t) samples.*1 →
  encode_deltas t0_ms samples out = out ++ deltas_bytes t0_ms samples.*1.
Proof.
  unfold encode_deltas. induction samples as [|[t v] samples IH]; intros out Hts; [cbn; by rewrite app_nil_r|].
  cbn [fmap list_fmap fst] in *. apply Forall_cons_1 in Hts as [Ht Hts]. cbn [foldl fst]. rewrite IH, deltas_cons, encode_varint_out, <- app_assoc by done.
  unfold saturating_sub. by rewrite Z.max_r by lia.
Qed.
Lemma raw_out t0_ms (samples : list (Z * Z)) : ∀ out, Forall (λ t, t0_ms ≤ t) samples.*1 →
  foldl (λ out p, encode_varint (saturating_sub p.1 t0_ms) out ++ le_bytes 8 p.2) out samples = out ++ mjoin (raw_row t0_ms <$> samples).
Proof.
  induction samples as [|[t v] samples IH]; intros out Hts; [cbn; by rewrite app_nil_r|].
  cbn [fmap list_fmap fst] in *. apply Forall_cons_1 in Hts as [Ht Hts]. cbn [foldl fst snd]. rewrite IH, encode_varint_out by done.
  unfold saturating_sub. rewrite Z.max_r by lia. cbn [mjoin list_join]. unfold raw_row at 2. cbn [fst snd]. by rewrite <- !app_assoc.
Qed.
Lemma int_out t0_ms (samples : list (Z * Z)) : ∀ dt value prev, Forall (λ t, t0_ms ≤ t) samples.*1 → ∃ last_value,
  foldl (λ '(dt_buf, value_buf, prev) p,
    (encode_varint (saturating_sub p.1 t0_ms) dt_buf,
     encode_varint (encode_zigzag_i64 (wrap_i64 (p.2 - prev))) value_buf, p.2)) (dt, value, prev) samples =
  (dt ++ deltas_bytes t0_ms samples.*1, value ++ deltas prev samples.*2, last_value).
Proof.
  induction samples as [|[t v] samples IH]; intros dt value prev Hts; [exists prev; cbn; by rewrite !app_nil_r|].
  cbn [fmap list_fmap fst snd] in *. apply Forall_cons_1 in Hts as [Ht Hts]. cbn [foldl fst snd].
  destruct (IH (encode_varint (saturating_sub t t0_ms) dt) (encode_varint (encode_zigzag_i64 (wrap_i64 (v - prev))) value) v Hts) as [lv ->].
  exists lv. unfold saturating_sub. rewrite Z.max_r by lia. cbn [deltas]. rewrite deltas_cons, (encode_varint_out _ dt), (encode_varint_out _ value).
  unfold delta_bytes. by rewrite <- !app_assoc.
Qed.

Lemma scalar_lane_metadata_out m out : encode_scalar_lane_metadata m out = out ++ metadata_bytes m.
Proof. rewrite <- encode_typed_metadata_out. done. Qed.
Lemma scalar_lane_opt_f64_out v out : encode_scalar_lane_opt_f64 v out = out ++ opt_f64_bytes v.
Proof. by destruct v. Qed.
Lemma lane_rows_out {T} `{TypedCounterValue T} (samples : list (Z * T)) : ∀ out,
  foldl (λ body p, encode_scalar_lane_opt_f64 (tc_sum p.2) (encode_varint (tc_count p.2) (encode_scalar_lane_metadata (tc_metadata p.2) body))) out samples =
  out ++ mjoin (row_bytes <$> typed_rows samples).
Proof.
  induction samples as [|[t v] samples IH]; intros out; [cbn; by rewrite app_nil_r|]. cbn [foldl fst snd]. rewrite IH.
  rewrite scalar_lane_opt_f64_out, encode_varint_out, scalar_lane_metadata_out. cbn [typed_rows fmap list_fmap mjoin list_join].
  unfold row_bytes at 2. cbn [lr_metadata lr_count lr_sum fst snd]. by rewrite <- !app_assoc.
Qed.

Lemma bind_ext {E A B} (m : result E A) (f g : A → result E B) : (∀ a, f a = g a) → (m ≫= f) = (m ≫= g).
Proof. intros Hfg. destruct m; [apply Hfg|done]. Qed.
Lemma bind_assoc {E A B C} (m : result E A) (f : A → result E B) (g : B → result E C) : ((m ≫= f) ≫= g) = (m ≫= λ a, f a ≫= g).
Proof. by destruct m. Qed.

Section values.
Context {T : Type} `{HL : SchemaVarLenLaws T}.

Lemma new_push_values al v (vs : list T) : (codec ← SchemaVarLen.new al v; push_values al codec vs) = push_values al empty_codec (v :: vs).
Proof. cbn [push_values]. unfold SchemaVarLen.new, SchemaVarLen.push, empty_codec. by destruct (SchemaVarLen.encode_value al _ v) as [[[]|] c]. Qed.
Lemma push_values_inv al vs : ∀ c ws c', Forall pushable vs → codec_rep c ws → push_values al c vs = Ok c' → codec_rep c' (ws ++ vs).
Proof.
  induction vs as [|v vs IH]; intros c ws c' Hvs Hc Hp; cbn [push_values] in Hp.
  { injection Hp as <-. by rewrite app_nil_r. }
  apply Forall_cons_1 in Hvs as [Hv Hvs]. pose proof (push_spec al c ws v Hc Hv) as Hs.
  destruct (SchemaVarLen.push al c v) as [[[]|e] c1]; [|done]. change (v :: vs) with ([v] ++ vs). rewrite (app_assoc ws [v] vs).
  by eapply IH; [done|apply Hs|].
Qed.
Lemma push_values_pushes al vs : ∀ c c', pushes c ((λ v, (al, v)) <$> vs) = (vs, c') → push_values al c vs = Ok c'.
Proof.
  assert (∀ vs c c' acc, pushes c ((λ v, (al, v)) <$> vs) = (acc, c') → (length acc ≤ length vs)%nat) as Hlen.
  { clear vs. induction vs as [|v vs IH]; intros c c' acc Hp; cbn [fmap list_fmap pushes] in Hp; [by injection Hp as <- _|].
    destruct (SchemaVarLen.push al c v) as [[[]|e] c1].
    - destruct (pushes c1 _) as [acc' c2] eqn:Hp'. injection Hp as <- _. apply IH in Hp'. cbn. lia.
    - apply IH in Hp. cbn. lia. }
  induction vs as [|v vs IH]; intros c c' Hp; cbn [fmap list_fmap pushes push_values] in *; [by injection Hp as <-|].
  destruct (SchemaVarLen.push al c v) as [[[]|e] c1].
  - destruct (pushes c1 _) as [acc' c2] eqn:Hp'. injection Hp as -> ->. by apply IH.
  - apply Hlen in Hp. cbn in Hp. lia.
Qed.
Lemma into_bytes_spec c vs : codec_rep c vs → SchemaVarLen.into_bytes c = block_bytes vs.
Proof. apply snapshot_spec. Qed.
End values.

(** ** The appends *)

Lemma checked_u32_len_inv z field x : checked_u32_len z field = Ok x → x = z ∧ in_u32 z.
Proof. unfold checked_u32_len. destruct (try_u32 z) as [y|] eqn:Hy; [|done]. intros [= <-]. by apply try_u32_Some. Qed.
Lemma io_ok_inj {A} (x y : A) : (Ok x : io_result A) = Ok y → x = y.
Proof. congruence. Qed.
Lemma checked_u32_len_ok z field : in_u32 z → checked_u32_len z field = Ok z.
Proof. intros Hz. unfold checked_u32_len. by rewrite try_u32_fits. Qed.
Lemma ok_or_add_inv {E} (e : E) a b x : ok_or e (checked_add_u64 a b) = Ok x → x = a + b ∧ a + b ≤ u64_max.
Proof. destruct (checked_add_u64 a b) as [y|] eqn:Hy; [|done]. intros [= <-]. by apply checked_add_u64_Some in Hy. Qed.

(** What an append writes. *)
Inductive ChunkAppend :=
  | AppendGorilla (sorting : bool) (samples : list (Z * Z))
  | AppendRawFloats (sorting : bool) (samples : list (Z * Z))
  | AppendIntDeltas (sorting : bool) (samples : list (Z * Z))
  | AppendRawInts (sorting : bool) (samples : list (Z * Z))
  | AppendHistograms (samples : list (Z * HistogramValue))
  | AppendExponentialHistograms (samples : list (Z * ExponentialHistogramValue))
  | AppendSummaries (samples : list (Z * SummaryValue)).
Definition append_samples (op : ChunkAppend) : ChunkSamples :=
  let order (b : bool) (l : list (Z * Z)) := if b then sort_by_key fst l else l in
  match op with
  | AppendGorilla b l | AppendRawFloats b l => ChunkFloats (order b l)
  | AppendIntDeltas b l | AppendRawInts b l => ChunkInt64s (order b l)
  | AppendHistograms l => ChunkHistograms l
  | AppendExponentialHistograms l => ChunkExponentialHistograms l
  | AppendSummaries l => ChunkSummaries l
  end.
Definition append_encoding (op : ChunkAppend) : ChunkEncoding :=
  match op with
  | AppendGorilla _ _ => EncGorilla
  | AppendRawFloats _ _ => EncRawF64
  | AppendIntDeltas _ _ => EncIntDeltaZigZag
  | AppendRawInts _ _ => EncRawI64
  | _ => EncSchemaVarLen
  end.
(** What a call meets: the allocator's answers and the device. *)
Record append_env := mk_env { env_allocator : allocator; env_fault : write_fault }.
Definition calm_env : append_env := mk_env alloc_ok None.

Definition run_append `{Crc32c} (env : append_env) (w : ChunkWriter) (series_ref : Z) (op : ChunkAppend) : appended :=
  let '(mk_env al fault) := env in
  match op with
  | AppendGorilla true l => append_float_chunk al fault w series_ref l
  | AppendGorilla false l => append_float_chunk_ordered al fault w series_ref l
  | AppendRawFloats true l => append_float_chunk_raw al fault w series_ref l
  | AppendRawFloats false l => append_float_chunk_raw_ordered al fault w series_ref l
  | AppendIntDeltas true l => append_int_chunk al fault w series_ref l
  | AppendIntDeltas false l => append_int_chunk_ordered al fault w series_ref l
  | AppendRawInts true l => append_int_chunk_raw al fault w series_ref l
  | AppendRawInts false l => append_int_chunk_raw_ordered al fault w series_ref l
  | AppendHistograms l => append_histogram_chunk_ordered al fault w series_ref l
  | AppendExponentialHistograms l => append_exponential_histogram_chunk_ordered al fault w series_ref l
  | AppendSummaries l => append_summary_chunk_ordered al fault w series_ref l
  end.

Lemma write_parts_spec fault parts : ∀ file, write_parts fault file parts =
  match fault with
  | Some (n, e) => if (n <? length (mjoin parts))%nat then (Err e, file ++ take n (mjoin parts)) else (Ok tt, file ++ mjoin parts)
  | None => (Ok tt, file ++ mjoin parts)
  end.
Proof.
  revert fault. induction parts as [|part parts IH]; intros [[n e]|] file; cbn [write_parts].
  - by rewrite app_nil_r.
  - by rewrite app_nil_r.
  - change (mjoin (part :: parts)) with (part ++ mjoin parts). rewrite length_app. destruct (Nat.ltb_spec n (length part)) as [Hn|Hn].
    + rewrite (proj2 (Nat.ltb_lt n (length part + length (mjoin parts)))) by lia. by rewrite take_app_le by lia.
    + rewrite IH. destruct (Nat.ltb_spec (n - length part) (length (mjoin parts))).
      * rewrite (proj2 (Nat.ltb_lt n (length part + length (mjoin parts)))) by lia. by rewrite take_app_ge, <- app_assoc by lia.
      * rewrite (proj2 (Nat.ltb_ge n (length part + length (mjoin parts)))) by lia. by rewrite <- app_assoc.
  - change (mjoin (part :: parts)) with (part ++ mjoin parts). by rewrite IH, <- app_assoc.
Qed.

Section appends.
Context `{HC : Crc32c} `{!Crc32cLaws}.

Definition frame_image (record : list Z) : list Z :=
  le_bytes 4 (FRAME_HEADER_LEN + zlen record) ++ le_bytes 4 (crc32c record) ++ le_bytes 2 0 ++ le_bytes 4 1 ++ record.
Definition chunk_lane_of (s : ChunkSamples) : list Z :=
  if typed_kind (chunk_kind_of s) then lane_bytes (min_time s) (sample_rows s) else [].
Definition entry_of (w : ChunkWriter) (s : ChunkSamples) (record : list Z) : ChunkIndexEntry :=
  mk_chunk_entry (cw_file_id w) (chunk_kind_of s) (chunk_flags s) (min_time s) (max_time s) (cw_offset w + FRAME_HEADER_LEN) (zlen record)
    (if zlen (chunk_lane_of s) =? 0 then 0 else CHUNK_HEADER_LEN) (zlen (chunk_lane_of s)).
Definition after_append (w : ChunkWriter) (record : list Z) : ChunkWriter :=
  mk_chunk_writer (cw_file w ++ frame_image record) (cw_offset w + zlen (frame_image record)) (cw_file_id w).
(** What the writes of a record's frame answer and leave. *)
Definition outcome (fault : write_fault) (w : ChunkWriter) (entry : ChunkIndexEntry) (record : list Z) : io_result ChunkIndexEntry * ChunkWriter :=
  match fault with
  | Some (n, e) =>
      if (n <? length (frame_image record))%nat then
        (Err e, mk_chunk_writer (cw_file w ++ take n (frame_image record)) (cw_offset w) (cw_file_id w))
      else (Ok entry, after_append w record)
  | None => (Ok entry, after_append w record)
  end.
Definition append_fits (w : ChunkWriter) (record : list Z) : Prop :=
  FRAME_HEADER_LEN + zlen record ≤ u32_max ∧ cw_offset w + zlen (frame_image record) ≤ u64_max.

Lemma zlen_frame_image record : zlen (frame_image record) = FRAME_HEADER_LEN + zlen record.
Proof. unfold frame_image. autorewrite with zlen. unfold FRAME_HEADER_LEN. lia. Qed.

(** Every append ends in the same frame. *)
Section frame.
Context (al : allocator) (fault : write_fault) (w : ChunkWriter) (kind : ChunkKind) (e : ChunkEncoding) (flags series_ref min_ms max_ms n : Z) (payload lane : list Z).
Abbreviation header := (mk_header kind e flags series_ref min_ms max_ms n (CHUNK_HEADER_LEN + zlen lane) (zlen payload) (crc32c payload)).
Abbreviation record := (chunk_header_bytes header ++ lane ++ payload).
Abbreviation run := (append_chunk_frame al fault w kind e flags series_ref min_ms max_ms n payload lane).
Abbreviation entry := (mk_chunk_entry (cw_file_id w) kind flags min_ms max_ms (cw_offset w + FRAME_HEADER_LEN) (zlen record)
     (if zlen lane =? 0 then 0 else CHUNK_HEADER_LEN) (zlen lane)).

Lemma zlen_parts : zlen record = CHUNK_HEADER_LEN + zlen lane + zlen payload.
Proof. rewrite !zlen_app, zlen_header. unfold CHUNK_HEADER_LEN. lia. Qed.
Lemma append_frame_result chunk_length new_offset : chunk_length = zlen record → new_offset = cw_offset w + (FRAME_HEADER_LEN + zlen record) →
  (let '(written, file) := write_parts fault (cw_file w) [le_bytes 4 (FRAME_HEADER_LEN + zlen record) ++ le_bytes 4 (crc32c record) ++ le_bytes 2 0
     ++ le_bytes 4 1; chunk_header_bytes header; lane; payload] in
   Ok (E:=io_error) match written with
   | Err e => (Err e, mk_chunk_writer file (cw_offset w) (cw_file_id w))
   | Ok _ =>
       (Ok (mk_chunk_entry (cw_file_id w) kind flags min_ms max_ms (cw_offset w + FRAME_HEADER_LEN) chunk_length
         (if zlen lane =? 0 then 0 else CHUNK_HEADER_LEN) (zlen lane)),
        mk_chunk_writer file new_offset (cw_file_id w))
   end) = Ok (outcome fault w entry record).
Proof.
  intros -> ->. rewrite write_parts_spec. cbn [mjoin list_join]. rewrite app_nil_r.
  assert (∀ a b : list Z, (le_bytes 4 (FRAME_HEADER_LEN + zlen record) ++ le_bytes 4 (crc32c record) ++ le_bytes 2 0 ++ le_bytes 4 1) ++ record =
    frame_image record) as Hf by (intros _ _; unfold frame_image; by rewrite <- !app_assoc).
  rewrite (Hf [] []). unfold outcome, after_append. rewrite zlen_frame_image. destruct fault as [[m e']|]; [|done].
  by destruct (m <? length (frame_image record))%nat.
Qed.

Lemma append_frame_inv r : run = Ok r → append_fits w record ∧ CHUNK_HEADER_LEN + zlen lane ≤ u32_max ∧ zlen payload ≤ u32_max ∧
  r = outcome fault w entry record.
Proof.
  intros Hd. unfold append_chunk_frame in Hd.
  apply bind_ok in Hd as (? & [-> Hpu]%checked_u32_len_inv & Hd). apply bind_ok in Hd as (? & [-> Hlu]%checked_u32_len_inv & Hd).
  apply bind_ok in Hd as (? & [-> _]%ok_or_add_inv & Hd). apply bind_ok in Hd as (? & [-> Hhu]%checked_u32_len_inv & Hd).
  apply bind_ok in Hd as (? & [-> _]%checked_u32_len_inv & Hd).
  apply bind_ok in Hd as (? & _ & Hd). apply bind_ok in Hd as (? & _ & Hd).
  apply bind_ok in Hd as (? & [-> _]%ok_or_add_inv & Hd). apply bind_ok in Hd as (? & [-> Hfu]%checked_u32_len_inv & Hd).
  apply bind_ok in Hd as (? & [-> _]%ok_or_add_inv & Hd). apply bind_ok in Hd as (? & [-> _]%ok_or_add_inv & Hd).
  apply bind_ok in Hd as (? & [-> _]%checked_u32_len_inv & Hd). apply bind_ok in Hd as (? & [-> Hoff']%ok_or_add_inv & Hd).
  unfold append_fits, in_u32 in *. rewrite zlen_frame_image. split_and!; [lia|lia|lia|lia|].
  apply io_ok_inj. rewrite <- Hd. apply append_frame_result; [by rewrite zlen_parts|done].
Qed.

Lemma append_frame_ok : grants al → 0 ≤ cw_offset w → append_fits w record → run = Ok (outcome fault w entry record).
Proof.
  intros Hal Hoff [Hf Ho]. rewrite zlen_frame_image in Ho. pose proof zlen_parts as Hz. pose proof (zlen_nonneg lane). pose proof (zlen_nonneg payload).
  assert (∀ z field, 0 ≤ z → z ≤ u32_max → checked_u32_len z field = Ok z) as Hlen by (intros; apply checked_u32_len_ok; split; done).
  assert (∀ E (e' : E) a b, a + b ≤ u64_max → ok_or e' (checked_add_u64 a b) = Ok (a + b)) as Hadd by (intros; by rewrite checked_add_u64_fits).
  assert (0 ≤ CHUNK_HEADER_LEN) by done. assert (0 ≤ FRAME_HEADER_LEN) by done. unfold append_chunk_frame.
  do 2 (apply bind_ok; eexists; split; [apply Hlen; lia|]). apply bind_ok; eexists; split; [apply Hadd; lia|].
  do 2 (apply bind_ok; eexists; split; [apply Hlen; lia|]). apply bind_ok; eexists; split.
  { rewrite zlen_header, checked_add_u64_fits by (unfold CHUNK_HEADER_LEN in *; lia). apply Hadd. unfold CHUNK_HEADER_LEN in *. lia. }
  apply bind_ok; exists tt; split; [unfold try_reserve; by rewrite Hal|]. apply bind_ok; eexists; split; [apply Hadd; lia|].
  apply bind_ok; eexists; split; [apply Hlen; lia|]. do 2 (apply bind_ok; eexists; split; [apply Hadd; lia|]).
  apply bind_ok; eexists; split; [apply Hlen; lia|]. apply bind_ok; eexists; split; [apply Hadd; lia|].
  apply append_frame_result; [by rewrite zlen_parts|done].
Qed.
End frame.

Lemma append_payload_spec al fault w e series_ref s values scalar_lane r : 0 ≤ cw_offset w → default [] scalar_lane = chunk_lane_of s →
  append_chunk_payload_with_scalar_lane al fault w (chunk_kind_of s) e (chunk_flags s) series_ref (min_time s) (max_time s)
    (zlen (sample_timestamps s)) (chunk_payload s values) scalar_lane = r →
  let record := record_image e series_ref s (chunk_lane_of s) values in
  (∀ a, r = Ok a → append_fits w record ∧ CHUNK_HEADER_LEN + zlen (chunk_lane_of s) ≤ u32_max ∧ zlen (chunk_payload s values) ≤ u32_max ∧
    a = outcome fault w (entry_of w s record) record) ∧
  (grants al → append_fits w record → r = Ok (outcome fault w (entry_of w s record) record)).
Proof.
  intros Hoff Hlane <- record. unfold append_chunk_payload_with_scalar_lane. rewrite Hlane.
  split; [intros a; apply append_frame_inv|intros Hal Hf; by apply append_frame_ok].
Qed.

(** Machine integers, and typed values whose shapes fit a vector. *)
Definition samples_repr (s : ChunkSamples) : Prop :=
  Forall in_u64 (sample_timestamps s) ∧
  match s with
  | ChunkFloats l => Forall in_u64 l.*2
  | ChunkInt64s l => Forall in_i64 l.*2
  | ChunkHistograms l => Forall pushable l.*2
  | ChunkExponentialHistograms l => Forall pushable l.*2
  | ChunkSummaries l => Forall pushable l.*2
  end.
(** [r] is the append of [s]: it answers what a record that reads back needs, and
    such a record when it fits and memory is granted. *)
Definition appends_record (al : allocator) (fault : write_fault) (w : ChunkWriter) (e : ChunkEncoding) (series_ref : Z) (s : ChunkSamples) (r : appended) : Prop :=
  let record values := record_image e series_ref s (chunk_lane_of s) values in
  (∀ a, r = Ok a → ∃ values, chunk_ok e series_ref s (chunk_lane_of s) values ∧ append_fits w (record values) ∧
    a = outcome fault w (entry_of w s (record values)) (record values)) ∧
  (∀ values, grants al → chunk_ok e series_ref s (chunk_lane_of s) values → append_fits w (record values) →
    r = Ok (outcome fault w (entry_of w s (record values)) (record values))).

Section ordered.
Context (al : allocator) (fault : write_fault) (w : ChunkWriter) (e : ChunkEncoding) (series_ref : Z) (s : ChunkSamples).
Context (Hoff : 0 ≤ cw_offset w) (Href : in_u32 series_ref) (Hrepr : samples_repr s).
Abbreviation append_values values lane := (append_chunk_payload_with_scalar_lane al fault w (chunk_kind_of s) e (chunk_flags s) series_ref
  (min_time s) (max_time s) (zlen (sample_timestamps s)) (chunk_payload s values) lane).

Lemma append_ordered_spec {T} (samples : list (Z * T)) (body : Z → appended) : sample_timestamps s = samples.*1 →
  (∀ a, samples ≠ [] → ordered samples.*1 → zlen samples ≤ u32_max → body (zlen samples) = Ok a →
    samples_ok s ∧ ∃ values lane, values_bytes e (min_time s) s = Some values ∧ default [] lane = chunk_lane_of s ∧ append_values values lane = Ok a) →
  (∀ values, grants al → chunk_ok e series_ref s (chunk_lane_of s) values → ∃ lane, default [] lane = chunk_lane_of s ∧ body (zlen samples) = append_values values lane) →
  appends_record al fault w e series_ref s (_ ← validate_ordered_samples samples; n ← checked_chunk_point_count (zlen samples); body n).
Proof.
  intros Hts Hinv Hok. assert (zlen (sample_timestamps s) = zlen samples) as Hz by (by rewrite Hts, fmap_fst_len). split.
  - intros a Hd. apply bind_ok in Hd as ([] & [Hne Hord]%validate_ordered_spec & Hd). apply bind_ok in Hd as (n & [-> [_ Hn]]%checked_u32_len_inv & Hd).
    destruct (Hinv a Hne Hord Hn Hd) as (Hsok & values & lane & Hv & Hlane & Happ).
    destruct (append_payload_spec al fault w e series_ref s values lane _ Hoff Hlane eq_refl) as [Ha _]. destruct (Ha _ Happ) as (Hfits & Hh & Hp & ->).
    exists values. split_and!; [split_and!|done|done]; try done; rewrite ?Hz, ?Hts; try done; [by destruct samples|by rewrite <- Hts; apply Hrepr|].
    unfold has_lane, chunk_lane_of. destruct (typed_kind (chunk_kind_of s)); [by right|by left].
  - intros values Hal Hc Hfits. destruct (Hok values Hal Hc) as (lane & Hlane & Hbody). pose proof Hc as (_ & Hne & Hn & Hord & _).
    apply bind_ok. exists tt. split.
    { apply validate_ordered_spec. rewrite Hts in Hne, Hord. split; [|done]. by destruct samples. }
    apply bind_ok. exists (zlen samples). split; [apply checked_u32_len_ok; rewrite <- Hz; split; [apply zlen_nonneg|done]|]. rewrite Hbody.
    by apply (append_payload_spec al fault w e series_ref s values lane _ Hoff Hlane eq_refl).
Qed.
End ordered.

Lemma first_time_min {T} (l : list (Z * T)) : first_time l = default 0 (head l.*1).
Proof. by destruct l. Qed.
Lemma last_time_max {T} (l : list (Z * T)) : last_time l = default 0 (last l.*1).
Proof. unfold last_time. by rewrite fmap_last. Qed.
Lemma ordered_min {T} (l : list (Z * T)) : ordered l.*1 → Forall (λ t, first_time l ≤ t) l.*1.
Proof.
  intros Hord. destruct l as [|[t v] l]; [by apply Forall_nil|]. cbn [fmap list_fmap fst] in *. constructor; [done|]. by apply StronglySorted_inv in Hord as [_ Hs].
Qed.

Section each.
Context (al : allocator) (fault : write_fault) (w : ChunkWriter) (series_ref : Z) (Hoff : 0 ≤ cw_offset w) (Href : in_u32 series_ref).

Lemma append_raw_spec s e samples : (s, e) = (ChunkFloats samples, EncRawF64) ∨ (s, e) = (ChunkInt64s samples, EncRawI64) → samples_repr s →
  appends_record al fault w e series_ref s (append_raw al fault (chunk_kind_of s) e w series_ref samples).
Proof.
  intros Hs Hrepr. assert (sample_timestamps s = samples.*1 ∧ chunk_flags s = 0 ∧ chunk_lane_of s = [] ∧ samples_ok s ∧
    values_bytes e (min_time s) s = Some (mjoin (raw_row (min_time s) <$> samples))) as (Hts & Hfl & Hlane & Hok & Hv).
  { destruct Hrepr as [_ Hr]. by destruct Hs as [[= -> ->]|[= -> ->]]. }
  assert (min_time s = first_time samples ∧ max_time s = last_time samples) as [Hmin Hmax].
  { unfold min_time, max_time. by rewrite first_time_min, last_time_max, Hts. }
  unfold append_raw. cbv zeta. apply (append_ordered_spec al fault w e series_ref s Hoff Href Hrepr samples (λ num_points, append_chunk_payload_with_scalar_lane al fault w _ _ _ _ _ _ num_points _ None)); [done| |].
  - intros a Hne Hord Hn Ha. split; [done|]. exists (mjoin (raw_row (min_time s) <$> samples)), None. split_and!; [done|done|].
    rewrite raw_out in Ha by (by apply ordered_min). unfold chunk_payload. rewrite Hfl, Hmin, Hmax, Hts, fmap_fst_len. exact Ha.
  - intros values Hal Hc. destruct Hc as (_ & _ & _ & Hord & _ & _ & Hval & _). exists None. split; [done|]. rewrite Hv in Hval. injection Hval as <-.
    rewrite Hts in Hord. rewrite raw_out by (by apply ordered_min). unfold chunk_payload. by rewrite Hfl, Hmin, Hmax, Hts, fmap_fst_len.
Qed.

Lemma append_float_spec samples : samples_repr (ChunkFloats samples) →
  appends_record al fault w EncGorilla series_ref (ChunkFloats samples) (append_float_chunk_ordered al fault w series_ref samples).
Proof.
  intros Hrepr. set (s := ChunkFloats samples). assert (min_time s = first_time samples ∧ max_time s = last_time samples) as [Hmin Hmax].
  { unfold min_time, max_time. by rewrite first_time_min, last_time_max. }
  unfold append_float_chunk_ordered. cbv zeta. apply (append_ordered_spec al fault w EncGorilla series_ref s Hoff Href Hrepr samples
    (λ num_points, value_buf ← encode_gorilla_values samples.*2; append_chunk_payload_with_scalar_lane al fault w _ _ _ _ _ _ num_points _ None)); [done| |].
  - intros a Hne Hord Hn Ha. split; [apply Hrepr|]. apply bind_ok in Ha as (b & Hb & Ha). exists (deltas_bytes (min_time s) samples.*1 ++ b), None.
    split_and!; [by cbn [values_bytes s]; rewrite Hb|done|]. rewrite encode_deltas_out in Ha by (by apply ordered_min). unfold chunk_payload.
    rewrite Hmin, Hmax. cbn [sample_timestamps s]. rewrite fmap_fst_len. exact Ha.
  - intros values Hal Hc. destruct Hc as (_ & _ & _ & Hord & _ & _ & Hval & _). exists None. split; [done|]. cbn [values_bytes s] in Hval.
    destruct (encode_gorilla_values samples.*2) as [b|]; [|done]. injection Hval as <-. cbn [mbind result_bind].
    rewrite encode_deltas_out by (by apply ordered_min). unfold chunk_payload. rewrite Hmin, Hmax. cbn [sample_timestamps s]. by rewrite fmap_fst_len.
Qed.

Lemma append_int_spec samples : samples_repr (ChunkInt64s samples) →
  appends_record al fault w EncIntDeltaZigZag series_ref (ChunkInt64s samples) (append_int_chunk_ordered al fault w series_ref samples).
Proof.
  intros Hrepr. set (s := ChunkInt64s samples). assert (min_time s = first_time samples ∧ max_time s = last_time samples) as [Hmin Hmax].
  { unfold min_time, max_time. by rewrite first_time_min, last_time_max. }
  unfold append_int_chunk_ordered. cbv zeta. destruct (foldl _ ([], [], 0) samples) as [[dt_buf value_buf] lv] eqn:Hfold.
  assert (ordered samples.*1 → dt_buf = deltas_bytes (first_time samples) samples.*1 ∧ value_buf = deltas 0 samples.*2) as Hout.
  { intros Hord. destruct (int_out (first_time samples) samples [] [] 0 (ordered_min _ Hord)) as [lv' Hlv]. rewrite Hlv in Hfold. by injection Hfold as <- <- _. }
  apply (append_ordered_spec al fault w EncIntDeltaZigZag series_ref s Hoff Href Hrepr samples
    (λ num_points, append_chunk_payload_with_scalar_lane al fault w _ _ _ _ _ _ num_points _ None)); [done| |].
  - intros a Hne Hord Hn Ha. split; [apply Hrepr|]. exists (deltas_bytes (min_time s) samples.*1 ++ deltas 0 samples.*2), None.
    split_and!; [done|done|]. destruct (Hout Hord) as [-> ->]. unfold chunk_payload. rewrite Hmin, Hmax. cbn [sample_timestamps s]. rewrite fmap_fst_len. exact Ha.
  - intros values Hal Hc. destruct Hc as (_ & _ & _ & Hord & _ & _ & Hval & _). exists None. split; [done|]. injection Hval as <-.
    destruct (Hout Hord) as [-> ->]. unfold chunk_payload. rewrite Hmin, Hmax. cbn [sample_timestamps s]. by rewrite fmap_fst_len.
Qed.

Section typed.
Context {T : Type} `{HV : ChunkValue T} (mk : list (Z * T) → ChunkSamples).
Context (mk_flags' : ∀ l, chunk_flags (mk l) = typed_chunk_flags (lr_metadata <$> typed_rows l)).
Context (mk_rows : ∀ l, sample_rows (mk l) = typed_rows l) (mk_times : ∀ l, sample_timestamps (mk l) = l.*1).
Context (mk_values : ∀ l t0_ms, values_bytes EncSchemaVarLen t0_ms (mk l) = Some (typed_payload t0_ms l)).
Context (mk_typed : ∀ l, typed_kind (chunk_kind_of (mk l)) = true) (mk_ok : ∀ l, samples_ok (mk l) ↔ Forall (λ v, sv_ok v) l.*2).
Context (mk_repr : ∀ l, samples_repr (mk l) → Forall pushable l.*2).

Lemma encode_lane_spec samples lane : ordered samples.*1 →
  encode_typed_scalar_lane al (first_time samples) samples = Ok lane → lane = lane_bytes (first_time samples) (typed_rows samples).
Proof.
  intros Hord Hd. unfold encode_typed_scalar_lane in Hd. rewrite encode_deltas_out in Hd by (by apply ordered_min). rewrite lane_rows_out in Hd.
  unfold lane_bytes, lane_body. rewrite typed_rows_times. rewrite <- app_assoc in Hd. set (body := le_bytes 8 _ ++ _) in *. cbv zeta in Hd.
  apply bind_ok in Hd as (? & ->%ok_or_u32_inv & Hd). apply bind_ok in Hd as (? & _ & Hd). apply bind_ok in Hd as (? & _ & Hd).
  by apply io_ok_inj in Hd as <-.
Qed.
Lemma encode_lane_ok samples : ordered samples.*1 → grants al → zlen (lane_bytes (first_time samples) (typed_rows samples)) ≤ u32_max →
  encode_typed_scalar_lane al (first_time samples) samples = Ok (lane_bytes (first_time samples) (typed_rows samples)).
Proof.
  intros Hord Hal Hlen. change (lane_bytes ?t ?r) with (lane_frame (lane_body t r)) in Hlen. rewrite zlen_lane_frame in Hlen.
  unfold encode_typed_scalar_lane. rewrite encode_deltas_out by (by apply ordered_min). rewrite lane_rows_out.
  unfold lane_bytes, lane_body in *. rewrite typed_rows_times in *. rewrite <- app_assoc. set (body := le_bytes 8 _ ++ _) in *. cbv zeta.
  pose proof (zlen_nonneg body). apply bind_ok. exists (zlen body). split; [rewrite try_u32_fits; [done|unfold in_u32; lia]|].
  apply bind_ok. eexists. split; [rewrite checked_add_u64_fits; [done|unfold TYPED_SCALAR_LANE_HEADER_LEN; lia]|].
  apply bind_ok. exists tt. split; [unfold try_reserve; by rewrite Hal|done].
Qed.

Lemma append_varlen_steps kind samples flags : samples ≠ [] →
  append_schema_varlen_chunk_ordered al fault w kind series_ref samples flags =
    (_ ← validate_ordered_samples samples; num_points ← checked_chunk_point_count (zlen samples);
     codec ← push_values al empty_codec samples.*2; scalar_lane ← encode_typed_scalar_lane al (first_time samples) samples;
     append_chunk_payload_with_scalar_lane al fault w kind EncSchemaVarLen flags series_ref (first_time samples) (last_time samples) num_points
       (le_bytes 8 (first_time samples) ++ encode_deltas (first_time samples) samples [] ++ SchemaVarLen.into_bytes codec) (Some scalar_lane)).
Proof.
  intros Hne. destruct samples as [|[t v] rest]; [done|]. unfold append_schema_varlen_chunk_ordered. apply bind_ext. intros _. apply bind_ext. intros n.
  change (((t, v) :: rest).*2) with (v :: rest.*2). rewrite <- new_push_values. symmetry. apply bind_assoc.
Qed.

Lemma append_typed_spec samples : samples_repr (mk samples) →
  appends_record al fault w EncSchemaVarLen series_ref (mk samples) (append_typed_chunk_ordered al fault (chunk_kind_of (mk samples)) w series_ref samples).
Proof.
  intros Hrepr. destruct (decide (samples = [])) as [->|Hne].
  { split; [done|]. intros values _ (_ & Hne & _). by rewrite mk_times in Hne. }
  set (s := mk samples) in *. assert (min_time s = first_time samples ∧ max_time s = last_time samples) as [Hmin Hmax].
  { unfold min_time, max_time, s. by rewrite mk_times, first_time_min, last_time_max. }
  assert (chunk_lane_of s = lane_bytes (first_time samples) (typed_rows samples)) as Hlane by (unfold chunk_lane_of, s; rewrite mk_typed, mk_rows; fold s; by rewrite Hmin).
  unfold append_typed_chunk_ordered. rewrite append_varlen_steps by done.
  assert (typed_chunk_flags ((λ p, tc_metadata p.2) <$> samples) = chunk_flags s) as -> by (unfold s; by rewrite mk_flags', typed_rows_metadata).
  apply (append_ordered_spec al fault w EncSchemaVarLen series_ref s Hoff Href Hrepr samples
    (λ num_points, codec ← push_values al empty_codec samples.*2; scalar_lane ← encode_typed_scalar_lane al (first_time samples) samples;
       append_chunk_payload_with_scalar_lane al fault w _ _ _ _ _ _ num_points _ _)); [apply mk_times| |].
  - intros a _ Hord Hn Ha. apply bind_ok in Ha as (codec & Hpush & Ha). apply bind_ok in Ha as (lane & ->%encode_lane_spec & Ha); [|done].
    apply (push_values_inv _ _ _ []) in Hpush; [|by apply mk_repr|apply codec_rep_empty]. cbn [app] in Hpush. rewrite (into_bytes_spec _ _ Hpush) in Ha.
    split; [apply mk_ok; destruct Hpush as [Hp _]; eapply Forall_impl; [exact Hp|]; by intros ? []|].
    exists (typed_payload (min_time s) samples), (Some (chunk_lane_of s)). split_and!; [apply mk_values|done|]. rewrite encode_deltas_out in Ha by (by apply ordered_min).
    unfold chunk_payload, typed_payload. rewrite Hlane, Hmin, Hmax. unfold s. rewrite mk_times, fmap_fst_len. exact Ha.
  - intros values Hal (_ & _ & Hn & Hord & _ & Hsok & Hval & _ & Hlen & Hpay). exists (Some (chunk_lane_of s)). split; [done|].
    unfold s in Hval, Hsok, Hord, Hn. rewrite mk_values in Hval. injection Hval as <-. rewrite mk_times in Hord, Hn. rewrite fmap_fst_len in Hn. apply mk_ok in Hsok.
    destruct (pushes_all al samples.*2 empty_codec []) as (codec & Hpush & Hrep); [done|apply codec_rep_empty|by rewrite zlen_nil, fmap_snd_len| |].
    { apply block_fits; [done|by rewrite fmap_snd_len|]. unfold chunk_payload, typed_payload in Hpay. rewrite !zlen_app in Hpay.
      pose proof (zlen_nonneg (le_bytes 8 (min_time s))). pose proof (zlen_nonneg (deltas_bytes (min_time (mk samples)) samples.*1)). lia. }
    rewrite (push_values_pushes _ _ _ _ Hpush). cbn [mbind result_bind]. rewrite encode_lane_ok; [|done|done|rewrite <- Hlane; unfold CHUNK_HEADER_LEN in Hlen; lia].
    cbn [mbind result_bind]. rewrite (into_bytes_spec _ _ Hrep), encode_deltas_out by (by apply ordered_min). rewrite Hlane.
    unfold chunk_payload, typed_payload. fold s. rewrite Hmin, Hmax. unfold s. by rewrite mk_times, fmap_fst_len.
Qed.
End typed.
End each.

Lemma sorting_sorts (append : ChunkWriter → Z → list (Z * Z) → appended) w series_ref samples :
  append w series_ref [] = fail InvalidInput "samples must be non-empty" →
  sorting append w series_ref samples = append w series_ref (sort_by_key fst samples).
Proof. intros Hnil. destruct samples; [symmetry; exact Hnil|done]. Qed.

Lemma run_append_spec env w series_ref op : 0 ≤ cw_offset w → in_u32 series_ref → samples_repr (append_samples op) →
  appends_record (env_allocator env) (env_fault env) w (append_encoding op) series_ref (append_samples op) (run_append env w series_ref op).
Proof.
  intros Hoff Href Hrepr. destruct env as [al fault].
  destruct op as [[]|[]|[]|[]| | |]; cbn [run_append append_encoding append_samples] in *;
    unfold append_float_chunk, append_float_chunk_raw, append_int_chunk, append_int_chunk_raw, append_float_chunk_raw_ordered, append_int_chunk_raw_ordered;
    try (rewrite sorting_sorts by done).
  - by apply append_float_spec.
  - by apply append_float_spec.
  - apply (append_raw_spec al fault w series_ref Hoff Href (ChunkFloats _)); [by left|done].
  - apply (append_raw_spec al fault w series_ref Hoff Href (ChunkFloats _)); [by left|done].
  - by apply append_int_spec.
  - by apply append_int_spec.
  - apply (append_raw_spec al fault w series_ref Hoff Href (ChunkInt64s _)); [by right|done].
  - apply (append_raw_spec al fault w series_ref Hoff Href (ChunkInt64s _)); [by right|done].
  - apply (append_typed_spec al fault w series_ref Hoff Href ChunkHistograms); try done. by intros l [].
  - apply (append_typed_spec al fault w series_ref Hoff Href ChunkExponentialHistograms); try done. by intros l [].
  - apply (append_typed_spec al fault w series_ref Hoff Href ChunkSummaries); try done. by intros l [].
Qed.

(** A file of frames, appended to by a sequence of calls that may fail. *)
Definition writer_ok (w : ChunkWriter) : Prop := cw_offset w = zlen (cw_file w).
Fixpoint run_appends (w : ChunkWriter) (ops : list (append_env * Z * ChunkAppend)) : list (Z * ChunkAppend * ChunkIndexEntry) * ChunkWriter :=
  match ops with
  | [] => ([], w)
  | (env, series_ref, op) :: ops =>
      match run_append env w series_ref op with
      | Ok (Ok entry, w) => let '(entries, w) := run_appends w ops in ((series_ref, op, entry) :: entries, w)
      | Ok (Err _, w) => run_appends w ops
      | Err _ => run_appends w ops
      end
  end.
Definition append_ok (o : append_env * Z * ChunkAppend) : Prop := in_u32 o.1.2 ∧ samples_repr (append_samples o.2).
(** A device that does not fail in the middle of a frame: no frame is torn. *)
Definition no_torn_frame (o : append_env * Z * ChunkAppend) : Prop := ∀ n e, env_fault o.1.1 = Some (n, e) → n = 0%nat.
(** The call handed out an entry. *)
Definition gives_entry (a : appended) : bool := match a with Ok (Ok _, _) => true | _ => false end.
(** What [entry] points at in [file]. *)
Definition entry_bytes (file : list Z) (entry : ChunkIndexEntry) : list Z := slice file (ce_offset entry) (ce_offset entry + ce_length entry).

(** The chunk of an entry reads back from the file. *)
Definition entry_reads (al : allocator) (file : list Z) (a : Z * ChunkAppend * ChunkIndexEntry) : Prop :=
  let '(series_ref, op, entry) := a in
  decode_chunk_record al (entry_bytes file entry) = Ok (record_of series_ref (append_samples op)) ∧
  ce_kind entry = chunk_kind_of (append_samples op) ∧ ce_min_time_ms entry = min_time (append_samples op) ∧ ce_max_time_ms entry = max_time (append_samples op) ∧
  slice (entry_bytes file entry) CHUNK_HEADER_LEN (CHUNK_HEADER_LEN + ce_scalar_lane_len entry) = chunk_lane_of (append_samples op).

(** What a call that reached its writes left. *)
Lemma run_append_outcome env w series_ref op a : 0 ≤ cw_offset w → in_u32 series_ref → samples_repr (append_samples op) →
  run_append env w series_ref op = Ok a → ∃ values, let s := append_samples op in
  let record := record_image (append_encoding op) series_ref s (chunk_lane_of s) values in
  chunk_ok (append_encoding op) series_ref s (chunk_lane_of s) values ∧ append_fits w record ∧ a = outcome (env_fault env) w (entry_of w s record) record.
Proof. intros Hoff Href Hrepr Hrun. by apply (proj1 (run_append_spec env w series_ref op Hoff Href Hrepr)). Qed.
Lemma outcome_ok fault w entry record entry' w' : outcome fault w entry record = (Ok entry', w') → entry' = entry ∧ w' = after_append w record.
Proof. unfold outcome. destruct fault as [[n e]|]; [destruct (n <? _)%nat|]; naive_solver. Qed.
Lemma outcome_err fault w entry record err w' : outcome fault w entry record = (Err err, w') → ∃ n, fault = Some (n, err) ∧
  w' = mk_chunk_writer (cw_file w ++ take n (frame_image record)) (cw_offset w) (cw_file_id w).
Proof. unfold outcome. destruct fault as [[n e]|]; [destruct (n <? _)%nat|]; naive_solver. Qed.
Lemma outcome_grows fault w entry record : 0 ≤ cw_offset w →
  ∃ taken, let w' := (outcome fault w entry record).2 in cw_file w' = cw_file w ++ taken ∧ 0 ≤ cw_offset w'.
Proof.
  intros Hoff. destruct (outcome fault w entry record) as [[x|err] w'] eqn:Ho.
  - apply outcome_ok in Ho as [_ ->]. eexists. split; [done|]. cbn [after_append cw_offset snd]. pose proof (zlen_nonneg (frame_image record)). lia.
  - apply outcome_err in Ho as (n & _ & ->). by eexists.
Qed.

(** Whatever the device does, the file only grows. *)
Lemma run_appends_grow ops : ∀ w entries w', 0 ≤ cw_offset w → Forall append_ok ops → run_appends w ops = (entries, w') →
  ∃ taken, cw_file w' = cw_file w ++ taken.
Proof.
  induction ops as [|[[env series_ref] op] ops IH]; intros w entries w' Hoff Hops Hrun; cbn [run_appends] in Hrun.
  { injection Hrun as _ <-. exists []. by rewrite app_nil_r. }
  apply Forall_cons_1 in Hops as [[Href Hrepr] Hops]. cbn [fst snd] in Href, Hrepr.
  destruct (run_append env w series_ref op) as [a|e] eqn:Happ; [|by apply (IH w entries)].
  apply run_append_outcome in Happ as (values & _ & _ & Ha); [|done..]. cbv zeta in Ha.
  set (record := record_image _ _ _ _ _) in Ha. destruct (outcome_grows (env_fault env) w (entry_of w (append_samples op) record) record Hoff) as (taken & Hfile & Hoff').
  rewrite <- Ha in Hfile, Hoff'. clear Ha. destruct a as [answer w1]. cbn [snd] in Hfile, Hoff'.
  assert (∃ entries1, run_appends w1 ops = (entries1, w')) as [entries1 Hrest].
  { destruct answer; [|by exists entries]. destruct (run_appends w1 ops) as [es w2]. injection Hrun as _ <-. by exists es. }
  destruct (IH w1 entries1 w' Hoff' Hops Hrest) as [taken' ->]. exists (taken ++ taken'). by rewrite Hfile, app_assoc.
Qed.

(** An entry reads back from its file and from whatever the file grows into. *)
Lemma appended_entry env al w series_ref op entry w' : writer_ok w → in_u32 series_ref → samples_repr (append_samples op) → grants al →
  run_append env w series_ref op = Ok (Ok entry, w') →
  writer_ok w' ∧ (∃ record, cw_file w' = cw_file w ++ frame_image record) ∧ ∀ rest, entry_reads al (cw_file w' ++ rest) (series_ref, op, entry).
Proof.
  intros Hw Href Hrepr Hal Hrun. unfold writer_ok in *. pose proof (zlen_nonneg (cw_file w)). assert (0 ≤ cw_offset w) as Hoff by lia.
  destruct (run_append_outcome _ _ _ _ _ Hoff Href Hrepr Hrun) as (values & Hc & Hfits & Heq). symmetry in Heq. apply outcome_ok in Heq as [-> ->].
  set (s := append_samples op) in *. set (e := append_encoding op) in *. cbn [after_append cw_file cw_offset]. rewrite zlen_app.
  split; [lia|]. split; [by eexists|]. intros rest. set (record := record_image e series_ref s (chunk_lane_of s) values).
  assert (entry_bytes ((cw_file w ++ frame_image record) ++ rest) (entry_of w s record) = record) as Hbytes.
  { unfold entry_bytes, entry_of, frame_image. cbn [ce_offset ce_length]. rewrite <- !app_assoc. unfold FRAME_HEADER_LEN. field_fwd. done. }
  unfold entry_reads. fold s. rewrite Hbytes. split_and!; [|done|done|done|].
  - unfold decode_chunk_record, record. by rewrite record_fwd.
  - cbn [entry_of ce_scalar_lane_len]. apply (record_parts e series_ref s (chunk_lane_of s) values Hc).
Qed.
(** A write that fails before it took a byte leaves the writer as it was. *)
Lemma refused_write env w series_ref op err w' : writer_ok w → in_u32 series_ref → samples_repr (append_samples op) →
  no_torn_frame (env, series_ref, op) → run_append env w series_ref op = Ok (Err err, w') → w' = w.
Proof.
  intros Hw Href Hrepr Hf Hrun. assert (0 ≤ cw_offset w) as Hoff by (rewrite Hw; apply zlen_nonneg).
  destruct (run_append_outcome _ _ _ _ _ Hoff Href Hrepr Hrun) as (values & _ & _ & Heq). symmetry in Heq. apply outcome_err in Heq as (n & Hn & ->).
  rewrite (Hf _ _ Hn). rewrite take_0, app_nil_r. by destruct w.
Qed.

Lemma run_appends_read al ops : ∀ w entries w', writer_ok w → Forall append_ok ops → Forall no_torn_frame ops → grants al →
  run_appends w ops = (entries, w') →
  writer_ok w' ∧ (∃ records, cw_file w' = cw_file w ++ mjoin (frame_image <$> records) ∧ length records = length entries) ∧
  ∀ rest, Forall (entry_reads al (cw_file w' ++ rest)) entries.
Proof.
  induction ops as [|[[env series_ref] op] ops IH]; intros w entries w' Hw Hops Hfaults Hal Hrun; cbn [run_appends] in Hrun.
  { injection Hrun as <- <-. split_and!; [done|exists []; cbn; by rewrite app_nil_r|intros; by apply Forall_nil]. }
  apply Forall_cons_1 in Hops as [[Href Hrepr] Hops]. apply Forall_cons_1 in Hfaults as [Hf Hfaults]. cbn [fst snd] in Href, Hrepr.
  destruct (run_append env w series_ref op) as [[[entry|err] w1]|e] eqn:Happ; [| |by apply (IH w)].
  2: { apply refused_write in Happ as ->; [|done..]. by apply (IH w). }
  destruct (run_appends w1 ops) as [entries' w2] eqn:Hrest. injection Hrun as <- <-.
  destruct (appended_entry _ al _ _ _ _ _ Hw Href Hrepr Hal Happ) as (Hw1 & [record Hfile] & Hread).
  destruct (IH _ _ _ Hw1 Hops Hfaults Hal Hrest) as (Hw2 & (records & Hfile2 & Hlen) & Hreads). split; [done|]. split.
  - exists (record :: records). rewrite Hfile2, Hfile, join_fmap_cons, <- app_assoc. split; [done|]. cbn. by rewrite Hlen.
  - intros rest. constructor; [|apply Hreads]. rewrite Hfile2, <- app_assoc. apply Hread.
Qed.
End appends.

(** ** Correctness *)

(** C14: what was appended to a chunk file reads back.  Over any sequence of
    appends of the eleven kinds of call, each with its own allocator answers and
    device, in which a call may be refused or its write may fail before it took a
    byte of the frame, the file grows by the frames of the appended records and
    nothing else, and every entry handed out points at a record that decodes to its
    series and to the samples it was given, sorted where the call sorts; the
    entry's range and kind are those of the samples and its lane is the lane of their
    counters.  All of them still do after any further appends, torn writes
    included. *)
Theorem chunk_file_reads_back `{HC : Crc32c} `{!Crc32cLaws} al ops w entries w' later entries2 w2 :
  writer_ok w → Forall append_ok ops → Forall no_torn_frame ops → Forall append_ok later → grants al →
  run_appends w ops = (entries, w') → run_appends w' later = (entries2, w2) →
  writer_ok w' ∧ (∃ records, cw_file w' = cw_file w ++ mjoin (frame_image <$> records) ∧ length records = length entries) ∧
  Forall (entry_reads al (cw_file w')) entries ∧ Forall (entry_reads al (cw_file w2)) entries.
Proof.
  intros Hw Hops Hfaults Hlater Hal Hrun Hrun2. destruct (run_appends_read al ops w entries w' Hw Hops Hfaults Hal Hrun) as (Hw' & Hfile & Hreads).
  destruct (run_appends_grow later w' entries2 w2) as [taken ->]; [rewrite Hw'; apply zlen_nonneg|done..|].
  split; [done|]. split; [done|]. split; [|apply Hreads]. rewrite <- (app_nil_r (cw_file w')). apply Hreads.
Qed.

(** An append is refused only for what it was given.  With memory granted and a
    device that takes what it is given, a call succeeds exactly when its samples are
    non-empty, ordered, within the codec's contract and the resulting record and
    file fit their widths. *)
Theorem chunk_append_accepts `{HC : Crc32c} `{!Crc32cLaws} al w series_ref op : writer_ok w → in_u32 series_ref →
  samples_repr (append_samples op) → grants al →
  gives_entry (run_append (mk_env al None) w series_ref op) = true ↔
  ∃ values, chunk_ok (append_encoding op) series_ref (append_samples op) (chunk_lane_of (append_samples op)) values ∧
    append_fits w (record_image (append_encoding op) series_ref (append_samples op) (chunk_lane_of (append_samples op)) values).
Proof.
  intros Hw Href Hrepr Hal. assert (0 ≤ cw_offset w) as Hoff by (rewrite Hw; apply zlen_nonneg).
  destruct (run_append_spec (mk_env al None) w series_ref op Hoff Href Hrepr) as [Hinv Hok]. split.
  - destruct (run_append (mk_env al None) w series_ref op) as [a|] eqn:Hr; [|done]. destruct (Hinv a eq_refl) as (values & Hc & Hf & _). by exists values.
  - intros (values & Hc & Hf). by rewrite (Hok values Hal Hc Hf).
Qed.

(** Histograms whose lane is written, integers out of order, which are refused, a
    write that the device refuses, and floats that the call sorts. *)
Definition sample_histograms : ChunkAppend := AppendHistograms [(1000, sample_histogram); (2000, sample_histogram)].
Definition sample_floats : ChunkAppend := AppendGorilla true [(2000, 0x3ff0000000000000); (1000, 0x4000000000000000)].
Definition failing_after (n : nat) : append_env := mk_env alloc_ok (Some (n, io_err OtherError "write failed")).
Definition sample_appends : list (append_env * Z * ChunkAppend) :=
  [(calm_env, 7, sample_histograms); (calm_env, 8, AppendIntDeltas false [(2000, 5); (1000, 6)]);
   (failing_after 0, 9, sample_floats); (calm_env, 9, sample_floats)].
(** The same, after a frame that is torn. *)
Definition torn_appends : list (append_env * Z * ChunkAppend) := [(failing_after 20, 7, sample_histograms); (calm_env, 9, sample_floats)].
Definition empty_file : ChunkWriter := mk_chunk_writer [] 0 0.

Lemma sample_appends_ok : Forall append_ok sample_appends.
Proof. repeat constructor; try apply sample_pushable; try (vm_compute; discriminate). Qed.
Lemma torn_appends_ok : Forall append_ok torn_appends.
Proof. repeat constructor; try apply sample_pushable; try (vm_compute; discriminate). Qed.
Lemma sample_appends_whole : Forall no_torn_frame sample_appends.
Proof. repeat (apply Forall_cons_2 || apply Forall_nil_2); by intros n e [= <- _]. Qed.

(** After a frame that was torn the writer's offset is behind its file: the entry
    of the next append, which succeeds, points into the torn frame and does not
    decode. *)
Example torn_frame_misplaces_the_next : match run_appends empty_file torn_appends with
  | ([(_, _, entry)], w) => negb (cw_offset w =? zlen (cw_file w)) && negb (is_ok (decode_chunk_record alloc_ok (entry_bytes (cw_file w) entry)))
  | _ => false
  end = true.
Proof. vm_compute. reflexivity. Qed.

Lemma chunk_file_reads_back_witness : let w' := (run_appends empty_file sample_appends).2 in let w2 := (run_appends w' torn_appends).2 in
  zlen (cw_file w') + 20 < zlen (cw_file w2) ∧ ∃ e1 e2, (run_appends empty_file sample_appends).1 = [(7, sample_histograms, e1); (9, sample_floats, e2)] ∧
  decode_chunk_record alloc_ok (entry_bytes (cw_file w2) e2) = Ok (record_of 9 (ChunkFloats [(1000, 0x4000000000000000); (2000, 0x3ff0000000000000)])).
Proof.
  intros w' w2. split; [vm_compute; reflexivity|].
  destruct (chunk_file_reads_back alloc_ok sample_appends empty_file _ w' torn_appends _ w2 eq_refl sample_appends_ok sample_appends_whole
    torn_appends_ok (λ _ _, eq_refl) (surjective_pairing _) (surjective_pairing _)) as (_ & _ & _ & Hreads).
  assert (∃ e1 e2, (run_appends empty_file sample_appends).1 = [(7, sample_histograms, e1); (9, sample_floats, e2)]) as (e1 & e2 & Hentries).
  { do 2 eexists. vm_compute. reflexivity. }
  exists e1, e2. split; [exact Hentries|]. rewrite Hentries in Hreads. exact (proj1 (Forall_inv (Forall_inv_tail Hreads))).
Defined.

Lemma chunk_append_accepts_witness : ∃ values, append_fits empty_file (record_image EncRawI64 3 (ChunkInt64s [(5, -1)]) [] values).
Proof.
  destruct (proj1 (chunk_append_accepts alloc_ok empty_file 3 (AppendRawInts false [(5, -1)]) eq_refl ltac:(split; vm_compute; discriminate)
    ltac:(repeat constructor; vm_compute; discriminate) (λ _ _, eq_refl)) ltac:(vm_compute; reflexivity)) as (values & _ & Hf).
  exists values. exact Hf.
Defined.
