(* ===== verification/ChunkIndex.v ===== *)
(** * Chunk index files

    [chronoxide-core/src/storage/chunk/index.rs]: the entries of every series of a
    segment, in a file that starts with the offset of each series's entries.  It is
    written in one pass and read as a whole, by series, by range and by batches of
    ranges.  A reader is the file's bytes; device errors while reading and writing
    are not modelled. *)
From Stdlib Require Import Sorted.
From S2P Require Import Prelude Sort Cursor Frame TypedCodecs Chunk ChunkWriter.

Definition CHUNK_ENTRY_LEN : Z := 40.
Definition CHUNK_INDEX_MAGIC : Z := of_le (bytes_of_string "CHIX").
Definition CHUNK_INDEX_HEADER_LEN : Z := 12.

Record ChunkIndexRange := mk_range { cr_offset : Z; cr_len : Z }.
#[export] Instance chunk_index_range_eq_dec : EqDecision ChunkIndexRange.
Proof. solve_decision. Defined.
#[export] Instance chunk_index_range_countable : Countable ChunkIndexRange.
Proof. apply (inj_countable' (λ r, (cr_offset r, cr_len r)) (λ p, mk_range p.1 p.2)). by intros []. Defined.

(** ** Entries *)

Definition write_chunk_entry (e : ChunkIndexEntry) : list Z :=
  [ce_file_id e] ++ [chunk_kind_code (ce_kind e)] ++ le_bytes 2 (ce_flags e) ++ le_bytes 8 (ce_min_time_ms e)
  ++ le_bytes 8 (ce_max_time_ms e) ++ le_bytes 8 (ce_offset e) ++ le_bytes 4 (ce_length e)
  ++ le_bytes 4 (ce_scalar_lane_offset e) ++ le_bytes 4 (ce_scalar_lane_len e).

Definition entry_of_bytes (buf : list Z) : io_result ChunkIndexEntry :=
  let field a b := of_le (slice buf a b) in
  kind ← chunk_kind_from_u8 (field 1 2);
  Ok (mk_chunk_entry (field 0 1) kind (field 2 4) (field 4 12) (field 12 20) (field 20 28) (field 28 32) (field 32 36) (field 36 40)).
Definition read_chunk_entry (s : list Z) : io_result (ChunkIndexEntry * list Z) :=
  '(buf, s) ← read_exact CHUNK_ENTRY_LEN s;
  e ← entry_of_bytes buf;
  Ok (e, s).

(** [for _ in 0..n { push(read_chunk_entry(reader)?) }]. *)
Fixpoint read_n_entries (n : nat) (s : list Z) : io_result (list ChunkIndexEntry * list Z) :=
  match n with
  | O => Ok ([], s)
  | S n => '(e, s) ← read_chunk_entry s; '(es, s) ← read_n_entries n s; Ok (e :: es, s)
  end.

(** ** Writing *)

Definition entry_compare (a b : ChunkIndexEntry) : comparison :=
  then_with (then_with (ce_min_time_ms a ?= ce_min_time_ms b) (ce_max_time_ms a ?= ce_max_time_ms b)) (ce_offset a ?= ce_offset b).

Fixpoint ranges_loop (cursor : Z) (entries : list (list ChunkIndexEntry)) : io_result (list ChunkIndexRange) :=
  match entries with
  | [] => Ok []
  | series_entries :: entries =>
      len ← ok_or (io_err InvalidInput "chunk index too large") (checked_mul_u64 (zlen series_entries) CHUNK_ENTRY_LEN);
      len ← ok_or (io_err InvalidInput "per-series chunk index range exceeds u32") (try_u32 len);
      next ← ok_or (io_err InvalidInput "chunk index too large") (checked_add_u64 cursor len);
      ranges ← ranges_loop next entries;
      Ok (mk_range cursor len :: ranges)
  end.
Definition chunk_index_ranges (entries : list (list ChunkIndexEntry)) : io_result (list ChunkIndexRange) :=
  count ← ok_or (io_err InvalidInput "chunk index too large") (checked_add_u64 (zlen entries) 1);
  offsets_len ← ok_or (io_err InvalidInput "chunk index too large") (checked_mul_u64 count 8);
  ranges_loop (12 + offsets_len) entries.

(** The bytes written. *)
Definition write_chunk_index (entries : list (list ChunkIndexEntry)) : io_result (list Z) :=
  let num_series := zlen entries `mod` 4294967296 in
  ranges ← chunk_index_ranges entries;
  let end_offset := match last ranges with
    | Some range => saturating_add_u64 (cr_offset range) (cr_len range)
    | None => CHUNK_INDEX_HEADER_LEN + 8
    end in
  Ok (le_bytes 4 CHUNK_INDEX_MAGIC ++ le_bytes 2 1 ++ le_bytes 2 0 ++ le_bytes 4 num_series
      ++ mjoin ((λ range, le_bytes 8 (cr_offset range)) <$> ranges) ++ le_bytes 8 end_offset
      ++ mjoin ((λ series_entries, mjoin (write_chunk_entry <$> sort_by entry_compare series_entries)) <$> entries)).

(** ** Reading *)

(** [seek(SeekFrom::Start(pos))], giving what is left to read; the offset of the
    system call is signed. *)
Definition seek_start (pos : Z) (file : list Z) : io_result (list Z) :=
  if i64_max <? pos then fail InvalidInput "Invalid argument (os error 22)"
  else Ok (if zlen file <? pos then [] else drop (Z.to_nat pos) file).
Definition read_exact_u16 (s : list Z) : io_result (Z * list Z) := '(b, s) ← read_exact 2 s; Ok (of_le b, s).
Definition read_exact_u32 (s : list Z) : io_result (Z * list Z) := '(b, s) ← read_exact 4 s; Ok (of_le b, s).
Definition read_exact_u64 (s : list Z) : io_result (Z * list Z) := '(b, s) ← read_exact 8 s; Ok (of_le b, s).

(** [Vec::with_capacity(n)] of entries and [vec![0u8; n]]. *)
Definition entries_with_capacity (n : Z) : run unit := if i64_max <? n * 40 then Err Panic else Ok tt.
Definition zeroed_vec (n : Z) : run unit := if i64_max <? n then Err Panic else Ok tt.

Definition chunk_index_entry_count (offsets : list Z) (series_ref : nat) : run Z :=
  match offsets !! series_ref, offsets !! S series_ref with
  | Some start, Some end_ =>
      let len := end_ - start in
      if negb (len `mod` CHUNK_ENTRY_LEN =? 0) then io (fail InvalidData "chunk index entry length misaligned")
      else Ok (len `div` CHUNK_ENTRY_LEN)
  | _, _ => Err Panic
  end.
Definition read_chunk_index_entries_from_reader (s : list Z) (offsets : list Z) (series_ref : nat) : run (list ChunkIndexEntry * list Z) :=
  count ← chunk_index_entry_count offsets series_ref;
  _ ← entries_with_capacity count;
  io (read_n_entries (Z.to_nat count) s).
Definition read_chunk_index_entries (file : list Z) (offsets : list Z) (series_ref : nat) : run (list ChunkIndexEntry) :=
  match offsets !! series_ref with
  | None => Err Panic
  | Some start =>
      s ← io (seek_start start file);
      '(entries, _) ← read_chunk_index_entries_from_reader s offsets series_ref;
      Ok entries
  end.
Definition decode_chunk_entries_from_bytes (bytes : list Z) : io_result (list ChunkIndexEntry) :=
  if negb (zlen bytes `mod` CHUNK_ENTRY_LEN =? 0) then fail InvalidData "chunk index entry length misaligned"
  else '(entries, _) ← read_n_entries (Z.to_nat (zlen bytes `div` CHUNK_ENTRY_LEN)) bytes; Ok entries.

(** The checks of the header up to the number of series. *)
Definition read_magic (file : list Z) : io_result (Z * list Z) :=
  s ← seek_start 0 file;
  '(magic, s) ← read_exact_u32 s;
  if negb (magic =? CHUNK_INDEX_MAGIC) then fail InvalidData "chunk index magic mismatch"
  else
    '(version, s) ← read_exact_u16 s;
    if negb (version =? 1) then fail InvalidData "unsupported chunk index version"
    else
      '(_, s) ← read_exact_u16 s;
      read_exact_u32 s.
Definition read_chunk_index_header (file : list Z) : io_result (Z * Z) :=
  '(num_series, s) ← read_magic file;
  let data_start := CHUNK_INDEX_HEADER_LEN + (num_series + 1) * 8 in
  '(first_offset, _) ← read_exact_u64 s;
  if negb (first_offset =? data_start) then fail InvalidData "chunk index offsets header invalid" else Ok (num_series, data_start).

Definition read_chunk_index_offset_pair (file : list Z) (series_ref num_series data_start : Z) : io_result (list Z) :=
  if num_series <=? series_ref then fail InvalidInput "series_ref out of chunk index range"
  else
    s ← seek_start (CHUNK_INDEX_HEADER_LEN + series_ref * 8) file;
    '(start, s) ← read_exact_u64 s;
    '(end_, _) ← read_exact_u64 s;
    if (start <? data_start) || (end_ <? start) then fail InvalidData "chunk index offsets out of order" else Ok [start; end_].

Fixpoint read_n_offsets (n : nat) (s : list Z) : io_result (list Z * list Z) :=
  match n with
  | O => Ok ([], s)
  | S n => '(offset, s) ← read_exact_u64 s; '(offsets, s) ← read_n_offsets n s; Ok (offset :: offsets, s)
  end.
Fixpoint out_of_order (offsets : list Z) : bool :=
  match offsets with a :: ((b :: _) as rest) => (b <? a) || out_of_order rest | _ => false end.
Definition read_chunk_index_offsets (file : list Z) : io_result (list Z) :=
  '(num_series, s) ← read_magic file;
  '(offsets, _) ← read_n_offsets (S (Z.to_nat num_series)) s;
  if negb (bool_decide (head offsets = Some (CHUNK_INDEX_HEADER_LEN + (num_series + 1) * 8)))
  then fail InvalidData "chunk index offsets header invalid"
  else if out_of_order offsets then fail InvalidData "chunk index offsets out of order"
  else Ok offsets.

(** [for i in series_ref..series_ref + n]. *)
Fixpoint read_rows (n : nat) (s : list Z) (offsets : list Z) (series_ref : nat) : run (list (list ChunkIndexEntry)) :=
  match n with
  | O => Ok []
  | S n =>
      '(row, s) ← read_chunk_index_entries_from_reader s offsets series_ref;
      rows ← read_rows n s offsets (S series_ref);
      Ok (row :: rows)
  end.
Definition read_chunk_index (file : list Z) : run (list (list ChunkIndexEntry)) :=
  offsets ← io (read_chunk_index_offsets file);
  s ← io (seek_start (default 0 (head offsets)) file);
  read_rows (pred (length offsets)) s offsets 0.

(** ** The reader *)

Record ChunkIndexReader := mk_index_reader { ir_file : list Z; ir_num_series : Z; ir_data_start : Z; ir_offsets : option (list Z) }.

Definition index_open (file : list Z) : io_result ChunkIndexReader :=
  '(num_series, data_start) ← read_chunk_index_header file;
  Ok (mk_index_reader file num_series data_start None).
Definition index_len (r : ChunkIndexReader) : Z := ir_num_series r.
Definition index_is_empty (r : ChunkIndexReader) : bool := index_len r =? 0.

Definition read_entries (r : ChunkIndexReader) (series_ref : Z) : run (option (list ChunkIndexEntry)) :=
  if index_len r <=? series_ref then Ok None
  else
    offsets ← io (read_chunk_index_offset_pair (ir_file r) series_ref (ir_num_series r) (ir_data_start r));
    entries ← read_chunk_index_entries (ir_file r) offsets 0;
    Ok (Some entries).

Definition range_end (range : ChunkIndexRange) : io_result Z :=
  ok_or (io_err InvalidData "chunk index range overflows") (checked_add_u64 (cr_offset range) (cr_len range)).
Definition validate_entry_range (r : ChunkIndexReader) (range : ChunkIndexRange) : io_result unit :=
  if cr_offset range <? ir_data_start r then fail InvalidData "chunk index range starts before entry data"
  else
    _ ← range_end range;
    if negb (cr_len range `mod` CHUNK_ENTRY_LEN =? 0) then fail InvalidData "chunk index entry length misaligned" else Ok tt.

Definition read_entries_range (r : ChunkIndexReader) (range : ChunkIndexRange) : io_result (list ChunkIndexEntry) :=
  if cr_len range =? 0 then Ok []
  else
    _ ← validate_entry_range r range;
    s ← seek_start (cr_offset range) (ir_file r);
    '(bytes, _) ← read_exact (cr_len range) s;
    decode_chunk_entries_from_bytes bytes.

(** *** Batches of ranges *)

Abbreviation entry_map := (gmap ChunkIndexRange (list ChunkIndexEntry)).

(** The first loop: empty ranges are answered, the others checked and kept. *)
Fixpoint partition_ranges (r : ChunkIndexReader) (ranges : list ChunkIndexRange) : io_result (entry_map * list ChunkIndexRange) :=
  match ranges with
  | [] => Ok (∅, [])
  | range :: ranges =>
      if cr_len range =? 0 then '(out, non_empty) ← partition_ranges r ranges; Ok (<[range := []]> out, non_empty)
      else
        _ ← validate_entry_range r range;
        '(out, non_empty) ← partition_ranges r ranges; Ok (out, range :: non_empty)
  end.

Definition range_compare (a b : ChunkIndexRange) : comparison := then_with (cr_offset a ?= cr_offset b) (cr_len a ?= cr_len b).
Fixpoint dedup_ranges (l : list ChunkIndexRange) : list ChunkIndexRange :=
  match l with
  | x :: ((y :: _) as l') => if bool_decide (x = y) then dedup_ranges l' else x :: dedup_ranges l'
  | _ => l
  end.

(** The ranges that continue the span up to [span_end], and what is left. *)
Fixpoint extend_span (span_end : Z) (l : list ChunkIndexRange) : io_result (Z * list ChunkIndexRange * list ChunkIndexRange) :=
  match l with
  | range :: l' =>
      if cr_offset range =? span_end then
        span_end ← range_end range;
        '(span_end, span, rest) ← extend_span span_end l';
        Ok (span_end, range :: span, rest)
      else Ok (span_end, [], l)
  | [] => Ok (span_end, [], [])
  end.
Fixpoint decode_span (span_offset : Z) (bytes : list Z) (span : list ChunkIndexRange) (out : entry_map) : run entry_map :=
  match span with
  | [] => Ok out
  | range :: span =>
      let start := cr_offset range - span_offset in
      end_ ← io (ok_or (io_err InvalidData "chunk index range overflows") (checked_add_u64 start (cr_len range)));
      if zlen bytes <? end_ then Err Panic
      else
        entries ← io (decode_chunk_entries_from_bytes (slice bytes start end_));
        decode_span span_offset bytes span (<[range := entries]> out)
  end.
Fixpoint spans_loop (fuel : nat) (file : list Z) (l : list ChunkIndexRange) (out : entry_map) : run entry_map :=
  match fuel, l with
  | _, [] => Ok out
  | O, _ => Err Panic
  | S fuel, first :: l =>
      let span_offset := cr_offset first in
      span_end ← io (range_end first);
      '(span_end, span, rest) ← io (extend_span span_end l);
      span_len ← io (ok_or (io_err InvalidData "chunk index span underflows") (checked_sub_u64 span_end span_offset));
      _ ← zeroed_vec span_len;
      s ← io (seek_start span_offset file);
      '(bytes, _) ← io (read_exact span_len s);
      out ← decode_span span_offset bytes (first :: span) out;
      spans_loop fuel file rest out
  end.
Definition read_entries_ranges (r : ChunkIndexReader) (ranges : list ChunkIndexRange) : run entry_map :=
  '(out, non_empty) ← io (partition_ranges r ranges);
  let non_empty := dedup_ranges (sort_by range_compare non_empty) in
  spans_loop (length non_empty) (ir_file r) non_empty out.

(** *** Visiting every series *)

Section visit.
Context {St : Type} (visit : Z → list ChunkIndexEntry → St → io_result unit * St).

Fixpoint visit_rows (n : nat) (s : list Z) (offsets : list Z) (series_ref : nat) (st : St) : run unit * St :=
  match n with
  | O => (Ok tt, st)
  | S n =>
      match read_chunk_index_entries_from_reader s offsets series_ref with
      | Err e => (Err e, st)
      | Ok (entries, s) =>
          match try_u32 (Z.of_nat series_ref) with
          | None => (io (fail InvalidData "series_ref exceeds u32"), st)
          | Some series_ref' =>
              match visit series_ref' entries st with
              | (Err e, st) => (Err (Io e), st)
              | (Ok _, st) => visit_rows n s offsets (S series_ref) st
              end
          end
      end
  end.
Definition for_each_series_entries (r : ChunkIndexReader) (st : St) : run unit * ChunkIndexReader * St :=
  match (match ir_offsets r with Some offsets => Ok offsets | None => read_chunk_index_offsets (ir_file r) end) with
  | Err e => (Err (Io e), r, st)
  | Ok offsets =>
      let r := mk_index_reader (ir_file r) (ir_num_series r) (ir_data_start r) (Some offsets) in
      match head offsets with
      | None => (Ok tt, r, st)
      | Some first_offset =>
          match seek_start first_offset (ir_file r) with
          | Err e => (Err (Io e), r, st)
          | Ok s => let '(res, st) := visit_rows (Z.to_nat (index_len r)) s offsets 0 st in (res, r, st)
          end
      end
  end.
End visit.

(** ** The bytes at a position *)

Definition stream (file : list Z) (p : Z) : list Z := drop (Z.to_nat p) file.

Lemma seek_start_ok p file : 0 ≤ p → p ≤ i64_max → seek_start p file = Ok (stream file p).
Proof.
  intros Hp Hmax. unfold seek_start, stream. rewrite (proj2 (Z.ltb_ge _ _)) by done.
  destruct (Z.ltb_spec (zlen file) p); [|done]. rewrite drop_ge; [done|]. unfold zlen in *. lia.
Qed.
Lemma seek_start_inv p file s : 0 ≤ p → seek_start p file = Ok s → s = stream file p ∧ p ≤ i64_max.
Proof.
  intros Hp Hs. assert (p ≤ i64_max) as Hmax by (unfold seek_start in Hs; destruct (Z.ltb_spec i64_max p); [done|lia]).
  rewrite seek_start_ok in Hs by done. by injection Hs as <-.
Qed.
Lemma zlen_stream file p : 0 ≤ p → p ≤ zlen file → zlen (stream file p) = zlen file - p.
Proof. intros. unfold stream, zlen in *. rewrite length_drop. lia. Qed.
Lemma stream_app pre s p : p = zlen pre → stream (pre ++ s) p = s.
Proof. intros ->. unfold stream, zlen. by rewrite Nat2Z.id, drop_app_length. Qed.

Lemma read_exact_stream n file p : 0 ≤ p → 0 ≤ n → p + n ≤ zlen file →
  read_exact n (stream file p) = Ok (slice file p (p + n), stream file (p + n)).
Proof.
  intros Hp Hn Hfit. unfold read_exact. rewrite zlen_stream by lia. rewrite (proj2 (Z.ltb_ge _ _)) by lia.
  unfold slice, stream. rewrite drop_drop. do 3 f_equal; lia.
Qed.
Lemma read_exact_stream_inv n file p x s : 0 ≤ p → 0 < n → read_exact n (stream file p) = Ok (x, s) →
  p + n ≤ zlen file ∧ x = slice file p (p + n) ∧ s = stream file (p + n).
Proof.
  intros Hp Hn Hr. assert (p + n ≤ zlen file) as Hfit.
  { unfold read_exact in Hr. destruct (Z.ltb_spec (zlen (stream file p)) n) as [|Hlen]; [done|].
    unfold stream, zlen in *. rewrite length_drop in Hlen. lia. }
  rewrite read_exact_stream in Hr by lia. injection Hr as <- <-. done.
Qed.
Lemma slice_slice {A} (l : list A) a b c d : 0 ≤ a → a ≤ b → b ≤ c → c ≤ d → slice (slice l a d) (b - a) (c - a) = slice l b c.
Proof.
  intros. unfold slice. replace (Z.to_nat (d - a)) with (Z.to_nat (b - a) + Z.to_nat (d - b))%nat by lia.
  rewrite <- take_drop_commute, drop_drop, take_take. f_equal; [lia|]. f_equal. lia.
Qed.

(** *** Entries *)

Definition entry_fits (e : ChunkIndexEntry) : Prop :=
  is_byte (ce_file_id e) ∧ in_u16 (ce_flags e) ∧ in_u64 (ce_min_time_ms e) ∧ in_u64 (ce_max_time_ms e) ∧ in_u64 (ce_offset e) ∧
  in_u32 (ce_length e) ∧ in_u32 (ce_scalar_lane_offset e) ∧ in_u32 (ce_scalar_lane_len e).

Lemma zlen_entry e : zlen (write_chunk_entry e) = CHUNK_ENTRY_LEN.
Proof. unfold write_chunk_entry. by autorewrite with zlen. Qed.
Lemma zlen_entries es : zlen (mjoin (write_chunk_entry <$> es)) = CHUNK_ENTRY_LEN * zlen es.
Proof. induction es as [|e es IH]; [done|]. rewrite join_fmap_cons, zlen_app, zlen_cons, zlen_entry, IH. unfold CHUNK_ENTRY_LEN. lia. Qed.

Lemma entry_of_written e : entry_fits e → entry_of_bytes (write_chunk_entry e) = Ok e.
Proof.
  intros (Hi & Hf & Hmin & Hmax & Ho & Hl & Hso & Hsl). unfold entry_of_bytes, write_chunk_entry, is_byte, in_u16, in_u32, in_u64 in *.
  replace (slice _ 0 1) with [ce_file_id e] by (by field_fwd). replace (slice _ 1 2) with [chunk_kind_code (ce_kind e)] by (by field_fwd).
  rewrite !of_le_one, chunk_kind_codes. cbn [mbind result_bind]. rewrite <- (app_nil_r (le_bytes 4 (ce_scalar_lane_len e))).
  do 7 (field_fwd; rewrite of_le_fixed by (cbn; lia)). by destruct e.
Qed.
Lemma read_written_entry e s : entry_fits e → read_chunk_entry (write_chunk_entry e ++ s) = Ok (e, s).
Proof.
  intros He. unfold read_chunk_entry. rewrite read_exact_app by by rewrite zlen_entry. cbn [mbind result_bind]. by rewrite entry_of_written.
Qed.
Lemma read_written_entries es s : Forall entry_fits es → read_n_entries (length es) (mjoin (write_chunk_entry <$> es) ++ s) = Ok (es, s).
Proof.
  induction 1 as [|e es He _ IH]; [done|]. rewrite join_fmap_cons, <- app_assoc. cbn [length read_n_entries].
  rewrite read_written_entry by done. cbn [mbind result_bind]. by rewrite IH.
Qed.

(** A count of entries reads as many bytes, from wherever they come. *)
Lemma read_entries_stream n file : ∀ p es s, 0 ≤ p → p ≤ zlen file → read_n_entries n (stream file p) = Ok (es, s) →
  s = stream file (p + CHUNK_ENTRY_LEN * Z.of_nat n) ∧ p + CHUNK_ENTRY_LEN * Z.of_nat n ≤ zlen file.
Proof.
  induction n as [|n IH]; intros p es s Hp Hle Hr; cbn [read_n_entries] in Hr.
  { injection Hr as <- <-. unfold CHUNK_ENTRY_LEN. rewrite Z.mul_0_r, Z.add_0_r. done. }
  apply bind_ok in Hr as ([e s1] & Hread & Hr). unfold read_chunk_entry in Hread. apply bind_ok in Hread as ([buf s0] & Hx & Hread).
  apply read_exact_stream_inv in Hx as (Hfit & -> & ->); [|done..]. apply bind_ok in Hread as (e' & _ & Hread). injection Hread as _ <-.
  apply bind_ok in Hr as ([es1 s2] & Hrest & Hr). injection Hr as _ <-. unfold CHUNK_ENTRY_LEN in *.
  apply IH in Hrest as [-> Hle']; [|lia..]. split; [f_equal; lia|lia].
Qed.
Lemma read_entries_prefix n : ∀ x y, zlen x = CHUNK_ENTRY_LEN * Z.of_nat n →
  read_n_entries n (x ++ y) = '(es, s) ← read_n_entries n x; Ok (es, s ++ y).
Proof.
  induction n as [|n IH]; intros x y Hx; cbn [read_n_entries].
  { unfold CHUNK_ENTRY_LEN in Hx. rewrite (zlen_0 x) by lia. done. }
  rewrite <- (take_drop 40 x), <- app_assoc. assert (zlen (take 40 x) = CHUNK_ENTRY_LEN) as Hh.
  { unfold CHUNK_ENTRY_LEN, zlen in *. rewrite length_take. lia. }
  unfold read_chunk_entry. rewrite !read_exact_app by done. cbn [mbind result_bind].
  destruct (entry_of_bytes (take 40 x)) as [e|]; [|done]. cbn [mbind result_bind]. rewrite IH.
  - destruct (read_n_entries n (drop 40 x)) as [[es s]|]; done.
  - unfold CHUNK_ENTRY_LEN, zlen in *. rewrite length_drop. lia.
Qed.
Lemma read_entries_all n : ∀ x es s, zlen x = CHUNK_ENTRY_LEN * Z.of_nat n → read_n_entries n x = Ok (es, s) → s = [].
Proof.
  intros x es s Hx Hr. change x with (stream x 0) in Hr. pose proof (zlen_nonneg x). apply read_entries_stream in Hr as [-> _]; [|lia..].
  rewrite Z.add_0_l, <- Hx. unfold stream, zlen. by rewrite Nat2Z.id, drop_all.
Qed.

(** ** The offsets *)

Definition offset_at (file : list Z) (i : nat) : Z := of_le (slice file (12 + 8 * Z.of_nat i) (12 + 8 * Z.of_nat i + 8)).

Lemma read_n_offsets_stream n file : ∀ i offsets s, read_n_offsets n (stream file (12 + 8 * Z.of_nat i)) = Ok (offsets, s) →
  offsets = offset_at file <$> seq i n ∧ (n = O ∨ 12 + 8 * Z.of_nat (i + n) ≤ zlen file).
Proof.
  induction n as [|n IH]; intros i offsets s Hr; cbn [read_n_offsets] in Hr; [injection Hr as <- _; split; [done|by left]|].
  apply bind_ok in Hr as ([o s1] & Ho & Hr). unfold read_exact_u64 in Ho. apply bind_ok in Ho as ([b s0] & Hx & Ho).
  apply read_exact_stream_inv in Hx as (Hfit & -> & ->); [|lia..]. injection Ho as <- <-.
  apply bind_ok in Hr as ([os s2] & Hrest & Hr). injection Hr as <- _.
  replace (12 + 8 * Z.of_nat i + 8) with (12 + 8 * Z.of_nat (S i)) in Hrest by lia.
  apply IH in Hrest as [-> Hle]. split; [by cbn|]. right. destruct Hle as [->|]; lia.
Qed.
Lemma read_written_offsets offsets s : Forall in_u64 offsets →
  read_n_offsets (length offsets) (mjoin (le_bytes 8 <$> offsets) ++ s) = Ok (offsets, s).
Proof.
  induction 1 as [|o os Ho _ IH]; [done|]. rewrite join_fmap_cons, <- app_assoc. cbn [length read_n_offsets]. unfold read_exact_u64.
  rewrite read_exact_app by by rewrite zlen_le_bytes. cbn [mbind result_bind]. rewrite IH. cbn [mbind result_bind]. by rewrite u64_bytes.
Qed.
Lemma offset_at_u64 file i : bytes file → 12 + 8 * Z.of_nat (S i) ≤ zlen file → in_u64 (offset_at file i).
Proof.
  intros Hb Hi. unfold offset_at. pose proof (slice_le_range file (12 + 8 * Z.of_nat i) (12 + 8 * Z.of_nat i + 8) Hb ltac:(lia) ltac:(lia)) as Hr.
  replace (12 + 8 * Z.of_nat i + 8 - (12 + 8 * Z.of_nat i)) with 8 in Hr by lia. unfold in_u64. change (2 ^ (8 * 8)) with (u64_max + 1) in Hr. lia.
Qed.

Lemma out_of_order_pair l i a b : out_of_order l = false → l !! i = Some a → l !! S i = Some b → a ≤ b.
Proof.
  revert i. induction l as [|x [|y l] IH]; intros i Hl Ha Hb; [done|by destruct i|]. cbn [out_of_order] in Hl.
  apply orb_false_iff in Hl as [Hxy Hl]. destruct i as [|i]; [|by apply (IH i)]. injection Ha as <-. injection Hb as <-. lia.
Qed.

Lemma read_magic_stream file num s : read_magic file = Ok (num, s) →
  num = of_le (slice file 8 12) ∧ s = stream file 12 ∧ 12 ≤ zlen file.
Proof.
  unfold read_magic. intros Hr. apply bind_ok in Hr as (s0 & Hs & Hr). apply seek_start_inv in Hs as [-> _]; [|done].
  apply bind_ok in Hr as ([magic s1] & Hm & Hr). unfold read_exact_u32 in Hm. apply bind_ok in Hm as ([b0 r0] & Hx & Hm).
  apply read_exact_stream_inv in Hx as (_ & -> & ->); [|done..]. injection Hm as <- <-.
  destruct (of_le _ =? CHUNK_INDEX_MAGIC); [|done]. cbn [negb] in Hr.
  apply bind_ok in Hr as ([v s1] & Hv & Hr). unfold read_exact_u16 in Hv. apply bind_ok in Hv as ([b1 r1] & Hx & Hv).
  apply read_exact_stream_inv in Hx as (_ & -> & ->); [|done..]. injection Hv as <- <-. destruct (of_le _ =? 1); [|done]. cbn [negb] in Hr.
  apply bind_ok in Hr as ([u s1] & Hu & Hr). unfold read_exact_u16 in Hu. apply bind_ok in Hu as ([b2 r2] & Hx & Hu).
  apply read_exact_stream_inv in Hx as (_ & -> & ->); [|done..]. injection Hu as <- <-.
  unfold read_exact_u32 in Hr. apply bind_ok in Hr as ([b3 r3] & Hx & Hr). apply read_exact_stream_inv in Hx as (Hfit & -> & ->); [|done..].
  injection Hr as <- <-. done.
Qed.

(** What the offsets that a reader accepts are. *)
Record offsets_ok (file : list Z) (num_series : Z) (offsets : list Z) : Prop := {
  oo_num : in_u32 num_series;
  oo_header : read_chunk_index_header file = Ok (num_series, CHUNK_INDEX_HEADER_LEN + (num_series + 1) * 8);
  oo_offsets : offsets = offset_at file <$> seq 0 (S (Z.to_nat num_series));
  oo_first : offset_at file 0 = CHUNK_INDEX_HEADER_LEN + (num_series + 1) * 8;
  oo_fits : CHUNK_INDEX_HEADER_LEN + (num_series + 1) * 8 ≤ zlen file;
  oo_order i : (i < Z.to_nat num_series)%nat → offset_at file i ≤ offset_at file (S i);
}.

Lemma read_offsets_ok file offsets : bytes file → read_chunk_index_offsets file = Ok offsets → ∃ num, offsets_ok file num offsets.
Proof.
  intros Hb Hr. unfold read_chunk_index_offsets in Hr. apply bind_ok in Hr as ([num s] & Hm & Hr). exists num.
  apply bind_ok in Hr as ([os s1] & Hos & Hr). pose proof Hm as (Hnum & -> & Hlen)%read_magic_stream. pose proof Hos as Hos'.
  change 12 with (12 + 8 * Z.of_nat 0) in Hos. apply read_n_offsets_stream in Hos as [Heq [|Hle]]; [done|].
  destruct (bool_decide_reflect (head os = Some (CHUNK_INDEX_HEADER_LEN + (num + 1) * 8))) as [Hhead|]; [|done].
  destruct (out_of_order os) eqn:Hord; [done|]. injection Hr as <-.
  assert (in_u32 num) as Hu32. { rewrite Hnum. pose proof (slice_le_range file 8 12 Hb ltac:(done) ltac:(lia)) as Hrg. cbn in Hrg. unfold in_u32. lia. }
  assert (offset_at file 0 = CHUNK_INDEX_HEADER_LEN + (num + 1) * 8) as Hfirst by (rewrite Heq in Hhead; by injection Hhead).
  unfold in_u32 in Hu32. unfold CHUNK_INDEX_HEADER_LEN in *. split; try done.
  - unfold read_chunk_index_header. rewrite Hm. cbn [mbind result_bind]. unfold read_exact_u64. rewrite read_exact_stream by lia.
    cbn [mbind result_bind]. unfold offset_at in Hfirst. change (12 + 8 * Z.of_nat 0) with 12 in Hfirst. rewrite Hfirst.
    unfold CHUNK_INDEX_HEADER_LEN. by rewrite Z.eqb_refl.
  - unfold CHUNK_INDEX_HEADER_LEN. lia.
  - intros i Hi. apply (out_of_order_pair os i _ _ Hord); rewrite Heq, list_lookup_fmap, lookup_seq_lt by lia; done.
Qed.
Lemma offsets_lookup file num offsets i : offsets_ok file num offsets → (i ≤ Z.to_nat num)%nat → offsets !! i = Some (offset_at file i).
Proof. intros Ho Hi. rewrite (oo_offsets _ _ _ Ho), list_lookup_fmap, lookup_seq_lt by lia. done. Qed.
Lemma offsets_length file num offsets : offsets_ok file num offsets → length offsets = S (Z.to_nat num).
Proof. intros Ho. by rewrite (oo_offsets _ _ _ Ho), length_fmap, length_seq. Qed.
Lemma offset_at_ge file num offsets i : offsets_ok file num offsets → (i ≤ Z.to_nat num)%nat → CHUNK_INDEX_HEADER_LEN + (num + 1) * 8 ≤ offset_at file i.
Proof. intros Ho. induction i as [|i IH]; intros Hi; [by rewrite (oo_first _ _ _ Ho)|]. pose proof (oo_order _ _ _ Ho i ltac:(lia)). lia. Qed.

(** ** One series *)

(** The entries between two offsets. *)
Definition row_at (file : list Z) (a b : Z) (row : list ChunkIndexEntry) : Prop :=
  b = a + CHUNK_ENTRY_LEN * zlen row ∧ b ≤ zlen file ∧ read_n_entries (length row) (stream file a) = Ok (row, stream file b).

Lemma read_n_entries_length n : ∀ s es s', read_n_entries n s = Ok (es, s') → length es = n.
Proof.
  induction n as [|n IH]; intros s es s' Hr; cbn [read_n_entries] in Hr; [by injection Hr as <- <-|].
  apply bind_ok in Hr as ([e s1] & _ & Hr). apply bind_ok in Hr as ([es1 s2] & Hrest & Hr). injection Hr as <- <-. cbn. by rewrite (IH _ _ _ Hrest).
Qed.

Lemma reader_row file offsets i a b : 0 ≤ a → a ≤ b → a ≤ zlen file → vec_ok file → offsets !! i = Some a → offsets !! S i = Some b →
  (∀ row s, read_chunk_index_entries_from_reader (stream file a) offsets i = Ok (row, s) → row_at file a b row ∧ s = stream file b) ∧
  (∀ row, row_at file a b row → read_chunk_index_entries_from_reader (stream file a) offsets i = Ok (row, stream file b)).
Proof.
  intros Ha Hab Hle Hv Hi HSi. unfold read_chunk_index_entries_from_reader, chunk_index_entry_count. rewrite Hi, HSi. unfold CHUNK_ENTRY_LEN.
  pose proof (Z.div_mod (b - a) 40 ltac:(done)) as Hdm. split.
  - intros row s Hr. destruct (Z.eqb_spec ((b - a) `mod` 40) 0) as [Hmod|]; [|done]. cbn [negb mbind result_bind] in Hr.
    apply bind_ok in Hr as ([] & _ & Hr). apply io_ok in Hr. pose proof (read_n_entries_length _ _ _ _ Hr) as Hlen.
    pose proof (Z.div_pos (b - a) 40 ltac:(lia) ltac:(lia)) as Hdp. pose proof (read_entries_stream _ _ _ _ _ Ha Hle Hr) as [-> Hfit].
    rewrite Z2Nat.id in * by done. unfold CHUNK_ENTRY_LEN in *. replace (a + 40 * ((b - a) `div` 40)) with b in * by lia.
    split; [|done]. unfold row_at, zlen, CHUNK_ENTRY_LEN. rewrite Hlen, Z2Nat.id by done. split; [lia|]. done.
  - intros row (Hb & Hfit & Hr). unfold CHUNK_ENTRY_LEN in Hb. replace (b - a) with (zlen row * 40) by lia. rewrite Z_mod_mult, Z_div_mult by lia.
    cbn. unfold entries_with_capacity. pose proof (zlen_nonneg row). rewrite (proj2 (Z.ltb_ge _ _)) by lia. cbn. unfold zlen. rewrite Nat2Z.id.
    by rewrite Hr.
Qed.

Lemma range_row file r a b row : r = mk_index_reader file (ir_num_series r) (ir_data_start r) (ir_offsets r) → 0 ≤ a → a ≤ b → vec_ok file →
  ir_data_start r ≤ a → row_at file a b row → read_entries_range r (mk_range a (b - a)) = Ok row.
Proof.
  intros Hr Ha Hab Hv Hstart (Hb & Hfit & Hread). unfold read_entries_range. cbn [cr_offset cr_len]. unfold CHUNK_ENTRY_LEN in Hb.
  destruct (Z.eqb_spec (b - a) 0) as [H0|H0]; [by rewrite (zlen_0 row) by lia|].
  unfold validate_entry_range, range_end. cbn [cr_offset cr_len]. rewrite (proj2 (Z.ltb_ge _ _)) by done.
  rewrite checked_add_u64_fits by lia. cbn [ok_or mbind result_bind]. unfold CHUNK_ENTRY_LEN.
  replace (b - a) with (zlen row * 40) by lia. rewrite Z_mod_mult. cbn [Z.eqb negb mbind result_bind]. rewrite Hr. cbn [ir_file].
  rewrite seek_start_ok by lia. cbn [mbind result_bind]. rewrite read_exact_stream by lia. cbn [mbind result_bind].
  replace (a + zlen row * 40) with b by lia. unfold decode_chunk_entries_from_bytes, CHUNK_ENTRY_LEN. rewrite zlen_slice by lia.
  replace (b - a) with (zlen row * 40) by lia. rewrite Z_mod_mult, Z_div_mult by lia. cbn [Z.eqb negb]. unfold zlen at 1. rewrite Nat2Z.id.
  unfold stream in Hread. rewrite <- (slice_drop file a b) in Hread by lia.
  assert (zlen (slice file a b) = CHUNK_ENTRY_LEN * Z.of_nat (length row)) as Hz.
  { rewrite zlen_slice by lia. unfold CHUNK_ENTRY_LEN, zlen in *. lia. }
  rewrite read_entries_prefix in Hread by done. by destruct (read_n_entries (length row) (slice file a b)) as [[es s]|]; [injection Hread as -> _|].
Qed.

(** ** The readers agree *)

Section agree.
Context (file : list Z) (num : Z) (offsets : list Z) (Hb : bytes file) (Hv : vec_ok file) (Ho : offsets_ok file num offsets).
Abbreviation data_start := (CHUNK_INDEX_HEADER_LEN + (num + 1) * 8).

(** The rows from [i] on. *)
Definition rows_from (i : nat) (rows : list (list ChunkIndexEntry)) : Prop :=
  ∀ k row, rows !! k = Some row → row_at file (offset_at file (i + k)) (offset_at file (S (i + k))) row.

Lemma rows_from_cons i row rows : row_at file (offset_at file i) (offset_at file (S i)) row → rows_from (S i) rows → rows_from i (row :: rows).
Proof.
  intros Hrow Hrows [|k] row' Hk; cbn in Hk; [injection Hk as <-; by rewrite Nat.add_0_r|].
  rewrite <- Nat.add_succ_comm. by apply Hrows.
Qed.
Lemma reader_row_at i : (i < Z.to_nat num)%nat → offset_at file i ≤ zlen file →
  (∀ row s, read_chunk_index_entries_from_reader (stream file (offset_at file i)) offsets i = Ok (row, s) →
    row_at file (offset_at file i) (offset_at file (S i)) row ∧ s = stream file (offset_at file (S i))) ∧
  (∀ row, row_at file (offset_at file i) (offset_at file (S i)) row →
    read_chunk_index_entries_from_reader (stream file (offset_at file i)) offsets i = Ok (row, stream file (offset_at file (S i)))).
Proof.
  intros Hi Hle. pose proof (oo_num _ _ _ Ho) as [Hn _]. pose proof (offset_at_ge _ _ _ i Ho ltac:(lia)) as Hge. unfold CHUNK_INDEX_HEADER_LEN in Hge.
  apply reader_row; [lia|by apply (oo_order _ _ _ Ho)|done|done|apply (offsets_lookup _ num); [done|lia]..].
Qed.

Lemma read_rows_inv n : ∀ i rows, (i + n ≤ Z.to_nat num)%nat → offset_at file i ≤ zlen file →
  read_rows n (stream file (offset_at file i)) offsets i = Ok rows → length rows = n ∧ rows_from i rows.
Proof.
  induction n as [|n IH]; intros i rows Hi Hle Hr; cbn [read_rows] in Hr; [injection Hr as <-; by split|].
  apply bind_ok in Hr as ([row s] & Hrow & Hr). apply bind_ok in Hr as (rows' & Hrest & Hr). injection Hr as <-.
  apply (proj1 (reader_row_at i ltac:(lia) Hle)) in Hrow as [Hrow ->].
  destruct (IH (S i) rows') as [Hlen Hrows]; [lia|apply Hrow|done|]. split; [cbn; lia|by apply rows_from_cons].
Qed.

(** The visitor on a list of rows. *)
Fixpoint visit_list {St} (visit : Z → list ChunkIndexEntry → St → io_result unit * St) (i : nat) (rows : list (list ChunkIndexEntry)) (st : St) : run unit * St :=
  match rows with
  | [] => (Ok tt, st)
  | row :: rows =>
      match visit (Z.of_nat i) row st with
      | (Err e, st) => (Err (Io e), st)
      | (Ok _, st) => visit_list visit (S i) rows st
      end
  end.
Lemma visit_rows_list {St} (visit : Z → list ChunkIndexEntry → St → io_result unit * St) rows : ∀ i st, (i + length rows ≤ Z.to_nat num)%nat →
  offset_at file i ≤ zlen file → rows_from i rows →
  visit_rows visit (length rows) (stream file (offset_at file i)) offsets i st = visit_list visit i rows st.
Proof.
  induction rows as [|row rows IH]; intros i st Hi Hle Hrows; cbn [length visit_rows visit_list] in *; [done|].
  pose proof (Hrows O row eq_refl) as Hrow. rewrite Nat.add_0_r in Hrow. pose proof (oo_num _ _ _ Ho) as [Hn Hmax].
  rewrite (proj2 (reader_row_at i ltac:(lia) Hle) row Hrow), try_u32_fits by (split; lia).
  destruct (visit (Z.of_nat i) row st) as [[u|e] st']; [|done]. apply IH; [lia|apply Hrow|].
  intros k row' Hk. rewrite Nat.add_succ_comm. by apply Hrows.
Qed.

Lemma read_entries_row r i row : r = mk_index_reader file num data_start (ir_offsets r) → (i < Z.to_nat num)%nat → offset_at file i ≤ zlen file →
  row_at file (offset_at file i) (offset_at file (S i)) row → read_entries r (Z.of_nat i) = Ok (Some row).
Proof.
  intros Hr Hi Hle Hrow. unfold read_entries, index_len, read_chunk_index_offset_pair. rewrite Hr. cbn [ir_file ir_num_series ir_data_start].
  pose proof (oo_num _ _ _ Ho) as [Hn Hmax]. pose proof (oo_fits _ _ _ Ho) as Hfits. pose proof (offset_at_ge _ _ _ i Ho ltac:(lia)) as Hge.
  pose proof (oo_order _ _ _ Ho i Hi) as Hord. rewrite !(proj2 (Z.leb_gt _ _)) by lia. unfold CHUNK_INDEX_HEADER_LEN in *.
  replace (12 + Z.of_nat i * 8) with (12 + 8 * Z.of_nat i) by lia. rewrite seek_start_ok by lia. cbn [mbind result_bind]. unfold read_exact_u64.
  rewrite read_exact_stream by lia. cbn [mbind result_bind]. rewrite read_exact_stream by lia. cbn [mbind result_bind].
  change (of_le (slice file (12 + 8 * Z.of_nat i) (12 + 8 * Z.of_nat i + 8))) with (offset_at file i).
  replace (12 + 8 * Z.of_nat i + 8) with (12 + 8 * Z.of_nat (S i)) by lia.
  change (of_le (slice file (12 + 8 * Z.of_nat (S i)) (12 + 8 * Z.of_nat (S i) + 8))) with (offset_at file (S i)).
  rewrite !(proj2 (Z.ltb_ge _ _)) by lia. cbn [orb io mbind result_bind]. unfold read_chunk_index_entries.
  change ([offset_at file i; offset_at file (S i)] !! O) with (Some (offset_at file i)). cbv iota.
  rewrite seek_start_ok by lia. cbn [io mbind result_bind].
  rewrite (proj2 (reader_row file [offset_at file i; offset_at file (S i)] 0 (offset_at file i) (offset_at file (S i)) ltac:(lia) Hord Hle Hv eq_refl eq_refl) row Hrow).
  done.
Qed.
End agree.

(** What a file that reads as a whole gives through the other readers. *)
Lemma readers_agree file rows : bytes file → vec_ok file → read_chunk_index file = Ok rows →
  ∃ r offsets, index_open file = Ok r ∧ index_len r = zlen rows ∧ offsets_ok file (zlen rows) offsets ∧
    (∀ i, 0 ≤ i → read_entries r i = Ok (rows !! Z.to_nat i)) ∧
    (∀ i row, rows !! i = Some row → read_entries_range r (mk_range (offset_at file i) (offset_at file (S i) - offset_at file i)) = Ok row) ∧
    (∀ St (visit : Z → list ChunkIndexEntry → St → io_result unit * St) st, ∃ r', for_each_series_entries visit r st =
      let '(res, st) := visit_list visit 0 rows st in (res, r', st)).
Proof.
  intros Hb Hv Hr. unfold read_chunk_index in Hr. apply bind_ok in Hr as (offsets & Hos%io_ok & Hr).
  destruct (read_offsets_ok _ _ Hb Hos) as [num Ho]. pose proof (offsets_lookup _ _ _ 0 Ho ltac:(lia)) as H0.
  pose proof (oo_num _ _ _ Ho) as [Hn Hmax]. pose proof (oo_fits _ _ _ Ho) as Hfits. pose proof (oo_first _ _ _ Ho) as Hfirst.
  rewrite (offsets_length _ _ _ Ho) in Hr. rewrite head_lookup, H0 in Hr. cbn [default from_option id pred] in Hr.
  assert (offset_at file 0 ≤ zlen file) as Hle by lia. unfold CHUNK_INDEX_HEADER_LEN in *.
  rewrite seek_start_ok in Hr by lia. cbn [io mbind result_bind] in Hr.
  apply (read_rows_inv file num offsets Hv Ho) in Hr as [Hlen Hrows]; [|lia|done].
  assert (num = zlen rows) as -> by (unfold zlen; lia).
  assert (∀ i row, rows !! i = Some row → (i < length rows)%nat ∧ offset_at file i ≤ zlen file ∧ row_at file (offset_at file i) (offset_at file (S i)) row) as Hat.
  { intros i row Hi. pose proof (lookup_lt_Some _ _ _ Hi) as Hlt. specialize (Hrows i row Hi) as Hrow. cbn in Hrow. split; [done|]. split; [|done].
    destruct Hrow as (Hrb & Hrf & _). pose proof (zlen_nonneg row). unfold CHUNK_ENTRY_LEN in Hrb. lia. }
  exists (mk_index_reader file (zlen rows) (12 + (zlen rows + 1) * 8) None), offsets. split; [|split; [done|split; [done|split; [|split]]]].
  - unfold index_open. rewrite (oo_header _ _ _ Ho). done.
  - intros i Hi. destruct (rows !! Z.to_nat i) as [row|] eqn:Hrow.
    + destruct (Hat _ _ Hrow) as (Hlt & Hle' & Hra). rewrite <- (Z2Nat.id i) at 1 by done.
      apply (read_entries_row file (zlen rows) offsets Hv Ho); [done|lia|done|done].
    + apply lookup_ge_None in Hrow. unfold read_entries, index_len. cbn [ir_num_series]. rewrite (proj2 (Z.leb_le _ _)); [done|]. unfold zlen. lia.
  - intros i row Hi. destruct (Hat _ _ Hi) as (Hlt & Hle' & Hra). pose proof (offset_at_ge _ _ _ i Ho ltac:(lia)) as Hge.
    pose proof (oo_order _ _ _ Ho i ltac:(lia)). unfold CHUNK_INDEX_HEADER_LEN in Hge. apply (range_row file); [done|lia|done|done|exact Hge|done].
  - intros St visit st. exists (mk_index_reader file (zlen rows) (12 + (zlen rows + 1) * 8) (Some offsets)). unfold for_each_series_entries, index_len.
    cbn [ir_offsets ir_file ir_num_series ir_data_start]. rewrite Hos, head_lookup, H0, seek_start_ok by lia.
    replace (Z.to_nat (zlen rows)) with (length rows) by (unfold zlen; lia).
    rewrite (visit_rows_list file (zlen rows) offsets Hv Ho) by (lia || done). done.
Qed.

(** ** What was written *)

(** Where the rows start, and where the last one ends. *)
Fixpoint offsets_from (cursor : Z) (rows : list (list ChunkIndexEntry)) : list Z :=
  cursor :: match rows with [] => [] | row :: rows => offsets_from (cursor + CHUNK_ENTRY_LEN * zlen row) rows end.
Definition row_bytes (row : list ChunkIndexEntry) : list Z := mjoin (write_chunk_entry <$> sort_by entry_compare row).

Lemma length_offsets_from rows : ∀ c, length (offsets_from c rows) = S (length rows).
Proof. induction rows as [|row rows IH]; intros c; cbn; [done|]. by rewrite IH. Qed.
Lemma offsets_from_cons c rows : ∃ os, offsets_from c rows = c :: os.
Proof. destruct rows; by eexists. Qed.

Lemma ranges_loop_spec rows : ∀ c ranges, in_u64 c → ranges_loop c rows = Ok ranges →
  Forall in_u64 (offsets_from c rows) ∧
  (cr_offset <$> ranges) ++ [match last ranges with Some g => saturating_add_u64 (cr_offset g) (cr_len g) | None => c end] = offsets_from c rows ∧
  ∀ i g, ranges !! i = Some g → ∃ b, offsets_from c rows !! i = Some (cr_offset g) ∧ offsets_from c rows !! S i = Some b ∧ cr_len g = b - cr_offset g.
Proof.
  induction rows as [|row rows IH]; intros c ranges Hc Hr; cbn [ranges_loop offsets_from] in *.
  { injection Hr as <-. split; [by apply Forall_singleton|]. split; [done|by intros i g]. }
  apply bind_ok in Hr as (len & Hlen & Hr). destruct (checked_mul_u64 _ _) as [l|] eqn:Hmul; [|done]. injection Hlen as ->.
  apply bind_ok in Hr as (len' & Hlen & Hr). destruct (try_u32 len) as [l|] eqn:Hu; [|done]. injection Hlen as <-.
  apply bind_ok in Hr as (next & Hnext & Hr). destruct (checked_add_u64 c l) as [n|] eqn:Hadd; [|done]. injection Hnext as ->.
  apply bind_ok in Hr as (ranges' & Hrest & Hr). injection Hr as <-.
  apply try_u32_Some in Hu as [-> Hu]. apply checked_add_u64_Some in Hadd as [-> Hadd].
  assert (len = CHUNK_ENTRY_LEN * zlen row) as -> by (unfold checked_mul_u64 in Hmul; case_match; [injection Hmul as <-; lia|done]).
  assert (in_u64 (c + CHUNK_ENTRY_LEN * zlen row)) as Hnext by (unfold in_u64, in_u32 in *; lia).
  destruct (IH _ _ Hnext Hrest) as (Hall & Heq & Hat). destruct (offsets_from_cons (c + CHUNK_ENTRY_LEN * zlen row) rows) as [os Hos].
  split; [by constructor|]. split.
  - rewrite <- Heq. cbn. f_equal. f_equal. f_equal. destruct ranges' as [|g ranges']; [|by rewrite (last_cons _ (g :: ranges')), last_cons; destruct (last ranges')].
    cbn. unfold saturating_add_u64. lia.
  - intros [|i] g Hi; cbn [lookup list_lookup] in Hi.
    + injection Hi as <-. exists (c + CHUNK_ENTRY_LEN * zlen row). cbn [cr_offset cr_len]. rewrite Hos. split_and!; [done|done|]. lia.
    + destruct (Hat i g Hi) as (b & H1 & H2 & H3). by exists b.
Qed.

Lemma read_written_rows rows rest offsets : vec_ok (mjoin (row_bytes <$> rows)) → Forall (Forall entry_fits) rows → ∀ i c, 0 ≤ c →
  (∀ k, (k ≤ length rows)%nat → offsets !! (i + k)%nat = offsets_from c rows !! k) →
  read_rows (length rows) (mjoin (row_bytes <$> rows) ++ rest) offsets i = Ok (sort_by entry_compare <$> rows).
Proof.
  intros Hv Hrows. induction Hrows as [|row rows Hrow _ IH]; intros i c Hc Hos; [done|]. rewrite join_fmap_cons, <- app_assoc. cbn [length read_rows].
  rewrite join_fmap_cons, zlen_app in Hv. pose proof (zlen_nonneg (mjoin (row_bytes <$> rows))).
  assert (zlen (row_bytes row) = CHUNK_ENTRY_LEN * zlen row) as Hz.
  { unfold row_bytes. rewrite zlen_entries. unfold zlen. by rewrite (sort_by_perm entry_compare row). }
  destruct (offsets_from_cons (c + CHUNK_ENTRY_LEN * zlen row) rows) as [os Hcons].
  pose proof (Hos 0%nat ltac:(cbn; lia)) as H0. pose proof (Hos 1%nat ltac:(cbn; lia)) as H1. cbn [offsets_from lookup list_lookup] in H0, H1.
  rewrite Hcons in H1. cbn in H1. rewrite Nat.add_0_r in H0. rewrite Nat.add_1_r in H1.
  unfold read_chunk_index_entries_from_reader, chunk_index_entry_count. rewrite H0, H1.
  replace (c + CHUNK_ENTRY_LEN * zlen row - c) with (zlen row * CHUNK_ENTRY_LEN) by lia. rewrite Z_mod_mult, Z_div_mult by done. cbn [Z.eqb negb mbind result_bind].
  unfold entries_with_capacity. unfold CHUNK_ENTRY_LEN in *. rewrite (proj2 (Z.ltb_ge _ _)) by lia. cbn [mbind result_bind].
  unfold row_bytes at 1. unfold zlen at 1. rewrite Nat2Z.id, <- (Permutation_length (sort_by_perm entry_compare row)).
  rewrite read_written_entries by by rewrite sort_by_perm. cbn [io mbind result_bind].
  pose proof (zlen_nonneg row). rewrite (IH ltac:(lia) (S i) (c + 40 * zlen row)); [done|lia|].
  intros k Hk. rewrite Nat.add_succ_comm. apply (Hos (S k)). cbn. lia.
Qed.

Lemma bytes_entry e : is_byte (ce_file_id e) → bytes (write_chunk_entry e).
Proof.
  intros Hi. unfold write_chunk_entry. rewrite !Forall_app. split_and!; try (by apply bytes_le_bytes); apply Forall_singleton; [done|].
  destruct (ce_kind e); cbn; unfold is_byte; lia.
Qed.

(** The file as its parts. *)
Lemma write_chunk_index_ok rows file : zlen rows ≤ u32_max → write_chunk_index rows = Ok file → ∃ ranges,
  chunk_index_ranges rows = Ok ranges ∧ ranges_loop (CHUNK_INDEX_HEADER_LEN + (zlen rows + 1) * 8) rows = Ok ranges ∧
  file = (le_bytes 4 CHUNK_INDEX_MAGIC ++ le_bytes 2 1 ++ le_bytes 2 0 ++ le_bytes 4 (zlen rows))
    ++ mjoin (le_bytes 8 <$> offsets_from (CHUNK_INDEX_HEADER_LEN + (zlen rows + 1) * 8) rows) ++ mjoin (row_bytes <$> rows).
Proof.
  intros Hn Hw. unfold write_chunk_index in Hw. apply bind_ok in Hw as (ranges & Hranges & Hw). exists ranges. split; [done|].
  pose proof (zlen_nonneg rows). unfold chunk_index_ranges in Hranges. rewrite checked_add_u64_fits in Hranges by lia. cbn [ok_or mbind result_bind] in Hranges.
  assert (checked_mul_u64 (zlen rows + 1) 8 = Some ((zlen rows + 1) * 8)) as Hmul by (unfold checked_mul_u64; by rewrite (proj2 (Z.leb_le _ _)) by lia).
  rewrite Hmul in Hranges. cbn [ok_or mbind result_bind] in Hranges.
  unfold CHUNK_INDEX_HEADER_LEN in *. split; [done|]. injection Hw as <-. rewrite Z.mod_small by lia.
  destruct (ranges_loop_spec rows (12 + (zlen rows + 1) * 8) ranges ltac:(unfold in_u64; lia) Hranges) as (_ & Heq & _). rewrite <- Heq, fmap_app, <- list_fmap_compose, join_app.
  rewrite <- !app_assoc. do 5 f_equal. cbn [fmap list_fmap mjoin list_join]. rewrite app_nil_r. do 2 f_equal.
  destruct rows as [|row rows]; [by injection Hranges as <-|]. destruct ranges as [|g ranges]; [|by rewrite last_cons; destruct (last ranges)].
  by apply (f_equal length) in Heq; rewrite length_offsets_from in Heq.
Qed.

Lemma read_written_magic num s : in_u32 num → vec_ok (le_bytes 4 num ++ s) →
  read_magic ((le_bytes 4 CHUNK_INDEX_MAGIC ++ le_bytes 2 1 ++ le_bytes 2 0 ++ le_bytes 4 num) ++ s) = Ok (num, s).
Proof.
  intros Hn Hv. unfold read_magic. rewrite seek_start_ok by done. cbn [mbind result_bind]. unfold stream. rewrite drop_0, <- !app_assoc.
  unfold read_exact_u32. rewrite read_exact_app by done. cbn [mbind result_bind]. rewrite of_le_fixed, Z.eqb_refl by done. cbn [negb].
  unfold read_exact_u16. rewrite read_exact_app by done. cbn [mbind result_bind]. rewrite of_le_fixed, Z.eqb_refl by done. cbn [negb].
  rewrite read_exact_app by done. cbn [mbind result_bind]. rewrite read_exact_app by done. cbn [mbind result_bind].
  rewrite of_le_fixed; [done|done|]. unfold in_u32 in Hn. change (2 ^ (4 * 8)) with (u32_max + 1). lia.
Qed.

Definition rows_ok (rows : list (list ChunkIndexEntry)) : Prop := zlen rows ≤ u32_max ∧ Forall (Forall entry_fits) rows.

Lemma written_ordered rows c : out_of_order (offsets_from c rows) = false.
Proof.
  revert c. induction rows as [|row rows IH]; intros c; [done|]. cbn [offsets_from]. specialize (IH (c + CHUNK_ENTRY_LEN * zlen row)).
  destruct (offsets_from_cons (c + CHUNK_ENTRY_LEN * zlen row) rows) as [os Hos]. rewrite Hos in *. cbn [out_of_order] in *. rewrite IH.
  rewrite (proj2 (Z.ltb_ge _ _)); [done|]. pose proof (zlen_nonneg row). unfold CHUNK_ENTRY_LEN. lia.
Qed.
Lemma zlen_offsets l : zlen (mjoin (le_bytes 8 <$> l)) = 8 * zlen l.
Proof. induction l as [|o l IH]; [done|]. rewrite join_fmap_cons, zlen_app, zlen_cons, zlen_le_bytes, IH by done. lia. Qed.

(** The whole file reads back, each series in order. *)
Lemma read_written_index rows file : rows_ok rows → write_chunk_index rows = Ok file → vec_ok file →
  bytes file ∧ read_chunk_index_offsets file = Ok (offsets_from (CHUNK_INDEX_HEADER_LEN + (zlen rows + 1) * 8) rows) ∧
  read_chunk_index file = Ok (sort_by entry_compare <$> rows).
Proof.
  intros [Hn Hrows] Hw Hv. destruct (write_chunk_index_ok rows file Hn Hw) as (ranges & _ & Hranges & Hfile).
  pose proof (zlen_nonneg rows). set (start := CHUNK_INDEX_HEADER_LEN + (zlen rows + 1) * 8) in *.
  assert (0 ≤ start ∧ start ≤ i64_max) as [Hstart Hmax] by (unfold start, CHUNK_INDEX_HEADER_LEN; lia).
  destruct (ranges_loop_spec rows start ranges ltac:(unfold in_u64; lia) Hranges) as (Hall & _ & _).
  assert (zlen ((le_bytes 4 CHUNK_INDEX_MAGIC ++ le_bytes 2 1 ++ le_bytes 2 0 ++ le_bytes 4 (zlen rows)) ++ mjoin (le_bytes 8 <$> offsets_from start rows)) = start) as Hpre.
  { assert (zlen (offsets_from start rows) = zlen rows + 1) as Hz by (unfold zlen; rewrite length_offsets_from; lia).
    rewrite zlen_app, zlen_offsets, Hz. autorewrite with zlen. unfold start, CHUNK_INDEX_HEADER_LEN. lia. }
  assert (read_chunk_index_offsets file = Ok (offsets_from start rows)) as Hos.
  { unfold read_chunk_index_offsets. rewrite Hfile, read_written_magic; [|unfold in_u32; lia|].
    2: { rewrite Hfile in Hv. rewrite !zlen_app in *. pose proof (zlen_nonneg (le_bytes 4 CHUNK_INDEX_MAGIC)).
         pose proof (zlen_nonneg (le_bytes 2 1)). pose proof (zlen_nonneg (le_bytes 2 0)). lia. }
    cbn [mbind result_bind]. replace (S (Z.to_nat (zlen rows))) with (length (offsets_from start rows)) by (rewrite length_offsets_from; unfold zlen; lia).
    rewrite read_written_offsets by done. cbn [mbind result_bind]. fold start.
    destruct (offsets_from_cons start rows) as [os Hcons]. rewrite written_ordered, bool_decide_eq_true_2; [done|by rewrite Hcons]. }
  split; [|split; [done|]].
  - rewrite Hfile, !Forall_app. split_and!; try (by apply bytes_le_bytes); [by apply (bytes_join _ in_u64); [intros; apply bytes_le_bytes|]|].
    apply (bytes_join _ (Forall entry_fits)); [|done]. intros row Hrow. apply (bytes_join _ entry_fits); [by intros e [He _]; apply bytes_entry|].
    by rewrite sort_by_perm.
  - unfold read_chunk_index. rewrite Hos. cbn [io mbind result_bind]. destruct (offsets_from_cons start rows) as [os Hcons].
    rewrite Hcons at 1. cbn [head default from_option id]. rewrite seek_start_ok by done. cbn [io mbind result_bind].
    rewrite length_offsets_from, Hfile, app_assoc, stream_app by done. cbn [pred]. rewrite <- (app_nil_r (mjoin (row_bytes <$> rows))).
    apply (read_written_rows rows [] _) with (c := start); try done. rewrite Hfile, !zlen_app in Hv.
    pose proof (zlen_nonneg (le_bytes 4 CHUNK_INDEX_MAGIC)). pose proof (zlen_nonneg (le_bytes 2 1)). pose proof (zlen_nonneg (le_bytes 2 0)).
    pose proof (zlen_nonneg (le_bytes 4 (zlen rows))). pose proof (zlen_nonneg (mjoin (le_bytes 8 <$> offsets_from start rows))). lia.
Qed.

#[export] Instance entry_order : TotalOrder entry_compare.
Proof. unfold entry_compare. apply _. Qed.

(** By the earliest time, then by the latest, then by place in the file. *)
Definition entry_before (a b : ChunkIndexEntry) : Prop :=
  ce_min_time_ms a < ce_min_time_ms b ∨ ce_min_time_ms a = ce_min_time_ms b ∧
    (ce_max_time_ms a < ce_max_time_ms b ∨ ce_max_time_ms a = ce_max_time_ms b ∧ ce_offset a ≤ ce_offset b).
Lemma sorted_entries row : StronglySorted entry_before (sort_by entry_compare row).
Proof.
  eapply StronglySorted_impl; [|apply (sort_by_sorted entry_compare)]. intros a b. unfold cmp_le, entry_compare, then_with, entry_before.
  destruct (Z.compare_spec (ce_min_time_ms a) (ce_min_time_ms b)), (Z.compare_spec (ce_max_time_ms a) (ce_max_time_ms b)),
    (Z.compare_spec (ce_offset a) (ce_offset b)); (done || lia).
Qed.

(** C12: what is written to a chunk index reads back.  Every series's entries, in
    the stable order of their times and offsets, are what reading the whole file
    gives, what the reader gives for the series (and nothing past the last one),
    what it gives for the range that was handed out for the series, and what the
    visitor sees, series by series; no reader panics. *)
Theorem chunk_index_reads_back rows file : rows_ok rows → write_chunk_index rows = Ok file → vec_ok file →
  let sorted := sort_by entry_compare <$> rows in
  read_chunk_index file = Ok sorted ∧ Forall (StronglySorted entry_before) sorted ∧
  ∃ r ranges, index_open file = Ok r ∧ index_len r = zlen rows ∧ chunk_index_ranges rows = Ok ranges ∧ length ranges = length rows ∧
    (∀ i, 0 ≤ i → read_entries r i = Ok (sorted !! Z.to_nat i)) ∧
    (∀ i range row, ranges !! i = Some range → sorted !! i = Some row → read_entries_range r range = Ok row) ∧
    (∀ St (visit : Z → list ChunkIndexEntry → St → io_result unit * St) st, ∃ r', for_each_series_entries visit r st =
      let '(res, st) := visit_list visit 0 sorted st in (res, r', st)).
Proof.
  intros Hok Hw Hv sorted. destruct (read_written_index rows file Hok Hw Hv) as (Hb & Hos & Hread). fold sorted in Hread. split; [done|]. split.
  { apply Forall_fmap, Forall_forall. intros row _. apply sorted_entries. }
  destruct (readers_agree file sorted Hb Hv Hread) as (r & offsets & Hopen & Hlen & Ho & Hentries & Hrange & Hvisit).
  assert (zlen sorted = zlen rows) as Hz by (unfold zlen, sorted; by rewrite length_fmap). rewrite Hz in *.
  destruct (write_chunk_index_ok rows file (proj1 Hok) Hw) as (ranges & Hranges & Hloop & _). exists r, ranges.
  pose proof (zlen_nonneg rows). set (start := CHUNK_INDEX_HEADER_LEN + (zlen rows + 1) * 8) in *.
  assert (in_u64 start) as Hstart by (destruct Hok; unfold in_u64, start, CHUNK_INDEX_HEADER_LEN; lia).
  destruct (ranges_loop_spec rows start ranges Hstart Hloop) as (_ & Heq & Hat). apply (f_equal length) in Heq as Hlr.
  rewrite length_app, length_fmap, length_offsets_from, Nat.add_1_r in Hlr. injection Hlr as Hlr.
  do 5 (split; [done|]). split; [|done]. intros i range row Hi Hrow. destruct (Hat i range Hi) as (b & Ha & Hb' & Hrl).
  assert (offsets_from start rows = offset_at file <$> seq 0 (S (Z.to_nat (zlen rows)))) as Hall.
  { destruct (read_offsets_ok file _ Hb Hos) as [n Ho']. pose proof (oo_header _ _ _ Ho') as Hh. rewrite (oo_header _ _ _ Ho) in Hh.
    injection Hh as -> _. apply (oo_offsets _ _ _ Ho'). }
  apply lookup_lt_Some in Hi as Hlt. rewrite Hlr in Hlt. rewrite Hall, list_lookup_fmap, lookup_seq_lt in Ha, Hb' by (unfold zlen; lia).
  injection Ha as Ha. injection Hb' as Hb'. rewrite <- (Hrange i row Hrow). f_equal. destruct range as [o l]. cbn in *. rewrite Ha, Hb'. by f_equal.
Qed.

(** ** Batches of ranges *)

Section batch.
Context (r : ChunkIndexReader) (Hv : vec_ok (ir_file r)).
Abbreviation file := (ir_file r).

(** What a non-empty range that passes the checks reads. *)
Definition reads (g : ChunkIndexRange) (es : list ChunkIndexEntry) : Prop :=
  cr_offset g + cr_len g ≤ zlen file ∧ decode_chunk_entries_from_bytes (slice file (cr_offset g) (cr_offset g + cr_len g)) = Ok es.
Definition range_fits (g : ChunkIndexRange) : Prop := in_u64 (cr_offset g) ∧ in_u32 (cr_len g).
Definition kept (g : ChunkIndexRange) : Prop := range_fits g ∧ 0 < cr_len g ∧ cr_offset g + cr_len g ≤ u64_max.

Lemma validate_end g : validate_entry_range r g = Ok tt → cr_offset g + cr_len g ≤ u64_max.
Proof.
  unfold validate_entry_range, range_end. intros Hval. case_match; [done|]. apply bind_ok in Hval as (e & He & _).
  destruct (checked_add_u64 _ _) as [e'|] eqn:Hadd; [|done]. by apply checked_add_u64_Some in Hadd as [_ ?].
Qed.
Lemma read_range_inv g es : range_fits g → cr_len g ≠ 0 → read_entries_range r g = Ok es ↔ validate_entry_range r g = Ok tt ∧ reads g es.
Proof.
  intros [[Ho _] [Hl _]] H0. unfold read_entries_range. rewrite (proj2 (Z.eqb_neq _ _)) by done. split.
  - intros Hr. apply bind_ok in Hr as ([] & Hval & Hr). split; [done|]. apply bind_ok in Hr as (s & Hs & Hr). apply seek_start_inv in Hs as [-> _]; [|done].
    apply bind_ok in Hr as ([bs s] & Hx & Hr). apply read_exact_stream_inv in Hx as (Hfit & -> & _); [|lia..]. by split.
  - intros [-> [Hfit Hd]]. cbn [mbind result_bind]. rewrite seek_start_ok by lia. cbn [mbind result_bind].
    rewrite read_exact_stream by lia. done.
Qed.

Lemma partition_inv ranges : ∀ out ne, partition_ranges r ranges = Ok (out, ne) →
  ne = filter (λ g, cr_len g ≠ 0) ranges ∧ Forall (λ g, validate_entry_range r g = Ok tt) ne ∧
  (∀ g, g ∈ ranges → cr_len g = 0 → out !! g = Some []) ∧ (∀ g, g ∉ ranges ∨ cr_len g ≠ 0 → out !! g = None).
Proof.
  induction ranges as [|g ranges IH]; intros out ne Hp; cbn [partition_ranges] in Hp.
  { injection Hp as <- <-. split_and!; [done|constructor|by intros g ?%not_elem_of_nil|done]. }
  rewrite filter_cons. destruct (Z.eqb_spec (cr_len g) 0) as [H0|H0].
  - apply bind_ok in Hp as ([out' ne'] & Hp & Heq). injection Heq as <- <-. destruct (IH _ _ Hp) as (Hne & Hval & Hin & Hout).
    rewrite decide_False by naive_solver. split_and!; [done|done| |].
    + intros h [->|Hh]%elem_of_cons Hh0; [apply lookup_insert_eq|]. destruct (decide (h = g)) as [->|]; [apply lookup_insert_eq|].
      rewrite lookup_insert_ne by done. by apply Hin.
    + intros h Hh. rewrite lookup_insert_ne by (intros ->; destruct Hh as [Hh|]; [apply Hh; by left|done]).
      apply Hout. destruct Hh as [Hh|]; [left; intros ?; apply Hh; by right|by right].
  - apply bind_ok in Hp as ([] & Hv0 & Hp). apply bind_ok in Hp as ([out' ne'] & Hp & Heq). injection Heq as <- <-.
    destruct (IH _ _ Hp) as (-> & Hval & Hin & Hout). rewrite decide_True by done. split_and!; [done|by constructor| |].
    + intros h [->|Hh]%elem_of_cons Hh0; [done|by apply Hin].
    + intros h Hh. apply Hout. destruct Hh as [Hh|]; [left; intros ?; apply Hh; by right|by right].
Qed.
Lemma partition_ok ranges : Forall (λ g, cr_len g ≠ 0 → validate_entry_range r g = Ok tt) ranges → ∃ p, partition_ranges r ranges = Ok p.
Proof.
  induction 1 as [|g ranges Hg _ [[out ne] IH]]; [by eexists|]. cbn [partition_ranges]. rewrite IH.
  destruct (Z.eqb_spec (cr_len g) 0) as [|H0]; [by eexists|]. rewrite (Hg H0). by eexists.
Qed.

Lemma dedup_elem g l : g ∈ dedup_ranges l ↔ g ∈ l.
Proof.
  induction l as [|x [|y l] IH]; [done|done|]. cbn [dedup_ranges] in *. destruct (bool_decide_reflect (x = y)) as [->|].
  - rewrite IH, !elem_of_cons. naive_solver.
  - by rewrite elem_of_cons, IH, (elem_of_cons _ _ x).
Qed.

(** The ranges of [l] are answered in [out'], the others left as they were. *)
Definition answers (l : list ChunkIndexRange) (out out' : entry_map) : Prop :=
  (∀ g, g ∈ l → ∃ es, reads g es ∧ out' !! g = Some es) ∧ (∀ g, g ∉ l → out' !! g = out !! g).
Lemma answers_app l k out mid out' : answers l out mid → answers k mid out' → answers (l ++ k) out out'.
Proof.
  intros [Hl Hl'] [Hk Hk']. split; intros g Hg; rewrite elem_of_app in Hg.
  - destruct (decide (g ∈ k)) as [|Hn]; [by apply Hk|]. rewrite Hk' by done. apply Hl. naive_solver.
  - rewrite Hk', Hl' by naive_solver. done.
Qed.
Lemma answers_one g es out : reads g es → answers [g] out (<[g := es]> out).
Proof.
  intros Hr. split; [intros h ->%list_elem_of_singleton; exists es; by rewrite lookup_insert_eq|].
  intros h Hh. apply lookup_insert_ne. intros ->. apply Hh. by left.
Qed.

(** A span from [a] to [b] in the file is decoded range by range. *)
Lemma decode_span_ok a b span : 0 ≤ a → b ≤ zlen file → Forall kept span → Forall (λ g, a ≤ cr_offset g ∧ cr_offset g + cr_len g ≤ b) span → ∀ out,
  (∀ out', decode_span a (slice file a b) span out = Ok out' → answers span out out') ∧
  ((∀ g, g ∈ span → ∃ es, reads g es) → ∃ out', decode_span a (slice file a b) span out = Ok out').
Proof.
  intros Ha Hb Hk Hin. induction span as [|g span IH]; intros out; cbn [decode_span].
  { split; [intros out' [= <-]; by split; [intros g ?%not_elem_of_nil|]|by eexists]. }
  apply Forall_cons_1 in Hk as [([[Ho _] [Hl _]] & Hpos & Hend) Hk], Hin as [[Hag Hgb] Hin]. specialize (IH Hk Hin).
  rewrite checked_add_u64_fits by lia. cbn [ok_or io mbind result_bind]. rewrite zlen_slice by lia. rewrite (proj2 (Z.ltb_ge _ _)) by lia.
  replace (cr_offset g - a + cr_len g) with (cr_offset g + cr_len g - a) by lia. rewrite slice_slice by lia. split.
  - intros out' Hd. apply bind_ok in Hd as (es & Hes%io_ok & Hd). apply (answers_app [g] span out (<[g := es]> out)); [|by apply IH].
    apply answers_one. split; [lia|done].
  - intros Hr. destruct (Hr g ltac:(by left)) as (es & _ & ->). cbn [io mbind result_bind]. apply IH. intros h Hh. apply Hr. by right.
Qed.

Lemma extend_span_ok l : Forall kept l → ∀ a, ∃ b span rest, extend_span a l = Ok (b, span, rest) ∧ l = span ++ rest ∧ a ≤ b ∧
  Forall (λ g, a ≤ cr_offset g ∧ cr_offset g + cr_len g ≤ b) span ∧ (b = a ∨ ∃ g, g ∈ span ∧ b = cr_offset g + cr_len g).
Proof.
  induction 1 as [|g l (Hf & Hpos & Hend) _ IH]; intros a; cbn [extend_span]; [exists a, [], []; split_and!; done || constructor; done|].
  destruct (Z.eqb_spec (cr_offset g) a) as [<-|]; [|exists (a), [], (g :: l); split_and!; done || constructor; done].
  unfold range_end. rewrite checked_add_u64_fits by done. cbn [ok_or mbind result_bind].
  destruct (IH (cr_offset g + cr_len g)) as (b & span & rest & -> & -> & Hab & Hin & Hlast). exists b, (g :: span), rest. cbn [mbind result_bind].
  split; [done|]. split; [done|]. split; [lia|]. split.
  - constructor; [lia|]. eapply Forall_impl; [exact Hin|]. intros h; cbn. lia.
  - right. destruct Hlast as [->|(h & Hh & ->)]; [exists g|exists h]; (split; [by constructor|done]).
Qed.

Lemma spans_loop_ok fuel : ∀ l out, (length l ≤ fuel)%nat → Forall kept l →
  (∀ out', spans_loop fuel file l out = Ok out' → answers l out out') ∧
  ((∀ g, g ∈ l → ∃ es, reads g es) → ∃ out', spans_loop fuel file l out = Ok out').
Proof.
  induction fuel as [|fuel IH]; intros [|first l] out Hf Hk; cbn [spans_loop length] in *; try lia.
  1, 2: (split; [intros out' [= <-]; by split; [intros g ?%not_elem_of_nil|]|by eexists]).
  apply Forall_cons_1 in Hk as [Hfk Hk]. pose proof Hfk as ([[Ho _] [Hl _]] & Hpos & Hend). unfold range_end. rewrite checked_add_u64_fits by done.
  cbn [ok_or io mbind result_bind]. destruct (extend_span_ok l Hk (cr_offset first + cr_len first)) as (b & span & rest & -> & -> & Hab & Hin & Hlast).
  cbn [io mbind result_bind]. rewrite checked_sub_u64_fits by lia. cbn [ok_or io mbind result_bind]. apply Forall_app in Hk as [Hks Hkr].
  rewrite length_app in Hf. specialize (IH rest). assert (Forall kept (first :: span)) as Hkf by by constructor.
  assert (Forall (λ g, cr_offset first ≤ cr_offset g ∧ cr_offset g + cr_len g ≤ b) (first :: span)) as Hinf.
  { constructor; [lia|]. eapply Forall_impl; [exact Hin|]. intros h; cbn. lia. }
  change (first :: span ++ rest) with ((first :: span) ++ rest). split.
  - intros out' Hs. apply bind_ok in Hs as ([] & _ & Hs). apply bind_ok in Hs as (s & Hseek%io_ok & Hs). apply seek_start_inv in Hseek as [-> _]; [|done].
    apply bind_ok in Hs as ([bs s] & Hx%io_ok & Hs). apply read_exact_stream_inv in Hx as (Hfit & -> & _); [|lia..].
    replace (cr_offset first + (b - cr_offset first)) with b in * by lia. apply bind_ok in Hs as (mid & Hd & Hs).
    apply (answers_app _ _ _ mid); [|apply (IH mid); [lia|done|done]].
    by apply (proj1 (decode_span_ok (cr_offset first) b (first :: span) Ho Hfit Hkf Hinf out)).
  - intros Hr. assert (b ≤ zlen file) as Hfit.
    { destruct Hlast as [->|(g & Hg & ->)]; [destruct (Hr first ltac:(by left)) as (es & ? & _); done|].
      destruct (Hr g) as (es & ? & _); [right; apply elem_of_app; by left|done]. }
    unfold zeroed_vec. rewrite (proj2 (Z.ltb_ge _ _)) by lia. cbn [mbind result_bind]. rewrite seek_start_ok by lia. cbn [io mbind result_bind].
    rewrite read_exact_stream by lia. cbn [io mbind result_bind]. replace (cr_offset first + (b - cr_offset first)) with b by lia.
    destruct (proj2 (decode_span_ok (cr_offset first) b (first :: span) Ho Hfit Hkf Hinf out)) as [mid ->].
    { intros g Hg. apply Hr. change (first :: span ++ rest) with ((first :: span) ++ rest). apply elem_of_app. by left. }
    apply IH; [lia|done|]. intros g Hg. apply Hr. right. apply elem_of_app. by right.
Qed.
End batch.

(** C13: reading a batch of ranges is reading each of them.  On any file, whatever
    the ranges' order, overlaps and repetitions, a batch succeeds exactly when every
    range of it reads on its own, and then holds for every range of the batch, and
    for no other, what that range reads: joining neighbours into one read of the
    file changes nothing. *)
Theorem chunk_index_batch_exact r ranges : vec_ok (ir_file r) → Forall range_fits ranges →
  (∀ out, read_entries_ranges r ranges = Ok out →
     (∀ g, g ∈ ranges → ∃ es, read_entries_range r g = Ok es ∧ out !! g = Some es) ∧ (∀ g, g ∉ ranges → out !! g = None)) ∧
  ((∃ out, read_entries_ranges r ranges = Ok out) ↔ ∀ g, g ∈ ranges → ∃ es, read_entries_range r g = Ok es).
Proof.
  intros Hv Hfits. rewrite Forall_forall in Hfits. unfold read_entries_ranges.
  assert (∀ ne, ne = filter (λ g, cr_len g ≠ 0) ranges → Forall (λ g, validate_entry_range r g = Ok tt) ne →
    Forall kept (dedup_ranges (sort_by range_compare ne)) ∧ ∀ g, g ∈ dedup_ranges (sort_by range_compare ne) ↔ g ∈ ranges ∧ cr_len g ≠ 0) as Hset.
  { intros ne -> Hval. assert (∀ g, g ∈ dedup_ranges (sort_by range_compare (filter (λ g, cr_len g ≠ 0) ranges)) ↔ g ∈ ranges ∧ cr_len g ≠ 0) as Hin.
    { intros g. rewrite dedup_elem, sort_by_perm, list_elem_of_filter. naive_solver. }
    split; [|done]. apply Forall_forall. intros g Hg. apply Hin in Hg as [Hg H0]. pose proof (Hfits g Hg) as [Ho [Hl Hl']].
    split; [by split|]. split; [lia|]. apply (validate_end r). rewrite Forall_forall in Hval. apply Hval, list_elem_of_filter. done. }
  assert (∀ out, ('(out, ne) ← io (partition_ranges r ranges); let ne := dedup_ranges (sort_by range_compare ne) in spans_loop (length ne) (ir_file r) ne out) = Ok out →
    (∀ g, g ∈ ranges → ∃ es, read_entries_range r g = Ok es ∧ out !! g = Some es) ∧ (∀ g, g ∉ ranges → out !! g = None)) as Hsound.
  { intros out Hr. apply bind_ok in Hr as ([out0 ne] & Hp%io_ok & Hr). destruct (partition_inv r _ _ _ Hp) as (Hne & Hval & Hempty & Hnone).
    destruct (Hset ne Hne Hval) as [Hk Hin]. destruct (proj1 (spans_loop_ok r Hv _ _ _ (Nat.le_refl _) Hk) _ Hr) as [Ha Hb]. split.
    - intros g Hg. destruct (decide (cr_len g = 0)) as [H0|H0].
      + exists []. unfold read_entries_range. rewrite H0. split; [done|]. rewrite Hb by (rewrite Hin; naive_solver). by apply Hempty.
      + destruct (Ha g (proj2 (Hin g) (conj Hg H0))) as (es & Hes & Hout). exists es. split; [|done]. apply (read_range_inv r Hv); [by apply Hfits|done|].
        split; [|done]. rewrite Hne, Forall_forall in Hval. apply Hval, list_elem_of_filter. done.
    - intros g Hg. rewrite Hb by (rewrite Hin; naive_solver). apply Hnone. by left. }
  split; [exact Hsound|]. split; [intros [out Hr] g Hg; destruct (proj1 (Hsound out Hr) g Hg) as (es & ? & _); by exists es|].
  intros Hall. destruct (partition_ok r ranges) as [[out0 ne] Hp].
  { apply Forall_forall. intros g Hg H0. destruct (Hall g Hg) as [es Hes]. by apply (read_range_inv r Hv) in Hes as [? _]; [|apply Hfits|]. }
  rewrite Hp. cbn [io mbind result_bind]. destruct (partition_inv r _ _ _ Hp) as (Hne & Hval & _). destruct (Hset ne Hne Hval) as [Hk Hin].
  apply (spans_loop_ok r Hv); [done|done|]. intros g [Hg H0]%Hin. destruct (Hall g Hg) as [es Hes].
  apply (read_range_inv r Hv) in Hes as [_ Hes]; [by exists es|by apply Hfits|done].
Qed.

(** ** Witnesses *)

Definition entry_for (min_time_ms max_time_ms offset : Z) : ChunkIndexEntry := mk_chunk_entry 0 KindFloat 0 min_time_ms max_time_ms offset 100 0 0.
Definition listed_rows : list (list ChunkIndexEntry) := [[entry_for 20 30 200; entry_for 10 15 100; entry_for 10 12 300]; []; [entry_for 5 6 400]].
Definition sample_file : list Z := match write_chunk_index listed_rows with Ok file => file | Err _ => [] end.

Lemma listed_rows_ok : rows_ok listed_rows.
Proof. split; [done|]. repeat (apply Forall_cons_2 || apply Forall_nil_2); repeat split; vm_compute; discriminate. Qed.

Lemma chunk_index_reads_back_witness : ∃ r, index_open sample_file = Ok r ∧
  read_entries r 0 = Ok (Some [entry_for 10 12 300; entry_for 10 15 100; entry_for 20 30 200]) ∧ read_entries r 3 = Ok None.
Proof.
  destruct (chunk_index_reads_back listed_rows sample_file listed_rows_ok ltac:(vm_compute; reflexivity) ltac:(vm_compute; discriminate))
    as (_ & _ & r & ranges & Hopen & _ & _ & _ & Hentries & _). exists r. split; [exact Hopen|]. split.
  - rewrite (Hentries 0 ltac:(lia)). vm_compute. reflexivity.
  - rewrite (Hentries 3 ltac:(lia)). vm_compute. reflexivity.
Defined.

Definition sample_reader : ChunkIndexReader := mk_index_reader sample_file 3 44 None.
Definition sample_ranges : list ChunkIndexRange := [mk_range 164 40; mk_range 44 120; mk_range 164 0; mk_range 84 80; mk_range 44 120].

Lemma chunk_index_batch_exact_witness : ∃ out, read_entries_ranges sample_reader sample_ranges = Ok out ∧
  out !! mk_range 84 80 = Some [entry_for 10 15 100; entry_for 20 30 200] ∧ out !! mk_range 44 40 = None.
Proof.
  assert (Forall range_fits sample_ranges) as Hfits.
  { repeat (apply Forall_cons_2; [repeat split; vm_compute; discriminate|]). apply Forall_nil_2. }
  destruct (chunk_index_batch_exact sample_reader sample_ranges ltac:(vm_compute; discriminate) Hfits) as [Hsound [_ Hcomplete]].
  destruct (read_entries_ranges sample_reader sample_ranges) as [out|e] eqn:Hr.
  - exists out. split; [reflexivity|]. destruct (Hsound out eq_refl) as [Hin Hout]. split.
    + destruct (Hin (mk_range 84 80) ltac:(unfold sample_ranges; set_solver)) as (es & Hes & ->). vm_compute in Hes. injection Hes as <-. reflexivity.
    + apply Hout. unfold sample_ranges. intros Hg. repeat (apply elem_of_cons in Hg as [Hg|Hg]; [discriminate Hg|]). by apply not_elem_of_nil in Hg.
  - exfalso. vm_compute in Hr. discriminate Hr.
Defined.

(** Two offsets of a corrupt file, in order and far apart, ask for a vector that no
    machine can hold: the readers panic instead of returning an error. *)
Definition corrupt_file : list Z :=
  le_bytes 4 CHUNK_INDEX_MAGIC ++ le_bytes 2 1 ++ le_bytes 2 0 ++ le_bytes 4 1 ++ le_bytes 8 28 ++ le_bytes 8 (28 + 40 * 400000000000000000).
Example corrupt_offsets_panic : read_chunk_index corrupt_file = Err Panic ∧
  ∃ r, index_open corrupt_file = Ok r ∧ read_entries r 0 = Err Panic.
Proof. split; [vm_compute; reflexivity|]. eexists. split; [vm_compute; reflexivity|]. vm_compute. reflexivity. Qed.
