(* ===== verification/ChunkLocator.v ===== *)
(** * Chunk entries of a segment and their locators

    [chronoxide-core/src/storage/chunk/entry_store.rs]: the entries of every series
    while a segment is written, in rows that hold one entry inline; and
    [indexed_locator.rs]: the checked entry that a query plans its reads with.  With
    [ChunkWriter] and [ChunkIndex] this is the path of a chunk from the append to
    the bytes a query reads. *)
From Stdlib Require Import Sorted.
From S2P Require Import Prelude Sort Cursor Frame TypedCodecs Chunk ChunkWriter ChunkIndex.

(** ** Rows of entries *)

(** The trait: a default row, its entries, and a push. *)
Class SeriesChunkEntries (L : Type) := {
  sc_default : L;
  sc_as_slice : L → list ChunkIndexEntry;
  sc_push : L → ChunkIndexEntry → L;
}.
Class SeriesChunkEntriesLaws (L : Type) `{SeriesChunkEntries L} : Prop := {
  sc_default_empty : sc_as_slice sc_default = [];
  sc_push_appends l e : sc_as_slice (sc_push l e) = sc_as_slice l ++ [e];
}.

#[export] Instance vec_entries : SeriesChunkEntries (list ChunkIndexEntry) := {|
  sc_default := [];
  sc_as_slice l := l;
  sc_push l e := l ++ [e];
|}.
#[export] Instance vec_entries_laws : SeriesChunkEntriesLaws (list ChunkIndexEntry).
Proof. by split. Qed.

Inductive InlineOneChunkEntries :=
  | InlineEmpty
  | InlineOne (entry : ChunkIndexEntry)
  | InlineMany (entries : list ChunkIndexEntry).
#[export] Instance inline_one_entries : SeriesChunkEntries InlineOneChunkEntries := {|
  sc_default := InlineEmpty;
  sc_as_slice l := match l with InlineEmpty => [] | InlineOne entry => [entry] | InlineMany entries => entries end;
  sc_push l e := match l with
    | InlineEmpty => InlineOne e
    | InlineOne first => InlineMany [first; e]
    | InlineMany entries => InlineMany (entries ++ [e])
    end;
|}.
#[export] Instance inline_one_entries_laws : SeriesChunkEntriesLaws InlineOneChunkEntries.
Proof. split; [done|]. by intros [| |]. Qed.

Section store.
Context {L : Type} `{SeriesChunkEntries L}.

Record ChunkEntryStore := mk_entry_store { es_rows : list L }.
Definition entry_store_new : ChunkEntryStore := mk_entry_store [].
Definition entry_store_len (s : ChunkEntryStore) : Z := zlen (es_rows s).
Definition push_empty_series (s : ChunkEntryStore) : ChunkEntryStore := mk_entry_store (es_rows s ++ [sc_default]).
(** [None] is the panic on a series that was not registered. *)
Definition push_entry (s : ChunkEntryStore) (series_ref : Z) (entry : ChunkIndexEntry) : option ChunkEntryStore :=
  row ← es_rows s !! Z.to_nat series_ref;
  Some (mk_entry_store (<[Z.to_nat series_ref := sc_push row entry]> (es_rows s))).
(** [write_chunk_index_rows] of the rows. *)
Definition write_store_index (s : ChunkEntryStore) : io_result (list Z) := write_chunk_index (sc_as_slice <$> es_rows s).

(** Registers [n] series and keeps the entries that appends handed out. *)
Fixpoint register_series (n : nat) (s : ChunkEntryStore) : ChunkEntryStore :=
  match n with O => s | S n => register_series n (push_empty_series s) end.
Fixpoint keep_entries {Op} (s : ChunkEntryStore) (entries : list (Z * Op * ChunkIndexEntry)) : option ChunkEntryStore :=
  match entries with
  | [] => Some s
  | (series_ref, _, entry) :: entries => s ← push_entry s series_ref entry; keep_entries s entries
  end.
End store.
Arguments ChunkEntryStore L : clear implicits.

(** ** Locators *)

Inductive IndexedChunkAuthentication :=
  | Schema6V1Legacy
  | Schema7Authentication (indexed_prefix_crc32c : Z).
Record IndexedChunkLocator := mk_locator { il_series_ref : Z; il_entry : ChunkIndexEntry; il_authentication : IndexedChunkAuthentication }.
Inductive IndexedChunkLocatorError :=
  | InvalidFileId (file_id : Z)
  | ReversedTimeRange (min_time_ms max_time_ms : Z)
  | ChunkTooShort (length : Z)
  | FileRangeOverflow (offset length : Z)
  | NonCanonicalScalarLane (scalar_lane_offset scalar_lane_len : Z)
  | ScalarLaneKind (kind : ChunkKind)
  | ScalarLaneOutOfBounds (scalar_end chunk_length : Z)
  | MissingSchema7Authentication
  | Schema7FlagsMustBeZero (flags : Z).

Definition INDEXED_PREFIX_WITH_SCALAR_LEN : Z := CHUNK_HEADER_LEN + TYPED_SCALAR_LANE_HEADER_LEN.

Definition checked_add_u32 (a b : Z) : option Z := if a + b <=? u32_max then Some (a + b) else None.
Definition validate_scalar_lane (e : ChunkIndexEntry) : result IndexedChunkLocatorError unit :=
  let offset := ce_scalar_lane_offset e in
  let length := ce_scalar_lane_len e in
  if (offset =? 0) && (length =? 0) then Ok tt
  else if (offset =? CHUNK_HEADER_LEN) && (TYPED_SCALAR_LANE_HEADER_LEN <=? length) then
    if negb (typed_kind (ce_kind e)) then Err (ScalarLaneKind (ce_kind e))
    else
      scalar_end ← ok_or (NonCanonicalScalarLane offset length) (checked_add_u32 offset length);
      if ce_length e <? scalar_end then Err (ScalarLaneOutOfBounds scalar_end (ce_length e)) else Ok tt
  else Err (NonCanonicalScalarLane offset length).
Definition validate_entry (e : ChunkIndexEntry) : result IndexedChunkLocatorError unit :=
  if negb ((ce_file_id e =? 0) || (ce_file_id e =? 1)) then Err (InvalidFileId (ce_file_id e))
  else if ce_max_time_ms e <? ce_min_time_ms e then Err (ReversedTimeRange (ce_min_time_ms e) (ce_max_time_ms e))
  else if ce_length e <? CHUNK_HEADER_LEN then Err (ChunkTooShort (ce_length e))
  else
    _ ← ok_or (FileRangeOverflow (ce_offset e) (ce_length e)) (checked_add_u64 (ce_offset e) (ce_length e));
    validate_scalar_lane e.

Definition locator_try_new (series_ref : Z) (e : ChunkIndexEntry) (authentication : IndexedChunkAuthentication)
    : result IndexedChunkLocatorError IndexedChunkLocator :=
  _ ← validate_entry e; Ok (mk_locator series_ref e authentication).
Definition try_schema6_v1 (series_ref : Z) (e : ChunkIndexEntry) : result IndexedChunkLocatorError IndexedChunkLocator :=
  locator_try_new series_ref e Schema6V1Legacy.
Definition try_schema7 (series_ref : Z) (e : ChunkIndexEntry) (indexed_prefix_crc32c : option Z) : result IndexedChunkLocatorError IndexedChunkLocator :=
  crc ← ok_or MissingSchema7Authentication indexed_prefix_crc32c;
  if negb (ce_flags e =? 0) then Err (Schema7FlagsMustBeZero (ce_flags e))
  else locator_try_new series_ref e (Schema7Authentication crc).

Definition indexed_prefix_len (l : IndexedChunkLocator) : Z :=
  if ce_scalar_lane_len (il_entry l) =? 0 then CHUNK_HEADER_LEN else INDEXED_PREFIX_WITH_SCALAR_LEN.
Definition payload_identity (l : IndexedChunkLocator) : Z * Z * Z :=
  (ce_file_id (il_entry l), ce_offset (il_entry l), ce_length (il_entry l)).

Definition authentication_compare (a b : IndexedChunkAuthentication) : comparison :=
  match a, b with
  | Schema6V1Legacy, Schema6V1Legacy => Eq
  | Schema6V1Legacy, Schema7Authentication _ => Lt
  | Schema7Authentication _, Schema6V1Legacy => Gt
  | Schema7Authentication c, Schema7Authentication d => c ?= d
  end.
(** [Ord], field by field; the kinds are ordered as declared. *)
Definition locator_compare (a b : IndexedChunkLocator) : comparison :=
  let by_field (f : ChunkIndexEntry → Z) := f (il_entry a) ?= f (il_entry b) in
  then_with (then_with (then_with (then_with (then_with (then_with (then_with (then_with (then_with (then_with
    (il_series_ref a ?= il_series_ref b) (by_field ce_file_id)) (by_field (λ e, chunk_kind_code (ce_kind e)))) (by_field ce_flags))
    (by_field ce_min_time_ms)) (by_field ce_max_time_ms)) (by_field ce_offset)) (by_field ce_length)) (by_field ce_scalar_lane_offset))
    (by_field ce_scalar_lane_len)) (authentication_compare (il_authentication a) (il_authentication b)).

(** ** The order of locators *)

Lemma then_with_eq c d : then_with c d = Eq ↔ c = Eq ∧ d = Eq.
Proof. destruct c; naive_solver. Qed.
Lemma locator_compare_eq a b : locator_compare a b = Eq ↔ a = b.
Proof.
  unfold locator_compare. split.
  - rewrite !then_with_eq, !Z.compare_eq_iff. intros (((((((((( Hs & Hf) & Hk) & Hfl) & Hmin) & Hmax) & Ho) & Hl) & Hso) & Hsl) & Ha).
    destruct a as [s [] aa], b as [s' [] ab]. cbn in *. f_equal; [done| |].
    + f_equal; try done. by destruct ce_kind, ce_kind0.
    + destruct aa, ab; cbn in Ha; try done. apply Z.compare_eq_iff in Ha. by f_equal.
  - intros ->. rewrite !then_with_eq, !Z.compare_refl. split_and!; try done. destruct (il_authentication b); [done|]. apply Z.compare_refl.
Qed.
#[export] Instance authentication_order : TotalOrder authentication_compare.
Proof.
  split; [intros [|c] [|d]; try done; cbn; apply Z.compare_antisym|]. unfold cmp_le.
  intros [|c] [|d] [|e]; cbn; try done. rewrite !Z.compare_gt_iff. lia.
Qed.
#[export] Instance locator_order : TotalOrder locator_compare.
Proof.
  unfold locator_compare. repeat apply then_with_order; try apply (key_order (λ l : IndexedChunkLocator, _)).
  split; [intros x y; apply cmp_antisym, _|intros x y z; apply (cmp_trans authentication_compare)].
Qed.

(** ** Appended entries are well formed *)

Lemma head_le_last ts : ordered ts → ts ≠ [] → default 0 (head ts) ≤ default 0 (last ts).
Proof.
  intros Hord Hne. destruct ts as [|t ts]; [done|]. cbn [head default from_option id]. inversion Hord as [|? ? _ Hall]; subst.
  destruct ts as [|u ts]; [done|]. rewrite last_cons. destruct (last (u :: ts)) as [v|] eqn:Hl; [|done]. cbn. rewrite Forall_forall in Hall.
  apply Hall. apply last_Some in Hl as [l' ->]. apply elem_of_app. right. by apply list_elem_of_singleton.
Qed.

Section appended.
Context `{HC : Crc32c} `{!Crc32cLaws}.

Lemma appended_entry_valid env w series_ref op entry w' : writer_ok w → cw_file_id w = 0 ∨ cw_file_id w = 1 → in_u32 series_ref → samples_repr (append_samples op) →
  run_append env w series_ref op = Ok (Ok entry, w') → entry_fits entry ∧ validate_entry entry = Ok tt ∧ cw_file_id w' = cw_file_id w.
Proof.
  intros Hw Hid Href Hrepr Hrun. pose proof (zlen_nonneg (cw_file w)). unfold writer_ok in Hw.
  destruct (run_append_outcome env w series_ref op _ ltac:(lia) Href Hrepr Hrun) as (values & Hc & [Hfits Hfits'] & Heq).
  set (s := append_samples op) in *. set (e := append_encoding op) in *. symmetry in Heq. apply outcome_ok in Heq as [-> ->].
  pose proof (record_header_ok _ _ _ _ _ Hc) as (Hfl & _ & Hmin & Hmax & _). pose proof (record_parts _ _ _ _ _ Hc) as (_ & _ & _ & Hz).
  pose proof Hc as (_ & Hne & _ & Hord & _ & _ & _ & Hlane & Hlane' & _). unfold chunk_header_of in *. cbn [dh_flags dh_min_time_ms dh_max_time_ms] in *.
  change (record_image e series_ref s (chunk_lane_of s) values) with (record_image e series_ref s (chunk_lane_of s) values) in *.
  set (record := record_image e series_ref s (chunk_lane_of s) values) in *. rewrite zlen_frame_image in Hfits'.
  pose proof (zlen_nonneg (chunk_lane_of s)). pose proof (zlen_nonneg (chunk_payload s values)). unfold FRAME_HEADER_LEN, CHUNK_HEADER_LEN in *.
  unfold entry_of, entry_fits, validate_entry, validate_scalar_lane, after_append.
  cbn [ce_file_id ce_kind ce_flags ce_min_time_ms ce_max_time_ms ce_offset ce_length ce_scalar_lane_offset ce_scalar_lane_len cw_file_id].
  unfold is_byte, in_u64, in_u32, FRAME_HEADER_LEN, CHUNK_HEADER_LEN, TYPED_SCALAR_LANE_HEADER_LEN in *. split; [|split; [|done]].
  { split_and!; try lia; try apply Hfl; try apply Hmin; try apply Hmax; destruct (zlen (chunk_lane_of s) =? 0); lia. }
  replace ((cw_file_id w =? 0) || (cw_file_id w =? 1)) with true by (destruct Hid as [-> | ->]; done). cbn [negb].
  pose proof (head_le_last _ Hord Hne) as Hle. fold (min_time s) (max_time s) in Hle. rewrite !(proj2 (Z.ltb_ge _ _)) by lia.
  rewrite checked_add_u64_fits by lia. cbn [ok_or mbind result_bind]. destruct (Z.eqb_spec (zlen (chunk_lane_of s)) 0) as [->|Hl]; [done|].
  cbn [Z.eqb Pos.eqb andb]. destruct Hlane as [Hnil|[Hk Heq]]; [by rewrite Hnil in Hl|].
  assert (16 ≤ zlen (chunk_lane_of s)) as H16.
  { rewrite Heq. change (lane_bytes ?t ?r) with (lane_frame (lane_body t r)). rewrite zlen_lane_frame. pose proof (zlen_nonneg (lane_body (min_time s) (sample_rows s))). lia. }
  rewrite (proj2 (Z.leb_le _ _)), Hk by done. unfold checked_add_u32. rewrite (proj2 (Z.leb_le _ _)) by lia. cbn [negb andb ok_or mbind result_bind].
  by rewrite (proj2 (Z.ltb_ge _ _)) by lia.
Qed.

Lemma run_appends_valid ops : ∀ w entries w', writer_ok w → cw_file_id w = 0 ∨ cw_file_id w = 1 → Forall append_ok ops → Forall no_torn_frame ops →
  run_appends w ops = (entries, w') →
  Forall (λ a, entry_fits a.2 ∧ validate_entry a.2 = Ok tt) entries ∧ (∀ a, a ∈ entries → a.1.1 ∈ (λ o : append_env * Z * ChunkAppend, o.1.2) <$> ops).
Proof.
  induction ops as [|[[env series_ref] op] ops IH]; intros w entries w' Hw Hid Hops Hfaults Hrun; cbn [run_appends] in Hrun.
  { injection Hrun as <- <-. split; [constructor|]. by intros a ?%not_elem_of_nil. }
  apply Forall_cons_1 in Hops as [[Href Hrepr] Hops]. apply Forall_cons_1 in Hfaults as [Hf Hfaults]. cbn [fst snd] in Href, Hrepr.
  assert (run_appends w ops = (entries, w') → Forall (λ a, entry_fits a.2 ∧ validate_entry a.2 = Ok tt) entries ∧
    ∀ a, a ∈ entries → a.1.1 ∈ series_ref :: ((λ o : append_env * Z * ChunkAppend, o.1.2) <$> ops)) as Hskip.
  { intros Hrest. destruct (IH w entries w' Hw Hid Hops Hfaults Hrest) as [Hall Hin]. split; [done|]. intros a Ha. right. by apply Hin. }
  destruct (run_append env w series_ref op) as [[[entry|err] w1]|err] eqn:Happ; [| |by apply Hskip].
  2: { apply refused_write in Happ as ->; [|done..]. by apply Hskip. }
  destruct (run_appends w1 ops) as [entries' w2] eqn:Hrest. injection Hrun as <- <-.
  destruct (appended_entry_valid _ _ _ _ _ _ Hw Hid Href Hrepr Happ) as (Hfit & Hval & Hid').
  destruct (appended_entry _ alloc_ok _ _ _ _ _ Hw Href Hrepr ltac:(done) Happ) as (Hw1 & _).
  destruct (IH w1 entries' w2 Hw1 ltac:(by rewrite Hid') Hops Hfaults Hrest) as [Hall Hin]. split; [by constructor|].
  intros a [->|Ha]%elem_of_cons; cbn; [by left|]. right. by apply Hin.
Qed.
End appended.

(** ** The store is a list of lists *)

Section store_spec.
Context {L : Type} `{!SeriesChunkEntries L} `{!SeriesChunkEntriesLaws L}.
Implicit Types (st : ChunkEntryStore L).

Definition store_rows st : list (list ChunkIndexEntry) := sc_as_slice <$> es_rows st.
Definition entries_of {Op} (i : Z) (entries : list (Z * Op * ChunkIndexEntry)) : list ChunkIndexEntry :=
  snd <$> filter (λ a, a.1.1 = i) entries.

Lemma registered_rows n : ∀ st, store_rows (register_series n st) = store_rows st ++ replicate n [].
Proof.
  induction n as [|n IH]; intros st; cbn [register_series]; [by rewrite app_nil_r|]. rewrite IH. unfold store_rows, push_empty_series.
  cbn [es_rows]. rewrite fmap_app, <- app_assoc. cbn. by rewrite sc_default_empty.
Qed.
Lemma kept_rows {Op} (entries : list (Z * Op * ChunkIndexEntry)) : ∀ st, Forall (λ a, 0 ≤ a.1.1 < zlen (store_rows st)) entries → ∃ st',
  keep_entries st entries = Some st' ∧ length (store_rows st') = length (store_rows st) ∧
  ∀ i row, store_rows st !! i = Some row → store_rows st' !! i = Some (row ++ entries_of (Z.of_nat i) entries).
Proof.
  induction entries as [|[[s op] e] entries IH]; intros st Hin; cbn [keep_entries].
  { exists st. split_and!; [done|done|]. intros i row Hi. by rewrite app_nil_r. }
  apply Forall_cons_1 in Hin as [Hs Hin]. cbn [fst] in Hs. unfold zlen, store_rows in Hs. rewrite length_fmap in Hs. unfold push_entry.
  destruct (lookup_lt_is_Some_2 (es_rows st) (Z.to_nat s) ltac:(lia)) as [row0 Hrow0]. rewrite Hrow0. cbn [mbind option_bind].
  set (st1 := mk_entry_store (<[Z.to_nat s := sc_push row0 e]> (es_rows st))).
  assert (store_rows st1 = <[Z.to_nat s := sc_as_slice row0 ++ [e]]> (store_rows st)) as Hst1.
  { unfold store_rows, st1. cbn [es_rows]. by rewrite list_fmap_insert, sc_push_appends. }
  destruct (IH st1) as (st' & -> & Hlen & Hrows).
  { rewrite Hst1. unfold zlen in *. by rewrite length_insert. }
  exists st'. split; [done|]. rewrite Hlen, Hst1, length_insert. split; [done|]. intros i row Hi.
  unfold entries_of. rewrite filter_cons. cbn [fst snd]. destruct (decide (s = Z.of_nat i)) as [->|Hne].
  - rewrite Nat2Z.id in *. assert (row = sc_as_slice row0) as -> by (unfold store_rows in Hi; rewrite list_lookup_fmap, Hrow0 in Hi; by injection Hi).
    rewrite (Hrows i (sc_as_slice row0 ++ [e])); [cbn; by rewrite <- app_assoc|]. rewrite Hst1. apply list_lookup_insert_eq. by eapply lookup_lt_Some.
  - apply Hrows. rewrite Hst1, list_lookup_insert_ne by lia. done.
Qed.
End store_spec.

(** ** From the append to the bytes a query reads *)

(** C11: the chunks of a segment can be found and read.  Append any chunks to a
    chunk file, with calls that are refused or whose write fails before it took a
    byte of the frame in between, keep the entries in a store of
    either layout with a row for every series, and write the store's index.  Then
    the index gives, for every series, the entries of exactly its chunks, ordered by
    time; each of them passes the checks of a locator; and the bytes of the chunk
    file that it points at decode to the samples that were appended. *)
Theorem segment_chunks_read_back `{HC : Crc32c} `{!Crc32cLaws} {L} `{!SeriesChunkEntries L} `{!SeriesChunkEntriesLaws L} al n ops w entries w' :
  writer_ok w → cw_file_id w = 0 ∨ cw_file_id w = 1 → Forall append_ok ops → Forall no_torn_frame ops → grants al → Z.of_nat n ≤ u32_max →
  Forall (λ o : append_env * Z * ChunkAppend, o.1.2 < Z.of_nat n) ops → run_appends w ops = (entries, w') →
  ∃ store : ChunkEntryStore L, keep_entries (register_series n entry_store_new) entries = Some store ∧
    ∀ index, write_store_index store = Ok index → vec_ok index → ∃ r, index_open index = Ok r ∧ index_len r = Z.of_nat n ∧
      ∀ s, 0 ≤ s < Z.of_nat n → ∃ es, read_entries r s = Ok (Some es) ∧ es ≡ₚ entries_of s entries ∧ StronglySorted entry_before es ∧
        ∀ e, e ∈ es → ∃ op locator, (s, op, e) ∈ entries ∧ try_schema6_v1 s e = Ok locator ∧
          decode_chunk_record al (entry_bytes (cw_file w') e) = Ok (record_of s (append_samples op)).
Proof.
  intros Hw Hid Hops Hfaults Hal Hn Hrefs Hrun. destruct (run_appends_valid ops w entries w' Hw Hid Hops Hfaults Hrun) as [Hvalid Hin].
  destruct (run_appends_read al ops w entries w' Hw Hops Hfaults Hal Hrun) as (_ & _ & Hreads). specialize (Hreads []). rewrite app_nil_r in Hreads.
  rewrite Forall_forall in Hvalid, Hreads. pose proof (proj1 (Forall_forall _ _) Hrefs) as Hrefs'.
  pose proof (registered_rows (L := L) n entry_store_new) as Hreg. cbn [store_rows entry_store_new es_rows fmap list_fmap app] in Hreg.
  assert (∀ a, a ∈ entries → 0 ≤ a.1.1 < Z.of_nat n) as Hlt.
  { intros a Ha. apply Hin in Ha. apply list_elem_of_fmap in Ha as (o & -> & Ho). split; [|by apply Hrefs']. rewrite Forall_forall in Hops. apply (Hops o Ho). }
  destruct (kept_rows entries (register_series n entry_store_new)) as (store & Hkeep & Hlen & Hrows).
  { apply Forall_forall. intros a Ha. rewrite Hreg. unfold zlen. rewrite length_replicate. by apply Hlt. }
  rewrite Hreg, length_replicate in Hlen. exists store. split; [done|]. intros index Hwrite Hv.
  assert (∀ i, (i < n)%nat → store_rows store !! i = Some (entries_of (Z.of_nat i) entries)) as Hrow.
  { intros i Hi. apply (Hrows i []). rewrite Hreg. by apply lookup_replicate_2. }
  assert (rows_ok (store_rows store)) as Hok.
  { split; [unfold zlen; lia|]. apply Forall_lookup_2. intros i row Hi. pose proof (lookup_lt_Some _ _ _ Hi) as Hlti. rewrite Hrow in Hi by lia.
    injection Hi as <-. apply Forall_fmap, Forall_forall. intros a [_ Ha]%list_elem_of_filter. cbn. apply (Hvalid a Ha). }
  destruct (read_written_index (store_rows store) index Hok Hwrite Hv) as (Hb & _ & Hread).
  destruct (readers_agree index _ Hb Hv Hread) as (r & offsets & Hopen & Hrlen & _ & Hentries & _). exists r. split; [done|].
  split; [rewrite Hrlen; unfold zlen; rewrite length_fmap; lia|]. intros s Hs. exists (sort_by entry_compare (entries_of s entries)).
  rewrite (Hentries s) by lia. rewrite list_lookup_fmap, Hrow, Z2Nat.id by lia.
  split; [done|]. split; [apply sort_by_perm|]. split; [apply sorted_entries|]. intros e He. rewrite sort_by_perm in He.
  apply list_elem_of_fmap in He as ([[s' op] e'] & -> & [Hs' Ha]%list_elem_of_filter). cbn in Hs'. subst s'. exists op, (mk_locator s e' Schema6V1Legacy).
  split; [done|]. unfold try_schema6_v1, locator_try_new. destruct (Hvalid _ Ha) as [_ ->]. split; [done|]. apply (Hreads _ Ha).
Qed.

(** Three series in rows of one inline entry; the call for series 8 is refused, a write for series 9 fails. *)
Lemma segment_chunks_read_back_witness : ∃ (store : ChunkEntryStore InlineOneChunkEntries) index r e,
  keep_entries (register_series 10 entry_store_new) (run_appends empty_file sample_appends).1 = Some store ∧
  write_store_index store = Ok index ∧ index_open index = Ok r ∧ read_entries r 8 = Ok (Some []) ∧ read_entries r 9 = Ok (Some [e]) ∧
  decode_chunk_record alloc_ok (entry_bytes (cw_file (run_appends empty_file sample_appends).2) e)
    = Ok (record_of 9 (ChunkFloats [(1000, 0x4000000000000000); (2000, 0x3ff0000000000000)])).
Proof.
  destruct (run_appends empty_file sample_appends) as [entries w'] eqn:Hrun. pose proof Hrun as Heval. vm_compute in Heval.
  destruct (segment_chunks_read_back (L := InlineOneChunkEntries) alloc_ok 10 sample_appends empty_file entries w' eq_refl ltac:(by left) sample_appends_ok
    sample_appends_whole (λ _ _, eq_refl) ltac:(vm_compute; discriminate) ltac:(repeat (apply Forall_cons_2 || apply Forall_nil_2); vm_compute; reflexivity) Hrun) as (store & Hkeep & Hindex).
  destruct (write_store_index store) as [index|err] eqn:Hwrite.
  2: { exfalso. injection Heval as <- _. vm_compute in Hkeep. injection Hkeep as <-. vm_compute in Hwrite. discriminate Hwrite. }
  destruct (Hindex index eq_refl) as (r & Hopen & _ & Hread).
  { injection Heval as <- _. vm_compute in Hkeep. injection Hkeep as <-. vm_compute in Hwrite. injection Hwrite as <-. vm_compute. discriminate. }
  destruct (Hread 8 ltac:(lia)) as (es8 & Hes8 & Hperm8 & _). destruct (Hread 9 ltac:(lia)) as (es9 & Hes9 & Hperm9 & _ & Hloc).
  assert (entries_of 8 entries = [] ∧ ∃ e, entries_of 9 entries = [e] ∧ ∀ op, (9, op, e) ∈ entries →
    op = sample_floats) as (H8 & e & H9 & Hop).
  { injection Heval as <- _. split; [vm_compute; reflexivity|]. eexists. split; [vm_compute; reflexivity|].
    intros op [Heq|[Heq|[]%not_elem_of_nil]%elem_of_cons]%elem_of_cons; [discriminate Heq|]. exact (f_equal (λ a, a.1.2) Heq). }
  rewrite H8 in Hperm8. rewrite H9 in Hperm9. apply Permutation_nil_r in Hperm8 as ->. apply Permutation_singleton_r in Hperm9 as ->.
  exists store, index, r, e. cbn [fst snd]. split; [exact Hkeep|]. split; [exact Hwrite|]. split; [exact Hopen|]. split; [exact Hes8|]. split; [exact Hes9|].
  destruct (Hloc e ltac:(by left)) as (op & locator & Hin & _ & Hdec). rewrite (Hop op Hin) in Hdec. exact Hdec.
Defined.
