(* ===== verification/ChunkScalar.v ===== *)
(** * Scalar projections of typed chunks

    [chronoxide-core/src/storage/chunk/codec.rs]: a query that needs only the
    counts or the sums of a typed chunk reads them from the redundant lane, or
    from the payload with decoders that skip everything else.  The allocation of
    a skipped part that the code does not make is not in the model either. *)
From Stdlib Require Import Sorted.
From stdpp Require Import sorting.
From S2P Require Import Prelude Varint Sort Float64 Cursor Frame Fields SchemaVarLen TypedSamples TypedCodecs BlockCodec Chunk.

Inductive ChunkScalarProjection := ProjectCount | ProjectSum.
Inductive ChunkScalarValue := ScalarCount (count : Z) | ScalarSum (sum : Z).
Record ChunkScalarSample := mk_scalar_sample {
  ss_timestamp_ms : Z;
  ss_metadata : TypedSampleMetadata;
  ss_value : option ChunkScalarValue;
}.
Record ChunkScalarProjectionRecord := mk_projection {
  sp_series_ref : Z;
  sp_kind : ChunkKind;
  sp_min_time_ms : Z;
  sp_max_time_ms : Z;
  sp_samples : list ChunkScalarSample;
}.
Inductive ScalarProjectionSchema :=
  | ScalarHistogram (bucket_len : Z)
  | ScalarExponentialHistogram
  | ScalarSummary (quantile_len : Z).

(** [let value = match projection { .. }], of a row or of a decoded value. *)
Definition projected (projection : ChunkScalarProjection) (count : Z) (sum : option Z) : option ChunkScalarValue :=
  match projection with
  | ProjectCount => Some (ScalarCount count)
  | ProjectSum => ScalarSum <$> sum
  end.

(** ** From the lane *)

Definition for_each_typed_scalar_lane_sample_body {St} (header : DecodedChunkHeader) (body : list Z)
    (projection : ChunkScalarProjection) (on_sample : St → ChunkScalarSample → io_result St) (st : St) : io_result St :=
  for_each_typed_scalar_lane_row_body header body (λ st row,
    on_sample st (mk_scalar_sample (lr_timestamp_ms row) (lr_metadata row) (projected projection (lr_count row) (lr_sum row)))) st.
Definition for_each_typed_scalar_lane_sample `{Crc32c} {St} (header : DecodedChunkHeader) (lane : list Z)
    (projection : ChunkScalarProjection) (on_sample : St → ChunkScalarSample → io_result St) (st : St) : io_result St :=
  body ← typed_scalar_lane_body header lane;
  for_each_typed_scalar_lane_sample_body header body projection on_sample st.

Definition decode_typed_scalar_lane `{Crc32c} (al : allocator) (header : DecodedChunkHeader) (lane : list Z)
    (projection : ChunkScalarProjection) : io_result ChunkScalarProjectionRecord :=
  body ← typed_scalar_lane_body header lane;
  _ ← try_vec_with_capacity al (dh_num_points header) "decoded typed scalar-lane samples";
  samples ← for_each_typed_scalar_lane_sample_body header body projection (λ samples sample, Ok (samples ++ [sample])) [];
  Ok (mk_projection (dh_series_ref header) (dh_kind header) (dh_min_time_ms header) (dh_max_time_ms header) samples).

Definition decode_typed_scalar_lane_rows `{Crc32c} (al : allocator) (header : DecodedChunkHeader) (lane : list Z)
    : io_result (list DecodedTypedScalarLaneRow) :=
  match lane with
  | [] => Ok []
  | _ =>
      _ ← try_vec_with_capacity al (dh_num_points header) "decoded redundant typed scalar-lane rows";
      for_each_typed_scalar_lane_row header lane (λ rows row, Ok (rows ++ [row])) []
  end.

(** ** From the payload *)

(** The loop of [decode_count_total]. *)
Fixpoint count_total_loop (n : nat) (buf : list Z) (cursor total : Z) (field : string) : io_result (Z * Z) :=
  match n with
  | O => Ok (total, cursor)
  | S n =>
      '(value, cursor) ← decode_varint buf cursor;
      total ← ok_or (io_err InvalidData (field +:+ " bucket total overflows u64")) (checked_add_u64 total value);
      count_total_loop n buf cursor total field
  end.
Definition decode_count_total (buf : list Z) (cursor count : Z) (field : string) : io_result (Z * Z) :=
  _ ← ensure_minimum_encoded_items (saturating_sub (zlen buf) cursor) count 1 "skipped varints";
  count_total_loop (Z.to_nat count) buf cursor 0 field.

(** The loop of [skip_f64s]. *)
Fixpoint skip_f64s_loop (n : nat) (buf : list Z) (cursor : Z) : io_result Z :=
  match n with
  | O => Ok cursor
  | S n => '(_, cursor) ← read_f64 buf cursor; skip_f64s_loop n buf cursor
  end.
Definition skip_f64s (buf : list Z) (cursor count : Z) : io_result Z :=
  _ ← ensure_minimum_encoded_items (saturating_sub (zlen buf) cursor) count 8 "skipped f64 values";
  skip_f64s_loop (Z.to_nat count) buf cursor.

Definition decode_exponential_histogram_bucket_total (buf : list Z) (cursor : Z) : io_result (Z * Z) :=
  '(_, cursor) ← decode_i32 buf cursor;
  '(len, cursor) ← decode_len buf cursor;
  decode_count_total buf cursor len "exponential histogram".

(** The loops over a schema's positions, which keep only the previous one. *)
Fixpoint skip_positions (invalid : option Z → Z → bool) (message : string) (n : nat) (previous : option Z) (buf : list Z) (cursor : Z)
    : io_result Z :=
  match n with
  | O => Ok cursor
  | S n =>
      '(position, cursor) ← read_f64 buf cursor;
      if invalid previous position then fail InvalidData message
      else skip_positions invalid message n (Some position) buf cursor
  end.
Definition bound_invalid (previous : option Z) (bound : Z) : bool :=
  negb (f64_is_finite bound) || match previous with Some previous => f64_ge previous bound | None => false end.
Definition quantile_invalid (previous : option Z) (quantile : Z) : bool :=
  negb (f64_is_finite quantile) || negb (f64_le f64_zero quantile && f64_le quantile f64_one)
  || match previous with Some previous => f64_ge previous quantile | None => false end.

Definition decode_scalar_projection_schema (kind : ChunkKind) (schema_buf : list Z) : io_result ScalarProjectionSchema :=
  '(schema, cursor) ←
    (match kind with
     | KindHistogram =>
         '(bounds_len, cursor) ← decode_len schema_buf 0;
         _ ← ensure_minimum_encoded_items (saturating_sub (zlen schema_buf) cursor) bounds_len 8 "histogram schema bounds";
         cursor ← skip_positions bound_invalid "histogram explicit bounds must be finite and strictly ascending"
           (Z.to_nat bounds_len) None schema_buf cursor;
         '(bucket_len, cursor) ← decode_len schema_buf cursor;
         expected_bucket_len ← ok_or (io_err InvalidData "histogram bucket length overflows") (checked_add_u64 bounds_len 1);
         if negb (bucket_len =? expected_bucket_len) then
           fail InvalidData "histogram bucket length must equal explicit bounds plus one"
         else Ok (ScalarHistogram bucket_len, cursor)
     | KindExponentialHistogram =>
         '(_, cursor) ← decode_i32 schema_buf 0;
         '(_, cursor) ← read_f64 schema_buf cursor;
         Ok (ScalarExponentialHistogram, cursor)
     | KindSummary =>
         '(quantile_len, cursor) ← decode_len schema_buf 0;
         _ ← ensure_minimum_encoded_items (saturating_sub (zlen schema_buf) cursor) quantile_len 8 "summary schema quantiles";
         cursor ← skip_positions quantile_invalid
           "summary quantile positions must be finite, within [0, 1], and strictly ascending"
           (Z.to_nat quantile_len) None schema_buf cursor;
         Ok (ScalarSummary quantile_len, cursor)
     | KindFloat | KindInt64 => fail InvalidInput "scalar projection schema requires typed chunk kind"
     end);
  if negb (cursor =? zlen schema_buf) then fail InvalidData "schema buffer has trailing bytes"
  else Ok schema.

(** Metadata, count and sum, and the cursor after the value. *)
Definition decode_scalar_projection_value (kind : ChunkKind) (schema : ScalarProjectionSchema) (buf : list Z) (cursor : Z)
    : io_result (TypedSampleMetadata * Z * option Z * Z) :=
  '(metadata, cursor) ← decode_typed_metadata buf cursor;
  match kind, schema with
  | KindHistogram, ScalarHistogram bucket_len =>
      '(count, cursor) ← decode_varint buf cursor;
      '(sum, cursor) ← decode_opt_f64 buf cursor;
      '(_, cursor) ← decode_opt_f64 buf cursor;
      '(_, cursor) ← decode_opt_f64 buf cursor;
      '(bucket_total, cursor) ← decode_count_total buf cursor bucket_len "histogram";
      if negb (bucket_total =? count) then fail InvalidData "histogram bucket total must equal count"
      else Ok (metadata, count, sum, cursor)
  | KindExponentialHistogram, ScalarExponentialHistogram =>
      '(count, cursor) ← decode_varint buf cursor;
      '(sum, cursor) ← decode_opt_f64 buf cursor;
      '(_, cursor) ← decode_opt_f64 buf cursor;
      '(_, cursor) ← decode_opt_f64 buf cursor;
      '(zero_count, cursor) ← decode_varint buf cursor;
      '(positive_total, cursor) ← decode_exponential_histogram_bucket_total buf cursor;
      '(negative_total, cursor) ← decode_exponential_histogram_bucket_total buf cursor;
      bucket_total ← ok_or (io_err InvalidData "exponential histogram bucket total overflows u64")
        (checked_add_u64 zero_count positive_total ≫= λ total, checked_add_u64 total negative_total);
      if negb (bucket_total =? count) then fail InvalidData "exponential histogram bucket total must equal count"
      else Ok (metadata, count, sum, cursor)
  | KindSummary, ScalarSummary quantile_len =>
      '(count, cursor) ← decode_varint buf cursor;
      '(sum, cursor) ← read_f64 buf cursor;
      cursor ← skip_f64s buf cursor quantile_len;
      Ok (metadata, count, Some sum, cursor)
  | _, _ => fail InvalidData "scalar projection schema kind mismatch"
  end.

Fixpoint scalar_schemas_loop (kind : ChunkKind) (n : nat) (encoded_schemas : gset (list Z)) (buf : list Z) (cursor : Z)
    : io_result (list ScalarProjectionSchema * Z) :=
  match n with
  | O => Ok ([], cursor)
  | S n =>
      '(len, cursor) ← decode_len buf cursor;
      if zlen buf <? saturating_add_u64 cursor len then fail UnexpectedEof "schema buffer truncated"
      else
        let schema_buf := slice buf cursor (cursor + len) in
        let cursor := saturating_add_u64 cursor len in
        if decide (schema_buf ∈ encoded_schemas) then fail InvalidData "duplicate schema definition is noncanonical"
        else
          schema ← decode_scalar_projection_schema kind schema_buf;
          '(schemas, cursor) ← scalar_schemas_loop kind n ({[schema_buf]} ∪ encoded_schemas) buf cursor;
          Ok (schema :: schemas, cursor)
  end.
Definition decode_scalar_projection_schemas (al : allocator) (kind : ChunkKind) (buf : list Z) (cursor point_count : Z)
    : io_result (list ScalarProjectionSchema * Z) :=
  '(schema_count, cursor) ← decode_len buf cursor;
  if negb ((1 <=? schema_count) && (schema_count <=? point_count)) then
    fail InvalidData "schema-varlen scalar schema count is inconsistent with the point count"
  else
    _ ← ensure_minimum_encoded_items (saturating_sub (zlen buf) cursor) schema_count 1 "schema-varlen scalar schemas";
    _ ← try_vec_with_capacity al schema_count "decoded scalar schemas";
    _ ← try_reserve al "encoded scalar schema set" "encoded scalar schema set allocation failed: " schema_count;
    scalar_schemas_loop kind (Z.to_nat schema_count) ∅ buf cursor.

(** The loop over the timestamps: the samples pushed so far, the flags, the
    first-use counter and the cursor. *)
Section samples_loop.
Context (kind : ChunkKind) (projection : ChunkScalarProjection) (schemas : list ScalarProjectionSchema)
  (lane_rows : list DecodedTypedScalarLaneRow) (buf : list Z).
Record scalar_walk := mk_scalar_walk {
  sw_samples : list ChunkScalarSample;
  sw_flags : TypedChunkFlagsAccumulator;
  sw_next_first_seen_schema : Z;
  sw_cursor : Z;
}.
Definition lane_row_agrees (row : DecodedTypedScalarLaneRow) (timestamp_ms : Z) (metadata : TypedSampleMetadata) (count : Z)
    (sum : option Z) : bool :=
  (lr_timestamp_ms row =? timestamp_ms) && bool_decide (lr_metadata row = metadata) && (lr_count row =? count)
  && bool_decide (lr_sum row = sum).
Definition scalar_sample_step (w : scalar_walk) (timestamp_ms : Z) : io_result scalar_walk :=
  '(schema_id, cursor) ← decode_varint buf (sw_cursor w);
  schema_idx ← ok_or (io_err InvalidData "schema id overflow") (try_u64 schema_id);
  schema ← ok_or (io_err InvalidData "schema id out of range") (schemas !! Z.to_nat schema_idx);
  if sw_next_first_seen_schema w <? schema_idx then
    fail InvalidData "schema IDs are not in deterministic first-seen order"
  else
    next ← (if schema_idx =? sw_next_first_seen_schema w then
              ok_or (io_err InvalidData "schema first-use count overflows") (checked_add_u64 (sw_next_first_seen_schema w) 1)
            else Ok (sw_next_first_seen_schema w));
    '(metadata, count, sum, cursor) ← decode_scalar_projection_value kind schema buf cursor;
    _ ← (match lane_rows with
         | [] => Ok tt
         | _ =>
             lane_row ← ok_or (io_err InvalidData "typed scalar lane has fewer rows than the native projection")
               (lane_rows !! length (sw_samples w));
             if lane_row_agrees lane_row timestamp_ms metadata count sum then Ok tt
             else fail InvalidData "typed scalar lane row disagrees with the native projection"
         end);
    Ok (mk_scalar_walk (sw_samples w ++ [mk_scalar_sample timestamp_ms metadata (projected projection count sum)])
          (flags_observe (sw_flags w) metadata) next cursor).
Fixpoint scalar_samples_loop (w : scalar_walk) (timestamps : list Z) : io_result scalar_walk :=
  match timestamps with
  | [] => Ok w
  | timestamp_ms :: timestamps => w ← scalar_sample_step w timestamp_ms; scalar_samples_loop w timestamps
  end.
End samples_loop.

Definition decode_schema_varlen_scalar_samples (al : allocator) (kind : ChunkKind) (expected_flags : Z) (buf : list Z)
    (timestamps : list Z) (projection : ChunkScalarProjection) (lane_rows : list DecodedTypedScalarLaneRow)
    : io_result (list ChunkScalarSample) :=
  '(schemas, cursor) ← decode_scalar_projection_schemas al kind buf 0 (zlen timestamps);
  _ ← ensure_minimum_encoded_items (saturating_sub (zlen buf) cursor) (zlen timestamps) 1 "schema-varlen scalar values";
  _ ← try_vec_with_capacity al (zlen timestamps) "decoded schema-varlen scalar samples";
  w ← scalar_samples_loop kind projection schemas lane_rows buf (mk_scalar_walk [] flags_default 0 cursor) timestamps;
  if negb (sw_cursor w =? zlen buf) then fail InvalidData "value buffer has trailing bytes"
  else if negb (sw_next_first_seen_schema w =? zlen schemas) then fail InvalidData "schema table contains an unused schema"
  else if negb (flags_finish (sw_flags w) =? expected_flags) then
    fail InvalidData "typed chunk header flags disagree with native metadata"
  else if negb (bool_decide (lane_rows = [])) && negb (zlen lane_rows =? zlen (sw_samples w)) then
    fail InvalidData "typed scalar lane has more rows than the native projection"
  else Ok (sw_samples w).

Definition decode_chunk_scalar_projection `{Crc32c} (al : allocator) (payload : list Z) (projection : ChunkScalarProjection)
    : io_result ChunkScalarProjectionRecord :=
  '(decoded, body) ← decode_chunk_payload payload;
  if dh_num_points decoded =? 0 then fail InvalidData "chunk has no points"
  else if negb (bool_decide (dh_encoding decoded = EncSchemaVarLen)) then
    fail InvalidData "typed scalar projection requires schema varlen encoding"
  else if negb (typed_kind (dh_kind decoded)) then fail InvalidInput "typed scalar projection requires a typed chunk"
  else
    '(t0_ms, cursor) ← read_u64 body 0;
    if negb (t0_ms =? dh_min_time_ms decoded) then fail InvalidData "chunk timestamp base disagrees with min_time_ms"
    else
      '(timestamps, cursor) ← decode_timestamps al body cursor t0_ms (dh_num_points decoded);
      _ ← validate_timestamp_iter (dh_num_points decoded) (dh_min_time_ms decoded) (dh_max_time_ms decoded) timestamps;
      header ← decode_chunk_header payload;
      let lane := slice payload CHUNK_HEADER_LEN (dh_header_len header) in
      lane_rows ← decode_typed_scalar_lane_rows al header lane;
      samples ← decode_schema_varlen_scalar_samples al (dh_kind decoded) (dh_flags decoded) (drop (Z.to_nat cursor) body) timestamps
        projection lane_rows;
      Ok (mk_projection (dh_series_ref decoded) (dh_kind decoded) (dh_min_time_ms decoded) (dh_max_time_ms decoded) samples).

(** ** What the skipping loops skip *)

#[local] Arguments metadata_bytes : simpl never.
#[local] Arguments opt_f64_bytes : simpl never.
#[local] Arguments decode_typed_metadata : simpl never.
#[local] Arguments decode_opt_f64 : simpl never.
#[local] Arguments flags_observe : simpl never.

Lemma ensure_scalar_fits buf c l n minimum field : cursor_rep buf c l → 0 ≤ n → 0 ≤ minimum → n * minimum ≤ zlen l →
  ensure_minimum_encoded_items (saturating_sub (zlen buf) c) n minimum field = Ok tt.
Proof.
  intros Hr Hn Hm Hl. pose proof (cursor_zlen _ _ _ Hr). destruct Hr as (_ & Hv & Hc & _). unfold ensure_minimum_encoded_items, checked_mul_u64.
  rewrite (proj2 (Z.leb_le _ _)) by lia. cbn [ok_or mbind result_bind]. unfold saturating_sub. by rewrite (proj2 (Z.ltb_ge _ _)) by lia.
Qed.

Abbreviation varints cs := (mjoin ((λ c : Z, encode_varint c []) <$> cs)).
Lemma count_total_loop_fwd field cs : ∀ buf c rest acc, Forall in_u64 cs → 0 ≤ acc → acc + total cs ≤ u64_max →
  cursor_rep buf c (varints cs ++ rest) →
  ∃ c', count_total_loop (length cs) buf c acc field = Ok (acc + total cs, c') ∧ cursor_rep buf c' rest.
Proof.
  induction cs as [|v cs IH]; intros buf c rest acc Hcs Hacc Hmax Hr; [exists c; cbn; by rewrite Z.add_0_r|].
  apply Forall_cons_1 in Hcs as [Hv Hcs]. rewrite join_fmap_cons, <- app_assoc in Hr. cbn [length count_total_loop].
  pose proof (total_nonneg cs Hcs). change (total (v :: cs)) with (v + total cs) in *. assert (grants alloc_ok) as Hal by done.
  destruct (codec_fwd (Codec := varint_codec) alloc_ok _ _ _ _ Hal Hr Hv) as (c1 & -> & Hr1). cbn [mbind result_bind]. unfold in_u64 in Hv.
  rewrite checked_add_u64_fits by lia. cbn [ok_or mbind result_bind].
  destruct (IH _ _ _ (acc + v) Hcs ltac:(lia) ltac:(lia) Hr1) as (c2 & -> & Hr2). exists c2. by replace (acc + v + total cs) with (acc + (v + total cs)) by lia.
Qed.
Lemma count_total_loop_inv field n : ∀ buf c l acc t c', cursor_rep buf c l → 0 ≤ acc ≤ u64_max → count_total_loop n buf c acc field = Ok (t, c') →
  ∃ cs rest, l = varints cs ++ rest ∧ length cs = n ∧ Forall in_u64 cs ∧ t = acc + total cs ∧ t ≤ u64_max ∧ cursor_rep buf c' rest.
Proof.
  induction n as [|n IH]; intros buf c l acc t c' Hr Hacc Hd; cbn [count_total_loop] in Hd.
  { injection Hd as <- <-. exists [], l. cbn. split_and!; try (by apply Forall_nil); try done; lia. }
  read_inv varint_codec alloc_ok Hr Hd v Hv. destruct (checked_add_u64 acc v) as [t1|] eqn:Ht; [|done]. cbn [ok_or mbind result_bind] in Hd.
  apply checked_add_u64_Some in Ht as [-> Ht]. unfold in_u64 in Hv.
  assert (0 ≤ acc + v ≤ u64_max) as Hacc' by lia. destruct (IH _ _ _ _ _ _ Hr Hacc' Hd) as (cs & rest' & -> & <- & Hcs & -> & Hmax & Hr'). exists (v :: cs), rest'.
  rewrite join_fmap_cons, <- app_assoc. change (total (v :: cs)) with (v + total cs). split_and!; try done; first [by constructor|lia].
Qed.
Lemma decode_count_total_fwd field cs buf c rest : Forall in_u64 cs → total cs ≤ u64_max → cursor_rep buf c (varints cs ++ rest) →
  ∃ c', decode_count_total buf c (zlen cs) field = Ok (total cs, c') ∧ cursor_rep buf c' rest.
Proof.
  intros Hcs Hmax Hr. unfold decode_count_total. pose proof (items_min _ _ _ varint_min Hcs). pose proof (zlen_nonneg rest). pose proof (zlen_nonneg cs).
  rewrite (ensure_scalar_fits _ _ _ _ _ _ Hr) by (rewrite ?zlen_app; lia). cbn [mbind result_bind]. rewrite zlen_to_nat.
  by apply (count_total_loop_fwd field cs buf c rest 0).
Qed.
Lemma decode_count_total_inv field n buf c l t c' : cursor_rep buf c l → 0 ≤ n → decode_count_total buf c n field = Ok (t, c') →
  ∃ cs rest, l = varints cs ++ rest ∧ zlen cs = n ∧ Forall in_u64 cs ∧ t = total cs ∧ t ≤ u64_max ∧ cursor_rep buf c' rest.
Proof.
  intros Hr Hn Hd. unfold decode_count_total in Hd. apply bind_ok in Hd as (? & _ & Hd).
  assert (0 ≤ 0 ≤ u64_max) as Hacc by lia.
  destruct (count_total_loop_inv _ _ _ _ _ _ _ _ Hr Hacc Hd) as (cs & rest & -> & Hlen & Hcs & -> & Hmax & Hr'). exists cs, rest.
  split_and!; try done. by apply zlen_nat.
Qed.

Abbreviation f64s vs := (mjoin (le_bytes 8 <$> vs)).
Lemma skip_f64s_fwd vs buf c rest : Forall in_u64 vs → cursor_rep buf c (f64s vs ++ rest) →
  ∃ c', skip_f64s buf c (zlen vs) = Ok c' ∧ cursor_rep buf c' rest.
Proof.
  intros Hvs Hr. unfold skip_f64s. pose proof (zlen_join_min _ in_u64 8 _ f64_min Hvs). pose proof (zlen_nonneg rest). pose proof (zlen_nonneg vs).
  rewrite (ensure_scalar_fits _ _ _ _ _ _ Hr) by (rewrite ?zlen_app; lia). cbn [mbind result_bind]. rewrite zlen_to_nat. clear -Hvs Hr. revert c Hr.
  induction Hvs as [|v vs Hv Hvs IH]; intros c Hr; [by exists c|]. rewrite join_fmap_cons, <- app_assoc in Hr. cbn [length skip_f64s_loop].
  assert (grants alloc_ok) as Hal by done. destruct (codec_fwd (Codec := u64_codec "short read") alloc_ok _ _ _ _ Hal Hr Hv) as (c1 & Hd & Hr1).
  unfold read_f64. rewrite Hd. cbn [mbind result_bind]. by apply IH.
Qed.
Lemma skip_f64s_inv n buf c l c' : cursor_rep buf c l → 0 ≤ n → skip_f64s buf c n = Ok c' →
  ∃ vs rest, l = f64s vs ++ rest ∧ zlen vs = n ∧ Forall in_u64 vs ∧ cursor_rep buf c' rest.
Proof.
  intros Hr Hn Hd. unfold skip_f64s in Hd. apply bind_ok in Hd as (? & _ & Hd).
  enough (∃ vs rest, l = f64s vs ++ rest ∧ length vs = Z.to_nat n ∧ Forall in_u64 vs ∧ cursor_rep buf c' rest) as (vs & rest & ? & ? & ? & ?).
  { exists vs, rest. split_and!; try done. by apply zlen_nat. }
  clear Hn. revert c l Hr Hd. induction (Z.to_nat n) as [|k IH]; intros c l Hr Hd; cbn [skip_f64s_loop] in Hd.
  { injection Hd as <-. exists [], l. cbn. split_and!; try (by apply Forall_nil); done. }
  unfold read_f64 in Hd. read_inv (u64_codec "short read") alloc_ok Hr Hd v Hv. destruct (IH _ _ Hr Hd) as (vs & rest' & -> & Hlen & Hvs & Hr').
  exists (v :: vs), rest'. rewrite join_fmap_cons, <- app_assoc. split_and!; try done; [cbn; by rewrite Hlen|by constructor].
Qed.

(** The positions of a schema, checked one by one. *)
Fixpoint positions_valid (invalid : option Z → Z → bool) (previous : option Z) (l : list Z) : bool :=
  match l with [] => true | p :: l => negb (invalid previous p) && positions_valid invalid (Some p) l end.
Lemma skip_positions_fwd invalid message vs : ∀ previous buf c rest, Forall in_u64 vs → positions_valid invalid previous vs = true →
  cursor_rep buf c (f64s vs ++ rest) → ∃ c', skip_positions invalid message (length vs) previous buf c = Ok c' ∧ cursor_rep buf c' rest.
Proof.
  induction vs as [|v vs IH]; intros previous buf c rest Hvs Hp Hr; [by exists c|]. apply Forall_cons_1 in Hvs as [Hv Hvs].
  cbn [positions_valid] in Hp. apply andb_true_iff in Hp as [Hi%negb_true_iff Hp]. rewrite join_fmap_cons, <- app_assoc in Hr. cbn [length skip_positions].
  assert (grants alloc_ok) as Hal by done. destruct (codec_fwd (Codec := u64_codec "short read") alloc_ok _ _ _ _ Hal Hr Hv) as (c1 & Hd & Hr1).
  unfold read_f64. rewrite Hd. cbn [mbind result_bind]. rewrite Hi. by apply IH.
Qed.
Lemma skip_positions_inv invalid message n : ∀ previous buf c l c', cursor_rep buf c l → skip_positions invalid message n previous buf c = Ok c' →
  ∃ vs rest, l = f64s vs ++ rest ∧ length vs = n ∧ Forall in_u64 vs ∧ positions_valid invalid previous vs = true ∧ cursor_rep buf c' rest.
Proof.
  induction n as [|n IH]; intros previous buf c l c' Hr Hd; cbn [skip_positions] in Hd.
  { injection Hd as <-. exists [], l. cbn. split_and!; try (by apply Forall_nil); done. }
  unfold read_f64 in Hd. read_inv (u64_codec "short read") alloc_ok Hr Hd v Hv. destruct (invalid previous v) eqn:Hi; [done|].
  destruct (IH _ _ _ _ _ Hr Hd) as (vs & rest' & -> & <- & Hvs & Hp & Hr'). exists (v :: vs), rest'. rewrite join_fmap_cons, <- app_assoc.
  split_and!; try done; [by constructor|]. cbn [positions_valid]. by rewrite Hi, Hp.
Qed.

Lemma bounds_valid_spec l : ∀ previous, match previous with Some p => f64_is_finite p = true | None => True end →
  positions_valid bound_invalid previous l = true ↔
  Forall (λ b, f64_is_finite b = true) l ∧ f64_ascending (match previous with Some p => p :: l | None => l end).
Proof.
  induction l as [|q l IH]; intros previous Hprev; cbn [positions_valid]; [destruct previous; cbn; split; try done; by split|].
  rewrite Forall_cons. unfold bound_invalid at 1. destruct (f64_is_finite q) eqn:Hq; cbn [negb orb andb]; [|naive_solver].
  specialize (IH (Some q) Hq). destruct previous as [p|]; cbn [f64_ascending negb andb].
  - rewrite f64_ge_not_lt by done. destruct (f64_lt p q); cbn [negb andb]; [|naive_solver]. rewrite IH. tauto.
  - rewrite IH. tauto.
Qed.
Lemma quantiles_valid_spec l : positions_valid quantile_invalid None l = true ↔ quantile_shape l.
Proof.
  rewrite <- (quantile_shape_spec l InvalidData). unfold validate_summary_quantile_positions. generalize (@None Z).
  induction l as [|q l IH]; intros previous; cbn [positions_valid validate_quantiles]; [done|]. fold (quantile_invalid previous q).
  destruct (quantile_invalid previous q); cbn [negb andb]; [done|]. apply IH.
Qed.

(** ** What each kind's skipping decoders accept *)

Class ScalarView (T : Type) `{HL : SchemaVarLenLaws T} `{HT : TypedCounterValue T} := {
  view_kind : ChunkKind;
  view_schema : Schema → ScalarProjectionSchema;
  view_schema_fwd s : schema_ok s → vec_ok (schema_enc s) →
    decode_scalar_projection_schema view_kind (schema_enc s) = Ok (view_schema s);
  view_schema_inv b p : bytes b → vec_ok b → decode_scalar_projection_schema view_kind b = Ok p →
    ∃ s, schema_ok s ∧ b = schema_enc s ∧ p = view_schema s;
  view_value_fwd s v buf c rest : schema_ok s → sv_ok v → sv_schema v = s → cursor_rep buf c (value_enc v ++ rest) →
    ∃ c', decode_scalar_projection_value view_kind (view_schema s) buf c = Ok (tc_metadata v, tc_count v, tc_sum v, c') ∧ cursor_rep buf c' rest;
  view_value_inv s buf c l m n sm c' : schema_ok s → cursor_rep buf c l →
    decode_scalar_projection_value view_kind (view_schema s) buf c = Ok (m, n, sm, c') →
    ∃ v rest, l = value_enc v ++ rest ∧ sv_ok v ∧ sv_schema v = s ∧ m = tc_metadata v ∧ n = tc_count v ∧ sm = tc_sum v ∧ cursor_rep buf c' rest;
}.

Ltac read_all Hr Hal C H := destruct (codec_fwd (Codec := C) alloc_ok _ _ _ _ Hal Hr H) as (? & -> & Hr'); clear Hr; rename Hr' into Hr; cbn [mbind result_bind].

#[export] Program Instance histogram_view : ScalarView HistogramValue := {|
  view_kind := KindHistogram;
  view_schema := λ s : HistogramSchema, ScalarHistogram (hs_bucket_len s);
|}.
Next Obligation.
  intros s Hs Hv. pose proof (histogram_bucket_len_u64 s Hs) as Hu. pose proof (schema_enc_bytes s Hs) as Hb. pose proof (cursor_start _ Hb Hv) as Hr.
  destruct Hs as ([Hf Ha] & Hbs & Hlt & Hn). assert (grants alloc_ok) as Hal by done. pose proof (zlen_nonneg (hs_explicit_bounds s)).
  change (schema_enc s) with (histogram_schema_bytes s) in *. set (buf := histogram_schema_bytes s) in *. unfold buf in Hr at 2.
  unfold histogram_schema_bytes, counted_bytes in Hr. rewrite <- !app_assoc, <- (app_nil_r (encode_varint (hs_bucket_len s) [])) in Hr.
  unfold decode_scalar_projection_schema. read_fwd len_codec Hr; [unfold in_u64; lia|].
  pose proof (zlen_join_min _ in_u64 8 _ f64_min Hbs). pose proof (zlen_nonneg (encode_varint (hs_bucket_len s) [])).
  rewrite (ensure_scalar_fits _ _ _ _ _ _ Hr) by (rewrite ?zlen_app; rewrite ?zlen_nil; lia). cbn [mbind result_bind]. rewrite zlen_to_nat.
  destruct (skip_positions_fwd bound_invalid "histogram explicit bounds must be finite and strictly ascending" _ None _ _ _ Hbs
    (proj2 (bounds_valid_spec _ None I) (conj Hf Ha)) Hr) as (c1 & -> & Hr1). cbn [mbind result_bind].
  read_fwd len_codec Hr1. rewrite checked_add_u64_fits by lia. cbn [ok_or mbind result_bind]. rewrite (proj2 (Z.eqb_eq _ _) Hn). cbn [negb mbind result_bind].
  apply cursor_zlen in Hr1. rewrite zlen_nil in Hr1. by rewrite (proj2 (Z.eqb_eq _ _)) by lia.
Qed.
Next Obligation.
  intros b p Hb Hv Hd. pose proof (cursor_start _ Hb Hv) as Hr. unfold decode_scalar_projection_schema in Hd. apply bind_ok in Hd as ([sc c] & Hd & Hend).
  pose proof (cursor_zlen _ _ _ Hr) as Hz. set (l := b) in Hr at 2. assert (b = l) as Hl by done. clearbody l.
  read_inv len_codec alloc_ok Hr Hd n Hn. apply bind_ok in Hd as (? & _ & Hd). apply bind_ok in Hd as (c1 & Hskip & Hd).
  destruct (skip_positions_inv _ _ _ _ _ _ _ _ Hr Hskip) as (vs & r1 & -> & Hlen & Hvs & Hpos & Hr1). read_inv len_codec alloc_ok Hr1 Hd m Hm.
  destruct (checked_add_u64 n 1) as [e|] eqn:He; [|done]. cbn [ok_or mbind result_bind] in Hd. apply checked_add_u64_Some in He as [-> _].
  destruct (Z.eqb_spec m (n + 1)) as [->|]; [|done]. cbn [negb] in Hd. injection Hd as <- <-.
  destruct (Z.eqb_spec c2 (zlen b)) as [Hend2|]; [|done]. cbn [negb] in Hend. injection Hend as <-.
  apply cursor_zlen in Hr1. rewrite Hend2, Z.sub_diag in Hr1. apply zlen_0 in Hr1 as ->. rewrite app_nil_r in Hl. unfold in_u64 in Hn.
  assert (zlen vs = n) as Hzn by (apply zlen_nat; [done|lia]). exists (mk_histogram_schema vs (n + 1)). split_and!; [|by rewrite Hl; unfold schema_enc; cbn; unfold histogram_schema_bytes, counted_bytes; cbn; rewrite Hzn, <- app_assoc|done].
  apply (bounds_valid_spec vs None I) in Hpos. split_and!; cbn [hs_explicit_bounds hs_bucket_len]; try apply Hpos; [done| |lia].
  pose proof (zlen_join_min _ in_u64 8 _ f64_min Hvs) as H8. assert (zlen (f64s vs) ≤ zlen b).
  { rewrite Hl, !zlen_app. pose proof (zlen_nonneg (encode_varint n [])). pose proof (zlen_nonneg (encode_varint (n + 1) [])). lia. }
  lia.
Qed.
Next Obligation.
  intros s v buf c rest Hs [Hv Hshape] <- Hr. pose proof Hv as (Hm & Hc & Hsum & Hmin & Hmax & _ & Hcs & _). destruct Hshape as (_ & Hlen & Htot).
  change (value_enc v) with (histogram_value_bytes v) in Hr. unfold histogram_value_bytes, histogram_head_bytes in Hr. rewrite <- !app_assoc in Hr.
  assert (grants alloc_ok) as Hal by done. unfold decode_scalar_projection_value. read_fwd metadata_codec Hr. read_fwd varint_codec Hr. do 3 read_fwd opt_f64_codec Hr.
  change (sv_schema v) with (histogram_schema_of v). cbn [histogram_schema_of hs_bucket_len].
  destruct (decode_count_total_fwd "histogram" _ _ _ _ Hcs ltac:(unfold in_u64 in Hc; lia) Hr) as (ce & -> & Hr1). cbn [mbind result_bind].
  rewrite (proj2 (Z.eqb_eq _ _) Htot). cbn [negb]. by exists ce.
Qed.
Next Obligation.
  intros s buf c l m n sm c' Hs Hr Hd. pose proof Hs as (Hval & Hbs & Hlt & Hn). pose proof (histogram_bucket_len_u64 s Hs) as Hu. unfold decode_scalar_projection_value in Hd.
  read_inv metadata_codec alloc_ok Hr Hd md Hm. read_inv varint_codec alloc_ok Hr Hd cn Hcn. read_inv opt_f64_codec alloc_ok Hr Hd su Hsu.
  read_inv opt_f64_codec alloc_ok Hr Hd mn Hmn. read_inv opt_f64_codec alloc_ok Hr Hd mx Hmx. apply bind_ok in Hd as ([t ce] & Ht & Hd).
  unfold in_u64 in Hu. destruct (decode_count_total_inv _ _ _ _ _ _ _ Hr (proj1 Hu) Ht) as (cs & r & -> & Hlen & Hcs & -> & Hmax & Hr1).
  destruct (Z.eqb_spec (total cs) cn) as [<-|]; [|done]. cbn [negb] in Hd. injection Hd as <- <- <- <-.
  exists (mk_histogram (total cs) su mn mx md (hs_explicit_bounds s) cs), r. split_and!; try done.
  - change (value_enc ?v) with (histogram_value_bytes v). unfold histogram_value_bytes, histogram_head_bytes. by rewrite <- !app_assoc.
  - split; [by split_and!|]. split_and!; cbn; try apply Hval; [lia|done].
  - change (sv_schema ?v) with (histogram_schema_of v). unfold histogram_schema_of. cbn. rewrite Hlen. by destruct s.
Qed.

(** The buckets of one sign. *)
Lemma bucket_total_fwd b buf c rest : buckets_ok b → total (eb_counts b) ≤ u64_max → zlen (eb_counts b) ≤ i64_max →
  cursor_rep buf c (buckets_bytes b ++ rest) →
  ∃ c', decode_exponential_histogram_bucket_total buf c = Ok (total (eb_counts b), c') ∧ cursor_rep buf c' rest.
Proof.
  intros [Ho Hcs] Hmax Hn Hr. unfold buckets_bytes, counted_bytes in Hr. rewrite <- !app_assoc in Hr. assert (grants alloc_ok) as Hal by done.
  unfold decode_exponential_histogram_bucket_total. read_fwd i32_codec Hr. pose proof (zlen_nonneg (eb_counts b)).
  read_fwd len_codec Hr; [unfold in_u64; lia|]. by apply decode_count_total_fwd.
Qed.
Lemma bucket_total_inv buf c l t c' : cursor_rep buf c l → decode_exponential_histogram_bucket_total buf c = Ok (t, c') →
  ∃ b rest, l = buckets_bytes b ++ rest ∧ buckets_ok b ∧ t = total (eb_counts b) ∧ t ≤ u64_max ∧ cursor_rep buf c' rest.
Proof.
  intros Hr Hd. unfold decode_exponential_histogram_bucket_total in Hd. read_inv i32_codec alloc_ok Hr Hd o Ho. read_inv len_codec alloc_ok Hr Hd n Hn.
  destruct (decode_count_total_inv _ _ _ _ _ _ _ Hr (proj1 Hn) Hd) as (cs & r & -> & <- & Hcs & -> & Hmax & Hr1).
  exists (mk_buckets o cs), r. unfold buckets_bytes, counted_bytes, buckets_ok. cbn. rewrite <- !app_assoc. by split_and!.
Qed.

#[export] Program Instance exponential_view : ScalarView ExponentialHistogramValue := {|
  view_kind := KindExponentialHistogram;
  view_schema := λ _ : ExponentialHistogramSchema, ScalarExponentialHistogram;
|}.
Next Obligation.
  intros s Hs Hv. pose proof (schema_enc_bytes s Hs) as Hb. pose proof (cursor_start _ Hb Hv) as Hr. destruct Hs as [Hsc Hzt].
  assert (grants alloc_ok) as Hal by done. change (schema_enc s) with (exponential_schema_bytes s) in *. set (buf := exponential_schema_bytes s) in *. unfold buf in Hr at 2.
  unfold exponential_schema_bytes in Hr. rewrite <- (app_nil_r (le_bytes 8 (es_zero_threshold s))) in Hr. unfold decode_scalar_projection_schema.
  read_fwd i32_codec Hr. unfold read_f64. read_fwd (u64_codec "short read") Hr.
  apply cursor_zlen in Hr. rewrite zlen_nil in Hr. by rewrite (proj2 (Z.eqb_eq _ _)) by lia.
Qed.
Next Obligation.
  intros b p Hb Hv Hd. pose proof (cursor_start _ Hb Hv) as Hr. unfold decode_scalar_projection_schema, read_f64 in Hd. apply bind_ok in Hd as ([sc c] & Hd & Hend).
  set (l := b) in Hr at 2. assert (b = l) as Hl by done. clearbody l. read_inv i32_codec alloc_ok Hr Hd o Ho.
  read_inv (u64_codec "short read") alloc_ok Hr Hd z Hz. injection Hd as <- <-. destruct (Z.eqb_spec c1 (zlen b)) as [Heq|]; [|done]. injection Hend as <-.
  apply cursor_zlen in Hr. rewrite Heq, Z.sub_diag in Hr. apply zlen_0 in Hr as ->. rewrite app_nil_r in Hl.
  exists (mk_exponential_schema o z). split_and!; [split; done|done|done].
Qed.
Next Obligation.
  intros s v buf c rest Hs [Hv Htot] <- Hr. pose proof Hv as (Hm & Hc & Hsum & Hmin & Hmax & _ & _ & Hzc & Hp & Hn & Hpl & Hnl).
  pose proof (total_nonneg _ (proj2 Hp)). pose proof (total_nonneg _ (proj2 Hn)).
  change (value_enc v) with (exponential_value_bytes v) in Hr. unfold exponential_value_bytes, exponential_head_bytes, exponential_tail_bytes in Hr.
  rewrite <- !app_assoc in Hr. assert (grants alloc_ok) as Hal by done. unfold decode_scalar_projection_value.
  read_fwd metadata_codec Hr. read_fwd varint_codec Hr. do 3 read_fwd opt_f64_codec Hr. read_fwd varint_codec Hr. unfold in_u64 in Hc, Hzc.
  destruct (bucket_total_fwd _ _ _ _ Hp ltac:(lia) Hpl Hr) as (ce & -> & Hr1). cbn [mbind result_bind].
  destruct (bucket_total_fwd _ _ _ _ Hn ltac:(lia) Hnl Hr1) as (ce' & -> & Hr2). cbn [mbind result_bind].
  rewrite checked_add_u64_fits by lia. cbn [mbind option_bind]. rewrite checked_add_u64_fits by lia. cbn [ok_or mbind result_bind].
  rewrite (proj2 (Z.eqb_eq _ _) Htot). cbn [negb]. by exists ce'.
Qed.
Next Obligation.
  intros s buf c l m n sm c' Hs Hr Hd. pose proof (cursor_zlen _ _ _ Hr) as Hz. pose proof Hr as (_ & Hsz & Hcc & _). set (l0 := l) in Hz. assert (Hl : l0 = l) by done. clearbody l0.
  unfold decode_scalar_projection_value in Hd.
  read_inv metadata_codec alloc_ok Hr Hd md Hm. read_inv varint_codec alloc_ok Hr Hd cn Hcn. read_inv opt_f64_codec alloc_ok Hr Hd su Hsu.
  read_inv opt_f64_codec alloc_ok Hr Hd mn Hmn. read_inv opt_f64_codec alloc_ok Hr Hd mx Hmx. read_inv varint_codec alloc_ok Hr Hd zc Hzc.
  apply bind_ok in Hd as ([t ce] & Ht & Hd). destruct (bucket_total_inv _ _ _ _ _ Hr Ht) as (pb & r & -> & Hpb & -> & Hpm & Hr1).
  apply bind_ok in Hd as ([t' ce'] & Ht' & Hd). destruct (bucket_total_inv _ _ _ _ _ Hr1 Ht') as (nb & r' & -> & Hnb & -> & Hnm & Hr2).
  apply bind_ok in Hd as (t & Hsum & Hd). destruct (checked_add_u64 zc _) as [t1|] eqn:H1; [|done]. cbn [mbind option_bind] in Hsum.
  apply checked_add_u64_Some in H1 as [-> _]. destruct (checked_add_u64 _ (total (eb_counts nb))) as [t2|] eqn:H2; [|done]. injection Hsum as ->.
  apply checked_add_u64_Some in H2 as [-> _]. destruct (Z.eqb_spec (zc + total (eb_counts pb) + total (eb_counts nb)) cn) as [Htot|]; [|done]. cbn [negb] in Hd.
  injection Hd as <- <- <- <-. set (v := mk_exponential cn su mn mx (es_scale s) (es_zero_threshold s) zc md pb nb). exists v, r'.
  assert (l0 = exponential_value_bytes v ++ r') as Heq.
  { rewrite Hl. unfold exponential_value_bytes, exponential_head_bytes, exponential_tail_bytes. cbn [v e_metadata e_count e_sum e_min e_max e_zero_count e_positive e_negative]. by rewrite <- !app_assoc. }
  split_and!; try done; [by rewrite <- Hl| |change (sv_schema v) with (exponential_schema_of v); by destruct s].
  assert (vec_ok l0) as Hvec by lia. rewrite Heq in Hvec. unfold exponential_value_bytes in Hvec. rewrite <- app_assoc in Hvec.
  destruct (exponential_lens v _ _ Hpb Hnb Hvec) as [Hpl Hnl]. destruct Hs as [Hsc Hzt]. split; [by split_and!|done].
Qed.

#[export] Program Instance summary_view : ScalarView SummaryValue := {|
  view_kind := KindSummary;
  view_schema := λ s : SummarySchema, ScalarSummary (zlen (ss_quantiles s));
|}.
Next Obligation.
  intros s Hs Hv. pose proof (schema_enc_bytes s Hs) as Hb. pose proof (cursor_start _ Hb Hv) as Hr. destruct Hs as (Hq & Hn & Hshape).
  assert (grants alloc_ok) as Hal by done. change (schema_enc s) with (summary_schema_bytes s) in *. set (buf := summary_schema_bytes s) in *. unfold buf in Hr at 2.
  unfold summary_schema_bytes, counted_bytes in Hr. rewrite <- (app_nil_r (f64s _)) in Hr. rewrite <- ?app_assoc in Hr. unfold decode_scalar_projection_schema. pose proof (zlen_nonneg (ss_quantiles s)).
  read_fwd len_codec Hr; [unfold in_u64; lia|]. pose proof (zlen_join_min _ in_u64 8 _ f64_min Hq).
  rewrite (ensure_scalar_fits _ _ _ _ _ _ Hr) by (rewrite ?zlen_app; rewrite ?zlen_nil; lia). cbn [mbind result_bind]. rewrite zlen_to_nat.
  destruct (skip_positions_fwd quantile_invalid "summary quantile positions must be finite, within [0, 1], and strictly ascending" _ None _ _ _ Hq
    (proj2 (quantiles_valid_spec _) Hshape) Hr) as (ce & -> & Hr1). cbn [mbind result_bind].
  apply cursor_zlen in Hr1. rewrite zlen_nil in Hr1. by rewrite (proj2 (Z.eqb_eq _ _)) by lia.
Qed.
Next Obligation.
  intros b p Hb Hv Hd. pose proof (cursor_start _ Hb Hv) as Hr. unfold decode_scalar_projection_schema in Hd. apply bind_ok in Hd as ([sc c] & Hd & Hend).
  set (l := b) in Hr at 2. assert (b = l) as Hl by done. clearbody l.
  read_inv len_codec alloc_ok Hr Hd n Hn. apply bind_ok in Hd as (? & _ & Hd). apply bind_ok in Hd as (c1 & Hskip & Hd).
  destruct (skip_positions_inv _ _ _ _ _ _ _ _ Hr Hskip) as (vs & r1 & -> & Hlen & Hvs & Hpos & Hr1). injection Hd as <- <-.
  destruct (Z.eqb_spec c1 (zlen b)) as [Heq|]; [|done]. injection Hend as <-. apply cursor_zlen in Hr1. rewrite Heq, Z.sub_diag in Hr1. apply zlen_0 in Hr1 as ->.
  rewrite app_nil_r in Hl. unfold in_u64 in Hn. assert (zlen vs = n) as Hzn by (apply zlen_nat; [done|lia]).
  exists (mk_summary_schema vs). apply quantiles_valid_spec in Hpos. pose proof (zlen_join_min _ in_u64 8 _ f64_min Hvs) as H8.
  pose proof (zlen_nonneg (encode_varint n [])). split_and!; [split_and!; [done| |apply Hpos..]|by rewrite Hl, <- Hzn|by rewrite <- Hzn].
  rewrite Hl, zlen_app in Hv. cbn [ss_quantiles]. lia.
Qed.
Next Obligation.
  intros s v buf c rest Hs [(Hm & Hc & Hsum & Hq & Hn) Hpos] <- Hr. apply quantile_values in Hq as [_ Hvals].
  change (value_enc v) with (summary_value_bytes v) in Hr. unfold summary_value_bytes, summary_head_bytes in Hr. rewrite <- !app_assoc in Hr.
  assert (grants alloc_ok) as Hal by done. unfold decode_scalar_projection_value, read_f64. read_fwd metadata_codec Hr. read_fwd varint_codec Hr. read_fwd (u64_codec "short read") Hr.
  change (sv_schema v) with (summary_schema_of v). change (ss_quantiles (summary_schema_of v)) with (q_quantile <$> s_quantiles v).
  assert (zlen (q_quantile <$> s_quantiles v) = zlen (q_value <$> s_quantiles v)) as -> by (unfold zlen; by rewrite !length_fmap).
  destruct (skip_f64s_fwd _ _ _ _ Hvals Hr) as (ce & -> & Hr1). by exists ce.
Qed.
Next Obligation.
  intros s buf c l m n sm c' (Hqu & Hqn & Hqs) Hr Hd. unfold decode_scalar_projection_value, read_f64 in Hd.
  read_inv metadata_codec alloc_ok Hr Hd md Hm. read_inv varint_codec alloc_ok Hr Hd cn Hcn. read_inv (u64_codec "short read") alloc_ok Hr Hd su Hsu.
  apply bind_ok in Hd as (ce & Hskip & Hd). injection Hd as <- <- <- <-.
  destruct (skip_f64s_inv _ _ _ _ _ Hr (zlen_nonneg _) Hskip) as (vs & r & -> & Hlen & Hvs & Hr1).
  assert (length vs = length (ss_quantiles s)) as Hl by (unfold zlen in Hlen; lia). destruct (zip_with_quantile _ _ Hl) as [Hz1 Hz2].
  exists (mk_summary cn su md (zip_with mk_quantile (ss_quantiles s) vs)), r. split_and!; try done.
  - change (value_enc ?v) with (summary_value_bytes v). unfold summary_value_bytes, summary_head_bytes. cbn [s_quantiles s_metadata s_count s_sum].
    rewrite Hz2. by rewrite <- !app_assoc.
  - split; [|by unfold Summary.positions; cbn [s_quantiles]; rewrite Hz1]. split_and!; try done; cbn [s_quantiles].
    + apply quantile_values. by rewrite Hz1, Hz2.
    + unfold zlen in *. rewrite length_zip_with. lia.
  - change (sv_schema ?v) with (summary_schema_of v). unfold summary_schema_of, Summary.positions. cbn [s_quantiles]. rewrite Hz1. by destruct s.
Qed.

(** ** What a projection shows of a row *)

Definition projected_row (projection : ChunkScalarProjection) (row : DecodedTypedScalarLaneRow) : ChunkScalarSample :=
  mk_scalar_sample (lr_timestamp_ms row) (lr_metadata row) (projected projection (lr_count row) (lr_sum row)).

Lemma lane_row_agrees_spec row t m n s : lane_row_agrees row t m n s = true ↔ row = mk_row t m n s.
Proof.
  unfold lane_row_agrees. rewrite !andb_true_iff, !bool_decide_eq_true, !Z.eqb_eq. destruct row as [t' m' n' s'].
  cbn [lr_timestamp_ms lr_metadata lr_count lr_sum]. naive_solver.
Qed.

(** ** The schema-tagged block, read without its values *)

Section scan.
Context {T : Type} `{HV : ScalarView T}.
Implicit Types (v : T) (vs : list T).
Abbreviation schemas_ok ss := (Forall (λ s, schema_ok s ∧ vec_ok (schema_enc s)) ss).

Lemma scalar_schemas_fwd ss : ∀ buf seen c rest, schemas_ok ss → NoDup (schema_enc <$> ss) → (∀ s, s ∈ ss → schema_enc s ∉ seen) →
  cursor_rep buf c (mjoin (schema_frame <$> (schema_enc <$> ss)) ++ rest) →
  ∃ c', scalar_schemas_loop view_kind (length ss) seen buf c = Ok (view_schema <$> ss, c') ∧ cursor_rep buf c' rest.
Proof.
  induction ss as [|s ss IH]; intros buf seen c rest Hss Hnd Hseen Hr; [by exists c|].
  apply Forall_cons_1 in Hss as [[Hs Hv] Hss]. cbn [fmap list_fmap] in Hnd |- *. rewrite fmap_cons, join_fmap_cons in Hr. apply list.NoDup_cons in Hnd as [Hni Hnd].
  unfold schema_frame at 1 in Hr. rewrite <- !app_assoc in Hr. pose proof (zlen_nonneg (schema_enc s)) as Hz. assert (grants alloc_ok) as Hal by done.
  cbn [length scalar_schemas_loop]. read_fwd len_codec Hr; [unfold in_u64; lia|].
  pose proof (cursor_zlen _ _ _ Hr) as Hlen. rewrite zlen_app in Hlen. pose proof Hr as (_ & Hvec & Hc & _).
  match type of Hlen with _ + zlen ?r = _ => pose proof (zlen_nonneg r) end.
  unfold saturating_add_u64. rewrite Z.min_l by lia. rewrite (proj2 (Z.ltb_ge _ _)) by lia. rewrite (cursor_slice _ _ _ _ _ Hr eq_refl).
  rewrite decide_False by (apply Hseen; by left). rewrite view_schema_fwd by done. cbn [mbind result_bind]. apply cursor_step in Hr.
  destruct (IH buf ({[schema_enc s]} ∪ seen) (c0 + zlen (schema_enc s)) rest Hss Hnd) as (ce & Hds & Hr2); [|exact Hr|].
  { intros s' Hin. apply not_elem_of_union. split; [|apply Hseen; by right].
    intros Heq%elem_of_singleton. apply Hni. rewrite <- Heq. by apply list_elem_of_fmap_2. }
  rewrite Hds. cbn [mbind result_bind]. by exists ce.
Qed.

Lemma scalar_schemas_inv n : ∀ buf seen c l ps c', cursor_rep buf c l → scalar_schemas_loop view_kind n seen buf c = Ok (ps, c') →
  ∃ ss rest, l = mjoin (schema_frame <$> (schema_enc <$> ss)) ++ rest ∧ cursor_rep buf c' rest ∧ ps = view_schema <$> ss ∧
    length ss = n ∧ schemas_ok ss ∧ NoDup (schema_enc <$> ss) ∧ (∀ s, s ∈ ss → schema_enc s ∉ seen).
Proof.
  induction n as [|n IH]; intros buf seen c l ps c' Hr Hd; cbn [scalar_schemas_loop] in Hd.
  { injection Hd as <- <-. exists [], l. split_and!; try done; try constructor. by intros s []%not_elem_of_nil. }
  read_inv len_codec alloc_ok Hr Hd len Hu. unfold in_u64 in Hu.
  destruct (Z.ltb_spec (zlen buf) (saturating_add_u64 c0 len)) as [|Hle]; [done|]. pose proof Hr as (_ & Hvec & Hc & _).
  unfold saturating_add_u64 in *. rewrite Z.min_l in Hd, Hle by lia.
  destruct (cursor_take _ _ _ (c0 + len) Hr ltac:(lia)) as (r2 & -> & Hz & Hbs & Hr2). destruct (decide _) as [|Hnin] in Hd; [done|].
  apply bind_ok in Hd as (p & Hp & Hd). apply view_schema_inv in Hp as (s & Hs & Heq & ->); [|done|lia]. rewrite Heq in Hz, Hnin, Hd |- *.
  apply bind_ok in Hd as ([ps' ce] & Hds & Hd). injection Hd as <- <-.
  destruct (IH _ _ _ _ _ _ Hr2 Hds) as (ss & rest' & -> & Hr3 & -> & <- & Hss & Hnd & Hseen). exists (s :: ss), rest'. rewrite fmap_cons, join_fmap_cons.
  split_and!; [|done|done|done| | |].
  - unfold schema_frame at 2. rewrite <- !app_assoc. by replace len with (zlen (schema_enc s)) by lia.
  - constructor; [split; [done|lia]|done].
  - apply list.NoDup_cons. split; [|done]. intros (s' & Hs' & Hin)%list_elem_of_fmap.
    apply (Hseen s' Hin). rewrite <- Hs'. by apply elem_of_union_l, elem_of_singleton.
  - intros s' [->|Hin]%elem_of_cons; [done|]. intros Hs'. apply (Hseen s' Hin). by apply elem_of_union_r.
Qed.

(** *** The samples *)

Section samples.
Context (projection : ChunkScalarProjection) (rows : list DecodedTypedScalarLaneRow) (buf : list Z).

(** The rows from the [n]th on begin with the given ones, when there is a lane. *)
Definition lane_agrees (n : nat) (rows' : list DecodedTypedScalarLaneRow) : Prop := rows = [] ∨ rows' `prefix_of` drop n rows.
(** The walk after [n] schemas were seen and samples were pushed. *)
Definition after_samples (w : scalar_walk) (l : list (Z * T)) (n : nat) (c : Z) : scalar_walk :=
  mk_scalar_walk (sw_samples w ++ (projected_row projection <$> typed_rows l)) (foldl flags_observe (sw_flags w) (lr_metadata <$> typed_rows l))
    (Z.of_nat n) c.

Lemma after_samples_cons w t v l n m c ce : after_samples (after_samples w [(t, v)] n c) l m ce = after_samples w ((t, v) :: l) m ce.
Proof. unfold after_samples. cbn [sw_samples sw_flags]. by rewrite <- app_assoc. Qed.
Lemma lane_agrees_cons n row rows' : lane_agrees n (row :: rows') ↔ (rows = [] ∨ rows !! n = Some row) ∧ lane_agrees (S n) rows'.
Proof.
  unfold lane_agrees. destruct (decide (rows = [])) as [|Hne]; [naive_solver|].
  assert (row :: rows' `prefix_of` drop n rows ↔ rows !! n = Some row ∧ rows' `prefix_of` drop (S n) rows); [|naive_solver].
  split.
  - intros [k Hk]. assert (rows !! n = Some row) as Hn by (rewrite <- (Nat.add_0_r n), <- lookup_drop, Hk; done).
    split; [done|]. rewrite (drop_S _ _ _ Hn) in Hk. exists k. by injection Hk.
  - intros [Hn [k Hk]]. exists k. by rewrite (drop_S _ _ _ Hn), Hk.
Qed.
(** The comparison with the lane's row. *)
Lemma lane_row_check n t m k sm : lane_agrees n [mk_row t m k sm] ↔
  (match rows with
   | [] => Ok tt
   | _ =>
       lane_row ← ok_or (io_err InvalidData "typed scalar lane has fewer rows than the native projection") (rows !! n);
       if lane_row_agrees lane_row t m k sm then Ok tt else fail InvalidData "typed scalar lane row disagrees with the native projection"
   end) = (Ok tt : io_result unit).
Proof.
  rewrite lane_agrees_cons. assert (lane_agrees (S n) []) as Hnil by (right; apply prefix_nil).
  destruct rows as [|r rows'] eqn:Hrows; [by split; [|split; [left|]]|]. destruct ((r :: rows') !! n) as [row|]; cbn [ok_or mbind result_bind].
  - pose proof (lane_row_agrees_spec row t m k sm) as Hs. destruct (lane_row_agrees row t m k sm); naive_solver.
  - naive_solver.
Qed.

Lemma sample_step_fwd ss w t v n i s rest : schemas_ok ss → ss !! i = Some s → (i ≤ n)%nat → zlen ss < u64_max → (n ≤ length ss)%nat →
  sv_ok v → sv_schema v = s → sw_next_first_seen_schema w = Z.of_nat n → lane_agrees (length (sw_samples w)) (typed_rows [(t, v)]) →
  cursor_rep buf (sw_cursor w) (encode_varint (Z.of_nat i) [] ++ value_enc v ++ rest) →
  ∃ c, scalar_sample_step view_kind projection (view_schema <$> ss) rows buf w t = Ok (after_samples w [(t, v)] (seen_after n i) c) ∧ cursor_rep buf c rest.
Proof.
  intros Hss Hi Hle Hsz Hn Hv Hsame Hnext Hlane Hr. destruct (Forall_lookup_1 _ _ _ _ Hss Hi) as [Hs Hsv]. pose proof (lookup_lt_Some _ _ _ Hi) as Hlt.
  unfold zlen in Hsz. assert (grants alloc_ok) as Hal by done. unfold scalar_sample_step. read_fwd varint_codec Hr; [unfold in_u64; lia|].
  rewrite try_u64_fits by (unfold in_u64; lia). cbn [ok_or mbind result_bind]. rewrite Nat2Z.id, list_lookup_fmap, Hi. cbn [fmap option_fmap option_map ok_or mbind result_bind].
  rewrite Hnext, (proj2 (Z.ltb_ge _ _)) by lia. rewrite seen_after_Z by lia.
  destruct (view_value_fwd _ _ _ _ _ Hs Hv Hsame Hr) as (ce & -> & Hr'). cbn [mbind result_bind].
  apply lane_row_check in Hlane. cbn [fst snd] in Hlane. rewrite Hlane. cbn [mbind result_bind]. by exists ce.
Qed.
Lemma sample_step_inv ss w t n l w' : schemas_ok ss → zlen ss < u64_max → (n ≤ length ss)%nat →
  sw_next_first_seen_schema w = Z.of_nat n → cursor_rep buf (sw_cursor w) l →
  scalar_sample_step view_kind projection (view_schema <$> ss) rows buf w t = Ok w' →
  ∃ i v rest c, (i ≤ n)%nat ∧ ss !! i = Some (sv_schema v) ∧ sv_ok v ∧ l = encode_varint (Z.of_nat i) [] ++ value_enc v ++ rest ∧
    lane_agrees (length (sw_samples w)) (typed_rows [(t, v)]) ∧ w' = after_samples w [(t, v)] (seen_after n i) c ∧ cursor_rep buf c rest.
Proof.
  intros Hss Hsz Hn Hnext Hr Hd. unfold scalar_sample_step in Hd. read_inv varint_codec alloc_ok Hr Hd schema_id Hu.
  rewrite try_u64_fits in Hd by done. cbn [ok_or mbind result_bind] in Hd. unfold in_u64 in Hu. destruct (Z_of_nat_complete schema_id ltac:(lia)) as [i ->].
  rewrite Nat2Z.id, list_lookup_fmap in Hd. destruct (ss !! i) as [s|] eqn:Hi; [|done]. cbn [fmap option_fmap option_map ok_or mbind result_bind] in Hd.
  rewrite Hnext in Hd. destruct (Z.ltb_spec (Z.of_nat n) (Z.of_nat i)) as [|Hle]; [done|]. pose proof (lookup_lt_Some _ _ _ Hi) as Hlt. unfold zlen in Hsz.
  rewrite seen_after_Z in Hd by lia. apply bind_ok in Hd as ([[[m k] sm] ce] & Hv & Hd). destruct (Forall_lookup_1 _ _ _ _ Hss Hi) as [Hs Hsv].
  destruct (view_value_inv _ _ _ _ _ _ _ _ Hs Hr Hv) as (v & rest' & -> & Hok & Hsame & -> & -> & -> & Hr').
  apply bind_ok in Hd as ([] & Hlane%lane_row_check & Hd). injection Hd as <-. exists i, v, rest', ce. rewrite Hsame. split_and!; [lia|done..].
Qed.

Lemma samples_loop_fwd ss l : ∀ n w rest, schemas_ok ss → NoDup (schema_enc <$> ss) → zlen ss < u64_max → (n ≤ length ss)%nat →
  Forall (λ v, sv_ok v) l.*2 → (tagged (take n (schema_enc <$> ss)) l.*2).1 = schema_enc <$> ss → sw_next_first_seen_schema w = Z.of_nat n →
  lane_agrees (length (sw_samples w)) (typed_rows l) → cursor_rep buf (sw_cursor w) ((tagged (take n (schema_enc <$> ss)) l.*2).2 ++ rest) →
  ∃ c, scalar_samples_loop view_kind projection (view_schema <$> ss) rows buf w l.*1 = Ok (after_samples w l (length ss) c) ∧ cursor_rep buf c rest.
Proof.
  induction l as [|[t v] l IH]; intros n w rest Hss Hnd Hsz Hn Hvs Htab Hnext Hlane Hr.
  { exists (sw_cursor w). split; [|done]. cbn in Htab. apply (f_equal length) in Htab. rewrite length_take, !length_fmap in Htab.
    unfold after_samples. cbn. rewrite app_nil_r. destruct w as [x1 x2 x3 x4]. cbn in *. do 2 f_equal. lia. }
  cbn [fmap list_fmap fst snd] in *. apply Forall_cons_1 in Hvs as [Hv Hvs]. cbn [tagged] in Htab, Hr.
  destruct (tag v (take n (schema_enc <$> ss))) as [i tb] eqn:Htag.
  pose proof (tagged_prefix l.*2 tb) as Hpre. destruct (tagged tb l.*2) as [tb' out] eqn:Htv. cbn [fst snd] in *. subst tb'.
  destruct (tag_take_fwd _ _ _ _ _ Hnd ltac:(by rewrite length_fmap) Htag Hpre) as [Hi Hin].
  pose proof (tag_take_inv _ _ _ _ Hnd Hi Hin) as Htag'. rewrite Htag in Htag'. injection Htag' as ->.
  pose proof (lookup_lt_Some _ _ _ Hi) as Hlt. rewrite length_fmap in Hlt.
  rewrite list_lookup_fmap in Hi. destruct (ss !! i) as [s|] eqn:Hsi; [|done]. injection Hi as Heq.
  destruct (Forall_lookup_1 _ _ _ _ Hss Hsi) as [Hs Hsv].
  assert (Hsame : sv_schema v = s) by (symmetry; apply schema_enc_inj; [done|by apply sv_schema_ok|done|done]).
  rewrite <- !app_assoc in Hr. apply lane_agrees_cons in Hlane as [Hrow Hlane].
  destruct (sample_step_fwd ss w t v n i s (out ++ rest) Hss Hsi Hin Hsz Hn Hv Hsame Hnext) as (c & Hstep & Hr'); [|exact Hr|].
  { apply lane_agrees_cons. split; [done|]. right. apply prefix_nil. }
  cbn [scalar_samples_loop]. rewrite Hstep. cbn [mbind result_bind].
  destruct (IH (seen_after n i) (after_samples w [(t, v)] (seen_after n i) c) rest Hss Hnd Hsz) as (ce & Hl & Hr2); rewrite ?Htv; try done.
  - apply seen_after_le; lia.
  - unfold after_samples. cbn [sw_samples]. rewrite length_app. cbn. by rewrite Nat.add_1_r.
  - rewrite Hl. exists ce. by rewrite after_samples_cons.
Qed.

Lemma samples_loop_inv ss ts : ∀ n w l w', schemas_ok ss → NoDup (schema_enc <$> ss) → zlen ss < u64_max → (n ≤ length ss)%nat →
  sw_next_first_seen_schema w = Z.of_nat n → cursor_rep buf (sw_cursor w) l →
  scalar_samples_loop view_kind projection (view_schema <$> ss) rows buf w ts = Ok w' →
  ∃ vs rest n' c, length vs = length ts ∧ (n' ≤ length ss)%nat ∧ Forall (λ v, sv_ok v) vs ∧
    (tagged (take n (schema_enc <$> ss)) vs).1 = take n' (schema_enc <$> ss) ∧ l = (tagged (take n (schema_enc <$> ss)) vs).2 ++ rest ∧
    lane_agrees (length (sw_samples w)) (typed_rows (zip ts vs)) ∧ w' = after_samples w (zip ts vs) n' c ∧ cursor_rep buf c rest.
Proof.
  induction ts as [|t ts IH]; intros n w l w' Hss Hnd Hsz Hn Hnext Hr Hd; cbn [scalar_samples_loop] in Hd.
  { injection Hd as <-. exists [], l, n, (sw_cursor w). split_and!; try done; [right; apply prefix_nil|].
    unfold after_samples. cbn. rewrite app_nil_r. destruct w as [x1 x2 x3 x4]. cbn in *. by rewrite Hnext. }
  apply bind_ok in Hd as (w1 & Hstep & Hd).
  destruct (sample_step_inv _ _ _ _ _ _ Hss Hsz Hn Hnext Hr Hstep) as (i & v & rest & c & Hi & Hsi & Hok & -> & Hlane & -> & Hr').
  pose proof (lookup_lt_Some _ _ _ Hsi) as Hlt.
  destruct (IH (seen_after n i) (after_samples w [(t, v)] (seen_after n i) c) _ _ Hss Hnd Hsz ltac:(apply seen_after_le; lia) eq_refl Hr' Hd)
    as (vs & rest' & n' & ce & Hlen & Hn' & Hall & Htab & -> & Hlane' & -> & Hr2).
  assert (Hsh : (schema_enc <$> ss) !! i = Some (shape v)) by (by rewrite list_lookup_fmap, Hsi).
  pose proof (tag_take_inv v _ n i Hnd Hsh Hi) as Htag. exists (v :: vs), rest', n', ce. cbn [tagged length zip zip_with]. rewrite Htag.
  destruct (tagged (take (seen_after n i) (schema_enc <$> ss)) vs) as [tb out]. cbn [fst snd] in *.
  split_and!; try done; [by rewrite Hlen|by constructor|by rewrite <- !app_assoc| |apply after_samples_cons].
  apply lane_agrees_cons in Hlane as [Hrow _]. apply lane_agrees_cons. split; [done|].
  unfold after_samples in Hlane'. cbn [sw_samples] in Hlane'. rewrite length_app in Hlane'. cbn in Hlane'. by rewrite Nat.add_1_r in Hlane'.
Qed.
End samples.

(** *** The whole block *)

Lemma samples_end rows l k : lane_agrees rows 0 (typed_rows l) → k = length (typed_rows l) →
  negb (bool_decide (rows = [])) && negb (zlen rows =? Z.of_nat k) = false ↔ rows = [] ∨ rows = typed_rows l.
Proof.
  intros Hl ->. change (Z.of_nat (length (typed_rows l))) with (zlen (typed_rows l)). destruct (decide (rows = [])) as [->|Hne]; [naive_solver|].
  rewrite bool_decide_eq_false_2 by done. destruct Hl as [?|[k Hk]]; [done|]. rewrite drop_0 in Hk. cbn [negb andb].
  destruct (Z.eqb_spec (zlen rows) (zlen (typed_rows l))) as [Heq|Heq]; cbn [negb].
  - split; [|done]. intros _. right. rewrite Hk, zlen_app in Heq. assert (k = []) as -> by (apply zlen_0; lia). by rewrite Hk, app_nil_r.
  - split; [done|]. intros [?| ->]; done.
Qed.

Lemma scalar_block_fwd al projection rows l : grants al → l ≠ [] → zlen l ≤ u32_max → Forall (λ v, sv_ok v) l.*2 → vec_ok (block_bytes l.*2) →
  rows = [] ∨ rows = typed_rows l →
  decode_schema_varlen_scalar_samples al view_kind (typed_chunk_flags (lr_metadata <$> typed_rows l)) (block_bytes l.*2) l.*1 projection rows =
    Ok (projected_row projection <$> typed_rows l).
Proof.
  intros Hal Hne Hn Hvs Hsz Hrows. pose proof (fmap_snd_len l) as Hsl. pose proof (fmap_fst_len l) as Hfl. pose proof (zlen_nonneg l) as H0l.
  assert (bytes (block_bytes l.*2)) as Hb by (apply bytes_block; [done|done|lia]).
  assert (SchemaVarLen.decode_values al (block_bytes l.*2) (zlen l) = Ok l.*2) as Hd by (rewrite <- Hsl; apply decode_block_ok; [done|done|done|lia]).
  destruct (decode_block_inv _ _ _ _ Hb Hsz H0l Hd) as (ss & out & Hss & _ & Ht & _ & _ & Hssn).
  assert (Hnd : NoDup (schema_enc <$> ss)).
  { change (schema_enc <$> ss) with (schema_enc <$> ss, out).1. rewrite <- Ht. apply tagged_nodup. constructor. }
  destruct (tagged_length l.*2 []) as [_ Hlen2]. specialize (Hlen2 ltac:(by destruct l)). rewrite Ht in Hlen2. cbn [fst] in Hlen2. rewrite length_fmap in Hlen2.
  destruct (tagged_out l.*2 [] Hvs) as (_ & Hlout & _); [rewrite zlen_nil; lia|]. rewrite Ht in Hlout. cbn [snd] in Hlout.
  pose proof (cursor_start _ Hb Hsz) as Hr. set (buf := block_bytes l.*2) in *. unfold buf in Hr at 2. unfold block_bytes, header in Hr. rewrite Ht in Hr.
  cbn [fst snd] in Hr. rewrite <- app_assoc in Hr. assert (zlen (schema_enc <$> ss) = zlen ss) as Hcount by (unfold zlen; by rewrite length_fmap). rewrite Hcount in Hr.
  assert (grants alloc_ok) as Hal' by done. unfold decode_schema_varlen_scalar_samples, decode_scalar_projection_schemas.
  read_fwd len_codec Hr; [unfold in_u64, zlen in *; lia|]. rewrite Hfl, !(proj2 (Z.leb_le _ _)) by (unfold zlen in *; lia). cbn [andb negb].
  assert (zlen ss ≤ zlen (mjoin (schema_frame <$> (schema_enc <$> ss)))) as Hframes.
  { rewrite <- Hcount. apply zlen_schema_frames. rewrite Forall_fmap. eapply Forall_impl; [exact Hss|]. by intros s []. }
  pose proof (zlen_nonneg out). rewrite (ensure_scalar_fits _ _ _ _ _ _ Hr) by (rewrite ?zlen_app; unfold zlen in *; lia). cbn [mbind result_bind].
  unfold try_vec_with_capacity, try_reserve. rewrite !Hal. cbn [mbind result_bind]. rewrite zlen_to_nat.
  destruct (scalar_schemas_fwd ss buf ∅ c out Hss Hnd) as (ce & -> & Hr2); [set_solver|exact Hr|]. cbn [mbind result_bind].
  rewrite (ensure_scalar_fits _ _ _ _ _ _ Hr2) by lia. cbn [mbind result_bind]. rewrite <- (app_nil_r out) in Hr2.
  destruct (samples_loop_fwd projection rows buf ss l 0 (mk_scalar_walk [] flags_default 0 ce) [] Hss Hnd) as (ce' & Hloop & Hr3);
    rewrite ?take_0, ?Ht; cbn [sw_samples sw_next_first_seen_schema sw_cursor]; try done; [lia|lia| |].
  { destruct Hrows as [->| ->]; [by left|right]. by rewrite drop_0. }
  rewrite Hloop. cbn [mbind result_bind]. apply cursor_zlen in Hr3. rewrite zlen_nil in Hr3.
  unfold after_samples. cbn [sw_samples sw_flags sw_next_first_seen_schema sw_cursor app].
  rewrite (proj2 (Z.eqb_eq ce' _)) by lia. cbn [negb]. rewrite (proj2 (Z.eqb_eq (Z.of_nat _) _)) by (unfold zlen; by rewrite length_fmap). cbn [negb].
  fold (typed_chunk_flags (lr_metadata <$> typed_rows l)). rewrite Z.eqb_refl. cbn [negb]. unfold zlen at 2.
  assert (lane_agrees rows 0 (typed_rows l)) as Hl by (destruct Hrows as [->| ->]; [by left|right; by rewrite drop_0]).
  by rewrite (proj2 (samples_end _ _ _ Hl (length_fmap _ _)) Hrows).
Qed.

Lemma scalar_block_inv al projection rows flags buf ts samples : bytes buf → vec_ok buf → zlen ts ≤ u32_max →
  decode_schema_varlen_scalar_samples al view_kind flags buf ts projection rows = Ok samples →
  ∃ vs, length vs = length ts ∧ Forall (λ v, sv_ok v) vs ∧ buf = block_bytes vs ∧ flags = typed_chunk_flags (lr_metadata <$> typed_rows (zip ts vs)) ∧
    (rows = [] ∨ rows = typed_rows (zip ts vs)) ∧ samples = projected_row projection <$> typed_rows (zip ts vs).
Proof.
  intros Hb Hv Hn Hd. pose proof (cursor_start _ Hb Hv) as Hr. set (l := buf) in Hr at 2. assert (buf = l) as Hl by done. clearbody l.
  unfold decode_schema_varlen_scalar_samples, decode_scalar_projection_schemas in Hd. apply bind_ok in Hd as ([ps c1] & Hps & Hd).
  read_inv len_codec alloc_ok Hr Hps n Hu. destruct (negb _) eqn:Hrange in Hps; [done|]. apply negb_false_iff, andb_true_iff in Hrange as [H1%Z.leb_le H2%Z.leb_le].
  apply bind_ok in Hps as (? & _ & Hps). apply bind_ok in Hps as (? & _ & Hps). apply bind_ok in Hps as (? & _ & Hps).
  destruct (scalar_schemas_inv _ _ _ _ _ _ _ Hr Hps) as (ss & r & -> & Hr1 & -> & Hlen & Hss & Hnd & _).
  apply bind_ok in Hd as (? & _ & Hd). apply bind_ok in Hd as (? & _ & Hd). apply bind_ok in Hd as (w & Hloop & Hd).
  assert (zlen ss = n) as Hzs by (apply zlen_nat; [done|lia]).
  destruct (samples_loop_inv projection rows buf ss ts 0 (mk_scalar_walk [] flags_default 0 c1) _ _ Hss Hnd ltac:(lia) ltac:(lia) eq_refl Hr1 Hloop) as (vs & rest & n' & ce & Hlv & Hn' & Hok & Htab & -> & Hagree & -> & Hr2).
  unfold after_samples in Hd. cbn [sw_samples sw_flags sw_next_first_seen_schema sw_cursor app] in Hd, Hagree. rewrite take_0 in *.
  destruct (Z.eqb_spec ce (zlen buf)) as [Hce|]; [|done]. cbn [negb] in Hd. destruct (Z.eqb_spec (Z.of_nat n') (zlen (view_schema <$> ss))) as [Heq|]; [|done]. cbn [negb] in Hd.
  unfold zlen in Heq. rewrite length_fmap in Heq. apply Nat2Z.inj in Heq as ->. rewrite take_ge in Htab by (by rewrite length_fmap).
  destruct (Z.eqb_spec (flags_finish (foldl flags_observe flags_default (lr_metadata <$> typed_rows (zip ts vs)))) flags) as [<-|]; [|done]. cbn [negb] in Hd.
  destruct (negb _ && negb _) eqn:Hend in Hd; [done|]. injection Hd as <-. exists vs. apply cursor_zlen in Hr2. rewrite Hce, Z.sub_diag in Hr2. apply zlen_0 in Hr2 as ->.
  split_and!; try done; [|by apply (samples_end _ _ _ Hagree (length_fmap (projected_row projection) _))].
  rewrite Hl, app_nil_r. unfold block_bytes, header. rewrite Htab. unfold zlen at 1. rewrite length_fmap. fold (zlen ss). by rewrite Hzs, <- app_assoc.
Qed.
End scan.

(** ** The lane, collected *)

Lemma collect_rows {A} (f : DecodedTypedScalarLaneRow → A) rows : ∀ acc, fold_rows (λ l row, Ok (l ++ [f row])) acc rows = Ok (acc ++ (f <$> rows)).
Proof.
  induction rows as [|row rows IH]; intros acc; cbn [fold_rows fmap list_fmap]; [by rewrite app_nil_r|]. cbn [mbind result_bind].
  by rewrite IH, <- app_assoc.
Qed.

Section lanes.
Context `{HC : Crc32c} `{!Crc32cLaws}.

(** Reading a lane with a callback is folding it over the rows that the lane shows. *)
Lemma lane_walk_inv {St} (on_row : St → DecodedTypedScalarLaneRow → io_result St) header lane st st' : header_ok header → bytes lane → vec_ok lane →
  for_each_typed_scalar_lane_row header lane on_row st = Ok st' →
  ∃ rows, rows ≠ [] ∧ rows_ok header rows ∧ lane = lane_bytes (dh_min_time_ms header) rows ∧ fold_rows on_row st rows = Ok st'.
Proof.
  intros (_ & _ & Hmin & _ & Hnp & _) Hb Hv Hd. unfold for_each_typed_scalar_lane_row in Hd. apply bind_ok in Hd as (body & Hbody & Hrows).
  destruct (lane_inv _ _ _ Hb Hv Hbody) as (Hn & _ & _ & Hlane & Hbl).
  assert (bytes body) as Hbb by (rewrite Hlane in Hb; unfold lane_frame in Hb; rewrite !Forall_app in Hb; apply Hb).
  destruct (rows_body_inv _ _ _ _ _ Hmin Hbb ltac:(lia) (proj1 Hnp) Hrows) as (rows & -> & Hok & Hfold).
  exists rows. split_and!; try done. intros ->. destruct Hok as (_ & _ & (Hz & _) & _). by apply Hn.
Qed.
Lemma lane_walk_fwd {St} (on_row : St → DecodedTypedScalarLaneRow → io_result St) header rows st : header_ok header → rows ≠ [] → rows_ok header rows →
  dh_encoding header = EncSchemaVarLen → typed_kind (dh_kind header) = true → zlen (lane_bytes (dh_min_time_ms header) rows) ≤ u32_max →
  for_each_typed_scalar_lane_row header (lane_bytes (dh_min_time_ms header) rows) on_row st = fold_rows on_row st rows.
Proof.
  intros (_ & _ & Hmin & _ & Hnp & _) Hne Hrows He Hk Hlen. unfold for_each_typed_scalar_lane_row.
  change (lane_bytes ?t ?r) with (lane_frame (lane_body t r)) in *. pose proof (lane_body_min _ _ Hmin Hrows). rewrite zlen_lane_frame in Hlen.
  assert (dh_num_points header ≠ 0) as Hn0.
  { pose proof Hrows as (_ & _ & (<- & _) & _). unfold zlen. rewrite length_fmap. destruct rows; [done|cbn [length]; lia]. }
  rewrite lane_fwd; [|done|done|done|lia|unfold in_u32 in Hnp; lia|lia]. cbn [mbind result_bind]. apply rows_body_fwd; [done|done|lia].
Qed.

Lemma lane_bytes_nonempty t rows : lane_bytes t rows ≠ [].
Proof. intros Hnil. apply (f_equal zlen) in Hnil. change (lane_bytes t rows) with (lane_frame (lane_body t rows)) in Hnil. rewrite zlen_lane_frame, zlen_nil in Hnil. pose proof (zlen_nonneg (lane_body t rows)). lia. Qed.

Lemma lane_rows_inv al header lane rows : header_ok header → bytes lane → vec_ok lane → decode_typed_scalar_lane_rows al header lane = Ok rows →
  lane = [] ∧ rows = [] ∨ rows ≠ [] ∧ lane = lane_bytes (dh_min_time_ms header) rows.
Proof.
  intros Hh Hb Hv Hd. unfold decode_typed_scalar_lane_rows in Hd. destruct lane as [|b lane']; [injection Hd as <-; by left|right].
  apply bind_ok in Hd as (? & _ & Hd). destruct (lane_walk_inv _ _ _ _ _ Hh Hb Hv Hd) as (rows' & Hne & _ & Hlane & Hfold).
  rewrite (collect_rows id), list_fmap_id in Hfold. by injection Hfold as <-.
Qed.
Lemma lane_rows_fwd al header rows : grants al → header_ok header → rows ≠ [] → rows_ok header rows → dh_encoding header = EncSchemaVarLen →
  typed_kind (dh_kind header) = true → zlen (lane_bytes (dh_min_time_ms header) rows) ≤ u32_max →
  decode_typed_scalar_lane_rows al header (lane_bytes (dh_min_time_ms header) rows) = Ok rows.
Proof.
  intros Hal Hh Hne Hrows He Hk Hlen. pose proof (lane_walk_fwd (λ rows row, Ok (rows ++ [row])) header rows [] Hh Hne Hrows He Hk Hlen) as Hw.
  rewrite (collect_rows id), list_fmap_id in Hw. pose proof (lane_bytes_nonempty (dh_min_time_ms header) rows). unfold decode_typed_scalar_lane_rows.
  destruct (lane_bytes _ _) as [|b l]; [done|]. unfold try_vec_with_capacity, try_reserve. rewrite Hal. cbn [mbind result_bind]. exact Hw.
Qed.
End lanes.

(** ** Each kind of sample *)

Section kinds.
Context {T : Type} `{HV : ScalarView T} (mk : list (Z * T) → ChunkSamples).
Context (mk_rows : ∀ l, sample_rows (mk l) = typed_rows l) (mk_times : ∀ l, sample_timestamps (mk l) = l.*1).
Context (mk_values : ∀ l t0_ms, values_bytes EncSchemaVarLen t0_ms (mk l) = Some (typed_payload t0_ms l)).
Context (mk_typed : typed_kind view_kind = true) (mk_ok : ∀ l, samples_ok (mk l) ↔ Forall (λ v, sv_ok v) l.*2).
Context (mk_kind : ∀ s, chunk_kind_of s = view_kind ↔ ∃ l, s = mk l).

Lemma view_scalar_exact al flags buf ts t0_ms projection rows samples : bytes buf → vec_ok buf → ts ≠ [] → zlen ts ≤ u32_max → grants al →
  decode_schema_varlen_scalar_samples al view_kind flags buf ts projection rows = Ok samples ↔
  ∃ s, chunk_kind_of s = view_kind ∧ sample_timestamps s = ts ∧ samples_ok s ∧
    values_bytes EncSchemaVarLen t0_ms s = Some (deltas_bytes t0_ms ts ++ buf) ∧ flags = chunk_flags s ∧
    (rows = [] ∨ rows = sample_rows s) ∧ samples = projected_row projection <$> sample_rows s.
Proof.
  intros Hb Hv Hne Hn Hal. assert (∀ l, chunk_flags (mk l) = typed_chunk_flags (lr_metadata <$> typed_rows l)) as Hflags.
  { intros l. unfold chunk_flags. rewrite (proj2 (mk_kind (mk l))) by (by exists l). by rewrite mk_typed, mk_rows. }
  split.
  - intros Hd. destruct (scalar_block_inv _ _ _ _ _ _ _ Hb Hv Hn Hd) as (vs & Hlen & Hok & -> & -> & Hrows & ->). exists (mk (zip ts vs)).
    rewrite mk_kind, mk_times, mk_ok, mk_values, Hflags, mk_rows. unfold typed_payload. rewrite fst_zip, snd_zip by lia. split_and!; try done. by eexists.
  - intros (s & [l ->]%mk_kind & <- & Hok%mk_ok & Hval & -> & Hrows & ->). rewrite mk_times, mk_values in Hval. unfold typed_payload in Hval.
    injection Hval as Hval%app_inv_head. subst buf. rewrite mk_times in *. rewrite fmap_fst_len in Hn. rewrite mk_rows, Hflags in *.
    apply scalar_block_fwd; try done. by intros ->.
Qed.
End kinds.

(** The three instances together. *)
Lemma scalar_samples_exact al kind flags buf ts t0_ms projection rows samples : typed_kind kind = true → bytes buf → vec_ok buf → ts ≠ [] →
  zlen ts ≤ u32_max → grants al →
  decode_schema_varlen_scalar_samples al kind flags buf ts projection rows = Ok samples ↔
  ∃ s, chunk_kind_of s = kind ∧ sample_timestamps s = ts ∧ samples_ok s ∧
    values_bytes EncSchemaVarLen t0_ms s = Some (deltas_bytes t0_ms ts ++ buf) ∧ flags = chunk_flags s ∧
    (rows = [] ∨ rows = sample_rows s) ∧ samples = projected_row projection <$> sample_rows s.
Proof.
  intros Hk Hb Hv Hne Hn Hal.
  destruct kind; try done; [apply (view_scalar_exact (HV := histogram_view) ChunkHistograms)
    |apply (view_scalar_exact (HV := exponential_view) ChunkExponentialHistograms)
    |apply (view_scalar_exact (HV := summary_view) ChunkSummaries)];
    try done; intros s; (split; [destruct s; try done; by eexists|by intros [l ->]]).
Qed.

Definition projection_of (projection : ChunkScalarProjection) (record : ChunkRecord) : ChunkScalarProjectionRecord :=
  mk_projection (cr_series_ref record) (cr_kind record) (cr_min_time_ms record) (cr_max_time_ms record)
    (projected_row projection <$> sample_rows (cr_samples record)).

Section image.
Context `{HC : Crc32c} `{!Crc32cLaws}.

Lemma typed_encoding e series_ref s lane values : chunk_ok e series_ref s lane values → typed_kind (chunk_kind_of s) = true → e = EncSchemaVarLen.
Proof. intros (_ & _ & _ & _ & _ & _ & Hv & _) Hk. by destruct s, e. Qed.

Lemma typed_values t0_ms s values : typed_kind (chunk_kind_of s) = true → values_bytes EncSchemaVarLen t0_ms s = Some values →
  ∃ rest, values = deltas_bytes t0_ms (sample_timestamps s) ++ rest.
Proof. destruct s; try done; intros _ [= <-]; by eexists. Qed.

Lemma sample_rows_nonempty s : typed_kind (chunk_kind_of s) = true → sample_timestamps s ≠ [] → sample_rows s ≠ [].
Proof. destruct s as [l|l|l|l|l]; try done; intros _ Hne; by destruct l. Qed.

(** The rows of a chunk go with its header. *)
Lemma chunk_rows_ok series_ref s lane values : chunk_ok EncSchemaVarLen series_ref s lane values → typed_kind (chunk_kind_of s) = true →
  rows_ok (chunk_header_of EncSchemaVarLen series_ref s lane values) (sample_rows s).
Proof.
  intros Hc Hk. pose proof (chunk_ok_times _ _ _ _ _ Hc) as (_ & _ & _ & Htimes). destruct Hc as (_ & _ & _ & _ & Hts & Hok & _).
  unfold rows_ok. rewrite sample_rows_times by done. split_and!; [by apply sample_rows_ok| |done|].
  - eapply Forall_impl; [exact Hts|]. by intros x [].
  - cbn [chunk_header_of dh_flags]. unfold chunk_flags. by rewrite Hk.
Qed.

Lemma scalar_projection_fwd al series_ref s lane values projection : grants al → chunk_ok EncSchemaVarLen series_ref s lane values →
  typed_kind (chunk_kind_of s) = true →
  decode_chunk_scalar_projection al (record_image EncSchemaVarLen series_ref s lane values) projection =
    Ok (projection_of projection (record_of series_ref s)).
Proof.
  intros Hal Hc Hk. pose proof (bytes_record _ _ _ _ _ Hc) as Hb. pose proof (record_header_ok _ _ _ _ _ Hc) as Hh.
  destruct (record_parts _ _ _ _ _ Hc) as (Hdec & Hpay & Hlane & Hzb). pose proof (chunk_ok_times _ _ _ _ _ Hc) as (Hmin & _ & Hct & Htimes).
  pose proof (chunk_rows_ok _ _ _ _ Hc Hk) as Hrows. pose proof Hc as (_ & Hne & Hn & _ & _ & Hok & Hv & Hl & Hhl & Hsz). destruct Hct as (_ & _ & Hts).
  unfold decode_chunk_scalar_projection. rewrite Hpay, Hdec. cbn [mbind result_bind].
  set (bs := record_image EncSchemaVarLen series_ref s lane values) in *. set (h := chunk_header_of EncSchemaVarLen series_ref s lane values) in *.
  set (payload := chunk_payload s values) in *. unfold CHUNK_HEADER_LEN in *. pose proof (zlen_nonneg lane).
  assert (bytes payload) as Hbp by (unfold bs, record_image in Hb; rewrite !Forall_app in Hb; apply Hb).
  pose proof (cursor_start payload Hbp ltac:(lia)) as Hr. unfold payload at 2 in Hr. unfold chunk_payload in Hr. assert (grants alloc_ok) as Hal' by done.
  change (dh_num_points h) with (zlen (sample_timestamps s)). change (dh_min_time_ms h) with (min_time s) in *. change (dh_kind h) with (chunk_kind_of s) in *.
  change (dh_encoding h) with EncSchemaVarLen in *. change (dh_max_time_ms h) with (max_time s). change (dh_series_ref h) with series_ref.
  rewrite (proj2 (Z.eqb_neq _ _)) by (destruct (sample_timestamps s) as [|? l0]; [done|rewrite zlen_cons; pose proof (zlen_nonneg l0); lia]).
  rewrite bool_decide_eq_true_2, Hk by done. cbn [negb]. unfold read_u64. read_fwd (u64_codec "short read") Hr. rewrite Z.eqb_refl. cbn [negb].
  destruct (typed_values _ _ _ Hk Hv) as [rest Heq]. pose proof Hr as (_ & _ & Hc0 & _).
  destruct (times_first_fwd _ Hmin _ _ _ Hr _ _ Heq Hts) as (after & Hd & _ & Hdrop & Hbr & Hvr & _).
  pose proof (cursor_zlen _ _ _ Hr) as Hz. pose proof (deltas_min _ _ Hmin Hts) as Hdm. pose proof (zlen_nonneg (sample_timestamps s)).
  unfold decode_timestamps. rewrite (ensure_scalar_fits _ _ _ _ _ _ Hr) by (rewrite ?Heq, ?zlen_app; pose proof (zlen_nonneg rest); lia).
  unfold try_vec_with_capacity, try_reserve. rewrite Hal. cbn [mbind result_bind]. rewrite Hd. cbn [mbind result_bind].
  rewrite (proj2 (validate_timestamp_iter_spec _ _ _ _) Htimes). cbn [mbind result_bind].
  change (dh_header_len h) with (40 + zlen lane). rewrite Hlane, Hdrop. change (dh_flags h) with (chunk_flags s).
  assert (decode_typed_scalar_lane_rows al h lane = Ok (match lane with [] => [] | _ => sample_rows s end)) as ->.
  { destruct Hl as [->|[_ Hl]]; [done|]. rewrite Hl. pose proof (lane_bytes_nonempty (min_time s) (sample_rows s)) as Hln.
    rewrite (lane_rows_fwd al h (sample_rows s)); [by destruct (lane_bytes _ _)|done|done|by apply sample_rows_nonempty|done|done|done|].
    change (dh_min_time_ms h) with (min_time s). rewrite Hl in *. lia. }
  cbn [mbind result_bind].
  rewrite (proj2 (scalar_samples_exact al _ _ rest _ (min_time s) projection _ (projected_row projection <$> sample_rows s) Hk Hbr Hvr Hne Hn Hal)); [done|].
  exists s. rewrite <- Heq. split_and!; try done. by destruct lane; [left|right].
Qed.

Lemma scalar_projection_inv al bs projection r : bytes bs → vec_ok bs → grants al → decode_chunk_scalar_projection al bs projection = Ok r →
  ∃ series_ref s lane values, chunk_ok EncSchemaVarLen series_ref s lane values ∧ typed_kind (chunk_kind_of s) = true ∧
    bs = record_image EncSchemaVarLen series_ref s lane values ∧ r = projection_of projection (record_of series_ref s).
Proof.
  intros Hb Hv Hal Hd. unfold decode_chunk_scalar_projection in Hd. apply bind_ok in Hd as ([h payload] & Hpay & Hd).
  destruct (payload_inv _ _ _ Hb Hv Hpay) as (Hdec & Hh & Hbp & lane & Hbl & Hbs & Hhl & Hpl & Hcrc & Hlane).
  pose proof Hh as (_ & Href & Hmin & Hmax & Hn & Hhu & Hpu & _). pose proof (zlen_nonneg lane) as Hzl. unfold in_u32 in *. unfold CHUNK_HEADER_LEN in Hhl.
  destruct (Z.eqb_spec (dh_num_points h) 0) as [|Hn0]; [done|]. destruct (bool_decide_reflect (dh_encoding h = EncSchemaVarLen)) as [He|]; [|done].
  cbn [negb] in Hd. destruct (typed_kind (dh_kind h)) eqn:Hk; [|done]. cbn [negb] in Hd.
  assert (vec_ok payload) as Hvp by lia. pose proof (cursor_start payload Hbp Hvp) as Hr.
  set (l := payload) in Hr at 2. assert (payload = l) as Hl by done. clearbody l. unfold read_u64 in Hd.
  read_inv (u64_codec "short read") alloc_ok Hr Hd t0 Ht0. destruct (Z.eqb_spec t0 (dh_min_time_ms h)) as [->|]; [|done]. cbn [negb] in Hd.
  pose proof Hr as (_ & _ & Hc0 & _). unfold decode_timestamps in Hd. apply bind_ok in Hd as ([ts after] & Hts & Hd).
  apply bind_ok in Hts as (? & _ & Hts). apply bind_ok in Hts as (? & _ & Hts).
  destruct (times_first_inv _ Hmin _ _ _ Hr _ _ _ Hts) as (buf & -> & Hzt & Htimes & _ & Hdrop & Hbr & Hvr & _); [lia|].
  apply bind_ok in Hd as ([] & Hval%validate_timestamp_iter_spec & Hd). rewrite Hdec in Hd. cbn [mbind result_bind] in Hd.
  rewrite Hlane, Hdrop in Hd.
  apply bind_ok in Hd as (rows & Hrows & Hd). apply bind_ok in Hd as (samples & Hs & Hd). injection Hd as <-.
  apply (lane_rows_inv al h lane rows Hh Hbl) in Hrows; [|lia].
  assert (ts ≠ []) as Hne by (intros ->; by rewrite zlen_nil in Hzt).
  apply (scalar_samples_exact _ _ _ _ _ (dh_min_time_ms h)) in Hs as (s & Hks & <- & Hok & Hvals & Hflags & Hr' & ->); [|done..|lia|done].
  destruct (times_ok_ends _ _ _ _ Hval) as (Hmt & Hmx & _ & Hzn & Hord). set (values := deltas_bytes (dh_min_time_ms h) (sample_timestamps s) ++ buf) in *.
  assert (payload = chunk_payload s values) as -> by (unfold chunk_payload; by rewrite Hmt).
  exists (dh_series_ref h), s, lane, values. rewrite Hks. split_and!; [|done| |].
  - unfold chunk_ok, CHUNK_HEADER_LEN, in_u32. rewrite Hmt. split_and!; try done; try lia.
    + eapply Forall_impl; [exact Htimes|]. unfold in_u64 in *. cbn. lia.
    + unfold has_lane. rewrite Hks, Hmt. destruct Hrows as [[-> _]|[Hnr ->]]; [by left|right]. by destruct Hr' as [?| ->].
  - unfold record_image, chunk_header_of, CHUNK_HEADER_LEN. rewrite Hks, Hmt, Hmx, <- Hflags, Hzn, <- Hhl, <- Hpl, <- Hcrc, <- He. rewrite Hbs at 1. by destruct h.
  - unfold projection_of, record_of. cbn [cr_series_ref cr_kind cr_min_time_ms cr_max_time_ms cr_samples]. by rewrite Hks, Hmt, Hmx.
Qed.

(** The projection read from the lane alone. *)
Lemma lane_projection_fwd al series_ref s lane values projection : grants al → chunk_ok EncSchemaVarLen series_ref s lane values →
  typed_kind (chunk_kind_of s) = true → lane ≠ [] →
  decode_typed_scalar_lane al (chunk_header_of EncSchemaVarLen series_ref s lane values) lane projection =
    Ok (projection_of projection (record_of series_ref s)).
Proof.
  intros Hal Hc Hk Hne. pose proof (record_header_ok _ _ _ _ _ Hc) as Hh. pose proof (chunk_rows_ok _ _ _ _ Hc Hk) as Hrows.
  destruct Hc as (_ & Hts & _ & _ & _ & _ & _ & Hl & Hhl & _). destruct Hl as [?|[_ Hl]]; [done|]. set (h := chunk_header_of _ _ _ _ _) in *.
  assert (zlen (lane_bytes (dh_min_time_ms h) (sample_rows s)) ≤ u32_max) as Hlen.
  { change (dh_min_time_ms h) with (min_time s). rewrite <- Hl. unfold CHUNK_HEADER_LEN in Hhl. lia. }
  pose proof (lane_walk_fwd (λ l row, Ok (l ++ [projected_row projection row])) h (sample_rows s) [] Hh (sample_rows_nonempty _ Hk Hts) Hrows eq_refl Hk Hlen) as Hw.
  rewrite collect_rows in Hw. change (dh_min_time_ms h) with (min_time s) in Hw. rewrite <- Hl in Hw. unfold for_each_typed_scalar_lane_row in Hw.
  unfold decode_typed_scalar_lane, for_each_typed_scalar_lane_sample_body, try_vec_with_capacity, try_reserve.
  destruct (typed_scalar_lane_body h lane) as [body|]; [|done]. cbn [mbind result_bind] in *. rewrite Hal. cbn [mbind result_bind].
  change (λ (st : list ChunkScalarSample) (row : DecodedTypedScalarLaneRow), Ok (st ++ [_])) with (λ (l : list ChunkScalarSample) row, Ok (l ++ [projected_row projection row]) : io_result _).
  rewrite Hw. done.
Qed.
End image.

(** C15: scalar projections agree with the chunk.  The decoder that skips bounds,
    buckets and quantiles accepts exactly the bytes that the full decoder accepts
    as a typed chunk, and shows the counts or sums of the same samples; and where
    the record carries a lane, reading the lane alone shows them too. *)
Theorem scalar_projection_exact `{HC : Crc32c} `{!Crc32cLaws} al bs projection : bytes bs → vec_ok bs → grants al →
  (∀ r, decode_chunk_scalar_projection al bs projection = Ok r ↔
    ∃ record, decode_chunk_record al bs = Ok record ∧ typed_kind (cr_kind record) = true ∧ r = projection_of projection record) ∧
  (∀ record header, decode_chunk_record al bs = Ok record → decode_chunk_header bs = Ok header →
    let lane := slice bs CHUNK_HEADER_LEN (dh_header_len header) in
    lane ≠ [] → decode_typed_scalar_lane al header lane projection = Ok (projection_of projection record)).
Proof.
  intros Hb Hv Hal. assert (∀ record, decode_chunk_record al bs = Ok record → ∃ e series_ref s lane values,
    chunk_ok e series_ref s lane values ∧ bs = record_image e series_ref s lane values ∧ record = record_of series_ref s) as Hinv.
  { intros record ([record' layout] & Hd & [= ->])%bind_ok. destruct (record_inv _ _ _ _ Hb Hv Hd) as (e & lane & values & Hc & Hbs & Hrec & _). by exists e, (cr_series_ref record), (cr_samples record), lane, values. }
  split.
  - intros r. split.
    + intros Hd. destruct (scalar_projection_inv _ _ _ _ Hb Hv Hal Hd) as (series_ref & s & lane & values & Hc & Hk & -> & ->).
      exists (record_of series_ref s). unfold decode_chunk_record. by rewrite record_fwd.
    + intros (record & Hd & Hk & ->). destruct (Hinv _ Hd) as (e & series_ref & s & lane & values & Hc & -> & ->).
      pose proof (typed_encoding _ _ _ _ _ Hc Hk) as ->. by apply scalar_projection_fwd.
  - intros record header Hd Hdec lane Hne. destruct (Hinv _ Hd) as (e & series_ref & s & lane' & values & Hc & -> & ->).
    destruct (record_parts _ _ _ _ _ Hc) as (Hdec' & _ & Hlane & _). rewrite Hdec' in Hdec. injection Hdec as <-.
    assert (lane = lane') as -> by exact Hlane. assert (typed_kind (chunk_kind_of s) = true) as Hk.
    { destruct Hc as (_ & _ & _ & _ & _ & _ & _ & Hl & _). by destruct Hl as [?|[? _]]. }
    pose proof (typed_encoding _ _ _ _ _ Hc Hk) as ->. by apply lane_projection_fwd.
Qed.

Lemma scalar_projection_exact_witness : ∃ r, decode_chunk_scalar_projection alloc_ok sample_chunk ProjectSum = Ok r ∧
  ss_value <$> sp_samples r = [Some (ScalarSum 4607182418800017408); Some (ScalarSum 4607182418800017408)] ∧
  ∃ record, decode_chunk_record alloc_ok sample_chunk = Ok record ∧ r = projection_of ProjectSum record.
Proof.
  destruct (scalar_projection_exact alloc_ok sample_chunk ProjectSum ltac:(apply bytesb_bytes; vm_compute; reflexivity)
    ltac:(vm_compute; discriminate) (λ _ _, eq_refl)) as [Hexact _].
  destruct (decode_chunk_scalar_projection alloc_ok sample_chunk ProjectSum) as [r|] eqn:Hr; [|vm_compute in Hr; discriminate].
  exists r. split; [reflexivity|]. split; [vm_compute in Hr; injection Hr as <-; reflexivity|].
  destruct (proj1 (Hexact r) eq_refl) as (record & Hd & _ & Heq). exists record. split; [exact Hd|exact Heq].
Defined.
