(* ===== verification/LiveCoverage.v ===== *)
(** * Ownership of recorded samples

    [chronoxide-core/src/storage/live_coverage.rs]: every recorded sample has an
    order, the message it came in and its ordinal there; a window owns a set of
    orders, kept as canonical runs, and a ledger, a count with a sum of digests.

    A [SmallVec] is its elements and its capacity, which [append_pre_reserved]
    observes; how far a growing vector grows is [SmallVecGrowth]. *)
From Stdlib Require Import Sorted.
From stdpp Require Import pretty sorting.
From S2P Require Import Prelude Varint Sort VarLen TypedSamples TypedCodecs Cursor Bits.

(** ** Sequences *)

Record MessageSequencer := mk_sequencer { sq_next : option Z }.
Definition sequencer_default : MessageSequencer := mk_sequencer (Some 1).
Definition starting_at (next : Z) : MessageSequencer := mk_sequencer (Some next).
Definition next_sequence (s : MessageSequencer) : io_result Z * MessageSequencer :=
  match sq_next s with
  | None => (fail InvalidData "live message sequence exhausted u64 capacity", s)
  | Some value => (Ok value, mk_sequencer (checked_add_u64 value 1))
  end.
Definition next_value (s : MessageSequencer) : option Z := sq_next s.

(** The derived order compares the messages first. *)
Record RecordedSampleOrder := mk_order { ro_message_sequence : Z; ro_sample_ordinal : Z }.
#[export] Instance recorded_order_eq_dec : EqDecision RecordedSampleOrder.
Proof. solve_decision. Defined.
Definition order_leb (a b : RecordedSampleOrder) : bool :=
  (ro_message_sequence a <? ro_message_sequence b)
  || (ro_message_sequence a =? ro_message_sequence b) && (ro_sample_ordinal a <=? ro_sample_ordinal b).

Record MessageSampleOrdinals := mk_ordinals { so_sequence : Z; so_next : option Z }.
Definition ordinals_new (sequence : Z) : MessageSampleOrdinals := mk_ordinals sequence (Some 0).
Definition next_order (s : MessageSampleOrdinals) : io_result RecordedSampleOrder * MessageSampleOrdinals :=
  match so_next s with
  | None => (fail InvalidData ("sample ordinal exhausted u64 capacity for message " +:+ pretty (so_sequence s)), s)
  | Some ordinal => (Ok (mk_order (so_sequence s) ordinal), mk_ordinals (so_sequence s) (checked_add_u64 ordinal 1))
  end.

Record RecordedSampleOrderRange := mk_order_range { rr_first : RecordedSampleOrder; rr_last : RecordedSampleOrder }.
Definition range_one (order : RecordedSampleOrder) : RecordedSampleOrderRange := mk_order_range order order.
Definition checked_extend (r : RecordedSampleOrderRange) (order : RecordedSampleOrder) : io_result RecordedSampleOrderRange :=
  if order_leb order (rr_last r) then
    fail InvalidData ("recorded sample order must increase strictly: previous=(" +:+ pretty (ro_message_sequence (rr_last r)) +:+ ", "
      +:+ pretty (ro_sample_ordinal (rr_last r)) +:+ ") next=(" +:+ pretty (ro_message_sequence order) +:+ ", "
      +:+ pretty (ro_sample_ordinal order) +:+ ")")
  else Ok (mk_order_range (rr_first r) order).

(** ** Sets of orders *)

Record RecordedSampleOrderRun := mk_run { or_first : RecordedSampleOrder; or_last : RecordedSampleOrder }.
Definition run_one (order : RecordedSampleOrder) : RecordedSampleOrderRun := mk_run order order.
Definition run_sample_count (r : RecordedSampleOrderRun) : io_result Z :=
  if negb (ro_message_sequence (or_first r) =? ro_message_sequence (or_last r)) then
    fail InvalidData "recorded-sample ownership run crosses a message boundary"
  else
    ok_or (io_err InvalidData "recorded-sample ownership run is reversed or overflows")
      (checked_sub_u64 (ro_sample_ordinal (or_last r)) (ro_sample_ordinal (or_first r)) ≫= λ distance, checked_add_u64 distance 1).

Definition ranges_are_adjacent (left right : RecordedSampleOrderRun) : bool :=
  (ro_message_sequence (or_last left) =? ro_message_sequence (or_first right))
  && bool_decide (checked_add_u64 (ro_sample_ordinal (or_last left)) 1 = Some (ro_sample_ordinal (or_first right))).

Record RecordedSampleOrderSet := mk_order_set {
  os_runs : list RecordedSampleOrderRun;
  os_capacity : Z;
  os_sample_count : Z;
}.
(** The capacity after [try_reserve(additional)] of a vector that has to grow,
    from its capacity, its length and [additional]. *)
Class SmallVecGrowth := {
  grown_capacity : Z → Z → Z → Z;
  grown_capacity_fits capacity len additional : len + additional ≤ grown_capacity capacity len additional;
}.
(** [SmallVec<[_; 2]>] stores two elements inline. *)
Definition order_set_empty : RecordedSampleOrderSet := mk_order_set [] 2 0.
Definition order_set_is_empty (s : RecordedSampleOrderSet) : bool := match os_runs s with [] => true | _ => false end.
Definition run_count (s : RecordedSampleOrderSet) : Z := zlen (os_runs s).

Definition smallvec_reserve `{SmallVecGrowth} (al : allocator) (site pre : string) (capacity len additional : Z) : io_result Z :=
  if additional <=? saturating_sub capacity len then Ok capacity
  else _ ← try_reserve al site pre additional; Ok (grown_capacity capacity len additional).
Definition try_reserve_additional_runs `{SmallVecGrowth} (al : allocator) (additional : Z) (s : RecordedSampleOrderSet)
    : io_result unit * RecordedSampleOrderSet :=
  match smallvec_reserve al "ownership runs" "failed to reserve recorded-sample ownership runs: " (os_capacity s) (zlen (os_runs s)) additional with
  | Ok capacity => (Ok tt, mk_order_set (os_runs s) capacity (os_sample_count s))
  | Err e => (Err e, s)
  end.
Definition try_reserve_additional_run `{SmallVecGrowth} (al : allocator) (s : RecordedSampleOrderSet) : io_result unit * RecordedSampleOrderSet :=
  try_reserve_additional_runs al 1 s.

Record PreparedRecordedSampleAppend := mk_prepared_append {
  pa_order : RecordedSampleOrder;
  pa_next_sample_count : Z;
  pa_extend_last : bool;
  pa_previous_last : option RecordedSampleOrder;
}.
Definition extends_last (previous_last : option RecordedSampleOrder) (order : RecordedSampleOrder) : bool :=
  match previous_last with
  | Some last => (ro_message_sequence last =? ro_message_sequence order)
      && bool_decide (checked_add_u64 (ro_sample_ordinal last) 1 = Some (ro_sample_ordinal order))
  | None => false
  end.
Definition try_prepare_append `{SmallVecGrowth} (al : allocator) (s : RecordedSampleOrderSet) (order : RecordedSampleOrder)
    : io_result PreparedRecordedSampleAppend * RecordedSampleOrderSet :=
  let previous_last := or_last <$> last (os_runs s) in
  if (match previous_last with Some last => order_leb order last | None => false end) then
    (fail InvalidData "recorded-sample ownership order must increase strictly", s)
  else
    match checked_add_u64 (os_sample_count s) 1 with
    | None => (fail InvalidData "recorded-sample ownership count overflows u64", s)
    | Some next_sample_count =>
        let extend_last := extends_last previous_last order in
        match (if extend_last then (Ok tt, s) else try_reserve_additional_run al s) with
        | (Err e, s) => (Err e, s)
        | (Ok _, s) => (Ok (mk_prepared_append order next_sample_count extend_last previous_last), s)
        end
    end.

(** The last element replaced; the [expect] fails on an empty vector. *)
Definition set_last {A} (f : A → A) (l : list A) : option (list A) :=
  match last l with Some x => Some (removelast l ++ [f x]) | None => None end.
Definition commit_prepared_append (s : RecordedSampleOrderSet) (p : PreparedRecordedSampleAppend) : option RecordedSampleOrderSet :=
  runs ← (if pa_extend_last p then set_last (λ run, mk_run (or_first run) (pa_order p)) (os_runs s)
          else Some (os_runs s ++ [run_one (pa_order p)]));
  Some (mk_order_set runs (os_capacity s) (pa_next_sample_count p)).
(** [None] is a panic. *)
Definition try_append_order `{SmallVecGrowth} (al : allocator) (s : RecordedSampleOrderSet) (order : RecordedSampleOrder)
    : option (io_result unit * RecordedSampleOrderSet) :=
  match try_prepare_append al s order with
  | (Err e, s) => Some (Err e, s)
  | (Ok p, s) => s ← commit_prepared_append s p; Some (Ok tt, s)
  end.

(** The loop of [validate]: the count and the run before. *)
Fixpoint validate_runs (sample_count : Z) (previous : option RecordedSampleOrderRun) (runs : list RecordedSampleOrderRun) : io_result Z :=
  match runs with
  | [] => Ok sample_count
  | run :: runs =>
      _ ← (match previous with
           | Some previous =>
               if order_leb (or_first run) (or_last previous) then
                 fail InvalidData "recorded-sample ownership runs overlap or are reordered"
               else if ranges_are_adjacent previous run then
                 fail InvalidData "recorded-sample ownership contains non-canonical adjacent runs"
               else Ok tt
           | None => Ok tt
           end);
      count ← run_sample_count run;
      sample_count ← ok_or (io_err InvalidData "recorded-sample ownership validated count overflows u64") (checked_add_u64 sample_count count);
      validate_runs sample_count (Some run) runs
  end.
Definition validate (s : RecordedSampleOrderSet) : io_result unit :=
  sample_count ← validate_runs 0 None (os_runs s);
  if negb (sample_count =? os_sample_count s) then fail InvalidData "recorded-sample ownership count disagrees with its exact runs"
  else Ok tt.

Definition boundary (f : RecordedSampleOrderRun → RecordedSampleOrderRun → bool) (left right : list RecordedSampleOrderRun) : bool :=
  match last left, head right with Some l, Some r => f l r | _, _ => false end.
Definition append_pre_reserved (s other : RecordedSampleOrderSet) : option (io_result RecordedSampleOrderSet) :=
  let checked := _ ← validate s; validate other in
  match checked with
  | Err e => Some (Err e)
  | Ok _ =>
      if order_set_is_empty other then Some (Ok s)
      else if boundary (λ left right, order_leb (or_first right) (or_last left)) (os_runs s) (os_runs other) then
        Some (fail InvalidData "recorded-sample ownership append overlaps or reorders existing membership")
      else
        match checked_add_u64 (os_sample_count s) (os_sample_count other) with
        | None => Some (fail InvalidData "recorded-sample ownership append count overflows u64")
        | Some sample_count =>
            let merge_boundary := boundary ranges_are_adjacent (os_runs s) (os_runs other) in
            let additional_runs := zlen (os_runs other) - (if merge_boundary then 1 else 0) in
            if saturating_sub (os_capacity s) (zlen (os_runs s)) <? additional_runs then
              Some (fail OutOfMemory "recorded-sample ownership append was not reserved before sample mutation")
            else
              runs ← (if merge_boundary then
                        first ← head (os_runs other);
                        set_last (λ run, mk_run (or_first run) (or_last first)) (os_runs s)
                      else Some (os_runs s));
              Some (Ok (mk_order_set (runs ++ (if merge_boundary then drop 1 (os_runs other) else os_runs other)) (os_capacity s) sample_count))
        end
  end.

Definition push_disjoint_ownership_run (runs : list RecordedSampleOrderRun) (next : RecordedSampleOrderRun)
    : io_result (list RecordedSampleOrderRun) :=
  match last runs with
  | None => Ok (runs ++ [next])
  | Some previous =>
      if order_leb (or_first next) (or_last previous) then
        fail InvalidData "recorded-sample contribution has more than one structural owner"
      else if ranges_are_adjacent previous next then Ok (removelast runs ++ [mk_run (or_first previous) (or_last next)])
      else Ok (runs ++ [next])
  end.
(** The loop of [checked_union], with a turn for each run of the two. *)
Fixpoint ownership_union_loop (fuel : nat) (left right runs : list RecordedSampleOrderRun) : io_result (list RecordedSampleOrderRun) :=
  match fuel with
  | O => Ok runs
  | S fuel =>
      match left, right with
      | [], [] => Ok runs
      | l :: left', r :: right' =>
          if order_leb (or_first l) (or_first r) then runs ← push_disjoint_ownership_run runs l; ownership_union_loop fuel left' right runs
          else runs ← push_disjoint_ownership_run runs r; ownership_union_loop fuel left right' runs
      | l :: left', [] => runs ← push_disjoint_ownership_run runs l; ownership_union_loop fuel left' [] runs
      | [], r :: right' => runs ← push_disjoint_ownership_run runs r; ownership_union_loop fuel [] right' runs
      end
  end.
Definition checked_union `{SmallVecGrowth} (al : allocator) (s other : RecordedSampleOrderSet) : io_result RecordedSampleOrderSet :=
  _ ← validate s;
  _ ← validate other;
  capacity ← ok_or (io_err InvalidData "recorded-sample ownership union run count overflows usize")
    (checked_add_u64 (zlen (os_runs s)) (zlen (os_runs other)));
  capacity ← smallvec_reserve al "ownership-union runs" "failed to reserve ownership-union runs: " 2 0 capacity;
  runs ← ownership_union_loop (length (os_runs s) + length (os_runs other)) (os_runs s) (os_runs other) [];
  sample_count ← ok_or (io_err InvalidData "recorded-sample ownership union count overflows u64")
    (checked_add_u64 (os_sample_count s) (os_sample_count other));
  let merged := mk_order_set runs capacity sample_count in
  _ ← validate merged;
  Ok merged.

(** ** Coverage *)

Class Sha256 := {
  sha256 : list Z → list Z;
  sha256_len b : zlen (sha256 b) = 32;
  sha256_bytes b : bytes (sha256 b);
}.

Definition CoverageFingerprint := list Z.
(** The loop of [add_assign_mod_256]. *)
Fixpoint add_with_carry (carry : Z) (target other : list Z) : list Z :=
  match target, other with
  | t :: target, v :: other => let next := t + v + carry in (next `mod` 256) :: add_with_carry (Z.shiftr next 8) target other
  | _, _ => target
  end.
Definition add_assign_mod_256 (target other : CoverageFingerprint) : CoverageFingerprint := add_with_carry 0 target other.

Record CoverageLedger := mk_ledger { cl_sample_count : Z; cl_fingerprint : CoverageFingerprint }.
Definition ledger_empty : CoverageLedger := mk_ledger 0 (replicate 32 0).

Record RecordedSampleContribution := mk_contribution { rc_order : RecordedSampleOrder; rc_fingerprint : CoverageFingerprint }.
Definition checked_with_contribution (l : CoverageLedger) (c : RecordedSampleContribution) : io_result CoverageLedger :=
  sample_count ← ok_or (io_err InvalidData "recorded-sample coverage count overflows u64") (checked_add_u64 (cl_sample_count l) 1);
  Ok (mk_ledger sample_count (add_assign_mod_256 (cl_fingerprint l) (rc_fingerprint c))).
Definition checked_merge (l other : CoverageLedger) : io_result CoverageLedger :=
  sample_count ← ok_or (io_err InvalidData "merged recorded-sample coverage count overflows u64")
    (checked_add_u64 (cl_sample_count l) (cl_sample_count other));
  Ok (mk_ledger sample_count (add_assign_mod_256 (cl_fingerprint l) (cl_fingerprint other))).
Definition contribution_ledger (c : RecordedSampleContribution) : CoverageLedger := mk_ledger 1 (rc_fingerprint c).

Definition RECORDED_SAMPLE_DOMAIN : list Z := bytes_of_string "chronoxide-live-recorded-sample-v1" ++ [0].
Definition canonical_sample_semantic_bytes (value : SampleValue) : io_result unit * list Z :=
  match value with
  | SampleFloat bits => (Ok tt, le_bytes 8 bits)
  | SampleInt64 value => (Ok tt, le_bytes 8 value)
  | SampleHistogram value => encode_into value []
  | SampleExponentialHistogram value => encode_into value []
  | SampleSummary value => encode_into value []
  end.
Definition sample_kind_id (value : SampleValue) : Z :=
  match value with
  | SampleFloat _ => 0
  | SampleInt64 _ => 1
  | SampleHistogram _ => 2
  | SampleExponentialHistogram _ => 3
  | SampleSummary _ => 4
  end.
Definition for_sample `{Sha256} (order : RecordedSampleOrder) (series timestamp_ms : Z) (value : SampleValue)
    : io_result RecordedSampleContribution * list Z :=
  match canonical_sample_semantic_bytes value with
  | (Err e, semantic_scratch) => (Err e, semantic_scratch)
  | (Ok _, semantic_scratch) =>
      match try_u64 (zlen semantic_scratch) with
      | None => (fail InvalidData "canonical sample semantic bytes exceed u64 capacity", semantic_scratch)
      | Some semantic_len =>
          (Ok (mk_contribution order (sha256
             (RECORDED_SAMPLE_DOMAIN ++ le_bytes 8 (ro_message_sequence order) ++ le_bytes 8 (ro_sample_ordinal order)
              ++ le_bytes 4 series ++ le_bytes 8 timestamp_ms ++ [sample_kind_id value] ++ le_bytes 8 semantic_len ++ semantic_scratch))),
           semantic_scratch)
      end
  end.

(** ** Orders as integers *)

Definition in_order (o : RecordedSampleOrder) : Prop := in_u64 (ro_message_sequence o) ∧ in_u64 (ro_sample_ordinal o).
Definition key (o : RecordedSampleOrder) : Z := ro_message_sequence o * 18446744073709551616 + ro_sample_ordinal o.

Lemma key_inj a b : in_order a → in_order b → key a = key b → a = b.
Proof. destruct a, b. unfold in_order, in_u64, key. cbn. intros. f_equal; lia. Qed.
Lemma order_leb_key a b : in_order a → in_order b → order_leb a b = true ↔ key a ≤ key b.
Proof.
  unfold in_order, in_u64, key, order_leb. intros. rewrite orb_true_iff, andb_true_iff, Z.ltb_lt, Z.eqb_eq, Z.leb_le. lia.
Qed.
Lemma order_leb_false a b : in_order a → in_order b → order_leb a b = false ↔ key b < key a.
Proof. intros Ha Hb. rewrite <- not_true_iff_false, order_leb_key by done. lia. Qed.

(** ** Runs as intervals *)

Definition run_repr (r : RecordedSampleOrderRun) : Prop := in_order (or_first r) ∧ in_order (or_last r).
Definition run_ok (r : RecordedSampleOrderRun) : Prop :=
  run_repr r ∧ ro_message_sequence (or_first r) = ro_message_sequence (or_last r) ∧ ro_sample_ordinal (or_first r) ≤ ro_sample_ordinal (or_last r).
Definition run_len (r : RecordedSampleOrderRun) : Z := key (or_last r) - key (or_first r) + 1.
(** The orders that a list of runs owns. *)
Definition run_has (r : RecordedSampleOrderRun) (o : RecordedSampleOrder) : Prop := in_order o ∧ key (or_first r) ≤ key o ≤ key (or_last r).
Definition owns (runs : list RecordedSampleOrderRun) (o : RecordedSampleOrder) : Prop := ∃ r, r ∈ runs ∧ run_has r o.
(** One run ends before the other begins, with an order or a message between. *)
Definition gap (r1 r2 : RecordedSampleOrderRun) : Prop :=
  key (or_last r1) < key (or_first r2) ∧
  (ro_message_sequence (or_last r1) = ro_message_sequence (or_first r2) → key (or_last r1) + 1 < key (or_first r2)).
Definition canonical (runs : list RecordedSampleOrderRun) : Prop := Forall run_ok runs ∧ StronglySorted gap runs.
Definition total_len (runs : list RecordedSampleOrderRun) : Z := foldr (λ r n, run_len r + n) 0 runs.
Definition set_valid (s : RecordedSampleOrderSet) : Prop :=
  canonical (os_runs s) ∧ os_sample_count s = total_len (os_runs s) ∧ total_len (os_runs s) ≤ u64_max.

Lemma run_ok_le r : run_ok r → key (or_first r) ≤ key (or_last r).
Proof. intros ([_ _] & Hm & Hn). unfold key. lia. Qed.
Lemma run_len_pos r : run_ok r → 1 ≤ run_len r.
Proof. intros Hr%run_ok_le. unfold run_len. lia. Qed.
Lemma run_has_message r o : run_ok r → run_has r o → ro_message_sequence o = ro_message_sequence (or_first r).
Proof. intros ([[Hm1 Hn1] [Hm2 Hn2]] & Hm & Hn) ([Hm3 Hn3] & Hk). unfold key, in_u64 in *. lia. Qed.
Lemma run_sample_count_spec r n : run_repr r → run_sample_count r = Ok n ↔ run_ok r ∧ n = run_len r ∧ n ≤ u64_max.
Proof.
  intros Hr. pose proof Hr as [[Hm1 Hn1] [Hm2 Hn2]]. unfold run_sample_count, run_ok, run_len, key, in_u64 in *.
  destruct (Z.eqb_spec (ro_message_sequence (or_first r)) (ro_message_sequence (or_last r))) as [Heq|Hne]; cbn [negb]; [|naive_solver].
  unfold checked_sub_u64. destruct (Z.leb_spec (ro_sample_ordinal (or_first r)) (ro_sample_ordinal (or_last r))); cbn [mbind option_bind ok_or]; [|split; [done|lia]].
  unfold checked_add_u64. case_match; cbn [ok_or]; (split; [intros [= <-]|intros (_ & -> & ?); try f_equal]); try done; try (split_and!; try done); lia.
Qed.
Lemma adjacent_spec r1 r2 : run_ok r1 → run_ok r2 →
  ranges_are_adjacent r1 r2 = true ↔ ro_message_sequence (or_last r1) = ro_message_sequence (or_first r2) ∧ key (or_last r1) + 1 = key (or_first r2).
Proof.
  intros ([_ [Hm1 Hn1]] & _) ([[Hm2 Hn2] _] & _). unfold ranges_are_adjacent, key, in_u64 in *. rewrite andb_true_iff, Z.eqb_eq, bool_decide_eq_true.
  unfold checked_add_u64. destruct (Z.leb_spec (ro_sample_ordinal (or_last r1) + 1) u64_max); split; intros [Hm Hn]; (split; [done|]); try injection Hn as Hn; try done; first [lia|f_equal; lia].
Qed.
Lemma gap_spec r1 r2 : run_ok r1 → run_ok r2 →
  gap r1 r2 ↔ order_leb (or_first r2) (or_last r1) = false ∧ ranges_are_adjacent r1 r2 = false.
Proof.
  intros H1 H2. rewrite order_leb_false by (apply H1 || apply H2). rewrite <- not_true_iff_false, adjacent_spec by done. unfold gap.
  split; [intros [? Hg]; split; [done|]; intros [Hm Hk]; specialize (Hg Hm); lia|].
  intros [? Hn]. split; [done|]. intros Hm. destruct (Z.eq_dec (key (or_last r1) + 1) (key (or_first r2))); [by destruct Hn|lia].
Qed.
Lemma gap_trans r1 r2 r3 : run_ok r2 → gap r1 r2 → gap r2 r3 → gap r1 r3.
Proof. intros H2%run_ok_le [? _] [? _]. split; [lia|]. intros _. lia. Qed.

Lemma owns_nil o : ¬ owns [] o.
Proof. by intros (r & Hr%elem_of_nil & _). Qed.
Lemma owns_cons r runs o : owns (r :: runs) o ↔ run_has r o ∨ owns runs o.
Proof. unfold owns. setoid_rewrite elem_of_cons. naive_solver. Qed.
Lemma owns_app l k o : owns (l ++ k) o ↔ owns l o ∨ owns k o.
Proof. unfold owns. setoid_rewrite elem_of_app. naive_solver. Qed.
Lemma total_cons r l : total_len (r :: l) = run_len r + total_len l.
Proof. done. Qed.
Lemma order_total_app l k : total_len (l ++ k) = total_len l + total_len k.
Proof. induction l as [|r l IH]; [done|]. cbn [app]. rewrite !total_cons, IH. lia. Qed.
Lemma total_len_nonneg runs : Forall run_ok runs → 0 ≤ total_len runs.
Proof. induction 1 as [|r runs Hr _ IH]; [done|]. rewrite total_cons. apply run_len_pos in Hr. lia. Qed.

(** Canonical lists grow at the end. *)
Lemma canonical_snoc runs r : canonical (runs ++ [r]) ↔ canonical runs ∧ run_ok r ∧ (∀ r', last runs = Some r' → gap r' r).
Proof.
  unfold canonical. rewrite Forall_app, Forall_singleton. split.
  - intros [[Hok Hr] Hs]. split_and!; [done| |done|].
    + clear -Hs. induction runs as [|x runs IH]; [constructor|]. inversion Hs as [|? ? Hs' Hx]; subst. constructor; [by apply IH|]. by apply Forall_app in Hx as [Hx _].
    + intros r' (k & ->)%last_Some. rewrite <- app_assoc in Hs. clear -Hs. induction k as [|x k IH].
      * inversion Hs as [|? ? _ Hx]; subst. by inversion Hx.
      * inversion Hs; subst. by apply IH.
  - intros ([Hok Hs] & Hr & Hlast). split; [done|]. clear -Hok Hs Hr Hlast. induction Hs as [|x runs Hs IH Hx]; [by repeat constructor|].
    apply Forall_cons_1 in Hok as [Hxo Hok]. cbn [app]. constructor.
    + apply IH; [done|]. intros r' Hr'. apply Hlast. destruct runs; [done|]. exact Hr'.
    + apply Forall_app. split; [done|]. apply Forall_singleton. destruct (last runs) as [y|] eqn:Hy.
      * assert (y ∈ runs) as Hyin by (by apply last_Some_elem_of). rewrite Forall_forall in Hx, Hok. apply (gap_trans _ y); [by apply Hok|by apply Hx|].
        apply Hlast. destruct runs; [done|]. exact Hy.
      * apply last_None in Hy as ->. by apply Hlast.
Qed.
Lemma canonical_last runs r r' : canonical (runs ++ [r]) → r' ∈ runs → key (or_last r') < key (or_first r).
Proof.
  intros [_ Hs] Hr. induction runs as [|x runs IH]; [by apply elem_of_nil in Hr|]. cbn [app] in Hs. inversion Hs as [|? ? Hs' Hx]; subst.
  apply elem_of_cons in Hr as [->|Hr]; [|by apply IH]. apply Forall_app in Hx as [_ Hx]. by apply Forall_singleton in Hx as [? _].
Qed.
Lemma canonical_le_last runs r o : canonical (runs ++ [r]) → owns (runs ++ [r]) o → key o ≤ key (or_last r).
Proof.
  intros Hc (r' & [Hr|Hr%list_elem_of_singleton]%elem_of_app & _ & Ho); [|by subst; lia].
  pose proof (canonical_last _ _ _ Hc Hr). apply canonical_snoc in Hc as (_ & Hr'%run_ok_le & _). lia.
Qed.

(** ** The checks of [validate] *)

Lemma validate_runs_spec runs : ∀ acc c n, canonical acc → c = total_len acc → total_len acc ≤ u64_max → Forall run_repr runs →
  validate_runs c (last acc) runs = Ok n ↔ canonical (acc ++ runs) ∧ n = total_len (acc ++ runs) ∧ n ≤ u64_max.
Proof.
  induction runs as [|r runs IH]; intros acc c n Hacc -> Hmax Hrepr; cbn [validate_runs].
  { rewrite app_nil_r. split; [intros [= <-]; done|intros (_ & -> & _); done]. }
  apply Forall_cons_1 in Hrepr as [Hr Hrepr].
  assert (∀ X, canonical (acc ++ r :: runs) ∧ X → canonical (acc ++ [r])) as Hpre.
  { intros X [Hc _]. clear -Hc. replace (acc ++ r :: runs) with ((acc ++ [r]) ++ runs) in Hc by (by rewrite <- app_assoc).
    revert Hc. generalize (acc ++ [r]). clear. intros l. revert l. induction runs as [|x runs IH] using rev_ind; intros l Hc; [by rewrite app_nil_r in Hc|].
    apply IH. rewrite app_assoc in Hc. by apply canonical_snoc in Hc as [? _]. }
  split.
  - intros (u & Hgap & (k & Hk & (c & Hadd & Hrest)%bind_ok)%bind_ok)%bind_ok. apply run_sample_count_spec in Hk as (Hrok & -> & Hkm); [|done].
    destruct (checked_add_u64 _ _) as [?|] eqn:Hc; [|done]. injection Hadd as ->. apply checked_add_u64_Some in Hc as [-> Hc].
    assert (canonical (acc ++ [r])) as Hacc'.
    { apply canonical_snoc. split_and!; [done|done|]. intros r' Hlast. rewrite Hlast in Hgap.
      assert (run_ok r') as Hr' by (apply last_Some_elem_of in Hlast; by eapply (proj1 (Forall_forall _ _) (proj1 Hacc))).
      apply gap_spec; [done|done|]. destruct (order_leb _ _); [done|]. by destruct (ranges_are_adjacent _ _). }
    assert (total_len (acc ++ [r]) = total_len acc + run_len r) as Htot by (rewrite order_total_app, total_cons; change (total_len []) with 0; lia).
    replace (Some r) with (last (acc ++ [r])) in Hrest by (by rewrite last_snoc). apply IH in Hrest; [|done|lia|lia|done]. by rewrite <- app_assoc in Hrest.
  - intros Hres. pose proof (Hpre _ Hres) as Hacc'. destruct Hres as (Hc & -> & Hn). pose proof Hacc' as (_ & Hrok & Hlast)%canonical_snoc.
    assert (total_len (acc ++ [r]) = total_len acc + run_len r) as Htot by (rewrite order_total_app, total_cons; change (total_len []) with 0; lia).
    assert (total_len (acc ++ r :: runs) = total_len (acc ++ [r]) + total_len runs) as Hsum by (rewrite !order_total_app, !total_cons; change (total_len []) with 0; lia).
    assert (0 ≤ total_len runs) as Hpos by (apply total_len_nonneg; destruct Hc as [Hc _]; by apply Forall_app in Hc as [_ [_ ?]%Forall_cons_1]).
    assert ((match last acc with
             | Some previous => if order_leb (or_first r) (or_last previous) then fail InvalidData "recorded-sample ownership runs overlap or are reordered"
                 else if ranges_are_adjacent previous r then fail InvalidData "recorded-sample ownership contains non-canonical adjacent runs" else Ok tt
             | None => Ok tt end) = (Ok tt : io_result unit)) as ->.
    { destruct (last acc) as [r'|] eqn:Hl; [|done]. assert (run_ok r') as Hr' by (apply last_Some_elem_of in Hl; by eapply (proj1 (Forall_forall _ _) (proj1 Hacc))).
      destruct (proj1 (gap_spec _ _ Hr' Hrok) (Hlast _ eq_refl)) as [-> ->]. done. }
    cbn [mbind result_bind]. pose proof (total_len_nonneg _ (proj1 Hacc)).
    rewrite (proj2 (run_sample_count_spec r (run_len r) Hr)) by (split_and!; [done|done|lia]). cbn [mbind result_bind].
    rewrite checked_add_u64_fits by (pose proof (run_len_pos _ Hrok); lia). cbn [ok_or mbind result_bind].
    replace (Some r) with (last (acc ++ [r])) by (by rewrite last_snoc). apply IH; [done|lia|lia|done|]. rewrite <- app_assoc. done.
Qed.
Definition set_repr (s : RecordedSampleOrderSet) : Prop := Forall run_repr (os_runs s).
Lemma validate_spec s : set_repr s → validate s = Ok tt ↔ set_valid s.
Proof.
  intros Hs. unfold validate, set_valid.
  pose proof (validate_runs_spec (os_runs s) [] 0) as Hv. cbn [app last] in Hv. change (total_len []) with 0 in Hv. split.
  - intros (n & Hn & Hd)%bind_ok. apply Hv in Hn as (Hc & -> & Hle); [|by split; constructor|done|done|done].
    destruct (Z.eqb_spec (total_len (os_runs s)) (os_sample_count s)); [|done]. by split_and!.
  - intros (Hc & -> & Hle). rewrite (proj2 (Hv (total_len (os_runs s)) ltac:(split; constructor) eq_refl ltac:(lia) Hs)) by done.
    cbn [mbind result_bind]. by rewrite Z.eqb_refl.
Qed.

(** ** Union *)

Lemma last_snoc_eq {A} (l : list A) x : last l = Some x → l = removelast l ++ [x].
Proof. intros (k & ->)%last_Some. by rewrite removelast_last. Qed.
Lemma owns_single r o : owns [r] o ↔ run_has r o.
Proof. rewrite owns_cons. pose proof (owns_nil o). naive_solver. Qed.
Lemma run_has_ends r : run_ok r → run_has r (or_first r) ∧ run_has r (or_last r).
Proof. intros Hr. pose proof (run_ok_le _ Hr). destruct Hr as [[Hf Hl] _]. unfold run_has. split; (split; [done|lia]). Qed.

(** A run that extends the one before it. *)
Lemma joined_run p r : run_ok p → run_ok r → ranges_are_adjacent p r = true →
  run_ok (mk_run (or_first p) (or_last r)) ∧ run_len (mk_run (or_first p) (or_last r)) = run_len p + run_len r ∧
  (∀ o, run_has (mk_run (or_first p) (or_last r)) o ↔ run_has p o ∨ run_has r o).
Proof.
  intros Hp Hr Hadj. apply adjacent_spec in Hadj as [Hm Hk]; [|done..]. pose proof (run_ok_le _ Hp). pose proof (run_ok_le _ Hr).
  pose proof Hp as ([Hpf Hpl] & Hpm & Hpn). pose proof Hr as ([Hrf Hrl] & Hrm & Hrn). split_and!.
  - split; [done|]. cbn [or_first or_last]. split; [congruence|]. unfold key in *. lia.
  - unfold run_len. cbn [or_first or_last]. lia.
  - intros o. unfold run_has. cbn [or_first or_last]. split; [|intros [[? ?]|[? ?]]; (split; [done|lia])].
    intros [Ho ?]. destruct (Z.le_gt_cases (key o) (key (or_last p))); [left|right]; (split; [done|lia]).
Qed.
Lemma joined_canonical runs p r : canonical (runs ++ [p]) → run_ok r → ranges_are_adjacent p r = true →
  canonical (runs ++ [mk_run (or_first p) (or_last r)]).
Proof.
  intros (Hc & Hp & Hlast)%canonical_snoc Hr Hadj. apply canonical_snoc. split_and!; [done|by apply joined_run|]. exact Hlast.
Qed.

Lemma order_push_spec runs r : canonical runs → run_ok r → (∀ r', last runs = Some r' → key (or_first r') ≤ key (or_first r)) →
  match push_disjoint_ownership_run runs r with
  | Ok runs' => canonical runs' ∧ total_len runs' = total_len runs + run_len r ∧ (∀ o, owns runs' o ↔ owns runs o ∨ run_has r o) ∧
      (∀ o, ¬ (owns runs o ∧ run_has r o)) ∧ (∀ r', last runs' = Some r' → key (or_first r') ≤ key (or_first r))
  | Err _ => owns runs (or_first r)
  end.
Proof.
  intros Hc Hr Hle. unfold push_disjoint_ownership_run. destruct (last runs) as [p|] eqn:Hlast.
  2: { apply last_None in Hlast as ->. cbn [app]. split_and!.
       - apply (canonical_snoc []). split_and!; [by split; constructor|done|done].
       - rewrite total_cons. change (total_len []) with 0. lia.
       - intros o. rewrite owns_single. pose proof (owns_nil o). tauto.
       - by intros o [?%owns_nil _].
       - intros r' [= <-]. lia. }
  apply last_snoc_eq in Hlast. set (init := removelast runs) in *. clearbody init. subst runs. specialize (Hle _ eq_refl).
  pose proof Hc as (Hinit & Hp & Hgap)%canonical_snoc. pose proof (run_ok_le _ Hp). pose proof (run_ok_le _ Hr). pose proof Hr as ([Hrf _] & _).
  destruct (order_leb (or_first r) (or_last p)) eqn:Hov.
  { apply order_leb_key in Hov; [|apply Hr|apply Hp]. apply owns_app. right. apply owns_single. split; [done|lia]. }
  apply order_leb_false in Hov; [|apply Hr|apply Hp].
  assert (∀ o, ¬ (owns (init ++ [p]) o ∧ run_has r o)) as Hdisj.
  { intros o [Ho [_ Hk]]. pose proof (canonical_le_last _ _ _ Hc Ho). lia. }
  destruct (ranges_are_adjacent p r) eqn:Hadj; split_and!; try done.
  - by apply joined_canonical.
  - rewrite !order_total_app, !total_cons. change (total_len []) with 0. pose proof (joined_run _ _ Hp Hr Hadj) as (_ & -> & _). lia.
  - intros o. rewrite !owns_app, !owns_single. pose proof (joined_run _ _ Hp Hr Hadj) as (_ & _ & Hhas). rewrite Hhas. tauto.
  - intros r'. rewrite last_snoc. intros [= <-]. cbn [or_first]. lia.
  - apply canonical_snoc. split_and!; [done|done|]. intros r'. rewrite last_snoc. intros [= <-]. apply gap_spec; [done|done|].
    split; [|done]. apply order_leb_false; [apply Hr|apply Hp|done].
  - rewrite (order_total_app (init ++ [p])), total_cons. change (total_len []) with 0. lia.
  - intros o. by rewrite (owns_app (init ++ [p])), owns_single.
  - intros r'. rewrite last_snoc. intros [= <-]. lia.
Qed.

Lemma canonical_cons r runs : canonical (r :: runs) → run_ok r ∧ canonical runs ∧ (∀ r', r' ∈ runs → key (or_last r) < key (or_first r')) ∧
  (∀ o, ¬ (run_has r o ∧ owns runs o)).
Proof.
  intros [[Hr Hok]%Forall_cons_1 Hs]. inversion Hs as [|? ? Hs' Hx]; subst. rewrite Forall_forall in Hx.
  split_and!; [done|done|by intros r' [? _]%Hx|]. intros o [[_ Ho] (r' & [Hlt _]%Hx & _ & Ho')]. lia.
Qed.

Definition starts_below (acc runs : list RecordedSampleOrderRun) : Prop :=
  ∀ p r, last acc = Some p → head runs = Some r → key (or_first p) ≤ key (or_first r).
Lemma starts_below_next acc' r runs : (∀ p, last acc' = Some p → key (or_first p) ≤ key (or_first r)) →
  canonical (r :: runs) → starts_below acc' runs.
Proof.
  intros Hacc Hc p r' Hp Hr'. specialize (Hacc _ Hp). apply canonical_cons in Hc as (Hr%run_ok_le & _ & Hlt & _).
  apply head_Some_elem_of in Hr'. specialize (Hlt _ Hr'). lia.
Qed.

(** What the merge answers: with disjoint lists it succeeds and owns what the
    three own; when it fails two of them own one order. *)
Definition union_result (acc left right : list RecordedSampleOrderRun) (res : io_result (list RecordedSampleOrderRun)) : Prop :=
  match res with
  | Ok runs => canonical runs ∧ total_len runs = total_len acc + total_len left + total_len right ∧
      (∀ o, owns runs o ↔ owns acc o ∨ owns left o ∨ owns right o) ∧ (∀ o, ¬ (owns left o ∧ owns right o)) ∧
      (∀ o, ¬ (owns acc o ∧ (owns left o ∨ owns right o)))
  | Err _ => ∃ o, in_order o ∧ (owns left o ∧ owns right o ∨ owns acc o ∧ (owns left o ∨ owns right o))
  end.
Lemma union_result_comm acc left right res : union_result acc left right res → union_result acc right left res.
Proof. unfold union_result. destruct res; [|naive_solver]. intros (? & ? & ? & ? & ?). split_and!; [done|lia|naive_solver..]. Qed.
Lemma union_result_end acc : canonical acc → union_result acc [] [] (Ok acc).
Proof. intros Ha. pose proof owns_nil. split_and!; [done|cbn; lia|naive_solver..]. Qed.

(** A turn that takes [x] from its list. *)
Lemma union_turn acc x xs ys (next : list RecordedSampleOrderRun → io_result (list RecordedSampleOrderRun)) :
  canonical acc → canonical (x :: xs) → starts_below acc (x :: xs) → (∀ y, head ys = Some y → key (or_first x) ≤ key (or_first y)) →
  (∀ acc', canonical acc' → starts_below acc' xs → starts_below acc' ys → union_result acc' xs ys (next acc')) →
  union_result acc (x :: xs) ys (acc' ← push_disjoint_ownership_run acc x; next acc').
Proof.
  intros Ha Hx Hsx Hyx Hnext. pose proof Hx as (Hxo & Hxs & _ & Hxd)%canonical_cons.
  pose proof (order_push_spec acc x Ha Hxo (λ p Hp, Hsx _ _ Hp eq_refl)) as Hpush. destruct (push_disjoint_ownership_run acc x) as [acc'|]; cbn [mbind result_bind].
  - destruct Hpush as (Hc' & Htot & Hown & Hd & Hb). specialize (Hnext acc' Hc' ltac:(by eapply starts_below_next)).
    assert (starts_below acc' ys) as Hys by (intros p y Hp Hy; specialize (Hyx _ Hy); specialize (Hb _ Hp); lia). specialize (Hnext Hys).
    unfold union_result in *. pose proof (owns_cons x xs) as Hcons. rewrite total_cons. destruct (next acc') as [runs|].
    + destruct Hnext as (? & ? & Hown' & ? & Hacc). setoid_rewrite Hcons. split_and!; [done|lia|..]; naive_solver.
    + destruct Hnext as (o & Ho & Hconf). exists o. split; [done|]. rewrite Hcons. naive_solver.
  - exists (or_first x). split; [apply Hxo|]. right. split; [done|]. left. apply owns_cons. left. by apply run_has_ends.
Qed.

Lemma ownership_union_loop_spec fuel : ∀ left right acc, (length left + length right ≤ fuel)%nat → canonical left → canonical right → canonical acc →
  starts_below acc left → starts_below acc right → union_result acc left right (ownership_union_loop fuel left right acc).
Proof.
  induction fuel as [|fuel IH]; intros left right acc Hf Hl Hr Ha Hsl Hsr.
  { destruct left, right; [by apply union_result_end|cbn in Hf; lia..]. }
  destruct left as [|l left], right as [|r right]; cbn [ownership_union_loop length] in *; [by apply union_result_end| | |].
  - apply union_result_comm, union_turn; try done. intros acc' Hc' Hs1 Hs2. apply union_result_comm, IH; [cbn; lia|done|by eapply canonical_cons|done..].
  - apply union_turn; try done. intros acc' Hc' Hs1 Hs2. apply IH; [cbn; lia|by eapply canonical_cons|done..].
  - assert (in_order (or_first l) ∧ in_order (or_first r)) as [Hlf Hrf].
    { pose proof Hl as (([? _] & _) & _)%canonical_cons. pose proof Hr as (([? _] & _) & _)%canonical_cons. done. }
    destruct (order_leb (or_first l) (or_first r)) eqn:Hcmp.
    + apply order_leb_key in Hcmp; [|done..]. apply union_turn; try done; [by intros y [= <-]|].
      intros acc' Hc' Hs1 Hs2. apply IH; [cbn; lia|by eapply canonical_cons|done..].
    + apply order_leb_false in Hcmp; [|done..]. apply union_result_comm, union_turn; try done; [intros y [= <-]; lia|].
      intros acc' Hc' Hs1 Hs2. apply union_result_comm, IH; [cbn; lia|done|by eapply canonical_cons|done..].
Qed.

(** ** A set has one canonical form *)

(** The runs of a canonical list are the maximal runs of what it owns. *)
Definition maximal_run (P : RecordedSampleOrder → Prop) (r : RecordedSampleOrderRun) : Prop :=
  run_ok r ∧ (∀ o, run_has r o → P o) ∧
  (∀ o, in_order o → ro_message_sequence o = ro_message_sequence (or_first r) → key o + 1 = key (or_first r) → ¬ P o) ∧
  (∀ o, in_order o → ro_message_sequence o = ro_message_sequence (or_last r) → key o = key (or_last r) + 1 → ¬ P o).

Lemma gap_cases runs r r' : canonical runs → r ∈ runs → r' ∈ runs → r = r' ∨ gap r r' ∨ gap r' r.
Proof.
  intros [Hok Hs] Hr Hr'. induction Hs as [|x runs Hs IH Hx]; [by apply elem_of_nil in Hr|]. rewrite Forall_forall in Hx. apply Forall_cons_1 in Hok as [_ Hok].
  apply elem_of_cons in Hr as [->|Hr], Hr' as [->|Hr']; [by left|right; left; by apply Hx|right; right; by apply Hx|by apply IH].
Qed.
Lemma canonical_maximal runs r : canonical runs → r ∈ runs ↔ maximal_run (owns runs) r.
Proof.
  intros Hc. assert (∀ x, x ∈ runs → maximal_run (owns runs) x) as Hmax.
  { intros x Hx. pose proof (proj1 (Forall_forall _ _) (proj1 Hc) _ Hx) as Hxo. pose proof (run_ok_le _ Hxo). split_and!; [done|by eexists| |].
    - intros o Ho Hm Hk (y & Hy & [_ Hyk]). destruct (gap_cases _ _ _ Hc Hx Hy) as [->|[[? _]|[Hlt Hg]]]; [lia|lia|].
      assert (run_ok y) as Hyo by (by eapply (proj1 (Forall_forall _ _) (proj1 Hc))). destruct (Z.eq_dec (key o) (key (or_last y))) as [He|]; [|lia].
      apply key_inj in He as ->; [|done|apply Hyo]. specialize (Hg Hm). lia.
    - intros o Ho Hm Hk (y & Hy & [_ Hyk]). destruct (gap_cases _ _ _ Hc Hx Hy) as [->|[[Hlt Hg]|[? _]]]; [lia| |].
      + assert (run_ok y) as Hyo by (by eapply (proj1 (Forall_forall _ _) (proj1 Hc))). assert (key o = key (or_first y)) as He by lia.
        apply key_inj in He as ->; [|done|apply Hyo]. specialize (Hg (eq_sym Hm)). lia.
      + assert (run_ok y) as Hyo%run_ok_le by (by eapply (proj1 (Forall_forall _ _) (proj1 Hc))). lia. }
  split; [apply Hmax|]. intros (Hr & Hall & Hpre & Hpost). destruct (run_has_ends _ Hr) as [Hf Hl].
  destruct (Hall _ Hf) as (x & Hx & Hxf). pose proof (Hmax _ Hx) as (Hxo & Hxall & Hxpre & Hxpost). enough (r = x) as -> by done.
  pose proof (run_has_message _ _ Hxo Hxf) as Hmsg. pose proof Hr as ([[Hrm Hrn] [Hrm' Hrn']] & Hrmsg & Hrle). pose proof Hxo as ([[Hxm Hxn] [Hxm' Hxn']] & Hxmsg & Hxle).
  pose proof Hxf as [_ Hxk]. unfold in_u64 in *.
  assert (or_first r = or_first x) as Hfirst.
  { apply key_inj; [apply Hr|apply Hxo|]. destruct (Z.eq_dec (key (or_first r)) (key (or_first x))) as [|Hne]; [done|]. exfalso.
    apply (Hpre (mk_order (ro_message_sequence (or_first r)) (ro_sample_ordinal (or_first r) - 1))); [|done|unfold key; cbn; lia|].
    - unfold in_order, in_u64, key in *. cbn. lia.
    - apply Hxall. unfold run_has, in_order, in_u64, key in *. cbn. lia. }
  assert (or_last r = or_last x) as Hlast; [|by destruct r, x; cbn in *; subst].
  apply key_inj; [apply Hr|apply Hxo|]. destruct (Z.lt_trichotomy (key (or_last r)) (key (or_last x))) as [Hlt|[|Hlt]]; [|done|]; exfalso.
  - apply (Hpost (mk_order (ro_message_sequence (or_last r)) (ro_sample_ordinal (or_last r) + 1))); [|done|unfold key; cbn; lia|].
    + unfold in_order, in_u64, key in *. cbn. lia.
    + apply Hxall. rewrite Hfirst in *. unfold run_has, in_order, in_u64, key in *. cbn. lia.
  - apply (Hxpost (mk_order (ro_message_sequence (or_last x)) (ro_sample_ordinal (or_last x) + 1))); [|done|unfold key; cbn; lia|].
    + rewrite <- Hfirst in *. unfold in_order, in_u64, key in *. cbn. lia.
    + apply Hall. rewrite Hfirst in *. unfold run_has, in_order, in_u64, key in *. cbn. lia.
Qed.

Lemma canonical_unique l k : canonical l → canonical k → (∀ o, owns l o ↔ owns k o) → l = k.
Proof.
  intros Hl Hk Heq. assert (∀ r, r ∈ l ↔ r ∈ k) as Hin.
  { intros r. rewrite !canonical_maximal by done. unfold maximal_run. by setoid_rewrite Heq. }
  assert (∀ x y, gap x y → run_ok x → run_ok y → key (or_first x) < key (or_first y)) as Hlt by (intros x y [? _] ?%run_ok_le _; lia).
  assert (∀ runs, canonical runs → StronglySorted (λ x y, key (or_first x) < key (or_first y)) runs) as Hsorted.
  { intros runs [Hok Hs]. induction Hs as [|x runs Hs IH Hx]; [constructor|]. apply Forall_cons_1 in Hok as [Hxo Hok]. constructor; [by apply IH|].
    rewrite Forall_forall in Hx, Hok |- *. intros y Hy. apply Hlt; [by apply Hx|done|by apply Hok]. }
  apply (strict_sorted_eq (λ x y, key (or_first x) < key (or_first y))); [lia|lia|by apply Hsorted|by apply Hsorted|done].
Qed.

(** ** Operations on sets *)

Lemma set_last_snoc {A} (f : A → A) l x : set_last f (l ++ [x]) = Some (l ++ [f x]).
Proof. unfold set_last. by rewrite last_snoc, removelast_last. Qed.
Lemma set_valid_repr s : set_valid s → set_repr s.
Proof. intros ([Hok _] & _). eapply Forall_impl; [exact Hok|]. by intros r [? _]. Qed.
Lemma run_one_ok o : in_order o → run_ok (run_one o).
Proof. intros Ho. split; [by split|done]. Qed.
Lemma run_one_has o o' : in_order o → run_has (run_one o) o' ↔ o' = o.
Proof. intros Ho. unfold run_has, run_one. cbn. split; [intros [? ?]; apply key_inj; [done..|lia]|intros ->; by split]. Qed.
Lemma extends_last_adjacent runs p o : last runs = Some p → extends_last (or_last <$> last runs) o = ranges_are_adjacent p (run_one o).
Proof. by intros ->. Qed.
(** Nothing owned is at or after [o]: what the check on the last run decides. *)
Lemma order_after_last runs o : canonical runs → in_order o →
  (match or_last <$> last runs with Some l => order_leb o l | None => false end) = false ↔ (∀ o', owns runs o' → key o' < key o).
Proof.
  intros Hc Ho. destruct (last runs) as [p|] eqn:Hl; cbn.
  - apply last_snoc_eq in Hl. set (init := removelast runs) in *. clearbody init. subst runs. pose proof Hc as (_ & Hp & _)%canonical_snoc.
    rewrite order_leb_false by (done || apply Hp). split.
    + intros Hlt o' Ho'. pose proof (canonical_le_last _ _ _ Hc Ho'). lia.
    + intros Hall. apply Hall. apply owns_app. right. apply owns_single. by apply run_has_ends.
  - apply last_None in Hl as ->. split; [|done]. intros _ o' []%owns_nil.
Qed.

Section sets.
Context `{!SmallVecGrowth}.

(** The order appended, whether the last run grew or a new one began. *)
Lemma order_commit_spec s o p : set_valid s → in_order o → (∀ o', owns (os_runs s) o' → key o' < key o) → os_sample_count s < u64_max →
  pa_order p = o → pa_next_sample_count p = os_sample_count s + 1 → pa_extend_last p = extends_last (or_last <$> last (os_runs s)) o →
  ∃ s', commit_prepared_append s p = Some s' ∧ set_valid s' ∧ os_sample_count s' = os_sample_count s + 1 ∧
    (∀ o', owns (os_runs s') o' ↔ owns (os_runs s) o' ∨ o' = o).
Proof.
  intros (Hc & Hcount & Hmax) Ho Hafter Hlt <- Hn He. set (o := pa_order p) in *. pose proof (run_one_ok _ Ho) as Hone. unfold commit_prepared_append. rewrite He, Hn.
  assert (run_len (run_one o) = 1) as Hlen by (unfold run_len, run_one; cbn; lia).
  destruct (last (os_runs s)) as [q|] eqn:Hl.
  - pose proof Hl as Hq. change (extends_last (or_last <$> Some q) o) with (ranges_are_adjacent q (run_one o)).
    apply last_snoc_eq in Hl. set (init := removelast (os_runs s)) in *. clearbody init. rewrite Hl in *. pose proof Hc as (_ & Hqo & _)%canonical_snoc.
    destruct (ranges_are_adjacent q (run_one o)) eqn:Hadj.
    + rewrite set_last_snoc. eexists. split; [done|]. destruct (joined_run _ _ Hqo Hone Hadj) as (_ & Hjl & Hjh).
      change (mk_run (or_first q) (pa_order p)) with (mk_run (or_first q) (or_last (run_one o))). unfold set_valid. cbn [os_runs os_sample_count].
      rewrite !order_total_app, !total_cons in *. change (total_len []) with 0 in *. split_and!; [by apply joined_canonical|lia|lia|done|].
      intros o'. rewrite !owns_app, !owns_single, Hjh, run_one_has by done. tauto.
    + eexists. split; [done|]. unfold set_valid. cbn [os_runs os_sample_count]. fold o.
      assert (total_len ((init ++ [q]) ++ [run_one o]) = total_len (init ++ [q]) + 1) as -> by (rewrite (order_total_app (init ++ [q])), total_cons; change (total_len []) with 0; lia).
      split_and!; [|lia|lia|done|].
      * apply canonical_snoc. split_and!; [done|done|]. rewrite last_snoc. intros r [= <-]. apply gap_spec; [done|done|]. split; [|done].
        apply order_leb_false; [done|apply Hqo|]. apply Hafter, owns_app. right. apply owns_single. by apply run_has_ends.
      * intros o'. by rewrite (owns_app (init ++ [q])), owns_single, run_one_has.
  - apply last_None in Hl. rewrite Hl in *. cbn. eexists. split; [done|]. unfold set_valid. cbn [os_runs os_sample_count]. fold o.
    rewrite total_cons. change (total_len []) with 0 in *. split_and!; [|lia|lia|done|].
    + apply (canonical_snoc []). by split_and!.
    + intros o'. rewrite owns_single, run_one_has by done. pose proof (owns_nil o'). tauto.
Qed.

(** Appending never panics; it succeeds exactly on a later order, and then adds it. *)
Lemma append_order_spec al s o : set_valid s → in_order o →
  ∃ r s', try_append_order al s o = Some (r, s') ∧ set_valid s' ∧
    (r = Ok tt → (∀ o', owns (os_runs s) o' → key o' < key o) ∧ os_sample_count s' = os_sample_count s + 1 ∧
       (∀ o', owns (os_runs s') o' ↔ owns (os_runs s) o' ∨ o' = o)) ∧
    (r ≠ Ok tt → os_runs s' = os_runs s ∧ os_sample_count s' = os_sample_count s) ∧
    ((∀ o', owns (os_runs s) o' → key o' < key o) → os_sample_count s < u64_max → grants al ∨ zlen (os_runs s) < os_capacity s → r = Ok tt).
Proof.
  intros Hs Ho. pose proof Hs as (Hc & _). unfold try_append_order, try_prepare_append. pose proof (order_after_last _ _ Hc Ho) as Hafter.
  destruct (match or_last <$> last (os_runs s) with Some _ => _ | None => _ end) eqn:Hlate.
  { eexists _, s. split; [done|]. split_and!; [done|done|done|]. intros H' _ _. by apply Hafter in H'. }
  destruct (checked_add_u64 _ 1) as [n|] eqn:Hn.
  2: { eexists _, s. split; [done|]. split_and!; [done|done|done|]. intros _ Hlt _. by rewrite checked_add_u64_fits in Hn by lia. }
  apply checked_add_u64_Some in Hn as [-> Hn].
  assert (∀ s1, os_runs s1 = os_runs s → os_sample_count s1 = os_sample_count s → set_valid s1) as Hsame.
  { intros s1 Hr Hcount. unfold set_valid. rewrite Hr, Hcount. exact Hs. }
  assert (∀ s1, os_runs s1 = os_runs s → os_sample_count s1 = os_sample_count s →
    ∃ s', commit_prepared_append s1 (mk_prepared_append o (os_sample_count s + 1) (extends_last (or_last <$> last (os_runs s)) o) (or_last <$> last (os_runs s))) = Some s' ∧
      set_valid s' ∧ os_sample_count s' = os_sample_count s + 1 ∧ (∀ o', owns (os_runs s') o' ↔ owns (os_runs s) o' ∨ o' = o)) as Hcommit.
  { intros s1 Hr Hcount. rewrite <- Hr, <- Hcount. apply order_commit_spec; try done; [by apply Hsame|by rewrite Hr; apply Hafter|lia]. }
  destruct (extends_last (or_last <$> last (os_runs s)) o) eqn:He.
  { destruct (Hcommit s eq_refl eq_refl) as (s' & Hcs & Hv & Hcount & Hown). rewrite Hcs. eexists _, s'. split; [done|]. split_and!; [done| |done|done].
    intros _. split_and!; [by apply Hafter|done|done]. }
  unfold try_reserve_additional_run, try_reserve_additional_runs, smallvec_reserve.
  assert (∀ c, ∃ r s', (match (Ok tt : io_result unit, mk_order_set (os_runs s) c (os_sample_count s)) with
     | (Ok _, s0) => s1 ← commit_prepared_append s0 (mk_prepared_append o (os_sample_count s + 1) false (or_last <$> last (os_runs s))); Some (Ok tt : io_result unit, s1)
     | (Err e, s0) => Some (Err e, s0) end) = Some (r, s') ∧ set_valid s' ∧ r = Ok tt ∧ os_sample_count s' = os_sample_count s + 1 ∧
       (∀ o', owns (os_runs s') o' ↔ owns (os_runs s) o' ∨ o' = o)) as Hdone.
  { intros c. destruct (Hcommit (mk_order_set (os_runs s) c (os_sample_count s)) eq_refl eq_refl) as (s' & -> & ? & ? & ?). by exists (Ok tt), s'. }
  destruct (Z.leb_spec 1 (saturating_sub (os_capacity s) (zlen (os_runs s)))) as [Hroom|Hroom].
  { destruct (Hdone (os_capacity s)) as (r & s' & Heq & Hv & -> & Hcount & Hown). exists (Ok tt), s'. split; [exact Heq|].
    split_and!; [done| |done|done]. intros _. split_and!; [by apply Hafter|done|done]. }
  unfold try_reserve. destruct (al _ 1) as [text|] eqn:Hal; cbn [mbind result_bind].
  { eexists _, s. split; [done|]. split_and!; [done|done|done|]. intros _ _ [Hg|Hc']; [by rewrite Hg in Hal|]. unfold saturating_sub in Hroom. lia. }
  destruct (Hdone (grown_capacity (os_capacity s) (zlen (os_runs s)) 1)) as (r & s' & Heq & Hv & -> & Hcount & Hown). exists (Ok tt), s'. split; [exact Heq|].
  split_and!; [done| |done|done]. intros _. split_and!; [by apply Hafter|done|done].
Qed.

(** The exact disjoint union. *)
Lemma union_spec al s t : set_repr s → set_repr t →
  (∀ u, checked_union al s t = Ok u → set_valid s ∧ set_valid t ∧ set_valid u ∧ os_sample_count u = os_sample_count s + os_sample_count t ∧
     (∀ o, owns (os_runs u) o ↔ owns (os_runs s) o ∨ owns (os_runs t) o) ∧ (∀ o, ¬ (owns (os_runs s) o ∧ owns (os_runs t) o))) ∧
  (set_valid s → set_valid t → (∀ o, ¬ (owns (os_runs s) o ∧ owns (os_runs t) o)) → os_sample_count s + os_sample_count t ≤ u64_max → grants al →
     is_ok (checked_union al s t) = true).
Proof.
  intros Hs Ht. unfold checked_union. set (fuel := (length (os_runs s) + length (os_runs t))%nat).
  assert (set_valid s → set_valid t → union_result [] (os_runs s) (os_runs t) (ownership_union_loop fuel (os_runs s) (os_runs t) [])) as Hloop.
  { intros [Hcs _] [Hct _]. apply ownership_union_loop_spec; [unfold fuel; lia|done|done|by split; constructor|by intros p r|by intros p r]. }
  assert (∀ runs c, set_valid s → set_valid t → os_sample_count s + os_sample_count t ≤ u64_max → canonical runs →
    total_len runs = total_len [] + total_len (os_runs s) + total_len (os_runs t) → set_valid (mk_order_set runs c (os_sample_count s + os_sample_count t))) as Hvalid.
  { intros runs c (_ & Hsc & _) (_ & Htc & _) Hmax Hc Htot. change (total_len []) with 0 in Htot. unfold set_valid. cbn [os_runs os_sample_count]. split_and!; [done|lia|lia]. }
  split.
  - intros u ([] & Hvs%validate_spec & ([] & Hvt%validate_spec & (n & _ & (c & _ & (runs & Hr & (m & Hm & ([] & _ & [= <-])%bind_ok)%bind_ok)%bind_ok)%bind_ok)%bind_ok)%bind_ok)%bind_ok; [|done..].
    specialize (Hloop Hvs Hvt). rewrite Hr in Hloop. destruct Hloop as (Hc & Htot & Hown & Hd & _). destruct (checked_add_u64 _ _) as [?|] eqn:Hadd; [|done].
    injection Hm as ->. apply checked_add_u64_Some in Hadd as [-> Hmax]. pose proof owns_nil. split_and!; [done|done|by apply Hvalid|done| |done].
    intros o. cbn [os_runs]. rewrite Hown. naive_solver.
  - intros Hvs Hvt Hd Hmax Hal. rewrite (proj2 (validate_spec _ Hs) Hvs), (proj2 (validate_spec _ Ht) Hvt). cbn [mbind result_bind].
    specialize (Hloop Hvs Hvt).
    assert (∀ x, set_valid x → 0 ≤ zlen (os_runs x) ≤ os_sample_count x) as Hlen.
    { intros x ((Hok & _) & -> & _). split; [apply zlen_nonneg|]. clear -Hok. induction Hok as [|r runs Hr _ IH]; [done|]. rewrite zlen_cons, total_cons.
      apply run_len_pos in Hr. lia. }
    pose proof (Hlen _ Hvs). pose proof (Hlen _ Hvt).
    rewrite (checked_add_u64_fits (zlen (os_runs s)) (zlen (os_runs t))) by lia. cbn [ok_or mbind result_bind]. unfold smallvec_reserve, try_reserve. rewrite Hal.
    match goal with |- is_ok (?c ≫= _) = true => destruct c as [cap|] eqn:Hcap; [|by destruct (_ <=? _) in Hcap] end. cbn [mbind result_bind].
    destruct (ownership_union_loop fuel _ _ []) as [runs|e]; cbn [mbind result_bind].
    + destruct Hloop as (Hc & Htot & _). rewrite checked_add_u64_fits by lia. cbn [ok_or mbind result_bind].
      specialize (Hvalid runs cap Hvs Hvt Hmax Hc Htot). by rewrite (proj2 (validate_spec _ (set_valid_repr _ Hvalid)) Hvalid).
    + destruct Hloop as (o & _ & [?|[[]%owns_nil _]]). by destruct (Hd o).
Qed.
End sets.

Lemma canonical_app l r k : canonical l → canonical (r :: k) → (∀ p, last l = Some p → gap p r) → canonical (l ++ r :: k).
Proof.
  intros Hl Hk Hgap. induction k as [|x k IH] using rev_ind.
  - apply canonical_snoc. split_and!; [done|by apply canonical_cons in Hk as [? _]|done].
  - rewrite app_comm_cons in Hk. apply canonical_snoc in Hk as (Hk & Hx & Hlast). rewrite app_comm_cons, app_assoc. apply canonical_snoc.
    split_and!; [by apply IH|done|]. intros y. rewrite last_app_cons. apply Hlast.
Qed.
(** Joining the first run of a list with the run before it. *)
Lemma canonical_join l p r k : canonical (l ++ [p]) → canonical (r :: k) → ranges_are_adjacent p r = true →
  canonical (l ++ mk_run (or_first p) (or_last r) :: k).
Proof.
  intros Hl Hk Hadj. pose proof Hk as (Hr & _)%canonical_cons. pose proof Hl as (Hl' & Hp & Hgap)%canonical_snoc.
  apply canonical_app; [done| |exact Hgap]. destruct Hk as [[_ Hok]%Forall_cons_1 Hs]. split; [constructor; [by apply joined_run|done]|].
  inversion Hs as [|? ? Hs' Hx]; subst. constructor; [done|exact Hx].
Qed.

(** Appending what follows everything owned is the union; it neither allocates nor panics. *)
Lemma append_pre_reserved_spec s t u : set_valid s → set_valid t → append_pre_reserved s t = Some (Ok u) →
  set_valid u ∧ os_capacity u = os_capacity s ∧ os_sample_count u = os_sample_count s + os_sample_count t ∧
  (∀ o, owns (os_runs u) o ↔ owns (os_runs s) o ∨ owns (os_runs t) o) ∧ (∀ o o', owns (os_runs s) o → owns (os_runs t) o' → key o < key o').
Proof.
  intros Hs Ht Hd. unfold append_pre_reserved in Hd. rewrite (proj2 (validate_spec _ (set_valid_repr _ Hs)) Hs), (proj2 (validate_spec _ (set_valid_repr _ Ht)) Ht) in Hd.
  cbn [mbind result_bind] in Hd. destruct Hs as (Hcs & Hns & Hms), Ht as (Hct & Hnt & Hmt). unfold order_set_is_empty in Hd. destruct (os_runs t) as [|r k] eqn:Htr.
  { injection Hd as <-. change (total_len []) with 0 in Hnt. pose proof owns_nil. unfold set_valid. split_and!; [done..|lia|naive_solver|naive_solver]. }
  unfold boundary in Hd. cbn [head] in Hd. pose proof Hct as (Hr & _ & Hlt & _)%canonical_cons. pose proof Hr as ([Hrf _] & _). unfold set_valid. rewrite total_cons in *.
  destruct (last (os_runs s)) as [p|] eqn:Hlast.
  2: { apply last_None in Hlast. rewrite Hlast in *. destruct (checked_add_u64 _ _) as [n|] eqn:Hadd; [|done]. apply checked_add_u64_Some in Hadd as [-> Hmax].
       destruct (_ <? _) in Hd; [done|]. cbn in Hd. injection Hd as <-. cbn [os_runs os_sample_count os_capacity app]. change (total_len []) with 0 in *. pose proof owns_nil.
       rewrite total_cons. split_and!; [done|lia|lia|done|done|naive_solver|naive_solver]. }
  destruct (order_leb _ _) eqn:Hov in Hd; [done|]. destruct (checked_add_u64 _ _) as [n|] eqn:Hadd; [|done]. apply checked_add_u64_Some in Hadd as [-> Hmax].
  destruct (_ <? _) in Hd; [done|].
  apply last_snoc_eq in Hlast. set (init := removelast (os_runs s)) in *. clearbody init. rewrite Hlast in *. pose proof Hcs as (_ & Hp & _)%canonical_snoc.
  apply order_leb_false in Hov; [|done|apply Hp]. rewrite order_total_app, total_cons in *. change (total_len []) with 0 in *.
  assert (∀ o o', owns (init ++ [p]) o → owns (r :: k) o' → key o < key o') as Hbefore.
  { intros o o' Ho Ho'. pose proof (canonical_le_last _ _ _ Hcs Ho). apply owns_cons in Ho' as [[_ ?]|(x & Hx%Hlt & [_ ?])]; [lia|]. pose proof (run_ok_le _ Hr). lia. }
  destruct (ranges_are_adjacent p r) eqn:Hadj; cbn [mbind option_bind] in Hd.
  - cbn [head mbind option_bind] in Hd. rewrite set_last_snoc in Hd. cbn [mbind option_bind drop] in Hd. injection Hd as <-. cbn [os_runs os_sample_count os_capacity]. rewrite <- app_assoc. cbn [app]. rewrite drop_0.
    destruct (joined_run _ _ Hp Hr Hadj) as (_ & Hjl & Hjh). rewrite order_total_app, total_cons, Hjl. split_and!; [by apply canonical_join|lia|lia|done|done| |done].
    intros o. rewrite !owns_app, !owns_cons, Hjh. pose proof (owns_nil o). tauto.
  - injection Hd as <-. cbn [os_runs os_sample_count os_capacity]. rewrite !order_total_app, !total_cons. change (total_len []) with 0. split_and!; [|lia|lia|done|done| |done].
    + apply canonical_app; [done|done|]. rewrite last_snoc. intros q [= <-]. apply gap_spec; [done|done|]. split; [|done]. apply order_leb_false; [done|apply Hp|done].
    + intros o. by rewrite owns_app.
Qed.

(** ** The ledger *)

Definition fingerprint_ok (f : CoverageFingerprint) : Prop := zlen f = 32 ∧ bytes f.
Lemma add_with_carry_spec target : ∀ carry other, 0 ≤ carry ≤ 1 → bytes target → bytes other → length target = length other →
  bytes (add_with_carry carry target other) ∧ length (add_with_carry carry target other) = length target ∧
  of_le (add_with_carry carry target other) = (of_le target + of_le other + carry) `mod` 2 ^ (8 * Z.of_nat (length target)).
Proof.
  induction target as [|t target IH]; intros carry other Hc Ht Ho Hlen; [by destruct other; [rewrite Z.mod_1_r|]|].
  destruct other as [|v other]; [done|]. apply Forall_cons_1 in Ht as [Hb Ht]. apply Forall_cons_1 in Ho as [Hv Ho]. unfold is_byte in Hb, Hv. cbn [add_with_carry].
  set (next := t + v + carry). assert (Z.shiftr next 8 = next `div` 256) as -> by (rewrite Z.shiftr_div_pow2 by lia; done).
  assert (0 ≤ next < 512) as Hn by (unfold next; lia). assert (0 ≤ next `div` 256 ≤ 1) as Hcarry.
  { split; [apply Z.div_pos; lia|]. apply Z.lt_succ_r, Z.div_lt_upper_bound; lia. }
  destruct (IH _ _ Hcarry Ht Ho ltac:(by injection Hlen)) as (IHb & IHl & IHv). pose proof (Z.mod_pos_bound next 256 ltac:(lia)).
  split_and!; [constructor; [unfold is_byte; lia|done]|cbn [length]; by rewrite IHl|]. rewrite !of_le_cons by lia. rewrite IHv. cbn [length].
  replace (8 * Z.of_nat (S (length target))) with (8 + 8 * Z.of_nat (length target)) by lia. rewrite Z.pow_add_r by lia. change (2 ^ 8) with 256.
  set (M := 2 ^ (8 * Z.of_nat (length target))). assert (0 < M) by (apply Z.pow_pos_nonneg; lia).
  replace (t + 256 * of_le target + (v + 256 * of_le other) + carry) with (next + (of_le target + of_le other) * 256) by (unfold next; lia).
  rewrite Z.rem_mul_r by lia. rewrite Z.mod_add, Z.div_add by lia. f_equal. f_equal. f_equal. lia.
Qed.
Lemma add_assign_spec f g : fingerprint_ok f → fingerprint_ok g →
  fingerprint_ok (add_assign_mod_256 f g) ∧ of_le (add_assign_mod_256 f g) = (of_le f + of_le g) `mod` 2 ^ 256.
Proof.
  intros [Hf Hfb] [Hg Hgb]. assert (length f = 32%nat ∧ length g = 32%nat) as [Hlf Hlg] by (unfold zlen in *; lia).
  destruct (add_with_carry_spec f 0 g ltac:(lia) Hfb Hgb ltac:(lia)) as (Hb & Hl & Hv). unfold add_assign_mod_256, fingerprint_ok.
  rewrite Hv, Hlf, Z.add_0_r. split_and!; [unfold zlen; lia|done|done].
Qed.
Lemma fingerprint_eq f g : fingerprint_ok f → fingerprint_ok g → of_le f = of_le g → f = g.
Proof. intros [Hf Hfb] [Hg Hgb] Heq. by rewrite <- (le_bytes_of_le 32 f), <- (le_bytes_of_le 32 g), Heq. Qed.

(** The ledger of some contributions. *)
Fixpoint with_contributions (l : CoverageLedger) (cs : list RecordedSampleContribution) : io_result CoverageLedger :=
  match cs with
  | [] => Ok l
  | c :: cs => l ← checked_with_contribution l c; with_contributions l cs
  end.
Definition digest_sum (cs : list RecordedSampleContribution) : Z := foldr (λ c n, of_le (rc_fingerprint c) + n) 0 cs.
Definition ledger_ok (l : CoverageLedger) : Prop := 0 ≤ cl_sample_count l ≤ u64_max ∧ fingerprint_ok (cl_fingerprint l).
Definition contribution_ok (c : RecordedSampleContribution) : Prop := fingerprint_ok (rc_fingerprint c).

Lemma with_contributions_spec cs : ∀ l l', ledger_ok l → Forall contribution_ok cs → with_contributions l cs = Ok l' →
  ledger_ok l' ∧ cl_sample_count l' = cl_sample_count l + zlen cs ∧ of_le (cl_fingerprint l') = (of_le (cl_fingerprint l) + digest_sum cs) `mod` 2 ^ 256.
Proof.
  induction cs as [|c cs IH]; intros l l' Hl Hcs Hd; cbn [with_contributions] in Hd.
  { injection Hd as <-. destruct Hl as [Hn [Hz Hb]]. split_and!; try done; [rewrite zlen_nil; lia|]. change (digest_sum []) with 0. rewrite Z.add_0_r.
    pose proof (of_le_range _ Hb) as Hr. rewrite Hz in Hr. by rewrite Z.mod_small. }
  apply Forall_cons_1 in Hcs as [Hc Hcs]. apply bind_ok in Hd as (l1 & (n & Hn & [= <-])%bind_ok & Hd). destruct (checked_add_u64 _ 1) as [?|] eqn:Hadd; [|done].
  injection Hn as ->. apply checked_add_u64_Some in Hadd as [-> Hmax]. destruct Hl as [Hcount Hf]. destruct (add_assign_spec _ _ Hf Hc) as [Hok Hval].
  assert (ledger_ok (mk_ledger (cl_sample_count l + 1) (add_assign_mod_256 (cl_fingerprint l) (rc_fingerprint c)))) as Hl1 by (split; [cbn; lia|exact Hok]).
  destruct (IH _ _ Hl1 Hcs Hd) as (Hl' & Hcount' & Hf'). cbn [cl_sample_count cl_fingerprint] in *.
  split_and!; [done|rewrite zlen_cons; lia|]. rewrite Hf', Hval. change (digest_sum (c :: cs)) with (of_le (rc_fingerprint c) + digest_sum cs).
  rewrite Z.add_mod_idemp_l by lia. f_equal. lia.
Qed.
Lemma with_contributions_ok cs : ∀ l, cl_sample_count l + zlen cs ≤ u64_max → 0 ≤ cl_sample_count l → is_ok (with_contributions l cs) = true.
Proof.
  induction cs as [|c cs IH]; intros l Hmax H0; [done|]. rewrite zlen_cons in Hmax. pose proof (zlen_nonneg cs). cbn [with_contributions]. unfold checked_with_contribution.
  rewrite checked_add_u64_fits by lia. cbn [ok_or mbind result_bind]. apply IH; cbn [cl_sample_count]; lia.
Qed.
Lemma digest_sum_perm cs ds : cs ≡ₚ ds → digest_sum cs = digest_sum ds.
Proof. induction 1; unfold digest_sum in *; cbn; lia. Qed.
Lemma digest_sum_app cs ds : digest_sum (cs ++ ds) = digest_sum cs + digest_sum ds.
Proof. induction cs as [|c cs IH]; [done|]. unfold digest_sum in *. cbn [app foldr]. lia. Qed.
Lemma ledger_empty_ok : ledger_ok ledger_empty.
Proof. split; [cbn; lia|]. split; [done|]. unfold ledger_empty. cbn. repeat constructor; lia. Qed.

(** ** Orders handed out *)

Definition before (a b : RecordedSampleOrder) : Prop := key a < key b.
Fixpoint take_orders (n : nat) (s : MessageSampleOrdinals) : io_result (list RecordedSampleOrder) :=
  match n with
  | O => Ok []
  | S n => match next_order s with
           | (Ok o, s) => os ← take_orders n s; Ok (o :: os)
           | (Err e, _) => Err e
           end
  end.
(** Messages of so many datapoints, in order of arrival. *)
Fixpoint assign_orders (s : MessageSequencer) (messages : list nat) : io_result (list RecordedSampleOrder) :=
  match messages with
  | [] => Ok []
  | n :: messages => match next_sequence s with
                     | (Ok sequence, s) => os ← take_orders n (ordinals_new sequence); rest ← assign_orders s messages; Ok (os ++ rest)
                     | (Err e, _) => Err e
                     end
  end.

Lemma take_orders_spec n : ∀ s os, in_u64 (so_sequence s) → (∀ k, so_next s = Some k → in_u64 k) → take_orders n s = Ok os →
  StronglySorted before os ∧ Forall (λ o, in_order o ∧ ro_message_sequence o = so_sequence s ∧ ∃ k, so_next s = Some k ∧ k ≤ ro_sample_ordinal o) os.
Proof.
  induction n as [|n IH]; intros s os Hs Hk Hd; cbn [take_orders] in Hd; [injection Hd as <-; by split; constructor|].
  unfold next_order in Hd. destruct (so_next s) as [k|] eqn:Hn; [|done]. specialize (Hk k eq_refl). apply bind_ok in Hd as (os' & Hd & [= <-]).
  unfold in_u64 in Hk. apply IH in Hd as [Hsort Hall]; [|done|].
  2: { cbn [so_next]. intros k' (-> & ?)%checked_add_u64_Some. unfold in_u64. lia. }
  cbn [so_next so_sequence] in Hall. rewrite Forall_forall in Hall.
  assert (∀ o, o ∈ os' → in_order o ∧ ro_message_sequence o = so_sequence s ∧ k + 1 ≤ ro_sample_ordinal o) as Hos.
  { intros o Ho. destruct (Hall _ Ho) as (? & ? & k' & [-> _]%checked_add_u64_Some & ?). done. }
  split; constructor; [done| | |].
  - apply Forall_forall. intros o (? & Hm & ?)%Hos. unfold before, key. cbn. rewrite Hm. lia.
  - split_and!; [by split|done|]. exists k. split; [done|]. cbn. lia.
  - apply Forall_forall. intros o (? & Hm & ?)%Hos. split_and!; [done|done|]. exists k. split; [done|]. lia.
Qed.
Lemma assign_orders_spec messages : ∀ s os, (∀ k, sq_next s = Some k → in_u64 k) → assign_orders s messages = Ok os →
  StronglySorted before os ∧ Forall (λ o, in_order o ∧ ∃ k, sq_next s = Some k ∧ k ≤ ro_message_sequence o) os.
Proof.
  induction messages as [|n messages IH]; intros s os Hs Hd; cbn [assign_orders] in Hd; [injection Hd as <-; by split; constructor|].
  unfold next_sequence in Hd. destruct (sq_next s) as [m|] eqn:Hn; [|done]. specialize (Hs m eq_refl). apply bind_ok in Hd as (os1 & Ho & (rest & Hd & [= <-])%bind_ok).
  apply take_orders_spec in Ho as [Hsort1 Hall1]; [|done|by intros k [= <-]]. cbn [so_sequence] in Hall1. unfold in_u64 in Hs.
  apply IH in Hd as [Hsort2 Hall2]; [|cbn [sq_next]; intros k' (-> & ?)%checked_add_u64_Some; unfold in_u64; lia].
  cbn [sq_next] in Hall2. rewrite Forall_forall in Hall1, Hall2.
  assert (∀ o, o ∈ rest → in_order o ∧ m + 1 ≤ ro_message_sequence o) as Hrest.
  { intros o (? & k' & [-> _]%checked_add_u64_Some & ?)%Hall2. done. }
  split.
  - clear IH. induction Hsort1 as [|o os1 Hsort1 IH Ho]; [done|]. cbn [app]. constructor; [apply IH; intros x Hx; by apply Hall1; right|].
    apply Forall_app. split; [done|]. apply Forall_forall. intros x [[Hxm Hxn] Hx]%Hrest. destruct (Hall1 o ltac:(by left)) as ([Hom Hon] & Hm & _).
    cbn [ordinals_new so_sequence] in Hm. unfold before, key, in_u64 in *. lia.
  - apply Forall_app. split; apply Forall_forall; intros x Hx.
    + destruct (Hall1 _ Hx) as (? & Hm & _). split; [done|]. exists m. cbn in Hm. split; [done|lia].
    + destruct (Hrest _ Hx) as [? ?]. split; [done|]. exists m. split; [done|lia].
Qed.

(** ** Windows that share the recorded orders *)

Section ownership.
Context `{!SmallVecGrowth} (al : allocator) (Hal : grants al).

(** Each order goes to the window with the given index, or to none. *)
Fixpoint record_owned (ws : list RecordedSampleOrderSet) (l : list (option nat * RecordedSampleOrder)) : option (io_result (list RecordedSampleOrderSet)) :=
  match l with
  | [] => Some (Ok ws)
  | (None, _) :: l => record_owned ws l
  | (Some w, o) :: l =>
      s ← ws !! w;
      match try_append_order al s o with
      | Some (Ok _, s) => record_owned (<[w := s]> ws) l
      | Some (Err e, _) => Some (Err e)
      | None => None
      end
  end.
Fixpoint union_all (acc : RecordedSampleOrderSet) (l : list RecordedSampleOrderSet) : io_result RecordedSampleOrderSet :=
  match l with
  | [] => Ok acc
  | s :: l => acc ← checked_union al acc s; union_all acc l
  end.

Definition counts (ws : list RecordedSampleOrderSet) : Z := foldr (λ s n, os_sample_count s + n) 0 ws.
Definition apart (s t : RecordedSampleOrderSet) : Prop := ∀ o, ¬ (owns (os_runs s) o ∧ owns (os_runs t) o).
Fixpoint all_apart (ws : list RecordedSampleOrderSet) : Prop :=
  match ws with [] => True | s :: ws => Forall (apart s) ws ∧ all_apart ws end.

Lemma counts_insert ws : ∀ w s s', ws !! w = Some s → counts (<[w := s']> ws) = counts ws - os_sample_count s + os_sample_count s'.
Proof.
  induction ws as [|x ws IH]; intros [|w] s s' Hw; try done; cbn in Hw.
  - injection Hw as ->. cbn. lia.
  - apply (IH _ _ s') in Hw. change (counts (<[S w := s']> (x :: ws))) with (os_sample_count x + counts (<[w := s']> ws)).
    change (counts (x :: ws)) with (os_sample_count x + counts ws). lia.
Qed.
Lemma counts_perm ws vs : ws ≡ₚ vs → counts ws = counts vs.
Proof. induction 1; unfold counts in *; cbn; lia. Qed.
Lemma all_apart_perm ws vs : ws ≡ₚ vs → all_apart ws → all_apart vs.
Proof.
  assert (∀ s t, apart s t → apart t s) as Hsym by (intros s t Hst o [? ?]; by apply (Hst o)).
  induction 1 as [|x l k Hp IH|x y l|l k j _ IH1 _ IH2]; cbn; [done| | |by intros ?%IH1%IH2].
  - intros [Hx Hl]. split; [by rewrite <- Hp|by apply IH].
  - intros [[Hyx Hy]%Forall_cons_1 [Hx Hl]]. split_and!; [constructor; [by apply Hsym|done]|done|done].
Qed.
Lemma all_apart_lookup ws : (∀ i j s t, ws !! i = Some s → ws !! j = Some t → i ≠ j → apart s t) → all_apart ws.
Proof.
  induction ws as [|s ws IH]; intros Hall; cbn; [done|]. split.
  - apply Forall_forall. intros t [j Hj]%list_elem_of_lookup. by apply (Hall 0%nat (S j)).
  - apply IH. intros i j x y Hi Hj Hne. apply (Hall (S i) (S j)); [done|done|lia].
Qed.

Lemma union_all_spec l : ∀ acc, set_valid acc → Forall set_valid l → all_apart (acc :: l) → os_sample_count acc + counts l ≤ u64_max →
  ∃ u, union_all acc l = Ok u ∧ set_valid u ∧ (∀ o, owns (os_runs u) o ↔ owns (os_runs acc) o ∨ ∃ s, s ∈ l ∧ owns (os_runs s) o).
Proof.
  induction l as [|s l IH]; intros acc Hacc Hl Hap Hmax.
  { exists acc. split_and!; [done|done|]. intros o. setoid_rewrite elem_of_nil. naive_solver. }
  apply Forall_cons_1 in Hl as [Hs Hl]. destruct Hap as [[Has Hal']%Forall_cons_1 [Hsl Hap]]. change (counts (s :: l)) with (os_sample_count s + counts l) in Hmax.
  assert (∀ x, set_valid x → 0 ≤ os_sample_count x) as H0 by (intros x ((Hx & _) & -> & _); by apply total_len_nonneg).
  assert (0 ≤ counts l) as Hc0.
  { clear -H0 Hl. induction Hl as [|x l Hx _ IH]; [done|]. specialize (H0 _ Hx). unfold counts in *. cbn. lia. }
  destruct (union_spec al acc s (set_valid_repr _ Hacc) (set_valid_repr _ Hs)) as [Hinv Hok]. cbn [union_all].
  specialize (Hok Hacc Hs Has ltac:(lia) Hal). destruct (checked_union al acc s) as [u|] eqn:Hu; [|done]. cbn [mbind result_bind].
  destruct (Hinv u eq_refl) as (_ & _ & Hv & Hcount & Hown & _).
  destruct (IH u Hv Hl) as (v & Hvu & Hvv & Hvown); [|lia|].
  - split; [|done]. rewrite Forall_forall in Hal', Hsl |- *. intros x Hx o [[Ho|Ho]%Hown Hxo]; [by apply (Hal' _ Hx o)|by apply (Hsl _ Hx o)].
  - exists v. split_and!; [done|done|]. intros o. rewrite Hvown, Hown. setoid_rewrite elem_of_cons. naive_solver.
Qed.

(** What the windows hold after the assignments [l]. *)
Definition windows_own (ws : list RecordedSampleOrderSet) (l : list (option nat * RecordedSampleOrder)) : Prop :=
  (∀ w s, ws !! w = Some s → set_valid s ∧ ∀ o, owns (os_runs s) o ↔ (Some w, o) ∈ l) ∧ counts ws ≤ zlen l.

Lemma record_owned_spec l : ∀ done ws, windows_own ws done → StronglySorted before (done ++ l).*2 → Forall in_order l.*2 →
  Forall (λ a : option nat * RecordedSampleOrder, ∀ w, a.1 = Some w → (w < length ws)%nat) l → zlen (done ++ l) ≤ u64_max →
  (∀ w s, ws !! w = Some s → os_sample_count s ≤ counts ws) →
  ∃ ws', record_owned ws l = Some (Ok ws') ∧ length ws' = length ws ∧ windows_own ws' (done ++ l).
Proof.
  induction l as [|[w o] l IH]; intros d ws Hws Hsort Hin Hlt Hmax Hcounts; [exists ws; by rewrite app_nil_r|].
  cbn [fmap list_fmap fst snd] in Hin. apply Forall_cons_1 in Hin as [Ho Hin]. apply Forall_cons_1 in Hlt as [Hw Hlt]. cbn [fst] in Hw. cbn [record_owned].
  assert (d ++ (w, o) :: l = (d ++ [(w, o)]) ++ l) as Heq by (by rewrite <- app_assoc). rewrite Heq in *. destruct Hws as [Hws Hcount].
  assert (zlen (d ++ [(w, o)]) = zlen d + 1) as Hz by (rewrite zlen_app, zlen_cons, zlen_nil; lia). pose proof (zlen_nonneg l) as Hzl. rewrite zlen_app in Hmax.
  destruct w as [w|].
  2: { apply IH; try done; [|by rewrite zlen_app]. split; [|lia]. intros w s Hs. destruct (Hws _ _ Hs) as [? Hown]. split; [done|]. intros o'. rewrite Hown, elem_of_app, list_elem_of_singleton. naive_solver. }
  destruct (lookup_lt_is_Some_2 ws w (Hw _ eq_refl)) as [s Hs]. rewrite Hs. cbn [mbind option_bind]. destruct (Hws _ _ Hs) as [Hv Hown].
  destruct (append_order_spec al s o Hv Ho) as (r & s' & -> & Hv' & Hgood & _ & Hsucc). specialize (Hcounts _ _ Hs) as Hcs.
  assert (r = Ok tt) as ->.
  { apply Hsucc; [|lia|by left]. intros o' Hin'%Hown. rewrite <- app_assoc, fmap_app in Hsort. cbn in Hsort. clear -Hsort Hin'. induction d as [|[v x] d IH]; [by apply elem_of_nil in Hin'|].
    cbn in Hsort. inversion Hsort as [|? ? Hsort' Hx]; subst. apply elem_of_cons in Hin' as [[= <- <-]|Hin']; [|by apply IH]. apply Forall_app in Hx as [_ [Hx _]%Forall_cons_1]. exact Hx. }
  destruct (Hgood eq_refl) as (_ & Hn & Hown'). pose proof (counts_insert ws w s s' Hs) as Hci.
  destruct (IH (d ++ [(Some w, o)]) (<[w := s']> ws)) as (ws' & Hrec & Hlen & Hres); [|done|done|by rewrite length_insert|by rewrite zlen_app| |].
  - split; [|lia]. intros w' x Hx. destruct (decide (w' = w)) as [->|Hne].
    + rewrite list_lookup_insert_eq in Hx by (by eapply lookup_lt_Some). injection Hx as <-. split; [done|]. intros o'. rewrite Hown', Hown, elem_of_app, list_elem_of_singleton. naive_solver.
    + rewrite list_lookup_insert_ne in Hx by done. destruct (Hws _ _ Hx) as [? Hxo]. split; [done|]. intros o'. rewrite Hxo, elem_of_app, list_elem_of_singleton. naive_solver.
  - intros w' x Hx. destruct (decide (w' = w)) as [->|Hne].
    + rewrite list_lookup_insert_eq in Hx by (by eapply lookup_lt_Some). injection Hx as <-. lia.
    + rewrite list_lookup_insert_ne in Hx by done. specialize (Hcounts _ _ Hx). lia.
  - exists ws'. split_and!; [done|by rewrite Hlen, length_insert|done].
Qed.
End ownership.

(** ** Correctness *)

Lemma order_set_empty_valid : set_valid order_set_empty.
Proof. split_and!; [by split; constructor|done|done]. Qed.
Lemma empty_windows n : windows_own (replicate n order_set_empty) [].
Proof.
  split.
  - intros w s [-> _]%lookup_replicate. split; [apply order_set_empty_valid|]. intros o. pose proof (owns_nil o). setoid_rewrite elem_of_nil. done.
  - induction n as [|n IH]; [done|]. exact IH.
Qed.
Lemma sorted_orders_unique (l : list (option nat * RecordedSampleOrder)) w v o : StronglySorted before l.*2 → (w, o) ∈ l → (v, o) ∈ l → w = v.
Proof.
  intros Hs Hw Hv. apply list_elem_of_lookup in Hw as [i Hi]. apply list_elem_of_lookup in Hv as [j Hj].
  assert (l.*2 !! i = Some o ∧ l.*2 !! j = Some o) as [Hi2 Hj2] by (by rewrite !list_lookup_fmap, Hi, Hj).
  destruct (Nat.lt_trichotomy i j) as [Hlt|[->|Hlt]]; [|by rewrite Hi in Hj; injection Hj|].
  - pose proof (sorted_lookup_lt _ _ _ _ _ _ Hs Hi2 Hj2 Hlt) as Hb. unfold before in Hb. lia.
  - pose proof (sorted_lookup_lt _ _ _ _ _ _ Hs Hj2 Hi2 Hlt) as Hb. unfold before in Hb. lia.
Qed.

(** C16: every recorded sample has exactly one owner.  However the orders that
    the sequencers hand out are shared among windows, each window's set is
    canonical and owns exactly what was recorded in it, and the union of the
    windows, taken in any order, succeeds with the same runs and owns exactly the
    recorded orders. *)
Theorem ownership_exact `{!SmallVecGrowth} al messages orders owners n : grants al → assign_orders sequencer_default messages = Ok orders →
  length owners = length orders → Forall (λ w : option nat, ∀ i, w = Some i → (i < n)%nat) owners → zlen orders ≤ u64_max →
  ∃ ws runs, record_owned al (replicate n order_set_empty) (zip owners orders) = Some (Ok ws) ∧ length ws = n ∧
    (∀ w s, ws !! w = Some s → set_valid s ∧ ∀ o, owns (os_runs s) o ↔ (Some w, o) ∈ zip owners orders) ∧
    (∀ o, owns runs o ↔ ∃ w, (Some w, o) ∈ zip owners orders) ∧
    (∀ l, l ≡ₚ ws → ∃ u, union_all al order_set_empty l = Ok u ∧ set_valid u ∧ os_runs u = runs).
Proof.
  intros Hal Horders Hlen Hn Hmax. apply assign_orders_spec in Horders as [Hsort Hin]; [|by intros k [= <-]].
  set (l := zip owners orders). assert (l.*2 = orders) as Hsnd by (apply snd_zip; lia). assert (l.*1 = owners) as Hfst by (apply fst_zip; lia).
  assert (zlen l = zlen orders) as Hz by (rewrite <- Hsnd; unfold zlen; by rewrite length_fmap).
  destruct (record_owned_spec al Hal l [] _ (empty_windows n)) as (ws & Hrec & Hws & [Hown Hcount]); cbn [app] in *.
  - by rewrite Hsnd.
  - rewrite Hsnd. eapply Forall_impl; [exact Hin|]. by intros o [? _].
  - rewrite length_replicate. rewrite <- Hfst in Hn. by apply (Forall_fmap fst) in Hn.
  - by rewrite Hz.
  - intros w s Hs. pose proof (empty_windows n) as [_ Hc]. apply lookup_replicate in Hs as [-> _]. cbn. clear. induction n as [|n IH]; [done|]. exact IH.
  - rewrite length_replicate in Hws. rewrite Hz in Hcount. assert (all_apart ws) as Hap.
    { apply all_apart_lookup. intros i j s t Hi Hj Hne o [Hs Ht]. destruct (Hown _ _ Hi) as [_ Hs']. destruct (Hown _ _ Hj) as [_ Ht'].
      apply Hne. assert (Some i = Some j) as [= ->]; [|done]. apply (sorted_orders_unique l _ _ o); [by rewrite Hsnd|by apply Hs'|by apply Ht']. }
    assert (∀ k, k ≡ₚ ws → ∃ u, union_all al order_set_empty k = Ok u ∧ set_valid u ∧ (∀ o, owns (os_runs u) o ↔ ∃ w, (Some w, o) ∈ l)) as Hunion.
    { intros k Hk. destruct (union_all_spec al Hal k order_set_empty) as (u & Hu & Hv & Huo).
      - apply order_set_empty_valid.
      - rewrite Hk. apply Forall_forall. intros s [w Hw]%list_elem_of_lookup. by destruct (Hown _ _ Hw).
      - split; [|by eapply all_apart_perm]. apply Forall_forall. by intros s _ o [[]%owns_nil _].
      - rewrite (counts_perm _ _ Hk). cbn. lia.
      - exists u. split_and!; [done|done|]. intros o. rewrite Huo. setoid_rewrite Hk. setoid_rewrite list_elem_of_lookup. split.
        + intros [[]%owns_nil|(s & [w Hw] & Hs)]. exists w. apply list_elem_of_lookup. by apply (Hown _ _ Hw).
        + intros [w Hw%list_elem_of_lookup]. right. assert (w < length ws)%nat as Hwn.
          { rewrite Hws. assert (Some w ∈ l.*1) as Hw1 by (apply list_elem_of_fmap; by exists (Some w, o)). rewrite Hfst in Hw1.
            rewrite Forall_forall in Hn. by apply (Hn _ Hw1). }
          apply lookup_lt_is_Some_2 in Hwn as [s Hs]. exists s. split; [by exists w|]. by apply (Hown _ _ Hs). }
    destruct (Hunion ws ltac:(done)) as (u & Hu & [Hc _] & Huo). exists ws, (os_runs u). split_and!; [done|done|done|done|].
    intros k Hk. destruct (Hunion k Hk) as (u' & Hu' & Hv' & Huo'). exists u'. split_and!; [done|done|]. apply canonical_unique; [apply Hv'|done|].
    intros o. by rewrite Huo, Huo'.
Qed.

(** C39: the union of two ownership sets is the exact disjoint union.  It succeeds
    exactly when both sets are canonical with the count of their orders, no order
    has two owners and the count of the union fits; it owns what the two own, and
    any canonical set that owns the same has the same runs and the same count. *)
Theorem ownership_union_exact `{!SmallVecGrowth} al s t : set_repr s → set_repr t → grants al →
  (is_ok (checked_union al s t) = true ↔
     set_valid s ∧ set_valid t ∧ (∀ o, ¬ (owns (os_runs s) o ∧ owns (os_runs t) o)) ∧ os_sample_count s + os_sample_count t ≤ u64_max) ∧
  (∀ u, checked_union al s t = Ok u → set_valid u ∧ (∀ o, owns (os_runs u) o ↔ owns (os_runs s) o ∨ owns (os_runs t) o) ∧
     ∀ v, set_valid v → (∀ o, owns (os_runs v) o ↔ owns (os_runs s) o ∨ owns (os_runs t) o) → os_runs v = os_runs u ∧ os_sample_count v = os_sample_count u).
Proof.
  intros Hs Ht Hal. destruct (union_spec al s t Hs Ht) as [Hinv Hok]. split.
  - split; [|by intros (? & ? & ? & ?); apply Hok]. destruct (checked_union al s t) as [u|]; [|done]. intros _.
    destruct (Hinv u eq_refl) as (Hvs & Hvt & (_ & Hu & Hmax) & Hcount & _ & Hd). split_and!; [done|done|done|lia].
  - intros u Hu. destruct (Hinv u Hu) as (_ & _ & Hv & _ & Hown & _). split_and!; [done|done|]. intros v Hvv Hvown.
    assert (os_runs v = os_runs u) as Heq.
    { apply canonical_unique; [apply Hvv|apply Hv|]. intros o. by rewrite Hvown, Hown. }
    split; [done|]. destruct Hvv as (_ & -> & _), Hv as (_ & -> & _). by rewrite Heq.
Qed.

(** C40: the coverage ledger is a sum.  Merging the ledgers of two lists of
    contributions gives the ledger of any arrangement of both, whose count is
    their number and whose fingerprint is the sum of their digests modulo 2^256. *)
Theorem ledger_exact cs ds : Forall contribution_ok (cs ++ ds) → zlen (cs ++ ds) ≤ u64_max →
  ∃ a b m, with_contributions ledger_empty cs = Ok a ∧ with_contributions ledger_empty ds = Ok b ∧ checked_merge a b = Ok m ∧
    cl_sample_count m = zlen (cs ++ ds) ∧ of_le (cl_fingerprint m) = digest_sum (cs ++ ds) `mod` 2 ^ 256 ∧
    ∀ es, es ≡ₚ cs ++ ds → with_contributions ledger_empty es = Ok m.
Proof.
  intros Hok Hmax. pose proof Hok as [Hcs Hds]%Forall_app. rewrite zlen_app in Hmax. pose proof (zlen_nonneg cs). pose proof (zlen_nonneg ds).
  assert (∀ es, Forall contribution_ok es → zlen es ≤ u64_max → ∃ l, with_contributions ledger_empty es = Ok l ∧ ledger_ok l ∧ cl_sample_count l = zlen es ∧
    of_le (cl_fingerprint l) = digest_sum es `mod` 2 ^ 256) as Hrun.
  { intros es Hes Hlen. pose proof (with_contributions_ok es ledger_empty ltac:(cbn; lia) ltac:(cbn; lia)) as Hl.
    destruct (with_contributions ledger_empty es) as [l|] eqn:Hd; [|done]. destruct (with_contributions_spec _ _ _ ledger_empty_ok Hes Hd) as (? & ? & ?). by exists l. }
  destruct (Hrun cs Hcs ltac:(lia)) as (a & Ha & [Hca Hfa] & Hna & Hva). destruct (Hrun ds Hds ltac:(lia)) as (b & Hb & [Hcb Hfb] & Hnb & Hvb).
  destruct (add_assign_spec _ _ Hfa Hfb) as [Hfm Hvm].
  assert (checked_merge a b = Ok (mk_ledger (cl_sample_count a + cl_sample_count b) (add_assign_mod_256 (cl_fingerprint a) (cl_fingerprint b)))) as Hm.
  { unfold checked_merge. by rewrite checked_add_u64_fits by lia. }
  assert (of_le (add_assign_mod_256 (cl_fingerprint a) (cl_fingerprint b)) = digest_sum (cs ++ ds) `mod` 2 ^ 256) as Hsum.
  { rewrite Hvm, Hva, Hvb, <- Z.add_mod by done. by rewrite digest_sum_app. }
  eexists a, b, _. split_and!; [done|done|done|cbn; rewrite zlen_app; lia|done|].
  intros es Hes. assert (zlen es = zlen (cs ++ ds)) as Hlen by (unfold zlen; by rewrite Hes). rewrite zlen_app in Hlen.
  destruct (Hrun es ltac:(by rewrite Hes) ltac:(lia)) as ([n f] & -> & [_ Hf] & Hn & Hv). cbn [cl_sample_count cl_fingerprint] in *.
  f_equal. f_equal; [lia|]. apply fingerprint_eq; [done|done|]. by rewrite Hv, Hsum, (digest_sum_perm _ _ Hes).
Qed.

(** ** Witnesses *)

#[local] Program Instance exact_growth : SmallVecGrowth := {| grown_capacity := λ _ len additional, len + additional |}.
Next Obligation. cbn. lia. Qed.

(** Two messages of two and three datapoints, one of them refused. *)
Definition sample_orders : list RecordedSampleOrder := [mk_order 1 0; mk_order 1 1; mk_order 2 0; mk_order 2 1; mk_order 2 2].
Definition sample_owners : list (option nat) := [Some 0%nat; Some 0%nat; Some 1%nat; None; Some 0%nat].
Lemma ownership_exact_witness : assign_orders sequencer_default [2%nat; 3%nat] = Ok sample_orders ∧
  ∃ ws u, record_owned alloc_ok (replicate 2 order_set_empty) (zip sample_owners sample_orders) = Some (Ok ws) ∧
    union_all alloc_ok order_set_empty (reverse ws) = Ok u ∧
    os_runs u = [mk_run (mk_order 1 0) (mk_order 1 1); mk_run (mk_order 2 0) (mk_order 2 0); mk_run (mk_order 2 2) (mk_order 2 2)].
Proof.
  split; [vm_compute; reflexivity|].
  assert (Forall (λ w : option nat, ∀ i, w = Some i → (i < 2)%nat) sample_owners) as Hn by
    (unfold sample_owners; rewrite !Forall_cons, Forall_nil; split_and!; try done; intros i [= <-]; lia).
  destruct (ownership_exact alloc_ok [2%nat; 3%nat] sample_orders sample_owners 2 (λ _ _, eq_refl) eq_refl eq_refl Hn ltac:(vm_compute; discriminate))
    as (ws & runs & Hws & _ & _ & _ & Hunion).
  destruct (Hunion (reverse ws) (reverse_Permutation ws)) as (u & Hu & _ & _). exists ws, u. split; [exact Hws|]. split; [exact Hu|].
  vm_compute in Hws. injection Hws as <-. vm_compute in Hu. injection Hu as <-. vm_compute. reflexivity.
Defined.

Definition odd_orders : RecordedSampleOrderSet := mk_order_set [mk_run (mk_order 1 1) (mk_order 1 1); mk_run (mk_order 1 3) (mk_order 1 3)] 2 2.
Definition even_order : RecordedSampleOrderSet := mk_order_set [mk_run (mk_order 1 2) (mk_order 1 2)] 2 1.
Lemma ownership_union_exact_witness : checked_union alloc_ok odd_orders even_order = Ok (mk_order_set [mk_run (mk_order 1 1) (mk_order 1 3)] 3 3) ∧
  set_valid (mk_order_set [mk_run (mk_order 1 1) (mk_order 1 3)] 3 3).
Proof.
  assert (∀ a b, in_u64 a → in_u64 b → in_order (mk_order a b)) as Hin by done.
  destruct (ownership_union_exact alloc_ok odd_orders even_order ltac:(repeat constructor; cbn; lia) ltac:(repeat constructor; cbn; lia) (λ _ _, eq_refl)) as [_ Hu].
  split; [vm_compute; reflexivity|]. apply Hu. vm_compute. reflexivity.
Defined.

Definition sample_contribution (n : Z) : RecordedSampleContribution := mk_contribution (mk_order 1 n) (le_bytes 32 (2 ^ 255 + n)).
Lemma ledger_exact_witness : ∃ m, with_contributions ledger_empty [sample_contribution 1; sample_contribution 2] = Ok m ∧
  with_contributions ledger_empty [sample_contribution 2; sample_contribution 1] = Ok m ∧ cl_fingerprint m = le_bytes 32 3.
Proof.
  assert (Forall contribution_ok ([sample_contribution 1] ++ [sample_contribution 2])) as Hok.
  { cbn [app]. apply Forall_cons_2; [|apply Forall_cons_2; [|apply Forall_nil_2]]; (split; [vm_compute; reflexivity|apply bytes_le_bytes; lia]). }
  destruct (ledger_exact [sample_contribution 1] [sample_contribution 2] Hok ltac:(vm_compute; discriminate)) as (_ & _ & m & _ & _ & _ & _ & _ & Hm).
  exists m. split; [apply Hm; reflexivity|]. split; [apply Hm, perm_swap|].
  pose proof (Hm _ (Permutation_refl _)) as Hd. vm_compute in Hd. injection Hd as <-. vm_compute. reflexivity.
Defined.
