(* ===== verification/SeriesTable.v ===== *)
(** * The head's series table

    [chronoxide-core/src/storage/head/series_table.rs] and [series_table/iter.rs]:
    a map from series references to values.  Its adaptive form keeps pages of 4096
    references, each in a hash map until 128 of its slots are occupied, then in
    arrays addressed by slot.  It is proved to be the finite map that the windows of
    the head ([HeadWindow]) use, with exact counters and iterators.  The capacities in
    the statistics and the test-only removal are not modelled.  [None] is a panic. *)
From S2P Require Import Prelude HeadWindow.

Definition PAGE_SHIFT : Z := 12.
Definition PAGE_LEN : Z := Z.shiftl 1 PAGE_SHIFT.
Definition PAGE_MASK : Z := PAGE_LEN - 1.
Definition DIRECT_PAGE_THRESHOLD : Z := 128.
Definition INVALID_VALUE_INDEX : Z := u16_max.
Definition PAGED_REF_LIMIT : Z := Z.shiftl 1 24.

(** The page and the slot of a reference under the limit. *)
Definition paged_slot (raw : Z) : option (Z * Z) :=
  if raw <? PAGED_REF_LIMIT then Some (Z.shiftr raw PAGE_SHIFT, Z.land raw PAGE_MASK) else None.

Record DirectSeriesPage (V : Type) := mk_direct { dp_slot_indexes : list Z; dp_reverse_slots : list Z; dp_values : list V }.
Arguments mk_direct {V}.
Arguments dp_slot_indexes {V}.
Arguments dp_reverse_slots {V}.
Arguments dp_values {V}.

Inductive SeriesPage (V : Type) :=
  | Sparse (occupied_slots : list Z)
  | Direct (page : DirectSeriesPage V).
Arguments Sparse {V}.
Arguments Direct {V}.

Record AdaptiveSeriesTable (V : Type) := mk_adaptive {
  as_pages : list (SeriesPage V);
  as_sparse : gmap Z V;
  as_len : Z;
  as_sparse_pages : Z;
  as_refs_above_paged_limit : Z;
  as_direct_pages : Z;
  as_direct_series : Z;
}.
Arguments mk_adaptive {V}.
Arguments as_pages {V}.
Arguments as_sparse {V}.
Arguments as_len {V}.
Arguments as_sparse_pages {V}.
Arguments as_refs_above_paged_limit {V}.
Arguments as_direct_pages {V}.
Arguments as_direct_series {V}.

Inductive HeadSeriesTable (V : Type) :=
  | Plain (values : gmap Z V) (refs_above_paged_limit : Z)
  | Adaptive (table : AdaptiveSeriesTable V).
Arguments Plain {V}.
Arguments Adaptive {V}.

(** The counters of [HeadSeriesTableStats]. *)
Record HeadSeriesTableStats := mk_table_stats {
  ts_adaptive : bool;
  ts_series : Z;
  ts_page_directory_len : Z;
  ts_sparse_pages : Z;
  ts_sparse_series : Z;
  ts_refs_above_paged_limit : Z;
  ts_direct_pages : Z;
  ts_direct_series : Z;
  ts_direct_slot_index_bytes : Z;
}.

Section table.
Context {V : Type}.
Implicit Types (t : AdaptiveSeriesTable V) (p : DirectSeriesPage V).

(** ** Direct pages *)

Definition direct_with_capacity : DirectSeriesPage V := mk_direct (replicate (Z.to_nat PAGE_LEN) INVALID_VALUE_INDEX) [] [].

Definition page_get p (slot : Z) : option (option V) :=
  index ← dp_slot_indexes p !! Z.to_nat slot;
  if index =? INVALID_VALUE_INDEX then Some None else v ← dp_values p !! Z.to_nat index; Some (Some v).

(** Writing [f] through the reference of [get_mut]. *)
Definition page_modify (f : V → V) p (slot : Z) : option (option V * DirectSeriesPage V) :=
  index ← dp_slot_indexes p !! Z.to_nat slot;
  if index =? INVALID_VALUE_INDEX then Some (None, p)
  else v ← dp_values p !! Z.to_nat index;
       Some (Some v, mk_direct (dp_slot_indexes p) (dp_reverse_slots p) (<[Z.to_nat index := f v]> (dp_values p))).

Definition page_insert_new p (slot : Z) (value : V) : option (result V unit * DirectSeriesPage V) :=
  index ← dp_slot_indexes p !! Z.to_nat slot;
  if negb (index =? INVALID_VALUE_INDEX) then Some (Err value, p)
  else
    let index := zlen (dp_values p) in
    Some (Ok tt, mk_direct (<[Z.to_nat slot := index `mod` 65536]> (dp_slot_indexes p))
                   (dp_reverse_slots p ++ [slot `mod` 65536]) (dp_values p ++ [value])).

(** ** The adaptive table *)

Definition adaptive_default : AdaptiveSeriesTable V := mk_adaptive [] ∅ 0 0 0 0 0.

Definition direct_page t (series : Z) : option (Z * Z * DirectSeriesPage V) :=
  '(page, slot) ← paged_slot series;
  match as_pages t !! Z.to_nat page with Some (Direct p) => Some (page, slot, p) | _ => None end.

Definition adaptive_get t (series : Z) : option (option V) :=
  match direct_page t series with
  | Some (_, slot, p) => page_get p slot
  | None => Some (as_sparse t !! series)
  end.

Definition with_pages t (pages : list (SeriesPage V)) (sparse : gmap Z V) : AdaptiveSeriesTable V :=
  mk_adaptive pages sparse (as_len t) (as_sparse_pages t) (as_refs_above_paged_limit t) (as_direct_pages t) (as_direct_series t).

Definition adaptive_modify (f : V → V) t (series : Z) : option (option V * AdaptiveSeriesTable V) :=
  match direct_page t series with
  | Some (page, slot, p) =>
      '(old, p) ← page_modify f p slot;
      Some (old, with_pages t (<[Z.to_nat page := Direct p]> (as_pages t)) (as_sparse t))
  | None => Some (as_sparse t !! series, with_pages t (as_pages t) (alter f series (as_sparse t)))
  end.

(** Moves the values of the occupied slots out of the hash map. *)
Fixpoint promote_slots (first_ref : Z) (occupied_slots : list Z) (sparse : gmap Z V) (direct : DirectSeriesPage V)
    : option (gmap Z V * DirectSeriesPage V) :=
  match occupied_slots with
  | [] => Some (sparse, direct)
  | slot :: occupied_slots =>
      let series := first_ref + slot in
      value ← sparse !! series;
      '(_, direct) ← page_insert_new direct slot value;
      promote_slots first_ref occupied_slots (delete series sparse) direct
  end.
Definition promote_page t (page_index : Z) : option (AdaptiveSeriesTable V) :=
  match as_pages t !! Z.to_nat page_index with
  | Some (Sparse occupied_slots) =>
      '(sparse, direct) ← promote_slots (page_index * PAGE_LEN) occupied_slots (as_sparse t) direct_with_capacity;
      Some (mk_adaptive (<[Z.to_nat page_index := Direct direct]> (as_pages t)) sparse (as_len t) (as_sparse_pages t - 1)
              (as_refs_above_paged_limit t) (as_direct_pages t + 1) (as_direct_series t + zlen occupied_slots))
  | _ => None
  end.

(** [resize_with(page_index + 1, default)] of a shorter directory. *)
Definition grow_pages (pages : list (SeriesPage V)) (page_index : Z) : list (SeriesPage V) :=
  pages ++ replicate (Z.to_nat (page_index + 1) - length pages) (Sparse []).

Definition adaptive_insert_new t (series : Z) (value : V) : option (result V unit * AdaptiveSeriesTable V) :=
  match paged_slot series with
  | None =>
      Some (match as_sparse t !! series with
            | Some _ => (Err value, t)
            | None => (Ok tt, mk_adaptive (as_pages t) (<[series := value]> (as_sparse t)) (as_len t + 1) (as_sparse_pages t)
                                (as_refs_above_paged_limit t + 1) (as_direct_pages t) (as_direct_series t))
            end)
  | Some (page_index, slot) =>
      let pages := grow_pages (as_pages t) page_index in
      page ← pages !! Z.to_nat page_index;
      match page with
      | Direct p =>
          '(r, p) ← page_insert_new p slot value;
          let pages := <[Z.to_nat page_index := Direct p]> pages in
          Some (match r with
                | Err value => (Err value, with_pages t pages (as_sparse t))
                | Ok _ => (Ok tt, mk_adaptive pages (as_sparse t) (as_len t + 1) (as_sparse_pages t)
                                    (as_refs_above_paged_limit t) (as_direct_pages t) (as_direct_series t + 1))
                end)
      | Sparse occupied_slots =>
          match as_sparse t !! series with
          | Some _ => Some (Err value, with_pages t pages (as_sparse t))
          | None =>
              let sparse_pages := as_sparse_pages t + if bool_decide (occupied_slots = []) then 1 else 0 in
              let occupied_slots := occupied_slots ++ [slot `mod` 65536] in
              let t := mk_adaptive (<[Z.to_nat page_index := Sparse occupied_slots]> pages) (<[series := value]> (as_sparse t))
                         (as_len t + 1) sparse_pages (as_refs_above_paged_limit t) (as_direct_pages t) (as_direct_series t) in
              if zlen occupied_slots =? DIRECT_PAGE_THRESHOLD then t ← promote_page t page_index; Some (Ok tt, t)
              else Some (Ok tt, t)
          end
      end
  end.

Definition adaptive_stats t : HeadSeriesTableStats :=
  mk_table_stats true (as_len t) (zlen (as_pages t)) (as_sparse_pages t) (Z.of_nat (size (as_sparse t))) (as_refs_above_paged_limit t)
    (as_direct_pages t) (as_direct_series t) (Z.min usize_max (as_direct_pages t * PAGE_LEN * 2)).

Definition sparse_page_count (page : SeriesPage V) : Z :=
  match page with Sparse occupied_slots => if bool_decide (occupied_slots = []) then 0 else 1 | Direct _ => 0 end.
Definition direct_page_count (page : SeriesPage V) : Z := match page with Sparse _ => 0 | Direct _ => 1 end.
Definition direct_series_count (page : SeriesPage V) : Z := match page with Sparse _ => 0 | Direct p => zlen (dp_values p) end.
Definition slot_index_bytes (page : SeriesPage V) : Z := match page with Sparse _ => 0 | Direct p => zlen (dp_slot_indexes p) * 2 end.
Definition refs_above (m : gmap Z V) : Z := Z.of_nat (size (filter (λ kv : Z * V, PAGED_REF_LIMIT ≤ kv.1) m)).

(** The same counters, recomputed from the containers. *)
Definition scanned_stats t : HeadSeriesTableStats :=
  mk_table_stats true (as_len t) (zlen (as_pages t)) (zsum sparse_page_count (as_pages t)) (Z.of_nat (size (as_sparse t)))
    (refs_above (as_sparse t)) (zsum direct_page_count (as_pages t)) (zsum direct_series_count (as_pages t))
    (zsum slot_index_bytes (as_pages t)).

(** ** Iterators: the hash map first, then the direct pages in order *)

Section iterator.
Context {A : Type} (direct_items : Z → DirectSeriesPage V → list A).

(** [pages] counts from [page_index]; [direct] is the rest of the current page. *)
Record AdaptiveIter := mk_iter {
  it_sparse : list A;
  it_pages : list (SeriesPage V);
  it_page_index : Z;
  it_direct : option (list A);
  it_remaining : Z;
}.

Fixpoint iter_loop (pages : list (SeriesPage V)) (page_index : Z) (direct : option (list A)) (remaining : Z) : option A * AdaptiveIter :=
  match direct with
  | Some (x :: rest) => (Some x, mk_iter [] pages page_index (Some rest) (remaining - 1))
  | _ =>
      match pages with
      | [] => (None, mk_iter [] [] page_index None remaining)
      | page :: pages =>
          iter_loop pages (page_index + 1) (match page with Direct p => Some (direct_items page_index p) | Sparse _ => None end) remaining
      end
  end.
Definition iter_next (it : AdaptiveIter) : option A * AdaptiveIter :=
  match it_sparse it with
  | x :: rest => (Some x, mk_iter rest (it_pages it) (it_page_index it) (it_direct it) (it_remaining it - 1))
  | [] => iter_loop (it_pages it) (it_page_index it) (it_direct it) (it_remaining it)
  end.
Definition size_hint (it : AdaptiveIter) : Z * option Z := (it_remaining it, Some (it_remaining it)).

(** Calls [next] until it gives nothing; with the size hint before every call. *)
Fixpoint drain_iter (fuel : nat) (it : AdaptiveIter) : option (list (A * (Z * option Z))) :=
  match fuel with
  | O => None
  | S fuel =>
      let hint := size_hint it in
      match iter_next it with
      | (None, _) => Some []
      | (Some x, it) => rest ← drain_iter fuel it; Some ((x, hint) :: rest)
      end
  end.
End iterator.

Definition entry_items (page_index : Z) p : list (Z * V) :=
  (λ sv, (page_index * PAGE_LEN + sv.1, sv.2)) <$> zip (dp_reverse_slots p) (dp_values p).
Definition value_items (_ : Z) p : list V := dp_values p.

Definition adaptive_iter `{TableOrder} t : AdaptiveIter (A:=Z * V) := mk_iter (entries (as_sparse t)) (as_pages t) 0 None (as_len t).
Definition adaptive_values `{TableOrder} t : AdaptiveIter (A:=V) := mk_iter (entries (as_sparse t)).*2 (as_pages t) 0 None (as_len t).

(** Writing [f] through every reference of [values_mut]. *)
Definition adaptive_values_mut (f : V → V) t : AdaptiveSeriesTable V :=
  with_pages t
    ((λ page, match page with
              | Sparse occupied_slots => Sparse occupied_slots
              | Direct p => Direct (mk_direct (dp_slot_indexes p) (dp_reverse_slots p) (f <$> dp_values p))
              end) <$> as_pages t)
    (f <$> as_sparse t).

(** ** The table *)

Definition table_new (adaptive : bool) : HeadSeriesTable V := if adaptive then Adaptive adaptive_default else Plain ∅ 0.
Definition table_len (s : HeadSeriesTable V) : Z :=
  match s with Plain values _ => Z.of_nat (size values) | Adaptive t => as_len t end.
Definition table_is_empty (s : HeadSeriesTable V) : bool := table_len s =? 0.
Definition table_get (s : HeadSeriesTable V) (series : Z) : option (option V) :=
  match s with Plain values _ => Some (values !! series) | Adaptive t => adaptive_get t series end.
Definition table_modify (f : V → V) (s : HeadSeriesTable V) (series : Z) : option (option V * HeadSeriesTable V) :=
  match s with
  | Plain values above => Some (values !! series, Plain (alter f series values) above)
  | Adaptive t => '(old, t) ← adaptive_modify f t series; Some (old, Adaptive t)
  end.
Definition table_insert_new (s : HeadSeriesTable V) (series : Z) (value : V) : option (result V unit * HeadSeriesTable V) :=
  match s with
  | Plain values above =>
      Some (match values !! series with
            | Some _ => (Err value, s)
            | None => (Ok tt, Plain (<[series := value]> values) (if PAGED_REF_LIMIT <=? series then above + 1 else above))
            end)
  | Adaptive t => '(r, t) ← adaptive_insert_new t series value; Some (r, Adaptive t)
  end.
Definition table_values_mut (f : V → V) (s : HeadSeriesTable V) : HeadSeriesTable V :=
  match s with Plain values above => Plain (f <$> values) above | Adaptive t => Adaptive (adaptive_values_mut f t) end.
Definition table_stats (s : HeadSeriesTable V) : HeadSeriesTableStats :=
  match s with
  | Plain values above => mk_table_stats false (Z.of_nat (size values)) 0 0 (Z.of_nat (size values)) above 0 0 0
  | Adaptive t => adaptive_stats t
  end.
End table.

(** ** Direct pages are maps from slots *)

Section page_spec.
Context {V : Type}.
Implicit Types (p : DirectSeriesPage V).
Abbreviation in_page slot := (0 ≤ slot < PAGE_LEN).

Definition page_entries p : list (Z * V) := zip (dp_reverse_slots p) (dp_values p).
Definition page_map p : gmap Z V := list_to_map (page_entries p).

Record page_ok p : Prop := {
  po_slots : length (dp_slot_indexes p) = Z.to_nat PAGE_LEN;
  po_values : length (dp_reverse_slots p) = length (dp_values p);
  po_index slot i : in_page slot → dp_slot_indexes p !! Z.to_nat slot = Some i → i = INVALID_VALUE_INDEX ∨ 0 ≤ i ∧ dp_reverse_slots p !! Z.to_nat i = Some slot;
  po_reverse j slot : dp_reverse_slots p !! j = Some slot → in_page slot ∧ dp_slot_indexes p !! Z.to_nat slot = Some (Z.of_nat j);
}.

Lemma direct_with_capacity_ok : page_ok (direct_with_capacity (V:=V)) ∧ page_map direct_with_capacity = ∅.
Proof.
  split; [|done]. split; [apply length_replicate|done| |done]. intros slot i _ [-> _]%lookup_replicate. by left.
Qed.

Lemma page_nodup p : page_ok p → NoDup (dp_reverse_slots p) ∧ zlen (dp_values p) ≤ PAGE_LEN.
Proof.
  intros Hp. assert (NoDup (dp_reverse_slots p)) as Hnd.
  { apply NoDup_alt. intros i j slot Hi Hj. apply (po_reverse _ Hp) in Hi as [_ Hi], Hj as [_ Hj]. rewrite Hi in Hj. injection Hj. lia. }
  split; [done|]. assert (Forall (λ x, in_page x) (dp_reverse_slots p)) as Hr.
  { apply Forall_forall. intros slot [j Hj]%list_elem_of_lookup. by apply (po_reverse _ Hp) in Hj as [? _]. }
  pose proof (nodup_bounded _ _ Hnd Hr) as Hb. unfold zlen in *. rewrite (po_values _ Hp) in Hb. change PAGE_LEN with 4096 in *. lia.
Qed.
Lemma page_entries_fst p : page_ok p → (page_entries p).*1 = dp_reverse_slots p.
Proof. intros Hp. apply fst_zip. rewrite (po_values _ Hp). done. Qed.
Lemma page_entries_nodup p : page_ok p → NoDup (page_entries p).*1.
Proof. intros Hp. rewrite page_entries_fst by done. by apply page_nodup. Qed.
Lemma page_entries_elem p slot v : page_ok p → (slot, v) ∈ page_entries p ↔ page_map p !! slot = Some v.
Proof. intros Hp. apply elem_of_list_to_map. by apply page_entries_nodup. Qed.

(** The index of a slot is that of its value. *)
Lemma page_index p slot : page_ok p → in_page slot → ∃ i, dp_slot_indexes p !! Z.to_nat slot = Some i ∧
  match page_map p !! slot with
  | None => i = INVALID_VALUE_INDEX
  | Some v => i ≠ INVALID_VALUE_INDEX ∧ 0 ≤ i ∧ dp_values p !! Z.to_nat i = Some v ∧ dp_reverse_slots p !! Z.to_nat i = Some slot
  end.
Proof.
  intros Hp Hs. destruct (lookup_lt_is_Some_2 (dp_slot_indexes p) (Z.to_nat slot)) as [i Hi].
  { rewrite (po_slots _ Hp). change PAGE_LEN with 4096 in *. lia. }
  exists i. split; [done|]. destruct (page_map p !! slot) as [v|] eqn:Hv.
  - apply page_entries_elem in Hv; [|done]. apply list_elem_of_lookup in Hv as [j Hj]. unfold page_entries in Hj.
    apply lookup_zip_Some in Hj as [Hr Hj]. destruct (po_reverse _ Hp j slot Hr) as [_ Hij]. rewrite Hi in Hij. injection Hij as ->.
    destruct (page_nodup p Hp) as [_ Hlen]. apply lookup_lt_Some in Hj as Hlt. unfold zlen in Hlen. change PAGE_LEN with 4096 in Hlen.
    unfold INVALID_VALUE_INDEX. rewrite Nat2Z.id. split; [lia|]. split; [lia|done].
  - destruct (po_index _ Hp slot i Hs Hi) as [->|[Hi0 Hr]]; [done|]. exfalso.
    destruct (lookup_lt_is_Some_2 (dp_values p) (Z.to_nat i)) as [v Hl]; [rewrite <- (po_values _ Hp); by eapply lookup_lt_Some|].
    assert ((slot, v) ∈ page_entries p) as Hin.
    { apply list_elem_of_lookup. exists (Z.to_nat i). unfold page_entries. by apply lookup_zip_Some. }
    apply page_entries_elem in Hin; [|done]. congruence.
Qed.

Lemma page_get_ok p slot : page_ok p → in_page slot → page_get p slot = Some (page_map p !! slot).
Proof.
  intros Hp Hs. destruct (page_index p slot Hp Hs) as (i & Hi & Hm). unfold page_get. rewrite Hi. cbn.
  destruct (page_map p !! slot); [|by rewrite Hm]. destruct Hm as (Hne & _ & Hv & _). by rewrite (proj2 (Z.eqb_neq _ _)), Hv.
Qed.

Lemma page_insert_ok p slot v : page_ok p → in_page slot →
  page_insert_new p slot v = Some (match page_map p !! slot with Some _ => (Err v, p) | None =>
    (Ok tt, mk_direct (<[Z.to_nat slot := zlen (dp_values p)]> (dp_slot_indexes p)) (dp_reverse_slots p ++ [slot]) (dp_values p ++ [v])) end).
Proof.
  intros Hp Hs. destruct (page_index p slot Hp Hs) as (i & Hi & Hm). unfold page_insert_new. rewrite Hi. cbn.
  destruct (page_nodup p Hp) as [_ Hlen]. pose proof (zlen_nonneg (dp_values p)). change PAGE_LEN with 4096 in *.
  destruct (page_map p !! slot); [destruct Hm as (Hne & _); by rewrite (proj2 (Z.eqb_neq _ _))|]. rewrite Hm. cbn. by rewrite !Z.mod_small by lia.
Qed.
Lemma page_insert_map p slot v : page_ok p → in_page slot → page_map p !! slot = None →
  let p' := mk_direct (<[Z.to_nat slot := zlen (dp_values p)]> (dp_slot_indexes p)) (dp_reverse_slots p ++ [slot]) (dp_values p ++ [v]) in
  page_ok p' ∧ page_map p' = <[slot := v]> (page_map p).
Proof.
  intros Hp Hs Hn p'. assert (∀ j, dp_reverse_slots p !! j ≠ Some slot) as Hfresh.
  { intros j Hj. destruct (lookup_lt_is_Some_2 (dp_values p) j) as [x Hx]; [rewrite <- (po_values _ Hp); by eapply lookup_lt_Some|].
    assert ((slot, x) ∈ page_entries p) as Hin by (apply list_elem_of_lookup; exists j; unfold page_entries; by apply lookup_zip_Some).
    apply page_entries_elem in Hin; [|done]. congruence. }
  assert (Z.to_nat slot < length (dp_slot_indexes p))%nat as Hlt by (rewrite (po_slots _ Hp); change PAGE_LEN with 4096 in *; lia).
  split; [split|].
  - cbn. by rewrite length_insert, (po_slots _ Hp).
  - cbn. by rewrite !length_app, (po_values _ Hp).
  - intros slot' i Hs'. cbn [p' dp_slot_indexes dp_reverse_slots]. destruct (decide (slot' = slot)) as [->|Hne].
    + rewrite list_lookup_insert_eq by done. intros [= <-]. right. split; [apply zlen_nonneg|]. unfold zlen. rewrite Nat2Z.id.
      by rewrite <- (po_values _ Hp), lookup_app_r, Nat.sub_diag.
    + rewrite list_lookup_insert_ne by lia. intros Hi. destruct (po_index _ Hp slot' i Hs' Hi) as [?|[? Hr]]; [by left|right].
      split; [done|]. by apply lookup_app_l_Some.
  - intros j slot'. cbn [p' dp_slot_indexes dp_reverse_slots]. intros [Hj|[Hle Hj]]%lookup_app_Some.
    + destruct (po_reverse _ Hp j slot' Hj) as [Hs' Hi]. split; [done|]. rewrite list_lookup_insert_ne; [done|].
      intros Heq. apply (Hfresh j). rewrite Hj. f_equal. lia.
    + apply list_lookup_singleton_Some in Hj as [Hj <-]. split; [done|]. rewrite list_lookup_insert_eq by done. f_equal.
      unfold zlen. rewrite <- (po_values _ Hp). lia.
  - unfold page_map, page_entries, p'. cbn [dp_reverse_slots dp_values]. rewrite zip_with_app by apply (po_values _ Hp).
    cbn [zip_with]. apply list_to_map_snoc. change (slot ∉ (page_entries p).*1). rewrite (page_entries_fst p Hp). intros [j Hj]%list_elem_of_lookup. by apply (Hfresh j).
Qed.

Lemma page_modify_ok f p slot : page_ok p → in_page slot → ∃ p', page_modify f p slot = Some (page_map p !! slot, p') ∧
  page_ok p' ∧ page_map p' = alter f slot (page_map p) ∧ length (dp_values p') = length (dp_values p).
Proof.
  intros Hp Hs. destruct (page_index p slot Hp Hs) as (i & Hi & Hm). unfold page_modify. rewrite Hi. cbn.
  destruct (page_map p !! slot) as [v|] eqn:Hv; cycle 1.
  { rewrite Hm. cbn. exists p. split; [done|]. split; [done|]. split; [|done]. apply map_eq. intros k.
    destruct (decide (slot = k)) as [<-|Hne]; [by rewrite lookup_alter_eq, Hv|by rewrite lookup_alter_ne]. }
  destruct Hm as (Hne & Hi0 & Hl & Hr). rewrite (proj2 (Z.eqb_neq _ _)) by done. rewrite Hl. cbn. eexists. split; [done|].
  match goal with |- page_ok ?x ∧ _ => set (p' := x) end.
  assert (page_ok p') as Hp' by (split; [apply Hp|cbn; rewrite length_insert; apply Hp|apply Hp|apply Hp]). split; [done|].
  split; [|cbn; by rewrite length_insert]. apply map_eq. intros k. apply option_eq. intros x.
  rewrite <- page_entries_elem by done. rewrite list_elem_of_lookup.
  setoid_rewrite lookup_zip_Some. cbn [p' dp_values dp_reverse_slots]. split.
  - intros (j & Hj & Hx). destruct (decide (slot = k)) as [<-|Hk].
    + rewrite lookup_alter_eq, Hv. cbn. pose proof (NoDup_lookup _ _ _ _ (proj1 (page_nodup p Hp)) Hj Hr) as ->.
      rewrite list_lookup_insert_eq in Hx by (by eapply lookup_lt_Some). done.
    + rewrite lookup_alter_ne by done. apply page_entries_elem; [done|]. apply list_elem_of_lookup. exists j. apply lookup_zip_Some.
      split; [done|]. rewrite list_lookup_insert_ne in Hx; [done|]. intros <-. rewrite Hr in Hj. congruence.
  - destruct (decide (slot = k)) as [<-|Hk].
    + rewrite lookup_alter_eq, Hv. cbn. intros [= <-]. exists (Z.to_nat i). split; [done|]. apply list_lookup_insert_eq. by eapply lookup_lt_Some.
    + rewrite lookup_alter_ne by done. intros Hx. apply page_entries_elem in Hx; [|done]. apply list_elem_of_lookup in Hx as [j Hj].
      unfold page_entries in Hj. apply lookup_zip_Some in Hj as [Hj Hx]. exists j. split; [done|].
      rewrite list_lookup_insert_ne; [done|]. intros <-. rewrite Hr in Hj. congruence.
Qed.

Lemma page_fmap_ok f p : page_ok p → let p' := mk_direct (dp_slot_indexes p) (dp_reverse_slots p) (f <$> dp_values p) in
  page_ok p' ∧ page_map p' = f <$> page_map p.
Proof.
  intros Hp p'. split; [split; [apply Hp|cbn; rewrite length_fmap; apply Hp|apply Hp|apply Hp]|].
  unfold page_map, page_entries, p'. cbn [dp_reverse_slots dp_values]. rewrite <- list_to_map_fmap. f_equal.
  generalize (dp_values p). induction (dp_reverse_slots p) as [|s l IH]; intros [|v vs]; cbn; [done..|]. f_equal. apply IH.
Qed.
End page_spec.

(** ** Addresses *)

Lemma page_mask_mod s : Z.land s PAGE_MASK = s `mod` PAGE_LEN.
Proof. change PAGE_MASK with (Z.ones 12). by apply Z.land_ones. Qed.
Lemma page_shift_div s : Z.shiftr s PAGE_SHIFT = s / PAGE_LEN.
Proof. change PAGE_SHIFT with 12. by rewrite Z.shiftr_div_pow2. Qed.
Lemma paged_slot_spec s : 0 ≤ s → paged_slot s = if s <? PAGED_REF_LIMIT then Some (s / PAGE_LEN, s `mod` PAGE_LEN) else None.
Proof. intros Hs. unfold paged_slot. by rewrite page_mask_mod, page_shift_div. Qed.
(** A reference is its page and its slot. *)
Lemma address_split s : 0 ≤ s → 0 ≤ s / PAGE_LEN ∧ 0 ≤ s `mod` PAGE_LEN < PAGE_LEN ∧ s = s / PAGE_LEN * PAGE_LEN + s `mod` PAGE_LEN.
Proof.
  intros Hs. change PAGE_LEN with 4096. pose proof (Z.div_mod s 4096 ltac:(lia)). pose proof (Z.mod_pos_bound s 4096 ltac:(lia)).
  assert (0 ≤ s / 4096) by (apply Z.div_pos; lia). lia.
Qed.
Lemma address_join page slot : 0 ≤ slot < PAGE_LEN → (page * PAGE_LEN + slot) / PAGE_LEN = page ∧ (page * PAGE_LEN + slot) `mod` PAGE_LEN = slot.
Proof.
  change PAGE_LEN with 4096. intros Hs. split; [rewrite Z.div_add_l, Z.div_small by lia; lia|].
  rewrite Z.add_comm, Z.mod_add, Z.mod_small by lia. lia.
Qed.
Lemma address_page i s : 0 ≤ s → s / PAGE_LEN = Z.of_nat i ↔ ∃ slot, 0 ≤ slot < PAGE_LEN ∧ s = Z.of_nat i * PAGE_LEN + slot.
Proof.
  intros Hs. destruct (address_split s Hs) as (_ & Hm & Heq). split; [intros <-; by exists (s `mod` PAGE_LEN)|].
  intros (slot & Hslot & ->). by apply address_join.
Qed.

(** ** The adaptive table is a finite map *)

Section table_spec.
Context {V : Type}.
Implicit Types (t : AdaptiveSeriesTable V) (p : DirectSeriesPage V) (m : gmap Z V) (pages : list (SeriesPage V)).
Abbreviation in_page slot := (0 ≤ slot < PAGE_LEN).

(** The table holds the map [m].  [full] is a page about to be promoted. *)
Record table_rep (full : option nat) t m : Prop := {
  rep_keys s v : m !! s = Some v → in_u32 s;
  rep_page_count : zlen (as_pages t) ≤ 4096;
  rep_directory s v : m !! s = Some v → s < PAGED_REF_LIMIT → s / PAGE_LEN < zlen (as_pages t);
  rep_direct i p : as_pages t !! i = Some (Direct p) → page_ok p ∧ ∀ slot, in_page slot →
    page_map p !! slot = m !! (Z.of_nat i * PAGE_LEN + slot) ∧ as_sparse t !! (Z.of_nat i * PAGE_LEN + slot) = None;
  rep_occupied i occ : as_pages t !! i = Some (Sparse occ) → NoDup occ ∧ (full ≠ Some i → zlen occ < DIRECT_PAGE_THRESHOLD) ∧
    ∀ slot, slot ∈ occ ↔ in_page slot ∧ is_Some (m !! (Z.of_nat i * PAGE_LEN + slot));
  rep_sparse s : 0 ≤ s → direct_page t s = None → as_sparse t !! s = m !! s;
  rep_sparse_keys s v : as_sparse t !! s = Some v → m !! s = Some v;
  rep_len : as_len t = Z.of_nat (size m);
  rep_sparse_pages : as_sparse_pages t = zsum sparse_page_count (as_pages t);
  rep_above : as_refs_above_paged_limit t = refs_above (as_sparse t);
  rep_direct_pages : as_direct_pages t = zsum direct_page_count (as_pages t);
  rep_direct_series : as_direct_series t = zsum direct_series_count (as_pages t);
}.

Lemma adaptive_default_rep : table_rep None (adaptive_default (V:=V)) ∅.
Proof. split; try done; intros *; rewrite ?lookup_empty, ?lookup_nil; done. Qed.

Lemma direct_page_spec t s page slot p : 0 ≤ s → direct_page t s = Some (page, slot, p) ↔
  s < PAGED_REF_LIMIT ∧ page = s / PAGE_LEN ∧ slot = s `mod` PAGE_LEN ∧ as_pages t !! Z.to_nat page = Some (Direct p).
Proof.
  intros Hs. unfold direct_page. rewrite paged_slot_spec by done. destruct (Z.ltb_spec s PAGED_REF_LIMIT) as [Hlt|]; cbn.
  - destruct (as_pages t !! Z.to_nat (s / PAGE_LEN)) as [[occ|p']|] eqn:Hp; (split; [try done|]).
    + intros (_ & -> & -> & Hp'). congruence.
    + intros [= <- <- <-]. done.
    + intros (_ & -> & -> & Hp'). congruence.
    + intros (_ & -> & -> & Hp'). congruence.
  - split; [done|]. lia.
Qed.
(** What a direct page says of its references. *)
Lemma rep_direct_at full t m s page slot p : table_rep full t m → 0 ≤ s → direct_page t s = Some (page, slot, p) →
  page_ok p ∧ in_page slot ∧ page_map p !! slot = m !! s ∧ as_sparse t !! s = None.
Proof.
  intros Hr Hs (_ & -> & -> & Hp)%direct_page_spec; [|done]. destruct (address_split s Hs) as (H0 & Hm & Heq).
  destruct (rep_direct _ _ _ Hr _ _ Hp) as [Hok Hl]. destruct (Hl (s `mod` PAGE_LEN) Hm) as [Hl1 Hl2].
  rewrite Z2Nat.id, <- Heq in Hl1, Hl2 by done. done.
Qed.

Lemma adaptive_get_ok full t m s : table_rep full t m → 0 ≤ s → adaptive_get t s = Some (m !! s).
Proof.
  intros Hr Hs. unfold adaptive_get. destruct (direct_page t s) as [[[page slot] p]|] eqn:Hd; [|by rewrite (rep_sparse _ _ _ Hr)].
  destruct (rep_direct_at _ _ _ _ _ _ _ Hr Hs Hd) as (Hok & Hslot & <- & _). by apply page_get_ok.
Qed.

(** An empty page more or less. *)
Lemma grow_pages_lookup pages n i : 0 ≤ n → grow_pages (V:=V) pages n !! i =
  match pages !! i with Some page => Some page | None => if decide (i ≤ Z.to_nat n)%nat then Some (Sparse []) else None end.
Proof.
  intros Hn. unfold grow_pages. destruct (pages !! i) as [page|] eqn:Hi; [by apply lookup_app_l_Some|].
  apply lookup_ge_None in Hi as Hlen. rewrite lookup_app_r by done. case_decide.
  - apply lookup_replicate. split; [done|]. lia.
  - apply lookup_replicate_None. lia.
Qed.
Lemma rep_grow t m n : table_rep None t m → 0 ≤ n < 4096 → table_rep None (with_pages t (grow_pages (as_pages t) n) (as_sparse t)) m.
Proof.
  intros Hr Hn. destruct Hr as [Hk Hpc Hdir Hd Hocc Hsp Hspk Hlen Hsps Hab Hdp Hds].
  assert (∀ g, g (Sparse []) = 0 → zsum g (grow_pages (as_pages t) n) = zsum g (as_pages t)) as Hsum.
  { intros g Hg. unfold grow_pages. rewrite zsum_app, zsum_replicate by done. lia. }
  assert (∀ i p, grow_pages (as_pages t) n !! i = Some (Direct p) ↔ as_pages t !! i = Some (Direct p)) as Hdirect.
  { intros i p. rewrite grow_pages_lookup by lia. destruct (as_pages t !! i); [done|]. case_decide; done. }
  split; cbn [with_pages as_pages as_sparse as_len as_sparse_pages as_refs_above_paged_limit as_direct_pages as_direct_series]; try done.
  - unfold grow_pages, zlen in *. rewrite length_app, length_replicate. lia.
  - intros s v Hs Hlt. specialize (Hdir s v Hs Hlt). unfold grow_pages. rewrite zlen_app. pose proof (zlen_nonneg (replicate (Z.to_nat (n + 1) - length (as_pages t)) (@Sparse V []))). lia.
  - intros i p Hp. apply Hd. by apply Hdirect.
  - intros i occ. rewrite grow_pages_lookup by lia. destruct (as_pages t !! i) as [page|] eqn:Hi; [intros [= ->]; by apply Hocc|].
    case_decide; [|done]. intros [= <-]. split; [apply NoDup_nil_2|]. split; [done|]. intros slot. split; [by intros ?%not_elem_of_nil|].
    intros [Hslot [v Hv]]. exfalso. apply lookup_ge_None in Hi. destruct (Hk _ _ Hv) as [Hs0 _]. destruct (address_join (Z.of_nat i) slot Hslot) as [Hq _].
    destruct (Z.lt_ge_cases (Z.of_nat i * PAGE_LEN + slot) PAGED_REF_LIMIT) as [Hlt|Hge].
    + specialize (Hdir _ _ Hv Hlt). rewrite Hq in Hdir. unfold zlen in Hdir. lia.
    + apply (Z.le_ge PAGED_REF_LIMIT) in Hge. change PAGED_REF_LIMIT with (4096 * 4096) in Hge. change PAGE_LEN with 4096 in *. lia.
  - intros s Hs Hnone. apply Hsp; [done|]. destruct (direct_page t s) as [[[page slot] p]|] eqn:He; [|done].
    apply direct_page_spec in He as (? & ? & ? & Hp); [|done]. rewrite <- Hnone. symmetry. apply direct_page_spec; [done|]. split_and!; [done..|]. by apply Hdirect.
  - by rewrite Hsum.
  - by rewrite Hsum.
  - by rewrite Hsum.
Qed.

(** The slots promoted move from the hash map to the page. *)
Lemma promote_slots_ok first occ : ∀ sparse p, NoDup occ → Forall (λ slot, in_page slot) occ → (∀ slot, slot ∈ occ → is_Some (sparse !! (first + slot))) →
  page_ok p → (∀ slot, slot ∈ occ → page_map p !! slot = None) → (∀ slot, slot ∈ occ → first + slot < PAGED_REF_LIMIT) →
  ∃ sparse' p', promote_slots first occ sparse p = Some (sparse', p') ∧ page_ok p' ∧ zlen (dp_values p') = zlen (dp_values p) + zlen occ ∧
    (∀ s, sparse' !! s = if decide (s - first ∈ occ) then None else sparse !! s) ∧ refs_above sparse' = refs_above sparse ∧
    ∀ slot, page_map p' !! slot = if decide (slot ∈ occ) then sparse !! (first + slot) else page_map p !! slot.
Proof.
  induction occ as [|slot occ IH]; intros sparse p Hnd Hin Hsome Hp Hnone Hlt.
  { exists sparse, p. split; [done|]. split; [done|]. split; [rewrite zlen_nil; lia|]. split_and!; [|done|]; intros; by rewrite decide_False by apply not_elem_of_nil. }
  apply NoDup_cons in Hnd as [Hni Hnd]. apply Forall_cons_1 in Hin as [Hslot Hin].
  destruct (Hsome slot ltac:(by left)) as [v Hv]. pose proof (Hnone slot ltac:(by left)) as Hn0. cbn [promote_slots]. rewrite Hv. cbn [mbind option_bind].
  rewrite page_insert_ok, Hn0 by done. cbn [mbind option_bind]. destruct (page_insert_map p slot v Hp Hslot Hn0) as [Hp1 Hm1].
  set (p1 := mk_direct _ _ _) in *.
  destruct (IH (delete (first + slot) sparse) p1) as (sparse' & p' & -> & Hp' & Hz & Hs' & Ha' & Hm'); [done|done|..].
  { intros s Hs. rewrite lookup_delete_ne; [apply Hsome; by right|]. intros Heq. assert (s = slot) as -> by lia. done. }
  { done. }
  { intros s Hs. rewrite Hm1, lookup_insert_ne; [apply Hnone; by right|]. by intros ->. }
  { intros s Hs. apply Hlt. by right. }
  exists sparse', p'. split; [done|]. split; [done|]. split; [rewrite Hz, zlen_cons; unfold p1; cbn [dp_values]; rewrite zlen_app; change (zlen [v]) with 1; lia|]. split_and!.
  - intros s. rewrite Hs'. destruct (decide (s - first ∈ occ)) as [Hs|Hs]; [by rewrite decide_True by (by right)|].
    destruct (decide (s = first + slot)) as [->|Hne].
    + rewrite lookup_delete_eq, decide_True; [done|]. rewrite Z.add_simpl_l. by left.
    + rewrite lookup_delete_ne by done. rewrite decide_False; [done|]. intros [?|?]%elem_of_cons; [lia|done].
  - rewrite Ha'. unfold refs_above. rewrite map_filter_delete_not; [done|]. intros y Hy. cbn. pose proof (Hlt slot ltac:(by left)). lia.
  - intros s. rewrite Hm', Hm1. destruct (decide (s ∈ occ)) as [Hs|Hs].
    + rewrite decide_True by (by right). apply lookup_delete_ne. intros Heq. assert (s = slot) as -> by lia. done.
    + destruct (decide (s = slot)) as [->|Hne]; [by rewrite lookup_insert_eq, decide_True by (by left)|]. rewrite lookup_insert_ne by done.
      rewrite decide_False; [done|]. by intros [?|?]%elem_of_cons.
Qed.

Lemma promote_page_ok t m page occ : table_rep (Some (Z.to_nat page)) t m → 0 ≤ page < 4096 → as_pages t !! Z.to_nat page = Some (Sparse occ) → occ ≠ [] →
  ∃ t', promote_page t page = Some t' ∧ table_rep None t' m.
Proof.
  intros Hr Hpage Hocc Hne. destruct Hr as [Hk Hpc Hdir Hd Ho Hsp Hspk Hlen Hsps Hab Hdp Hds]. unfold promote_page. rewrite Hocc.
  destruct (Ho _ _ Hocc) as (Hnd & _ & Hin). rewrite Z2Nat.id in Hin by lia. destruct (direct_with_capacity_ok (V:=V)) as [Hp0 Hm0].
  assert (Forall (λ slot, in_page slot) occ) as Hall by (apply Forall_forall; intros slot Hs; by apply Hin).
  assert (∀ slot, in_page slot → page * PAGE_LEN + slot < PAGED_REF_LIMIT) as Hlt.
  { intros slot Hs. change PAGED_REF_LIMIT with (4096 * 4096). change PAGE_LEN with 4096 in *. lia. }
  assert (∀ slot, in_page slot → as_sparse t !! (page * PAGE_LEN + slot) = m !! (page * PAGE_LEN + slot)) as Hsparse.
  { intros slot Hs. apply Hsp; [change PAGE_LEN with 4096 in *; lia|]. destruct (direct_page t _) as [[[pg sl] p]|] eqn:He; [|done].
    apply direct_page_spec in He as (_ & -> & _ & Hp); [|change PAGE_LEN with 4096 in *; lia]. destruct (address_join page slot Hs) as [Hq _]. rewrite Hq in Hp. congruence. }
  destruct (promote_slots_ok (page * PAGE_LEN) occ (as_sparse t) direct_with_capacity) as (sparse' & p' & Hps & Hp' & Hz & Hs' & Ha' & Hm'); [done|done|..].
  { intros slot [Hs Hv]%Hin. by rewrite Hsparse. }
  { done. }
  { intros slot _. by rewrite Hm0, lookup_empty. }
  { intros slot [Hs _]%Hin. by apply Hlt. }
  rewrite Hps. cbn [mbind option_bind]. eexists. split; [done|]. pose proof (lookup_lt_Some _ _ _ Hocc) as Hltp.
  assert (∀ s, s - page * PAGE_LEN ∈ occ → sparse' !! s = None) as Hgone by (intros s Hs; by rewrite Hs', decide_True).
  split; cbn [as_pages as_sparse as_len as_sparse_pages as_refs_above_paged_limit as_direct_pages as_direct_series].
  - done.
  - unfold zlen in *. by rewrite length_insert.
  - intros s v Hv Hl. specialize (Hdir s v Hv Hl). unfold zlen in *. by rewrite length_insert.
  - intros i p. destruct (decide (i = Z.to_nat page)) as [->|Hi].
    + rewrite list_lookup_insert_eq by done. intros [= <-]. split; [done|]. intros slot Hs. rewrite Z2Nat.id by lia. rewrite Hm', Hs', Z.add_simpl_l, Hm0, lookup_empty.
      rewrite Hsparse by done. destruct (decide (slot ∈ occ)) as [|Hno]; [done|].
      destruct (m !! (page * PAGE_LEN + slot)) eqn:Hv; [|done]. exfalso. apply Hno, Hin. split; [done|by eexists].
    + rewrite list_lookup_insert_ne by done. intros Hp. destruct (Hd i p Hp) as [Hok Hl]. split; [done|]. intros slot Hs. destruct (Hl slot Hs) as [? Hn]. split; [done|].
      rewrite Hs'. by case_decide.
  - intros i occ'. destruct (decide (i = Z.to_nat page)) as [->|Hi]; [by rewrite list_lookup_insert_eq|]. rewrite list_lookup_insert_ne by done.
    intros Hi'. destruct (Ho i occ' Hi') as (? & Hb & ?). split; [done|]. split; [|done]. intros _. apply Hb. congruence.
  - intros s Hs Hnone. rewrite Hs'. destruct (address_split s Hs) as (Hq & Hmod & Heq).
    assert (direct_page t s = None) as Hnone0.
    { destruct (direct_page t s) as [[[pg sl] p]|] eqn:He; [|done]. apply direct_page_spec in He as (Hl & -> & -> & Hp); [|done].
      rewrite <- Hnone. symmetry. apply direct_page_spec; [done|]. split_and!; [done..|]. cbn. rewrite list_lookup_insert_ne; [done|]. intros Hi. rewrite <- Hi in Hp. congruence. }
    rewrite (Hsp s Hs Hnone0). case_decide as Hin0; [|done]. exfalso. apply Hin in Hin0 as [Hs0 _].
    assert (s / PAGE_LEN = page ∧ s `mod` PAGE_LEN = s - page * PAGE_LEN) as [Hq1 Hq2].
    { replace s with (page * PAGE_LEN + (s - page * PAGE_LEN)) at 1 2 by lia. by apply address_join. }
    assert (direct_page (mk_adaptive (<[Z.to_nat page:=Direct p']> (as_pages t)) sparse' (as_len t) (as_sparse_pages t - 1)
      (as_refs_above_paged_limit t) (as_direct_pages t + 1) (as_direct_series t + zlen occ)) s = Some (page, s - page * PAGE_LEN, p')) as Hsome; [|by rewrite Hsome in Hnone].
    apply direct_page_spec; [done|]. split; [specialize (Hlt _ Hs0); lia|]. split; [done|]. split; [done|]. cbn. by apply list_lookup_insert_eq.
  - intros s v. rewrite Hs'. case_decide; [done|]. apply Hspk.
  - done.
  - rewrite (zsum_insert _ _ _ _ _ Hocc), Hsps. cbn. rewrite bool_decide_eq_false_2 by done. lia.
  - by rewrite Ha'.
  - rewrite (zsum_insert _ _ _ _ _ Hocc), Hdp. cbn. lia.
  - rewrite (zsum_insert _ _ _ _ _ Hocc), Hds. cbn [direct_series_count]. rewrite Hz. change (zlen (dp_values direct_with_capacity)) with 0. lia.
Qed.

(** *** Insertion *)

Lemma address_eq i slot s : in_page slot → Z.of_nat i * PAGE_LEN + slot = s → i = Z.to_nat (s / PAGE_LEN) ∧ slot = s `mod` PAGE_LEN.
Proof. intros Hs <-. destruct (address_join (Z.of_nat i) slot Hs) as [-> ->]. by rewrite Nat2Z.id. Qed.

Lemma refs_above_insert m s v : m !! s = None → refs_above (<[s := v]> m) = refs_above m + (if PAGED_REF_LIMIT <=? s then 1 else 0).
Proof.
  intros Hs. unfold refs_above. destruct (Z.leb_spec PAGED_REF_LIMIT s).
  - rewrite map_filter_insert_True by done. rewrite map_size_insert_None; [lia|]. apply map_lookup_filter_None. by left.
  - rewrite map_filter_insert_not' ; [lia|cbn; lia|]. intros y Hy. by rewrite Hs in Hy.
Qed.

(** A reference above the paged ones. *)
Lemma rep_insert_above t m s v : table_rep None t m → in_u32 s → PAGED_REF_LIMIT ≤ s → m !! s = None →
  table_rep None (mk_adaptive (as_pages t) (<[s := v]> (as_sparse t)) (as_len t + 1) (as_sparse_pages t)
    (as_refs_above_paged_limit t + 1) (as_direct_pages t) (as_direct_series t)) (<[s := v]> m).
Proof.
  intros [Hk Hpc Hdir Hd Ho Hsp Hspk Hlen Hsps Hab Hdp Hds] Hu Hs Hn.
  assert (as_sparse t !! s = None) as Hsn by (destruct (as_sparse t !! s) eqn:E; [apply Hspk in E; congruence|done]).
  assert (∀ i slot page, as_pages t !! i = Some page → in_page slot → s ≠ Z.of_nat i * PAGE_LEN + slot) as Hne.
  { intros i slot page Hi%lookup_lt_Some Hslot ->. unfold zlen in Hpc. change PAGED_REF_LIMIT with (4096 * 4096) in Hs. change PAGE_LEN with 4096 in *. lia. }
  split; cbn [as_pages as_sparse as_len as_sparse_pages as_refs_above_paged_limit as_direct_pages as_direct_series].
  - intros s' v' [[<- _]|[_ ?]]%lookup_insert_Some; [done|by eapply Hk].
  - done.
  - intros s' v' [[<- _]|[_ ?]]%lookup_insert_Some; [lia|by eapply Hdir].
  - intros i p Hi. destruct (Hd i p Hi) as [Hok Hl]. split; [done|]. intros slot Hslot. rewrite !lookup_insert_ne by (by eapply Hne). by apply Hl.
  - intros i occ Hi. destruct (Ho i occ Hi) as (? & ? & Hl). split; [done|]. split; [done|]. intros slot. rewrite Hl.
    split; intros [Hslot Hx]; (split; [done|]); (rewrite lookup_insert_ne in * by (by eapply Hne)); done.
  - intros s' Hs' Hnone. destruct (decide (s = s')) as [<-|Hss]; [by rewrite !lookup_insert_eq|]. rewrite !lookup_insert_ne by done. by apply Hsp.
  - intros s' v' [[<- <-]|[? ?]]%lookup_insert_Some; [by rewrite lookup_insert_eq|]. rewrite lookup_insert_ne by done. by apply Hspk.
  - rewrite map_size_insert_None by done. lia.
  - done.
  - rewrite refs_above_insert, (proj2 (Z.leb_le _ _)) by done. lia.
  - done.
  - done.
Qed.

(** A slot of a page: directly, or in the hash map. *)
Lemma rep_insert_paged full t m s v page page' sparse' : let i := Z.to_nat (s / PAGE_LEN) in
  table_rep None t m → in_u32 s → s < PAGED_REF_LIMIT → m !! s = None → as_pages t !! i = Some page →
  match page, page' with
  | Direct p, Direct p' => page_ok p' ∧ page_map p' = <[s `mod` PAGE_LEN := v]> (page_map p) ∧ sparse' = as_sparse t
  | Sparse occ, Sparse occ' => occ' = occ ++ [s `mod` PAGE_LEN] ∧ sparse' = <[s := v]> (as_sparse t) ∧ (full ≠ Some i → zlen occ' < DIRECT_PAGE_THRESHOLD)
  | _, _ => False
  end →
  let pages := <[i := page']> (as_pages t) in
  table_rep full (mk_adaptive pages sparse' (as_len t + 1) (zsum sparse_page_count pages) (as_refs_above_paged_limit t) (as_direct_pages t)
    (zsum direct_series_count pages)) (<[s := v]> m).
Proof.
  intros i [Hk Hpc Hdir Hd Ho Hsp Hspk Hlen Hsps Hab Hdp Hds] Hu Hs Hn Hi Hpage pages. destruct Hu as [Hs0 Hs1].
  assert (as_sparse t !! s = None) as Hsn by (destruct (as_sparse t !! s) eqn:E; [apply Hspk in E; congruence|done]).
  destruct (address_split s Hs0) as (Hq & Hmod & Heq). pose proof (lookup_lt_Some _ _ _ Hi) as Hlt.
  assert (Z.of_nat i * PAGE_LEN + s `mod` PAGE_LEN = s) as Haddr by (unfold i; rewrite Z2Nat.id by done; lia).
  assert (∀ j slot, in_page slot → (j = i → slot ≠ s `mod` PAGE_LEN) → s ≠ Z.of_nat j * PAGE_LEN + slot) as Hne.
  { intros j slot Hslot Hj ->. destruct (address_eq j slot _ Hslot eq_refl) as [Hj1 Hj2]. by apply Hj. }
  assert (∀ x, zsum direct_page_count pages = x ↔ zsum direct_page_count (as_pages t) = x) as Hdps.
  { intros x. unfold pages. rewrite (zsum_insert _ _ _ _ _ Hi). destruct page, page'; try done; cbn; lia. }
  assert (∀ k, as_sparse t !! k = m !! k → sparse' !! k = <[s := v]> m !! k ∨ ∃ p, page = Direct p ∧ s = k) as Hsparse.
  { intros k Hk0. destruct (decide (s = k)) as [<-|Hsk].
    - rewrite lookup_insert_eq. destruct page, page'; try done; [|right; by eexists]. destruct Hpage as (_ & -> & _). left. by rewrite lookup_insert_eq.
    - rewrite lookup_insert_ne by done. left. destruct page, page'; try done; destruct Hpage as (_ & Hx). + destruct Hx as [-> _]. by rewrite lookup_insert_ne. + by destruct Hx as [_ ->]. }
  split; cbn [as_pages as_sparse as_len as_sparse_pages as_refs_above_paged_limit as_direct_pages as_direct_series].
  - intros s' v' [[<- _]|[_ ?]]%lookup_insert_Some; [done|by eapply Hk].
  - unfold pages, zlen in *. by rewrite length_insert.
  - intros s' v'. assert (zlen pages = zlen (as_pages t)) as -> by (unfold pages, zlen; by rewrite length_insert).
    intros [[<- _]|[_ ?]]%lookup_insert_Some; [|by eapply Hdir]. intros _. unfold zlen. unfold i in Hlt. lia.
  - intros j p. unfold pages. destruct (decide (i = j)) as [<-|Hij].
    + rewrite list_lookup_insert_eq by done. intros [= ->]. destruct page as [|p0]; [done|]. destruct Hpage as (Hok & Hm & ->). split; [done|].
      destruct (Hd i p0 Hi) as [_ Hl]. intros slot Hslot. rewrite Hm. split; [|by apply Hl].
      destruct (decide (slot = s `mod` PAGE_LEN)) as [->|Hsl]; [by rewrite Haddr, !lookup_insert_eq|].
      rewrite !lookup_insert_ne by (done || by apply Hne). by apply Hl.
    + rewrite list_lookup_insert_ne by done. intros Hj. destruct (Hd j p Hj) as [Hok Hl]. split; [done|]. intros slot Hslot.
      assert (s ≠ Z.of_nat j * PAGE_LEN + slot) as Hsj by (apply Hne; [done|congruence]). rewrite lookup_insert_ne by done. destruct (Hl slot Hslot) as [? Hl2].
      split; [done|]. destruct page, page'; try done; destruct Hpage as (_ & Hx); [destruct Hx as [-> _]; by rewrite lookup_insert_ne|by destruct Hx as [_ ->]].
  - intros j occ. unfold pages. destruct (decide (i = j)) as [<-|Hij].
    + rewrite list_lookup_insert_eq by done. intros [= ->]. destruct page as [occ0|]; [|done]. destruct Hpage as (-> & _ & Hb).
      destruct (Ho i occ0 Hi) as (Hnd & _ & Hl). assert (s `mod` PAGE_LEN ∉ occ0) as Hni by (intros [_ [x Hx]]%Hl; rewrite Haddr in Hx; congruence).
      split; [apply NoDup_app; split_and!; [done| |apply NoDup_singleton]; by intros x Hx ->%list_elem_of_singleton|]. split; [done|]. intros slot.
      rewrite elem_of_app, list_elem_of_singleton, Hl. destruct (decide (slot = s `mod` PAGE_LEN)) as [->|Hsl].
      * split; [|by right]. intros _. split; [done|]. rewrite Haddr, lookup_insert_eq. by eexists.
      * split; [intros [[Hslot Hx]|?]; [|done]|intros [Hslot Hx]; left]; (split; [done|]); rewrite lookup_insert_ne in * by (by apply Hne); done.
    + rewrite list_lookup_insert_ne by done. intros Hj. destruct (Ho j occ Hj) as (? & Hb & Hl). split; [done|]. split; [intros _; by apply Hb|]. intros slot. rewrite Hl.
      split; intros [Hslot Hx]; (split; [done|]); (rewrite lookup_insert_ne in * by (apply Hne; [done|congruence])); done.
  - intros s' Hs' Hnone. destruct (address_split s' Hs') as (Hq' & Hmod' & Heq').
    assert (∀ p', s' < PAGED_REF_LIMIT → pages !! Z.to_nat (s' / PAGE_LEN) ≠ Some (Direct p')) as Hnd.
    { intros p' Hl Hp. assert (direct_page (mk_adaptive pages sparse' (as_len t + 1) (zsum sparse_page_count pages) (as_refs_above_paged_limit t)
        (as_direct_pages t) (zsum direct_series_count pages)) s' = Some (s' / PAGE_LEN, s' `mod` PAGE_LEN, p')) as Hx; [by apply direct_page_spec|congruence]. }
    assert (direct_page t s' = None) as Hnone0.
    { destruct (direct_page t s') as [[[pg sl] p]|] eqn:He; [|done]. apply direct_page_spec in He as (Hl & -> & -> & Hp); [|done]. exfalso.
      destruct (decide (i = Z.to_nat (s' / PAGE_LEN))) as [Hii|Hii].
      - rewrite <- Hii, Hi in Hp. injection Hp as ->. destruct page' as [|p']; [done|]. apply (Hnd p' Hl). unfold pages. rewrite <- Hii. by apply list_lookup_insert_eq.
      - apply (Hnd p Hl). unfold pages. by rewrite list_lookup_insert_ne. }
    destruct (Hsparse s' (Hsp s' Hs' Hnone0)) as [?|(p & -> & <-)]; [done|]. destruct page' as [|p']; [done|]. exfalso. apply (Hnd p'); [done|].
    unfold pages. by apply list_lookup_insert_eq.
  - intros s' v' Hv. destruct (decide (s = s')) as [<-|Hss].
    + rewrite lookup_insert_eq. destruct page, page'; try done; destruct Hpage as (_ & Hx); [destruct Hx as [-> _]; by rewrite lookup_insert_eq in Hv|destruct Hx as [_ ->]; congruence].
    + rewrite lookup_insert_ne by done. apply Hspk. destruct page, page'; try done; destruct Hpage as (_ & Hx); [destruct Hx as [-> _]; by rewrite lookup_insert_ne in Hv|by destruct Hx as [_ ->]].
  - rewrite map_size_insert_None by done. lia.
  - done.
  - destruct page, page'; try done; destruct Hpage as (_ & Hx); [|by destruct Hx as [_ ->]]. destruct Hx as [-> _].
    rewrite refs_above_insert, (proj2 (Z.leb_gt _ _)) by done. lia.
  - rewrite Hdp. symmetry. by apply Hdps.
  - done.
Qed.

(** Inserting into a page that is there. *)
Lemma paged_insert_ok t m s v page : table_rep None t m → in_u32 s → s < PAGED_REF_LIMIT → as_pages t !! Z.to_nat (s / PAGE_LEN) = Some page →
  grow_pages (as_pages t) (s / PAGE_LEN) = as_pages t →
  ∃ t', adaptive_insert_new t s v = Some (if m !! s then Err v else Ok tt, t') ∧ table_rep None t' (if m !! s then m else <[s := v]> m).
Proof.
  intros Hr Hu Hs Hi Hgrow. pose proof Hu as [Hs0 Hs1]. destruct (address_split s Hs0) as (Hq & Hmod & Heq).
  unfold adaptive_insert_new. rewrite paged_slot_spec, (proj2 (Z.ltb_lt _ _)), Hgrow, Hi by done. cbn [mbind option_bind].
  destruct page as [occ|p].
  - assert (as_sparse t !! s = m !! s) as Hsp.
    { apply (rep_sparse _ _ _ Hr); [done|]. destruct (direct_page t s) as [[[pg sl] p]|] eqn:He; [|done].
      apply direct_page_spec in He as (_ & -> & _ & Hp); [|done]. congruence. }
    rewrite Hsp. destruct (m !! s) as [x|] eqn:Hx; [by exists (with_pages t (as_pages t) (as_sparse t)); destruct t|].
    assert (s `mod` PAGE_LEN `mod` 65536 = s `mod` PAGE_LEN) as -> by (apply Z.mod_small; change PAGE_LEN with 4096 in *; lia).
    destruct (rep_occupied _ _ _ Hr _ _ Hi) as (_ & Hb & _). specialize (Hb ltac:(done)). set (occ' := occ ++ _).
    assert (zlen occ' = zlen occ + 1) as Hz by (unfold occ'; by rewrite zlen_app).
    set (full := if zlen occ' =? DIRECT_PAGE_THRESHOLD then Some (Z.to_nat (s / PAGE_LEN)) else None).
    pose proof (rep_insert_paged full t m s v (Sparse occ) (Sparse occ') (<[s := v]> (as_sparse t)) Hr Hu Hs Hx Hi) as Hrep.
    cbv zeta in Hrep. rewrite !(zsum_insert _ _ _ _ _ Hi) in Hrep. cbn [sparse_page_count direct_series_count] in Hrep.
    rewrite <- (rep_sparse_pages _ _ _ Hr), <- (rep_direct_series _ _ _ Hr), Z.sub_0_r, Z.add_0_r, (bool_decide_eq_false_2 (occ' = [])) in Hrep by (unfold occ'; by destruct occ).
    replace (as_sparse_pages t - (if bool_decide (occ = []) then 0 else 1) + 1) with (as_sparse_pages t + (if bool_decide (occ = []) then 1 else 0)) in Hrep by (case_bool_decide; lia).
    set (t1 := mk_adaptive _ _ _ _ _ _ _) in *.
    assert (table_rep full t1 (<[s := v]> m)) as Hrep1.
    { apply Hrep. split; [done|]. split; [done|]. unfold full. destruct (Z.eqb_spec (zlen occ') DIRECT_PAGE_THRESHOLD) as [Hf|Hf]; [done|]. intros _. rewrite Hz in *. lia. }
    destruct (Z.eqb_spec (zlen occ') DIRECT_PAGE_THRESHOLD) as [Hf|Hf]; [|by exists t1].
    destruct (promote_page_ok t1 (<[s := v]> m) (s / PAGE_LEN) occ') as (t' & Ht' & Hr'); [exact Hrep1| | |unfold occ'; by destruct occ|].
    + split; [done|]. pose proof (rep_page_count _ _ _ Hr) as Hpc. apply lookup_lt_Some in Hi. unfold zlen in Hpc. lia.
    + cbn. apply list_lookup_insert_eq. by eapply lookup_lt_Some.
    + exists t'. by rewrite Ht'.
  - destruct (rep_direct _ _ _ Hr _ _ Hi) as [Hok Hl]. destruct (Hl _ Hmod) as [Hm _]. rewrite Z2Nat.id, <- Heq in Hm by done.
    rewrite page_insert_ok, Hm by done. destruct (m !! s) as [x|] eqn:Hx; cbn [mbind option_bind].
    + exists (with_pages t (<[Z.to_nat (s / PAGE_LEN) := Direct p]> (as_pages t)) (as_sparse t)). split; [done|]. rewrite list_insert_id by done. by destruct t.
    + destruct (page_insert_map p (s `mod` PAGE_LEN) v Hok Hmod Hm) as [Hok' Hm']. set (p' := mk_direct _ _ _) in *.
      pose proof (rep_insert_paged None t m s v (Direct p) (Direct p') (as_sparse t) Hr Hu Hs Hx Hi) as Hrep.
      cbv zeta in Hrep. rewrite !(zsum_insert _ _ _ _ _ Hi) in Hrep. cbn [sparse_page_count direct_series_count] in Hrep.
      rewrite <- (rep_sparse_pages _ _ _ Hr), <- (rep_direct_series _ _ _ Hr), Z.sub_0_r, Z.add_0_r in Hrep.
      assert (zlen (dp_values p') = zlen (dp_values p) + 1) as Hz by (unfold p'; cbn; by rewrite zlen_app). rewrite Hz in Hrep.
      replace (as_direct_series t - zlen (dp_values p) + (zlen (dp_values p) + 1)) with (as_direct_series t + 1) in Hrep by lia.
      eexists. split; [done|]. by apply Hrep.
Qed.

Lemma adaptive_insert_ok t m s v : table_rep None t m → in_u32 s →
  ∃ t', adaptive_insert_new t s v = Some (if m !! s then Err v else Ok tt, t') ∧ table_rep None t' (if m !! s then m else <[s := v]> m).
Proof.
  intros Hr Hu. pose proof Hu as [Hs0 Hs1]. destruct (Z.lt_ge_cases s PAGED_REF_LIMIT) as [Hs|Hs].
  - destruct (address_split s Hs0) as (Hq & Hmod & Heq). assert (0 ≤ s / PAGE_LEN < 4096) as Hpg.
    { split; [done|]. change PAGED_REF_LIMIT with (4096 * 4096) in Hs. change PAGE_LEN with 4096 in *. lia. }
    pose proof (rep_grow t m (s / PAGE_LEN) Hr Hpg) as Hr0. set (t0 := with_pages _ _ _) in *.
    assert (Z.to_nat (s / PAGE_LEN) < length (as_pages t0))%nat as Hlt by (cbn; unfold grow_pages; rewrite length_app, length_replicate; lia).
    destruct (lookup_lt_is_Some_2 _ _ Hlt) as [page Hi].
    assert (grow_pages (as_pages t0) (s / PAGE_LEN) = as_pages t0) as Hgrow.
    { unfold grow_pages at 1. replace (Z.to_nat (s / PAGE_LEN + 1) - length (as_pages t0))%nat with 0%nat by lia. by rewrite app_nil_r. }
    destruct (paged_insert_ok t0 m s v page Hr0 Hu Hs Hi Hgrow) as (t' & Ht' & Hr'). exists t'. split; [|done]. rewrite <- Ht'.
    unfold adaptive_insert_new. rewrite paged_slot_spec, (proj2 (Z.ltb_lt _ _)) by done. by rewrite Hgrow.
  - unfold adaptive_insert_new. rewrite paged_slot_spec, (proj2 (Z.ltb_ge _ _)) by done.
    assert (direct_page t s = None) as Hnone by (unfold direct_page; by rewrite paged_slot_spec, (proj2 (Z.ltb_ge _ _))).
    rewrite (rep_sparse _ _ _ Hr s Hs0 Hnone). destruct (m !! s) eqn:Hx; [by exists t|]. eexists. split; [done|]. by apply rep_insert_above.
Qed.

(** *** Writing through references *)

Lemma same_dom_size m m' : (∀ s, is_Some (m' !! s) ↔ is_Some (m !! s)) → size m' = size m.
Proof. intros Hm. rewrite <- !(size_dom (D:=gset Z)). f_equal. apply leibniz_equiv. intros s. by rewrite !elem_of_dom. Qed.
Lemma refs_above_dom m m' : (∀ s, is_Some (m' !! s) ↔ is_Some (m !! s)) → refs_above m' = refs_above m.
Proof.
  intros Hm. unfold refs_above. f_equal. apply same_dom_size. intros s. specialize (Hm s). unfold is_Some in *.
  setoid_rewrite map_lookup_filter_Some. cbn. naive_solver.
Qed.
Lemma alter_dom (f : V → V) s m k : is_Some (alter f s m !! k) ↔ is_Some (m !! k).
Proof. destruct (decide (s = k)) as [<-|Hne]; [by rewrite lookup_alter_eq, fmap_is_Some|by rewrite lookup_alter_ne]. Qed.

(** Values may change as long as they stay where they are. *)
Lemma rep_same_shape t m pages sparse m' : table_rep None t m → (∀ s, is_Some (m' !! s) ↔ is_Some (m !! s)) → length pages = length (as_pages t) →
  (∀ i occ, pages !! i = Some (Sparse occ) ↔ as_pages t !! i = Some (Sparse occ)) →
  (∀ i p', pages !! i = Some (Direct p') → ∃ p, as_pages t !! i = Some (Direct p) ∧ page_ok p' ∧ zlen (dp_values p') = zlen (dp_values p) ∧
     ∀ slot, in_page slot → page_map p' !! slot = m' !! (Z.of_nat i * PAGE_LEN + slot)) →
  (∀ s, is_Some (sparse !! s) ↔ is_Some (as_sparse t !! s)) → (∀ s v, sparse !! s = Some v → m' !! s = Some v) →
  table_rep None (with_pages t pages sparse) m'.
Proof.
  intros [Hk Hpc Hdir Hd Ho Hsp Hspk Hlen Hsps Hab Hdp Hds] Hm Hl Hsparse Hdirect Hdom Hval.
  assert (∀ g, (∀ i page page', pages !! i = Some page' → as_pages t !! i = Some page → g page' = g page) → zsum g pages = zsum g (as_pages t)) as Hsum.
  { clear -Hl. generalize dependent pages. generalize (as_pages t) as l. induction l as [|x l IH]; intros [|y pages] Hl g Hg; try done.
    change (g y + zsum g pages = g x + zsum g l). rewrite (Hg 0%nat x y), (IH pages); [done|by injection Hl| |done|done].
    intros i. apply (Hg (S i)). }
  assert (∀ i page page', pages !! i = Some page' → as_pages t !! i = Some page → sparse_page_count page' = sparse_page_count page ∧
    direct_page_count page' = direct_page_count page ∧ direct_series_count page' = direct_series_count page) as Hcounts.
  { intros i page [occ|p'] Hi' Hi; [apply Hsparse in Hi'; rewrite Hi in Hi'; by injection Hi' as ->|].
    destruct (Hdirect i p' Hi') as (p & Hp & _ & Hz & _). rewrite Hi in Hp. injection Hp as ->. done. }
  split; cbn [with_pages as_pages as_sparse as_len as_sparse_pages as_refs_above_paged_limit as_direct_pages as_direct_series].
  - intros s v Hv. destruct (proj1 (Hm s)) as [x Hx]; [by eexists|]. by eapply Hk.
  - unfold zlen in *. by rewrite Hl.
  - intros s v Hv. destruct (proj1 (Hm s)) as [x Hx]; [by eexists|]. unfold zlen. rewrite Hl. by eapply Hdir.
  - intros i p' Hi. destruct (Hdirect i p' Hi) as (p & Hp & Hok & _ & Hlk). destruct (Hd i p Hp) as [_ Hl0]. split; [done|]. intros slot Hslot.
    split; [by apply Hlk|]. destruct (Hl0 slot Hslot) as [_ Hn]. destruct (sparse !! _) eqn:E; [|done].
    destruct (proj1 (Hdom (Z.of_nat i * PAGE_LEN + slot))) as [x Hx]; [by eexists|]. congruence.
  - intros i occ Hi%Hsparse. destruct (Ho i occ Hi) as (? & ? & Hin). split; [done|]. split; [done|]. intros slot. by rewrite Hin, Hm.
  - intros s Hs Hnone. assert (direct_page t s = None) as Hn0.
    { destruct (direct_page t s) as [[[pg sl] p]|] eqn:He; [|done]. apply direct_page_spec in He as (Hlt & Hpg & Hsl & Hp); [|done]. exfalso.
      destruct (lookup_lt_is_Some_2 pages (Z.to_nat pg)) as [page Hpage]; [rewrite Hl; by eapply lookup_lt_Some|].
      destruct page as [occ|p']; [apply Hsparse in Hpage; congruence|].
      assert (direct_page (with_pages t pages sparse) s = Some (pg, sl, p')); [by apply direct_page_spec|congruence]. }
    specialize (Hsp s Hs Hn0). destruct (sparse !! s) as [x|] eqn:Hx; [symmetry; by apply Hval|].
    destruct (m' !! s) as [y|] eqn:Hy; [|done]. destruct (proj1 (Hm s)) as [z Hz]; [by eexists|]. rewrite Hz in Hsp.
    destruct (proj2 (Hdom s)) as [w Hw]; [by eexists|]. congruence.
  - exact Hval.
  - by rewrite (same_dom_size m m').
  - rewrite Hsps. symmetry. apply Hsum. intros i page page' ? ?. by apply (Hcounts i).
  - by rewrite (refs_above_dom (as_sparse t) sparse).
  - rewrite Hdp. symmetry. apply Hsum. intros i page page' ? ?. by apply (Hcounts i).
  - rewrite Hds. symmetry. apply Hsum. intros i page page' ? ?. by apply (Hcounts i).
Qed.

Lemma adaptive_modify_ok f t m s : table_rep None t m → 0 ≤ s → ∃ t', adaptive_modify f t s = Some (m !! s, t') ∧ table_rep None t' (alter f s m).
Proof.
  intros Hr Hs. unfold adaptive_modify. destruct (direct_page t s) as [[[pg slot] p]|] eqn:He.
  - destruct (rep_direct_at _ _ _ _ _ _ _ Hr Hs He) as (Hok & Hslot & Hms & Hsn). apply direct_page_spec in He as (Hlt & -> & -> & Hp); [|done].
    destruct (page_modify_ok f p (s `mod` PAGE_LEN) Hok Hslot) as (p' & -> & Hok' & Hm' & Hz). cbn [mbind option_bind]. rewrite Hms. eexists. split; [done|].
    apply (rep_same_shape t m); try done.
    + apply alter_dom.
    + by rewrite length_insert.
    + intros i occ. destruct (decide (Z.to_nat (s / PAGE_LEN) = i)) as [<-|Hi]; [|by rewrite list_lookup_insert_ne].
      rewrite list_lookup_insert_eq by (by eapply lookup_lt_Some). by rewrite Hp.
    + intros i q. destruct (decide (Z.to_nat (s / PAGE_LEN) = i)) as [<-|Hi].
      * rewrite list_lookup_insert_eq by (by eapply lookup_lt_Some). intros [= <-]. exists p. split; [done|]. split; [done|]. split; [unfold zlen; by rewrite Hz|].
        intros k Hk. destruct (address_split s Hs) as (Hq & _ & Heq). rewrite Z2Nat.id, Hm' by done. destruct (rep_direct _ _ _ Hr _ _ Hp) as [_ Hl]. specialize (Hl k Hk).
        rewrite Z2Nat.id in Hl by done. destruct Hl as [Hl _]. destruct (decide (s `mod` PAGE_LEN = k)) as [<-|Hne].
        -- by rewrite <- Heq, !lookup_alter_eq, Hms.
        -- rewrite !lookup_alter_ne; [done|lia|done].
      * rewrite list_lookup_insert_ne by done. intros Hq. exists q. destruct (rep_direct _ _ _ Hr _ _ Hq) as [Hqok Hl]. split; [done|]. split; [done|]. split; [done|].
        intros k Hk. rewrite lookup_alter_ne; [by apply Hl|]. intros Heq. destruct (address_eq i k s Hk (eq_sym Heq)) as [Hi' _]. by apply Hi.
    + intros k v Hv. rewrite lookup_alter_ne; [by apply (rep_sparse_keys _ _ _ Hr)|]. intros ->. congruence.
  - rewrite (rep_sparse _ _ _ Hr s Hs He). eexists. split; [done|]. apply (rep_same_shape t m); try done.
    + apply alter_dom.
    + intros i p Hp. destruct (rep_direct _ _ _ Hr _ _ Hp) as [Hok Hl]. exists p. split; [done|]. split; [done|]. split; [done|]. intros k Hk.
      rewrite lookup_alter_ne; [by apply Hl|]. intros Heq. destruct (address_eq i k s Hk (eq_sym Heq)) as [-> ->]. assert (s < PAGED_REF_LIMIT) as Hlt.
      { pose proof (rep_page_count _ _ _ Hr) as Hpc. apply lookup_lt_Some in Hp. unfold zlen in Hpc. destruct (address_split s Hs) as (Hq & Hm & Heq').
        change PAGED_REF_LIMIT with (4096 * 4096). change PAGE_LEN with 4096 in *. lia. }
      assert (direct_page t s = Some (s / PAGE_LEN, s `mod` PAGE_LEN, p)); [by apply direct_page_spec|congruence].
    + intros k. apply alter_dom.
    + intros k v. destruct (decide (s = k)) as [<-|Hne]; [|rewrite !lookup_alter_ne by done; apply (rep_sparse_keys _ _ _ Hr)].
      by rewrite !lookup_alter_eq, (rep_sparse _ _ _ Hr s Hs He).
Qed.

Lemma adaptive_values_mut_ok f t m : table_rep None t m → table_rep None (adaptive_values_mut f t) (f <$> m).
Proof.
  intros Hr. assert (∀ m' k, is_Some ((f <$> m') !! k) ↔ is_Some (m' !! k)) as Hdom by (intros m' k; by rewrite lookup_fmap, fmap_is_Some).
  apply (rep_same_shape t m); try done.
  - apply length_fmap.
  - intros i occ. rewrite list_lookup_fmap. destruct (as_pages t !! i) as [[occ'|p]|]; done.
  - intros i p'. rewrite list_lookup_fmap. destruct (as_pages t !! i) as [[occ'|p]|] eqn:Hp; [done| |done]. intros [= <-].
    destruct (rep_direct _ _ _ Hr _ _ Hp) as [Hok Hl]. destruct (page_fmap_ok f p Hok) as [Hok' Hm']. exists p. split; [done|]. split; [done|].
    split; [unfold zlen; cbn; by rewrite length_fmap|]. intros k Hk. rewrite Hm', !lookup_fmap. by destruct (Hl k Hk) as [-> _].
  - intros k v. rewrite !lookup_fmap. intros (x & Hx & ->)%fmap_Some. by rewrite (rep_sparse_keys _ _ _ Hr k x Hx).
Qed.

(** *** Counters *)

Lemma adaptive_stats_scan t m : table_rep None t m → adaptive_stats t = scanned_stats t.
Proof.
  intros Hr. unfold adaptive_stats, scanned_stats. rewrite (rep_sparse_pages _ _ _ Hr), (rep_above _ _ _ Hr), (rep_direct_pages _ _ _ Hr), (rep_direct_series _ _ _ Hr).
  f_equal. pose proof (zsum_le direct_page_count 1 (as_pages t) ltac:(intros [] _; cbn; lia)) as Hle. pose proof (rep_page_count _ _ _ Hr) as Hpc.
  change PAGE_LEN with 4096. rewrite Z.min_r by lia.
  assert (∀ i p, as_pages t !! i = Some (Direct p) → page_ok p) as Hok by (intros i p Hp; by apply (rep_direct _ _ _ Hr) in Hp as [? _]).
  clear -Hok. unfold zsum. induction (as_pages t) as [|x l IH]; [done|]. specialize (IH (λ i, Hok (S i))). cbn.
  destruct x as [occ|p]; cbn; [lia|]. pose proof (po_slots _ (Hok 0%nat p eq_refl)) as Hz. unfold zlen. rewrite Hz. change (Z.of_nat (Z.to_nat PAGE_LEN)) with 4096. lia.
Qed.
End table_spec.

(** ** Iterators give every entry once *)

Section iter_spec.
Context {V A : Type} (direct_items : Z → DirectSeriesPage V → list A).
Implicit Types (pages : list (SeriesPage V)) (it : AdaptiveIter (V:=V) (A:=A)).

Fixpoint pages_items (page_index : Z) pages : list A :=
  match pages with
  | [] => []
  | page :: pages => (match page with Direct p => direct_items page_index p | Sparse _ => [] end) ++ pages_items (page_index + 1) pages
  end.
(** What an iterator has still to give. *)
Definition iter_contents it : list A := it_sparse it ++ default [] (it_direct it) ++ pages_items (it_page_index it) (it_pages it).

Definition next_spec (contents : list A) (remaining : Z) (r : option A * AdaptiveIter (V:=V) (A:=A)) : Prop :=
  match contents with
  | [] => r.1 = None
  | x :: rest => r.1 = Some x ∧ iter_contents r.2 = rest ∧ it_remaining r.2 = remaining - 1
  end.

Lemma iter_loop_spec pages : ∀ page_index direct remaining,
  next_spec (default [] direct ++ pages_items page_index pages) remaining (iter_loop direct_items pages page_index direct remaining).
Proof.
  induction pages as [|page pages IH]; intros page_index [[|x l]|] remaining; try done; cbn [iter_loop pages_items default from_option id app];
    (destruct page as [occ|p]; [apply (IH _ None)|apply (IH _ (Some _))]).
Qed.
Lemma iter_next_spec it : next_spec (iter_contents it) (it_remaining it) (iter_next direct_items it).
Proof. destruct it as [[|x l] pages page_index direct remaining]; [apply iter_loop_spec|done]. Qed.

Lemma drain_iter_spec fuel : ∀ it, (length (iter_contents it) < fuel)%nat →
  drain_iter direct_items fuel it = Some (imap (λ i x, (x, (it_remaining it - Z.of_nat i, Some (it_remaining it - Z.of_nat i)))) (iter_contents it)).
Proof.
  induction fuel as [|fuel IH]; intros it Hlen; [lia|]. cbn [drain_iter]. unfold size_hint. pose proof (iter_next_spec it) as Hn. unfold next_spec in Hn.
  destruct (iter_next direct_items it) as [r it']. destruct (iter_contents it) as [|x rest] eqn:Hc; cbn [fst snd] in Hn; [by rewrite Hn|].
  destruct Hn as (-> & Hrest & Hrem). rewrite IH by (rewrite Hrest; cbn in Hlen; lia). cbn [mbind option_bind]. rewrite Hrest, Hrem. f_equal. cbn [imap].
  rewrite Z.sub_0_r. f_equal. apply imap_ext. intros i y Hy. cbn. do 2 f_equal; [lia|f_equal; lia].
Qed.

Lemma pages_items_elem x pages : ∀ page_index, x ∈ pages_items page_index pages ↔ ∃ i p, pages !! i = Some (Direct p) ∧ x ∈ direct_items (page_index + Z.of_nat i) p.
Proof.
  induction pages as [|page pages IH]; intros page_index; cbn [pages_items].
  { split; [by intros ?%not_elem_of_nil|]. by intros (i & p & Hi & _). }
  rewrite elem_of_app, IH. split.
  - intros [Hx|(i & p & Hp & Hx)]; [|exists (S i), p; split; [done|]; by replace (page_index + Z.of_nat (S i)) with (page_index + 1 + Z.of_nat i) by lia].
    destruct page as [occ|p]; [by apply not_elem_of_nil in Hx|]. exists 0%nat, p. split; [done|]. by rewrite Z.add_0_r.
  - intros ([|i] & p & Hp & Hx); [left; injection Hp as ->; by rewrite Z.add_0_r in Hx|right]. exists i, p. split; [done|].
    by replace (page_index + 1 + Z.of_nat i) with (page_index + Z.of_nat (S i)) by lia.
Qed.
End iter_spec.

Section entries_spec.
Context {V : Type} `{TableOrder}.
Implicit Types (t : AdaptiveSeriesTable V) (p : DirectSeriesPage V) (m : gmap Z V).
Abbreviation entry_list := (pages_items (V:=V) entry_items).

Lemma entry_items_elem page_index p s v : page_ok p → (s, v) ∈ entry_items page_index p ↔
  ∃ slot, 0 ≤ slot < PAGE_LEN ∧ s = page_index * PAGE_LEN + slot ∧ page_map p !! slot = Some v.
Proof.
  intros Hp. unfold entry_items. change (zip _ _) with (page_entries p). rewrite list_elem_of_fmap. split.
  - intros ([slot x] & [= -> ->] & Hin). exists slot. apply page_entries_elem in Hin as Hm; [|done]. split; [|done].
    apply list_elem_of_lookup in Hin as [j Hj]. unfold page_entries in Hj. apply lookup_zip_Some in Hj as [Hj _]. by apply (po_reverse _ Hp) in Hj as [? _].
  - intros (slot & _ & -> & Hm). exists (slot, v). split; [done|]. by apply page_entries_elem.
Qed.
Lemma entry_list_nodup (pages : list (SeriesPage V)) : (∀ i p, pages !! i = Some (Direct p) → page_ok p) → ∀ page_index, NoDup (entry_list page_index pages).
Proof.
  induction pages as [|page pages IH]; intros Hok page_index; [apply NoDup_nil_2|]. cbn [pages_items]. apply NoDup_app. split_and!.
  - destruct page as [occ|p]; [apply NoDup_nil_2|]. specialize (Hok 0%nat p eq_refl). unfold entry_items. apply NoDup_fmap_2.
    + intros [a b] [c d] [= Heq ->]. f_equal. lia.
    + apply (NoDup_fmap_1 fst). by apply page_entries_nodup.
  - intros [s v] Hs (i & p & Hp & Hx)%pages_items_elem. destruct page as [occ|p0]; [by apply not_elem_of_nil in Hs|].
    apply entry_items_elem in Hs as (a & Ha & -> & _); [|by apply (Hok 0%nat)]. apply entry_items_elem in Hx as (b & Hb & Heq & _); [|by apply (Hok (S i))].
    change PAGE_LEN with 4096 in *. lia.
  - apply IH. intros i. apply (Hok (S i)).
Qed.

(** The entries of the table, as the iterator gives them. *)
Lemma iter_entries t m : table_rep None t m → iter_contents entry_items (adaptive_iter t) ≡ₚ map_to_list m.
Proof.
  intros Hr. unfold iter_contents, adaptive_iter. cbn [it_sparse it_direct it_page_index it_pages default from_option app].
  assert (∀ i p, as_pages t !! i = Some (Direct p) → page_ok p) as Hok by (intros i p Hp; by apply (rep_direct _ _ _ Hr) in Hp as [? _]).
  assert (∀ s v, (s, v) ∈ entries (as_sparse t) ↔ as_sparse t !! s = Some v) as Hsp by (intros s v; by rewrite entries_perm, elem_of_map_to_list).
  assert (∀ s v, (s, v) ∈ entry_list 0 (as_pages t) ↔ m !! s = Some v ∧ ∃ d, direct_page t s = Some d) as Hdir.
  { intros s v. rewrite pages_items_elem. split.
    - intros (i & p & Hp & Hx). apply entry_items_elem in Hx as (slot & Hslot & -> & Hm); [|by eapply Hok]. rewrite Z.add_0_l.
      destruct (rep_direct _ _ _ Hr i p Hp) as [_ Hl]. destruct (Hl slot Hslot) as [Hl1 _]. rewrite Hm in Hl1. split; [done|].
      assert (0 ≤ Z.of_nat i * PAGE_LEN + slot) as H0 by (change PAGE_LEN with 4096 in *; lia). exists (Z.of_nat i, slot, p). apply direct_page_spec; [done|].
      destruct (address_join (Z.of_nat i) slot Hslot) as [-> ->]. split; [|split; [done|split; [done|by rewrite Nat2Z.id]]].
      pose proof (rep_page_count _ _ _ Hr) as Hpc. apply lookup_lt_Some in Hp. unfold zlen in Hpc. change PAGED_REF_LIMIT with (4096 * 4096). change PAGE_LEN with 4096 in *. lia.
    - intros (Hm & [[pg slot] p] & Hd). destruct (rep_keys _ _ _ Hr _ _ Hm) as [Hs _]. apply direct_page_spec in Hd as Hp; [|done]. destruct Hp as (_ & -> & -> & Hp).
      destruct (rep_direct_at _ _ _ _ _ _ _ Hr Hs Hd) as (Hpk & Hslot & Hms & _). destruct (address_split s Hs) as (Hq & _ & Heq).
      eexists _, p. split; [exact Hp|]. apply entry_items_elem; [done|]. exists (s `mod` PAGE_LEN). rewrite Z2Nat.id, Z.add_0_l by done. rewrite Hms. done. }
  apply NoDup_Permutation; [|apply NoDup_map_to_list|].
  - apply NoDup_app. split_and!; [rewrite entries_perm; apply NoDup_map_to_list| |by apply entry_list_nodup].
    intros [s v] Hs%Hsp [Hm [[[pg slot] p] Hd]]%Hdir. destruct (rep_keys _ _ _ Hr _ _ Hm) as [Hs0 _].
    destruct (rep_direct_at _ _ _ _ _ _ _ Hr Hs0 Hd) as (_ & _ & _ & Hn). congruence.
  - intros [s v]. rewrite elem_of_app, Hsp, Hdir, elem_of_map_to_list. split; [intros [?|[? _]]; [by apply (rep_sparse_keys _ _ _ Hr)|done]|].
    intros Hm. destruct (direct_page t s) as [d|] eqn:Hd; [right; split; [done|by exists d]|left]. destruct (rep_keys _ _ _ Hr _ _ Hm) as [Hs0 _].
    by rewrite (rep_sparse _ _ _ Hr s Hs0 Hd).
Qed.

(** The values come in the order of the entries. *)
Lemma iter_values t m : table_rep None t m → iter_contents value_items (adaptive_values t) = (iter_contents entry_items (adaptive_iter t)).*2.
Proof.
  intros Hr. unfold iter_contents, adaptive_iter, adaptive_values. cbn [it_sparse it_direct it_page_index it_pages default from_option app]. rewrite fmap_app. f_equal.
  assert (∀ i p, as_pages t !! i = Some (Direct p) → page_ok p) as Hok by (intros i p Hp; by apply (rep_direct _ _ _ Hr) in Hp as [? _]).
  clear -Hok. generalize 0. induction (as_pages t) as [|page pages IH]; intros n; [done|]. cbn [pages_items]. rewrite fmap_app, <- IH by (intros i; apply (Hok (S i))). f_equal.
  destruct page as [occ|p]; [done|]. unfold entry_items, value_items. rewrite <- list_fmap_compose.
  rewrite (list_fmap_ext _ snd) by done. symmetry. apply snd_zip. by rewrite (po_values _ (Hok 0%nat p eq_refl)).
Qed.
End entries_spec.

(** ** Runs *)

Section runs.
Context {V : Type} `{TableOrder}.

Inductive table_op :=
  | OpInsert (series : Z) (value : V)
  | OpModify (series : Z) (f : V → V)
  | OpValuesMut (f : V → V).
Inductive table_answer :=
  | AInsert (r : result V unit)
  | AModify (old : option V)
  | AValues.

Definition op_ok (op : table_op) : Prop := match op with OpInsert s _ | OpModify s _ => in_u32 s | OpValuesMut _ => True end.

Definition run_op (tbl : HeadSeriesTable V) (op : table_op) : option (table_answer * HeadSeriesTable V) :=
  match op with
  | OpInsert s v => '(r, tbl) ← table_insert_new tbl s v; Some (AInsert r, tbl)
  | OpModify s f => '(old, tbl) ← table_modify f tbl s; Some (AModify old, tbl)
  | OpValuesMut f => Some (AValues, table_values_mut f tbl)
  end.
Fixpoint run_ops (tbl : HeadSeriesTable V) (ops : list table_op) : option (list table_answer * HeadSeriesTable V) :=
  match ops with
  | [] => Some ([], tbl)
  | op :: ops => '(a, tbl) ← run_op tbl op; '(rest, tbl) ← run_ops tbl ops; Some (a :: rest, tbl)
  end.

(** The same on a finite map. *)
Definition map_op (m : gmap Z V) (op : table_op) : table_answer * gmap Z V :=
  match op with
  | OpInsert s v => if m !! s then (AInsert (Err v), m) else (AInsert (Ok tt), <[s := v]> m)
  | OpModify s f => (AModify (m !! s), alter f s m)
  | OpValuesMut f => (AValues, f <$> m)
  end.
Fixpoint map_ops (m : gmap Z V) (ops : list table_op) : list table_answer * gmap Z V :=
  match ops with
  | [] => ([], m)
  | op :: ops => let '(a, m) := map_op m op in let '(rest, m) := map_ops m ops in (a :: rest, m)
  end.

Definition holds (tbl : HeadSeriesTable V) (m : gmap Z V) : Prop :=
  match tbl with
  | Plain values above => values = m ∧ above = refs_above m
  | Adaptive t => table_rep None t m
  end.

Lemma run_op_holds tbl m op : holds tbl m → op_ok op → ∃ tbl', run_op tbl op = Some ((map_op m op).1, tbl') ∧ holds tbl' (map_op m op).2.
Proof.
  intros Hh Hop. destruct tbl as [values above|t]; destruct op as [s v|s f|f]; cbn [run_op map_op table_insert_new table_modify table_values_mut].
  - destruct Hh as [-> ->]. destruct (m !! s) eqn:Hs; cbn; eexists; (split; [done|]); [done|]. split; [done|]. rewrite refs_above_insert by done.
    destruct (PAGED_REF_LIMIT <=? s); lia.
  - destruct Hh as [-> ->]. cbn. eexists. split; [done|]. split; [done|]. symmetry. apply refs_above_dom. intros k. apply alter_dom.
  - destruct Hh as [-> ->]. cbn. eexists. split; [done|]. split; [done|]. symmetry. apply refs_above_dom. intros k. by rewrite lookup_fmap, fmap_is_Some.
  - destruct (adaptive_insert_ok t m s v Hh Hop) as (t' & -> & Hr). cbn. destruct (m !! s); by exists (Adaptive t').
  - destruct (adaptive_modify_ok f t m s Hh (proj1 Hop)) as (t' & -> & Hr). cbn. by exists (Adaptive t').
  - eexists. split; [done|]. by apply adaptive_values_mut_ok.
Qed.
Lemma run_ops_hold ops : ∀ tbl m, holds tbl m → Forall op_ok ops → ∃ tbl', run_ops tbl ops = Some ((map_ops m ops).1, tbl') ∧ holds tbl' (map_ops m ops).2.
Proof.
  induction ops as [|op ops IH]; intros tbl m Hh Hops; [by exists tbl|]. apply Forall_cons_1 in Hops as [Hop Hops]. cbn [run_ops map_ops].
  destruct (run_op_holds tbl m op Hh Hop) as (tbl1 & -> & Hh1). destruct (map_op m op) as [a m1]. cbn in *.
  destruct (IH tbl1 m1 Hh1 Hops) as (tbl2 & -> & Hh2). destruct (map_ops m1 ops) as [rest m2]. cbn in *. by exists tbl2.
Qed.

(** C4: the series table is a finite map.  Any insertions, writes through
    references and writes to every value, on a fresh table of either kind, never
    panic and answer as on a finite map; the table then gets what the map gives and
    has its length, the counters of the adaptive kind are those of a scan, and its
    iterators give every entry, and every value, exactly once with exact size hints. *)
Theorem series_table_refines adaptive ops : Forall op_ok ops → let m := (map_ops ∅ ops).2 in
  ∃ tbl, run_ops (table_new adaptive) ops = Some ((map_ops ∅ ops).1, tbl) ∧
    (∀ s, in_u32 s → table_get tbl s = Some (m !! s)) ∧ table_len tbl = Z.of_nat (size m) ∧
    match tbl with
    | Plain values above => values = m ∧ above = refs_above m
    | Adaptive t => adaptive_stats t = scanned_stats t ∧ ∃ l, l ≡ₚ map_to_list m ∧
        let hinted {A} (l : list A) := imap (λ i x, (x, let n := Z.of_nat (size m - i) in (n, Some n))) l in
        drain_iter entry_items (S (size m)) (adaptive_iter t) = Some (hinted l) ∧ drain_iter value_items (S (size m)) (adaptive_values t) = Some (hinted l.*2)
    end.
Proof.
  intros Hops m. assert (holds (table_new adaptive) ∅) as Hnew by (destruct adaptive; [apply adaptive_default_rep|done]).
  destruct (run_ops_hold ops _ _ Hnew Hops) as (tbl & Hrun & Hh). fold m in Hh. exists tbl. split; [done|]. destruct tbl as [values above|t].
  { destruct Hh as [-> ->]. done. }
  split; [intros s [Hs _]; by apply (adaptive_get_ok None t m)|]. split; [apply (rep_len _ _ _ Hh)|]. split; [by apply (adaptive_stats_scan t m)|].
  pose proof (iter_entries t m Hh) as Hperm. pose proof (iter_values t m Hh) as Hvals. exists (iter_contents entry_items (adaptive_iter t)). split; [done|].
  assert (length (iter_contents entry_items (adaptive_iter t)) = size m) as Hlen by (rewrite Hperm; apply length_map_to_list).
  cbv zeta. rewrite !drain_iter_spec by (rewrite ?Hvals, ?length_fmap; lia). cbn [adaptive_iter adaptive_values it_remaining]. rewrite (rep_len _ _ _ Hh), <- Hvals.
  split; f_equal; apply imap_ext; intros i x Hx%lookup_lt_Some; rewrite ?Hvals, ?length_fmap, Hlen in Hx; do 2 f_equal; [lia|f_equal; lia|lia|f_equal; lia].
Qed.
End runs.

(** ** Witness: a page that is promoted, and a reference above the paged ones *)

#[local] Instance listed_order : TableOrder := {| entries V m := map_to_list m; entries_perm V m := Permutation_refl _ |}.

Definition sample_ops : list (table_op (V:=Z)) :=
  ((λ i, OpInsert (Z.of_nat i) (Z.of_nat i * 10)) <$> seq 0 130) ++ [OpInsert PAGED_REF_LIMIT 7; OpModify 5 (Z.add 1); OpInsert 5 0].

Example sample_promoted : match run_ops (table_new true) sample_ops with
  | Some (_, Adaptive t) => as_direct_pages t = 1 ∧ as_direct_series t = 130 ∧ size (as_sparse t) = 1%nat
  | _ => False
  end.
Proof. vm_compute. done. Qed.

Lemma series_table_refines_witness : ∃ tbl, run_ops (table_new true) sample_ops = Some ((map_ops ∅ sample_ops).1, tbl) ∧
  table_get tbl 5 = Some (Some 51) ∧ table_len tbl = 131.
Proof.
  assert (Forall op_ok sample_ops) as Hops.
  { apply Forall_app. split; [|repeat (apply Forall_cons_2; [by (split; vm_compute)|]); apply Forall_nil_2].
    apply Forall_fmap, Forall_forall. intros i Hi%elem_of_seq. split; cbn; lia. }
  destruct (series_table_refines true sample_ops Hops) as (tbl & Hrun & Hget & Hlen & _). exists tbl. split; [exact Hrun|]. split.
  - rewrite (Hget 5) by (split; cbn; lia). vm_compute. reflexivity.
  - rewrite Hlen. vm_compute. reflexivity.
Defined.
